(* ===== verification/_CoqProject ===== *)
-Q . S2P
Prelude.v
GoLib.v
Errors.v
Json.v
Utf8.v
ShellQuote.v
KvJson.v
Roster.v
Splice.v
RosterWrite.v
RosterSafe.v
RosterPass.v
Rest.v
Vms.v
Task.v
Snapshot.v
Orphans.v
Grants.v
OpRun.v
Client.v
VmFields.v
VmLife.v
Network.v
Storage.v
StorageOps.v
BridgeIsolation.v
Remote.v
Cluster.v
Routed.v
AccessLists.v
RootAccess.v
RootSession.v
PveUm.v
FreeOrphans.v
Lock.v
GuestAgent.v
SnapshotCmd.v
Rotation.v
PinTls.v
Bootstrap.v
BootSafe.v
Import.v
BootRoster.v
Keys.v
Inventory.v
AccessGuard.v
GuestAddr.v
Outer.v
Screen.v
Reset.v
VmCmd.v
ApiCmd.v
HarnessVm.v
OpCmd.v
