(* ===== verification/Prelude.v ===== *)
(** * pveforge: a model of the code that decides what is changed on a Proxmox VE cluster

    pveforge (Go, under src/) is a command line tool that keeps the objects of a PVE
    cluster (VMs, storages, networks, users, grants) as an operator asked. It talks to
    PVE over REST with an API token, and to the hosts over SSH as root where a token
    does not reach. This development models the code that decides what is read, what is
    written, in which order and under which conditions, as executable programs over the
    exchanges with PVE and the hosts, and proves of each what its documentation promises,
    for whatever the other side answers.

    ** How a program is modelled

    A function that talks to the outside is a program [io E A] (below): a tree of the
    questions it asks, of the signature [E], and of its results. Go's [(value, error)] is
    [res], an error value is the tree of wrapped errors [err] that [errors.Is] and
    [errors.As] walk, with the text that is printed, because the code reads texts. A
    theorem [always m Q] says that [Q] holds of the exchanges and of the result of every
    run of [m], in whatever environment, [abides I p m Q] that it asks only what [I] allows
    after the exchanges made so far, and [total m] that every run ends; [run] evaluates a program in a concrete one,
    which the examples do. A layer that implements the questions of another is a
    [handler], and [interp] composes them; [interp_refines], [steps_split] and
    [interp_invariant] carry what is proved of the upper layer down to the lower one. So
    the code is modelled in the layers it has:

      [OpRun.opE]        the calls [idempotent.Run] makes on an Op
      [Client.clientE]   the calls an Op makes on its client (internal/idempotent)
      [Routed.hostE]     REST exchanges and SSH connection of pve.RoutedClient
      [Rest.pveE]        the REST exchanges themselves (internal/pve)
      [Remote.sshE]      a command run on a host (internal/sshexec)
      [RootAccess.rootE] a command run as root by bootstrap.RootAccess, and below it
      [RootSession.sessionE], the session it runs over
      [PveUm.umE]        the calls of the user and group Ops on their client
      [PveUm.cmdE], [FreeOrphans.freeE], [SnapshotCmd.snapE], [VmCmd.vmE], [ApiCmd.apiE],
      [HarnessVm.harnessE]  what a whole command does
      [PinTls.bootE]     what a bootstrap, an import or a pin-tls run does, and below it
      [Rotation.tokenE]  the steps of the token phase
      [RosterWrite.rosterE]  the roster file, its lock and its temporary files
      [Outer.outerE]     what the harness asks: PVE, its ledger, its evidence

    ** The files

    - Prelude: programs, traces, handlers, their laws, and list lemmas. GoLib: the
      functions of Go's standard library the code calls, on byte strings. Errors, Json,
      Utf8: error values, JSON documents and their decoding, UTF-8.
    - ShellQuote (internal/sshexec/shellquote.go): quoting, against an automaton of the
      words a POSIX shell reads. KvJson (internal/kvjson): the key=value output and the
      parsing of arguments.
    - Rest (internal/pve rawrequest.go, notfound.go, unverifiable.go), Vms (vms, vmconfig,
      vmcreate, vmclone, vmshutdown, vmdestroy, findbytag, nextvmid .go), Task (task.go),
      Snapshot (snapshot.go, snapshotsectiongate.go), Orphans (storage.go,
      storageorphans.go), Grants (grant, client, pools, validate .go), Storage
      (storage.go), Cluster (clusterstatus, guests, nodeqemu .go), AccessLists (access.go),
      GuestAgent and GuestAddr (vmguest.go, rollbackwitness.go), AccessGuard (client.go:
      the transport that refuses to write /access).
    - OpRun (internal/idempotent/op.go), Client (the interfaces of the Ops) and the Ops:
      VmFields, VmLife, Network, StorageOps, BridgeIsolation, PveUm.
    - Remote (internal/sshexec: rootfields, linkstate, bridgelink, writefile .go), Routed
      (internal/pve/routed.go), RootAccess and RootSession (internal/bootstrap/access.go,
      and the grant checks of rotation.go and bootstrap.go).
    - FreeOrphans, SnapshotCmd and the end of PveUm: the commands [storage free-orphans]
      (cmd/pveforge/storage.go), [vm snapshot ...] (vmsnapshot.go), [user ensure] and
      [group ensure] (access.go), whole. VmCmd: [vm create], [vm get] and [vm set] (vm.go,
      reread.go). ApiCmd: [api get|post|put|delete] (api.go, api_object_key.go, api_node.go).
      OpCmd: [network bridge ...], [network set], [storage set-content], [storage alloc] and
      [storage create] (network.go, storage.go).
    - PinTls (internal/tlspin, internal/bootstrap/pintls.go): the capture of a TLS pin and
      the pin-tls command. Bootstrap, BootSafe (bootstrap.go, sshexec/removekey.go): the
      bootstrap run, with its lock, SSH session, key and pins, and what is proved of it.
      Rotation (rotation.go and [Run]'s part of bootstrap.go from the preflight on): its
      token phase, the minting, check, replacement and removal of a token. Import
      (bootstrap.go): the import of a token minted elsewhere. BootRoster: a bootstrap run
      with the writers of the roster file in the place of its questions to it. Keys (keys.go) and Inventory
      (inventory.go): the reports of a node's keys, users, groups and ACL entries.
    - Roster (internal/roster types, load, keys .go, the checks of writeback.go, and
      internal/tlspin), Splice (writeback.go: where a target's text lies and how it is
      edited byte for byte), RosterWrite (the writers, passphrase.go, tokenclear.go,
      rekey.go), RosterSafe and RosterPass (what is proved of them).
    - Outer and Screen (internal/harness/outer), Reset (internal/harness/reset/reset.go):
      what keeps the harness on live hosts to its own VMs, and its golden point. HarnessVm:
      the verbs of [harness vm] (cmd/pveforge/harness_vm.go).
    - Lock (internal/lock/lock.go): both lock protocols, and many commands at once as a
      transition system over the files' locks.

    Definitions keep the names of the Go functions; a method of an Op is prefixed with the
    Op it belongs to ([fields_Apply] is VMFieldsEnsure.Apply), a loop that is a function of
    its own is named for what it does.

    ** What the theorems show

    - Commands, end to end: a volume is deleted by [storage free-orphans] only under
      quorum, and only when no configuration of any VM on the complete list names it
      ([free_orphans_safe]); a user is written as asked and put in groups only after their
      roles were judged ([user_ensure_safe]); a grant is made only after every check on
      the cluster's own lists ([GrantACL_safe]); [vm create] makes only the VM it was told to,
      and a tag's only one, each under its lock ([vm_create_safe]); a raw request that changes
      something is sent once, under the lock of the object its path names, as the table of
      paths has it ([api_verb_safe], [apiObjectKey_iff]); a network or storage command changes
      something only with valid arguments and under its object's lock ([op_command_locked]),
      which is the one [api] takes for it ([api_locks_agree]).
    - A bootstrap sends the token of an insecure_tls target only over a pinned connection,
      dials the host with the key the operator named, if he named one, and records each pin
      as its session's host key is known ([Run_trusts]); it accounts for the key it installed
      ([Run_accounts_for_key]); its token phase changes nothing before its checks passed, and
      accounts for every token it made or revoked ([token_run_safe], [token_run_accounts]);
      an import writes only the token PVE accepted ([Import_safe]); a pin is recorded only
      when something vouches for it ([PinTLS_safe]).
    - The roster file is only ever replaced whole, synced, under its lock, by a text that
      decodes to the roster intended, also if the process dies in between
      ([roster_write_safe], [rekey_safe]); so it is all through a bootstrap, whose pins are
      the old ones or what that run captured ([Run_keeps_roster]).
    - The engine: [Run] has exactly the behaviours of its protocol, at most three
      attempts, always returns and unlocks ([Run_refines], [Run_applies],
      [Run_returns_unlocked]).
    - The Ops: writes are compare-and-swap against what was just read, or the documented
      exception; what is reported as written was written; destroying, cloning, snapshots
      and network changes happen only in the state that makes them safe, and are reverted
      otherwise.
    - No request of a client writes PVE's /access API, however its path is spelled
      ([RoundTrip_guards]).
    - Reads: an address of a guest is given only when it is the one it can be
      ([AddressForMAC_iff]); the reports on keys and principals show exactly what the lists
      give ([KeyReport_judges], [Inventory_shows]); an orphan, a free VMID, a quorum, a
      permission is reported exactly when the answers say so, and an answer that cannot be
      verified is an error.
    - The harness changes a VM only after PVE said it is one of its own ([Guard_vets]); each
      verb does so under the VM's lock, and a destroy succeeds only once proven
      ([harness_vm_safe]). It creates one only from the fields it lists ([ScreenCreate_iff]), and takes and goes
      back to the golden point in stages, each begun only once the one before was seen to
      hold on every VM ([Golden_keeps_plan], [Reset_keeps_plan]).
    - Round trips: whatever is quoted for the shell, for a line of output or in base64
      reads back as itself.
    - The lock: a mutation excludes all others, and a waiting mutation is not overtaken
      by reads once it is queued.

    ** Bounds and fuel

    [Run]'s attempts are [maxConflictRetries] = 3, the walk for a VMID at most 1000 steps,
    as in the code. The wait for a task is a loop the environment ends (a deadline of ten
    minutes polled every second): its model has fuel for [max_polls] = 601 polls, which
    every environment whose clock reaches the deadline keeps within
    ([WaitForTask_returns]). So is the wait for a command in a guest, whose fuel takes it
    that no tick comes once the deadline has passed (Go's select may still choose one that
    was ready at the same moment). A JSON parser has twice the length of its input, which is
    more than the nested values it can hold. Everything else is structurally recursive.
    Go's int is 64 bits; a conversion that could wrap is written with its modulus.

    ** What is not modelled, and why

    TLS, HTTP, SSH, the file system, clocks and prompts are the questions the programs
    ask. Third-party code is a parameter, or the question whose answer it gives:
    go-proxmox's typed reads, SHA-256, PEM and X.509 decoding, x/crypto/ssh's key lines,
    go-toml, age, flock(2) (a class with its documented laws). Context cancellation and time
    limits are answers (errors) of the questions they end. Ranging over a Go map is in key
    order where the result does not depend on it. Case folding is of ASCII letters and the
    two runes that fold to one, which is exact when one side is ASCII, as it is in every
    call; texts are assumed valid UTF-8 only where a statement says so. Offsets in the roster
    file, 32 bits wide in the code, are unbounded. A json.RawMessage is kept as the compact
    document, an Op's snapshot as the value it encodes. Dereferencing a nil pointer is
    [Stuck]. Printing, flags and cobra are left out.

    Not yet modelled: the commands that only print what a modelled read gives (network get, storage get
    and orphans, node, discover, schema), exec, the
    dump protection of the process, the device arguments. Not planned: the building and
    probing of the harness's cluster, its secrets, fakes, capture drivers, source guards. *)
From stdpp Require Export prelude gmap strings list pretty sorting.

(** * Effectful programs

    A program over the effect signature [E] is a finite tree: it returns, asks
    the environment one question and continues with its answer, or is [Stuck]
    (the fuel of a loop whose length the environment decides ran out). *)
Inductive io (E : Type → Type) (A : Type) : Type :=
| Ret (a : A)
| Vis (R : Type) (e : E R) (k : R → io E A)
| Stuck.
Arguments Ret {E A} a.
Arguments Vis {E A R} e k.
Arguments Stuck {E A}.

(** What one question and its answer leave in the trace. *)
Inductive event (E : Type → Type) : Type :=
| Ev (R : Type) (e : E R) (r : R).
Arguments Ev {E R} e r.

Fixpoint bind {E A B} (m : io E A) (f : A → io E B) : io E B :=
  match m with
  | Ret a => f a
  | Vis e k => Vis e (λ r, bind (k r) f)
  | Stuck => Stuck
  end.

Definition trigger {E R} (e : E R) : io E R := Vis e Ret.

Declare Scope io_scope.
Delimit Scope io_scope with io.
Notation "'let!' x := c 'in' k" := (bind c (λ x, k))
  (at level 10, x name, c at level 100, k at level 200) : io_scope.
Notation "'let!' ' p := c 'in' k" := (bind c (λ x, match x with p => k end))
  (at level 10, p pattern, c at level 100, k at level 200) : io_scope.
Open Scope io_scope.

(** * Runs

    [exec m tr a]: some environment makes [m] return [a] with exactly the
    exchanges [tr]. Nothing is assumed of the environment, so a statement about
    every [exec] is one about every behaviour of the services. *)
Fixpoint exec {E A} (m : io E A) (tr : list (event E)) (a : A) : Prop :=
  match m with
  | Ret a' => tr = [] ∧ a = a'
  | Vis e k =>
      match tr with
      | [] => False
      | ev :: tr' => ∃ r, ev = Ev e r ∧ exec (k r) tr' a
      end
  | Stuck => False
  end.

(** [always m Q]: every run of [m] that returns satisfies [Q]. *)
Fixpoint always {E A} (m : io E A) (Q : list (event E) → A → Prop) : Prop :=
  match m with
  | Ret a => Q [] a
  | Vis e k => ∀ r, always (k r) (λ tr a, Q (Ev e r :: tr) a)
  | Stuck => True
  end.

(** A concrete environment: a state and the answer each question gets in it. *)
Definition env (E : Type → Type) (S : Type) := ∀ R, E R → S → R * S.

Fixpoint run {E A S} (h : env E S) (m : io E A) (s : S) :
    option (list (event E) * A * S) :=
  match m with
  | Ret a => Some ([], a, s)
  | Vis e k =>
      let '(r, s') := h _ e s in
      match run h (k r) s' with
      | Some (tr, a, s'') => Some (Ev e r :: tr, a, s'')
      | None => None
      end
  | Stuck => None
  end.

(** An implementation of the signature [E] in terms of [F], with state [S]. *)
Definition handler (E F : Type → Type) (S : Type) := ∀ R, E R → S → io F (R * S).

Fixpoint interp {E F A S} (h : handler E F S) (m : io E A) (s : S) : io F (A * S) :=
  match m with
  | Ret a => Ret (a, s)
  | Vis e k => bind (h _ e s) (λ rs, interp h (k rs.1) rs.2)
  | Stuck => Stuck
  end.

(** The same program over a larger signature. *)
Fixpoint lift {E F : Type → Type} {A} (inj : ∀ R, E R → F R) (m : io E A) : io F A :=
  match m with
  | Ret a => Ret a
  | Vis e k => Vis (inj _ e) (λ r, lift inj (k r))
  | Stuck => Stuck
  end.
Definition lift_event {E F : Type → Type} (inj : ∀ R, E R → F R) (ev : event E) : event F :=
  match ev with Ev e r => Ev (inj _ e) r end.

Section laws.
Context {E : Type → Type}.

Lemma exec_bind {A B} (m : io E A) (f : A → io E B) tr b :
  exec (bind m f) tr b ↔
  ∃ tr1 a tr2, tr = tr1 ++ tr2 ∧ exec m tr1 a ∧ exec (f a) tr2 b.
Proof.
  revert tr. induction m as [a|R e k IH|]; intros tr; simpl.
  - split.
    + intros H. exists [], a, tr. done.
    + intros (tr1 & a' & tr2 & -> & [-> ->] & H). done.
  - split.
    + destruct tr as [|ev tr]; [done|]. intros (r & -> & H).
      apply IH in H as (tr1 & a & tr2 & -> & H1 & H2).
      exists (Ev e r :: tr1), a, tr2. naive_solver.
    + intros (tr1 & a & tr2 & -> & H1 & H2). destruct tr1 as [|ev tr1]; [done|].
      destruct H1 as (r & -> & H1). simpl. exists r. split; [done|].
      apply IH. naive_solver.
  - split; [done|]. intros (? & ? & ? & _ & [] & _).
Qed.

Lemma always_mono {A} (m : io E A) (Q Q' : list (event E) → A → Prop) :
  (∀ tr a, Q tr a → Q' tr a) → always m Q → always m Q'.
Proof.
  revert Q Q'. induction m as [a|R e k IH|]; intros Q Q' HQ; simpl; [auto| |done].
  intros H r. eapply IH; [|apply H]. simpl. auto.
Qed.

Lemma always_bind {A B} (m : io E A) (f : A → io E B) Q :
  always (bind m f) Q ↔
  always m (λ tr a, always (f a) (λ tr' b, Q (tr ++ tr') b)).
Proof.
  revert Q. induction m as [a|R e k IH|]; intros Q; simpl; [done| |done].
  split; intros H r; specialize (H r); rewrite IH in *; exact H.
Qed.

Lemma always_exec {A} (m : io E A) Q :
  always m Q ↔ ∀ tr a, exec m tr a → Q tr a.
Proof.
  revert Q. induction m as [a|R e k IH|]; intros Q; simpl.
  - split; [intros H tr a' [-> ->]; done | intros H; apply H; done].
  - split.
    + intros H tr a Hx. destruct tr as [|ev tr]; [done|].
      destruct Hx as (r & -> & Hx). specialize (H r). rewrite IH in H. by apply H.
    + intros H r. apply IH. intros tr a Hx. apply H. simpl. eauto.
  - split; [intros _ tr a []|done].
Qed.

Lemma always_and {A} (m : io E A) Q1 Q2 :
  always m Q1 → always m Q2 → always m (λ tr a, Q1 tr a ∧ Q2 tr a).
Proof. rewrite !always_exec. naive_solver. Qed.

Lemma always_true {A} (m : io E A) (Q : list (event E) → A → Prop) :
  (∀ tr a, Q tr a) → always m Q.
Proof. rewrite always_exec. auto. Qed.

Lemma run_exec {A S} (h : env E S) (m : io E A) s tr a s' :
  run h m s = Some (tr, a, s') → exec m tr a.
Proof.
  revert s tr s'. induction m as [a'|R e k IH|]; intros s tr s' Hr; simpl in *.
  - by simplify_eq.
  - destruct (h _ e s) as [r s1].
    destruct (run h (k r) s1) as [[[tr1 a1] s2]|] eqn:Hk; simplify_eq. eauto.
  - done.
Qed.

Lemma run_bind {A B S} (h : env E S) (m : io E A) (f : A → io E B) s :
  run h (bind m f) s =
  match run h m s with
  | Some (tr, a, s') =>
      match run h (f a) s' with
      | Some (tr', b, s'') => Some (tr ++ tr', b, s'')
      | None => None
      end
  | None => None
  end.
Proof.
  revert s. induction m as [a|R e k IH|]; intros s; simpl; [|by destruct (h _ e s) as [r s1];
    rewrite IH; destruct (run h (k r) s1) as [[[? ?] ?]|]; simpl;
    [destruct (run h (f _) _) as [[[? ?] ?]|]|]|done].
  by destruct (run h (f a) s) as [[[? ?] ?]|].
Qed.

(** What no exchange increases, a whole run does not. *)
Lemma run_measure {A S} (h : env E S) (left : S → nat) (m : io E A) s tr a s' :
  (∀ R (e : E R) s, left (h R e s).2 ≤ left s) →
  run h m s = Some (tr, a, s') → left s' ≤ left s.
Proof.
  intros Hle. revert s tr. induction m as [a'|R e k IH|]; intros s tr Hr; simpl in *.
  - by simplify_eq.
  - specialize (Hle R e s). destruct (h _ e s) as [r s1]. simpl in *.
    destruct (run h (k r) s1) as [[[tr1 a1] s2]|] eqn:Hk; simplify_eq.
    etrans; [eapply IH; eauto|done].
  - done.
Qed.

(** A program with no [Stuck] leaf returns in every environment. *)
Fixpoint total {A} (m : io E A) : Prop :=
  match m with Ret _ => True | Vis _ k => ∀ r, total (k r) | Stuck => False end.
Lemma total_bind {A B} (m : io E A) (f : A → io E B) :
  total m → (∀ a, total (f a)) → total (bind m f).
Proof. induction m as [a|R e k IH|]; simpl; auto. Qed.
(** Every question of the program satisfies [P]. *)
Fixpoint asks {A} (P : ∀ R, E R → Prop) (m : io E A) : Prop :=
  match m with Ret _ => True | Vis e k => P _ e ∧ ∀ r, asks P (k r) | Stuck => True end.
Lemma asks_bind {A B} (P : ∀ R, E R → Prop) (m : io E A) (f : A → io E B) :
  asks P m → (∀ a, asks P (f a)) → asks P (bind m f).
Proof. intros Hm Hf. induction m as [a|R e k IH|]; cbn in *; [done| |done]. destruct Hm as [He Hk]. split; auto. Qed.
Lemma asks_mono {A} (P Q : ∀ R, E R → Prop) (m : io E A) : (∀ R e, P R e → Q R e) → asks P m → asks Q m.
Proof. intros HPQ. induction m as [a|R e k IH|]; cbn; [done| |done]. intros [He Hk]. split; auto. Qed.
Lemma asks_always {A} (P : ∀ R, E R → Prop) (m : io E A) :
  asks P m → always m (λ tr _, Forall (λ ev, match ev with Ev e _ => P _ e end) tr).
Proof.
  induction m as [a|R e k IH|]; cbn; [constructor| |done]. intros [He Hk] r.
  eapply always_mono; [|apply IH, Hk]. intros tr b H. by constructor.
Qed.
(** [abides I p m Q]: after the exchanges [p], every question [m] asks is one that [I] allows,
    given the exchanges before it, and the whole history and the result satisfy [Q]. *)
Fixpoint abides {A} (I : list (event E) → ∀ R, E R → Prop) (p : list (event E)) (m : io E A)
    (Q : list (event E) → A → Prop) : Prop :=
  match m with
  | Ret a => Q p a
  | Vis e k => I p _ e ∧ ∀ r, abides I (p ++ [Ev e r]) (k r) Q
  | Stuck => True
  end.
Lemma abides_mono {A} I p (m : io E A) (Q Q' : list (event E) → A → Prop) :
  (∀ p a, Q p a → Q' p a) → abides I p m Q → abides I p m Q'.
Proof. intros HQ. revert p. induction m as [a|R e k IH|]; intros p; cbn; [apply HQ| |done]. intros [He Hk]. split; auto. Qed.
Lemma abides_bind {A B} I p (m : io E A) (f : A → io E B) Q :
  abides I p m (λ p' a, abides I p' (f a) Q) → abides I p (bind m f) Q.
Proof. revert p. induction m as [a|R e k IH|]; intros p; cbn; [done| |done]. intros [He Hk]. split; auto. Qed.
(** A part of which is known what it asks, and what a run of its own does. *)
Lemma abides_part {A} I p (m : io E A) (P : ∀ R, E R → Prop) (Q0 Q : list (event E) → A → Prop) :
  asks P m → always m Q0 → (∀ tr R e, P R e → I (p ++ tr) R e) → (∀ tr a, Q0 tr a → Q (p ++ tr) a) → abides I p m Q.
Proof.
  revert p Q0. induction m as [a|R e k IH|]; intros p Q0; cbn; [|intros [He Hk] HQ0 HI HQ|done].
  - intros _ HQ0 _ HQ. rewrite <- (app_nil_r p). by apply HQ.
  - split; [rewrite <- (app_nil_r p); by apply HI|]. intros r. eapply IH; [apply Hk|apply HQ0|..].
    + intros tr R' e' HP. rewrite <- app_assoc. by apply HI.
    + intros tr a Ha. rewrite <- app_assoc. by apply HQ.
Qed.
Lemma abides_always {A} I p (m : io E A) Q :
  abides I p m Q →
  always m (λ tr a, Q (p ++ tr) a ∧ ∀ pre ev post, tr = pre ++ ev :: post → match ev with Ev e _ => I (p ++ pre) _ e end).
Proof.
  revert p. induction m as [a|R e k IH|]; intros p; cbn; [|intros [He Hk] r|done].
  - rewrite app_nil_r. intros H. split; [done|]. by intros [].
  - eapply always_mono; [|apply IH, Hk]. intros tr a [HQ HI]. rewrite <- app_assoc in HQ. split; [done|].
    intros [|ev pre] ev' post [= <- ->]; [by rewrite app_nil_r|].
    specialize (HI pre ev' post eq_refl). by rewrite <- app_assoc in HI.
Qed.
Lemma total_run {A S} (h : env E S) (m : io E A) s :
  total m → ∃ tr a s', run h m s = Some (tr, a, s').
Proof.
  revert s. induction m as [a|R e k IH|]; intros s Hm; simpl in *; [by eauto| |done].
  destruct (h _ e s) as [r s1]. destruct (IH r s1 (Hm r)) as (tr & a & s' & ->). eauto.
Qed.

Lemma always_lift {F : Type → Type} {A} (inj : ∀ R, E R → F R) (m : io E A) (Q : list (event F) → A → Prop) :
  always m (λ tr a, Q (lift_event inj <$> tr) a) → always (lift inj m) Q.
Proof.
  revert Q. induction m as [a|R e k IH|]; intros Q; simpl; [done| |done].
  intros H r. apply IH. apply H.
Qed.

Lemma lift_spec {F : Type → Type} {A} (inj : ∀ R, E R → F R) (m : io E A) Q :
  always m Q → always (lift inj m) (λ tr a, ∃ tr0, tr = lift_event inj <$> tr0 ∧ Q tr0 a).
Proof. intros Hm. apply always_lift. eapply always_mono; [|exact Hm]. eauto. Qed.

(** The rule that reasons about a call through its specification. *)
Lemma always_call {A B} (m : io E A) (f : A → io E B) P Q :
  always m P →
  (∀ tr a, P tr a → always (f a) (λ tr' b, Q (tr ++ tr') b)) →
  always (bind m f) Q.
Proof. intros Hm Hf. apply always_bind. eapply always_mono; [|exact Hm]. auto. Qed.
End laws.

(** * Implementations and their traces *)
Section interp.
Context {E F : Type → Type} {S : Type} (h : handler E F S).
(** [R s ev tr s']: answering [ev] from state [s] took the exchanges [tr]. *)
Context (step : S → event E → list (event F) → S → Prop).
Hypothesis Hstep : ∀ R (e : E R) s, always (h R e s) (λ tr rs, step s (Ev e rs.1) tr rs.2).

Inductive steps : S → list (event E) → list (event F) → S → Prop :=
| steps_nil s : steps s [] [] s
| steps_cons s ev tr s' evs tr' s'' :
    step s ev tr s' → steps s' evs tr' s'' → steps s (ev :: evs) (tr ++ tr') s''.

(** What holds of the abstract program holds of its implementation, whose
    trace refines an abstract one step by step. *)
Lemma interp_refines {A} (m : io E A) Q s :
  always m Q →
  always (interp h m s) (λ tr rs, ∃ evs, Q evs rs.1 ∧ steps s evs tr rs.2).
Proof using Hstep.
  revert Q s. induction m as [a|R e k IH|]; intros Q s Hm; simpl in *; [| |done].
  - exists []. split; [done|constructor].
  - apply always_bind. eapply always_mono; [|apply Hstep]. intros tr [r s1] Hs. simpl in *.
    eapply always_mono; [|apply (IH r _ s1 (Hm r))].
    intros tr' [a s2] (evs & HQ & Hst). simpl in *.
    exists (Ev e r :: evs). split; [done|]. econstructor; eauto.
Qed.

(** An exchange is one of some step, and all steps before it are complete. *)
Lemma steps_split s evs tr s' pre x post :
  steps s evs tr s' → tr = pre ++ x :: post →
  ∃ evs1 ev evs2 tr1 a b s1 s2, evs = evs1 ++ ev :: evs2 ∧ pre = tr1 ++ a ∧
    steps s evs1 tr1 s1 ∧ step s1 ev (a ++ x :: b) s2.
Proof using.
  intros Hs. revert pre. induction Hs as [s|s ev tr s1 evs tr' s2 Hst Hs IH]; intros pre Heq.
  - by destruct pre.
  - apply app_eq_app in Heq as (l & [[-> H]|[-> H]]).
    + destruct l as [|y l]; simpl in H.
      * destruct (IH [] (eq_sym H)) as (e1 & ev' & e2 & t1 & a & b & x1 & x2 & -> & Hp & H1 & H2).
        symmetry in Hp. apply app_nil in Hp as [-> ->].
        exists (ev :: e1), ev', e2, ((pre ++ []) ++ []), [], b, x1, x2.
        split_and!; [done|by rewrite !app_nil_r|by econstructor|done].
      * injection H as <- ->. exists [], ev, evs, [], pre, l, s, s1. split_and!; [done|done|constructor|done].
    + destruct (IH l H) as (e1 & ev' & e2 & t1 & a & b & x1 & x2 & -> & -> & H1 & H2).
      exists (ev :: e1), ev', e2, (tr ++ t1), a, b, x1, x2.
      split_and!; [done|by rewrite app_assoc|by econstructor|done].
Qed.
(** A step's exchanges are among those of the run. *)
Lemma steps_elem s evs tr s' ev :
  steps s evs tr s' → ev ∈ evs → ∃ s1 tr1 s2, step s1 ev tr1 s2 ∧ ∀ x, x ∈ tr1 → x ∈ tr.
Proof using.
  induction 1 as [s|s ev' tr s1 evs tr' s2 Hst Hs IH]; [by intros ?%elem_of_nil|].
  intros [->|Hin]%elem_of_cons.
  - exists s, tr, s1. split; [done|]. intros x Hx. apply elem_of_app. by left.
  - destruct (IH Hin) as (x1 & t1 & x2 & H1 & H2). exists x1, t1, x2. split; [done|].
    intros x Hx. apply elem_of_app. right. auto.
Qed.

(** An invariant of state and trace that every answer keeps, the whole run keeps. *)
Lemma interp_invariant (I : S → list (event F) → Prop) {A} (m : io E A) s pre :
  (∀ R (e : E R) s pre, I s pre → always (h R e s) (λ tr rs, I rs.2 (pre ++ tr))) →
  I s pre → always (interp h m s) (λ tr rs, I rs.2 (pre ++ tr)).
Proof using.
  intros HI. revert s pre. induction m as [a|R e k IH|]; intros s pre Hs; simpl in *; [| |done].
  - by rewrite app_nil_r.
  - apply always_bind. eapply always_mono; [|by apply HI]. intros tr [r s1] H1. simpl in *.
    eapply always_mono; [|by apply IH]. intros tr' [a s2] H2. by rewrite app_assoc.
Qed.
End interp.

(** * Stepping through a program

    [io_step] takes one step of a goal [always m Q]: it answers a question,
    splits on a test, or replaces a call by a specification found in the hint
    database [io]. [io_run] repeats it. *)
Create HintDb io.

Ltac io_step :=
  cbn [always bind trigger app];
  lazymatch goal with
  | |- ∀ _, _ => intros ?
  | |- always (match ?x with _ => _ end) _ => destruct x eqn:?
  | |- always (bind (match ?x with _ => _ end) _) _ => destruct x eqn:?
  | |- always (bind _ _) _ => eapply always_call; [solve [eauto with io nocore]|intros]
  end.
Ltac io_run := repeat io_step.

Global Instance always_proper {E A} (m : io E A) :
  Proper (pointwise_relation _ (pointwise_relation _ impl) ==> impl) (always m).
Proof. intros Q Q' HQ. unfold impl. apply always_mono. intros tr a. apply HQ. Qed.

(** * Lists *)
Lemma filter_singleton {A} (P : A → Prop) `{!∀ x, Decision (P x)} (l : list A) v :
  filter P l = [v] →
  ∃ l1 l2, l = l1 ++ v :: l2 ∧ P v ∧ Forall (λ x, ¬ P x) (l1 ++ l2).
Proof.
  induction l as [|x l IH]; [done|]. rewrite filter_cons. case_decide as Hx; intros Hf.
  - injection Hf as -> Hf. exists [], l. split_and!; [done|done|].
    apply Forall_forall. intros y Hy HP.
    assert (y ∈ filter P l) as Hin by by apply list_elem_of_filter.
    rewrite Hf in Hin. by apply elem_of_nil in Hin.
  - destruct (IH Hf) as (l1 & l2 & -> & Hv & Hall). exists (x :: l1), l2.
    split_and!; [done|done|]. by constructor.
Qed.

(** ** What a composed program asks *)
Lemma asks_interp {E F : Type → Type} {S A} (P : ∀ R, E R → Prop) (Q : ∀ R, F R → Prop) (h : handler E F S) (m : io E A) s :
  (∀ R e s, P R e → asks Q (h R e s)) → asks P m → asks Q (interp h m s).
Proof.
  intros Hh. revert s. induction m as [a|R e k IH|]; intros s; cbn; [done| |done]. intros [He Hk].
  apply asks_bind; [by apply Hh|]. intros [r s']. by apply IH.
Qed.
Lemma asks_lift {E F : Type → Type} {A} (P : ∀ R, E R → Prop) (Q : ∀ R, F R → Prop) (inj : ∀ R, E R → F R) (m : io E A) :
  (∀ R e, P R e → Q R (inj R e)) → asks P m → asks Q (lift inj m).
Proof. intros H. induction m as [a|R e k IH|]; [done| |done]. intros [He Hk]. split; [auto|]. intros r. apply IH, Hk. Qed.
Lemma interp_bind {E F S A B} (h : handler E F S) (m : io E A) (f : A → io E B) s Q :
  always (interp h m s) (λ tr rs, always (interp h (f rs.1) rs.2) (λ tr' b, Q (tr ++ tr') b)) →
  always (interp h (bind m f) s) Q.
Proof.
  revert s Q. induction m as [a|R e k IH|]; intros s Q; cbn [bind interp always fst snd app]; [done| |done].
  intros H%(proj1 (always_bind _ _ _)). apply always_bind. eapply always_mono; [|exact H]. cbn.
  intros tr rs Hrs. apply IH. eapply always_mono; [|exact Hrs]. cbn. intros tr' rs'. eapply always_mono. intros tr2 b. by rewrite app_assoc.
Qed.
Lemma steps_app_inv {E F : Type → Type} {S} (step : S → event E → list (event F) → S → Prop) s l1 l2 tr s' :
  steps step s (l1 ++ l2) tr s' → ∃ tr1 tr2 s1, tr = tr1 ++ tr2 ∧ steps step s l1 tr1 s1 ∧ steps step s1 l2 tr2 s'.
Proof.
  revert s tr. induction l1 as [|ev l1 IH]; intros s tr H; [exists [], tr, s; split_and!; [done|constructor|done]|].
  inversion H as [|? ? tr1 s1 ? tr2 ? Hst Hs]; subst. destruct (IH _ _ Hs) as (t1 & t2 & s2 & -> & H1 & H2).
  exists (tr1 ++ t1), t2, s2. split_and!; [by rewrite app_assoc|by econstructor|done].
Qed.
Lemma total_interp {E F : Type → Type} {S A} (P : ∀ R, E R → Prop) (h : handler E F S) (m : io E A) s :
  (∀ R e s, P R e → total (h R e s)) → asks P m → total m → total (interp h m s).
Proof.
  intros Hh. revert s. induction m as [a|R e k IH|]; intros s; cbn; [done| |done]. intros [He Hk] Ht.
  apply total_bind; [by apply Hh|]. intros [r s']. by apply IH.
Qed.
Lemma total_lift {E F : Type → Type} {A} (inj : ∀ R, E R → F R) (m : io E A) : total m → total (lift inj m).
Proof. induction m as [a|R e k IH|]; cbn; auto. Qed.
Lemma asks_any {E : Type → Type} {A} (m : io E A) : asks (λ _ _, True) m.
Proof. induction m; cbn; auto. Qed.
(** Goes through a program all of whose paths end. *)
Ltac totally :=
  repeat lazymatch goal with
  | |- total (bind _ _) => apply total_bind; [|intros ?]
  | |- total (trigger _) => intros ?; exact I
  | |- total (Ret _) => exact I
  | |- total (if ?b then _ else _) => destruct b
  | |- total (match ?x with _ => _ end) => destruct x
  | |- total (let _ := _ in _) => cbv zeta
  end.
(** Goes through a program whose questions are each allowed, whatever was answered. *)
Ltac asks_step :=
  lazymatch goal with
  | |- asks _ (bind _ _) => apply asks_bind; [|intros ?]
  | |- asks _ (trigger _) => split; [try done|intros ?; exact I]
  | |- asks _ (Ret _) => exact I
  | |- asks _ (if ?b then _ else _) => destruct b
  | |- asks _ (match ?x with _ => _ end) => destruct x
  | |- asks _ (let _ := _ in _) => cbv zeta
  end.
Ltac asks := repeat asks_step.
