(* ===== verification/GoLib.v ===== *)
(** The parts of Go's standard library the modelled code calls: [strings],
    [strconv], [unicode/utf8], [unicode], [net/url] and [sort], on strings of
    bytes. Case folding covers ASCII letters, the only ones the code's patterns
    hold. *)
From Stdlib Require Import Ascii.
From Stdlib Require String.
From S2P Require Import Prelude.

Abbreviation byte_of c := (Z.of_N (Ascii.N_of_ascii c)) (only parsing).
Definition byte (n : N) : ascii := Ascii.ascii_of_N n.
Definition chr (n : N) : string := String (byte n) EmptyString.
(** The double quote, which has no literal of its own. *)
Definition dq : string := chr 34.

Fixpoint slen (s : string) : nat :=
  match s with EmptyString => 0 | String _ s' => S (slen s') end.

Definition eqb (s t : string) : bool := bool_decide (s = t).

(** ** package strings *)
Fixpoint cut_prefix (p s : string) : option string :=
  match p, s with
  | EmptyString, _ => Some s
  | String c p', String d s' => if bool_decide (c = d) then cut_prefix p' s' else None
  | String _ _, EmptyString => None
  end.
Definition has_prefix (p s : string) : bool :=
  match cut_prefix p s with Some _ => true | None => false end.

Fixpoint srev_append (s acc : string) : string :=
  match s with EmptyString => acc | String c s' => srev_append s' (String c acc) end.
Definition srev (s : string) : string := srev_append s "".
Definition has_suffix (p s : string) : bool := has_prefix (srev p) (srev s).

Fixpoint contains (sub s : string) : bool :=
  has_prefix sub s ||
  match s with EmptyString => false | String _ s' => contains sub s' end.

(** [strings.Cut] and [strings.Split] for a one-byte separator. *)
Fixpoint cut (c : ascii) (s : string) : option (string * string) :=
  match s with
  | EmptyString => None
  | String d s' =>
      if bool_decide (d = c) then Some ("", s')
      else match cut c s' with Some (a, b) => Some (String d a, b) | None => None end
  end.
Fixpoint Split (c : ascii) (s : string) : list string :=
  match s with
  | EmptyString => [""]
  | String d s' =>
      if bool_decide (d = c) then "" :: Split c s'
      else match Split c s' with
           | h :: t => String d h :: t
           | [] => [String d ""]
           end
  end.
Fixpoint Join (sep : string) (l : list string) : string :=
  match l with
  | [] => ""
  | [x] => x
  | x :: l' => x +:+ sep +:+ Join sep l'
  end.

Fixpoint all_bytes (p : ascii → bool) (s : string) : bool :=
  match s with EmptyString => true | String c s' => p c && all_bytes p s' end.
Fixpoint any_byte (p : ascii → bool) (s : string) : bool :=
  match s with EmptyString => false | String c s' => p c || any_byte p s' end.
Fixpoint map_bytes (f : ascii → string) (s : string) : string :=
  match s with EmptyString => "" | String c s' => f c +:+ map_bytes f s' end.

Definition in_range (lo hi : Z) (c : ascii) : bool :=
  (lo <=? byte_of c)%Z && (byte_of c <=? hi)%Z.
Definition is_digit (c : ascii) : bool := in_range 48 57 c.
Definition is_upper (c : ascii) : bool := in_range 65 90 c.
Definition is_lower (c : ascii) : bool := in_range 97 122 c.
Definition is_letter (c : ascii) : bool := is_upper c || is_lower c.
Definition is_alnum (c : ascii) : bool := is_letter c || is_digit c.
Definition is_hex (c : ascii) : bool := is_digit c || in_range 65 70 c || in_range 97 102 c.
Definition is_byte (n : N) (c : ascii) : bool := bool_decide (c = byte n).
(** The text with its single quotes made double ones, for JSON literals. *)
Fixpoint double_quoted (s : string) : string :=
  match s with
  | EmptyString => EmptyString
  | String c s' => String (if is_byte 39 c then byte 34 else c) (double_quoted s')
  end.
(** [one_of "abc" c]: [c] is one of the listed bytes. *)
Definition one_of (set : string) (c : ascii) : bool := any_byte (λ d, bool_decide (d = c)) set.

Definition lower_byte (c : ascii) : ascii :=
  if is_upper c then Ascii.ascii_of_N (Ascii.N_of_ascii c + 32) else c.
Fixpoint to_lower (s : string) : string :=
  match s with EmptyString => "" | String c s' => String (lower_byte c) (to_lower s') end.

(** ** unicode/utf8: a string as its runes, each with the bytes it came from; an
    invalid byte is U+FFFD of width one. *)
Definition cont (lo hi : Z) (c : ascii) : bool := in_range lo hi c.
Definition second_range (b0 : Z) : Z * Z :=
  if decide (b0 = 0xE0)%Z then (0xA0, 0xBF)%Z
  else if decide (b0 = 0xED)%Z then (0x80, 0x9F)%Z
  else if decide (b0 = 0xF0)%Z then (0x90, 0xBF)%Z
  else if decide (b0 = 0xF4)%Z then (0x80, 0x8F)%Z
  else (0x80, 0xBF)%Z.
Definition rune_error : Z := 0xFFFD.
Definition decode_rune (c0 : ascii) (s : string) : Z * string * string :=
  let b0 := byte_of c0 in
  let bad := (rune_error, String c0 "", s) in
  let '(lo, hi) := second_range b0 in
  if (b0 <? 0x80)%Z then (b0, String c0 "", s)
  else if (b0 <? 0xC2)%Z || (0xF4 <? b0)%Z then bad
  else match s with
  | String c1 s1 =>
      if negb (cont lo hi c1) then bad
      else if (b0 <? 0xE0)%Z then
        (Z.land b0 0x1F * 64 + Z.land (byte_of c1) 0x3F, String c0 (String c1 ""), s1)%Z
      else match s1 with
      | String c2 s2 =>
          if negb (cont 0x80 0xBF c2) then bad
          else if (b0 <? 0xF0)%Z then
            (Z.land b0 0x0F * 4096 + Z.land (byte_of c1) 0x3F * 64 + Z.land (byte_of c2) 0x3F,
             String c0 (String c1 (String c2 "")), s2)%Z
          else match s2 with
          | String c3 s3 =>
              if negb (cont 0x80 0xBF c3) then bad
              else (Z.land b0 0x07 * 262144 + Z.land (byte_of c1) 0x3F * 4096
                    + Z.land (byte_of c2) 0x3F * 64 + Z.land (byte_of c3) 0x3F,
                    String c0 (String c1 (String c2 (String c3 ""))), s3)%Z
          | EmptyString => bad
          end
      | EmptyString => bad
      end
  | EmptyString => bad
  end.
Fixpoint runes_go (n : nat) (s : string) : list (Z * string) :=
  match n, s with
  | S n', String c s' =>
      let '(r, bs, rest) := decode_rune c s' in (r, bs) :: runes_go n' rest
  | _, _ => []
  end.
Definition runes (s : string) : list (Z * string) := runes_go (slen s) s.
Fixpoint sconcat (l : list string) : string :=
  match l with [] => "" | x :: l' => x +:+ sconcat l' end.
(** strings.EqualFold, exact when one of the strings is ASCII: U+017F and U+212A are the only
    other runes that fold to an ASCII letter; case beyond ASCII is not folded here. *)
Definition fold_rune (rb : Z * string) : string :=
  if (rb.1 =? 0x17F)%Z then "s" else if (rb.1 =? 0x212A)%Z then "k"
  else if (rb.1 =? rune_error)%Z then chr 0xEF +:+ chr 0xBF +:+ chr 0xBD
  else to_lower rb.2.
Definition fold_case (s : string) : string := sconcat (fold_rune <$> runes s).
Definition equal_fold (s t : string) : bool := eqb (fold_case s) (fold_case t).
Definition any_rune (p : Z → bool) (s : string) : bool := existsb (λ rb, p rb.1) (runes s).

(** ** package unicode *)
Definition is_space (r : Z) : bool :=
  bool_decide (r ∈ [9; 10; 11; 12; 13; 32; 0x85; 0xA0; 0x1680; 0x2028; 0x2029; 0x202F; 0x205F; 0x3000])%Z
  || ((0x2000 <=? r) && (r <=? 0x200A))%Z.
Definition is_control (r : Z) : bool :=
  ((0 <=? r) && (r <=? 0x1F) || (0x7F <=? r) && (r <=? 0x9F))%Z.

Fixpoint drop_spaces (l : list (Z * string)) : list (Z * string) :=
  match l with
  | rb :: l' => if is_space rb.1 then drop_spaces l' else l
  | [] => []
  end.
Definition trim_space (s : string) : string :=
  sconcat (reverse (drop_spaces (reverse (drop_spaces (runes s)))).*2).

(** ** package strconv *)
Abbreviation itoa := (pretty : Z → string).
Definition max_int64 : Z := 2 ^ 63 - 1.
Definition min_int64 : Z := - 2 ^ 63.
Definition wrap64 (z : Z) : Z := (z + 2 ^ 63) mod 2 ^ 64 - 2 ^ 63.
Fixpoint digits_go (acc : Z) (s : string) : option Z :=
  match s with
  | EmptyString => Some acc
  | String c s' => if is_digit c then digits_go (acc * 10 + (byte_of c - 48))%Z s' else None
  end.
Definition digits (s : string) : option Z :=
  match s with EmptyString => None | _ => digits_go 0 s end.
Definition in_int64 (z : Z) : bool := ((min_int64 <=? z) && (z <=? max_int64))%Z.
(** [strconv.Atoi] and [strconv.ParseInt(_, 10, 64)] on a 64-bit platform. *)
Definition atoi (s : string) : option Z :=
  let signed neg t :=
    match digits t with
    | Some n => let z := if neg : bool then (- n)%Z else n in
                if in_int64 z then Some z else None
    | None => None
    end in
  match s with
  | String c s' =>
      if is_byte 45 c then signed true s'
      else if is_byte 43 c then signed false s' else signed false s
  | EmptyString => None
  end.

Definition hex_digit (up : bool) (n : Z) : string :=
  if (n <? 10)%Z then chr (Z.to_N (48 + n))
  else chr (Z.to_N ((if up then 55 else 87) + n)).
Definition hex2 (up : bool) (n : Z) : string :=
  hex_digit up (n / 16 mod 16) +:+ hex_digit up (n mod 16).
Definition hex4 (n : Z) : string := hex2 false (n / 256) +:+ hex2 false n.

(** [strconv.Quote], the [%q] verb. Runes above U+00A0 other than the line
    separators are taken as printable. *)
Definition quote_rune (rb : Z * string) : string :=
  let '(r, bs) := rb in
  if decide (r = 34)%Z then chr 92 +:+ dq
  else if decide (r = 92)%Z then chr 92 +:+ chr 92
  else if decide (r = rune_error ∧ slen bs = 1) then
    match bs with String c _ => chr 92 +:+ "x" +:+ hex2 false (byte_of c) | _ => "" end
  else if decide (r = 7)%Z then chr 92 +:+ "a"
  else if decide (r = 8)%Z then chr 92 +:+ "b"
  else if decide (r = 12)%Z then chr 92 +:+ "f"
  else if decide (r = 10)%Z then chr 92 +:+ "n"
  else if decide (r = 13)%Z then chr 92 +:+ "r"
  else if decide (r = 9)%Z then chr 92 +:+ "t"
  else if decide (r = 11)%Z then chr 92 +:+ "v"
  else if (r <? 32)%Z || bool_decide (r = 127)%Z then chr 92 +:+ "x" +:+ hex2 false r
  else if ((0x80 <=? r) && (r <=? 0xA0))%Z || bool_decide (r ∈ [0xAD; 0x2028; 0x2029])%Z
  then chr 92 +:+ "u" +:+ hex4 r
  else bs.
Definition quote (s : string) : string := dq +:+ sconcat (quote_rune <$> runes s) +:+ dq.

(** ** package net/url: [url.PathEscape] (the path-segment mode). *)
Definition path_unreserved (c : ascii) : bool := is_alnum c || one_of "-_.~$&+:=@" c.
Definition path_escape : string → string :=
  map_bytes (λ c, if path_unreserved c then String c "" else "%" +:+ hex2 true (byte_of c)).

(** ** package path/filepath, on Unix *)
Fixpoint clean_parts (rooted : bool) (out parts : list string) : list string :=
  match parts with
  | [] => reverse out
  | p :: parts' =>
      if eqb p "" || eqb p "." then clean_parts rooted out parts'
      else if eqb p ".." then
        match out with
        | [] => clean_parts rooted (if rooted then [] else [".."]) parts'
        | x :: out' => clean_parts rooted (if eqb x ".." then p :: out else out') parts'
        end
      else clean_parts rooted (p :: out) parts'
  end.
Definition filepath_Clean (s : string) : string :=
  let rooted := has_prefix "/" s in
  let body := Join "/" (clean_parts rooted [] (Split (byte 47) s)) in
  if rooted then "/" +:+ body else if eqb body "" then "." else body.
Definition filepath_Join (dir elem : string) : string := filepath_Clean (dir +:+ "/" +:+ elem).

(** ** package path *)
Definition path_Join (elems : list string) : string :=
  let l := filter (λ e, e ≠ "") elems in
  match l with [] => "" | _ => filepath_Clean (Join "/" l) end.
(** The part up to the last slash, cleaned. *)
Definition path_Dir (s : string) : string :=
  let dirs := removelast (Split (byte 47) s) in
  filepath_Clean (match dirs with [] => "" | _ => Join "/" dirs +:+ "/" end).

(** ** package encoding/base64: [StdEncoding] *)
Definition b64_alphabet : string := "ABCDEFGHIJKLMNOPQRSTUVWXYZabcdefghijklmnopqrstuvwxyz0123456789+/".
Definition b64_char (n : Z) : string :=
  match String.get (Z.to_nat n) b64_alphabet with Some c => String c "" | None => "" end.
Fixpoint base64 (s : string) : string :=
  match s with
  | EmptyString => ""
  | String a EmptyString =>
      let n := byte_of a in b64_char (n / 4) +:+ b64_char (n mod 4 * 16) +:+ "=="
  | String a (String b EmptyString) =>
      let n := (byte_of a * 256 + byte_of b)%Z in
      b64_char (n / 1024) +:+ b64_char (n / 16 mod 64) +:+ b64_char (n mod 16 * 4) +:+ "="
  | String a (String b (String c s')) =>
      let n := (byte_of a * 65536 + byte_of b * 256 + byte_of c)%Z in
      b64_char (n / 262144) +:+ b64_char (n / 4096 mod 64) +:+ b64_char (n / 64 mod 64) +:+ b64_char (n mod 64)
      +:+ base64 s'
  end.

(** ** package sort *)
Definition str_le (s t : string) : Prop := String.leb s t = true.
Global Instance str_le_dec : RelDecision str_le.
Proof. intros s t. unfold str_le. apply _. Defined.
Definition sort_strings : list string → list string := merge_sort str_le.
Definition sort_ints : list Z → list Z := merge_sort Z.le.

(** * Lemmas *)
#[local] Arguments String.append : simpl nomatch.

Lemma str_app_nil_r (s : string) : s +:+ "" = s.
Proof. induction s as [|c s IH]; simpl; [done|]. by rewrite IH. Qed.
Lemma str_cons_app c s t : String c s +:+ t = String c (s +:+ t).
Proof. done. Qed.
Lemma str_app_assoc (s t u : string) : (s +:+ t) +:+ u = s +:+ t +:+ u.
Proof. induction s as [|c s IH]; simpl; [done|]. by rewrite IH. Qed.
Lemma str_length_app (s t : string) : slen (s +:+ t) = slen s + slen t.
Proof. induction s as [|c s IH]; simpl; auto. Qed.

Lemma eqb_true s t : eqb s t = true ↔ s = t.
Proof. unfold eqb. by rewrite bool_decide_eq_true. Qed.
Lemma eqb_refl s : eqb s s = true.
Proof. by apply eqb_true. Qed.

Lemma cut_prefix_spec p s t : cut_prefix p s = Some t ↔ s = p +:+ t.
Proof.
  revert s t. induction p as [|c p IH]; intros [|d s] t; simpl; try naive_solver.
  case_bool_decide as Hc; subst.
  - rewrite IH. naive_solver.
  - naive_solver.
Qed.
Lemma cut_first c s t : any_byte (λ d, bool_decide (d = c)) s = false → cut c (s +:+ String c t) = Some (s, t).
Proof.
  induction s as [|d s IH]; intros Hs; rewrite ?str_cons_app; simpl in *.
  - by rewrite bool_decide_eq_true_2.
  - apply orb_false_iff in Hs as [Hd Hs]. rewrite Hd. change (String.append s) with (λ x, s +:+ x).
    cbv beta. by rewrite IH.
Qed.
Lemma cut_spec c s a b :
  cut c s = Some (a, b) ↔ s = a +:+ String c b ∧ any_byte (λ d, bool_decide (d = c)) a = false.
Proof.
  split; [|intros [-> H]; by apply cut_first].
  revert a. induction s as [|d s IH]; intros a; [done|]. cbn [cut]. case_bool_decide as Hd.
  - intros [= <- <-]. by subst.
  - destruct (cut c s) as [[x y]|] eqn:Hc; [|done]. intros [= <- <-].
    destruct (IH x eq_refl) as [-> Hx]. split; [done|]. simpl. by rewrite bool_decide_eq_false_2.
Qed.
Lemma Split_nosep c s t :
  any_byte (is_byte (Ascii.N_of_ascii c)) s = false → Split c (s +:+ String c t) = s :: Split c t.
Proof.
  intros Hs. induction s as [|d s IH]; simpl.
  - by rewrite bool_decide_true.
  - simpl in Hs. apply orb_false_iff in Hs as [Hd Hs]. rewrite IH by done.
    unfold is_byte, byte in Hd. rewrite Ascii.ascii_N_embedding in Hd.
    by rewrite Hd.
Qed.
Lemma Split_Join l c :
  l ≠ [] → Forall (λ s, any_byte (is_byte (Ascii.N_of_ascii c)) s = false) l →
  Split c (Join (String c "") l) = l.
Proof.
  intros Hne Hall. induction Hall as [|x l Hx Hall IH]; [done|]. destruct l as [|y l].
  - simpl. rewrite <- (str_app_nil_r x) at 1. clear -Hx. induction x as [|d x IH]; [done|].
    simpl in Hx. apply orb_false_iff in Hx as [Hd Hx].
    change (String d x +:+ "") with (String d (x +:+ "")). cbn [Split].
    unfold is_byte, byte in Hd. rewrite Ascii.ascii_N_embedding in Hd. rewrite Hd.
    by rewrite IH.
  - assert (Join (String c "") (x :: y :: l) = x +:+ String c (Join (String c "") (y :: l))) as ->
      by reflexivity.
    rewrite Split_nosep by done. by rewrite IH.
Qed.
Lemma Split_parts c s : Forall (λ t, any_byte (is_byte (Ascii.N_of_ascii c)) t = false) (Split c s).
Proof.
  induction s as [|d s IH]; cbn [Split]; [by repeat constructor|].
  case_bool_decide as Hd; [by constructor|]. destruct (Split c s) as [|h t].
  - constructor; [|done]. simpl. rewrite orb_false_r. unfold is_byte, byte.
    rewrite Ascii.ascii_N_embedding. by rewrite bool_decide_false.
  - inversion_clear IH. constructor; [|done]. simpl. rewrite orb_false_iff. split; [|done].
    unfold is_byte, byte. rewrite Ascii.ascii_N_embedding. by rewrite bool_decide_false.
Qed.
Lemma Split_nonempty c s : Split c s ≠ [].
Proof. destruct s as [|d s]; cbn [Split]; [done|]. case_bool_decide; [done|]. by destruct (Split c s). Qed.
Lemma Split_app c s t : Split c (s +:+ String c t) = Split c s ++ Split c t.
Proof.
  induction s as [|d s IH].
  - change (Split c (String c t) = "" :: Split c t). cbn [Split]. by rewrite bool_decide_eq_true_2.
  - rewrite str_cons_app. cbn [Split]. case_bool_decide; [by rewrite IH|]. rewrite IH.
    destruct (Split c s) as [|h l] eqn:Hs; [by apply Split_nonempty in Hs|]. done.
Qed.
Lemma Join_Split c s : Join (String c "") (Split c s) = s.
Proof.
  induction s as [|d s IH]; [done|]. cbn [Split]. pose proof (Split_nonempty c s) as Hne.
  case_bool_decide as Hd; destruct (Split c s) as [|h l]; [done| |done|].
  - subst d. change (String c (Join (String c "") (h :: l)) = String c s). by rewrite IH.
  - destruct l as [|x l]; [cbn in *; by rewrite IH|].
    change (String d (Join (String c "") (h :: x :: l)) = String d s). by rewrite IH.
Qed.
Lemma srev_append_app s acc : srev_append s acc = srev s +:+ acc.
Proof.
  unfold srev. revert acc. induction s as [|c s IH]; intros acc; cbn [srev_append]; [done|].
  by rewrite IH, (IH (String c "")), str_app_assoc.
Qed.
Lemma srev_cons c s : srev (String c s) = srev s +:+ String c "".
Proof. unfold srev at 1. cbn [srev_append]. apply srev_append_app. Qed.
Lemma srev_app s t : srev (s +:+ t) = srev t +:+ srev s.
Proof.
  induction s as [|c s IH]; [by rewrite str_app_nil_r|].
  rewrite str_cons_app, !srev_cons. by rewrite IH, str_app_assoc.
Qed.
Lemma srev_involutive s : srev (srev s) = s.
Proof. induction s as [|c s IH]; [done|]. by rewrite srev_cons, srev_app, IH. Qed.
Lemma has_prefix_spec p s : has_prefix p s = true ↔ ∃ t, s = p +:+ t.
Proof.
  unfold has_prefix. destruct (cut_prefix p s) as [t|] eqn:H.
  - apply cut_prefix_spec in H. naive_solver.
  - split; [done|]. intros [t Ht]. apply cut_prefix_spec in Ht. congruence.
Qed.
Lemma has_prefix_app p s : has_prefix p (p +:+ s) = true.
Proof. apply has_prefix_spec. eauto. Qed.
Lemma has_prefix_trans p q s :
  has_prefix p q = true → has_prefix q s = true → has_prefix p s = true.
Proof.
  rewrite !has_prefix_spec. intros [t ->] [u ->]. exists (t +:+ u). by rewrite str_app_assoc.
Qed.

Lemma contains_spec sub s : contains sub s = true ↔ ∃ a b, s = a +:+ sub +:+ b.
Proof.
  induction s as [|c s IH]; simpl; rewrite orb_true_iff, has_prefix_spec.
  - split; [|intros ([|] & b & H); left; exists b; naive_solver].
    intros [[t Ht]|?]; [|done]. exists "", t. done.
  - rewrite IH. split.
    + intros [[t Ht]|(a & b & ->)]; [by exists "", t | by exists (String c a), b].
    + intros ([|d a] & b & H); [left; by exists b|]. right. simplify_eq/=. eauto.
Qed.

(** The bytes of a decimal numeral are digits, so numerals followed by a
    separator are never prefixes of one another. *)
Lemma all_bytes_app p s t : all_bytes p (s +:+ t) = all_bytes p s && all_bytes p t.
Proof. induction s as [|c s IH]; simpl; [done|]. by rewrite IH, andb_assoc. Qed.
Lemma pretty_N_char_digit n : (n < 10)%N → is_digit (pretty_N_char n) = true.
Proof.
  intros H. assert (n ∈ [0; 1; 2; 3; 4; 5; 6; 7; 8; 9]%N) as Hn.
  { rewrite !elem_of_cons. lia. }
  repeat (apply elem_of_cons in Hn as [->|Hn]; [reflexivity|]). by apply elem_of_nil in Hn.
Qed.
Lemma pretty_N_go_digits n acc :
  all_bytes is_digit acc = true → all_bytes is_digit (pretty_N_go n acc) = true.
Proof.
  revert acc. induction (N.lt_wf_0 n) as [n _ IH]; intros acc Hacc.
  destruct (decide (0 < n)%N) as [Hn|Hn].
  - rewrite pretty_N_go_step by done. apply IH; [apply N.div_lt; lia|].
    simpl. rewrite pretty_N_char_digit by (apply N.mod_lt; lia). done.
  - replace n with 0%N by lia. by rewrite pretty_N_go_0.
Qed.
Lemma itoa_digits z : (0 ≤ z)%Z → all_bytes is_digit (itoa z) = true.
Proof.
  intros Hz. destruct z as [|p|p]; [reflexivity| |lia].
  change (itoa (Z.pos p)) with (pretty_N_go (N.pos p) "").
  by apply pretty_N_go_digits.
Qed.
(** Reading a numeral back. *)
Lemma pretty_N_char_byte n : (n < 10)%N → byte_of (pretty_N_char n) = (48 + Z.of_N n)%Z.
Proof.
  intros H. assert (n ∈ [0; 1; 2; 3; 4; 5; 6; 7; 8; 9]%N) as Hn.
  { rewrite !elem_of_cons. lia. }
  repeat (apply elem_of_cons in Hn as [->|Hn]; [reflexivity|]). by apply elem_of_nil in Hn.
Qed.
Lemma digits_go_pretty n s : digits_go 0 (pretty_N_go n s) = digits_go (Z.of_N n) s.
Proof.
  revert s. induction (N.lt_wf_0 n) as [n _ IH]; intros s.
  destruct (decide (0 < n)%N) as [Hn|Hn].
  - rewrite pretty_N_go_step by done. rewrite IH by (apply N.div_lt; lia). cbn [digits_go].
    rewrite pretty_N_char_digit by (apply N.mod_lt; lia). f_equal.
    rewrite pretty_N_char_byte by (apply N.mod_lt; lia).
    pose proof (N.div_mod n 10 ltac:(lia)). lia.
  - replace n with 0%N by lia. by rewrite pretty_N_go_0.
Qed.
Lemma atoi_itoa z : (0 ≤ z ≤ max_int64)%Z → atoi (itoa z) = Some z.
Proof.
  intros [H0 H1].
  assert (digits (itoa z) = Some z ∧ ∃ c s, itoa z = String c s ∧ is_digit c = true) as [Hd (c & s & Hs & Hc)].
  { pose proof (itoa_digits z H0) as Hall. destruct z as [|p|p]; [by split; [|by exists "0"%char, ""]| |lia].
    change (itoa (Z.pos p)) with (pretty_N_go (N.pos p) "") in *.
    pose proof (digits_go_pretty (N.pos p) "") as Hg. cbn [digits_go] in Hg.
    assert (∃ c s, pretty_N_go (N.pos p) "" = String c s) as (c & s & Hcs).
    { destruct (pretty_N_go (N.pos p) "") as [|c s]; [|eauto]. simpl in Hg. discriminate Hg. }
    rewrite Hcs in *. split; [exact Hg|]. exists c, s. split; [done|].
    by apply andb_true_iff in Hall as [? _]. }
  unfold atoi. rewrite Hs in *.
  assert (is_byte 45 c = false ∧ is_byte 43 c = false) as [-> ->].
  { unfold is_byte. split; apply bool_decide_eq_false_2; intros ->; done. }
  rewrite Hd. unfold in_int64.
  destruct (Z.leb_spec min_int64 z); [|unfold min_int64 in *; lia].
  by destruct (Z.leb_spec z max_int64); [|lia].
Qed.
Lemma digits_then_sep a b c x y :
  all_bytes is_digit a = true → all_bytes is_digit b = true → is_digit c = false →
  a +:+ String c x = b +:+ String c y → a = b.
Proof.
  intros Ha Hb Hc. revert b Ha Hb.
  induction a as [|d a IH]; intros [|e b] Ha Hb H; simpl in *; [done| | |].
  - inversion H; subst. apply andb_true_iff in Hb as [Hb _]. congruence.
  - inversion H; subst. apply andb_true_iff in Ha as [Ha _]. congruence.
  - inversion H; subst. rename select (a +:+ _ = _) into H'.
    apply andb_true_iff in Ha as [_ Ha]. apply andb_true_iff in Hb as [_ Hb].
    f_equal. by apply IH.
Qed.
Lemma itoa_sep_inj a b c x y :
  (0 ≤ a)%Z → (0 ≤ b)%Z → is_digit c = false →
  itoa a +:+ String c x = itoa b +:+ String c y → a = b.
Proof.
  intros Ha Hb Hc H. apply (inj pretty). eapply digits_then_sep; eauto using itoa_digits.
Qed.
Lemma str_app_inv_l (p s t : string) : p +:+ s = p +:+ t → s = t.
Proof. induction p as [|c p IH]; simpl; intros; simplify_eq; auto. Qed.

(** ** The byte order on strings *)
Lemma str_le_spec s t :
  str_le s t ↔ match s, t with
               | EmptyString, _ => True
               | String _ _, EmptyString => False
               | String c s', String d t' =>
                   (Ascii.N_of_ascii c < Ascii.N_of_ascii d)%N ∨ (c = d ∧ str_le s' t')
               end.
Proof.
  unfold str_le, String.leb. destruct s as [|c s], t as [|d t]; simpl; try naive_solver.
  unfold Ascii.compare. destruct (N.compare_spec (Ascii.N_of_ascii c) (Ascii.N_of_ascii d)) as [H|H|H].
  - apply (f_equal Ascii.ascii_of_N) in H. rewrite !Ascii.ascii_N_embedding in H. subst.
    split; [naive_solver|]. intros [?|[_ ?]]; [lia|done].
  - naive_solver.
  - split; [done|]. intros [?|[-> _]]; lia.
Qed.
Global Instance str_le_trans : Transitive str_le.
Proof.
  intros s. induction s as [|c s IH]; intros t u; rewrite !str_le_spec; [done|].
  destruct t as [|d t], u as [|e u]; try done.
  intros [H1|[-> H1]] [H2|[-> H2]]; [left; lia|by left|by left|]. right. eauto.
Qed.
Global Instance str_le_refl : Reflexive str_le.
Proof. intros s. induction s as [|c s IH]; rewrite str_le_spec; auto. Qed.
Global Instance str_le_total : Total str_le.
Proof.
  intros s. induction s as [|c s IH]; intros t; [left; by rewrite str_le_spec|].
  rewrite !str_le_spec. destruct t as [|d t]; [by right|].
  destruct (N.lt_trichotomy (Ascii.N_of_ascii c) (Ascii.N_of_ascii d)) as [H|[H|H]];
    [by left; left| |by right; left].
  apply (f_equal Ascii.ascii_of_N) in H. rewrite !Ascii.ascii_N_embedding in H. subst.
  destruct (IH t); [left; by right|right; by right].
Qed.
Global Instance str_le_antisymm : AntiSymm (=) str_le.
Proof.
  intros s. induction s as [|c s IH]; intros t; rewrite !str_le_spec; destruct t as [|d t];
    [done|done|done|].
  intros [H1|[-> H1]] [H2|[H2 H3]]; subst; try lia. f_equal. by apply IH.
Qed.

Lemma sort_strings_elem x l : x ∈ sort_strings l ↔ x ∈ l.
Proof. unfold sort_strings. by rewrite (merge_sort_Permutation str_le l). Qed.
Lemma sort_strings_sorted l : StronglySorted str_le (sort_strings l).
Proof. apply (StronglySorted_merge_sort str_le). Qed.

Create HintDb go.
#[export] Hint Rewrite str_app_nil_r str_app_assoc has_prefix_app eqb_refl sort_strings_elem : go.
#[export] Hint Resolve has_prefix_app eqb_refl itoa_digits sort_strings_sorted : go.
