(* ===== verification/Errors.v ===== *)
(** Go's error values: a kind (the dynamic type and its fields), the text
    [Error()] returns, and the errors it wraps. [errors.Is] and [errors.As] walk
    that tree in pre-order. Texts are kept because the code inspects them. *)
From S2P Require Import Prelude GoLib.

Inductive sentinel :=
| ErrNotAuthorized | ErrUnverifiableRead | ErrInvalidGrant | ErrNoGrants | ErrWrongScope
| ErrScopeTooWide | ErrConflict | ErrTimeout | ErrNotFound | ErrAmbiguousTag
| ErrInvalidPrincipal | errNoTaskStatus | Canceled | DeadlineExceeded
| ErrLockWaitTimeout | ErrLockWaitInterrupted
| ErrNoCommandSent | ErrCommandTimedOut | ErrRootWriteOutcomeUnknown | ErrSelfGrant
| ErrEscalatingRole | ErrUnknownGroup | ErrGrantNotConfirmed | ErrUnknownRole
| ErrInvalidACLPath | ErrRoleHasNoPrivileges | ErrPinnedPrivsMismatch | ErrAccessWriteRefused
| ErrRollbackNotWitnessed | ErrAgentExecTimeout | ErrNoGuestInterfaces | ErrNoInterfaceForMAC
| ErrAmbiguousInterfaceForMAC | ErrNoAddressForMAC | ErrAmbiguousAddressForMAC | ErrNoMACInNetConfig
| ErrPriorTokenRevoked | ErrUnknownNode | ErrTokenNotHeld | ErrTokenUndecryptable
| ErrTokenSecretRejected | ErrInvalidTokenOwner | ErrTokenOwnerMismatch | ErrKeylessWithPersistedSSH
| ErrKeylessTargetNeedsFlag | ErrOwnerLacksPrivileges | ErrOwnerDisabled | ErrTokenAlreadyHeld
| ErrInvalidImportTokenID | ErrInvalidTokenSecret | ErrTLSPinDiffers | ErrTLSPinRequired
| ErrHostKeyFingerprintRequired | ErrReprovisionNeedsFingerprint | ErrNothingToReprovision | ErrWrongPassphrase
| ErrRollbackInterrupted
| ErrTLSPinChanged | ErrSSHPinChanged | ErrUnknownHostKeySource | ErrNothingToRekey | ErrSameNewPassphrase
| ErrPartlyReadable | ErrRosterChanged | ErrNoReadableSecret | ErrMalformedPin | ErrUnknownSource
| ErrCapture | ErrTLSCapture | ErrTLSPinMismatch | ErrOutputTooLarge | ErrInvalidKeyLine
| ErrIncorrectIdentity | ErrBadCertificatePEM | ErrPinMismatch | errVMCreatedTagWaitInterrupted.
Global Instance sentinel_eq_dec : EqDecision sentinel.
Proof. solve_decision. Defined.

Definition sentinel_text (s : sentinel) : string :=
  match s with
  | ErrNotAuthorized => "not authorized to access endpoint"
  | ErrUnverifiableRead => "unverifiable read"
  | ErrInvalidGrant => "invalid grant"
  | ErrNoGrants => "token authenticates but holds no privileges anywhere (the ACL grant is missing or did not take effect)"
  | ErrWrongScope => "token's grants do not cover what was requested"
  | ErrScopeTooWide => "token's grants reach beyond what was requested"
  | ErrConflict => "idempotent: concurrent modification detected"
  | ErrTimeout => "the operation has timed out"
  | ErrNotFound => "no resource matches the given tag"
  | ErrAmbiguousTag => "tag matches more than one resource"
  | ErrInvalidPrincipal => "invalid principal"
  | errNoTaskStatus => "task status poll returned no status: unverifiable read"
  | Canceled => "context canceled"
  | DeadlineExceeded => "context deadline exceeded"
  | ErrLockWaitTimeout => "timed out waiting for the lock"
  | ErrLockWaitInterrupted => "interrupted while waiting for the lock"
  | ErrNoCommandSent => "no command was sent"
  | ErrCommandTimedOut => "ssh command timed out"
  | ErrRootWriteOutcomeUnknown => "the root write's outcome is unknown: it may or may not have been applied; re-running is safe, since the command reads PVE's state before it writes and PVE merges a repeated grant"
  | ErrSelfGrant => "refusing to grant to pveforge's own principal"
  | ErrEscalatingRole => "refusing an escalating role"
  | ErrUnknownGroup => "no such group on PVE"
  | ErrGrantNotConfirmed => "the grant is not in the ACL list read back after it"
  | ErrUnknownRole => "the requested ACL role does not exist on PVE"
  | ErrInvalidACLPath => "invalid ACL path"
  | ErrRoleHasNoPrivileges => "the requested ACL role grants no privileges"
  | ErrPinnedPrivsMismatch => "a grant's pinned privileges differ from its role's privileges on PVE"
  | ErrAccessWriteRefused => "refusing to write PVE's /access API with the roster's token"
  | ErrRollbackNotWitnessed => "rollback not witnessed"
  | ErrAgentExecTimeout => "guest agent exec did not report exit before the deadline"
  | ErrPriorTokenRevoked => "this run revoked the target's previous API token on PVE and did not replace it"
  | ErrUnknownNode => "the requested node is not a member of the PVE cluster"
  | ErrTokenNotHeld => "an API token of this name already exists on PVE and this roster does not hold it"
  | ErrTokenUndecryptable => "the roster's token for this target will not decrypt with the given passphrase (a wrong passphrase, or corruption)"
  | ErrTokenSecretRejected => "PVE lists this roster's token but rejected it (HTTP 401 or 403), which is not a verdict about the token, so nothing was removed"
  | ErrInvalidTokenOwner => "invalid token owner"
  | ErrTokenOwnerMismatch => "the roster's token belongs to another owner and no --token-owner was given"
  | ErrKeylessWithPersistedSSH => "--no-ssh-key, but this roster holds an SSH keypair for the target"
  | ErrKeylessTargetNeedsFlag => "this target holds a token but no SSH key (bootstrapped with --no-ssh-key, or its token imported), so --no-ssh-key is required"
  | ErrOwnerLacksPrivileges => "the token owner does not hold the requested privileges"
  | ErrOwnerDisabled => "the token owner is disabled or expired"
  | ErrTokenAlreadyHeld => "the target already holds a different token"
  | ErrInvalidImportTokenID => "invalid token id"
  | ErrInvalidTokenSecret => "invalid token secret"
  | ErrTLSPinDiffers => "the roster pins another TLS key for this target"
  | ErrTLSPinRequired => "an insecure_tls target needs a TLS pin: no REST request is made to one that holds none"
  | ErrHostKeyFingerprintRequired => "a TLS pin captured over a password SSH session needs --host-key-fingerprint (or --ssh-tofu to accept trust on first use)"
  | ErrReprovisionNeedsFingerprint => "--reprovisioned needs --host-key-fingerprint: read the rebuilt node's host key on its CONSOLE (ssh-keygen -lf /etc/ssh/ssh_host_ecdsa_key.pub) and pass that value"
  | ErrNothingToReprovision => "--reprovisioned: the roster holds no SSH or TLS pin for this target, so there is nothing to replace; drop --reprovisioned for a first bootstrap"
  | ErrWrongPassphrase => "wrong roster passphrase"
  | ErrRollbackInterrupted => "the rollback completed; the witness was interrupted before it could prove it"
  | ErrTLSPinChanged => "the roster's TLS pin is not the one this write expected (another pveforge wrote it since it was read)"
  | ErrSSHPinChanged => "the roster's SSH host key pin is not the one this write expected (another pveforge wrote it since it was read)"
  | ErrUnknownHostKeySource => "not an SSH host key source"
  | ErrNothingToRekey => "the roster holds no secret, so there is no passphrase to change"
  | ErrSameNewPassphrase => "the new passphrase is the current one"
  | ErrPartlyReadable => "the roster's secrets do not all open with this passphrase"
  | ErrRosterChanged => "the roster changed while it was being rekeyed"
  | ErrNoReadableSecret => "no secret in the roster can be read"
  | ErrMalformedPin => "not a TLS pin"
  | ErrUnknownSource => "not a TLS pin source"
  | ErrCapture => "could not read the certificate the node serves"
  | ErrTLSCapture => "could not capture the node's TLS certificate over SSH"
  | ErrTLSPinMismatch => "the target's address does not serve the TLS key the node serves"
  | ErrOutputTooLarge => "the command's output exceeded its limit"
  | ErrBadCertificatePEM => "not exactly one PEM certificate"
  | ErrPinMismatch => "TLS pin mismatch"
  | errVMCreatedTagWaitInterrupted => "the VM WAS created; the wait for PVE to list it was interrupted before it was, and the tag's lock was released early, so a --unique-tag check made now may not see it"
  | ErrNoGuestInterfaces => "guest agent reported no interfaces"
  | ErrNoInterfaceForMAC => "no guest interface reports the given mac address"
  | ErrAmbiguousInterfaceForMAC => "more than one guest interface reports the given mac address"
  | ErrNoAddressForMAC => "guest interface matched the mac address but reports no usable ip address"
  | ErrAmbiguousAddressForMAC => "guest interface reports more than one usable ip address"
  | ErrNoMACInNetConfig => "net config value contains no mac address"
  | ErrInvalidKeyLine => "not a single authorized_keys line"
  | ErrIncorrectIdentity => "incorrect identity for recipient block"
  end.

(** The texts of go-proxmox's [ErrNotAuthorized] and [ErrTimeout], and of age's
    [ErrIncorrectIdentity], only reach messages; no modelled test reads them. *)

(** The dynamic type of an error. [KStatus] is [*pve.StatusError], [KPxStatus]
    go-proxmox's [*StatusError], [KUrl] the [*url.Error] of a transport failure,
    [KTaskOutcomeUnknown] [*taskOutcomeUnknownError]. *)
Inductive ekind :=
| KText
| KSentinel (s : sentinel)
| KStatus (code : Z) (status body : string)
| KPxStatus (code : Z) (status body : string)
| KUrl
| KTaskFailed (upid exit : string)
| KTaskOutcomeUnknown
| KSnapshotExists (vmid : Z) (name : string)
| KReservedSnapshotName (vmid : Z) (name : string)
| KNotNewestSnapshot (vmid : Z) (target : string) (newer : list string)
| KStorageDiffers (name actual : string)
| KCreatedNotFound (vmid : Z)
| KCloudInitCheck
| KReadBackMismatch (object id got : string)
| KAccessWrite (method path : string)
| KAgentExecTimeout (polls : nat)
| KRollbackWitness (reason : string).

Inductive err := Err (k : ekind) (msg : string) (wraps : list err).

Definition kind (e : err) : ekind := let 'Err k _ _ := e in k.
Definition Error (e : err) : string := let 'Err _ m _ := e in m.

Definition errorf (msg : string) : err := Err KText msg [].
Definition sent (s : sentinel) : err :=
  Err (KSentinel s) (sentinel_text s)
    (match s with errNoTaskStatus => [Err (KSentinel ErrUnverifiableRead) (sentinel_text ErrUnverifiableRead) []] | _ => [] end).
(** [fmt.Errorf("<pre>: %w", e)], [fmt.Errorf("<pre>: %w: <post>", e)] and
    [fmt.Errorf("<pre>: %w: %w", e1, e2)]. *)
Definition wrapf (pre : string) (e : err) : err := Err KText (pre +:+ ": " +:+ Error e) [e].
Definition wrapf_post (pre : string) (e : err) (post : string) : err :=
  Err KText (pre +:+ ": " +:+ Error e +:+ ": " +:+ post) [e].
Definition wrapf2 (pre : string) (e1 e2 : err) : err :=
  Err KText (pre +:+ ": " +:+ Error e1 +:+ ": " +:+ Error e2) [e1; e2].
(** [fmt.Errorf("%w: <post>", e)]. *)
Definition wrap_pre (e : err) (post : string) : err := Err KText (Error e +:+ ": " +:+ post) [e].
(** [fmt.Errorf("%w...", sentinel, ...)]; [says] starts with its separator. *)
Definition refusal (s : sentinel) (says : string) : err := Err KText (sentinel_text s +:+ says) [sent s].

(** A [StatusError] is [ErrNotAuthorized] when its code is 401 or 403. *)
Definition kind_is (s : sentinel) (k : ekind) : bool :=
  match k with
  | KSentinel s' => bool_decide (s = s')
  | KStatus code _ _ =>
      bool_decide (s = ErrNotAuthorized) && bool_decide (code = 401 ∨ code = 403)%Z
  | KAccessWrite _ _ => bool_decide (s = ErrAccessWriteRefused)
  | _ => false
  end.

Fixpoint errors_Is (s : sentinel) (e : err) : bool :=
  let 'Err k _ ws := e in kind_is s k || existsb (errors_Is s) ws.

(** [errors.As] for the kinds [f] selects: the first match in pre-order. *)
Fixpoint errors_As {A} (f : ekind → option A) (e : err) : option A :=
  let 'Err k _ ws := e in
  match f k with
  | Some a => Some a
  | None =>
      (fix go ws := match ws with
                    | [] => None
                    | w :: ws' => match errors_As f w with Some a => Some a | None => go ws' end
                    end) ws
  end.

(** A Go function's [(value, error)]: exactly one of the two is meaningful. *)
Inductive res (A : Type) := Ok (a : A) | Er (e : err).
Arguments Ok {A} a.
Arguments Er {A} e.

(** [x, err := c; if err != nil { return h(err) }; k] on programs and on values. *)
Notation "'let?' x := c 'orelse' h 'in' k" :=
  (bind c (λ r, match r with Ok x => k | Er e => Ret (Er (h e)) end))
  (at level 10, x name, c at level 100, h at level 100, k at level 200) : io_scope.
Notation "'let?' ' p := c 'orelse' h 'in' k" :=
  (bind c (λ r, match r with Ok p => k | Er e => Ret (Er (h e)) end))
  (at level 10, p pattern, c at level 100, h at level 100, k at level 200) : io_scope.
Notation "'let^' x := c 'orelse' h 'in' k" :=
  (match c with Ok x => k | Er e => Er (h e) end)
  (at level 10, x name, c at level 100, h at level 100, k at level 200) : io_scope.
Notation "'guard' b 'orelse' e 'in' k" := (if b : bool then k else Ret (Er e))
  (at level 10, b at level 100, e at level 100, k at level 200) : io_scope.
Notation "'guard^' b 'orelse' e 'in' k" := (if b : bool then k else Er e)
  (at level 10, b at level 100, e at level 100, k at level 200) : io_scope.

Definition is_ok {A} (r : res A) : bool := match r with Ok _ => true | Er _ => false end.

Lemma errors_Is_wrapf s pre e : errors_Is s (wrapf pre e) = errors_Is s e.
Proof. simpl. by rewrite orb_false_r. Qed.
Lemma errors_Is_wrapf_post s pre e post : errors_Is s (wrapf_post pre e post) = errors_Is s e.
Proof. simpl. by rewrite orb_false_r. Qed.
Lemma errors_Is_wrapf2 s pre e1 e2 :
  errors_Is s (wrapf2 pre e1 e2) = errors_Is s e1 || errors_Is s e2.
Proof. simpl. by rewrite orb_false_r. Qed.
Lemma errors_As_wrapf {A} (f : ekind → option A) pre e :
  f KText = None → errors_As f (wrapf pre e) = errors_As f e.
Proof. intros Hf. simpl. rewrite Hf. by destruct (errors_As f e). Qed.
Lemma errors_Is_errorf s msg : errors_Is s (errorf msg) = false.
Proof. done. Qed.

#[export] Hint Rewrite errors_Is_wrapf errors_Is_wrapf_post errors_Is_wrapf2 errors_Is_errorf : go.
(** The results of the code's guards and calls. *)
Lemma guard_iff {A} (b : bool) (k : res A) e x : (if b then k else Er e) = Ok x ↔ b = true ∧ k = Ok x.
Proof. destruct b; split; try done; by intros [? ?]. Qed.
Lemma call_iff {A B} (r : res A) h (k : A → res B) x :
  match r with Ok a => k a | Er e => Er (h e) end = Ok x ↔ ∃ a, r = Ok a ∧ k a = Ok x.
Proof.
  destruct r as [a|e]; split; [by exists a|by intros (? & [= <-] & ?)|done|by intros (? & [=] & _)].
Qed.
Lemma is_ok_ex {A} (r : res A) : is_ok r = true ↔ ∃ a, r = Ok a.
Proof. destruct r; split; eauto; [done|by intros [? [=]]]. Qed.
Lemma negb_eqb s t : negb (eqb s t) = true ↔ s ≠ t.
Proof. by rewrite negb_true_iff, <- not_true_iff_false, eqb_true. Qed.
Lemma negb_bool_decide P `{!Decision P} : negb (bool_decide P) = true ↔ ¬ P.
Proof. by rewrite negb_true_iff, bool_decide_eq_false. Qed.
Lemma eqb_false s t : eqb s t = false ↔ s ≠ t.
Proof. by rewrite <- not_true_iff_false, eqb_true. Qed.
