(* ===== verification/Json.v ===== *)
(** JSON documents as encoding/json sees them, the decodings the code asks of
    it, and kvjson's [Scalar]. A [json.RawMessage] is the document it holds, in
    the compact form; number literals are kept as written. *)
From Stdlib Require Import Ascii.
From S2P Require Import Prelude GoLib Errors.

Inductive json :=
| JNull
| JBool (b : bool)
| JNum (lit : string)
| JStr (s : string)
| JArr (l : list json)
| JObj (l : list (string * json)).

(** ** Printing (json.Marshal) *)
Definition json_quote_rune (html : bool) (rb : Z * string) : string :=
  let '(r, bs) := rb in
  let esc c := chr 92 +:+ c in
  if decide (r = 34)%Z then esc dq
  else if decide (r = 92)%Z then esc (chr 92)
  else if decide (r = 8)%Z then esc "b"
  else if decide (r = 12)%Z then esc "f"
  else if decide (r = 10)%Z then esc "n"
  else if decide (r = 13)%Z then esc "r"
  else if decide (r = 9)%Z then esc "t"
  else if (r <? 32)%Z then esc ("u" +:+ hex4 r)
  else if html && bool_decide (r ∈ [38; 60; 62])%Z then esc ("u" +:+ hex4 r)
  else if decide (r = rune_error ∧ slen bs = 1) then esc "ufffd"
  else if bool_decide (r ∈ [0x2028; 0x2029])%Z then esc ("u" +:+ hex4 r)
  else bs.
Definition json_quote (html : bool) (s : string) : string :=
  dq +:+ sconcat (json_quote_rune html <$> runes s) +:+ dq.

Fixpoint compact (j : json) : string :=
  match j with
  | JNull => "null"
  | JBool b => if b then "true" else "false"
  | JNum lit => lit
  | JStr s => json_quote true s
  | JArr l => "[" +:+ Join "," (compact <$> l) +:+ "]"
  | JObj l =>
      "{" +:+ Join "," ((λ kv, json_quote true kv.1 +:+ ":" +:+ compact kv.2) <$> l) +:+ "}"
  end.

(** ** Parsing (encoding/json's scanner and unquote) *)
Definition is_ws (c : ascii) : bool := is_byte 32 c || is_byte 9 c || is_byte 10 c || is_byte 13 c.
Fixpoint skip_ws (s : string) : string :=
  match s with String c s' => if is_ws c then skip_ws s' else s | EmptyString => "" end.

Definition utf8_encode (r : Z) : string :=
  let b z := String (Ascii.ascii_of_N (Z.to_N z)) "" in
  if (r <? 0x80)%Z then b r
  else if (r <? 0x800)%Z then b (0xC0 + r / 64)%Z +:+ b (0x80 + r mod 64)%Z
  else if (r <? 0x10000)%Z then
    b (0xE0 + r / 4096)%Z +:+ b (0x80 + r / 64 mod 64)%Z +:+ b (0x80 + r mod 64)%Z
  else b (0xF0 + r / 262144)%Z +:+ b (0x80 + r / 4096 mod 64)%Z
       +:+ b (0x80 + r / 64 mod 64)%Z +:+ b (0x80 + r mod 64)%Z.

Definition hex_val (c : ascii) : option Z :=
  let b := byte_of c in
  if is_digit c then Some (b - 48)%Z
  else if in_range 97 102 c then Some (b - 87)%Z
  else if in_range 65 70 c then Some (b - 55)%Z else None.
Definition hex4_val (s : string) : option (Z * string) :=
  match s with
  | String a (String b (String c (String d s'))) =>
      match hex_val a, hex_val b, hex_val c, hex_val d with
      | Some x, Some y, Some z, Some w => Some (x * 4096 + y * 256 + z * 16 + w, s')%Z
      | _, _, _, _ => None
      end
  | _ => None
  end.
Definition is_surrogate (r : Z) : bool := ((0xD800 <=? r) && (r <? 0xE000))%Z.
(** A [\u] escape, the backslash and the [u] already read: a surrogate pair is
    one rune, a lone surrogate is U+FFFD. *)
Definition unescape_u (s : string) : option (string * string) :=
  match hex4_val s with
  | None => None
  | Some (r, s1) =>
      if negb (is_surrogate r) then Some (utf8_encode r, s1)
      else match cut_prefix (chr 92 +:+ "u") s1 with
      | Some s2 =>
          match hex4_val s2 with
          | Some (r2, s3) =>
              if ((r <? 0xDC00) && (0xDC00 <=? r2) && (r2 <? 0xE000))%Z
              then Some (utf8_encode (0x10000 + (r - 0xD800) * 1024 + (r2 - 0xDC00))%Z, s3)
              else Some (utf8_encode rune_error, s1)
          | None => Some (utf8_encode rune_error, s1)
          end
      | None => Some (utf8_encode rune_error, s1)
      end
  end.
Definition simple_escape (c : ascii) : option string :=
  if one_of (dq +:+ chr 92 +:+ "/") c then Some (String c "")
  else if is_byte 98 c then Some (chr 8) else if is_byte 102 c then Some (chr 12)
  else if is_byte 110 c then Some (chr 10) else if is_byte 114 c then Some (chr 13)
  else if is_byte 116 c then Some (chr 9) else None.

(** The body of a string, its opening quote already read. *)
Fixpoint parse_chars (n : nat) (s : string) : option (string * string) :=
  match n, s with
  | S n', String c s' =>
      if is_byte 34 c then Some ("", s')
      else
        let step :=
          if is_byte 92 c then
            match s' with
            | String e s2 => if is_byte 117 e then unescape_u s2
                             else match simple_escape e with
                                  | Some x => Some (x, s2) | None => None end
            | EmptyString => None
            end
          else if (byte_of c <? 32)%Z then None
          else let '(r, bs, rest) := decode_rune c s' in
               Some (if decide (r = rune_error ∧ slen bs = 1) then utf8_encode rune_error
                     else bs, rest) in
        match step with
        | Some (x, rest) =>
            match parse_chars n' rest with
            | Some (y, rest') => Some (x +:+ y, rest')
            | None => None
            end
        | None => None
        end
  | _, _ => None
  end.

Fixpoint take_while (p : ascii → bool) (s : string) : string * string :=
  match s with
  | String c s' => if p c then let '(a, b) := take_while p s' in (String c a, b) else ("", s)
  | EmptyString => ("", "")
  end.
(** [int frac? exp?], as encoding/json scans numbers. *)
Definition parse_number (s : string) : option (string * string) :=
  let '(sign, s1) := match cut_prefix "-" s with Some t => ("-", t) | None => ("", s) end in
  let '(ds, s2) := take_while is_digit s1 in
  let int_ok := match ds with
                | EmptyString => false
                | String c rest => negb (is_byte 48 c) || eqb rest ""
                end in
  if negb int_ok then None else
  let frac := match cut_prefix "." s2 with
              | Some t => let '(f, t') := take_while is_digit t in
                          if eqb f "" then None else Some ("." +:+ f, t')
              | None => Some ("", s2)
              end in
  match frac with
  | None => None
  | Some (f, s3) =>
      match s3 with
      | String e s4 =>
          if one_of "eE" e then
            let '(sg, s5) := match s4 with
                             | String c t => if one_of "+-" c then (String c "", t) else ("", s4)
                             | EmptyString => ("", s4)
                             end in
            let '(x, s6) := take_while is_digit s5 in
            if eqb x "" then None
            else Some (sign +:+ ds +:+ f +:+ String e "" +:+ sg +:+ x, s6)
          else Some (sign +:+ ds +:+ f, s3)
      | EmptyString => Some (sign +:+ ds +:+ f, s3)
      end
  end.

(** One value, and what follows it. The fuel bounds the nesting and the number of
    elements, both below the length of the text. *)
Fixpoint parse_value (n : nat) (s : string) : option (json * string) :=
  match n with
  | 0 => None
  | S n' =>
      match skip_ws s with
      | EmptyString => None
      | String c s1 =>
          if is_byte 34 c then
            match parse_chars (slen s1) s1 with
            | Some (x, rest) => Some (JStr x, rest) | None => None end
          else if is_byte 123 c then
            match cut_prefix "}" (skip_ws s1) with
            | Some rest => Some (JObj [], rest)
            | None => match parse_members n' s1 with
                      | Some (l, rest) => Some (JObj l, rest) | None => None end
            end
          else if is_byte 91 c then
            match cut_prefix "]" (skip_ws s1) with
            | Some rest => Some (JArr [], rest)
            | None => match parse_elems n' s1 with
                      | Some (l, rest) => Some (JArr l, rest) | None => None end
            end
          else match cut_prefix "true" (String c s1) with
          | Some rest => Some (JBool true, rest)
          | None => match cut_prefix "false" (String c s1) with
          | Some rest => Some (JBool false, rest)
          | None => match cut_prefix "null" (String c s1) with
          | Some rest => Some (JNull, rest)
          | None => match parse_number (String c s1) with
                    | Some (lit, rest) => Some (JNum lit, rest) | None => None end
          end end end
      end
  end
with parse_elems (n : nat) (s : string) : option (list json * string) :=
  match n with
  | 0 => None
  | S n' =>
      match parse_value n' s with
      | None => None
      | Some (v, s1) =>
          match skip_ws s1 with
          | String c s2 =>
              if is_byte 93 c then Some ([v], s2)
              else if is_byte 44 c then
                match parse_elems n' s2 with
                | Some (l, rest) => Some (v :: l, rest) | None => None end
              else None
          | EmptyString => None
          end
      end
  end
with parse_members (n : nat) (s : string) : option (list (string * json) * string) :=
  match n with
  | 0 => None
  | S n' =>
      match skip_ws s with
      | String q s0 =>
          if negb (is_byte 34 q) then None else
          match parse_chars (slen s0) s0 with
          | None => None
          | Some (k, s1) =>
              match cut_prefix ":" (skip_ws s1) with
              | None => None
              | Some s2 =>
                  match parse_value n' s2 with
                  | None => None
                  | Some (v, s3) =>
                      match skip_ws s3 with
                      | String c s4 =>
                          if is_byte 125 c then Some ([(k, v)], s4)
                          else if is_byte 44 c then
                            match parse_members n' s4 with
                            | Some (l, rest) => Some ((k, v) :: l, rest) | None => None end
                          else None
                      | EmptyString => None
                      end
                  end
              end
          end
      | EmptyString => None
      end
  end.

(** [json.NewDecoder(s).Decode]: the first value of a stream, and the rest. *)
Definition decode_stream (s : string) : option (json * string) :=
  parse_value (2 * S (slen s)) s.
(** [json.Unmarshal] up to the conversion into the target: one value, nothing
    after it. *)
Definition parse_json (s : string) : option json :=
  match decode_stream s with
  | Some (j, rest) => if eqb (skip_ws rest) "" then Some j else None
  | None => None
  end.

(** ** Decoding (json.Unmarshal). [null] into a string, a number, a map or a
    slice is a no-op that leaves the zero value; a later duplicate key wins. *)
Definition as_string (j : json) : option string :=
  match j with JNull => Some "" | JStr s => Some s | _ => None end.
Definition as_int (j : json) : option Z :=
  match j with JNull => Some 0%Z | JNum lit => atoi lit | _ => None end.
Definition fields_of (l : list (string * json)) : gmap string json := list_to_map (reverse l).
(** Into a [map[string]json.RawMessage]; the inner [None] is the nil map. *)
Definition as_object (j : json) : option (option (gmap string json)) :=
  match j with JNull => Some None | JObj l => Some (Some (fields_of l)) | _ => None end.
(** Into a [[]map[string]json.RawMessage]; the inner [None]s are nil. *)
Definition as_objects (j : json) : option (option (list (option (gmap string json)))) :=
  match j with
  | JNull => Some None
  | JArr l => Some <$> mapM as_object l
  | _ => None
  end.
Definition as_strings (j : json) : option (list string) :=
  match j with JNull => Some [] | JArr l => mapM as_string l | _ => None end.

(** [json.Unmarshal(m[k], &v)] for a key that may be absent: a nil RawMessage is
    an error. *)
Definition field {A} (dec : json → option A) (m : gmap string json) (k : string) : option A :=
  m !! k ≫= dec.

(** A Go map ranged over. Go leaves the order open; the model fixes one, and the
    order can only decide which of several errors is reported. *)
Abbreviation entries m := (map_to_list m) (only parsing).
Definition sorted_keys {V} (m : gmap string V) : list string := sort_strings (map_to_list m).*1.
Definition JMap (m : gmap string json) : json :=
  JObj ((λ k, (k, default JNull (m !! k))) <$> sorted_keys m).

(** ** kvjson.Scalar *)
Definition Scalar (raw : json) : res string :=
  match raw with
  | JNull => Ok "null"
  | JStr s => Ok s
  | _ => Ok (compact raw)
  end.

Lemma sorted_keys_elem {V} (m : gmap string V) k : k ∈ sorted_keys m ↔ is_Some (m !! k).
Proof.
  unfold sorted_keys. rewrite sort_strings_elem, list_elem_of_fmap. split.
  - intros ([k' v] & -> & H). apply elem_of_map_to_list in H. simpl. eauto.
  - intros [v H]. exists (k, v). by rewrite elem_of_map_to_list.
Qed.
Lemma fields_of_lookup l k v : NoDup l.*1 → (k, v) ∈ l → fields_of l !! k = Some v.
Proof.
  intros Hnd Hin. unfold fields_of. apply elem_of_list_to_map_1.
  - rewrite fmap_reverse, reverse_Permutation. done.
  - by rewrite elem_of_reverse.
Qed.
Lemma sorted_keys_NoDup {V} (m : gmap string V) : NoDup (sorted_keys m).
Proof.
  unfold sorted_keys, sort_strings. rewrite (merge_sort_Permutation str_le).
  apply NoDup_fst_map_to_list.
Qed.
Lemma fields_of_JMap (m : gmap string json) : as_object (JMap m) = Some (Some m).
Proof.
  unfold JMap. cbn [as_object]. do 2 f_equal. apply map_eq. intros k.
  set (l := (λ k, (k, default JNull (m !! k))) <$> sorted_keys m).
  assert (l.*1 = sorted_keys m) as Hl by (unfold l; rewrite <- list_fmap_compose; apply list_fmap_id).
  destruct (m !! k) as [v|] eqn:Hk.
  - apply fields_of_lookup; [rewrite Hl; apply sorted_keys_NoDup|].
    apply list_elem_of_fmap. exists k. rewrite Hk. split; [done|]. apply sorted_keys_elem. eauto.
  - destruct (fields_of l !! k) as [v|] eqn:Hf; [|done]. exfalso.
    apply elem_of_list_to_map_2 in Hf. rewrite elem_of_reverse in Hf.
    apply list_elem_of_fmap in Hf as (k' & [= -> _] & Hin).
    apply sorted_keys_elem in Hin as [? Hin]. congruence.
Qed.
#[export] Hint Rewrite @sorted_keys_elem : go.

(** * Hex digits *)
Lemma hex_digit_val up d : (0 ≤ d < 16)%Z → ∃ c, hex_digit up d = String c "" ∧ hex_val c = Some d.
Proof.
  intros H. assert (d ∈ seqZ 0 16) as Hd by (apply elem_of_seqZ; lia). vm_compute in Hd.
  repeat (apply elem_of_cons in Hd as [->|Hd]; [destruct up; by eexists; split; vm_compute|]).
  by apply elem_of_nil in Hd.
Qed.
Lemma hex_val_range c x : hex_val c = Some x → (0 ≤ x < 16)%Z.
Proof.
  unfold hex_val, is_digit, in_range. cbv zeta. intros H.
  repeat match type of H with (if ?b then _ else _) = _ => destruct b eqn:?; [injection H as <-; lia|] end. done.
Qed.
(** A byte as two hex digits. *)
Lemma hex2_val up d : (0 ≤ d < 256)%Z →
  ∃ a b x y, hex2 up d = String a (String b "") ∧ hex_val a = Some x ∧ hex_val b = Some y ∧ (x * 16 + y)%Z = d.
Proof.
  intros H. unfold hex2. assert (∀ z, 0 ≤ z `mod` 16 < 16)%Z as Hm by (intros z; apply Z.mod_pos_bound; lia).
  destruct (hex_digit_val up _ (Hm (d `div` 16)%Z)) as (a & -> & Ha). destruct (hex_digit_val up _ (Hm d)) as (b & -> & Hb).
  exists a, b, ((d `div` 16) `mod` 16)%Z, (d `mod` 16)%Z. split_and!; [done..|].
  rewrite (Z.mod_small (d `div` 16)); [|split; [apply Z.div_pos; lia|apply Z.div_lt_upper_bound; lia]].
  pose proof (Z.div_mod d 16). lia.
Qed.
