(* ===== verification/Utf8.v ===== *)
(** UTF-8: a valid string is the concatenation of its runes, wherever it stands, and
    decoding a rune is the inverse of encoding it. *)
From Stdlib Require Import Ascii.
From S2P Require Import Prelude GoLib Errors Json.

(** A rune and the bytes it was decoded from, wherever they stand. *)
Definition rune_ok (rb : Z * string) : Prop :=
  ∃ c bs, rb.2 = String c bs ∧ (∀ t, decode_rune c (bs +:+ t) = (rb.1, rb.2, t)) ∧
    utf8_encode rb.1 = rb.2.
(** Valid UTF-8: no byte decodes as an error. *)
Definition valid_utf8 (s : string) : Prop :=
  Forall (λ rb, ¬ (rb.1 = rune_error ∧ slen rb.2 = 1)) (runes s).

Lemma utf8_encode_ascii c : (byte_of c < 128)%Z → utf8_encode (byte_of c) = String c "".
Proof.
  intros H. unfold utf8_encode. destruct (Z.ltb_spec (byte_of c) 0x80); [|lia].
  by rewrite N2Z.id, Ascii.ascii_N_embedding.
Qed.
Lemma byte_of_bound c : (0 ≤ byte_of c < 256)%Z.
Proof. pose proof (Ascii.N_ascii_bounded c). lia. Qed.
Lemma of_byte c z : z = byte_of c → Ascii.ascii_of_N (Z.to_N z) = c.
Proof. intros ->. by rewrite N2Z.id, Ascii.ascii_N_embedding. Qed.
Lemma land_low z n : (0 ≤ n)%Z → Z.land z (Z.ones n) = (z mod 2 ^ n)%Z.
Proof. intros. by apply Z.land_ones. Qed.

Lemma cont_spec lo hi c : cont lo hi c = true ↔ (lo ≤ byte_of c ≤ hi)%Z.
Proof. unfold cont, in_range. rewrite andb_true_iff, !Z.leb_le. done. Qed.
Lemma second_range_spec b lo hi :
  second_range b = (lo, hi) →
  (0x80 ≤ lo ∧ hi ≤ 0xBF ∧ (b = 0xE0 → lo = 0xA0) ∧ (b = 0xF0 → lo = 0x90))%Z.
Proof. unfold second_range. repeat case_decide; intros [= <- <-]; lia. Qed.
Ltac low_bits :=
  change 0x1F%Z with (Z.ones 5); change 0x0F%Z with (Z.ones 4); change 0x07%Z with (Z.ones 3);
  change 0x3F%Z with (Z.ones 6); rewrite !Z.land_ones by lia;
  change (2 ^ 5)%Z with 32%Z; change (2 ^ 4)%Z with 16%Z; change (2 ^ 3)%Z with 8%Z;
  change (2 ^ 6)%Z with 64%Z.
Ltac divmod := Z.to_euclidean_division_equations; lia.
Ltac lead_byte :=
  unfold utf8_encode;
  repeat match goal with |- context [Z.ltb ?a ?b] => destruct (Z.ltb_spec a b); try divmod end.

Lemma encode2 c c1 :
  (0xC2 ≤ byte_of c < 0xE0)%Z → (0x80 ≤ byte_of c1 ≤ 0xBF)%Z →
  utf8_encode (Z.land (byte_of c) 0x1F * 64 + Z.land (byte_of c1) 0x3F) = String c (String c1 "").
Proof.
  intros H0 H1. low_bits. lead_byte. cbv [String.append].
  repeat f_equal; apply of_byte; divmod.
Qed.
Lemma encode3 c c1 c2 :
  (0xE0 ≤ byte_of c < 0xF0)%Z → (0x80 ≤ byte_of c1 ≤ 0xBF)%Z → (0x80 ≤ byte_of c2 ≤ 0xBF)%Z →
  (byte_of c = 0xE0 → 0xA0 ≤ byte_of c1)%Z →
  utf8_encode (Z.land (byte_of c) 0x0F * 4096 + Z.land (byte_of c1) 0x3F * 64
               + Z.land (byte_of c2) 0x3F) = String c (String c1 (String c2 "")).
Proof.
  intros H0 H1 H2 H3. low_bits. lead_byte. cbv [String.append].
  repeat f_equal; apply of_byte; divmod.
Qed.
Lemma encode4 c c1 c2 c3 :
  (0xF0 ≤ byte_of c ≤ 0xF4)%Z → (0x80 ≤ byte_of c1 ≤ 0xBF)%Z → (0x80 ≤ byte_of c2 ≤ 0xBF)%Z →
  (0x80 ≤ byte_of c3 ≤ 0xBF)%Z → (byte_of c = 0xF0 → 0x90 ≤ byte_of c1)%Z →
  utf8_encode (Z.land (byte_of c) 0x07 * 262144 + Z.land (byte_of c1) 0x3F * 4096
               + Z.land (byte_of c2) 0x3F * 64 + Z.land (byte_of c3) 0x3F)
  = String c (String c1 (String c2 (String c3 ""))).
Proof.
  intros H0 H1 H2 H3 H4. low_bits. lead_byte. cbv [String.append].
  repeat f_equal; apply of_byte; divmod.
Qed.

Lemma decode_rune_ok c s r bs rest :
  decode_rune c s = (r, bs, rest) → ¬ (r = rune_error ∧ slen bs = 1) →
  String c s = bs +:+ rest ∧ rune_ok (r, bs).
Proof.
  unfold decode_rune. pose proof (byte_of_bound c) as Hc.
  destruct (second_range (byte_of c)) as [lo hi] eqn:Hr.
  pose proof (second_range_spec _ _ _ Hr) as (Hlo & Hhi & HE & HF).
  assert (∀ p, rune_error = r ∧ String c "" = bs ∧ s = rest →
    ¬ (r = rune_error ∧ slen bs = 1) → p) as Hbad by (intros p (E1 & E2 & _) Hv; destruct Hv; by subst).
  destruct (Z.ltb_spec (byte_of c) 0x80) as [H0|H0].
  { intros [= <- <- <-] _. split; [done|]. exists c, "". split_and!; [done| |by apply utf8_encode_ascii].
    intros t. unfold decode_rune. rewrite Hr. by destruct (Z.ltb_spec (byte_of c) 0x80); [|lia]. }
  destruct (Z.ltb_spec (byte_of c) 0xC2) as [H1|H1]; [intros [= ? ? ?] Hv; by apply (Hbad _)|].
  destruct (Z.ltb_spec 0xF4 (byte_of c)) as [H2|H2]; [intros [= ? ? ?] Hv; by apply (Hbad _)|].
  cbn [orb].
  destruct s as [|c1 s1]; [intros [= ? ? ?] Hv; by apply (Hbad _)|].
  destruct (cont lo hi c1) eqn:H3; [|intros [= ? ? ?] Hv; by apply (Hbad _)]. cbn [negb].
  pose proof (proj1 (cont_spec _ _ _) H3) as H3'.
  destruct (Z.ltb_spec (byte_of c) 0xE0) as [H4|H4].
  { intros [= <- <- <-] _. split; [done|]. exists c, (String c1 "").
    split_and!; [done| |apply encode2; lia].
    intros t. unfold decode_rune. rewrite Hr. simpl. rewrite H3. simpl.
    repeat match goal with |- context [Z.ltb ?a ?b] => destruct (Z.ltb_spec a b); try lia end. done. }
  destruct s1 as [|c2 s2]; [intros [= ? ? ?] Hv; by apply (Hbad _)|].
  destruct (cont 0x80 0xBF c2) eqn:H5; [|intros [= ? ? ?] Hv; by apply (Hbad _)]. cbn [negb].
  pose proof (proj1 (cont_spec _ _ _) H5) as H5'.
  destruct (Z.ltb_spec (byte_of c) 0xF0) as [H6|H6].
  { intros [= <- <- <-] _. split; [done|]. exists c, (String c1 (String c2 "")).
    split_and!; [done| |apply encode3; lia].
    intros t. unfold decode_rune. rewrite Hr. simpl. rewrite H3, H5. simpl.
    repeat match goal with |- context [Z.ltb ?a ?b] => destruct (Z.ltb_spec a b); try lia end. done. }
  destruct s2 as [|c3 s3]; [intros [= ? ? ?] Hv; by apply (Hbad _)|].
  destruct (cont 0x80 0xBF c3) eqn:H7; [|intros [= ? ? ?] Hv; by apply (Hbad _)]. cbn [negb].
  pose proof (proj1 (cont_spec _ _ _) H7) as H7'.
  intros [= <- <- <-] _. split; [done|]. exists c, (String c1 (String c2 (String c3 ""))).
  split_and!; [done| |apply encode4; lia].
  intros t. unfold decode_rune. rewrite Hr. simpl. rewrite H3, H5, H7. simpl.
  repeat match goal with |- context [Z.ltb ?a ?b] => destruct (Z.ltb_spec a b); try lia end. done.
Qed.

Lemma decode_rune_app c s r bs rest :
  decode_rune c s = (r, bs, rest) → String c s = bs +:+ rest ∧ 0 < slen bs.
Proof.
  intros H. destruct (decide (r = rune_error ∧ slen bs = 1)) as [[-> H1]|Hn].
  - split; [|lia]. revert H. unfold decode_rune. destruct (second_range _) as [lo hi].
    repeat match goal with
           | |- context [if ?b then _ else _] => destruct b
           | |- context [match ?s with EmptyString => _ | String _ _ => _ end] => destruct s
           end; intros Heq; inversion Heq; subst; done.
  - destruct (decode_rune_ok _ _ _ _ _ H Hn) as [? (c' & bs' & Hb & _)]. split; [done|].
    cbn in Hb. subst bs. simpl. lia.
Qed.
Lemma runes_go_fuel n s : slen s ≤ n → runes_go n s = runes s.
Proof.
  unfold runes. remember (slen s) as k eqn:Hk. revert n s Hk.
  induction (lt_wf k) as [k _ IH]. intros n [|c s] -> Hn; [by destruct n|].
  destruct n as [|n]; [simpl in Hn; lia|]. cbn [slen runes_go] in *.
  destruct (decode_rune c s) as [[r bs] rest] eqn:Hd. f_equal.
  apply decode_rune_app in Hd as [Hd Hbs]. apply (f_equal slen) in Hd.
  rewrite str_length_app in Hd. simpl in Hd.
  rewrite (IH (slen rest)) by lia. symmetry. apply (IH (slen rest)); lia.
Qed.
Lemma runes_cons c s r bs rest :
  decode_rune c s = (r, bs, rest) → runes (String c s) = (r, bs) :: runes rest.
Proof.
  intros Hd. unfold runes at 1. cbn [slen runes_go]. rewrite Hd. f_equal. apply runes_go_fuel.
  apply decode_rune_app in Hd as [Hd Hbs]. apply (f_equal slen) in Hd.
  rewrite str_length_app in Hd. simpl in Hd. lia.
Qed.
Lemma runes_valid s : valid_utf8 s → Forall rune_ok (runes s) ∧ sconcat (runes s).*2 = s.
Proof.
  remember (slen s) as k eqn:Hk. revert s Hk. induction (lt_wf k) as [k _ IH].
  intros [|c s] -> Hv; [by repeat constructor|]. destruct (decode_rune c s) as [[r bs] rest] eqn:Hd.
  unfold valid_utf8 in Hv. rewrite (runes_cons _ _ _ _ _ Hd) in *.
  apply Forall_cons in Hv as [Hv1 Hv]. pose proof (decode_rune_app _ _ _ _ _ Hd) as [Ha Hbs].
  apply (f_equal slen) in Ha. rewrite str_length_app in Ha. simpl in Ha.
  destruct (IH (slen rest) ltac:(simpl; lia) rest eq_refl Hv) as [H1 H2].
  destruct (decode_rune_ok _ _ _ _ _ Hd Hv1) as [H3 H4]. split; [by constructor|].
  cbn [fmap list_fmap sconcat]. by rewrite H2, H3.
Qed.
Lemma runes_concat l : Forall rune_ok l → runes (sconcat l.*2) = l.
Proof.
  induction 1 as [|[r bs] l (c & bs' & Hb & Hd & _) _ IH]; [done|]. simpl in Hb. subst bs.
  cbn [fmap list_fmap sconcat snd]. rewrite str_cons_app.
  rewrite (runes_cons _ _ _ _ _ (Hd (sconcat l.*2))). by rewrite IH.
Qed.

Lemma runes_app_ok l t : Forall rune_ok l → runes (sconcat l.*2 +:+ t) = l ++ runes t.
Proof.
  induction 1 as [|[r bs] l (c & bs' & Hb & Hd & _) _ IH]; [done|]. simpl in Hb. subst bs.
  cbn [fmap list_fmap sconcat snd app]. rewrite str_app_assoc, str_cons_app.
  rewrite (runes_cons _ _ _ _ _ (Hd _)). by rewrite IH.
Qed.
Lemma runes_app s t : valid_utf8 s → runes (s +:+ t) = runes s ++ runes t.
Proof.
  intros [H1 H2]%runes_valid. rewrite <- (runes_app_ok _ t H1). by rewrite H2.
Qed.
Lemma valid_app s t : valid_utf8 s → valid_utf8 t → valid_utf8 (s +:+ t).
Proof. intros Hs Ht. unfold valid_utf8. rewrite runes_app by done. by apply Forall_app. Qed.
Lemma any_rune_app p s t : valid_utf8 s → any_rune p (s +:+ t) = any_rune p s || any_rune p t.
Proof. intros Hs. unfold any_rune. rewrite runes_app by done. apply existsb_app. Qed.
Lemma valid_sconcat l : Forall valid_utf8 l → valid_utf8 (sconcat l).
Proof. induction 1; [constructor|by apply valid_app]. Qed.
Lemma any_rune_sconcat p l :
  Forall valid_utf8 l → any_rune p (sconcat l) = existsb (any_rune p) l.
Proof. induction 1 as [|s l Hs _ IH]; [done|]. simpl. by rewrite any_rune_app, IH. Qed.

(** A rune below 128 is one byte, and any other is two bytes or more. *)
Lemma rune_ok_small r bs :
  rune_ok (r, bs) → (r < 128)%Z → ∃ c, bs = String c "" ∧ r = byte_of c ∧ (byte_of c < 128)%Z.
Proof.
  intros (c & bs' & Hb & Hd & He) Hr. simpl in *. subst bs.
  unfold utf8_encode in He. destruct (Z.ltb_spec r 0x80); [|lia].
  injection He as Hc <-. exists c. split; [done|].
  assert (byte_of c = if (r <? 0)%Z then 0%Z else r) as Hbyte.
  { rewrite <- Hc, Ascii.N_ascii_embedding by lia. destruct (Z.ltb_spec r 0); lia. }
  specialize (Hd ""). unfold decode_rune in Hd. destruct (second_range _) as [lo hi].
  destruct (Z.ltb_spec (byte_of c) 0x80) as [Hlt|Hlt]; [|destruct (r <? 0)%Z; lia].
  injection Hd as Hd. split; [congruence|done].
Qed.
Lemma rune_ok_large r bs :
  rune_ok (r, bs) → (128 ≤ r)%Z → ∃ c bs', bs = String c bs' ∧ (0xC2 ≤ byte_of c)%Z ∧ 0 < slen bs'.
Proof.
  intros (c & bs' & Hb & Hd & He) Hr. simpl in *. subst bs. exists c, bs'. split; [done|].
  assert (0 < slen bs').
  { unfold utf8_encode in He. destruct (Z.ltb_spec r 0x80); [lia|].
    destruct (r <? 0x800)%Z; [|destruct (r <? 0x10000)%Z]; injection He as _ <-; cbv; lia. }
  split; [|done]. specialize (Hd ""). unfold decode_rune in Hd. destruct (second_range _) as [lo hi].
  destruct (Z.ltb_spec (byte_of c) 0x80) as [Hlt|Hlt]; [injection Hd; lia|].
  destruct (Z.ltb_spec (byte_of c) 0xC2) as [Hlt2|Hlt2]; [|lia]. exfalso. injection Hd as _ <- _.
  simpl in *. lia.
Qed.
