(* ===== verification/ShellQuote.v ===== *)
(** internal/sshexec/shellquote.go: [ShellQuote], and what a POSIX shell makes of it. *)
From Stdlib Require Import Ascii.
From S2P Require Import Prelude GoLib Errors Json Utf8.

(** [strings.ReplaceAll(s, "'", `'\''`)] *)
Definition ShellQuote (s : string) : string :=
  "'" +:+ map_bytes (λ c, if is_byte 39 c then "'" +:+ chr 92 +:+ "''" else String c "") s +:+ "'".

(** * The shell's tokens (POSIX, 2.2 Quoting and 2.3 Token Recognition) *)
(** Words, quotes and backslashes removed, and operator characters, the newline one of
    them. A line in which the shell would expand something, or that leaves a quote
    open, is refused ([None]), so that what is read is literal. *)
Inductive token := Word (w : string) | Oper (c : ascii).
(** Between words; in one, outside quotes, inside them, after a backslash. *)
Inductive sh_state := Between | Bare (w : string) | Quoted (w : string) | Escaped (w : string).
Definition blank (c : ascii) : bool := is_byte 32 c || is_byte 9 c.
Definition oper (c : ascii) : bool := one_of (";&|<>()" +:+ chr 10) c.
Definition special (c : ascii) : bool := one_of ("$`*?[#~=%!{}" +:+ dq) c.
Definition word_of (st : sh_state) : string :=
  match st with Between => "" | Bare w | Quoted w | Escaped w => w end.
Definition word_end (st : sh_state) : list token := match st with Bare w => [Word w] | _ => [] end.
(** One character: the state after it and the tokens it completes. *)
Definition sh_step (st : sh_state) (c : ascii) : option (sh_state * list token) :=
  match st with
  | Quoted w => Some (if is_byte 39 c then Bare w else Quoted (w +:+ String c ""), [])
  | Escaped w => Some (Bare (w +:+ String c ""), [])
  | _ =>
      if is_byte 39 c then Some (Quoted (word_of st), [])
      else if is_byte 92 c then Some (Escaped (word_of st), [])
      else if blank c then Some (Between, word_end st)
      else if oper c then Some (Between, word_end st ++ [Oper c])
      else if special c then None
      else Some (Bare (word_of st +:+ String c ""), [])
  end.
Fixpoint sh_scan (st : sh_state) (s : string) : option (sh_state * list token) :=
  match s with
  | EmptyString => Some (st, [])
  | String c s' =>
      match sh_step st c with
      | Some (st1, ts1) => option_map (λ r : sh_state * list token, (r.1, ts1 ++ r.2)) (sh_scan st1 s')
      | None => None
      end
  end.
Definition sh_tokens (s : string) : option (list token) :=
  match sh_scan Between s with
  | Some (Between, ts) => Some ts
  | Some (Bare w, ts) => Some (ts ++ [Word w])
  | _ => None
  end.

Example sh_tokens_plain : sh_tokens ("abc" +:+ chr 92 +:+ " d; rm '-x y'z") =
  Some [Word "abc d"; Oper ";"; Word "rm"; Word "-x yz"].
Proof. reflexivity. Qed.
Example sh_tokens_open : sh_tokens "echo 'a" = None.
Proof. reflexivity. Qed.
Example ShellQuote_quote : ShellQuote "it's" = "'it'" +:+ chr 92 +:+ "''s'".
Proof. reflexivity. Qed.

(** * Lemmas *)
(** A command line is read part by part. *)
Lemma sh_scan_app st s t st1 ts1 :
  sh_scan st s = Some (st1, ts1) →
  sh_scan st (s +:+ t) = option_map (λ r, (r.1, ts1 ++ r.2)) (sh_scan st1 t).
Proof.
  revert st ts1. induction s as [|c s IH]; intros st ts1 H; cbn [sh_scan] in H.
  - injection H as <- <-. change ("" +:+ t) with t. by destruct (sh_scan st t) as [[]|].
  - rewrite str_cons_app. cbn [sh_scan]. destruct (sh_step st c) as [[st2 ts2]|]; [|done].
    destruct (sh_scan st2 s) as [[st3 ts3]|] eqn:Hs; [|done]. cbn in H. injection H as -> <-.
    rewrite (IH _ _ Hs). destruct (sh_scan st1 t) as [[st4 ts4]|]; cbn; [|done]. by rewrite app_assoc.
Qed.
Lemma sh_scan_body s : ∀ w,
  sh_scan (Quoted w) (map_bytes (λ c, if is_byte 39 c then "'" +:+ chr 92 +:+ "''" else String c "") s)
  = Some (Quoted (w +:+ s), []).
Proof.
  induction s as [|c s IH]; intros w; cbn [map_bytes]; [by rewrite str_app_nil_r|].
  set (body := map_bytes _ s) in *.
  assert (w +:+ String c s = (w +:+ String c "") +:+ s) as -> by by rewrite str_app_assoc.
  destruct (is_byte 39 c) eqn:Hc.
  - apply bool_decide_eq_true in Hc as ->.
    rewrite (sh_scan_app _ _ _ (Quoted (w +:+ String (byte 39) "")) []) by reflexivity. by rewrite IH.
  - rewrite (sh_scan_app _ _ _ (Quoted (w +:+ String c "")) []); [by rewrite IH|].
    cbn [sh_scan sh_step]. by rewrite Hc.
Qed.
Definition outside (st : sh_state) : bool := match st with Between | Bare _ => true | _ => false end.
Lemma sh_scan_quote st s : outside st = true → sh_scan st (ShellQuote s) = Some (Bare (word_of st +:+ s), []).
Proof.
  intros Hst. unfold ShellQuote. rewrite (sh_scan_app _ _ _ (Quoted (word_of st)) []) by by destruct st.
  rewrite (sh_scan_app _ _ _ _ _ (sh_scan_body s (word_of st))). reflexivity.
Qed.
(** A value needs no quotes when the shell gives none of its characters a meaning. *)
Definition plain (c : ascii) : bool :=
  negb (is_byte 39 c || is_byte 92 c || blank c || oper c || special c).
Lemma sh_scan_plain s : ∀ w, all_bytes plain s = true → sh_scan (Bare w) s = Some (Bare (w +:+ s), []).
Proof.
  induction s as [|c s IH]; intros w; [by rewrite str_app_nil_r|]. cbn [all_bytes sh_scan].
  intros [Hc Hs]%andb_true_iff. unfold plain in Hc. rewrite !negb_orb in Hc.
  rewrite !andb_true_iff, !negb_true_iff in Hc. destruct Hc as [[[[H1 H2] H3] H4] H5].
  cbn [sh_step]. rewrite H1, H2, H3, H4, H5, IH by done. cbn. by rewrite str_app_assoc.
Qed.
(** Reads the goal [sh_scan st s = _], a literal part or a quoted value at a time. *)
Ltac sh_read :=
  lazymatch goal with
  | |- context [sh_scan ?st (ShellQuote ?s +:+ ?t)] =>
      rewrite (sh_scan_app st _ t _ _ (sh_scan_quote st s eq_refl)); cbn [word_of option_map fst snd]
  | |- context [sh_scan ?st (ShellQuote ?s)] =>
      rewrite (sh_scan_quote st s eq_refl); cbn [word_of option_map fst snd]
  | |- context [sh_scan ?st (?l +:+ ?t)] =>
      let r := eval lazy in (sh_scan st l) in
      match r with
      | Some (?st', ?ts) =>
          rewrite (sh_scan_app st l t st' ts eq_refl); cbn [word_of option_map fst snd]
      end
  end.

(** * Properties *)

(** C38: whatever bytes it holds, a quoted value is exactly one literal word of the
    shell, or the part of one it stands in: nothing in it is expanded or run, and what
    follows it is read as if the value had been typed there literally. *)
Theorem ShellQuote_one_word st s rest : outside st = true →
  sh_scan st (ShellQuote s +:+ rest) = sh_scan (Bare (word_of st +:+ s)) rest ∧
  sh_tokens (ShellQuote s) = Some [Word s].
Proof.
  intros Hst. split.
  - rewrite (sh_scan_app _ _ _ _ _ (sh_scan_quote st s Hst)).
    by destruct (sh_scan _ rest) as [[]|].
  - unfold sh_tokens. by rewrite sh_scan_quote.
Qed.
Lemma ShellQuote_one_word_witness :
  sh_scan (Bare "x") (ShellQuote "a'; rm -rf $HOME" +:+ " y") =
  Some (Bare "y", [Word "xa'; rm -rf $HOME"]).
Proof.
  rewrite (proj1 (ShellQuote_one_word (Bare "x") "a'; rm -rf $HOME" " y" eq_refl)). reflexivity.
Defined.
