(* ===== verification/KvJson.v ===== *)
(** internal/kvjson: the key=value line format commands print, and the readers of
    the field=value arguments and the JSON documents they take. *)
From Stdlib Require Import Ascii.
From S2P Require Import Prelude GoLib Errors Json Utf8.

Inductive Format := KV | JSON.
Definition ParseFormat (s : string) : res Format :=
  if eqb s "kv" then Ok KV
  else if eqb s "json" then Ok JSON
  else Er (errorf ("invalid output format " +:+ quote s +:+ ": must be " +:+ dq +:+ "kv" +:+ dq
                   +:+ " or " +:+ dq +:+ "json" +:+ dq)).

(** ** Quoting *)
Definition isC1 (r : Z) : bool := ((0x7f <=? r) && (r <=? 0x9f))%Z.
Definition escapeC1 (s : string) : string :=
  if any_rune isC1 s then
    sconcat ((λ rb : Z * string, if isC1 rb.1 then chr 92 +:+ "u" +:+ hex4 rb.1
                                 else utf8_encode rb.1) <$> runes s)
  else s.
Definition quoteString (s : string) : string := escapeC1 (json_quote false s).
Definition unsafe_rune (r : Z) : bool :=
  is_control r || bool_decide (r = 0x2028 ∨ r = 0x2029)%Z.
Definition needsQuote (s : string) : bool :=
  if eqb s "" then false
  else if has_prefix dq s then true
  else
    let space (o : option (Z * string)) := match o with Some rb => is_space rb.1 | None => false end in
    if space (head (runes s)) || space (last (runes s)) then true
    else any_rune unsafe_rune s.
Definition LineUnsafe (s : string) : bool := needsQuote s.
Definition QuoteKey (k : string) : string :=
  if needsQuote k || contains "=" k then quoteString k else k.
Definition QuoteValue (v : string) : string :=
  if needsQuote v || eqb v "null" then quoteString v else v.

(** ** Lines *)
Definition kvValue (raw : json) : res string :=
  match raw with
  | JStr s => Ok (QuoteValue s)
  | _ => let^ s := Scalar raw orelse id in Ok (escapeC1 s)
  end.
Definition kv_line (key val : string) : string := QuoteKey key +:+ "=" +:+ val.
(** The lines of the object, each to be followed by a newline. *)
Fixpoint kv_lines (flat : gmap string json) (keys : list string) : res (list string) :=
  match keys with
  | [] => Ok []
  | k :: keys' =>
      match flat !! k with
      | None => Ok []
      | Some raw =>
          let^ val := kvValue raw orelse wrapf ("render: field " +:+ quote k) in
          let^ rest := kv_lines flat keys' orelse id in
          Ok (kv_line k val :: rest)
      end
  end.
Definition renderKV (j : json) : res (list string) :=
  match as_object j with
  | None => Er (wrapf "render: kv output requires a JSON object at the top level"
                  (errorf "json: cannot unmarshal"))
  | Some None => Er (errorf "render: kv output requires a JSON object at the top level, got null")
  | Some (Some flat) => kv_lines flat (sorted_keys flat)
  end.

(** ** Arguments *)
Record Pair := { Field : string; Value : string }.
Fixpoint ParseKVArgs (args : list string) : res (list Pair) :=
  match args with
  | [] => Ok []
  | a :: args' =>
      match cut (byte 61) a with
      | Some (fld, value) =>
          guard^ negb (eqb fld "") orelse
            errorf ("parse kv args: " +:+ quote a +:+ " is not a valid field=value pair") in
          let^ pairs := ParseKVArgs args' orelse id in
          Ok ({| Field := fld; Value := value |} :: pairs)
      | None => Er (errorf ("parse kv args: " +:+ quote a +:+ " is not a valid field=value pair"))
      end
  end.

Fixpoint json_pairs (allowDelete : bool) (m : gmap string json) (keys : list string)
    : res (list Pair * list string) :=
  match keys with
  | [] => Ok ([], [])
  | k :: keys' =>
      let bad post := Er (errorf ("parse json fields: field " +:+ quote k
                                  +:+ ": value must be a JSON string" +:+ post)) in
      match m !! k with
      | Some (JStr s) =>
          let^ r := json_pairs allowDelete m keys' orelse id in
          Ok ({| Field := k; Value := s |} :: r.1, r.2)
      | Some JNull =>
          if allowDelete then
            let^ r := json_pairs allowDelete m keys' orelse id in Ok (r.1, k :: r.2)
          else bad ""
      | _ => bad (if allowDelete then ", or null to delete the key" else "")
      end
  end.
Definition parseJSONFields (data : string) (allowDelete : bool) : res (list Pair * list string) :=
  match parse_json data ≫= as_object with
  | None => Er (wrapf "parse json fields" (errorf "json: cannot unmarshal"))
  | Some o => let m := default ∅ o in json_pairs allowDelete m (sorted_keys m)
  end.
Definition ParseJSONFields (data : string) : res (list Pair) :=
  let^ r := parseJSONFields data false orelse id in Ok r.1.
Definition ParseJSONFieldsWithDeletes (data : string) : res (list Pair * list string) :=
  parseJSONFields data true.

(** * The line contract *)
(** A consumer of one line, as the package states it. *)
Definition json_token (s : string) : option (string * string) :=
  match cut_prefix dq s with
  | Some body => parse_chars (slen body) body
  | None => None
  end.
Definition read_value (s : string) : option string :=
  if has_prefix dq s then
    match json_token s with Some (v, "") => Some v | _ => None end
  else Some s.
Definition read_line (line : string) : option (string * string) :=
  if has_prefix dq line then
    match json_token line with
    | Some (k, rest) =>
        match cut_prefix "=" rest with
        | Some v => option_map (pair k) (read_value v)
        | None => None
        end
    | None => None
    end
  else match cut (byte 61) line with
       | Some (k, v) => option_map (pair k) (read_value v)
       | None => None
       end.

Example read_line_plain : read_line (kv_line "name" (QuoteValue "a b")) = Some ("name", "a b").
Proof. vm_compute. reflexivity. Qed.
Example read_line_quoted :
  read_line (kv_line ("k=" +:+ dq) (QuoteValue (" x" +:+ chr 10 +:+ chr 194 +:+ chr 133)))
  = Some ("k=" +:+ dq, " x" +:+ chr 10 +:+ chr 194 +:+ chr 133).
Proof. vm_compute. reflexivity. Qed.

(** * Quoted strings *)
Lemma hex4_round r t : (0 ≤ r < 65536)%Z → hex4_val (hex4 r +:+ t) = Some (r, t).
Proof.
  intros Hr. unfold hex4, hex2.
  assert (∀ z, 0 ≤ z `mod` 16 < 16)%Z as Hm by (intros z; apply Z.mod_pos_bound; lia).
  destruct (hex_digit_val false _ (Hm (r `div` 256 `div` 16)%Z)) as (c1 & -> & H1).
  destruct (hex_digit_val false _ (Hm (r `div` 256)%Z)) as (c2 & -> & H2).
  destruct (hex_digit_val false _ (Hm (r `div` 16)%Z)) as (c3 & -> & H3).
  destruct (hex_digit_val false _ (Hm r)) as (c4 & -> & H4).
  cbv [String.append hex4_val]. rewrite H1, H2, H3, H4. do 2 f_equal. divmod.
Qed.
Lemma unescape_u_round r t :
  (0 ≤ r < 65536)%Z → is_surrogate r = false → unescape_u (hex4 r +:+ t) = Some (utf8_encode r, t).
Proof. intros Hr Hs. unfold unescape_u. by rewrite hex4_round, Hs. Qed.

Definition u_escape (r : Z) : string := chr 92 +:+ "u" +:+ hex4 r.
Definition c1_piece (rb : Z * string) : string :=
  if isC1 rb.1 then u_escape rb.1 else utf8_encode rb.1.
Definition escaped (s : string) : string := sconcat (c1_piece <$> runes s).
(** What a rune becomes between the quotes. *)
Definition piece (rb : Z * string) : string :=
  if isC1 rb.1 then u_escape rb.1 else json_quote_rune false rb.

Lemma escapeC1_valid s : valid_utf8 s → escapeC1 s = escaped s.
Proof.
  intros [H1 H2]%runes_valid. unfold escapeC1. destruct (any_rune isC1 s) eqn:Hc; [done|].
  unfold escaped, any_rune in *. rewrite <- H2 at 1. clear H2.
  induction H1 as [|rb l (c & bs & Hb & _ & He) _ IH]; [done|]. simpl in Hc.
  apply orb_false_iff in Hc as [Hc Hl]. cbn [fmap list_fmap sconcat]. unfold c1_piece at 1.
  rewrite Hc, He. f_equal. by apply IH.
Qed.
Lemma escaped_app s t : valid_utf8 s → escaped (s +:+ t) = escaped s +:+ escaped t.
Proof.
  intros Hs. unfold escaped. rewrite runes_app, fmap_app by done.
  induction (c1_piece <$> runes s) as [|x l IH]; [done|]. simpl. by rewrite IH, str_app_assoc.
Qed.

(** What is needed of the piece of a rune. *)
Record piece_ok (rb : Z * string) : Prop := {
  piece_json : valid_utf8 (json_quote_rune false rb);
  piece_escaped : escaped (json_quote_rune false rb) = piece rb;
  piece_valid : valid_utf8 (piece rb);
  piece_safe : any_rune unsafe_rune (piece rb) = false;
  piece_parse n t : parse_chars (S n) (piece rb +:+ t) =
    match parse_chars n t with Some (y, rest) => Some (rb.2 +:+ y, rest) | None => None end
}.
Definition piece_okb (rb : Z * string) : bool :=
  bool_decide (valid_utf8 (json_quote_rune false rb))
  && eqb (escaped (json_quote_rune false rb)) (piece rb)
  && bool_decide (valid_utf8 (piece rb)) && negb (any_rune unsafe_rune (piece rb)).
Lemma piece_okb_spec rb :
  piece_okb rb = true →
  (∀ n t, parse_chars (S n) (piece rb +:+ t) =
    match parse_chars n t with Some (y, rest) => Some (rb.2 +:+ y, rest) | None => None end) →
  piece_ok rb.
Proof.
  unfold piece_okb. rewrite !andb_true_iff, !bool_decide_eq_true, eqb_true, negb_true_iff.
  intros [[[? ?] ?] ?] ?. by split.
Qed.
Lemma piece_ok_ascii c : (byte_of c < 128)%Z → piece_ok (byte_of c, String c "").
Proof.
  intros H. apply piece_okb_spec.
  - destruct c as [[] [] [] [] [] [] [] []]; try (exfalso; vm_compute in H; discriminate H);
      vm_compute; reflexivity.
  - intros n t. destruct c as [[] [] [] [] [] [] [] []]; try (exfalso; vm_compute in H; discriminate H);
      reflexivity.
Qed.
Lemma parse_u_escape r n t :
  (0 ≤ r < 65536)%Z → is_surrogate r = false →
  parse_chars (S n) (u_escape r +:+ t) =
    match parse_chars n t with Some (y, rest) => Some (utf8_encode r +:+ y, rest) | None => None end.
Proof.
  intros Hr Hs. unfold u_escape. rewrite !str_app_assoc. cbv [chr String.append].
  fold (hex4 r +:+ t). cbn [parse_chars]. change (is_byte 34 (byte 92)) with false.
  change (is_byte 92 (byte 92)) with true. change (is_byte 117 _) with true. cbv beta iota.
  by rewrite unescape_u_round.
Qed.
Lemma json_quote_rune_large r bs :
  (128 ≤ r)%Z → slen bs ≠ 1 →
  json_quote_rune false (r, bs) = if bool_decide (r ∈ [0x2028; 0x2029])%Z then u_escape r else bs.
Proof.
  intros Hr Hb. unfold json_quote_rune.
  repeat (rewrite decide_False by lia). cbn [andb].
  destruct (Z.ltb_spec r 32); [lia|]. by repeat (rewrite decide_False by lia).
Qed.
Lemma piece_ok_large r bs : rune_ok (r, bs) → (128 ≤ r)%Z → piece_ok (r, bs).
Proof.
  intros Hok Hr. destruct (rune_ok_large r bs Hok Hr) as (c & bs' & Hbs & Hc & Hl).
  pose proof Hok as (c' & bs'' & Hbs' & Hd & He). simpl in Hbs', He.
  rewrite Hbs in Hbs'. injection Hbs' as <- <-.
  destruct (isC1 r) eqn:H1.
  { assert (r ∈ seqZ 128 32) as Hin.
    { apply elem_of_seqZ. unfold isC1 in H1. apply andb_true_iff in H1 as [_ H1%Z.leb_le]. lia. }
    apply piece_okb_spec.
    - rewrite <- He.
      assert (forallb (λ r, piece_okb (r, utf8_encode r)) (seqZ 128 32) = true) as Hall
        by (vm_compute; reflexivity).
      rewrite forallb_forall in Hall. apply (Hall r). by apply list_elem_of_In.
    - intros n t. unfold piece. simpl fst. rewrite H1. simpl snd. rewrite <- He.
      apply parse_u_escape; [apply elem_of_seqZ in Hin; lia|].
      unfold is_surrogate. destruct (Z.leb_spec 0xD800 r); [apply elem_of_seqZ in Hin; lia|done]. }
  destruct (decide (r ∈ [0x2028; 0x2029])%Z) as [Hin|Hin].
  { apply piece_okb_spec.
    - rewrite <- He.
      apply elem_of_cons in Hin as [->|[->|?%elem_of_nil]%elem_of_cons]; [vm_compute; reflexivity..|done].
    - intros n t. unfold piece. simpl fst. rewrite H1. rewrite json_quote_rune_large; [|done|subst; simpl; lia].
      rewrite bool_decide_eq_true_2 by done. simpl snd. rewrite <- He.
      apply elem_of_cons in Hin as [->|[->|?%elem_of_nil]%elem_of_cons]; [by apply parse_u_escape..|done]. }
  assert (runes bs = [(r, bs)]) as Hrunes.
  { pose proof (runes_concat [(r, bs)] (proj2 (Forall_singleton _ _) Hok)) as H. simpl in H.
    by rewrite str_app_nil_r in H. }
  assert (valid_utf8 bs) as Hv.
  { unfold valid_utf8. rewrite Hrunes. constructor; [|constructor]. simpl. intros [_ H].
    subst bs. simpl in H. lia. }
  assert (json_quote_rune false (r, bs) = bs) as Hj.
  { rewrite json_quote_rune_large; [|done|subst; simpl; lia]. by rewrite bool_decide_eq_false_2. }
  assert (piece (r, bs) = bs) as Hp by (unfold piece; simpl fst; by rewrite H1, Hj).
  split; rewrite ?Hp, ?Hj; [done| |done| |].
  - unfold escaped. rewrite Hrunes. cbn [fmap list_fmap sconcat]. unfold c1_piece. simpl fst.
    by rewrite H1, str_app_nil_r.
  - unfold any_rune. rewrite Hrunes. simpl. rewrite orb_false_r. unfold unsafe_rune.
    rewrite bool_decide_eq_false_2 by set_solver. rewrite orb_false_r. unfold is_control.
    unfold isC1 in H1. apply andb_false_iff in H1. rewrite !Z.leb_gt in H1.
    apply orb_false_iff. rewrite !andb_false_iff, !Z.leb_gt. lia.
  - intros n t. subst bs. cbn [snd]. rewrite str_cons_app. cbn [parse_chars].
    assert (∀ k, (byte_of (byte k) < 128)%Z → is_byte k c = false) as Hbyte.
    { intros k Hk. apply bool_decide_eq_false_2. intros ->. lia. }
    rewrite !Hbyte by (vm_compute; done). destruct (Z.ltb_spec (byte_of c) 32); [lia|].
    rewrite Hd. rewrite decide_False by (simpl; lia). done.
Qed.
Lemma rune_piece_ok rb : rune_ok rb → piece_ok rb.
Proof.
  destruct rb as [r bs]. intros H. destruct (Z.lt_ge_cases r 128); [|by apply piece_ok_large].
  destruct (rune_ok_small r bs H) as (c & -> & -> & ?); [done|]. by apply piece_ok_ascii.
Qed.

Lemma escaped_sconcat l : Forall valid_utf8 l → escaped (sconcat l) = sconcat (escaped <$> l).
Proof. induction 1 as [|s l Hs _ IH]; [done|]. simpl. by rewrite escaped_app, IH. Qed.
Lemma valid_dq : valid_utf8 dq.
Proof. by apply (bool_decide_unpack (valid_utf8 dq)). Qed.
Lemma quoteString_pieces s :
  valid_utf8 s → quoteString s = dq +:+ sconcat (piece <$> runes s) +:+ dq.
Proof.
  intros [H1 _]%runes_valid. unfold quoteString, json_quote.
  assert (Forall valid_utf8 (json_quote_rune false <$> runes s)) as Hv.
  { apply Forall_fmap. eapply Forall_impl; [exact H1|]. intros rb [? _ _ _ _]%rune_piece_ok. done. }
  assert (valid_utf8 (sconcat (json_quote_rune false <$> runes s))) as Hs by by apply valid_sconcat.
  rewrite escapeC1_valid by (repeat apply valid_app; auto using valid_dq).
  rewrite !escaped_app by auto using valid_dq. rewrite escaped_sconcat by done.
  change (escaped dq) with dq. do 2 f_equal. rewrite <- list_fmap_compose. f_equal.
  apply list_fmap_ext. intros i rb Hi. apply piece_escaped, rune_piece_ok.
  by eapply Forall_lookup_1.
Qed.

Lemma parse_pieces l n rest :
  Forall rune_ok l → length l < n →
  parse_chars n (sconcat (piece <$> l) +:+ dq +:+ rest) = Some (sconcat l.*2, rest).
Proof.
  intros Hl. revert n. induction Hl as [|rb l Hrb _ IH]; intros n Hn; (destruct n as [|n]; [lia|]).
  { done. }
  cbn [fmap list_fmap sconcat length] in *. rewrite str_app_assoc.
  rewrite (piece_parse _ (rune_piece_ok _ Hrb)). by rewrite IH by lia.
Qed.
Lemma pieces_length l : Forall rune_ok l → length l ≤ slen (sconcat (piece <$> l)).
Proof.
  induction 1 as [|rb l Hrb _ IH]; [done|]. cbn [fmap list_fmap sconcat length].
  rewrite str_length_app. destruct (piece rb) as [|c p] eqn:Hp; [|simpl; lia]. exfalso.
  pose proof (piece_parse _ (rune_piece_ok _ Hrb) 0 dq) as H. rewrite Hp in H. discriminate H.
Qed.
Lemma json_token_quoted s rest :
  valid_utf8 s → json_token (quoteString s +:+ rest) = Some (s, rest).
Proof.
  intros Hv. rewrite quoteString_pieces by done. apply runes_valid in Hv as [H1 H2].
  unfold json_token. rewrite !str_app_assoc.
  destruct (cut_prefix dq (dq +:+ _)) as [body|] eqn:Hb.
  - apply cut_prefix_spec, str_app_inv_l in Hb. subst body.
    rewrite parse_pieces; [by rewrite H2|done|].
    pose proof (pieces_length _ H1). rewrite !str_length_app. simpl. lia.
  - pose proof (has_prefix_app dq (sconcat (piece <$> runes s) +:+ dq +:+ rest)) as H.
    unfold has_prefix in H. by rewrite Hb in H.
Qed.
Lemma quoteString_prefix s rest : valid_utf8 s → has_prefix dq (quoteString s +:+ rest) = true.
Proof. intros. rewrite quoteString_pieces, str_app_assoc by done. apply has_prefix_app. Qed.
Lemma quoteString_safe s :
  valid_utf8 s → valid_utf8 (quoteString s) ∧ any_rune unsafe_rune (quoteString s) = false.
Proof.
  intros Hv. rewrite quoteString_pieces by done. apply runes_valid in Hv as [H1 _].
  assert (Forall valid_utf8 (piece <$> runes s)) as Hp.
  { apply Forall_fmap. eapply Forall_impl; [exact H1|]. intros rb [_ _ ? _ _]%rune_piece_ok. done. }
  pose proof (valid_sconcat _ Hp). split; [repeat apply valid_app; auto using valid_dq|].
  rewrite !any_rune_app, any_rune_sconcat by auto using valid_dq.
  change (any_rune unsafe_rune dq) with false. rewrite orb_false_r. cbn [orb]. clear Hp H.
  induction H1 as [|rb l Hrb _ IH]; [done|]. simpl. rewrite (piece_safe _ (rune_piece_ok _ Hrb)).
  apply IH.
Qed.

Lemma needsQuote_false s :
  needsQuote s = false → s = "" ∨ has_prefix dq s = false ∧ any_rune unsafe_rune s = false.
Proof.
  unfold needsQuote. destruct (eqb s "") eqn:Hs; [apply eqb_true in Hs; by left|]. right.
  destruct (has_prefix dq s); [done|]. by destruct (_ || _).
Qed.
Lemma read_value_QuoteValue v : valid_utf8 v → read_value (QuoteValue v) = Some v.
Proof.
  intros Hv. unfold QuoteValue, read_value.
  destruct (needsQuote v) eqn:Hn; [|destruct (eqb v "null") eqn:He]; cbn [orb].
  1, 2: rewrite <- (str_app_nil_r (quoteString v)), quoteString_prefix, json_token_quoted by done; done.
  by apply needsQuote_false in Hn as [->|[-> _]].
Qed.
Lemma contains_byte c s : contains (String c "") s = any_byte (λ d, bool_decide (d = c)) s.
Proof.
  induction s as [|d s IH]; [done|]. simpl. rewrite IH. f_equal. unfold has_prefix. simpl.
  case_bool_decide as H; case_bool_decide as H'; congruence.
Qed.
Lemma has_prefix_dq_app k t : k ≠ "" → has_prefix dq (k +:+ t) = has_prefix dq k.
Proof.
  destruct k as [|c k]; [done|]. intros _. rewrite str_cons_app. unfold has_prefix. simpl.
  by case_bool_decide.
Qed.
Lemma read_line_kv k v :
  valid_utf8 k → valid_utf8 v → read_line (kv_line k (QuoteValue v)) = Some (k, v).
Proof.
  intros Hk Hv. unfold kv_line, QuoteKey, read_line.
  destruct (needsQuote k) eqn:Hn; [|destruct (contains "=" k) eqn:Hc]; cbn [orb].
  1, 2: rewrite quoteString_prefix, json_token_quoted by done;
        change (cut_prefix "=" ("=" +:+ QuoteValue v)) with (Some (QuoteValue v));
        cbv beta iota; by rewrite read_value_QuoteValue.
  assert (has_prefix dq (k +:+ "=" +:+ QuoteValue v) = false) as ->.
  { apply needsQuote_false in Hn as [->|[Hp _]]; [done|]. destruct (decide (k = "")) as [->|Hne]; [done|].
    by rewrite has_prefix_dq_app. }
  rewrite contains_byte in Hc. change ("=" +:+ QuoteValue v) with (String (byte 61) (QuoteValue v)).
  rewrite cut_first by exact Hc. cbv beta iota. by rewrite read_value_QuoteValue.
Qed.
Lemma safe_text s q :
  valid_utf8 s → (q = quoteString s ∨ q = s ∧ needsQuote s = false) →
  valid_utf8 q ∧ any_rune unsafe_rune q = false.
Proof.
  intros Hs [->|[-> Hn]]; [by apply quoteString_safe|]. split; [done|].
  by apply needsQuote_false in Hn as [->|[_ ?]].
Qed.
Lemma kv_line_safe k v :
  valid_utf8 k → valid_utf8 v → any_rune unsafe_rune (kv_line k (QuoteValue v)) = false.
Proof.
  intros Hk Hv. unfold kv_line.
  destruct (safe_text k (QuoteKey k) Hk) as [H1 H2].
  { unfold QuoteKey. destruct (needsQuote k); [by left|]. destruct (contains "=" k); auto. }
  destruct (safe_text v (QuoteValue v) Hv) as [H3 H4].
  { unfold QuoteValue. destruct (needsQuote v); [by left|]. destruct (eqb v "null"); auto. }
  rewrite any_rune_app, H2 by done. rewrite any_rune_app, H4; [done|].
  by apply (bool_decide_unpack (valid_utf8 "=")).
Qed.

Lemma kv_lines_strings (l : list (string * string)) flat keys :
  (∀ k, k ∈ keys → ∃ v, (k, v) ∈ l ∧ flat !! k = Some (JStr v)) →
  ∃ lines, kv_lines flat keys = Ok lines ∧
    Forall2 (λ k line, ∃ v, (k, v) ∈ l ∧ line = kv_line k (QuoteValue v)) keys lines.
Proof.
  induction keys as [|k keys IH]; intros H; [by exists []|].
  destruct (H k) as (v & Hin & Hv); [by left|].
  destruct IH as (lines & Hl & HF); [intros k' Hk'; apply H; by right|].
  exists (kv_line k (QuoteValue v) :: lines). cbn [kv_lines]. rewrite Hv. cbn [kvValue].
  rewrite Hl. split; [done|]. constructor; eauto.
Qed.
(** * Properties *)

(** C37: for an object of strings (valid UTF-8, distinct keys), the kv output is one
    line per field in key order, a consumer that follows the line contract reads back
    exactly the fields, and no line holds a control character or a line separator. *)
Theorem renderKV_reads_back (l : list (string * string)) :
  NoDup l.*1 → Forall (λ kv, valid_utf8 kv.1 ∧ valid_utf8 kv.2) l →
  ∃ lines, renderKV (JObj ((λ kv, (kv.1, JStr kv.2)) <$> l)) = Ok lines ∧
    length lines = length l ∧
    (∀ k v, (k, v) ∈ l ↔ ∃ line, line ∈ lines ∧ read_line line = Some (k, v)) ∧
    Forall (λ line, any_rune unsafe_rune line = false) lines.
Proof.
  intros Hnd Hval. unfold renderKV. cbn [as_object].
  set (flat := fields_of _).
  assert (∀ k v, (k, v) ∈ l → flat !! k = Some (JStr v)) as Hflat.
  { intros k v Hin. apply fields_of_lookup; [by rewrite <- list_fmap_compose|].
    by apply (list_elem_of_fmap_2 (λ kv : string * string, (kv.1, JStr kv.2)) _ (k, v)). }
  assert (∀ k, k ∈ sorted_keys flat ↔ k ∈ l.*1) as Hkeys.
  { intros k. rewrite sorted_keys_elem. split.
    - intros [j Hj]. unfold flat, fields_of in Hj. apply elem_of_list_to_map_2 in Hj.
      rewrite elem_of_reverse, list_elem_of_fmap in Hj. destruct Hj as (kv & [= -> _] & Hin).
      by apply list_elem_of_fmap_2.
    - intros ([k' v] & -> & Hin)%list_elem_of_fmap. exists (JStr v). by apply Hflat. }
  assert (length (sorted_keys flat) = length l) as Hlen.
  { rewrite <- (length_fmap fst l). apply Permutation_length, NoDup_Permutation; [|done|done].
    unfold sorted_keys, sort_strings. rewrite merge_sort_Permutation. apply NoDup_fst_map_to_list. }
  destruct (kv_lines_strings l flat (sorted_keys flat)) as (lines & -> & HF).
  { intros k ([k' v] & -> & Hin)%Hkeys%list_elem_of_fmap. eauto. }
  exists lines. rewrite Forall_forall in Hval.
  split_and!; [done|by rewrite <- (Forall2_length _ _ _ HF)| |].
  - intros k v. split.
    + intros Hin. assert (k ∈ sorted_keys flat) as Hk by (apply Hkeys; by apply (list_elem_of_fmap_2 fst _ (k, v))).
      apply list_elem_of_lookup in Hk as [i Hi].
      destruct (Forall2_lookup_l _ _ _ _ _ HF Hi) as (line & Hline & v' & Hin' & ->).
      exists (kv_line k (QuoteValue v')). split; [by eapply list_elem_of_lookup_2|].
      assert (v' = v) as -> by (apply Hflat in Hin, Hin'; congruence).
      destruct (Hval _ Hin). by apply read_line_kv.
    + intros (line & Hin & Hr). apply list_elem_of_lookup in Hin as [i Hi].
      destruct (Forall2_lookup_r _ _ _ _ _ HF Hi) as (k' & _ & v' & Hin' & ->).
      destruct (Hval _ Hin'). rewrite read_line_kv in Hr by done. by injection Hr as <- <-.
  - apply Forall_forall. intros line Hin. apply list_elem_of_lookup in Hin as [i Hi].
    destruct (Forall2_lookup_r _ _ _ _ _ HF Hi) as (k' & _ & v' & Hin' & ->).
    destruct (Hval _ Hin'). by apply kv_line_safe.
Qed.
Lemma renderKV_reads_back_witness :
  ∃ lines, renderKV (JObj [("name", JStr "null"); ("a=b", JStr (" x" +:+ chr 10))]) = Ok lines ∧
    length lines = 2 ∧
    (∀ k v, (k, v) ∈ [("name", "null"); ("a=b", " x" +:+ chr 10)] ↔
            ∃ line, line ∈ lines ∧ read_line line = Some (k, v)) ∧
    Forall (λ line, any_rune unsafe_rune line = false) lines.
Proof.
  apply (renderKV_reads_back [("name", "null"); ("a=b", " x" +:+ chr 10)]).
  - apply (bool_decide_unpack (NoDup ["name"; "a=b"])). vm_compute. exact I.
  - apply (bool_decide_unpack (Forall (λ kv, valid_utf8 kv.1 ∧ valid_utf8 kv.2)
             [("name", "null"); ("a=b", " x" +:+ chr 10)])). vm_compute. exact I.
Defined.

(** The arguments are accepted exactly when each is a field name without [=],
    not empty, then [=], then any value; the pairs are the parts, in order. *)
Definition kv_args : list string → list Pair → Prop :=
  Forall2 (λ a p, a = Field p +:+ "=" +:+ Value p ∧ Field p ≠ "" ∧ contains "=" (Field p) = false).
Theorem ParseKVArgs_iff args pairs : ParseKVArgs args = Ok pairs ↔ kv_args args pairs.
Proof.
  unfold kv_args.
  revert pairs. induction args as [|a args IH]; intros pairs; cbn [ParseKVArgs].
  { split; [by intros [= <-]|]. by intros H%Forall2_nil_inv_l%eq_sym; subst. }
  split.
  - destruct (cut (byte 61) a) as [[f v]|] eqn:Hc; [|done].
    apply cut_spec in Hc as [-> Hf]. destruct (eqb f "") eqn:He; [done|]. cbn [negb].
    destruct (ParseKVArgs args) as [ps|e] eqn:Hps; [|done]. intros [= <-].
    constructor; [|by apply IH]. split_and!; [done| |by rewrite contains_byte].
    simpl. intros ->. done.
  - intros (p & ps & (-> & Hne & Hf) & HF & ->)%Forall2_cons_inv_l. apply IH in HF as ->.
    rewrite contains_byte in Hf. change ("=" +:+ Value p) with (String (byte 61) (Value p)).
    rewrite cut_first by exact Hf. destruct (eqb (Field p) "") eqn:He; [by apply eqb_true in He|].
    by destruct p.
Qed.
