(* ===== verification/Roster.v ===== *)
(** internal/roster: the roster document (types.go), what makes one valid (load.go, keys.go),
    the syntax of a TLS pin (internal/tlspin), and the comparisons every write of the roster
    must pass (writeback.go, rekey.go). go-toml is a parameter: [unmarshal], its decoding of
    the file into the records, and [parse], the expressions of its parser. *)
From Stdlib Require Import Ascii.
From S2P Require Import Prelude GoLib Errors Json Utf8 KvJson.

(** ** TLS pins (tlspin.go) *)
Definition Prefix : string := "sha256//".
Definition b64_byte (c : ascii) : bool := is_alnum c || one_of "+/" c.
(** [n] bytes of the class, and what follows them. *)
Fixpoint counted (p : ascii → bool) (n : nat) (s : string) : option string :=
  match n, s with
  | 0, _ => Some s
  | S n', String c s' => if p c then counted p n' s' else None
  | S _, EmptyString => None
  end.
Definition pinRE (s : string) : bool :=
  match cut_prefix Prefix s with
  | Some t => match counted b64_byte 43 t with Some r => eqb r "=" | None => false end
  | None => false
  end.
Definition Parse (s : string) : res string :=
  if pinRE s then Ok s
  else Er (wrap_pre (sent ErrMalformedPin) (quote s +:+ " is not " +:+ Prefix
             +:+ "<44 base64 characters>, the SHA-256 of a certificate's public key in curl's --pinnedpubkey form")).
Definition SourceSSHVerified : string := "ssh-verified".
Definition SourceSSHStored : string := "ssh-stored".
Definition SourceSSHTOFU : string := "ssh-tofu".
Definition SourceExpect : string := "expect".
Definition ParseSource (s : string) : res string :=
  if bool_decide (s ∈ [SourceSSHVerified; SourceSSHStored; SourceSSHTOFU; SourceExpect]) then Ok s
  else Er (wrap_pre (sent ErrUnknownSource) (quote s +:+ " is not one of "
             +:+ Join ", " [SourceSSHVerified; SourceSSHStored; SourceSSHTOFU; SourceExpect])).

(** ** The document (types.go) *)
Record TokenAuth := { ta_ID : string; SecretEnc : string }.
Record SSHAuth := { ssh_User : string; PublicKey : string; HostKeyFingerprint_ : string; PrivateKeyEnc : string;
                    HostKeySource : string }.
Record TLSPin_ := { SPKISHA256 : string; pin_Source : string }.
Record Target := { tg_ID : string; tg_Host : string; tg_Node : string; tg_APIPort : Z; tg_InsecureTLS : bool;
                   Export_ : string; Token : option TokenAuth; tg_SSH : option SSHAuth; TLS : option TLSPin_ }.
Definition Roster := list Target.
#[global] Instance TokenAuth_eq_dec : EqDecision TokenAuth.
Proof. solve_decision. Defined.
#[global] Instance SSHAuth_eq_dec : EqDecision SSHAuth.
Proof. solve_decision. Defined.
#[global] Instance TLSPin_eq_dec : EqDecision TLSPin_.
Proof. solve_decision. Defined.
Definition ExportToken : string := "token".
Fixpoint Find (r : Roster) (id : string) : option Target :=
  match r with
  | [] => None
  | t :: r' => if eqb (tg_ID t) id then Some t else Find r' id
  end.

(** ** Keys (keys.go) *)
(** What go-toml's parser hands out: a header or a key, each part with its offset, and for a
    key its value and the value's place in the file. *)
Record key_part := { k_Data : string; k_Offset : nat }.
Inductive value :=
| VString (data : string)
| VInline (kvs : list (list key_part * value))
| VArray (items : list value)
| VOther.
Inductive expr :=
| EArrayTable (key : list key_part)
| ETable (key : list key_part)
| EKeyValue (key : list key_part) (val : value) (offset length : nat).
Definition rosterKeys (table : string) : list string :=
  if eqb table "" then ["targets"]
  else if eqb table "targets" then ["id"; "host"; "node"; "api_port"; "insecure_tls"; "export"; "token"; "ssh"; "tls"]
  else if eqb table "targets.token" then ["id"; "secret_enc"]
  else if eqb table "targets.ssh" then ["user"; "public_key"; "host_key_fingerprint"; "private_key_enc"; "host_key_source"]
  else if eqb table "targets.tls" then ["spki_sha256"; "source"]
  else [].
(** The number of newlines in the first [n] bytes. *)
Fixpoint newlines (n : nat) (data : string) : nat :=
  match n, data with
  | S n', String c d => (if is_byte 10 c then 1 else 0) + newlines n' d
  | _, _ => 0
  end.
Fixpoint checkKeyPath (data : string) (path : list string) (key : list key_part) : res (list string) :=
  match key with
  | [] => Ok path
  | k :: key' =>
      let name := k_Data k in
      let parent := Join "." path in
      let allowed := rosterKeys parent in
      let at_line := "roster line " +:+ itoa (Z.of_nat (1 + newlines (k_Offset k) data)) +:+ ": key " +:+ quote name in
      if bool_decide (name ∈ allowed) then checkKeyPath data (path ++ [name]) key'
      else
        match List.find (λ a, equal_fold a name) allowed with
        | Some a => Er (errorf (at_line +:+ " must be spelled " +:+ quote a +:+ ": roster keys are case-sensitive"))
        | None =>
            Er (errorf (at_line +:+ " is not a roster key "
              +:+ (if eqb parent "" then "at the top level" else "in [" +:+ parent +:+ "]")))
        end
  end.
(** [checkKeyValue] and [checkInlineTable]. *)
Section keys.
Context (data : string).
Fixpoint check_value (path : list string) (v : value) : res unit :=
  let fix inline path (kvs : list (list key_part * value)) : res unit :=
    match kvs with
    | [] => Ok tt
    | kv :: kvs' =>
        let^ p := checkKeyPath data path kv.1 orelse id in
        let^ _ := check_value p kv.2 orelse id in inline path kvs'
    end in
  let fix items (l : list value) : res unit :=
    match l with
    | [] => Ok tt
    | VInline kvs :: l' => let^ _ := inline path kvs orelse id in items l'
    | _ :: l' => items l'
    end in
  match v with
  | VInline kvs => inline path kvs
  | VArray l => items l
  | _ => Ok tt
  end.
Fixpoint check_exprs (table : list string) (es : list expr) : res unit :=
  match es with
  | [] => Ok tt
  | (EArrayTable key | ETable key) :: es' =>
      let^ path := checkKeyPath data [] key orelse id in check_exprs path es'
  | EKeyValue key val _ _ :: es' =>
      let^ path := checkKeyPath data table key orelse id in
      let^ _ := check_value path val orelse id in check_exprs table es'
  end.
End keys.

(** ** Validation (load.go) *)
Definition ValidateTargetID (i : string) : res unit :=
  if LineUnsafe i then
    Er (errorf ("target id " +:+ quote i +:+ ": must not contain a control character or line break, begin or end with whitespace, or begin with a double quote"))
  else Ok tt.
(** The header line of age's armor. *)
Definition armor_Header : string := "-----BEGIN AGE ENCRYPTED FILE-----".
Definition looksArmored (s : string) : bool := has_prefix armor_Header (trim_space s).
Definition checkHostKeySource (s : string) : res unit :=
  if bool_decide (s ∈ [""; SourceSSHVerified; SourceSSHTOFU]) then Ok tt
  else Er (wrap_pre (sent ErrUnknownHostKeySource) (quote s +:+ " is not " +:+ SourceSSHVerified +:+ " or " +:+ SourceSSHTOFU)).
Definition target_err (id says : string) : err := errorf ("target " +:+ quote id +:+ says).
Definition validate_token (id : string) (o : option TokenAuth) : res unit :=
  match o with
  | None => Ok tt
  | Some t =>
      guard^ negb (eqb (SecretEnc t) "") orelse target_err id ": [targets.token] present without secret_enc" in
      guard^ looksArmored (SecretEnc t) orelse target_err id ": token secret_enc is not age-armored ciphertext" in
      Ok tt
  end.
Definition validate_ssh (id : string) (o : option SSHAuth) : res unit :=
  match o with
  | None => Ok tt
  | Some t =>
      guard^ negb (eqb (PrivateKeyEnc t) "") orelse target_err id ": [targets.ssh] present without private_key_enc" in
      guard^ looksArmored (PrivateKeyEnc t) orelse target_err id ": ssh private_key_enc is not age-armored ciphertext" in
      let^ _ := checkHostKeySource (HostKeySource t)
        orelse wrapf ("target " +:+ quote id +:+ ": [targets.ssh] host_key_source") in
      Ok tt
  end.
Definition validate_tls (id : string) (o : option TLSPin_) : res unit :=
  match o with
  | None => Ok tt
  | Some t =>
      let^ _ := Parse (SPKISHA256 t) orelse wrapf ("target " +:+ quote id +:+ ": [targets.tls] spki_sha256") in
      if eqb (pin_Source t) "" then Ok tt
      else
        let^ _ := ParseSource (pin_Source t) orelse wrapf ("target " +:+ quote id +:+ ": [targets.tls] source") in
        Ok tt
  end.
(** One target, the [i]th, the ids in [seen] before it. *)
Definition validate_target (i : Z) (seen : gset string) (t : Target) : res unit :=
  let nth := "target #" +:+ itoa i in
  guard^ negb (eqb (tg_ID t) "") orelse errorf (nth +:+ ": missing required field id") in
  let^ _ := ValidateTargetID (tg_ID t) orelse wrapf nth in
  guard^ negb (bool_decide (tg_ID t ∈ seen)) orelse errorf ("duplicate target id " +:+ quote (tg_ID t)) in
  guard^ negb (eqb (tg_Host t) "") orelse target_err (tg_ID t) ": missing required field host" in
  guard^ negb (eqb (tg_Node t) "") orelse target_err (tg_ID t) ": missing required field node" in
  guard^ eqb (Export_ t) "" || eqb (Export_ t) ExportToken orelse
    target_err (tg_ID t) (": export = " +:+ quote (Export_ t) +:+ ": the only value is " +:+ quote ExportToken) in
  let^ _ := validate_token (tg_ID t) (Token t) orelse id in
  let^ _ := validate_ssh (tg_ID t) (tg_SSH t) orelse id in
  validate_tls (tg_ID t) (TLS t).
Fixpoint validate_from (i : Z) (seen : gset string) (r : Roster) : res unit :=
  match r with
  | [] => Ok tt
  | t :: r' => let^ _ := validate_target i seen t orelse id in validate_from (i + 1) ({[tg_ID t]} ∪ seen) r'
  end.
Definition validate (r : Roster) : res unit := validate_from 0 ∅ r.

(** ** Equality (writeback.go): the Go pointers compared by what they point to *)
Definition targetDeepEqual (a b : Target) : bool :=
  eqb (tg_ID a) (tg_ID b) && eqb (tg_Host a) (tg_Host b) && eqb (tg_Node a) (tg_Node b)
  && (tg_APIPort a =? tg_APIPort b)%Z && Bool.eqb (tg_InsecureTLS a) (tg_InsecureTLS b) && eqb (Export_ a) (Export_ b)
  && bool_decide (Token a = Token b) && bool_decide (tg_SSH a = tg_SSH b) && bool_decide (TLS a = TLS b).

Section decode.
Context (unmarshal : string → res Roster) (parse : string → list expr * option err).
Definition checkKeys (data : string) : res unit :=
  let^ _ := check_exprs data [] (parse data).1 orelse id in
  match (parse data).2 with Some e => Er e | None => Ok tt end.
Definition Decode (data : string) : res Roster :=
  let^ r := unmarshal data orelse wrapf "parse roster" in
  let^ _ := checkKeys data orelse wrapf "parse roster" in
  let^ _ := validate r orelse id in
  Ok r.

(** ** The checks of a write *)
(** [same] judges each target of the new roster against the old one's, in order. *)
Fixpoint verify_targets (same : Target → Target → res unit) (i : Z) (old new : Roster) : res unit :=
  match old, new with
  | ot :: old', nt :: new' =>
      guard^ eqb (tg_ID ot) (tg_ID nt) orelse
        errorf ("target #" +:+ itoa i +:+ " id changed: " +:+ quote (tg_ID ot) +:+ " -> " +:+ quote (tg_ID nt)) in
      let^ _ := same ot nt orelse id in verify_targets same (i + 1) old' new'
  | _, _ => Ok tt
  end.
Definition verify_decoded (same : Target → Target → res unit) (oldData newData : string) : res unit :=
  let^ oldRoster := Decode oldData orelse wrapf "original roster no longer parses (unexpected)" in
  let^ newRoster := Decode newData orelse wrapf "spliced roster does not parse" in
  guard^ bool_decide (length oldRoster = length newRoster) orelse
    errorf ("target count changed: " +:+ itoa (Z.of_nat (length oldRoster)) +:+ " -> " +:+ itoa (Z.of_nat (length newRoster))) in
  verify_targets same 0 oldRoster newRoster.
(** What another target than [targetID] must be. *)
Definition untouched (targetID : string) (ot nt : Target) : res unit :=
  guard^ targetDeepEqual ot nt orelse
    errorf ("target " +:+ quote (tg_ID ot) +:+ " was modified but was not the intended target " +:+ quote targetID) in Ok tt.
Definition only_subtable (targetID modified : string) (ot nt : Target) : res unit :=
  if eqb (tg_ID ot) targetID then
    guard^ eqb (tg_Host ot) (tg_Host nt) && eqb (tg_Node ot) (tg_Node nt) && (tg_APIPort ot =? tg_APIPort nt)%Z
           && Bool.eqb (tg_InsecureTLS ot) (tg_InsecureTLS nt) && eqb (Export_ ot) (Export_ nt) orelse
      target_err targetID ": non-auth fields changed unexpectedly" in
    guard^ eqb modified "token" || bool_decide (Token ot = Token nt) orelse
      target_err targetID (": token auth changed unexpectedly while writing " +:+ modified) in
    guard^ eqb modified "ssh" || bool_decide (tg_SSH ot = tg_SSH nt) orelse
      target_err targetID (": ssh auth changed unexpectedly while writing " +:+ modified) in
    guard^ eqb modified "tls" || bool_decide (TLS ot = TLS nt) orelse
      target_err targetID (": tls pin changed unexpectedly while writing " +:+ modified) in
    Ok tt
  else untouched targetID ot nt.
Definition verifyOnlyIntendedChange (oldData newData targetID modified : string) : res unit :=
  verify_decoded (only_subtable targetID modified) oldData newData.
Definition only_fields (targetID : string) (ot nt : Target) : res unit :=
  if eqb (tg_ID ot) targetID then
    guard^ eqb (Export_ ot) (Export_ nt) orelse target_err targetID ": export changed unexpectedly while updating fields" in
    guard^ bool_decide (Token ot = Token nt) orelse target_err targetID ": token auth changed unexpectedly while updating fields" in
    guard^ bool_decide (tg_SSH ot = tg_SSH nt) orelse target_err targetID ": ssh auth changed unexpectedly while updating fields" in
    guard^ bool_decide (TLS ot = TLS nt) orelse target_err targetID ": tls pin changed unexpectedly while updating fields" in
    Ok tt
  else untouched targetID ot nt.
Definition verifyOnlyTargetFieldsChanged (oldData newData targetID : string) : res unit :=
  verify_decoded (only_fields targetID) oldData newData.
Fixpoint kept_targets (old new : Roster) : res unit :=
  match old, new with
  | ot :: old', nt :: new' =>
      guard^ targetDeepEqual ot nt orelse errorf ("existing target " +:+ quote (tg_ID ot) +:+ " was modified") in
      kept_targets old' new'
  | _, _ => Ok tt
  end.
Definition verifyAppendOnly (oldData newData targetID : string) : res unit :=
  let^ oldRoster := Decode oldData orelse wrapf "original roster no longer parses (unexpected)" in
  let^ newRoster := Decode newData orelse wrapf "appended roster does not parse" in
  guard^ bool_decide (length newRoster = length oldRoster + 1) orelse
    errorf ("target count changed by " +:+ itoa (Z.of_nat (length newRoster) - Z.of_nat (length oldRoster))%Z +:+ ", want +1") in
  let^ _ := kept_targets oldRoster newRoster orelse id in
  match last newRoster with
  | None => Ok tt
  | Some t =>
      guard^ eqb (tg_ID t) targetID orelse
        errorf ("appended target has id " +:+ quote (tg_ID t) +:+ ", want " +:+ quote targetID) in
      guard^ bool_decide (Token t = None ∧ tg_SSH t = None) orelse
        errorf ("appended target " +:+ quote targetID +:+ " unexpectedly carries auth subtables") in
      guard^ bool_decide (TLS t = None) orelse
        errorf ("appended target " +:+ quote targetID +:+ " unexpectedly carries a TLS pin") in
      guard^ eqb (Export_ t) "" orelse errorf ("appended target " +:+ quote targetID +:+ " unexpectedly carries export") in
      Ok tt
  end.
End decode.

(** ** The secrets, in the order a passphrase is tried on them (passphrase.go) *)
Record secretRef := { sr_target : string; sr_what : string; armored : string }.
Definition secrets_of (t : Target) : list secretRef :=
  (match tg_SSH t with
   | Some a => if eqb (PrivateKeyEnc a) "" then []
               else [{| sr_target := tg_ID t; sr_what := "ssh private key"; armored := PrivateKeyEnc a |}]
   | None => []
   end) ++
  (match Token t with
   | Some a => if eqb (SecretEnc a) "" then []
               else [{| sr_target := tg_ID t; sr_what := "token secret"; armored := SecretEnc a |}]
   | None => []
   end).
Definition secretsInProofOrder (r : Roster) (targetID : string) : list secretRef :=
  (r ≫= λ t, if eqb (tg_ID t) targetID then secrets_of t else []) ++
  (r ≫= λ t, if eqb (tg_ID t) targetID then [] else secrets_of t).

(** * Specification *)
(** What a valid target is. *)
Definition valid_pin (s : string) : Prop :=
  ∃ b, s = Prefix +:+ b +:+ "=" ∧ slen b = 43 ∧ all_bytes b64_byte b = true.
Definition valid_target (t : Target) : Prop :=
  tg_ID t ≠ "" ∧ LineUnsafe (tg_ID t) = false ∧ tg_Host t ≠ "" ∧ tg_Node t ≠ "" ∧
  (Export_ t = "" ∨ Export_ t = ExportToken) ∧
  (∀ a, Token t = Some a → looksArmored (SecretEnc a) = true) ∧
  (∀ a, tg_SSH t = Some a → looksArmored (PrivateKeyEnc a) = true ∧
     HostKeySource a ∈ [""; SourceSSHVerified; SourceSSHTOFU]) ∧
  (∀ a, TLS t = Some a → valid_pin (SPKISHA256 a) ∧
     pin_Source a ∈ [""; SourceSSHVerified; SourceSSHStored; SourceSSHTOFU; SourceExpect]).
Definition valid_roster (r : Roster) : Prop := NoDup (tg_ID <$> r) ∧ Forall valid_target r.
(** [nt] is [ot] but for its subtable [sub]. *)
Definition differs_in (sub : string) (ot nt : Target) : Prop :=
  tg_ID nt = tg_ID ot ∧ tg_Host nt = tg_Host ot ∧ tg_Node nt = tg_Node ot ∧ tg_APIPort nt = tg_APIPort ot ∧
  tg_InsecureTLS nt = tg_InsecureTLS ot ∧ Export_ nt = Export_ ot ∧
  (sub ≠ "token" → Token nt = Token ot) ∧ (sub ≠ "ssh" → tg_SSH nt = tg_SSH ot) ∧ (sub ≠ "tls" → TLS nt = TLS ot).
Definition only_differs_in (targetID sub : string) (old new : Roster) : Prop :=
  Forall2 (λ ot nt, if decide (tg_ID ot = targetID) then differs_in sub ot nt else nt = ot) old new.
(** [nt] is [ot] but for its host, node, port and TLS flag. *)
Definition differs_in_fields (ot nt : Target) : Prop :=
  tg_ID nt = tg_ID ot ∧ Export_ nt = Export_ ot ∧ Token nt = Token ot ∧ tg_SSH nt = tg_SSH ot ∧ TLS nt = TLS ot.

(** * Lemmas *)
Lemma counted_spec p n s r : counted p n s = Some r ↔ ∃ b, s = b +:+ r ∧ slen b = n ∧ all_bytes p b = true.
Proof.
  revert s. induction n as [|n IH]; intros s; cbn [counted].
  - split; [intros [= <-]; by exists ""|]. by intros ([|c b] & -> & [=] & _).
  - destruct s as [|c s]; [split; [done|by intros ([|c b] & [=] & [=] & _)]|]. destruct (p c) eqn:Hp.
    + rewrite IH. split.
      * intros (b & -> & <- & Hb). exists (String c b). cbn. by rewrite Hp.
      * intros ([|d b] & [=] & [=] & Hb). subst. exists b. cbn in Hb. by rewrite Hp in Hb.
    + split; [done|]. intros ([|d b] & [=] & [=] & Hb). subst. cbn in Hb. by rewrite Hp in Hb.
Qed.
Lemma pinRE_spec s : pinRE s = true ↔ valid_pin s.
Proof.
  unfold pinRE, valid_pin. split.
  - destruct (cut_prefix Prefix s) as [t|] eqn:Ht; [|done]. apply cut_prefix_spec in Ht as ->.
    destruct (counted b64_byte 43 t) as [r|] eqn:Hr; [|done]. intros ->%eqb_true. apply counted_spec in Hr as (b & -> & ? & ?).
    by exists b.
  - intros (b & -> & Hl & Hb). assert (cut_prefix Prefix (Prefix +:+ b +:+ "=") = Some (b +:+ "=")) as -> by by apply cut_prefix_spec.
    assert (counted b64_byte 43 (b +:+ "=") = Some "=") as -> by by (apply counted_spec; exists b). by apply eqb_true.
Qed.
Lemma looksArmored_nonempty s : looksArmored s = true → s ≠ "".
Proof. by intros H ->. Qed.
Lemma Parse_ok s : is_ok (Parse s) = true ↔ valid_pin s.
Proof. rewrite <- pinRE_spec. unfold Parse. by destruct (pinRE s). Qed.
Lemma ParseSource_ok s : is_ok (ParseSource s) = true ↔ s ∈ [SourceSSHVerified; SourceSSHStored; SourceSSHTOFU; SourceExpect].
Proof. unfold ParseSource. case_bool_decide; split; done. Qed.
Lemma validate_token_iff i o : validate_token i o = Ok tt ↔ ∀ a, o = Some a → looksArmored (SecretEnc a) = true.
Proof.
  destruct o as [a|]; cbn [validate_token]; [|done]. rewrite !guard_iff, negb_eqb. split.
  - by intros (_ & ? & _) ? [= <-].
  - intros H. specialize (H a eq_refl). split_and!; [by apply looksArmored_nonempty|done|done].
Qed.
Lemma validate_ssh_iff i o : validate_ssh i o = Ok tt ↔
  ∀ a, o = Some a → looksArmored (PrivateKeyEnc a) = true ∧ HostKeySource a ∈ [""; SourceSSHVerified; SourceSSHTOFU].
Proof.
  destruct o as [a|]; cbn [validate_ssh]; [|done]. rewrite !guard_iff, negb_eqb, call_iff. unfold checkHostKeySource. split.
  - intros (_ & ? & u & Hs & _) ? [= <-]. split; [done|]. by case_bool_decide.
  - intros H. destruct (H a eq_refl) as [Ha Hs]. split_and!; [by apply looksArmored_nonempty|done|].
    exists tt. by rewrite bool_decide_eq_true_2.
Qed.
Lemma validate_tls_iff i o : validate_tls i o = Ok tt ↔
  ∀ a, o = Some a → valid_pin (SPKISHA256 a) ∧
    pin_Source a ∈ [""; SourceSSHVerified; SourceSSHStored; SourceSSHTOFU; SourceExpect].
Proof.
  destruct o as [a|]; cbn [validate_tls]; [|done]. rewrite call_iff. split.
  - intros (p & Hp & Hs) ? [= <-]. split; [apply Parse_ok, is_ok_ex; by exists p|].
    destruct (eqb (pin_Source a) "") eqn:He; [apply eqb_true in He as ->; by left|].
    apply call_iff in Hs as (q & Hq & _). right. apply ParseSource_ok, is_ok_ex. by exists q.
  - intros H. destruct (H a eq_refl) as [Hp Hs]. apply Parse_ok, is_ok_ex in Hp as [p Hp]. exists p. split; [done|].
    destruct (eqb (pin_Source a) "") eqn:He; [done|].
    apply elem_of_cons in Hs as [Hs|Hs]; [by rewrite Hs in He|]. apply ParseSource_ok, is_ok_ex in Hs as [q ->]. done.
Qed.
Lemma validate_target_iff i seen t : validate_target i seen t = Ok tt ↔ valid_target t ∧ tg_ID t ∉ seen.
Proof.
  unfold validate_target, valid_target. cbv zeta. rewrite guard_iff, call_iff, negb_eqb.
  assert (∀ s, (∃ a, ValidateTargetID s = Ok a) ↔ LineUnsafe s = false) as Hid.
  { intros s. unfold ValidateTargetID. destruct (LineUnsafe s); split; eauto; [by intros [? [=]]|done]. }
  split.
  - intros (? & u & Hu & H). assert (LineUnsafe (tg_ID t) = false) by (apply Hid; eauto).
    rewrite !guard_iff, !negb_eqb, negb_bool_decide, !call_iff, orb_true_iff, !eqb_true in H.
    destruct H as (? & ? & ? & ? & [] & Htok & H). apply call_iff in H as ([] & Hssh & Htls).
    rewrite validate_token_iff in Htok. rewrite validate_ssh_iff in Hssh. rewrite validate_tls_iff in Htls. done.
  - intros ((? & Hu & ? & ? & ? & ?%(validate_token_iff (tg_ID t)) & ?%(validate_ssh_iff (tg_ID t)) & ?%(validate_tls_iff (tg_ID t))) & ?).
    split; [done|]. apply Hid in Hu as [u Hu]. exists u. split; [done|].
    rewrite !guard_iff, !negb_eqb, negb_bool_decide, !call_iff, orb_true_iff, !eqb_true.
    split_and!; [done..|]. exists tt. split; [done|]. apply call_iff. by exists tt.
Qed.
Lemma validate_from_iff i seen r :
  validate_from i seen r = Ok tt ↔ valid_roster r ∧ ∀ t, t ∈ r → tg_ID t ∉ seen.
Proof.
  revert i seen. induction r as [|t r IH]; intros i seen; cbn [validate_from].
  { split; [|done]. intros _. split; [split; constructor|]. by intros t ?%elem_of_nil. }
  rewrite call_iff. unfold valid_roster in *. rewrite fmap_cons, NoDup_cons, Forall_cons. split.
  - intros (u & Ht & Hr). destruct u. apply validate_target_iff in Ht as [? ?]. apply IH in Hr as ([? ?] & Hs).
    split_and!; [|done..|].
    + intros (t' & Heq & Hin)%list_elem_of_fmap. specialize (Hs t' Hin). set_solver.
    + intros t' [->|Hin]%elem_of_cons; [done|]. specialize (Hs t' Hin). set_solver.
  - intros (((Hni & ?) & ? & ?) & Hs). exists tt. split; [apply validate_target_iff; split; [done|apply Hs; by left]|].
    apply IH. split; [done|]. intros t' Hin. assert (tg_ID t' ∉ seen) by (apply Hs; by right).
    assert (tg_ID t' ≠ tg_ID t) as Hne; [|set_solver]. intros Heq. apply Hni. rewrite <- Heq. by apply list_elem_of_fmap_2.
Qed.
Lemma validate_iff_valid r : validate r = Ok tt ↔ valid_roster r.
Proof. unfold validate. rewrite validate_from_iff. split; [by intros [? _]|]. intros H. split; [done|]. set_solver. Qed.

(** ** The checks of a write *)
Lemma targetDeepEqual_iff a b : targetDeepEqual a b = true ↔ a = b.
Proof.
  unfold targetDeepEqual. rewrite !andb_true_iff, !eqb_true, !bool_decide_eq_true, Z.eqb_eq, Bool.eqb_true_iff.
  destruct a, b; cbn. split; [intros ?; by destruct_and!; subst|by intros [= -> -> -> -> -> -> -> -> ->]].
Qed.
Lemma untouched_iff i ot nt : untouched i ot nt = Ok tt ↔ nt = ot.
Proof. unfold untouched. rewrite guard_iff, targetDeepEqual_iff. naive_solver. Qed.
Lemma orb_implies (b : bool) P `{!Decision P} : b || bool_decide P = true ↔ (b = false → P).
Proof. destruct b; cbn; [done|]. rewrite bool_decide_eq_true. naive_solver. Qed.
Lemma only_subtable_iff targetID sub ot nt :
  tg_ID ot = tg_ID nt →
  only_subtable targetID sub ot nt = Ok tt ↔ if decide (tg_ID ot = targetID) then differs_in sub ot nt else nt = ot.
Proof.
  intros Hid. unfold only_subtable. destruct (decide _) as [->|Hne]; [rewrite eqb_refl|rewrite (proj2 (eqb_false _ _) Hne); apply untouched_iff].
  unfold eqb. rewrite !guard_iff, !orb_implies, !andb_true_iff, !bool_decide_eq_true, !bool_decide_eq_false, Z.eqb_eq, Bool.eqb_true_iff.
  unfold differs_in. split.
  - intros (Hf & H1 & H2 & H3 & _). destruct_and! Hf. split_and!; [done..|intros; symmetry; auto|intros; symmetry; auto|intros; symmetry; auto].
  - intros (_ & -> & -> & -> & -> & -> & H1 & H2 & H3). split_and!; [done..|intros; symmetry; auto|intros; symmetry; auto|intros; symmetry; auto|done].
Qed.
Lemma only_fields_iff targetID ot nt :
  tg_ID ot = tg_ID nt →
  only_fields targetID ot nt = Ok tt ↔ if decide (tg_ID ot = targetID) then differs_in_fields ot nt else nt = ot.
Proof.
  intros Hid. unfold only_fields. destruct (decide _) as [->|Hne]; [rewrite eqb_refl|rewrite (proj2 (eqb_false _ _) Hne); apply untouched_iff].
  unfold eqb. rewrite !guard_iff, !bool_decide_eq_true. unfold differs_in_fields. split; [by intros (-> & -> & -> & -> & _)|].
  by intros (_ & -> & -> & -> & ->).
Qed.
(** A check of pairs of targets of one id, as a relation. *)
Lemma verify_targets_iff same (R : Target → Target → Prop) i old new :
  (∀ ot nt, tg_ID ot = tg_ID nt → same ot nt = Ok tt ↔ R ot nt) → (∀ ot nt, R ot nt → tg_ID ot = tg_ID nt) →
  length old = length new → verify_targets same i old new = Ok tt ↔ Forall2 R old new.
Proof.
  intros Hsame HR. revert i new. induction old as [|ot old IH]; intros i [|nt new]; cbn [verify_targets length]; try done. intros [= Hl].
  rewrite guard_iff, call_iff, eqb_true, Forall2_cons. split.
  - intros (Hid & u & Hs & Ht). destruct u. split; [by apply Hsame|by apply (IH _ _ Hl) in Ht].
  - intros [H1 H2]. pose proof (HR _ _ H1). split; [done|]. exists tt. split; [by apply Hsame|by apply (IH _ _ Hl)].
Qed.
(** ** The keys of a document *)
(** The keys a roster may hold, each with the tables it sits in. *)
Definition known_keys : list (list string) :=
  ["targets"] ::
  ((λ k, ["targets"; k]) <$> ["id"; "host"; "node"; "api_port"; "insecure_tls"; "export"; "token"; "ssh"; "tls"]) ++
  ((λ k, ["targets"; "token"; k]) <$> ["id"; "secret_enc"]) ++
  ((λ k, ["targets"; "ssh"; k]) <$> ["user"; "public_key"; "host_key_fingerprint"; "private_key_enc"; "host_key_source"]) ++
  ((λ k, ["targets"; "tls"; k]) <$> ["spki_sha256"; "source"]).
Definition names (key : list key_part) : list string := k_Data <$> key.
(** A dotted key under a table names each of its parts in turn. *)
Definition of_key (table : list string) (key : list key_part) (q : list string) : Prop :=
  ∃ l x rest, names key = l ++ x :: rest ∧ q = table ++ l ++ [x].
(** The keys of an inline table, and of those an array holds. *)
Inductive in_value : list string → value → list string → Prop :=
| in_key table kvs key v q : (key, v) ∈ kvs → of_key table key q → in_value table (VInline kvs) q
| in_inner table kvs key v q : (key, v) ∈ kvs → in_value (table ++ names key) v q → in_value table (VInline kvs) q
| in_item table l kvs q : VInline kvs ∈ l → in_value table (VInline kvs) q → in_value table (VArray l) q.
(** The keys of a document under a table: its headers', its keys' and its values'. *)
Fixpoint in_doc (table : list string) (es : list expr) (q : list string) : Prop :=
  match es with
  | [] => False
  | (EArrayTable key | ETable key) :: es' => of_key [] key q ∨ in_doc (names key) es' q
  | EKeyValue key val _ _ :: es' => of_key table key q ∨ in_value (table ++ names key) val q ∨ in_doc table es' q
  end.

Lemma rosterKeys_known path name :
  path ∈ [] :: known_keys → name ∈ rosterKeys (Join "." path) ↔ path ++ [name] ∈ known_keys.
Proof.
  intros Hp. assert (∀ k, k ∈ known_keys → path ++ [name] = k → name ∈ rosterKeys (Join "." path)) as H1.
  { intros k Hk Heq. assert (path = removelast k) as -> by by rewrite <- Heq, removelast_last.
    assert (name = List.last k "") as -> by by rewrite <- Heq, List.last_last. clear -Hk.
    revert k Hk. rewrite <- Forall_forall. apply (bool_decide_unpack _). vm_compute. exact I. }
  assert (∀ p, p ∈ [] :: known_keys → ∀ n, n ∈ rosterKeys (Join "." p) → p ++ [n] ∈ known_keys) as H2.
  { intros p Hin. rewrite <- Forall_forall. revert p Hin. rewrite <- Forall_forall.
    apply (bool_decide_unpack _). vm_compute. exact I. }
  split; [by apply H2|]. intros H. by eapply H1.
Qed.
Lemma of_key_nil table q : ¬ of_key table [] q.
Proof. intros ([|] & x & rest & H & _); done. Qed.
Lemma of_key_cons table k key q :
  of_key table (k :: key) q ↔ q = table ++ [k_Data k] ∨ of_key (table ++ [k_Data k]) key q.
Proof.
  unfold of_key. split.
  - intros ([|y l] & x & rest & [= Hx Hr] & ->); [left; by rewrite Hx|]. right. exists l, x, rest.
    split; [done|]. by rewrite <- app_assoc, Hx.
  - intros [->|(l & x & rest & Hr & ->)]; [by exists [], (k_Data k), (names key)|].
    exists (k_Data k :: l), x, rest. split; [|by rewrite <- app_assoc]. change (k_Data k :: names key = k_Data k :: l ++ x :: rest). by rewrite Hr.
Qed.
Lemma of_key_whole table key : key ≠ [] → of_key table key (table ++ names key).
Proof.
  intros H. destruct (exists_last H) as (l & k & ->). exists (names l), (k_Data k), [].
  unfold names. by rewrite fmap_app.
Qed.
Definition known_under (P : list string → Prop) : Prop := ∀ q, P q → q ∈ known_keys.
Lemma checkKeyPath_iff data table key p :
  table ∈ [] :: known_keys →
  checkKeyPath data table key = Ok p ↔ p = table ++ names key ∧ known_under (of_key table key).
Proof.
  revert table. induction key as [|k key IH]; intros table Ht; cbn [checkKeyPath].
  { rewrite app_nil_r. split; [intros [= <-]; split; [done|]; by intros q ?%of_key_nil|by intros [-> _]]. }
  unfold known_under. setoid_rewrite of_key_cons. case_bool_decide as Hk.
  - apply rosterKeys_known in Hk; [|done]. rewrite IH by by right. rewrite <- app_assoc. unfold known_under. naive_solver.
  - split; [by destruct (List.find _ _)|]. intros [_ H]. destruct Hk. apply rosterKeys_known; [done|]. apply H. by left.
Qed.
Lemma known_table table key :
  table ∈ [] :: known_keys → known_under (of_key table key) → table ++ names key ∈ [] :: known_keys.
Proof. intros Ht H. destruct key; [by rewrite app_nil_r|]. right. apply H. by apply of_key_whole. Qed.
(** Induction that reaches the values an inline table or an array holds. *)
Fixpoint value_rect' (P : value → Prop) (Hs : ∀ d, P (VString d)) (Hi : ∀ kvs, Forall (λ kv, P kv.2) kvs → P (VInline kvs))
  (Ha : ∀ l, Forall P l → P (VArray l)) (Ho : P VOther) (v : value) : P v :=
  match v with
  | VString d => Hs d
  | VInline kvs =>
      Hi kvs ((fix go kvs : Forall (λ kv, P kv.2) kvs :=
        match kvs with
        | [] => List.Forall_nil _
        | kv :: kvs' => List.Forall_cons _ _ _ (value_rect' P Hs Hi Ha Ho kv.2) (go kvs')
        end) kvs)
  | VArray l =>
      Ha l ((fix go l : Forall P l :=
        match l with [] => List.Forall_nil _ | v :: l' => List.Forall_cons _ _ _ (value_rect' P Hs Hi Ha Ho v) (go l') end) l)
  | VOther => Ho
  end.
Lemma check_value_iff data v : ∀ table, table ∈ [] :: known_keys →
  check_value data table v = Ok tt ↔ known_under (in_value table v).
Proof.
  unfold known_under. induction v as [d|kvs IH|l IH|] using value_rect'; intros table Ht; cbn [check_value].
  - split; [|done]. intros _ q H. inversion H.
  - induction IH as [|[key v] kvs Hv _ IHk]; cbn [fst snd] in *.
    { split; [|done]. intros _ q H. inversion H as [? ? ? ? ? Hin|? ? ? ? ? Hin|]; subst; by apply elem_of_nil in Hin. }
    rewrite call_iff. setoid_rewrite call_iff. setoid_rewrite checkKeyPath_iff; [|done]. setoid_rewrite IHk. split.
    + intros (p & [-> Hk] & [] & Hval & Hrest) q H. rewrite Hv in Hval by by apply known_table.
      inversion H as [? ? key' v' ? Hin|? ? key' v' ? Hin|]; subst; apply elem_of_cons in Hin as [[= -> ->]|Hin];
        [by apply Hk|apply Hrest; by eapply in_key|by apply Hval|apply Hrest; by eapply in_inner].
    + intros H. assert (known_under (of_key table key)) as Hk by (intros q Hq; apply H; eapply in_key; [by left|done]).
      exists (table ++ names key). split; [done|]. exists tt. split.
      * apply Hv; [by apply known_table|]. intros q Hq. apply H. eapply in_inner; [by left|done].
      * intros q Hq. apply H. inversion Hq; subst; [eapply in_key|eapply in_inner]; try done; by right.
  - induction IH as [|v l Hv _ IHl].
    { split; [|done]. intros _ q H. inversion H as [| |? ? ? ? Hin]; subst; by apply elem_of_nil in Hin. }
    assert (known_under (in_value table (VArray (v :: l))) ↔
      match v with VInline _ => known_under (in_value table v) | _ => True end ∧ known_under (in_value table (VArray l))) as ->.
    { unfold known_under. split.
      - intros H. split; [destruct v; try done; intros q Hq; apply H; eapply in_item; [by left|done]|].
        intros q Hq. apply H. inversion Hq; subst. eapply in_item; [by right|done].
      - intros [H1 H2] q Hq. inversion Hq as [| |? ? kvs ? Hin Hq']; subst.
        apply elem_of_cons in Hin as [<-|Hin]; [by apply H1|]. apply H2. by eapply in_item. }
    destruct v; [rewrite IHl; naive_solver| |rewrite IHl; naive_solver..].
    rewrite call_iff. setoid_rewrite IHl. rewrite <- (Hv table Ht). cbn [check_value]. split; [by intros ([] & ? & ?)|].
    intros [? ?]. by exists tt.
  - split; [|done]. intros _ q H. inversion H.
Qed.
Lemma check_exprs_iff data es : ∀ table, table ∈ [] :: known_keys →
  check_exprs data table es = Ok tt ↔ known_under (in_doc table es).
Proof.
  unfold known_under. induction es as [|e es IH]; intros table Ht; cbn [check_exprs in_doc]; [done|].
  assert ([] ∈ [] :: known_keys) as H0 by by left.
  destruct e as [key|key|key v o n]; rewrite call_iff; (setoid_rewrite checkKeyPath_iff; [|done]).
  1,2: split; [intros (p & [-> Hk] & He) q [Hq|Hq]; [by apply Hk|]; rewrite IH in He by (by apply (known_table [])); by apply He|].
  1,2: intros H; assert (known_under (of_key [] key)) as Hk by (intros q Hq; apply H; by left).
  1,2: exists (names key); split; [done|]; apply IH; [by apply (known_table [])|]; intros q Hq; apply H; by right.
  setoid_rewrite call_iff. setoid_rewrite IH; [|done]. split.
  - intros (p & [-> Hk] & [] & Hv & Hr) q [Hq|[Hq|Hq]]; [by apply Hk| |by apply Hr].
    rewrite check_value_iff in Hv by (by apply known_table). by apply Hv.
  - intros H. assert (known_under (of_key table key)) as Hk by (intros q Hq; apply H; by left).
    exists (table ++ names key). split; [done|]. exists tt. split; [|intros q Hq; apply H; auto].
    apply check_value_iff; [by apply known_table|]. intros q Hq. apply H. auto.
Qed.
Lemma checkKeys_iff parse data :
  checkKeys parse data = Ok tt ↔ (parse data).2 = None ∧ known_under (in_doc [] (parse data).1).
Proof.
  unfold checkKeys. rewrite call_iff, <- (check_exprs_iff data _ []) by by left. split.
  - intros ([] & ? & H). by destruct (parse data).2.
  - intros [-> ?]. by exists tt.
Qed.
Section decode_lemmas.
Context (unmarshal : string → res Roster) (parse : string → list expr * option err).
Local Notation Decode := (Decode unmarshal parse).
Lemma Decode_iff data r :
  Decode data = Ok r ↔ unmarshal data = Ok r ∧ checkKeys parse data = Ok tt ∧ valid_roster r.
Proof.
  unfold Roster.Decode. rewrite call_iff. setoid_rewrite call_iff. setoid_rewrite call_iff. split.
  - intros (r' & ? & [] & ? & [] & Hv & [= <-]). by rewrite <- validate_iff_valid.
  - intros (? & ? & Hv%validate_iff_valid). exists r. split; [done|]. exists tt. split; [done|]. by exists tt.
Qed.
#[local] Opaque Roster.Decode.
Lemma verify_decoded_iff same (R : Target → Target → Prop) oldData newData :
  (∀ ot nt, tg_ID ot = tg_ID nt → same ot nt = Ok tt ↔ R ot nt) → (∀ ot nt, R ot nt → tg_ID ot = tg_ID nt) →
  verify_decoded unmarshal parse same oldData newData = Ok tt ↔
    ∃ old new, Decode oldData = Ok old ∧ Decode newData = Ok new ∧ Forall2 R old new.
Proof.
  intros Hs HR. unfold verify_decoded. rewrite call_iff. setoid_rewrite call_iff. setoid_rewrite guard_iff. setoid_rewrite bool_decide_eq_true. split.
  - intros (old & ? & new & ? & Hl & Hv). exists old, new. split_and!; [done..|]. by apply (verify_targets_iff same R) in Hv.
  - intros (old & new & ? & ? & Hf). exists old. split; [done|]. exists new. split; [done|].
    pose proof (Forall2_length _ _ _ Hf). split; [done|]. by apply (verify_targets_iff same R).
Qed.
Lemma only_differs_id targetID sub ot nt :
  (if decide (tg_ID ot = targetID) then differs_in sub ot nt else nt = ot) → tg_ID ot = tg_ID nt.
Proof. destruct (decide _); [by intros (-> & _)|by intros ->]. Qed.
Lemma verifyOnlyIntendedChange_iff oldData newData targetID sub :
  verifyOnlyIntendedChange unmarshal parse oldData newData targetID sub = Ok tt ↔
    ∃ old new, Decode oldData = Ok old ∧ Decode newData = Ok new ∧ only_differs_in targetID sub old new.
Proof.
  apply verify_decoded_iff; [intros ot nt; apply only_subtable_iff|apply only_differs_id].
Qed.
Lemma verifyOnlyTargetFieldsChanged_iff oldData newData targetID :
  verifyOnlyTargetFieldsChanged unmarshal parse oldData newData targetID = Ok tt ↔
    ∃ old new, Decode oldData = Ok old ∧ Decode newData = Ok new ∧
      Forall2 (λ ot nt, if decide (tg_ID ot = targetID) then differs_in_fields ot nt else nt = ot) old new.
Proof.
  apply verify_decoded_iff; [intros ot nt; apply only_fields_iff|].
  intros ot nt. destruct (decide _); [by intros (-> & _)|by intros ->].
Qed.
Lemma kept_targets_iff old new :
  length old ≤ length new → kept_targets old new = Ok tt ↔ ∃ rest, new = old ++ rest.
Proof.
  revert new. induction old as [|ot old IH]; intros new Hl; cbn [kept_targets]; [split; [by exists new|done]|].
  destruct new as [|nt new]; cbn in Hl; [lia|]. rewrite guard_iff, targetDeepEqual_iff, IH by lia. split.
  - intros (-> & rest & ->). by exists rest.
  - intros (rest & [= -> ->]). split; [done|]. by exists rest.
Qed.
(** A target with nothing but its plain fields. *)
Definition bare (targetID : string) (t : Target) : Prop :=
  tg_ID t = targetID ∧ Token t = None ∧ tg_SSH t = None ∧ TLS t = None ∧ Export_ t = "".
Lemma verifyAppendOnly_iff oldData newData targetID :
  verifyAppendOnly unmarshal parse oldData newData targetID = Ok tt ↔
    ∃ old t, Decode oldData = Ok old ∧ Decode newData = Ok (old ++ [t]) ∧ bare targetID t.
Proof.
  unfold verifyAppendOnly, bare. rewrite call_iff. setoid_rewrite call_iff. setoid_rewrite guard_iff. setoid_rewrite bool_decide_eq_true.
  setoid_rewrite call_iff. split.
  - intros (old & Ho & new & Hn & Hl & [] & Hk & H).
    apply kept_targets_iff in Hk as (rest & ->); [|lia]. rewrite length_app in Hl.
    destruct rest as [|t [|t' rest]]; cbn in Hl; try lia. rewrite last_snoc in H. rewrite !guard_iff, !eqb_true, !bool_decide_eq_true in H.
    exists old, t. split; [done|]. split; [done|]. naive_solver.
  - intros (old & t & Ho & Hn & Hid & Ht & Hs & Htl & He). exists old. split; [done|]. exists (old ++ [t]). split; [done|].
    rewrite length_app. split; [done|]. exists tt. split; [apply kept_targets_iff; [rewrite length_app; lia|by exists [t]]|].
    rewrite last_snoc, !guard_iff, !eqb_true, !bool_decide_eq_true. done.
Qed.
End decode_lemmas.

(** * Properties *)
(** C5: a text decodes to a roster exactly when go-toml reads that roster from it, its parser
    goes through the text without an error, every key it finds, in a table header, a dotted
    key, an inline table or an inline table that is an element of an array, is one of the
    nineteen the roster knows, under the table it knows it in, spelled exactly; the targets' ids are distinct, and every target is well-typed: an id that
    prints on a line, a host, a node, a known export, ciphertexts in armor, a known source of
    its host key, and a pin and pin source that parse. *)
Theorem Decode_accepts unmarshal parse data r :
  Decode unmarshal parse data = Ok r ↔
  unmarshal data = Ok r ∧
  ((parse data).2 = None ∧ ∀ q, in_doc [] (parse data).1 q → q ∈ known_keys) ∧
  NoDup (tg_ID <$> r) ∧ Forall valid_target r.
Proof. rewrite Decode_iff, checkKeys_iff. done. Qed.
