(* ===== verification/Splice.v ===== *)
(** internal/roster/writeback.go and tokenclear.go, the edits of the roster's text: where a
    target's block and its subtables lie, what replaces or follows them, and nothing else.
    The places come from go-toml's parser, [parse], and lie in the file. *)
From Stdlib Require Import Ascii.
From S2P Require Import Prelude GoLib Errors Json Utf8 KvJson Roster.

(** ** Bytes of the file *)
Fixpoint stake (n : nat) (s : string) : string :=
  match n, s with S n', String c s' => String c (stake n' s') | _, _ => "" end.
Fixpoint sdrop (n : nat) (s : string) : string :=
  match n, s with S n', String _ s' => sdrop n' s' | _, _ => s end.
Definition slice (a b : nat) (s : string) : string := stake (b - a) (sdrop a s).
Definition newline : string := chr 10.

(** ** Fields *)
(** [literal] renders a multi-line literal string, [raw] the value as it is, else a basic
    string. *)
Record field := { key : string; f_value : string; literal : bool; raw : bool }.
Definition plain_field (k v : string) : field := {| key := k; f_value := v; literal := false; raw := false |}.
Definition literal_field (k v : string) : field := {| key := k; f_value := v; literal := true; raw := false |}.
Definition raw_field (k v : string) : field := {| key := k; f_value := v; literal := false; raw := true |}.
Definition ensureTrailingNewline (s : string) : string := if has_suffix newline s then s else s +:+ newline.
Definition toml_rune (rb : Z * string) : string :=
  let r := rb.1 in
  let esc c := chr 92 +:+ c in
  if (r =? 92)%Z then esc (chr 92)
  else if (r =? 34)%Z then esc dq
  else if (r =? 8)%Z then esc "b"
  else if (r =? 9)%Z then esc "t"
  else if (r =? 10)%Z then esc "n"
  else if (r =? 12)%Z then esc "f"
  else if (r =? 13)%Z then esc "r"
  else if ((r <? 0x20) || (r =? 0x7f))%Z then esc ("u" +:+ hex2 true (r / 256) +:+ hex2 true r)
  else utf8_encode r.
Definition quoteTOMLBasicString (s : string) : string := dq +:+ sconcat (toml_rune <$> runes s) +:+ dq.
Definition triple : string := "'''".
Definition renderValue (f : field) : string :=
  if literal f then triple +:+ newline +:+ ensureTrailingNewline (f_value f) +:+ triple
  else if raw f then f_value f
  else quoteTOMLBasicString (f_value f).
Definition render (f : field) : string := key f +:+ " = " +:+ renderValue f +:+ newline.

(** ** Edits *)
Record edit := { Start : nat; End_ : nat; Replacement : string }.
(** One step of the insertion sort, the sorted prefix reversed. *)
Fixpoint insert_edit (e : edit) (before : list edit) : list edit :=
  match before with
  | p :: before' => if Start e <? Start p then p :: insert_edit e before' else e :: before
  | [] => [e]
  end.
Definition sort_edits (edits : list edit) : list edit := rev (fold_left (λ acc e, insert_edit e acc) edits []).
(** A slice out of the file's range panics: nothing is returned. *)
Definition out_of_range : err := errorf "panic: slice bounds out of range".
Fixpoint apply_sorted (data : string) (cursor : nat) (edits : list edit) : res string :=
  match edits with
  | [] => if cursor <=? slen data then Ok (sdrop cursor data) else Er out_of_range
  | e :: edits' =>
      guard^ cursor <=? Start e orelse
        errorf ("internal error: overlapping edits at offset " +:+ itoa (Z.of_nat (Start e))) in
      guard^ Start e <=? slen data orelse out_of_range in
      let^ rest := apply_sorted data (End_ e) edits' orelse id in
      Ok (slice cursor (Start e) data +:+ Replacement e +:+ rest)
  end.
Definition applyEdits (data : string) (edits : list edit) : res string :=
  match edits with [] => Ok data | _ => apply_sorted data 0 (sort_edits edits) end.

(** ** Lines *)
Fixpoint lineStart (data : string) (offset : nat) : nat :=
  match offset with
  | 0 => 0
  | S i => match String.get i data with
           | Some c => if is_byte 10 c then offset else lineStart data i
           | None => lineStart data i
           end
  end.
(** Backwards over blank lines and lines of comment; [n] bounds the lines. *)
Fixpoint back_off (n : nat) (data : string) (stop : nat) : nat :=
  match n, stop with
  | S n', S i =>
      match String.get i data with
      | Some c =>
          if negb (is_byte 10 c) then stop
          else
            let start := lineStart data i in
            match trim_space (slice start i data) with
            | EmptyString => back_off n' data start
            | String c0 _ => if is_byte 35 c0 then back_off n' data start else stop
            end
      | None => stop
      end
  | _, _ => stop
  end.
Definition backOffLeadingBlankOrComments (data : string) (stop : nat) : nat := back_off stop data stop.

(** ** Expressions, with their paths and places *)
Inductive flat :=
| FArrayTable (path : list string) (line : nat)
| FTable (path : list string) (line : nat)
| FKeyValue (path : list string) (offset length : nat) (str : string).
Definition keyPath (k : list key_part) : list string * nat :=
  (k_Data <$> k, match k with [] => 0 | p :: _ => k_Offset p end).
Definition flat_of (data : string) (e : expr) : flat :=
  match e with
  | EArrayTable k => FArrayTable (keyPath k).1 (lineStart data (keyPath k).2)
  | ETable k => FTable (keyPath k).1 (lineStart data (keyPath k).2)
  | EKeyValue k v off len => FKeyValue (keyPath k).1 off len (match v with VString s => s | _ => "" end)
  end.
Definition flat_place (f : flat) : nat :=
  match f with FArrayTable _ l | FTable _ l => l | FKeyValue _ off _ _ => off end.

(** ** Blocks *)
Record targetBlock := { b_id : string; b_start : nat; b_end : nat; ownEnd : nat }.
(** [targets] and below, or [targets] itself. *)
Definition under_targets (path : list string) : bool :=
  match path with p :: _ :: _ => eqb p "targets" | _ => false end.
Definition is_targets (path : list string) : bool :=
  match path with [p] => eqb p "targets" | _ => false end.
Definition closeCurrent (stop : nat) (st : list targetBlock * option targetBlock) : list targetBlock * option targetBlock :=
  match st.2 with
  | None => st
  | Some c => (st.1 ++ [{| b_id := b_id c; b_start := b_start c; b_end := stop;
                           ownEnd := if decide (ownEnd c = 0) then stop else ownEnd c |}], None)
  end.
Definition block_step (data : string) (st : list targetBlock * option targetBlock) (f : flat) :=
  let before line := backOffLeadingBlankOrComments data line in
  match f with
  | FArrayTable path line =>
      if is_targets path then
        ((closeCurrent (before line) st).1, Some {| b_id := ""; b_start := line; b_end := 0; ownEnd := 0 |})
      else if under_targets path then st
      else closeCurrent (before line) st
  | FTable path line =>
      if under_targets path then
        match st.2 with
        | Some c => if decide (ownEnd c = 0)
                    then (st.1, Some {| b_id := b_id c; b_start := b_start c; b_end := b_end c; ownEnd := before line |})
                    else st
        | None => st
        end
      else closeCurrent (before line) st
  | FKeyValue path _ _ str =>
      match st.2, path with
      | Some c, [k] =>
          if bool_decide (ownEnd c = 0) && eqb k "id" && eqb (b_id c) ""
          then (st.1, Some {| b_id := str; b_start := b_start c; b_end := b_end c; ownEnd := ownEnd c |})
          else st
      | _, _ => st
      end
  end.
Fixpoint check_block_ids (i : Z) (bs : list targetBlock) : res unit :=
  match bs with
  | [] => Ok tt
  | b :: bs' =>
      guard^ negb (eqb (b_id b) "") orelse errorf ("target #" +:+ itoa i +:+ ": missing required field id") in
      check_block_ids (i + 1) bs'
  end.

Section places.
Context (parse : string → list expr * option err).
Definition flattenExpressions (data : string) : res (list flat) :=
  match (parse data).2 with Some e => Er e | None => Ok (flat_of data <$> (parse data).1) end.
Definition flattenExpressionsInRange (data : string) (start stop : nat) : res (list flat) :=
  let^ fs := flattenExpressions data orelse id in
  Ok (filter (λ f, start ≤ flat_place f < stop) fs).
Definition findTargetBlocks (data : string) : res (list targetBlock) :=
  let^ exprs := flattenExpressions data orelse wrapf "parse roster" in
  let blocks := (closeCurrent (slen data) (fold_left (block_step data) exprs ([], None))).1 in
  let^ _ := check_block_ids 0 blocks orelse id in
  Ok blocks.
Definition findUniqueTargetBlock (data targetID : string) : res targetBlock :=
  let^ blocks := findTargetBlocks data orelse id in
  match filter (λ b, b_id b = targetID) blocks with
  | [] => Er (errorf ("no target with id " +:+ quote targetID +:+ " found in roster"))
  | [b] => Ok b
  | bs => Er (errorf ("ambiguous: " +:+ itoa (Z.of_nat (length bs)) +:+ " targets with id " +:+ quote targetID +:+ " found in roster"))
  end.
(** The span of a subtable of the block, header line included. *)
Fixpoint find_table (data : string) (stop : nat) (path : list string) (fs : list flat) : option (nat * nat) :=
  match fs with
  | [] => None
  | FTable p line :: fs' =>
      if bool_decide (p = path) then
        Some (line, match List.find (λ f, match f with FKeyValue _ _ _ _ => false | _ => true end) fs' with
                    | Some h => backOffLeadingBlankOrComments data (flat_place h)
                    | None => stop
                    end)
      else find_table data stop path fs'
  | _ :: fs' => find_table data stop path fs'
  end.
Definition findSubtable (data : string) (b : targetBlock) (subKey : string) : option (nat * nat) :=
  match flattenExpressionsInRange data (b_start b) (b_end b) with
  | Er _ => None
  | Ok exprs => find_table data (b_end b) ["targets"; subKey] exprs
  end.
(** The places of the values under the keys of a span. *)
Definition field_place (f : flat) : option (string * (nat * nat)) :=
  match f with FKeyValue [k] off len _ => Some (k, (off, len)) | _ => None end.
Definition findSubtableFields (data : string) (sub : nat * nat) : gmap string (nat * nat) :=
  match flattenExpressionsInRange data sub.1 sub.2 with
  | Er _ => ∅
  | Ok exprs => list_to_map (rev (omap field_place exprs))
  end.

(** ** Splices *)
(** The edits of the fields a span has, and the text of those it lacks. *)
Fixpoint field_edits (existing : gmap string (nat * nat)) (fields : list field) : list edit * string :=
  match fields with
  | [] => ([], "")
  | f :: fields' =>
      let rest := field_edits existing fields' in
      match existing !! key f with
      | Some (off, len) => ({| Start := off; End_ := off + len; Replacement := renderValue f |} :: rest.1, rest.2)
      | None => (rest.1, render f +:+ rest.2)
      end
  end.
Definition insertion (at_ : nat) (text : string) : edit := {| Start := at_; End_ := at_; Replacement := text |}.
(** A line break, unless the file is at the start of a line at [at_]. *)
Definition to_line_start (data : string) (at_ : nat) : string :=
  match at_ with
  | 0 => ""
  | S i => match String.get i data with Some c => if is_byte 10 c then "" else newline | None => newline end
  end.
Definition applySubtableSplice (data targetID subKey : string) (fields : list field) : res string :=
  let^ b := findUniqueTargetBlock data targetID orelse id in
  applyEdits data
    match findSubtable data b subKey with
    | None =>
        [insertion (b_end b) (to_line_start data (b_end b) +:+ newline +:+ "[targets." +:+ subKey +:+ "]" +:+ newline
           +:+ sconcat (render <$> fields))]
    | Some sub =>
        let '(edits, text) := field_edits (findSubtableFields data sub) fields in
        edits ++ (if eqb text "" then [] else [insertion sub.2 text])
    end.
Definition applyTargetFieldsSplice (data targetID : string) (fields : list field) : res string :=
  let^ b := findUniqueTargetBlock data targetID orelse id in
  let '(edits, text) := field_edits (findSubtableFields data (b_start b, ownEnd b)) fields in
  applyEdits data (edits ++ (if eqb text "" then [] else [insertion (ownEnd b) (to_line_start data (ownEnd b) +:+ text)])).
Definition blank_before (data : string) (at_ : nat) : bool :=
  match at_ with
  | S (S i) => match String.get (S i) data, String.get i data with
               | Some c, Some d => is_byte 10 c && is_byte 10 d
               | _, _ => false
               end
  | _ => false
  end.
Definition applyClearToken (data targetID : string) : res string :=
  let^ b := findUniqueTargetBlock data targetID orelse id in
  match findSubtable data b "token" with
  | None => Ok data
  | Some sub =>
      let start := if blank_before data sub.1 then sub.1 - 1 else sub.1 in
      applyEdits data [{| Start := start; End_ := sub.2; Replacement := "" |}]
  end.
End places.
Definition appendTargetBlock (data : string) (t : Target) : string :=
  data +:+ (if eqb data "" then "" else to_line_start data (slen data) +:+ newline)
  +:+ "[[targets]]" +:+ newline
  +:+ render (plain_field "id" (tg_ID t)) +:+ render (plain_field "host" (tg_Host t)) +:+ render (plain_field "node" (tg_Node t))
  +:+ (if (tg_APIPort t =? 0)%Z then "" else render (raw_field "api_port" (itoa (tg_APIPort t))))
  +:+ (if tg_InsecureTLS t then render (raw_field "insecure_tls" "true") else "").

(** * Specification *)
(** How TOML 1.0 reads a basic string, the opening quote already read: the text and what
    follows the closing quote. [n] bounds the runes. *)
Definition toml_control (r : Z) : bool := ((r <? 0x20) && negb (r =? 9) || (r =? 0x7f))%Z.
Definition toml_escape (s : string) : option (string * string) :=
  match s with
  | EmptyString => None
  | String e t =>
      if is_byte 98 e then Some (chr 8, t)
      else if is_byte 116 e then Some (chr 9, t)
      else if is_byte 110 e then Some (chr 10, t)
      else if is_byte 102 e then Some (chr 12, t)
      else if is_byte 114 e then Some (chr 13, t)
      else if is_byte 34 e then Some (dq, t)
      else if is_byte 92 e then Some (chr 92, t)
      else
        let scalar r rest := if is_surrogate r || (0x10FFFF <? r)%Z then None else Some (utf8_encode r, rest) in
        if is_byte 117 e then match hex4_val t with Some (r, rest) => scalar r rest | None => None end
        else if is_byte 85 e then
          match hex4_val t with
          | Some (hi, t') => match hex4_val t' with Some (lo, rest) => scalar (hi * 65536 + lo)%Z rest | None => None end
          | None => None
          end
        else None
  end.
Fixpoint toml_chars (n : nat) (s : string) : option (string * string) :=
  match n, s with
  | S n', String c s' =>
      let after t rest := match toml_chars n' rest with Some (u, r) => Some (t +:+ u, r) | None => None end in
      if is_byte 34 c then Some ("", s')
      else if is_byte 92 c then match toml_escape s' with Some (t, rest) => after t rest | None => None end
      else
        let '(r, bs, rest) := decode_rune c s' in
        if toml_control r || bool_decide (r = rune_error ∧ slen bs = 1) then None else after bs rest
  | _, _ => None
  end.
Definition read_toml_string (s : string) : option (string * string) :=
  match cut_prefix dq s with Some t => toml_chars (S (slen t)) t | None => None end.

(** * Lemmas *)
Lemma slen_stake n s : slen (stake n s) = n `min` slen s.
Proof. revert s. induction n as [|n IH]; intros [|c s]; cbn; auto. Qed.
Lemma stake_sdrop n s : stake n s +:+ sdrop n s = s.
Proof. revert s. induction n as [|n IH]; intros [|c s]; cbn [stake sdrop]; [done..|]. by rewrite str_cons_app, IH. Qed.
Lemma slen_sdrop n s : slen (sdrop n s) = slen s - n.
Proof. revert s. induction n as [|n IH]; intros [|c s]; cbn; auto. Qed.
Lemma sdrop_sdrop a b s : sdrop a (sdrop b s) = sdrop (b + a) s.
Proof. revert s. induction b as [|b IH]; intros s; [done|]. destruct s as [|c s]; cbn; [by destruct a|apply IH]. Qed.
Lemma slice_sdrop a b s : a ≤ b → slice a b s +:+ sdrop b s = sdrop a s.
Proof. intros H. unfold slice. rewrite <- (stake_sdrop (b - a) (sdrop a s)) at 2. rewrite sdrop_sdrop. by replace (a + (b - a)) with b by lia. Qed.

(** ** Basic strings *)
Definition toml_special : list Z := seqZ 0 32 ++ [34; 92; 127]%Z.
Lemma toml_rune_special r n t :
  r ∈ toml_special →
  toml_chars (S n) (toml_rune (r, utf8_encode r) +:+ t) =
    match toml_chars n t with Some (u, rest) => Some (utf8_encode r +:+ u, rest) | None => None end.
Proof.
  intros H. vm_compute in H. repeat (apply elem_of_cons in H as [->|H]; [reflexivity|]). by apply elem_of_nil in H.
Qed.

Lemma toml_rune_step rb n t :
  rune_ok rb →
  toml_chars (S n) (toml_rune rb +:+ t) =
    match toml_chars n t with Some (u, rest) => Some (rb.2 +:+ u, rest) | None => None end.
Proof.
  destruct rb as [r bs]. intros Hok. pose proof Hok as (c & bs' & Hb & Hd & He). cbn [fst snd] in *.
  destruct (decide (r ∈ toml_special)) as [Hin|Hni].
  { rewrite <- He. by apply toml_rune_special. }
  assert (0 ≤ r)%Z as Hr0.
  { destruct (Z.lt_ge_cases r 128); [|lia]. destruct (rune_ok_small r bs Hok) as (d & _ & -> & _); [done|].
    pose proof (byte_of_bound d). lia. }
  assert (32 ≤ r ∧ r ≠ 34 ∧ r ≠ 92 ∧ r ≠ 127)%Z as (H32 & H34 & H92 & H127).
  { unfold toml_special in Hni. rewrite elem_of_app, elem_of_seqZ, !elem_of_cons in Hni. lia. }
  assert (toml_rune (r, bs) = bs) as ->.
  { rewrite <- He. unfold toml_rune. cbn [fst]. repeat match goal with |- context [(r =? ?k)%Z] => lazymatch k with 0x7f%Z => fail | _ => destruct (Z.eqb_spec r k); [lia|] end end.
    destruct (((r <? 0x20) || (r =? 0x7f))%Z) eqn:Hc; [|done]. exfalso. apply orb_true_iff in Hc as [?%Z.ltb_lt|?%Z.eqb_eq]; lia. }
  assert (∀ k, (byte_of (byte k) = Z.of_N k)%Z → (byte_of (byte k) < 128)%Z → r ≠ Z.of_N k → is_byte k c = false) as Hbyte.
  { intros k Hk Hlt Hne. apply bool_decide_eq_false_2. intros ->. specialize (Hd ""). unfold decode_rune in Hd.
    destruct (second_range _). destruct (Z.ltb_spec (byte_of (byte k)) 0x80); [|lia]. injection Hd. lia. }
  rewrite Hb, str_cons_app. cbn [toml_chars]. rewrite !Hbyte by (first [vm_compute; done|lia]).
  rewrite Hd. unfold toml_control. destruct (Z.ltb_spec r 0x20); [lia|]. destruct (Z.eqb_spec r 0x7f); [lia|].
  cbn [andb orb]. rewrite bool_decide_eq_false_2; [by rewrite <- Hb|]. intros [-> Hl]. rewrite <- He in Hl. vm_compute in Hl. lia.
Qed.
Lemma toml_runes l n rest :
  Forall rune_ok l → length l < n → toml_chars n (sconcat (toml_rune <$> l) +:+ dq +:+ rest) = Some (sconcat l.*2, rest).
Proof.
  intros Hl. revert n. induction Hl as [|rb l Hrb _ IH]; intros n Hn; (destruct n as [|n]; [lia|]); [done|].
  cbn [fmap list_fmap sconcat length] in *. rewrite str_app_assoc, toml_rune_step by done. by rewrite IH by lia.
Qed.
Lemma toml_rune_nonempty rb : rune_ok rb → 0 < slen (toml_rune rb).
Proof.
  intros H. pose proof (toml_rune_step rb 0 dq H) as Hs. destruct (toml_rune rb); [|cbn; lia]. discriminate Hs.
Qed.
Lemma quoteTOML_reads s rest : valid_utf8 s → read_toml_string (quoteTOMLBasicString s +:+ rest) = Some (s, rest).
Proof.
  intros [Hok Hs]%runes_valid. unfold read_toml_string, quoteTOMLBasicString. rewrite !str_app_assoc.
  assert (∀ t, cut_prefix dq (dq +:+ t) = Some t) as -> by by intros t; apply cut_prefix_spec.
  rewrite toml_runes; [by rewrite Hs|done|]. rewrite !str_length_app. clear Hs.
  induction Hok as [|rb l Hrb _ IH]; cbn [fmap list_fmap sconcat length]; [lia|].
  pose proof (toml_rune_nonempty _ Hrb). rewrite str_length_app. lia.
Qed.

(** ** Edits *)
(** The file as the texts between the edits and those at them. *)
Fixpoint weave (gaps mids : list string) : string :=
  match gaps, mids with
  | g :: gaps', m :: mids' => g +:+ m +:+ weave gaps' mids'
  | g :: _, [] => g
  | [], _ => ""
  end.
Definition replaced (data : string) (e : edit) : string := slice (Start e) (End_ e) data.
Lemma insert_edit_perm e l : insert_edit e l ≡ₚ e :: l.
Proof. induction l as [|p l IH]; cbn [insert_edit]; [done|]. destruct (Start e <? Start p); [|done]. by rewrite IH, Permutation_swap. Qed.
Lemma sort_edits_perm edits : sort_edits edits ≡ₚ edits.
Proof.
  unfold sort_edits. rewrite <- Permutation_rev.
  assert (∀ acc, fold_left (λ acc e, insert_edit e acc) edits acc ≡ₚ edits ++ acc) as H.
  { induction edits as [|e l IH]; intros acc; [done|]. cbn [fold_left app]. rewrite IH, insert_edit_perm. symmetry. apply Permutation_middle. }
  by rewrite H, app_nil_r.
Qed.
Lemma apply_sorted_in data c es out : apply_sorted data c es = Ok out → c ≤ slen data.
Proof.
  destruct es as [|e es]; cbn [apply_sorted].
  - destruct (Nat.leb_spec c (slen data)); done.
  - destruct (Nat.leb_spec c (Start e)); [|done]. destruct (Nat.leb_spec (Start e) (slen data)); [|done]. lia.
Qed.
Lemma apply_sorted_weave data c es out :
  Forall (λ e, Start e ≤ End_ e) es → apply_sorted data c es = Ok out →
  ∃ gaps, length gaps = S (length es) ∧ sdrop c data = weave gaps (replaced data <$> es) ∧ out = weave gaps (Replacement <$> es).
Proof.
  intros Hes. revert c out. induction Hes as [|e es He _ IH]; intros c out; cbn [apply_sorted].
  { destruct (Nat.leb_spec c (slen data)); [|done]. intros [= <-]. by exists [sdrop c data]. }
  destruct (Nat.leb_spec c (Start e)) as [Hc|]; [|done]. destruct (Nat.leb_spec (Start e) (slen data)); [|done].
  destruct (apply_sorted data (End_ e) es) as [rest|] eqn:Hr; [|done]. intros [= <-].
  destruct (IH _ _ Hr) as (gaps & Hl & Hd & ->). exists (slice c (Start e) data :: gaps). split_and!; [cbn; lia| |done].
  cbn [fmap list_fmap weave]. unfold replaced at 1. by rewrite <- Hd, slice_sdrop, slice_sdrop by lia.
Qed.
Lemma applyEdits_weave data edits out :
  Forall (λ e, Start e ≤ End_ e) edits → applyEdits data edits = Ok out →
  ∃ es gaps, es ≡ₚ edits ∧ length gaps = S (length es) ∧
    data = weave gaps (replaced data <$> es) ∧ out = weave gaps (Replacement <$> es).
Proof.
  unfold applyEdits. destruct edits as [|e edits].
  { intros _ [= <-]. by exists [], [data]. }
  intros Hes Ho. exists (sort_edits (e :: edits)).
  destruct (apply_sorted_weave data 0 (sort_edits (e :: edits)) out) as (gaps & ? & Hd & ?).
  { by rewrite sort_edits_perm. }
  { done. }
  exists gaps. split; [apply sort_edits_perm|done].
Qed.

(** * Properties *)
(** A splice keeps the file's text outside its edits, byte for byte and in order: the old
    file and the new one are the same texts, woven with the replaced ranges in the one and
    with the replacements in the other. *)
Theorem applyEdits_keeps data edits out :
  Forall (λ e, Start e ≤ End_ e) edits → applyEdits data edits = Ok out →
  ∃ es gaps, es ≡ₚ edits ∧ length gaps = S (length es) ∧
    data = weave gaps (replaced data <$> es) ∧ out = weave gaps (Replacement <$> es).
Proof. apply applyEdits_weave. Qed.
Definition two_edits : list edit := [insertion 5 "!"; {| Start := 1; End_ := 3; Replacement := "EY" |}].
Lemma applyEdits_keeps_witness :
  applyEdits "key=1" two_edits = Ok "kEY=1!" ∧ ∃ es gaps, es ≡ₚ two_edits ∧ length gaps = S (length es) ∧
    "key=1" = weave gaps (replaced "key=1" <$> es) ∧ "kEY=1!" = weave gaps (Replacement <$> es).
Proof.
  split; [vm_compute; reflexivity|]. apply applyEdits_keeps; [|vm_compute; reflexivity].
  repeat constructor; vm_compute; repeat constructor.
Defined.
(** A basic string the roster is written with reads back, by the rules of TOML, as the
    value itself, whatever follows it: no value can end its own string or start a key. *)
Theorem quoteTOML_round_trip s rest :
  valid_utf8 s → read_toml_string (quoteTOMLBasicString s +:+ rest) = Some (s, rest).
Proof. apply quoteTOML_reads. Qed.
Lemma quoteTOML_round_trip_witness :
  read_toml_string (quoteTOMLBasicString ("a" +:+ dq +:+ newline +:+ "b") +:+ newline) = Some ("a" +:+ dq +:+ newline +:+ "b", newline).
Proof. apply quoteTOML_round_trip. by apply (bool_decide_unpack (valid_utf8 _)). Defined.
(** A byte that is not UTF-8 does not read back: it is written as U+FFFD. *)
Example invalid_byte_replaced :
  read_toml_string (quoteTOMLBasicString (chr 255)) = Some (chr 0xEF +:+ chr 0xBF +:+ chr 0xBD, "").
Proof. vm_compute. reflexivity. Qed.
