(* ===== verification/RosterWrite.v ===== *)
(** internal/roster, the writers (writeback.go, tokenclear.go, rekey.go) and the passphrase
    with its proof (passphrase.go): what they ask of the file system, and that the roster
    file is only ever replaced, whole, by a text that decodes to the roster intended. *)
From Stdlib Require Import Ascii.
From S2P Require Import Prelude GoLib Errors Json Utf8 KvJson Roster Splice.

(** ** What a writer calls: the lock file, the roster file, age's encryption, which draws its
    salt, and the calls on a temporary file beside the roster. *)
Inductive rosterE : Type → Type :=
| RLock : rosterE (res bool)
| RUnlock : rosterE unit
| RRead : rosterE (res string)
| REncrypt (plain pass : string) : rosterE (res string)
| RCreateTemp : rosterE (res string)
| RWriteTemp (tmp data : string) : rosterE (res unit)
| RSyncTemp (tmp : string) : rosterE (res unit)
| RCloseTemp (tmp : string) : rosterE (res unit)
| RStat : rosterE (res Z)
| RChmod (tmp : string) (mode : Z) : rosterE (res unit)
| RRename (tmp : string) : rosterE (res unit)
| RRemove (tmp : string) : rosterE (res unit).

(** ** atomicWrite *)
(** 384 is 0600. *)
Definition write_temp (tmp data : string) : io rosterE (res unit) :=
  let! w := trigger (RWriteTemp tmp data) in
  match w with
  | Er e => let! _ := trigger (RCloseTemp tmp) in Ret (Er (wrapf "write temp file" e))
  | Ok _ =>
      let! s := trigger (RSyncTemp tmp) in
      match s with
      | Er e => let! _ := trigger (RCloseTemp tmp) in Ret (Er (wrapf "sync temp file" e))
      | Ok _ =>
          let? _ := trigger (RCloseTemp tmp) orelse wrapf "close temp file" in
          let! info := trigger RStat in
          let? _ := trigger (RChmod tmp match info with Ok mode => mode | Er _ => 384%Z end) orelse wrapf "chmod temp file" in
          let? _ := trigger (RRename tmp) orelse wrapf "rename temp file into place" in
          Ret (Ok tt)
      end
  end.
Definition atomicWrite (data : string) : io rosterE (res unit) :=
  let? tmp := trigger RCreateTemp orelse wrapf "create temp file" in
  let! r := write_temp tmp data in
  let! _ := trigger (RRemove tmp) in
  Ret r.
(** The lock around a body: [wait] reads how the wait for it ended, and [fail] is the outcome
    when it is not taken. *)
Definition locked_as {A} (wait : res bool → res bool) (path : string) (fail : err → A) (body : io rosterE A) : io rosterE A :=
  let! l := trigger RLock in
  match wait l with
  | Er e => Ret (fail (wrapf ("lock roster " +:+ path) e))
  | Ok false => Ret (fail (errorf ("lock roster " +:+ path +:+ ": timed out waiting for another pveforge process")))
  | Ok true => let! r := body in let! _ := trigger RUnlock in Ret r
  end.
Definition locked {A} (path : string) (fail : err → A) (body : io rosterE A) : io rosterE A := locked_as id path fail body.
Definition ProbeRosterDir : io rosterE (res unit) :=
  let? tmp := trigger RCreateTemp orelse wrapf "the roster directory is not writable" in
  let! _ := trigger (RCloseTemp tmp) in
  let? _ := trigger (RRemove tmp) orelse wrapf "remove probe file" in
  Ret (Ok tt).

(** ** Passphrases (passphrase.go) *)
(** [plain] is [None] for Go's nil: a proof of another target's secret keeps no plaintext. *)
Record proof := { opened : string; plain : option string }.
Record Passphrase := { p_s : string; p_m : option proof }.
Definition NewPassphrase (s : string) : Passphrase := {| p_s := s; p_m := Some {| opened := ""; plain := None |} |}.
Definition IsZero (p : Passphrase) : bool := eqb (p_s p) "".
Definition remembering (p : Passphrase) (armored : string) (plain : option string) : Passphrase :=
  match p_m p with
  | None => p
  | Some _ => {| p_s := p_s p; p_m := Some {| opened := armored; plain := plain |} |}
  end.
Definition remember (p : Passphrase) (armored plain : string) : Passphrase := remembering p armored (Some plain).
Definition rememberProofOnly (p : Passphrase) (armored : string) : Passphrase := remembering p armored None.
Definition PassphraseEnvVar : string := "PVEFORGE_ROSTER_PASSPHRASE".

Section age.
(** age: the identity of a passphrase, or why there is none; and the decryption, first of the
    header and then of the rest. *)
Context (NewScryptIdentity : string → option err) (age_Decrypt : string → string → res (res string)).
Definition DecryptString (armored pass : string) : res string :=
  match NewScryptIdentity pass with
  | Some e => Er (wrapf "build scrypt identity" e)
  | None =>
      let^ r := age_Decrypt armored pass orelse wrapf "decrypt" in
      let^ out := r orelse wrapf "read decrypted plaintext" in
      Ok out
  end.
(** The plaintext kept for this ciphertext. *)
Definition cached (p : Passphrase) (armored : string) : option string :=
  match p_m p with
  | Some m => if negb (eqb (opened m) "") && eqb armored (opened m) then plain m else None
  | None => None
  end.
Definition Decrypt (p : Passphrase) (armored : string) : res string * Passphrase :=
  match cached p armored with
  | Some out => (Ok out, p)
  | None =>
      let r := DecryptString armored (p_s p) in
      (r, match r, p_m p with
          | Ok out, Some m => if eqb (opened m) "" then remember p armored out else p
          | _, _ => p
          end)
  end.
(** The secrets tried in turn: the first that opens proves the passphrase, the first that
    refuses it by its identity disproves it. *)
Fixpoint try_secrets (p : Passphrase) (targetID : string) (refs : list secretRef) (unreadable : list string) (total : nat)
    : res unit * Passphrase :=
  match refs with
  | [] =>
      (if bool_decide (unreadable = []) then Ok tt
       else Er (wrap_pre (sent ErrNoReadableSecret) ("the roster holds " +:+ itoa (Z.of_nat total)
              +:+ " secret(s) and this pveforge can open none of them, so the passphrase cannot be checked (nothing was changed): "
              +:+ Join "; " unreadable)), p)
  | s :: refs' =>
      match DecryptString (armored s) (p_s p) with
      | Ok out =>
          (Ok tt, if eqb (sr_target s) targetID then remember p (armored s) out else rememberProofOnly p (armored s))
      | Er e =>
          if errors_Is ErrIncorrectIdentity e then
            (Er (wrap_pre (sent ErrWrongPassphrase) ("it does not open the " +:+ sr_what s +:+ " of target " +:+ sr_target s
               +:+ ", which the roster already holds; check " +:+ PassphraseEnvVar +:+ " (nothing was changed)")), p)
          else
            try_secrets p targetID refs'
              (unreadable ++ ["the " +:+ sr_what s +:+ " of target " +:+ sr_target s +:+ ": " +:+ Error e]) total
      end
  end.
Definition prove (p : Passphrase) (r : Roster) (targetID : string) : res unit * Passphrase :=
  if eqb (p_s p) "" then (Er (errorf "empty roster passphrase"), p)
  else
    let refs := secretsInProofOrder r targetID in
    let stands := match p_m p with
      | Some m => existsb (λ s, negb (eqb (opened m) "") && eqb (armored s) (opened m)) refs
      | None => false
      end in
    if stands then (Ok tt, p) else try_secrets p targetID refs [] (length refs).

(** ** The writers *)
Context (unmarshal : string → res Roster) (parse : string → list expr * option err) (path : string).
Local Notation Decode := (Decode unmarshal parse).
Definition read_roster : io rosterE (res string) :=
  let? data := trigger RRead orelse wrapf ("read roster " +:+ path) in Ret (Ok data).
Definition Load : io rosterE (res Roster) :=
  let? data := read_roster orelse id in Ret (Decode data).
Definition Prove (p : Passphrase) (targetID : string) : io rosterE (res unit * Passphrase) :=
  if eqb (p_s p) "" then Ret (Er (errorf "empty roster passphrase"), p)
  else
    let! r := Load in
    Ret match r with Er e => (Er e, p) | Ok r => prove p r targetID end.
Definition untouched_err : err → err := wrapf "safety check failed, roster left untouched".
Definition write_back (data : string) : io rosterE (res unit) :=
  let? _ := atomicWrite data orelse wrapf ("write roster " +:+ path) in Ret (Ok tt).
(** What is written once the passphrase is judged. *)
Definition compose_subtable (data : string) (current : Roster) (targetID subKey : string) (fields : list field)
    (judged : res unit) (pre : Roster → res bool) (post : Roster → res unit) : io rosterE (res unit) :=
  let? _ := Ret judged orelse wrapf ("write " +:+ subKey +:+ " for " +:+ quote targetID) in
  let? skip := Ret (pre current) orelse id in
  if skip : bool then Ret (Ok tt)
  else
    let? newData := Ret (applySubtableSplice parse data targetID subKey fields)
      orelse wrapf ("splice " +:+ subKey +:+ " into target " +:+ quote targetID) in
    let? _ := Ret (verifyOnlyIntendedChange unmarshal parse data newData targetID subKey) orelse untouched_err in
    let? nr := Ret (Decode newData) orelse untouched_err in
    let? _ := Ret (post nr) orelse untouched_err in
    write_back newData.
Definition spliceSubtableIf (targetID subKey : string) (fields : list field) (p : Passphrase)
    (pre : Roster → res bool) (post : Roster → res unit) : io rosterE (res unit * Passphrase) :=
  locked path (λ e, (Er e, p))
    (let! d := read_roster in
     match d with
     | Er e => Ret (Er e, p)
     | Ok data =>
         match Decode data with
         | Er e => Ret (Er (wrapf ("read roster " +:+ path) e), p)
         | Ok current =>
             let '(judged, p') := prove p current targetID in
             let! r := compose_subtable data current targetID subKey fields judged pre post in
             Ret (r, p')
         end
     end).
Definition no_pre (_ : Roster) : res bool := Ok false.
Definition no_post (_ : Roster) : res unit := Ok tt.
Definition spliceSubtable (targetID subKey : string) (fields : list field) (p : Passphrase) : io rosterE (res unit * Passphrase) :=
  spliceSubtableIf targetID subKey fields p no_pre no_post.
(** The passphrase after a write of a secret: it opens what was written. *)
Definition remember_written (r : res unit * Passphrase) (armored plain : string) : res unit * Passphrase :=
  match r with (Ok _, p) => (Ok tt, remember p armored plain) | _ => r end.
Definition WriteTokenAuth (targetID tokenID secret : string) (p : Passphrase) : io rosterE (res unit * Passphrase) :=
  if eqb tokenID "" then Ret (Er (errorf ("write token auth for " +:+ quote targetID +:+ ": token id is required")), p)
  else
    let! enc := trigger (REncrypt secret (p_s p)) in
    match enc with
    | Er e => Ret (Er (wrapf ("encrypt token secret for " +:+ quote targetID) e), p)
    | Ok secretEnc =>
        let! r := spliceSubtable targetID "token" [plain_field "id" tokenID; literal_field "secret_enc" secretEnc] p in
        Ret (remember_written r secretEnc secret)
    end.
Record SSHWrite := { w_User : string; w_PublicKey : string; w_HostKeyFingerprint : string; PrivateKeyPlaintext : string;
                     w_HostKeySource : string }.
Definition ssh_written (targetID : string) (w : SSHWrite) (nr : Roster) : res unit :=
  let lost := errorf ("the ssh auth written for " +:+ quote targetID +:+ " does not read back") in
  match Find nr targetID with
  | Some {| tg_SSH := Some a |} =>
      guard^ eqb (HostKeyFingerprint_ a) (w_HostKeyFingerprint w)
             && (eqb (w_HostKeySource w) "" || eqb (HostKeySource a) (w_HostKeySource w)) orelse lost in Ok tt
  | _ => Er lost
  end.
Definition writeSSHAuth (targetID : string) (w : SSHWrite) (p : Passphrase) (pre : Roster → res bool)
    : io rosterE (res unit * Passphrase) :=
  let what := "write ssh auth for " +:+ quote targetID in
  if eqb (w_User w) "" then Ret (Er (errorf (what +:+ ": user is required")), p)
  else
    match checkHostKeySource (w_HostKeySource w) with
    | Er e => Ret (Er (wrapf what e), p)
    | Ok _ =>
        let! enc := trigger (REncrypt (PrivateKeyPlaintext w) (p_s p)) in
        match enc with
        | Er e => Ret (Er (wrapf ("encrypt ssh private key for " +:+ quote targetID) e), p)
        | Ok keyEnc =>
            let! r := spliceSubtableIf targetID "ssh"
              ([plain_field "user" (w_User w); plain_field "public_key" (w_PublicKey w);
                plain_field "host_key_fingerprint" (w_HostKeyFingerprint w); literal_field "private_key_enc" keyEnc]
               ++ (if eqb (w_HostKeySource w) "" then [] else [plain_field "host_key_source" (w_HostKeySource w)]))
              p pre (ssh_written targetID w) in
            Ret (remember_written r keyEnc (PrivateKeyPlaintext w))
        end
    end.
Definition WriteSSHAuth (targetID : string) (w : SSHWrite) (p : Passphrase) : io rosterE (res unit * Passphrase) :=
  writeSSHAuth targetID w p no_pre.
Definition held_fingerprint (r : Roster) (targetID : string) : string :=
  match Find r targetID with Some {| tg_SSH := Some a |} => HostKeyFingerprint_ a | _ => "" end.
Definition ssh_pin_is (targetID old : string) (current : Roster) : res bool :=
  let held := held_fingerprint current targetID in
  guard^ eqb held old orelse
    Err KText ("replace ssh auth for " +:+ quote targetID +:+ ": " +:+ sentinel_text ErrSSHPinChanged +:+ ": it pins "
      +:+ quote held +:+ ", this write expected " +:+ quote old +:+ "; nothing was written; re-run") [sent ErrSSHPinChanged] in
  Ok false.
Definition ReplaceSSHAuth (targetID oldFingerprint : string) (w : SSHWrite) (p : Passphrase) : io rosterE (res unit * Passphrase) :=
  if eqb oldFingerprint "" then
    Ret (Er (errorf ("replace ssh auth for " +:+ quote targetID
      +:+ ": the expected fingerprint is required (use WriteSSHAuth for a first write)")), p)
  else writeSSHAuth targetID w p (ssh_pin_is targetID oldFingerprint).
Definition held_pin (r : Roster) (targetID : string) : string :=
  match Find r targetID with Some {| TLS := Some a |} => SPKISHA256 a | _ => "" end.
Definition or_no_pin (pin : string) : string := if eqb pin "" then "no pin" else pin.
Definition tls_pin_is (targetID old next : string) (current : Roster) : res bool :=
  let what := "write tls pin for " +:+ quote targetID in
  match Find current targetID with
  | None => Er (errorf (what +:+ ": no such target in roster " +:+ path))
  | Some _ =>
      let held := held_pin current targetID in
      guard^ eqb held old orelse
        Err KText (what +:+ ": " +:+ sentinel_text ErrTLSPinChanged +:+ ": it holds " +:+ or_no_pin held
          +:+ ", this write expected " +:+ or_no_pin old +:+ "; nothing was written; re-run") [sent ErrTLSPinChanged] in
      Ok (eqb held next)
  end.
Definition tls_written (targetID next source : string) (nr : Roster) : res unit :=
  let lost := errorf ("the tls pin written for " +:+ quote targetID +:+ " does not read back as " +:+ next
                +:+ " (source " +:+ source +:+ ")") in
  match Find nr targetID with
  | Some {| TLS := Some a |} => guard^ eqb (SPKISHA256 a) next && eqb (pin_Source a) source orelse lost in Ok tt
  | _ => Er lost
  end.
Definition WriteTLSPin (targetID old next source : string) (p : Passphrase) : io rosterE (res unit * Passphrase) :=
  let what := "write tls pin for " +:+ quote targetID in
  match Parse next, ParseSource source, (if eqb old "" then Ok old else Parse old) with
  | Er e, _, _ => Ret (Er (wrapf what e), p)
  | _, Er e, _ => Ret (Er (wrapf what e), p)
  | _, _, Er e => Ret (Er (wrapf (what +:+ ": the expected pin") e), p)
  | Ok _, Ok _, Ok _ =>
      spliceSubtableIf targetID "tls" [plain_field "spki_sha256" next; plain_field "source" source] p
        (tls_pin_is targetID old next) (tls_written targetID next source)
  end.

(** ** Targets *)
Fixpoint exists_id (id : string) (bs : list targetBlock) : bool :=
  match bs with [] => false | b :: bs' => eqb (b_id b) id || exists_id id bs' end.
Definition check_append (t : Target) : res unit :=
  let what := "append target " +:+ quote (tg_ID t) in
  guard^ negb (eqb (tg_ID t) "") orelse errorf "append target: id is required" in
  let^ _ := ValidateTargetID (tg_ID t) orelse wrapf "append target" in
  guard^ negb (eqb (tg_Host t) "") orelse errorf (what +:+ ": host is required") in
  guard^ negb (eqb (tg_Node t) "") orelse errorf (what +:+ ": node is required") in
  guard^ bool_decide (Token t = None ∧ tg_SSH t = None) orelse
    errorf (what +:+ ": must not carry auth subtables; use WriteTokenAuth/WriteSSHAuth after appending") in
  guard^ bool_decide (TLS t = None) orelse
    errorf (what +:+ ": must not carry a TLS pin; use WriteTLSPin after appending") in
  guard^ eqb (Export_ t) "" orelse errorf (what +:+ ": export is set only by editing the roster by hand") in
  Ok tt.
Definition AppendTarget (t : Target) : io rosterE (res unit) :=
  let what := "append target " +:+ quote (tg_ID t) in
  let? _ := Ret (check_append t) orelse id in
  locked path Er
    (let? data := read_roster orelse id in
     let? blocks := Ret (findTargetBlocks parse data) orelse wrapf what in
     guard negb (exists_id (tg_ID t) blocks) orelse errorf (what +:+ ": a target with this id already exists") in
     let newData := appendTargetBlock data t in
     let? _ := Ret (verifyAppendOnly unmarshal parse data newData (tg_ID t)) orelse untouched_err in
     write_back newData).
Record TargetMeta := { m_Host : string; m_Node : string; m_APIPort : Z; m_InsecureTLS : bool }.
Definition meta_fields (current : Target) (m : TargetMeta) : list field :=
  (if eqb (tg_Host current) (m_Host m) then [] else [plain_field "host" (m_Host m)])
  ++ (if eqb (tg_Node current) (m_Node m) then [] else [plain_field "node" (m_Node m)])
  ++ (if (tg_APIPort current =? m_APIPort m)%Z then [] else [raw_field "api_port" (itoa (m_APIPort m))])
  ++ (if Bool.eqb (tg_InsecureTLS current) (m_InsecureTLS m) then []
      else [raw_field "insecure_tls" (if m_InsecureTLS m then "true" else "false")]).
Definition UpdateTargetFields (targetID : string) (m : TargetMeta) : io rosterE (res unit) :=
  let what := "update target fields for " +:+ quote targetID in
  locked path Er
    (let? data := read_roster orelse id in
     let? r := Ret (Decode data) orelse wrapf what in
     match Find r targetID with
     | None => Ret (Er (errorf (what +:+ ": no such target in roster " +:+ path)))
     | Some current =>
         match meta_fields current m with
         | [] => Ret (Ok tt)
         | fields =>
             let? newData := Ret (applyTargetFieldsSplice parse data targetID fields) orelse wrapf what in
             let? _ := Ret (verifyOnlyTargetFieldsChanged unmarshal parse data newData targetID) orelse untouched_err in
             write_back newData
         end
     end).

(** ** The token cleared, and the dry run of a token write (tokenclear.go) *)
Definition composeClearToken (data targetID : string) : res string :=
  let^ newData := applyClearToken parse data targetID orelse wrapf ("clear token of target " +:+ quote targetID) in
  let^ _ := verifyOnlyIntendedChange unmarshal parse data newData targetID "token" orelse untouched_err in
  let^ r := Decode newData orelse untouched_err in
  match Find r targetID with
  | Some {| Token := None |} => Ok newData
  | _ => Er (errorf ("safety check failed, roster left untouched: target " +:+ quote targetID +:+ " still has a token after the clear"))
  end.
Definition ClearTokenAuth (targetID : string) : io rosterE (res unit) :=
  locked path Er
    (let? data := read_roster orelse id in
     let? newData := Ret (composeClearToken data targetID) orelse id in
     if eqb data newData then Ret (Ok tt) else write_back newData).
Definition dryRunPlaceholderTokenID : string := "pveforge-dry-run@pam!dry-run".
Definition dryRunPlaceholderSecretEnc : string :=
  sconcat ((λ l, l +:+ newline) <$>
    ["-----BEGIN AGE ENCRYPTED FILE-----"; "YWdlLWVuY3J5cHRpb24ub3JnL3YxCi0+IHNjcnlwdCBkcnlydW5kcnlydW5kcnly";
     "dW5kcnlydW5kcnlydW5kcnlydW5kcnlydW5kcnlydW5kcnlydW5kcnlydW5kcnly";
     "dW5kcnlydW5kcnlydW5kcnlydW5kcnlydW5kcnlydW5kcnlydW5kcnlydW5kcnly"; "ZHJ5cnVu"; "-----END AGE ENCRYPTED FILE-----"]).
Definition composeTokenWrite (data targetID : string) : res string :=
  let^ newData := applySubtableSplice parse data targetID "token"
    [plain_field "id" dryRunPlaceholderTokenID; literal_field "secret_enc" dryRunPlaceholderSecretEnc]
    orelse wrapf ("splice token into target " +:+ quote targetID) in
  let^ _ := verifyOnlyIntendedChange unmarshal parse data newData targetID "token" orelse wrapf "safety check failed" in
  let^ r := Decode newData orelse wrapf "safety check failed" in
  let lost := errorf ("safety check failed: the rehearsed token write did not land on target " +:+ quote targetID) in
  match Find r targetID with
  | Some {| Token := Some t |} => guard^ eqb (ta_ID t) dryRunPlaceholderTokenID orelse lost in Ok newData
  | _ => Er lost
  end.
Definition DryRunTokenWrite (targetID : string) : io rosterE (res unit) :=
  let? data := trigger RRead orelse wrapf ("roster dry run: read " +:+ path) in
  let? _ := Ret (composeTokenWrite data targetID) orelse wrapf "roster dry run (write-alone)" in
  let clear := wrapf "roster dry run (clear-then-write)" in
  let? cleared := Ret (composeClearToken data targetID) orelse clear in
  let? _ := Ret (composeTokenWrite cleared targetID) orelse clear in
  let? _ := ProbeRosterDir orelse wrapf "roster dry run" in
  Ret (Ok tt).

(** ** Rekey (rekey.go) *)
Record sealed := { s_plain : string; newEnc : string }.
(** By target and key. *)
Local Notation secrets_t := (gmap (string * string) sealed).
Definition key_of (what : string) : string := if eqb what "ssh private key" then "private_key_enc" else "secret_enc".
(** The secrets that open with [old], those it is wrong for and those that cannot be read. *)
Fixpoint open_secrets (old : string) (refs : list secretRef) (acc : secrets_t * list string * list string)
    : secrets_t * list string * list string :=
  match refs with
  | [] => acc
  | s :: refs' =>
      let '(secrets, wrong, unreadable) := acc in
      let what := "the " +:+ sr_what s +:+ " of target " +:+ sr_target s in
      open_secrets old refs'
        match DecryptString (armored s) old with
        | Ok out => (<[(sr_target s, key_of (sr_what s)) := {| s_plain := out; newEnc := "" |}]> secrets, wrong, unreadable)
        | Er e =>
            if errors_Is ErrIncorrectIdentity e then (secrets, wrong ++ [what], unreadable)
            else (secrets, wrong, unreadable ++ [what +:+ ": " +:+ Error e])
        end
  end.
(** The re-encryption of one block's secrets. *)
Fixpoint rekey_subs (data next : string) (b : targetBlock) (subs : list (string * string))
    (acc : secrets_t * list edit * bool) : io rosterE (res (secrets_t * list edit * bool)) :=
  match subs with
  | [] => Ret (Ok acc)
  | (table, k) :: subs' =>
      let '(secrets, edits, touched) := acc in
      match secrets !! (b_id b, k) with
      | None => rekey_subs data next b subs' acc
      | Some s =>
          let what := "target " +:+ b_id b +:+ ": cannot locate its " in
          match findSubtable parse data b table with
          | None => Ret (Er (errorf (what +:+ "[targets." +:+ table +:+ "] table to rewrite (nothing was changed)")))
          | Some span =>
              match findSubtableFields parse data span !! k with
              | None => Ret (Er (errorf (what +:+ k +:+ " to rewrite (nothing was changed)")))
              | Some (off, len) =>
                  let? enc := trigger (REncrypt (s_plain s) next) orelse wrapf ("encrypt the " +:+ k +:+ " of target " +:+ b_id b) in
                  rekey_subs data next b subs'
                    (<[(b_id b, k) := {| s_plain := s_plain s; newEnc := enc |}]> secrets,
                     edits ++ [{| Start := off; End_ := off + len; Replacement := renderValue (literal_field k enc) |}], true)
              end
          end
      end
  end.
Definition rekey_tables : list (string * string) := [("token", "secret_enc"); ("ssh", "private_key_enc")].
Fixpoint rekey_blocks (data next : string) (bs : list targetBlock) (secrets : secrets_t) (edits : list edit) (targets : nat)
    : io rosterE (res (secrets_t * list edit * nat)) :=
  match bs with
  | [] => Ret (Ok (secrets, edits, targets))
  | b :: bs' =>
      let? acc := rekey_subs data next b rekey_tables (secrets, edits, false) orelse id in
      let '(secrets, edits, touched) := acc in
      rekey_blocks data next bs' secrets edits (if touched then S targets else targets)
  end.
(** [before] and [after] of one secret. *)
Definition check_cipher (secrets : secrets_t) (next i k before after : string) : res unit :=
  let what := "target " +:+ i +:+ ": " in
  guard^ Bool.eqb (eqb before "") (eqb after "") orelse errorf (what +:+ k +:+ " appeared or vanished") in
  if eqb before "" then Ok tt
  else
    let s := default {| s_plain := ""; newEnc := "" |} (secrets !! (i, k)) in
    guard^ eqb after (newEnc s) && negb (eqb after before) orelse
      errorf (what +:+ k +:+ " is not the ciphertext composed for it") in
    let^ got := DecryptString after next orelse
      wrapf (what +:+ "the new " +:+ k +:+ " does not open with the new passphrase") in
    guard^ eqb got (s_plain s) orelse errorf (what +:+ "the new " +:+ k +:+ " does not hold the old plaintext") in
    Ok tt.
Definition blank_token (t : TokenAuth) : TokenAuth := {| ta_ID := ta_ID t; SecretEnc := "" |}.
Definition blank_ssh (a : SSHAuth) : SSHAuth :=
  {| ssh_User := ssh_User a; PublicKey := PublicKey a; HostKeyFingerprint_ := HostKeyFingerprint_ a; PrivateKeyEnc := "";
     HostKeySource := HostKeySource a |}.
Definition with_auth (t : Target) (tok : option TokenAuth) (ssh : option SSHAuth) : Target :=
  {| tg_ID := tg_ID t; tg_Host := tg_Host t; tg_Node := tg_Node t; tg_APIPort := tg_APIPort t; tg_InsecureTLS := tg_InsecureTLS t;
     Export_ := Export_ t; Token := tok; tg_SSH := ssh; TLS := TLS t |}.
Definition verify_rekeyed (secrets : secrets_t) (next : string) (a b : Target) : res unit :=
  let^ toks := match Token a, Token b with
    | Some x, Some y =>
        let^ _ := check_cipher secrets next (tg_ID a) "secret_enc" (SecretEnc x) (SecretEnc y) orelse id in
        Ok (Some (blank_token x), Some (blank_token y))
    | x, y => Ok (x, y)
    end orelse id in
  let^ sshs := match tg_SSH a, tg_SSH b with
    | Some x, Some y =>
        let^ _ := check_cipher secrets next (tg_ID a) "private_key_enc" (PrivateKeyEnc x) (PrivateKeyEnc y) orelse id in
        Ok (Some (blank_ssh x), Some (blank_ssh y))
    | x, y => Ok (x, y)
    end orelse id in
  guard^ targetDeepEqual (with_auth a toks.1 sshs.1) (with_auth b toks.2 sshs.2) orelse
    errorf ("target " +:+ tg_ID a +:+ ": a field other than its ciphertexts changed") in
  Ok tt.
Fixpoint verify_all_rekeyed (secrets : secrets_t) (next : string) (current nr : Roster) : res unit :=
  match current, nr with
  | a :: current', b :: nr' =>
      let^ _ := verify_rekeyed secrets next a b orelse id in verify_all_rekeyed secrets next current' nr'
  | _, _ => Ok tt
  end.
Definition verifyRekey (current : Roster) (newData next : string) (secrets : secrets_t) : res unit :=
  let^ nr := Decode newData orelse id in
  guard^ bool_decide (length nr = length current) orelse
    errorf (itoa (Z.of_nat (length nr)) +:+ " targets after, " +:+ itoa (Z.of_nat (length current)) +:+ " before") in
  verify_all_rekeyed secrets next current nr.
(** How many secrets were re-encrypted, and over how many targets. *)
Record RekeyResult := { Secrets : nat; Targets : nat }.
Definition rekeySecrets (data : string) (current : Roster) (old next : string) : io rosterE (res (string * RekeyResult)) :=
  let refs := secretsInProofOrder current "" in
  let total := length refs in
  let count n := itoa (Z.of_nat n) in
  let '(secrets, wrong, unreadable) := open_secrets old refs (∅, [], []) in
  guard negb (total =? 0) orelse sent ErrNothingToRekey in
  guard negb ((size secrets =? 0) && bool_decide (unreadable = [])) orelse
    wrap_pre (sent ErrWrongPassphrase) ("it opens none of the roster's " +:+ count total +:+ " secret(s); check "
      +:+ PassphraseEnvVar +:+ " (nothing was changed)") in
  guard negb (size secrets =? 0) orelse
    wrap_pre (sent ErrNoReadableSecret) ("the roster holds " +:+ count total
      +:+ " secret(s) and this pveforge can open none of them (nothing was changed): " +:+ Join "; " unreadable) in
  guard (length wrong + length unreadable =? 0) orelse
    wrap_pre (sent ErrPartlyReadable) (count (size secrets) +:+ " of " +:+ count total +:+ " open, and these do not: "
      +:+ Join "; " (wrong ++ unreadable) +:+ " (nothing was changed)") in
  let? blocks := Ret (findTargetBlocks parse data) orelse id in
  let? acc := rekey_blocks data next blocks secrets [] 0 orelse id in
  let '(secrets, edits, targets) := acc in
  guard (length edits =? size secrets) orelse
    errorf ("safety check failed, roster left untouched: located " +:+ count (length edits) +:+ " of " +:+ count (size secrets)
      +:+ " secret(s) to rewrite") in
  let? newData := Ret (applyEdits data edits) orelse id in
  let? _ := Ret (verifyRekey current newData next secrets) orelse untouched_err in
  Ret (Ok (newData, {| Secrets := size secrets; Targets := targets |})).
(** [sha256.Sum256]. *)
Context (sha256 : string → string).
Definition rekey_locked (old next : string) : io rosterE (res RekeyResult) :=
  let? data := read_roster orelse id in
  let? current := Ret (Decode data) orelse wrapf ("read roster " +:+ path) in
  let? composed := rekeySecrets data current old next orelse id in
  let? now := read_roster orelse id in
  guard eqb (sha256 now) (sha256 data) orelse
    Err KText (sentinel_text ErrRosterChanged +:+ "; nothing was written: re-run") [sent ErrRosterChanged] in
  let? _ := atomicWrite composed.1 orelse wrapf ("write roster " +:+ path +:+ " (the old file is unchanged)") in
  Ret (Ok composed.2).
(** A lock wait that runs out is a lock not taken, as for the other writers. *)
Definition lock_wait (l : res bool) : res bool :=
  match l with Er e => if errors_Is DeadlineExceeded e then Ok false else Er e | Ok b => Ok b end.
Definition Rekey (old next : string) : io rosterE (res RekeyResult) :=
  guard negb (eqb old "" || eqb next "") orelse errorf "empty roster passphrase" in
  guard negb (eqb old next) orelse sent ErrSameNewPassphrase in
  locked_as lock_wait path Er (rekey_locked old next).
Definition CheckRekey (old : string) : io rosterE (res unit) :=
  let? r := Load orelse id in
  Ret (if bool_decide (secretsInProofOrder r "" = []) then Er (sent ErrNothingToRekey)
       else (prove (NewPassphrase old) r "").1).
End age.
