(* ===== verification/RosterSafe.v ===== *)
(** internal/roster: what every writer guarantees of the roster file, also when it is cut
    short, and what a proof of the passphrase and a rekey mean. *)
From Stdlib Require Import Ascii.
From S2P Require Import Prelude GoLib Errors Json Utf8 KvJson Roster Splice RosterWrite.

(** * Specification *)
(** The temporary files: what each holds, unknown after a failed write, and whether it was
    synced since. *)
Local Notation temps := (gmap string (option string * bool)).
Definition file_step (ev : event rosterE) (T : temps) : temps :=
  match ev with
  | @Ev _ _ RCreateTemp r => match r with Ok t => <[t := (Some "", false)]> T | Er _ => T end
  | @Ev _ _ (RWriteTemp t d) r =>
      match r with
      | Ok _ => <[t := ((λ c, c +:+ d) <$> (default (None, false) (T !! t)).1, false)]> T
      | Er _ => <[t := (None, false)]> T
      end
  | @Ev _ _ (RSyncTemp t) r => match r with Ok _ => <[t := ((default (None, false) (T !! t)).1, true)]> T | Er _ => T end
  | @Ev _ _ (RRename t) r => match r with Ok _ => delete t T | Er _ => T end
  | @Ev _ _ (RRemove t) _ => delete t T
  | _ => T
  end.
(** What each successful rename made the roster, in order: the text of the temporary file, if
    it was written whole and synced. *)
Fixpoint renames (T : temps) (tr : list (event rosterE)) : list (option string) :=
  match tr with
  | [] => []
  | ev :: tr' =>
      match ev with
      | @Ev _ _ (RRename t) (Ok _) =>
          [match T !! t with Some (Some c, true) => Some c | _ => None end] ++ renames (file_step ev T) tr'
      | _ => renames (file_step ev T) tr'
      end
  end.
(** The roster's text after a trace, from the text [old]; [None] if it may be torn. *)
Definition content (old : string) (tr : list (event rosterE)) : option string :=
  default (Some old) (last (renames ∅ tr)).
(** The roster is never replaced; or once, by [new]. *)
Definition kept (tr : list (event rosterE)) : Prop := ∀ T, renames T tr = [].
Definition replaced_by (new : string) (tr : list (event rosterE)) : Prop := ∀ T, renames T tr = [Some new].
(** The roster was read as [data] before anything was made of it. *)
Definition read_first (data : string) (tr : list (event rosterE)) : Prop :=
  ∃ pre post, tr = pre ++ Ev RRead (Ok data) :: post ∧ kept pre.
(** An event that concerns no temporary file. *)
Definition calm (ev : event rosterE) : Prop :=
  match ev with
  | @Ev _ _ RLock _ | @Ev _ _ RUnlock _ | @Ev _ _ RRead _ | @Ev _ _ (REncrypt _ _) _ => True
  | _ => False
  end.

(** * Lemmas *)
Lemma renames_calm tr tr' T : Forall calm tr → renames T (tr ++ tr') = renames T tr'.
Proof. induction 1 as [|[R e r] tr He _ IH]; [done|]. cbn [app renames]. by destruct e. Qed.
Lemma renames_app tr tr' T : renames T (tr ++ tr') = renames T tr ++ renames (fold_left (λ T ev, file_step ev T) tr T) tr'.
Proof.
  revert T. induction tr as [|[R e r] tr IH]; intros T; [done|]. cbn [app renames fold_left].
  destruct e; rewrite IH; try done. by destruct r.
Qed.
Lemma kept_app tr tr' : kept tr → kept tr' → kept (tr ++ tr').
Proof. intros H H' T. by rewrite renames_app, H, H'. Qed.
Lemma replaced_app_l new tr tr' : kept tr → replaced_by new tr' → replaced_by new (tr ++ tr').
Proof. intros H H' T. by rewrite renames_app, H, H'. Qed.
Lemma replaced_app_r new tr tr' : replaced_by new tr → kept tr' → replaced_by new (tr ++ tr').
Proof. intros H H' T. by rewrite renames_app, H, H'. Qed.
Lemma kept_calm tr : Forall calm tr → kept tr.
Proof. intros H T. rewrite <- (app_nil_r tr). by rewrite renames_calm. Qed.
Lemma read_first_app_r data tr tr' : read_first data tr → read_first data (tr ++ tr').
Proof. intros (pre & post & -> & Hk). exists pre, (post ++ tr'). by rewrite <- app_assoc. Qed.
Lemma read_first_app_l data tr tr' : kept tr → read_first data tr' → read_first data (tr ++ tr').
Proof. intros Hk (pre & post & -> & Hk'). exists (tr ++ pre), post. rewrite <- app_assoc. split; [done|by apply kept_app]. Qed.
(** A crash, that is a prefix of the run, leaves the old text or the new one. *)
Lemma kept_prefix old tr pre post : kept tr → tr = pre ++ post → content old pre = Some old.
Proof. intros H ->. specialize (H ∅). rewrite renames_app in H. unfold content. by apply app_eq_nil in H as [-> _]. Qed.
Lemma replaced_prefix old new tr pre post :
  replaced_by new tr → tr = pre ++ post → content old pre = Some old ∨ content old pre = Some new.
Proof.
  intros H ->. unfold content. specialize (H ∅). rewrite renames_app in H.
  destruct (renames ∅ pre) as [|c l]; [by left|]. injection H as -> [-> _]%app_eq_nil. by right.
Qed.
Lemma write_temp_spec tmp data :
  always (write_temp tmp data) (λ tr r, ∀ T, T !! tmp = Some (Some "", false) →
    renames T tr = match r with Ok _ => [Some data] | Er _ => [] end).
Proof.
  unfold write_temp. cbn [bind trigger always]. intros [?|e]; cbn [bind trigger always]; [|done].
  intros [?|e]; cbn [bind trigger always]; [|done]. intros [?|e]; cbn [bind trigger always]; [|done].
  intros info. cbn [bind trigger always]. intros [?|e]; cbn [bind trigger always]; [|done].
  intros [?|e]; cbn [always renames file_step]; intros T HT; [|done]. by rewrite !lookup_insert_eq, HT.
Qed.
Lemma atomicWrite_spec data :
  always (atomicWrite data) (λ tr r, match r with Ok _ => replaced_by data tr | Er _ => kept tr end).
Proof.
  unfold atomicWrite. apply always_bind. cbn [always trigger]. intros [tmp|e]; [|by intros T].
  apply always_bind.
  eapply always_mono; [|apply write_temp_spec]. intros tr r H. cbn [bind trigger always]. intros q. cbn [always].
  destruct r as [?|e]; intros T; cbn [renames app file_step]; rewrite renames_app; cbn [renames];
    (rewrite H; [done|by rewrite lookup_insert_eq]).
Qed.

(** ** The lock *)
(** A question asked while the lock is held. *)
Definition held_lock (R : Type) (e : rosterE R) : Prop :=
  match e with RLock | RUnlock => False | _ => True end.
Definition is_lock_free (ev : event rosterE) : Prop := match ev with Ev e _ => held_lock _ e end.
Definition is_encrypt (ev : event rosterE) : Prop := match ev with @Ev _ _ (REncrypt _ _) _ => True | _ => False end.
(** Everything but an encryption lies between the lock's taking and its release, and the
    lock, once taken, is released last. *)
Definition guarded (tr : list (event rosterE)) : Prop :=
  ∃ pre rest, tr = pre ++ rest ∧ Forall is_encrypt pre ∧
    (rest = [] ∨ (∃ l, rest = [Ev RLock l] ∧ l ≠ Ok true) ∨
     ∃ mid, rest = Ev RLock (Ok true) :: mid ++ [Ev RUnlock tt] ∧ Forall is_lock_free mid).
Lemma locked_as_spec {A} wait path (fail : err → A) body (Q : list (event rosterE) → A → Prop) :
  (∀ l, wait l = Ok true ↔ l = Ok true) → always body Q → asks held_lock body →
  always (locked_as wait path fail body) (λ tr a, guarded tr ∧
    ((∃ l e, tr = [Ev RLock l] ∧ a = fail e) ∨ ∃ mid, tr = [Ev RLock (Ok true)] ++ mid ++ [Ev RUnlock tt] ∧ Q mid a)).
Proof.
  intros Hwait HQ Hlock. unfold locked_as. apply always_bind. cbn [always trigger]. intros l. specialize (Hwait l).
  destruct (wait l) as [[]|e] eqn:Hl.
  2, 3: cbn [always]; (split; [|left; by do 2 eexists]); eexists [], _; (split_and!; [done|constructor|]);
    right; left; exists l; (split; [done|]); intros Ht%Hwait; congruence.
  destruct Hwait as [Hwait _]. rewrite (Hwait eq_refl).
  apply always_bind. eapply always_mono; [|exact (always_and _ _ _ HQ (asks_always _ _ Hlock))].
  intros mid a [Ha Hfree]. cbn [bind trigger always]. intros []. cbn [always]. split.
  - exists [], ([Ev RLock (Ok true)] ++ mid ++ [Ev RUnlock tt]). split_and!; [done|constructor|]. right. right. by exists mid.
  - right. by exists mid.
Qed.
Lemma roster_locked_spec {A} path (fail : err → A) body (Q : list (event rosterE) → A → Prop) :
  always body Q → asks held_lock body →
  always (locked path fail body) (λ tr a, guarded tr ∧
    ((∃ l e, tr = [Ev RLock l] ∧ a = fail e) ∨ ∃ mid, tr = [Ev RLock (Ok true)] ++ mid ++ [Ev RUnlock tt] ∧ Q mid a)).
Proof. by apply locked_as_spec. Qed.
Lemma guarded_encrypt plain pass r tr : guarded tr → guarded (Ev (REncrypt plain pass) r :: tr).
Proof. intros (pre & rest & -> & Hpre & H). exists (Ev (REncrypt plain pass) r :: pre), rest. split_and!; [done|by constructor|done]. Qed.
Lemma guarded_nil : guarded [].
Proof. exists [], []. split_and!; [done|constructor|by left]. Qed.
Lemma kept_lock l : kept [Ev RLock l].
Proof. by intros T. Qed.
Lemma kept_locked mid : kept mid → kept ([Ev RLock (Ok true)] ++ mid ++ [Ev RUnlock tt]).
Proof. intros H. apply kept_app; [done|]. by apply kept_app. Qed.
Lemma replaced_locked new mid : replaced_by new mid → replaced_by new ([Ev RLock (Ok true)] ++ mid ++ [Ev RUnlock tt]).
Proof. intros H. apply replaced_app_l; [done|]. by apply replaced_app_r. Qed.
Lemma atomicWrite_asks data : asks held_lock (atomicWrite data).
Proof. unfold atomicWrite, write_temp. asks. Qed.

Section writers.
Context (NewScryptIdentity : string → option err) (age_Decrypt : string → string → res (res string)).
Context (unmarshal : string → res Roster) (parse : string → list expr * option err) (path : string).
Local Notation Decode := (Decode unmarshal parse).
Local Notation prove := (prove NewScryptIdentity age_Decrypt).
Lemma read_roster_spec :
  always (read_roster path) (λ tr r, kept tr ∧ ∀ data, r = Ok data → read_first data tr).
Proof.
  unfold read_roster. cbn [bind trigger always]. intros [d|e]; cbn [always]; split; try by intros T.
  intros data [= <-]. by exists [], [].
Qed.
Lemma read_roster_asks : asks held_lock (read_roster path).
Proof. unfold read_roster. asks. Qed.
Lemma write_back_spec data :
  always (write_back path data) (λ tr r, match r with Ok _ => replaced_by data tr | Er _ => kept tr end).
Proof.
  unfold write_back. apply always_bind. eapply always_mono; [|apply atomicWrite_spec].
  intros tr [?|e] H; cbn [always]; by rewrite app_nil_r.
Qed.
Lemma write_back_asks data : asks held_lock (write_back path data).
Proof. unfold write_back. apply asks_bind; [apply atomicWrite_asks|]. intros [?|?]; exact I. Qed.
(** ** A subtable's write *)
(** The roster [cur] read as [data], [new] what it was replaced by. *)
Definition subtable_written (targetID subKey : string) (post : Roster → res unit) (cur : Roster) (new : string) : Prop :=
  ∃ nr, Decode new = Ok nr ∧ only_differs_in targetID subKey cur nr ∧ post nr = Ok tt.
Lemma compose_subtable_spec data cur targetID subKey fields judged pre post :
  Decode data = Ok cur →
  always (compose_subtable unmarshal parse path data cur targetID subKey fields judged pre post) (λ tr r,
    match r with
    | Er _ => kept tr
    | Ok _ => judged = Ok tt ∧ (pre cur = Ok true ∧ kept tr ∨
                pre cur = Ok false ∧ ∃ new, subtable_written targetID subKey post cur new ∧ replaced_by new tr)
    end).
Proof.
  intros Hcur. unfold compose_subtable. cbn [bind]. destruct judged as [[]|e]; cbn [always]; [|by intros T].
  cbn [bind]. destruct (pre cur) as [[]|e]; cbn [always]; [by (split; [done|left])| |by intros T].
  cbn [bind]. destruct (applySubtableSplice _ _ _ _ _) as [new|e]; cbn [always]; [|by intros T]. cbn [bind].
  destruct (verifyOnlyIntendedChange _ _ _ _ _ _) as [[]|e] eqn:Hv; cbn [always]; [|by intros T]. cbn [bind].
  apply verifyOnlyIntendedChange_iff in Hv as (cur' & nr & Hc & Hn & Hd). rewrite Hcur in Hc. injection Hc as <-.
  rewrite Hn. cbn [bind]. destruct (post nr) as [[]|e] eqn:Hp; cbn [always]; [|by intros T].
  eapply always_mono; [|apply write_back_spec]. intros tr [[]|e]; [|done]. intros Hr. split; [done|]. right. split; [done|].
  exists new. split; [by exists nr|done].
Qed.
Lemma compose_subtable_asks data cur targetID subKey fields judged pre post :
  asks held_lock (compose_subtable unmarshal parse path data cur targetID subKey fields judged pre post).
Proof.
  unfold compose_subtable. cbn [bind]. destruct judged; [|exact I]. cbn [bind]. destruct (pre cur) as [[]|]; [exact I| |exact I].
  cbn [bind]. destruct (applySubtableSplice _ _ _ _ _); [|exact I]. cbn [bind].
  destruct (verifyOnlyIntendedChange _ _ _ _ _ _); [|exact I]. cbn [bind]. destruct (Roster.Decode _ _ _); [|exact I]. cbn [bind].
  destruct (post _); [|exact I]. apply write_back_asks.
Qed.
(** What became of the roster: left as it is, or replaced by a text that decodes to [nr]. *)
Definition became (tr : list (event rosterE)) (out : option Roster) : Prop :=
  match out with None => kept tr | Some nr => ∃ new, Decode new = Ok nr ∧ replaced_by new tr end.
(** What a write that returns without an error did: it read the roster, and what became of it
    is what [good] relates to that roster. After an error the roster is as it was. *)
Definition written (good : Roster → option Roster → Prop) (ok : bool) (tr : list (event rosterE)) : Prop :=
  if ok then ∃ data cur out, read_first data tr ∧ Decode data = Ok cur ∧ good cur out ∧ became tr out
  else kept tr.
Lemma became_app_l tr tr' out : kept tr → became tr' out → became (tr ++ tr') out.
Proof. destruct out; [|apply kept_app]. intros Hk (new & ? & ?). exists new. split; [done|by apply replaced_app_l]. Qed.
Lemma became_app_r tr tr' out : became tr out → kept tr' → became (tr ++ tr') out.
Proof. destruct out; [|apply kept_app]. intros (new & ? & ?) Hk. exists new. split; [done|by apply replaced_app_r]. Qed.
Lemma became_locked mid out : became mid out → became ([Ev RLock (Ok true)] ++ mid ++ [Ev RUnlock tt]) out.
Proof. intros H. apply became_app_l; [done|]. by apply became_app_r. Qed.
Lemma written_locked good ok mid :
  written good ok mid → written good ok ([Ev RLock (Ok true)] ++ mid ++ [Ev RUnlock tt]).
Proof.
  unfold written. destruct ok; [|apply kept_locked]. intros (data & cur & out & Hin & ? & ? & Hb).
  exists data, cur, out. split_and!; [by apply (read_first_app_l _ [_]), read_first_app_r|done..|by apply became_locked].
Qed.
Lemma written_mono (good good' : Roster → option Roster → Prop) ok tr :
  (∀ a b, good a b → good' a b) → written good ok tr → written good' ok tr.
Proof. intros Hg. unfold written. destruct ok; [|done]. intros (d & c & o & ? & ? & ? & ?). exists d, c, o. eauto. Qed.
Definition subtable_good (targetID subKey : string) (pre : Roster → res bool) (post : Roster → res unit)
    (cur : Roster) (out : option Roster) : Prop :=
  match out with
  | None => pre cur = Ok true
  | Some nr => only_differs_in targetID subKey cur nr ∧ pre cur = Ok false ∧ post nr = Ok tt
  end.
Lemma splice_spec targetID subKey fields p pre post :
  always (spliceSubtableIf NewScryptIdentity age_Decrypt unmarshal parse path targetID subKey fields p pre post) (λ tr r,
    guarded tr ∧ written (subtable_good targetID subKey pre post) (is_ok r.1) tr).
Proof.
  unfold spliceSubtableIf. eapply always_mono; [|apply roster_locked_spec with (Q := λ tr r, written (subtable_good targetID subKey pre post) (is_ok r.1) tr)].
  - intros tr r [Hg [(l & e & -> & ->)|(mid & -> & Hw)]]; (split; [done|]); [by apply kept_lock|by apply written_locked].
  - eapply always_call; [apply read_roster_spec|]. intros tr [data|e] [Hk Hd]; cbn [always]; [|by rewrite app_nil_r].
    destruct (Decode data) as [cur|e] eqn:Hcur; cbn [always]; [|by rewrite app_nil_r].
    destruct (prove p cur targetID) as [judged p']. eapply always_call; [by apply compose_subtable_spec|].
    intros tr' [?|e] Hres; cbn [always fst is_ok]; rewrite app_nil_r; [|by apply kept_app].
    assert (read_first data (tr ++ tr')) as Hin by (apply read_first_app_r; by apply Hd).
    destruct Hres as [_ [[Hpre Hk']|(Hpre & new & (nr & Hn & Hdiff & Hpost) & Hr)]].
    + exists data, cur, None. split_and!; [done..|by apply kept_app].
    + exists data, cur, (Some nr). split_and!; [done..|]. apply became_app_l; [done|by exists new].
  - apply asks_bind; [apply read_roster_asks|]. intros [data|e]; [|exact I]. destruct (Roster.Decode _ _ _) as [cur|]; [|exact I].
    destruct (RosterWrite.prove _ _ _ _ _). apply asks_bind; [apply compose_subtable_asks|]. intros ?. exact I.
Qed.
(** A write whose secret is encrypted first. *)
Lemma encrypted_spec {A} plain pass (k : res string → io rosterE (res unit * A)) good :
  (∀ e, ∃ e' a, k (Er e) = Ret (Er e', a)) →
  (∀ c, always (k (Ok c)) (λ tr r, guarded tr ∧ written good (is_ok r.1) tr)) →
  always (let! enc := trigger (REncrypt plain pass) in k enc) (λ tr r, guarded tr ∧ written good (is_ok r.1) tr).
Proof.
  intros He Hk. cbn [bind trigger always]. intros [c|e].
  - eapply always_mono; [|apply Hk]. intros tr r [Hg Hw]. split; [by apply guarded_encrypt|].
    assert (kept [Ev (REncrypt plain pass) (Ok c)]) as Hcalm by (apply kept_calm; by repeat constructor).
    unfold written in *. destruct (is_ok r.1); [|by apply (kept_app [_])].
    destruct Hw as (data & cur & out & Hin & ? & ? & Hb).
    exists data, cur, out. split_and!; [by apply (read_first_app_l _ [_])|done..|by apply (became_app_l [_])].
  - destruct (He e) as (e' & a & ->). cbn [always]. split; [apply guarded_encrypt, guarded_nil|]. by intros T.
Qed.

(** ** Every writer *)
Inductive writer :=
| WToken (tokenID secret : string)
| WSSH (w : SSHWrite)
| WReplaceSSH (old : string) (w : SSHWrite)
| WTLS (old next source : string)
| WClear
| WUpdate (m : TargetMeta)
| WAppend (t : Target).
Definition no_proof (p : Passphrase) (m : io rosterE (res unit)) : io rosterE (res unit * Passphrase) :=
  let! r := m in Ret (r, p).
Definition run_writer (targetID : string) (w : writer) (p : Passphrase) : io rosterE (res unit * Passphrase) :=
  match w with
  | WToken i secret => WriteTokenAuth NewScryptIdentity age_Decrypt unmarshal parse path targetID i secret p
  | WSSH w => WriteSSHAuth NewScryptIdentity age_Decrypt unmarshal parse path targetID w p
  | WReplaceSSH old w => ReplaceSSHAuth NewScryptIdentity age_Decrypt unmarshal parse path targetID old w p
  | WTLS old next source => WriteTLSPin NewScryptIdentity age_Decrypt unmarshal parse path targetID old next source p
  | WClear => no_proof p (ClearTokenAuth unmarshal parse path targetID)
  | WUpdate m => no_proof p (UpdateTargetFields unmarshal parse path targetID m)
  | WAppend t => no_proof p (AppendTarget unmarshal parse path t)
  end.
(** What each may make of the roster [cur]. *)
Definition intended (targetID : string) (w : writer) (cur nr : Roster) : Prop :=
  match w with
  | WToken _ _ => only_differs_in targetID "token" cur nr
  | WSSH w => only_differs_in targetID "ssh" cur nr ∧ held_fingerprint nr targetID = w_HostKeyFingerprint w
  | WReplaceSSH old w =>
      only_differs_in targetID "ssh" cur nr ∧ old ≠ "" ∧ held_fingerprint cur targetID = old ∧
      held_fingerprint nr targetID = w_HostKeyFingerprint w
  | WTLS old next _ =>
      only_differs_in targetID "tls" cur nr ∧ held_pin cur targetID = old ∧ held_pin nr targetID = next ∧ valid_pin next
  | WClear => only_differs_in targetID "token" cur nr ∧ ∃ t, Find nr targetID = Some t ∧ Token t = None
  | WUpdate _ => Forall2 (λ ot nt, if decide (tg_ID ot = targetID) then differs_in_fields ot nt else nt = ot) cur nr
  | WAppend t => ∃ t', nr = cur ++ [t'] ∧ bare (tg_ID t) t'
  end.
(** When each may leave it: it holds already what would be written. *)
Definition settled (targetID : string) (w : writer) (cur : Roster) : Prop :=
  match w with
  | WToken _ _ | WSSH _ | WReplaceSSH _ _ | WAppend _ => False
  | WTLS old next _ => held_pin cur targetID = old ∧ old = next
  | WClear => ∃ t, Find cur targetID = Some t ∧ Token t = None
  | WUpdate m =>
      ∃ t, Find cur targetID = Some t ∧ tg_Host t = m_Host m ∧ tg_Node t = m_Node m ∧ tg_APIPort t = m_APIPort m ∧
        tg_InsecureTLS t = m_InsecureTLS m
  end.
Definition outcome (targetID : string) (w : writer) (cur : Roster) (out : option Roster) : Prop :=
  match out with None => settled targetID w cur | Some nr => intended targetID w cur nr end.
(** A crash during the run leaves the roster's old text, or what a successful run made of it. *)
Definition crash_safe (tr : list (event rosterE)) (ok : Prop) (good : Roster → option Roster → Prop) : Prop :=
  ∀ old pre post, tr = pre ++ post →
    content old pre = Some old ∨
    ∃ data cur new nr, content old pre = Some new ∧ ok ∧ read_first data tr ∧ Decode data = Ok cur ∧
      Decode new = Ok nr ∧ good cur (Some nr).
Lemma written_crash_safe good ok tr : written good ok tr → crash_safe tr (ok = true) good.
Proof.
  unfold written. intros Hw old pre post Htr. destruct ok; [|left; by eapply kept_prefix].
  destruct Hw as (data & cur & [nr|] & Hin & Hc & Hg & Hb); [|left; by eapply kept_prefix].
  destruct Hb as (new & Hn & Hr). destruct (replaced_prefix old new tr pre post Hr Htr) as [H|H]; [by left|].
  right. by exists data, cur, new, nr.
Qed.
Definition safe_run (good : Roster → option Roster → Prop) (m : io rosterE (res unit * Passphrase)) : Prop :=
  always m (λ tr r, guarded tr ∧ written good (is_ok r.1) tr).
Lemma safe_refused (good : Roster → option Roster → Prop) e p : safe_run good (Ret (Er e, p)).
Proof. split; [apply guarded_nil|]. by intros T. Qed.
Lemma safe_mono (good good' : Roster → option Roster → Prop) m : (∀ a b, good a b → good' a b) → safe_run good m → safe_run good' m.
Proof. intros Hg. apply always_mono. intros tr r [? Hw]. split; [done|]. by eapply written_mono. Qed.
Lemma safe_remember good enc s m :
  safe_run good m → safe_run good (let! r := m in Ret (remember_written r enc s)).
Proof.
  intros H. apply always_bind. eapply always_mono; [|exact H]. intros tr [[?|e] p] [Hg Hw]; cbn [always]; rewrite app_nil_r; done.
Qed.
Lemma safe_locked good body p :
  always body (λ tr r, written good (is_ok r) tr) → asks held_lock body → safe_run good (no_proof p (locked path Er body)).
Proof.
  intros Hb Ha. unfold no_proof. apply always_bind. eapply always_mono; [|apply (roster_locked_spec path Er body _ Hb Ha)].
  intros tr r [Hg [(l & e & -> & ->)|(mid & -> & Hw)]]; cbn [always]; rewrite app_nil_r; (split; [done|]);
    [by apply kept_lock|by apply written_locked].
Qed.
Lemma ssh_written_held targetID w nr : ssh_written targetID w nr = Ok tt → held_fingerprint nr targetID = w_HostKeyFingerprint w.
Proof.
  unfold ssh_written, held_fingerprint. cbv zeta. destruct (Find nr targetID) as [[? ? ? ? ? ? ? [a|] ?]|]; [|done..].
  rewrite guard_iff, andb_true_iff. by intros [[?%eqb_true _] _].
Qed.
Lemma writeSSH_safe targetID w p pre :
  safe_run (subtable_good targetID "ssh" pre (ssh_written targetID w))
    (writeSSHAuth NewScryptIdentity age_Decrypt unmarshal parse path targetID w p pre).
Proof.
  unfold writeSSHAuth. cbv zeta. destruct (eqb _ _); [apply safe_refused|]. destruct (checkHostKeySource _); [|apply safe_refused].
  apply encrypted_spec; [by eauto|]. intros c. apply safe_remember. apply splice_spec.
Qed.
(** A write of [new], composed from [data], once [good] relates their rosters. *)
Lemma write_back_written (good : Roster → option Roster → Prop) tr0 data cur new nr :
  kept tr0 → read_first data tr0 → Decode data = Ok cur → Decode new = Ok nr → good cur (Some nr) →
  always (write_back path new) (λ tr r, written good (is_ok r) (tr0 ++ tr)).
Proof.
  intros Hk Hin Hc Hn Hg. eapply always_mono; [|apply write_back_spec]. intros tr [?|e] H; cbn [is_ok]; [|by apply kept_app].
  exists data, cur, (Some nr). split_and!; [by apply read_first_app_r|done..|]. apply became_app_l; [done|by exists new].
Qed.
Lemma left_written (good : Roster → option Roster → Prop) tr0 data cur :
  kept tr0 → read_first data tr0 → Decode data = Ok cur → good cur None → written good true (tr0 ++ []).
Proof. intros Hk Hin Hc Hg. rewrite app_nil_r. by exists data, cur, None. Qed.
(** The body of a writer: a read, and what follows it. *)
Lemma body_spec good (k : string → io rosterE (res unit)) :
  (∀ data tr0, kept tr0 → read_first data tr0 → always (k data) (λ tr r, written good (is_ok r) (tr0 ++ tr))) →
  always (let? data := read_roster path orelse id in k data) (λ tr r, written good (is_ok r) tr).
Proof.
  intros Hk. eapply always_call; [apply read_roster_spec|]. intros tr [data|e] [Hkept Hd]; cbn [always]; [|by rewrite app_nil_r].
  by apply Hk; [|apply Hd].
Qed.
Lemma body_asks {A} (k : string → io rosterE (res A)) :
  (∀ data, asks held_lock (k data)) → asks held_lock (let? data := read_roster path orelse id in k data).
Proof. intros H. apply asks_bind; [apply read_roster_asks|]. intros [data|e]; [apply H|exact I]. Qed.
Lemma composeClearToken_iff data targetID new :
  composeClearToken unmarshal parse data targetID = Ok new →
  ∃ cur nr, Decode data = Ok cur ∧ Decode new = Ok nr ∧ intended targetID WClear cur nr.
Proof.
  unfold composeClearToken. rewrite call_iff. intros (d & _ & (u & Hv & (nr & Hn & Hf)%call_iff)%call_iff).
  destruct u. destruct (Find nr targetID) as [[? ? ? ? ? ? [?|] ? ?]|] eqn:Hfind; try done. injection Hf as <-.
  apply verifyOnlyIntendedChange_iff in Hv as (cur & nr' & Hc & Hn' & Hd). rewrite Hn in Hn'. injection Hn' as <-.
  exists cur, nr. split_and!; [done..|]. split; [done|]. by eexists.
Qed.
Lemma clear_safe targetID p : safe_run (outcome targetID WClear) (no_proof p (ClearTokenAuth unmarshal parse path targetID)).
Proof.
  apply safe_locked.
  - apply body_spec. intros data tr0 Hk Hin. cbn [bind]. destruct (composeClearToken _ _ data targetID) as [new|e] eqn:Hc; cbn [always].
    2: { by rewrite app_nil_r. }
    apply composeClearToken_iff in Hc as (cur & nr & Hd & Hn & ? & Hf).
    destruct (eqb data new) eqn:Hsame; cbn [always]; [|by eapply write_back_written].
    apply eqb_true in Hsame as <-. rewrite Hd in Hn. injection Hn as <-. by eapply left_written.
  - apply body_asks. intros data. cbn [bind]. destruct (composeClearToken _ _ _ _); [|exact I]. destruct (eqb _ _); [exact I|apply write_back_asks].
Qed.
Lemma meta_fields_nil t m :
  meta_fields t m = [] →
  tg_Host t = m_Host m ∧ tg_Node t = m_Node m ∧ tg_APIPort t = m_APIPort m ∧ tg_InsecureTLS t = m_InsecureTLS m.
Proof.
  unfold meta_fields. intros (H1 & (H2 & (H3 & H4)%app_eq_nil)%app_eq_nil)%app_eq_nil.
  destruct (eqb (tg_Host t) _) eqn:E1; [|done]. destruct (eqb (tg_Node t) _) eqn:E2; [|done].
  destruct (tg_APIPort t =? _)%Z eqn:E3; [|done]. destruct (Bool.eqb _ _) eqn:E4; [|done].
  apply eqb_true in E1, E2. apply Z.eqb_eq in E3. apply eqb_prop in E4. done.
Qed.
Lemma update_safe targetID m p :
  safe_run (outcome targetID (WUpdate m)) (no_proof p (UpdateTargetFields unmarshal parse path targetID m)).
Proof.
  apply safe_locked.
  - apply body_spec. intros data tr0 Hk Hin. assert (written (outcome targetID (WUpdate m)) false (tr0 ++ [])) as Hno by by rewrite app_nil_r.
    cbn [bind]. destruct (Decode data) as [cur|e] eqn:Hc; cbn [always]; [|exact Hno].
    destruct (Find cur targetID) as [t|] eqn:Hf; [|exact Hno]. destruct (meta_fields t m) as [|f fs] eqn:Hm.
    { eapply left_written; [done..|]. exists t. split; [done|by apply meta_fields_nil]. }
    cbn [bind]. destruct (applyTargetFieldsSplice _ _ _ _) as [new|e]; cbn [bind]; [|exact Hno].
    destruct (verifyOnlyTargetFieldsChanged _ _ _ _ _) as [[]|e] eqn:Hv; [|exact Hno].
    apply verifyOnlyTargetFieldsChanged_iff in Hv as (cur' & nr & Hc' & Hn & Hd). rewrite Hc in Hc'. injection Hc' as <-.
    by eapply write_back_written.
  - apply body_asks. intros data. cbn [bind]. destruct (Roster.Decode _ _ _); [|exact I]. destruct (Find _ _); [|exact I].
    destruct (meta_fields _ _); [exact I|]. cbn [bind]. destruct (applyTargetFieldsSplice _ _ _ _); [|exact I]. cbn [bind].
    destruct (verifyOnlyTargetFieldsChanged _ _ _ _ _); [apply write_back_asks|exact I].
Qed.
Lemma append_safe targetID t p :
  safe_run (outcome targetID (WAppend t)) (no_proof p (AppendTarget unmarshal parse path t)).
Proof.
  unfold AppendTarget. cbv zeta. cbn [bind]. destruct (check_append t); [|apply safe_refused].
  apply safe_locked.
  - apply body_spec. intros data tr0 Hk Hin. assert (written (outcome targetID (WAppend t)) false (tr0 ++ [])) as Hno by by rewrite app_nil_r.
    cbn [bind]. destruct (findTargetBlocks parse data) as [bs|e]; [|exact Hno]. destruct (negb _); [|exact Hno].
    cbn [bind]. destruct (verifyAppendOnly _ _ _ _ _) as [[]|e] eqn:Hv; [|exact Hno].
    apply verifyAppendOnly_iff in Hv as (cur & t' & Hc & Hn & Hb).
    eapply write_back_written; [done..|]. by exists t'.
  - apply body_asks. intros data. cbn [bind]. destruct (findTargetBlocks _ _); [|exact I]. destruct (negb _); [|exact I].
    cbn [bind]. destruct (verifyAppendOnly _ _ _ _ _); [apply write_back_asks|exact I].
Qed.
Lemma writer_safe targetID w p : safe_run (outcome targetID w) (run_writer targetID w p).
Proof.
  destruct w as [i secret|w|old w|old next source| |m|t]; cbn [run_writer]; [..|apply clear_safe|apply update_safe|apply append_safe].
  - unfold WriteTokenAuth. destruct (eqb _ _); [apply safe_refused|]. apply encrypted_spec; [by eauto|]. intros c.
    apply safe_remember. eapply safe_mono; [|apply splice_spec]. intros cur [nr|]; [by intros (? & _)|done].
  - eapply safe_mono; [|apply writeSSH_safe]. intros cur [nr|]; [|done]. intros (? & _ & ?%ssh_written_held). by split.
  - unfold ReplaceSSHAuth. destruct (eqb old "") eqn:Ho; [apply safe_refused|]. eapply safe_mono; [|apply writeSSH_safe].
    unfold ssh_pin_is. cbv zeta. intros cur [nr|]; cbn [subtable_good outcome]; rewrite guard_iff; [|by intros [_ ?]].
    intros (? & [?%eqb_true _] & ?%ssh_written_held). apply eqb_false in Ho. done.
  - unfold WriteTLSPin. cbv zeta. destruct (Parse next) eqn:Hp; [|apply safe_refused]. destruct (ParseSource _); [|apply safe_refused].
    destruct (if eqb old "" then _ else _); [|apply safe_refused]. eapply safe_mono; [|apply splice_spec].
    unfold tls_pin_is. cbv zeta. intros cur [nr|]; cbn [subtable_good outcome];
      (destruct (Find cur targetID); [|by intros ?; destruct_and?]); rewrite guard_iff.
    + intros (? & [?%eqb_true _] & Hpost). split_and!; [done..| |apply Parse_ok; by rewrite Hp].
      unfold tls_written in Hpost. unfold held_pin. cbv zeta in Hpost. destruct (Find nr targetID) as [[? ? ? ? ? ? ? ? [?|]]|]; try done.
      apply guard_iff in Hpost as [[?%eqb_true _]%andb_true_iff _]. done.
    + intros [?%eqb_true [= ?%eqb_true]]. split; [done|congruence].
Qed.

(** ** The rekey *)
Local Notation DecryptString := (DecryptString NewScryptIdentity age_Decrypt).
(** [before] with [old] and [after] with [next] open to the same plaintext. *)
Definition resealed (old next before after : string) : Prop :=
  before = "" ∧ after = "" ∨
  before ≠ "" ∧ after ≠ before ∧ ∃ plain, DecryptString before old = Ok plain ∧ DecryptString after next = Ok plain.
Definition rekeyed (old next : string) (a b : Target) : Prop :=
  with_auth a None None = with_auth b None None ∧
  match Token a, Token b with
  | Some x, Some y => ta_ID x = ta_ID y ∧ resealed old next (SecretEnc x) (SecretEnc y)
  | x, y => x = None ∧ y = None
  end ∧
  match tg_SSH a, tg_SSH b with
  | Some x, Some y => blank_ssh x = blank_ssh y ∧ resealed old next (PrivateKeyEnc x) (PrivateKeyEnc y)
  | x, y => x = None ∧ y = None
  end.
Local Notation secrets_t := (gmap (string * string) sealed).
(** Each secret held is what a ciphertext of the roster opens to with [old]. *)
Definition opened_with (old : string) (refs : list secretRef) (secrets : secrets_t) : Prop :=
  ∀ i k s, secrets !! (i, k) = Some s →
    ∃ ref, ref ∈ refs ∧ sr_target ref = i ∧ key_of (sr_what ref) = k ∧ DecryptString (armored ref) old = Ok (s_plain s).
Lemma open_secrets_sound old refs all acc :
  refs ⊆ all → opened_with old all acc.1.1 → opened_with old all (open_secrets NewScryptIdentity age_Decrypt old refs acc).1.1.
Proof.
  revert acc. induction refs as [|ref refs IH]; intros [[secrets wrong] unread] Hsub Hacc; [done|]. cbn [open_secrets].
  apply IH; [set_solver|]. destruct (RosterWrite.DecryptString _ _ _ _) as [out|e] eqn:Hd; cbn [fst].
  - intros i k s. rewrite lookup_insert_Some. intros [[[= <- <-] <-]|[_ H]]; [|by apply Hacc].
    exists ref. split_and!; [set_solver|done..].
  - by destruct (errors_Is _ _).
Qed.
Definition same_plains (secrets secrets' : secrets_t) : Prop := ∀ k, s_plain <$> secrets' !! k = s_plain <$> secrets !! k.
Lemma opened_with_same old refs secrets secrets' :
  same_plains secrets secrets' → opened_with old refs secrets → opened_with old refs secrets'.
Proof.
  intros Hsame Ho i k s Hs. specialize (Hsame (i, k)). rewrite Hs in Hsame.
  destruct (secrets !! (i, k)) as [s0|] eqn:H0; [|done]. injection Hsame as ->. by apply Ho in H0.
Qed.
Lemma rekey_subs_spec data next b subs acc :
  always (rekey_subs parse data next b subs acc) (λ tr r, kept tr ∧ ∀ out, r = Ok out → same_plains acc.1.1 out.1.1).
Proof.
  revert acc. induction subs as [|[table k] subs IH]; intros [[secrets edits] touched]; cbn [rekey_subs].
  { cbn [always]. split; [by intros T|]. by intros out [= <-]. }
  destruct (secrets !! _) as [s|] eqn:Hs; [|apply IH]. destruct (findSubtable _ _ _ _); [|by (split; [by intros T|])].
  destruct (findSubtableFields _ _ _ !! _) as [[off len]|]; [|by (split; [by intros T|])].
  cbn [bind trigger always]. intros [c|e]; [|by (split; [by intros T|])].
  eapply always_mono; [|apply IH]. intros tr r [Hk Hsame]. split; [by apply (kept_app [_])|].
  intros out Hr k'. rewrite (Hsame out Hr k'). cbn [fst].
  destruct (decide (k' = (b_id b, k))) as [->|]; [by rewrite lookup_insert_eq, Hs|by rewrite lookup_insert_ne].
Qed.
Lemma rekey_blocks_spec data next bs secrets edits n :
  always (rekey_blocks parse data next bs secrets edits n) (λ tr r, kept tr ∧ ∀ out, r = Ok out → same_plains secrets out.1.1).
Proof.
  revert secrets edits n. induction bs as [|b bs IH]; intros secrets edits n; cbn [rekey_blocks].
  { cbn [always]. split; [by intros T|]. by intros out [= <-]. }
  eapply always_call; [apply rekey_subs_spec|]. intros tr [[[secrets' edits'] touched]|e] [Hk Hsame].
  2: { cbn [always]. rewrite app_nil_r. by split. }
  eapply always_mono; [|apply IH]. intros tr' r [Hk' Hsame']. split; [by apply kept_app|].
  intros out Hr k. rewrite (Hsame' out Hr k). by apply (Hsame _ eq_refl k).
Qed.
Lemma check_cipher_sound old next secrets i k before after :
  (∀ s, secrets !! (i, k) = Some s → DecryptString before old = Ok (s_plain s)) →
  check_cipher NewScryptIdentity age_Decrypt secrets next i k before after = Ok tt → resealed old next before after.
Proof.
  intros Hs. unfold check_cipher. cbv zeta. rewrite guard_iff. intros [Hboth%eqb_prop H].
  destruct (eqb before "") eqn:Hb.
  { apply eqb_true in Hb as ->. symmetry in Hboth. apply eqb_true in Hboth as ->. by left. }
  rewrite guard_iff, call_iff in H. destruct H as ([Ha%eqb_true Hab]%andb_true_iff & got & Hd & [Hp%eqb_true _]%guard_iff).
  apply negb_eqb in Hab. apply eqb_false in Hb. symmetry in Hboth. apply eqb_false in Hboth.
  destruct (secrets !! (i, k)) as [s|]; [|done]. right. split_and!; [done..|]. exists (s_plain s).
  cbn [default] in *. subst got. by rewrite Hd, (Hs s).
Qed.
Lemma secrets_of_inv t ref :
  ref ∈ secrets_of t →
  (∃ x, tg_SSH t = Some x ∧ ref = {| sr_target := tg_ID t; sr_what := "ssh private key"; armored := PrivateKeyEnc x |}) ∨
  (∃ x, Token t = Some x ∧ ref = {| sr_target := tg_ID t; sr_what := "token secret"; armored := SecretEnc x |}).
Proof.
  unfold secrets_of. rewrite elem_of_app. intros [H|H]; [left|right].
  - destruct (tg_SSH t) as [x|]; [destruct (eqb _ _)|]; try by apply elem_of_nil in H.
    apply list_elem_of_singleton in H. by exists x.
  - destruct (Token t) as [x|]; [destruct (eqb _ _)|]; try by apply elem_of_nil in H.
    apply list_elem_of_singleton in H. by exists x.
Qed.
Lemma ref_of (cur : Roster) a ref :
  NoDup (tg_ID <$> cur) → a ∈ cur → ref ∈ secretsInProofOrder cur "" → sr_target ref = tg_ID a → ref ∈ secrets_of a.
Proof.
  intros Hnd Ha Hin Ht. assert (∃ t, t ∈ cur ∧ ref ∈ secrets_of t) as (t & Hcur & Hr).
  { unfold secretsInProofOrder in Hin. rewrite elem_of_app, !list_elem_of_bind in Hin.
    destruct Hin as [(t & Hr & ?)|(t & Hr & ?)]; exists t; (split; [done|]); destruct (eqb _ _); try done;
      by apply elem_of_nil in Hr. }
  assert (sr_target ref = tg_ID t) as Hrt.
  { by destruct (secrets_of_inv _ _ Hr) as [(? & _ & ->)|(? & _ & ->)]. }
  assert (t = a) as ->; [|done]. apply list_elem_of_lookup in Ha as [i Hi], Hcur as [j Hj].
  assert (i = j) as <-; [|congruence]. apply (NoDup_lookup _ i j (tg_ID a) Hnd); rewrite list_lookup_fmap.
  - by rewrite Hi.
  - rewrite Hj. cbn. congruence.
Qed.
Lemma verify_rekeyed_sound old next (cur : Roster) secrets a b :
  NoDup (tg_ID <$> cur) → opened_with old (secretsInProofOrder cur "") secrets → a ∈ cur →
  verify_rekeyed NewScryptIdentity age_Decrypt secrets next a b = Ok tt → rekeyed old next a b.
Proof.
  intros Hnd Ho Ha. unfold verify_rekeyed. rewrite call_iff. intros (toks & Htok & H). rewrite call_iff in H.
  destruct H as (sshs & Hssh & [Heq%targetDeepEqual_iff _]%guard_iff). unfold with_auth in Heq.
  assert (∀ k s, secrets !! (tg_ID a, k) = Some s → ∃ ref, ref ∈ secrets_of a ∧ key_of (sr_what ref) = k ∧
    DecryptString (armored ref) old = Ok (s_plain s)) as Hopen.
  { intros k s Hs. apply Ho in Hs as (ref & Hin & Ht & ? & ?). exists ref. split; [by eapply ref_of|done]. }
  injection Heq as ? ? ? ? ? ? Et Es ?. split; [unfold with_auth; congruence|]. split.
  - destruct (Token a) as [x|] eqn:Hx, (Token b) as [y|]; try (injection Htok as <-; cbn in Et; by simplify_eq).
    apply call_iff in Htok as ([] & Hc & [= <-]). cbn in Et. injection Et as ?. split; [done|].
    eapply check_cipher_sound, Hc. intros s (ref & Hin & Hk & <-)%Hopen. do 2 f_equal.
    destruct (secrets_of_inv _ _ Hin) as [(? & ? & ->)|(? & ? & ->)]; [done|]. cbn. congruence.
  - destruct (tg_SSH a) as [x|] eqn:Hx, (tg_SSH b) as [y|]; try (injection Hssh as <-; cbn in Es; by simplify_eq).
    apply call_iff in Hssh as ([] & Hc & [= <-]). cbn in Es. injection Es as ?. split; [unfold blank_ssh; congruence|].
    eapply check_cipher_sound, Hc. intros s (ref & Hin & Hk & <-)%Hopen. do 2 f_equal.
    destruct (secrets_of_inv _ _ Hin) as [(? & ? & ->)|(? & ? & ->)]; [|done]. cbn. congruence.
Qed.
Lemma verifyRekey_sound old next (cur : Roster) secrets newData :
  valid_roster cur → opened_with old (secretsInProofOrder cur "") secrets →
  verifyRekey NewScryptIdentity age_Decrypt unmarshal parse cur newData next secrets = Ok tt →
  ∃ nr, Decode newData = Ok nr ∧ Forall2 (rekeyed old next) cur nr.
Proof.
  intros [Hnd _] Ho. unfold verifyRekey. rewrite call_iff. intros (nr & Hn & H). apply guard_iff in H as [Hlen%bool_decide_eq_true H].
  exists nr. split; [done|]. assert (∀ a b, a ∈ cur → verify_rekeyed NewScryptIdentity age_Decrypt secrets next a b = Ok tt → rekeyed old next a b)
    as Hs by (intros; by eapply verify_rekeyed_sound). clear Hnd Ho Hn. revert nr Hlen H.
  induction cur as [|a cur IH]; intros [|b nr] Hlen; try done. cbn [verify_all_rekeyed]. rewrite call_iff. intros ([] & Hv & H).
  constructor; [apply Hs; [by left|done]|]. apply IH; [|by injection Hlen|done]. intros x y Hx. apply Hs. by right.
Qed.
Definition rekey_good (old next : string) (cur : Roster) (out : option Roster) : Prop :=
  secretsInProofOrder cur "" ≠ [] ∧ ∃ nr, out = Some nr ∧ Forall2 (rekeyed old next) cur nr.
Lemma rekeySecrets_spec data cur old next :
  Decode data = Ok cur →
  always (rekeySecrets NewScryptIdentity age_Decrypt unmarshal parse data cur old next) (λ tr r, kept tr ∧ ∀ out, r = Ok out →
    ∃ nr, Decode out.1 = Ok nr ∧ rekey_good old next cur (Some nr)).
Proof.
  intros Hcur. assert (∀ e : err, kept [] ∧ ∀ out : string * RekeyResult, Er e = Ok out →
    ∃ nr, Decode out.1 = Ok nr ∧ rekey_good old next cur (Some nr)) as Hno by (intros e; by split).
  unfold rekeySecrets. cbv zeta.
  pose proof (open_secrets_sound old (secretsInProofOrder cur "") _ (∅, [], []) (reflexivity _)) as Ho.
  destruct (open_secrets _ _ _ _ _) as [[secrets wrong] unread]. cbn [fst] in Ho.
  assert (opened_with old (secretsInProofOrder cur "") secrets) as Hopened by (apply Ho; intros i k s H; by rewrite lookup_empty in H).
  destruct (length (secretsInProofOrder cur "") =? 0) eqn:Htot; cbn [negb]; [apply Hno|].
  assert (secretsInProofOrder cur "" ≠ []) as Hsome by (intros Hnil; by rewrite Hnil in Htot).
  do 3 (lazymatch goal with |- context [if ?b then _ else Ret _] => destruct b; [|apply Hno] end).
  cbn [bind]. destruct (findTargetBlocks parse data) as [bs|e]; [|apply Hno].
  eapply always_call; [apply rekey_blocks_spec|]. intros tr [[[secrets' edits] targets]|e] [Hk Hsame].
  2: { cbn [always]. rewrite app_nil_r. by split. }
  cbn [bind]. destruct (length edits =? size secrets'); cbn [always]; [|rewrite app_nil_r; by split].
  destruct (applyEdits data edits) as [newData|e]; cbn [always]; [|rewrite app_nil_r; by split].
  destruct (verifyRekey _ _ _ _ _ _ _ _) as [[]|e] eqn:Hv; cbn [always]; rewrite app_nil_r; split; try done.
  intros out [= <-]. apply verifyRekey_sound with (old := old) in Hv as (nr & Hn & Hf).
  - exists nr. split; [done|]. split; [done|]. by exists nr.
  - by apply Decode_iff in Hcur as (_ & _ & ?).
  - eapply opened_with_same, Hopened. by apply (Hsame _ eq_refl).
Qed.
Lemma rekey_subs_asks data next b subs acc : asks held_lock (rekey_subs parse data next b subs acc).
Proof.
  revert acc. induction subs as [|[table k] subs IH]; intros [[secrets edits] touched]; cbn [rekey_subs]; [exact I|].
  destruct (secrets !! _); [|apply IH]. destruct (findSubtable _ _ _ _); [|exact I].
  destruct (findSubtableFields _ _ _ !! _) as [[off len]|]; [|exact I].
  apply asks_bind; [split; [done|intros ?; exact I]|]. intros [c|e]; [apply IH|exact I].
Qed.
Lemma rekey_blocks_asks data next bs secrets edits n : asks held_lock (rekey_blocks parse data next bs secrets edits n).
Proof.
  revert secrets edits n. induction bs as [|b bs IH]; intros secrets edits n; cbn [rekey_blocks]; [exact I|].
  apply asks_bind; [apply rekey_subs_asks|]. intros [[[? ?] ?]|e]; [apply IH|exact I].
Qed.
Lemma rekeySecrets_asks data cur old next :
  asks held_lock (rekeySecrets NewScryptIdentity age_Decrypt unmarshal parse data cur old next).
Proof.
  unfold rekeySecrets. cbv zeta. destruct (open_secrets _ _ _ _ _) as [[secrets wrong] unread].
  do 4 (lazymatch goal with |- context [if ?b then _ else Ret _] => destruct b; [|exact I] end).
  cbn [bind]. destruct (findTargetBlocks parse data); [|exact I]. apply asks_bind; [apply rekey_blocks_asks|].
  intros [[[? ?] ?]|e]; [|exact I]. cbn [bind]. destruct (length _ =? _); [|exact I]. destruct (applyEdits _ _); [|exact I].
  destruct (verifyRekey _ _ _ _ _ _ _ _); exact I.
Qed.
Lemma rekey_locked_spec sha256 old next :
  always (rekey_locked NewScryptIdentity age_Decrypt unmarshal parse path sha256 old next) (λ tr r,
    written (rekey_good old next) (is_ok r) tr).
Proof.
  unfold rekey_locked. eapply always_call; [apply read_roster_spec|]. intros tr [data|e] [Hk Hd].
  2: { cbn [always]. by rewrite app_nil_r. }
  cbn [bind]. destruct (Decode data) as [cur|e] eqn:Hcur; [|cbn [always]; by rewrite app_nil_r].
  eapply always_call; [by apply rekeySecrets_spec|]. intros tr' [[newData res]|e] [Hk' Hn].
  2: { cbn [always]. rewrite app_nil_r. by apply kept_app. }
  destruct (Hn _ eq_refl) as (nr & Hnr & Hg). clear Hn.
  eapply always_call; [apply read_roster_spec|]. intros tr2 [now|e] [Hk2 _].
  2: { cbn [always]. rewrite app_nil_r. by repeat apply kept_app. }
  destruct (eqb _ _). 2: { cbn [always]. rewrite app_nil_r. by repeat apply kept_app. }
  eapply always_call; [apply atomicWrite_spec|]. intros tr3 [[]|e] H3; cbn [always is_ok]; rewrite app_nil_r.
  2: { by repeat apply kept_app. }
  exists data, cur, (Some nr). split_and!; [apply read_first_app_r; by apply Hd|done..|].
  do 3 (apply became_app_l; [done|]). by exists newData.
Qed.
Lemma lock_wait_iff l : lock_wait l = Ok true ↔ l = Ok true.
Proof. destruct l as [b|e]; cbn; [done|]. by destruct (errors_Is _ _). Qed.
Lemma rekey_written sha256 old next :
  always (Rekey NewScryptIdentity age_Decrypt unmarshal parse path sha256 old next) (λ tr r,
    guarded tr ∧ written (rekey_good old next) (is_ok r) tr).
Proof.
  unfold Rekey. destruct (negb (_ || _)); [|split; [apply guarded_nil|by intros T]].
  destruct (negb _); [|split; [apply guarded_nil|by intros T]].
  eapply always_mono; [|apply locked_as_spec; [apply lock_wait_iff|apply rekey_locked_spec|]].
  - intros tr r [Hg [(l & e & -> & ->)|(mid & -> & Hw)]]; (split; [done|]); [by apply kept_lock|by apply written_locked].
  - unfold rekey_locked. apply body_asks. intros data. cbn [bind]. destruct (Roster.Decode _ _ _); [|exact I].
    apply asks_bind; [apply rekeySecrets_asks|]. intros [?|e]; [|exact I]. apply asks_bind; [apply read_roster_asks|].
    intros [now|e]; [|exact I]. destruct (eqb _ _); [|exact I].
    apply asks_bind; [apply atomicWrite_asks|]. intros [?|e]; exact I.
Qed.
End writers.

(** * Properties *)
(** C3: whichever way a writer of the roster runs (the token, SSH or TLS table of a target,
    the token's removal, the edit of its fields, a new target), every call but the encryption
    of a secret happens under the lock, which is released; if it fails, the roster file is
    untouched; if it succeeds, it read a valid roster and either replaced the file by a text
    that decodes to a roster differing in the target's table alone, carrying the pin asked
    for, or found that the roster holds that already; and if the process dies anywhere in
    between, the file holds its old text whole or that new text whole. *)
Theorem roster_write_safe NewScryptIdentity age_Decrypt unmarshal parse path targetID w p :
  always (run_writer NewScryptIdentity age_Decrypt unmarshal parse path targetID w p) (λ tr r,
    guarded tr ∧
    written unmarshal parse (outcome targetID w) (is_ok r.1) tr ∧
    crash_safe unmarshal parse tr (is_ok r.1 = true) (outcome targetID w)).
Proof.
  eapply always_mono; [|apply writer_safe]. intros tr r [Hg Hw]. split_and!; [done..|by apply written_crash_safe].
Qed.
(** C4: a rekey either leaves the roster file as it was, or replaces it whole, under the lock
    and only if it held a secret, by a text that decodes to the same targets where each secret
    that the old passphrase opened opens, by the new one, to the same plaintext, in a new
    ciphertext; a crash leaves the one text or the other. *)
Theorem rekey_safe NewScryptIdentity age_Decrypt unmarshal parse path sha256 old next :
  always (Rekey NewScryptIdentity age_Decrypt unmarshal parse path sha256 old next) (λ tr r,
    guarded tr ∧
    written unmarshal parse (rekey_good NewScryptIdentity age_Decrypt old next) (is_ok r) tr ∧
    crash_safe unmarshal parse tr (is_ok r = true) (rekey_good NewScryptIdentity age_Decrypt old next)).
Proof.
  eapply always_mono; [|apply rekey_written]. intros tr r [Hg Hw]. split_and!; [done..|by apply written_crash_safe].
Qed.

(** * Examples *)
(** A file system with the roster and one temporary file, which fails at [failing]. *)
Definition lab_target : Target :=
  {| tg_ID := "lab"; tg_Host := "h"; tg_Node := "n"; tg_APIPort := 0; tg_InsecureTLS := false; Export_ := ""; Token := None;
     tg_SSH := None; TLS := None |}.
Definition lab_text : string := appendTargetBlock "" lab_target.
Definition lab_unmarshal (text : string) : res Roster := Ok (if eqb text "" then [] else [lab_target]).
Definition lab_fs (rename_fails : bool) : env rosterE (string * string) := λ R e '(roster, temp),
  match e in rosterE R return R * (string * string) with
  | RLock => (Ok true, (roster, temp))
  | RUnlock => (tt, (roster, temp))
  | RRead => (Ok roster, (roster, temp))
  | REncrypt plain pass => (Ok (pass +:+ ":" +:+ plain), (roster, temp))
  | RCreateTemp => (Ok "t", (roster, ""))
  | RWriteTemp _ d => (Ok tt, (roster, temp +:+ d))
  | RStat => (Ok 384%Z, (roster, temp))
  | RRename _ => if rename_fails then (Er (errorf "read-only file system"), (roster, temp)) else (Ok tt, (temp, ""))
  | RSyncTemp _ | RCloseTemp _ | RChmod _ _ | RRemove _ => (Ok tt, (roster, temp))
  end.
Definition lab_append (rename_fails : bool) : option (bool * string * list (option string)) :=
  match run (lab_fs rename_fails)
    (run_writer (λ _, None) (λ _ _, Er (errorf "no age")) lab_unmarshal (λ _, ([], None)) "r.toml" "lab" (WAppend lab_target)
       (NewPassphrase "pw")) ("", "") with
  | Some (tr, (r, _), (roster, _)) => Some (is_ok r, roster, renames ∅ tr)
  | None => None
  end.
Example target_appended : lab_append false = Some (true, lab_text, [Some lab_text]).
Proof. vm_compute. reflexivity. Qed.
Example append_failed : lab_append true = Some (false, "", []).
Proof. vm_compute. reflexivity. Qed.
(** The bug [content] is there to see: a rename of a file that was not synced may be torn. *)
Example unsynced_rename_torn :
  content "old" [Ev RCreateTemp (Ok "t"); Ev (RWriteTemp "t" "new") (Ok tt); Ev (RRename "t") (Ok tt)] = None.
Proof. vm_compute. reflexivity. Qed.
