(* ===== verification/RosterPass.v ===== *)
(** internal/roster/passphrase.go: what the memory of an opened secret is worth, and when a
    passphrase is proved. *)
From S2P Require Import Prelude GoLib Errors Json Roster RosterWrite.

Section age.
Context (NewScryptIdentity : string → option err) (age_Decrypt : string → string → res (res string)).
Local Notation DecryptString := (DecryptString NewScryptIdentity age_Decrypt).
Local Notation Decrypt := (Decrypt NewScryptIdentity age_Decrypt).
Local Notation prove := (prove NewScryptIdentity age_Decrypt).

(** * Specification *)
(** What may happen to a passphrase: a decryption, a proof, and a write of a ciphertext that
    opens with it to the plaintext remembered. *)
Inductive pass_step : Passphrase → Passphrase → Prop :=
| PDecrypt armored p : pass_step p (Decrypt p armored).2
| PProve r targetID p : pass_step p (prove p r targetID).2
| PRemember armored plain p : DecryptString armored (p_s p) = Ok plain → pass_step p (remember p armored plain).
(** Its memory: the ciphertext opens, to the plaintext kept with it. *)
Definition proof_sound (s : string) (m : proof) : Prop :=
  opened m = "" ∨ ∃ out, DecryptString (opened m) s = Ok out ∧ (plain m = Some out ∨ plain m = None).
Definition pass_sound (s : string) (p : Passphrase) : Prop :=
  p_s p = s ∧ match p_m p with Some m => proof_sound s m | None => True end.
(** A secret that opens with [s], and one that does not for a reason other than [s]. *)
Definition opens (s : string) (ref : secretRef) : Prop := is_ok (DecryptString (armored ref) s) = true.
Definition cannot_tell (s : string) (ref : secretRef) : Prop :=
  match DecryptString (armored ref) s with Ok _ => False | Er e => errors_Is ErrIncorrectIdentity e = false end.
(** [refs] in this order prove [s]: there are none, or one opens and those before it cannot
    tell. *)
Definition proves (s : string) (refs : list secretRef) : Prop :=
  refs = [] ∨ ∃ before ref after, refs = before ++ ref :: after ∧ Forall (cannot_tell s) before ∧ opens s ref.

(** * Lemmas *)
Lemma remembering_sound s p armored plain out :
  pass_sound s p → DecryptString armored s = Ok out → plain = Some out ∨ plain = None →
  pass_sound s (remembering p armored plain).
Proof.
  intros [Hs Hm] Hd Hp. unfold remembering. destruct (p_m p) as [m|] eqn:E; [|by split; [|rewrite E]].
  split; [done|]. right. by exists out.
Qed.
Lemma try_secrets_sound s p targetID refs unreadable total :
  pass_sound s p → pass_sound s (try_secrets NewScryptIdentity age_Decrypt p targetID refs unreadable total).2.
Proof.
  revert unreadable. induction refs as [|ref refs IH]; intros unreadable Hp; cbn [try_secrets]; [done|].
  assert (p_s p = s) as -> by apply Hp. destruct (RosterWrite.DecryptString _ _ _ _) as [out|e] eqn:Hd; cbn [snd].
  - destruct (eqb _ _); (eapply remembering_sound; [done..|]); auto.
  - destruct (errors_Is _ _); [done|by apply IH].
Qed.
Lemma prove_sound s p r targetID : pass_sound s p → pass_sound s (prove p r targetID).2.
Proof.
  intros Hp. unfold RosterWrite.prove. destruct (eqb _ _); [done|]. cbv zeta.
  destruct (match p_m p with Some _ => _ | None => _ end); [done|by apply try_secrets_sound].
Qed.
Lemma cached_sound s p armored out : pass_sound s p → cached p armored = Some out → DecryptString armored s = Ok out.
Proof.
  intros [_ Hm]. unfold cached. destruct (p_m p) as [m|]; [|done]. destruct (negb _ && _) eqn:E; [|done].
  apply andb_true_iff in E as [Hne%negb_eqb ->%eqb_true]. destruct Hm as [|(o & Hd & [Hp|Hp])]; congruence.
Qed.
Lemma Decrypt_sound s p armored :
  pass_sound s p → (Decrypt p armored).1 = DecryptString armored s ∧ pass_sound s (Decrypt p armored).2.
Proof.
  intros Hp. unfold RosterWrite.Decrypt. destruct (cached p armored) as [out|] eqn:Hc.
  { split; [|done]. symmetry. by eapply cached_sound. }
  assert (p_s p = s) as -> by apply Hp. split; [done|]. cbn [snd].
  destruct (RosterWrite.DecryptString _ _ _ _) as [out|e] eqn:Hd; [|done].
  destruct (p_m p) as [m|]; [|done]. destruct (eqb (opened m) ""); [|done]. eapply remembering_sound; [done..|]. by left.
Qed.
Lemma steps_sound s p : rtc pass_step (NewPassphrase s) p → pass_sound s p.
Proof.
  assert (∀ q q', pass_step q q' → pass_sound s q → pass_sound s q') as Hstep.
  { intros q q' [armored q0|r targetID q0|armored plain q0 Hd] Hq; [by apply Decrypt_sound|by apply prove_sound|].
    assert (p_s q0 = s) as Hs by apply Hq. rewrite Hs in Hd. eapply remembering_sound; [done..|]. by left. }
  assert (∀ q q', rtc pass_step q q' → pass_sound s q → pass_sound s q') as Hrun.
  { induction 1; eauto. }
  intros H. eapply Hrun; [done|]. split; [done|by left].
Qed.
Lemma try_secrets_iff p targetID refs unreadable total :
  (try_secrets NewScryptIdentity age_Decrypt p targetID refs unreadable total).1 = Ok tt ↔
  (refs = [] ∧ unreadable = []) ∨
  ∃ before ref after, refs = before ++ ref :: after ∧ Forall (cannot_tell (p_s p)) before ∧ opens (p_s p) ref.
Proof.
  revert unreadable. induction refs as [|ref refs IH]; intros unreadable; cbn [try_secrets].
  { cbn [fst]. case_bool_decide as Hu; split; try done.
    - intros _. by left.
    - intros [[_ ?]|([] & ? & ? & ? & _)]; done. }
  destruct (RosterWrite.DecryptString _ _ _ _) as [out|e] eqn:Hd.
  { split; [|done]. intros _. right. exists [], ref, refs. split_and!; [done|constructor|]. unfold opens. by rewrite Hd. }
  destruct (errors_Is _ e) eqn:He.
  - split; [done|]. intros [[? _]|(before & x & after & Heq & Hall & Hx)]; [done|].
    destruct before as [|b before]; injection Heq as <- ->; [unfold opens in Hx; by rewrite Hd in Hx|].
    apply Forall_cons in Hall as [Hb _]. unfold cannot_tell in Hb. by rewrite Hd, He in Hb.
  - rewrite IH. split.
    + intros [[_ Hu]|(before & x & after & -> & Hall & Hx)]; [by destruct unreadable|]. right.
      exists (ref :: before), x, after. split_and!; [done|constructor; [unfold cannot_tell; by rewrite Hd|done]|done].
    + intros [[? _]|(before & x & after & Heq & Hall & Hx)]; [done|]. right.
      destruct before as [|b before]; injection Heq as <- ->; [unfold opens in Hx; by rewrite Hd in Hx|].
      apply Forall_cons in Hall as [_ Hall]. by exists before, x, after.
Qed.
End age.

(** * Properties *)
(** However a passphrase was used before (secrets decrypted with it, rosters it was proved
    against, secrets written under it), the memory it carries changes nothing: a decryption
    gives what age gives for that ciphertext and that passphrase. *)
Theorem Decrypt_is_DecryptString NewScryptIdentity age_Decrypt s p armored :
  rtc (pass_step NewScryptIdentity age_Decrypt) (NewPassphrase s) p →
  (Decrypt NewScryptIdentity age_Decrypt p armored).1 = DecryptString NewScryptIdentity age_Decrypt armored s.
Proof. intros H%steps_sound. by apply Decrypt_sound. Qed.
(** A passphrase that was not used yet passes the proof against a roster exactly when it is
    not empty and the roster holds no secret, or the target's secrets followed by the others
    hold one that opens and, before it, only secrets that cannot be read for another reason
    than the passphrase. *)
Theorem prove_fresh NewScryptIdentity age_Decrypt s r targetID :
  (prove NewScryptIdentity age_Decrypt (NewPassphrase s) r targetID).1 = Ok tt ↔
  s ≠ "" ∧ proves NewScryptIdentity age_Decrypt s (secretsInProofOrder r targetID).
Proof.
  unfold prove. cbn [p_s NewPassphrase]. destruct (eqb s "") eqn:Hs.
  { apply eqb_true in Hs as ->. by split; [|intros [? _]]. }
  apply eqb_false in Hs. cbv zeta. cbn [p_m NewPassphrase opened].
  assert (∀ refs : list secretRef, existsb (λ s0, negb (eqb "" "") && eqb (armored s0) "") refs = false) as ->
    by (intros refs; by induction refs).
  rewrite try_secrets_iff. cbn [p_s NewPassphrase]. unfold proves. split; [intros [[? _]|?]|intros [_ [?|?]]]; auto.
Qed.

(** * Witnesses *)
(** An age whose ciphertext of [x] under the passphrase k is k:x. *)
Definition colon_age (armored pass : string) : res (res string) :=
  match cut_prefix (pass +:+ ":") armored with
  | Some x => Ok (Ok x)
  | None => Er (if contains ":" armored then wrap_pre (sent ErrIncorrectIdentity) "no identity matched" else errorf "bad header")
  end.
Lemma Decrypt_is_DecryptString_witness :
  let p := (Decrypt (λ _, None) colon_age (remember (NewPassphrase "pw") "pw:one" "one") "pw:two").2 in
  rtc (pass_step (λ _, None) colon_age) (NewPassphrase "pw") p ∧
  (Decrypt (λ _, None) colon_age p "pw:one").1 = Ok "one".
Proof.
  cbv zeta.
  assert (rtc (pass_step (λ _, None) colon_age) (NewPassphrase "pw")
    (Decrypt (λ _, None) colon_age (remember (NewPassphrase "pw") "pw:one" "one") "pw:two").2) as Hsteps.
  { eapply rtc_l; [by apply (PRemember _ _ "pw:one" "one")|]. eapply rtc_l; [apply PDecrypt|apply rtc_refl]. }
  split; [exact Hsteps|]. exact (Decrypt_is_DecryptString (λ _, None) colon_age "pw" _ "pw:one" Hsteps).
Defined.
Example proved_past_an_unreadable_secret :
  let secret i c := {| tg_ID := i; tg_Host := ""; tg_Node := ""; tg_APIPort := 0; tg_InsecureTLS := false; Export_ := "";
                       Token := Some {| ta_ID := "t"; SecretEnc := c |}; tg_SSH := None; TLS := None |} in
  let judge l i := is_ok (prove (λ _, None) colon_age (NewPassphrase "pw") l i).1 in
  judge [secret "a" "torn"; secret "b" "pw:x"; secret "c" "other:x"] "a" = true ∧
  judge [secret "a" "torn"; secret "b" "pw:x"; secret "c" "other:x"] "c" = false ∧
  judge [secret "a" "torn"] "a" = false ∧ judge [] "a" = true.
Proof. by vm_compute. Qed.
