(* ===== verification/Rest.v ===== *)
(** The REST side of internal/pve: the exchanges a [Client] can make, its raw
    request ([RawRequest], the data envelope, [StatusError]) and the recognition
    of PVE's "does not exist" answers (notfound.go). *)
From Stdlib Require Import Ascii.
From S2P Require Import Prelude GoLib Errors Json.

(** ** url.Values *)
Abbreviation Values := (gmap string (list string)).
Definition vget (v : Values) (k : string) : string :=
  match v !! k with Some (x :: _) => x | _ => "" end.
Definition vset (v : Values) (k x : string) : Values := <[k := [x]]> v.
Definition values (l : list (string * string)) : Values :=
  foldl (λ v kv, vset v kv.1 kv.2) ∅ l.

(** ** What go-proxmox decodes for the typed GETs, as far as the code reads it. *)
Record Snapshot := { sn_name : string; sn_snaptime : Z; sn_vmstate : Z }.
Record StorageContent := { sc_volid : string; sc_vmid : Z }.
Record Storage := { st_type : string; st_shared : Z }.
Record Resource := { rs_type : string; rs_vmid : Z; rs_tags : string }.
Record VMConfig := { vc_digest : string; vc_tags : string; vc_hookscript : string }.
Record VMStatus := { vs_status : string; vs_qmpstatus : string }.
Record VirtualMachine :=
  { vm_status : string; vm_qmpstatus : string; vm_config : option VMConfig }.

Inductive http_res :=
| HBuild (e : err)                                 (* the request could not be built *)
| HTransport (e : err)                             (* httpClient.Do failed *)
| HReadErr (e : err)                               (* the body could not be read *)
| HResp (code : Z) (status body : string).

(** What the select of a wait loop wakes on. *)
Inductive wake := WDone (e : err) | WDeadline | WTick.

(** The exchanges of internal/pve. [Http] is one request of [RawRequest] and of
    [putVMConfig]; the [Pc*] ones are go-proxmox's typed GETs, whose [None]s are
    JSON nulls; [PcNewTask] is [proxmox.NewTask], answering the task's node ([None] for
    a nil task), and [PcTask] [Task.Ping] on a fresh task, answering its status
    and exit status; [CtxErr] reads [ctx.Err()], [Select] is the wait loop's select. *)
Inductive pveE : Type → Type :=
| Http (method path : string) (params : Values) : pveE http_res
| PcString (path : string) : pveE (res string)
| PcSnapshots (path : string) : pveE (res (option (list (option Snapshot))))
| PcContent (path : string) :
    pveE (res (option (list (option (option StorageContent * string)))))
| PcStorage (path : string) : pveE (res Storage)
| PcVMs (path : string) : pveE (res (option (list (option Z))))
| PcResources : pveE (res (option (list (option Resource))))
| PcVMStatus (path : string) : pveE (res VMStatus)
| PcVMConfig (path : string) : pveE (res (option VMConfig))
| PcRawMap (path : string) : pveE (res (option (gmap string json)))
| PcStoragePath (path : string) : pveE (res string)
| PcNewTask (upid : string) : pveE (option string)
| PcTask (upid : string) : pveE (res (string * string))
| CtxErr : pveE (option err)
| Select : pveE wake
| Warn (node upid exit : string) : pveE unit.      (* the caller's TaskWarningsFunc *)

(** The requests that change PVE's state, as they appear in a trace. *)
Definition mutation (ev : event pveE) : option (string * string * Values) :=
  match ev with
  | @Ev _ _ (Http m p v) _ => if eqb m "GET" then None else Some (m, p, v)
  | _ => None
  end.
Definition mutations (tr : list (event pveE)) : list (string * string * Values) :=
  omap mutation tr.

(** ** rawrequest.go *)
Definition NewStatusError (what : string) (code : Z) (status body : string) : err :=
  Err (KStatus code status body)
    (what +:+ ": pve returned " +:+ status +:+ ": " +:+ trim_space body) [].

Definition as_status (k : ekind) : option (Z * string * string) :=
  match k with KStatus c s b => Some (c, s, b) | _ => None end.
Definition as_px_status (k : ekind) : option (Z * string * string) :=
  match k with KPxStatus c s b => Some (c, s, b) | _ => None end.

Definition HTTPStatus (e : err) : option Z :=
  match errors_As as_status e with Some (c, _, _) => Some c | None => None end.

(** A struct field tagged [name]: encoding/json matches keys case-insensitively. *)
Definition struct_field (name : string) (l : list (string * json)) : option json :=
  snd <$> last (filter (λ kv : string * json, equal_fold kv.1 name = true) l).

Definition unwrapDataEnvelope (body : string) : res json :=
  let trimmed := trim_space body in
  if eqb trimmed "" then Ok JNull
  else match parse_json trimmed with
       | Some (JObj l) => Ok (default JNull (struct_field "data" l))
       | Some JNull => Ok JNull
       | _ => Er (wrapf "parse response body" (errorf "invalid JSON"))
       end.

Definition RawRequest (method path : string) (params : Values) : io pveE (res json) :=
  guard negb (eqb path "") orelse errorf "raw request: path is required" in
  guard has_prefix "/" path orelse
    errorf ("raw request: path " +:+ quote path +:+ " must start with '/'") in
  guard bool_decide (method ∈ ["GET"; "DELETE"; "POST"; "PUT"]) orelse
    errorf ("raw request: unsupported method " +:+ quote method) in
  let! r := trigger (Http method path params) in
  match r with
  | HBuild e => Ret (Er (wrapf "raw request: build request" e))
  | HTransport e => Ret (Er (wrapf "raw request" e))
  | HReadErr e => Ret (Er (wrapf "raw request: read response" e))
  | HResp code status body =>
      if ((code <? 200) || (300 <=? code))%Z
      then Ret (Er (NewStatusError "raw request" code status body))
      else Ret (let^ raw := unwrapDataEnvelope body orelse wrapf "raw request" in Ok raw)
  end.

(** ** notfound.go *)
Definition missingPhrase : string := "does not exist".
Record Subject :=
  { Fragment : string; Param : string; Name : string; Nouns : list string }.

Definition pveAnswer (e : err) : option string :=
  match errors_As as_status e with
  | Some (_, status, body) => Some (status +:+ ": " +:+ trim_space body)
  | None =>
      match errors_As as_px_status e with
      | Some (_, status, body) => Some (status +:+ ": " +:+ trim_space body)
      | None => None
      end
  end.

(** From the first opening brace on. *)
Fixpoint from_brace (s : string) : option string :=
  match s with
  | EmptyString => None
  | String c s' => if is_byte 123 c then Some s else from_brace s'
  end.

Definition parameterErrors (answer : string) : option (gmap string string) :=
  match from_brace answer with
  | None => None
  | Some t =>
      let structured := if contains (dq +:+ "errors" +:+ dq) t then Some ∅ else None in
      match decode_stream t with
      | Some (JObj l, _) =>
          match struct_field "errors" l with
          | Some (JObj es) => Some (omap as_string (fields_of es))
          | _ => structured
          end
      | _ => structured
      end
  end.

(** The pieces of the regular expressions below: [\s] is an ASCII space of the
    regexp package, [\w] a word character. *)
Definition re_space (c : ascii) : bool := one_of (" " +:+ chr 9 +:+ chr 10 +:+ chr 12 +:+ chr 13) c.
Definition re_word (c : ascii) : bool := is_alnum c || is_byte 95 c.
Definition drop_while (p : ascii → bool) (s : string) : string := (take_while p s).2.
Definition spaces1 (s : string) : option string :=
  let '(ws, rest) := take_while re_space s in if eqb ws "" then None else Some rest.
Definition cut_fold (p s : string) : option string :=
  match cut_prefix (to_lower p) (to_lower s) with
  | Some t => Some (String.substring (slen p) (slen s) s) | None => None end.
Definition or_else {A} (a b : option A) : option A :=
  match a with Some x => Some x | None => b end.

(** [(?i:noun)\s+(?:'name'|"name")\s+(?i:does not exist)] at the start of [s]. *)
Definition noun_phrase_at (name noun s : string) : bool :=
  match cut_fold noun s with
  | None => false
  | Some s1 =>
      match spaces1 s1 with
      | None => false
      | Some s2 =>
          match or_else (cut_prefix ("'" +:+ name +:+ "'") s2) (cut_prefix (dq +:+ name +:+ dq) s2) with
          | None => false
          | Some s3 =>
              match spaces1 s3 with
              | None => false
              | Some s4 => has_prefix missingPhrase (to_lower s4)
              end
          end
      end
  end.
(** Anywhere in the text, at a word boundary ([\b]). *)
Fixpoint noun_phrase (name : string) (nouns : list string) (prev_word : bool) (s : string) : bool :=
  (negb prev_word && existsb (λ n, noun_phrase_at name n s) nouns) ||
  match s with
  | EmptyString => false
  | String c s' => noun_phrase name nouns (re_word c) s'
  end.

(** [quotedName.FindAllStringSubmatch]: every quoted name, left to right. *)
Fixpoint quoted_names (n : nat) (s : string) : list string :=
  match n, s with
  | S n', String c s' =>
      if is_byte 39 c || is_byte 34 c then
        match cut c s' with
        | Some (name, rest) => name :: quoted_names n' rest
        | None => quoted_names n' s'
        end
      else quoted_names n' s'
  | _, _ => []
  end.

(** [(?i)^\s*(?:(?:nouns)\s+)?does not exist\.?\s*$]. *)
Definition bare_missing (s : string) : bool :=
  match cut_prefix missingPhrase s with
  | None => false
  | Some r =>
      let r' := match cut_prefix "." r with Some t => t | None => r end in
      eqb (drop_while re_space r') ""
  end.
Definition bare_entry (nouns : list string) (entry : string) : bool :=
  let s := drop_while re_space (to_lower entry) in
  bare_missing s ||
  existsb (λ n, match cut_prefix (to_lower n) s with
                | Some t => match spaces1 t with Some u => bare_missing u | None => false end
                | None => false
                end) nouns.

Definition entryNamesTarget (entry : string) (s : Subject) : bool :=
  if negb (contains missingPhrase (to_lower entry)) then false
  else match quoted_names (slen entry) entry with
       | [] => bare_entry (Nouns s) entry
       | [n] => eqb n (Name s)
       | _ => false
       end.

Definition NotFound (e : err) (s : Subject) : bool :=
  match pveAnswer e with
  | None => false
  | Some answer =>
      if negb (eqb (Fragment s) "") then
        let lower := to_lower answer in
        contains (to_lower (Fragment s)) lower && contains missingPhrase lower
      else if negb (eqb (Param s) "") && negb (eqb (Name s) "") && bool_decide (Nouns s ≠ []) then
        match parameterErrors answer with
        | Some entries => entryNamesTarget (default "" (entries !! Param s)) s
        | None => noun_phrase (Name s) (Nouns s) false answer
        end
      else false
  end.

(** ** unverifiable.go *)
Fixpoint nullEntry_go {A} (i : Z) (l : list (option A)) : option Z :=
  match l with
  | [] => None
  | None :: _ => Some i
  | Some _ :: l' => nullEntry_go (i + 1)%Z l'
  end.
(** The index of the first nil entry; [None] is Go's -1. *)
Definition nullEntry {A} (l : list (option A)) : option Z := nullEntry_go 0 l.

(** A list read that refuses a null list and a null entry. *)
Definition null_checked {A} (pre lst ent : string) (l : option (list (option A))) : res (list A) :=
  match l with
  | None => Er (wrapf_post pre (sent ErrUnverifiableRead) lst)
  | Some l =>
      match nullEntry l with
      | Some i => Er (wrapf_post pre (sent ErrUnverifiableRead) (ent +:+ itoa i +:+ " is null"))
      | None => Ok (omap id l)
      end
  end.

(** An environment that answers raw requests by [f] and fails everything else. *)
Definition rest_env (f : string → string → Values → http_res) : env pveE unit := λ R e,
  let down := errorf "down" in
  match e in pveE R return unit → R * unit with
  | Http m p v => λ s, (f m p v, s)
  | PcString _ => λ s, (Er down, s)
  | PcSnapshots _ => λ s, (Er down, s)
  | PcContent _ => λ s, (Er down, s)
  | PcStorage _ => λ s, (Er down, s)
  | PcVMs _ => λ s, (Er down, s)
  | PcResources => λ s, (Er down, s)
  | PcVMStatus _ => λ s, (Er down, s)
  | PcVMConfig _ => λ s, (Er down, s)
  | PcRawMap _ => λ s, (Er down, s)
  | PcStoragePath _ => λ s, (Er down, s)
  | PcNewTask _ => λ s, (None, s)
  | PcTask _ => λ s, (Er down, s)
  | CtxErr => λ s, (None, s)
  | Select => λ s, (WDeadline, s)
  | Warn _ _ _ => λ s, (tt, s)
  end.

(** * Lemmas *)
(** A raw request makes at most one exchange, of the method, path and parameters
    it was given, and a value is the data of a 2xx answer. *)
Definition answered (r : http_res) (j : json) : Prop :=
  ∃ code status body, r = HResp code status body ∧ (200 ≤ code < 300)%Z ∧
    unwrapDataEnvelope body = Ok j.
Lemma RawRequest_spec m p v :
  always (RawRequest m p v) (λ tr r,
    (tr = [] ∧ is_ok r = false) ∨
    ∃ hr, tr = [Ev (Http m p v) hr] ∧ ∀ j, r = Ok j → answered hr j).
Proof.
  unfold RawRequest. io_run. all: try (left; done). all: right; eexists; split; [done|].
  all: intros j Hj; try done. cbv zeta in Hj. destruct (unwrapDataEnvelope body) eqn:Hu; [|done].
  injection Hj as <-. do 3 eexists. split_and!; [done|lia..|done].
Qed.
#[export] Hint Resolve RawRequest_spec : io.
Lemma RawRequest_total m p v : total (RawRequest m p v).
Proof. unfold RawRequest. repeat (case_match; try done). intros []; cbn; try done. by case_match. Qed.

Lemma nullEntry_go_None {A} i (l : list (option A)) :
  nullEntry_go i l = None → ∃ l', l = Some <$> l'.
Proof.
  revert i. induction l as [|[x|] l IH]; intros i H; simpl in *; [by exists []| |done].
  apply IH in H as [l' ->]. by exists (x :: l').
Qed.
Definition somes {A} (l : list A) : list (option A) := Some <$> l.
(** The checked list holds every entry of the answer, which held no null. *)
Lemma null_checked_Ok {A} pre lst ent (l : option (list (option A))) xs :
  null_checked pre lst ent l = Ok xs → l = Some (somes xs).
Proof.
  destruct l as [l|]; simpl; [|done]. destruct (nullEntry l) eqn:H; [done|].
  apply nullEntry_go_None in H as [l' ->]. intros [= <-]. f_equal. unfold somes. f_equal.
  induction l' as [|x l' IH]; simpl; [done|]. by f_equal.
Qed.

Lemma mutations_app tr1 tr2 : mutations (tr1 ++ tr2) = mutations tr1 ++ mutations tr2.
Proof. apply omap_app. Qed.
#[export] Hint Rewrite mutations_app : go.
