(* ===== verification/Vms.v ===== *)
(** internal/pve's VM requests: reads (vms.go), config writes with their digest
    guard (vmconfig.go), create/clone/stop/destroy/shutdown (vmcreate.go,
    vmclone.go, vmdestroy.go, vmshutdown.go), the VMID allocator (nextvmid.go)
    and the tag lookups (findbytag.go). *)
From Stdlib Require Import Ascii.
From S2P Require Import Prelude GoLib Errors Json Rest.

(** ** vms.go *)
Definition qemu_path (node : string) : string := "/nodes/" +:+ path_escape node +:+ "/qemu".
Definition vm_path (node : string) (vmid : Z) (rest : string) : string :=
  qemu_path node +:+ "/" +:+ itoa vmid +:+ rest.

Definition GetVM (node : string) (vmid : Z) : io pveE (res VirtualMachine) :=
  guard negb (eqb node "") orelse errorf ("get vm " +:+ itoa vmid +:+ ": node is required") in
  let? st := trigger (PcVMStatus (vm_path node vmid "/status/current"))
    orelse wrapf ("get vm " +:+ itoa vmid +:+ " status") in
  guard negb (eqb (vs_status st) "") orelse
    wrapf_post ("get vm " +:+ itoa vmid +:+ " status") (sent ErrUnverifiableRead)
      "payload carries no run status" in
  let? cfg := trigger (PcVMConfig (vm_path node vmid "/config"))
    orelse wrapf ("get vm " +:+ itoa vmid +:+ " config") in
  guard bool_decide (is_Some cfg) orelse
    wrapf_post ("get vm " +:+ itoa vmid +:+ " config") (sent ErrUnverifiableRead)
      "config payload was null" in
  Ret (Ok {| vm_status := vs_status st; vm_qmpstatus := vs_qmpstatus st; vm_config := cfg |}).

(** The VMIDs of a node's QEMU list. *)
Definition GetVMs (node : string) : io pveE (res (list Z)) :=
  guard negb (eqb node "") orelse errorf "get vms: node is required" in
  let? vms := trigger (PcVMs (qemu_path node)) orelse wrapf ("get vms on " +:+ quote node) in
  Ret (null_checked ("get vms on " +:+ quote node) "list payload was null" "entry " vms).

(** ** vmconfig.go *)
Definition putVMConfig (node : string) (vmid : Z) (form : Values) (what : string)
    : io pveE (res unit) :=
  let! r := trigger (Http "PUT" (vm_path node vmid "/config") form) in
  Ret match r with
      | HBuild e => Er (wrapf (what +:+ ": build request") e)
      | HTransport e => Er (wrapf what e)
      | HReadErr e => Er (wrapf (what +:+ ": read response") e)
      | HResp code status body =>
          if ((200 <=? code) && (code <? 300))%Z then Ok tt
          else Er (NewStatusError what code status body)
      end.

Definition SetVMConfigFieldCAS (node : string) (vmid : Z) (fld value expectDigest : string)
    : io pveE (res unit) :=
  guard negb (eqb node "") orelse
    errorf ("set vm " +:+ itoa vmid +:+ " field " +:+ quote fld +:+ ": node is required") in
  guard negb (eqb fld "") orelse
    errorf ("set vm " +:+ itoa vmid +:+ " config: field name is required") in
  let form := vset ∅ fld value in
  let form := if eqb expectDigest "" then form else vset form "digest" expectDigest in
  putVMConfig node vmid form ("set vm " +:+ itoa vmid +:+ " field " +:+ quote fld).
Definition SetVMConfigField (node : string) (vmid : Z) (fld value : string)
    : io pveE (res unit) :=
  SetVMConfigFieldCAS node vmid fld value "".

Definition DeleteVMConfigFieldCAS (node : string) (vmid : Z) (fld expectDigest : string)
    : io pveE (res unit) :=
  guard negb (eqb node "") orelse
    errorf ("delete vm " +:+ itoa vmid +:+ " field " +:+ quote fld +:+ ": node is required") in
  guard negb (eqb fld "") orelse
    errorf ("delete vm " +:+ itoa vmid +:+ " config: field name is required") in
  let form := vset ∅ "delete" fld in
  let form := if eqb expectDigest "" then form else vset form "digest" expectDigest in
  putVMConfig node vmid form ("delete vm " +:+ itoa vmid +:+ " field " +:+ quote fld).
Definition DeleteVMConfigField (node : string) (vmid : Z) (fld : string) : io pveE (res unit) :=
  DeleteVMConfigFieldCAS node vmid fld "".

Definition IsDigestConflictError (e : err) : bool := contains "digest" (to_lower (Error e)).

(** ** vmcreate.go *)
Definition decodeUPIDScalar (raw : json) : res string :=
  match raw with
  | JNull => Er (errorf ("decode upid: unexpected response " +:+ compact raw
                         +:+ ": expected a UPID string, got null"))
  | _ => match as_string raw with
         | Some upid => Ok upid
         | None => Er (wrapf ("decode upid: unexpected response " +:+ compact raw)
                         (errorf "json: cannot unmarshal into Go value of type string"))
         end
  end.

(** One request answered by a task's UPID. *)
Definition upid_request (method path : string) (params : Values) (what : string)
    : io pveE (res string) :=
  let? raw := RawRequest method path params orelse wrapf what in
  Ret (let^ upid := decodeUPIDScalar raw orelse wrapf what in Ok upid).

Definition CreateVM (node : string) (vmid : Z) (params : Values) : io pveE (res string) :=
  let what := "create vm " +:+ itoa vmid in
  guard negb (eqb node "") orelse errorf (what +:+ ": node is required") in
  upid_request "POST" (qemu_path node) (vset params "vmid" (itoa vmid)) what.

(** ** vmclone.go *)
Definition CloneVM (node : string) (sourceVMID newVMID : Z) (params : Values)
    : io pveE (res string) :=
  guard negb (eqb node "") orelse
    errorf ("clone vm " +:+ itoa sourceVMID +:+ ": node is required") in
  upid_request "POST" (vm_path node sourceVMID "/clone") (vset params "newid" (itoa newVMID))
    ("clone vm " +:+ itoa sourceVMID +:+ " to " +:+ itoa newVMID).

(** ** vmshutdown.go *)
Definition ShutdownVM (node : string) (vmid : Z) : io pveE (res string) :=
  let what := "shutdown vm " +:+ itoa vmid in
  guard negb (eqb node "") orelse errorf (what +:+ ": node is required") in
  upid_request "POST" (vm_path node vmid "/status/shutdown") ∅ what.

(** ** vmdestroy.go *)
Definition StopVM (node : string) (vmid : Z) : io pveE (res string) :=
  let what := "stop vm " +:+ itoa vmid in
  guard negb (eqb node "") orelse errorf (what +:+ ": node is required") in
  upid_request "POST" (vm_path node vmid "/status/stop") ∅ what.
Definition DestroyVM (node : string) (vmid : Z) (purge : bool) : io pveE (res string) :=
  let what := "destroy vm " +:+ itoa vmid in
  guard negb (eqb node "") orelse errorf (what +:+ ": node is required") in
  upid_request "DELETE" (vm_path node vmid "")
    (if purge then vset ∅ "purge" "1" else ∅) what.

(** PVE's tag separator, [proxmox.TagSeperator]. *)
Definition tag_sep : ascii := byte 59.
Definition has_tag (tag : string) (r : Resource) : bool :=
  existsb (eqb tag) (Split tag_sep (rs_tags r)).

Definition read_resources (what : string) : io pveE (res (list Resource)) :=
  let? rs := trigger PcResources orelse wrapf what in
  Ret (null_checked what "resource list payload was null" "resource list entry " rs).

Definition TagStillClaimed (tag : string) (excludeVMID : Z) : io pveE (res bool) :=
  guard negb (eqb tag "") orelse errorf "tag still claimed: tag is required" in
  let? rs := read_resources ("tag still claimed " +:+ quote tag) orelse id in
  let exclude := (excludeVMID mod 2 ^ 64)%Z in         (* uint64(excludeVMID) *)
  Ret (Ok (existsb (λ r, eqb (rs_type r) "qemu" && negb (rs_vmid r =? exclude)%Z
                         && has_tag tag r) rs)).

(** ** findbytag.go *)
Definition FindByTag (tag : string) : io pveE (res Resource) :=
  guard negb (eqb tag "") orelse errorf "find by tag: tag is required" in
  guard negb (any_byte (is_byte 59) tag) orelse
    errorf ("find by tag: tag " +:+ quote tag +:+ " contains the tag separator " +:+ quote ";") in
  let? rs := read_resources ("find by tag " +:+ quote tag) orelse id in
  Ret match filter (λ r, eqb (rs_type r) "qemu" && has_tag tag r = true) rs with
      | [] => Er (wrapf ("find by tag " +:+ quote tag) (sent ErrNotFound))
      | [r] => Ok r
      | ms => Er (wrapf ("find by tag " +:+ quote tag +:+ ": "
                         +:+ itoa (Z.of_nat (length ms)) +:+ " matches") (sent ErrAmbiguousTag))
      end.

(** ** nextvmid.go *)
Definition maxNextVMIDWalkAttempts : nat := 1000.

Definition isVMIDTakenError (e : err) (vmid : Z) : bool :=
  contains (to_lower ("VM " +:+ itoa vmid +:+ " already exists")) (to_lower (Error e)).

Definition vmidFree (vmid : Z) : io pveE (res bool) :=
  let! r := trigger (PcString ("/cluster/nextid?vmid=" +:+ itoa vmid)) in
  Ret match r with
      | Ok ret =>
          if eqb ret "" then
            Er (wrapf_post ("check vmid " +:+ itoa vmid) (sent ErrUnverifiableRead)
                  "nextid payload was null")
          else Ok true
      | Er e => if isVMIDTakenError e vmid then Ok false else Er e
      end.

(** The walk past PVE's own suggestion: [n] attempts left, the next one [i] past
    [candidate]. *)
Fixpoint walk (excluded : Z → bool) (candidate i : Z) (n : nat) : io pveE (res Z) :=
  match n with
  | 0 => Ret (Er (errorf ("next vmid: no free vmid found within "
           +:+ itoa (Z.of_nat maxNextVMIDWalkAttempts) +:+ " attempts past " +:+ itoa candidate)))
  | S n' =>
      let next := wrap64 (candidate + i) in
      if excluded next then walk excluded candidate (i + 1) n'
      else
        let? free := vmidFree next orelse wrapf ("next vmid: check " +:+ itoa next) in
        if free : bool then Ret (Ok next) else walk excluded candidate (i + 1) n'
  end.

Definition NextVMID (pin : Z) (exclude : list Z) : io pveE (res Z) :=
  let excluded z := bool_decide (z ∈ exclude) in
  if negb (pin =? 0)%Z then
    guard negb (excluded pin) orelse
      errorf ("next vmid: pin " +:+ itoa pin +:+ " is also in the exclude list") in
    let? free := vmidFree pin orelse wrapf ("next vmid: check pin " +:+ itoa pin) in
    guard free orelse errorf ("next vmid: pin " +:+ itoa pin +:+ " is already taken") in
    Ret (Ok pin)
  else
    let? raw := trigger (PcString "/cluster/nextid") orelse wrapf "next vmid" in
    match atoi raw with
    | None => Ret (Er (wrapf ("next vmid: parse nextid response " +:+ quote raw)
                         (errorf "strconv.Atoi: invalid syntax")))
    | Some candidate =>
        if negb (excluded candidate) then Ret (Ok candidate)
        else walk excluded candidate 1 maxNextVMIDWalkAttempts
    end.

(** * Lemmas *)
Lemma putVMConfig_spec node vmid form what :
  always (putVMConfig node vmid form what) (λ tr r,
    ∃ hr, tr = [Ev (Http "PUT" (vm_path node vmid "/config") form) hr] ∧
      (r = Ok tt ↔ ∃ code status body, hr = HResp code status body ∧ (200 ≤ code < 300)%Z)).
Proof.
  unfold putVMConfig. io_run. eexists; split; [done|]. case_match; try naive_solver.
  destruct (_ && _)%bool eqn:Hc; (split; [intros Hr|intros (?&?&?&[= -> -> ->]&?)]); try done;
    [do 3 eexists; split; [done|]|]; lia.
Qed.
(** A 2xx answer that carries the UPID. *)
Definition answered_upid (r : http_res) (upid : string) : Prop :=
  ∃ j, answered r j ∧ decodeUPIDScalar j = Ok upid.
Lemma upid_request_spec m p v what :
  always (upid_request m p v what) (λ tr r,
    ((tr = [] ∧ is_ok r = false) ∨
     ∃ hr, tr = [Ev (Http m p v) hr] ∧ ∀ upid, r = Ok upid → answered_upid hr upid) ∧
    (∀ e, r = Er e → kind e = KText)).
Proof.
  unfold upid_request. eapply always_call; [apply RawRequest_spec|]. intros tr r H.
  destruct r as [j|e]; cbn [always]; rewrite app_nil_r.
  - split; [|by destruct (decodeUPIDScalar j); intros ? [= <-]].
    destruct H as [[_ ?]|(hr & -> & Hok)]; [done|]. right. exists hr. split; [done|].
    intros upid Hu. exists j. split; [by apply Hok|]. by destruct (decodeUPIDScalar j).
  - split; [|by intros ? [= <-]].
    destruct H as [[-> _]|(hr & -> & _)]; [by left|right; by exists hr].
Qed.
#[export] Hint Resolve putVMConfig_spec upid_request_spec : io.

(** The last exchange of [tr] is PVE answering that [v] is free. *)
Definition ends_free (v : Z) (tr : list (event pveE)) : Prop :=
  ∃ tr0 ans, ans ≠ "" ∧
    tr = tr0 ++ [Ev (PcString ("/cluster/nextid?vmid=" +:+ itoa v)) (Ok ans)].
Lemma ends_free_app v tr tr' : ends_free v tr' → ends_free v (tr ++ tr').
Proof. intros (tr0 & ans & Hne & ->). exists (tr ++ tr0), ans. by rewrite app_assoc. Qed.

Lemma vmidFree_spec vmid :
  always (vmidFree vmid) (λ tr r, length tr = 1 ∧ (r = Ok true → ends_free vmid tr)).
Proof.
  unfold vmidFree. io_run. split; [done|]. case_match; simplify_eq.
  - destruct (eqb _ _) eqn:He; [done|]. intros _. exists [], a. split; [|done].
    intros ->. done.
  - case_match; done.
Qed.
#[export] Hint Resolve vmidFree_spec : io.

Lemma walk_spec excluded c i n :
  always (walk excluded c i n) (λ tr r,
    length tr ≤ n ∧
    ∀ v, r = Ok v → excluded v = false ∧ ends_free v tr ∧
      ∃ k, (i ≤ k < i + Z.of_nat n)%Z ∧ v = wrap64 (c + k)).
Proof.
  revert i. induction n as [|n IH]; intros i; cbn [walk]; [split; [simpl; lia|done]|].
  destruct (excluded (wrap64 (c + i))) eqn:Hex.
  - eapply always_mono; [|apply IH]. intros tr r [Hl H]. split; [lia|].
    intros v Hv. destruct (H v Hv) as (? & ? & k & ? & ?). repeat split; auto.
    exists k. split; [lia|done].
  - eapply always_call; [apply vmidFree_spec|]. intros tr r [Hl Hf].
    destruct r as [[|]|e].
    + simpl. rewrite app_nil_r. split; [lia|]. intros v [= <-]. split; [done|]. split; [auto|].
      exists i. split; [lia|done].
    + eapply always_mono; [|apply IH]. intros tr' r [Hl' H]. rewrite length_app.
      split; [lia|]. intros v Hv. destruct (H v Hv) as (? & ? & k & ? & ?).
      repeat split; auto using ends_free_app. exists k. split; [lia|done].
    + simpl. rewrite app_nil_r. split; [lia|done].
Qed.

(** * Properties *)

(** A VMID [NextVMID] hands out is never one of the excluded ones; it is the
    pin when one was given, and either PVE's own untouched suggestion or a number
    PVE was asked about last and answered free. The search makes at most one
    suggestion request and 1000 checks. *)
Theorem NextVMID_sound pin exclude :
  always (NextVMID pin exclude) (λ tr r,
    length tr ≤ 1 + maxNextVMIDWalkAttempts ∧
    ∀ v, r = Ok v →
      v ∉ exclude ∧ (pin ≠ 0%Z → v = pin) ∧
      (ends_free v tr ∨
       pin = 0%Z ∧ ∃ raw, tr = [Ev (PcString "/cluster/nextid") (Ok raw)] ∧ atoi raw = Some v)).
Proof.
  unfold NextVMID. destruct (pin =? 0)%Z eqn:Hpin; cbn [negb].
  - apply Z.eqb_eq in Hpin as ->.
    cbn [always bind trigger app]. intros [raw|e]; [|split; [simpl; lia|done]].
    destruct (atoi raw) as [c|] eqn:Hc; [|split; [simpl; lia|done]].
    case_bool_decide as Hex; cbn [negb].
    + eapply always_mono; [|apply walk_spec]. intros tr r [Hl H]. simpl. split; [lia|].
      intros v Hv. destruct (H v Hv) as (Hexv & Hf & _).
      case_bool_decide; [done|]. split_and!; [done|done|left].
      by apply (ends_free_app v [_]).
    + split; [simpl; lia|]. intros v [= <-]. split_and!; [done|done|]. right. eauto.
  - apply Z.eqb_neq in Hpin. case_bool_decide as Hex; cbn [negb]; [split; [simpl; lia|done]|].
    eapply always_call; [apply vmidFree_spec|]. intros tr [[]|e] [Hl Hf]; simpl;
      rewrite app_nil_r; (split; [lia|]); intros v; [|done|done].
    intros [= <-]. auto.
Qed.

Definition carries (tag : string) (r : Resource) : Prop :=
  rs_type r = "qemu" ∧ tag ∈ Split tag_sep (rs_tags r).
Lemma has_tag_spec tag r : has_tag tag r = true ↔ tag ∈ Split tag_sep (rs_tags r).
Proof.
  unfold has_tag. rewrite existsb_exists, list_elem_of_In. split.
  - intros (t & Hin & ->%eqb_true). done.
  - intros Hin. exists tag. auto using eqb_refl.
Qed.
Lemma read_resources_spec what :
  always (read_resources what) (λ tr r,
    length tr = 1 ∧ ∀ rs : list Resource, r = Ok rs →
      tr = [Ev PcResources (Ok (Some (somes rs)))]).
Proof.
  unfold read_resources. io_run; (split; [done|]); [|done].
  by intros rs ->%null_checked_Ok.
Qed.
(** [FindByTag] answers a resource only when it is the one QEMU guest of the
    whole list that carries the tag as an exact element; it refuses a list it
    could not read completely. *)
Theorem FindByTag_unique tag :
  always (FindByTag tag) (λ tr r, ∀ v, r = Ok v →
    tag ≠ "" ∧ ∃ rs1 rs2 : list Resource,
      tr = [Ev PcResources (Ok (Some (somes (rs1 ++ v :: rs2))))] ∧
      carries tag v ∧ Forall (λ w, ¬ carries tag w) (rs1 ++ rs2)).
Proof.
  unfold FindByTag. destruct (eqb tag "") eqn:He; cbn [negb]; [done|].
  destruct (any_byte _ tag); cbn [negb]; [done|].
  eapply always_call; [apply read_resources_spec|]. intros tr [rs|e] [_ Hrs]; [|done].
  simpl. rewrite app_nil_r. intros v Hv. split; [intros ->; done|]. rewrite (Hrs rs eq_refl).
  assert (filter (λ r, eqb (rs_type r) "qemu" && has_tag tag r = true) rs = [v]) as Hf.
  { destruct (filter _ rs) as [|x [|]]; naive_solver. }
  assert (∀ w, (eqb (rs_type w) "qemu" && has_tag tag w = true) ↔ carries tag w) as Hc.
  { intros w. by rewrite andb_true_iff, eqb_true, has_tag_spec. }
  apply filter_singleton in Hf as (rs1 & rs2 & -> & Hv' & Hall).
  exists rs1, rs2. split_and!; [done|by apply Hc|].
  eapply Forall_impl; [exact Hall|]. intros w Hw. by rewrite <- Hc.
Qed.

(** A refusal that is no conflict is taken for one when the field's name holds the word:
    every message names the field. *)
Lemma digest_in_field_name : ∃ form k e,
  SetVMConfigFieldCAS "pve1" 9 "x-digest" "1" "abc" = Vis (Http "PUT" (vm_path "pve1" 9 "/config") form) k ∧
  k (HResp 403 "403 Forbidden" "Permission check failed") = Ret (Er e) ∧ IsDigestConflictError e = true.
Proof. do 3 eexists. split; [reflexivity|]. split; [reflexivity|]. by vm_compute. Qed.
