(* ===== verification/Task.v ===== *)
(** task.go: what a UPID looks like, what an exit status means, and
    [WaitForTask], the loop that polls a task until it stops, the deadline passes
    or the context is canceled. *)
From Stdlib Require Import Ascii.
From S2P Require Import Prelude GoLib Errors Json Rest Vms.

(** ** Exit statuses *)
Definition taskExitOK : string := "OK".
(** [^WARNINGS: \d+$]. *)
Definition taskExitWarnings (s : string) : bool :=
  match cut_prefix "WARNINGS: " s with
  | Some d => negb (eqb d "") && all_bytes is_digit d
  | None => false
  end.
Definition taskExitSucceeded (exitStatus : string) : bool :=
  eqb exitStatus taskExitOK || taskExitWarnings exitStatus.

(** ** UPIDs *)
(** [[a-zA-Z0-9](?:[a-zA-Z0-9-]*[a-zA-Z0-9])?]. *)
Definition upid_node_ok (s : string) : bool :=
  match s, srev s with
  | String c _, String d _ =>
      is_alnum c && is_alnum d && all_bytes (λ x, is_alnum x || is_byte 45 x) s
  | _, _ => false
  end.
Definition hex_field (lo hi : nat) (s : string) : bool :=
  all_bytes is_hex s && bool_decide (lo ≤ slen s ≤ hi).
Definition no_slash (s : string) : bool := negb (any_byte (is_byte 47) s).
(** The groups of [upidGrammar]: type, id and user. *)
Definition upidGrammar (upid : string) : option (string * string * string) :=
  match Split (byte 58) upid with
  | [u; node; pid; pstart; start; typ; id; user; last] =>
      if eqb u "UPID" && upid_node_ok node && hex_field 8 8 pid && hex_field 8 9 pstart
         && hex_field 8 8 start && negb (eqb typ "") && no_slash typ && no_slash id
         && negb (eqb user "") && no_slash user && eqb last ""
      then Some (typ, id, user) else None
  | _ => None
  end.
Definition space_or_control (s : string) : bool := any_rune (λ r, is_space r || is_control r) s.

Definition validateUPIDShape (upid : string) : res unit :=
  match upidGrammar upid with
  | None => Er (wrapf ("malformed upid " +:+ quote upid
      +:+ ": not PVE's UPID:<node>:<pid>:<pstart>:<starttime>:<type>:<id>:<user>: form")
      (sent ErrUnverifiableRead))
  | Some (typ, id, user) =>
      let bad f := Er (wrapf ("malformed upid " +:+ quote upid +:+ ": its " +:+ f
                     +:+ " field holds whitespace or a control character")
                     (sent ErrUnverifiableRead)) in
      if space_or_control typ then bad "type"
      else if space_or_control id then bad "id"
      else if space_or_control user then bad "user"
      else Ok tt
  end.

(** The second field, as [strings.SplitN(upid, ":", 3)[1]]. *)
Definition UPIDNode (upid : string) : res string :=
  let^ _ := validateUPIDShape upid orelse id in
  Ok (nth 1 (Split (byte 58) upid) "").

(** ** One poll *)
Definition pollTask (upid : string) : io pveE (res (string * string)) :=
  let? p := trigger (PcTask upid) orelse id in
  guard negb (eqb p.1 "") orelse sent errNoTaskStatus in
  Ret (Ok p).

Definition is_url (k : ekind) : option unit := match k with KUrl => Some tt | _ => None end.
Definition isTransientPollError (e : err) : bool :=
  if errors_Is errNoTaskStatus e then true
  else match errors_As as_px_status e with
       | Some (code, _, _) =>
           (bool_decide (code = 502 ∨ code = 503 ∨ code = 504)
            || ((595 <=? code) && (code <=? 599)))%Z
       | None => match errors_As is_url e with Some _ => true | None => false end
       end.

(** ** The wait *)
Definition maxConsecutiveTransientPolls : nat := 3.
Definition TaskFailedError (upid exit : string) : err :=
  Err (KTaskFailed upid exit) ("task " +:+ upid +:+ " failed: " +:+ exit) [].
Definition outcomeUnknown (upid : string) (cause : err) : err :=
  wrapf ("wait for task" +:+ (if eqb upid "" then "" else " " +:+ upid))
    (Err KTaskOutcomeUnknown (Error cause) [cause]).
Definition reportTaskWarnings (node upid exit : string) : io pveE unit :=
  trigger (Warn node upid exit).

(** What one poll decides: the wait's result, or to wait on with a new count of
    consecutive transient failures. *)
Definition judge_poll (node upid : string) (transient : nat) (poll : res (string * string))
    : io pveE (res unit + nat) :=
  match poll with
  | Ok (status, exit) =>
      if eqb status "running" then Ret (inr 0)
      else if eqb status "stopped" then
        if taskExitSucceeded exit then
          let! _ := (if eqb exit taskExitOK then Ret tt
                     else reportTaskWarnings node upid exit) in
          Ret (inl (Ok tt))
        else if eqb exit "" then
          Ret (inl (Er (outcomeUnknown upid (wrapf
            "task status poll reported stopped with no exit status" (sent ErrUnverifiableRead)))))
        else Ret (inl (Er (TaskFailedError upid exit)))
      else Ret (inl (Er (outcomeUnknown upid (wrapf
             ("task status poll reported unknown status " +:+ quote status)
             (sent ErrUnverifiableRead)))))
  | Er cause =>
      let! canceled := trigger CtxErr in
      match canceled with
      | Some _ => Ret (inl (Er (outcomeUnknown upid cause)))
      | None =>
          if isTransientPollError cause then
            if decide (maxConsecutiveTransientPolls < S transient)
            then Ret (inl (Er (outcomeUnknown upid cause)))
            else Ret (inr (S transient))
          else Ret (inl (Er (outcomeUnknown upid cause)))
      end
  end.

(** The loop. Its fuel bounds the number of polls. *)
Fixpoint wait_loop (fuel : nat) (node upid : string) (transient : nat) : io pveE (res unit) :=
  match fuel with
  | 0 => Stuck
  | S fuel' =>
      let! poll := pollTask upid in
      let! v := judge_poll node upid transient poll in
      match v with
      | inl r => Ret r
      | inr transient' =>
          let! w := trigger Select in
          match w with
          | WDone e => Ret (Er (outcomeUnknown upid e))
          | WDeadline => Ret (Er (outcomeUnknown upid (sent ErrTimeout)))
          | WTick => wait_loop fuel' node upid transient'
          end
      end
  end.

(** The deadline of ten minutes over a poll interval of one second: the select
    can tick 600 times before the deadline is what it wakes on. *)
Definition TaskWaitCeiling : nat := 600.
Definition defaultTaskPollInterval : nat := 1.
Definition max_polls : nat := S (TaskWaitCeiling / defaultTaskPollInterval).

Definition WaitForTask (node upid : string) : io pveE (res unit) :=
  guard negb (eqb upid "") orelse outcomeUnknown upid (errorf "upid is required") in
  match validateUPIDShape upid with
  | Er e => Ret (Er (outcomeUnknown upid e))
  | Ok _ =>
      guard negb (eqb node "") orelse outcomeUnknown upid (errorf "node is required") in
      let! parsed := trigger (PcNewTask upid) in
      match parsed with
      | None => Ret (Er (outcomeUnknown upid (errorf "empty upid")))
      | Some n =>
          guard eqb n node orelse
            outcomeUnknown upid (errorf ("upid " +:+ quote upid +:+ " is for node " +:+ quote n
                                         +:+ ", not " +:+ quote node)) in
          wait_loop max_polls node upid 0
      end
  end.

(** ** Classifying a wait's error *)
Definition IsTaskOutcomeUnknown (e : err) : bool :=
  match errors_As (λ k, match k with KTaskOutcomeUnknown => Some tt | _ => None end) e with
  | Some _ => true | None => false end.
Definition IsTaskTimeoutError (e : err) : bool := errors_Is ErrTimeout e.

(** * Lemmas *)
(** A poll that failed: no answer, or one with no status. *)
Definition failed_poll (p : res (string * string)) : bool :=
  match p with Ok (status, _) => eqb status "" | Er _ => true end.
Definition poll_event (ev : event pveE) : option bool :=
  match ev with
  | @Ev _ _ (PcTask _) p => Some (failed_poll p)
  | _ => None
  end.
(** Whether each poll of a trace failed, in order. *)
Definition polls (tr : list (event pveE)) : list bool := omap poll_event tr.

Definition selects (tr : list (event pveE)) : list wake :=
  omap (λ ev : event pveE, match ev with @Ev _ _ Select w => Some w | _ => None end) tr.
Definition ticks (tr : list (event pveE)) : nat :=
  length (filter (λ w, match w with WTick => true | _ => false end = true) (selects tr)).

(** No run of failures exceeds [n], the [t] before the list included. *)
Fixpoint runs_below (n t : nat) (l : list bool) : Prop :=
  match l with
  | [] => True
  | true :: l' => t < n ∧ runs_below n (S t) l'
  | false :: l' => runs_below n 0 l'
  end.
Lemma runs_below_replicate n t k l l' :
  runs_below n t (l ++ replicate k true ++ l') → k ≤ n.
Proof.
  revert t. induction l as [|[] l IH]; intros t; simpl.
  - revert t. assert (∀ t, t ≤ n → runs_below n t (replicate k true ++ l') → t + k ≤ n) as H.
    { induction k as [|k IH]; simpl; intros t Ht; [lia|]. intros [? H].
      specialize (IH (S t) ltac:(lia) H). lia. }
    intros t Hr. destruct k as [|k]; [lia|]. destruct Hr as [Ht Hr].
    specialize (H t ltac:(lia) (conj Ht Hr)). lia.
  - intros [_ H]. eauto.
  - eauto.
Qed.

(** ** How a wait ends

    Written from what PVE and the clock answer, not from the loop. *)
(** The exit statuses of a task that did its work. *)
Definition exit_good (exit : string) : Prop :=
  exit = "OK" ∨ ∃ d, d ≠ "" ∧ all_bytes is_digit d = true ∧ exit = "WARNINGS: " +:+ d.
Lemma exit_good_iff exit : taskExitSucceeded exit = true ↔ exit_good exit.
Proof.
  unfold taskExitSucceeded, taskExitWarnings, exit_good. rewrite orb_true_iff, eqb_true. f_equiv; [done|].
  destruct (cut_prefix "WARNINGS: " exit) as [d|] eqn:Hc.
  - split.
    + intros [? ?]%andb_true_iff. exists d. rewrite <- negb_eqb. by apply cut_prefix_spec in Hc.
    + intros (d' & ? & ? & Hd). apply cut_prefix_spec in Hd. rewrite Hc in Hd. simplify_eq.
      by rewrite andb_true_iff, negb_eqb.
  - split; [done|]. intros (d & _ & _ & Hd%cut_prefix_spec). congruence.
Qed.

(** A failure of a poll that may pass: no status in the answer, one of a gateway's status
    codes, or no answer at all. *)
Definition passing (p : res (string * string)) : Prop :=
  match p with
  | Ok (status, _) => status = ""
  | Er e =>
      errors_Is errNoTaskStatus e = true ∨
      match errors_As as_px_status e with
      | Some (code, _, _) => code ∈ [502; 503; 504; 595; 596; 597; 598; 599]%Z
      | None => errors_As is_url e = Some tt
      end
  end.
Definition poll_error (p : res (string * string)) : err :=
  match p with Ok _ => sent errNoTaskStatus | Er e => e end.
Lemma passing_iff p : failed_poll p = true → isTransientPollError (poll_error p) = true ↔ passing p.
Proof.
  destruct p as [[st exit]|e]; simpl; [by intros ->%eqb_true|]. intros _. unfold isTransientPollError.
  destruct (errors_Is errNoTaskStatus e); [naive_solver|].
  destruct (errors_As as_px_status e) as [[[code st] body]|].
  - rewrite orb_true_iff, bool_decide_eq_true, andb_true_iff, !Z.leb_le, !elem_of_cons, elem_of_nil.
    split; [intros ?; right; lia|intros [?|?]; [done|lia]].
  - destruct (errors_As is_url e) as [[]|]; naive_solver.
Qed.

(** The end of a trace [tr] of a wait and its result: what its last poll answered and what
    followed it. *)
Inductive ends (node upid : string) : list (event pveE) → res unit → Prop :=
| ends_good tr exit : exit_good exit →
    ends node upid (tr ++ Ev (PcTask upid) (Ok ("stopped", exit)) ::
                      if decide (exit = "OK") then [] else [Ev (Warn node upid exit) tt]) (Ok tt)
| ends_bad tr exit : ¬ exit_good exit → exit ≠ "" →
    ends node upid (tr ++ [Ev (PcTask upid) (Ok ("stopped", exit))]) (Er (TaskFailedError upid exit))
| ends_unread tr st exit cause :
    (st = "stopped" ∧ exit = "") ∨ st ∉ [""; "running"; "stopped"] →
    errors_Is ErrUnverifiableRead cause = true →
    ends node upid (tr ++ [Ev (PcTask upid) (Ok (st, exit))]) (Er (outcomeUnknown upid cause))
| ends_canceled tr p c : failed_poll p = true →
    ends node upid (tr ++ [Ev (PcTask upid) p; Ev CtxErr (Some c)]) (Er (outcomeUnknown upid (poll_error p)))
| ends_lost tr p : failed_poll p = true →
    ¬ passing p ∨ (∃ l, polls (tr ++ [Ev (PcTask upid) p]) = l ++ replicate 4 true) →
    ends node upid (tr ++ [Ev (PcTask upid) p; Ev CtxErr None]) (Er (outcomeUnknown upid (poll_error p)))
| ends_woken tr st exit w cause :
    st = "running" →
    match w with WTick => False | WDone e => cause = e | WDeadline => cause = sent ErrTimeout end →
    ends node upid (tr ++ [Ev (PcTask upid) (Ok (st, exit)); Ev Select w]) (Er (outcomeUnknown upid cause))
| ends_woken_failing tr p w cause :
    failed_poll p = true → passing p →
    (∀ l, polls (tr ++ [Ev (PcTask upid) p]) ≠ l ++ replicate 4 true) →
    match w with WTick => False | WDone e => cause = e | WDeadline => cause = sent ErrTimeout end →
    ends node upid (tr ++ [Ev (PcTask upid) p; Ev CtxErr None; Ev Select w])
      (Er (outcomeUnknown upid cause)).

Lemma polls_app tr tr' : polls (tr ++ tr') = polls tr ++ polls tr'.
Proof. apply omap_app. Qed.
Lemma selects_app tr tr' : selects (tr ++ tr') = selects tr ++ selects tr'.
Proof. apply omap_app. Qed.
Lemma ticks_app tr tr' : ticks (tr ++ tr') = ticks tr + ticks tr'.
Proof. unfold ticks. by rewrite selects_app, filter_app, length_app. Qed.
(** [t] is the number of failing polls since the last good one. *)
Definition failing (tr : list (event pveE)) (t : nat) : Prop :=
  polls tr = replicate t true ∨ ∃ l, polls tr = l ++ false :: replicate t true.
Lemma failing_good tr tr' : polls tr' = [false] → failing (tr ++ tr') 0.
Proof. intros H. right. exists (polls tr). by rewrite polls_app, H. Qed.
Lemma failing_more tr tr' t : failing tr t → polls tr' = [true] → failing (tr ++ tr') (S t).
Proof.
  assert (∀ k, replicate k true ++ [true] = replicate (S k) true) as Hk.
  { intros k. by rewrite <- (replicate_cons_app k true). }
  intros [H|[l H]] H'; [left|right; exists l]; rewrite polls_app, H, H', <- ?Hk; [done|].
  by rewrite <- app_assoc.
Qed.
Lemma replicate_suffix (l l' : list bool) k t :
  l ++ replicate k true = l' ++ false :: replicate t true → k ≤ t.
Proof.
  revert t. induction k as [|k IH]; intros t H; [lia|].
  replace (replicate (S k) true) with (replicate k true ++ [true]) in H
    by by rewrite <- (replicate_cons_app k true).
  destruct t as [|t].
  - change (false :: replicate 0 true) with [false] in H. rewrite app_assoc in H.
    by apply app_inj_tail in H as [_ [=]].
  - replace (false :: replicate (S t) true) with ((false :: replicate t true) ++ [true]) in H
      by (simpl; f_equal; by rewrite <- (replicate_cons_app t true)).
    rewrite !app_assoc in H. apply app_inj_tail in H as [H _]. apply IH in H. lia.
Qed.
Lemma failing_four tr t : failing tr t → (∃ l, polls tr = l ++ replicate 4 true) ↔ 4 ≤ t.
Proof.
  intros H. split.
  - intros [l Hl]. destruct H as [H|[l' H]]; rewrite H in Hl.
    + apply (f_equal length) in Hl. rewrite length_app, !length_replicate in Hl. lia.
    + symmetry in Hl. by apply replicate_suffix in Hl.
  - intros Ht. unfold failing in H. replace t with (t - 4 + 4) in H by lia. rewrite replicate_add in H.
    destruct H as [->|[l ->]]; [by eexists|]. rewrite app_comm_cons, app_assoc. by eexists.
Qed.

Lemma pollTask_spec upid :
  always (pollTask upid) (λ tr r, ∃ p, tr = [Ev (PcTask upid) p] ∧
    match r with Ok q => p = Ok q ∧ q.1 ≠ "" | Er e => failed_poll p = true ∧ e = poll_error p end).
Proof.
  unfold pollTask. io_run; simpl; eexists; (split; [done|]); simpl; [|destruct a|done].
  - split; [done|]. intros He. unfold negb in *. rewrite He in *. done.
  - simpl in *. by destruct (eqb _ _).
Qed.

Lemma judge_poll_ends node upid t pre q p :
  match q with Ok q' => p = Ok q' ∧ q'.1 ≠ "" | Er e => failed_poll p = true ∧ e = poll_error p end →
  failing pre t →
  always (judge_poll node upid t q) (λ tr v,
    polls tr = [] ∧ mutations tr = [] ∧ selects tr = [] ∧
    match v with
    | inl r => ends node upid (pre ++ Ev (PcTask upid) p :: tr) r
    | inr t' =>
        failing (pre ++ [Ev (PcTask upid) p]) t' ∧
        (if failed_poll p then t' = S t ∧ t < maxConsecutiveTransientPolls ∧ passing p ∧ tr = [Ev CtxErr None]
         else t' = 0 ∧ (∃ exit, p = Ok ("running", exit)) ∧ tr = [])
    end).
Proof.
  intros Hq Hf. unfold judge_poll. destruct q as [[st exit]|e].
  - destruct Hq as [-> Hne]. cbn [fst] in Hne. pose proof (proj2 (eqb_false st "") Hne) as He.
    destruct (eqb st "running") eqn:Hr; [apply eqb_true in Hr as ->; simpl|apply eqb_false in Hr].
    { split_and!; [done..|by apply failing_good|done|by eexists|done]. }
    destruct (eqb st "stopped") eqn:Hs; [apply eqb_true in Hs as ->|apply eqb_false in Hs].
    2: { simpl. split_and!; [done..|]. apply ends_unread; [right; set_solver|done]. }
    destruct (taskExitSucceeded exit) eqn:Hx; [apply exit_good_iff in Hx|].
    + pose proof (ends_good node upid pre exit Hx) as Hg. destruct (eqb exit taskExitOK) eqn:Hok.
      * apply eqb_true in Hok. rewrite decide_True in Hg by done. simpl. auto.
      * apply eqb_false in Hok. rewrite decide_False in Hg by done. simpl. intros []. auto.
    + assert (¬ exit_good exit) as Hb by (rewrite <- exit_good_iff; congruence).
      destruct (eqb exit "") eqn:Hxe; [apply eqb_true in Hxe as ->|apply eqb_false in Hxe]; simpl;
        (split_and!; [done..|]); [|by apply ends_bad]. apply ends_unread; auto.
  - destruct Hq as [Hp ->]. cbn [always bind trigger app]. intros [c|].
    + simpl. split_and!; [done..|]. by apply ends_canceled.
    + assert (failing (pre ++ [Ev (PcTask upid) p]) (S t)) as Hf' by (apply failing_more; simpl; by rewrite ?Hp).
      destruct (isTransientPollError _) eqn:Ht.
      * apply passing_iff in Ht; [|done]. unfold maxConsecutiveTransientPolls.
        destruct (decide _) as [Hd|Hd]; simpl; split_and!; try done.
        -- apply ends_lost; [done|]. right. eapply failing_four; [done|lia].
        -- rewrite Hp. split_and!; [done|lia|done..].
      * simpl. split_and!; [done..|]. apply ends_lost; [done|]. left. rewrite <- passing_iff by done. congruence.
Qed.

(** Every select of a trace but the last was answered by a tick, and each poll but the
    first follows a tick. *)
Definition paced (tr : list (event pveE)) : Prop :=
  length (polls tr) = S (ticks tr) ∧ ∀ pre w post, tr = pre ++ Ev Select w :: post → w ≠ WTick → post = [].
Lemma selects_none pre w post : selects (pre ++ Ev Select w :: post) ≠ [].
Proof. rewrite selects_app. cbn. by destruct (selects pre). Qed.
Lemma paced_end tr : length (polls tr) = 1 → selects tr = [] → paced tr.
Proof.
  intros Hp Hs. split; [unfold ticks; by rewrite Hs, Hp|]. intros pre w post ->.
  by apply selects_none in Hs.
Qed.
(** Where the first select after [tr] stands. *)
Lemma first_select tr ev tr' pre w post :
  selects tr = [] → tr ++ ev :: tr' = pre ++ Ev Select w :: post →
  (ev = Ev Select w ∧ tr' = post) ∨ ∃ pre', tr' = pre' ++ Ev Select w :: post.
Proof.
  intros Hs H. apply app_eq_app in H as (l & [[-> H]|[-> H]]); destruct l as [|x l]; simplify_list_eq; eauto.
  by apply selects_none in Hs.
Qed.
Lemma paced_select tr w : length (polls tr) = 1 → selects tr = [] → w ≠ WTick → paced (tr ++ [Ev Select w]).
Proof.
  intros Hp Hs Hw. split; [rewrite polls_app, length_app, ticks_app, Hp; unfold ticks; rewrite Hs; by destruct w|].
  intros pre w' post H Hw'. apply first_select in H as [[_ H]|[pre' H]]; [done| |done]. by destruct pre'.
Qed.
Lemma paced_tick tr tr' : length (polls tr) = 1 → selects tr = [] → paced tr' → paced (tr ++ Ev Select WTick :: tr').
Proof.
  intros Hp Hs [Hl Hw]. split.
  - rewrite polls_app, length_app, ticks_app, Hp. change (ticks (Ev Select WTick :: tr')) with (S (ticks tr')).
    change (polls (Ev Select WTick :: tr')) with (polls tr'). unfold ticks at 1. rewrite Hs, Hl. simpl. lia.
  - intros pre w post H Hne. apply first_select in H as [[Hev _]|[pre' H]]; [|by eapply Hw|done].
    exfalso. apply Hne. by apply (f_equal (λ e, selects [e])) in Hev as [= ->].
Qed.

Lemma wait_loop_spec n node upid t pre :
  failing pre t → t ≤ maxConsecutiveTransientPolls →
  always (wait_loop n node upid t) (λ tr r,
    ends node upid (pre ++ tr) r ∧ mutations tr = [] ∧ paced tr ∧
    runs_below (S maxConsecutiveTransientPolls) t (polls tr)).
Proof.
  revert t pre. induction n as [|n IH]; intros t pre Hf Ht; cbn [wait_loop]; [done|].
  eapply always_call; [apply pollTask_spec|]. intros tr q (p & -> & Hq).
  eapply always_call; [apply (judge_poll_ends node upid t pre q p Hq Hf)|].
  intros tr v (Hp & Hm & Hs & Hv).
  assert (∀ tr', polls ([Ev (PcTask upid) p] ++ tr ++ tr') = failed_poll p :: polls tr') as Hpolls.
  { intros tr'. rewrite !polls_app, Hp. done. }
  assert (∀ tr', mutations ([Ev (PcTask upid) p] ++ tr ++ tr') = mutations tr') as Hmut.
  { intros tr'. by rewrite !mutations_app, Hm. }
  assert (selects ([Ev (PcTask upid) p] ++ tr) = []) as Hsel by (by rewrite selects_app, Hs).
  assert (length (polls ([Ev (PcTask upid) p] ++ tr)) = 1) as Hone by (rewrite polls_app, Hp; done).
  assert (∀ l : list bool, (if failed_poll p then runs_below 4 (S t) l else runs_below 4 0 l) →
    runs_below 4 t (failed_poll p :: l)) as Hruns.
  { intros l. simpl. unfold maxConsecutiveTransientPolls in *. destruct (failed_poll p); [|done]. split; [lia|done]. }
  destruct v as [r|t'].
  - cbn [always]. rewrite app_nil_r, <- (app_nil_r tr), Hpolls, Hmut, app_nil_r.
    split_and!; [done|done|by apply paced_end|apply Hruns; by destruct (failed_poll p)].
  - cbn [bind trigger always]. intros w. destruct Hv as [Hf' Hv].
    assert (w ≠ WTick → ∀ cause, match w with WTick => False | WDone e => cause = e | WDeadline => cause = sent ErrTimeout end →
      ends node upid (pre ++ [Ev (PcTask upid) p] ++ tr ++ [Ev Select w]) (Er (outcomeUnknown upid cause)) ∧
      mutations ([Ev (PcTask upid) p] ++ tr ++ [Ev Select w]) = [] ∧
      paced ([Ev (PcTask upid) p] ++ tr ++ [Ev Select w]) ∧
      runs_below 4 t (polls ([Ev (PcTask upid) p] ++ tr ++ [Ev Select w]))) as Hend.
    { intros Hw cause Hc. rewrite Hpolls, Hmut. split_and!; [|done| |apply Hruns; by destruct (failed_poll p)].
      - destruct (failed_poll p) eqn:Hfp.
        + destruct Hv as (-> & Hlt & Hpass & ->). apply ends_woken_failing; [done|done| |done].
          intros l Hl. assert (4 ≤ S t) by (eapply failing_four; eauto). unfold maxConsecutiveTransientPolls in *. lia.
        + destruct Hv as (-> & [exit ->] & ->). by apply ends_woken.
      - rewrite app_assoc. by apply paced_select. }
    destruct w as [e| |]; [by apply Hend..|].
    assert (t' ≤ maxConsecutiveTransientPolls) as Ht'.
    { unfold maxConsecutiveTransientPolls in *. destruct (failed_poll p); lia. }
    assert (failing (pre ++ [Ev (PcTask upid) p] ++ tr ++ [Ev Select WTick]) t') as Hf2.
    { unfold failing in *. rewrite !polls_app, Hp in *. cbn in *. by rewrite ?app_nil_r in *. }
    eapply always_mono; [|apply (IH t' _ Hf2 Ht')]. intros tr' r (Ho & Hm' & Hl & Hr).
    rewrite <- !app_assoc in Ho. rewrite Hpolls, Hmut. cbn [app] in *. split_and!; [done|done| |].
    + by apply (paced_tick (Ev (PcTask upid) p :: tr)).
    + apply Hruns. change (polls (Ev Select WTick :: tr')) with (polls tr').
      destruct (failed_poll p); [destruct Hv as [-> _]|destruct Hv as [-> _]]; done.
Qed.

(** A wait refused: of no task, of a UPID of another form, of no node, or of a task of
    another node. Nothing was polled. *)
Definition refused (node upid : string) (tr : list (event pveE)) : Prop :=
  (tr = [] ∧ (upid = "" ∨ (∃ e, validateUPIDShape upid = Er e) ∨ node = "")) ∨
  (∃ n, tr = [Ev (PcNewTask upid) n] ∧ n ≠ Some node).
Lemma WaitForTask_cases node upid (Q : list (event pveE) → res unit → Prop) :
  (∀ tr cause, refused node upid tr → polls tr = [] → mutations tr = [] → Q tr (Er (outcomeUnknown upid cause))) →
  (upid ≠ "" → validateUPIDShape upid = Ok tt → node ≠ "" →
     always (wait_loop max_polls node upid 0) (λ tr r, Q (Ev (PcNewTask upid) (Some node) :: tr) r)) →
  always (WaitForTask node upid) Q.
Proof.
  intros Hbad Hloop. unfold WaitForTask.
  destruct (eqb upid "") eqn:Hu; cbn [negb]; [apply Hbad; [left|..]; by rewrite eqb_true in Hu; auto|].
  destruct (validateUPIDShape upid) as [[]|e] eqn:Hv; [|apply Hbad; [left|..]; eauto].
  destruct (eqb node "") eqn:Hn; cbn [negb]; [apply Hbad; [left|..]; by rewrite eqb_true in Hn; auto|].
  cbn [bind trigger always]. intros [n|]; [|apply Hbad; [right; by eexists|done..]].
  destruct (eqb n node) eqn:Hnn; [apply eqb_true in Hnn as ->|apply eqb_false in Hnn].
  - apply Hloop; by rewrite <- ?eqb_false.
  - apply Hbad; [right; exists (Some n)|..]; naive_solver.
Qed.
Lemma judge_poll_total node upid t p : total (judge_poll node upid t p).
Proof.
  unfold judge_poll. destruct p as [[st exit]|e]; simpl.
  - repeat case_match; simpl; auto.
  - intros [c|]; repeat case_match; simpl; auto.
Qed.
Lemma pollTask_total upid : total (pollTask upid).
Proof. unfold pollTask. simpl. intros [p|e]; simpl; [by case_match|done]. Qed.

Section termination.
Context {S : Type} (h : env pveE S) (left : S → nat).
Hypothesis Hle : ∀ R (e : pveE R) s, left (h R e s).2 ≤ left s.
Hypothesis Htick : ∀ s, (h _ Select s).1 = WTick → left (h _ Select s).2 < left s.

(** The loop returns once its fuel exceeds the ticks left before the deadline. *)
Lemma wait_loop_returns n node upid t s :
  left s < n → is_Some (run h (wait_loop n node upid t) s).
Proof using Hle Htick.
  revert t s. induction n as [|n IH]; intros t s Hs; [lia|].
  cbn [wait_loop]. rewrite run_bind.
  destruct (total_run h _ s (pollTask_total upid)) as (tr1 & p & s1 & Hp). rewrite Hp.
  apply (run_measure _ left) in Hp; [|done]. rewrite run_bind.
  destruct (total_run h _ s1 (judge_poll_total node upid t p)) as (tr2 & v & s2 & Hv).
  rewrite Hv. apply (run_measure _ left) in Hv; [|done].
  destruct v as [r|t']; [by eexists|]. rewrite run_bind. cbn [run trigger].
  pose proof (Htick s2) as Ht. destruct (h _ Select s2) as [[e| |] s3]; [by eexists..|].
  simpl in Ht. specialize (Ht eq_refl).
  destruct (IH t' s3 ltac:(lia)) as [[[tr a] s'] ->]. by eexists.
Qed.
End termination.

(** What a wait means to its callers. *)
Definition ends_stopped (node upid exit : string) (tr : list (event pveE)) : Prop :=
  ∃ tr0, tr = tr0 ++ Ev (PcTask upid) (Ok ("stopped", exit)) ::
    (if taskExitSucceeded exit && negb (eqb exit taskExitOK)
     then [Ev (Warn node upid exit) tt] else []).
Definition outcome (node upid : string) (tr : list (event pveE)) (r : res unit) : Prop :=
  match r with
  | Ok _ => ∃ exit, taskExitSucceeded exit = true ∧ ends_stopped node upid exit tr
  | Er e =>
      (∃ exit, e = TaskFailedError upid exit ∧ taskExitSucceeded exit = false ∧ exit ≠ "" ∧
         ends_stopped node upid exit tr) ∨
      (kind e = KText ∧ IsTaskOutcomeUnknown e = true)
  end.
Lemma ends_outcome node upid tr r : ends node upid tr r → outcome node upid tr r.
Proof.
  unfold outcome, ends_stopped.
  destruct 1 as [tr exit Hx|tr exit Hx ?| | | | |]; [| |by right..].
  - exists exit. apply exit_good_iff in Hx. rewrite Hx. split; [done|]. exists tr.
    case_decide as Hd; [by subst|]. by rewrite (proj2 (eqb_false exit taskExitOK) Hd).
  - left. exists exit. rewrite <- exit_good_iff, not_true_iff_false in Hx. rewrite Hx. eauto.
Qed.
Lemma WaitForTask_spec node upid :
  always (WaitForTask node upid) (λ tr r, mutations tr = [] ∧ outcome node upid tr r).
Proof.
  apply WaitForTask_cases; [intros; split; [done|by right]|].
  intros _ _ _. eapply always_mono; [|apply (wait_loop_spec _ _ _ 0 [Ev (PcNewTask upid) (Some node)]); [by left|lia]].
  intros tr r (Ho & Hm & _). split; [done|by apply ends_outcome].
Qed.

(** A request answered by a task, and the wait for that task. *)
Definition task_request (method path : string) (params : Values) (node what : string)
    : io pveE (res unit) :=
  let? upid := upid_request method path params what orelse id in
  let? _ := WaitForTask node upid orelse wrapf what in
  Ret (Ok tt).

(** It makes at most that one request, and succeeds only when PVE accepted it
    and the task it answered was seen to succeed. *)
Definition task_done (method path : string) (params : Values) (node : string)
    (tr : list (event pveE)) : Prop :=
  ∃ hr upid exit tr', tr = Ev (Http method path params) hr :: tr' ∧ answered_upid hr upid ∧
    taskExitSucceeded exit = true ∧ ends_stopped node upid exit tr'.
Definition at_most_one (method path : string) (params : Values) (tr : list (event pveE)) : Prop :=
  mutations tr = [] ∨ mutations tr = [(method, path, params)].
Lemma task_request_spec method path params node what :
  eqb method "GET" = false →
  always (task_request method path params node what) (λ tr r,
    at_most_one method path params tr ∧
    match r with
    | Ok _ => task_done method path params node tr ∧ mutations tr = [(method, path, params)]
    | Er e => kind e = KText
    end).
Proof.
  intros He. unfold task_request. eapply always_call; [apply upid_request_spec|].
  intros tr r [Hr Hk]. destruct r as [upid|e].
  - destruct Hr as [[_ ?]|(hr & -> & Hok)]; [done|].
    eapply always_call; [apply WaitForTask_spec|]. intros tr' w [Hm Ho].
    assert (mutations ([Ev (Http method path params) hr] ++ tr') = [(method, path, params)]) as Hmut.
    { rewrite mutations_app, Hm. unfold mutations. simpl. by rewrite He. }
    destruct w as [[]|e]; cbn [always]; rewrite !app_nil_r; unfold at_most_one; rewrite Hmut;
      (split; [by right|]); [|done].
    split; [|done]. destruct Ho as (exit & ? & ?). exists hr, upid, exit, tr'. auto.
  - cbn [always]. rewrite app_nil_r. split; [|by apply Hk].
    destruct Hr as [[-> _]|(hr & -> & _)]; [by left|right]. unfold mutations. simpl. by rewrite He.
Qed.
#[export] Hint Extern 1 (eqb _ _ = false) => reflexivity : io.
#[export] Hint Resolve WaitForTask_spec task_request_spec : io.

(** * Properties *)

(** C24: what a wait returns is what its last exchanges say, and nothing else. It is refused,
    unpolled, for a UPID of another form, without a node, or for a task of another node. Of
    that task, it succeeds when the last poll reported it stopped with an exit status of [OK],
    or of [WARNINGS: n], which is reported to the caller; it fails with [TaskFailedError] when
    that was another exit status; and the outcome is unknown, and says so, when the poll
    reported no exit status or a status PVE does not have, when the poll failed and the
    context was canceled, the failure is none that may pass or was the fourth in a row, and
    when the context or the deadline ended the wait for the next poll. A wait changes nothing. *)
Theorem WaitForTask_outcome node upid :
  always (WaitForTask node upid) (λ tr r,
    mutations tr = [] ∧
    ((refused node upid tr ∧ ∃ cause, r = Er (outcomeUnknown upid cause)) ∨
     (upid ≠ "" ∧ validateUPIDShape upid = Ok tt ∧ node ≠ "" ∧
      ∃ tr', tr = Ev (PcNewTask upid) (Some node) :: tr' ∧ polls tr' ≠ [] ∧ ends node upid tr r)) ∧
    (∀ e, r = Er e → IsTaskOutcomeUnknown e = true ∨
       ∃ exit, e = TaskFailedError upid exit ∧ IsTaskOutcomeUnknown e = false)).
Proof.
  apply WaitForTask_cases.
  - intros tr cause Hr _ Hm. split_and!; [done|left; eauto|]. intros e [= <-]. by left.
  - intros ? ? ?. eapply always_mono; [|apply (wait_loop_spec _ _ _ 0 [Ev (PcNewTask upid) (Some node)]); [by left|lia]].
    intros tr r (He & Hm & [Hp _] & _). split_and!; [done|right; split_and!; [done..|]|].
    + exists tr. split_and!; [done| |done]. intros Hn. by rewrite Hn in Hp.
    + intros e ->. apply ends_outcome in He as [(exit & -> & _)|[_ ?]]; [right|by left]. by exists exit.
Qed.

(** C25: a wait polls once and then once more for each tick of its clock, and does nothing
    more once the deadline or the end of the context woke it; it tolerates three failing polls
    in a row and never makes a fifth after four; and a UPID of the wrong shape, an empty node
    and a UPID of another node are refused before any poll. *)
Theorem WaitForTask_polls node upid :
  always (WaitForTask node upid) (λ tr r,
    (∀ l k l', polls tr = l ++ replicate k true ++ l' → k ≤ 4) ∧
    (∀ pre w post, tr = pre ++ Ev Select w :: post → w ≠ WTick → post = []) ∧
    (polls tr = [] ∨
     length (polls tr) = S (ticks tr) ∧ upid ≠ "" ∧ validateUPIDShape upid = Ok tt ∧ node ≠ "" ∧
       ∃ tr', tr = Ev (PcNewTask upid) (Some node) :: tr')).
Proof.
  apply WaitForTask_cases.
  - intros tr cause Hr Hp _. rewrite Hp. split_and!; [|intros pre w post ->|by left].
    + intros [|[] l] [|k] l'; simpl; by try lia.
    + destruct Hr as [[H _]|(n & H & _)]; [by destruct pre|destruct pre as [|? pre]; [done|]]. by destruct pre.
  - intros ? ? ?. eapply always_mono; [|apply (wait_loop_spec _ _ _ 0 []); [by left|lia]].
    intros tr r (_ & _ & [Hl Hw] & Hr). change (polls (_ :: tr)) with (polls tr). split_and!.
    + intros l k l' Hp. rewrite Hp in Hr. eapply (runs_below_replicate 4); eauto.
    + intros [|? pre] w post Heq; simplify_list_eq; eauto.
    + right. eauto 10.
Qed.

(** So every environment whose clock has [n] ticks left sees at most [n + 1] polls: 601 for
    the ten minutes polled every second. *)
Lemma run_ticks {A S} (h : env pveE S) (left : S → nat) (m : io pveE A) s tr a s' :
  (∀ R (e : pveE R) s, left (h R e s).2 ≤ left s) →
  (∀ s, (h _ Select s).1 = WTick → left (h _ Select s).2 < left s) →
  run h m s = Some (tr, a, s') → ticks tr + left s' ≤ left s.
Proof.
  intros Hle Ht. revert s tr. induction m as [a'|R e k IH|]; intros s tr Hr; simpl in *; [by simplify_eq| |done].
  assert (∀ r s1, h R e s = (r, s1) → ticks [Ev e r] + left s1 ≤ left s) as Hstep.
  { intros r s1 Hx. pose proof (Hle R e s) as Hl. rewrite Hx in Hl. destruct e; try exact Hl.
    destruct r as [e| |]; try exact Hl. pose proof (Ht s) as Hw. rewrite Hx in Hw. specialize (Hw eq_refl).
    change (ticks [Ev Select WTick]) with 1. cbn [snd] in Hw. lia. }
  destruct (h R e s) as [r s1] eqn:He. specialize (Hstep r s1 eq_refl).
  destruct (run h (k r) s1) as [[[tr1 a1] s2]|] eqn:Hk; simplify_eq.
  apply IH in Hk. change (Ev e r :: tr1) with ([Ev e r] ++ tr1). rewrite ticks_app. lia.
Qed.

Lemma WaitForTask_clock {S} (h : env pveE S) (left : S → nat) node upid s tr r s' :
  (∀ R (e : pveE R) s, left (h R e s).2 ≤ left s) →
  (∀ s, (h _ Select s).1 = WTick → left (h _ Select s).2 < left s) →
  run h (WaitForTask node upid) s = Some (tr, r, s') → length (polls tr) ≤ 1 + left s.
Proof.
  intros Hle Ht Hr. pose proof (run_ticks h left _ _ _ _ _ Hle Ht Hr) as Hn. apply run_exec in Hr. revert Hr.
  assert (always (WaitForTask node upid) (λ tr _, length (polls tr) ≤ 1 + ticks tr)) as Ha.
  { apply WaitForTask_cases; [by intros ? ? _ -> _; simpl; lia|]. intros _ _ _.
    eapply always_mono; [|apply (wait_loop_spec _ _ _ 0 []); [by left|lia]].
    intros tr0 r0 (_ & _ & [Hl _] & _). cbn in *. unfold polls in *. cbn in *. by rewrite Hl. }
  intros Hr. rewrite always_exec in Ha. specialize (Ha _ _ Hr). simpl in Ha. lia.
Qed.

(** C26: a wait terminates. Whatever the service answers, if every tick of the
    select uses up some of the time left before the deadline and at most the
    ceiling's 600 ticks are left, the wait returns. *)
Theorem WaitForTask_returns {S} (h : env pveE S) (left : S → nat) node upid s :
  (∀ R (e : pveE R) s, left (h R e s).2 ≤ left s) →
  (∀ s, (h _ Select s).1 = WTick → left (h _ Select s).2 < left s) →
  left s ≤ TaskWaitCeiling →
  is_Some (run h (WaitForTask node upid) s).
Proof.
  intros Hle Htick Hs. unfold WaitForTask.
  destruct (negb (eqb upid "")); [|by eexists].
  destruct (validateUPIDShape upid); [|by eexists].
  destruct (negb (eqb node "")); [|eexists; reflexivity].
  rewrite run_bind. cbn [run trigger].
  pose proof (Hle _ (PcNewTask upid) s) as Hn. destruct (h _ (PcNewTask upid) s) as [[n|] s1];
    [|by eexists].
  destruct (eqb n node); [|by eexists]. simpl in Hn.
  destruct (wait_loop_returns h left Hle Htick max_polls node upid 0 s1) as [[[tr x] s2] Hw].
  - unfold TaskWaitCeiling in *. change max_polls with 601. lia.
  - rewrite Hw. by eexists.
Qed.

(** A task that runs until the clock runs out. *)
Definition slow_task : env pveE nat := λ R e,
  match e in pveE R return nat → R * nat with
  | PcNewTask _ => λ s, (Some "pve1", s)
  | PcTask _ => λ s, (Ok ("running", ""), s)
  | Select => λ s, match s with 0 => (WDeadline, 0) | S s' => (WTick, s') end
  | Http _ _ _ => λ s, (HTransport (errorf "down"), s)
  | PcString _ => λ s, (Er (errorf "down"), s)
  | PcSnapshots _ => λ s, (Er (errorf "down"), s)
  | PcContent _ => λ s, (Er (errorf "down"), s)
  | PcStorage _ => λ s, (Er (errorf "down"), s)
  | PcVMs _ => λ s, (Er (errorf "down"), s)
  | PcResources => λ s, (Er (errorf "down"), s)
  | PcVMStatus _ => λ s, (Er (errorf "down"), s)
  | PcVMConfig _ => λ s, (Er (errorf "down"), s)
  | PcRawMap _ => λ s, (Er (errorf "down"), s)
  | PcStoragePath _ => λ s, (Er (errorf "down"), s)
  | CtxErr => λ s, (None, s)
  | Warn _ _ _ => λ s, (tt, s)
  end.
Lemma WaitForTask_returns_witness :
  is_Some (run slow_task (WaitForTask "pve1"
    "UPID:pve1:0000A1B2:00C3D4E5:65F00000:qmstart:100:root@pam:") 600).
Proof.
  apply (WaitForTask_returns slow_task id).
  - intros R []; intros s; simpl; auto. destruct s; simpl; auto.
  - intros []; simpl; auto. done.
  - apply Nat.le_refl.
Defined.
