(* ===== verification/Snapshot.v ===== *)
(** snapshot.go: listing, creating, rolling back and cascade-deleting a VM's
    snapshots, and snapshotsectiongate.go's decision on what a snapshot section
    claims. *)
From Stdlib Require Import Ascii.
From S2P Require Import Prelude GoLib Errors Json Rest Vms Task.

Definition currentPseudoSnapshot : string := "current".
Definition pendingReservedName : string := "pending".

(** The two reserved names hold no letter with a non-ASCII case variant, so
    [strings.EqualFold] is the ASCII comparison. *)
Definition isPseudoEntryName (name : string) : bool := eqb (trim_space name) currentPseudoSnapshot.

Definition snapshot_path (node : string) (vmid : Z) : string := vm_path node vmid "/snapshot".

(** ** Reading the list *)
Definition ListSnapshots (node : string) (vmid : Z) : io pveE (res (list (option Snapshot))) :=
  let what := "list snapshots for vm " +:+ itoa vmid in
  guard negb (eqb node "") orelse errorf (what +:+ ": node is required") in
  let? snaps := trigger (PcSnapshots (snapshot_path node vmid)) orelse wrapf what in
  Ret match snaps with
      | None => Er (wrapf_post what (sent ErrUnverifiableRead) "list payload was null")
      | Some l => Ok l
      end.

Definition realSnapshots (snaps : list (option Snapshot)) : list Snapshot :=
  omap (λ s, match s with
             | Some s => if eqb (sn_name s) currentPseudoSnapshot then None else Some s
             | None => None
             end) snaps.

Definition has_current (snaps : list (option Snapshot)) : bool :=
  existsb (λ s, match s with Some s => eqb (sn_name s) currentPseudoSnapshot | None => false end)
    snaps.
Definition listSnapshotsVerifiable (node : string) (vmid : Z)
    : io pveE (res (list (option Snapshot))) :=
  let? snaps := ListSnapshots node vmid orelse id in
  guard has_current snaps orelse
    wrapf ("snapshot list for vm " +:+ itoa vmid +:+ " has no " +:+ quote currentPseudoSnapshot
           +:+ " pseudo-entry, which PVE always includes for a live vm") (sent ErrUnverifiableRead) in
  Ret (Ok snaps).

(** ** Errors *)
Definition ErrSnapshotExists (vmid : Z) (name : string) : err :=
  Err (KSnapshotExists vmid name)
    ("snapshot " +:+ quote name +:+ " already exists on vm " +:+ itoa vmid) [].
Definition ErrReservedSnapshotName (vmid : Z) (name : string) : err :=
  Err (KReservedSnapshotName vmid name)
    (if equal_fold (trim_space name) pendingReservedName then
       "snapshot name " +:+ quote name +:+ " is reserved on vm " +:+ itoa vmid
       +:+ ": PVE keeps a VM's pending changes in a config section of that name, so no snapshot can take it"
     else
       "snapshot name " +:+ quote name +:+ " is reserved on vm " +:+ itoa vmid +:+ ": "
       +:+ quote currentPseudoSnapshot
       +:+ " is PVE's own pseudo-entry for the live running state, not a real snapshot") [].
Definition ErrNotNewestSnapshot (vmid : Z) (target : string) (newer : list string) : err :=
  Err (KNotNewestSnapshot vmid target newer)
    ("rollback vm " +:+ itoa vmid +:+ " to snapshot " +:+ quote target +:+ " refused: "
     +:+ itoa (Z.of_nat (length newer)) +:+ " newer "
     +:+ (if bool_decide (length newer = 1) then "snapshot exists" else "snapshots exist")
     +:+ " and would be discarded: " +:+ Join ", " (quote <$> newer)) [].
(** The order in which a cascade must delete the newer snapshots: newest first. *)
Definition CascadeOrder (newer : list string) : list string := reverse newer.

(** ** CreateSnapshot *)
Definition snapshot_params (name description : string) : Values :=
  let p := vset (vset ∅ "snapname" name) "vmstate" "1" in
  if eqb description "" then p else vset p "description" description.

(** The verification of the list read after the task succeeded. *)
Fixpoint verify_created (vmid : Z) (name : string) (l : list Snapshot) : res unit :=
  let what := "verify snapshot " +:+ quote name +:+ " on vm " +:+ itoa vmid in
  match l with
  | [] => Er (errorf (what +:+ ": task reported success but the snapshot is absent from the snapshot list"))
  | s :: l' =>
      if negb (eqb (sn_name s) name) then verify_created vmid name l'
      else if (sn_vmstate s =? 0)%Z then
        Er (errorf (what +:+ ": task reported success but the snapshot has no vm state captured (vmstate=0): it can restore disks only, not a running vm"))
      else Ok tt
  end.

Definition CreateSnapshot (node : string) (vmid : Z) (name description : string)
    : io pveE (res unit) :=
  guard negb (eqb node "") orelse
    errorf ("create snapshot on vm " +:+ itoa vmid +:+ ": node is required") in
  guard negb (eqb (trim_space name) "") orelse
    errorf ("create snapshot on vm " +:+ itoa vmid +:+ ": name is required") in
  guard negb (equal_fold (trim_space name) currentPseudoSnapshot) orelse
    ErrReservedSnapshotName vmid name in
  guard negb (equal_fold (trim_space name) pendingReservedName) orelse
    ErrReservedSnapshotName vmid name in
  let what := "create snapshot " +:+ quote name +:+ " on vm " +:+ itoa vmid in
  let? existing := listSnapshotsVerifiable node vmid orelse wrapf what in
  guard negb (existsb (λ s, eqb (sn_name s) name) (realSnapshots existing)) orelse
    ErrSnapshotExists vmid name in
  let? _ := task_request "POST" (snapshot_path node vmid) (snapshot_params name description)
              node what orelse id in
  let? after := listSnapshotsVerifiable node vmid
    orelse wrapf ("verify snapshot " +:+ quote name +:+ " on vm " +:+ itoa vmid) in
  Ret (verify_created vmid name (realSnapshots after)).

(** ** NewerSnapshots and Rollback *)
(** The first snapshot of that name, and the others in order. *)
Fixpoint find_snapshot (target : string) (l : list Snapshot)
    : option (Snapshot * list Snapshot) :=
  match l with
  | [] => None
  | s :: l' =>
      if eqb (sn_name s) target then Some (s, l')
      else match find_snapshot target l' with
           | Some (f, rest) => Some (f, s :: rest)
           | None => None
           end
  end.
Fixpoint newer_than (vmid : Z) (target : string) (found : Snapshot) (others : list Snapshot)
    : res (list Snapshot) :=
  match others with
  | [] => Ok []
  | s :: l =>
      if (sn_snaptime s =? sn_snaptime found)%Z then
        Er (errorf ("newer snapshots of vm " +:+ itoa vmid +:+ ": " +:+ quote (sn_name s)
          +:+ " has the same snaptime as " +:+ quote target +:+ " (" +:+ itoa (sn_snaptime found)
          +:+ "); pveforge cannot determine which is newer, so this rollback cannot be pre-flighted"))
      else
        let^ rest := newer_than vmid target found l orelse id in
        Ok (if (sn_snaptime found <? sn_snaptime s)%Z then s :: rest else rest)
  end.
Definition older_first (s t : Snapshot) : Prop := (sn_snaptime s ≤ sn_snaptime t)%Z.
Global Instance older_first_dec : RelDecision older_first.
Proof. intros s t. unfold older_first. apply _. Defined.

Definition NewerSnapshots (node : string) (vmid : Z) (target : string)
    : io pveE (res (list Snapshot)) :=
  let what := "newer snapshots of vm " +:+ itoa vmid in
  guard negb (eqb node "") orelse errorf (what +:+ ": node is required") in
  guard negb (eqb (trim_space target) "") orelse
    errorf (what +:+ ": snapshot name is required") in
  guard negb (isPseudoEntryName target) orelse
    wrapf what (ErrReservedSnapshotName vmid target) in
  let? snaps := listSnapshotsVerifiable node vmid orelse wrapf what in
  Ret match find_snapshot target (realSnapshots snaps) with
      | None => Er (errorf (what +:+ ": snapshot " +:+ quote target +:+ " not found"))
      | Some (found, others) =>
          let^ newer := newer_than vmid target found others orelse id in
          Ok (merge_sort older_first newer)
      end.

Definition rollback_path (node : string) (vmid : Z) (name : string) : string :=
  snapshot_path node vmid +:+ "/" +:+ path_escape name +:+ "/rollback".

Definition Rollback (node : string) (vmid : Z) (name : string) : io pveE (res unit) :=
  guard negb (eqb node "") orelse
    errorf ("rollback vm " +:+ itoa vmid +:+ ": node is required") in
  guard negb (eqb (trim_space name) "") orelse
    errorf ("rollback vm " +:+ itoa vmid +:+ ": snapshot name is required") in
  guard negb (isPseudoEntryName name) orelse
    wrapf ("rollback vm " +:+ itoa vmid) (ErrReservedSnapshotName vmid name) in
  let what := "rollback vm " +:+ itoa vmid +:+ " to snapshot " +:+ quote name in
  let? newer := NewerSnapshots node vmid name orelse wrapf what in
  guard bool_decide (newer = []) orelse ErrNotNewestSnapshot vmid name (sn_name <$> newer) in
  task_request "POST" (rollback_path node vmid name) ∅ node what.

(** ** CascadeDeleteSnapshots *)
Fixpoint cascade_names_err (vmid : Z) (i total : Z) (names : list string) : option err :=
  match names with
  | [] => None
  | n :: names' =>
      if eqb (trim_space n) "" then
        Some (errorf ("cascade delete snapshots of vm " +:+ itoa vmid +:+ ": snapshot name "
                      +:+ itoa (i + 1)%Z +:+ " of " +:+ itoa total +:+ " is blank"))
      else if isPseudoEntryName n then
        Some (wrapf ("cascade delete snapshots of vm " +:+ itoa vmid)
                (ErrReservedSnapshotName vmid n))
      else cascade_names_err vmid (i + 1)%Z total names'
  end.

Definition delete_path (node : string) (vmid : Z) (name : string) : string :=
  snapshot_path node vmid +:+ "/" +:+ path_escape name.
Definition snapshot_names (l : list Snapshot) : gset string := list_to_set (sn_name <$> l).

(** The deletion loop over the names still present; its result is the names
    deleted so far and the error that stopped it. *)
Fixpoint cascade_loop (node : string) (vmid : Z) (present : gset string) (deleted : list string)
    (names : list string) : io pveE (list string * option err) :=
  match names with
  | [] => Ret (deleted, None)
  | n :: names' =>
      if decide (n ∈ present) then
        let! r := task_request "DELETE" (delete_path node vmid n) ∅ node
                    ("cascade delete snapshots of vm " +:+ itoa vmid +:+ ": delete " +:+ quote n) in
        match r with
        | Er e => Ret (deleted, Some e)
        | Ok _ => cascade_loop node vmid (present ∖ {[n]}) (deleted ++ [n]) names'
        end
      else cascade_loop node vmid present deleted names'
  end.

(** The names of the list that are still there, each once. *)
Fixpoint remaining_names (still : gset string) (names : list string) : list string :=
  match names with
  | [] => []
  | n :: names' =>
      if decide (n ∈ still) then n :: remaining_names (still ∖ {[n]}) names'
      else remaining_names still names'
  end.

Definition CascadeDeleteSnapshots (node : string) (vmid : Z) (names : list string)
    : io pveE (list string * option err) :=
  let what := "cascade delete snapshots of vm " +:+ itoa vmid in
  if eqb node "" then Ret ([], Some (errorf (what +:+ ": node is required")))
  else if bool_decide (names = []) then
    Ret ([], Some (errorf (what +:+ ": at least one snapshot name is required")))
  else match cascade_names_err vmid 0 (Z.of_nat (length names)) names with
  | Some e => Ret ([], Some e)
  | None =>
      let! before := listSnapshotsVerifiable node vmid in
      match before with
      | Er e => Ret ([], Some (wrapf (what +:+ ": pre-state read") e))
      | Ok before =>
          let! ' (deleted, err) :=
            cascade_loop node vmid (snapshot_names (realSnapshots before)) [] names in
          match err with
          | Some e => Ret (deleted, Some e)
          | None =>
              let! after := listSnapshotsVerifiable node vmid in
              match after with
              | Er e => Ret (deleted, Some (wrapf (what +:+ ": verify") e))
              | Ok after =>
                  let remaining :=
                    remaining_names (snapshot_names (realSnapshots after)) names in
                  if bool_decide (remaining = []) then Ret (deleted, None)
                  else Ret (deleted, Some (errorf (what +:+ ": verify: "
                         +:+ itoa (Z.of_nat (length remaining))
                         +:+ " snapshot(s) still present after the cascade: "
                         +:+ Join ", " (quote <$> remaining))))
              end
          end
      end
  end.

(** ** snapshotsectiongate.go *)
Definition freePrefix (storage : string) (vmid : Z) : string :=
  storage +:+ ":vm-" +:+ itoa vmid +:+ "-".
Record SnapshotSectionCapture :=
  { cap_Storage : string; cap_VMID : Z; SnapName : string; SectionVolids : list string;
    GapVolids : list string; Unclosed : list string; HibernateKey : string;
    ContentMissed : list string; LiveWitnessVolid : string; WitnessClaimed : bool }.
Record snapshotSectionInputs :=
  { in_storage : string; in_vmid : Z; in_snapshot : string; in_sectionVolids : list string;
    currentConfigOnlyClaim : gset string; fullClaim : gset string; contentVolids : gset string;
    in_hibernateKey : string; in_liveWitnessVolid : string }.

Definition section_step (i : snapshotSectionInputs)
    (acc : list string * list string * list string) (v : string)
    : list string * list string * list string :=
  let '(missed, gap, unclosed) := acc in
  if decide (v ∈ currentConfigOnlyClaim i) then acc
  else if decide (v ∉ contentVolids i) then (missed ++ [v], gap, unclosed)
  else if has_prefix (freePrefix (in_storage i) (in_vmid i)) v then
    (missed, gap ++ [v], if decide (v ∈ fullClaim i) then unclosed else unclosed ++ [v])
  else acc.
Definition evalSnapshotSection (i : snapshotSectionInputs) : SnapshotSectionCapture :=
  let '(missed, gap, unclosed) := foldl (section_step i) ([], [], []) (in_sectionVolids i) in
  {| cap_Storage := in_storage i; cap_VMID := in_vmid i; SnapName := in_snapshot i;
     SectionVolids := sort_strings (in_sectionVolids i); GapVolids := sort_strings gap;
     Unclosed := sort_strings unclosed; HibernateKey := in_hibernateKey i;
     ContentMissed := sort_strings missed; LiveWitnessVolid := in_liveWitnessVolid i;
     WitnessClaimed := bool_decide (in_liveWitnessVolid i ∈ currentConfigOnlyClaim i) |}.

(** The failures as findings; the texts quote the volid. *)
Definition Failures (c : SnapshotSectionCapture) : list string :=
  ((λ v, "item-75: snapshot-section volid " +:+ quote v
         +:+ " is absent from current config but has NO /content row (FAIL)") <$> ContentMissed c)
  ++ (if bool_decide (GapVolids c = []) then
        ["item-75: no snapshot-section volid exercised the claimed-surface gap (absent-from-current-config ∧ in-/content ∧ prefixed "
         +:+ quote (freePrefix (cap_Storage c) (cap_VMID c)) +:+ ") — fixture is vacuous"]
      else [])
  ++ ((λ v, "item-75: raw-gap volid " +:+ quote v
            +:+ " is STILL absent from the full claimed set — the snapshot/vmstate claim regressed (FAIL)")
        <$> Unclosed c)
  ++ (if negb (eqb (LiveWitnessVolid c) "") && negb (WitnessClaimed c) then
        ["item-75: live-disk witness " +:+ quote (LiveWitnessVolid c)
         +:+ " is absent from the current-config-only claim — the live-config leg returned empty (FAIL)"]
      else []).

(** * Lemmas *)
(** The list, read once and holding the pseudo-entry. *)
Definition listed (node : string) (vmid : Z) (l : list (option Snapshot))
    (tr : list (event pveE)) : Prop :=
  tr = [Ev (PcSnapshots (snapshot_path node vmid)) (Ok (Some l))] ∧ has_current l = true.
Lemma listSnapshotsVerifiable_spec node vmid :
  always (listSnapshotsVerifiable node vmid) (λ tr r,
    mutations tr = [] ∧ ∀ l, r = Ok l → listed node vmid l tr).
Proof.
  unfold listSnapshotsVerifiable, ListSnapshots.
  destruct (negb (eqb node "")); [|simpl; done]. cbn [bind trigger always].
  intros [[l|]|e]; cbn; try done. destruct (has_current l) eqn:Hc; cbn; [|done].
  split; [done|]. intros l' [= <-]. done.
Qed.
#[export] Hint Resolve listSnapshotsVerifiable_spec : io.

Lemma verify_created_Ok vmid name l :
  verify_created vmid name l = Ok tt →
  ∃ s, s ∈ l ∧ sn_name s = name ∧ sn_vmstate s ≠ 0%Z.
Proof.
  induction l as [|s l IH]; simpl; [done|]. destruct (eqb (sn_name s) name) eqn:He; simpl.
  - apply eqb_true in He. destruct (sn_vmstate s =? 0)%Z eqn:Hz; [done|]. intros _.
    exists s. apply Z.eqb_neq in Hz. split; [by left|done].
  - intros H. destruct (IH H) as (s' & ? & ? & ?). exists s'. split; [by right|done].
Qed.

Lemma find_snapshot_spec target l f others :
  find_snapshot target l = Some (f, others) →
  sn_name f = target ∧ ∃ l1 l2, l = l1 ++ f :: l2 ∧ others = l1 ++ l2.
Proof.
  revert others. induction l as [|s l IH]; intros others; simpl; [done|].
  destruct (eqb (sn_name s) target) eqn:He.
  - intros [= <- <-]. apply eqb_true in He. split; [done|]. by exists [], l.
  - destruct (find_snapshot target l) as [[f' rest]|]; [|done]. intros [= <- <-].
    destruct (IH rest eq_refl) as (? & l1 & l2 & -> & ->). split; [done|]. by exists (s :: l1), l2.
Qed.

Lemma newer_than_spec vmid target f l r :
  newer_than vmid target f l = Ok r →
  Forall (λ s, sn_snaptime s ≠ sn_snaptime f) l ∧
  r = filter (λ s, (sn_snaptime f < sn_snaptime s)%Z) l.
Proof.
  revert r. induction l as [|s l IH]; intros r; simpl; [by intros [= <-]|].
  destruct (sn_snaptime s =? sn_snaptime f)%Z eqn:He; [done|]. apply Z.eqb_neq in He.
  destruct (newer_than vmid target f l) as [rest|e]; [|done].
  destruct (IH rest eq_refl) as [Hall ->]. intros [= <-].
  split; [by constructor|]. rewrite filter_cons.
  destruct (sn_snaptime f <? sn_snaptime s)%Z eqn:Hl; case_decide; done || lia.
Qed.

#[local] Instance older_first_trans : Transitive older_first.
Proof. intros s t u. unfold older_first. lia. Qed.
#[local] Instance older_first_total : Total older_first.
Proof. intros s t. unfold older_first. lia. Qed.

(** [newer] is what a rollback to [target] would discard, given the list [l]. *)
Definition newer_of (target : string) (l : list (option Snapshot)) (newer : list Snapshot) : Prop :=
  ∃ f l1 l2, realSnapshots l = l1 ++ f :: l2 ∧ sn_name f = target ∧
    Forall (λ s, sn_snaptime s ≠ sn_snaptime f) (l1 ++ l2) ∧
    newer ≡ₚ filter (λ s, (sn_snaptime f < sn_snaptime s)%Z) (l1 ++ l2) ∧
    StronglySorted older_first newer.
Lemma newer_of_nil target l :
  newer_of target l [] →
  ∃ f l1 l2, realSnapshots l = l1 ++ f :: l2 ∧ sn_name f = target ∧
    Forall (λ s, (sn_snaptime s < sn_snaptime f)%Z) (l1 ++ l2).
Proof.
  intros (f & l1 & l2 & -> & Hn & Hne & Hp & _). exists f, l1, l2. split_and!; [done..|].
  apply Permutation_nil in Hp. rewrite Forall_forall in Hne |- *. intros s Hs.
  destruct (decide (sn_snaptime f < sn_snaptime s)%Z) as [Hlt|].
  - assert (s ∈ filter (λ s, (sn_snaptime f < sn_snaptime s)%Z) (l1 ++ l2)) as Hin
      by by apply list_elem_of_filter.
    rewrite Hp in Hin. by apply elem_of_nil in Hin.
  - specialize (Hne s Hs). lia.
Qed.
Lemma NewerSnapshots_reads node vmid target :
  always (NewerSnapshots node vmid target) (λ tr r,
    mutations tr = [] ∧
    ∀ newer, r = Ok newer →
      isPseudoEntryName target = false ∧ ∃ l, listed node vmid l tr ∧ newer_of target l newer).
Proof.
  unfold NewerSnapshots. destruct (negb (eqb node "")); [|simpl; done].
  destruct (negb (eqb _ _)); [|simpl; done].
  destruct (isPseudoEntryName target); cbn [negb]; [simpl; done|].
  eapply always_call; [apply listSnapshotsVerifiable_spec|]. intros tr [l|e] [Hm Hl]; cbn [always].
  2: by rewrite app_nil_r.
  rewrite app_nil_r. split; [done|]. intros newer Hr. split; [done|].
  exists l. split; [by apply Hl|].
  destruct (find_snapshot target (realSnapshots l)) as [[f others]|] eqn:Hf; [|done].
  apply find_snapshot_spec in Hf as (Hn & l1 & l2 & Hreal & ->).
  destruct (newer_than vmid target f (l1 ++ l2)) as [n|] eqn:Hnew; [|done].
  apply newer_than_spec in Hnew as [Hne ->]. injection Hr as <-.
  exists f, l1, l2. split_and!; [done..| |].
  - apply merge_sort_Permutation.
  - apply (StronglySorted_merge_sort older_first).
Qed.
#[export] Hint Resolve NewerSnapshots_reads : io.

Lemma cascade_loop_spec node vmid present deleted names :
  always (cascade_loop node vmid present deleted names) (λ tr r,
    ∃ done_, r.1 = deleted ++ done_ ∧ NoDup done_ ∧
      (∀ n, n ∈ done_ → n ∈ names ∧ n ∈ present) ∧
      (∃ more, length more ≤ 1 ∧
         mutations tr = (λ n, ("DELETE", delete_path node vmid n, ∅)) <$> done_ ++ more ∧
         (∀ n, n ∈ more → n ∈ names ∧ n ∈ present ∧ n ∉ done_) ∧
         (r.2 = None → more = [] ∧ ∀ n, n ∈ names → n ∈ present → n ∈ done_))).
Proof.
  revert present deleted. induction names as [|n names IH]; intros present deleted;
    cbn [cascade_loop].
  { exists []. rewrite app_nil_r. split_and!; [done|constructor|set_solver|].
    exists []. split_and!; [simpl; lia|done|set_solver|]. intros _. split; [done|set_solver]. }
  destruct (decide (n ∈ present)) as [Hn|Hn].
  - eapply always_call; [by apply task_request_spec|]. intros tr r [Hm Hok].
    destruct r as [u|e].
    + eapply always_mono; [|apply IH]. intros tr' [d o] (ds & -> & Hnd & Hin & more & Hl & Hmu & Hmore & Hnone).
      cbn [fst snd] in *. exists (n :: ds). rewrite <- app_assoc. split_and!; [done| | |].
      * constructor; [|done]. intros H. apply Hin in H. set_solver.
      * intros x. rewrite !elem_of_cons. intros [->|H]; [auto|]. apply Hin in H. set_solver.
      * exists more. split_and!; [done| | |].
        -- rewrite mutations_app, Hmu. destruct Hok as [_ ->]. done.
        -- intros x Hx. apply Hmore in Hx as (? & ? & ?). set_solver.
        -- intros Ho. destruct (Hnone Ho) as [-> Hall]. split; [done|].
           intros x. rewrite !elem_of_cons. intros [->|Hx] Hp; [by left|].
           destruct (decide (x = n)) as [->|]; [by left|]. right. set_solver.
    + cbn [always]. rewrite app_nil_r. exists []. rewrite app_nil_r.
      split_and!; [done|constructor|set_solver|].
      destruct Hm as [-> | ->]; [exists []|exists [n]]; simpl; split_and!; try done; try lia; set_solver.
  - eapply always_mono; [|apply IH]. intros tr' [d o] (ds & -> & Hnd & Hin & more & Hl & Hmu & Hmore & Hnone).
    exists ds. split_and!; [done|done|set_solver|]. exists more. split_and!; [done..|set_solver|].
    intros Ho. destruct (Hnone Ho) as [-> Hall]. split; [done|]. set_solver.
Qed.
#[export] Hint Resolve cascade_loop_spec : io.

Lemma remaining_names_nil still names :
  remaining_names still names = [] → ∀ n, n ∈ names → n ∉ still.
Proof.
  induction names as [|n names IH]; simpl; [set_solver|]. case_decide; [done|].
  intros Hr x. rewrite elem_of_cons. intros [->|?]; auto.
Qed.

(** * Properties *)

(** A rollback never discards a snapshot. The only request it can make is the
    rollback of that very snapshot, and it is made only after one complete read of
    the list in which that snapshot is strictly the newest; success means PVE
    accepted it and the task it answered was seen to succeed. Refusing because of
    newer snapshots makes no request and names exactly those, oldest first. *)
Theorem Rollback_discards_nothing node vmid name :
  always (Rollback node vmid name) (λ tr r,
    at_most_one "POST" (rollback_path node vmid name) ∅ tr ∧
    (mutations tr ≠ [] →
       ∃ l f l1 l2 tr', tr = Ev (PcSnapshots (snapshot_path node vmid)) (Ok (Some l)) :: tr' ∧
         has_current l = true ∧ realSnapshots l = l1 ++ f :: l2 ∧ sn_name f = name ∧
         Forall (λ s, (sn_snaptime s < sn_snaptime f)%Z) (l1 ++ l2)) ∧
    match r with
    | Ok _ => ∃ ev tr', tr = ev :: tr' ∧
                task_done "POST" (rollback_path node vmid name) ∅ node tr'
    | Er e => ∀ v t ns, kind e = KNotNewestSnapshot v t ns →
        v = vmid ∧ t = name ∧ ns ≠ [] ∧ mutations tr = [] ∧
        ∃ l newer, listed node vmid l tr ∧ newer_of name l newer ∧ ns = sn_name <$> newer
    end).
Proof.
  unfold Rollback. destruct (negb (eqb node "")); [|simpl; by split; [left|]].
  destruct (negb (eqb _ _)); [|simpl; by split; [left|]].
  destruct (isPseudoEntryName name); cbn [negb]; [simpl; by split; [left|]|].
  eapply always_call; [apply NewerSnapshots_reads|]. intros tr [newer|e] [Hm Hr]; cbn [always].
  2: { rewrite app_nil_r. unfold at_most_one. rewrite Hm. split_and!; [by left|done..]. }
  destruct (Hr newer eq_refl) as (_ & l & Hl & Hnew). case_bool_decide as Hnil.
  - subst newer. destruct (newer_of_nil _ _ Hnew) as (f & l1 & l2 & Hreal & Hname & Hall).
    eapply always_mono; [|by apply task_request_spec]. intros tr' r [Hmu Hok].
    destruct Hl as [-> Hcur]. unfold at_most_one. rewrite mutations_app, Hm. split_and!; [done| |].
    + intros _. exists l, f, l1, l2, tr'. done.
    + destruct r as [[]|e]; [|by rewrite Hok]. destruct Hok as [Hd _]. do 2 eexists. split; [done|].
      done.
  - cbn [always]. rewrite app_nil_r. unfold at_most_one. rewrite Hm.
    split_and!; [by left|done|]. intros v t ns [= <- <- <-]. split_and!; [done|done| |done|eauto].
    intros Hnil'. by apply fmap_nil_inv in Hnil'.
Qed.

(** Creating a snapshot makes at most one request, never for a reserved name
    and never when the list, read completely, already has that name. Success means
    that a second complete read, after the task was seen to succeed, holds a real
    snapshot of that name with its RAM captured. *)
Theorem CreateSnapshot_verified node vmid name description :
  let params := snapshot_params name description in
  always (CreateSnapshot node vmid name description) (λ tr r,
    at_most_one "POST" (snapshot_path node vmid) params tr ∧
    (mutations tr ≠ [] →
       equal_fold (trim_space name) "current" = false ∧
       equal_fold (trim_space name) "pending" = false ∧
       ∃ l tr', tr = Ev (PcSnapshots (snapshot_path node vmid)) (Ok (Some l)) :: tr' ∧
         has_current l = true ∧ Forall (λ s, sn_name s ≠ name) (realSnapshots l)) ∧
    (r = Ok tt → ∃ ev tr1 l s,
       tr = ev :: tr1 ++ [Ev (PcSnapshots (snapshot_path node vmid)) (Ok (Some l))] ∧
       task_done "POST" (snapshot_path node vmid) params node tr1 ∧ has_current l = true ∧
       s ∈ realSnapshots l ∧ sn_name s = name ∧ sn_vmstate s ≠ 0%Z)).
Proof.
  intros params. unfold CreateSnapshot.
  destruct (negb (eqb node "")); [|simpl; by split; [left|]].
  destruct (negb (eqb (trim_space name) "")); [|simpl; by split; [left|]].
  destruct (equal_fold _ currentPseudoSnapshot) eqn:Hc; cbn [negb]; [simpl; by split; [left|]|].
  destruct (equal_fold _ pendingReservedName) eqn:Hp; cbn [negb]; [simpl; by split; [left|]|].
  eapply always_call; [apply listSnapshotsVerifiable_spec|]. intros tr [l|e] [Hm Hl]; cbn [always].
  2: { rewrite app_nil_r. unfold at_most_one. rewrite Hm. split_and!; [by left|done..]. }
  destruct (Hl l eq_refl) as [-> Hcur]. destruct (existsb _ _) eqn:Hex; cbn [negb].
  { cbn [always]. unfold at_most_one. simpl. split_and!; [by left|done..]. }
  assert (Forall (λ s, sn_name s ≠ name) (realSnapshots l)) as Hall.
  { apply Forall_forall. intros s Hs Hn. apply not_true_iff_false in Hex. apply Hex.
    apply existsb_exists. exists s. rewrite list_elem_of_In in Hs. by rewrite eqb_true. }
  eapply always_call; [by apply task_request_spec|]. intros tr' r [Hmu Hok].
  destruct r as [[]|e].
  2: { cbn [always]. rewrite app_nil_r. unfold at_most_one. rewrite mutations_app. simpl.
       split_and!; [done| |done]. eauto 10. }
  eapply always_call; [apply listSnapshotsVerifiable_spec|]. intros tr2 r2 [Hm2 Hl2].
  assert (∀ tr3, mutations ([Ev (PcSnapshots (snapshot_path node vmid)) (Ok (Some l))]
            ++ tr' ++ tr2 ++ tr3) = mutations (tr' ++ tr3)) as Hmut.
  { intros tr3. by rewrite !mutations_app, Hm2. }
  destruct r2 as [after|e]; cbn [always]; unfold at_most_one; rewrite Hmut, app_nil_r.
  - split_and!; [done|eauto 10|]. intros Hv.
    apply verify_created_Ok in Hv as (s & Hs & Hsn & Hst).
    destruct (Hl2 after eq_refl) as [-> Hcur2]. destruct Hok as [Hd _].
    do 2 eexists. exists after, s. rewrite app_nil_r. split; [reflexivity|]. done.
  - split_and!; [done|eauto 10|done].
Qed.

(** A cascade deletes only names it was given and that the list, read
    completely, held; each at most once and in the order given. What it reports as
    deleted was seen to be deleted, at most one request beyond that was made, and
    without an error none of the names is left in a second complete read. *)
Theorem CascadeDeleteSnapshots_exact node vmid names :
  always (CascadeDeleteSnapshots node vmid names) (λ tr r,
    NoDup r.1 ∧ (∀ n, n ∈ r.1 → n ∈ names) ∧
    (∃ more, length more ≤ 1 ∧ (∀ n, n ∈ more → n ∈ names ∧ n ∉ r.1) ∧
       mutations tr = (λ n, ("DELETE", delete_path node vmid n, ∅)) <$> r.1 ++ more) ∧
    (r.1 ≠ [] → ∃ l tr', tr = Ev (PcSnapshots (snapshot_path node vmid)) (Ok (Some l)) :: tr' ∧
       has_current l = true ∧ ∀ n, n ∈ r.1 → n ∈ snapshot_names (realSnapshots l)) ∧
    (r.2 = None → ∃ l tr', tr = tr' ++ [Ev (PcSnapshots (snapshot_path node vmid)) (Ok (Some l))] ∧
       has_current l = true ∧ ∀ n, n ∈ names → n ∉ snapshot_names (realSnapshots l))).
Proof.
  set (Q := λ (tr : list (event pveE)) (r : list string * option err), _).
  assert (∀ tr e, mutations tr = [] → Q tr ([], Some e)) as Hnone.
  { intros tr e Hm. subst Q. cbn [fst snd]. rewrite Hm. split_and!; [constructor|set_solver| |done|done].
    exists []. split_and!; [simpl; lia|set_solver|done]. }
  unfold CascadeDeleteSnapshots. destruct (eqb node ""); [by apply Hnone|].
  case_bool_decide; [by apply Hnone|].
  destruct (cascade_names_err _ _ _ _); [by apply Hnone|].
  eapply always_call; [apply listSnapshotsVerifiable_spec|]. intros tr [l|e] [Hm Hl]; cbn [always].
  2: { rewrite app_nil_r. by apply Hnone. }
  clear Hnone. subst Q. destruct (Hl l eq_refl) as [-> Hcur]. clear Hl.
  eapply always_call; [apply cascade_loop_spec|].
  intros tr' [d o] (ds & Hd & Hnd & Hin & more & Hlen & Hmu & Hmore & Hfin).
  cbn [fst snd app] in *. subst ds.
  assert (∀ tr2, mutations tr2 = [] →
    NoDup d ∧ (∀ n, n ∈ d → n ∈ names) ∧
    (∃ more, length more ≤ 1 ∧ (∀ n, n ∈ more → n ∈ names ∧ n ∉ d) ∧
       mutations ([Ev (PcSnapshots (snapshot_path node vmid)) (Ok (Some l))] ++ tr' ++ tr2)
       = (λ n, ("DELETE", delete_path node vmid n, ∅)) <$> d ++ more) ∧
    (d ≠ [] → ∃ l' tr3, [Ev (PcSnapshots (snapshot_path node vmid)) (Ok (Some l))] ++ tr' ++ tr2
         = Ev (PcSnapshots (snapshot_path node vmid)) (Ok (Some l')) :: tr3 ∧
       has_current l' = true ∧ ∀ n, n ∈ d → n ∈ snapshot_names (realSnapshots l'))) as Hgo.
  { intros tr2 Hm2. split_and!; [done|naive_solver| |].
    - exists more. split_and!; [done|naive_solver|]. by rewrite !mutations_app, Hm2, Hmu, app_nil_r.
    - intros _. exists l, (tr' ++ tr2). split_and!; [done|done|naive_solver]. }
  destruct o as [e|]; cbn [always].
  { destruct (Hgo [] eq_refl) as (?&?&?&?). split_and!; done. }
  eapply always_call; [apply listSnapshotsVerifiable_spec|]. intros tr2 r2 [Hm2 Hl2].
  destruct (Hgo tr2 Hm2) as (?&?&?&?).
  destruct r2 as [after|e]; cbn [always]; [|rewrite app_nil_r; split_and!; done].
  destruct (Hl2 after eq_refl) as [-> Hcur2].
  case_bool_decide as Hrem; cbn [always]; rewrite app_nil_r; split_and!; try done.
  intros _. exists after, (Ev (PcSnapshots (snapshot_path node vmid)) (Ok (Some l)) :: tr').
  split_and!; [done|done|].
  by apply remaining_names_nil.
Qed.

(** What the gate decides of one volid of the section. *)
Definition gap_volid (i : snapshotSectionInputs) (v : string) : Prop :=
  v ∉ currentConfigOnlyClaim i ∧ v ∈ contentVolids i ∧
  has_prefix (freePrefix (in_storage i) (in_vmid i)) v = true.
Lemma section_fold_spec i l missed gap unclosed :
  let '(m, g, u) := foldl (section_step i) (missed, gap, unclosed) l in
  (∀ v, v ∈ m ↔ v ∈ missed ∨ v ∈ l ∧ v ∉ currentConfigOnlyClaim i ∧ v ∉ contentVolids i) ∧
  (∀ v, v ∈ g ↔ v ∈ gap ∨ v ∈ l ∧ gap_volid i v) ∧
  (∀ v, v ∈ u ↔ v ∈ unclosed ∨ v ∈ l ∧ gap_volid i v ∧ v ∉ fullClaim i).
Proof.
  revert missed gap unclosed. induction l as [|x l IH]; intros missed gap unclosed; cbn [foldl].
  { split_and!; set_solver. }
  destruct (section_step i (missed, gap, unclosed) x) as [[m0 g0] u0] eqn:Hs.
  specialize (IH m0 g0 u0). destruct (foldl _ (m0, g0, u0) l) as [[m g] u].
  destruct IH as (Hm & Hg & Hu). unfold section_step, gap_volid in *.
  case_decide as H1; [simplify_eq; split_and!; set_solver|].
  case_decide as H2; [simplify_eq; split_and!; set_solver|].
  destruct (has_prefix _ x) eqn:H3.
  - case_decide as H4; simplify_eq; split_and!; set_solver.
  - simplify_eq. split_and!; [set_solver| |]; intros v; [rewrite Hg|rewrite Hu];
      rewrite elem_of_cons; (split; [naive_solver|]); intros [?|[[->|?] ?]]; naive_solver congruence.
Qed.

(** The snapshot-section gate passes exactly when every volid of the section
    that the live config does not claim is in the storage's content, at least one
    of them carries the VM's own prefix, every such one is in the full claimed
    set, and the live witness, when there is one, is claimed by the live config. *)
Theorem evalSnapshotSection_passes i :
  Failures (evalSnapshotSection i) = [] ↔
  (∀ v, v ∈ in_sectionVolids i → v ∉ currentConfigOnlyClaim i → v ∈ contentVolids i) ∧
  (∃ v, v ∈ in_sectionVolids i ∧ gap_volid i v) ∧
  (∀ v, v ∈ in_sectionVolids i → gap_volid i v → v ∈ fullClaim i) ∧
  (in_liveWitnessVolid i = "" ∨ in_liveWitnessVolid i ∈ currentConfigOnlyClaim i).
Proof.
  unfold evalSnapshotSection. pose proof (section_fold_spec i (in_sectionVolids i) [] [] []) as H.
  destruct (foldl _ _ _) as [[m g] u]. destruct H as (Hm & Hg & Hu).
  assert (∀ l : list string, sort_strings l = [] ↔ ∀ v, v ∉ l) as Hnil.
  { intros l. split; [intros Hl v Hv|intros Hl].
    - apply sort_strings_elem in Hv. rewrite Hl in Hv. by apply elem_of_nil in Hv.
    - apply elem_of_nil_inv. intros v. rewrite sort_strings_elem. apply Hl. }
  unfold Failures. cbn [ContentMissed GapVolids Unclosed LiveWitnessVolid WitnessClaimed].
  assert (∀ (f : string → string) l, f <$> sort_strings l = [] ↔ ∀ v, v ∉ l) as Hmap.
  { intros f l. rewrite <- Hnil. split; [apply fmap_nil_inv|by intros ->]. }
  rewrite !app_nil, !Hmap. setoid_rewrite Hm. setoid_rewrite Hu.
  assert ((if bool_decide (sort_strings g = []) then [""] else []) = @nil string ↔
          ∃ v, v ∈ in_sectionVolids i ∧ gap_volid i v) as Hgap.
  { case_bool_decide as Hz.
    - split; [done|]. intros (v & Hv). rewrite Hnil in Hz. exfalso. apply (Hz v), Hg. by right.
    - split; [|done]. intros _. destruct g as [|v g]; [done|]. exists v.
      destruct (proj1 (Hg v)) as [H|H]; [by left|by apply elem_of_nil in H|done]. }
  rewrite <- Hgap. clear Hgap.
  assert (∀ (b : bool) x y, (if b then [x] else []) = @nil string ↔ (if b then [y] else []) = @nil string)
    as Hif by (by intros []).
  rewrite (Hif _ _ ""). clear Hif.
  assert (∀ (b : bool) x, (if b then [x] else []) = @nil string ↔ b = false) as Hb by by intros [].
  rewrite !Hb. rewrite andb_false_iff, !negb_false_iff, eqb_true, bool_decide_eq_true.
  split.
  - intros (H1 & H2 & H3 & H4).
    assert (∀ v, v ∈ in_sectionVolids i → v ∉ currentConfigOnlyClaim i → v ∈ contentVolids i).
    { intros v Hv Hc. destruct (decide (v ∈ contentVolids i)); [done|]. exfalso. apply (H1 v). auto. }
    split; [done|]. split; [done|]. split; [|done]. intros v Hv Hgv.
    destruct (decide (v ∈ fullClaim i)); [done|]. exfalso. apply (H3 v). auto.
  - intros (H1 & H2 & H3 & H4). split_and!; [|done| |done]; intros v [Hv|Hv];
      [by apply elem_of_nil in Hv|naive_solver|by apply elem_of_nil in Hv|naive_solver].
Qed.
