(* ===== verification/Orphans.v ===== *)
(** storageorphans.go: which volumes a VM's configs claim, and which volumes of a
    storage no VM claims; with the storage reads of storage.go they use. *)
From Stdlib Require Import Ascii.
From S2P Require Import Prelude GoLib Errors Json Rest Vms Task Snapshot.

(** ** storage.go *)
Definition storage_path (node name : string) (rest : string) : string :=
  "/nodes/" +:+ path_escape node +:+ "/storage/" +:+ path_escape name +:+ rest.

Definition GetStorage (node name : string) : io pveE (res Rest.Storage) :=
  guard negb (eqb node "") && negb (eqb name "") orelse
    errorf "get storage: node and name are required" in
  let what := "get storage " +:+ quote name +:+ " on " +:+ quote node in
  let? st := trigger (PcStorage (storage_path node name "/status")) orelse wrapf what in
  guard negb (eqb (st_type st) "") orelse
    wrapf_post what (sent ErrUnverifiableRead) "status payload carries no storage type" in
  Ret (Ok st).

(** An entry with none of the volume's fields decodes to the zero volume. *)
Definition zero_content : StorageContent := {| sc_volid := ""; sc_vmid := 0 |}.
Definition GetStorageVolumes (node storage : string) : io pveE (res (list StorageContent)) :=
  guard negb (eqb node "") && negb (eqb storage "") orelse
    errorf "get storage volumes: node and storage are required" in
  let what := "get volumes on storage " +:+ quote storage +:+ " on " +:+ quote node in
  let? content := trigger (PcContent (storage_path node storage "/content")) orelse wrapf what in
  Ret (let^ l := null_checked what "list payload was null" "entry " content orelse id in
       Ok ((λ e, default zero_content e.1) <$> l)).

(** ** Volumes named by a config *)
Definition claimableContentTypes (t : string) : bool := bool_decide (t ∈ ["images"; "iso"]).

Definition storageContentEntry : Type := option StorageContent * string.
Definition storageContentWithType (node storage : string)
    : io pveE (res (list storageContentEntry)) :=
  let? raw := trigger (PcContent (storage_path node storage "/content")) orelse id in
  Ret (null_checked ("storage " +:+ quote storage +:+ " on " +:+ quote node)
         "content list payload was null" "content list entry " raw).

Definition firstCommaVolid (slotValue : string) : string :=
  let v := match cut (byte 44) slotValue with Some (a, _) => a | None => slotValue end in
  if negb (contains ":" v) then "" else v.

Definition allDigits (s : string) : bool := negb (eqb s "") && all_bytes is_digit s.
Definition isDiskShapedKey (key : string) : bool :=
  bool_decide (key ∈ ["efidisk0"; "tpmstate0"]) ||
  existsb (λ p, match cut_prefix p key with Some rest => allDigits rest | None => false end)
    ["ide"; "scsi"; "sata"; "virtio"; "unused"].

Record configRead := { volids : list string; vmstate : string; lock : string }.
Definition claim_key (key : string) : bool := isDiskShapedKey key || eqb key "vmstate".

(** One entry of the loop over the config. *)
Definition config_entry (what : string) (strict : bool) (out : configRead)
    (kv : string * json) : res configRead :=
  let '(key, raw) := kv in
  if eqb key "lock" then
    match as_string raw with
    | Some s => Ok {| volids := volids out; vmstate := vmstate out; lock := s |}
    | None =>
        if strict then Er (wrapf_post what (sent ErrUnverifiableRead)
          ("key " +:+ quote "lock" +:+ " is present with a non-string value"))
        else Ok out
    end
  else if negb (claim_key key) then Ok out
  else match as_string raw with
       | None =>
           if strict then Er (wrapf_post what (sent ErrUnverifiableRead)
             ("key " +:+ quote key +:+ " is present with a non-string value"))
           else Ok out
       | Some s =>
           let v := firstCommaVolid s in
           Ok {| volids := if eqb v "" then volids out else volids out ++ [v];
                 vmstate := if eqb key "vmstate" then s else vmstate out;
                 lock := lock out |}
       end.
Fixpoint config_entries (what : string) (strict : bool) (out : configRead)
    (l : list (string * json)) : res configRead :=
  match l with
  | [] => Ok out
  | kv :: l' => let^ out' := config_entry what strict out kv orelse id in
                config_entries what strict out' l'
  end.

Definition configVolids (vmid : Z) (snapshot path : string) (params : Values) (strict : bool)
    : io pveE (res configRead) :=
  let what := (if eqb snapshot "" then "config for vmid " else
                 "snapshot " +:+ quote snapshot +:+ " config for vmid ") +:+ itoa vmid in
  let? raw := RawRequest "GET" path params orelse id in
  match as_object raw with
  | None => Ret (Er (wrapf2 what (sent ErrUnverifiableRead)
                       (errorf "json: cannot unmarshal into Go value of type map")))
  | Some cfg =>
      let cfg := default ∅ cfg in
      guard (if eqb snapshot "" then bool_decide (is_Some (cfg !! "digest"))
             else bool_decide (cfg ≠ ∅)) orelse
        wrapf_post what (sent ErrUnverifiableRead)
          (if eqb snapshot "" then "config carries no digest" else "empty config decode") in
      Ret (let^ out := config_entries what strict {| volids := []; vmstate := ""; lock := "" |}
                         (entries cfg) orelse id in
           Ok {| volids := sort_strings (volids out); vmstate := vmstate out; lock := lock out |})
  end.

(** ** What a VM claims *)
Definition live_params : list Values := [∅; vset ∅ "current" "1"].
Definition live_path (node : string) (vmid : Z) : string := vm_path node vmid "/config".
Definition section_path (node : string) (vmid : Z) (name : string) : string :=
  snapshot_path node vmid +:+ "/" +:+ path_escape name +:+ "/config".
Definition claim_what (vmid : Z) : string := "claimed volumes for vmid " +:+ itoa vmid.

Fixpoint claim_live (node : string) (vmid : Z) (claimed : gset string) (ps : list Values)
    : io pveE (res (gset string)) :=
  match ps with
  | [] => Ret (Ok claimed)
  | params :: ps' =>
      let? cr := configVolids vmid "" (live_path node vmid) params true
        orelse wrapf (claim_what vmid) in
      guard negb (has_prefix "suspend" (lock cr) && eqb (firstCommaVolid (vmstate cr)) "") orelse
        wrapf_post (claim_what vmid) (sent ErrUnverifiableRead)
          ("lock " +:+ quote (lock cr)
           +:+ " asserts a suspend-family state volume but the config carries no vmstate volid") in
      claim_live node vmid (claimed ∪ list_to_set (volids cr)) ps'
  end.
Fixpoint claim_sections (node : string) (vmid : Z) (claimed : gset string) (snaps : list Snapshot)
    : io pveE (res (gset string)) :=
  match snaps with
  | [] => Ret (Ok claimed)
  | s :: snaps' =>
      let? cr := configVolids vmid (sn_name s) (section_path node vmid (sn_name s)) ∅ true
        orelse wrapf (claim_what vmid) in
      guard negb (negb (sn_vmstate s =? 0)%Z && eqb (firstCommaVolid (vmstate cr)) "") orelse
        wrapf_post (claim_what vmid) (sent ErrUnverifiableRead)
          ("snapshot " +:+ quote (sn_name s) +:+ " list reports vmstate=" +:+ itoa (sn_vmstate s)
           +:+ " but its section carries no vmstate volid") in
      claim_sections node vmid (claimed ∪ list_to_set (volids cr)) snaps'
  end.

Definition ClaimedVolumes (node : string) (vmid : Z) : io pveE (res (gset string)) :=
  guard negb (eqb node "") orelse errorf (claim_what vmid +:+ ": node is required") in
  let? claimed := claim_live node vmid ∅ live_params orelse id in
  let? snaps := listSnapshotsVerifiable node vmid orelse wrapf (claim_what vmid) in
  claim_sections node vmid claimed (realSnapshots snaps).

(** ** Orphans *)
Definition refuseIfShared (node storage : string) : io pveE (res unit) :=
  let what := "orphan volumes: get storage " +:+ quote storage +:+ " on " +:+ quote node in
  let? stg := GetStorage node storage orelse wrapf what in
  guard (st_shared stg =? 0)%Z orelse
    errorf ("orphan volumes: storage " +:+ quote storage +:+ " on " +:+ quote node
      +:+ " is shared (shared=1): the claimed set this function builds is scoped to node "
      +:+ quote node +:+ " alone and cannot see volumes claimed by VMs on other cluster nodes — refusing rather than returning a diff that may falsely report volumes in active use elsewhere as orphaned") in
  Ret (Ok tt).

Definition volid_le (a b : StorageContent) : Prop := str_le (sc_volid a) (sc_volid b).
Global Instance volid_le_dec : RelDecision volid_le.
Proof. intros a b. unfold volid_le. apply _. Defined.

Definition is_orphan (claimed : gset string) (e : storageContentEntry) : option StorageContent :=
  match e with
  | (Some v, typ) =>
      if claimableContentTypes typ && negb (bool_decide (sc_volid v ∈ claimed)) then Some v else None
  | (None, _) => None
  end.
Fixpoint orphans_loop (i : Z) (content : list (option storageContentEntry)) (claimed : gset string)
    : res (list StorageContent) :=
  match content with
  | [] => Ok []
  | None :: _ =>
      Er (wrapf_post "orphan diff" (sent ErrUnverifiableRead) ("content entry " +:+ itoa i +:+ " is null"))
  | Some e :: content' =>
      let^ orphans := orphans_loop (i + 1) content' claimed orelse id in
      Ok (match is_orphan claimed e with Some v => v :: orphans | None => orphans end)
  end.
Definition orphansFromClaimed (content : list (option storageContentEntry)) (claimed : gset string)
    : res (list StorageContent) :=
  let^ orphans := orphans_loop 0 content claimed orelse id in
  Ok (merge_sort volid_le orphans).

Fixpoint claimed_union (what : string → Z → string) (claimed : gset string)
    (guests : list (string * Z)) : io pveE (res (gset string)) :=
  match guests with
  | [] => Ret (Ok claimed)
  | (node, vmid) :: guests' =>
      let? vmClaimed := ClaimedVolumes node vmid orelse wrapf (what node vmid) in
      claimed_union what (claimed ∪ vmClaimed) guests'
  end.

Definition orphanVolumesForVMIDs (node : string) (content : list storageContentEntry)
    (vmids : list Z) : io pveE (res (list StorageContent)) :=
  let? claimed := claimed_union (λ _ _, "orphan volumes") ∅ ((λ v, (node, v)) <$> vmids)
    orelse id in
  Ret (orphansFromClaimed (somes content) claimed).

(** A Go slice: [None] is nil. *)
Definition slice (A : Type) : Type := option (list A).

Definition ClusterClaimedVolumes (guests : slice (string * Z)) : io pveE (res (gset string)) :=
  match guests with
  | None => Ret (Er (errorf "cluster claimed volumes: a nil guest list is refused (a non-nil empty slice is a genuinely zero-QEMU cluster; nil is a dropped enumeration error)"))
  | Some guests =>
      claimed_union (λ node vmid, "cluster claimed volumes: node " +:+ quote node +:+ " vmid "
                                  +:+ itoa vmid) ∅ guests
  end.

Definition narrowToVMIDPrefix (orphans : list StorageContent) (storage : string) (vmid : Z)
    : list StorageContent :=
  filter (λ o, has_prefix (freePrefix storage vmid) (sc_volid o) = true) orphans.

Definition orphan_content (pre node storage : string) : io pveE (res (list storageContentEntry)) :=
  let? actual := storageContentWithType node storage
    orelse wrapf (pre +:+ ": get storage content on " +:+ quote node +:+ "/" +:+ quote storage) in
  Ret (Ok actual).

Definition OrphanVolumes (node storage : string) : io pveE (res (list StorageContent)) :=
  guard negb (eqb node "") && negb (eqb storage "") orelse
    errorf "orphan volumes: node and storage are required" in
  let? _ := refuseIfShared node storage orelse id in
  let? actual := orphan_content "orphan volumes" node storage orelse id in
  let? vmids := GetVMs node orelse wrapf ("orphan volumes: list vms on " +:+ quote node) in
  orphanVolumesForVMIDs node actual (wrap64 <$> vmids).

Definition OrphanVolumesWithVMList (node storage : string) (completeVMIDs : slice Z)
    : io pveE (res (list StorageContent)) :=
  guard negb (eqb node "") && negb (eqb storage "") orelse
    errorf "orphan volumes: node and storage are required" in
  match completeVMIDs with
  | None => Ret (Er (errorf "orphan volumes: a nil VM list is refused (a non-nil empty slice is a genuinely zero-QEMU node; nil is a dropped NodeVMIDs error)"))
  | Some vmids =>
      let? _ := refuseIfShared node storage orelse id in
      let? actual := orphan_content "orphan volumes" node storage orelse id in
      orphanVolumesForVMIDs node actual vmids
  end.

Definition OrphanVolumesForVMID (node storage : string) (vmid : Z)
    : io pveE (res (list StorageContent)) :=
  let? orphans := OrphanVolumes node storage orelse id in
  Ret (Ok (narrowToVMIDPrefix orphans storage vmid)).
Definition OrphanVolumesForVMIDWithVMList (node storage : string) (vmid : Z)
    (completeVMIDs : slice Z) : io pveE (res (list StorageContent)) :=
  let? orphans := OrphanVolumesWithVMList node storage completeVMIDs
    orelse wrapf ("orphan volumes for vmid " +:+ itoa vmid) in
  Ret (Ok (narrowToVMIDPrefix orphans storage vmid)).

Definition OrphanVolumesClusterForVMID (node storage : string) (vmid : Z)
    (clusterGuests : slice (string * Z)) : io pveE (res (list StorageContent)) :=
  let pre := "orphan volumes (cluster) for vmid " +:+ itoa vmid in
  guard negb (eqb node "") && negb (eqb storage "") orelse
    errorf (pre +:+ ": node and storage are required") in
  guard bool_decide (is_Some clusterGuests) orelse
    errorf (pre +:+ ": a nil cluster guest list is refused (nil is a dropped enumeration error; a non-nil empty slice is a genuinely zero-QEMU cluster)") in
  let? actual := orphan_content pre node storage orelse id in
  let? claimed := ClusterClaimedVolumes clusterGuests orelse wrapf pre in
  Ret (let^ orphans := orphansFromClaimed (somes actual) claimed orelse wrapf pre in
       Ok (narrowToVMIDPrefix orphans storage vmid)).

(** * Lemmas *)
(** A config the service answered, decoded. *)
Definition config_of (r : http_res) (cfg : gmap string json) : Prop :=
  ∃ j o, answered r j ∧ as_object j = Some o ∧ cfg = default ∅ o.
(** The config names the volume in a disk slot or as its state volume. *)
Definition names_volume (cfg : gmap string json) (v : string) : Prop :=
  v ≠ "" ∧ ∃ key raw s, cfg !! key = Some raw ∧ claim_key key = true ∧
    as_string raw = Some s ∧ firstCommaVolid s = v.
(** Every slot that could name one is a string, so none is skipped. *)
Definition slots_readable (cfg : gmap string json) : Prop :=
  ∀ key raw, cfg !! key = Some raw → claim_key key = true → is_Some (as_string raw).

Lemma config_entries_spec what l out out' :
  config_entries what true out l = Ok out' →
  (∀ key raw, (key, raw) ∈ l → claim_key key = true → is_Some (as_string raw)) ∧
  ∀ v, v ∈ volids out' ↔ v ∈ volids out ∨ v ≠ "" ∧
    ∃ key raw s, (key, raw) ∈ l ∧ claim_key key = true ∧ as_string raw = Some s ∧
      firstCommaVolid s = v.
Proof.
  revert out. induction l as [|[key raw] l IH]; intros out; cbn [config_entries].
  { intros [= <-]. split; [set_solver|]. intros v. split; [by left|]. set_solver. }
  destruct (config_entry what true out (key, raw)) as [out1|e] eqn:Hc; [|done]. intros H.
  destruct (IH _ H) as [Hs Hv]. clear H. unfold config_entry in Hc.
  destruct (eqb key "lock") eqn:Hl.
  - apply eqb_true in Hl as ->. destruct (as_string raw); [|done]. injection Hc as <-. split.
    + intros k r. rewrite elem_of_cons. intros [[= -> ->]|?] ?; [done|eauto].
    + intros v. rewrite Hv. simpl. split; [set_solver|].
      intros [?|(Hne & k & r & s' & Hin & Hk & ?)]; [by left|].
      apply elem_of_cons in Hin as [[= -> ->]|?]; [done|]. right. eauto 10.
  - destruct (claim_key key) eqn:Hk; cbn [negb] in Hc.
    + destruct (as_string raw) as [s|] eqn:Hr; [|done]. injection Hc as <-. cbn [volids] in Hv. split.
      * intros k r. rewrite elem_of_cons. intros [[= -> ->]|?] ?; [by rewrite Hr|eauto].
      * intros v. rewrite Hv. destruct (eqb (firstCommaVolid s) "") eqn:He.
        -- apply eqb_true in He. split; [set_solver|].
           intros [?|(Hne & k & r & s' & Hin & Hk' & Hs' & Hv')]; [by left|].
           apply elem_of_cons in Hin as [[= -> ->]|?]; [|right; eauto 10]. congruence.
        -- rewrite elem_of_app, list_elem_of_singleton. split.
           ++ intros [[?| ->]|(Hne & k & r & s' & Hin & ?)]; [by left| |].
              ** right. split; [intros He'; by rewrite He' in He|]. exists key, raw, s.
                 split; [by left|done].
              ** right. split; [done|]. exists k, r, s'. split; [by right|done].
           ++ intros [?|(Hne & k & r & s' & Hin & Hk' & Hs' & Hv')]; [by left; left|].
              apply elem_of_cons in Hin as [[= -> ->]|?]; [|right; eauto 10].
              left. right. congruence.
    + injection Hc as <-. split.
      * intros k r. rewrite elem_of_cons. intros [[= -> ->]|?] ?; [congruence|eauto].
      * intros v. rewrite Hv. split; [set_solver|].
        intros [?|(Hne & k & r & s' & Hin & Hk' & ?)]; [by left|].
        apply elem_of_cons in Hin as [[= -> ->]|?]; [congruence|]. right. eauto 10.
Qed.

(** A strict config read names exactly the volumes of the config it was answered. *)
Definition config_named (path : string) (params : Values) (vs : list string)
    (tr : list (event pveE)) : Prop :=
  ∃ hr cfg, tr = [Ev (Http "GET" path params) hr] ∧ config_of hr cfg ∧ slots_readable cfg ∧
    ∀ v, v ∈ vs ↔ names_volume cfg v.
Lemma configVolids_spec vmid snapshot path params :
  always (configVolids vmid snapshot path params true) (λ tr r,
    mutations tr = [] ∧ ∀ cr, r = Ok cr → config_named path params (volids cr) tr).
Proof.
  unfold configVolids. eapply always_call; [apply RawRequest_spec|]. intros tr r Hr.
  assert (mutations tr = []) as Hm by by destruct Hr as [[-> _]|(hr & -> & _)].
  destruct r as [j|e]; cbn [always]; [|by rewrite app_nil_r].
  destruct Hr as [[_ ?]|(hr & -> & Hj)]; [done|]. specialize (Hj j eq_refl).
  destruct (as_object j) as [o|] eqn:Ho; cbn [always]; [|done].
  destruct (if eqb snapshot "" then _ else _); cbn [always]; [|done]. split; [done|]. intros cr.
  destruct (config_entries _ _ _ _) as [out|e] eqn:He; [|done]. intros [= <-]. cbn [volids].
  apply config_entries_spec in He as [Hs Hv]. cbn [volids] in Hv.
  exists hr, (default ∅ o). split_and!; [done|by exists j, o| |].
  - intros key raw Hk. apply Hs. by apply elem_of_map_to_list.
  - intros v. rewrite sort_strings_elem, Hv. unfold names_volume.
    setoid_rewrite elem_of_map_to_list. set_solver.
Qed.
#[export] Hint Resolve configVolids_spec : io.

(** [claimed] holds every volume the config read at [path] names. *)
Definition read_named (path : string) (params : Values) (claimed : gset string)
    (tr : list (event pveE)) : Prop :=
  ∃ hr cfg, Ev (Http "GET" path params) hr ∈ tr ∧ config_of hr cfg ∧ slots_readable cfg ∧
    ∀ v, names_volume cfg v → v ∈ claimed.
(** What the reads of a trace say of one VM: its live config in both forms and the
    section of every snapshot of a complete list were read, and everything they
    name is claimed. *)
Definition covered (node : string) (vmid : Z) (claimed : gset string) (tr : list (event pveE)) : Prop :=
  (∀ params, params ∈ live_params → read_named (live_path node vmid) params claimed tr) ∧
  ∃ snaps, Ev (PcSnapshots (snapshot_path node vmid)) (Ok (Some snaps)) ∈ tr ∧
    has_current snaps = true ∧
    ∀ s, s ∈ realSnapshots snaps → read_named (section_path node vmid (sn_name s)) ∅ claimed tr.
(** Conversely, a claimed volume is named by some config that was read. *)
Definition justified (claimed : gset string) (tr : list (event pveE)) : Prop :=
  ∀ v, v ∈ claimed → ∃ path params hr cfg,
    Ev (Http "GET" path params) hr ∈ tr ∧ config_of hr cfg ∧ names_volume cfg v.

Lemma read_named_mono path params c c' tr tr' :
  c ⊆ c' → (∀ ev, ev ∈ tr → ev ∈ tr') → read_named path params c tr → read_named path params c' tr'.
Proof. intros Hc Ht (hr & cfg & ? & ? & ? & H). exists hr, cfg. split_and!; auto. Qed.
Lemma covered_mono node vmid c c' tr tr' :
  c ⊆ c' → (∀ ev, ev ∈ tr → ev ∈ tr') → covered node vmid c tr → covered node vmid c' tr'.
Proof.
  intros Hc Ht [H1 (sn & H2 & H3 & H4)]. split; [|exists sn; split_and!; auto];
    intros; eapply read_named_mono; eauto.
Qed.
Lemma justified_union c c' tr tr' :
  justified c tr → justified c' tr' → justified (c ∪ c') (tr ++ tr').
Proof.
  intros H1 H2 v [Hv|Hv]%elem_of_union; [apply H1 in Hv|apply H2 in Hv];
    destruct Hv as (p & ps & hr & cfg & Hin & ?); exists p, ps, hr, cfg;
    (split; [apply elem_of_app; by (left + right)|done]).
Qed.
Lemma justified_empty : justified ∅ [].
Proof. intros v. set_solver. Qed.
Lemma config_named_read path params vs c tr :
  config_named path params vs tr →
  read_named path params (c ∪ list_to_set vs) tr ∧ justified (list_to_set vs) tr.
Proof.
  intros (hr & cfg & -> & Hc & Hs & Hv). split.
  - exists hr, cfg. split_and!; [by left|done|done|]. intros v ?%Hv. set_solver.
  - intros v Hin%elem_of_list_to_set. exists path, params, hr, cfg. split; [by left|]. split_and!; [done|]. by apply Hv.
Qed.

Lemma claim_live_spec node vmid c ps :
  always (claim_live node vmid c ps) (λ tr r,
    mutations tr = [] ∧ ∀ c', r = Ok c' → c ⊆ c' ∧
      (∀ params, params ∈ ps → read_named (live_path node vmid) params c' tr) ∧
      ∀ tr0, justified c tr0 → justified c' (tr0 ++ tr)).
Proof.
  revert c. induction ps as [|params ps IH]; intros c; cbn [claim_live].
  { split; [done|]. intros c' [= <-]. split_and!; [done|set_solver|].
    intros tr0. by rewrite app_nil_r. }
  eapply always_call; [apply configVolids_spec|]. intros tr [cr|e] [Hm Hr]; cbn [always];
    [|by rewrite app_nil_r].
  destruct (config_named_read _ _ _ c _ (Hr cr eq_refl)) as [Hread Hj].
  destruct (negb (has_prefix "suspend" (lock cr) && _)); [|cbn [always]; by rewrite app_nil_r].
  eapply always_mono; [|apply IH]. intros tr' r [Hm' Hr']. rewrite mutations_app, Hm.
  split; [done|]. intros c' Hc'. destruct (Hr' c' Hc') as (Hsub & Hps & Hjj).
  split_and!; [set_solver| |].
  - intros p [->|Hp]%elem_of_cons.
    + eapply read_named_mono; [exact Hsub| |exact Hread]. set_solver.
    + eapply read_named_mono; [reflexivity| |by apply Hps]. set_solver.
  - intros tr0 H0. rewrite app_assoc. apply Hjj. by apply justified_union.
Qed.
Lemma claim_sections_spec node vmid c snaps :
  always (claim_sections node vmid c snaps) (λ tr r,
    mutations tr = [] ∧ ∀ c', r = Ok c' → c ⊆ c' ∧
      (∀ s, s ∈ snaps → read_named (section_path node vmid (sn_name s)) ∅ c' tr) ∧
      ∀ tr0, justified c tr0 → justified c' (tr0 ++ tr)).
Proof.
  revert c. induction snaps as [|s snaps IH]; intros c; cbn [claim_sections].
  { split; [done|]. intros c' [= <-]. split_and!; [done|set_solver|].
    intros tr0. by rewrite app_nil_r. }
  eapply always_call; [apply configVolids_spec|]. intros tr [cr|e] [Hm Hr]; cbn [always];
    [|by rewrite app_nil_r].
  destruct (config_named_read _ _ _ c _ (Hr cr eq_refl)) as [Hread Hj].
  destruct (negb (negb _ && _)); [|cbn [always]; by rewrite app_nil_r].
  eapply always_mono; [|apply IH]. intros tr' r [Hm' Hr']. rewrite mutations_app, Hm.
  split; [done|]. intros c' Hc'. destruct (Hr' c' Hc') as (Hsub & Hps & Hjj).
  split_and!; [set_solver| |].
  - intros p [->|Hp]%elem_of_cons.
    + eapply read_named_mono; [exact Hsub| |exact Hread]. set_solver.
    + eapply read_named_mono; [reflexivity| |by apply Hps]. set_solver.
  - intros tr0 H0. rewrite app_assoc. apply Hjj. by apply justified_union.
Qed.

Lemma ClaimedVolumes_spec node vmid :
  always (ClaimedVolumes node vmid) (λ tr r,
    mutations tr = [] ∧ ∀ c, r = Ok c → covered node vmid c tr ∧ justified c tr).
Proof.
  unfold ClaimedVolumes. destruct (negb (eqb node "")); [|simpl; done].
  eapply always_call; [apply claim_live_spec|]. intros tr [c|e] [Hm Hr]; cbn [always];
    [|by rewrite app_nil_r].
  destruct (Hr c eq_refl) as (_ & Hlive & Hj). specialize (Hj [] justified_empty).
  eapply always_call; [apply listSnapshotsVerifiable_spec|]. intros tr1 [l|e] [Hm1 Hl]; cbn [always].
  2: { by rewrite app_nil_r, mutations_app, Hm. }
  destruct (Hl l eq_refl) as [-> Hcur].
  eapply always_mono; [|apply claim_sections_spec]. intros tr2 r [Hm2 Hr2].
  rewrite !mutations_app, Hm, Hm2. split; [done|]. intros c' Hc'.
  destruct (Hr2 c' Hc') as (Hsub & Hsec & Hjj). split; [split|].
  - intros params Hp. eapply read_named_mono; [exact Hsub| |by apply Hlive]. set_solver.
  - exists l. split_and!; [set_solver|done|]. intros s Hs.
    eapply read_named_mono; [reflexivity| |by apply Hsec]. set_solver.
  - rewrite app_assoc. apply Hjj. intros v Hv. destruct (Hj v Hv) as (p & ps & hr & cfg & Hin & ?).
    exists p, ps, hr, cfg. split; [set_solver|done].
Qed.
#[export] Hint Resolve ClaimedVolumes_spec : io.

Lemma claimed_union_spec what c guests :
  always (claimed_union what c guests) (λ tr r,
    mutations tr = [] ∧ ∀ c', r = Ok c' → c ⊆ c' ∧
      (∀ node vmid, (node, vmid) ∈ guests → covered node vmid c' tr) ∧
      ∀ tr0, justified c tr0 → justified c' (tr0 ++ tr)).
Proof.
  revert c. induction guests as [|[node vmid] guests IH]; intros c; cbn [claimed_union].
  { split; [done|]. intros c' [= <-]. split_and!; [done|set_solver|].
    intros tr0. by rewrite app_nil_r. }
  eapply always_call; [apply ClaimedVolumes_spec|]. intros tr [vc|e] [Hm Hr]; cbn [always];
    [|by rewrite app_nil_r].
  destruct (Hr vc eq_refl) as [Hcov Hj].
  eapply always_mono; [|apply IH]. intros tr' r [Hm' Hr']. rewrite mutations_app, Hm.
  split; [done|]. intros c' Hc'. destruct (Hr' c' Hc') as (Hsub & Hps & Hjj).
  split_and!; [set_solver| |].
  - intros n v [[= -> ->]|Hp]%elem_of_cons.
    + eapply covered_mono; [| |exact Hcov]; set_solver.
    + eapply covered_mono; [reflexivity| |by apply Hps]. set_solver.
  - intros tr0 H0. rewrite app_assoc. apply Hjj. by apply justified_union.
Qed.
#[export] Hint Resolve claimed_union_spec : io.

Lemma orphans_loop_somes i content claimed :
  orphans_loop i (somes content) claimed = Ok (omap (is_orphan claimed) content).
Proof.
  unfold somes. revert i. induction content as [|e content IH]; intros i; simpl; [done|].
  rewrite IH. by destruct (is_orphan claimed e).
Qed.
Lemma orphansFromClaimed_somes content claimed :
  orphansFromClaimed (somes content) claimed =
  Ok (merge_sort volid_le (omap (is_orphan claimed) content)).
Proof. unfold orphansFromClaimed. by rewrite orphans_loop_somes. Qed.
(** A volume the diff reports: listed, of a claimable type, claimed by nobody. *)
Definition unclaimed (content : list storageContentEntry) (claimed : gset string)
    (o : StorageContent) : Prop :=
  ∃ typ, (Some o, typ) ∈ content ∧ typ ∈ ["images"; "iso"] ∧ sc_volid o ∉ claimed.
Lemma orphans_elem content claimed o :
  o ∈ merge_sort volid_le (omap (is_orphan claimed) content) ↔ unclaimed content claimed o.
Proof.
  rewrite (merge_sort_Permutation volid_le), list_elem_of_omap.
  unfold unclaimed. split.
  - intros ([[v|] typ] & Hin & Ho); [|done]. simpl in Ho. unfold claimableContentTypes in Ho.
    case_bool_decide; [|done]. case_bool_decide; [done|]. injection Ho as ->. eauto.
  - intros (typ & Hin & Ht & Hn). exists (Some o, typ). split; [done|]. simpl.
    unfold claimableContentTypes. by rewrite (bool_decide_true _ Ht), (bool_decide_false _ Hn).
Qed.

Definition listed_content (node storage : string) (l : list storageContentEntry)
    (tr : list (event pveE)) : Prop :=
  Ev (PcContent (storage_path node storage "/content")) (Ok (Some (somes l))) ∈ tr.
Lemma orphan_content_spec pre node storage :
  always (orphan_content pre node storage) (λ tr r,
    mutations tr = [] ∧ ∀ l, r = Ok l → listed_content node storage l tr).
Proof.
  unfold orphan_content, storageContentWithType. cbn [bind trigger always].
  intros [raw|e]; cbn [bind always]; [|done].
  destruct (null_checked _ _ _ raw) as [l|e] eqn:Hn; cbn [always]; [|done].
  apply null_checked_Ok in Hn as ->. split; [done|]. intros l' [= <-]. by left.
Qed.
Lemma GetStorage_spec node name :
  always (GetStorage node name) (λ tr r,
    mutations tr = [] ∧ ∀ st, r = Ok st → st_type st ≠ "" ∧
      tr = [Ev (PcStorage (storage_path node name "/status")) (Ok st)]).
Proof.
  unfold GetStorage. destruct (_ && _)%bool; [|simpl; done]. cbn [bind trigger always].
  intros [st|e]; cbn [bind always]; [|done].
  destruct (negb (eqb (st_type st) "")) eqn:Ht; cbn [always]; [|done]. split; [done|].
  intros st' [= <-]. split; [|done]. intros H. by rewrite H in Ht.
Qed.
Lemma refuseIfShared_spec node storage :
  always (refuseIfShared node storage) (λ tr r,
    mutations tr = [] ∧ (r = Ok tt → ∃ st,
      tr = [Ev (PcStorage (storage_path node storage "/status")) (Ok st)] ∧ st_shared st = 0%Z)).
Proof.
  unfold refuseIfShared. eapply always_call; [apply GetStorage_spec|].
  intros tr [st|e] [Hm Hst]; cbn [always]; [|by rewrite app_nil_r].
  destruct (Hst st eq_refl) as [_ ->].
  destruct (st_shared st =? 0)%Z eqn:Hs; cbn [always]; (split; [done|]); [|done].
  intros _. exists st. split; [done|]. by apply Z.eqb_eq.
Qed.
Lemma GetVMs_spec node :
  always (GetVMs node) (λ tr r,
    mutations tr = [] ∧ ∀ vs : list Z, r = Ok vs → tr = [Ev (PcVMs (qemu_path node)) (Ok (Some (somes vs)))]).
Proof.
  unfold GetVMs. destruct (negb _); [|simpl; done]. cbn [bind trigger always].
  intros [vs|e]; cbn [bind always]; [|done]. split; [done|]. intros vs' Hn.
  by apply null_checked_Ok in Hn as ->.
Qed.
#[export] Hint Resolve orphan_content_spec GetStorage_spec refuseIfShared_spec GetVMs_spec : io.

(** What the diff of a node's storage rests on. *)
Definition node_diff (node storage : string) (vmids : list Z) (os : list StorageContent)
    (tr : list (event pveE)) : Prop :=
  ∃ content claimed st,
    Ev (PcStorage (storage_path node storage "/status")) (Ok st) ∈ tr ∧ st_shared st = 0%Z ∧
    listed_content node storage content tr ∧
    (∀ vmid, vmid ∈ vmids → covered node vmid claimed tr) ∧ justified claimed tr ∧
    ∀ o, o ∈ os ↔ unclaimed content claimed o.
Lemma orphanVolumesForVMIDs_spec node content vmids :
  always (orphanVolumesForVMIDs node content vmids) (λ tr r,
    mutations tr = [] ∧ ∀ os, r = Ok os → ∃ claimed,
      (∀ vmid, vmid ∈ vmids → covered node vmid claimed tr) ∧ justified claimed tr ∧
      ∀ o, o ∈ os ↔ unclaimed content claimed o).
Proof.
  unfold orphanVolumesForVMIDs. eapply always_call; [apply claimed_union_spec|].
  intros tr [c|e] [Hm Hr]; cbn [always]; rewrite app_nil_r; (split; [done|]); [|done].
  rewrite orphansFromClaimed_somes. intros os [= <-].
  destruct (Hr c eq_refl) as (_ & Hcov & Hj). exists c. split_and!.
  - intros vmid Hv. apply Hcov. apply list_elem_of_fmap. by exists vmid.
  - by apply (Hj [] justified_empty).
  - intros o. apply orphans_elem.
Qed.
Lemma covered_app_r node vmid c tr tr' : covered node vmid c tr' → covered node vmid c (tr ++ tr').
Proof. apply covered_mono; [done|]. intros ev ?. apply elem_of_app. by right. Qed.
Lemma justified_app_r c tr tr' : justified c tr' → justified c (tr ++ tr').
Proof. intros H. rewrite <- (union_empty_l_L c). apply (justified_union ∅ c); [|done]. intros v. set_solver. Qed.

Lemma OrphanVolumesWithVMList_spec node storage vmids :
  always (OrphanVolumesWithVMList node storage vmids) (λ tr r,
    mutations tr = [] ∧
    ∀ os, r = Ok os → ∃ vs, vmids = Some vs ∧ node_diff node storage vs os tr).
Proof.
  unfold OrphanVolumesWithVMList. destruct (_ && _)%bool; [|simpl; done].
  destruct vmids as [vs|]; [|simpl; done].
  eapply always_call; [apply refuseIfShared_spec|]. intros tr [[]|e] [Hm Hr]; cbn [always];
    [|by rewrite app_nil_r].
  destruct (Hr eq_refl) as (st & -> & Hst).
  eapply always_call; [apply orphan_content_spec|]. intros tr1 [l|e] [Hm1 Hl]; cbn [always].
  2: { by rewrite app_nil_r, mutations_app, Hm1. }
  specialize (Hl l eq_refl).
  eapply always_mono; [|apply orphanVolumesForVMIDs_spec]. intros tr2 r [Hm2 Hr2].
  rewrite !mutations_app, Hm1, Hm2. split; [done|]. intros os Hos.
  destruct (Hr2 os Hos) as (c & Hcov & Hj & Ho). exists vs. split; [done|].
  exists l, c, st. split_and!; [by left|done| | | |done].
  - unfold listed_content in *. rewrite !elem_of_app. auto.
  - intros vmid Hv. by do 2 apply covered_app_r; apply Hcov.
  - by do 2 apply justified_app_r.
Qed.
Lemma OrphanVolumesClusterForVMID_spec node storage vmid guests :
  always (OrphanVolumesClusterForVMID node storage vmid guests) (λ tr r,
    mutations tr = [] ∧
    ∀ os, r = Ok os → ∃ gs content claimed, guests = Some gs ∧
      listed_content node storage content tr ∧
      (∀ n v, (n, v) ∈ gs → covered n v claimed tr) ∧ justified claimed tr ∧
      ∀ o, o ∈ os ↔ has_prefix (freePrefix storage vmid) (sc_volid o) = true ∧
                    unclaimed content claimed o).
Proof.
  unfold OrphanVolumesClusterForVMID. destruct (_ && _)%bool; [|simpl; done].
  destruct guests as [gs|]; [|simpl; done]. cbn [bool_decide].
  destruct (bool_decide _); [|simpl; done].
  eapply always_call; [apply orphan_content_spec|]. intros tr [l|e] [Hm Hl]; cbn [always];
    [|by rewrite app_nil_r].
  specialize (Hl l eq_refl). unfold ClusterClaimedVolumes.
  eapply always_call; [apply claimed_union_spec|]. intros tr1 [c|e] [Hm1 Hr]; cbn [always];
    rewrite app_nil_r, mutations_app, Hm, Hm1; (split; [done|]); [|done].
  destruct (Hr c eq_refl) as (_ & Hcov & Hj). intros os.
  rewrite orphansFromClaimed_somes. intros [= <-].
  exists gs, l, c. split_and!; [done| | | |].
  - unfold listed_content in *. apply elem_of_app. by left.
  - intros n v Hin. by apply covered_app_r, Hcov.
  - by apply justified_app_r, (Hj [] justified_empty).
  - intros o. unfold narrowToVMIDPrefix. by rewrite list_elem_of_filter, orphans_elem.
Qed.
Lemma OrphanVolumesForVMIDWithVMList_spec node storage vmid vmids :
  always (OrphanVolumesForVMIDWithVMList node storage vmid vmids) (λ tr r,
    mutations tr = [] ∧
    ∀ os, r = Ok os → ∃ vs all, vmids = Some vs ∧ node_diff node storage vs all tr ∧
      ∀ o, o ∈ os ↔ has_prefix (freePrefix storage vmid) (sc_volid o) = true ∧ o ∈ all).
Proof.
  unfold OrphanVolumesForVMIDWithVMList. eapply always_call; [apply OrphanVolumesWithVMList_spec|].
  intros tr [all|e] [Hm Hr]; cbn [always]; rewrite app_nil_r; (split; [done|]); [|done].
  intros os [= <-]. destruct (Hr all eq_refl) as (vs & -> & Hd). exists vs, all. split_and!; [done|done|].
  intros o. unfold narrowToVMIDPrefix. by rewrite list_elem_of_filter.
Qed.

(** * Properties *)

(** The claimed set of a VM is exactly what its configs name. When the reads
    succeed, both forms of the live config and the section of every snapshot of a
    complete list were read, every slot of theirs that could name a volume was a
    string, every volume they name is claimed, and nothing else is. *)
Theorem ClaimedVolumes_exact node vmid :
  always (ClaimedVolumes node vmid) (λ tr r,
    mutations tr = [] ∧ ∀ c, r = Ok c → covered node vmid c tr ∧ justified c tr).
Proof. apply ClaimedVolumes_spec. Qed.

(** On one node, a volume is reported as orphaned exactly when the storage,
    which is not shared, lists it as an image or an ISO and no config read of any
    VM of the complete list names it. A nil VM list is refused. Nothing is changed. *)
Theorem OrphanVolumesWithVMList_exact node storage vmids :
  always (OrphanVolumesWithVMList node storage vmids) (λ tr r,
    mutations tr = [] ∧
    ∀ os, r = Ok os → ∃ vs, vmids = Some vs ∧ node_diff node storage vs os tr).
Proof. apply OrphanVolumesWithVMList_spec. Qed.

(** Across the cluster, what is reported for a VM is exactly the volumes of
    the storage that carry the VM's own prefix, are images or ISOs, and that no
    config of any guest of the list names: a volume some VM still claims is never
    reported. A nil guest list is refused. Nothing is changed. *)
Theorem OrphanVolumesClusterForVMID_exact node storage vmid guests :
  always (OrphanVolumesClusterForVMID node storage vmid guests) (λ tr r,
    mutations tr = [] ∧
    ∀ os, r = Ok os → ∃ gs content claimed, guests = Some gs ∧
      listed_content node storage content tr ∧
      (∀ n v, (n, v) ∈ gs → covered n v claimed tr) ∧ justified claimed tr ∧
      ∀ o, o ∈ os ↔ has_prefix (freePrefix storage vmid) (sc_volid o) = true ∧
                    unclaimed content claimed o).
Proof. apply OrphanVolumesClusterForVMID_spec. Qed.

(** The volumes reported for two different VMIDs are disjoint: a VMID that
    begins with another one's digits never inherits its volumes. *)
Theorem narrowToVMIDPrefix_disjoint orphans storage a b o :
  (0 ≤ a)%Z → (0 ≤ b)%Z →
  o ∈ narrowToVMIDPrefix orphans storage a → o ∈ narrowToVMIDPrefix orphans storage b → a = b.
Proof.
  intros Ha Hb. unfold narrowToVMIDPrefix. rewrite !list_elem_of_filter, !has_prefix_spec.
  intros [[t Ht] _] [[u Hu] _]. rewrite Ht in Hu. unfold freePrefix in Hu.
  rewrite !str_app_assoc in Hu. do 2 apply str_app_inv_l in Hu.
  by eapply (itoa_sep_inj _ _ (byte 45)).
Qed.
Lemma narrowToVMIDPrefix_disjoint_witness :
  let o := {| sc_volid := "local:vm-100-disk-0"; sc_vmid := 100 |} in
  (100 = 100)%Z ∧ o ∉ narrowToVMIDPrefix [o] "local" 10.
Proof.
  split.
  - apply (narrowToVMIDPrefix_disjoint [{| sc_volid := "local:vm-100-disk-0"; sc_vmid := 100 |}]
             "local" 100 100 {| sc_volid := "local:vm-100-disk-0"; sc_vmid := 100 |});
      [lia|lia|by left|by left].
  - vm_compute. intros H. inversion H.
Defined.
