(* ===== verification/Grants.v ===== *)
(** Token grants: what a grant is (grant.go), the permission, role, pool and
    storage reads (client.go, pools.go), and [ValidateTokenGrants] (validate.go),
    which decides whether a token holds what was requested and nothing beyond. *)
From Stdlib Require Import Ascii.
From Stdlib Require String.
From S2P Require Import Prelude GoLib Errors Json Rest Vms.


(** ** grant.go *)
(** [^/[[:alnum:]._/-]*$], [^[A-Za-z0-9._-]+$] and [^[A-Za-z][A-Za-z0-9.]*$]. *)
Definition aclPathRE (s : string) : bool :=
  match cut_prefix "/" s with
  | Some rest => all_bytes (λ c, is_alnum c || one_of "._/-" c) rest
  | None => false
  end.
Definition roleIDRE (s : string) : bool :=
  negb (eqb s "") && all_bytes (λ c, is_alnum c || one_of "._-" c) s.
Definition privNameRE (s : string) : bool :=
  match s with
  | String c rest => is_letter c && all_bytes (λ d, is_alnum d || is_byte 46 d) rest
  | EmptyString => false
  end.

Record Grant :=
  { Path : string; Role : string; Propagate : bool; Privs : option (list string) }.

Fixpoint check_privs (path : string) (seen : gset string) (l : list string) : res unit :=
  match l with
  | [] => Ok tt
  | p :: l' =>
      guard^ privNameRE p orelse
        wrap_pre (sent ErrInvalidGrant) (path +:+ ": " +:+ quote p +:+ " is not a privilege name") in
      guard^ negb (bool_decide (p ∈ seen)) orelse
        wrap_pre (sent ErrInvalidGrant) (path +:+ ": privilege " +:+ p +:+ " is listed twice") in
      check_privs path (seen ∪ {[p]}) l'
  end.
Definition Check_ (g : Grant) : res unit :=
  guard^ aclPathRE (Path g) orelse
    wrap_pre (sent ErrInvalidGrant) ("path " +:+ quote (Path g) +:+ " is not an ACL path") in
  guard^ negb (contains "//" (Path g) || negb (eqb (Path g) "/") && has_suffix "/" (Path g)) orelse
    wrap_pre (sent ErrInvalidGrant) ("path " +:+ quote (Path g) +:+ " is not normalized") in
  guard^ negb (eqb (Role g) "") orelse wrap_pre (sent ErrInvalidGrant) "role is required" in
  guard^ roleIDRE (Role g) orelse
    wrap_pre (sent ErrInvalidGrant) ("role " +:+ quote (Role g) +:+ " is not a role id") in
  guard^ negb (bool_decide (Privs g = Some [])) orelse
    wrap_pre (sent ErrInvalidGrant)
      (Path g +:+ ": pinned privileges are empty (leave them nil to use the role's own)") in
  check_privs (Path g) ∅ (default [] (Privs g)).

Fixpoint check_grants (paths : gset string) (want : list Grant) : res unit :=
  match want with
  | [] => Ok tt
  | g :: want' =>
      let^ _ := Check_ g orelse id in
      guard^ negb (bool_decide (Path g ∈ paths)) orelse
        wrap_pre (sent ErrInvalidGrant) ("two grants on path " +:+ Path g) in
      check_grants (paths ∪ {[Path g]}) want'
  end.
Definition CheckGrants (want : list Grant) : res unit :=
  guard^ negb (bool_decide (want = [])) orelse
    wrap_pre (sent ErrInvalidGrant) "no grants requested" in
  check_grants ∅ want.

(** ** client.go: the permission reads *)
Abbreviation privset := (gmap string bool).
Definition decode_flag (v : json) : option bool :=
  let t := compact v in
  if eqb t "1" || eqb t "true" then Some true
  else if eqb t "0" || eqb t "false" then Some false else None.
Fixpoint privset_entries (l : list (string * json)) : res privset :=
  match l with
  | [] => Ok ∅
  | (name, v) :: l' =>
      guard^ privNameRE name orelse
        wrap_pre (sent ErrUnverifiableRead) "a privilege set holds a name that is not a privilege name" in
      match decode_flag v with
      | None => Er (wrap_pre (sent ErrUnverifiableRead)
                  ("privilege " +:+ name +:+ " has a flag that is not 0/1/true/false"))
      | Some b => let^ rest := privset_entries l' orelse id in Ok (<[name := b]> rest)
      end
  end.
Definition decodePrivSet (raw : json) : res privset :=
  match as_object raw with
  | Some (Some m) => privset_entries (entries m)
  | _ => Er (wrap_pre (sent ErrUnverifiableRead) "a privilege set is not a JSON object")
  end.

Abbreviation permtree := (gmap string privset).
Fixpoint permtree_entries (l : list (string * json)) : res permtree :=
  match l with
  | [] => Ok ∅
  | (path, v) :: l' =>
      guard^ aclPathRE path orelse
        wrap_pre (sent ErrUnverifiableRead) "the permission tree holds a key that is not an ACL path" in
      let^ privs := decodePrivSet v
        orelse (λ e, Err KText (Error e +:+ " (at " +:+ path +:+ ")") [e]) in
      let^ rest := permtree_entries l' orelse id in
      Ok (<[path := privs]> rest)
  end.
Definition decodePermTree (raw : json) : res permtree :=
  match as_object raw with
  | None => Er (wrap_pre (sent ErrUnverifiableRead) "the permission tree is not a JSON object")
  | Some None => Er (wrap_pre (sent ErrUnverifiableRead) "the permission tree is null")
  | Some (Some m) => permtree_entries (entries m)
  end.

Definition perms_path : string := "/access/permissions".
Definition EffectivePermissions : io pveE (res permtree) :=
  let? raw := RawRequest "GET" perms_path ∅ orelse wrapf "read effective permissions" in
  Ret (let^ tree := decodePermTree raw orelse wrapf "read effective permissions" in Ok tree).

Definition PathPermissions (path : string) : io pveE (res privset) :=
  guard aclPathRE path orelse
    wrapf_post ("read permissions at " +:+ quote path) (sent ErrInvalidGrant) "not an ACL path" in
  let what := "read permissions at " +:+ path in
  let? raw := RawRequest "GET" perms_path (vset ∅ "path" path) orelse wrapf what in
  Ret (let^ tree := decodePermTree raw orelse wrapf what in
       match tree !! path with
       | Some perms =>
           guard^ bool_decide (size tree = 1) orelse
             wrapf_post what (sent ErrUnverifiableRead)
               ("the answer is not keyed by exactly the requested path ("
                +:+ itoa (Z.of_nat (size tree)) +:+ " keys)") in
           Ok perms
       | None => Er (wrapf_post what (sent ErrUnverifiableRead)
               ("the answer is not keyed by exactly the requested path ("
                +:+ itoa (Z.of_nat (size tree)) +:+ " keys)"))
       end).

Fixpoint set_privs (role : string) (l : list (string * bool)) : res (list string) :=
  match l with
  | [] => Ok []
  | (p, v) :: l' =>
      guard^ v orelse wrapf_post ("read role " +:+ role) (sent ErrUnverifiableRead)
        ("privilege " +:+ p +:+ " is present but not set") in
      let^ rest := set_privs role l' orelse id in Ok (p :: rest)
  end.
Definition RolePrivileges (role : string) : io pveE (res (list string)) :=
  guard roleIDRE role orelse
    wrapf_post ("read role " +:+ quote role) (sent ErrInvalidGrant) "not a role id" in
  let? raw := RawRequest "GET" ("/access/roles/" +:+ role) ∅ orelse wrapf ("read role " +:+ role) in
  Ret (let^ m := decodePrivSet raw orelse wrapf ("read role " +:+ role) in
       let^ privs := set_privs role (entries m) orelse id in
       guard^ negb (bool_decide (privs = [])) orelse
         wrapf_post ("read role " +:+ role) (sent ErrUnverifiableRead) "the role has no privileges" in
       Ok (sort_strings privs)).

(** ** pools.go *)
(** [(?i)^[a-z][a-z0-9_.-]*[a-z0-9]$]: the fold of a letter range also holds the
    long s and the Kelvin sign. *)
Definition fold_letter (r : Z) : bool :=
  ((65 <=? r) && (r <=? 90) || (97 <=? r) && (r <=? 122))%Z || bool_decide (r ∈ [0x17F; 0x212A])%Z.
Definition fold_alnum (r : Z) : bool := fold_letter r || ((48 <=? r) && (r <=? 57))%Z.
Definition storageIDRE (s : string) : bool :=
  match (runes s).*1 with
  | r :: rest =>
      fold_letter r && match last rest with Some l => fold_alnum l | None => false end
      && forallb (λ x, fold_alnum x || bool_decide (x ∈ [45; 46; 95])%Z) rest
  | [] => false
  end.

Definition member_path (i : Z) (e : option (gmap string json)) : res string :=
  let bad post := wrap_pre (sent ErrUnverifiableRead) post in
  match e with
  | None => Er (bad ("member " +:+ itoa i +:+ " is not an object"))
  | Some m =>
      match field as_string m "type" with
      | None => Er (bad ("member " +:+ itoa i +:+ " has no type"))
      | Some typ =>
          if bool_decide (typ ∈ ["qemu"; "lxc"; "openvz"]) then
            match m !! "vmid" with
            | Some (JNum lit) =>
                match atoi lit with
                | Some vmid =>
                    guard^ (0 <? vmid)%Z orelse bad ("guest member " +:+ itoa i
                      +:+ " has a vmid that is not a positive integer") in
                    Ok ("/vms/" +:+ itoa vmid)
                | None => Er (bad ("guest member " +:+ itoa i
                      +:+ " has a vmid that is not a positive integer"))
                end
            | Some JNull => Er (bad ("guest member " +:+ itoa i
                      +:+ " has a vmid that is not a positive integer"))
            | _ => Er (bad ("guest member " +:+ itoa i +:+ " has no numeric vmid"))
            end
          else if eqb typ "storage" then
            match field as_string m "storage" with
            | Some sid =>
                guard^ storageIDRE sid orelse
                  bad ("storage member " +:+ itoa i +:+ " has no valid storage id") in
                Ok ("/storage/" +:+ sid)
            | None => Er (bad ("storage member " +:+ itoa i +:+ " has no valid storage id"))
            end
          else Er (bad ("member " +:+ itoa i +:+ " has an unknown type"))
      end
  end.
Fixpoint member_paths (i : Z) (l : list (option (gmap string json))) : res (gset string) :=
  match l with
  | [] => Ok ∅
  | e :: l' =>
      let^ p := member_path i e orelse id in
      let^ rest := member_paths (i + 1) l' orelse id in
      Ok ({[p]} ∪ rest)
  end.
Definition decodePoolMembers (raw : json) (poolid : string) : res (gset string) :=
  let bad post := wrap_pre (sent ErrUnverifiableRead) post in
  match as_objects raw with
  | Some (Some pools) =>
      match pools with
      | [Some pool] =>
          if bool_decide (field as_string pool "poolid" = Some poolid) then
            match field as_objects pool "members" with
            | Some (Some members) => member_paths 0 members
            | _ => Er (bad "the pool entry carries no members array")
            end
          else Er (bad "the pool list's entry is not the pool asked for")
      | _ => Er (bad ("the pool list has " +:+ itoa (Z.of_nat (length pools))
                      +:+ " entries, not the one pool asked for"))
      end
  | _ => Er (bad "the pool list is not a JSON array")
  end.
Definition PoolMembers (poolid : string) : io pveE (res (gset string)) :=
  let what := "read members of pool " +:+ poolid in
  let? raw := RawRequest "GET" "/pools" (vset ∅ "poolid" poolid) orelse wrapf what in
  Ret (let^ members := decodePoolMembers raw poolid orelse wrapf what in Ok members).

Fixpoint storage_ids (i : Z) (l : list (option (gmap string json))) : res (gset string) :=
  match l with
  | [] => Ok ∅
  | e :: l' =>
      match e ≫= (λ m, field as_string m "storage") with
      | Some sid =>
          guard^ storageIDRE sid orelse
            wrapf_post "read storage list" (sent ErrUnverifiableRead)
              ("entry " +:+ itoa i +:+ " has no valid storage id") in
          let^ rest := storage_ids (i + 1) l' orelse id in Ok ({[sid]} ∪ rest)
      | None => Er (wrapf_post "read storage list" (sent ErrUnverifiableRead)
                      ("entry " +:+ itoa i +:+ " has no valid storage id"))
      end
  end.
Definition StorageIDs : io pveE (res (gset string)) :=
  let? raw := RawRequest "GET" "/storage" ∅ orelse wrapf "read storage list" in
  Ret match as_objects raw with
      | Some (Some l) => storage_ids 0 l
      | _ => Er (wrapf_post "read storage list" (sent ErrUnverifiableRead) "not a JSON array")
      end.

(** ** validate.go: what a grant confers *)
Definition under (path ancestor : string) : bool :=
  if eqb ancestor "/" then negb (eqb path "/") else has_prefix (ancestor +:+ "/") path.

(** One grant, its privileges and the pool members read for it ([None]: none were
    read, and any guest or storage counts as a member). *)
Definition confers (g : Grant) (privs : gset string) (members : option (gset string))
    (path priv : string) (prop : bool) : bool :=
  bool_decide (priv ∈ privs) &&
  if prop then Propagate g && (eqb path (Path g) || under path (Path g))
  else (eqb path (Path g) || Propagate g && under path (Path g))
       || ((has_prefix "/pool/" (Path g) || eqb (Path g) "/pool" && Propagate g)
           && (has_prefix "/vms/" path || has_prefix "/storage/" path)
           && match members with None => true | Some ms => bool_decide (path ∈ ms) end).
(** The maps indexed by grant number: an absent key is a nil entry. *)
Abbreviation by_grant := (gmap nat (gset string)).
Fixpoint conferred_from (i : nat) (want : list Grant) (privs : list (gset string))
    (members : by_grant) (path priv : string) (prop : bool) : bool :=
  match want, privs with
  | g :: want', ps :: privs' =>
      confers g ps (members !! i) path priv prop
      || conferred_from (S i) want' privs' members path priv prop
  | _, _ => false
  end.
Definition conferred := conferred_from 0.

(** ** Failures *)
Definition vtg : string := "validate token grants".
Definition readFailure (what : string) (e : err) : err :=
  if negb (errors_Is ErrNotAuthorized e) then e
  else Err KText (what +:+ ": " +:+ sentinel_text ErrNotAuthorized +:+ " (PVE answered HTTP "
                  +:+ itoa (default 0%Z (HTTPStatus e)) +:+ ")") [sent ErrNotAuthorized].

(** The text cut to at most 256 bytes, not inside a rune. *)
Definition rune_start (c : ascii) : bool := negb (in_range 0x80 0xBF c).
Fixpoint rune_cut (n : nat) (text : string) : nat :=
  match n with
  | 0 => 0
  | S n' => match String.get n text with
            | Some c => if rune_start c then n else rune_cut n' text
            | None => n
            end
  end.
Definition clip (text : string) : string :=
  if decide (256 < slen text) then String.substring 0 (rune_cut 256 text) text +:+ "…" else text.
Definition unverifiable (what : string) (e : err) : err :=
  let bad post := wrapf_post vtg (sent ErrUnverifiableRead) (what +:+ ": " +:+ post) in
  match errors_As as_status e with
  | Some (code, _, _) => bad ("PVE answered HTTP " +:+ itoa code)
  | None =>
      match errors_As as_px_status e with
      | Some (code, _, _) => bad ("PVE answered HTTP " +:+ itoa code)
      | None =>
          if errors_Is ErrNotAuthorized e then bad "PVE answered HTTP 401/403 (not authorized)"
          else bad (quote (clip (Error e)))
      end
  end.

(** ** The reads of the validation *)
Fixpoint read_privs (want : list Grant) (roleCache : gmap string (list string))
    : io pveE (res (list (gset string))) :=
  match want with
  | [] => Ret (Ok [])
  | g :: want' =>
      let? lc := (match Privs g, roleCache !! Role g with
                  | Some l, _ => Ret (Ok (l, roleCache))
                  | None, Some l => Ret (Ok (l, roleCache))
                  | None, None =>
                      let? l := RolePrivileges (Role g)
                        orelse (λ e, wrapf vtg (readFailure ("read role " +:+ Role g) e)) in
                      Ret (Ok (l, <[Role g := l]> roleCache))
                  end) orelse id in
      let? rest := read_privs want' lc.2 orelse id in
      Ret (Ok (list_to_set lc.1 :: rest))
  end.

Fixpoint candidates_from (i : nat) (want : list Grant) (privs : list (gset string)) : list nat :=
  match want, privs with
  | g :: want', ps :: privs' =>
      let rest := candidates_from (S i) want' privs' in
      if has_prefix "/pool/" (Path g) && negb (Propagate g) && bool_decide ("Pool.Audit" ∈ ps)
      then i :: rest else rest
  | _, _ => []
  end.
Definition poolCandidates (want : list Grant) (privs : list (gset string)) (tree : permtree)
    : list nat :=
  let cands := candidates_from 0 want privs in
  let empty : by_grant := list_to_map ((λ i, (i, ∅)) <$> cands) in
  if existsb (λ ps : string * privset,
       existsb (λ pp : string * bool,
         negb pp.2 && conferred want privs ∅ ps.1 pp.1 false
         && negb (conferred want privs empty ps.1 pp.1 false)) (entries ps.2)) (entries tree)
  then cands else [].

Definition grant_path (want : list Grant) (i : nat) : string :=
  match want !! i with Some g => Path g | None => "" end.
Definition read_path_perms (path : string) : io pveE (res privset) :=
  let? h := PathPermissions path
    orelse (λ e, wrapf vtg (readFailure ("read permissions at " +:+ path) e)) in
  Ret (Ok h).
(** The candidates whose pool the token can audit, and the answers read for them. *)
Fixpoint gate (want : list Grant) (held : gmap string privset) (gated cands : list nat)
    : io pveE (res (gmap string privset * list nat)) :=
  match cands with
  | [] => Ret (Ok (held, gated))
  | i :: cands' =>
      let? h := read_path_perms (grant_path want i) orelse id in
      gate want (<[grant_path want i := h]> held)
        (if bool_decide (is_Some (h !! "Pool.Audit")) then gated ++ [i] else gated) cands'
  end.
Fixpoint readPoolMembers (want : list Grant) (gated : list nat) : io pveE (res by_grant) :=
  match gated with
  | [] => Ret (Ok ∅)
  | i :: gated' =>
      let poolid := default (grant_path want i) (cut_prefix "/pool/" (grant_path want i)) in
      let? m := PoolMembers poolid orelse unverifiable ("read members of pool " +:+ poolid) in
      let? rest := readPoolMembers want gated' orelse id in
      Ret (Ok (<[i := m]> rest))
  end.
(** The tree the validation judges and the pool members it knows: when membership
    matters, the members are read on both sides of a fresh read of the tree. *)
Definition gather (want : list Grant) (privs : list (gset string)) (tree : permtree)
    : io pveE (res (permtree * by_grant * gmap string privset)) :=
  let? hg := gate want ∅ [] (poolCandidates want privs tree) orelse id in
  if bool_decide (hg.2 = []) then Ret (Ok (tree, ∅, hg.1))
  else
    let? before := readPoolMembers want hg.2 orelse id in
    let? tree' := EffectivePermissions orelse unverifiable "re-read effective permissions" in
    guard negb (bool_decide (tree' = ∅)) orelse
      wrapf_post vtg (sent ErrUnverifiableRead)
        "the second read of the effective permissions was empty, though the first was not" in
    let? after := readPoolMembers want hg.2 orelse id in
    Ret (Ok (tree', union_with (λ b a, Some (b ∪ a)) before after, hg.1)).

(** ** Existence *)
Definition vmsPathRE (path : string) : option string :=
  match cut_prefix "/vms/" path with
  | Some (String c rest) =>
      if in_range 49 57 c && all_bytes is_digit rest then Some (String c rest) else None
  | _ => None
  end.
(** The answer, and the storage list once it has been read. *)
Definition existence_check (storages : option (gset string)) (path : string)
    : io pveE (res bool * option (gset string)) :=
  match vmsPathRE path with
  | Some m =>
      match atoi m with
      | None => Ret (Er (unverifiable ("check whether " +:+ path +:+ " exists")
                           (errorf "strconv.Atoi: value out of range")), storages)
      | Some vmid =>
          let! free := vmidFree vmid in
          Ret (match free with
               | Ok free => Ok (negb free)
               | Er e => Er (unverifiable ("check whether " +:+ path +:+ " exists") e)
               end, storages)
      end
  | None =>
      match cut_prefix "/storage/" path with
      | Some sid =>
          if storageIDRE sid then
            match storages with
            | Some s => Ret (Ok (bool_decide (sid ∈ s)), storages)
            | None =>
                let! s := StorageIDs in
                Ret match s with
                    | Ok s => (Ok (bool_decide (sid ∈ s)), Some s)
                    | Er e => (Er (unverifiable ("check whether " +:+ path +:+ " exists") e), None)
                    end
            end
          else Ret (Er (wrapf_post vtg (sent ErrUnverifiableRead) ("cannot check whether "
                 +:+ path +:+ " exists: not a guest or storage path")), storages)
      | None => Ret (Er (wrapf_post vtg (sent ErrUnverifiableRead) ("cannot check whether "
                 +:+ path +:+ " exists: not a guest or storage path")), storages)
      end
  end.

(** ** The two bounds *)
Section validate.
Context (want : list Grant) (privs : list (gset string)) (members : by_grant).

Definition unsourced_at (path : string) (held : privset) : list string :=
  filter (λ priv, conferred want privs members path priv (default false (held !! priv)) = false)
    (sorted_keys held).
Definition onlyMembership (path : string) (unsourced : list string) (held : privset) : bool :=
  forallb (λ priv, conferred want privs ∅ path priv (default false (held !! priv))) unsourced.

Definition orphaned_entry (path : string) (unsourced : list string) : err :=
  wrapf_post vtg (sent ErrUnverifiableRead) ("at " +:+ path +:+ " the token holds "
    +:+ Join "," unsourced +:+ " through pool membership, but " +:+ path
    +:+ " is not a member of the pool and does not exist or is not visible to the token (an orphaned pool entry, whose config is gone?)").
Definition too_wide (path : string) (unsourced : list string) : err :=
  wrapf_post vtg (sent ErrScopeTooWide) ("at " +:+ path +:+ " the token holds "
    +:+ Join "," unsourced +:+ ", which no requested grant confers there").

(** The scan of the tree in path order: the first privilege beyond the request,
    and the first path it could not decide on. *)
Fixpoint upper_bound (tree : permtree) (storages : option (gset string)) (unsure : option err)
    (paths : list string) : io pveE (option err * option err) :=
  match paths with
  | [] => Ret (None, unsure)
  | path :: paths' =>
      let held := default ∅ (tree !! path) in
      let unsourced := unsourced_at path held in
      if bool_decide (unsourced = []) then upper_bound tree storages unsure paths'
      else if onlyMembership path unsourced held then
        let! ' (exists_, storages') := existence_check storages path in
        match exists_ with
        | Ok true => Ret (Some (too_wide path unsourced), unsure)
        | Ok false =>
            upper_bound tree storages'
              (or_else unsure (Some (orphaned_entry path unsourced))) paths'
        | Er e => upper_bound tree storages' (or_else unsure (Some e)) paths'
        end
      else Ret (Some (too_wide path unsourced), unsure)
  end.
End validate.

Definition absent_privs (h : privset) (ps : list string) : list string :=
  filter (λ p, h !! p = None) ps.
Definition flat_privs (g : Grant) (h : privset) (ps : list string) : list string :=
  filter (λ p, Propagate g = true ∧ h !! p = Some false) ps.
(** Presence: every wanted privilege is held where it was asked for. *)
Fixpoint presence (held : gmap string privset) (missing : option err)
    (want : list Grant) (privs : list (gset string)) : io pveE (res (option err)) :=
  match want, privs with
  | g :: want', ps :: privs' =>
      let? h := (match held !! Path g with
                 | Some h => Ret (Ok h)
                 | None => read_path_perms (Path g)
                 end) orelse id in
      let names := sort_strings (elements ps) in
      let absent := absent_privs h names in
      let flat := flat_privs g h names in
      let lacks := if bool_decide (absent = [] ∧ flat = []) then None
        else Some (wrapf_post vtg (sent ErrWrongScope) ("at " +:+ Path g +:+ " the token lacks ["
               +:+ Join "," absent +:+ "] and holds without propagate [" +:+ Join "," flat +:+ "]")) in
      presence held (or_else missing lacks) want' privs'
  | _, _ => Ret (Ok missing)
  end.

Definition ValidateTokenGrants (want : list Grant) : io pveE (res unit) :=
  match CheckGrants want with
  | Er e => Ret (Er (wrapf vtg e))
  | Ok _ =>
      let? tree := EffectivePermissions
        orelse (λ e, wrapf vtg (readFailure "read effective permissions" e)) in
      guard negb (bool_decide (tree = ∅)) orelse wrapf vtg (sent ErrNoGrants) in
      let? privs := read_privs want ∅ orelse id in
      let? tmh := gather want privs tree orelse id in
      let '(tree, members, held) := tmh in
      let! ' (wide, unsure) := upper_bound want privs members tree None None (sorted_keys tree) in
      let? missing := presence held None want privs orelse id in
      Ret match or_else wide (or_else unsure missing) with
          | Some e => Er e
          | None => Ok tt
          end
  end.

(** * Lemmas *)
(** What the reads of a trace answered. *)
Definition got (tr : list (event pveE)) (path : string) (params : Values) (j : json) : Prop :=
  ∃ hr, Ev (Http "GET" path params) hr ∈ tr ∧ answered hr j.
Definition read_tree (tr : list (event pveE)) (tree : permtree) : Prop :=
  ∃ j, got tr perms_path ∅ j ∧ decodePermTree j = Ok tree.
Definition read_path (tr : list (event pveE)) (path : string) (h : privset) : Prop :=
  ∃ j tree, got tr perms_path (vset ∅ "path" path) j ∧ decodePermTree j = Ok tree ∧
    tree !! path = Some h.
Definition read_role (tr : list (event pveE)) (role : string) (l : list string) : Prop :=
  ∃ j m, got tr ("/access/roles/" +:+ role) ∅ j ∧ decodePrivSet j = Ok m ∧
    ∀ p, p ∈ l ↔ m !! p = Some true.
Definition read_pool (tr : list (event pveE)) (poolid : string) (ms : gset string) : Prop :=
  ∃ j, got tr "/pools" (vset ∅ "poolid" poolid) j ∧ decodePoolMembers j poolid = Ok ms.
(** The privileges a grant asks for: the pinned ones, or the role's own as read. *)
Definition wanted (tr : list (event pveE)) (g : Grant) (ps : gset string) : Prop :=
  ∃ l, ps = list_to_set l ∧ match Privs g with Some l' => l = l' | None => read_role tr (Role g) l end.

Definition sub_trace {E : Type → Type} (tr tr' : list (event E)) : Prop := ∀ ev, ev ∈ tr → ev ∈ tr'.
Lemma sub_trace_l {E} (tr tr' : list (event E)) : sub_trace tr (tr ++ tr').
Proof. intros ev. rewrite elem_of_app. auto. Qed.
Lemma sub_trace_r {E} (tr tr' : list (event E)) : sub_trace tr (tr' ++ tr).
Proof. intros ev. rewrite elem_of_app. auto. Qed.
Lemma got_mono tr tr' path params j : sub_trace tr tr' → got tr path params j → got tr' path params j.
Proof. intros H (hr & ? & ?). exists hr. auto. Qed.
Lemma read_tree_mono tr tr' t : sub_trace tr tr' → read_tree tr t → read_tree tr' t.
Proof. intros H (j & ? & ?). exists j. eauto using got_mono. Qed.
Lemma read_path_mono tr tr' p h : sub_trace tr tr' → read_path tr p h → read_path tr' p h.
Proof. intros H (j & t & ? & ? & ?). exists j, t. eauto using got_mono. Qed.
Lemma read_role_mono tr tr' role l : sub_trace tr tr' → read_role tr role l → read_role tr' role l.
Proof. intros H (j & m & ? & ? & ?). exists j, m. eauto using got_mono. Qed.
Lemma read_pool_mono tr tr' p ms : sub_trace tr tr' → read_pool tr p ms → read_pool tr' p ms.
Proof. intros H (j & ? & ?). exists j. eauto using got_mono. Qed.
Lemma wanted_mono tr tr' g ps : sub_trace tr tr' → wanted tr g ps → wanted tr' g ps.
Proof.
  intros H (l & -> & Hl). exists l. split; [done|]. destruct (Privs g); [done|].
  by eapply read_role_mono.
Qed.
#[local] Hint Resolve sub_trace_l sub_trace_r : core.

(** A GET of the raw request, decoded. *)
Lemma RawRequest_got path params :
  always (RawRequest "GET" path params) (λ tr r,
    mutations tr = [] ∧ ∀ j, r = Ok j → got tr path params j).
Proof.
  eapply always_mono; [|apply RawRequest_spec]. intros tr r [[-> Hr]|(hr & -> & Hj)].
  - split; [done|]. intros j ->. done.
  - split; [done|]. intros j Hr. exists hr. split; [by left|]. auto.
Qed.
#[export] Hint Resolve RawRequest_got | 0 : io.

Lemma EffectivePermissions_spec :
  always EffectivePermissions (λ tr r,
    mutations tr = [] ∧ ∀ tree, r = Ok tree → read_tree tr tree).
Proof.
  unfold EffectivePermissions. eapply always_call; [apply RawRequest_got|].
  intros tr [j|e] [Hm Hj]; cbn [always]; rewrite app_nil_r; (split; [done|]); [|done].
  intros tree Ht. exists j. split; [by apply Hj|]. by destruct (decodePermTree j).
Qed.
Lemma PathPermissions_spec path :
  always (PathPermissions path) (λ tr r,
    mutations tr = [] ∧ ∀ h, r = Ok h → read_path tr path h).
Proof.
  unfold PathPermissions. destruct (aclPathRE path); [|simpl; done].
  eapply always_call; [apply RawRequest_got|].
  intros tr [j|e] [Hm Hj]; cbn [always]; rewrite app_nil_r; (split; [done|]); [|done].
  intros h Hh. exists j. destruct (decodePermTree j) as [tree|]; [|done]. exists tree.
  destruct (tree !! path) as [h'|] eqn:Hp; [|done]. case_bool_decide; [|done].
  injection Hh as ->. split_and!; [by apply Hj|done|done].
Qed.
Lemma set_privs_spec role l ps :
  set_privs role l = Ok ps → ps = l.*1 ∧ Forall (λ pv, pv.2 = true) l.
Proof.
  revert ps. induction l as [|[p [|]] l IH]; intros ps; simpl; [by intros [= <-]| |done].
  destruct (set_privs role l) as [rest|]; [|done]. intros [= <-].
  destruct (IH rest eq_refl) as [-> ?]. split; [done|]. by constructor.
Qed.
Lemma RolePrivileges_spec role :
  always (RolePrivileges role) (λ tr r,
    mutations tr = [] ∧ ∀ l, r = Ok l → read_role tr role l).
Proof.
  unfold RolePrivileges. destruct (roleIDRE role); [|simpl; done].
  eapply always_call; [apply RawRequest_got|].
  intros tr [j|e] [Hm Hj]; cbn [always]; rewrite app_nil_r; (split; [done|]); [|done].
  intros l Hl. exists j. destruct (decodePrivSet j) as [m|]; [|done]. exists m.
  destruct (set_privs role (map_to_list m)) as [ps|] eqn:Hs; [|done].
  case_bool_decide; [done|]. injection Hl as <-. split_and!; [by apply Hj|done|].
  apply set_privs_spec in Hs as [-> Hall]. intros p.
  rewrite sort_strings_elem, list_elem_of_fmap. split.
  - intros ([p' b] & -> & Hin). rewrite Forall_forall in Hall. specialize (Hall _ Hin).
    simpl in *. subst. by apply elem_of_map_to_list.
  - intros Hp. exists (p, true). split; [done|]. by apply elem_of_map_to_list.
Qed.
Lemma PoolMembers_spec poolid :
  always (PoolMembers poolid) (λ tr r,
    mutations tr = [] ∧ ∀ ms, r = Ok ms → read_pool tr poolid ms).
Proof.
  unfold PoolMembers. eapply always_call; [apply RawRequest_got|].
  intros tr [j|e] [Hm Hj]; cbn [always]; rewrite app_nil_r; (split; [done|]); [|done].
  intros ms Hms. exists j. split; [by apply Hj|]. by destruct (decodePoolMembers j poolid).
Qed.
Lemma StorageIDs_spec : always StorageIDs (λ tr _, mutations tr = []).
Proof.
  unfold StorageIDs. eapply always_call; [apply RawRequest_got|].
  intros tr [j|e] [Hm _]; cbn [always]; by rewrite app_nil_r.
Qed.
Lemma vmidFree_quiet vmid : always (vmidFree vmid) (λ tr _, mutations tr = []).
Proof. unfold vmidFree. by io_run. Qed.
Lemma read_path_perms_spec path :
  always (read_path_perms path) (λ tr r,
    mutations tr = [] ∧ ∀ h, r = Ok h → read_path tr path h).
Proof.
  unfold read_path_perms. eapply always_call; [apply PathPermissions_spec|].
  intros tr [h|e] [Hm Hh]; cbn [always]; rewrite app_nil_r; (split; [done|]); [|done].
  intros h' [= <-]. auto.
Qed.
#[export] Hint Resolve EffectivePermissions_spec PathPermissions_spec RolePrivileges_spec
  PoolMembers_spec StorageIDs_spec vmidFree_quiet read_path_perms_spec : io.

Definition cache_known (tr : list (event pveE)) (cache : gmap string (list string)) : Prop :=
  ∀ role l, cache !! role = Some l → read_role tr role l.
Lemma cache_known_mono tr tr' cache : sub_trace tr tr' → cache_known tr cache → cache_known tr' cache.
Proof. intros H Hc role l Hl. eapply read_role_mono; eauto. Qed.
Lemma read_privs_spec want cache tr0 :
  cache_known tr0 cache →
  always (read_privs want cache) (λ tr r,
    mutations tr = [] ∧ ∀ ps, r = Ok ps → Forall2 (wanted (tr0 ++ tr)) want ps).
Proof.
  revert cache tr0. induction want as [|g want IH]; intros cache tr0 Hc; cbn [read_privs].
  { split; [done|]. intros ps [= <-]. constructor. }
  assert (always (match Privs g, cache !! Role g with
                  | Some l, _ => Ret (Ok (l, cache))
                  | None, Some l => Ret (Ok (l, cache))
                  | None, None =>
                      let? l := RolePrivileges (Role g)
                        orelse (λ e, wrapf vtg (readFailure ("read role " +:+ Role g) e)) in
                      Ret (Ok (l, <[Role g := l]> cache))
                  end) (λ tr r, mutations tr = [] ∧ ∀ lc, r = Ok lc →
                    wanted (tr0 ++ tr) g (list_to_set lc.1) ∧ cache_known (tr0 ++ tr) lc.2)) as Hstep.
  { destruct (Privs g) as [l|] eqn:Hp.
    { split; [done|]. intros lc [= <-]. rewrite app_nil_r. split; [|done].
      exists l. by rewrite Hp. }
    destruct (cache !! Role g) as [l|] eqn:Hl.
    { split; [done|]. intros lc [= <-]. rewrite app_nil_r. split; [|done].
      exists l. rewrite Hp. auto. }
    eapply always_call; [apply RolePrivileges_spec|].
    intros tr [l|e] [Hm Hr]; cbn [always]; rewrite app_nil_r; (split; [done|]); [|done].
    intros lc [= <-]. cbn [fst snd]. specialize (Hr l eq_refl). split.
    - exists l. rewrite Hp. split; [done|]. eapply read_role_mono; [|exact Hr]; done.
    - intros role l' Hl'. apply lookup_insert_Some in Hl' as [[<- <-]|[_ Hl']].
      + eapply read_role_mono; [|exact Hr]; done.
      + eapply read_role_mono; [|by apply Hc]. done. }
  eapply always_call; [exact Hstep|]. intros tr [lc|e] [Hm Hr]; cbn [always];
    [|by rewrite app_nil_r].
  destruct (Hr lc eq_refl) as [Hw Hc'].
  eapply always_call; [by apply IH|]. intros tr' [rest|e] [Hm' Hr']; cbn [always];
    rewrite app_nil_r, mutations_app, Hm, Hm'; (split; [done|]); [|done].
  intros ps [= <-]. specialize (Hr' rest eq_refl). rewrite <- app_assoc in Hr'.
  constructor; [|done]. eapply wanted_mono; [|exact Hw]. rewrite app_assoc. done.
Qed.

(** ** What a grant sources

    Stated on PVE's rules for ACLs and on what was read, not on [conferred]. *)
Definition below (path ancestor : string) : Prop :=
  (ancestor = "/" ∧ path ≠ "/") ∨ ∃ rest, path = ancestor +:+ "/" +:+ rest.
Definition pool_grant (g : Grant) : Prop :=
  (∃ poolid, Path g = "/pool/" +:+ poolid) ∨ (Path g = "/pool" ∧ Propagate g = true).
Definition guest_or_storage (path : string) : Prop :=
  (∃ rest, path = "/vms/" +:+ rest) ∨ (∃ rest, path = "/storage/" +:+ rest).
(** A grant on one pool, without propagate, with the privilege to list the pool's members. *)
Definition lists_pool (g : Grant) (ps : gset string) (poolid : string) : Prop :=
  Path g = "/pool/" +:+ poolid ∧ Propagate g = false ∧ "Pool.Audit" ∈ ps.
(** PVE listed [path] as a member of the grant's pool, unless it said the token cannot list
    that pool. *)
Definition member (tr : list (event pveE)) (g : Grant) (ps : gset string) (path : string) : Prop :=
  ∀ poolid, lists_pool g ps poolid →
    (∃ ms, read_pool tr poolid ms ∧ path ∈ ms) ∨
    (∃ h, read_path tr (Path g) h ∧ h !! "Pool.Audit" = None).
(** A requested grant gives [priv] at [path]. *)
Definition gives (tr : list (event pveE)) (g : Grant) (ps : gset string) (path priv : string) (prop : bool) : Prop :=
  priv ∈ ps ∧
  if prop then Propagate g = true ∧ (path = Path g ∨ below path (Path g))
  else path = Path g ∨ (Propagate g = true ∧ below path (Path g))
       ∨ (pool_grant g ∧ guest_or_storage path ∧ member tr g ps path).
Definition sourced (tr : list (event pveE)) (want : list Grant) (privs : list (gset string))
    (path priv : string) (prop : bool) : Prop :=
  ∃ i g ps, want !! i = Some g ∧ privs !! i = Some ps ∧ gives tr g ps path priv prop.

Lemma member_mono tr tr' g ps path : sub_trace tr tr' → member tr g ps path → member tr' g ps path.
Proof.
  intros H Hm poolid Hl. destruct (Hm poolid Hl) as [(ms & ? & ?)|(h & ? & ?)]; [left|right];
    eauto using read_pool_mono, read_path_mono.
Qed.
Lemma sourced_mono tr tr' want privs path priv prop :
  sub_trace tr tr' → sourced tr want privs path priv prop → sourced tr' want privs path priv prop.
Proof.
  intros H (i & g & ps & ? & ? & Hp & Hg). exists i, g, ps. split_and!; [done..|]. split; [done|].
  destruct prop; [done|]. destruct Hg as [?|[?|(? & ? & ?)]]; eauto 6 using member_mono.
Qed.
Lemma under_below path ancestor : under path ancestor = true → below path ancestor.
Proof.
  unfold under, below. destruct (eqb ancestor "/") eqn:H; [apply eqb_true in H as ->|].
  - rewrite negb_eqb. auto.
  - intros (t & ->)%has_prefix_spec. right. exists t. by rewrite str_app_assoc.
Qed.

(** The members assumed for each grant that can list its pool were listed, or PVE said it
    cannot list it. *)
Definition members_sound (tr : list (event pveE)) (want : list Grant) (privs : list (gset string))
    (members : by_grant) : Prop :=
  ∀ i g ps poolid, want !! i = Some g → privs !! i = Some ps → lists_pool g ps poolid →
    match members !! i with
    | Some ms => ∀ p, p ∈ ms → ∃ ms', read_pool tr poolid ms' ∧ p ∈ ms'
    | None => ∃ h, read_path tr (Path g) h ∧ h !! "Pool.Audit" = None
    end.
Lemma confers_gives tr g ps ms path priv prop :
  (∀ poolid, lists_pool g ps poolid →
    match ms with
    | Some ms => ∀ p, p ∈ ms → ∃ ms', read_pool tr poolid ms' ∧ p ∈ ms'
    | None => ∃ h, read_path tr (Path g) h ∧ h !! "Pool.Audit" = None
    end) →
  confers g ps ms path priv prop = true → gives tr g ps path priv prop.
Proof.
  intros Hms. unfold confers. intros [Hp%bool_decide_eq_true H]%andb_true_iff. split; [done|].
  destruct prop.
  - apply andb_true_iff in H as [Hg H]. split; [done|]. apply orb_true_iff in H as [H%eqb_true|H%under_below]; auto.
  - apply orb_true_iff in H as [[H%eqb_true|[? ?%under_below]%andb_true_iff]%orb_true_iff|H]; [auto..|].
    apply andb_true_iff in H as [[Hpg Hpath]%andb_true_iff Hm]. right. right. split_and!.
    + apply orb_true_iff in Hpg as [?%has_prefix_spec|[?%eqb_true ?]%andb_true_iff]; [by left|by right].
    + apply orb_true_iff in Hpath as [?%has_prefix_spec|?%has_prefix_spec]; [by left|by right].
    + intros poolid Hl. specialize (Hms poolid Hl). destruct ms as [ms|]; [|by right].
      left. apply Hms. by apply bool_decide_eq_true in Hm.
Qed.
Lemma conferred_from_iff k want privs members path priv prop :
  conferred_from k want privs members path priv prop = true ↔
  ∃ i g ps, want !! i = Some g ∧ privs !! i = Some ps ∧ confers g ps (members !! (k + i)) path priv prop = true.
Proof.
  revert k privs. induction want as [|g want IH]; intros k privs; [split; [done|by intros (? & ? & ? & ? & _)]|].
  destruct privs as [|ps privs]; [split; [done|by intros (? & ? & ? & _ & ? & _)]|].
  cbn [conferred_from]. rewrite orb_true_iff, IH. split.
  - intros [H|(i & g' & ps' & ? & ? & H)].
    + exists 0, g, ps. by rewrite Nat.add_0_r.
    + exists (S i), g', ps'. by rewrite Nat.add_succ_r.
  - intros ([|i] & g' & ps' & Hg & Hps & H); simplify_eq/=; [rewrite Nat.add_0_r in H; by left|].
    right. exists i, g', ps'. by rewrite Nat.add_succ_r in H.
Qed.
Lemma conferred_sourced tr want privs members path priv prop :
  members_sound tr want privs members → conferred want privs members path priv prop = true →
  sourced tr want privs path priv prop.
Proof.
  intros Hms (i & g & ps & Hg & Hps & H)%conferred_from_iff. exists i, g, ps. split_and!; [done..|].
  eapply confers_gives; [|exact H]. intros poolid. by apply Hms.
Qed.
(** A privilege that propagates is never sourced by pool membership. *)
Lemma conferred_prop_sourced tr want privs members path priv :
  conferred want privs members path priv true = true → sourced tr want privs path priv true.
Proof.
  intros (i & g & ps & Hg & Hps & H)%conferred_from_iff. exists i, g, ps. split_and!; [done..|].
  apply (confers_gives tr g ps (Some ∅)); [|exact H]. intros poolid _ p. set_solver.
Qed.
Lemma candidates_from_elem k want privs i g ps poolid :
  want !! i = Some g → privs !! i = Some ps → lists_pool g ps poolid → k + i ∈ candidates_from k want privs.
Proof.
  revert k privs i. induction want as [|g' want IH]; intros k privs i; [done|].
  destruct privs as [|ps' privs]; [done|]. cbn [candidates_from]. cbv zeta. intros Hg Hps Hl.
  destruct i as [|i]; simplify_eq/=.
  - destruct Hl as (Hp & Hn & Ha). rewrite Nat.add_0_r, Hp, Hn, (bool_decide_eq_true_2 _ Ha).
    rewrite (proj2 (has_prefix_spec "/pool/" _)) by eauto. cbn. by left.
  - specialize (IH (S k) privs i Hg Hps Hl). rewrite <- Nat.add_succ_comm. by destruct (_ && _); [right|].
Qed.

Definition held_known (tr : list (event pveE)) (held : gmap string privset) : Prop :=
  ∀ path h, held !! path = Some h → read_path tr path h.
Lemma held_known_mono tr tr' held : sub_trace tr tr' → held_known tr held → held_known tr' held.
Proof. intros H Hh path h Hp. eapply read_path_mono; eauto. Qed.
(** Each candidate is gated, or PVE answered that the token cannot audit its pool. *)
Definition gate_done (tr : list (event pveE)) (want : list Grant) (gated : list nat) (i : nat) : Prop :=
  i ∈ gated ∨ ∃ h, read_path tr (grant_path want i) h ∧ h !! "Pool.Audit" = None.
Lemma gate_done_mono tr tr' want gated i : sub_trace tr tr' → gate_done tr want gated i → gate_done tr' want gated i.
Proof. intros H [?|(h & ? & ?)]; [by left|right]. exists h. split; [|done]. by eapply read_path_mono. Qed.
Lemma gate_spec want held gated cands tr0 :
  held_known tr0 held →
  always (gate want held gated cands) (λ tr r,
    mutations tr = [] ∧ ∀ hg, r = Ok hg → held_known (tr0 ++ tr) hg.1 ∧
      (∀ i, i ∈ gated → i ∈ hg.2) ∧ (∀ i, i ∈ cands → gate_done tr want hg.2 i) ∧
      (∀ i, i ∈ hg.2 → i ∈ gated ∨ i ∈ cands)).
Proof.
  revert held gated tr0. induction cands as [|i cands IH]; intros held gated tr0 Hh; cbn [gate].
  { split; [done|]. intros hg [= <-]. rewrite app_nil_r. split_and!; [done|done|set_solver|auto]. }
  eapply always_call; [apply read_path_perms_spec|]. intros tr [h|e] [Hm Hr]; cbn [always];
    [|by rewrite app_nil_r].
  specialize (Hr h eq_refl). eapply always_mono; [|apply (IH _ _ (tr0 ++ tr))].
  - intros tr' r [Hm' Hr']. rewrite mutations_app, Hm, Hm'. split; [done|].
    intros hg Hhg. destruct (Hr' hg Hhg) as (Hk & Hin & Hd & Hs). rewrite <- app_assoc in Hk. split_and!; [done| | |].
    + intros j Hj. apply Hin. case_bool_decide; [|done]. apply elem_of_app. by left.
    + intros j [->|Hj]%elem_of_cons; [|eapply gate_done_mono; [|by apply Hd]; done].
      case_bool_decide as Ha; [left; apply Hin; apply elem_of_app; right; by left|]. right. exists h. split.
      * eapply read_path_mono; [|exact Hr]. done.
      * by apply eq_None_not_Some.
    + intros j Hj%Hs. case_bool_decide; set_solver.
  - intros path h' Hp. apply lookup_insert_Some in Hp as [[<- <-]|[_ Hp]].
    + eapply read_path_mono; [|exact Hr]. done.
    + eapply read_path_mono; [|by apply Hh]. done.
Qed.

(** Every member of the map was answered for that grant's pool. *)
Definition pool_of (want : list Grant) (i : nat) : string :=
  default (grant_path want i) (cut_prefix "/pool/" (grant_path want i)).
Definition members_known (tr : list (event pveE)) (want : list Grant) (members : by_grant) : Prop :=
  ∀ i ms p, members !! i = Some ms → p ∈ ms → ∃ ms', read_pool tr (pool_of want i) ms' ∧ p ∈ ms'.
Lemma members_known_mono tr tr' want ms :
  sub_trace tr tr' → members_known tr want ms → members_known tr' want ms.
Proof.
  intros H Hk i m p Hi Hp. destruct (Hk i m p Hi Hp) as (ms' & ? & ?). exists ms'.
  eauto using read_pool_mono.
Qed.
Lemma readPoolMembers_spec want gated :
  always (readPoolMembers want gated) (λ tr r,
    mutations tr = [] ∧ ∀ ms, r = Ok ms → members_known tr want ms ∧ ∀ i, i ∈ gated ↔ is_Some (ms !! i)).
Proof.
  induction gated as [|i gated IH]; cbn [readPoolMembers].
  { split; [done|]. intros ms [= <-]. split; [intros i m p Hi; by rewrite lookup_empty in Hi|].
    intros i. rewrite lookup_empty. split; [set_solver|]. by intros []. }
  eapply always_call; [apply PoolMembers_spec|]. intros tr [m|e] [Hm Hr]; cbn [always];
    [|by rewrite app_nil_r].
  eapply always_call; [apply IH|]. intros tr' [rest|e] [Hm' Hr']; cbn [always];
    rewrite app_nil_r, mutations_app, Hm, Hm'; (split; [done|]); [|done].
  intros ms [= <-]. destruct (Hr' rest eq_refl) as [Hk' Hd']. split.
  - intros k m' p Hk Hp. apply lookup_insert_Some in Hk as [[<- <-]|[_ Hk]].
    + exists m. split; [|done]. eapply read_pool_mono; [|by apply Hr]. done.
    + eapply members_known_mono; [|exact Hk'|done..]. done.
  - intros k. rewrite elem_of_cons, Hd', lookup_insert_is_Some. destruct (decide (i = k)); naive_solver.
Qed.
#[export] Hint Resolve readPoolMembers_spec : io.

(** Members read on both sides of the tree: those of either side. *)
Lemma union_members_known tr want b a :
  members_known tr want b → members_known tr want a →
  members_known tr want (union_with (λ b a, Some (b ∪ a)) b a).
Proof.
  intros Hb Ha i m p Hi Hp. rewrite lookup_union_with in Hi.
  destruct (b !! i) as [bm|] eqn:Hbi, (a !! i) as [am|] eqn:Hai; simplify_eq/=; [|by eauto..].
  apply elem_of_union in Hp as [Hp|Hp]; eauto.
Qed.
Lemma gated_sound tr want privs gated members :
  members_known tr want members → (∀ i, i ∈ gated ↔ is_Some (members !! i)) →
  (∀ i, i ∈ candidates_from 0 want privs → gate_done tr want gated i) →
  members_sound tr want privs members.
Proof.
  intros Hk Hd Hg i g ps poolid Hw Hps Hl. destruct (Hg i) as [Hin|(h & Hh & Ha)].
  { by eapply (candidates_from_elem 0). }
  - apply Hd in Hin as [ms Hms]. rewrite Hms. intros p Hp. destruct (Hk i ms p Hms Hp) as (ms' & Hr & ?).
    exists ms'. split; [|done]. unfold pool_of, grant_path in Hr. destruct Hl as (Hpath & _).
    rewrite Hw, Hpath, (proj2 (cut_prefix_spec _ _ poolid) eq_refl) in Hr. exact Hr.
  - unfold grant_path in Hh. rewrite Hw in Hh. destruct (members !! i) as [ms|] eqn:Hms; [|eauto].
    intros p Hp. destruct (Hk i ms p Hms Hp) as (ms' & Hr & ?). exists ms'. split; [|done].
    unfold pool_of, grant_path in Hr. destruct Hl as (Hpath & _).
    rewrite Hw, Hpath, (proj2 (cut_prefix_spec _ _ poolid) eq_refl) in Hr. exact Hr.
Qed.
Lemma no_members l i : i ∈ l → (list_to_map ((λ i, (i, ∅)) <$> l) : by_grant) !! i = Some ∅.
Proof.
  induction l as [|j l IH]; [by intros ?%elem_of_nil|]. intros Hin. cbn.
  destruct (decide (j = i)) as [->|Hne]; [by rewrite lookup_insert_eq|]. rewrite lookup_insert_ne by done.
  apply IH. set_solver.
Qed.
(** When no read of members is needed, what counts every guest as a member also counts none. *)
Lemma no_candidates tr want privs tree path held priv prop :
  poolCandidates want privs tree = [] →
  tree !! path = Some held → held !! priv = Some prop →
  conferred want privs ∅ path priv prop = true → sourced tr want privs path priv prop.
Proof.
  unfold poolCandidates. cbv zeta. intros Hc Hp Hh Hconf.
  destruct prop; [by eapply conferred_prop_sourced|].
  set (empty := list_to_map _ : by_grant) in Hc.
  assert (members_sound tr want privs empty) as Hms.
  { intros i g ps poolid Hw Hps Hl.
    unfold empty. rewrite no_members; [intros p; set_solver|]. by eapply (candidates_from_elem 0). }
  destruct (existsb _ (entries tree)) eqn:He.
  - eapply conferred_sourced; [|exact Hconf]. intros i g ps poolid Hw Hps Hl.
    pose proof (candidates_from_elem 0 want privs i g ps poolid Hw Hps Hl) as Hin. rewrite Hc in Hin. by apply elem_of_nil in Hin.
  - eapply conferred_sourced; [exact Hms|]. destruct (conferred want privs empty path priv false) eqn:Hce; [done|].
    exfalso. apply not_true_iff_false in He. apply He. apply existsb_exists. exists (path, held).
    split; [apply list_elem_of_In, elem_of_map_to_list; done|]. apply existsb_exists. exists (priv, false). split; [apply list_elem_of_In, elem_of_map_to_list; done|].
    cbn. by rewrite Hconf, Hce.
Qed.

Lemma gather_spec want privs tree :
  always (gather want privs tree) (λ tr r,
    mutations tr = [] ∧ ∀ t ms held, r = Ok (t, ms, held) →
      (t = tree ∨ read_tree tr t ∧ t ≠ ∅) ∧ held_known tr held ∧
      ∀ path h priv prop, t !! path = Some h → h !! priv = Some prop →
        conferred want privs ms path priv prop = true → sourced tr want privs path priv prop).
Proof.
  unfold gather. eapply always_call.
  { apply (gate_spec want ∅ [] _ []). intros path h Hp. by rewrite lookup_empty in Hp. }
  intros tr [hg|e] [Hm Hh]; cbn [always]; [|by rewrite app_nil_r].
  destruct (Hh hg eq_refl) as (Hk & _ & Hg & Hs). cbn [app] in Hk.
  assert (poolCandidates want privs tree = [] ∨ ∀ i, i ∈ candidates_from 0 want privs → gate_done tr want hg.2 i) as Hc.
  { unfold poolCandidates in *. cbv zeta in *. destruct (existsb _ _); auto. }
  case_bool_decide as Hnil.
  { cbn [always]. rewrite app_nil_r. split; [done|]. intros t ms held [= <- <- <-].
    split_and!; [by left|done|]. intros path h priv prop Hp Hpr Hconf.
    destruct Hc as [Hc|Hc]; [by eapply no_candidates|]. eapply conferred_sourced; [|exact Hconf].
    apply (gated_sound _ _ _ hg.2); [intros i m p Hi; by rewrite lookup_empty in Hi| |done].
    intros i. rewrite Hnil, lookup_empty. split; [set_solver|]. by intros []. }
  destruct Hc as [Hc|Hc].
  { destruct hg.2 as [|i gated]; [done|]. rewrite Hc in Hs. set_solver. }
  eapply always_call; [apply readPoolMembers_spec|]. intros tr1 [b|e] [Hm1 Hb]; cbn [always].
  2: by rewrite app_nil_r, mutations_app, Hm, Hm1.
  destruct (Hb b eq_refl) as [Hbk Hbd].
  eapply always_call; [apply EffectivePermissions_spec|]. intros tr2 [t2|e] [Hm2 Ht2]; cbn [always].
  2: by rewrite app_nil_r, !mutations_app, Hm, Hm1, Hm2.
  specialize (Ht2 t2 eq_refl). case_bool_decide as Hne; cbn [negb always].
  { by rewrite app_nil_r, !mutations_app, Hm, Hm1, Hm2. }
  eapply always_call; [apply readPoolMembers_spec|]. intros tr3 [a|e] [Hm3 Ha]; cbn [always];
    rewrite app_nil_r, !mutations_app, Hm, Hm1, Hm2, Hm3; (split; [done|]); [|done].
  destruct (Ha a eq_refl) as [Hak Had]. intros t ms held [= <- <- <-]. split_and!.
  - right. split; [|done]. eapply read_tree_mono; [|exact Ht2]. intros ev ?. rewrite !elem_of_app. auto.
  - eapply held_known_mono; [|exact Hk]. done.
  - intros path h priv prop _ _ Hconf. eapply conferred_sourced; [|exact Hconf].
    apply (gated_sound _ _ _ hg.2).
    + apply union_members_known; [eapply members_known_mono; [|exact Hbk]|eapply members_known_mono; [|exact Hak]];
        intros ev ?; rewrite !elem_of_app; auto.
    + intros i. rewrite lookup_union_with. specialize (Hbd i). specialize (Had i).
      rewrite Hbd in Had |- *. destruct (b !! i), (a !! i); naive_solver.
    + intros i Hi. eapply gate_done_mono; [|by apply Hc]. done.
Qed.

(** ** The upper bound *)
(** PVE answered that the guest's VMID is taken, or listed the storage. *)
Definition known_to_exist (tr : list (event pveE)) (path : string) : Prop :=
  (∃ m v e, vmsPathRE path = Some m ∧ atoi m = Some v ∧
     Ev (PcString ("/cluster/nextid?vmid=" +:+ itoa v)) (Er e) ∈ tr ∧ isVMIDTakenError e v = true) ∨
  (∃ sid j l s, cut_prefix "/storage/" path = Some sid ∧ got tr "/storage" ∅ j ∧
     as_objects j = Some (Some l) ∧ storage_ids 0 l = Ok s ∧ sid ∈ s).
Definition storages_known (tr : list (event pveE)) (storages : option (gset string)) : Prop :=
  ∀ s, storages = Some s → ∃ j l, got tr "/storage" ∅ j ∧ as_objects j = Some (Some l) ∧
    storage_ids 0 l = Ok s.
Lemma known_to_exist_mono tr tr' path :
  sub_trace tr tr' → known_to_exist tr path → known_to_exist tr' path.
Proof.
  intros H [(m & v & e & ? & ? & ? & ?)|(sid & j & l & s & ? & ? & ?)]; [left|right].
  - exists m, v, e. auto.
  - exists sid, j, l, s. eauto using got_mono.
Qed.
Lemma storages_known_mono tr tr' st : sub_trace tr tr' → storages_known tr st → storages_known tr' st.
Proof. intros H Hs s Hst. destruct (Hs s Hst) as (j & l & ? & ?). eauto using got_mono. Qed.

Lemma vmidFree_taken vmid :
  always (vmidFree vmid) (λ tr r, r = Ok false →
    ∃ e, Ev (PcString ("/cluster/nextid?vmid=" +:+ itoa vmid)) (Er e) ∈ tr ∧
      isVMIDTakenError e vmid = true).
Proof.
  unfold vmidFree. cbn [bind trigger always]. intros [ret|e]; [by destruct (eqb ret "")|].
  destruct (isVMIDTakenError e vmid) eqn:Ht; [|done]. intros _. exists e. split; [by left|done].
Qed.
Lemma existence_check_spec storages path tr0 :
  storages_known tr0 storages →
  always (existence_check storages path) (λ tr r,
    mutations tr = [] ∧ storages_known (tr0 ++ tr) r.2 ∧
    (r.1 = Ok true → known_to_exist (tr0 ++ tr) path)).
Proof.
  intros Hst. unfold existence_check. destruct (vmsPathRE path) as [m|] eqn:Hm.
  - destruct (atoi m) as [v|] eqn:Hv; [|by simpl; rewrite app_nil_r].
    eapply always_call; [apply (always_and _ _ _ (vmidFree_quiet v) (vmidFree_taken v))|].
    intros tr r [Hq Ht]. cbn [always fst snd]. rewrite app_nil_r. split; [done|].
    split; [by eapply storages_known_mono; [|exact Hst]; done|].
    destruct r as [[]|e]; [done| |done]. intros _. destruct (Ht eq_refl) as (e & ? & ?).
    left. exists m, v, e. rewrite elem_of_app. auto.
  - destruct (cut_prefix "/storage/" path) as [sid|] eqn:Hs; [|by simpl; rewrite app_nil_r].
    destruct (storageIDRE sid); [|by simpl; rewrite app_nil_r].
    destruct storages as [s|].
    + cbn [always fst snd]. rewrite app_nil_r. split_and!; [done|done|].
      intros [= Hin%bool_decide_eq_true]. destruct (Hst s eq_refl) as (j & l & ? & ? & ?).
      right. by exists sid, j, l, s.
    + unfold StorageIDs. eapply always_call.
      { eapply always_call; [apply RawRequest_got|]. intros tr [j|e] [Hq Hj]; cbn [always];
          rewrite app_nil_r.
        - instantiate (1 := λ tr r, mutations tr = [] ∧
            ∀ s, r = Ok s → storages_known tr (Some s)). cbn beta. split; [done|].
          intros s Hs' s' [= <-]. exists j. destruct (as_objects j) as [[l|]|]; [|done..].
          exists l. auto.
        - by split. }
      intros tr [s|e] [Hq Hk]; cbn [always fst snd]; rewrite app_nil_r; (split; [done|]).
      * assert (storages_known (tr0 ++ tr) (Some s)) as Hk'.
        { eapply storages_known_mono; [|by apply Hk]. done. }
        split; [done|]. intros [= Hin%bool_decide_eq_true].
        destruct (Hk' s eq_refl) as (j & l & ? & ? & ?). right. by exists sid, j, l, s.
      * by split.
Qed.

Lemma upper_bound_spec want privs members tree storages unsure paths tr0 :
  storages_known tr0 storages →
  always (upper_bound want privs members tree storages unsure paths) (λ tr r,
    mutations tr = [] ∧
    let at_ path := unsourced_at want privs members path (default ∅ (tree !! path)) in
    let explained path := onlyMembership want privs path (at_ path) (default ∅ (tree !! path)) in
    match r with
    | (Some e, _) => ∃ path, path ∈ paths ∧ at_ path ≠ [] ∧ e = too_wide path (at_ path) ∧
        (explained path = false ∨ known_to_exist (tr0 ++ tr) path)
    | (None, u) => (∀ path, path ∈ paths → at_ path ≠ [] → explained path = true) ∧
        (u = None → unsure = None ∧ ∀ path, path ∈ paths → at_ path = [])
    end).
Proof.
  revert storages unsure tr0. induction paths as [|path paths IH]; intros storages unsure tr0 Hst;
    cbn [upper_bound]; cbv zeta.
  { split; [done|]. split; [set_solver|]. intros ->. split; [done|set_solver]. }
  case_bool_decide as Hun.
  - eapply always_mono; [|by apply IH]. intros tr [[e|] u] [Hm H]; (split; [done|]).
    + destruct H as (p & Hp & ?). exists p. split; [by right|done].
    + destruct H as [H1 H2]. split.
      * intros p [->|Hp]%elem_of_cons Hne; [done|by apply H1].
      * intros Hu. destruct (H2 Hu) as [-> H3]. split; [done|].
        intros p [->|Hp]%elem_of_cons; [done|by apply H3].
  - destruct (onlyMembership want privs path _ _) eqn:Hon.
    + eapply always_call; [by apply existence_check_spec|].
      intros tr [ex st'] (Hm & Hst' & Hex). cbn [fst snd] in *.
      assert (∀ u', u' ≠ None → always
        (upper_bound want privs members tree st' u' paths) (λ tr' r,
          mutations (tr ++ tr') = [] ∧
          match r with
          | (Some e, _) => ∃ p, p ∈ path :: paths ∧
              unsourced_at want privs members p (default ∅ (tree !! p)) ≠ [] ∧
              e = too_wide p (unsourced_at want privs members p (default ∅ (tree !! p))) ∧
              (onlyMembership want privs p (unsourced_at want privs members p
                 (default ∅ (tree !! p))) (default ∅ (tree !! p)) = false
               ∨ known_to_exist (tr0 ++ tr ++ tr') p)
          | (None, u) => (∀ p, p ∈ path :: paths →
              unsourced_at want privs members p (default ∅ (tree !! p)) ≠ [] →
              onlyMembership want privs p (unsourced_at want privs members p
                 (default ∅ (tree !! p))) (default ∅ (tree !! p)) = true) ∧
              (u = None → unsure = None ∧ ∀ p, p ∈ path :: paths →
                unsourced_at want privs members p (default ∅ (tree !! p)) = [])
          end)) as Hgo.
      { intros u' Hu'. eapply always_mono; [|by apply (IH st' u' (tr0 ++ tr))].
        intros tr' [[e|] u] [Hm' H]; rewrite mutations_app, Hm, Hm'; (split; [done|]).
        - destruct H as (p & Hp & ?). exists p. rewrite app_assoc. split; [by right|done].
        - destruct H as [H1 H2]. split.
          + intros p [->|Hp]%elem_of_cons Hne; [done|by apply H1].
          + intros Hu. by destruct (H2 Hu) as [-> _]. }
      destruct ex as [[|]|e].
      * cbn [always]. rewrite app_nil_r. split; [done|]. exists path.
        split_and!; [by left|done|done|]. right. by apply Hex.
      * apply Hgo. by destruct unsure.
      * apply Hgo. by destruct unsure.
    + cbn [always]. split; [done|]. exists path. split_and!; [by left|done|done|by left].
Qed.

Lemma nothing_unsourced want privs members tree :
  (∀ path, path ∈ sorted_keys tree →
     unsourced_at want privs members path (default ∅ (tree !! path)) = []) →
  ∀ path held priv prop, tree !! path = Some held → held !! priv = Some prop →
    conferred want privs members path priv prop = true.
Proof.
  intros Hall path held priv prop Hp Hh. specialize (Hall path). rewrite Hp in Hall.
  destruct (conferred want privs members path priv prop) eqn:Hc; [done|].
  assert (priv ∈ unsourced_at want privs members path held) as Hin.
  { apply list_elem_of_filter. rewrite Hh, sorted_keys_elem, Hh. eauto. }
  change (default ∅ (Some held)) with held in Hall.
  rewrite Hall in Hin; [by apply elem_of_nil in Hin|]. apply sorted_keys_elem. eauto.
Qed.

(** ** Presence *)
(** The token holds the grant's privileges at its path, with propagate where the
    grant asks for it. *)
Definition holds (tr : list (event pveE)) (g : Grant) (ps : gset string) : Prop :=
  ∃ h, read_path tr (Path g) h ∧
    ∀ p, p ∈ ps → ∃ b, h !! p = Some b ∧ (Propagate g = true → b = true).
Lemma holds_mono tr tr' g ps : sub_trace tr tr' → holds tr g ps → holds tr' g ps.
Proof. intros H (h & ? & ?). exists h. eauto using read_path_mono. Qed.
Lemma nothing_lacks g h (ps : gset string) :
  absent_privs h (sort_strings (elements ps)) = [] ∧
  flat_privs g h (sort_strings (elements ps)) = [] →
  ∀ p, p ∈ ps → ∃ b, h !! p = Some b ∧ (Propagate g = true → b = true).
Proof.
  intros [Ha Hf] p Hp.
  assert (p ∈ sort_strings (elements ps)) as Hin by (rewrite sort_strings_elem; set_solver).
  destruct (h !! p) as [b|] eqn:Hh.
  - exists b. split; [done|]. intros Hg. destruct b; [done|].
    assert (p ∈ flat_privs g h (sort_strings (elements ps))) as Hin'
      by (apply list_elem_of_filter; auto).
    rewrite Hf in Hin'. by apply elem_of_nil in Hin'.
  - assert (p ∈ absent_privs h (sort_strings (elements ps))) as Hin'
      by (apply list_elem_of_filter; auto).
    rewrite Ha in Hin'. by apply elem_of_nil in Hin'.
Qed.
Lemma presence_spec held missing want privs tr0 :
  held_known tr0 held →
  always (presence held missing want privs) (λ tr r,
    mutations tr = [] ∧
    (r = Ok None → missing = None ∧
       (length want = length privs → Forall2 (holds (tr0 ++ tr)) want privs))).
Proof.
  revert missing privs tr0.
  induction want as [|g want IH]; intros missing privs tr0 Hh; destruct privs as [|ps privs];
    cbn [presence].
  1-3: split; [done|]; intros [= ->]; split; [done|]; try done; intros _; constructor.
  assert (always (match held !! Path g with
                  | Some h => Ret (Ok h)
                  | None => read_path_perms (Path g)
                  end) (λ tr r, mutations tr = [] ∧ ∀ h, r = Ok h → read_path (tr0 ++ tr) (Path g) h))
    as Hread.
  { destruct (held !! Path g) as [h|] eqn:Hg.
    - split; [done|]. intros h' [= <-]. rewrite app_nil_r. by apply Hh.
    - eapply always_mono; [|apply read_path_perms_spec]. intros tr r [Hm Hr]. split; [done|].
      intros h Hr'. eapply read_path_mono; [|by apply Hr]. done. }
  eapply always_call; [exact Hread|]. intros tr [h|e] [Hm Hr]; cbn [always];
    [|by rewrite app_nil_r].
  specialize (Hr h eq_refl). cbv zeta.
  eapply always_mono; [|apply (IH _ _ (tr0 ++ tr))].
  - intros tr' r [Hm' Hr']. rewrite mutations_app, Hm, Hm'. split; [done|]. intros Hn.
    destruct (Hr' Hn) as [Hmiss Hall]. destruct missing; [done|]. split; [done|].
    intros [= Hlen]. rewrite app_assoc. constructor; [|by apply Hall].
    cbn [or_else] in Hmiss. case_bool_decide as Hl; [|done].
    apply (holds_mono (tr0 ++ tr)); [done|]. exists h. split; [done|].
    by apply nothing_lacks.
  - eapply held_known_mono; [|exact Hh]. done.
Qed.

(** ** Well-formed requests *)
Definition grant_ok (g : Grant) : Prop :=
  aclPathRE (Path g) = true ∧ contains "//" (Path g) = false ∧
  (Path g = "/" ∨ has_suffix "/" (Path g) = false) ∧ roleIDRE (Role g) = true ∧
  match Privs g with
  | None => True
  | Some l => l ≠ [] ∧ NoDup l ∧ Forall (λ p, privNameRE p = true) l
  end.
Lemma check_privs_Ok path seen l :
  check_privs path seen l = Ok tt ↔
  Forall (λ p, privNameRE p = true) l ∧ NoDup l ∧ ∀ p, p ∈ l → p ∉ seen.
Proof.
  revert seen. induction l as [|p l IH]; intros seen; simpl.
  { split; [|done]. intros _. split_and!; [done|constructor|set_solver]. }
  rewrite Forall_cons, NoDup_cons. destruct (privNameRE p); [|naive_solver].
  case_bool_decide as Hp; simpl; [split; [done|]; intros (_ & _ & H); exfalso; apply (H p); set_solver|].
  rewrite IH. split; intros (H1 & H2); set_solver.
Qed.
Lemma Check_Ok g : Check_ g = Ok tt ↔ grant_ok g.
Proof.
  unfold Check_, grant_ok. destruct (aclPathRE (Path g)); [|naive_solver].
  destruct (contains "//" (Path g)); cbn [orb negb]; [naive_solver|].
  unfold eqb at 1. case_bool_decide as Hs; cbn [negb andb].
  2: destruct (has_suffix "/" (Path g)); cbn [negb]; [naive_solver|].
  all: destruct (eqb (Role g) "") eqn:Hr; cbn [negb];
    [apply eqb_true in Hr; rewrite Hr; cbn; naive_solver|].
  all: destruct (roleIDRE (Role g)); [|naive_solver].
  all: case_bool_decide as Hp; cbn [negb]; [rewrite Hp; naive_solver|].
  all: rewrite check_privs_Ok; destruct (Privs g) as [l|]; cbn [default];
    [|split; [naive_solver|]; intros _; split_and!; [done|constructor|set_solver]].
  all: split; [intros (? & ? & _); split_and!; auto; congruence|].
  all: intros (_ & _ & _ & _ & ? & ? & ?); split_and!; [done|done|set_solver].
Qed.
Lemma check_grants_Ok paths want :
  check_grants paths want = Ok tt ↔
  Forall grant_ok want ∧ NoDup (Path <$> want) ∧ ∀ g, g ∈ want → Path g ∉ paths.
Proof.
  revert paths. induction want as [|g want IH]; intros paths; cbn [check_grants].
  { split; [|done]. intros _. split_and!; [done|constructor|set_solver]. }
  rewrite Forall_cons, fmap_cons, NoDup_cons, <- Check_Ok.
  destruct (Check_ g) as [[]|e]; [|naive_solver].
  case_bool_decide as Hp; cbn [negb]; [split; [done|]; intros (_ & _ & H); exfalso; apply (H g); set_solver|].
  rewrite IH. setoid_rewrite list_elem_of_fmap. split.
  - intros (H1 & H2 & H3). split_and!; [done|done| |done|].
    + intros (g' & Heq & Hin). apply (H3 g' Hin). rewrite Heq. set_solver.
    + intros g' [->|Hin]%elem_of_cons; [done|]. specialize (H3 g' Hin). set_solver.
  - intros ((_ & H1) & (H2 & H3) & H4). split_and!; [done|done|]. intros g' Hin.
    rewrite not_elem_of_union, not_elem_of_singleton. split; [apply H4; set_solver|].
    intros Heq. apply H2. exists g'. auto.
Qed.

Lemma CheckGrants_Ok want :
  CheckGrants want = Ok tt ↔ want ≠ [] ∧ Forall grant_ok want ∧ NoDup (Path <$> want).
Proof.
  unfold CheckGrants. case_bool_decide as Hn; cbn [negb]; [naive_solver|].
  rewrite check_grants_Ok. split; [naive_solver|]. intros (_ & ? & ?). split_and!; [done|done|set_solver].
Qed.

(** * Properties *)

(** C27: a request for grants is usable exactly when it is non-empty, every grant
    is well formed (a normalized ACL path, a role id, pinned privileges that are
    distinct privilege names, never an empty list) and no two grants share a path. *)
Theorem CheckGrants_iff want :
  CheckGrants want = Ok tt ↔ want ≠ [] ∧ Forall grant_ok want ∧ NoDup (Path <$> want).
Proof. apply CheckGrants_Ok. Qed.

(** The upper bound of a scope. A token is called too wide only over a path
    where it holds a privilege that no requested grant confers, and that pool
    membership either cannot explain or that PVE knows to exist outside the pools;
    it passes only when every privilege at every path of the tree is conferred;
    otherwise the verdict is that the reads cannot tell. *)
Theorem upper_bound_judges want privs members tree :
  always (upper_bound want privs members tree None None (sorted_keys tree)) (λ tr r,
    mutations tr = [] ∧
    let at_ path := unsourced_at want privs members path (default ∅ (tree !! path)) in
    let explained path := onlyMembership want privs path (at_ path) (default ∅ (tree !! path)) in
    match r with
    | (Some e, _) => ∃ path, path ∈ sorted_keys tree ∧ at_ path ≠ [] ∧
        e = too_wide path (at_ path) ∧ (explained path = false ∨ known_to_exist tr path)
    | (None, None) => ∀ path held priv prop,
        tree !! path = Some held → held !! priv = Some prop →
        conferred want privs members path priv prop = true
    | (None, Some _) => ∀ path, path ∈ sorted_keys tree → at_ path ≠ [] → explained path = true
    end).
Proof.
  eapply always_mono; [|apply (upper_bound_spec _ _ _ _ None None _ []); done].
  intros tr [[e|] u] [Hm H]; (split; [done|]); [done|]. destruct H as [H1 H2].
  destruct u as [e|]; [done|]. destruct (H2 eq_refl) as [_ Hall]. by apply nothing_unsourced.
Qed.


(** A token that holds what was asked for, and one that holds more. *)
Definition q (s : string) : string := dq +:+ s +:+ dq.
Definition answer_privs (privs : string) : string → string → Values → http_res :=
  λ _ _ _, HResp 200 "200 OK" ("{" +:+ q "data" +:+ ":{" +:+ q "/vms" +:+ ":{" +:+ privs +:+ "}}}").
Definition audit_vms : list Grant :=
  [{| Path := "/vms"; Role := "Auditor"; Propagate := true; Privs := Some ["VM.Audit"] |}].
Definition verdict (privs : string) : option (res unit) :=
  match run (rest_env (answer_privs privs)) (ValidateTokenGrants audit_vms) tt with
  | Some (_, r, _) => Some r
  | None => None
  end.
Example ValidateTokenGrants_accepts : verdict (q "VM.Audit" +:+ ":1") = Some (Ok tt).
Proof. vm_compute. reflexivity. Qed.
Example ValidateTokenGrants_too_wide :
  verdict (q "VM.Audit" +:+ ":1," +:+ q "VM.Allocate" +:+ ":0")
  = Some (Er (too_wide "/vms" ["VM.Allocate"])).
Proof. vm_compute. reflexivity. Qed.
Example ValidateTokenGrants_not_propagated :
  option_map (λ r, match r with Er e => errors_Is ErrWrongScope e | Ok _ => false end)
    (verdict (q "VM.Audit" +:+ ":0")) = Some true.
Proof. vm_compute. reflexivity. Qed.
