(* ===== verification/OpRun.v ===== *)
(** internal/idempotent/op.go: the contract of an Op and [Run], the
    read-compare-mutate engine every mutating command goes through.

    [Run] is a program over the calls it makes on its Op and on the lock ([opE]).
    A concrete Op is a handler of these calls in terms of its client, and what is
    proved of [Run] carries over to it by [interp_refines]. *)
From Stdlib Require Import Ascii.
From S2P Require Import Prelude GoLib Errors Json Rest.

Record ObjectKey := { TargetID : string; Kind : string; ID : string }.
Definition key_String (k : ObjectKey) : string := TargetID k +:+ "/" +:+ Kind k +:+ "/" +:+ ID k.

(** A snapshot, the string an Op's [Read] returns: a plain text, or a marshalled
    JSON document or VM, kept as the value it encodes. *)
Inductive snap :=
| SText (s : string)
| SJson (j : json)
| SVM (vm : VirtualMachine).
(** [current == ""]: an encoded value is never the empty string. *)
Definition snap_empty (s : snap) : bool := match s with SText t => eqb t "" | _ => false end.

(** The calls of [Run]. *)
Inductive opE : Type → Type :=
| OLock (key : ObjectKey) : opE (res unit)
| OUnlock : opE unit
| ORead : opE (res snap)
| OSatisfied (current : snap) : opE bool
| OApply : opE (res unit)
| OReRead : opE (res snap)
| OPostApply : opE (option err)
| OPostNoop : opE (option err).

(** Which of the optional interfaces the Op implements. *)
Record Impl := { ReReader : bool; PostApplier : bool; NoopChecker : bool }.

Definition maxConflictRetries : nat := 3.
Record Result :=
  { Changed : bool; Before : snap; After : snap; AfterErr : option err; PostApplyErr : option err }.

Definition run_err (key : ObjectKey) (what : string) (e : err) : err :=
  wrapf ("idempotent: " +:+ key_String key +:+ what) e.

(** The optional check [ask], when the Op implements it. *)
Definition check (implemented : bool) (ask : opE (option err)) (key : ObjectKey) (what : string)
    : io opE (option err) :=
  if implemented then let! e := trigger ask in Ret (option_map (run_err key what) e) else Ret None.

(** The attempts; [retries] is [maxConflictRetries - attempt]. *)
Fixpoint attempts (impl : Impl) (key : ObjectKey) (force : bool) (retries : nat)
    : io opE (res Result) :=
  let! current := trigger ORead in
  match current with
  | Er e => Ret (Er (run_err key ": read" e))
  | Ok current =>
      let! satisfied := (if force then Ret false else trigger (OSatisfied current)) in
      if satisfied : bool then
        let! noop := check (NoopChecker impl) OPostNoop key ": no-op check" in
        Ret (Ok {| Changed := false; Before := current; After := current; AfterErr := None;
                   PostApplyErr := noop |})
      else
        let! applied := trigger OApply in
        match applied with
        | Er e =>
            match retries with
            | S retries' =>
                if errors_Is ErrConflict e then attempts impl key force retries'
                else Ret (Er (run_err key ": apply" e))
            | 0 => Ret (Er (run_err key ": apply" e))
            end
        | Ok _ =>
            let! after := trigger (if ReReader impl then OReRead else ORead) in
            let! post := check (PostApplier impl) OPostApply key ": post-apply check" in
            Ret (Ok {| Changed := true; Before := current;
                       After := match after with Ok a => a | Er _ => current end;
                       AfterErr := match after with
                                   | Ok _ => None
                                   | Er e => Some (run_err key ": re-read" e)
                                   end;
                       PostApplyErr := post |})
        end
  end.

Definition Run (impl : Impl) (key : ObjectKey) (force : bool) : io opE (res Result) :=
  let! locked := trigger (OLock key) in
  match locked with
  | Er e => Ret (Er (run_err key "" e))
  | Ok _ =>
      let! r := attempts impl key force (maxConflictRetries - 1) in
      let! _ := trigger OUnlock in
      Ret r
  end.

(** * Specification *)
(** The calls of one attempt up to its Apply. *)
Definition observe (force : bool) (cur : snap) (sat : bool) : list (event opE) :=
  Ev ORead (Ok cur) :: if force then [] else [Ev (OSatisfied cur) sat].
(** An attempt that a conflict superseded. *)
Definition superseded (force : bool) (a : snap * err) : list (event opE) :=
  observe force a.1 false ++ [Ev OApply (Er a.2)].
Definition checked (implemented : bool) (ask : opE (option err)) (e : option err)
    : list (event opE) := if implemented then [Ev ask e] else [].

(** The last attempt, [n] attempts superseded before it, and what [Run] reports. *)
Inductive last_attempt (impl : Impl) (key : ObjectKey) (force : bool) (n : nat)
    : list (event opE) → res Result → Prop :=
| last_read e :
    last_attempt impl key force n [Ev ORead (Er e)] (Er (run_err key ": read" e))
| last_noop cur e :
    force = false → (NoopChecker impl = false → e = None) →
    last_attempt impl key force n
      (observe force cur true ++ checked (NoopChecker impl) OPostNoop e)
      (Ok {| Changed := false; Before := cur; After := cur; AfterErr := None;
             PostApplyErr := option_map (run_err key ": no-op check") e |})
| last_failed cur e :
    errors_Is ErrConflict e = false ∨ n = maxConflictRetries - 1 →
    last_attempt impl key force n (observe force cur false ++ [Ev OApply (Er e)])
      (Er (run_err key ": apply" e))
| last_applied cur after e :
    (PostApplier impl = false → e = None) →
    last_attempt impl key force n
      (observe force cur false ++ Ev OApply (Ok tt) ::
       Ev (if ReReader impl then OReRead else ORead) after ::
       checked (PostApplier impl) OPostApply e)
      (Ok {| Changed := true; Before := cur;
             After := match after with Ok a => a | Er _ => cur end;
             AfterErr := match after with Ok _ => None | Er x => Some (run_err key ": re-read" x) end;
             PostApplyErr := option_map (run_err key ": post-apply check") e |}).

(** The whole protocol: conflicts first, then one attempt that decides. *)
Definition body_spec (impl : Impl) (key : ObjectKey) (force : bool) (done_ : nat)
    (tr : list (event opE)) (r : res Result) : Prop :=
  ∃ conflicts last,
    tr = concat (superseded force <$> conflicts) ++ last ∧
    Forall (λ a, errors_Is ErrConflict a.2 = true) conflicts ∧
    done_ + length conflicts < maxConflictRetries ∧
    last_attempt impl key force (done_ + length conflicts) last r.
Inductive run_spec (impl : Impl) (key : ObjectKey) (force : bool)
    : list (event opE) → res Result → Prop :=
| run_unlocked e : run_spec impl key force [Ev (OLock key) (Er e)] (Er (run_err key "" e))
| run_locked tr r :
    body_spec impl key force 0 tr r →
    run_spec impl key force (Ev (OLock key) (Ok tt) :: tr ++ [Ev OUnlock tt]) r.

(** * Lemmas *)
Lemma check_spec implemented ask key what :
  always (check implemented ask key what) (λ tr r, ∃ e,
    tr = checked implemented ask e ∧ r = option_map (run_err key what) e ∧ (implemented = false → e = None)).
Proof. destruct implemented; simpl; [intros e; by exists e|by exists None]. Qed.
#[export] Hint Resolve check_spec : io.

Lemma attempts_spec impl key force retries n :
  n + S retries = maxConflictRetries →
  always (attempts impl key force retries) (body_spec impl key force n).
Proof.
  revert n. induction retries as [|retries IH]; intros n Hn; cbn [attempts];
    cbn [bind trigger always]; intros [cur|e].
  2,4: exists [], [Ev ORead (Er e)]; rewrite ?Nat.add_0_r; split_and!;
    [done|constructor|simpl; lia|constructor].
  all: eapply always_call with (P := λ tr sat,
    Ev ORead (Ok cur) :: tr = observe force cur sat ∧ (sat = true → force = false));
    [by destruct force|]; intros tr sat [Htr Hsat]; destruct sat.
  1,3: eapply always_call; [apply check_spec|]; intros tr' r (e & -> & -> & He); cbn [always];
    rewrite app_nil_r, app_comm_cons, Htr; exists [], (observe force cur true ++ checked (NoopChecker impl) OPostNoop e);
    rewrite ?Nat.add_0_r; (split_and!; [done|constructor|simpl; lia|]); constructor; auto.
  all: cbn [bind trigger always]; intros [[]|e].
  1,3: intros after; eapply always_call; [apply check_spec|]; intros tr' r (e & -> & -> & He);
    cbn [always]; rewrite app_nil_r;
    exists [], (observe force cur false ++ Ev OApply (Ok tt) ::
       Ev (if ReReader impl then OReRead else ORead) after ::
       checked (PostApplier impl) OPostApply e);
    rewrite ?Nat.add_0_r; (split_and!; [|constructor|simpl; lia|]); [by rewrite app_comm_cons, Htr|];
    constructor; auto.
  - exists [], (observe force cur false ++ [Ev OApply (Er e)]). rewrite app_comm_cons, Htr.
    rewrite Nat.add_0_r. split_and!; [done|constructor|simpl; lia|]. constructor. right. lia.
  - destruct (errors_Is ErrConflict e) eqn:Hc.
    + eapply always_mono; [|apply (IH (S n)); lia].
      intros tr' r (cs & last & -> & Hall & Hlen & Hlast).
      exists ((cur, e) :: cs), last. rewrite app_comm_cons, Htr. cbn [fmap list_fmap concat length].
      rewrite Nat.add_succ_r. split_and!; [|by constructor|simpl in *; lia|done].
      unfold superseded at 2. by rewrite <- !app_assoc.
    + exists [], (observe force cur false ++ [Ev OApply (Er e)]). rewrite app_comm_cons, Htr.
      rewrite Nat.add_0_r. split_and!; [done|constructor|simpl; lia|]. constructor. by left.
Qed.

Lemma exec_observe {A} force cur sat (f : bool → io opE A) tr a :
  (sat = true → force = false) →
  exec (f sat) tr a →
  exec (let! current := trigger ORead in
        match current with
        | Er _ => Stuck
        | Ok current => let! s := (if force then Ret false else trigger (OSatisfied current)) in f s
        end) (observe force cur sat ++ tr) a.
Proof.
  intros Hs Hf. simpl. exists (Ok cur). split; [done|]. destruct force; simpl.
  - destruct sat; [by specialize (Hs eq_refl)|done].
  - exists sat. done.
Qed.
Lemma exec_check {A} implemented ask key what e (f : option err → io opE A) tr a :
  (implemented = false → e = None) →
  exec (f (option_map (run_err key what) e)) tr a →
  exec (bind (check implemented ask key what) f) (checked implemented ask e ++ tr) a.
Proof.
  intros He Hf. destruct implemented; simpl.
  - exists e. done.
  - by rewrite (He eq_refl) in Hf.
Qed.
Lemma attempts_complete impl key force retries n tr r :
  n + S retries = maxConflictRetries →
  body_spec impl key force n tr r → exec (attempts impl key force retries) tr r.
Proof.
  revert n tr. induction retries as [|retries IH]; intros n tr Hn (cs & last & -> & Hall & Hlen & Hlast).
  all: destruct cs as [|[cur e] cs]; cbn [fmap list_fmap concat app length] in *.
  2: { unfold maxConflictRetries in *. lia. }
  3: { inversion_clear Hall as [|? ? Hc Hall']. cbn [snd] in Hc.
       assert (body_spec impl key force (S n) (concat (superseded force <$> cs) ++ last) r) as Hb.
       { exists cs, last. rewrite Nat.add_succ_r in Hlast, Hlen. done. }
       specialize (IH (S n) _ ltac:(lia) Hb).
       unfold superseded at 1. rewrite <- !app_assoc. cbn [attempts fst snd].
       exists (Ok cur). split; [done|]. destruct force; simpl; [|exists false; split; [done|]];
         (exists (Er e); split; [done|]); by rewrite Hc. }
  all: rewrite Nat.add_0_r in Hlast; inversion Hlast; subst; cbn [attempts].
  1,5: exists (Er e); done.
  all: exists (Ok cur); (split; [done|]).
  1,4: simpl; exists true; (split; [done|]).
  1,2: rewrite <- (app_nil_r (checked _ _ _)); apply exec_check; done.
  1,3: destruct force; simpl; [|exists false; split; [done|]]; (exists (Er e); split; [done|]); try done.
  1,2: destruct (errors_Is ErrConflict e) eqn:Hc; [|done];
    rename select (_ ∨ _) into Ho; destruct Ho; [congruence|unfold maxConflictRetries in *; simpl in *; lia].
  all: destruct force; simpl; [|exists false; split; [done|]]; (exists (Ok tt); split; [done|]);
    (exists after; split; [done|]); rewrite <- (app_nil_r (checked _ _ _)); apply exec_check; done.
Qed.

(** The outcomes of the Apply calls of a trace. *)
Definition apply_of (ev : event opE) : option (res unit) :=
  match ev with @Ev _ _ OApply r => Some r | _ => None end.
Definition applies (tr : list (event opE)) : list (res unit) := omap apply_of tr.
Lemma applies_app tr tr' : applies (tr ++ tr') = applies tr ++ applies tr'.
Proof. apply omap_app. Qed.
Lemma applies_observe force cur sat tr : applies (observe force cur sat ++ tr) = applies tr.
Proof. by destruct force. Qed.
Lemma applies_checked b ask e : ask = OPostApply ∨ ask = OPostNoop → applies (checked b ask e) = [].
Proof. intros [->| ->]; by destruct b. Qed.
Lemma applies_superseded force cs :
  applies (concat (superseded force <$> cs)) = (λ a, Er a.2) <$> cs.
Proof.
  induction cs as [|a cs IH]; [done|]. cbn [fmap list_fmap concat]. rewrite applies_app.
  fold (superseded force <$> cs). rewrite IH. unfold superseded. by rewrite applies_observe.
Qed.
Lemma applies_last impl key force n tr r :
  last_attempt impl key force n tr r →
  applies tr = [] ∧ (∀ x, r = Ok x → Changed x = false ∧ force = false) ∨
  ∃ a, applies tr = [a] ∧
    match a, r with
    | Ok _, Ok x => Changed x = true
    | Er _, Er _ => True
    | _, _ => False
    end.
Proof.
  destruct 1; [by left|left|right|right].
  - rewrite applies_observe, applies_checked by auto. split; [done|]. by intros x [= <-].
  - rewrite applies_observe. by exists (Er e).
  - rewrite applies_observe. exists (Ok tt). split; [|done].
    by destruct (ReReader impl), (PostApplier impl).
Qed.

Lemma attempts_total impl key force retries : total (attempts impl key force retries).
Proof.
  induction retries as [|retries IH]; cbn [attempts]; intros [cur|e]; simpl; try done.
  all: apply total_bind; [by destruct force|]; intros [].
  1,3: apply total_bind; [by destruct (NoopChecker impl)|done].
  all: intros [[]|e]; simpl; try done.
  1,2: intros [a|e]; apply total_bind; try done; by destruct (PostApplier impl).
  by destruct (errors_Is ErrConflict e).
Qed.

(** * Properties *)

(** C32: [Run] behaves exactly as its specification says. Its traces are: the lock
    refused; or the lock taken, at most two attempts superseded by a conflict, each
    a fresh read, an unsatisfied test and a conflicting Apply, then one attempt that
    decides (a failed read, a no-op with its optional check, a failed Apply, or an
    Apply followed by the re-read and the optional check), and the lock released;
    its result is the one that last attempt determines, and every such sequence of
    calls is a run of it. *)
Theorem Run_refines impl key force tr r :
  exec (Run impl key force) tr r ↔ run_spec impl key force tr r.
Proof.
  unfold Run. split.
  - revert tr r. apply always_exec. cbn [bind trigger always]. intros [[]|e]; [|constructor].
    eapply always_call; [apply (attempts_spec _ _ _ _ 0); done|].
    intros tr r Hb. cbn [bind trigger always]. intros []. by constructor.
  - intros [e|tr' r' Hb]; cbn [exec bind trigger]; [exists (Er e); done|].
    exists (Ok tt). split; [done|]. cbn [exec bind trigger].
    apply exec_bind. exists tr', r', [Ev OUnlock tt]. split_and!; [done| |by exists tt].
    by apply (attempts_complete _ _ _ _ 0).
Qed.

(** [Run] applies at most three times, successfully at most once, and reports
    a change exactly when an Apply succeeded; an error means no Apply succeeded, and
    a result without a change was not forced and left every Apply a conflict. *)
Theorem Run_applies impl key force :
  always (Run impl key force) (λ tr r,
    length (applies tr) ≤ 3 ∧
    match r with
    | Ok x =>
        if Changed x then ∃ es, applies tr = (Er <$> es) ++ [Ok tt] ∧
                            Forall (λ e, errors_Is ErrConflict e = true) es
        else force = false ∧ ∃ es, applies tr = Er <$> es ∧
               Forall (λ e, errors_Is ErrConflict e = true) es
    | Er _ => Ok tt ∉ applies tr
    end).
Proof.
  unfold Run. cbn [bind trigger always]. intros [[]|e]; [|split; [simpl; lia|]; set_solver].
  eapply always_call; [apply (attempts_spec _ _ _ _ 0); done|].
  intros tr r (cs & last & -> & Hall & Hlen & Hlast). cbn [bind trigger always]. intros [].
  change (applies (Ev (OLock key) (Ok tt) :: ?t)) with (applies t).
  rewrite !applies_app, applies_superseded. change (applies [Ev OUnlock tt]) with (@nil (res unit)).
  rewrite app_nil_r, length_app, length_fmap. unfold maxConflictRetries in Hlen. simpl in Hlen.
  assert ((λ a : snap * err, Er a.2) <$> cs = (Er <$> (snd <$> cs) : list (res unit))) as Hcs
    by by rewrite <- list_fmap_compose.
  assert (Forall (λ e, errors_Is ErrConflict e = true) (snd <$> cs)) as Hall'
    by by apply Forall_fmap.
  assert (Ok tt ∉ (Er <$> (snd <$> cs) : list (res unit))) as Hno.
  { rewrite list_elem_of_fmap. naive_solver. }
  rewrite Hcs. apply applies_last in Hlast as [[-> Hr]|(a & -> & Hr)]; simpl.
  - rewrite app_nil_r. split; [lia|]. destruct r as [x|e]; [|done].
    destruct (Hr x eq_refl) as [-> ->]. split; [done|]. eauto.
  - split; [lia|]. destruct a as [[]|e], r as [x|e']; try done.
    + rewrite Hr. eauto.
    + rewrite elem_of_app, list_elem_of_singleton. naive_solver.
Qed.

(** C33: [Run] always returns, and whenever it took the lock it releases it last. *)
Theorem Run_returns_unlocked {S} (h : env opE S) impl key force s :
  ∃ tr r s', run h (Run impl key force) s = Some (tr, r, s') ∧
    ((∃ e, tr = [Ev (OLock key) (Er e)] ∧ is_ok r = false) ∨
     ∃ tr', tr = Ev (OLock key) (Ok tt) :: tr' ++ [Ev OUnlock tt]).
Proof.
  destruct (total_run h (Run impl key force) s) as (tr & r & s' & Hr).
  { unfold Run. cbn [bind trigger total]. intros [[]|e]; [|done].
    apply total_bind; [apply attempts_total|done]. }
  exists tr, r, s'. split; [done|]. apply run_exec in Hr. unfold Run in Hr.
  cbn [exec bind trigger] in Hr.
  destruct tr as [|ev tr]; [done|]. destruct Hr as ([[]|e] & -> & Hr).
  - apply exec_bind in Hr as (tr1 & a & tr2 & -> & _ & Hu). right. simpl in Hu.
    destruct tr2 as [|ev2 tr2]; [done|]. destruct Hu as ([] & -> & -> & _). by exists tr1.
  - destruct Hr as [-> ->]. left. by exists e.
Qed.
