(* ===== verification/Client.v ===== *)
(** The client an Op works through: the methods of internal/idempotent's client
    interfaces as one effect signature, the Op interface as a record, and what
    [Run] on a concrete Op does to the client. *)
From Stdlib Require Import Ascii.
From S2P Require Import Prelude GoLib Errors Json Rest OpRun.

(** ** The client *)
Record LinkState := { Exists : bool; Up : bool }.
Record TapLinkState := { tap_Exists : bool; tap_Isolated : bool }.

(** One constructor per method; [Node()] is a constant, an argument of the Ops. The
    nil VM pointer of [GetVM] is [None]. [CLock] and [CUnlock] are the object lock. *)
Inductive clientE : Type → Type :=
| CLock (key : ObjectKey) : clientE (res unit)
| CUnlock : clientE unit
| CGetVM (node : string) (vmid : Z) : clientE (res (option VirtualMachine))
| CRawRequest (method path : string) (params : Values) : clientE (res json)
| CSetField (vmid : Z) (fld value : string) : clientE (res unit)
| CSetFieldCAS (vmid : Z) (fld value expectDigest : string) : clientE (res unit)
| CDeleteField (vmid : Z) (fld : string) : clientE (res unit)
| CDeleteFieldCAS (vmid : Z) (fld expectDigest : string) : clientE (res unit)
| CSetFieldOverSSH (vmid : Z) (fld value : string) : clientE (res unit)
| CDeleteFieldOverSSH (vmid : Z) (fld : string) : clientE (res unit)
| CCreateVM (vmid : Z) (params : Values) : clientE (res string)
| CCloneVM (sourceVMID newVMID : Z) (params : Values) : clientE (res string)
| CStopVM (vmid : Z) : clientE (res string)
| CDestroyVM (vmid : Z) (purge : bool) : clientE (res string)
| CShutdownVM (vmid : Z) : clientE (res string)
| CWaitForTask (node upid : string) : clientE (res unit)
| CTagStillClaimed (tag : string) (excludeVMID : Z) : clientE (res bool)
| CStorageType (node storage : string) : clientE (res string)
| CGetStorage (node name : string) : clientE (res Storage)
| CGetStorageVolumes (node storage : string) : clientE (res (list (option StorageContent)))
| CGetStorageConfigRaw (storage : string) : clientE (res (gmap string json))
| CCreateStorage (name : string) (params : Values) : clientE (res json)
| CUpdateStorageConfig (name : string) (params : Values) : clientE (res json)
| COrphansOnNode (node storage : string) (vmid : Z) (completeVMIDs : list Z) :
    clientE (res (list (option StorageContent)))
| COrphansInCluster (node storage : string) (vmid : Z) (guests : list (string * Z)) :
    clientE (res (list (option StorageContent)))
| CLinkState (iface : string) : clientE (res LinkState)
| CTapLinkState (tap : string) : clientE (res TapLinkState)
| CSetBridgePortIsolated (tap : string) (isolated : bool) : clientE (res unit)
| CUploadSnippet (storage filename content : string) : clientE (res unit).

(** The calls that change PVE's or the host's state. *)
Definition changing {R} (e : clientE R) : bool :=
  match e with
  | CRawRequest m _ _ => negb (eqb m "GET")
  | CSetField _ _ _ | CSetFieldCAS _ _ _ _ | CDeleteField _ _ | CDeleteFieldCAS _ _ _
  | CSetFieldOverSSH _ _ _ | CDeleteFieldOverSSH _ _ | CCreateVM _ _ | CCloneVM _ _ _
  | CStopVM _ | CDestroyVM _ _ | CShutdownVM _ | CCreateStorage _ _
  | CUpdateStorageConfig _ _ | CSetBridgePortIsolated _ _ | CUploadSnippet _ _ _ => true
  | _ => false
  end.
Definition changing_event (ev : event clientE) : bool := match ev with Ev e _ => changing e end.
(** The changing calls of a trace, in order. *)
Definition changes (tr : list (event clientE)) : list (event clientE) :=
  filter (λ ev, changing_event ev = true) tr.
Lemma changes_app tr tr' : changes (tr ++ tr') = changes tr ++ changes tr'.
Proof. apply filter_app. Qed.
Lemma changes_cons ev tr :
  changes (ev :: tr) = if changing_event ev then ev :: changes tr else changes tr.
Proof. unfold changes. rewrite filter_cons. by destruct (changing_event ev). Qed.
#[export] Hint Rewrite changes_app changes_cons : go.
(** The changes of a trace, one call at a time. *)
Ltac by_calls := autorewrite with go; cbn [changing_event changing]; autorewrite with go.

(** ** Ops *)
(** An Op over its own mutable state [S]; the optional interfaces are options. *)
Record Op (S : Type) := {
  Read : S → io clientE (res snap * S);
  Satisfied : S → snap → bool;
  Apply : S → io clientE (res unit * S);
  ReRead : option (S → io clientE (res snap * S));
  PostApply : option (S → io clientE (option err * S));
  PostNoop : option (S → io clientE (option err * S))
}.
Arguments Read {S}. Arguments Satisfied {S}. Arguments Apply {S}.
Arguments ReRead {S}. Arguments PostApply {S}. Arguments PostNoop {S}.

Definition is_some {A} (o : option A) : bool := match o with Some _ => true | None => false end.
Definition impl_of {S} (o : Op S) : Impl :=
  {| ReReader := is_some (ReRead o); PostApplier := is_some (PostApply o);
     NoopChecker := is_some (PostNoop o) |}.

(** [Run] on a concrete Op: its calls are the Op's methods. *)
Definition op_handler {S} (o : Op S) : handler opE clientE S := λ R e,
  match e in opE R return S → io clientE (R * S) with
  | OLock key => λ s, let! r := trigger (CLock key) in Ret (r, s)
  | OUnlock => λ s, let! r := trigger CUnlock in Ret (r, s)
  | ORead => Read o
  | OSatisfied current => λ s, Ret (Satisfied o s current, s)
  | OApply => Apply o
  | OReRead => match ReRead o with Some f => f | None => Read o end
  | OPostApply => match PostApply o with Some f => f | None => λ s, Ret (None, s) end
  | OPostNoop => match PostNoop o with Some f => f | None => λ s, Ret (None, s) end
  end.
Definition run_op {S} (o : Op S) (key : ObjectKey) (force : bool) (s : S)
    : io clientE (res Result * S) :=
  interp (op_handler o) (Run (impl_of o) key force) s.

(** What [Run] may assume of an Op: only its Apply changes anything. *)
Class QuietReads {S} (o : Op S) := {
  read_quiet s : always (Read o s) (λ tr _, changes tr = []);
  reread_quiet f s : ReRead o = Some f → always (f s) (λ tr _, changes tr = []);
  postapply_quiet f s : PostApply o = Some f → always (f s) (λ tr _, changes tr = []);
  postnoop_quiet f s : PostNoop o = Some f → always (f s) (λ tr _, changes tr = [])
}.

(** * Lemmas *)
(** Answering one call of [Run]: only an Apply leaves changes. *)
Definition op_step {S} (s : S) (ev : event opE) (tr : list (event clientE)) (s' : S) : Prop :=
  match ev with @Ev _ _ OApply _ => True | _ => changes tr = [] end.
Lemma op_handler_step {S} (o : Op S) `{!QuietReads o} R (e : opE R) s :
  always (op_handler o R e s) (λ tr rs, op_step s (Ev e rs.1) tr rs.2).
Proof.
  destruct e; simpl; unfold op_step; try done.
  - apply read_quiet.
  - by apply always_true.
  - destruct (ReRead o) eqn:H; [by eapply reread_quiet|apply read_quiet].
  - destruct (PostApply o) eqn:H; [by eapply postapply_quiet|done].
  - destruct (PostNoop o) eqn:H; [by eapply postnoop_quiet|done].
Qed.
Lemma steps_changes {S} (s : S) evs tr s' :
  steps op_step s evs tr s' → applies evs = [] → changes tr = [].
Proof.
  induction 1 as [s|s ev tr s1 evs tr' s2 Hstep _ IH]; [done|]. intros Hev.
  rewrite changes_app. destruct ev as [R e r]; destruct e; simpl in *;
    by rewrite ?Hstep, ?IH.
Qed.

(** A concrete [Run] is one of [Run], its changes those of its Apply calls. *)
Lemma run_op_spec {S} (o : Op S) `{!QuietReads o} key force s Q :
  always (Run (impl_of o) key force) Q →
  always (run_op o key force s) (λ tr rs,
    ∃ evs, Q evs rs.1 ∧ (applies evs = [] → changes tr = [])).
Proof.
  intros HQ. unfold run_op.
  eapply always_mono; [|apply (interp_refines (op_handler o) op_step (op_handler_step o) _ _ _ HQ)].
  intros tr rs (evs & HQ' & Hst). exists evs. split; [done|]. by eapply steps_changes.
Qed.

(** A run under a lock: refused, or all of it between the lock and its release. *)
Definition lock_shape {E : Type → Type} (lock : E (res unit)) (unlock : E unit) (Q : event E → Prop) (tr : list (event E)) : Prop :=
  (∃ e, tr = [Ev lock (Er e)]) ∨ ∃ body, tr = [Ev lock (Ok tt)] ++ body ++ [Ev unlock tt] ∧ Forall Q body.
(** What an Op's methods ask, between the lock and its release. *)
Definition op_asks {S} (o : Op S) (P : ∀ R, clientE R → Prop) : Prop :=
  ∀ R (e : opE R) s, match e with OLock _ | OUnlock => True | e => asks P (op_handler o _ e s) end.
Lemma run_op_shape {S} (o : Op S) (P : ∀ R, clientE R → Prop) key force s :
  op_asks o P → always (run_op o key force s) (λ tr _, lock_shape (CLock key) CUnlock (λ ev : event clientE, match ev with Ev e _ => P _ e end) tr).
Proof.
  intros Ho. unfold run_op, Run. cbn [bind trigger interp op_handler always]. intros [[]|e]; cbn [bind trigger interp always]; [|left; by exists e].
  apply interp_bind. eapply always_mono; [|apply asks_always, (asks_interp (λ R e, match e with OLock _ | OUnlock => False | _ => True end))].
  - intros tr rs H. cbn. intros []. right. exists tr. split; [done|exact H].
  - intros R e s' He. specialize (Ho R e s'). by destruct e.
  - generalize (maxConflictRetries - 1). intros n. induction n as [|n IH]; cbn [attempts]; unfold check; asks; auto;
      by destruct (ReReader (impl_of o)).
Qed.

(** What every method of an Op keeps true of its state and of the calls so far, and
    the lock does not disturb, holds of a whole [Run]. *)
Definition kept {S} (I : S → list (event clientE) → Prop) {A} (f : S → io clientE (A * S)) : Prop :=
  ∀ s pre, I s pre → always (f s) (λ tr rs, I rs.2 (pre ++ tr)).
Lemma run_op_invariant {S} (o : Op S) (I : S → list (event clientE) → Prop) key force s :
  (∀ s pre tr, changes tr = [] → I s pre → I s (pre ++ tr)) →
  kept I (Read o) → kept I (Apply o) →
  (∀ f, ReRead o = Some f → kept I f) →
  (∀ f, PostApply o = Some f → kept I f) → (∀ f, PostNoop o = Some f → kept I f) →
  I s [] → always (run_op o key force s) (λ tr rs, I rs.2 tr).
Proof.
  intros Hq Hread Happly Hre Hpa Hpn Hs. unfold run_op.
  apply (interp_invariant (op_handler o) I _ s []); [|done]. clear s Hs.
  intros R e s pre Hs. destruct e; cbn [op_handler].
  - cbn. intros r. by apply Hq.
  - cbn. intros r. by apply Hq.
  - by apply Hread.
  - simpl. by rewrite app_nil_r.
  - by apply Happly.
  - destruct (ReRead o) eqn:Hf; [by apply (Hre _ eq_refl)|by apply Hread].
  - destruct (PostApply o) eqn:Hf; [by apply (Hpa _ eq_refl)|simpl; by rewrite app_nil_r].
  - destruct (PostNoop o) eqn:Hf; [by apply (Hpn _ eq_refl)|simpl; by rewrite app_nil_r].
Qed.

(** * Properties *)

(** An Op whose reads and checks change nothing and that finds its object
    already as wanted changes nothing at all, unless forced: [Run] reports no change
    and the same state before and after. *)
Theorem run_op_satisfied {S} (o : Op S) `{!QuietReads o} key s :
  always (Read o s) (λ _ rs, ∀ cur, rs.1 = Ok cur → Satisfied o rs.2 cur = true) →
  always (run_op o key false s) (λ tr rs,
    changes tr = [] ∧
    ∀ x, rs.1 = Ok x → Changed x = false ∧ Before x = After x ∧ AfterErr x = None).
Proof.
  intros Hsat. unfold run_op, Run. cbn [bind trigger interp op_handler always].
  intros [[]|e]; cbn [interp always fst snd]; [|done].
  cbn [maxConflictRetries Nat.sub attempts bind trigger interp op_handler fst snd].
  eapply always_call; [eapply always_and; [apply (read_quiet s)|exact Hsat]|].
  intros tr [[cur|e] s1] [Hq Hs]; cbn [fst snd interp bind].
  - pose proof (Hs cur eq_refl) as Hsc. cbn [snd] in Hsc.
    cbn [bind trigger interp op_handler fst snd]. rewrite Hsc. unfold check. cbn [impl_of NoopChecker].
    destruct (PostNoop o) as [f|] eqn:Hf; cbn [is_some bind trigger interp op_handler].
    + rewrite Hf. eapply always_call; [by apply postnoop_quiet|]. intros tr' [e s2] Hq'.
      cbn [fst snd bind interp always]. intros []. cbn [fst snd interp always].
      by_calls. rewrite Hq, Hq'. split; [done|]. by intros x [= <-].
    + cbn [fst snd bind interp always op_handler trigger]. intros []. cbn [fst snd interp always].
      by_calls. rewrite Hq. split; [done|]. by intros x [= <-].
  - cbn [bind trigger op_handler interp always]. intros []. cbn [fst snd interp always].
    by_calls. by rewrite Hq.
Qed.

(** An Op that is always as wanted. *)
Definition settled : Op unit :=
  {| Read := λ s, Ret (Ok (SText "as wanted"), s); Satisfied := λ _ _, true;
     Apply := λ s, let! r := trigger (CStopVM 100) in
                   Ret (match r with Ok _ => Ok tt | Er e => Er e end, s);
     ReRead := None; PostApply := None; PostNoop := None |}.
#[local] Instance settled_quiet : QuietReads settled.
Proof. by split. Qed.
Lemma run_op_satisfied_witness :
  always (run_op settled {| TargetID := "t"; Kind := "vm"; ID := "100" |} false tt)
    (λ tr rs, changes tr = [] ∧
       ∀ x, rs.1 = Ok x → Changed x = false ∧ Before x = After x ∧ AfterErr x = None).
Proof. apply (run_op_satisfied settled). intros cur _. reflexivity. Defined.
