(* ===== verification/VmFields.v ===== *)
(** internal/idempotent's VM config Ops: [VMFieldsEnsure] (vmfields.go,
    vmfields_pending.go, vmfields_cloudinit.go, vmconverge.go), [VMTagEnsure]
    (vmtag.go), and the value comparison of boolish.go. *)
From Stdlib Require Import Ascii.
From S2P Require Import Prelude GoLib Errors Json KvJson Rest Vms OpRun Client.

(** ** boolish.go *)
Definition parseBoolish (s : string) : option bool :=
  let t := to_lower (trim_space s) in
  if eqb t "true" || eqb t "1" then Some true
  else if eqb t "false" || eqb t "0" then Some false else None.
Definition fieldsEqual (current wanted : string) : bool :=
  match parseBoolish current, parseBoolish wanted with
  | Some cb, Some wb => Bool.eqb cb wb
  | _, _ => eqb current wanted
  end.

(** ** sshexec/rootfields.go, its classification of fields and errors *)
Definition RootOnlyFields (fld : string) : bool := eqb fld "args".
Definition IsRootOnlyWriteError (e : err) : bool := contains "only root can set" (Error e).

(** ** vmfields_cloudinit.go *)
Definition cloudInitKeys : list string :=
  ["ciuser"; "cipassword"; "citype"; "ciupgrade"; "cicustom"; "sshkeys"; "nameserver";
   "searchdomain"; "name"].
Definition isCloudInitKey (key : string) : bool :=
  bool_decide (key ∈ cloudInitKeys) ||
  existsb (λ p, match cut_prefix p key with
                | Some n => negb (eqb n "") && all_bytes is_digit n
                | None => false
                end) ["ipconfig"; "net"].
Definition CloudInitCheckError (e : err) : err := Err KCloudInitCheck (Error e) [e].

(** ** vmfields_pending.go: the helpers *)
Definition pick (list_ : list string) (set_ : gset string) : list string :=
  filter (λ k, k ∈ set_) list_.
Definition without (list_ drop : list string) : list string := filter (λ k, k ∉ drop) list_.
Fixpoint decode_changes (list_ : string) (i : Z) (pending deleting : gset string)
    (l : list (option (gmap string json))) : res (gset string * gset string) :=
  let bad post := Er (Err KText (sentinel_text ErrUnverifiableRead +:+ ": " +:+ list_ +:+ " entry "
                        +:+ itoa i +:+ post) [sent ErrUnverifiableRead]) in
  match l with
  | [] => Ok (pending, deleting)
  | None :: _ => bad " is not an object"
  | Some e :: l' =>
      match field as_string e "key" with
      | None => bad " has no key"
      | Some key =>
          if eqb key "" then bad " has no key"
          else
            let rest := decode_changes list_ (i + 1)
              (if bool_decide (is_Some (e !! "pending")) then pending ∪ {[key]} else pending)
              deleting l' in
            match e !! "delete" with
            | None => rest
            | Some d =>
                match as_int d with
                | None => bad " has a delete flag that is not 0, 1 or 2"
                | Some n =>
                    if ((n <? 0) || (2 <? n))%Z then bad " has a delete flag that is not 0, 1 or 2"
                    else if (0 <? n)%Z then
                      decode_changes list_ (i + 1) pending (deleting ∪ {[key]}) l'
                    else rest
                end
            end
      end
  end.
Definition decodeChanges (raw : json) (list_ : string) : res (gset string * gset string) :=
  match as_objects raw with
  | Some (Some entries_) => decode_changes list_ 0 ∅ ∅ entries_
  | _ => Er (Err KText (sentinel_text ErrUnverifiableRead +:+ ": the " +:+ list_
               +:+ " list is not a JSON array") [sent ErrUnverifiableRead])
  end.

Definition appendOnce (l : list string) (s : string) : list string :=
  if bool_decide (s ∈ l) then l else l ++ [s].

(** ** Snapshots as JSON *)
Definition string_map (m : gmap string string) : json :=
  JObj ((λ k, (k, JStr (default "" (m !! k)))) <$> sorted_keys m).
Definition decode_snap (s : snap) : option json :=
  match s with SText t => parse_json t | SJson j => Some j | SVM _ => None end.
(** Into a [map[string]string]. *)
Definition as_string_map (j : json) : option (gmap string string) :=
  match j with
  | JNull => Some ∅
  | JObj l => if forallb (λ kv, bool_decide (is_Some (as_string kv.2))) l
              then Some (omap as_string (fields_of l)) else None
  | _ => None
  end.

(** ** VMFieldsEnsure *)
Record fields_state := {
  current : gmap string string;
  Applied : list string; Deleted : list string;
  Pending : list string; PendingDeletes : list string;
  CloudInitStale : list string; CloudInitStaleDeletes : list string;
  AlreadyPending : list string; AlreadyPendingDeletes : list string;
  AlreadyCloudInitStale : list string; AlreadyCloudInitStaleDeletes : list string
}.
Definition fields_init : fields_state :=
  {| current := ∅; Applied := []; Deleted := []; Pending := []; PendingDeletes := [];
     CloudInitStale := []; CloudInitStaleDeletes := []; AlreadyPending := [];
     AlreadyPendingDeletes := []; AlreadyCloudInitStale := []; AlreadyCloudInitStaleDeletes := [] |}.
Definition set_current (c : gmap string string) (s : fields_state) : fields_state :=
  {| current := c; Applied := Applied s; Deleted := Deleted s; Pending := Pending s;
     PendingDeletes := PendingDeletes s; CloudInitStale := CloudInitStale s;
     CloudInitStaleDeletes := CloudInitStaleDeletes s; AlreadyPending := AlreadyPending s;
     AlreadyPendingDeletes := AlreadyPendingDeletes s;
     AlreadyCloudInitStale := AlreadyCloudInitStale s;
     AlreadyCloudInitStaleDeletes := AlreadyCloudInitStaleDeletes s |}.
Definition set_written (a d : list string) (s : fields_state) : fields_state :=
  {| current := current s; Applied := a; Deleted := d; Pending := Pending s;
     PendingDeletes := PendingDeletes s; CloudInitStale := CloudInitStale s;
     CloudInitStaleDeletes := CloudInitStaleDeletes s; AlreadyPending := AlreadyPending s;
     AlreadyPendingDeletes := AlreadyPendingDeletes s;
     AlreadyCloudInitStale := AlreadyCloudInitStale s;
     AlreadyCloudInitStaleDeletes := AlreadyCloudInitStaleDeletes s |}.
Definition set_findings (p pd cs csd ap apd acs acsd : list string) (s : fields_state) : fields_state :=
  {| current := current s; Applied := Applied s; Deleted := Deleted s; Pending := p;
     PendingDeletes := pd; CloudInitStale := cs; CloudInitStaleDeletes := csd; AlreadyPending := ap;
     AlreadyPendingDeletes := apd; AlreadyCloudInitStale := acs;
     AlreadyCloudInitStaleDeletes := acsd |}.
Definition resetFindings : fields_state → fields_state := set_findings [] [] [] [] [] [] [] [].
Definition Wrote (s : fields_state) : bool :=
  negb (bool_decide (Applied s = [])) || negb (bool_decide (Deleted s = [])).

Section VMFieldsEnsure.
(** The Op's parameters: [Client.Node()], [VMID], [Pairs] and [Deletes]. *)
Context (node : string) (VMID : Z) (Pairs : list Pair) (Deletes : list string).

Definition fields_what : string := "vm fields ensure: vm " +:+ itoa VMID.

Fixpoint dup_pairs (seen : gset string) (l : list Pair) : string + gset string :=
  match l with
  | [] => inr seen
  | p :: l' => if bool_decide (Field p ∈ seen) then inl (Field p)
               else dup_pairs (seen ∪ {[Field p]}) l'
  end.
Fixpoint check_deletes (seen deleted : gset string) (l : list string) : res unit :=
  match l with
  | [] => Ok tt
  | f :: l' =>
      guard^ negb (eqb f "") orelse errorf (fields_what +:+ ": a field to delete must be named") in
      guard^ negb (bool_decide (f ∈ deleted)) orelse
        errorf (fields_what +:+ ": field " +:+ quote f +:+ " is deleted more than once") in
      guard^ negb (bool_decide (f ∈ seen)) orelse
        errorf (fields_what +:+ ": field " +:+ quote f +:+ " is both set and deleted") in
      check_deletes seen (deleted ∪ {[f]}) l'
  end.
Definition fields_Validate : res unit :=
  guard^ (0 <? VMID)%Z orelse
    errorf ("vm fields ensure: vmid must be positive, got " +:+ itoa VMID) in
  guard^ negb (bool_decide (Pairs = []) && bool_decide (Deletes = [])) orelse
    errorf (fields_what +:+ ": at least one field to set or delete is required") in
  match dup_pairs ∅ Pairs with
  | inl f => Er (errorf (fields_what +:+ ": field " +:+ quote f
                         +:+ " specified more than once"))
  | inr seen => check_deletes seen ∅ Deletes
  end.

(** The config and its digest, from one read. *)
Definition readConfig : io clientE (res (gmap string json * string)) :=
  let what := fields_what +:+ ": read config" in
  let? raw := trigger (CRawRequest "GET" (vm_path node VMID "/config") ∅) orelse wrapf what in
  Ret match as_object raw with
      | None => Er (wrapf (what +:+ ": parse") (errorf "json: cannot unmarshal"))
      | Some o =>
          let fields := default ∅ o in
          let digest := match fields !! "digest" with
                        | Some d => as_string d
                        | None => Some ""
                        end in
          match digest with
          | None => Er (wrapf (what +:+ ": parse digest") (errorf "json: cannot unmarshal"))
          | Some digest =>
              guard^ negb (eqb digest "") orelse errorf (what +:+ ": response carries no digest") in
              Ok (fields, digest)
          end
      end.

Fixpoint observe_fields (fields : gmap string json) (cur : gmap string string) (l : list string)
    : res (gmap string string) :=
  match l with
  | [] => Ok cur
  | f :: l' =>
      match fields !! f with
      | None => observe_fields fields cur l'
      | Some raw =>
          let^ s := Scalar raw orelse wrapf (fields_what +:+ ": field " +:+ quote f) in
          observe_fields fields (<[f := s]> cur) l'
      end
  end.
Definition fields_Read (s : fields_state) : io clientE (res snap * fields_state) :=
  let! snapshot := readConfig in
  match snapshot with
  | Er e => Ret (Er e, s)
  | Ok (fields, _) =>
      match observe_fields fields ∅ ((Field <$> Pairs) ++ Deletes) with
      | Er e => Ret (Er e, s)
      | Ok cur => Ret (Ok (SJson (string_map cur)), set_current cur s)
      end
  end.

Definition fields_Satisfied (_ : fields_state) (cur : snap) : bool :=
  match decode_snap cur ≫= as_string_map with
  | None => false
  | Some m =>
      forallb (λ p, match m !! Field p with
                    | Some val => fieldsEqual val (Value p)
                    | None => false
                    end) Pairs
      && forallb (λ f, bool_decide (m !! f = None)) Deletes
  end.

(** One field written: nothing when the value read is already as wanted; over the
    root route for a root-only field; otherwise a CAS write under a digest read
    just before it, with the SSH fallback when PVE refuses it as root-only. *)
Definition set_field (p : Pair) (s : fields_state) : io clientE (res unit * fields_state) :=
  let what := fields_what +:+ ": set field " +:+ quote (Field p) in
  let applied := set_written (appendOnce (Applied s) (Field p)) (Deleted s) s in
  if match current s !! Field p with Some val => fieldsEqual val (Value p) | None => false end
  then Ret (Ok tt, s)
  else if RootOnlyFields (Field p) then
    let! r := trigger (CSetField VMID (Field p) (Value p)) in
    match r with
    | Er e => Ret (Er (wrapf what e), s)
    | Ok _ => Ret (Ok tt, applied)
    end
  else
    let! snapshot := readConfig in
    match snapshot with
    | Er e => Ret (Er (wrapf (fields_what +:+ ": re-read digest before writing field "
                              +:+ quote (Field p)) e), s)
    | Ok (_, digest) =>
        let! r := trigger (CSetFieldCAS VMID (Field p) (Value p) digest) in
        match r with
        | Ok _ => Ret (Ok tt, applied)
        | Er e =>
            if IsDigestConflictError e then
              Ret (Er (wrapf2 (fields_what +:+ ": field " +:+ quote (Field p)) (sent ErrConflict) e), s)
            else if IsRootOnlyWriteError e then
              let! f := trigger (CSetFieldOverSSH VMID (Field p) (Value p)) in
              match f with
              | Er fe => Ret (Er (wrapf (what
                  +:+ ": rejected as root-only by rest, ssh fallback also failed") fe), s)
              | Ok _ => Ret (Ok tt, applied)
              end
            else Ret (Er (wrapf what e), s)
        end
    end.
Definition delete_field (f : string) (s : fields_state) : io clientE (res unit * fields_state) :=
  let what := fields_what +:+ ": delete field " +:+ quote f in
  let deleted := set_written (Applied s) (appendOnce (Deleted s) f) s in
  if bool_decide (current s !! f = None) then Ret (Ok tt, s)
  else if RootOnlyFields f then
    let! r := trigger (CDeleteField VMID f) in
    match r with
    | Er e => Ret (Er (wrapf what e), s)
    | Ok _ => Ret (Ok tt, deleted)
    end
  else
    let! snapshot := readConfig in
    match snapshot with
    | Er e => Ret (Er (wrapf (fields_what +:+ ": re-read digest before deleting field "
                              +:+ quote f) e), s)
    | Ok (fields, digest) =>
        if bool_decide (fields !! f = None) then Ret (Ok tt, s)
        else
          let! r := trigger (CDeleteFieldCAS VMID f digest) in
          match r with
          | Ok _ => Ret (Ok tt, deleted)
          | Er e =>
              if IsDigestConflictError e then Ret (Er (wrapf2 what (sent ErrConflict) e), s)
              else if IsRootOnlyWriteError e then
                let! r := trigger (CDeleteFieldOverSSH VMID f) in
                match r with
                | Er fe => Ret (Er (wrapf (what
                    +:+ ": rejected as root-only by rest, ssh fallback also failed") fe), s)
                | Ok _ => Ret (Ok tt, deleted)
                end
              else Ret (Er (wrapf what e), s)
          end
    end.

(** A loop that stops at the first error. *)
Fixpoint each {A S} (step : A → S → io clientE (res unit * S)) (l : list A) (s : S)
    : io clientE (res unit * S) :=
  match l with
  | [] => Ret (Ok tt, s)
  | a :: l' =>
      let! ' (r, s') := step a s in
      match r with
      | Er e => Ret (Er e, s')
      | Ok _ => each step l' s'
      end
  end.
Definition fields_Apply (s : fields_state) : io clientE (res unit * fields_state) :=
  match fields_Validate with
  | Er e => Ret (Er e, s)
  | Ok _ =>
      let! ' (r, s') := each set_field Pairs s in
      match r with
      | Er e => Ret (Er e, s')
      | Ok _ => each delete_field Deletes s'
      end
  end.

(** *** What the writes left pending *)
Definition requestedFields : list string := Field <$> Pairs.
Definition readChanges (list_ what : string) : io clientE (res (gset string * gset string)) :=
  let? raw := trigger (CRawRequest "GET" (vm_path node VMID ("/" +:+ list_)) ∅)
    orelse wrapf (fields_what +:+ ": " +:+ what) in
  Ret (let^ r := decodeChanges raw list_ orelse wrapf (fields_what +:+ ": " +:+ what) in Ok r).
Definition checkCloudInit (writes deletes pendingWrites pendingDeletes : list string)
    : io clientE (list string * list string * option err) :=
  let ciWrites := filter (λ f, isCloudInitKey f = true ∧ f ∉ pendingWrites) writes in
  let ciDeletes := filter (λ f, isCloudInitKey f = true ∧ f ∉ pendingDeletes) deletes in
  if bool_decide (ciWrites = []) && bool_decide (ciDeletes = []) then Ret ([], [], None)
  else
    let! r := readChanges "cloudinit" "read the cloud-init drive's state" in
    match r with
    | Er e => Ret ([], [], Some (CloudInitCheckError e))
    | Ok (onDrive, onDriveDel) => Ret (pick ciWrites onDrive, pick ciDeletes onDriveDel, None)
    end.

Definition fields_PostApply (s : fields_state) : io clientE (option err * fields_state) :=
  let s0 := resetFindings s in
  if negb (Wrote s0) then Ret (None, s0)
  else
    let! r := readChanges "pending" "read pending changes" in
    match r with
    | Er e => Ret (Some e, s0)
    | Ok (pending, deleting) =>
        let p := pick (Applied s0) pending in
        let pd := pick (Deleted s0) deleting in
        let ap := pick (without requestedFields (Applied s0)) pending in
        let apd := pick (without Deletes (Deleted s0)) deleting in
        let! ' (cs, csd, e) := checkCloudInit (Applied s0) (Deleted s0) p pd in
        Ret (e, set_findings p pd cs csd ap apd [] [] s0)
    end.
Definition fields_PostNoop (s : fields_state) : io clientE (option err * fields_state) :=
  if Wrote s then fields_PostApply s
  else
    let s0 := resetFindings s in
    if bool_decide (requestedFields = []) && bool_decide (Deletes = []) then Ret (None, s0)
    else
      let! r := readChanges "pending" "read pending changes" in
      match r with
      | Er e => Ret (Some e, s0)
      | Ok (pending, deleting) =>
          let ap := pick requestedFields pending in
          let apd := pick Deletes deleting in
          let! ' (acs, acsd, e) := checkCloudInit requestedFields Deletes ap apd in
          Ret (e, set_findings [] [] [] [] ap apd acs acsd s0)
      end.

Definition VMFieldsEnsure : Op fields_state :=
  {| Read := fields_Read; Satisfied := fields_Satisfied; Apply := fields_Apply; ReRead := None;
     PostApply := Some fields_PostApply; PostNoop := Some fields_PostNoop |}.
End VMFieldsEnsure.

(** ** vmconverge.go *)
Definition BuildFieldsEnsure (node : string) (vmid : Z) (desired : gmap string string)
    : res (Op fields_state) :=
  let pairs := (λ k, {| Field := k; Value := default "" (desired !! k) |}) <$> sorted_keys desired in
  match fields_Validate vmid pairs [] with
  | Er e => Er e
  | Ok _ => Ok (VMFieldsEnsure node vmid pairs [])
  end.

(** ** vmconfig.go *)
(** A VM answered as nil is dereferenced, which panics: no result. *)
Definition requireVMConfig {A} (vm : option VirtualMachine) (vmid : Z) (opName : string)
    (k : res VMConfig → io clientE A) : io clientE A :=
  match vm with
  | None => Stuck
  | Some vm =>
      k match vm_config vm with
        | Some cfg => Ok cfg
        | None => Er (errorf (opName +:+ ": vm " +:+ itoa vmid
                              +:+ ": no config returned (vm may not exist)"))
        end
  end.

(** ** vmtag.go *)
Definition tagSeparator : string := ";".
Definition splitTags (s : string) : list string := if eqb s "" then [] else Split tag_sep s.
Record tag_state := { tags : list string; digest : string }.
Definition tag_init : tag_state := {| tags := []; digest := "" |}.

Section VMTagEnsure.
Context (node : string) (VMID : Z) (Tag : string).

Definition tag_what : string := "vm tag ensure: vm " +:+ itoa VMID.
Definition tag_Validate : res unit :=
  guard^ negb (eqb Tag "") orelse errorf (tag_what +:+ ": tag is empty") in
  guard^ negb (contains tagSeparator Tag) orelse
    errorf (tag_what +:+ ": tag " +:+ quote Tag +:+ " contains the tag separator "
            +:+ quote tagSeparator) in
  Ok tt.
Definition tag_Read (s : tag_state) : io clientE (res snap * tag_state) :=
  let! vm := trigger (CGetVM node VMID) in
  match vm with
  | Er e => Ret (Er (wrapf ("vm tag ensure: read vm " +:+ itoa VMID) e), s)
  | Ok vm =>
      requireVMConfig vm VMID "vm tag ensure" (λ cfg,
        match cfg with
        | Er e => Ret (Er e, s)
        | Ok cfg => Ret (Ok (SText (vc_tags cfg)),
                         {| tags := splitTags (vc_tags cfg); digest := vc_digest cfg |})
        end)
  end.
Definition tag_Satisfied (_ : tag_state) (cur : snap) : bool :=
  match cur with SText t => bool_decide (Tag ∈ splitTags t) | _ => false end.
Definition new_tags (s : tag_state) : string := Join tagSeparator (tags s ++ [Tag]).
Definition tag_Apply (s : tag_state) : io clientE (res unit * tag_state) :=
  match tag_Validate with
  | Er e => Ret (Er e, s)
  | Ok _ =>
      let! r := trigger (CSetFieldCAS VMID "tags" (new_tags s) (digest s)) in
      Ret (match r with
           | Ok _ => Ok tt
           | Er e => if IsDigestConflictError e then Er (wrapf2 tag_what (sent ErrConflict) e)
                     else Er (wrapf tag_what e)
           end, s)
  end.
Definition VMTagEnsure : Op tag_state :=
  {| Read := tag_Read; Satisfied := tag_Satisfied; Apply := tag_Apply; ReRead := None;
     PostApply := None; PostNoop := None |}.
End VMTagEnsure.

(** * Lemmas *)
(** ** The discipline of the writes *)
Section discipline.
Context (node : string) (VMID : Z).

Definition config_read (raw : json) : event clientE :=
  Ev (CRawRequest "GET" (vm_path node VMID "/config") ∅) (Ok raw).
(** The config [raw] carries the digest [d]. *)
Definition carries_digest (raw : json) (d : string) : Prop :=
  d ≠ "" ∧ ∃ o, as_object raw = Some o ∧ (default ∅ o) !! "digest" ≫= as_string = Some d.
Definition carries_field (raw : json) (f : string) : Prop :=
  ∃ o, as_object raw = Some o ∧ is_Some ((default ∅ o) !! f).

(** May [ev] follow [prev]? A CAS write follows the read its digest came from and
    never concerns a root-only field; an SSH write follows the CAS write of the
    same value that PVE refused as root-only. *)
Definition allowed (prev : option (event clientE)) (ev : event clientE) : Prop :=
  match ev with
  | @Ev _ _ (CRawRequest m _ _) _ => m = "GET"
  | @Ev _ _ (CSetField v f _) _ => v = VMID ∧ RootOnlyFields f = true
  | @Ev _ _ (CDeleteField v f) _ => v = VMID ∧ RootOnlyFields f = true
  | @Ev _ _ (CSetFieldCAS v f _ d) _ => v = VMID ∧ RootOnlyFields f = false ∧
      ∃ raw, prev = Some (config_read raw) ∧ carries_digest raw d
  | @Ev _ _ (CDeleteFieldCAS v f d) _ => v = VMID ∧ RootOnlyFields f = false ∧
      ∃ raw, prev = Some (config_read raw) ∧ carries_digest raw d ∧ carries_field raw f
  | @Ev _ _ (CSetFieldOverSSH v f x) _ => v = VMID ∧
      ∃ d e, prev = Some (Ev (CSetFieldCAS v f x d) (Er e)) ∧
        IsDigestConflictError e = false ∧ IsRootOnlyWriteError e = true
  | @Ev _ _ (CDeleteFieldOverSSH v f) _ => v = VMID ∧
      ∃ d e, prev = Some (Ev (CDeleteFieldCAS v f d) (Er e)) ∧
        IsDigestConflictError e = false ∧ IsRootOnlyWriteError e = true
  | _ => False
  end.
Fixpoint disciplined (prev : option (event clientE)) (tr : list (event clientE)) : Prop :=
  match tr with
  | [] => True
  | ev :: tr' => allowed prev ev ∧ disciplined (Some ev) tr'
  end.
Lemma allowed_None prev ev : allowed None ev → allowed prev ev.
Proof. destruct ev as [R e r]; destruct e; simpl; naive_solver. Qed.
Lemma disciplined_None prev tr : disciplined None tr → disciplined prev tr.
Proof. destruct tr as [|ev tr]; simpl; [done|]. intros [? ?]. eauto using allowed_None. Qed.
Lemma disciplined_app prev tr tr' :
  disciplined prev tr → disciplined None tr' → disciplined prev (tr ++ tr').
Proof.
  revert prev. induction tr as [|ev tr IH]; intros prev; simpl; [eauto using disciplined_None|].
  intros [? ?] ?. eauto.
Qed.

(** A successful write of the field's value, by whatever route. *)
Definition wrote (f x : string) (tr : list (event clientE)) : Prop :=
  Ev (CSetField VMID f x) (Ok tt) ∈ tr ∨ (∃ d, Ev (CSetFieldCAS VMID f x d) (Ok tt) ∈ tr) ∨
  Ev (CSetFieldOverSSH VMID f x) (Ok tt) ∈ tr.
Definition erased (f : string) (tr : list (event clientE)) : Prop :=
  Ev (CDeleteField VMID f) (Ok tt) ∈ tr ∨ (∃ d, Ev (CDeleteFieldCAS VMID f d) (Ok tt) ∈ tr) ∨
  Ev (CDeleteFieldOverSSH VMID f) (Ok tt) ∈ tr.
Lemma wrote_app f x tr tr' : wrote f x (tr ++ tr') ↔ wrote f x tr ∨ wrote f x tr'.
Proof. unfold wrote. setoid_rewrite elem_of_app. naive_solver. Qed.
Lemma erased_app f tr tr' : erased f (tr ++ tr') ↔ erased f tr ∨ erased f tr'.
Proof. unfold erased. setoid_rewrite elem_of_app. naive_solver. Qed.

Lemma readConfig_spec :
  always (readConfig node VMID) (λ tr r,
    ∃ a, tr = [Ev (CRawRequest "GET" (vm_path node VMID "/config") ∅) a] ∧
      ∀ fields d, r = Ok (fields, d) → ∃ raw o, a = Ok raw ∧ as_object raw = Some o ∧
        fields = default ∅ o ∧ carries_digest raw d).
Proof.
  unfold readConfig. cbn [bind trigger always]. intros [raw|e]; cbn [bind always];
    (eexists; split; [done|]); [|done].
  intros fields d Hr. exists raw. destruct (as_object raw) as [o|] eqn:Ho; [|done].
  exists o. destruct (default ∅ o !! "digest") as [dj|] eqn:Hd; [|done].
  destruct (as_string dj) as [d'|] eqn:Hs; [|done].
  destruct (eqb d' "") eqn:He; [done|]. injection Hr as <- <-.
  split_and!; [done|done|done|]. split; [by intros ->|]. exists o. by rewrite Hd.
Qed.
#[local] Hint Resolve readConfig_spec : io.

Definition same_but_written (s s' : fields_state) : Prop := current s' = current s.
Definition as_wanted (s : fields_state) (p : Pair) : bool :=
  match current s !! Field p with Some val => fieldsEqual val (Value p) | None => false end.

(** One step of the writes. *)
Lemma set_field_spec p s :
  always (set_field node VMID p s) (λ tr rs,
    disciplined None tr ∧ current rs.2 = current s ∧ Deleted rs.2 = Deleted s ∧
    match rs.1 with
    | Ok _ => as_wanted s p = true ∧ tr = [] ∧ rs.2 = s ∨
              wrote (Field p) (Value p) tr ∧ Applied rs.2 = appendOnce (Applied s) (Field p)
    | Er _ => rs.2 = s
    end).
Proof.
  unfold set_field. fold (as_wanted s p).
  destruct (as_wanted s p) eqn:Hw; [simpl; auto 10|].
  destruct (RootOnlyFields (Field p)) eqn:Hroot.
  { cbn [bind trigger always]. intros [[]|e]; simpl; split_and!; auto.
    right. split; [left; by left|done]. }
  eapply always_call; [apply readConfig_spec|]. intros tr r (a & -> & Hr).
  destruct r as [[fields d]|e]; [|by simpl]. destruct (Hr fields d eq_refl) as (raw & o & -> & Ho & -> & Hd).
  assert (∀ a, allowed (Some (config_read raw)) (Ev (CSetFieldCAS VMID (Field p) (Value p) d) a)) as Ha.
  { intros a. simpl. eauto 10. }
  cbn [bind trigger always]. intros [[]|e].
  { cbn [always fst snd app disciplined]. split_and!; [done|apply Ha|done..|done|].
    right. split; [right; left; exists d; set_solver|done]. }
  destruct (IsDigestConflictError e) eqn:Hc.
  { cbn [always fst snd app disciplined]. split_and!; [done|apply Ha|done..]. }
  destruct (IsRootOnlyWriteError e) eqn:Hro.
  2: { cbn [always fst snd app disciplined]. split_and!; [done|apply Ha|done..]. }
  cbn [bind trigger always]. intros [[]|fe]; cbn [always fst snd app disciplined];
    (split_and!; [done|apply Ha|simpl; eauto 10|done..]) || idtac.
  split_and!; [done|apply Ha|simpl; eauto 10|done..|]. right. split; [right; right; set_solver|done].
Qed.

Lemma delete_field_spec f s :
  always (delete_field node VMID f s) (λ tr rs,
    disciplined None tr ∧ current rs.2 = current s ∧ Applied rs.2 = Applied s ∧
    match rs.1 with
    | Ok _ => (current s !! f = None ∨ ∃ raw, config_read raw ∈ tr ∧ ¬ carries_field raw f) ∧ rs.2 = s ∨
              erased f tr ∧ Deleted rs.2 = appendOnce (Deleted s) f
    | Er _ => rs.2 = s
    end).
Proof.
  unfold delete_field. case_bool_decide as Hw; [simpl; auto 10|].
  destruct (RootOnlyFields f) eqn:Hroot.
  { cbn [bind trigger always]. intros [[]|e]; simpl; split_and!; auto.
    right. split; [left; by left|done]. }
  eapply always_call; [apply readConfig_spec|]. intros tr r (a & -> & Hr).
  destruct r as [[fields d]|e]; [|by simpl]. destruct (Hr fields d eq_refl) as (raw & o & -> & Ho & -> & Hd).
  case_bool_decide as Hf.
  { cbn [always fst snd app disciplined]. split_and!; [done..|]. left. split; [|done]. right.
    exists raw. split; [by left|]. intros (o' & Ho' & Hs). rewrite Ho in Ho'. injection Ho' as <-.
    rewrite Hf in Hs. by destruct Hs. }
  assert (∀ a, allowed (Some (config_read raw)) (Ev (CDeleteFieldCAS VMID f d) a)) as Ha.
  { intros a. simpl. split_and!; [done|done|]. exists raw. split_and!; [done|done|].
    exists o. split; [done|]. by apply not_eq_None_Some. }
  cbn [bind trigger always]. intros [[]|e].
  { cbn [always fst snd app disciplined]. split_and!; [done|apply Ha|done..|done|].
    right. split; [right; left; exists d; set_solver|done]. }
  destruct (IsDigestConflictError e) eqn:Hc.
  { cbn [always fst snd app disciplined]. split_and!; [done|apply Ha|done..]. }
  destruct (IsRootOnlyWriteError e) eqn:Hro.
  2: { cbn [always fst snd app disciplined]. split_and!; [done|apply Ha|done..]. }
  cbn [bind trigger always]. intros [[]|fe]; cbn [always fst snd app disciplined];
    (split_and!; [done|apply Ha|simpl; eauto 10|done..]) || idtac.
  split_and!; [done|apply Ha|simpl; eauto 10|done..|]. right. split; [right; right; set_solver|done].
Qed.

(** The loops. *)
Lemma appendOnce_elem l x y : y ∈ appendOnce l x ↔ y ∈ l ∨ y = x.
Proof. unfold appendOnce. case_bool_decide; set_solver. Qed.
Lemma each_set_spec ps s :
  always (each (set_field node VMID) ps s) (λ tr rs,
    disciplined None tr ∧ current rs.2 = current s ∧ Deleted rs.2 = Deleted s ∧
    (∀ f, f ∈ Applied s → f ∈ Applied rs.2) ∧
    (∀ f, f ∈ Applied rs.2 → f ∈ Applied s ∨ ∃ p, p ∈ ps ∧ Field p = f ∧ wrote f (Value p) tr) ∧
    (rs.1 = Ok tt → ∀ p, p ∈ ps → as_wanted s p = true ∨
       wrote (Field p) (Value p) tr ∧ Field p ∈ Applied rs.2)).
Proof.
  revert s. induction ps as [|p ps IH]; intros s; cbn [each].
  { cbn [always fst snd]. split_and!; [done..|auto|auto|set_solver]. }
  eapply always_call; [apply set_field_spec|]. intros tr [r s1] (Hd & Hc & Hdel & Hr).
  cbn [fst snd] in *. destruct r as [[]|e].
  2: { cbn [always fst snd]. rewrite app_nil_r. subst s1. split_and!; [done..|auto|auto|done]. }
  assert ((∀ f, f ∈ Applied s → f ∈ Applied s1) ∧
    (∀ f, f ∈ Applied s1 → f ∈ Applied s ∨ f = Field p ∧ wrote f (Value p) tr) ∧
    (as_wanted s p = true ∨ wrote (Field p) (Value p) tr ∧ Field p ∈ Applied s1)) as (H1 & H2 & H3).
  { destruct Hr as [(? & -> & ->)|[Hw Ha]]; [auto|]. rewrite Ha. setoid_rewrite appendOnce_elem.
    split_and!; [auto| |auto]. intros f [?| ->]; auto. }
  eapply always_mono; [|apply IH]. intros tr' [r' s2] (Hd' & Hc' & Hdel' & Hm & Hs & Hok).
  cbn [fst snd] in *. split_and!.
  - by apply disciplined_app.
  - congruence.
  - congruence.
  - auto.
  - intros f Hf. destruct (Hs f Hf) as [Hf1|(q & ? & ? & ?)].
    + destruct (H2 f Hf1) as [?|[-> ?]]; [by left|right]. exists p. rewrite wrote_app. set_solver.
    + right. exists q. rewrite wrote_app. set_solver.
  - intros Hr' q [->|Hq]%elem_of_cons.
    + destruct H3 as [?|[? ?]]; [by left|right]. rewrite wrote_app. auto.
    + destruct (Hok Hr' q Hq) as [Hw|[? ?]]; [left|right; rewrite wrote_app; auto].
      unfold as_wanted in *. by rewrite Hc in Hw.
Qed.
Lemma each_delete_spec fs s :
  always (each (delete_field node VMID) fs s) (λ tr rs,
    disciplined None tr ∧ current rs.2 = current s ∧ Applied rs.2 = Applied s ∧
    (∀ f, f ∈ Deleted rs.2 → f ∈ Deleted s ∨ f ∈ fs ∧ erased f tr) ∧
    (rs.1 = Ok tt → ∀ f, f ∈ fs → current s !! f = None ∨
       (∃ raw, config_read raw ∈ tr ∧ ¬ carries_field raw f) ∨ erased f tr)).
Proof.
  revert s. induction fs as [|f fs IH]; intros s; cbn [each].
  { cbn [always fst snd]. split_and!; [done..|auto|set_solver]. }
  eapply always_call; [apply delete_field_spec|]. intros tr [r s1] (Hd & Hc & Happ & Hr).
  cbn [fst snd] in *. destruct r as [[]|e].
  2: { cbn [always fst snd]. rewrite app_nil_r. subst s1. split_and!; [done..|auto|done]. }
  assert ((∀ g, g ∈ Deleted s1 → g ∈ Deleted s ∨ g = f ∧ erased g tr) ∧
    (current s !! f = None ∨ (∃ raw, config_read raw ∈ tr ∧ ¬ carries_field raw f) ∨ erased f tr))
    as (H2 & H3).
  { destruct Hr as [([?|?] & ->)|[Hw Ha]]; [auto|auto|]. rewrite Ha. setoid_rewrite appendOnce_elem.
    split; [|auto]. intros g [?| ->]; auto. }
  eapply always_mono; [|apply IH]. intros tr' [r' s2] (Hd' & Hc' & Happ' & Hs & Hok).
  cbn [fst snd] in *. split_and!.
  - by apply disciplined_app.
  - congruence.
  - congruence.
  - intros g Hg. destruct (Hs g Hg) as [Hg1|(? & ?)].
    + destruct (H2 g Hg1) as [?|[-> ?]]; [by left|right]. rewrite erased_app. set_solver.
    + right. rewrite erased_app. set_solver.
  - intros Hr' g [->|Hg]%elem_of_cons.
    + destruct H3 as [?|[(raw & ? & ?)|?]]; [by left|right; left|right; right; rewrite erased_app; auto].
      exists raw. rewrite elem_of_app. auto.
    + destruct (Hok Hr' g Hg) as [Hw|[(raw & ? & ?)|?]];
        [left; congruence|right; left|right; right; rewrite erased_app; auto].
      exists raw. rewrite elem_of_app. auto.
Qed.

(** [disciplined] says what precedes each call of a trace. *)
Lemma disciplined_before prev tr1 ev tr2 :
  disciplined prev (tr1 ++ ev :: tr2) → allowed (match last tr1 with Some p => Some p | None => prev end) ev.
Proof.
  revert prev. induction tr1 as [|x tr1 IH]; intros prev; simpl; [naive_solver|].
  intros [_ H]. apply IH in H. destruct tr1 as [|y tr1]; [done|]. simpl in *.
  destruct (last (y :: tr1)) eqn:Hl; [done|]. by apply last_None in Hl.
Qed.
End discipline.

(** ** What Read reports *)
Lemma string_map_keys (m : gmap string string) :
  ((λ k, (k, JStr (default "" (m !! k)))) <$> sorted_keys m).*1 = sorted_keys m.
Proof. rewrite <- list_fmap_compose. apply list_fmap_id. Qed.
Lemma as_string_map_string_map m : as_string_map (string_map m) = Some m.
Proof.
  unfold string_map. set (l := (λ k, (k, JStr (default "" (m !! k)))) <$> sorted_keys m).
  assert (forallb (λ kv : string * json, bool_decide (is_Some (as_string kv.2))) l = true) as Hall.
  { apply forallb_forall. intros kv Hkv. rewrite <- list_elem_of_In in Hkv.
    apply list_elem_of_fmap in Hkv as (k & -> & _). done. }
  cbn [as_string_map]. rewrite Hall. f_equal. apply map_eq. intros k. rewrite lookup_omap.
  assert (NoDup l.*1) as Hnd by (subst l; rewrite string_map_keys; apply sorted_keys_NoDup).
  destruct (m !! k) as [v|] eqn:Hk.
  - rewrite (fields_of_lookup l k (JStr v)); [done|done|].
    apply list_elem_of_fmap. exists k. rewrite Hk, sorted_keys_elem, Hk. eauto.
  - destruct (fields_of l !! k) as [v|] eqn:Hf; [|done]. exfalso.
    unfold fields_of in Hf. apply elem_of_list_to_map_2 in Hf. rewrite elem_of_reverse in Hf.
    apply list_elem_of_fmap in Hf as (k' & [= -> _] & Hin).
    apply sorted_keys_elem in Hin as [? Hin]. congruence.
Qed.

Lemma observe_fields_spec VMID fields cur l cur' :
  observe_fields VMID fields cur l = Ok cur' →
  (∀ f, f ∈ l → cur' !! f = match fields !! f with
                            | Some raw => match Scalar raw with Ok s => Some s | Er _ => None end
                            | None => cur !! f
                            end) ∧
  (∀ f, f ∉ l → cur' !! f = cur !! f).
Proof.
  revert cur. induction l as [|g l IH]; intros cur; simpl; [intros [= <-]; split; [set_solver|done]|].
  destruct (fields !! g) as [raw|] eqn:Hg.
  - destruct (Scalar raw) as [s|] eqn:Hs; [|done]. intros H. destruct (IH _ H) as [H1 H2]. split.
    + intros f [->|Hf]%elem_of_cons.
      * destruct (decide (g ∈ l)); [rewrite H1 by done; by rewrite Hg, Hs|].
        rewrite H2, Hg, Hs by done. apply lookup_insert_eq.
      * rewrite H1 by done. destruct (fields !! f) eqn:Hff; [done|].
        apply lookup_insert_ne. congruence.
    + intros f Hf. rewrite H2 by set_solver. apply lookup_insert_ne. set_solver.
  - intros H. destruct (IH _ H) as [H1 H2]. split.
    + intros f [->|Hf]%elem_of_cons; [|by apply H1].
      destruct (decide (g ∈ l)); [by rewrite H1|]. rewrite H2, Hg by done. done.
    + intros f Hf. apply H2. set_solver.
Qed.
Definition holds_value (fields : gmap string json) (p : Pair) : Prop :=
  ∃ raw s, fields !! Field p = Some raw ∧ Scalar raw = Ok s ∧ fieldsEqual s (Value p) = true.
Lemma satisfied_observed VMID Pairs Deletes s fields cur :
  observe_fields VMID fields ∅ ((Field <$> Pairs) ++ Deletes) = Ok cur →
  fields_Satisfied Pairs Deletes s (SJson (string_map cur)) = true ↔
  (∀ p, p ∈ Pairs → holds_value fields p) ∧ (∀ f, f ∈ Deletes → fields !! f = None).
Proof.
  intros Hobs. unfold fields_Satisfied. cbn [decode_snap mbind option_bind].
  rewrite as_string_map_string_map, andb_true_iff, !forallb_forall.
  setoid_rewrite <- list_elem_of_In.
  apply observe_fields_spec in Hobs as [H1 _].
  assert (∀ raw : json, ∃ x, Scalar raw = Ok x) as Htot by (intros []; simpl; eauto).
  assert (∀ f, f ∈ (Field <$> Pairs) ++ Deletes → cur !! f = None ↔ fields !! f = None) as Hnone.
  { intros f Hf. rewrite H1 by done. destruct (fields !! f) as [raw|]; [|done].
    destruct (Htot raw) as [x ->]. done. }
  f_equiv.
  - split; intros H p Hp; specialize (H p Hp); rewrite H1 in *;
      try (apply elem_of_app; left; apply list_elem_of_fmap; eauto).
    + unfold holds_value. destruct (fields !! Field p) as [raw|]; [|done].
      destruct (Htot raw) as [x Hx]. rewrite Hx in H. eauto.
    + destruct H as (raw & x & -> & -> & ?). done.
  - split; intros H f Hf; specialize (H f Hf).
    + apply bool_decide_eq_true in H. apply Hnone; [|done]. set_solver.
    + apply bool_decide_eq_true. apply Hnone; [|done]. set_solver.
Qed.

Lemma readConfig_quiet node VMID : always (readConfig node VMID) (λ tr _, changes tr = []).
Proof. unfold readConfig. cbn [bind trigger always]. by intros [raw|e]. Qed.
Lemma readChanges_quiet node VMID l w :
  always (readChanges node VMID l w) (λ tr _, changes tr = []).
Proof. unfold readChanges. cbn [bind trigger always]. by intros [raw|e]. Qed.
Lemma checkCloudInit_quiet node VMID w d pw pd :
  always (checkCloudInit node VMID w d pw pd) (λ tr _, changes tr = []).
Proof.
  unfold checkCloudInit. destruct (_ && _)%bool; [done|].
  eapply always_call; [apply readChanges_quiet|]. intros tr [[a b]|e] Hq; cbn [always];
    by rewrite app_nil_r.
Qed.
Lemma fields_PostApply_quiet node VMID Pairs Deletes s :
  always (fields_PostApply node VMID Pairs Deletes s) (λ tr _, changes tr = []).
Proof.
  unfold fields_PostApply. destruct (negb _); [done|].
  eapply always_call; [apply readChanges_quiet|]. intros tr [[p d]|e] Hq;
    [|by cbn [always]; rewrite app_nil_r].
  eapply always_call; [apply checkCloudInit_quiet|]. intros tr' [[cs csd] e] Hq'. cbn [always].
  by rewrite app_nil_r, changes_app, Hq, Hq'.
Qed.
#[export] Instance VMFieldsEnsure_quiet node VMID Pairs Deletes :
  QuietReads (VMFieldsEnsure node VMID Pairs Deletes).
Proof.
  split; cbn [Read ReRead PostApply PostNoop VMFieldsEnsure].
  - intros s. unfold fields_Read. eapply always_call; [apply readConfig_quiet|].
    intros tr [[f d]|e] Hq; [destruct (observe_fields _ _ _ _)|]; cbn [always]; by rewrite app_nil_r.
  - done.
  - intros f s [= <-]. apply fields_PostApply_quiet.
  - intros f s [= <-]. unfold fields_PostNoop. destruct (Wrote s); [apply fields_PostApply_quiet|].
    destruct (_ && _)%bool; [done|].
    eapply always_call; [apply readChanges_quiet|]. intros tr [[p d]|e] Hq;
      [|by cbn [always]; rewrite app_nil_r].
    eapply always_call; [apply checkCloudInit_quiet|]. intros tr' [[cs csd] e] Hq'. cbn [always].
    by rewrite app_nil_r, changes_app, Hq, Hq'.
Qed.

(** ** Tags *)
Lemma any_byte_contains c s : any_byte (is_byte (Ascii.N_of_ascii c)) s = contains (String c "") s.
Proof.
  induction s as [|d s IH]; simpl; [done|]. unfold has_prefix. simpl.
  rewrite <- IH. unfold is_byte, byte. rewrite Ascii.ascii_N_embedding.
  case_bool_decide; subst; simpl; [by rewrite bool_decide_true|]. by rewrite bool_decide_false.
Qed.
#[export] Instance VMTagEnsure_quiet node VMID Tag : QuietReads (VMTagEnsure node VMID Tag).
Proof.
  split; cbn [Read ReRead PostApply PostNoop VMTagEnsure]; [|done..].
  intros s. unfold tag_Read. cbn [bind trigger always]. intros [[vm|]|e]; [|done..].
  cbn [requireVMConfig]. by destruct (vm_config vm).
Qed.

(** * Properties *)

(** C34: no lost update. In [VMFieldsEnsure]'s Apply, every compare-and-swap write is
    made under the digest of the config read immediately before it, a deletion only
    of a field that read shows; root-only fields never go through the CAS route and
    only they take the unconditional one; and the SSH route is taken only right
    after PVE refused that very CAS write as root-only. Nothing else is written. *)
Theorem VMFieldsEnsure_cas node VMID Pairs Deletes s :
  always (fields_Apply node VMID Pairs Deletes s) (λ tr _,
    ∀ tr1 ev tr2, tr = tr1 ++ ev :: tr2 → allowed node VMID (last tr1) ev).
Proof.
  eapply always_mono with (Q := λ tr _, disciplined node VMID None tr).
  - intros tr _ Hd tr1 ev tr2 ->. apply disciplined_before in Hd. by destruct (last tr1).
  - unfold fields_Apply. destruct (fields_Validate VMID Pairs Deletes); [|done].
    eapply always_call; [apply each_set_spec|]. intros tr [r s1] (Hd & _).
    destruct r; cbn [fst snd always]; [|by rewrite app_nil_r].
    eapply always_mono; [|apply each_delete_spec]. intros tr' rs (Hd' & _).
    by apply disciplined_app.
Qed.

(** A successful Apply leaves nothing undone: every requested field was already
    as wanted when read or was successfully written with its value, every field to
    delete was absent when read, seen absent since, or successfully deleted; and
    what the Op reports as applied or deleted was written in this Apply or before. *)
Theorem VMFieldsEnsure_complete node VMID Pairs Deletes s :
  always (fields_Apply node VMID Pairs Deletes s) (λ tr rs,
    (rs.1 = Ok tt →
       (∀ p, p ∈ Pairs → as_wanted s p = true ∨ wrote VMID (Field p) (Value p) tr) ∧
       (∀ f, f ∈ Deletes → current s !! f = None ∨
          (∃ raw, config_read node VMID raw ∈ tr ∧ ¬ carries_field raw f) ∨ erased VMID f tr)) ∧
    (∀ f, f ∈ Applied rs.2 → f ∈ Applied s ∨
       ∃ p, p ∈ Pairs ∧ Field p = f ∧ wrote VMID f (Value p) tr) ∧
    (∀ f, f ∈ Deleted rs.2 → f ∈ Deleted s ∨ f ∈ Deletes ∧ erased VMID f tr)).
Proof.
  unfold fields_Apply. destruct (fields_Validate VMID Pairs Deletes); [|simpl; naive_solver].
  eapply always_call; [apply each_set_spec|]. intros tr [r s1] (_ & Hc & Hdel & _ & Happ & Hok).
  cbn [fst snd] in *. destruct r as [[]|e]; cbn [always fst snd].
  2: { rewrite app_nil_r, Hdel. split_and!; [done|done|auto]. }
  eapply always_mono; [|apply each_delete_spec]. intros tr' [r' s2] (_ & _ & Happ' & Hdel' & Hok').
  cbn [fst snd] in *. split_and!.
  - intros Hr. split.
    + intros p Hp. destruct (Hok eq_refl p Hp) as [?|[? _]]; [by left|right]. rewrite wrote_app. auto.
    + intros f Hf. rewrite <- Hc. destruct (Hok' Hr f Hf) as [?|[(raw & ? & ?)|?]];
        [auto|right; left; exists raw; rewrite elem_of_app; auto|right; right; rewrite erased_app; auto].
  - intros f Hf. rewrite Happ' in Hf. destruct (Happ f Hf) as [?|(p & ? & ? & ?)]; [by left|right].
    exists p. rewrite wrote_app. auto.
  - intros f Hf. destruct (Hdel' f Hf) as [Hf1|[? ?]]; [left; congruence|right].
    rewrite erased_app. auto.
Qed.

(** [VMFieldsEnsure] is a no-op exactly when the config it read already carries
    every requested field with a value equal to the wanted one (booleans compared as
    booleans) and none of the fields to delete. *)
Theorem VMFieldsEnsure_satisfied node VMID Pairs Deletes s :
  always (fields_Read node VMID Pairs Deletes s) (λ tr rs, ∀ cur, rs.1 = Ok cur →
    ∃ raw o, tr = [config_read node VMID raw] ∧ as_object raw = Some o ∧
      (fields_Satisfied Pairs Deletes rs.2 cur = true ↔
       (∀ p, p ∈ Pairs → holds_value (default ∅ o) p) ∧
       (∀ f, f ∈ Deletes → default ∅ o !! f = None))).
Proof.
  unfold fields_Read. eapply always_call; [apply readConfig_spec|].
  intros tr [[fields d]|e] (a & -> & Hr); [|done].
  destruct (Hr fields d eq_refl) as (raw & o & -> & Ho & -> & _).
  destruct (observe_fields VMID _ ∅ _) as [cur|e] eqn:Hobs; [|done].
  cbn [always fst snd]. intros c [= <-]. exists raw, o. split_and!; [done|done|].
  by apply (satisfied_observed VMID).
Qed.

(** [VMTagEnsure] converges and loses nothing. The tags it writes split back
    into the ones it read, in order, followed by the wanted tag, so a re-read of them
    satisfies the Op; the write is one compare-and-swap under the digest of that
    same read, and a tag that is empty or holds the separator is never written. *)
Theorem VMTagEnsure_converges node VMID Tag s0 s :
  (∃ vm cfg, vm_config vm = Some cfg ∧
     tags s = splitTags (vc_tags cfg) ∧ digest s = vc_digest cfg ∧
     exec (tag_Read node VMID s0) [Ev (CGetVM node VMID) (Ok (Some vm))] (Ok (SText (vc_tags cfg)), s)) →
  always (tag_Apply VMID Tag s) (λ tr _,
    tr ≠ [] → splitTags (new_tags Tag s) = tags s ++ [Tag] ∧
      tag_Satisfied Tag s (SText (new_tags Tag s)) = true ∧
      ∃ a, tr = [Ev (CSetFieldCAS VMID "tags" (new_tags Tag s) (digest s)) a]).
Proof.
  intros (vm & cfg & _ & Ht & _). unfold tag_Apply.
  destruct (tag_Validate VMID Tag) as [[]|e] eqn:Hv; [|done].
  cbn [bind trigger always]. intros a _.
  assert (splitTags (new_tags Tag s) = tags s ++ [Tag]) as Hsplit.
  { unfold tag_Validate in Hv. destruct (eqb Tag "") eqn:He; [done|].
    destruct (contains tagSeparator Tag) eqn:Hc; [done|]. unfold splitTags, new_tags.
    change tagSeparator with (String tag_sep "") in *. rewrite <- any_byte_contains in Hc.
    assert (Split tag_sep (Join (String tag_sep "") (tags s ++ [Tag])) = tags s ++ [Tag]) as Hsj.
    { apply Split_Join; [by destruct (tags s)|]. apply Forall_app. split; [|by constructor].
      rewrite Ht. unfold splitTags. destruct (eqb (vc_tags cfg) ""); [constructor|apply Split_parts]. }
    destruct (eqb (Join _ _) "") eqn:Hj; [|done]. apply eqb_true in Hj. rewrite Hj in Hsj.
    destruct (tags s) as [|t [|]]; simplify_eq/=. }
  split; [done|]. split; [|by exists a].
  simpl. apply bool_decide_eq_true. rewrite Hsplit. set_solver.
Qed.
Lemma VMTagEnsure_converges_witness :
  let s := {| tags := ["a"; "b"]; digest := "d0" |} in
  always (tag_Apply 100 "c" s) (λ tr _,
    tr ≠ [] → splitTags (new_tags "c" s) = ["a"; "b"; "c"] ∧
      tag_Satisfied "c" s (SText (new_tags "c" s)) = true ∧
      ∃ a, tr = [Ev (CSetFieldCAS 100 "tags" (new_tags "c" s) "d0") a]).
Proof.
  apply (VMTagEnsure_converges "pve1" 100 "c" tag_init {| tags := ["a"; "b"]; digest := "d0" |}).
  exists {| vm_status := "running"; vm_qmpstatus := "";
            vm_config := Some {| vc_digest := "d0"; vc_tags := "a;b"; vc_hookscript := "" |} |}.
  eexists. split; [reflexivity|]. split; [reflexivity|]. split; [reflexivity|].
  simpl. eexists. split; [reflexivity|]. split; reflexivity.
Defined.
