(* ===== verification/VmLife.v ===== *)
(** internal/idempotent's VM lifecycle Ops: [VMCreate] (vmcreate.go), [VMClone]
    (vmclone.go), [VMDestroy] (vmdestroy.go) and [VMShutdown] (vmshutdown.go). *)
From Stdlib Require Import Ascii.
From S2P Require Import Prelude GoLib Errors Json Rest Vms OpRun Client.

(** go-proxmox's run states. *)
Definition StatusRunning : string := "running".
Definition StatusStopped : string := "stopped".

(** json.Marshal of the VM pointer. *)
Definition encode_vm (vm : option VirtualMachine) : snap :=
  match vm with Some vm => SVM vm | None => SJson JNull end.

(** ** vmcreate.go *)
Definition interfaceIndexFromKey (key prefix : string) : option Z :=
  match cut_prefix prefix key with
  | Some suffix =>
      if eqb prefix "" || eqb suffix "" then None
      else if all_bytes is_digit suffix then atoi suffix else None
  | None => None
  end.
Definition isMissingVMError (e : err) (vmid : Z) : bool :=
  NotFound e {| Fragment := "qemu-server/" +:+ itoa vmid +:+ ".conf"; Param := ""; Name := "";
                Nouns := [] |}.
Definition CreatedNotFoundError (vmid : Z) : err :=
  Err (KCreatedNotFound vmid) ("vm create: vm " +:+ itoa vmid
    +:+ ": the create task succeeded but PVE then reported the vm does not exist") [].

Section VMCreate.
Context (node : string) (VMID : Z) (Params : Values).
Definition create_what : string := "vm create: vm " +:+ itoa VMID.

Definition net_indices : list Z :=
  omap (λ kv : string * list string, interfaceIndexFromKey kv.1 "net") (entries Params).
Fixpoint check_ipconfigs (l : list (string * list string)) : res unit :=
  match l with
  | [] => Ok tt
  | (key, _) :: l' =>
      match interfaceIndexFromKey key "ipconfig" with
      | None => check_ipconfigs l'
      | Some n =>
          guard^ bool_decide (n ∈ net_indices) orelse
            errorf (create_what +:+ ": ipconfig" +:+ itoa n +:+ " has no matching net" +:+ itoa n) in
          check_ipconfigs l'
      end
  end.
Definition create_Validate : res unit := check_ipconfigs (entries Params).

(** The mutable state is [createdMissing]. *)
Definition create_Read (s : bool) : io clientE (res snap * bool) :=
  let! vm := trigger (CGetVM node VMID) in
  Ret (match vm with Ok vm => Ok (encode_vm vm) | Er _ => Ok (SText "") end, s).
Definition create_Satisfied (_ : bool) (current : snap) : bool := negb (snap_empty current).
Definition create_Apply (s : bool) : io clientE (res unit * bool) :=
  match create_Validate with
  | Er e => Ret (Er e, s)
  | Ok _ =>
      let! upid := trigger (CCreateVM VMID Params) in
      match upid with
      | Er e => Ret (Er (wrapf create_what e), s)
      | Ok upid =>
          let! w := trigger (CWaitForTask node upid) in
          Ret (match w with Ok _ => Ok tt | Er e => Er (wrapf create_what e) end, s)
      end
  end.
Definition create_ReRead (_ : bool) : io clientE (res snap * bool) :=
  let! vm := trigger (CGetVM node VMID) in
  Ret match vm with
      | Ok vm => (Ok (encode_vm vm), false)
      | Er e => if isMissingVMError e VMID then (Ok (SText ""), true)
                else (Er (wrapf create_what e), false)
      end.
Definition create_PostApply (createdMissing : bool) : io clientE (option err * bool) :=
  Ret (if createdMissing then Some (CreatedNotFoundError VMID) else None, createdMissing).
Definition VMCreate : Op bool :=
  {| Read := create_Read; Satisfied := create_Satisfied; Apply := create_Apply;
     ReRead := Some create_ReRead; PostApply := Some create_PostApply; PostNoop := None |}.
End VMCreate.

(** ** vmclone.go *)
Definition diskKeyPrefixes : list string :=
  ["scsi"; "virtio"; "sata"; "ide"; "efidisk"; "tpmstate"; "unused"].
Definition isDiskKey (key : string) : bool :=
  existsb (λ p, match interfaceIndexFromKey key p with Some _ => true | None => false end)
    diskKeyPrefixes.
Definition isCDROM (value : string) : bool :=
  existsb (λ opt, eqb (trim_space opt) "media=cdrom") (Split (byte 44) value).
Record sourceDisk := { sd_key : string; sd_storage : string }.

Section VMClone.
Context (node : string) (SourceVMID NewVMID : Z) (Params : Values).
Definition clone_what : string := "vm clone: vm " +:+ itoa SourceVMID +:+ " to " +:+ itoa NewVMID.

Fixpoint parse_disks (fields : gmap string json) (keys : list string) : res (list sourceDisk) :=
  match keys with
  | [] => Ok []
  | key :: keys' =>
      match field as_string fields key with
      | None => Er (wrapf (clone_what +:+ ": disk " +:+ key +:+ ": unexpected value "
                  +:+ compact (default JNull (fields !! key))) (errorf "json: cannot unmarshal"))
      | Some value =>
          if isCDROM value then parse_disks fields keys'
          else
            let volume := match cut (byte 44) value with Some (v, _) => v | None => value end in
            match cut (byte 58) volume with
            | Some (storage, _) =>
                guard^ negb (eqb storage "") orelse
                  errorf (clone_what +:+ ": disk " +:+ key +:+ " value " +:+ quote value
                    +:+ " has no " +:+ quote "<storage>:" +:+ " prefix to resolve a storage type from") in
                let^ rest := parse_disks fields keys' orelse id in
                Ok ({| sd_key := key; sd_storage := storage |} :: rest)
            | None => Er (errorf (clone_what +:+ ": disk " +:+ key +:+ " value " +:+ quote value
                    +:+ " has no " +:+ quote "<storage>:" +:+ " prefix to resolve a storage type from"))
            end
      end
  end.
(** The disks of a source config, as [sourceDisks] decodes them. *)
Definition source_disks (raw : json) : res (list sourceDisk) :=
  match as_object raw with
  | None => Er (wrapf (clone_what +:+ ": read source config: parse") (errorf "json: cannot unmarshal"))
  | Some o =>
      let fields := default ∅ o in
      guard^ negb (bool_decide (fields = ∅)) orelse
        errorf (clone_what +:+ ": read source config: pve returned an empty config for the source vm; refusing rather than treating an unreadable config as a vm with no disks") in
      parse_disks fields (sort_strings (filter (λ k, isDiskKey k = true) (map_to_list fields).*1))
  end.
Definition sourceDisks : io clientE (res (list sourceDisk)) :=
  let? raw := trigger (CRawRequest "GET" (vm_path node SourceVMID "/config") ∅)
    orelse wrapf (clone_what +:+ ": read source config") in
  Ret (source_disks raw).

Definition mismatch (d : sourceDisk) (sourceType targetStorage targetType : string) : err :=
  match interfaceIndexFromKey (sd_key d) "unused" with
  | Some _ =>
      errorf (clone_what +:+ ": linked clone requires matching storage types, and " +:+ sd_key d
        +:+ " — a DETACHED disk still listed in the source vm's config, not a disk in use — is "
        +:+ quote sourceType +:+ " (storage " +:+ quote (sd_storage d) +:+ ") while target storage "
        +:+ quote targetStorage +:+ " is " +:+ quote targetType
        +:+ ". pveforge checks detached disks because whether pve copies them on a clone is not verified; to proceed, either remove "
        +:+ sd_key d +:+ " from vm " +:+ itoa SourceVMID
        +:+ " (pve: Hardware -> select the unused disk -> Remove) or pass full=1 for a full clone")
  | None =>
      errorf (clone_what +:+ ": linked clone requires matching storage types, but disk " +:+ sd_key d
        +:+ " is " +:+ quote sourceType +:+ " (storage " +:+ quote (sd_storage d)
        +:+ ") while target storage " +:+ quote targetStorage +:+ " is " +:+ quote targetType
        +:+ "; pass full=1 for a full clone across storage types")
  end.
Fixpoint check_disks (targetStorage targetType : string) (seen : gmap string string)
    (disks : list sourceDisk) : io clientE (res unit) :=
  match disks with
  | [] => Ret (Ok tt)
  | d :: disks' =>
      let? sourceType := (match seen !! sd_storage d with
                          | Some t => Ret (Ok t)
                          | None => trigger (CStorageType node (sd_storage d))
                          end) orelse wrapf (clone_what +:+ ": " +:+ sd_key d
                                +:+ ": resolve source storage " +:+ quote (sd_storage d)) in
      guard eqb sourceType targetType orelse mismatch d sourceType targetStorage targetType in
      check_disks targetStorage targetType (<[sd_storage d := sourceType]> seen) disks'
  end.
Definition checkLinkedCloneStorage : io clientE (res unit) :=
  let targetStorage := vget Params "storage" in
  if eqb targetStorage "" then Ret (Ok tt)
  else
    let? disks := sourceDisks orelse id in
    if bool_decide (length disks = 0) then Ret (Ok tt)
    else
      let? targetType := trigger (CStorageType node targetStorage)
        orelse wrapf (clone_what +:+ ": resolve target storage " +:+ quote targetStorage) in
      check_disks targetStorage targetType ∅ disks.

Definition clone_Read (s : unit) : io clientE (res snap * unit) :=
  let! vm := trigger (CGetVM node NewVMID) in
  Ret (match vm with Ok vm => Ok (encode_vm vm) | Er _ => Ok (SText "") end, s).
Definition clone_Satisfied (_ : unit) (current : snap) : bool := negb (snap_empty current).
Definition clone_request : io clientE (res unit) :=
  let? upid := trigger (CCloneVM SourceVMID NewVMID Params) orelse wrapf clone_what in
  let? _ := trigger (CWaitForTask node upid) orelse wrapf clone_what in
  Ret (Ok tt).
Definition full_values : list string := default [] (Params !! "full").
Definition clone_body : io clientE (res unit) :=
  guard bool_decide (length full_values ≤ 1) orelse
    errorf (clone_what +:+ ": " +:+ quote "full" +:+ " specified "
      +:+ itoa (Z.of_nat (length full_values)) +:+ " times ([" +:+ Join " " full_values
      +:+ "]); pveforge cannot tell which value PVE would honour, so pass exactly one") in
  let? _ := (if negb (eqb (vget Params "full") "1") then checkLinkedCloneStorage else Ret (Ok tt))
    orelse id in
  clone_request.
Definition clone_Apply (s : unit) : io clientE (res unit * unit) :=
  let! r := clone_body in Ret (r, s).
Definition VMClone : Op unit :=
  {| Read := clone_Read; Satisfied := clone_Satisfied; Apply := clone_Apply; ReRead := None;
     PostApply := None; PostNoop := None |}.
End VMClone.

(** ** vmdestroy.go *)
Record destroy_state := { TagStillClaimedWarning : bool; TagRecheckErr : option err }.
Section VMDestroy.
Context (node : string) (VMID : Z) (Tag : string).
Definition destroy_what : string := "vm destroy: vm " +:+ itoa VMID.

(** [None]: PVE says the VM does not exist. *)
Definition fetchVMConfig : io clientE (res (option (gmap string json))) :=
  let! raw := trigger (CRawRequest "GET" (vm_path node VMID "/config") ∅) in
  Ret match raw with
      | Er e => if isMissingVMError e VMID then Ok None else Er e
      | Ok raw =>
          match as_object raw with
          | None => Er (wrapf "parse" (errorf "json: cannot unmarshal"))
          | Some o => Ok (Some (default ∅ o))
          end
      end.
Definition destroy_Read (s : destroy_state) : io clientE (res snap * destroy_state) :=
  let! fields := fetchVMConfig in
  Ret (match fields with
       | Er e => Er (wrapf (destroy_what +:+ ": read") e)
       | Ok None => Ok (SText "")
       | Ok (Some fields) => Ok (SJson (JMap fields))
       end, s).
Definition destroy_Satisfied (_ : destroy_state) (current : snap) : bool := snap_empty current.

Definition StatusGatedStop : io clientE (res unit) :=
  let? vm := trigger (CGetVM node VMID) orelse wrapf (destroy_what +:+ ": status gate") in
  match vm with
  | None => Ret (Er (wrapf (destroy_what +:+ ": status gate") (sent ErrUnverifiableRead)))
  | Some vm =>
      guard negb (eqb (vm_status vm) "") orelse
        wrapf (destroy_what +:+ ": status gate") (sent ErrUnverifiableRead) in
      if negb (eqb (vm_status vm) StatusStopped) then
        let? upid := trigger (CStopVM VMID) orelse wrapf (destroy_what +:+ ": stop") in
        let? _ := trigger (CWaitForTask node upid)
          orelse wrapf (destroy_what +:+ ": stop: wait for task") in
        Ret (Ok tt)
      else Ret (Ok tt)
  end.
Definition destroy_gone : io clientE (res unit) :=
  let? upid := trigger (CDestroyVM VMID true) orelse wrapf destroy_what in
  let? _ := trigger (CWaitForTask node upid) orelse wrapf destroy_what in
  let? fields := fetchVMConfig
    orelse wrapf (destroy_what +:+ ": reverify: could not confirm vm is gone") in
  guard bool_decide (fields = None) orelse
    errorf (destroy_what +:+ ": destroy reported success but vm still exists") in
  Ret (Ok tt).
Definition tag_recheck (s : destroy_state) : io clientE destroy_state :=
  if eqb Tag "" then Ret s
  else
    let! claimed := trigger (CTagStillClaimed Tag VMID) in
    Ret match claimed with
        | Er e => {| TagStillClaimedWarning := TagStillClaimedWarning s;
                     TagRecheckErr := Some (wrapf (destroy_what +:+ ": tag recheck") e) |}
        | Ok true => {| TagStillClaimedWarning := true; TagRecheckErr := TagRecheckErr s |}
        | Ok false => s
        end.
Definition destroy_Apply (s : destroy_state) : io clientE (res unit * destroy_state) :=
  let! stopped := StatusGatedStop in
  match stopped with
  | Er e => Ret (Er e, s)
  | Ok _ =>
      let! gone := destroy_gone in
      match gone with
      | Er e => Ret (Er e, s)
      | Ok _ => let! s' := tag_recheck s in Ret (Ok tt, s')
      end
  end.
Definition VMDestroy : Op destroy_state :=
  {| Read := destroy_Read; Satisfied := destroy_Satisfied; Apply := destroy_Apply; ReRead := None;
     PostApply := None; PostNoop := None |}.
End VMDestroy.

(** ** vmshutdown.go *)
Section VMShutdown.
Context (node : string) (VMID : Z).
Definition shutdown_what : string := "vm shutdown: vm " +:+ itoa VMID.
(** The effective run state: QEMU's own when the VM runs but QEMU says otherwise. *)
Definition run_state (vm : VirtualMachine) : string :=
  if eqb (vm_status vm) StatusRunning && negb (eqb (vm_qmpstatus vm) "")
     && negb (eqb (vm_qmpstatus vm) StatusRunning)
  then vm_qmpstatus vm else vm_status vm.
Definition shutdown_state : io clientE (res string) :=
  let? vm := trigger (CGetVM node VMID) orelse wrapf (shutdown_what +:+ ": read") in
  Ret match vm with
      | None => Er (errorf (shutdown_what +:+ ": read: no vm returned"))
      | Some vm =>
          guard^ negb (eqb (vm_status vm) "") orelse
            errorf (shutdown_what +:+ ": read: pve reported no run status") in
          Ok (run_state vm)
      end.
Definition shutdown_Read (s : unit) : io clientE (res snap * unit) :=
  let! r := shutdown_state in
  Ret (match r with Ok st => Ok (SText st) | Er e => Er e end, s).
Definition shutdown_Satisfied (_ : unit) (current : snap) : bool :=
  match current with SText t => eqb t StatusStopped | _ => false end.
Definition shutdown_body : io clientE (res unit) :=
  let? current := shutdown_state orelse id in
  guard bool_decide (current ∈ [StatusRunning; StatusStopped]) orelse
    errorf (shutdown_what +:+ " is in qemu run state " +:+ quote current
      +:+ ", not running; a graceful shutdown cannot complete because the guest cannot service the acpi request — resume or recover the vm first") in
  let? upid := trigger (CShutdownVM VMID) orelse wrapf shutdown_what in
  let? _ := trigger (CWaitForTask node upid) orelse wrapf shutdown_what in
  Ret (Ok tt).
Definition shutdown_Apply (s : unit) : io clientE (res unit * unit) :=
  let! r := shutdown_body in Ret (r, s).
Definition VMShutdown : Op unit :=
  {| Read := shutdown_Read; Satisfied := shutdown_Satisfied; Apply := shutdown_Apply;
     ReRead := None; PostApply := None; PostNoop := None |}.
End VMShutdown.

(** * Lemmas *)
Lemma fetchVMConfig_spec node VMID :
  always (fetchVMConfig node VMID) (λ tr r, changes tr = [] ∧
    ∃ a, tr = [Ev (CRawRequest "GET" (vm_path node VMID "/config") ∅) a] ∧
      (r = Ok None → ∃ e, a = Er e ∧ isMissingVMError e VMID = true)).
Proof.
  unfold fetchVMConfig. cbn [bind trigger always]. intros a. split; [done|]. exists a.
  split; [done|]. destruct a as [raw|e]; [by destruct (as_object raw)|].
  destruct (isMissingVMError e VMID) eqn:Hm; [eauto|done].
Qed.
Lemma shutdown_state_spec node VMID :
  always (shutdown_state node VMID) (λ tr r, changes tr = [] ∧
    ∀ st, r = Ok st → ∃ vm, tr = [Ev (CGetVM node VMID) (Ok (Some vm))] ∧ st = run_state vm).
Proof.
  unfold shutdown_state. cbn [bind trigger always]. intros [[vm|]|e]; cbn [bind always];
    (split; [done|]); [|done|done].
  intros st Hst. exists vm. split; [done|]. destruct (negb _) in Hst; [|done]. by injection Hst.
Qed.
#[export] Hint Resolve fetchVMConfig_spec shutdown_state_spec : io.

#[export] Instance VMCreate_quiet node VMID Params : QuietReads (VMCreate node VMID Params).
Proof.
  split; cbn [Read ReRead PostApply PostNoop VMCreate].
  - intros s. simpl. done.
  - intros f s [= <-]. simpl. done.
  - intros f s [= <-]. simpl. done.
  - done.
Qed.
#[export] Instance VMClone_quiet node src new Params : QuietReads (VMClone node src new Params).
Proof. split; cbn [Read ReRead PostApply PostNoop VMClone]; [|done..]. intros s. simpl. done. Qed.
#[export] Instance VMDestroy_quiet node VMID Tag : QuietReads (VMDestroy node VMID Tag).
Proof.
  split; cbn [Read ReRead PostApply PostNoop VMDestroy]; [|done..]. intros s. unfold destroy_Read.
  eapply always_call; [apply fetchVMConfig_spec|]. intros tr r [Hq _]. cbn [always].
  by rewrite app_nil_r.
Qed.
#[export] Instance VMShutdown_quiet node VMID : QuietReads (VMShutdown node VMID).
Proof.
  split; cbn [Read ReRead PostApply PostNoop VMShutdown]; [|done..]. intros s. unfold shutdown_Read.
  eapply always_call; [apply shutdown_state_spec|]. intros tr r [Hq _]. cbn [always].
  by rewrite app_nil_r.
Qed.

(** ** Destroy *)
(** PVE was seen to report the VM stopped, or to complete the task of a stop. *)
Definition seen_stopped (node : string) (VMID : Z) (tr : list (event clientE)) : Prop :=
  (∃ vm, tr = [Ev (CGetVM node VMID) (Ok (Some vm))] ∧ vm_status vm = StatusStopped) ∨
  (∃ vm upid, tr = [Ev (CGetVM node VMID) (Ok (Some vm)); Ev (CStopVM VMID) (Ok upid);
                    Ev (CWaitForTask node upid) (Ok tt)] ∧
     vm_status vm ≠ StatusStopped ∧ vm_status vm ≠ "").
Lemma StatusGatedStop_spec node VMID :
  always (StatusGatedStop node VMID) (λ tr r,
    (r = Ok tt → seen_stopped node VMID tr) ∧
    ∀ ev, ev ∈ changes tr → ∃ a, ev = Ev (CStopVM VMID) a).
Proof.
  unfold StatusGatedStop. cbn [bind trigger always]. intros [[vm|]|e]; cbn [bind always];
    [|split; [done|set_solver]..].
  destruct (eqb (vm_status vm) "") eqn:He; cbn [negb]; [split; [done|set_solver]|].
  destruct (eqb (vm_status vm) StatusStopped) eqn:Hs; cbn [negb].
  - cbn [always bind]. split; [|set_solver]. intros _. left. exists vm. split; [done|].
    by apply eqb_true.
  - cbn [bind trigger always]. intros [upid|e]; cbn [bind trigger always].
    2: { split; [done|]. intros ev. by_calls. rewrite list_elem_of_singleton. eauto. }
    intros [[]|e]; cbn [bind always]; (split; [|intros ev; by_calls; rewrite list_elem_of_singleton; eauto]);
      [|done].
    intros _. right. exists vm, upid. split_and!; [done| |].
    + intros H. by rewrite H in Hs.
    + intros H. by rewrite H in He.
Qed.

(** ** Clone *)
Lemma check_disks_spec node src new ts t seen disks tr0 :
  (∀ st t', seen !! st = Some t' → Ev (CStorageType node st) (Ok t') ∈ tr0) →
  always (check_disks node src new ts t seen disks) (λ tr r, changes tr = [] ∧
    (r = Ok tt → ∀ d, d ∈ disks → Ev (CStorageType node (sd_storage d)) (Ok t) ∈ tr0 ++ tr)).
Proof.
  revert seen tr0. induction disks as [|d disks IH]; intros seen tr0 Hseen; cbn [check_disks].
  { split; [done|set_solver]. }
  eapply always_call with (P := λ tr r, changes tr = [] ∧
    ∀ t', r = Ok t' → Ev (CStorageType node (sd_storage d)) (Ok t') ∈ tr0 ++ tr).
  { destruct (seen !! sd_storage d) as [t'|] eqn:Hs.
    - split; [done|]. intros ? [= <-]. rewrite app_nil_r. auto.
    - cbn. intros r. split; [done|]. intros t' ->. set_solver. }
  intros tr [t'|e] [Hq Ht]; cbn [always]; [|by rewrite app_nil_r].
  destruct (eqb t' t) eqn:He; cbn [always]; [|by rewrite app_nil_r]. apply eqb_true in He as ->.
  specialize (Ht t eq_refl).
  eapply always_mono; [|apply (IH _ (tr0 ++ tr))].
  - intros tr' r [Hq' Hr]. rewrite changes_app, Hq, Hq'. split; [done|]. intros Hok.
    rewrite app_assoc. intros d' [->|Hd]%elem_of_cons; [apply elem_of_app; by left|by apply Hr].
  - intros st t' Hst. apply lookup_insert_Some in Hst as [[<- <-]|[_ Hst]]; [done|].
    apply elem_of_app. left. auto.
Qed.
(** What the check of a linked clone establishes. *)
Definition same_types (node : string) (src new : Z) (target : string) (tr : list (event clientE)) : Prop :=
  ∃ raw disks, Ev (CRawRequest "GET" (vm_path node src "/config") ∅) (Ok raw) ∈ tr ∧
    source_disks src new raw = Ok disks ∧
    (disks = [] ∨ ∃ t, Ev (CStorageType node target) (Ok t) ∈ tr ∧
       ∀ d, d ∈ disks → Ev (CStorageType node (sd_storage d)) (Ok t) ∈ tr).
Lemma checkLinkedCloneStorage_spec node src new Params :
  always (checkLinkedCloneStorage node src new Params) (λ tr r, changes tr = [] ∧
    (r = Ok tt → vget Params "storage" = "" ∨ same_types node src new (vget Params "storage") tr)).
Proof.
  unfold checkLinkedCloneStorage. destruct (eqb (vget Params "storage") "") eqn:Hs.
  { apply eqb_true in Hs. simpl. auto. }
  unfold sourceDisks. cbn [bind trigger always]. intros [raw|e]; cbn [bind always]; [|done].
  destruct (source_disks src new raw) as [disks|e] eqn:Hd; cbn [always]; [|done].
  case_bool_decide as Hl; cbn [always].
  { split; [done|]. intros _. right. exists raw, disks. split_and!; [by left|done|].
    left. by apply nil_length_inv. }
  cbn [bind trigger always]. intros [t|e]; cbn [bind always]; [|done].
  eapply always_mono; [|apply (check_disks_spec _ _ _ _ _ _ _ []); intros ? ? H; by rewrite lookup_empty in H].
  intros tr r [Hq Hr]. by_calls. rewrite Hq. split; [done|]. intros Hok. right.
  exists raw, disks. split_and!; [by left|done|right]. exists t. split; [set_solver|].
  intros d Hin. specialize (Hr Hok d Hin). set_solver.
Qed.

(** * Properties *)

(** C35: a VM is destroyed only once it was seen stopped (its status read, or the
    task of the stop completed), with purge, at most once and as the last change;
    before that only a stop can be requested. Success means the destroy task
    completed and the config read after it was answered as not existing. *)
Theorem VMDestroy_safe node VMID Tag s :
  always (destroy_Apply node VMID Tag s) (λ tr rs,
    ∃ gate rest, tr = gate ++ rest ∧
      (∀ ev, ev ∈ changes gate → ∃ a, ev = Ev (CStopVM VMID) a) ∧
      (rest = [] ∧ is_ok rs.1 = false ∨
       seen_stopped node VMID gate ∧ ∃ a tail, rest = Ev (CDestroyVM VMID true) a :: tail ∧
         changes tail = [] ∧
         (rs.1 = Ok tt → ∃ upid e after, a = Ok upid ∧
            tail = Ev (CWaitForTask node upid) (Ok tt) ::
                   Ev (CRawRequest "GET" (vm_path node VMID "/config") ∅) (Er e) :: after ∧
            isMissingVMError e VMID = true ∧ length after ≤ 1))).
Proof.
  unfold destroy_Apply. eapply always_call; [apply StatusGatedStop_spec|].
  intros tr [[]|e] [Hst Hch]; cbn [always].
  2: { exists tr, []. split_and!; [done|done|by left]. }
  specialize (Hst eq_refl).
  eapply always_call with (P := λ rest r, ∃ a tail, rest = Ev (CDestroyVM VMID true) a :: tail ∧
    changes tail = [] ∧ (r = Ok tt → ∃ upid e, a = Ok upid ∧
            tail = [Ev (CWaitForTask node upid) (Ok tt);
                    Ev (CRawRequest "GET" (vm_path node VMID "/config") ∅) (Er e)] ∧
            isMissingVMError e VMID = true)).
  { unfold destroy_gone. cbn [bind trigger always]. intros a.
    destruct a as [upid|e]; cbn [bind trigger always].
    2: { exists (Er e), []. done. }
    intros [[]|e]; cbn [bind always].
    2: { exists (Ok upid), [Ev (CWaitForTask node upid) (Er e)]. done. }
    eapply always_call; [apply fetchVMConfig_spec|]. intros tr' r (Hq & b & -> & Hr).
    destruct r as [[o|]|e]; cbn [always bool_decide].
    - exists (Ok upid). eexists. split_and!; [done|done|done].
    - destruct (Hr eq_refl) as (e & -> & Hm).
      case_bool_decide; [|done]. exists (Ok upid). eexists. split; [done|]. split; [done|].
      intros _. exists upid, e. done.
    - exists (Ok upid). eexists. split_and!; [done|done|done]. }
  intros rest [[]|e] (a & tail & -> & Hq & Hok); cbn [always].
  2: { rewrite app_nil_r. exists tr, (Ev (CDestroyVM VMID true) a :: tail).
       split_and!; [done|done|right]. split; [done|]. exists a, tail. done. }
  destruct (Hok eq_refl) as (upid & e & -> & -> & Hm).
  eapply always_call with (P := λ after _, changes after = [] ∧ length after ≤ 1).
  { unfold tag_recheck. destruct (eqb Tag ""); simpl; [auto with lia|]. auto with lia. }
  intros after s' [Hqa Hl]. cbn [always fst]. rewrite app_nil_r.
  eexists tr, _. split; [reflexivity|]. split; [done|]. right. split; [done|].
  do 2 eexists. split; [reflexivity|]. split.
  - cbn [app]. by_calls. done.
  - intros _. exists upid, e, after. done.
Qed.

(** A clone that is not full is requested only when no target storage is named
    or every disk of the source, as its config was read, is on a storage of the same
    type as the target; an ambiguous [full] is refused. At most one change is made. *)
Theorem VMClone_linked node src new Params s :
  always (clone_Apply node src new Params s) (λ tr _,
    length (changes tr) ≤ 1 ∧
    (changes tr ≠ [] →
       (∃ a, changes tr = [Ev (CCloneVM src new Params) a]) ∧ length (full_values Params) ≤ 1 ∧
       (vget Params "full" = "1" ∨ vget Params "storage" = "" ∨
        same_types node src new (vget Params "storage") tr))).
Proof.
  set (Q := λ (tr : list (event clientE)) (_ : res unit * unit), _).
  assert (always (clone_body node src new Params) (λ tr r, Q tr (r, s))) as Hbody.
  2: { unfold clone_Apply. eapply always_call; [exact Hbody|]. intros tr r Hr. cbn [always].
       by rewrite app_nil_r. }
  unfold clone_body. case_bool_decide as Hf; [|subst Q; split; [simpl; lia|done]].
  eapply always_call with (P := λ tr r, changes tr = [] ∧
    (r = Ok tt → vget Params "full" = "1" ∨ vget Params "storage" = "" ∨
       same_types node src new (vget Params "storage") tr)).
  { destruct (eqb (vget Params "full") "1") eqn:H1; cbn [negb].
    - apply eqb_true in H1. simpl. auto.
    - eapply always_mono; [|apply checkLinkedCloneStorage_spec]. intros tr r [? H]. auto. }
  subst Q. intros tr r [Hq Hr]. cbv beta. destruct r as [[]|e]; cbn [always].
  2: { rewrite app_nil_r, Hq. split; [simpl; lia|done]. }
  specialize (Hr eq_refl).
  assert (∀ tr', same_types node src new (vget Params "storage") tr →
            same_types node src new (vget Params "storage") (tr ++ tr')) as Hmono.
  { intros tr' (raw & disks & ? & ? & Hd). exists raw, disks. rewrite elem_of_app.
    split_and!; [auto|done|]. destruct Hd as [?|(t & ? & ?)]; [auto|right]. exists t.
    setoid_rewrite elem_of_app. auto. }
  unfold clone_request. cbn [bind trigger always]. intros a.
  destruct a as [u|e]; cbn [bind trigger always]; [intros [[]|e]; cbn [bind always]|];
    by_calls; rewrite Hq; (split; [simpl; lia|]); intros _; (split_and!; [by eexists|done|]);
    destruct Hr as [?|[?|?]]; auto.
Qed.

(** A shutdown is requested only right after the VM was read as running or
    stopped, never while QEMU reports a state it cannot answer ACPI in. *)
Theorem VMShutdown_gated node VMID s :
  always (shutdown_Apply node VMID s) (λ tr rs,
    (changes tr ≠ [] → ∃ vm a tail,
       tr = Ev (CGetVM node VMID) (Ok (Some vm)) :: Ev (CShutdownVM VMID) a :: tail ∧
       changes tail = [] ∧ (run_state vm = "running" ∨ run_state vm = "stopped")) ∧
    (rs.1 = Ok tt → ∃ upid, Ev (CShutdownVM VMID) (Ok upid) ∈ tr ∧
                            Ev (CWaitForTask node upid) (Ok tt) ∈ tr)).
Proof.
  unfold shutdown_Apply, shutdown_body.
  set (Q := λ (tr : list (event clientE)) (_ : res unit * unit), _).
  eapply always_call with (P := λ tr r, Q tr (r, s)).
  2: { intros tr r Hr. cbn [always]. by rewrite app_nil_r. }
  eapply always_call; [apply shutdown_state_spec|]. intros tr [st|e] [Hq Hst]; cbn [always].
  2: { subst Q. cbv beta. rewrite app_nil_r, Hq. by split. }
  destruct (Hst st eq_refl) as (vm & -> & ->).
  case_bool_decide as Hin; cbn [always]; [|subst Q; by split].
  subst Q. cbv beta. cbn [bind trigger always].
  assert (run_state vm = "running" ∨ run_state vm = "stopped") by set_solver.
  intros a. destruct a as [u|e]; cbn [bind trigger always].
  - intros [[]|e]; cbn [bind always fst]; split; try done; intros _; try (exists u; set_solver);
      exists vm; do 2 eexists; (split; [reflexivity|]); auto.
  - split; [|done]. intros _. exists vm. do 2 eexists. split; [reflexivity|]. auto.
Qed.

(** Parameters for a new VM are valid exactly when every [ipconfigN] has its
    [netN]; a VM is created only with valid ones, and nothing else is changed. A VM
    whose create task succeeded but which PVE then reports missing is reported. *)
Theorem VMCreate_valid node VMID Params s :
  (create_Validate VMID Params = Ok tt ↔
   ∀ key n, is_Some (Params !! key) → interfaceIndexFromKey key "ipconfig" = Some n →
     ∃ key', is_Some (Params !! key') ∧ interfaceIndexFromKey key' "net" = Some n) ∧
  always (create_Apply node VMID Params s) (λ tr _,
    changes tr ≠ [] → create_Validate VMID Params = Ok tt ∧
      ∃ a, changes tr = [Ev (CCreateVM VMID Params) a]) ∧
  always (let! ' (_, missing) := create_ReRead node VMID s in create_PostApply VMID missing)
    (λ tr rs, ∃ a, tr = [Ev (CGetVM node VMID) a] ∧
       (rs.1 = Some (CreatedNotFoundError VMID) ↔ ∃ e, a = Er e ∧ isMissingVMError e VMID = true)).
Proof.
  split_and!.
  - unfold create_Validate.
    assert (∀ n, n ∈ net_indices Params ↔
              ∃ key', is_Some (Params !! key') ∧ interfaceIndexFromKey key' "net" = Some n) as Hnet.
    { intros n. unfold net_indices. rewrite list_elem_of_omap. split.
      - intros ([k v] & Hin & Hk). apply elem_of_map_to_list in Hin. eauto.
      - intros (k & [v Hv] & Hk). exists (k, v). by rewrite elem_of_map_to_list. }
    setoid_rewrite <- Hnet.
    assert (∀ l, check_ipconfigs VMID Params l = Ok tt ↔
      ∀ key v n, (key, v) ∈ l → interfaceIndexFromKey key "ipconfig" = Some n → n ∈ net_indices Params) as H.
    { induction l as [|[key v] l IH]; simpl; [split; [set_solver|done]|].
      destruct (interfaceIndexFromKey key "ipconfig") as [n|] eqn:Hk.
      - case_bool_decide as Hn; [|split; [done|]; intros H; exfalso; apply Hn; eapply H; [by left|done]].
        rewrite IH. split; intros H key' v' n' Hin Hk'; [|eapply H; [by right|done]].
        apply elem_of_cons in Hin as [[= -> ->]|Hin]; [congruence|eauto].
      - rewrite IH. split; intros H key' v' n' Hin Hk'; [|eapply H; [by right|done]].
        apply elem_of_cons in Hin as [[= -> ->]|Hin]; [congruence|eauto]. }
    rewrite H. setoid_rewrite elem_of_map_to_list. unfold is_Some. naive_solver.
  - unfold create_Apply. destruct (create_Validate VMID Params) as [[]|e]; [|done].
    cbn [bind trigger always]. intros a. destruct a as [u|e]; cbn [bind trigger always].
    + intros w. by_calls. eauto.
    + by_calls. eauto.
  - unfold create_ReRead, create_PostApply. cbn [bind trigger always].
    intros [vm|e]; cbn [bind always fst]; [|destruct (isMissingVMError e VMID) eqn:Hm];
      cbn [bind always fst]; eexists; (split; [reflexivity|]); split.
    1,5: done.
    + by intros (? & [=] & _).
    + intros _. by exists e.
    + done.
    + intros (e' & [= <-] & Hm'). congruence.
Qed.
