(* ===== verification/Network.v ===== *)
(** internal/idempotent's network Ops: [NetworkBridgeEnsure] (networkbridge.go) and
    [NetworkFieldsEnsure] (networkfields.go), which stage a change, check that
    nothing else is staged with it, and commit or revert. *)
From Stdlib Require Import Ascii.
From S2P Require Import Prelude GoLib Errors Json KvJson Rest OpRun Client VmFields.

Definition net_path (node : string) : string := "/nodes/" +:+ path_escape node +:+ "/network".
Definition iface_path (node iface : string) : string := net_path node +:+ "/" +:+ path_escape iface.
Abbreviation fields_t := (gmap string json).

(** ** Shared reads and requests *)
Definition isMissingNetworkInterfaceError (e : err) (iface : string) : bool :=
  NotFound e {| Fragment := ""; Param := "iface"; Name := iface; Nouns := ["iface"; "interface"] |}.

(** [None]: PVE says the interface does not exist. *)
Definition interface_of (iface : string) (raw : res json) : res (option fields_t) :=
  match raw with
  | Er e => if isMissingNetworkInterfaceError e iface then Ok None else Er e
  | Ok JNull => Er (wrapf_post ("interface " +:+ iface) (sent ErrUnverifiableRead) "payload was null")
  | Ok raw =>
      match as_object raw with
      | None => Er (wrapf "parse" (errorf "json: cannot unmarshal"))
      | Some o => Ok (Some (default ∅ o))
      end
  end.
Definition fetchInterface (node iface : string) : io clientE (res (option fields_t)) :=
  let! raw := trigger (CRawRequest "GET" (iface_path node iface) ∅) in
  Ret (interface_of iface raw).

Fixpoint index_ifaces (acc : gmap string fields_t) (l : list (option fields_t))
    : res (gmap string fields_t) :=
  match l with
  | [] => Ok acc
  | e :: l' =>
      let fields := default ∅ e in
      match fields !! "iface" with
      | None => Er (errorf ("list response entry missing " +:+ quote "iface" +:+ " field"))
      | Some raw =>
          let^ name := Scalar raw orelse wrapf "parse iface name" in
          index_ifaces (<[name := fields]> acc) l'
      end
  end.
Definition parse_ifaces (node : string) (raw : json) : res (gmap string fields_t) :=
  match as_objects raw with
  | None => Er (wrapf "parse" (errorf "json: cannot unmarshal"))
  | Some l =>
      let l := default [] l in
      guard^ negb (bool_decide (length l = 0)) orelse
        wrapf_post ("interface list on " +:+ node) (sent ErrUnverifiableRead)
          "payload was null or empty" in
      index_ifaces ∅ l
  end.
Definition fetchAllInterfaces (node : string) : io clientE (res (gmap string fields_t)) :=
  let? raw := trigger (CRawRequest "GET" (net_path node) ∅) orelse id in
  Ret (parse_ifaces node raw).

(** The answer to a commit, as the UPID of its task. *)
Definition commit_upid (raw : json) : res string :=
  let^ upid := Scalar raw orelse wrapf "parse commit upid" in
  guard^ negb (eqb upid "" || eqb upid "null") orelse errorf "commit returned no upid" in
  Ok upid.
Definition commitNetworkStage (node : string) : io clientE (res string) :=
  let? raw := trigger (CRawRequest "PUT" (net_path node) ∅) orelse id in
  Ret (commit_upid raw).

(** The revert runs detached from the caller's cancellation, under its own timeout. *)
Definition revertStagedAfter {A} (node : string) (cause : err) : io clientE (res A) :=
  let! r := trigger (CRawRequest "DELETE" (net_path node) ∅) in
  Ret (Er match r with
          | Ok _ => cause
          | Er e => Err KText (Error cause +:+ " (reverting staged changes also failed: "
                               +:+ Error e +:+ ")") [cause]
          end).
Definition revertNetworkStage {A} (node reason : string) : io clientE (res A) :=
  revertStagedAfter node (errorf reason).

(** Commit and wait; a commit whose outcome is unknown is reverted, a commit PVE
    accepted never is. *)
Definition commit_and_wait (what : string) (node : string) (verify : io clientE (res unit))
    : io clientE (res unit) :=
  let! upid := commitNetworkStage node in
  match upid with
  | Er e => revertStagedAfter node (wrapf (what
              +:+ ": commit failed, outcome unknown (the change may or may not have been applied)") e)
  | Ok upid =>
      let? _ := trigger (CWaitForTask node upid)
        orelse wrapf (what +:+ ": commit task " +:+ upid
          +:+ " did not complete successfully (no revert attempted: pve may already have applied this change, in whole or in part)") in
      verify
  end.

(** Per-key differences, for the message. *)
Definition diff_key (before after : fields_t) (k : string) : option string :=
  if eqb k "digest" then None
  else match before !! k, after !! k with
       | Some b, None => Some (k +:+ ": removed (was " +:+ compact b +:+ ")")
       | None, Some a => Some (k +:+ ": added (now " +:+ compact a +:+ ")")
       | Some b, Some a =>
           if eqb (compact b) (compact a) then None
           else Some (k +:+ ": " +:+ compact b +:+ " -> " +:+ compact a)
       | None, None => None
       end.
Definition diffFields (before after : fields_t) : string :=
  match omap (diff_key before after) (sorted_keys (before ∪ after)) with
  | [] => "fields differ but no per-key difference was found (possible key-ordering/whitespace artifact)"
  | diffs => Join "; " diffs
  end.

(** ** Values *)
Definition show_bool (b : bool) : string := if b then "true" else "false".
Definition normalizeAutostart (v : string) : option string :=
  match parseBoolish v with
  | Some true => Some "1"
  | Some false => Some "0"
  | None => None
  end.
Definition autostartRequested (want : gmap string string) : bool :=
  match want !! "autostart" with
  | Some v => bool_decide (normalizeAutostart v = Some "1")
  | None => false
  end.
Definition activeTruthy (s : string) : bool :=
  negb (bool_decide (to_lower (trim_space s) ∈ [""; "0"; "false"; "null"])).

Inductive networkBridgeMode := modeUnset | modeCreate | modeDestroy.
Global Instance mode_eq_dec : EqDecision networkBridgeMode.
Proof. solve_decision. Defined.

Section network.
(** [sum256] stands for the hex form of SHA-256; nothing is assumed of it. *)
Context (sum256 : string → string).

(** The marshalled map has its keys sorted; [digest], which any write changes, is
    left out. *)
Definition canonicalHash (fields : fields_t) : string :=
  sum256 (compact (JMap (delete "digest" fields))).

(** ** NetworkBridgeEnsure *)
Section bridge.
(** [NewNetworkBridgeCreate] passes [modeCreate] and the wanted fields,
    [NewNetworkBridgeDestroy] [modeDestroy] and none. What Apply records on the Op
    ([currentFields], [preStanzaHash], [preKernelState]) only the same Apply reads. *)
Context (Node Iface ManagementBridge : string) (Wanted : gmap string string)
        (mode : networkBridgeMode).
Definition bridge_what : string := "network bridge ensure: " +:+ Iface.

Definition bridge_Validate : res unit :=
  let pre := "network bridge ensure: " in
  guard^ negb (eqb Node "") orelse errorf (pre +:+ "node is required") in
  guard^ negb (eqb Iface "") orelse errorf (pre +:+ "iface is required") in
  guard^ negb (eqb ManagementBridge "") orelse
    errorf (pre +:+ "management bridge is required (no default is provided — see NetworkBridgeEnsure.ManagementBridge's own doc comment)") in
  guard^ bool_decide (Wanted !! "iface" = None) orelse
    errorf (pre +:+ "iface " +:+ Iface +:+ ": Wanted must not itself contain an " +:+ quote "iface"
      +:+ " key; Apply always sets it from Iface") in
  guard^ match Wanted !! "autostart" with
         | Some v => bool_decide (is_Some (normalizeAutostart v))
         | None => true
         end orelse
    errorf (pre +:+ "iface " +:+ Iface +:+ ": autostart " +:+ QuoteValue (default "" (Wanted !! "autostart"))
      +:+ " is not a boolean; use 1/true or 0/false") in
  guard^ bool_decide (mode = modeCreate ∨ mode = modeDestroy) orelse
    errorf (pre +:+ "iface " +:+ Iface
      +:+ ": mode is unset; construct with NewNetworkBridgeCreate or NewNetworkBridgeDestroy") in
  guard^ negb (bool_decide (mode = modeDestroy) && negb (bool_decide (Wanted = ∅))) orelse
    errorf (pre +:+ "iface " +:+ Iface +:+ ": a destroy carries no Wanted fields (got "
      +:+ itoa (Z.of_nat (size Wanted)) +:+ ")") in
  Ok tt.

Definition bridge_Read (s : unit) : io clientE (res snap * unit) :=
  let! r := fetchInterface Node Iface in
  Ret (match r with
       | Er e => Er (wrapf ("network bridge ensure: read " +:+ Iface) e)
       | Ok None => Ok (SText "")
       | Ok (Some fields) => Ok (SJson (JMap fields))
       end, s).

Definition effectiveWanted : gmap string string :=
  match mode with
  | modeCreate =>
      let out := match Wanted !! "type" with
                 | Some _ => Wanted | None => <["type" := "bridge"]> Wanted end in
      match out !! "autostart" with
      | None => <["autostart" := "1"]> out
      | Some v => match normalizeAutostart v with
                  | Some norm => <["autostart" := norm]> out
                  | None => out
                  end
      end
  | _ => ∅
  end.

Definition field_satisfied (fields : fields_t) (fld want : string) : bool :=
  if eqb fld "autostart" then
    match fields !! fld with
    | None => fieldsEqual "0" want
    | Some raw => match Scalar raw with Ok got => fieldsEqual got want | Er _ => false end
    end
  else match fields !! fld with
       | None => false
       | Some raw => match Scalar raw with Ok got => fieldsEqual got want | Er _ => false end
       end.
Definition bridge_Satisfied (_ : unit) (current : snap) : bool :=
  let exists_ := negb (snap_empty current) in
  match mode with
  | modeDestroy => negb exists_
  | modeCreate =>
      if negb exists_ then false
      else match decode_snap current ≫= as_object with
           | None => false
           | Some o => forallb (λ fw, field_satisfied (default ∅ o) fw.1 fw.2)
                         (entries effectiveWanted)
           end
  | modeUnset => false
  end.

(** Is a kernel link that is missing evidence that the interface is not live? *)
Definition negativeLivenessReliable (want : gmap string string) : bool :=
  match mode with
  | modeDestroy => true
  | _ => if bool_decide (default "" (want !! "type") ∈ ["OVSPort"; "OVSIntPort"; "OVSBond"])
         then eqb (default "" (want !! "ovs_bridge")) "" else true
  end.

Definition stage_params : Values := (λ v, [v]) <$> effectiveWanted.
(** The staging request. *)
Definition bridge_stage_request (converge : bool) : string * string * Values :=
  match mode with
  | modeCreate => if converge then ("PUT", iface_path Node Iface, stage_params)
                  else ("POST", net_path Node, vset stage_params "iface" Iface)
  | _ => ("DELETE", iface_path Node Iface, ∅)
  end.
Definition bridge_stage (converge : bool) : io clientE (res unit) :=
  let '(m, p, v) := bridge_stage_request converge in
  let? _ := trigger (CRawRequest m p v) orelse id in
  Ret (Ok tt).

Definition abortAndRevert {A} (reason : string) : io clientE (res A) :=
  let? r := revertNetworkStage Node reason orelse wrapf bridge_what in Ret (Ok r).

Definition guardSelfCheck : io clientE (res unit) :=
  let! r := fetchInterface Node Iface in
  match r with
  | Er e => revertStagedAfter Node
              (wrapf (bridge_what +:+ ": guard self-check: read iface state") e)
  | Ok fields =>
      let active_raw := match fields with Some f => f !! "active" | None => None end in
      match (match active_raw with Some raw => Scalar raw | None => Ok "" end) with
      | Er e => revertStagedAfter Node
                  (wrapf (bridge_what +:+ ": guard self-check: parse active flag") e)
      | Ok act =>
          let active := activeTruthy act in
          let! link := trigger (CLinkState Iface) in
          match link with
          | Er e => revertStagedAfter Node
                      (wrapf (bridge_what +:+ ": guard self-check: read kernel link state") e)
          | Ok link =>
              let failed what := abortAndRevert ("guard self-check failed: op.Iface " +:+ Iface
                                   +:+ what +:+ " immediately after staging, before commit") in
              match mode with
              | modeCreate =>
                  if active then failed " already reports active=true"
                  else if Exists link then failed "'s LinkState already shows Exists=true"
                  else Ret (Ok tt)
              | _ =>
                  if negb active then failed " already reports active=false"
                  else if negb (Exists link) then failed "'s LinkState already shows Exists=false"
                  else Ret (Ok tt)
              end
          end
      end
  end.

(** Before the stage: the management bridge as it is, its kernel link, and whether
    a create converges an interface of the wanted type that is already there. *)
Definition bridge_prestage : io clientE (res (fields_t * LinkState * bool)) :=
  let? fields := fetchInterface Node ManagementBridge
    orelse wrapf (bridge_what +:+ ": pre-stage snapshot of management bridge " +:+ ManagementBridge) in
  match fields with
  | None => Ret (Er (errorf (bridge_what +:+ ": management bridge " +:+ ManagementBridge
                             +:+ " does not exist")))
  | Some fields =>
      let? link := trigger (CLinkState ManagementBridge)
        orelse wrapf (bridge_what +:+ ": pre-stage kernel snapshot of management bridge "
                      +:+ ManagementBridge) in
      match mode with
      | modeCreate =>
          let want := default "" (effectiveWanted !! "type") in
          let? existing := fetchInterface Node Iface orelse wrapf (bridge_what +:+ ": pre-stage read") in
          match existing with
          | None => Ret (Ok (fields, link, false))
          | Some existing =>
              let got := match existing !! "type" with
                         | Some raw => match Scalar raw with Ok g => g | Er _ => "" end
                         | None => ""
                         end in
              guard negb (eqb got "" || negb (eqb got want)) orelse
                errorf (bridge_what +:+ ": already exists as type " +:+ QuoteValue got +:+ ", not " +:+ QuoteValue want
                  +:+ "; refusing to create it (nothing staged)") in
              Ret (Ok (fields, link, true))
          end
      | _ => Ret (Ok (fields, link, false))
      end
  end.
(** After the stage and before the commit: the management bridge unchanged, and the
    guard's self-check. *)
Definition bridge_check (pre : fields_t) : io clientE (res unit) :=
  let! pending := fetchInterface Node ManagementBridge in
  match pending with
  | Er e => revertStagedAfter Node (wrapf (bridge_what
              +:+ ": post-stage snapshot of management bridge " +:+ ManagementBridge) e)
  | Ok None => revertStagedAfter Node (errorf (bridge_what +:+ ": management bridge "
                 +:+ ManagementBridge +:+ " vanished immediately after staging"))
  | Ok (Some pending) =>
      let? _ := guardSelfCheck orelse id in
      if negb (eqb (canonicalHash pending) (canonicalHash pre)) then
        abortAndRevert ("management bridge " +:+ ManagementBridge
          +:+ "'s staged config changed during the stage window (refusing to commit an unrelated staged change): "
          +:+ diffFields pre pending)
      else Ret (Ok tt)
  end.
(** After the commit: the kernel state of the management bridge and of the interface. *)
Definition bridge_verify (pre : LinkState) : io clientE (res unit) :=
  let? post := trigger (CLinkState ManagementBridge)
    orelse wrapf (bridge_what +:+ ": post-apply kernel check of management bridge " +:+ ManagementBridge) in
  guard Bool.eqb (Exists post) (Exists pre) && Bool.eqb (Up post) (Up pre) orelse
    errorf (bridge_what +:+ ": management bridge " +:+ ManagementBridge
      +:+ "'s kernel link state changed unexpectedly during apply (before: exists=" +:+ show_bool (Exists pre)
      +:+ " up=" +:+ show_bool (Up pre) +:+ "; after: exists=" +:+ show_bool (Exists post) +:+ " up="
      +:+ show_bool (Up post) +:+ ") — pve has already committed and reconfigured the kernel; no automatic remediation attempted") in
  let wantExists := bool_decide (mode = modeCreate) && autostartRequested effectiveWanted in
  let? link := trigger (CLinkState Iface) orelse wrapf (bridge_what +:+ ": post-apply kernel check") in
  guard negb ((wantExists || negativeLivenessReliable effectiveWanted)
              && negb (Bool.eqb (Exists link) wantExists)) orelse
    errorf (bridge_what +:+ ": post-apply kernel state mismatch: expected exists=" +:+ show_bool wantExists
      +:+ ", kernel reports exists=" +:+ show_bool (Exists link)) in
  Ret (Ok tt).

Definition bridge_body : io clientE (res unit) :=
  match bridge_Validate with
  | Er e => Ret (Er e)
  | Ok _ =>
      let? pre := bridge_prestage orelse id in
      let '(fields, link, converge) := pre in
      let? _ := bridge_stage converge orelse wrapf (bridge_what +:+ ": stage") in
      let? _ := bridge_check fields orelse id in
      commit_and_wait bridge_what Node (bridge_verify link)
  end.
Definition bridge_Apply (s : unit) : io clientE (res unit * unit) :=
  let! r := bridge_body in Ret (r, s).
Definition NetworkBridgeEnsure : Op unit :=
  {| Read := bridge_Read; Satisfied := bridge_Satisfied; Apply := bridge_Apply; ReRead := None;
     PostApply := None; PostNoop := None |}.
End bridge.

(** ** NetworkFieldsEnsure *)
Section fields.
(** What Read records on the Op ([current]) nothing reads; [Applied] is its state. *)
Context (Node Iface : string) (Pairs : list Pair).
Definition netfields_what : string := "network fields ensure: " +:+ Iface.

Fixpoint check_pairs (seen : gset string) (l : list Pair) : res unit :=
  let pre := "network fields ensure: iface " +:+ Iface +:+ ": " in
  match l with
  | [] => Ok tt
  | p :: l' =>
      guard^ negb (bool_decide (Field p ∈ seen)) orelse
        errorf (pre +:+ "field " +:+ quote (Field p) +:+ " specified more than once") in
      guard^ negb (eqb (Field p) "type") orelse
        errorf (pre +:+ quote "type" +:+ " cannot be set: the stage always sends the interface's current type itself, as PVE requires, and an interface's type cannot be changed this way") in
      check_pairs (seen ∪ {[Field p]}) l'
  end.
Definition netfields_Validate : res unit :=
  guard^ negb (eqb Node "") orelse errorf "network fields ensure: node is required" in
  guard^ negb (eqb Iface "") orelse errorf "network fields ensure: iface is required" in
  guard^ negb (bool_decide (Pairs = [])) orelse
    errorf ("network fields ensure: iface " +:+ Iface +:+ ": at least one field is required") in
  check_pairs ∅ Pairs.

Fixpoint observe_pairs (fields : fields_t) (cur : gmap string string) (l : list Pair)
    : res (gmap string string) :=
  match l with
  | [] => Ok cur
  | p :: l' =>
      match fields !! Field p with
      | None => observe_pairs fields cur l'
      | Some raw =>
          let^ s := Scalar raw orelse wrapf (netfields_what +:+ ": field " +:+ quote (Field p)) in
          observe_pairs fields (<[Field p := s]> cur) l'
      end
  end.
(** [networkFieldsState], whose [otherHashes] is never set and so never marshalled. *)
Definition networkFieldsState (cur : gmap string string) : json :=
  JObj [("current", string_map cur)].
Definition netfields_read : io clientE (res snap) :=
  let? fields := fetchInterface Node Iface orelse wrapf (netfields_what +:+ ": read") in
  Ret match fields with
      | None => Er (errorf (netfields_what +:+ ": interface does not exist"))
      | Some fields =>
          let^ cur := observe_pairs fields ∅ Pairs orelse id in
          Ok (SJson (networkFieldsState cur))
      end.
Definition netfields_Read (s : list string) : io clientE (res snap * list string) :=
  let! r := netfields_read in Ret (r, s).
Definition netfields_Satisfied (_ : list string) (current : snap) : bool :=
  match decode_snap current ≫= as_object with
  | None => false
  | Some o =>
      match (match default ∅ o !! "current" with Some j => as_string_map j | None => Some ∅ end) with
      | None => false
      | Some m =>
          forallb (λ p, match m !! Field p with
                        | Some val => fieldsEqual val (Value p)
                        | None => false
                        end) Pairs
      end
  end.

Definition currentInterfaceType (all : gmap string fields_t) : res string :=
  match all !! Iface with
  | None => Er (errorf "interface is not in the node's interface list, so its current type is unknown; refusing to stage")
  | Some fields =>
      match fields !! "type" with
      | None => Er (errorf "interface has no type in the node's interface list; refusing to stage without one")
      | Some raw =>
          match as_string raw with
          | Some typ =>
              guard^ negb (eqb typ "") orelse errorf ("interface's type " +:+ compact raw
                +:+ " is not a non-empty string; refusing to stage") in
              Ok typ
          | None => Er (errorf ("interface's type " +:+ compact raw
                +:+ " is not a non-empty string; refusing to stage"))
          end
      end
  end.
Definition otherInterfaceHashes (all : gmap string fields_t) : gmap string string :=
  canonicalHash <$> delete Iface all.
Definition changed_names (beforeHashes afterHashes : gmap string string) : list string :=
  filter (λ i, negb (eqb (default "" (beforeHashes !! i)) (default "" (afterHashes !! i))) = true)
    (sorted_keys (beforeHashes ∪ afterHashes)).
Definition changedOtherInterfaces (before after : gmap string fields_t)
    (beforeHashes afterHashes : gmap string string) : string :=
  Join "; " ((λ i, i +:+ ": " +:+ diffFields (default ∅ (before !! i)) (default ∅ (after !! i)))
               <$> changed_names beforeHashes afterHashes).

Definition pair_params (ifaceType : string) : Values :=
  vset (foldl (λ v p, vset v (Field p) (Value p)) ∅ Pairs) "type" ifaceType.
Definition netfields_stage (ifaceType : string) : io clientE (res unit) :=
  let? _ := trigger (CRawRequest "PUT" (iface_path Node Iface) (pair_params ifaceType)) orelse id in
  Ret (Ok tt).
(** Before the stage: every interface as it is, and the type of this one. *)
Definition netfields_prestage : io clientE (res (gmap string fields_t * string)) :=
  let? before := fetchAllInterfaces Node
    orelse wrapf (netfields_what +:+ ": pre-stage snapshot of other interfaces") in
  Ret (let^ ifaceType := currentInterfaceType before orelse wrapf netfields_what in
       Ok (before, ifaceType)).
(** After the stage and before the commit: no other interface has changed. *)
Definition netfields_check (before : gmap string fields_t) : io clientE (res unit) :=
  let! after := fetchAllInterfaces Node in
  match after with
  | Er e => revertStagedAfter Node (wrapf (netfields_what
              +:+ ": post-stage snapshot of other interfaces") e)
  | Ok after =>
      let diff := changedOtherInterfaces before after (otherInterfaceHashes before)
                    (otherInterfaceHashes after) in
      if negb (eqb diff "") then
        let? _ := revertNetworkStage (A := unit) Node ("another interface's staged config changed during the stage window (refusing to commit an unrelated staged change): " +:+ diff)
          orelse wrapf netfields_what in
        Ret (Ok tt)
      else Ret (Ok tt)
  end.
Definition netfields_verify : io clientE (res unit) :=
  let? link := trigger (CLinkState Iface)
    orelse wrapf (netfields_what +:+ ": post-apply kernel check") in
  guard Exists link orelse
    errorf (netfields_what +:+ ": post-apply kernel state mismatch: interface no longer exists after apply — pve has already committed and reconfigured the kernel; no automatic remediation attempted") in
  Ret (Ok tt).
Definition netfields_body : io clientE (res unit) :=
  let? pre := netfields_prestage orelse id in
  let '(before, ifaceType) := pre in
  let? _ := netfields_stage ifaceType orelse wrapf (netfields_what +:+ ": stage") in
  let? _ := netfields_check before orelse id in
  commit_and_wait netfields_what Node netfields_verify.
Definition netfields_Apply (s : list string) : io clientE (res unit * list string) :=
  match netfields_Validate with
  | Er e => Ret (Er e, s)
  | Ok _ =>
      let! r := netfields_body in
      Ret (r, match r with Ok _ => Field <$> Pairs | Er _ => [] end)
  end.
Definition NetworkFieldsEnsure : Op (list string) :=
  {| Read := netfields_Read; Satisfied := netfields_Satisfied; Apply := netfields_Apply;
     ReRead := None; PostApply := None; PostNoop := None |}.
End fields.
End network.

(** * Staged changes *)
(** A check that failed: nothing changed, then the stage reverted. *)
Definition reverted {A} (node : string) (tr : list (event clientE)) (r : res A) : Prop :=
  ∃ tr' a e, tr = tr' ++ [Ev (CRawRequest "DELETE" (net_path node) ∅) a] ∧ changes tr' = [] ∧
    r = Er e.
(** The ways one Apply of a network Op can go. [asked pre m p v] says what is staged
    after the exchanges [pre], [safe pre mid] what was checked before ([pre]) and after
    ([mid]) staging, [verified pre tail] what the kernel was seen to hold. Nothing
    changes but the stage, its commit and its revert; [staged_committed] is the only
    way to succeed and never reverts, and every other run that staged reverts. *)
Section staged.
Context (node : string) (asked : list (event clientE) → string → string → Values → Prop)
        (safe : list (event clientE) → list (event clientE) → Prop)
        (verified : list (event clientE) → list (event clientE) → Prop).
Inductive staged : list (event clientE) → res unit → Prop :=
| staged_refused pre e : changes pre = [] → staged pre (Er e)
| staged_rejected pre m p v x e :
    changes pre = [] → asked pre m p v →
    staged (pre ++ [Ev (CRawRequest m p v) (Er x)]) (Er e)
| staged_reverted pre m p v j mid r e :
    changes pre = [] → changes mid = [] → asked pre m p v →
    staged (pre ++ Ev (CRawRequest m p v) (Ok j) :: mid ++
              [Ev (CRawRequest "DELETE" (net_path node) ∅) r]) (Er e)
| staged_unknown pre m p v j mid a r e :
    changes pre = [] → changes mid = [] → asked pre m p v → safe pre mid →
    (∀ raw, a = Ok raw → is_ok (commit_upid raw) = false) →
    staged (pre ++ Ev (CRawRequest m p v) (Ok j) :: mid ++
              [Ev (CRawRequest "PUT" (net_path node) ∅) a;
               Ev (CRawRequest "DELETE" (net_path node) ∅) r]) (Er e)
| staged_committed pre m p v j mid raw upid w tail r :
    changes pre = [] → changes mid = [] → changes tail = [] →
    asked pre m p v → safe pre mid → commit_upid raw = Ok upid →
    (r = Ok tt → w = Ok tt ∧ verified pre tail) →
    staged (pre ++ Ev (CRawRequest m p v) (Ok j) :: mid ++
              Ev (CRawRequest "PUT" (net_path node) ∅) (Ok raw) ::
              Ev (CWaitForTask node upid) w :: tail) r.

(** What a check between stage and commit is to guarantee: it changes nothing, or it
    reverts and fails. *)
Definition checked (pre : list (event clientE)) (mid : list (event clientE)) (r : res unit) : Prop :=
  (changes mid = [] ∧ r = Ok tt ∧ safe pre mid) ∨ reverted node mid r.
End staged.

Lemma revertStagedAfter_spec {A} node cause :
  always (revertStagedAfter (A := A) node cause) (λ tr r, ∃ a e,
    tr = [Ev (CRawRequest "DELETE" (net_path node) ∅) a] ∧ r = Er e).
Proof. unfold revertStagedAfter. cbn [bind trigger always]. intros a. eauto. Qed.

(** Stage, check, commit: the tail both Ops share. *)
Lemma staged_spec node asked safe verified what pre m p v h check_ verify :
  changes pre = [] → asked pre m p v →
  always check_ (λ mid r, checked node safe pre mid r) →
  always verify (λ tail r, changes tail = [] ∧ (r = Ok tt → verified pre tail)) →
  always (let? _ := (let? _ := trigger (CRawRequest m p v) orelse id in Ret (Ok tt)) orelse h in
          let? _ := check_ orelse id in commit_and_wait what node verify)
    (λ tr r, staged node asked safe verified (pre ++ tr) r).
Proof.
  intros Hpre Hask Hcheck Hver. cbn [bind trigger always]. intros a.
  destruct a as [j|x]; cbn [bind always]; [|by econstructor].
  eapply always_call; [exact Hcheck|].
  intros mid r [(Hmid & -> & Hsafe)|(mid' & a & e & -> & Hmid & ->)]; cbn [always].
  2: { rewrite app_nil_r. by eapply staged_reverted. }
  unfold commit_and_wait, commitNetworkStage. cbn [bind trigger always]. intros a.
  assert (∀ cause, (∀ raw, a = Ok raw → is_ok (commit_upid raw) = false) →
    always (revertStagedAfter (A := unit) node cause) (λ tr' b,
      staged node asked safe verified
        (pre ++ Ev (CRawRequest m p v) (Ok j) :: mid ++
           Ev (CRawRequest "PUT" (net_path node) ∅) a :: tr') b)) as Hrev.
  { intros cause Ha. eapply always_mono; [|apply revertStagedAfter_spec].
    intros tr' b (c & e & -> & ->). by eapply staged_unknown. }
  destruct a as [raw|e]; cbn [bind always].
  2: { by apply Hrev. }
  destruct (commit_upid raw) as [upid|e] eqn:Hu; cbn [bind trigger always].
  2: { apply Hrev. intros ? [= <-]. by rewrite Hu. }
  intros w. destruct w as [[]|e]; cbn [always].
  - eapply always_mono; [|exact Hver]. intros tail r [Ht Hr].
    eapply staged_committed; eauto.
  - by eapply staged_committed.
Qed.

(** ** The bridge *)
Abbreviation read_iface Node iface := (CRawRequest "GET" (iface_path Node iface) ∅).

Section bridge_staged.
Context (sum256 : string → string) (Node Iface ManagementBridge : string)
        (Wanted : gmap string string) (mode : networkBridgeMode).

Definition type_of (fields : fields_t) : string :=
  match fields !! "type" with
  | Some raw => match Scalar raw with Ok g => g | Er _ => "" end
  | None => ""
  end.
(** What is staged: valid parameters; a create only of an interface just read as
    missing, or over one just read as being of the wanted type. *)
Definition bridge_asked (pre : list (event clientE)) (m p : string) (v : Values) : Prop :=
  bridge_Validate Node Iface ManagementBridge Wanted mode = Ok tt ∧
  ∃ converge, (m, p, v) = bridge_stage_request Node Iface Wanted mode converge ∧
    (mode = modeCreate → ∃ raw, Ev (read_iface Node Iface) raw ∈ pre ∧
       match interface_of Iface raw with
       | Ok None => converge = false
       | Ok (Some f) => converge = true ∧
           type_of f = default "" (effectiveWanted Wanted mode !! "type") ∧ type_of f ≠ ""
       | Er _ => False
       end).
(** The management bridge as it was before staging and as it is now; the interface
    not live yet (a create), or still live (a destroy). *)
Definition bridge_safe (pre mid : list (event clientE)) : Prop :=
  (∃ raw raw' f g, Ev (read_iface Node ManagementBridge) raw ∈ pre ∧
     Ev (read_iface Node ManagementBridge) raw' ∈ mid ∧
     interface_of ManagementBridge raw = Ok (Some f) ∧
     interface_of ManagementBridge raw' = Ok (Some g) ∧
     canonicalHash sum256 f = canonicalHash sum256 g) ∧
  ∃ link, Ev (CLinkState Iface) (Ok link) ∈ mid ∧
    Exists link = negb (bool_decide (mode = modeCreate)).
Definition bridge_verified (pre tail : list (event clientE)) : Prop :=
  ∃ before after link, Ev (CLinkState ManagementBridge) (Ok before) ∈ pre ∧
    Ev (CLinkState ManagementBridge) (Ok after) ∈ tail ∧
    Exists after = Exists before ∧ Up after = Up before ∧
    Ev (CLinkState Iface) (Ok link) ∈ tail ∧
    (mode = modeDestroy → Exists link = false) ∧
    (mode = modeCreate → autostartRequested (effectiveWanted Wanted mode) = true →
     Exists link = true).

End bridge_staged.

Lemma bridge_prestage_spec Node Iface ManagementBridge Wanted mode :
  bridge_Validate Node Iface ManagementBridge Wanted mode = Ok tt →
  always (bridge_prestage Node Iface ManagementBridge Wanted mode) (λ tr r,
    changes tr = [] ∧ ∀ f link converge, r = Ok (f, link, converge) →
      (∃ raw, Ev (read_iface Node ManagementBridge) raw ∈ tr ∧
              interface_of ManagementBridge raw = Ok (Some f)) ∧
      Ev (CLinkState ManagementBridge) (Ok link) ∈ tr ∧
      ∀ m p v, (m, p, v) = bridge_stage_request Node Iface Wanted mode converge →
        bridge_asked Node Iface ManagementBridge Wanted mode tr m p v).
Proof.
  intros Hval. unfold bridge_prestage, fetchInterface. cbn [bind trigger always]. intros raw.
  destruct (interface_of ManagementBridge raw) as [[f|]|e] eqn:Hf; cbn [bind trigger always];
    [|done..].
  intros link. destruct link as [link|e]; cbn [bind trigger always]; [|done].
  assert (mode ≠ modeCreate →
    changes [Ev (read_iface Node ManagementBridge) raw; Ev (CLinkState ManagementBridge) (Ok link)] = [] ∧
    ∀ f0 l0 c, Ok (f, link, false) = Ok (f0, l0, c) →
      (∃ raw0, Ev (read_iface Node ManagementBridge) raw0 ∈
          [Ev (read_iface Node ManagementBridge) raw; Ev (CLinkState ManagementBridge) (Ok link)] ∧
         interface_of ManagementBridge raw0 = Ok (Some f0)) ∧
      Ev (CLinkState ManagementBridge) (Ok l0) ∈
        [Ev (read_iface Node ManagementBridge) raw; Ev (CLinkState ManagementBridge) (Ok link)] ∧
      ∀ m p v, (m, p, v) = bridge_stage_request Node Iface Wanted mode c →
        bridge_asked Node Iface ManagementBridge Wanted mode [Ev (read_iface Node ManagementBridge) raw;
                      Ev (CLinkState ManagementBridge) (Ok link)] m p v) as Hother.
  { intros Hm. split; [done|]. intros f' l' c [= <- <- <-]. split_and!;
      [exists raw; split; [left|done]|right; left|].
    intros m p v H. split; [done|]. exists false. split; [done|]. by intros. }
  destruct mode; cbn [bind always trigger]; [by apply Hother| |by apply Hother].
  intros raw'. destruct (interface_of Iface raw') as [[ex|]|e] eqn:Hex; cbn [bind always]; [| |done].
  - fold (type_of ex). destruct (eqb (type_of ex) "") eqn:He; cbn [orb negb always]; [done|].
    destruct (eqb (type_of ex) (default "" (effectiveWanted Wanted modeCreate !! "type"))) eqn:Ht; cbn [orb negb always]; [|done]. apply eqb_true in Ht.
    split; [done|]. intros f' l' c [= <- <- <-]. split_and!;
      [exists raw; split; [left|done]|right; left|].
    intros m p v H. split; [done|]. exists true. split; [done|]. intros _. exists raw'.
    split; [do 2 right; left|]. rewrite Hex. split_and!; [done|done|].
    intros H0. by rewrite H0 in He.
  - split; [done|]. intros f' l' c [= <- <- <-]. split_and!;
      [exists raw; split; [left|done]|right; left|].
    intros m p v H. split; [done|]. exists false. split; [done|]. intros _. exists raw'.
    split; [do 2 right; left|]. by rewrite Hex.
Qed.

Lemma reverted_app {A} node pre tr (r : res A) :
  changes pre = [] → reverted node tr r → reverted node (pre ++ tr) r.
Proof.
  intros Hp (tr' & a & e & -> & Hc & ->). exists (pre ++ tr'), a, e. rewrite app_assoc.
  by_calls. by rewrite Hp, Hc.
Qed.
Lemma revert_reverted {A} node cause :
  always (revertStagedAfter (A := A) node cause) (λ tr r, reverted node tr r).
Proof.
  eapply always_mono; [|apply revertStagedAfter_spec]. intros tr r (a & e & -> & ->).
  by exists [], a, e.
Qed.
Lemma abort_reverted {A} Node Iface reason :
  always (abortAndRevert (A := A) Node Iface reason) (λ tr r, reverted Node tr r).
Proof.
  unfold abortAndRevert. eapply always_call; [apply revert_reverted|].
  intros tr r (tr' & a & e & -> & Hc & ->). cbn [always]. rewrite app_nil_r. by eexists _, a, _.
Qed.
#[export] Hint Resolve revert_reverted abort_reverted : io.
Lemma guardSelfCheck_spec Node Iface mode :
  always (guardSelfCheck Node Iface mode) (λ tr r,
    (changes tr = [] ∧ r = Ok tt ∧ ∃ link, Ev (CLinkState Iface) (Ok link) ∈ tr ∧
       Exists link = negb (bool_decide (mode = modeCreate))) ∨ reverted Node tr r).
Proof.
  set (Q := λ (tr : list (event clientE)) (r : res unit), _).
  assert (∀ pre (m : io clientE (res unit)), changes pre = [] →
    always m (λ tr r, reverted Node tr r) → always m (λ tr r, Q (pre ++ tr) r)) as Hrev.
  { intros pre m Hp. apply always_mono. intros tr r H. right. by apply reverted_app. }
  unfold guardSelfCheck, fetchInterface. cbn [bind trigger always]. intros raw.
  destruct (interface_of Iface raw) as [fields|e]; cbn [bind always].
  2: { apply (Hrev [_]); [done|apply revert_reverted]. }
  destruct (match _ with Some _ => _ | None => _ end) as [act|e]; cbn [bind trigger always].
  2: { apply (Hrev [_]); [done|apply revert_reverted]. }
  intros link. destruct link as [link|e].
  2: { apply (Hrev [_; _]); [done|apply revert_reverted]. }
  destruct mode; destruct (activeTruthy act); cbn [negb]; destruct (Exists link) eqn:Hl; cbn [negb];
    first [ apply (Hrev [_; _]); [done|apply abort_reverted]
          | left; split_and!; [done|done|]; exists link; split; [right; left|done] ].
Qed.

Lemma bridge_check_spec sum256 Node Iface ManagementBridge mode f pre raw :
  Ev (read_iface Node ManagementBridge) raw ∈ pre →
  interface_of ManagementBridge raw = Ok (Some f) →
  always (bridge_check sum256 Node Iface ManagementBridge mode f) (λ tr r,
    checked Node (bridge_safe sum256 Node Iface ManagementBridge mode) pre tr r).
Proof.
  intros Hin Hf. unfold bridge_check, fetchInterface. cbn [bind trigger always]. intros raw'.
  destruct (interface_of ManagementBridge raw') as [[g|]|e] eqn:Hg; cbn [bind always].
  2, 3: eapply always_mono; [|apply revert_reverted]; intros tr r H; right;
        by apply (reverted_app _ [_]).
  eapply always_call; [apply guardSelfCheck_spec|].
  intros tr r [(Hq & -> & link & Hl & He)|Hrev].
  - cbn beta iota.
    destruct (eqb (canonicalHash sum256 g) (canonicalHash sum256 f)) eqn:Hh; cbn [negb always].
    + apply eqb_true in Hh. rewrite app_nil_r. left. split_and!; [by by_calls|done|].
      split; [|exists link; split; [by right|done]].
      exists raw, raw', f, g. split_and!; [done|left|done|done|done].
    + eapply always_mono; [|apply abort_reverted]. intros tr' r H. right.
      apply (reverted_app _ (_ :: tr)); [by by_calls|done].
  - destruct Hrev as (tr' & a & e & -> & Hc & ->). cbn [always]. rewrite app_nil_r. right.
    by eexists (_ :: tr'), a, _.
Qed.

Lemma bridge_Validate_mode Node Iface ManagementBridge Wanted mode :
  bridge_Validate Node Iface ManagementBridge Wanted mode = Ok tt → mode ≠ modeUnset.
Proof.
  unfold bridge_Validate. intros H ->.
  cbv zeta in H.
  repeat (match type of H with (if ?b then _ else _) = _ => destruct b eqn:? end; [|done]).
  done.
Qed.
Lemma bridge_verify_spec Iface ManagementBridge Wanted mode pre before :
  mode ≠ modeUnset → Ev (CLinkState ManagementBridge) (Ok before) ∈ pre →
  always (bridge_verify Iface ManagementBridge Wanted mode before) (λ tr r, changes tr = [] ∧
    (r = Ok tt → bridge_verified Iface ManagementBridge Wanted mode pre tr)).
Proof.
  intros Hm Hin. unfold bridge_verify. cbn [bind trigger always]. intros [after|e];
    cbn [bind always]; [|done].
  destruct (_ && _) eqn:Hsame; cbn [always]; [|done].
  apply andb_true_iff in Hsame as [H1%eqb_prop H2%eqb_prop].
  cbn [bind trigger always]. intros [link|e]; cbn [bind always]; [|done].
  destruct (negb _) eqn:Hk; cbn [always]; (split; [done|]); [|done]. intros _.
  exists before, after, link. split_and!; [done|left|done|done|right; left| |].
  - intros ->. simpl in Hk. apply negb_true_iff, negb_false_iff, eqb_prop in Hk. done.
  - intros -> Ha. rewrite Ha in Hk. simpl in Hk.
    apply negb_true_iff, negb_false_iff, eqb_prop in Hk. done.
Qed.

(** ** The fields of an interface *)
Section netfields_staged.
Context (sum256 : string → string) (Node Iface : string) (Pairs : list Pair).
(** What is staged: the pairs and the interface's type as just read, nothing else. *)
Definition netfields_asked (pre : list (event clientE)) (m p : string) (v : Values) : Prop :=
  netfields_Validate Node Iface Pairs = Ok tt ∧ m = "PUT" ∧ p = iface_path Node Iface ∧
  ∃ raw before typ, Ev (CRawRequest "GET" (net_path Node) ∅) (Ok raw) ∈ pre ∧
    parse_ifaces Node raw = Ok before ∧ currentInterfaceType Iface before = Ok typ ∧
    v !! "type" = Some [typ] ∧ (∀ q, q ∈ Pairs → v !! Field q = Some [Value q]) ∧
    ∀ k, is_Some (v !! k) → k = "type" ∨ k ∈ Field <$> Pairs.
(** Every other interface is the same before and after staging. *)
Definition netfields_safe (pre mid : list (event clientE)) : Prop :=
  ∃ raw raw' before after,
    Ev (CRawRequest "GET" (net_path Node) ∅) (Ok raw) ∈ pre ∧
    Ev (CRawRequest "GET" (net_path Node) ∅) (Ok raw') ∈ mid ∧
    parse_ifaces Node raw = Ok before ∧ parse_ifaces Node raw' = Ok after ∧
    ∀ i, i ≠ Iface → default "" (canonicalHash sum256 <$> before !! i)
                     = default "" (canonicalHash sum256 <$> after !! i).
Definition netfields_verified (pre tail : list (event clientE)) : Prop :=
  ∃ link, Ev (CLinkState Iface) (Ok link) ∈ tail ∧ Exists link = true.
End netfields_staged.

Lemma check_pairs_spec Iface seen l :
  check_pairs Iface seen l = Ok tt →
  NoDup (Field <$> l) ∧ ∀ q, q ∈ l → Field q ∉ seen ∧ Field q ≠ "type".
Proof.
  revert seen. induction l as [|p l IH]; intros seen; cbn [check_pairs fmap list_fmap];
    [split; [constructor|set_solver]|].
  case_bool_decide as Hs; [done|]. destruct (eqb (Field p) "type") eqn:Ht; [done|]. cbn [negb].
  intros [Hnd H]%IH. split.
  - constructor; [|done]. intros (q & Hq & Hin)%list_elem_of_fmap.
    destruct (H q Hin) as [H1 _]. apply H1. set_solver.
  - intros q [->|Hin]%elem_of_cons.
    + split; [done|]. intros Hq. by rewrite Hq in Ht.
    + destruct (H q Hin). set_solver.
Qed.
Lemma pair_values l (v : Values) :
  NoDup (Field <$> l) →
  let v' := foldl (λ v p, vset v (Field p) (Value p)) v l in
  (∀ q, q ∈ l → v' !! Field q = Some [Value q]) ∧ ∀ k, k ∉ Field <$> l → v' !! k = v !! k.
Proof.
  revert v. induction l as [|p l IH]; intros v Hnd; cbn [foldl fmap list_fmap]; [set_solver|].
  apply NoDup_cons in Hnd as [Hp Hnd]. destruct (IH (vset v (Field p) (Value p)) Hnd) as [H1 H2].
  split.
  - intros q [->|Hq]%elem_of_cons; [|by apply H1]. rewrite H2 by done. apply lookup_insert_eq.
  - intros k Hk. rewrite H2 by set_solver. apply lookup_insert_ne. set_solver.
Qed.
Lemma Join_empty sep l : Join sep l = "" → Forall (λ s, s ≠ "") l → l = [].
Proof.
  destruct l as [|x [|y l]]; [done| |]; simpl; intros H Hl; inversion_clear Hl; [done|].
  destruct x; done.
Qed.
Lemma changedOtherInterfaces_empty sum256 Iface before after :
  changedOtherInterfaces before after (otherInterfaceHashes sum256 Iface before)
    (otherInterfaceHashes sum256 Iface after) = "" →
  ∀ i, i ≠ Iface → default "" (canonicalHash sum256 <$> before !! i)
                   = default "" (canonicalHash sum256 <$> after !! i).
Proof.
  intros H i Hi. apply Join_empty in H.
  2: { apply Forall_fmap, Forall_forall. intros k _. cbv beta. by destruct k. }
  apply fmap_nil_inv in H. apply dec_stable. intros Hne.
  set (hb := otherInterfaceHashes sum256 Iface before) in *.
  set (ha := otherInterfaceHashes sum256 Iface after) in *.
  assert (hb !! i = canonicalHash sum256 <$> before !! i) as Eb
    by (unfold hb, otherInterfaceHashes; by rewrite lookup_fmap, lookup_delete_ne).
  assert (ha !! i = canonicalHash sum256 <$> after !! i) as Ea
    by (unfold ha, otherInterfaceHashes; by rewrite lookup_fmap, lookup_delete_ne).
  assert (i ∈ changed_names hb ha) as Hin; [|rewrite H in Hin; by apply elem_of_nil in Hin].
  unfold changed_names. apply list_elem_of_filter. rewrite Eb, Ea. split.
  - destruct (eqb _ _) eqn:He; [|done]. by apply eqb_true in He.
  - apply sorted_keys_elem. rewrite lookup_union_is_Some, Eb, Ea.
    destruct (before !! i), (after !! i); simpl in *; eauto. done.
Qed.

Lemma netfields_asked_params Node Iface Pairs raw before typ :
  netfields_Validate Node Iface Pairs = Ok tt →
  parse_ifaces Node raw = Ok before → currentInterfaceType Iface before = Ok typ →
  Ev (CRawRequest "GET" (net_path Node) ∅) (Ok raw)
    ∈ [Ev (CRawRequest "GET" (net_path Node) ∅) (Ok raw)] ∧
  parse_ifaces Node raw = Ok before ∧ currentInterfaceType Iface before = Ok typ ∧
  pair_params Pairs typ !! "type" = Some [typ] ∧
  (∀ q, q ∈ Pairs → pair_params Pairs typ !! Field q = Some [Value q]) ∧
  ∀ k, is_Some (pair_params Pairs typ !! k) → k = "type" ∨ k ∈ Field <$> Pairs.
Proof.
  intros Hval Hb Ht. split_and!; [left|done|done|apply lookup_insert_eq| |];
    unfold netfields_Validate in Hval;
    repeat (match type of Hval with (if ?b then _ else _) = _ => destruct b end; [|done]);
    destruct (check_pairs_spec _ _ _ Hval) as [Hnd Hp]; destruct (pair_values Pairs ∅ Hnd) as [H1 H2].
  - intros q Hq. unfold pair_params, vset. rewrite lookup_insert_ne; [by apply H1|].
    destruct (Hp q Hq). congruence.
  - intros k Hk. destruct (decide (k = "type")) as [|Hne]; [by left|right].
    apply dec_stable. intros Hn. unfold pair_params in Hk. unfold vset at 1 in Hk.
    rewrite lookup_insert_ne in Hk by done. rewrite (H2 k Hn), lookup_empty in Hk.
    by destruct Hk.
Qed.
Lemma netfields_check_spec sum256 Node Iface before pre raw :
  Ev (CRawRequest "GET" (net_path Node) ∅) (Ok raw) ∈ pre → parse_ifaces Node raw = Ok before →
  always (netfields_check sum256 Node Iface before) (λ tr r,
    checked Node (netfields_safe sum256 Node Iface) pre tr r).
Proof.
  intros Hin Hb. unfold netfields_check, fetchAllInterfaces. cbn [bind trigger always].
  assert (∀ a cause, always (revertStagedAfter (A := unit) Node cause) (λ tr r,
    checked Node (netfields_safe sum256 Node Iface) pre
      (Ev (CRawRequest "GET" (net_path Node) ∅) a :: tr) r)) as Hrev.
  { intros a cause. eapply always_mono; [|apply revert_reverted]. intros tr r H. right.
    by apply (reverted_app _ [_]). }
  intros [raw'|e]; cbn [bind always]; [|apply Hrev].
  destruct (parse_ifaces Node raw') as [after|e] eqn:Ha; [|apply Hrev]. cbv zeta.
  destruct (eqb (changedOtherInterfaces _ _ _ _) "") eqn:Hd; cbn [negb].
  - apply eqb_true in Hd. cbn [always]. left. split_and!; [done|done|].
    exists raw, raw', before, after. split_and!; [done|left|done|done|].
    by apply changedOtherInterfaces_empty.
  - unfold revertNetworkStage. eapply always_call; [apply revertStagedAfter_spec|].
    intros tr r (a & e & -> & ->). cbn [always]. right. by eexists [_], a, _.
Qed.

#[export] Instance NetworkBridgeEnsure_quiet sum256 Node Iface ManagementBridge Wanted mode :
  QuietReads (NetworkBridgeEnsure sum256 Node Iface ManagementBridge Wanted mode).
Proof. split; cbn [Read ReRead PostApply PostNoop NetworkBridgeEnsure]; [|done..]. intros s. simpl. done. Qed.
#[export] Instance NetworkFieldsEnsure_quiet sum256 Node Iface Pairs :
  QuietReads (NetworkFieldsEnsure sum256 Node Iface Pairs).
Proof.
  split; cbn [Read ReRead PostApply PostNoop NetworkFieldsEnsure]; [|done..]. intros s.
  unfold netfields_Read, netfields_read, fetchInterface. cbn [bind trigger always]. intros raw.
  by destruct (interface_of Iface raw).
Qed.

(** * Properties *)

(** C36: an Apply of a network bridge Op only ever stages valid parameters (a create
    of an interface just read as missing or of the wanted type), commits only when the
    management bridge is the same before and after staging and the interface is not
    live yet (a create) or still live (a destroy), reverts every stage it does not
    commit and none that PVE accepted, and succeeds only when the commit's task
    completed and the kernel links are as they were and as wanted. *)
Theorem NetworkBridgeEnsure_staged sum256 Node Iface ManagementBridge Wanted mode s :
  always (bridge_Apply sum256 Node Iface ManagementBridge Wanted mode s) (λ tr rs,
    staged Node (bridge_asked Node Iface ManagementBridge Wanted mode)
      (bridge_safe sum256 Node Iface ManagementBridge mode)
      (bridge_verified Iface ManagementBridge Wanted mode) tr rs.1).
Proof.
  unfold bridge_Apply.
  eapply always_call with (P := λ tr r, staged Node (bridge_asked Node Iface ManagementBridge Wanted mode)
    (bridge_safe sum256 Node Iface ManagementBridge mode)
    (bridge_verified Iface ManagementBridge Wanted mode) tr r).
  2: { intros tr r H. cbn [always]. by rewrite app_nil_r. }
  unfold bridge_body.
  destruct (bridge_Validate Node Iface ManagementBridge Wanted mode) as [[]|e] eqn:Hval;
    [|by constructor].
  eapply always_call; [by apply bridge_prestage_spec|].
  intros pre [[[f link] converge]|e] [Hq Hok]; cbn [always]; [|rewrite app_nil_r; by constructor].
  destruct (Hok _ _ _ eq_refl) as ((raw & Hin & Hf) & Hlink & Hask). unfold bridge_stage.
  destruct (bridge_stage_request Node Iface Wanted mode converge) as [[m p] v] eqn:Hr.
  apply staged_spec; [done|by apply Hask|by eapply bridge_check_spec|].
  apply bridge_verify_spec; [by eapply bridge_Validate_mode|done].
Qed.

(** An Apply of a network fields Op stages exactly the wanted pairs and the type
    the interface was just read with, commits only when every other interface of the
    node is the same before and after staging, reverts every stage it does not commit
    and none that PVE accepted, and succeeds only when the commit's task completed and
    the kernel still has the interface. *)
Theorem NetworkFieldsEnsure_staged sum256 Node Iface Pairs s :
  always (netfields_Apply sum256 Node Iface Pairs s) (λ tr rs,
    staged Node (netfields_asked Node Iface Pairs) (netfields_safe sum256 Node Iface)
      (netfields_verified Iface) tr rs.1 ∧
    (is_ok rs.1 = true → rs.2 = Field <$> Pairs)).
Proof.
  unfold netfields_Apply.
  destruct (netfields_Validate Node Iface Pairs) as [[]|e] eqn:Hval; [|split; [by constructor|done]].
  eapply always_call with (P := λ tr r, staged Node (netfields_asked Node Iface Pairs)
    (netfields_safe sum256 Node Iface) (netfields_verified Iface) tr r).
  2: { intros tr r H. cbn [always]. rewrite app_nil_r. split; [done|]. by destruct r. }
  unfold netfields_body, netfields_prestage, fetchAllInterfaces. cbn [bind trigger always].
  intros [raw|e]; cbn [bind always]; [|by constructor].
  destruct (parse_ifaces Node raw) as [before|e] eqn:Hb; cbn [bind always]; [|by constructor].
  destruct (currentInterfaceType Iface before) as [typ|e] eqn:Ht; cbn [bind always];
    [|by constructor].
  unfold netfields_stage.
  apply (staged_spec _ _ _ _ _ [_]); [done| | |].
  - split_and!; [done..|]. exists raw, before, typ. by apply netfields_asked_params.
  - by eapply netfields_check_spec; [left|].
  - unfold netfields_verify. cbn [bind trigger always]. intros [link|e]; cbn [bind always]; [|done].
    destruct (Exists link) eqn:He; cbn [always]; [|done]. split; [done|]. intros _.
    exists link. split; [left|done].
Qed.
