(* ===== verification/Storage.v ===== *)
(** internal/pve/storage.go: the cluster's storage configuration, read, created and
    updated, and the recognition of PVE's "no such storage" answers. *)
From Stdlib Require Import Ascii.
From S2P Require Import Prelude GoLib Errors Json Rest.

Definition storage_config_path (id : string) : string := "/storage/" +:+ path_escape id.

Definition GetStorageConfigRaw (storageID : string) : io pveE (res (gmap string json)) :=
  guard negb (eqb storageID "") orelse errorf "get storage config: storage id is required" in
  let? raw := trigger (PcRawMap (storage_config_path storageID))
    orelse wrapf ("get storage config for " +:+ quote storageID) in
  Ret (Ok (default ∅ raw)).

Definition GetStorageConfigPath (storageID : string) : io pveE (res string) :=
  guard negb (eqb storageID "") orelse errorf "get storage config path: storage id is required" in
  let? path := trigger (PcStoragePath (storage_config_path storageID))
    orelse wrapf ("get storage config for " +:+ quote storageID) in
  guard negb (eqb path "") orelse
    errorf ("storage " +:+ quote storageID +:+ " has no configured filesystem path (not a directory-backed storage type?)") in
  Ret (Ok path).

Definition CreateStorage (name : string) (params : Values) : io pveE (res json) :=
  guard negb (eqb name "") orelse errorf "create storage: a storage name is required" in
  let? raw := RawRequest "POST" "/storage" (vset params "storage" name)
    orelse wrapf ("create storage " +:+ quote name) in
  Ret (Ok raw).

Definition UpdateStorageConfig (name : string) (params : Values) : io pveE (res json) :=
  guard negb (eqb name "") orelse errorf "update storage config: a storage name is required" in
  let? raw := RawRequest "PUT" (storage_config_path name) params
    orelse wrapf ("update storage config " +:+ quote name) in
  Ret (Ok raw).

(** [(?i)\bstorage '[^']*' does not exist\b] anywhere in a lowered text. *)
Definition storage_missing_at (s : string) : bool :=
  match cut_prefix "storage '" s with
  | None => false
  | Some s1 =>
      match cut (byte 39) s1 with
      | None => false
      | Some (_, s2) =>
          match cut_prefix " does not exist" s2 with
          | None => false
          | Some "" => true
          | Some (String c _) => negb (re_word c)
          end
      end
  end.
Fixpoint storageConfigNotFoundRE (prev_word : bool) (s : string) : bool :=
  (negb prev_word && storage_missing_at s) ||
  match s with
  | EmptyString => false
  | String c s' => storageConfigNotFoundRE (re_word c) s'
  end.
Definition trim_suffix (suf s : string) : string :=
  match cut_prefix (srev suf) (srev s) with Some r => srev r | None => s end.
Definition IsStorageNotFoundError (e : err) : bool :=
  match pveAnswer e with
  | None => false
  | Some answer =>
      match parameterErrors answer with
      | Some entries =>
          eqb (trim_suffix "." (trim_space (to_lower (default "" (entries !! "storage")))))
            "no such storage"
      | None => false
      end || storageConfigNotFoundRE false (to_lower answer)
  end.

Definition missing_storage : err :=
  NewStatusError "raw request" 500 "500 storage 'local-zfs' does not exist" "".
Example IsStorageNotFoundError_yes : IsStorageNotFoundError missing_storage = true.
Proof. vm_compute. reflexivity. Qed.
Example IsStorageNotFoundError_no :
  IsStorageNotFoundError (NewStatusError "raw request" 500 "500 user 'x' does not exist" "") = false.
Proof. vm_compute. reflexivity. Qed.
