(* ===== verification/StorageOps.v ===== *)
(** internal/idempotent's storage Ops: [VolumeAllocEnsure] and [VolumeFreeOrphans]
    (storagevolume.go), [StorageCreate] (storagecreate.go) and [StorageContentEnsure]
    (storagecontent.go). *)
From Stdlib Require Import Ascii.
From S2P Require Import Prelude GoLib Errors Json Utf8 Rest Vms Storage OpRun Client VmFields.

Definition content_path (node storage : string) : string :=
  "/nodes/" +:+ path_escape node +:+ "/storage/" +:+ path_escape storage +:+ "/content".
Definition volume_path (node storage volid : string) : string :=
  content_path node storage +:+ "/" +:+ path_escape volid.

Definition decodeScalarString (raw : json) (what : string) : res string :=
  let bad := "decode " +:+ what +:+ ": unexpected response " +:+ compact raw in
  match raw with
  | JNull => Er (errorf (bad +:+ ": expected a " +:+ what +:+ " string, got null"))
  | JStr s =>
      guard^ negb (eqb s "") orelse
        errorf (bad +:+ ": expected a non-empty " +:+ what +:+ " string, got " +:+ dq +:+ dq) in
      Ok s
  | _ => Er (wrapf bad (errorf "json: cannot unmarshal"))
  end.
(** From the last slash on, the storage prefix left out. *)
Fixpoint after_last_slash (s : string) : string :=
  match s with
  | EmptyString => ""
  | String c s' =>
      if contains "/" s' then after_last_slash s' else if is_byte 47 c then s' else s
  end.
Definition volidBasename (volid : string) : string :=
  after_last_slash (match cut (byte 58) volid with Some (_, r) => r | None => volid end).

(** ** VolumeAllocEnsure *)
Section alloc.
(** The mutable state is [volid]. *)
Context (node storage Filename Size_ : string) (VMID : Z) (Format_ : string).
Definition at_ : string := quote node +:+ "/" +:+ quote storage.

Definition alloc_Validate : res unit :=
  guard^ negb (eqb storage "") orelse errorf "storage alloc: storage is required" in
  guard^ negb (eqb Filename "") orelse errorf "storage alloc: filename is required" in
  guard^ negb (eqb Size_ "") orelse errorf "storage alloc: size is required" in
  guard^ (1 <=? VMID)%Z orelse
    errorf ("storage alloc: vmid must be a positive integer, got " +:+ itoa VMID) in
  Ok tt.
(** [uint64(op.VMID)] *)
Definition alloc_match (v : option StorageContent) : option string :=
  match v with
  | Some v => if (sc_vmid v =? VMID mod 2 ^ 64)%Z && eqb (volidBasename (sc_volid v)) Filename
              then Some (sc_volid v) else None
  | None => None
  end.
Definition alloc_Read (s : string) : io clientE (res snap * string) :=
  let! vols := trigger (CGetStorageVolumes node storage) in
  Ret match vols with
      | Er e => (Er (wrapf ("storage alloc: read volumes on " +:+ at_) e), s)
      | Ok l => let volid := default "" (head (omap alloc_match (l : list _))) in
                (Ok (SText volid), volid)
      end.
Definition alloc_Satisfied (_ : string) (current : snap) : bool := negb (snap_empty current).
Definition alloc_params : Values :=
  let params := vset (vset (vset ∅ "filename" Filename) "size" Size_) "vmid" (itoa VMID) in
  if eqb Format_ "" then params else vset params "format" Format_.
Definition alloc_body : io clientE (res string) :=
  let what := "storage alloc: allocate " +:+ quote Filename +:+ " on " +:+ at_ in
  let? raw := trigger (CRawRequest "POST" (content_path node storage) alloc_params) orelse wrapf what in
  match decodeScalarString raw "volid" with
  | Er e => Ret (Er (wrapf what e))
  | Ok returned =>
      let? vols := trigger (CGetStorageVolumes node storage)
        orelse wrapf ("storage alloc: read-back " +:+ quote returned +:+ " on " +:+ at_) in
      guard existsb (λ v, match v with Some v => eqb (sc_volid v) returned | None => false end) vols orelse
        errorf ("storage alloc: the POST for " +:+ quote Filename +:+ " returned volid "
          +:+ quote returned +:+ " but GetStorageVolumes does not list it (second signal failed)") in
      Ret (Ok returned)
  end.
Definition alloc_Apply (s : string) : io clientE (res unit * string) :=
  let! r := alloc_body in
  Ret match r with Ok volid => (Ok tt, volid) | Er e => (Er e, s) end.
Definition VolumeAllocEnsure : Op string :=
  {| Read := alloc_Read; Satisfied := alloc_Satisfied; Apply := alloc_Apply; ReRead := None;
     PostApply := None; PostNoop := None |}.
End alloc.

(** ** VolumeFreeOrphans *)
Record free_state := { Applied : list string; orphans : list (option StorageContent) }.
Section free.
(** [CompleteVMIDs] and [ClusterPairs] are slices: [None] is nil. *)
Context (node storage : string) (VMID : Z) (CompleteVMIDs : option (list Z))
        (ClusterPairs : option (list (string * Z))).
Definition free_what : string :=
  "storage free-orphans: vmid " +:+ itoa VMID +:+ " on " +:+ at_ node storage.

Definition free_scan : io clientE (res (list (option StorageContent))) :=
  let scan_what := wrapf ("storage free-orphans: determine orphans for vmid " +:+ itoa VMID
                          +:+ " on " +:+ at_ node storage) in
  match ClusterPairs, CompleteVMIDs with
  | Some pairs, None =>
      let? os := trigger (COrphansInCluster node storage VMID pairs) orelse scan_what in Ret (Ok os)
  | None, Some vmids =>
      let? stg := trigger (CGetStorage node storage)
        orelse wrapf (free_what +:+ ": read storage for the shared-selector guard") in
      guard (st_shared stg =? 0)%Z orelse
        wrapf_post free_what (sent ErrUnverifiableRead) "storage is shared but the free was built with a node-scoped CompleteVMIDs; a cluster-wide ClusterPairs is required to free shared storage safely" in
      let? os := trigger (COrphansOnNode node storage VMID vmids) orelse scan_what in Ret (Ok os)
  | _, _ =>
      Ret (Er (wrapf_post free_what (sent ErrUnverifiableRead) "exactly one of ClusterPairs (shared, cluster-wide) or CompleteVMIDs (node-scoped) must be set, not both and not neither"))
  end.
Definition free_Read (s : free_state) : io clientE (res snap * free_state) :=
  let! r := free_scan in
  Ret match r with
      | Er e => (Er e, s)
      | Ok os => (Ok (SJson (JArr ((λ o, JStr (sc_volid o)) <$> omap id os))),
                  {| Applied := Applied s; orphans := os |})
      end.
Definition free_Satisfied (_ : free_state) (current : snap) : bool :=
  match current with
  | SText t => eqb t "[]"
  | SJson j => eqb (compact j) "[]"
  | SVM _ => false
  end.
(** The DELETE runs under a time limit of its own. *)
Definition freeOne (volid : string) : io clientE (res unit) :=
  let? raw := trigger (CRawRequest "DELETE" (volume_path node storage volid) ∅) orelse id in
  match decodeScalarString raw "upid" with
  | Er e => Ret (Er e)
  | Ok upid => trigger (CWaitForTask node upid)
  end.
Definition free_step (o : option StorageContent) (s : free_state) : io clientE (res unit * free_state) :=
  match o with
  | None => Ret (Ok tt, s)
  | Some o =>
      let! r := freeOne (sc_volid o) in
      Ret match r with
          | Er e => (Er (wrapf ("storage free-orphans: free " +:+ quote (sc_volid o)) e), s)
          | Ok _ => (Ok tt, {| Applied := appendOnce (Applied s) (sc_volid o); orphans := orphans s |})
          end
  end.
Definition free_Apply (s : free_state) : io clientE (res unit * free_state) :=
  each free_step (orphans s) s.
Definition VolumeFreeOrphans : Op free_state :=
  {| Read := free_Read; Satisfied := free_Satisfied; Apply := free_Apply; ReRead := None;
     PostApply := None; PostNoop := None |}.
End free.

(** ** Configuration values *)
Definition jsonScalar (raw : json) : string :=
  match as_string raw with Some s => s | None => compact raw end.
(** The config with its keys lowered, as the lookups see it. *)
Definition lowered (raw : gmap string json) : gmap string string :=
  foldl (λ m kv, <[to_lower kv.1 := jsonScalar kv.2]> m) ∅ (entries raw).
Definition upidIfScalar (raw : json) : option string :=
  match as_string raw with
  | Some s => if has_prefix "UPID:" s then Some s else None
  | None => None
  end.
(** A storage write may answer a task, which is then waited for. *)
Definition wait_if_upid (node : string) (raw : json) (h : err → err) : io clientE (res unit) :=
  match upidIfScalar raw with
  | Some upid => let? _ := trigger (CWaitForTask node upid) orelse h in Ret (Ok tt)
  | None => Ret (Ok tt)
  end.

(** ** StorageCreate *)
Section create.
(** The mutable state is [current]. *)
Context (node SName : string) (Params : Values).
Definition screate_what : string := "storage create: storage " +:+ quote SName.

Definition requiredKeysByType (typ : string) : list string := if eqb typ "zfspool" then ["pool"] else [].
Fixpoint check_required (typ : string) (keys : list string) : res unit :=
  match keys with
  | [] => Ok tt
  | key :: keys' =>
      guard^ negb (eqb (vget Params key) "") orelse
        errorf (screate_what +:+ ": type " +:+ quote typ +:+ " requires " +:+ key
          +:+ " to be set (e.g. --data " +:+ key +:+ "=<value>)") in
      check_required typ keys'
  end.
Definition screate_Validate : res unit :=
  guard^ negb (eqb SName "") orelse errorf "storage create: a storage name is required" in
  let typ := vget Params "type" in
  guard^ negb (eqb typ "") orelse errorf (screate_what +:+ ": a storage type is required (--type)") in
  check_required typ (requiredKeysByType typ).

Definition encodeDesired : string :=
  Join " " ((λ k, k +:+ "=" +:+ vget Params k) <$>
            filter (λ k, k ≠ "storage") (sorted_keys Params)).
Definition snap_string (s : snap) : string :=
  match s with SText t => t | SJson j => compact j | SVM _ => "" end.
Definition StorageDiffersError (actual : snap) : err :=
  Err (KStorageDiffers SName (snap_string actual))
    ("storage create: storage " +:+ quote SName +:+ " already exists with a differing definition; refusing to change it (a future `storage set` converges one deliberately). desired {"
     +:+ encodeDesired +:+ "}; actual " +:+ snap_string actual) [].

(** Drift is looked for in the wanted keys only, without regard to case. *)
Definition param_matches (actual : gmap string string) (kv : string * list string) : bool :=
  let lk := to_lower kv.1 in
  if eqb lk "storage" || eqb lk "digest" then true
  else match actual !! lk with
       | None => false
       | Some got => eqb got (vget Params kv.1)
       end.
Definition matches (current : snap) : bool :=
  match decode_snap current ≫= as_object with
  | None => false
  | Some raw => forallb (param_matches (lowered (default ∅ raw))) (entries Params)
  end.

Definition screate_Read (s : snap) : io clientE (res snap * snap) :=
  let! raw := trigger (CGetStorageConfigRaw SName) in
  Ret match raw with
      | Er e => if IsStorageNotFoundError e then (Ok (SText ""), SText "")
                else (Er (wrapf (screate_what +:+ ": read current config") e), s)
      | Ok raw => (Ok (SJson (JMap raw)), SJson (JMap raw))
      end.
Definition screate_Satisfied (_ : snap) (current : snap) : bool :=
  if snap_empty current then false else matches current.
Definition screate_body (s : snap) : io clientE (res unit) :=
  match screate_Validate with
  | Er e => Ret (Er e)
  | Ok _ =>
      if negb (snap_empty s) && negb (matches s) then Ret (Er (StorageDiffersError s))
      else
        let? raw := trigger (CCreateStorage SName Params) orelse wrapf screate_what in
        wait_if_upid node raw (wrapf screate_what)
  end.
Definition screate_Apply (s : snap) : io clientE (res unit * snap) :=
  let! r := screate_body s in Ret (r, s).
Definition StorageCreate : Op snap :=
  {| Read := screate_Read; Satisfied := screate_Satisfied; Apply := screate_Apply; ReRead := None;
     PostApply := None; PostNoop := None |}.
End create.

(** ** StorageContentEnsure *)
Record storageContentSnapshot :=
  { content : gset string; digest : string; sfields : gmap string string }.
Definition snapshot_zero : storageContentSnapshot := {| content := ∅; digest := ""; sfields := ∅ |}.
Section content_ensure.
(** The mutable state is the [snapshot] Read keeps for Satisfied. *)
Context (node storage ContentType : string).
Definition setc_what : string := "storage set-content: storage " +:+ quote storage.
Definition validStorageContentTypes : gset string :=
  list_to_set ["images"; "rootdir"; "iso"; "vztmpl"; "backup"; "snippets"; "import"].

Definition setc_Validate : res unit :=
  guard^ negb (eqb storage "") orelse errorf "storage set-content: a storage name is required" in
  guard^ negb (eqb ContentType "") orelse errorf "storage set-content: a content type is required" in
  guard^ bool_decide (ContentType ∈ validStorageContentTypes) orelse
    errorf (setc_what +:+ ": unknown content type " +:+ quote ContentType
      +:+ "; valid types are backup, images, import, iso, rootdir, snippets, vztmpl") in
  Ok tt.
Definition content_types (c : string) : gset string :=
  list_to_set (filter (λ t, t ≠ "") (trim_space <$> Split (byte 44) c)).
Definition parseStorageContentSnapshot (raw : gmap string json) : res storageContentSnapshot :=
  match raw !! "digest" with
  | None => Er (errorf (setc_what +:+ ": config carries no digest (cannot compare-and-swap safely)"))
  | Some digestRaw =>
      guard^ negb (eqb (jsonScalar digestRaw) "") orelse
        errorf (setc_what +:+ ": config digest is empty") in
      Ok {| content := match lowered raw !! "content" with Some c => content_types c | None => ∅ end;
            digest := jsonScalar digestRaw; sfields := lowered raw |}
  end.
Definition contentListString (set_ : gset string) : string := Join "," (sort_strings (elements set_)).

Definition setc_Read (s : storageContentSnapshot) : io clientE (res snap * storageContentSnapshot) :=
  let! raw := trigger (CGetStorageConfigRaw storage) in
  Ret match raw with
      | Er e =>
          (Er (if IsStorageNotFoundError e
               then wrapf (setc_what +:+ " does not exist (create it first; set-content does not create a storage)") e
               else wrapf (setc_what +:+ ": read current config") e), s)
      | Ok raw =>
          match parseStorageContentSnapshot raw with
          | Er e => (Er e, s)
          | Ok sn => (Ok (SText (contentListString (content sn))), sn)
          end
      end.
Definition setc_Satisfied (s : storageContentSnapshot) (_ : snap) : bool :=
  bool_decide (ContentType ∈ content s).
Definition unexpected_changes (pre post : gmap string string) : list string :=
  filter (λ k, k ≠ "content" ∧ k ≠ "digest" ∧ default "" (pre !! k) ≠ default "" (post !! k))
    (sorted_keys (pre ∪ post)).
Definition diffGuard (pre : storageContentSnapshot) : io clientE (res unit) :=
  let? raw := trigger (CGetStorageConfigRaw storage)
    orelse wrapf (setc_what +:+ ": diff-guard re-read") in
  Ret (let^ post := parseStorageContentSnapshot raw orelse id in
       let unexpected := unexpected_changes (sfields pre) (sfields post) in
       guard^ bool_decide (unexpected = []) orelse
         errorf (setc_what +:+ ": the write changed unexpected field(s) " +:+ Join ", " unexpected
           +:+ " (only content and digest were meant to change) — refusing to report success") in
       guard^ bool_decide (ContentType ∈ content post) orelse
         errorf (setc_what +:+ ": the write reported success but content type " +:+ quote ContentType
           +:+ " is not present on re-read — refusing to report success") in
       Ok tt).
Definition setc_form (pre : storageContentSnapshot) : Values :=
  vset (vset ∅ "content" (contentListString ({[ContentType]} ∪ content pre))) "digest" (digest pre).
Definition setc_body : io clientE (res unit) :=
  match setc_Validate with
  | Er e => Ret (Er e)
  | Ok _ =>
      let? raw := trigger (CGetStorageConfigRaw storage)
        orelse wrapf (setc_what +:+ ": re-read before write") in
      match parseStorageContentSnapshot raw with
      | Er e => Ret (Er e)
      | Ok pre =>
          let? resp := trigger (CUpdateStorageConfig storage (setc_form pre))
            orelse (λ e, if IsDigestConflictError e then wrapf2 setc_what (sent ErrConflict) e
                         else wrapf (setc_what +:+ ": write content") e) in
          let? _ := wait_if_upid node resp (wrapf setc_what) orelse id in
          diffGuard pre
      end
  end.
Definition setc_Apply (s : storageContentSnapshot) : io clientE (res unit * storageContentSnapshot) :=
  let! r := setc_body in Ret (r, s).
Definition StorageContentEnsure : Op storageContentSnapshot :=
  {| Read := setc_Read; Satisfied := setc_Satisfied; Apply := setc_Apply; ReRead := None;
     PostApply := None; PostNoop := None |}.
End content_ensure.

(** * Lemmas *)
(** ** The orphans freed *)
Section free_spec.
Context (node storage : string) (VMID : Z) (CompleteVMIDs : option (list Z))
        (ClusterPairs : option (list (string * Z))).
(** The volume was reported as an orphan, by the scan the one selector given asks
    for; on one node only of a storage just read as not shared. *)
Definition scanned (v : string) (tr : list (event clientE)) : Prop :=
  ∃ o os, Some o ∈ os ∧ sc_volid o = v ∧
    ((∃ pairs, ClusterPairs = Some pairs ∧ CompleteVMIDs = None ∧
        Ev (COrphansInCluster node storage VMID pairs) (Ok os) ∈ tr) ∨
     (∃ vmids stg, CompleteVMIDs = Some vmids ∧ ClusterPairs = None ∧
        Ev (CGetStorage node storage) (Ok stg) ∈ tr ∧ st_shared stg = 0%Z ∧
        Ev (COrphansOnNode node storage VMID vmids) (Ok os) ∈ tr)).
Definition freed (v : string) (tr : list (event clientE)) : Prop :=
  ∃ raw upid, Ev (CRawRequest "DELETE" (volume_path node storage v) ∅) (Ok raw) ∈ tr ∧
    decodeScalarString raw "upid" = Ok upid ∧ Ev (CWaitForTask node upid) (Ok tt) ∈ tr.
(** Every change is the deletion of a volume reported before it. *)
Definition deletes_scanned (tr : list (event clientE)) : Prop :=
  ∀ tr1 ev tr2, tr = tr1 ++ ev :: tr2 → changing_event ev = true →
    ∃ v a, ev = Ev (CRawRequest "DELETE" (volume_path node storage v) ∅) a ∧ scanned v tr1.
Definition free_inv (s : free_state) (tr : list (event clientE)) : Prop :=
  deletes_scanned tr ∧ (∀ o, Some o ∈ orphans s → scanned (sc_volid o) tr) ∧
  (∀ v, v ∈ Applied s → freed v tr).

Lemma scanned_app v tr tr' : scanned v tr → scanned v (tr ++ tr').
Proof.
  intros (o & os & Ho & Hv & H). exists o, os. split_and!; [done..|].
  destruct H as [(ps & ? & ? & ?)|(vs & stg & ? & ? & ? & ? & ?)]; [left; exists ps|right; exists vs, stg];
    rewrite !elem_of_app; auto 10.
Qed.
Lemma freed_app v tr tr' : freed v tr → freed v (tr ++ tr').
Proof.
  intros (raw & upid & ? & ? & ?). exists raw, upid. rewrite !elem_of_app. auto 10.
Qed.
Lemma deletes_quiet pre tr : changes tr = [] → deletes_scanned pre → deletes_scanned (pre ++ tr).
Proof.
  intros Hq Hpre tr1 ev tr2 Heq Hch.
  assert (ev ∉ tr) as Hev.
  { intros Hin. assert (ev ∈ changes tr) as Hc by by apply list_elem_of_filter.
    rewrite Hq in Hc. by apply elem_of_nil in Hc. }
  apply app_eq_app in Heq as (l & [[-> H]|[-> H]]).
  - destruct l as [|e l]; simpl in H.
    + rewrite <- H in Hev. exfalso. apply Hev. by left.
    + injection H as <- ->. by eapply Hpre.
  - rewrite H in Hev. exfalso. apply Hev. apply elem_of_app. right. by left.
Qed.
Lemma deletes_one pre v a :
  scanned v pre → deletes_scanned pre →
  deletes_scanned (pre ++ [Ev (CRawRequest "DELETE" (volume_path node storage v) ∅) a]).
Proof.
  intros Hs Hpre tr1 ev tr2 Heq Hch. destruct tr2 as [|ev' tr2 _] using rev_ind.
  - apply app_inj_tail in Heq as [-> <-]. eauto.
  - rewrite app_comm_cons, app_assoc in Heq. apply app_inj_tail in Heq as [-> _]. by eapply Hpre.
Qed.
Lemma free_inv_quiet s pre tr : changes tr = [] → free_inv s pre → free_inv s (pre ++ tr).
Proof.
  intros Hq (H1 & H2 & H3). split_and!; [by apply deletes_quiet| |].
  - intros o Ho. by apply scanned_app, H2.
  - intros v Hv. by apply freed_app, H3.
Qed.

Lemma free_Read_kept : kept free_inv (free_Read node storage VMID CompleteVMIDs ClusterPairs).
Proof.
  intros s pre Hs. unfold free_Read.
  eapply always_call with (P := λ tr r, changes tr = [] ∧
    ∀ os, r = Ok os → ∀ o, Some o ∈ os → scanned (sc_volid o) tr).
  - unfold free_scan. destruct ClusterPairs as [pairs|] eqn:Hp, CompleteVMIDs as [vmids|] eqn:Hv;
      cbn [bind trigger always]; [done| | |done].
    + intros [os|e]; cbn [always]; [|done]. split; [done|]. intros ? [= <-] o Ho.
      exists o, os. split_and!; [done..|]. left. exists pairs. split_and!; [done..|by left].
    + intros [stg|e]; cbn [bind always]; [|done].
      destruct (Z.eqb_spec (st_shared stg) 0) as [Hsh|]; cbn [bind trigger always]; [|done].
      intros [os|e]; cbn [always]; [|done]. split; [done|]. intros ? [= <-] o Ho.
      exists o, os. split_and!; [done..|]. right. exists vmids, stg.
      split_and!; [done|done|by left|done|right; by left].
  - intros tr [os|e] [Hq Hos]; cbn [always snd]; rewrite app_nil_r.
    + destruct (free_inv_quiet s pre tr Hq Hs) as (H1 & H2 & H3). split_and!; [done| |done].
      intros o Ho. destruct (Hos os eq_refl o Ho) as (o' & os' & ? & <- & Hor). exists o', os'.
      split_and!; [done..|].
      destruct Hor as [(ps & ? & ? & ?)|(vs & stg & ? & ? & ? & ? & ?)];
        [left; exists ps|right; exists vs, stg]; rewrite !elem_of_app; auto 10.
    + by apply free_inv_quiet.
Qed.
Lemma free_step_kept o s pre :
  (∀ x, o = Some x → scanned (sc_volid x) pre) → free_inv s pre →
  always (free_step node storage o s) (λ tr rs, free_inv rs.2 (pre ++ tr)).
Proof.
  intros Ho Hs. destruct o as [o|]; cbn [free_step]; [|cbn; by rewrite app_nil_r].
  specialize (Ho o eq_refl). destruct Hs as (H1 & H2 & H3).
  unfold freeOne. cbn [bind trigger always]. intros a.
  set (del := Ev (CRawRequest "DELETE" _ _) a).
  assert (∀ tr, changes tr = [] → free_inv s (pre ++ del :: tr)) as Hdel.
  { intros tr Htr. change (del :: tr) with ([del] ++ tr). rewrite app_assoc.
    apply free_inv_quiet; [done|]. split_and!; [by apply deletes_one| |].
    - intros o' Ho'. by apply scanned_app, H2.
    - intros v Hv. by apply freed_app, H3. }
  destruct a as [raw|e]; cbn [bind always]; [|by apply Hdel].
  destruct (decodeScalarString raw "upid") as [upid|e] eqn:Hu; cbn [bind trigger always]; [|by apply Hdel].
  intros w. destruct w as [[]|e]; cbn [bind always snd]; [|by apply Hdel].
  destruct (Hdel [Ev (CWaitForTask node upid) (Ok tt)] eq_refl) as (D1 & D2 & D3).
  split_and!; [done|done|]. cbn [Applied]. intros v [Hv| ->]%appendOnce_elem; [by apply D3|].
  exists raw, upid. split_and!; [|done|]; apply elem_of_app; right; [by left|right; by left].
Qed.
Lemma free_Apply_kept : kept free_inv (free_Apply node storage).
Proof.
  intros s pre Hs. unfold free_Apply.
  assert (∀ o, Some o ∈ orphans s → scanned (sc_volid o) pre) as Ho by apply Hs.
  revert Ho. generalize (orphans s). intros l. revert s pre Hs.
  induction l as [|o l IH]; intros s pre Hs Ho; cbn [each]; [cbn; by rewrite app_nil_r|].
  eapply always_call; [apply free_step_kept; [|exact Hs]|].
  { intros x ->. apply Ho. by left. }
  intros tr [[[]|e] s'] Hs'; cbn [always snd] in *; [|by rewrite app_nil_r].
  eapply always_mono; [|apply IH; [exact Hs'|]].
  - intros tr' rs H. by rewrite app_assoc.
  - intros o' Ho'. apply scanned_app, Ho. by right.
Qed.
End free_spec.

#[export] Instance VolumeFreeOrphans_quiet node storage VMID vs ps :
  QuietReads (VolumeFreeOrphans node storage VMID vs ps).
Proof.
  split; cbn [Read ReRead PostApply PostNoop VolumeFreeOrphans]; [|done..]. intros s.
  unfold free_Read, free_scan. destruct ps as [pairs|], vs as [vmids|]; cbn [bind trigger always];
    [done| | |done].
  - by intros [os|e].
  - intros [stg|e]; cbn [bind always]; [|done].
    destruct (st_shared stg =? 0)%Z; cbn [bind trigger always]; [|done]. by intros [os|e].
Qed.
#[export] Instance VolumeAllocEnsure_quiet node storage f sz VMID fmt :
  QuietReads (VolumeAllocEnsure node storage f sz VMID fmt).
Proof. split; cbn [Read ReRead PostApply PostNoop VolumeAllocEnsure]; [|done..]. intros s. simpl. done. Qed.
#[export] Instance StorageCreate_quiet node name Params : QuietReads (StorageCreate node name Params).
Proof. split; cbn [Read ReRead PostApply PostNoop StorageCreate]; [|done..]. intros s. simpl. done. Qed.
#[export] Instance StorageContentEnsure_quiet node storage ct :
  QuietReads (StorageContentEnsure node storage ct).
Proof. split; cbn [Read ReRead PostApply PostNoop StorageContentEnsure]; [|done..]. intros s. simpl. done. Qed.

(** ** The content list *)
Lemma runes_whole s : sconcat (runes s).*2 = s.
Proof.
  remember (slen s) as k eqn:Hk. revert s Hk. induction (lt_wf k) as [k _ IH].
  intros [|c s] ->; [done|]. destruct (decode_rune c s) as [[r bs] rest] eqn:Hd.
  rewrite (runes_cons _ _ _ _ _ Hd). destruct (decode_rune_app _ _ _ _ _ Hd) as [Ha Hb].
  cbn [fmap list_fmap sconcat snd]. apply (f_equal slen) in Ha as Hl. rewrite str_length_app in Hl.
  simpl in Hl. rewrite (IH (slen rest)) by (simpl; lia). done.
Qed.
Lemma any_byte_app p s t : any_byte p (s +:+ t) = any_byte p s || any_byte p t.
Proof. induction s as [|c s IH]; [done|]. rewrite str_cons_app. simpl. by rewrite IH, orb_assoc. Qed.
Lemma any_byte_sconcat p l : any_byte p (sconcat l) = existsb (any_byte p) l.
Proof. induction l as [|s l IH]; [done|]. simpl. by rewrite any_byte_app, IH. Qed.
Lemma drop_spaces_suffix l : ∃ l', l = l' ++ drop_spaces l.
Proof.
  induction l as [|rb l [l' IH]]; [by exists []|]. simpl. destruct (is_space rb.1); [|by exists []].
  exists (rb :: l'). simpl. by rewrite <- IH.
Qed.
Lemma any_byte_trim p s : any_byte p s = false → any_byte p (trim_space s) = false.
Proof.
  rewrite <- (runes_whole s) at 1. unfold trim_space. rewrite !any_byte_sconcat.
  destruct (drop_spaces_suffix (runes s)) as [l1 H1].
  destruct (drop_spaces_suffix (reverse (drop_spaces (runes s)))) as [l2 H2].
  set (kept_ := drop_spaces (reverse (drop_spaces (runes s)))) in *.
  assert (runes s = l1 ++ reverse kept_ ++ reverse l2) as ->.
  { rewrite H1 at 1. f_equal. rewrite <- reverse_app, <- H2. by rewrite reverse_involutive. }
  rewrite !fmap_app, !existsb_app, !fmap_reverse. intros [_ [H _]%orb_false_iff]%orb_false_iff.
  exact H.
Qed.
Lemma content_types_nocomma c t :
  t ∈ content_types c → any_byte (is_byte 44) t = false.
Proof.
  unfold content_types. rewrite elem_of_list_to_set, list_elem_of_filter, list_elem_of_fmap.
  intros (_ & x & -> & Hx). apply any_byte_trim.
  pose proof (Split_parts (byte 44) c) as H. rewrite Forall_forall in H. by apply H.
Qed.
(** The list sent names exactly the wanted type and those that were there. *)
Lemma setc_form_content storage ct raw pre :
  setc_Validate storage ct = Ok tt → parseStorageContentSnapshot storage raw = Ok pre →
  ∀ t, t ∈ Split (byte 44) (vget (setc_form ct pre) "content") ↔ t = ct ∨ t ∈ content pre.
Proof.
  intros Hval Hpre t.
  assert (vget (setc_form ct pre) "content" = contentListString ({[ct]} ∪ content pre)) as ->.
  { unfold vget, setc_form, vset. rewrite lookup_insert_ne by done. by rewrite lookup_insert_eq. }
  assert (any_byte (is_byte 44) ct = false) as Hct.
  { unfold setc_Validate in Hval.
    repeat (match type of Hval with (if ?b then _ else _) = _ => destruct b eqn:? end; [|done]).
    assert (∀ t, t ∈ validStorageContentTypes → any_byte (is_byte 44) t = false) as H.
    { intros x Hx. unfold validStorageContentTypes in Hx. rewrite elem_of_list_to_set in Hx.
      repeat (apply elem_of_cons in Hx as [->|Hx]; [done|]). by apply elem_of_nil in Hx. }
    apply H. by eapply bool_decide_eq_true_1. }
  assert (∀ x, x ∈ content pre → any_byte (is_byte 44) x = false) as Hpc.
  { unfold parseStorageContentSnapshot in Hpre. destruct (raw !! "digest"); [|done].
    destruct (negb _) in Hpre; [|done]. injection Hpre as <-. cbn [content].
    destruct (lowered raw !! "content") as [c|]; [apply content_types_nocomma|set_solver]. }
  unfold contentListString. rewrite (Split_Join _ (byte 44)).
  - rewrite sort_strings_elem, elem_of_elements. set_solver.
  - intros H. assert (ct ∈ sort_strings (elements ({[ct]} ∪ content pre))) as Hin.
    { rewrite sort_strings_elem, elem_of_elements. set_solver. }
    rewrite H in Hin. by apply elem_of_nil in Hin.
  - apply Forall_forall. intros x Hx. rewrite sort_strings_elem, elem_of_elements in Hx.
    change (Ascii.N_of_ascii (byte 44)) with 44%N. set_solver.
Qed.

Lemma VolumeFreeOrphans_run node storage VMID vs ps key force :
  always (run_op (VolumeFreeOrphans node storage VMID vs ps) key force
            {| Applied := []; orphans := [] |})
    (λ tr rs, deletes_scanned node storage VMID vs ps tr ∧
       ∀ v, v ∈ Applied rs.2 → freed node storage v tr).
Proof.
  eapply always_mono; [|apply (run_op_invariant _ (free_inv node storage VMID vs ps))].
  - intros tr rs (H1 & _ & H3). done.
  - apply free_inv_quiet.
  - apply free_Read_kept.
  - apply free_Apply_kept.
  - done.
  - done.
  - done.
  - split_and!; [|cbn; set_solver|cbn; set_solver].
    intros tr1 ev tr2 H. by destruct tr1.
Qed.

(** * Properties *)

(** Freeing orphans deletes only volumes that a scan of that same [Run] reported
    before, as orphans of that VM, the scan being the one the one selector given asks
    for, and on a single node only of a storage read as not shared; every volume
    reported as freed was deleted by a task that was seen to succeed. *)
Theorem VolumeFreeOrphans_only_orphans node storage VMID vs ps key force :
  always (run_op (VolumeFreeOrphans node storage VMID vs ps) key force
            {| Applied := []; orphans := [] |})
    (λ tr rs, deletes_scanned node storage VMID vs ps tr ∧
       ∀ v, v ∈ Applied rs.2 → freed node storage v tr).
Proof. apply VolumeFreeOrphans_run. Qed.

(** Allocating a volume makes one request; success means PVE answered a volid and
    a second read lists it. The Op finds the volume there exactly when the storage
    lists one of the VM under that file name. *)
Theorem VolumeAllocEnsure_verified node storage f sz VMID fmt s :
  always (alloc_Apply node storage f sz VMID fmt s) (λ tr rs, ∃ a tail,
    tr = Ev (CRawRequest "POST" (content_path node storage) (alloc_params f sz VMID fmt)) a :: tail ∧
    changes tail = [] ∧
    (rs.1 = Ok tt → ∃ raw vols v, a = Ok raw ∧ decodeScalarString raw "volid" = Ok rs.2 ∧
       tail = [Ev (CGetStorageVolumes node storage) (Ok vols)] ∧ Some v ∈ vols ∧ sc_volid v = rs.2)) ∧
  always (alloc_Read node storage f VMID s) (λ tr rs, changes tr = [] ∧
    ∀ cur, rs.1 = Ok cur → ∃ vols, tr = [Ev (CGetStorageVolumes node storage) (Ok vols)] ∧
      ((∀ v, Some v ∈ vols → sc_volid v ≠ "") →
       alloc_Satisfied rs.2 cur = true ↔
       ∃ v, Some v ∈ vols ∧ sc_vmid v = (VMID mod 2 ^ 64)%Z ∧ volidBasename (sc_volid v) = f)).
Proof.
  split.
  - unfold alloc_Apply, alloc_body. cbn [bind trigger always]. intros a.
    destruct a as [raw|e]; cbn [bind always]; [|by exists (Er e), []].
    destruct (decodeScalarString raw "volid") as [r|e] eqn:Hr; cbn [bind trigger always];
      [|by exists (Ok raw), []].
    intros vols. destruct vols as [vols|e]; cbn [bind always]; [|by eexists _, _].
    destruct (existsb _ vols) eqn:Hex; cbn [bind always]; [|by eexists _, _].
    exists (Ok raw). eexists. split; [done|]. split; [done|]. intros _. exists raw, vols.
    apply existsb_exists in Hex as ([v|] & Hin & Hv); [|done]. exists v.
    apply list_elem_of_In in Hin. apply eqb_true in Hv. done.
  - unfold alloc_Read. cbn [bind trigger always]. intros [vols|e]; cbn [fst snd]; (split; [done|]); [|done].
    intros cur [= <-]. exists vols. split; [done|]. intros Hne. unfold alloc_Satisfied. cbn [snap_empty].
    assert (∀ v x, alloc_match f VMID v = Some x ↔ ∃ w, v = Some w ∧ x = sc_volid w ∧
              sc_vmid w = (VMID mod 2 ^ 64)%Z ∧ volidBasename (sc_volid w) = f) as Hm.
    { intros [w|] x; cbn [alloc_match]; [|naive_solver].
      destruct (Z.eqb_spec (sc_vmid w) (VMID mod 2 ^ 64)) as [Hz|Hz]; cbn [andb]; [|naive_solver].
      destruct (eqb (volidBasename (sc_volid w)) f) eqn:He.
      - apply eqb_true in He. naive_solver.
      - split; [done|]. intros (w' & [= <-] & _ & _ & Hf). by rewrite Hf, eqb_refl in He. }
    destruct (omap (alloc_match f VMID) vols) as [|x l] eqn:Ho; cbn.
    + split; [done|]. intros (v & Hin & Hz & Hf). exfalso.
      assert (sc_volid v ∈ omap (alloc_match f VMID) vols) as Hx.
      { apply list_elem_of_omap. exists (Some v). split; [done|]. apply Hm. eauto. }
      rewrite Ho in Hx. by apply elem_of_nil in Hx.
    + assert (x ∈ omap (alloc_match f VMID) vols) as Hx by (rewrite Ho; by left).
      apply list_elem_of_omap in Hx as (v & Hin & Hv). apply Hm in Hv as (w & -> & -> & Hz & Hf).
      split; [by eauto|]. intros _. destruct (eqb (sc_volid w) "") eqn:He; [|done].
      apply eqb_true in He. by destruct (Hne w Hin).
Qed.

(** Creating a storage never changes one: over a definition that differs from the
    wanted one it is refused without a request, with both definitions in the error;
    otherwise the only change is the create. A definition matches exactly when the
    config carries every wanted key (their case aside) with the wanted value. *)
Theorem StorageCreate_refuses node name Params s raw :
  (matches Params (SJson (JMap raw)) = true ↔
   ∀ key vs, Params !! key = Some vs → to_lower key ≠ "storage" → to_lower key ≠ "digest" →
     lowered raw !! to_lower key = Some (vget Params key)) ∧
  always (screate_Apply node name Params s) (λ tr rs,
    (screate_Validate name Params = Ok tt → snap_empty s = false → matches Params s = false →
       tr = [] ∧ rs.1 = Er (StorageDiffersError name Params s)) ∧
    (changes tr ≠ [] → screate_Validate name Params = Ok tt ∧ ∃ a,
       changes tr = [Ev (CCreateStorage name Params) a] ∧ (snap_empty s = true ∨ matches Params s = true)) ∧
    (rs.1 = Ok tt → ∃ j, Ev (CCreateStorage name Params) (Ok j) ∈ tr ∧
       ∀ upid, upidIfScalar j = Some upid → Ev (CWaitForTask node upid) (Ok tt) ∈ tr)).
Proof.
  split.
  - unfold matches. cbn [decode_snap mbind option_bind]. rewrite fields_of_JMap.
    cbn [default]. set (actual := lowered _). rewrite forallb_forall. setoid_rewrite <- list_elem_of_In.
    assert (∀ key vs, param_matches Params actual (key, vs) = true ↔
      (to_lower key ≠ "storage" → to_lower key ≠ "digest" →
       actual !! to_lower key = Some (vget Params key))) as Hp.
    { intros key vs. unfold param_matches. cbn [fst].
      destruct (eqb (to_lower key) "storage") eqn:H1; [apply eqb_true in H1; naive_solver|].
      destruct (eqb (to_lower key) "digest") eqn:H2; [apply eqb_true in H2; naive_solver|]. cbn [orb].
      assert (to_lower key ≠ "storage") by (intros H; by rewrite H in H1).
      assert (to_lower key ≠ "digest") by (intros H'; by rewrite H' in H2).
      destruct (actual !! to_lower key) as [g|]; [|naive_solver]. rewrite eqb_true. naive_solver. }
    split.
    + intros H key vs Hk. apply (Hp key vs), H. by apply elem_of_map_to_list.
    + intros H [key vs] Hk. apply Hp. apply elem_of_map_to_list in Hk. by apply H with vs.
  - unfold screate_Apply, screate_body. destruct (screate_Validate name Params) as [[]|e]; [|done].
    destruct (snap_empty s) eqn:Hs, (matches Params s) eqn:Hm; cbn [negb andb bind trigger always];
      [..|by split_and!].
    all: intros a; destruct a as [j|e]; cbn [bind always fst]; [|split_and!; [done|eauto|done]].
    all: unfold wait_if_upid; destruct (upidIfScalar j) as [upid|] eqn:Hu; cbn [bind trigger always fst];
      [intros w; destruct w as [[]|e]; cbn [bind always fst]|]; by_calls;
      (split_and!; [done|eauto|]); try done; intros _; exists j; (split; [by left|]); rewrite ?Hu; try done.
    all: intros ? [= <-]; right; by left.
Qed.

(** Setting a content type is a compare-and-swap that only adds: the one update
    carries the digest of the config read just before it and the types that config
    had plus the wanted one; success means that on a re-read the type is there and
    no field but [content] and [digest] has changed. *)
Theorem StorageContentEnsure_adds node storage ct s :
  always (setc_Apply node storage ct s) (λ tr rs, changes tr ≠ [] →
    ∃ raw pre a tail, parseStorageContentSnapshot storage raw = Ok pre ∧
      tr = Ev (CGetStorageConfigRaw storage) (Ok raw) ::
           Ev (CUpdateStorageConfig storage (setc_form ct pre)) a :: tail ∧ changes tail = [] ∧
      vget (setc_form ct pre) "digest" = digest pre ∧
      (∀ t, t ∈ Split (byte 44) (vget (setc_form ct pre) "content") ↔ t = ct ∨ t ∈ content pre) ∧
      (rs.1 = Ok tt → ∃ raw' post, Ev (CGetStorageConfigRaw storage) (Ok raw') ∈ tail ∧
         parseStorageContentSnapshot storage raw' = Ok post ∧ ct ∈ content post ∧
         ∀ k, k ≠ "content" → k ≠ "digest" →
           default "" (sfields pre !! k) = default "" (sfields post !! k))).
Proof.
  unfold setc_Apply, setc_body. destruct (setc_Validate storage ct) as [[]|e] eqn:Hval; cbn [bind trigger always]; [|done].
  intros [raw|e]; cbn [bind always]; [|done].
  destruct (parseStorageContentSnapshot storage raw) as [pre|e] eqn:Hpre; cbn [bind trigger always]; [|done].
  pose proof (setc_form_content storage ct raw pre Hval Hpre) as Hform.
  set (Good := λ (r : res unit) (tail : list (event clientE)), r = Ok tt → ∃ raw' post,
    Ev (CGetStorageConfigRaw storage) (Ok raw') ∈ tail ∧
    parseStorageContentSnapshot storage raw' = Ok post ∧ ct ∈ content post ∧
    ∀ k, k ≠ "content" → k ≠ "digest" → default "" (sfields pre !! k) = default "" (sfields post !! k)).
  intros a.
  assert (∀ tail r, changes tail = [] → Good r tail → ∃ raw0 pre0 a0 tail0,
    parseStorageContentSnapshot storage raw0 = Ok pre0 ∧
    Ev (CGetStorageConfigRaw storage) (Ok raw) ::
      Ev (CUpdateStorageConfig storage (setc_form ct pre)) a :: tail =
    Ev (CGetStorageConfigRaw storage) (Ok raw0) ::
      Ev (CUpdateStorageConfig storage (setc_form ct pre0)) a0 :: tail0 ∧ changes tail0 = [] ∧
    vget (setc_form ct pre0) "digest" = digest pre0 ∧
    (∀ t, t ∈ Split (byte 44) (vget (setc_form ct pre0) "content") ↔ t = ct ∨ t ∈ content pre0) ∧
    (r = Ok tt → ∃ raw' post, Ev (CGetStorageConfigRaw storage) (Ok raw') ∈ tail0 ∧
       parseStorageContentSnapshot storage raw' = Ok post ∧ ct ∈ content post ∧
       ∀ k, k ≠ "content" → k ≠ "digest" →
         default "" (sfields pre0 !! k) = default "" (sfields post !! k))) as Hfin.
  { intros tail r Hq Hg. exists raw, pre, a, tail. split_and!; [done..| |done|done].
    unfold vget, setc_form, vset. by rewrite lookup_insert_eq. }
  destruct a as [resp|e]; cbn [bind always fst]; [|intros _; by apply (Hfin [])].
  assert (always (diffGuard storage ct pre) (λ tail r, changes tail = [] ∧ Good r tail)) as Hdiff.
  { unfold diffGuard. cbn [bind trigger always]. intros [raw'|e]; cbn [bind always]; [|done].
    split; [done|]. unfold Good. destruct (parseStorageContentSnapshot storage raw') as [post|e] eqn:Hpost; [|done].
    case_bool_decide as Hun; [|done]. case_bool_decide as Hct; [|done]. intros _.
    exists raw', post. split_and!; [by left|done|done|]. intros k Hk1 Hk2. apply dec_stable. intros Hne.
    assert (k ∈ unexpected_changes (sfields pre) (sfields post)) as Hin; [|rewrite Hun in Hin; by apply elem_of_nil in Hin].
    apply list_elem_of_filter. split; [done|]. apply sorted_keys_elem. rewrite lookup_union_is_Some.
    destruct (sfields pre !! k), (sfields post !! k); [eauto..|done]. }
  unfold wait_if_upid. destruct (upidIfScalar resp) as [upid|]; cbn [bind trigger always].
  - intros w. destruct w as [[]|e]; cbn [bind always fst]; [|intros _; by apply (Hfin [_])].
    eapply always_call; [exact Hdiff|]. intros tail r [Hq Hg]. cbn [always fst]. rewrite app_nil_r.
    intros _. apply (Hfin (_ :: tail)); [by by_calls|].
    intros Hr. destruct (Hg Hr) as (raw' & post & Hin & H). exists raw', post. split; [by right|done].
  - eapply always_call; [exact Hdiff|]. intros tail r [Hq Hg]. cbn [always fst]. rewrite app_nil_r.
    intros _. by apply Hfin.
Qed.
