(* ===== verification/BridgeIsolation.v ===== *)
(** internal/idempotent/bridgeisolation.go: [BridgeIsolationEnsure], which deploys a
    hookscript that isolates a VM's bridge ports on every boot and isolates the live
    ports of a running VM; and the naming of tap devices (sshexec/bridgelink.go). *)
From Stdlib Require Import Ascii.
From S2P Require Import Prelude GoLib Errors Json Utf8 Rest Vms OpRun Client VmFields.

Definition TapDeviceName (vmid netIndex : Z) : string := "tap" +:+ itoa vmid +:+ "i" +:+ itoa netIndex.

Record tapObservation := { NetIndex : Z; ob_Exists : bool; ob_Isolated : bool }.
Record bridgeIsolationState := { Hookscript : string; Running : bool; Taps : list tapObservation }.
Definition tap_le (a b : tapObservation) : Prop := (NetIndex a ≤ NetIndex b)%Z.
Global Instance tap_le_dec : RelDecision tap_le.
Proof. intros a b. unfold tap_le. apply _. Defined.

(** [String]: taps in index order, left out when there are none. *)
Definition encode_tap (t : tapObservation) : json :=
  JObj [("net_index", JNum (itoa (NetIndex t))); ("exists", JBool (ob_Exists t));
        ("isolated", JBool (ob_Isolated t))].
Definition state_String (s : bridgeIsolationState) : json :=
  JObj (("hookscript", JStr (Hookscript s)) :: ("running", JBool (Running s)) ::
        match merge_sort tap_le (Taps s) with
        | [] => []
        | taps => [("taps", JArr (encode_tap <$> taps))]
        end).
(** [parseBridgeIsolationState] keeps what decodes and ignores the error. *)
Definition bool_field (name : string) (l : list (string * json)) : bool :=
  match struct_field name l with Some (JBool b) => b | _ => false end.
Definition decode_tap (j : json) : tapObservation :=
  let l := match j with JObj l => l | _ => [] end in
  {| NetIndex := default 0%Z (struct_field "net_index" l ≫= as_int);
     ob_Exists := bool_field "exists" l; ob_Isolated := bool_field "isolated" l |}.
Definition parseBridgeIsolationState (s : snap) : bridgeIsolationState :=
  let l := match decode_snap s with Some (JObj l) => l | _ => [] end in
  {| Hookscript := match struct_field "hookscript" l with Some (JStr h) => h | _ => "" end;
     Running := bool_field "running" l;
     Taps := match struct_field "taps" l with Some (JArr ts) => decode_tap <$> ts | _ => [] end |}.

Definition isSafeStorageID (s : string) : bool :=
  negb (eqb s "") && all_bytes (λ c, is_alnum c || one_of "-_." c) s.

Record isolation_state :=
  { bi_Applied : list string; bi_digest : string; bi_hookscript : string; bi_running : bool }.
Definition set_applied (what : string) (s : isolation_state) : isolation_state :=
  {| bi_Applied := appendOnce (bi_Applied s) what; bi_digest := bi_digest s;
     bi_hookscript := bi_hookscript s; bi_running := bi_running s |}.

Section isolation.
Context (node : string) (VMID : Z) (NetIndices : list Z) (StorageID : string).
Definition isol_what : string := "bridge isolation ensure: vm " +:+ itoa VMID.

Fixpoint check_indices (seen : gset Z) (l : list Z) : res unit :=
  match l with
  | [] => Ok tt
  | idx :: l' =>
      guard^ negb (idx <? 0)%Z orelse
        errorf (isol_what +:+ ": net index " +:+ itoa idx +:+ " is negative") in
      guard^ negb (bool_decide (idx ∈ seen)) orelse
        errorf (isol_what +:+ ": net index " +:+ itoa idx +:+ " listed more than once") in
      check_indices (seen ∪ {[idx]}) l'
  end.
Definition isol_Validate : res unit :=
  guard^ (0 <? VMID)%Z orelse
    errorf ("bridge isolation ensure: vmid must be positive, got " +:+ itoa VMID) in
  guard^ negb (bool_decide (NetIndices = [])) orelse
    errorf (isol_what +:+ ": at least one net index is required") in
  let^ _ := check_indices ∅ NetIndices orelse id in
  guard^ isSafeStorageID StorageID orelse
    errorf (isol_what +:+ ": storage id " +:+ quote StorageID +:+ " is empty or contains unsafe characters") in
  Ok tt.

Definition netIndicesSuffix : string := "net" +:+ Join "-" (itoa <$> sort_ints NetIndices).
Definition snippetFilename : string :=
  "pveforge-bridge-isolate-vm" +:+ itoa VMID +:+ "-" +:+ netIndicesSuffix +:+ ".sh".
Definition wantedHookscript : string := StorageID +:+ ":snippets/" +:+ snippetFilename.
Definition nl : string := chr 10.
Definition isolate_line (idx : Z) : string :=
  "  bridge link set dev " +:+ TapDeviceName VMID idx +:+ " isolated on 2>/dev/null || true" +:+ nl.
Definition scriptContent : string :=
  "#!/bin/sh" +:+ nl
  +:+ "# Generated by pveforge — do not edit by hand; Apply overwrites this file" +:+ nl
  +:+ "# every time bridge-isolation state is reconciled for this VM." +:+ nl
  +:+ "#" +:+ nl
  +:+ "# Always exits 0: a non-zero exit on any phase other than post-start would" +:+ nl
  +:+ "# abort that PVE lifecycle action (e.g. blocking the VM from starting or" +:+ nl
  +:+ "# stopping), which this best-effort networking tweak must never do." +:+ nl
  +:+ "if [ " +:+ dq +:+ "$2" +:+ dq +:+ " = " +:+ dq +:+ "post-start" +:+ dq +:+ " ]; then" +:+ nl
  +:+ sconcat (isolate_line <$> NetIndices)
  +:+ "fi" +:+ nl +:+ "exit 0" +:+ nl.

Fixpoint read_taps (l : list Z) : io clientE (res (list tapObservation)) :=
  match l with
  | [] => Ret (Ok [])
  | idx :: l' =>
      let? ts := trigger (CTapLinkState (TapDeviceName VMID idx))
        orelse wrapf ("bridge isolation ensure: read tap state for vm " +:+ itoa VMID +:+ " net" +:+ itoa idx) in
      let? rest := read_taps l' orelse id in
      Ret (Ok ({| NetIndex := idx; ob_Exists := tap_Exists ts; ob_Isolated := tap_Isolated ts |} :: rest))
  end.
Definition isol_Read (s : isolation_state) : io clientE (res snap * isolation_state) :=
  let! vm := trigger (CGetVM node VMID) in
  match vm with
  | Er e => Ret (Er (wrapf ("bridge isolation ensure: read vm " +:+ itoa VMID) e), s)
  | Ok vm =>
      requireVMConfig vm VMID "bridge isolation ensure" (λ cfg,
        match cfg with
        | Er e => Ret (Er e, s)
        | Ok cfg =>
            let running := match vm with Some vm => eqb (vm_status vm) "running" | None => false end in
            let s' := {| bi_Applied := bi_Applied s; bi_digest := vc_digest cfg;
                         bi_hookscript := vc_hookscript cfg; bi_running := running |} in
            let! taps := (if running then read_taps NetIndices else Ret (Ok [])) in
            Ret (match taps with
                 | Er e => Er e
                 | Ok taps => Ok (SJson (state_String {| Hookscript := vc_hookscript cfg;
                                                         Running := running; Taps := taps |}))
                 end, s')
        end)
  end.

(** The map of taps by index: the last observation of an index counts. *)
Definition tap_map (taps : list tapObservation) : gmap Z tapObservation :=
  foldl (λ m t, <[NetIndex t := t]> m) ∅ taps.
Definition isol_Satisfied (_ : isolation_state) (current : snap) : bool :=
  let state := parseBridgeIsolationState current in
  if negb (eqb (Hookscript state) wantedHookscript) then false
  else if negb (Running state) then true
  else forallb (λ idx, match tap_map (Taps state) !! idx with
                       | Some t => ob_Exists t && ob_Isolated t
                       | None => false
                       end) NetIndices.

Definition set_hookscript (s : isolation_state) : io clientE (res unit) :=
  let! r := trigger (CSetFieldCAS VMID "hookscript" wantedHookscript (bi_digest s)) in
  match r with
  | Ok _ => Ret (Ok tt)
  | Er e =>
      if IsDigestConflictError e then Ret (Er (wrapf2 isol_what (sent ErrConflict) e))
      else if IsRootOnlyWriteError e then
        let? _ := trigger (CSetFieldOverSSH VMID "hookscript" wantedHookscript)
          orelse wrapf (isol_what +:+ ": set hookscript: rejected as root-only by rest, ssh fallback also failed") in
        Ret (Ok tt)
      else Ret (Er (wrapf (isol_what +:+ ": set hookscript") e))
  end.
Definition isolate_tap (idx : Z) (s : isolation_state) : io clientE (res unit * isolation_state) :=
  let tap := TapDeviceName VMID idx in
  let! r := trigger (CSetBridgePortIsolated tap true) in
  Ret match r with
      | Er e => (Er (wrapf (isol_what +:+ ": apply live isolation to " +:+ tap) e), s)
      | Ok _ => (Ok tt, set_applied tap s)
      end.
Definition isol_Apply (s : isolation_state) : io clientE (res unit * isolation_state) :=
  match isol_Validate with
  | Er e => Ret (Er e, s)
  | Ok _ =>
      let! up := trigger (CUploadSnippet StorageID snippetFilename scriptContent) in
      match up with
      | Er e => Ret (Er (wrapf (isol_what +:+ ": upload snippet") e), s)
      | Ok _ =>
          let s1 := set_applied "snippet" s in
          let! ' (r, s2) := (if negb (eqb (bi_hookscript s) wantedHookscript)
                             then let! r := set_hookscript s in
                                  Ret (r, match r with Ok _ => set_applied "hookscript" s1 | Er _ => s1 end)
                             else Ret (Ok tt, s1)) in
          match r with
          | Er e => Ret (Er e, s2)
          | Ok _ => if bi_running s then each isolate_tap NetIndices s2 else Ret (Ok tt, s2)
          end
      end
  end.
Definition isol_Wrote (s : isolation_state) : bool := negb (bool_decide (bi_Applied s = [])).
Definition BridgeIsolationEnsure : Op isolation_state :=
  {| Read := isol_Read; Satisfied := isol_Satisfied; Apply := isol_Apply; ReRead := None;
     PostApply := None; PostNoop := None |}.
End isolation.

(** * Lemmas *)
(** ** The wanted hookscript names its net indices *)
Lemma Join_digits_dash l :
  Forall (λ i, 0 ≤ i)%Z l → Forall (λ s, any_byte (is_byte (Ascii.N_of_ascii (byte 45))) s = false) (itoa <$> l).
Proof.
  intros Hl. apply Forall_fmap. eapply Forall_impl; [exact Hl|]. intros i Hi. unfold compose.
  pose proof (itoa_digits i Hi) as H. induction (itoa i) as [|c s IH]; [done|]. simpl in *.
  apply andb_true_iff in H as [Hc Hs]. rewrite IH by done. rewrite orb_false_r.
  apply bool_decide_eq_false_2. intros ->. done.
Qed.
Lemma suffix_inj l l' :
  l ≠ [] → l' ≠ [] → Forall (λ i, 0 ≤ i)%Z l → Forall (λ i, 0 ≤ i)%Z l' →
  Join "-" (itoa <$> l) = Join "-" (itoa <$> l') → l = l'.
Proof.
  intros Hn Hn' Hl Hl' H. apply (f_equal (Split (byte 45))) in H.
  change "-" with (String (byte 45) "") in H.
  assert (∀ k : list Z, k ≠ [] → itoa <$> k ≠ []) as Hne by (by intros []).
  rewrite (Split_Join (itoa <$> l) (byte 45)) in H by auto using Join_digits_dash.
  rewrite (Split_Join (itoa <$> l') (byte 45)) in H by auto using Join_digits_dash.
  by apply (inj (fmap itoa)) in H.
Qed.
Lemma str_app_inv_r (s t u : string) : s +:+ u = t +:+ u → s = t.
Proof.
  revert t. induction s as [|c s IH]; intros [|d t] H; [done| | |].
  - apply (f_equal slen) in H. rewrite !str_length_app in H. simpl in H. lia.
  - apply (f_equal slen) in H. rewrite !str_length_app in H. simpl in H. lia.
  - rewrite !str_cons_app in H. injection H as -> H. f_equal. by apply IH.
Qed.
Lemma check_indices_spec VMID seen l :
  check_indices VMID seen l = Ok tt → NoDup l ∧ Forall (λ i, 0 ≤ i)%Z l ∧ ∀ i, i ∈ l → i ∉ seen.
Proof.
  revert seen. induction l as [|i l IH]; intros seen; cbn [check_indices].
  { intros _. split_and!; [constructor|constructor|set_solver]. }
  destruct (Z.ltb_spec i 0) as [|Hi]; [done|]. cbn [negb]. case_bool_decide as Hs; [done|]. cbn [negb].
  intros (Hnd & Hl & Hseen)%IH. split_and!; [|by constructor|set_solver].
  constructor; [|done]. intros Hin. specialize (Hseen i Hin). set_solver.
Qed.
Lemma isol_Validate_spec VMID l st :
  isol_Validate VMID l st = Ok tt → (0 < VMID)%Z ∧ l ≠ [] ∧ NoDup l ∧ Forall (λ i, 0 ≤ i)%Z l.
Proof.
  unfold isol_Validate. destruct (Z.ltb_spec 0 VMID); [|done]. case_bool_decide as Hl; [done|].
  cbn [negb]. destruct (check_indices VMID ∅ l) as [[]|] eqn:Hc; [|done].
  apply check_indices_spec in Hc as (? & ? & _). done.
Qed.
Lemma wantedHookscript_inj VMID l l' st :
  isol_Validate VMID l st = Ok tt → isol_Validate VMID l' st = Ok tt →
  wantedHookscript VMID l st = wantedHookscript VMID l' st ↔ l ≡ₚ l'.
Proof.
  intros (_ & Hn & Hnd & Hl)%isol_Validate_spec (_ & Hn' & Hnd' & Hl')%isol_Validate_spec.
  assert (∀ l : list Z, sort_ints l ≡ₚ l) as Hp by (intros x; apply merge_sort_Permutation).
  split.
  - unfold wantedHookscript, snippetFilename, netIndicesSuffix. intros H.
    do 5 apply str_app_inv_l in H. apply str_app_inv_r, str_app_inv_l in H.
    rewrite <- (Hp l), <- (Hp l'). apply suffix_inj in H; [by rewrite H|..].
    + intros H0. apply Hn. apply Permutation_nil_r. by rewrite <- H0, Hp.
    + intros H0. apply Hn'. apply Permutation_nil_r. by rewrite <- H0, Hp.
    + by rewrite Hp.
    + by rewrite Hp.
  - intros H. unfold wantedHookscript, snippetFilename, netIndicesSuffix.
    assert (sort_ints l = sort_ints l') as ->; [|done].
    apply (Sorted_unique Z.le); [apply Sorted_merge_sort, _|apply Sorted_merge_sort, _|].
    by rewrite !Hp.
Qed.

(** ** What was read is what is decoded *)
Definition tap_ok (t : tapObservation) : Prop := (0 ≤ NetIndex t ≤ max_int64)%Z.
Lemma decode_encode_tap t : tap_ok t → decode_tap (encode_tap t) = t.
Proof.
  destruct t as [i e b]. unfold tap_ok, decode_tap, encode_tap, bool_field.
  cbn [NetIndex ob_Exists ob_Isolated]. intros H. set (l := [_; _; _]).
  assert (struct_field "net_index" l = Some (JNum (itoa i))) as -> by reflexivity.
  assert (struct_field "exists" l = Some (JBool e)) as -> by reflexivity.
  assert (struct_field "isolated" l = Some (JBool b)) as -> by reflexivity.
  cbn [mbind option_bind as_int]. by rewrite atoi_itoa.
Qed.
Lemma parse_state_String s :
  Forall tap_ok (Taps s) →
  parseBridgeIsolationState (SJson (state_String s)) =
  {| Hookscript := Hookscript s; Running := Running s; Taps := merge_sort tap_le (Taps s) |}.
Proof.
  intros Hs. unfold parseBridgeIsolationState, state_String. cbn [decode_snap].
  assert (Forall tap_ok (merge_sort tap_le (Taps s))) as Hm by by rewrite merge_sort_Permutation.
  assert (decode_tap <$> (encode_tap <$> merge_sort tap_le (Taps s)) = merge_sort tap_le (Taps s)) as Hd.
  { rewrite <- list_fmap_compose. rewrite <- (list_fmap_id (merge_sort tap_le (Taps s))) at 2.
    apply list_fmap_ext. intros i t Hi. apply decode_encode_tap. by eapply Forall_lookup_1. }
  destruct (merge_sort tap_le (Taps s)) as [|t taps]; [done|].
  set (l := _ :: _).
  assert (struct_field "taps" l = Some (JArr (encode_tap <$> t :: taps))) as -> by reflexivity.
  assert (struct_field "hookscript" l = Some (JStr (Hookscript s))) as -> by reflexivity.
  assert (bool_field "running" l = Running s) as -> by reflexivity. by rewrite Hd.
Qed.
Lemma tap_map_lookup taps i t :
  NoDup (NetIndex <$> taps) → tap_map taps !! i = Some t ↔ t ∈ taps ∧ NetIndex t = i.
Proof.
  intros Hnd. unfold tap_map.
  assert (∀ m : gmap Z tapObservation, (∀ j, j ∈ NetIndex <$> taps → m !! j = None) →
    foldl (λ m t, <[NetIndex t := t]> m) m taps !! i = Some t ↔
    m !! i = Some t ∨ t ∈ taps ∧ NetIndex t = i) as H.
  { induction taps as [|u taps IH]; intros m Hm; cbn [foldl]; [set_solver|].
    cbn [fmap list_fmap] in *. apply NoDup_cons in Hnd as [Hu Hnd]. rewrite IH; [|done|].
    - rewrite lookup_insert_Some. split.
      + intros [[[<- <-]|[? ?]]|[? ?]]; [right; split; [left|done]|by left|right; split; [by right|done]].
      + intros [Ht|[[->|Ht]%elem_of_cons Hi]]; [left; right|by left; left|by right].
        split; [|done]. intros <-. rewrite (Hm (NetIndex u)) in Ht by (by left). done.
    - intros j Hj. rewrite lookup_insert_ne; [apply Hm; by right|]. intros <-. done. }
  rewrite H; [|intros j _; apply lookup_empty]. rewrite lookup_empty. naive_solver.
Qed.
(** The answer an observation was made from. *)
Definition tap_event (VMID : Z) (t : tapObservation) : event clientE :=
  Ev (CTapLinkState (TapDeviceName VMID (NetIndex t)))
     (Ok {| tap_Exists := ob_Exists t; tap_Isolated := ob_Isolated t |}).
Lemma read_taps_spec VMID l :
  always (read_taps VMID l) (λ tr r, changes tr = [] ∧ ∀ taps, r = Ok taps →
    NetIndex <$> taps = l ∧ tr = tap_event VMID <$> taps).
Proof.
  induction l as [|i l IH]; cbn [read_taps].
  { split; [done|]. by intros ? [= <-]. }
  cbn [bind trigger always]. intros [ts|e]; cbn [bind always]; [|done].
  eapply always_call; [exact IH|]. intros tr [taps|e] [Hq H]; cbn [always]; rewrite app_nil_r.
  - split; [by by_calls|]. intros ? [= <-]. destruct (H taps eq_refl) as [<- ->].
    by destruct ts.
  - split; [by by_calls|done].
Qed.

#[export] Instance BridgeIsolationEnsure_quiet node VMID l st :
  QuietReads (BridgeIsolationEnsure node VMID l st).
Proof.
  split; cbn [Read ReRead PostApply PostNoop BridgeIsolationEnsure]; [|done..].
  intros s. unfold isol_Read. cbn [bind trigger always]. intros [[vm|]|e]; [|done..].
  cbn [requireVMConfig]. destruct (vm_config vm) as [cfg|]; [|done].
  destruct (eqb (vm_status vm) "running"); [|done].
  eapply always_call; [apply read_taps_spec|]. intros tr [taps|e] [Hq _]; cbn [always];
    rewrite app_nil_r; by by_calls.
Qed.

(** The live ports, isolated one by one up to the first failure. *)
Definition isolate_event (VMID : Z) (i : Z) (r : res unit) : event clientE :=
  Ev (CSetBridgePortIsolated (TapDeviceName VMID i) true) r.
Lemma isolate_all VMID l s :
  always (each (isolate_tap VMID) l s) (λ tr rs,
    (∃ l1 l2 r, l = l1 ++ l2 ∧ tr = ((λ i, isolate_event VMID i (Ok tt)) <$> l1) ++
       match l2 with [] => [] | i :: _ => [isolate_event VMID i (Er r)] end ∧ (l2 = [] ↔ rs.1 = Ok tt))).
Proof.
  revert s. induction l as [|i l IH]; intros s; cbn [each].
  { exists [], [], (errorf ""). done. }
  unfold isolate_tap at 1. cbn [bind trigger always]. intros [[]|e]; cbn [bind always].
  - eapply always_mono; [|apply IH]. intros tr rs (l1 & l2 & r & -> & -> & H).
    exists (i :: l1), l2, r. done.
  - exists [], (i :: l), e. done.
Qed.

(** Writing the hookscript: by compare-and-swap under the digest of the read, over
    SSH only after PVE refused that as root-only. *)
Inductive hook_written (VMID : Z) (wanted digest : string) : list (event clientE) → res unit → Prop :=
| hook_cas : hook_written VMID wanted digest [Ev (CSetFieldCAS VMID "hookscript" wanted digest) (Ok tt)] (Ok tt)
| hook_failed e e' :
    hook_written VMID wanted digest [Ev (CSetFieldCAS VMID "hookscript" wanted digest) (Er e)] (Er e')
| hook_ssh e r r' :
    IsRootOnlyWriteError e = true → IsDigestConflictError e = false → is_ok r = is_ok r' →
    hook_written VMID wanted digest
      [Ev (CSetFieldCAS VMID "hookscript" wanted digest) (Er e);
       Ev (CSetFieldOverSSH VMID "hookscript" wanted) r] r'.
Lemma set_hookscript_spec VMID l st s :
  always (set_hookscript VMID l st s)
    (hook_written VMID (wantedHookscript VMID l st) (bi_digest s)).
Proof.
  unfold set_hookscript. cbn [bind trigger always]. intros r. destruct r as [[]|e]; cbn [always].
  { constructor. }
  destruct (IsDigestConflictError e) eqn:Hd; cbn [always]; [constructor|].
  destruct (IsRootOnlyWriteError e) eqn:Hr; cbn [bind trigger always]; [|constructor].
  intros r. destruct r as [[]|e']; cbn [always]; by constructor.
Qed.

(** * Properties *)

(** An Apply deploys the script first; the hookscript is written only when the
    config read did not name it, under the digest of that read, and over SSH only
    after PVE refused it as root-only; success means all of that succeeded and every
    wanted port of a running VM was isolated. Two sets of net indices want the same
    hookscript exactly when they are the same set. *)
Theorem BridgeIsolation_apply VMID l st s :
  (∀ l', isol_Validate VMID l st = Ok tt → isol_Validate VMID l' st = Ok tt →
     wantedHookscript VMID l st = wantedHookscript VMID l' st ↔ l ≡ₚ l') ∧
  always (isol_Apply VMID l st s) (λ tr rs,
    let wanted := wantedHookscript VMID l st in
    (tr = [] ∧ is_ok rs.1 = false) ∨
    isol_Validate VMID l st = Ok tt ∧ ∃ up hook live,
      tr = Ev (CUploadSnippet st (snippetFilename VMID l) (scriptContent VMID l)) up :: hook ++ live ∧
      (hook = [] ∨ bi_hookscript s ≠ wanted ∧ ∃ r, hook_written VMID wanted (bi_digest s) hook r ∧
                                                  (rs.1 = Ok tt → r = Ok tt)) ∧
      (live = [] ∨ bi_running s = true) ∧
      (rs.1 = Ok tt → up = Ok tt ∧ (hook = [] → bi_hookscript s = wanted) ∧
         (bi_running s = true → live = (λ i, isolate_event VMID i (Ok tt)) <$> l))).
Proof.
  split; [intros l' H H'; by apply wantedHookscript_inj|].
  unfold isol_Apply. destruct (isol_Validate VMID l st) as [[]|e]; [|by left].
  cbn [bind trigger always]. intros up. destruct up as [[]|e]; cbn [always].
  2: { right. split; [done|]. exists (Er e), [], []. split_and!; [done|by left|by left|done]. }
  set (wanted := wantedHookscript VMID l st).
  eapply always_call with (P := λ hook rs,
    (hook = [] ∧ rs.1 = Ok tt ∧ bi_hookscript s = wanted) ∨
    (bi_hookscript s ≠ wanted ∧ hook_written VMID wanted (bi_digest s) hook rs.1)).
  { destruct (eqb (bi_hookscript s) wanted) eqn:He; cbn [negb].
    - apply eqb_true in He. cbn [always]. by left.
    - eapply always_call; [apply set_hookscript_spec|]. intros hook r Hh. cbn [always].
      rewrite app_nil_r. right. split; [|done]. intros Heq.
      by rewrite Heq, eqb_refl in He. }
  intros hook [r s2] Hh. cbn [fst] in Hh.
  assert (hook = [] ∨ bi_hookscript s ≠ wanted ∧ ∃ r', hook_written VMID wanted (bi_digest s) hook r' ∧
            (r = Ok tt → r' = Ok tt)) as Hhook.
  { destruct Hh as [(-> & _)|[Hne Hw]]; [by left|right; split; [done|]; by exists r]. }
  assert (hook = [] → bi_hookscript s = wanted) as Hnil.
  { intros ->. destruct Hh as [(_ & _ & ?)|[_ Hw]]; [done|inversion Hw]. }
  destruct r as [[]|e].
  2: { cbn [always]. right. split; [done|]. exists (Ok tt), hook, []. split_and!; [done| |by left|done].
       destruct Hhook as [?|[? (r' & ? & ?)]]; [by left|right; split; [done|]; by exists r']. }
  destruct (bi_running s) eqn:Hrun.
  - eapply always_mono; [|apply isolate_all]. intros live rs (l1 & l2 & r & -> & -> & Hok).
    right. split; [done|]. eexists (Ok tt), hook, _. split; [done|]. split_and!; [|by right|].
    + destruct Hhook as [?|[? (r' & ? & ?)]]; [by left|right; split; [done|]; exists r'; auto].
    + intros Hrs. apply Hok in Hrs as ->. rewrite !app_nil_r. auto.
  - cbn [always]. right. split; [done|]. exists (Ok tt), hook, []. split_and!; [done| |by left|done].
    destruct Hhook as [?|[? (r' & ? & ?)]]; [by left|right; split; [done|]; by exists r'].
Qed.

(** The VM counts as isolated exactly when the config just read names the wanted
    hookscript and, if the VM runs, every wanted port was just seen to exist and to be
    isolated. *)
Theorem BridgeIsolation_satisfied node VMID l st s :
  NoDup l → Forall (λ i, 0 ≤ i ≤ max_int64)%Z l →
  always (isol_Read node VMID l s) (λ tr rs, changes tr = [] ∧ ∀ cur, rs.1 = Ok cur →
    ∃ vm cfg taps, tr = Ev (CGetVM node VMID) (Ok (Some vm)) :: (tap_event VMID <$> taps) ∧
      vm_config vm = Some cfg ∧ bi_digest rs.2 = vc_digest cfg ∧
      bi_hookscript rs.2 = vc_hookscript cfg ∧
      NetIndex <$> taps = (if eqb (vm_status vm) "running" then l else []) ∧
      (isol_Satisfied VMID l st rs.2 cur = true ↔
       vc_hookscript cfg = wantedHookscript VMID l st ∧
       Forall (λ t, ob_Exists t = true ∧ ob_Isolated t = true) taps)).
Proof.
  intros Hnd Hb. unfold isol_Read. cbn [bind trigger always].
  intros [[vm|]|e]; cbn [requireVMConfig always]; [|done|done].
  destruct (vm_config vm) as [cfg|] eqn:Hc; cbn [always]; [|done].
  eapply always_call with (P := λ tr r, changes tr = [] ∧ ∀ taps, r = Ok taps →
    NetIndex <$> taps = (if eqb (vm_status vm) "running" then l else []) ∧ tr = tap_event VMID <$> taps).
  { destruct (eqb (vm_status vm) "running"); [apply read_taps_spec|].
    split; [done|]. by intros ? [= <-]. }
  intros tr [taps|e] [Hq H]; cbn [always fst snd]; rewrite app_nil_r; (split; [by by_calls|]); [|done].
  intros cur [= <-]. destruct (H taps eq_refl) as [Hi ->]. exists vm, cfg, taps.
  split_and!; [done|done|done|done|done|].
  assert (Forall tap_ok taps) as Hok.
  { apply Forall_forall. intros t Ht. rewrite Forall_forall in Hb. apply (Hb (NetIndex t)).
    assert (NetIndex t ∈ NetIndex <$> taps) as Hin by by apply list_elem_of_fmap_2.
    rewrite Hi in Hin. destruct (eqb _ _); [done|]. by apply elem_of_nil in Hin. }
  unfold isol_Satisfied. rewrite parse_state_String by exact Hok. cbn [Hookscript Running Taps].
  destruct (eqb (vc_hookscript cfg) (wantedHookscript VMID l st)) eqn:He; cbn [negb].
  2: { split; [done|]. intros [Heq _]. by rewrite Heq, eqb_refl in He. }
  apply eqb_true in He. destruct (eqb (vm_status vm) "running"); cbn [negb].
  2: { apply fmap_nil_inv in Hi as ->. done. }
  assert (merge_sort tap_le taps ≡ₚ taps) as Hp by apply merge_sort_Permutation.
  assert (NoDup (NetIndex <$> merge_sort tap_le taps)) as Hnd' by by rewrite Hp, Hi.
  rewrite forallb_forall, Forall_forall. setoid_rewrite <- list_elem_of_In. split.
  - intros Hall. split; [done|]. intros t Ht.
    assert (NetIndex t ∈ l) as Hl by (rewrite <- Hi; by apply list_elem_of_fmap_2).
    specialize (Hall _ Hl).
    assert (tap_map (merge_sort tap_le taps) !! NetIndex t = Some t) as Ht'
      by (apply tap_map_lookup; [done|]; by rewrite Hp).
    rewrite Ht' in Hall. by apply andb_true_iff in Hall.
  - intros [_ Hall] i Hin. rewrite <- Hi in Hin. apply list_elem_of_fmap in Hin as (t & -> & Ht).
    assert (tap_map (merge_sort tap_le taps) !! NetIndex t = Some t) as ->
      by (apply tap_map_lookup; [done|]; by rewrite Hp).
    by destruct (Hall t Ht) as [-> ->].
Qed.
Lemma BridgeIsolation_satisfied_witness :
  always (isol_Read "n" 100 [0; 2]%Z {| bi_Applied := []; bi_digest := ""; bi_hookscript := ""; bi_running := false |})
  (λ tr rs, changes tr = [] ∧ ∀ cur, rs.1 = Ok cur →
    ∃ vm cfg taps, tr = Ev (CGetVM "n" 100) (Ok (Some vm)) :: (tap_event 100 <$> taps) ∧
      vm_config vm = Some cfg ∧ bi_digest rs.2 = vc_digest cfg ∧
      bi_hookscript rs.2 = vc_hookscript cfg ∧
      NetIndex <$> taps = (if eqb (vm_status vm) "running" then [0; 2]%Z else []) ∧
      (isol_Satisfied 100 [0; 2]%Z "local" rs.2 cur = true ↔
       vc_hookscript cfg = wantedHookscript 100 [0; 2]%Z "local" ∧
       Forall (λ t, ob_Exists t = true ∧ ob_Isolated t = true) taps)).
Proof.
  apply (BridgeIsolation_satisfied "n" 100 [0; 2]%Z "local").
  - apply (bool_decide_unpack (NoDup [0; 2]%Z)). vm_compute. exact I.
  - apply (bool_decide_unpack (Forall (λ i, 0 ≤ i ≤ max_int64)%Z [0; 2]%Z)). vm_compute. exact I.
Defined.
