(* ===== verification/Remote.v ===== *)
(** internal/sshexec: the commands a [*sshexec.Client] runs on the host, over the one
    call they are made of, [Run]: config fields only root may write (rootfields.go),
    bridge ports and links (bridgelink.go, linkstate.go) and files (writefile.go). *)
From Stdlib Require Import Ascii.
From S2P Require Import Prelude GoLib Errors Json Utf8 ShellQuote Rest OpRun Client.

(** [Run(ctx, cmd)]: an error when the command could not be run to its end. *)
Record Result_ := { Stdout : string; Stderr : string; ExitCode : Z }.
Inductive sshE : Type → Type := SRun (cmd : string) : sshE (res Result_).

(** ** rootfields.go *)
Definition isValidFieldName (s : string) : bool :=
  negb (eqb s "") && all_bytes (λ c, is_alnum c || is_byte 95 c) s.
Definition qm_set (vmid : Z) (fld value : string) : string :=
  "qm set " +:+ ShellQuote (itoa vmid) +:+ " --" +:+ fld +:+ " " +:+ ShellQuote value.
Definition qm_delete (vmid : Z) (fld : string) : string :=
  "qm set " +:+ ShellQuote (itoa vmid) +:+ " --delete " +:+ ShellQuote fld.
Definition exited (what tool : string) (r : Result_) : err :=
  errorf (what +:+ ": " +:+ tool +:+ " exited " +:+ itoa (ExitCode r) +:+ ": " +:+ Stderr r).
(** A command whose exit status alone counts. *)
Definition run_checked (what tool cmd : string) : io sshE (res unit) :=
  let? r := trigger (SRun cmd) orelse wrapf what in
  Ret (if bool_decide (ExitCode r = 0%Z) then Ok tt else Er (exited what tool r)).
Definition SetVMConfigField (vmid : Z) (fld value : string) : io sshE (res unit) :=
  guard isValidFieldName fld orelse errorf ("set vm config field: invalid field name " +:+ quote fld) in
  run_checked ("set vm " +:+ itoa vmid +:+ " field " +:+ quote fld) "qm set" (qm_set vmid fld value).
Definition DeleteVMConfigField (vmid : Z) (fld : string) : io sshE (res unit) :=
  guard isValidFieldName fld orelse errorf ("delete vm config field: invalid field name " +:+ quote fld) in
  run_checked ("delete vm " +:+ itoa vmid +:+ " field " +:+ quote fld) "qm set" (qm_delete vmid fld).

(** ** JSON structs: each field by its name, a later one over an earlier, [null] left
    out; a value of the wrong type is an error. *)
Definition struct_get {A} (name : string) (dec : A → json → option A) (zero : A)
    (l : list (string * json)) : option A :=
  foldl (λ acc (kv : string * json),
    match acc with
    | Some a => if equal_fold kv.1 name then dec a kv.2 else acc
    | None => None
    end) (Some zero) l.
Definition to_string (s : string) (j : json) : option string :=
  match j with JNull => Some s | JStr t => Some t | _ => None end.
Definition to_bool (b : bool) (j : json) : option bool :=
  match j with JNull => Some b | JBool c => Some c | _ => None end.
Definition to_strings (_ : list string) (j : json) : option (list string) := as_strings j.
Definition to_int (z : Z) (j : json) : option Z :=
  match j with JNull => Some z | _ => as_int j end.
(** Into a pointer to an int. *)
Definition to_int_ptr (_ : option Z) (j : json) : option (option Z) :=
  match j with JNull => Some None | _ => Some <$> as_int j end.
(** The elements of a slice of structs, a [null] one being the zero struct. *)
Definition struct_list {A} (dec : list (string * json) → option A) (s : string) : option (list A) :=
  match parse_json s with
  | Some JNull => Some []
  | Some (JArr l) => mapM (λ j, match j with JNull => dec [] | JObj o => dec o | _ => None end) l
  | _ => None
  end.
Definition parse_err (what tool : string) : err :=
  wrapf (what +:+ ": parse " +:+ tool +:+ " output") (errorf "json: cannot unmarshal").
Definition doesNotExist : string := "does not exist".

(** ** linkstate.go *)
Record ipLinkEntry := { ip_IfName : string; OperState : string; Flags : list string }.
Definition ip_entry (o : list (string * json)) : option ipLinkEntry :=
  match struct_get "ifname" to_string "" o, struct_get "operstate" to_string "" o, struct_get "flags" to_strings [] o with
  | Some n, Some s, Some f => Some {| ip_IfName := n; OperState := s; Flags := f |}
  | _, _, _ => None
  end.
Definition link_up (e : ipLinkEntry) : bool :=
  equal_fold (OperState e) "UP" || existsb (λ f, equal_fold f "UP") (Flags e).
Definition ip_link (iface : string) : string := "ip -j link show dev " +:+ ShellQuote iface.
Definition no_link : LinkState := {| Exists := false; Up := false |}.
Definition LinkState_ (iface : string) : io sshE (res LinkState) :=
  guard negb (eqb iface "") orelse errorf "link state: interface name is required" in
  let what := "link state for " +:+ iface in
  let? r := trigger (SRun (ip_link iface)) orelse wrapf what in
  Ret (if negb (bool_decide (ExitCode r = 0%Z)) then
         if contains doesNotExist (Stderr r) then Ok no_link else Er (exited what "ip" r)
       else
         match struct_list ip_entry (Stdout r) with
         | None => Er (parse_err what "ip")
         | Some [] => Ok no_link
         | Some (e :: _) => Ok {| Exists := true; Up := link_up e |}
         end).

(** ** bridgelink.go *)
Record bridgeLinkEntry := { br_IfName : string; Isolated : bool }.
Definition bridge_entry (o : list (string * json)) : option bridgeLinkEntry :=
  match struct_get "ifname" to_string "" o, struct_get "isolated" to_bool false o with
  | Some n, Some i => Some {| br_IfName := n; Isolated := i |}
  | _, _ => None
  end.
Definition bridge_link (tap : string) : string := "bridge -j link show dev " +:+ ShellQuote tap.
Definition no_tap : TapLinkState := {| tap_Exists := false; tap_Isolated := false |}.
Definition TapLinkState_ (tap : string) : io sshE (res TapLinkState) :=
  guard negb (eqb tap "") orelse errorf "tap link state: tap device name is required" in
  let what := "tap link state for " +:+ tap in
  let? r := trigger (SRun (bridge_link tap)) orelse wrapf what in
  Ret (if negb (bool_decide (ExitCode r = 0%Z)) then
         if contains doesNotExist (Stderr r) then Ok no_tap else Er (exited what "bridge" r)
       else
         match struct_list bridge_entry (Stdout r) with
         | None => Er (parse_err what "bridge")
         | Some [] => Ok no_tap
         | Some (e :: _) => Ok {| tap_Exists := true; tap_Isolated := Isolated e |}
         end).
Definition bridge_set (tap : string) (isolated : bool) : string :=
  "bridge link set dev " +:+ ShellQuote tap +:+ " isolated " +:+ if isolated then "on" else "off".
Definition SetBridgePortIsolated (tap : string) (isolated : bool) : io sshE (res unit) :=
  guard negb (eqb tap "") orelse errorf "set bridge port isolated: tap device name is required" in
  run_checked ("set bridge port isolated for " +:+ tap) "bridge" (bridge_set tap isolated).

(** ** writefile.go *)
Definition nl : string := chr 10.
Definition tmp_path (remotePath : string) : string := remotePath +:+ ".pveforge-tmp".
Definition write_script (remotePath content mode : string) : string :=
  let tmp := tmp_path remotePath in
  "set -e" +:+ nl +:+ "mkdir -p " +:+ ShellQuote (path_Dir remotePath) +:+ nl
  +:+ "printf '%s' " +:+ ShellQuote (base64 content) +:+ " | base64 -d > " +:+ ShellQuote tmp +:+ nl
  +:+ "chmod " +:+ ShellQuote mode +:+ " " +:+ ShellQuote tmp +:+ nl
  +:+ "mv " +:+ ShellQuote tmp +:+ " " +:+ ShellQuote remotePath +:+ nl.
Definition WriteFile (remotePath content mode : string) : io sshE (res unit) :=
  guard negb (eqb remotePath "") orelse errorf "write file: remote path is required" in
  guard negb (eqb mode "") orelse errorf "write file: mode is required" in
  run_checked ("write file " +:+ remotePath) "remote script" (write_script remotePath content mode).

(** * What base64(1) -d reads *)
Fixpoint index_of (c : ascii) (s : string) : option Z :=
  match s with
  | EmptyString => None
  | String d s' => if bool_decide (c = d) then Some 0%Z else option_map Z.succ (index_of c s')
  end.
Definition b64_val (c : ascii) : option Z := index_of c b64_alphabet.
Definition byte_string (z : Z) : string := chr (Z.to_N (z mod 256)).
Fixpoint base64_decode (s : string) : option string :=
  match s with
  | EmptyString => Some ""
  | String a (String b (String c (String d s'))) =>
      match b64_val a, b64_val b, b64_val c, b64_val d with
      | Some a, Some b, Some c, Some d =>
          let n := (a * 262144 + b * 4096 + c * 64 + d)%Z in
          option_map (λ t, byte_string (n / 65536) +:+ byte_string (n / 256) +:+ byte_string n +:+ t)
            (base64_decode s')
      | Some a, Some b, Some c, None =>
          if is_byte 61 d && eqb s' "" then
            let n := (a * 4096 + b * 64 + c)%Z in
            Some (byte_string (n / 1024) +:+ byte_string (n / 4))
          else None
      | Some a, Some b, None, None =>
          if is_byte 61 c && is_byte 61 d && eqb s' "" then Some (byte_string ((a * 64 + b) / 16)) else None
      | _, _, _, _ => None
      end
  | _ => None
  end.

(** * Lemmas *)
Definition b64_code_ok (n : nat) : bool :=
  match b64_char (Z.of_nat n) with
  | String c "" => bool_decide (b64_val c = Some (Z.of_nat n))
  | _ => false
  end.
Lemma b64_code n : (0 ≤ n < 64)%Z → ∃ c, b64_char n = String c "" ∧ b64_val c = Some n.
Proof.
  intros Hn. assert (forallb b64_code_ok (seq 0 64) = true) as Hall by by vm_compute.
  rewrite forallb_forall in Hall. specialize (Hall (Z.to_nat n)). unfold b64_code_ok in Hall.
  rewrite Z2Nat.id in Hall by lia. rewrite in_seq in Hall. specialize (Hall ltac:(lia)).
  destruct (b64_char n) as [|c [|]]; [done| |done]. exists c. by apply bool_decide_eq_true_1 in Hall.
Qed.
Lemma byte_string_of c z : (z mod 256 = byte_of c)%Z → byte_string z = String c "".
Proof.
  intros Hz. unfold byte_string, chr, byte. rewrite Hz, N2Z.id. by rewrite Ascii.ascii_N_embedding.
Qed.
Ltac code n Hc := destruct (b64_code n) as (? & -> & Hc); [divmod|].
Lemma base64_decode_encode : ∀ s, base64_decode (base64 s) = Some s.
Proof.
  fix IH 1. intros [|a [|b [|c s]]]; [done|..]; cbn [base64]; pose proof (byte_of_bound a) as Ba.
  - code (byte_of a / 4)%Z H1. code (byte_of a mod 4 * 16)%Z H2. cbv [String.append].
    cbn [base64_decode]. rewrite H1, H2. cbn. rewrite (byte_string_of a); [done|divmod].
  - pose proof (byte_of_bound b) as Bb. set (n := (byte_of a * 256 + byte_of b)%Z).
    code (n / 1024)%Z H1; code (n / 16 mod 64)%Z H2; code (n mod 16 * 4)%Z H3.
    cbv [String.append]. cbn [base64_decode]. rewrite H1, H2, H3. cbn.
    rewrite (byte_string_of a), (byte_string_of b); [done|subst n; divmod..].
  - pose proof (byte_of_bound b) as Bb. pose proof (byte_of_bound c) as Bc.
    set (n := (byte_of a * 65536 + byte_of b * 256 + byte_of c)%Z).
    code (n / 262144)%Z H1; code (n / 4096 mod 64)%Z H2; code (n / 64 mod 64)%Z H3; code (n mod 64)%Z H4.
    cbv [String.append]. cbn [base64_decode]. rewrite H1, H2, H3, H4, IH. cbn.
    rewrite (byte_string_of a), (byte_string_of b), (byte_string_of c); [done|subst n; divmod..].
Qed.
Lemma name_char_plain c : is_alnum c || is_byte 95 c = true → plain c = true.
Proof. by destruct c as [[] [] [] [] [] [] [] []]; vm_compute. Qed.
Lemma all_bytes_mono p q s : (∀ c, p c = true → q c = true) → all_bytes p s = true → all_bytes q s = true.
Proof.
  intros H. induction s as [|c s IH]; [done|]. cbn [all_bytes]. rewrite !andb_true_iff. naive_solver.
Qed.
Lemma field_plain fld : isValidFieldName fld = true → all_bytes plain fld = true.
Proof. intros [_ H]%andb_true_iff. eapply all_bytes_mono; [exact name_char_plain|done]. Qed.

(** * Properties *)

(** The words the host's shell makes of each command are exactly the program, its
    options and the values given, whatever bytes the values hold: none of a field's
    value, a device, a path or a file's content is ever read as a part of the command;
    and what the upload's base64(1) decodes is the content. *)
Theorem Remote_commands_read vmid fld value dev on remotePath content mode :
  isValidFieldName fld = true →
  sh_tokens (qm_set vmid fld value) =
    Some [Word "qm"; Word "set"; Word (itoa vmid); Word ("--" +:+ fld); Word value] ∧
  sh_tokens (qm_delete vmid fld) =
    Some [Word "qm"; Word "set"; Word (itoa vmid); Word "--delete"; Word fld] ∧
  sh_tokens (ip_link dev) =
    Some [Word "ip"; Word "-j"; Word "link"; Word "show"; Word "dev"; Word dev] ∧
  sh_tokens (bridge_link dev) =
    Some [Word "bridge"; Word "-j"; Word "link"; Word "show"; Word "dev"; Word dev] ∧
  sh_tokens (bridge_set dev on) =
    Some [Word "bridge"; Word "link"; Word "set"; Word "dev"; Word dev; Word "isolated";
          Word (if on then "on" else "off")] ∧
  ∃ payload, base64_decode payload = Some content ∧
  let eol := Oper (byte 10) in let tmp := tmp_path remotePath in
  sh_tokens (write_script remotePath content mode) =
    Some [Word "set"; Word "-e"; eol;
          Word "mkdir"; Word "-p"; Word (path_Dir remotePath); eol;
          Word "printf"; Word "%s"; Word payload; Oper "|"; Word "base64"; Word "-d"; Oper ">"; Word tmp; eol;
          Word "chmod"; Word mode; Word tmp; eol;
          Word "mv"; Word tmp; Word remotePath; eol].
Proof.
  intros Hf%field_plain. unfold sh_tokens, qm_set, qm_delete, ip_link, bridge_link, bridge_set, write_script.
  generalize (itoa vmid) (path_Dir remotePath) (tmp_path remotePath). intros id dir tmp. split_and!.
  - repeat sh_read. rewrite (sh_scan_app _ _ _ _ _ (sh_scan_plain fld "--" Hf)). cbn [option_map fst snd].
    repeat sh_read. reflexivity.
  - repeat sh_read. reflexivity.
  - repeat sh_read. reflexivity.
  - repeat sh_read. reflexivity.
  - repeat sh_read. by destruct on.
  - exists (base64 content). split; [apply base64_decode_encode|]. cbv zeta.
    generalize (base64 content). intros payload. repeat sh_read. reflexivity.
Qed.
Lemma Remote_commands_read_witness :
  isValidFieldName "args" = true ∧
  sh_tokens (qm_set 9 "args" "-device 'x'; $(reboot)") =
    Some [Word "qm"; Word "set"; Word "9"; Word "--args"; Word "-device 'x'; $(reboot)"].
Proof.
  split; [reflexivity|].
  exact (proj1 (Remote_commands_read 9 "args" "-device 'x'; $(reboot)" "" true "" "" "" eq_refl)).
Defined.
