(* ===== verification/Cluster.v ===== *)
(** What root's reads of the cluster say: the status (clusterstatus.go), the guest list
    (guests.go) and a node's VM list (nodeqemu.go), decoded strictly, since what is
    destroyed is decided from them. *)
From Stdlib Require Import Ascii.
From S2P Require Import Prelude GoLib Errors Json Rest.

Definition unverifiable_ (what msg : string) : err := wrapf_post what (sent ErrUnverifiableRead) msg.
(** [%v] of a decoded value; [None] is a missing key. *)
Fixpoint fmt_v (j : json) : string :=
  match j with
  | JNull => "<nil>"
  | JBool b => if b then "true" else "false"
  | JNum s | JStr s => s
  | JArr l => "[" +:+ Join " " (fmt_v <$> l) +:+ "]"
  | JObj l =>
      let m : gmap string string := list_to_map (reverse ((λ kv, (kv.1, kv.1 +:+ ":" +:+ fmt_v kv.2)) <$> l)) in
      "map[" +:+ Join " " ((λ k, default "" (m !! k)) <$> sorted_keys m) +:+ "]"
  end.
Definition fmt_any (o : option json) : string := match o with Some j => fmt_v j | None => "<nil>" end.

(** The one JSON array a reply must be, a [null] entry [None]. *)
Definition decode_list (what b : string) : res (list (option (gmap string json))) :=
  match decode_stream b with
  | None => Er (unverifiable_ what "invalid JSON")
  | Some (j, rest) =>
      match as_objects j with
      | None => Er (unverifiable_ what "json: cannot unmarshal")
      | Some None => Er (unverifiable_ what "the list is null")
      | Some (Some l) =>
          if eqb (skip_ws rest) "" then Ok l
          else Er (unverifiable_ what "trailing data after the list")
      end
  end.
(** The entries taken one after another, the first refusal reported; [i] is the index
    of the next. *)
Fixpoint each_entry {S} (what : string) (f : Z → gmap string json → S → res S) (i : Z)
    (l : list (option (gmap string json))) (s : S) : res S :=
  match l with
  | [] => Ok s
  | None :: _ => Er (unverifiable_ what ("entry " +:+ itoa i +:+ " is null"))
  | Some e :: l' => let^ s' := f i e s orelse id in each_entry what f (i + 1) l' s'
  end.

(** ** clusterstatus.go *)
Definition quorateFlag (raw : option json) : option bool :=
  match raw ≫= as_int with
  | Some 0%Z => Some false
  | Some 1%Z => Some true
  | _ => None
  end.
Definition entry_type (e : gmap string json) : option string := e !! "type" ≫= as_string.
Definition has_type (t : string) (e : gmap string json) : bool := bool_decide (entry_type e = Some t).

Definition status_what : string := "cluster status".
(** The cluster entries, the node entries, the last flag. *)
Definition quorate_entry (_ : Z) (e : gmap string json) (s : nat * nat * bool) : res (nat * nat * bool) :=
  let '(clusters, nodes, quorate) := s in
  if has_type "node" e then Ok (clusters, S nodes, quorate)
  else if negb (has_type "cluster" e) then Ok s
  else
    match quorateFlag (e !! "quorate") with
    | None => Er (unverifiable_ status_what "the cluster entry's quorate flag is absent or not a 0/1 integer")
    | Some q => Ok (S clusters, nodes, q)
    end.
Definition ParseClusterStatusQuorate (b : string) : res bool :=
  let^ l := decode_list status_what b orelse id in
  let^ s := each_entry status_what quorate_entry 0 l (0, 0, false) orelse id in
  let '(clusters, nodes, quorate) := s in
  match clusters with
  | 0 => if decide (nodes = 0) then
           Er (unverifiable_ status_what "no cluster entry and no node entry — not a healthy /cluster/status reply")
         else Ok true
  | 1 => Ok quorate
  | _ => Er (unverifiable_ status_what (itoa (Z.of_nat clusters) +:+ " cluster entries, want at most 1"))
  end.

Definition online_what : string := "cluster status online nodes".
Definition online_entry (_ : Z) (e : gmap string json) (s : gset string * nat) : res (gset string * nat) :=
  let '(online, nodes) := s in
  if negb (has_type "node" e) then Ok s
  else
    match e !! "name" ≫= as_string with
    | None | Some "" => Er (unverifiable_ online_what "a node entry's name is absent or not a non-empty string")
    | Some name =>
        match quorateFlag (e !! "online") with
        | None => Er (unverifiable_ online_what ("node " +:+ quote name +:+ " online flag is absent or not a 0/1 integer"))
        | Some on => Ok (if on then {[name]} ∪ online else online, S nodes)
        end
    end.
Definition ParseClusterStatusOnlineNodes (b : string) : res (gset string) :=
  let^ l := decode_list online_what b orelse id in
  let^ s := each_entry online_what online_entry 0 l (∅, 0) orelse id in
  if decide (s.2 = 0) then Er (unverifiable_ online_what "no node entry — not a healthy /cluster/status reply")
  else Ok s.1.

(** ** guests.go *)
Record Guest := { Type_ : string; VMID_ : Z; Node_ : string; Tags_ : string }.
Definition guests_what : string := "cluster guest list".
Definition guest_entry (i : Z) (e : gmap string json) (gs : list Guest) : res (list Guest) :=
  let bad msg := Er (unverifiable_ guests_what msg) in
  let entry := "entry " +:+ itoa i in
  let typ := match e !! "type" with Some (JStr t) => t | _ => "" end in
  if negb (eqb typ "qemu" || eqb typ "lxc") then
    bad (entry +:+ " has type " +:+ fmt_any (e !! "type") +:+ ", not qemu or lxc")
  else
    match match e !! "vmid" with Some (JNum lit) => atoi lit | _ => None end with
    | Some vmid =>
        if (vmid <? 1)%Z then bad (entry +:+ " has vmid " +:+ fmt_any (e !! "vmid") +:+ ", not a positive integer")
        else
          let guest := typ +:+ " " +:+ itoa vmid in
          match e !! "node" with
          | Some (JStr node) =>
              if eqb node "" then bad (guest +:+ " has node " +:+ node +:+ ", not a non-empty string")
              else
                match e !! "tags" with
                | None => Ok (gs ++ [{| Type_ := typ; VMID_ := vmid; Node_ := node; Tags_ := "" |}])
                | Some (JStr tags) => Ok (gs ++ [{| Type_ := typ; VMID_ := vmid; Node_ := node; Tags_ := tags |}])
                | Some v => bad (guest +:+ " has tags " +:+ fmt_v v +:+ ", not a string")
                end
          | v => bad (guest +:+ " has node " +:+ fmt_any v +:+ ", not a non-empty string")
          end
    | None => bad (entry +:+ " has vmid " +:+ fmt_any (e !! "vmid") +:+ ", not a positive integer")
    end.
Definition ParseClusterGuests (b : string) : res (list Guest) :=
  let^ l := decode_list guests_what b orelse id in each_entry guests_what guest_entry 0 l [].

Fixpoint ClusterQemuPairs (guests : list Guest) (onlineNodes : gset string) : res (list (string * Z)) :=
  match guests with
  | [] => Ok []
  | g :: guests' =>
      if negb (eqb (Type_ g) "qemu") then ClusterQemuPairs guests' onlineNodes
      else if negb (bool_decide (Node_ g ∈ onlineNodes)) then
        Er (unverifiable_ "cluster claimed set" ("guest vmid " +:+ itoa (VMID_ g) +:+ " names node "
          +:+ quote (Node_ g) +:+ ", which /cluster/status does not report online"))
      else let^ ps := ClusterQemuPairs guests' onlineNodes orelse id in Ok ((Node_ g, VMID_ g) :: ps)
  end.

(** The pieces of [s] between the characters of [p], some of them empty. *)
Fixpoint split_by (p : ascii → bool) (s : string) : list string :=
  match s with
  | EmptyString => [""]
  | String c s' =>
      if p c then "" :: split_by p s'
      else match split_by p s' with w :: ws => String c w :: ws | [] => [String c ""] end
  end.
Definition guestTagSplit (c : ascii) : bool := one_of ";," c || re_space c.
Definition carries (tag : string) (g : Guest) : bool :=
  existsb (λ t, negb (eqb t "") && equal_fold t tag) (split_by guestTagSplit (Tags_ g)).
Definition FindGuestByTagFold (guests : list Guest) (tag : string) : res Guest :=
  if eqb tag "" then Er (errorf "find guest by tag: tag is required")
  else
    let what := "find guest by tag " +:+ quote tag in
    match filter (λ g, carries tag g = true) guests with
    | [] => Er (wrapf what (sent ErrNotFound))
    | [g] => Ok g
    | ms => Er (wrapf (what +:+ ": " +:+ itoa (Z.of_nat (length ms)) +:+ " guests") (sent ErrAmbiguousTag))
    end.

(** ** nodeqemu.go *)
Definition nodeEntryVMID (v : option json) : res Z :=
  let parse s :=
    if eqb s "" then Er (errorf "empty")
    else match atoi s with
         | None => Er (errorf "not a base-10 integer")
         | Some n => if (n <? 1)%Z then Er (errorf "not a positive integer") else Ok n
         end in
  match v with
  | Some (JNum s) | Some (JStr s) => parse s
  | None | Some JNull => Er (errorf "missing or null")
  | _ => Er (errorf "not a number or numeric string")
  end.
Definition node_what : string := "node qemu list".
Definition node_entry (i : Z) (e : gmap string json) (vmids : list Z) : res (list Z) :=
  match nodeEntryVMID (e !! "vmid") with
  | Er er => Er (unverifiable_ node_what ("entry " +:+ itoa i +:+ " has vmid " +:+ fmt_any (e !! "vmid") +:+ ": " +:+ Error er))
  | Ok vmid =>
      if bool_decide (vmid ∈ vmids) then Er (unverifiable_ node_what ("vmid " +:+ itoa vmid +:+ " is listed twice"))
      else Ok (vmids ++ [vmid])
  end.
Definition ParseNodeVMIDs (b : string) : res (list Z) :=
  let^ l := decode_list node_what b orelse id in
  let^ vmids := each_entry node_what node_entry 0 l [] orelse id in Ok (sort_ints vmids).

(** * Lemmas *)
(** The reply holds exactly these entries, none of them null, and nothing else. *)
Definition listing (b : string) (es : list (gmap string json)) : Prop :=
  ∃ j rest, decode_stream b = Some (j, rest) ∧ as_objects j = Some (Some (somes es)) ∧ skip_ws rest = "".
Lemma decode_list_Ok what b l :
  decode_list what b = Ok l ↔
  ∃ j rest, decode_stream b = Some (j, rest) ∧ as_objects j = Some (Some l) ∧ skip_ws rest = "".
Proof.
  unfold decode_list. split.
  - destruct (decode_stream b) as [[j rest]|]; [|done]. destruct (as_objects j) as [[l'|]|] eqn:Hj; [|done..].
    destruct (eqb (skip_ws rest) "") eqn:He; [|done]. intros [= ->]. apply eqb_true in He. eauto.
  - intros (j & rest & -> & -> & ->). done.
Qed.
Lemma each_entry_somes {S} what (f : Z → gmap string json → S → res S) i l s s' :
  each_entry what f i l s = Ok s' → ∃ es, l = somes es.
Proof.
  revert i s. induction l as [|[e|] l IH]; intros i s H; simpl in H; [by exists []| |done].
  destruct (f i e s) as [s1|]; [|done]. apply IH in H as [es ->]. by exists (e :: es).
Qed.
(** A parser reads a listing entry by entry. *)
Lemma parsed {S A} what (f : Z → gmap string json → S → res S) s (g : S → res A) b a :
  (let^ l := decode_list what b orelse id in let^ s' := each_entry what f 0 l s orelse id in g s') = Ok a ↔
  ∃ es s', listing b es ∧ each_entry what f 0 (somes es) s = Ok s' ∧ g s' = Ok a.
Proof.
  split.
  - destruct (decode_list what b) as [l|] eqn:Hl; [|done]. destruct (each_entry what f 0 l s) as [s'|] eqn:Hs; [|done].
    intros Hg. destruct (each_entry_somes _ _ _ _ _ _ Hs) as [es ->]. exists es, s'. split_and!; [|done..].
    by apply decode_list_Ok in Hl.
  - intros (es & s' & Hl & Hs & Hg). by rewrite (proj2 (decode_list_Ok what b (somes es)) Hl), Hs.
Qed.

Lemma types_differ e : has_type "node" e = true → has_type "cluster" e = false.
Proof. unfold has_type. rewrite bool_decide_eq_true, bool_decide_eq_false. by intros ->. Qed.
Definition of_type (t : string) (es : list (gmap string json)) : list (gmap string json) :=
  filter (λ e, has_type t e = true) es.
Lemma of_type_cons t e es : of_type t (e :: es) = if has_type t e then e :: of_type t es else of_type t es.
Proof. unfold of_type. rewrite filter_cons. by destruct (has_type t e). Qed.
Definition flag (k : string) (e : gmap string json) : option bool := quorateFlag (e !! k).
Lemma quorate_run i es c n q s' :
  each_entry status_what quorate_entry i (somes es) (c, n, q) = Ok s' ↔
  ∃ qs, mapM (flag "quorate") (of_type "cluster" es) = Some qs ∧
    s' = (c + length (of_type "cluster" es), n + length (of_type "node" es), foldl (λ _ x, x) q qs).
Proof.
  revert i c n q. induction es as [|e es IH]; intros i c n q.
  - cbn. rewrite !Nat.add_0_r. split; [intros [= <-]; by exists []|intros (qs & [= <-] & ->); done].
  - cbn [somes fmap list_fmap each_entry quorate_entry]. rewrite !of_type_cons.
    destruct (has_type "node" e) eqn:Hn.
    { rewrite (types_differ e Hn). unfold somes in IH. rewrite IH. cbn [length]. by rewrite Nat.add_succ_comm. }
    destruct (has_type "cluster" e); cbn [negb]; [|apply IH].
    cbn [length mapM mbind option_bind]. fold (flag "quorate" e).
    destruct (flag "quorate" e) as [q1|]; [|split; [done|by intros (qs & ? & _)]].
    unfold somes in IH. cbn [mret option_ret id]. rewrite IH. rewrite Nat.add_succ_comm. split.
    + intros (qs & -> & ->). by exists (q1 :: qs).
    + intros (qs & Hqs & ->). destruct (mapM _ _) as [qs1|]; [|done]. injection Hqs as <-. eauto.
Qed.

(** What one row says of a guest. *)
Definition guest_row (e : gmap string json) (g : Guest) : Prop :=
  e !! "type" = Some (JStr (Type_ g)) ∧ (Type_ g = "qemu" ∨ Type_ g = "lxc") ∧
  (∃ lit, e !! "vmid" = Some (JNum lit) ∧ atoi lit = Some (VMID_ g)) ∧ (1 ≤ VMID_ g)%Z ∧
  e !! "node" = Some (JStr (Node_ g)) ∧ Node_ g ≠ "" ∧
  (e !! "tags" = None ∧ Tags_ g = "" ∨ e !! "tags" = Some (JStr (Tags_ g))).
Lemma guest_entry_Ok i e gs gs' :
  guest_entry i e gs = Ok gs' ↔ ∃ g, guest_row e g ∧ gs' = gs ++ [g].
Proof.
  unfold guest_entry, guest_row. split.
  - destruct (e !! "type") as [[| | |t| |]|]; try done.
    destruct (eqb t "qemu" || eqb t "lxc") eqn:Ht; [|done]. cbn [negb].
    destruct (e !! "vmid") as [[| |lit| | |]|]; try done. destruct (atoi lit) as [vmid|] eqn:Hv; [|done].
    destruct (Z.ltb_spec vmid 1); [done|]. destruct (e !! "node") as [[| | |node| |]|]; try done.
    destruct (eqb node "") eqn:Hn; [done|].
    apply orb_true_iff in Ht. rewrite !eqb_true in Ht.
    assert (node ≠ "") by (intros ->; done).
    destruct (e !! "tags") as [[| | |tags| |]|]; try done; intros [= <-]; eexists; (split; [|done]); cbn;
      split_and!; eauto 10.
  - intros (g & (-> & Ht & (lit & -> & Hv) & H1 & -> & Hn & Hg) & ->). cbn.
    assert (eqb (Type_ g) "qemu" || eqb (Type_ g) "lxc" = true) as -> by (rewrite orb_true_iff, !eqb_true; done).
    cbn [negb]. rewrite Hv. destruct (Z.ltb_spec (VMID_ g) 1); [lia|].
    destruct (eqb (Node_ g) "") eqn:He; [by apply eqb_true in He|].
    destruct g; cbn in *. by destruct Hg as [[-> ->]| ->].
Qed.
Lemma each_guest i es gs gs' :
  each_entry guests_what guest_entry i (somes es) gs = Ok gs' ↔ ∃ new, Forall2 guest_row es new ∧ gs' = gs ++ new.
Proof.
  revert i gs. induction es as [|e es IH]; intros i gs; cbn [somes fmap list_fmap each_entry].
  - split; [intros [= <-]; exists []; by rewrite app_nil_r|].
    intros (new & H & ->). inversion H. by rewrite app_nil_r.
  - split.
    + destruct (guest_entry i e gs) as [g1|] eqn:Hg; [|done]. apply guest_entry_Ok in Hg as (g & Hrow & ->).
      intros (new & Hn & ->)%IH. exists (g :: new). split; [by constructor|]. by rewrite <- app_assoc.
    + intros (new & H & ->). inversion H as [|? g ? new' Hrow Hn]; subst.
      rewrite (proj2 (guest_entry_Ok i e gs (gs ++ [g]))) by eauto.
      apply IH. exists new'. split; [done|]. by rewrite <- app_assoc.
Qed.
Lemma ParseClusterGuests_spec b gs :
  ParseClusterGuests b = Ok gs ↔ ∃ es, listing b es ∧ Forall2 guest_row es gs.
Proof.
  pose proof (parsed guests_what guest_entry [] Ok b gs) as H.
  assert (ParseClusterGuests b = (let^ l := decode_list guests_what b orelse id in
    let^ s' := each_entry guests_what guest_entry 0 l [] orelse id in Ok s')) as ->.
  { unfold ParseClusterGuests. destruct (decode_list _ _); [|done]. by destruct (each_entry _ _ _ _ _). }
  rewrite H. split.
  - intros (es & s' & Hl & (new & Hn & ->)%each_guest & [= <-]). by exists es.
  - intros (es & Hl & Hn). exists es, gs. split_and!; [done| |done]. apply each_guest. by exists gs.
Qed.
(** The QEMU guests, as pairs. *)
Definition qemu_pairs (gs : list Guest) : list (string * Z) :=
  omap (λ g, if eqb (Type_ g) "qemu" then Some (Node_ g, VMID_ g) else None) gs.
Lemma ClusterQemuPairs_spec gs online ps :
  ClusterQemuPairs gs online = Ok ps ↔
  ps = qemu_pairs gs ∧ ∀ g, g ∈ gs → Type_ g = "qemu" → Node_ g ∈ online.
Proof.
  revert ps. induction gs as [|g gs IH]; intros ps; cbn [ClusterQemuPairs].
  { split; [intros [= <-]; split; [done|]; by intros ? ?%elem_of_nil|by intros [-> _]]. }
  unfold qemu_pairs. cbn [omap list_omap].
  destruct (eqb (Type_ g) "qemu") eqn:Ht; cbn [negb].
  - apply eqb_true in Ht. case_bool_decide as Hon; cbn [negb].
    + destruct (ClusterQemuPairs gs online) as [ps'|er].
      * split; [intros [= <-]|intros [-> Hall]].
        -- destruct (proj1 (IH ps') eq_refl) as [-> Hall]. split; [done|].
           intros x [->|Hx]%elem_of_cons; [done|auto].
        -- do 2 f_equal. assert (Ok ps' = Ok (qemu_pairs gs)) as [= ->]; [|done].
           apply IH. split; [done|]. intros x Hx. apply Hall. by right.
      * split; [done|]. intros [_ Hall]. assert (@Er (list (string * Z)) er = Ok (qemu_pairs gs)); [|done].
        apply IH. split; [done|]. intros x Hx. apply Hall. by right.
    + split; [done|]. intros [_ Hall]. destruct Hon. apply Hall; [by left|done].
  - assert (Type_ g ≠ "qemu") as Hne by (intros H; by rewrite H in Ht). rewrite IH.
    split; intros [-> Hall]; (split; [done|]); intros x Hx.
    + apply elem_of_cons in Hx as [->|Hx]; [done|auto].
    + apply Hall. by right.
Qed.

Definition vmid_row (e : gmap string json) (v : Z) : Prop := nodeEntryVMID (e !! "vmid") = Ok v.
Lemma each_vmid i es vs vs' :
  NoDup vs → each_entry node_what node_entry i (somes es) vs = Ok vs' ↔
  ∃ new, Forall2 vmid_row es new ∧ vs' = vs ++ new ∧ NoDup vs'.
Proof.
  revert i vs. induction es as [|e es IH]; intros i vs Hnd; cbn [somes fmap list_fmap each_entry].
  - split; [intros [= <-]; exists []; by rewrite app_nil_r|].
    intros (new & H & -> & _). inversion H. by rewrite app_nil_r.
  - unfold node_entry. split.
    + destruct (nodeEntryVMID _) as [v|] eqn:Hv; [|done]. case_bool_decide as Hin; [done|].
      intros (new & Hn & -> & Hd)%IH. 2: { apply NoDup_app. split_and!; [done|set_solver|apply NoDup_singleton]. }
      exists (v :: new). split_and!; [by constructor|by rewrite <- app_assoc|done].
    + intros (new & H & -> & Hd). inversion H as [|? v ? new' Hrow Hn]; subst. rewrite Hrow.
      assert (NoDup (vs ++ [v])) as Hd'.
      { change (v :: new') with ([v] ++ new') in Hd. rewrite (app_assoc vs [v] new') in Hd. by apply NoDup_app in Hd as (? & _). }
      rewrite bool_decide_false. 2: { apply NoDup_app in Hd' as (_ & H1 & _). intros Hv. apply (H1 v Hv). by left. }
      apply IH; [done|]. exists new'. rewrite <- app_assoc. done.
Qed.
Lemma nodeEntryVMID_pos v n : nodeEntryVMID v = Ok n → (1 ≤ n)%Z.
Proof.
  unfold nodeEntryVMID. destruct v as [[]|]; try done; destruct (eqb _ ""); try done;
    destruct (atoi _) as [z|]; try done; destruct (Z.ltb_spec z 1); try done; by intros [= <-].
Qed.
Lemma ParseNodeVMIDs_spec b vs :
  ParseNodeVMIDs b = Ok vs ↔ ∃ es ids, listing b es ∧ Forall2 vmid_row es ids ∧ NoDup ids ∧ vs = sort_ints ids.
Proof.
  unfold ParseNodeVMIDs. rewrite (parsed node_what node_entry [] (λ s, Ok (sort_ints s))). split.
  - intros (es & s' & Hl & (new & Hn & -> & Hd)%each_vmid & [= <-]); [|by constructor]. by exists es, new.
  - intros (es & ids & Hl & Hn & Hd & ->). exists es, ids. split_and!; [done| |done].
    apply each_vmid; [by constructor|]. by exists ids.
Qed.

(** * Properties *)

(** The node counts as quorate exactly when the reply is one list of objects and
    nothing else, and either its one cluster entry says 1, or it holds no cluster entry
    and at least one node entry. It counts as not quorate only on a 0 (or a null) in
    the one cluster entry; every other reply is refused. *)
Theorem ParseClusterStatusQuorate_iff b q :
  ParseClusterStatusQuorate b = Ok q ↔
  ∃ es, listing b es ∧
    ((∃ c, of_type "cluster" es = [c] ∧ flag "quorate" c = Some q) ∨
     (of_type "cluster" es = [] ∧ of_type "node" es ≠ [] ∧ q = true)).
Proof.
  unfold ParseClusterStatusQuorate. rewrite (parsed status_what quorate_entry (0, 0, false) (λ s, _)).
  setoid_rewrite quorate_run. split.
  - intros (es & s' & Hl & (qs & Hqs & ->) & Hg). exists es. split; [done|]. cbn in Hg.
    destruct (of_type "cluster" es) as [|c [|c2 cs]] eqn:Hc; cbn in Hg; [| |done].
    + case_decide as Hn; [done|]. injection Hg as <-. right. split_and!; [done| |done].
      intros Hnil. by rewrite Hnil in Hn.
    + left. exists c. split; [done|]. cbn in Hqs. destruct (flag "quorate" c) as [q1|]; [|done].
      cbn in Hqs. injection Hqs as <-. cbn in Hg. by injection Hg as <-.
  - intros (es & Hl & [(c & Hc & Hf)|(Hc & Hn & ->)]).
    + exists es, (1, length (of_type "node" es), q). split_and!; [done| |done].
      exists [q]. rewrite Hc. cbn. by rewrite Hf.
    + exists es, (0, length (of_type "node" es), false). split_and!; [done| |].
      * exists []. by rewrite Hc.
      * cbn. rewrite decide_False; [done|]. by destruct (of_type "node" es).
Qed.

(** The guest list and the VM list of a node are read whole or refused: a reply is
    accepted exactly when it is one list of objects, each a valid row, and what is
    returned is every row, in order or (VMIDs) ascending and each once; the pairs of a
    guest list are its QEMU guests, accepted exactly when every one of them lives on a
    node reported online. *)
Theorem Cluster_lists_whole b gs vs online ps :
  (ParseClusterGuests b = Ok gs ↔ ∃ es, listing b es ∧ Forall2 guest_row es gs) ∧
  (ParseNodeVMIDs b = Ok vs ↔
    ∃ es ids, listing b es ∧ Forall2 vmid_row es ids ∧ NoDup ids ∧ vs = sort_ints ids) ∧
  (ClusterQemuPairs gs online = Ok ps ↔
    ps = qemu_pairs gs ∧ ∀ g, g ∈ gs → Type_ g = "qemu" → Node_ g ∈ online).
Proof. split_and!; [apply ParseClusterGuests_spec|apply ParseNodeVMIDs_spec|apply ClusterQemuPairs_spec]. Qed.

(** A null flag decodes to the zero value: it reads as 0, not as a flag that is absent. *)
Example null_quorate :
  ParseClusterStatusQuorate ("[{" +:+ dq +:+ "type" +:+ dq +:+ ":" +:+ dq +:+ "cluster" +:+ dq +:+ ","
    +:+ dq +:+ "quorate" +:+ dq +:+ ":null}]") = Ok false.
Proof. by vm_compute. Qed.
Example null_online :
  ParseClusterStatusOnlineNodes ("[{" +:+ dq +:+ "type" +:+ dq +:+ ":" +:+ dq +:+ "node" +:+ dq +:+ ","
    +:+ dq +:+ "name" +:+ dq +:+ ":" +:+ dq +:+ "pve1" +:+ dq +:+ "," +:+ dq +:+ "online" +:+ dq +:+ ":null}]") = Ok ∅.
Proof. by vm_compute. Qed.
