(* ===== verification/Routed.v ===== *)
(** internal/pve/routed.go: [RoutedClient], the client the Ops work through, made of the
    REST client and of one SSH connection, opened when first needed and kept. It is
    the implementation of the interface [clientE]: a handler of its calls in terms of
    the exchanges with PVE and with the host ([hostE]). *)
From Stdlib Require Import Ascii.
From S2P Require Import Prelude GoLib Errors Json Utf8 ShellQuote Rest Vms Task Snapshot Orphans OpRun Client.
From S2P Require Import VmFields VmLife Storage StorageOps Remote.

(** ** The target and the exchanges *)
Record SSHAuth := { User : string; HostKeyFingerprint : string; PrivateKeyEnc : string }.
Record Target := { target_ID : string; Host : string; Node : string; SSH : option SSHAuth }.

(** [HDecrypt] is [roster.DecryptString] under the client's passphrase; [HDial] is
    [sshexec.Dial], which pins the host key to the fingerprint given; [HSsh] runs a
    command on the open connection. *)
Inductive hostE : Type → Type :=
| HPve {R} (e : pveE R) : hostE R
| HSsh {R} (e : sshE R) : hostE R
| HDecrypt (enc : string) : hostE (res string)
| HDial (addr user key fingerprint : string) : hostE (res unit)
| HClose : hostE unit
| HLock (key : ObjectKey) : hostE (res unit)
| HUnlock : hostE unit.

Definition routedSSHDialPort : Z := 22.
Definition isSafeSnippetFilename (s : string) : bool :=
  negb (eqb s "" || eqb s "." || eqb s "..") && all_bytes (λ c, is_alnum c || one_of "-_." c) s.

Section routed.
Context (target : Target).
Abbreviation node := (Node target).

(** ** The SSH connection: [true] while [c.ssh] is one *)
Definition dialSSH : io hostE (res unit) :=
  match SSH target with
  | None => Ret (Er (errorf ("requires the standing SSH vector, but target " +:+ quote (target_ID target)
      +:+ " has no ssh auth; run `pveforge bootstrap` first")))
  | Some auth =>
      guard negb (eqb (HostKeyFingerprint auth) "") orelse
        errorf ("target " +:+ quote (target_ID target)
          +:+ " has ssh auth but no pinned host key fingerprint on file; re-bootstrap to establish one") in
      let? key := trigger (HDecrypt (PrivateKeyEnc auth))
        orelse wrapf ("decrypt ssh key for " +:+ quote (target_ID target)) in
      let? _ := trigger (HDial (Host target +:+ ":" +:+ itoa routedSSHDialPort) (User auth) key (HostKeyFingerprint auth))
        orelse wrapf ("connect to " +:+ quote (target_ID target) +:+ " via ssh") in
      Ret (Ok tt)
  end.
Definition sshConnectionHealthy : io hostE bool :=
  let! r := trigger (HSsh (SRun "true")) in Ret (is_ok r).
(** [withSSH], a failed dial reported through [wrap]. *)
Definition over_ssh {A} (wrap : err → err) (fn : io sshE (res A)) (connected : bool) : io hostE (res A * bool) :=
  let! d := (if connected then Ret (Ok tt) else dialSSH) in
  match d with
  | Er e => Ret (Er (wrap e), false)
  | Ok _ =>
      let! r := lift (@HSsh) fn in
      match r with
      | Ok a => Ret (Ok a, true)
      | Er e =>
          let! healthy := sshConnectionHealthy in
          if healthy : bool then Ret (Er e, true)
          else let! _ := trigger HClose in Ret (Er e, false)
      end
  end.
Definition withSSH {A} : io sshE (res A) → bool → io hostE (res A * bool) := over_ssh id.
Definition rootFieldViaSSH (what : string) : io sshE (res unit) → bool → io hostE (res unit * bool) :=
  over_ssh (wrapf what).
Definition set_what (vmid : Z) (fld : string) : string := "set vm " +:+ itoa vmid +:+ " field " +:+ quote fld.
Definition delete_what (vmid : Z) (fld : string) : string := "delete vm " +:+ itoa vmid +:+ " field " +:+ quote fld.
Definition setViaSSH (vmid : Z) (fld value : string) : bool → io hostE (res unit * bool) :=
  rootFieldViaSSH (set_what vmid fld) (Remote.SetVMConfigField vmid fld value).
Definition deleteViaSSH (vmid : Z) (fld : string) : bool → io hostE (res unit * bool) :=
  rootFieldViaSSH (delete_what vmid fld) (Remote.DeleteVMConfigField vmid fld).

(** ** Config fields *)
Definition rest {A} (m : io pveE A) (s : bool) : io hostE (A * bool) :=
  let! r := lift (@HPve) m in Ret (r, s).
Definition no_cas (what : string) : err :=
  errorf (what +:+ ": root-only fields routed over the standing SSH vector have no compare-and-swap mechanism to honor an expected prior value with").
(** A REST write, and SSH when PVE says that only root may make it. *)
Definition write_field (fld : string) (over_rest : io pveE (res unit))
    (via_ssh : bool → io hostE (res unit * bool)) (s : bool) : io hostE (res unit * bool) :=
  if RootOnlyFields fld then via_ssh s
  else
    let! r := lift (@HPve) over_rest in
    match r with
    | Ok _ => Ret (Ok tt, s)
    | Er e =>
        if IsRootOnlyWriteError e then
          let! rs := via_ssh s in
          match rs.1 with Ok _ => Ret (Ok tt, rs.2) | Er _ => Ret (Er e, rs.2) end
        else Ret (Er e, s)
    end.
Definition SetVMConfigField (vmid : Z) (fld value : string) : bool → io hostE (res unit * bool) :=
  write_field fld (Vms.SetVMConfigField node vmid fld value) (setViaSSH vmid fld value).
Definition DeleteVMConfigField (vmid : Z) (fld : string) : bool → io hostE (res unit * bool) :=
  write_field fld (Vms.DeleteVMConfigField node vmid fld) (deleteViaSSH vmid fld).
Definition SetVMConfigFieldCAS (vmid : Z) (fld value expectDigest : string) (s : bool)
    : io hostE (res unit * bool) :=
  if RootOnlyFields fld then Ret (Er (no_cas (set_what vmid fld)), s)
  else rest (Vms.SetVMConfigFieldCAS node vmid fld value expectDigest) s.
Definition DeleteVMConfigFieldCAS (vmid : Z) (fld expectDigest : string) (s : bool)
    : io hostE (res unit * bool) :=
  if RootOnlyFields fld then Ret (Er (no_cas (delete_what vmid fld)), s)
  else rest (Vms.DeleteVMConfigFieldCAS node vmid fld expectDigest) s.

(** ** Snippets *)
Definition UploadSnippet (storageID filename content : string) (s : bool) : io hostE (res unit * bool) :=
  if negb (isSafeSnippetFilename filename) then
    Ret (Er (errorf ("upload snippet: filename " +:+ quote filename +:+ " is empty or contains unsafe characters")), s)
  else
    let wrap := wrapf ("upload snippet " +:+ quote filename) in
    let! base := lift (@HPve) (GetStorageConfigPath storageID) in
    match base with
    | Er e => Ret (Er (wrap e), s)
    | Ok basePath =>
        let! rs := withSSH (WriteFile (path_Join [basePath; "snippets"; filename]) content "0755") s in
        Ret (match rs.1 with Ok _ => Ok tt | Er e => Er (wrap e) end, rs.2)
    end.

(** ** Every call *)
Definition StorageType (nd storageID : string) : io pveE (res string) :=
  let? st := GetStorage nd storageID orelse wrapf "storage type" in Ret (Ok (st_type st)).
(** A result whose list elements are pointers, none of them nil. *)
Definition pointers {A} (m : io pveE (res (list A))) : io pveE (res (list (option A))) :=
  let! r := m in Ret match r with Ok l => Ok (somes l) | Er e => Er e end.
Definition vm_pointer (m : io pveE (res VirtualMachine)) : io pveE (res (option VirtualMachine)) :=
  let! r := m in Ret match r with Ok vm => Ok (Some vm) | Er e => Er e end.
Definition routed : handler clientE hostE bool := λ R e,
  match e in clientE R return bool → io hostE (R * bool) with
  | CLock key => λ s, let! r := trigger (HLock key) in Ret (r, s)
  | CUnlock => λ s, let! r := trigger HUnlock in Ret (r, s)
  | CGetVM nd vmid => rest (vm_pointer (GetVM nd vmid))
  | CRawRequest m p v => rest (RawRequest m p v)
  | CSetField vmid f v => SetVMConfigField vmid f v
  | CSetFieldCAS vmid f v d => SetVMConfigFieldCAS vmid f v d
  | CDeleteField vmid f => DeleteVMConfigField vmid f
  | CDeleteFieldCAS vmid f d => DeleteVMConfigFieldCAS vmid f d
  | CSetFieldOverSSH vmid f v => setViaSSH vmid f v
  | CDeleteFieldOverSSH vmid f => deleteViaSSH vmid f
  | CCreateVM vmid ps => rest (CreateVM node vmid ps)
  | CCloneVM src new ps => rest (CloneVM node src new ps)
  | CStopVM vmid => rest (StopVM node vmid)
  | CDestroyVM vmid purge => rest (DestroyVM node vmid purge)
  | CShutdownVM vmid => rest (ShutdownVM node vmid)
  | CWaitForTask nd upid => rest (WaitForTask nd upid)
  | CTagStillClaimed tag vmid => rest (TagStillClaimed tag vmid)
  | CStorageType nd st => rest (StorageType nd st)
  | CGetStorage nd st => rest (GetStorage nd st)
  | CGetStorageVolumes nd st => rest (pointers (GetStorageVolumes nd st))
  | CGetStorageConfigRaw st => rest (GetStorageConfigRaw st)
  | CCreateStorage name ps => rest (CreateStorage name ps)
  | CUpdateStorageConfig name ps => rest (UpdateStorageConfig name ps)
  | COrphansOnNode nd st vmid vmids => rest (pointers (OrphanVolumesForVMIDWithVMList nd st vmid (Some vmids)))
  | COrphansInCluster nd st vmid gs => rest (pointers (OrphanVolumesClusterForVMID nd st vmid (Some gs)))
  | CLinkState i => withSSH (LinkState_ i)
  | CTapLinkState t => withSSH (TapLinkState_ t)
  | CSetBridgePortIsolated t on => withSSH (Remote.SetBridgePortIsolated t on)
  | CUploadSnippet st f c => UploadSnippet st f c
  end.
End routed.

(** * What a trace changes *)
Definition pve_event (ev : event hostE) : option (event pveE) :=
  match ev with
  | Ev e r => match e in hostE R return R → option (event pveE) with
              | HPve e => λ r, Some (Ev e r)
              | _ => λ _, None
              end r
  end.
(** The exchanges with PVE. *)
Definition pve_trace (tr : list (event hostE)) : list (event pveE) := omap pve_event tr.
(** The commands that only look, as the host's shell reads them. *)
Definition read_only (cmd : string) : bool :=
  match sh_tokens cmd with
  | Some [Word "true"] => true
  | Some [Word tool; Word "-j"; Word "link"; Word "show"; Word "dev"; Word _] => eqb tool "ip" || eqb tool "bridge"
  | _ => false
  end.
Definition host_changing (ev : event hostE) : bool :=
  match ev with
  | Ev e _ => match e with
              | HPve e => match e with Http m _ _ => negb (eqb m "GET") | _ => false end
              | HSsh e => match e with SRun cmd => negb (read_only cmd) end
              | _ => false
              end
  end.
(** The requests and commands that change PVE or the host, in order. *)
Definition host_changes (tr : list (event hostE)) : list (event hostE) :=
  filter (λ ev, host_changing ev = true) tr.

(** * Lemmas *)
Lemma host_changes_app tr tr' : host_changes (tr ++ tr') = host_changes tr ++ host_changes tr'.
Proof. apply filter_app. Qed.
Lemma host_changes_cons ev tr :
  host_changes (ev :: tr) = if host_changing ev then ev :: host_changes tr else host_changes tr.
Proof. unfold host_changes. rewrite filter_cons. by destruct (host_changing ev). Qed.
Lemma pve_trace_app tr tr' : pve_trace (tr ++ tr') = pve_trace tr ++ pve_trace tr'.
Proof. apply omap_app. Qed.
Lemma pve_trace_lift tr : pve_trace (lift_event (@HPve) <$> tr) = tr.
Proof. induction tr as [|[R e r] tr IH]; [done|]. unfold pve_trace in *. cbn. by rewrite IH. Qed.
Lemma host_changing_lift ev : host_changing (lift_event (@HPve) ev) = true ↔ is_Some (mutation ev).
Proof.
  destruct ev as [R e r]. cbn. destruct e; cbn; try (split; [done|by intros []]).
  destruct (eqb method "GET"); cbn; (split; [try done; by eexists|try done; by intros []]).
Qed.
Lemma host_changes_lift tr :
  host_changes (lift_event (@HPve) <$> tr) = lift_event (@HPve) <$> filter (λ ev, is_Some (mutation ev)) tr.
Proof.
  induction tr as [|ev tr IH]; [done|]. rewrite fmap_cons, host_changes_cons, filter_cons, IH.
  case_decide as H; [by rewrite (proj2 (host_changing_lift ev) H)|].
  destruct (host_changing _) eqn:Hc; [|done]. destruct H. by apply host_changing_lift.
Qed.
Lemma no_mutations tr : mutations tr = [] → filter (λ ev, is_Some (mutation ev)) tr = [].
Proof.
  induction tr as [|ev tr IH]; [done|]. unfold mutations. cbn [omap list_omap]. rewrite filter_cons.
  destruct (mutation ev) eqn:Hm; [done|]. intros H. case_decide as Hd; [by destruct Hd|]. by apply IH.
Qed.
(** A REST call leaves what it left, and the connection as it was. *)
Lemma rest_spec {A} (m : io pveE A) (Q : list (event pveE) → A → Prop) s :
  always m Q → always (rest m s) (λ tr rs, ∃ tr0, tr = lift_event (@HPve) <$> tr0 ∧ Q tr0 rs.1 ∧ rs.2 = s).
Proof.
  intros Hm. unfold rest. eapply always_call; [by apply lift_spec|].
  intros tr a (tr0 & -> & HQ). cbn. rewrite app_nil_r. eauto.
Qed.
Definition quiet {A} (m : io pveE A) : Prop := always m (λ tr _, mutations tr = []).
Lemma rest_quiet {A} (m : io pveE A) s : quiet m → always (rest m s) (λ tr _, host_changes tr = []).
Proof.
  intros Hm. eapply always_mono; [|exact (rest_spec m (λ tr _, mutations tr = []) s Hm)]. cbn.
  intros tr rs (tr0 & -> & Hq & _). by rewrite host_changes_lift, no_mutations.
Qed.
Lemma ip_link_reads i : read_only (ip_link i) = true.
Proof. unfold read_only, sh_tokens, ip_link. repeat sh_read. reflexivity. Qed.
Lemma bridge_link_reads i : read_only (bridge_link i) = true.
Proof. unfold read_only, sh_tokens, bridge_link. repeat sh_read. reflexivity. Qed.

(** What one use of the connection may run besides the calls of [fn]: the dial, the
    probe, and the close. *)
Definition ssh_overhead (tr : list (event hostE)) : Prop := host_changes tr = [] ∧ pve_trace tr = [].
Lemma dialSSH_overhead target : always (dialSSH target) (λ tr _, ssh_overhead tr).
Proof.
  unfold dialSSH. destruct (SSH target) as [auth|]; [|done]. cbn [bind trigger always].
  destruct (negb _); cbn; [|done]. intros [key|e]; cbn; [|done]. intros [[]|e]; done.
Qed.
Lemma over_ssh_spec {A} target wrap (fn : io sshE (res A)) s Q :
  always fn Q →
  always (over_ssh target wrap fn s) (λ tr rs, ∃ tr1 tr0 tr2,
    tr = tr1 ++ (lift_event (@HSsh) <$> tr0) ++ tr2 ∧ ssh_overhead tr1 ∧ ssh_overhead tr2 ∧
    (is_ok rs.1 = false ∧ tr0 = [] ∨ Q tr0 rs.1)).
Proof.
  intros Hfn. unfold over_ssh.
  eapply always_call with (P := λ tr _, ssh_overhead tr).
  { destruct s; [done|apply dialSSH_overhead]. }
  intros tr1 [[]|e] H1; cbn [always]; rewrite ?app_nil_r; 
    [|exists tr1, [], []; cbn; split_and!; [by rewrite app_nil_r|done|done|by left]].
  eapply always_call; [by apply lift_spec|].
  intros tr [a|e] (tr0 & -> & HQ).
  - cbn. exists tr1, tr0, []. split_and!; [by rewrite app_nil_r|done|done|by right].
  - cbn [bind sshConnectionHealthy trigger always]. intros probe.
    destruct (is_ok probe); cbn; [|intros []]; eexists tr1, tr0, _; (split_and!; [done|done|done|by right]).
Qed.
Lemma over_ssh_quiet {A} target wrap (fn : io sshE (res A)) s :
  always fn (λ tr _, ∀ cmd a, Ev (SRun cmd) a ∈ tr → read_only cmd = true) →
  always (over_ssh target wrap fn s) (λ tr _, host_changes tr = []).
Proof.
  intros Hfn. eapply always_mono; [|by apply over_ssh_spec].
  intros tr rs (tr1 & tr0 & tr2 & -> & [H1 _] & [H2 _] & H0).
  rewrite !host_changes_app, H1, H2, app_nil_r. cbn. destruct H0 as [[_ ->]|Hr]; [done|]. clear -Hr.
  induction tr0 as [|[R e a] tr0 IH]; [done|]. rewrite fmap_cons, host_changes_cons. destruct e. cbn.
  rewrite (Hr cmd a) by by left. apply IH. intros cmd' a' Hin. apply (Hr cmd' a'). by right.
Qed.
Lemma LinkState_quiet i : always (LinkState_ i) (λ tr _, ∀ cmd a, Ev (SRun cmd) a ∈ tr → read_only cmd = true).
Proof.
  unfold LinkState_. destruct (negb _); cbn; [|by intros ? ? ?%elem_of_nil]. intros r.
  assert (∀ cmd a, Ev (SRun cmd) a ∈ [Ev (SRun (ip_link i)) r] → read_only cmd = true) as H; [|by destruct r].
  intros cmd a Hin%list_elem_of_singleton. simplify_eq. apply ip_link_reads.
Qed.
Lemma TapLinkState_quiet t : always (TapLinkState_ t) (λ tr _, ∀ cmd a, Ev (SRun cmd) a ∈ tr → read_only cmd = true).
Proof.
  unfold TapLinkState_. destruct (negb _); cbn; [|by intros ? ? ?%elem_of_nil]. intros r.
  assert (∀ cmd a, Ev (SRun cmd) a ∈ [Ev (SRun (bridge_link t)) r] → read_only cmd = true) as H; [|by destruct r].
  intros cmd a Hin%list_elem_of_singleton. simplify_eq. apply bridge_link_reads.
Qed.

(** The reads of the REST client change nothing. *)
Lemma pointers_spec {A} (m : io pveE (res (list A))) (Q : list (event pveE) → res (list A) → Prop) :
  always m Q → always (pointers m) (λ tr r, ∃ r0, Q tr r0 ∧
    r = match r0 with Ok l => Ok (somes l) | Er e => Er e end).
Proof.
  intros Hm. unfold pointers. eapply always_call; [exact Hm|]. intros tr r HQ. cbn. rewrite app_nil_r. eauto.
Qed.
Lemma pointers_quiet {A} (m : io pveE (res (list A))) : quiet m → quiet (pointers m).
Proof. intros Hm. eapply always_mono; [|by apply (pointers_spec m (λ tr _, mutations tr = []))]. by intros tr r (? & ? & _). Qed.
Lemma quiet_of {A} (m : io pveE A) (Q : list (event pveE) → A → Prop) :
  always m (λ tr a, mutations tr = [] ∧ Q tr a) → quiet m.
Proof. apply always_mono. by intros tr a [H _]. Qed.
Lemma GetVM_quiet nd vmid : quiet (GetVM nd vmid).
Proof. unfold quiet, GetVM. io_run; done. Qed.
Lemma vm_pointer_quiet m : quiet m → quiet (vm_pointer m).
Proof. intros Hm. unfold quiet, vm_pointer. eapply always_call; [exact Hm|]. intros tr r H. cbn. by rewrite app_nil_r. Qed.
Lemma get_quiet p v : quiet (RawRequest "GET" p v).
Proof. unfold quiet. eapply always_mono; [|apply RawRequest_spec]. by intros tr r [[-> _]|(hr & -> & _)]. Qed.
Lemma WaitForTask_quiet nd upid : quiet (WaitForTask nd upid).
Proof. unfold quiet. eapply always_mono; [|apply WaitForTask_spec]. intros tr r H. apply H. Qed.
Lemma routed_quiet target R (e : clientE R) s :
  changing e = false → always (routed target R e s) (λ tr _, host_changes tr = []).
Proof.
  destruct e; cbn [changing routed]; try done; intros Hc.
  - apply rest_quiet, vm_pointer_quiet, GetVM_quiet.
  - apply negb_false_iff, eqb_true in Hc as ->. apply rest_quiet, get_quiet.
  - apply rest_quiet, WaitForTask_quiet.
  - apply rest_quiet. unfold quiet, TagStillClaimed, read_resources. io_run; done.
  - apply rest_quiet. unfold quiet, StorageType.
    eapply always_call; [apply GetStorage_spec|]. intros tr [st|er] [Hm _]; cbn; by rewrite app_nil_r.
  - apply rest_quiet. eapply quiet_of, GetStorage_spec.
  - apply rest_quiet, pointers_quiet. unfold quiet, GetStorageVolumes. io_run; done.
  - apply rest_quiet. unfold quiet, GetStorageConfigRaw. io_run; done.
  - apply rest_quiet, pointers_quiet. eapply quiet_of, OrphanVolumesForVMIDWithVMList_spec.
  - apply rest_quiet, pointers_quiet. eapply quiet_of, OrphanVolumesClusterForVMID_spec.
  - apply over_ssh_quiet, LinkState_quiet.
  - apply over_ssh_quiet, TapLinkState_quiet.
Qed.

Lemma no_host_changes tr : host_changes tr = [] → mutations (pve_trace tr) = [].
Proof.
  assert (∀ ev, host_changing ev = false → mutations (pve_trace [ev]) = []) as Hev.
  { intros [R e r]. destruct e as [R e| | | | | | ]; try done. destruct e; try done. cbn.
    by intros ->%negb_false_iff. }
  induction tr as [|ev tr IH]; [done|]. rewrite host_changes_cons. change (ev :: tr) with ([ev] ++ tr).
  destruct (host_changing ev) eqn:Hc; [done|]. intros Hq.
  rewrite pve_trace_app, mutations_app, (Hev ev Hc). by apply IH.
Qed.

(** ** Routes of a config field *)
Lemma run_checked_spec what tool cmd :
  always (run_checked what tool cmd) (λ tr r, ∃ a, tr = [Ev (SRun cmd) a] ∧
    (r = Ok tt → ∃ x, a = Ok x ∧ ExitCode x = 0%Z)).
Proof.
  unfold run_checked. cbn. intros [x|e]; cbn; eexists; (split; [done|]); [|done].
  case_bool_decide; [eauto|done].
Qed.
(** The command ran on the host, once, and ended with status 0. *)
Definition ran (cmd : string) (tr : list (event hostE)) : Prop :=
  ∃ x, Ev (HSsh (SRun cmd)) (Ok x) ∈ tr ∧ ExitCode x = 0%Z.
Definition only_runs (cmd : string) (tr : list (event hostE)) : Prop :=
  pve_trace tr = [] ∧ (host_changes tr = [] ∨ ∃ a, host_changes tr = [Ev (HSsh (SRun cmd)) a]).
Lemma pve_trace_ssh tr : pve_trace (lift_event (@HSsh) <$> tr) = [].
Proof. induction tr as [|[R e r] tr IH]; [done|]. unfold pve_trace in *. cbn. by rewrite IH. Qed.
Lemma setViaSSH_spec target vmid fld value s :
  always (setViaSSH target vmid fld value s) (λ tr rs,
    only_runs (qm_set vmid fld value) tr ∧ (rs.1 = Ok tt → ran (qm_set vmid fld value) tr)).
Proof.
  eapply always_mono; [|apply (over_ssh_spec target _ _ s (λ tr r,
    (tr = [] ∧ is_ok r = false) ∨ ∃ a, tr = [Ev (SRun (qm_set vmid fld value)) a] ∧
      (r = Ok tt → ∃ x, a = Ok x ∧ ExitCode x = 0%Z)))].
  - intros tr rs (tr1 & tr0 & tr2 & -> & [H1 P1] & [H2 P2] & H0). unfold only_runs.
    rewrite !host_changes_app, !pve_trace_app, H1, H2, P1, P2, pve_trace_ssh, app_nil_r. cbn [app].
    destruct H0 as [[Hr ->]|[[-> Hr]|(a & -> & Hok)]].
    + split; [auto|]. intros Hx. by rewrite Hx in Hr.
    + split; [auto|]. intros Hx. by rewrite Hx in Hr.
    + split.
      * split; [done|]. rewrite fmap_cons, host_changes_cons. destruct (host_changing _); [right; by eexists|by left].
      * intros Hx. destruct (Hok Hx) as (x & -> & ?). exists x. split; [|done]. apply elem_of_app. right. by left.
  - unfold Remote.SetVMConfigField. destruct (isValidFieldName fld); [|by left].
    eapply always_mono; [|apply run_checked_spec]. eauto.
Qed.
Lemma SetFieldCAS_spec nd vmid fld value digest :
  always (Vms.SetVMConfigFieldCAS nd vmid fld value digest) (λ tr r, tr = [] ∧ is_ok r = false ∨
    ∃ hr, tr = [Ev (Http "PUT" (vm_path nd vmid "/config")
      (if eqb digest "" then vset ∅ fld value else vset (vset ∅ fld value) "digest" digest)) hr] ∧
      (r = Ok tt → ∃ code status body, hr = HResp code status body ∧ (200 ≤ code < 300)%Z)).
Proof.
  unfold Vms.SetVMConfigFieldCAS. destruct (negb (eqb nd "")); [|by left].
  destruct (negb (eqb fld "")); [|by left].
  eapply always_mono; [|apply putVMConfig_spec]. intros tr r (hr & -> & Hok & _). right. exists hr.
  split; [done|]. intros Hr. by apply Hok.
Qed.

(** * Properties *)

(** A call of the client interface that is not one of its changing ones changes
    nothing, on PVE or on the host: it sends no request but GETs, and runs no command
    but ones that, read as the host's shell reads them, only look. *)
Theorem Routed_reads_change_nothing target R (e : clientE R) s :
  changing e = false →
  always (routed target R e s) (λ tr _, host_changes tr = [] ∧ mutations (pve_trace tr) = []).
Proof.
  intros He. eapply always_mono; [|by apply routed_quiet]. intros tr rs Hq. split; [done|].
  by apply no_host_changes.
Qed.
Lemma Routed_reads_change_nothing_witness :
  changing (CLinkState "vmbr0") = false ∧
  always (routed {| target_ID := "lab"; Host := "h"; Node := "pve1"; SSH := None |} _ (CLinkState "vmbr0") true)
    (λ tr _, host_changes tr = [] ∧ mutations (pve_trace tr) = []).
Proof. split; [reflexivity|]. apply Routed_reads_change_nothing. reflexivity. Defined.

(** C23: how a config field is written. A field only root may write never goes over
    REST: its compare-and-swap write is refused before anything is sent, its plain
    write runs [qm set] alone. Any other field goes over REST, its compare-and-swap
    write with the digest and nowhere else; its plain write runs [qm set] only after
    PVE refused the REST one as root-only, and the two are the only ways to succeed. *)
Theorem Routed_field_routes target vmid fld value digest s :
  let root := RootOnlyFields fld = true in
  let cas := routed target _ (CSetFieldCAS vmid fld value digest) s in
  let set := routed target _ (CSetField vmid fld value) s in
  (root → cas = Ret (Er (no_cas (set_what vmid fld)), s) ∧
    always set (λ tr rs, only_runs (qm_set vmid fld value) tr ∧
      (rs.1 = Ok tt → ran (qm_set vmid fld value) tr))) ∧
  (¬ root →
    always cas (λ tr rs, rs.2 = s ∧ (tr = [] ∧ is_ok rs.1 = false ∨ ∃ hr,
      tr = [Ev (HPve (Http "PUT" (vm_path (Node target) vmid "/config")
        (if eqb digest "" then vset ∅ fld value else vset (vset ∅ fld value) "digest" digest))) hr] ∧
      (rs.1 = Ok tt → ∃ code status body, hr = HResp code status body ∧ (200 ≤ code < 300)%Z))) ∧
    always set (λ tr rs, ∃ over_rest r ssh,
      tr = (lift_event (@HPve) <$> over_rest) ++ ssh ∧
      exec (Vms.SetVMConfigField (Node target) vmid fld value) over_rest r ∧
      (ssh = [] ∨ ∃ e, r = Er e ∧ IsRootOnlyWriteError e = true ∧ only_runs (qm_set vmid fld value) ssh) ∧
      (rs.1 = Ok tt → r = Ok tt ∨ ran (qm_set vmid fld value) ssh))).
Proof.
  cbv zeta. cbn [routed]. unfold SetVMConfigFieldCAS, SetVMConfigField, write_field.
  split; intros Hroot; [rewrite Hroot; split; [done|apply setViaSSH_spec]|].
  apply not_true_is_false in Hroot. rewrite Hroot. split.
  - eapply always_mono; [|apply rest_spec, SetFieldCAS_spec].
    intros tr rs (tr0 & -> & [[-> ?]|(hr & -> & ?)] & ?); (split; [done|]); [by left|right; by exists hr].
  - set (put := Vms.SetVMConfigField _ _ _ _).
    eapply always_call; [apply (lift_spec (@HPve) put (exec put)), always_exec; by intros|].
    intros tr [[]|e] (tr0 & -> & Hex); cbn [always].
    + rewrite app_nil_r. exists tr0, (Ok tt), []. rewrite app_nil_r. auto.
    + destruct (IsRootOnlyWriteError e) eqn:He.
      * eapply always_call; [apply setViaSSH_spec|]. intros tr1 [[[]|e1] s1] [H1 H2]; cbn;
          rewrite app_nil_r; exists tr0, (Er e), tr1; split_and!; try done; eauto 10.
      * cbn. rewrite app_nil_r. exists tr0, (Er e), []. rewrite app_nil_r. auto.
Qed.
Lemma Routed_field_routes_witness :
  RootOnlyFields "args" = true ∧
  routed {| target_ID := "lab"; Host := "h"; Node := "pve1"; SSH := None |} _ (CSetFieldCAS 9 "args" "-S" "d") false
  = Ret (Er (no_cas (set_what 9 "args")), false).
Proof.
  split; [reflexivity|].
  exact (proj1 (proj1 (Routed_field_routes {| target_ID := "lab"; Host := "h"; Node := "pve1"; SSH := None |}
    9 "args" "-S" "d" false) eq_refl)).
Defined.

(** ** A run of an Op over the client *)
Definition run_step (P : ∀ R, clientE R → Prop) (Q : event hostE → Prop) (_ : bool) (ev : event clientE) (tr : list (event hostE)) (_ : bool) : Prop :=
  match ev with
  | Ev e r =>
      match e in clientE R return R → Prop with
      | CLock k => λ r, tr = [Ev (HLock k) r]
      | CUnlock => λ r, tr = [Ev HUnlock tt]
      | e => λ _, P _ e → Forall Q tr
      end r
  end.
Lemma steps_run (P : ∀ R, clientE R → Prop) (Q : event hostE → Prop) s evs tr s' : P _ CUnlock = False → (∀ k, P _ (CLock k) = False) →
  steps (run_step P Q) s evs tr s' → Forall (λ ev : event clientE, match ev with Ev e _ => P _ e end) evs → Forall Q tr.
Proof.
  intros HU HL. induction 1 as [s|s ev tr s1 evs tr' s2 Hst _ IH]; [constructor|]. intros [He Hevs]%Forall_cons. apply Forall_app. split; [|by apply IH].
  destruct ev as [R e r]. destruct e; try (by apply Hst); by rewrite ?HU, ?HL in He.
Qed.
(** The run of an Op, whose methods ask what leads to exchanges that [Q] holds of. *)
Lemma routed_run_shape {S} t (o : Op S) (P : ∀ R, clientE R → Prop) (Q : event hostE → Prop) key force s b :
  P _ CUnlock = False → (∀ k, P _ (CLock k) = False) →
  (∀ R (e : clientE R) s, P R e → always (routed t R e s) (λ tr _, Forall Q tr)) → op_asks o P →
  always (interp (routed t) (run_op o key force s) b) (λ tr _, lock_shape (HLock key) HUnlock Q tr).
Proof.
  intros HU HL Hans Ho.
  assert (∀ R (e : clientE R) s, always (routed t R e s) (λ tr rs, run_step P Q s (Ev e rs.1) tr rs.2)) as Hstep.
  { intros R e s'. destruct e; try (by cbn; intros []); try (apply always_exec; intros tr rs Hex HP; revert tr rs Hex; apply always_exec; by apply Hans). }
  eapply always_mono; [|apply (interp_refines _ (run_step P Q) Hstep), (run_op_shape o P key force s Ho)].
  intros tr rs (evs & [[e ->]|(body & -> & Hb)] & Hst).
  - left. exists e. inversion Hst as [|? ? tr1 s1 ? tr2 ? Hs Hn]; subst. inversion Hn; subst. cbn in Hs. by rewrite Hs.
  - right. apply steps_app_inv in Hst as (t1 & t2 & s1 & -> & H1 & H2). apply steps_app_inv in H2 as (t3 & t4 & s2 & -> & H3 & H4).
    exists t3. split; [|by eapply steps_run].
    inversion H1 as [|? ? ? ? ? ? ? Hs Hn]; subst. inversion Hn; subst. cbn in Hs. rewrite Hs. clear H1 Hn Hs.
    inversion H4 as [|? ? ? ? ? ? ? Hs Hn]; subst. inversion Hn; subst. cbn in Hs. rewrite Hs. done.
Qed.
(** Only the lock's own questions lead to the lock. *)
Definition lock_free (R : Type) (e : clientE R) : Prop := match e with CLock _ | CUnlock => False | _ => True end.
Definition no_lock (R : Type) (e : hostE R) : Prop := match e with HLock _ | HUnlock => False | _ => True end.
Definition unlocked (ev : event hostE) : Prop := match ev with Ev e _ => no_lock _ e end.
Lemma asks_rest {A} (m : io pveE A) s : asks no_lock (rest m s).
Proof. unfold rest. apply asks_bind; [|done]. by apply (asks_lift (λ _ _, True)); [|apply asks_any]. Qed.
Lemma asks_ssh t {A} wrap (m : io sshE (res A)) s : asks no_lock (over_ssh t wrap m s).
Proof.
  unfold over_ssh, dialSSH, sshConnectionHealthy.
  assert (∀ B (m : io sshE B), asks no_lock (lift (@HSsh) m)) as Hl by (intros B m0; by apply (asks_lift (λ _ _, True)); [|apply asks_any]).
  asks; auto.
Qed.
Lemma routed_lock_free t R (e : clientE R) s : lock_free R e → asks no_lock (routed t R e s).
Proof.
  assert (∀ A (m : io pveE A), asks no_lock (lift (@HPve) m)) as Hl by (intros A m; by apply (asks_lift (λ _ _, True)); [|apply asks_any]).
  assert (∀ A wrap (m : io sshE (res A)) s, asks no_lock (over_ssh t wrap m s)) as Hs by (intros; apply asks_ssh).
  intros He. destruct e; try done; cbn [routed]; try apply asks_rest;
    unfold SetVMConfigField, DeleteVMConfigField, SetVMConfigFieldCAS, DeleteVMConfigFieldCAS, write_field, setViaSSH, deleteViaSSH, rootFieldViaSSH, UploadSnippet, withSSH; asks;
    auto using asks_rest.
Qed.
(** A run of an Op holds its lock from before its first exchange to after its last. *)
Lemma routed_run_locked {S} t (o : Op S) key force s b :
  op_asks o lock_free → always (interp (routed t) (run_op o key force s) b) (λ tr _, lock_shape (HLock key) HUnlock unlocked tr).
Proof.
  apply (routed_run_shape t o lock_free); [done|done|]. intros R e s' He.
  eapply always_mono; [|by apply asks_always, routed_lock_free]. intros tr rs H. eapply Forall_impl; [exact H|]. by intros [].
Qed.
