(* ===== verification/AccessLists.v ===== *)
(** internal/pve/access.go: the users, groups and ACL entries of PVE's /access API, read
    strictly, and the shapes of principals' ids. *)
From Stdlib Require Import Ascii.
From S2P Require Import Prelude GoLib Errors Json Rest.

Record AccessUser := { au_UserID : string; au_Enabled : bool; au_Comment : string; au_Email : string;
                       au_Groups : list string; GroupsListed : bool }.
Record AccessGroup := { ag_GroupID : string; ag_Comment : string; ag_Users : list string; UsersListed : bool }.
Record ACLEntry := { acl_Path : string; acl_Role : string; acl_Type : string; UGID : string; acl_Propagate : bool }.
#[export] Instance ACLEntry_eq_dec : EqDecision ACLEntry.
Proof. solve_decision. Defined.

Definition unver (msg : string) : err := wrapf msg (sent ErrUnverifiableRead).
Definition parseAccessArray (raw what : string) : res (list (gmap string json)) :=
  let s := trim_space raw in
  guard^ has_prefix "[" s orelse unver (what +:+ ": the answer is not a JSON array") in
  match parse_json s ≫= as_objects with
  | Some (Some l) =>
      match nullEntry l with
      | Some i => Er (unver (what +:+ ": entry " +:+ itoa i +:+ " is null"))
      | None => Ok (omap id l)
      end
  | _ => Er (unver (what +:+ ": the answer is not an array of objects"))
  end.

Definition requiredString (e : gmap string json) (key : string) : res string :=
  match e !! key with
  | None => Er (unver ("no " +:+ quote key +:+ " field"))
  | Some v =>
      match as_string v with
      | None | Some "" => Er (unver (quote key +:+ " is not a non-empty string"))
      | Some s => Ok s
      end
  end.
Definition optionalString (e : gmap string json) (key : string) : res string :=
  match e !! key with
  | None | Some JNull => Ok ""
  | Some v => match as_string v with Some s => Ok s | None => Er (unver (quote key +:+ " is not a string")) end
  end.
(** 0 or 1, or a JSON boolean. *)
Definition requiredBool (e : gmap string json) (key : string) : res bool :=
  match e !! key with
  | None => Er (unver ("no " +:+ quote key +:+ " field"))
  | Some v =>
      let t := compact v in
      if eqb t "1" || eqb t "true" then Ok true
      else if eqb t "0" || eqb t "false" then Ok false
      else Er (unver (quote key +:+ " is " +:+ t +:+ ", not 0 or 1"))
  end.
Fixpoint repeated_go (seen : list string) (l : list string) : string :=
  match l with
  | [] => ""
  | v :: l' => if bool_decide (v ∈ seen) then v else repeated_go (v :: seen) l'
  end.
Definition repeated (l : list string) : string := repeated_go [] l.
Definition optionalList (e : gmap string json) (key : string) : res (list string) :=
  match e !! key with
  | None | Some JNull => Ok []
  | Some v =>
      match as_string v with
      | Some s => Ok (if eqb s "" then [] else Split (byte 44) s)
      | None =>
          match as_strings v with
          | Some l => Ok l
          | None => Er (unver (quote key +:+ " is neither a string nor a list of strings"))
          end
      end
  end.
(** The field is there, and not [null]. *)
Definition listed_field (e : gmap string json) (key : string) : bool :=
  match e !! key with None | Some JNull => false | Some _ => true end.

Section users.
Definition user_entry (i : Z) (seen : gset string) (e : gmap string json) : res AccessUser :=
  let^ id := requiredString e "userid" orelse wrapf ("user list entry " +:+ itoa i) in
  guard^ negb (bool_decide (id ∈ seen)) orelse unver ("user list: user " +:+ id +:+ " is listed twice") in
  let entry := wrapf ("user list entry " +:+ id) in
  let^ en := requiredBool e "enable" orelse entry in
  let^ comment := optionalString e "comment" orelse entry in
  let^ email := optionalString e "email" orelse entry in
  let^ groups := optionalList e "groups" orelse entry in
  guard^ eqb (repeated groups) "" orelse
    unver ("user list entry " +:+ id +:+ ": group " +:+ repeated groups +:+ " is listed twice") in
  Ok {| au_UserID := id; au_Enabled := en; au_Comment := comment; au_Email := email;
        au_Groups := groups; GroupsListed := listed_field e "groups" |}.
Fixpoint user_entries (i : Z) (seen : gset string) (es : list (gmap string json)) : res (list AccessUser) :=
  match es with
  | [] => Ok []
  | e :: es' =>
      let^ u := user_entry i seen e orelse id in
      let^ us := user_entries (i + 1) ({[au_UserID u]} ∪ seen) es' orelse id in Ok (u :: us)
  end.
Definition ParseAccessUsers (raw : string) : res (list AccessUser) :=
  let^ es := parseAccessArray raw "user list" orelse id in user_entries 0 ∅ es.
End users.

Definition group_entry (i : Z) (seen : gset string) (e : gmap string json) : res AccessGroup :=
  let^ id := requiredString e "groupid" orelse wrapf ("group list entry " +:+ itoa i) in
  guard^ negb (bool_decide (id ∈ seen)) orelse unver ("group list: group " +:+ id +:+ " is listed twice") in
  let entry := wrapf ("group list entry " +:+ id) in
  let^ comment := optionalString e "comment" orelse entry in
  let^ users := optionalList e "users" orelse entry in
  Ok {| ag_GroupID := id; ag_Comment := comment; ag_Users := users; UsersListed := listed_field e "users" |}.
Fixpoint group_entries (i : Z) (seen : gset string) (es : list (gmap string json)) : res (list AccessGroup) :=
  match es with
  | [] => Ok []
  | e :: es' =>
      let^ g := group_entry i seen e orelse id in
      let^ gs := group_entries (i + 1) ({[ag_GroupID g]} ∪ seen) es' orelse id in Ok (g :: gs)
  end.
Definition ParseAccessGroups (raw : string) : res (list AccessGroup) :=
  let^ es := parseAccessArray raw "group list" orelse id in group_entries 0 ∅ es.

Definition acl_entry (i : Z) (e : gmap string json) : res ACLEntry :=
  let entry := wrapf ("acl list entry " +:+ itoa i) in
  let^ path := requiredString e "path" orelse entry in
  let^ role := requiredString e "roleid" orelse entry in
  let^ typ := requiredString e "type" orelse entry in
  guard^ bool_decide (typ ∈ ["user"; "group"; "token"]) orelse
    unver ("acl list entry " +:+ itoa i +:+ ": type " +:+ quote typ +:+ " is not user, group or token") in
  let^ ugid := requiredString e "ugid" orelse entry in
  let^ propagate := requiredBool e "propagate" orelse entry in
  Ok {| acl_Path := path; acl_Role := role; acl_Type := typ; UGID := ugid; acl_Propagate := propagate |}.
Fixpoint acl_entries (i : Z) (es : list (gmap string json)) : res (list ACLEntry) :=
  match es with
  | [] => Ok []
  | e :: es' =>
      let^ a := acl_entry i e orelse id in
      let^ l := acl_entries (i + 1) es' orelse id in Ok (a :: l)
  end.
Definition ParseACLEntries (raw : string) : res (list ACLEntry) :=
  let^ es := parseAccessArray raw "acl list" orelse id in acl_entries 0 es.

(** ** The lists over REST *)
Definition ListUsers : io pveE (res (list AccessUser)) :=
  let? raw := RawRequest "GET" "/access/users" (vset ∅ "full" "1") orelse wrapf "list users" in
  Ret (ParseAccessUsers (compact raw)).
Definition ListGroups : io pveE (res (list AccessGroup)) :=
  let? raw := RawRequest "GET" "/access/groups" ∅ orelse wrapf "list groups" in
  Ret (ParseAccessGroups (compact raw)).

(** ** Ids *)
(** [^[^\s:/@-][^\s:/@]*@[A-Za-z][A-Za-z0-9._-]+$] *)
Definition id_char (c : ascii) : bool := negb (re_space c || one_of ":/@" c).
Definition realmRE (s : string) : bool :=
  match s with
  | String c (String _ _ as rest) => is_letter c && all_bytes (λ d, is_alnum d || one_of "._-" d) rest
  | _ => false
  end.
Definition userIDRE (s : string) : bool :=
  match cut (byte 64) s with
  | Some (String c rest, realm) =>
      id_char c && negb (is_byte 45 c) && all_bytes id_char rest && realmRE realm
  | _ => false
  end.
Definition groupIDRE (s : string) : bool :=
  match s with
  | String c rest => (is_alnum c || one_of "._" c) && all_bytes (λ d, is_alnum d || one_of "._-" d) rest
  | EmptyString => false
  end.
Definition tokenNameRE : string → bool := realmRE.
Definition hasSpaceOrControl (s : string) : bool := any_rune (λ r, is_space r || is_control r) s.
Definition invalid_principal (id what : string) : err :=
  Err KText (sentinel_text ErrInvalidPrincipal +:+ ": " +:+ quote id +:+ " is not a " +:+ what) [sent ErrInvalidPrincipal].
Definition CheckUserID (id : string) : res unit :=
  if negb (userIDRE id) || hasSpaceOrControl id then Er (invalid_principal id "user id (<name>@<realm>)") else Ok tt.
Definition CheckGroupID (id : string) : res unit :=
  if negb (groupIDRE id) then Er (invalid_principal id "group id") else Ok tt.
Definition CheckTokenID (id : string) : res unit :=
  match cut (byte 33) id with
  | Some (user, name) =>
      if negb (is_ok (CheckUserID user)) || negb (tokenNameRE name)
      then Er (invalid_principal id "token id (<name>@<realm>!<tokenname>)") else Ok tt
  | None => Er (invalid_principal id "token id (<name>@<realm>!<tokenname>)")
  end.
