(* ===== verification/RootAccess.v ===== *)
(** internal/bootstrap/access.go: what pveforge reads and writes as root over SSH: the
    cluster's guests and status, users and groups, and ACL grants; with the parts of
    rotation.go, deps.go and bootstrap.go they use (grant paths, role lists). *)
From Stdlib Require Import Ascii.
From S2P Require Import Prelude GoLib Errors Json Utf8 ShellQuote Rest OpRun Client Remote Grants AccessLists Cluster.

(** One call of [rootRun] (the session is dialed on first use), under the bound of a
    configuration write or not; and the token's own view of the lists. *)
Inductive rootE : Type → Type :=
| RRun (write : bool) (cmd : string) : rootE (res Result_)
| RListUsers : rootE (res (list AccessUser))
| RListGroups : rootE (res (list AccessGroup)).

(** ** rotation.go *)
(** [strings.Fields] *)
Fixpoint fields_go (cur : string) (l : list (Z * string)) : list string :=
  let flush := if eqb cur "" then [] else [cur] in
  match l with
  | [] => flush
  | (r, bs) :: l' => if is_space r then flush ++ fields_go "" l' else fields_go (cur +:+ bs) l'
  end.
Definition Fields (s : string) : list string := fields_go "" (runes s).
Definition firstWords (cmd : string) : string := Join " " (take 4 (Fields cmd)).

Fixpoint collapse_slashes (s : string) : string :=
  match s with
  | String c (String d _ as s') =>
      if is_byte 47 c && is_byte 47 d then collapse_slashes s' else String c (collapse_slashes s')
  | _ => s
  end.
Definition aclPathCharsetRE (s : string) : bool :=
  negb (eqb s "") && all_bytes (λ c, is_alnum c || one_of "._/-" c) s.
Definition normalizeACLPath (p : string) : option string :=
  if eqb p "" || eqb p "0" then None
  else
    let p := collapse_slashes p in
    let p := match cut_prefix "/" (srev p) with Some r => srev r | None => p end in
    let p := if eqb p "" then "/" else p in
    let p := if has_prefix "/" p then p else "/" +:+ p in
    if aclPathCharsetRE p then Some p else None.
Definition seg (s : string) : bool := negb (eqb s "") && all_bytes (λ c, is_alnum c || one_of "._-" c) s.
Definition seg_ (s : string) : bool := negb (eqb s "") && all_bytes (λ c, is_alnum c || one_of "_-" c) s.
Definition word (s : string) : bool := negb (eqb s "") && all_bytes is_alnum s.
(** [[1-9][0-9]{lo,hi}] *)
Definition number (lo : nat) (hi : option nat) (s : string) : bool :=
  match s with
  | String c rest =>
      in_range 49 57 c && all_bytes is_digit rest && bool_decide (lo ≤ slen rest)
      && match hi with Some hi => bool_decide (slen rest ≤ hi) | None => true end
  | EmptyString => false
  end.
(** The path after its slash, segment by segment. *)
Definition check_segments (l : list string) : bool :=
  match l with
  | [a] => eqb a "" || bool_decide (a ∈ ["access"; "nodes"; "pool"; "sdn"; "storage"; "vms"; "mapping"])
  | [a; b] =>
      eqb a "access" && bool_decide (b ∈ ["groups"; "realm"]) || eqb a "nodes" && seg b || eqb a "pool" && seg b
      || eqb a "sdn" && bool_decide (b ∈ ["controllers"; "dns"; "fabrics"; "ipams"; "prefix-lists"; "route-maps"; "zones"])
      || eqb a "storage" && seg b || eqb a "vms" && number 2 None b || eqb a "mapping" && seg b
  | [a; b; c] =>
      eqb a "access" && bool_decide (b ∈ ["groups"; "realm"]) && seg c || eqb a "pool" && seg b && seg c
      || eqb a "sdn" && (eqb b "controllers" && seg_ c
           || bool_decide (b ∈ ["dns"; "fabrics"; "ipams"; "prefix-lists"; "route-maps"]) && word c
           || eqb b "zones" && seg c)
      || eqb a "mapping" && seg b && seg c
  | [a; b; c; d] =>
      eqb a "pool" && seg b && seg c && seg d || eqb a "sdn" && eqb b "zones" && seg c && seg d
  | [a; b; c; d; e] => eqb a "sdn" && eqb b "zones" && seg c && seg d && number 0 (Some 3) e
  | _ => false
  end.
Definition aclCheckPathRE (p : string) : bool :=
  match cut_prefix "/" p with Some rest => check_segments (Split (byte 47) rest) | None => false end.
Definition checkedACLPath (p : string) : res string :=
  let bad := Err KText (sentinel_text ErrInvalidACLPath +:+ " " +:+ quote p
    +:+ ": PVE would refuse it (normalize_path/check_path)") [sent ErrInvalidACLPath] in
  match normalizeACLPath p with
  | Some n => if aclCheckPathRE n then Ok n else Er bad
  | None => Er bad
  end.
(** ** bootstrap.go *)
Fixpoint normal_paths (gs : list Grant) : res (list Grant) :=
  match gs with
  | [] => Ok []
  | g :: gs' =>
      let^ p := checkedACLPath (Path g) orelse id in
      let^ out := normal_paths gs' orelse id in
      Ok ({| Path := p; Role := Role g; Propagate := Propagate g; Privs := Privs g |} :: out)
  end.
Definition normalizeGrants (gs : list Grant) : res (list Grant) :=
  let^ out := normal_paths gs orelse id in
  let^ _ := CheckGrants out orelse id in Ok out.

(** ** Role lists *)
Definition to_ptr (_ : option string) (j : json) : option (option string) :=
  match j with JNull => Some None | JStr s => Some (Some s) | _ => None end.
Definition role_entry (o : list (string * json)) : option (string * option string) :=
  match struct_get "roleid" to_string "" o, struct_get "privs" to_ptr None o with
  | Some id, Some privs => Some (id, privs)
  | _, _ => None
  end.
Definition decodeJSONArray {A} (dec : list (string * json) → option A) (cmd stdout : string) : res (list A) :=
  let t := trim_space stdout in
  let bytes := itoa (Z.of_nat (slen t)) in
  let says msg := errorf (firstWords cmd +:+ " printed " +:+ msg) in
  guard^ negb (eqb t "") orelse says "nothing (expected a JSON array)" in
  guard^ negb (eqb t "null") orelse says "null (expected a JSON array)" in
  guard^ has_prefix "[" t orelse says (bytes +:+ " bytes that are not a JSON array") in
  match struct_list dec t with
  | Some l => Ok l
  | None => Er (says (bytes +:+ " bytes that do not parse as the expected JSON array"))
  end.
Definition parseRolePrivs (privs : option string) : res (list string) :=
  match privs with
  | None => Er (errorf ("the role list entry has no " +:+ quote "privs" +:+ " field"))
  | Some s =>
      if eqb s "" then Ok []
      else
        let out := Split (byte 44) s in
        if forallb privNameRE out then Ok out
        else Er (errorf ("the role list's " +:+ quote "privs" +:+ " holds a name that is not a privilege name"))
  end.
Definition setDiff (a b : list string) : list string * list string :=
  (sort_strings (filter (λ x, x ∉ b) a), sort_strings (filter (λ x, x ∉ a) b)).

(** ** access.go: what root runs *)
Definition accessE (cmd : string) : rootE (res Result_) := RRun false cmd.
Definition exit_err (cmd : string) (r : Result_) : err :=
  errorf (firstWords cmd +:+ " exited " +:+ itoa (ExitCode r) +:+ ": " +:+ trim_space (Stderr r)).
Definition pveum_ (write : bool) (cmd : string) : io rootE (res string) :=
  let? r := trigger (RRun write cmd) orelse id in
  Ret (if bool_decide (ExitCode r = 0%Z) then Ok (Stdout r) else Er (exit_err cmd r)).
Definition pveum : string → io rootE (res string) := pveum_ false.

Definition ClusterGuestsCommand : string := "pvesh get /cluster/resources --type vm --output-format json".
Definition ClusterGuests : io rootE (res (list Guest)) :=
  let? out := pveum ClusterGuestsCommand orelse wrapf "list the cluster's guests as root" in
  Ret (ParseClusterGuests out).

Definition NodeQemuCommand (node : string) : string :=
  "pvesh get /nodes/" +:+ ShellQuote node +:+ "/qemu --output-format json".
Definition PeerNodeReadCommand : string := "readlink /etc/pve/local".
(** [^nodes/([^/]+)$] *)
Definition peerNodeRE (s : string) : option string :=
  match cut_prefix "nodes/" s with
  | Some peer => if negb (eqb peer "") && negb (any_byte (is_byte 47) peer) then Some peer else None
  | None => None
  end.
Definition trim_newline (s : string) : string :=
  match cut_prefix (chr 10) (srev s) with Some r => srev r | None => s end.
Definition peer_err (says : string) : err :=
  wrapf_post "verify the ssh peer's own node" (sent ErrUnverifiableRead) says.
Definition verifyPeerNode (node : string) : io rootE (res unit) :=
  let? out := pveum PeerNodeReadCommand
    orelse wrapf2 "verify the ssh peer's own node" (sent ErrUnverifiableRead) in
  let trimmed := trim_newline out in
  match peerNodeRE trimmed with
  | None => Ret (Er (peer_err ("/etc/pve/local reads " +:+ quote trimmed +:+ ", not the expected " +:+ quote "nodes/<node>")))
  | Some peer =>
      if eqb peer "." || eqb peer ".." then
        Ret (Er (peer_err ("/etc/pve/local reads " +:+ quote trimmed +:+ ", not a node name")))
      else if negb (eqb peer node) then
        Ret (Er (peer_err ("the ssh peer is node " +:+ quote peer +:+ ", not " +:+ quote node
          +:+ " — refusing to read a different node's qemu list (a proxied read could silently return the wrong node's set)")))
      else Ret (Ok tt)
  end.
Definition NodeVMIDs (node : string) : io rootE (res (list Z)) :=
  guard negb (eqb node "") orelse errorf "list node qemu VMIDs as root: node is required" in
  let wrap := wrapf ("list node " +:+ quote node +:+ " qemu VMIDs as root") in
  let? _ := verifyPeerNode node orelse wrap in
  let? out := pveum (NodeQemuCommand node) orelse wrap in
  Ret (ParseNodeVMIDs out).

Definition ClusterStatusCommand : string := "pvesh get /cluster/status --output-format json".
Definition ClusterStatusQuorate : io rootE (res bool) :=
  let? out := pveum ClusterStatusCommand orelse wrapf "read cluster quorum as root" in
  Ret (ParseClusterStatusQuorate out).
Definition ClusterStatusOnlineNodes : io rootE (res (gset string)) :=
  let? out := pveum ClusterStatusCommand orelse wrapf "read cluster online nodes as root" in
  Ret (ParseClusterStatusOnlineNodes out).

(** A write, whose failure does not always say that nothing was written. *)
Definition writeOutcomeUnknown (e : err) : bool :=
  negb (errors_Is ErrNoCommandSent e) && (errors_Is ErrCommandTimedOut e || errors_Is DeadlineExceeded e).
Definition pveumWrite (cmd : string) : io rootE (res unit) :=
  let! r := pveum_ true cmd in
  Ret match r with
      | Ok _ => Ok tt
      | Er e => Er (if writeOutcomeUnknown e then
                      Err KText (sentinel_text ErrRootWriteOutcomeUnknown +:+ ": " +:+ Error e)
                        [sent ErrRootWriteOutcomeUnknown; e]
                    else e)
      end.
Definition refusedByToken (e : err) : bool :=
  match HTTPStatus e with Some code => bool_decide (code = 401 ∨ code = 403)%Z | None => false end.

Definition rootUsers : io rootE (res (list AccessUser)) :=
  let? out := pveum "pveum user list --full 1 --output-format json" orelse id in Ret (ParseAccessUsers out).
Definition rootGroups : io rootE (res (list AccessGroup)) :=
  let? out := pveum "pveum group list --output-format json" orelse id in Ret (ParseAccessGroups out).

(** ** Users and groups *)
Record UserSpec :=
  { UserID : string; Enable : bool; Comment : option string; Email : option string; spec_Groups : list string }.
Definition flag (name : string) (o : option string) : string :=
  match o with Some v => " --" +:+ name +:+ " " +:+ ShellQuote v | None => "" end.
Definition userFlags (spec : UserSpec) : string :=
  " --enable " +:+ (if Enable spec then "1" else "0") +:+ flag "comment" (Comment spec) +:+ flag "email" (Email spec).
Definition groups_flag (groups : list string) (append : string) : string :=
  match groups with [] => "" | _ => " --groups " +:+ ShellQuote (Join "," groups) +:+ append end.
Definition user_add (spec : UserSpec) : string :=
  "pveum user add " +:+ ShellQuote (UserID spec) +:+ userFlags spec +:+ groups_flag (spec_Groups spec) "".
Definition user_modify (spec : UserSpec) : string :=
  "pveum user modify " +:+ ShellQuote (UserID spec) +:+ userFlags spec +:+ groups_flag (spec_Groups spec) " --append 1".
Definition AddUser (spec : UserSpec) : io rootE (res unit) := pveumWrite (user_add spec).
Definition ModifyUser (spec : UserSpec) : io rootE (res unit) := pveumWrite (user_modify spec).
Definition group_add (groupID : string) (comment : option string) : string :=
  "pveum group add " +:+ ShellQuote groupID +:+ flag "comment" comment.
Definition group_modify (groupID comment : string) : string :=
  "pveum group modify " +:+ ShellQuote groupID +:+ " --comment " +:+ ShellQuote comment.
Definition AddGroup (groupID : string) (comment : option string) : io rootE (res unit) :=
  pveumWrite (group_add groupID comment).
Definition ModifyGroup (groupID comment : string) : io rootE (res unit) := pveumWrite (group_modify groupID comment).

(** ** Grants *)
Record Principal := { p_Kind : string; p_ID : string }.
Definition p_String (p : Principal) : string := p_Kind p +:+ " " +:+ p_ID p.
Definition EscalatingPrivileges : list string :=
  ["Permissions.Modify"; "User.Modify"; "Sys.Modify"; "Realm.Allocate";
   "Sys.Console"; "VM.Monitor"; "Realm.AllocateUser"; "Datastore.Allocate"; "Mapping.Modify"].
Record GrantRequest := { req_Principal : Principal; req_Grants : list Grant; AllowEscalatingRole : bool }.
Record EscalatingGrant := { eg_Grant : Grant; eg_Privs : list string }.
Record GrantOutcome := { Entries : list ACLEntry; Escalating : list EscalatingGrant }.
Definition CheckPrincipal (p : Principal) : res unit :=
  if eqb (p_Kind p) "user" then CheckUserID (p_ID p)
  else if eqb (p_Kind p) "group" then CheckGroupID (p_ID p)
  else if eqb (p_Kind p) "token" then CheckTokenID (p_ID p)
  else Er (refusal ErrInvalidPrincipal (": kind " +:+ quote (p_Kind p) +:+ " is not user, group or token")).
Definition escalating (privs : list string) : list string :=
  filter (λ p, p ∈ privs) EscalatingPrivileges.

Section as_root.
(** Whether the roster's token is there to read the lists with, and its id. *)
Context (has_rest : bool) (OwnToken : string).

Definition token_first {A} (over_rest : rootE (res A)) (as_root : io rootE (res A)) : io rootE (res A) :=
  if has_rest then
    let! r := trigger over_rest in
    match r with
    | Er e => if refusedByToken e then as_root else Ret (Er e)
    | Ok l => Ret (Ok l)
    end
  else as_root.
Definition ListUsers : io rootE (res (list AccessUser)) := token_first RListUsers rootUsers.
Definition ListGroups : io rootE (res (list AccessGroup)) := token_first RListGroups rootGroups.

Definition ownUser : string := match cut (byte 33) OwnToken with Some (u, _) => u | None => OwnToken end.
Definition checkNotSelf (p : Principal) : res unit :=
  if eqb OwnToken "" then Ok tt
  else if eqb (p_Kind p) "token" && equal_fold (p_ID p) OwnToken then
    Er (refusal ErrSelfGrant (": " +:+ p_ID p +:+ " is the roster's own token"))
  else if eqb (p_Kind p) "user" && equal_fold (p_ID p) ownUser then
    Er (refusal ErrSelfGrant (": " +:+ p_ID p +:+ " owns the roster's token " +:+ OwnToken))
  else Ok tt.

(** The role list, decoded: each role's privileges. *)
Fixpoint decode_roles (l : list (string * option string)) (out : gmap string (list string))
    : res (gmap string (list string)) :=
  match l with
  | [] => Ok out
  | (id, privs) :: l' =>
      guard^ negb (bool_decide (is_Some (out !! id))) orelse
        wrapf ("role list: role " +:+ id +:+ " is listed twice") (sent ErrUnverifiableRead) in
      let^ ps := parseRolePrivs privs orelse wrapf ("role " +:+ id) in
      decode_roles l' (<[id := ps]> out)
  end.
Definition role_list_cmd : string := "pveum role list --output-format json".
Definition roles_of (stdout : string) : res (gmap string (list string)) :=
  let^ roles := decodeJSONArray role_entry role_list_cmd stdout orelse id in decode_roles roles ∅.
Definition allRolePrivs : io rootE (res (gmap string (list string))) :=
  let? stdout := pveum role_list_cmd orelse id in Ret (roles_of stdout).
Definition acl_list_cmd : string := "pveum acl list --output-format json".
Definition rootACLs : io rootE (res (list ACLEntry)) :=
  let? raw := pveum acl_list_cmd orelse id in Ret (ParseACLEntries raw).

(** The roles a request names, and what it pins of them. *)
Definition pinned_err (g : Grant) (d : list string * list string) : err :=
  refusal ErrPinnedPrivsMismatch (": " +:+ Role g +:+ " at " +:+ Path g +:+ ": pinned but not in the role ["
    +:+ Join "," d.1 +:+ "], in the role but not pinned [" +:+ Join "," d.2 +:+ "]; nothing was granted").
Definition pinned_ok (g : Grant) (privs : list string) : res unit :=
  match Privs g with
  | None => Ok tt
  | Some ps => if bool_decide (setDiff ps privs = ([], [])) then Ok tt else Er (pinned_err g (setDiff ps privs))
  end.
Definition role_privs (all out : gmap string (list string)) (g : Grant) : res (list string) :=
  match out !! Role g with
  | Some ps => Ok ps
  | None =>
      match all !! Role g with
      | None => Er (refusal ErrUnknownRole (": " +:+ quote (Role g)))
      | Some [] => Er (refusal ErrRoleHasNoPrivileges (": " +:+ Role g))
      | Some ps => Ok ps
      end
  end.
Fixpoint wanted_roles (all : gmap string (list string)) (want : list Grant) (out : gmap string (list string))
    : res (gmap string (list string)) :=
  match want with
  | [] => Ok out
  | g :: want' =>
      let^ ps := role_privs all out g orelse id in
      let^ _ := pinned_ok g ps orelse id in
      wanted_roles all want' (<[Role g := ps]> out)
  end.
Definition rolePrivs (want : list Grant) : io rootE (res (gmap string (list string))) :=
  let? all := allRolePrivs orelse id in Ret (wanted_roles all want ∅).

(** ** Groups and the owner of the roster's token *)
Definition cannot_tell (groupID own why : string) : err :=
  wrapf ("cannot tell whether group " +:+ groupID +:+ " holds " +:+ own +:+ why) (sent ErrUnverifiableRead).
Definition checkGroupNotSelf (groupID : string) : io rootE (res unit) :=
  let? groups := rootGroups orelse id in
  match list_find (λ g, ag_GroupID g = groupID) groups with
  | None => Ret (Er (refusal ErrUnknownGroup (": " +:+ quote groupID)))
  | Some (_, g) =>
      if eqb ownUser "" then Ret (Ok tt)
      else if negb (UsersListed g) then
        Ret (Er (cannot_tell groupID ownUser
          ", which owns the roster's token: the group list carries no members field for it"))
      else
        match list_find (λ u, equal_fold u ownUser = true) (ag_Users g) with
        | Some (_, u) =>
            Ret (Er (refusal ErrSelfGrant (": group " +:+ groupID +:+ " holds " +:+ u
              +:+ ", which owns the roster's token " +:+ OwnToken)))
        | None =>
            let? users := rootUsers orelse id in
            match list_find (λ u, equal_fold (au_UserID u) ownUser = true) users with
            | None => Ret (Er (cannot_tell groupID ownUser ": the user list has no entry for it"))
            | Some (_, u) =>
                if bool_decide (groupID ∈ au_Groups u) then
                  Ret (Er (refusal ErrSelfGrant (": " +:+ au_UserID u +:+ ", which owns the roster's token "
                    +:+ OwnToken +:+ ", is in group " +:+ groupID)))
                else Ret (Ok tt)
            end
        end
  end.

(** ** What joining a group confers *)
Record EscalatingJoin := { ej_Group : string; ej_Entry : ACLEntry; ej_Privs : list string }.
Definition holds_entry (g : string) (e : ACLEntry) : Prop := acl_Type e = "group" ∧ UGID e = g.
Fixpoint group_joins (roles : gmap string (list string)) (g : string) (acls : list ACLEntry)
    : res (list EscalatingJoin) :=
  match acls with
  | [] => Ok []
  | e :: acls' =>
      if negb (eqb (acl_Type e) "group" && eqb (UGID e) g) then group_joins roles g acls'
      else
        match roles !! acl_Role e with
        | None => Er (wrapf ("group " +:+ g +:+ " holds role " +:+ acl_Role e +:+ " on " +:+ acl_Path e
                    +:+ ", which the role list does not have") (sent ErrUnverifiableRead))
        | Some privs =>
            let^ out := group_joins roles g acls' orelse id in
            match escalating privs with
            | [] => Ok out
            | esc => Ok ({| ej_Group := g; ej_Entry := e; ej_Privs := esc |} :: out)
            end
        end
  end.
Fixpoint joins (roles : gmap string (list string)) (acls : list ACLEntry) (groups : list string)
    : res (list EscalatingJoin) :=
  match groups with
  | [] => Ok []
  | g :: groups' =>
      let^ here := group_joins roles g acls orelse id in
      let^ rest := joins roles acls groups' orelse id in Ok (here ++ rest)
  end.
Definition held_text (j : EscalatingJoin) : string :=
  "group " +:+ ej_Group j +:+ " holds " +:+ acl_Role (ej_Entry j) +:+ " on " +:+ acl_Path (ej_Entry j)
    +:+ ", which confers " +:+ Join "," (ej_Privs j).
Definition CheckGroupJoin (userID : string) (groups : list string) (allowEscalating : bool)
    : io rootE (res (list EscalatingJoin)) :=
  if negb (eqb ownUser "") && equal_fold userID ownUser then
    Ret (Er (refusal ErrSelfGrant (": " +:+ userID +:+ " owns the roster's token " +:+ OwnToken
      +:+ ", and joining a group grants it that group's ACLs")))
  else
    match groups with
    | [] => Ret (Ok [])
    | _ =>
        let? roles := allRolePrivs orelse id in
        let? acls := rootACLs orelse id in
        match joins roles acls groups with
        | Er e => Ret (Er e)
        | Ok [] => Ret (Ok [])
        | Ok out =>
            if allowEscalating then Ret (Ok out)
            else Ret (Er (refusal ErrEscalatingRole (": " +:+ Join "; " (held_text <$> out)
              +:+ "; joining a group grants what it holds; pass --allow-escalating-role to add " +:+ userID
              +:+ " anyway (nothing was changed)")))
        end
    end.

(** ** Granting *)
Definition principal_flag (kind : string) : string :=
  if eqb kind "user" then "--users" else if eqb kind "group" then "--groups"
  else if eqb kind "token" then "--tokens" else "".
Definition acl_modify (p : Principal) (g : Grant) : string :=
  "pveum acl modify " +:+ ShellQuote (Path g) +:+ " " +:+ principal_flag (p_Kind p) +:+ " " +:+ ShellQuote (p_ID p)
    +:+ " --roles " +:+ ShellQuote (Role g) +:+ " --propagate " +:+ (if Propagate g then "1" else "0").
Definition aclModify (p : Principal) (g : Grant) : io rootE (res unit) := pveumWrite (acl_modify p g).

Definition conferred_by (roles : gmap string (list string)) (g : Grant) : list string :=
  match Privs g with Some ps => ps | None => default [] (roles !! Role g) end.
(** The escalating grants, refused unless the request allows them. *)
Fixpoint escalations (roles : gmap string (list string)) (allow : bool) (want : list Grant)
    : res (list EscalatingGrant) :=
  match want with
  | [] => Ok []
  | g :: want' =>
      match escalating (conferred_by roles g) with
      | [] => escalations roles allow want'
      | esc =>
          if allow then
            let^ out := escalations roles allow want' orelse id in
            Ok ({| eg_Grant := g; eg_Privs := esc |} :: out)
          else Er (refusal ErrEscalatingRole (": " +:+ Role g +:+ " on " +:+ Path g +:+ " confers " +:+ Join "," esc
                 +:+ "; pass --allow-escalating-role to grant it anyway (nothing was granted)"))
      end
  end.
Definition grant_text (g : Grant) : string := Role g +:+ " on " +:+ Path g.
(** Grant [i + 1] of [n] failed, [applied] before it. *)
Definition apply_err (i n : nat) (g : Grant) (applied : list string) (e : err) : err :=
  let so_far none some := match applied with [] => none | _ => some +:+ Join "; " applied end in
  wrapf ("grant " +:+ itoa (Z.of_nat (i + 1)) +:+ " of " +:+ itoa (Z.of_nat n) +:+ " (" +:+ grant_text g +:+ ") "
    +:+ (if errors_Is ErrRootWriteOutcomeUnknown e then
           "timed out and may or may not have been applied, "
             +:+ so_far "none before it was applied" "already applied before it: "
         else "failed, " +:+ so_far "none was applied" "already applied: ")) e.
Fixpoint apply_all (p : Principal) (n i : nat) (want : list Grant) (applied : list string) : io rootE (res unit) :=
  match want with
  | [] => Ret (Ok tt)
  | g :: want' =>
      let? _ := aclModify p g orelse apply_err i n g applied in
      apply_all p n (i + 1) want' (applied ++ [grant_text g])
  end.
Definition acl_of (p : Principal) (g : Grant) : ACLEntry :=
  {| acl_Path := Path g; acl_Role := Role g; acl_Type := p_Kind p; UGID := p_ID p; acl_Propagate := Propagate g |}.
Fixpoint confirm (p : Principal) (acls : list ACLEntry) (want : list Grant) : res (list ACLEntry) :=
  match want with
  | [] => Ok []
  | g :: want' =>
      guard^ bool_decide (acl_of p g ∈ acls) orelse
        refusal ErrGrantNotConfirmed (": " +:+ grant_text g +:+ " for " +:+ p_String p +:+ ", propagate "
          +:+ (if Propagate g then "true" else "false")) in
      let^ es := confirm p acls want' orelse id in Ok (acl_of p g :: es)
  end.
Definition GrantACL (req : GrantRequest) : io rootE (res GrantOutcome) :=
  let p := req_Principal req in
  match CheckPrincipal p with
  | Er e => Ret (Er e)
  | Ok _ =>
      match normalizeGrants (req_Grants req) with
      | Er e => Ret (Er e)
      | Ok want =>
          match checkNotSelf p with
          | Er e => Ret (Er e)
          | Ok _ =>
              let? roles := rolePrivs want orelse id in
              let? _ := (if eqb (p_Kind p) "group" then checkGroupNotSelf (p_ID p) else Ret (Ok tt)) orelse id in
              match escalations roles (AllowEscalatingRole req) want with
              | Er e => Ret (Er e)
              | Ok esc =>
                  let? _ := apply_all p (length want) 0 want [] orelse id in
                  let? acls := rootACLs orelse wrapf "read the ACL list back" in
                  Ret match confirm p acls want with
                      | Er e => Er e
                      | Ok es => Ok {| Entries := es; Escalating := esc |}
                      end
              end
          end
      end
  end.
End as_root.

(** * What a trace shows *)
(** The output of a command that ran and exited 0. *)
Definition ran (a : res Result_) : option string :=
  match a with Ok r => if bool_decide (ExitCode r = 0%Z) then Some (Stdout r) else None | Er _ => None end.
Definition said (tr : list (event rootE)) (cmd out : string) : Prop :=
  ∃ a, Ev (RRun false cmd) a ∈ tr ∧ ran a = Some out.
Definition write_of (ev : event rootE) : option (string * res Result_) :=
  match ev with
  | Ev e r => match e in rootE R return R → option (string * res Result_) with
              | RRun true cmd => λ r, Some (cmd, r)
              | _ => λ _, None
              end r
  end.
(** The commands that write, in order, and those of them that exited 0. *)
Definition all_writes (tr : list (event rootE)) : list (string * res Result_) := omap write_of tr.
Definition writes (tr : list (event rootE)) : list string := fst <$> all_writes tr.
Definition granted (tr : list (event rootE)) : list string :=
  omap (λ cr, match ran cr.2 with Some _ => Some cr.1 | None => None end) (all_writes tr).

Lemma said_app_l tr tr' cmd out : said tr cmd out → said (tr ++ tr') cmd out.
Proof. intros (a & Ha & Hr). exists a. split; [apply elem_of_app; by left|done]. Qed.
Lemma said_app_r tr tr' cmd out : said tr' cmd out → said (tr ++ tr') cmd out.
Proof. intros (a & Ha & Hr). exists a. split; [apply elem_of_app; by right|done]. Qed.
Lemma writes_app tr tr' : writes (tr ++ tr') = writes tr ++ writes tr'.
Proof. unfold writes, all_writes. by rewrite omap_app, fmap_app. Qed.
Lemma writes_cons ev tr :
  writes (ev :: tr) = match write_of ev with Some (cmd, _) => cmd :: writes tr | None => writes tr end.
Proof. unfold writes, all_writes. cbn. by destruct (write_of ev) as [[]|]. Qed.
Lemma granted_app tr tr' : granted (tr ++ tr') = granted tr ++ granted tr'.
Proof. unfold granted, all_writes. by rewrite !omap_app. Qed.
Lemma granted_none tr : writes tr = [] → granted tr = [].
Proof. intros H%fmap_nil_inv. unfold granted. by rewrite H. Qed.
#[local] Hint Resolve said_app_l said_app_r : core.

(** A read of root's: it writes nothing, and what it answers is [f] of what a command said. *)
Definition reads {A} (m : io rootE (res A)) (cmd : string) (f : string → res A) : Prop :=
  always m (λ tr r, writes tr = [] ∧ ∀ a, r = Ok a → ∃ out, said tr cmd out ∧ f out = Ok a).
Lemma pveum_spec cmd : always (pveum cmd) (λ tr r, writes tr = [] ∧ ∀ out, r = Ok out → said tr cmd out).
Proof.
  unfold pveum, pveum_. cbn. intros [r|e]; cbn; (split; [done|]); [|done]. intros out Hout.
  exists (Ok r). split; [by left|]. cbn. case_bool_decide; [|done]. by injection Hout as <-.
Qed.
Lemma pveum_reads {A} cmd (f : string → res A) h :
  reads (let? out := pveum cmd orelse h in Ret (f out)) cmd f.
Proof.
  unfold reads. eapply always_call; [apply pveum_spec|]. intros tr [out|e] [Hw Hs]; cbn; rewrite app_nil_r; [|done].
  split; [done|]. intros a Ha. eauto.
Qed.
Lemma rootACLs_reads : reads rootACLs acl_list_cmd ParseACLEntries.
Proof. apply pveum_reads. Qed.
Lemma allRolePrivs_reads : reads allRolePrivs role_list_cmd roles_of.
Proof. apply pveum_reads. Qed.
Lemma rootUsers_reads : reads rootUsers "pveum user list --full 1 --output-format json" ParseAccessUsers.
Proof. apply pveum_reads. Qed.
Lemma rootGroups_reads : reads rootGroups "pveum group list --output-format json" ParseAccessGroups.
Proof. apply pveum_reads. Qed.
Lemma pveumWrite_spec cmd :
  always (pveumWrite cmd) (λ tr r, writes tr = [cmd] ∧ granted tr = if is_ok r then [cmd] else []).
Proof.
  unfold pveumWrite, pveum_. cbn. intros [r|e]; cbn; [|done]. unfold granted. cbn. by case_bool_decide.
Qed.

(** ** What a request needs *)
(** A principal: a user or a group id, or a token id, a user id before the first [!]. *)
Definition user_id (s : string) : Prop := userIDRE s = true ∧ hasSpaceOrControl s = false.
Definition shaped (p : Principal) : Prop :=
  p_Kind p = "user" ∧ user_id (p_ID p) ∨
  p_Kind p = "group" ∧ groupIDRE (p_ID p) = true ∨
  p_Kind p = "token" ∧ ∃ user name, cut (byte 33) (p_ID p) = Some (user, name) ∧ user_id user ∧ tokenNameRE name = true.
(** The user a token belongs to: its id up to the first [!], all of it when it has none. *)
Definition owner_of (token owner : string) : Prop :=
  any_byte (is_byte 33) owner = false ∧ (token = owner ∨ ∃ name, token = owner +:+ "!" +:+ name).
(** The principal is neither that token nor its owner, in any letter case. *)
Definition not_self (token owner : string) (p : Principal) : Prop :=
  token ≠ "" → (p_Kind p = "token" → equal_fold (p_ID p) token = false) ∧
               (p_Kind p = "user" → equal_fold (p_ID p) owner = false).
Lemma CheckUserID_Ok s : CheckUserID s = Ok tt ↔ user_id s.
Proof. unfold CheckUserID, user_id. destruct (userIDRE s), (hasSpaceOrControl s); naive_solver. Qed.
Lemma CheckPrincipal_Ok p : CheckPrincipal p = Ok tt → shaped p.
Proof.
  unfold CheckPrincipal, shaped.
  destruct (eqb (p_Kind p) "user") eqn:Hu; [apply eqb_true in Hu; rewrite CheckUserID_Ok; auto|].
  destruct (eqb (p_Kind p) "group") eqn:Hg.
  { apply eqb_true in Hg. unfold CheckGroupID. destruct (groupIDRE _); [auto|done]. }
  destruct (eqb (p_Kind p) "token") eqn:Ht; [|done]. apply eqb_true in Ht. unfold CheckTokenID.
  destruct (cut _ _) as [[user name]|]; [|done]. destruct (CheckUserID user) as [[]|] eqn:Hid; [|done].
  apply CheckUserID_Ok in Hid. destruct (tokenNameRE name) eqn:Hn; [|done]. intros _. right. right. split; [done|].
  by exists user, name.
Qed.
Lemma ownUser_owner own : owner_of own (ownUser own).
Proof.
  unfold ownUser, owner_of. destruct (cut (byte 33) own) as [[u t]|] eqn:Hc.
  - apply cut_spec in Hc as [-> Hu]. split; [exact Hu|]. right. by exists t.
  - split; [|by left]. revert Hc. induction own as [|c own IH]; [done|]. cbn [cut any_byte]. unfold is_byte.
    case_bool_decide; [done|]. destruct (cut (byte 33) own) as [[]|]; [done|]. intros _. by apply IH.
Qed.
Lemma checkNotSelf_Ok own p : checkNotSelf own p = Ok tt → not_self own (ownUser own) p.
Proof.
  unfold checkNotSelf, not_self. destruct (eqb own "") eqn:He; [by apply eqb_true in He as ->|].
  intros H _. split; intros Hk; rewrite Hk in H; cbn [eqb andb] in H.
  - rewrite eqb_refl in H. cbn [andb] in H. by destruct (equal_fold _ own).
  - change (eqb "user" "token") with false in H. rewrite eqb_refl in H. cbn [andb] in H.
    by destruct (equal_fold _ (ownUser own)).
Qed.

(** The names of a path: what is between its slashes, nothing where two slashes meet. *)
Definition path_names (p : string) : list string := filter (λ s, s ≠ "") (Split (byte 47) p).
Lemma path_names_slash s : path_names (String (byte 47) s) = path_names s.
Proof. reflexivity. Qed.
Lemma is_slash c : is_byte 47 c = true → c = byte 47.
Proof. apply bool_decide_eq_true. Qed.
Lemma collapse_names s : path_names (collapse_slashes s) = path_names s.
Proof.
  assert (head (Split (byte 47) (collapse_slashes s)) = head (Split (byte 47) s) ∧
    filter (λ s, s ≠ "") (tail (Split (byte 47) (collapse_slashes s))) = filter (λ s, s ≠ "") (tail (Split (byte 47) s)))
    as [Hh Ht].
  { induction s as [|c [|d s] IH]; [done..|]. 
    assert (collapse_slashes (String c (String d s)) =
      if is_byte 47 c && is_byte 47 d then collapse_slashes (String d s) else String c (collapse_slashes (String d s)))
      as -> by reflexivity.
    destruct (is_byte 47 c && is_byte 47 d) eqn:Hc.
    { apply andb_true_iff in Hc as [->%is_slash ->%is_slash]. exact IH. }
    revert IH. generalize (collapse_slashes (String d s)) as y. generalize (String d s) as x. intros x y.
    cbn [Split]. pose proof (Split_nonempty (byte 47) x). pose proof (Split_nonempty (byte 47) y).
    destruct (Split (byte 47) x) as [|h l], (Split (byte 47) y) as [|h' l']; [done..|]. cbn [head tail]. intros [[= ->] Hl].
    case_bool_decide; cbn [head tail]; [|by split]. split; [done|]. by rewrite !filter_cons, Hl. }
  unfold path_names. pose proof (Split_nonempty (byte 47) s). pose proof (Split_nonempty (byte 47) (collapse_slashes s)).
  destruct (Split (byte 47) s) as [|h l], (Split (byte 47) (collapse_slashes s)) as [|h' l']; [done..|].
  cbn [head tail] in *. injection Hh as ->. by rewrite !filter_cons, Ht.
Qed.
Lemma segments_named l : check_segments l = true → l = [""] ∨ Forall (λ s, s ≠ "") l.
Proof.
  destruct l as [|a [|b [|c [|d [|e [|f l]]]]]]; try done.
  { destruct a; [by left|]. right. by repeat constructor. }
  all: cbn [check_segments]; intros H; right; repeat constructor; intros ->; revert H.
  all: repeat match goal with |- context [bool_decide ("" ∈ ?l)] => change (bool_decide ("" ∈ l)) with false end.
  all: repeat match goal with |- context [eqb "" ?l] => change (eqb "" l) with false end.
  all: change (seg "") with false; change (seg_ "") with false; change (word "") with false; cbn [number];
    rewrite ?andb_false_r, ?andb_false_l, ?orb_false_r; cbn [andb orb]; rewrite ?andb_false_r, ?orb_false_r; try discriminate.
Qed.
Lemma normal_path p n : normalizeACLPath p = Some n → aclCheckPathRE n = true →
  p ≠ "" ∧ p ≠ "0" ∧ n = "/" +:+ Join "/" (path_names p).
Proof.
  unfold normalizeACLPath. destruct (eqb p "") eqn:H1; [done|]. destruct (eqb p "0") eqn:H2; [done|]. cbn [orb]. cbv zeta.
  assert (p ≠ "" ∧ p ≠ "0") as [Hp0 Hp1] by (split; by intros ->). set (q := match _ with Some r => srev r | None => _ end).
  assert (path_names q = path_names p) as Hq.
  { subst q. destruct (cut_prefix _ _) as [r|] eqn:Hr; [|by apply collapse_names]. apply cut_prefix_spec in Hr.
    rewrite <- (collapse_names p), <- (srev_involutive (collapse_slashes p)), Hr, srev_app. unfold path_names.
    change (srev "/") with (String (byte 47) ""). by rewrite Split_app, filter_app, app_nil_r. }
  set (q1 := if eqb q "" then "/" else q). set (q2 := if has_prefix "/" q1 then q1 else "/" +:+ q1).
  assert (path_names q2 = path_names p) as <-.
  { rewrite <- Hq. transitivity (path_names q1); [by subst q2; destruct (has_prefix _ _)|].
    subst q1. destruct (eqb q "") eqn:H; [|done]. by apply eqb_true in H as ->. }
  clearbody q2. destruct (aclPathCharsetRE q2); [|done]. intros [= <-]. unfold aclCheckPathRE.
  destruct (cut_prefix "/" q2) as [rest|] eqn:Hr; [|done]. apply cut_prefix_spec in Hr as ->.
  intros Hs%segments_named. split_and!; [done..|]. change ("/" +:+ rest) with (String (byte 47) rest) at 2.
  rewrite path_names_slash. unfold path_names. f_equal. rewrite <- (Join_Split (byte 47) rest) at 1.
  destruct Hs as [->|Hs]; [done|]. f_equal. induction Hs as [|x l Hx _ IH]; [done|]. by rewrite filter_cons_True, <- IH.
Qed.
(** A grant as it is asked for and as it is given: the path in the form PVE keeps. *)
Definition normal_grant (g n : Grant) : Prop :=
  Path g ≠ "" ∧ Path g ≠ "0" ∧ Path n = "/" +:+ Join "/" (path_names (Path g)) ∧ aclCheckPathRE (Path n) = true ∧
  Role n = Role g ∧ Propagate n = Propagate g ∧ Privs n = Privs g.
(** The grants asked for: one for each, in order, each well formed, no two at one path. *)
Definition requested (req want : list Grant) : Prop :=
  Forall2 normal_grant req want ∧ want ≠ [] ∧ Forall grant_ok want ∧ NoDup (Path <$> want).
Lemma normalizeGrants_Ok gs want : normalizeGrants gs = Ok want → requested gs want.
Proof.
  unfold normalizeGrants, requested. destruct (normal_paths gs) as [out|] eqn:Hn; [|done]. cbn.
  destruct (CheckGrants out) as [[]|] eqn:Hc; [|done]. intros [= ->]. split; [|by apply CheckGrants_Ok]. clear Hc.
  revert want Hn. induction gs as [|g gs IH]; intros want; cbn [normal_paths]; [by intros [= <-]|].
  unfold checkedACLPath. destruct (normalizeACLPath (Path g)) as [n|] eqn:Hp; [|done].
  destruct (aclCheckPathRE n) eqn:Hre; [|done]. cbn. destruct (normal_paths gs) as [out|]; [|done]. intros [= <-].
  constructor; [|by apply IH]. destruct (normal_path _ _ Hp Hre) as (? & ? & ->). by split_and!.
Qed.

(** The role list names the role, with privileges, those the grant pins if it pins any, and
    none that escalates unless the request allows it. *)
Definition pins (g : Grant) (ps : list string) : Prop := ∀ l, Privs g = Some l → ∀ x, x ∈ l ↔ x ∈ ps.
Definition known_role (all : gmap string (list string)) (g : Grant) : Prop :=
  ∃ ps, all !! Role g = Some ps ∧ ps ≠ [] ∧ pins g ps.
Definition permitted (allow : bool) (roles : list (string * option string)) (g : Grant) : Prop :=
  ∃ s, (Role g, Some s) ∈ roles ∧ s ≠ "" ∧ pins g (Split (byte 44) s) ∧
    (allow = false → ∀ x, x ∈ Split (byte 44) s → x ∉ EscalatingPrivileges).
(** What was decoded of a role list: each role once, its privileges between the commas. *)
Lemma decode_roles_spec l out all :
  decode_roles l out = Ok all →
  NoDup (fst <$> l) ∧ (∀ r, r ∈ fst <$> l → out !! r = None) ∧
  ∀ r ps, all !! r = Some ps → ps ≠ [] → out !! r = Some ps ∨ ∃ s, (r, Some s) ∈ l ∧ s ≠ "" ∧ ps = Split (byte 44) s.
Proof.
  revert out. induction l as [|[id privs] l IH]; intros out H; cbn [decode_roles] in H.
  { injection H as <-. split_and!; [constructor|by intros r ?%elem_of_nil|auto]. }
  case_bool_decide as Hin; [done|]. cbn [negb] in H. destruct (parseRolePrivs privs) as [ps|] eqn:Hp; [|done].
  cbn in H. apply IH in H as (Hnd & Hout & Hall). rewrite <- eq_None_not_Some in Hin.
  split_and!.
  - rewrite fmap_cons. constructor; [|done]. intros Hl%Hout. by rewrite lookup_insert_eq in Hl.
  - intros r [->|Hr]%elem_of_cons; [done|]. apply Hout, lookup_insert_None in Hr. tauto.
  - intros r qs Hr Hne. destruct (Hall r qs Hr Hne) as [Hq|(s & ? & ?)]; [|right; exists s; set_solver].
    apply lookup_insert_Some in Hq as [[<- <-]|[_ Hq]]; [|by left]. right. unfold parseRolePrivs in Hp.
    destruct privs as [s|]; [|done]. destruct (eqb s "") eqn:Hs; [by injection Hp as <-|].
    exists s. split; [by left|]. split; [by intros ->|]. by destruct (forallb _ _); [injection Hp as <-|].
Qed.
Lemma roles_of_spec out all :
  roles_of out = Ok all → ∃ roles, decodeJSONArray role_entry role_list_cmd out = Ok roles ∧ NoDup (fst <$> roles) ∧
    ∀ r ps, all !! r = Some ps → ps ≠ [] → ∃ s, (r, Some s) ∈ roles ∧ s ≠ "" ∧ ps = Split (byte 44) s.
Proof.
  unfold roles_of. destruct (decodeJSONArray _ _ _) as [roles|]; [|done]. cbn. intros H.
  apply decode_roles_spec in H as (Hnd & _ & Hall). exists roles. split_and!; [done..|]. intros r ps Hr Hne.
  by destruct (Hall r ps Hr Hne) as [H|H]; [rewrite lookup_empty in H|].
Qed.

Lemma setDiff_nil a b : setDiff a b = ([], []) → ∀ x, x ∈ a ↔ x ∈ b.
Proof.
  unfold setDiff. intros [= Ha Hb] x.
  assert (∀ y (l m : list string), sort_strings (filter (λ x, x ∉ m) l) = [] → y ∈ l → y ∈ m) as Hd.
  { intros y l m Hs Hy. destruct (decide (y ∈ m)) as [|Hn]; [done|].
    exfalso. apply (not_elem_of_nil y). rewrite <-Hs. apply sort_strings_elem. by apply list_elem_of_filter. }
  split; eauto.
Qed.
Lemma pinned_ok_spec g ps u : pinned_ok g ps = Ok u → pins g ps.
Proof.
  unfold pinned_ok, pins. destruct (Privs g) as [l|]; [|done]. intros H l' [= <-].
  case_bool_decide as Hs; [|done]. by apply setDiff_nil.
Qed.
(** The cache holds roles as the list has them, none empty. *)
Definition cached (all out : gmap string (list string)) : Prop :=
  ∀ r ps, out !! r = Some ps → all !! r = Some ps ∧ ps ≠ [].
Lemma role_privs_spec all out g ps :
  cached all out → role_privs all out g = Ok ps → all !! Role g = Some ps ∧ ps ≠ [].
Proof.
  unfold role_privs. intros Hc H. destruct (out !! Role g) as [ps'|] eqn:Ho.
  - injection H as <-. by apply Hc.
  - destruct (all !! Role g) as [[|p l]|]; [done| |done]. by injection H as <-.
Qed.
Lemma wanted_roles_spec all want out roles :
  cached all out → wanted_roles all want out = Ok roles →
  cached all roles ∧ out ⊆ roles ∧ Forall (λ g, known_role all g ∧ is_Some (roles !! Role g)) want.
Proof.
  revert out. induction want as [|g want IH]; intros out Hc H; cbn in H.
  - by injection H as <-.
  - destruct (role_privs all out g) as [ps|] eqn:Hg; [|done]. cbn in H.
    destruct (role_privs_spec _ _ _ _ Hc Hg) as [Ha Hne].
    destruct (pinned_ok g ps) as [u|] eqn:Hp; [|done]. apply pinned_ok_spec in Hp.
    apply IH in H as (Hr & Hsub & Hall).
    + assert (roles !! Role g = Some ps) as Hrg.
      { eapply lookup_weaken; [|exact Hsub]. by simplify_map_eq. }
      split_and!; [done| |constructor; [split; [by exists ps|by eexists]|done]].
      apply map_subseteq_spec. intros r qs Hq. destruct (decide (r = Role g)) as [->|Hne'].
      * rewrite Hrg. destruct (Hc _ _ Hq) as [Ha' _]. congruence.
      * eapply lookup_weaken; [|exact Hsub]. by simplify_map_eq.
    + intros r qs. rewrite lookup_insert_Some. intros [[<- <-]|[_ Hq]]; [done|by apply Hc].
Qed.

Lemma escalating_nil ps : escalating ps = [] → ∀ x, x ∈ ps → x ∉ EscalatingPrivileges.
Proof.
  unfold escalating. intros H x Hx He. apply (not_elem_of_nil x). rewrite <-H.
  by apply list_elem_of_filter.
Qed.
Lemma escalations_spec all roles allow want out listed :
  (∀ r ps, all !! r = Some ps → ps ≠ [] → ∃ s, (r, Some s) ∈ listed ∧ s ≠ "" ∧ ps = Split (byte 44) s) →
  cached all roles → Forall (λ g, known_role all g ∧ is_Some (roles !! Role g)) want →
  escalations roles allow want = Ok out → Forall (permitted allow listed) want.
Proof.
  intros Hlist Hc Hk. revert out. induction Hk as [|g want [(ps & Ha & Hne & Hp) [qs Hq]] Hk IH]; intros out H; [done|].
  cbn [escalations] in H. destruct (Hc _ _ Hq) as [Ha' _]. assert (qs = ps) as -> by congruence. clear Ha'.
  destruct (Hlist _ _ Ha Hne) as (s & Hs & Hs0 & ->).
  assert (∀ x, x ∈ Split (byte 44) s → x ∈ conferred_by roles g) as Hconf.
  { intros x Hx. unfold conferred_by. rewrite Hq. destruct (Privs g) as [l|] eqn:Hl; [|done]. by apply (Hp l Hl). }
  destruct (escalating (conferred_by roles g)) as [|e es] eqn:He.
  - constructor; [|exact (IH _ H)]. exists s. split_and!; [done|done|done|]. intros _ x Hx.
    eapply escalating_nil; eauto.
  - destruct allow; [|done]. destruct (escalations roles true want) as [o|] eqn:Ho; [|done].
    constructor; [exists s; by split_and!|exact (IH _ eq_refl)].
Qed.
Lemma confirm_spec p acls want es :
  confirm p acls want = Ok es → es = acl_of p <$> want ∧ Forall (λ e, e ∈ acls) es.
Proof.
  revert es. induction want as [|g want IH]; intros es H; cbn in H; [by injection H as <-|].
  case_bool_decide as Hg; [|done]. destruct (confirm p acls want) as [es'|]; [|done]. injection H as <-.
  destruct (IH _ eq_refl) as [-> Hall]. split; [done|by constructor].
Qed.

(** ** The programs *)
Lemma rolePrivs_spec want :
  always (rolePrivs want) (λ tr r, writes tr = [] ∧ ∀ roles, r = Ok roles → ∃ out all,
    said tr role_list_cmd out ∧ roles_of out = Ok all ∧ wanted_roles all want ∅ = Ok roles).
Proof.
  unfold rolePrivs. eapply always_call; [apply allRolePrivs_reads|].
  intros tr [all|e] [Hw Hr]; cbn; rewrite app_nil_r; [|done]. split; [done|]. intros roles H.
  destruct (Hr _ eq_refl) as (out & Hs & Ho). eauto 6.
Qed.
(** The group exists, and when the token has an owner he is not in it: the group's members are
    listed and he is none of them, the users have an entry for him, and the group is not
    among the groups of that entry. (An entry that has no list of groups counts as one with
    none: [GroupsListed] is not looked at.) *)
Definition outsider (owner : string) (tr : list (event rootE)) (groupID : string) : Prop :=
  ∃ out groups g,
    said tr "pveum group list --output-format json" out ∧ ParseAccessGroups out = Ok groups ∧
    g ∈ groups ∧ ag_GroupID g = groupID ∧
    (owner ≠ "" →
      UsersListed g = true ∧ Forall (λ u, equal_fold u owner = false) (ag_Users g) ∧
      ∃ out' users u,
        said tr "pveum user list --full 1 --output-format json" out' ∧ ParseAccessUsers out' = Ok users ∧
        u ∈ users ∧ equal_fold (au_UserID u) owner = true ∧ groupID ∉ au_Groups u).
Lemma checkGroupNotSelf_spec own groupID :
  always (checkGroupNotSelf own groupID) (λ tr r, writes tr = [] ∧ (r = Ok tt → outsider (ownUser own) tr groupID)).
Proof.
  unfold checkGroupNotSelf. eapply always_call; [apply rootGroups_reads|].
  intros tr [groups|e] [Hw Hr]; cbn [bind]; [|by cbn; rewrite app_nil_r].
  destruct (Hr _ eq_refl) as (out & Hs & Ho). clear Hr.
  destruct (list_find _ groups) as [[i g]|] eqn:Hg; [|by cbn; rewrite app_nil_r].
  apply list_find_Some in Hg as (Hg%list_elem_of_lookup_2 & Hid & _).
  destruct (eqb (ownUser own) "") eqn:Hown.
  { cbn. rewrite app_nil_r. split; [done|]. intros _. exists out, groups, g. split_and!; [done..|].
    intros Hne. by apply eqb_true in Hown. }
  destruct (UsersListed g) eqn:Hl; cbn [negb]; [|by cbn; rewrite app_nil_r].
  destruct (list_find _ (ag_Users g)) as [[]|] eqn:Hu; [by cbn; rewrite app_nil_r|].
  apply list_find_None in Hu.
  eapply always_call; [apply rootUsers_reads|].
  intros tr' [users|e] [Hw' Hr']; cbn [bind]; [|cbn; by rewrite app_nil_r, writes_app, Hw, Hw'].
  destruct (Hr' _ eq_refl) as (out' & Hs' & Ho').
  destruct (list_find _ users) as [[j u]|] eqn:Hj; [|cbn; by rewrite app_nil_r, writes_app, Hw, Hw'].
  apply list_find_Some in Hj as (Hj%list_elem_of_lookup_2 & Hf & _).
  case_bool_decide as Hm; cbn; rewrite app_nil_r, writes_app, Hw, Hw'; [done|]. split; [done|]. intros _.
  exists out, groups, g. split_and!; [by apply said_app_l|done|done|done|].
  intros _. split_and!; [done| |exists out', users, u; split_and!; [by apply said_app_r|done..]].
  eapply Forall_impl; [exact Hu|]. intros x. apply not_true_is_false.
Qed.

(** The words of the command that gives a principal one grant. *)
Definition grant_words (p : Principal) (g : Grant) : list token :=
  [Word "pveum"; Word "acl"; Word "modify"; Word (Path g); Word ("--" +:+ p_Kind p +:+ "s"); Word (p_ID p);
   Word "--roles"; Word (Role g); Word "--propagate"; Word (if Propagate g then "1" else "0")].
Definition gives (p : Principal) (g : Grant) (cmd : string) : Prop := sh_tokens cmd = Some (grant_words p g).
Lemma acl_modify_gives p g : CheckPrincipal p = Ok tt → gives p g (acl_modify p g).
Proof.
  unfold gives, sh_tokens, acl_modify, CheckPrincipal, grant_words. destruct p as [k i]; cbn [p_Kind p_ID]. unfold principal_flag.
  destruct (eqb k "user") eqn:Hu; [apply eqb_true in Hu as ->; intros _; repeat sh_read; by destruct (Propagate g)|].
  destruct (eqb k "group") eqn:Hg; [apply eqb_true in Hg as ->; intros _; repeat sh_read; by destruct (Propagate g)|].
  destruct (eqb k "token") eqn:Ht; [apply eqb_true in Ht as ->; intros _; repeat sh_read; by destruct (Propagate g)|done].
Qed.
(** What was written of a list of grants: the first [done_] of them, and of the next one
    perhaps the attempt. *)
Definition wrote_prefix (p : Principal) (want : list Grant) (tr : list (event rootE)) (done_ : nat) : Prop :=
  Forall2 (gives p) (take done_ want) (granted tr) ∧
  (writes tr = granted tr ∨
   ∃ g cmd, want !! done_ = Some g ∧ gives p g cmd ∧ writes tr = granted tr ++ [cmd]).
Lemma apply_all_spec p n i want applied :
  CheckPrincipal p = Ok tt →
  always (apply_all p n i want applied) (λ tr r, ∃ done_,
    wrote_prefix p want tr done_ ∧ (is_ok r = true → done_ = length want ∧ writes tr = granted tr)).
Proof.
  intros Hp. revert i applied. induction want as [|g want IH]; intros i applied.
  - cbn. exists 0. split; [by split; [|left]|done].
  - cbn [apply_all]. eapply always_call; [apply pveumWrite_spec|]. pose proof (acl_modify_gives p g Hp) as Hgive.
    intros tr [u|e] [Hw Hg]; cbn [is_ok] in Hg.
    + eapply always_mono; [|apply IH]. intros tr' r (d & [Hgr Hwr] & Hok). exists (S d).
      unfold wrote_prefix. rewrite !writes_app, !granted_app, Hw, Hg. cbn [take app lookup list_lookup]. split_and!.
      * by constructor.
      * destruct Hwr as [->|(g' & cmd & Hl & ? & ->)]; [by left|]. right. by exists g', cmd.
      * intros Hr. destruct (Hok Hr) as [-> ->]. done.
    + cbn. rewrite app_nil_r. exists 0. split; [|done]. unfold wrote_prefix. rewrite Hg, Hw. split; [constructor|].
      right. by exists g, (acl_modify p g).
Qed.

Lemma outsider_app_r own tr tr' g : outsider own tr' g → outsider own (tr ++ tr') g.
Proof.
  intros (out & gs & x & Hs & Hp & Hx & Hid & Hn). exists out, gs, x. split_and!; [by apply said_app_r|done..|].
  intros Ho. destruct (Hn Ho) as (? & ? & out' & us & u & Hs' & ?). split_and!; [done..|].
  exists out', us, u. split; [by apply said_app_r|done].
Qed.

(** What is read before the first write, and what it must say. *)
Definition authorised (own : string) (req : GrantRequest) (want : list Grant) (before : list (event rootE)) : Prop :=
  let p := req_Principal req in
  writes before = [] ∧ shaped p ∧ requested (req_Grants req) want ∧
  (∃ owner, owner_of own owner ∧ not_self own owner p ∧ (p_Kind p = "group" → outsider owner before (p_ID p))) ∧
  ∃ out roles, said before role_list_cmd out ∧ decodeJSONArray role_entry role_list_cmd out = Ok roles ∧
    NoDup (fst <$> roles) ∧ Forall (permitted (AllowEscalatingRole req) roles) want.
(** The entry that holds a grant. *)
Definition entry_of (p : Principal) (g : Grant) (e : ACLEntry) : Prop :=
  acl_Path e = Path g ∧ acl_Role e = Role g ∧ acl_Propagate e = Propagate g ∧ acl_Type e = p_Kind p ∧ UGID e = p_ID p.
(** Each entry wanted is in the ACL list as read back. *)
Definition confirmed (entries : list ACLEntry) (tr : list (event rootE)) : Prop :=
  ∃ raw acls, said tr acl_list_cmd raw ∧ ParseACLEntries raw = Ok acls ∧ Forall (λ e, e ∈ acls) entries.

(** What the cluster's lists say of a group: each role it holds is on the role list, and
    none of them escalates unless that was allowed. *)
Definition joinable (allow : bool) (tr : list (event rootE)) (groups : list string) : Prop :=
  ∃ out roles raw acls,
    said tr role_list_cmd out ∧ roles_of out = Ok roles ∧ said tr acl_list_cmd raw ∧ ParseACLEntries raw = Ok acls ∧
    ∀ g e, g ∈ groups → e ∈ acls → holds_entry g e →
      ∃ ps, roles !! acl_Role e = Some ps ∧ (allow = false → ∀ x, x ∈ ps → x ∉ EscalatingPrivileges).
Lemma group_joins_spec roles g acls out :
  group_joins roles g acls = Ok out →
  ∀ e, e ∈ acls → holds_entry g e →
    ∃ ps, roles !! acl_Role e = Some ps ∧ (out = [] → escalating ps = []).
Proof.
  revert out. induction acls as [|e0 acls IH]; intros out H e Hin Hg; [by apply elem_of_nil in Hin|].
  cbn [group_joins] in H. destruct (negb _) eqn:Hn.
  - apply elem_of_cons in Hin as [->|Hin]; [|by eapply IH]. destruct Hg as [Ht Hu].
    by rewrite Ht, Hu, !eqb_refl in Hn.
  - destruct (roles !! acl_Role e0) as [ps|] eqn:Hr; [|done].
    destruct (group_joins roles g acls) as [out'|] eqn:Hj; [|done].
    assert (out = [] → out' = [] ∧ escalating ps = []) as Hnil.
    { destruct (escalating ps); injection H as <-; [done|by intros ?]. }
    apply elem_of_cons in Hin as [->|Hin]; [exists ps; split; [done|]; intros Ho; by apply Hnil|].
    destruct (IH _ eq_refl e Hin Hg) as (ps' & Hp & He). exists ps'. split; [done|].
    intros Ho. apply He. by apply Hnil.
Qed.
Lemma joins_spec roles acls groups out :
  joins roles acls groups = Ok out →
  ∀ g e, g ∈ groups → e ∈ acls → holds_entry g e →
    ∃ ps, roles !! acl_Role e = Some ps ∧ (out = [] → escalating ps = []).
Proof.
  revert out. induction groups as [|g0 groups IH]; intros out H g e Hin He Hg; [by apply elem_of_nil in Hin|].
  cbn in H. destruct (group_joins roles g0 acls) as [here|] eqn:Hh; [|done].
  destruct (joins roles acls groups) as [rest|] eqn:Hr; [|done]. injection H as <-.
  apply elem_of_cons in Hin as [->|Hin].
  - destruct (group_joins_spec _ _ _ _ Hh e He Hg) as (ps & Hp & Hn). exists ps. split; [done|].
    intros [? ?]%app_nil. auto.
  - destruct (IH _ eq_refl g e Hin He Hg) as (ps & Hp & Hn). exists ps. split; [done|].
    intros [? ?]%app_nil. auto.
Qed.
Lemma CheckGroupJoin_spec own userID groups allow :
  always (CheckGroupJoin own userID groups allow) (λ tr r, writes tr = [] ∧
    (is_ok r = true →
      (ownUser own ≠ "" → equal_fold userID (ownUser own) = false) ∧ (groups ≠ [] → joinable allow tr groups))).
Proof.
  unfold CheckGroupJoin. destruct (negb _ && _) eqn:Hself; [done|].
  assert (ownUser own ≠ "" → equal_fold userID (ownUser own) = false) as Hs.
  { intros Hne. apply andb_false_iff in Hself as [Hself|?]; [|done]. apply negb_false_iff, eqb_true in Hself. done. }
  destruct groups as [|g groups]; [done|].
  eapply always_call; [apply allRolePrivs_reads|].
  intros tr1 [roles|e] [Hw1 Hr]; cbn [bind]; [|cbn; by rewrite app_nil_r].
  eapply always_call; [apply rootACLs_reads|].
  intros tr2 [acls|e] [Hw2 Ha]; cbn [bind]; [|cbn; by rewrite app_nil_r, writes_app, Hw1, Hw2].
  destruct (Hr _ eq_refl) as (out & Hso & Ho). destruct (Ha _ eq_refl) as (raw & Hsr & Hp).
  assert (∀ js, joins roles acls (g :: groups) = Ok js → (js = [] ∨ allow = true) → joinable allow (tr1 ++ tr2) (g :: groups)) as Hj.
  { intros js Hjs Hd. exists out, roles, raw, acls. split_and!; [by apply said_app_l|done|by apply said_app_r|done|].
    intros g' e Hg He Hh. destruct (joins_spec _ _ _ _ Hjs g' e Hg He Hh) as (ps & Hps & Hn). exists ps.
    split; [done|]. intros ->. destruct Hd as [->|]; [|done]. by apply escalating_nil, Hn. }
  destruct (joins roles acls (g :: groups)) as [[|j js]|e] eqn:Hjs; cycle 1.
  - destruct allow; cbn [always]; rewrite app_nil_r, writes_app, Hw1, Hw2; (split; [done|]); [|done].
    intros _. split; [done|]. intros _. eapply Hj; eauto.
  - cbn. by rewrite app_nil_r, writes_app, Hw1, Hw2.
  - cbn [always]. rewrite app_nil_r, writes_app, Hw1, Hw2. split; [done|]. intros _. split; [done|].
    intros _. eapply Hj; eauto.
Qed.

(** * Properties *)


(** The words of an optional flag. *)
Definition flag_words (name : string) (o : option string) : list token :=
  match o with Some v => [Word name; Word v] | None => [] end.
Definition groups_words (groups : list string) (append : list token) : list token :=
  match groups with [] => [] | _ => Word "--groups" :: Word (Join "," groups) :: append end.
Ltac flag_words_read spec :=
  unfold userFlags, flag, groups_flag, groups_words, flag_words;
  destruct spec as [id en c e gs]; cbn [UserID Enable Comment Email spec_Groups];
  generalize (Join "," gs); intros joined;
  destruct en, c, e, gs; rewrite ?str_app_assoc, ?str_app_nil_r; repeat sh_read; reflexivity.

(** Whatever a principal, a path, a role, a comment or a group holds, the shell root's
    commands are given to reads them as the words of one command, each of them exactly the
    value that was meant. *)
Theorem RootAccess_commands_read p g spec groupID comment node :
  let digit (b : bool) := Word (if b then "1" else "0") in
  let user_words groups := [Word (UserID spec); Word "--enable"; digit (Enable spec)]
    ++ flag_words "--comment" (Comment spec) ++ flag_words "--email" (Email spec) ++ groups in
  CheckPrincipal p = Ok tt →
  sh_tokens (acl_modify p g) =
    Some [Word "pveum"; Word "acl"; Word "modify"; Word (Path g);
          Word ("--" +:+ p_Kind p +:+ "s"); Word (p_ID p); Word "--roles"; Word (Role g);
          Word "--propagate"; digit (Propagate g)] ∧
  sh_tokens (user_add spec) =
    Some ([Word "pveum"; Word "user"; Word "add"] ++ user_words (groups_words (spec_Groups spec) [])) ∧
  sh_tokens (user_modify spec) =
    Some ([Word "pveum"; Word "user"; Word "modify"]
          ++ user_words (groups_words (spec_Groups spec) [Word "--append"; Word "1"])) ∧
  sh_tokens (group_add groupID comment) =
    Some ([Word "pveum"; Word "group"; Word "add"; Word groupID] ++ flag_words "--comment" comment) ∧
  sh_tokens (NodeQemuCommand node) =
    Some [Word "pvesh"; Word "get"; Word ("/nodes/" +:+ node +:+ "/qemu"); Word "--output-format"; Word "json"].
Proof.
  intros digit user_words Hp. unfold sh_tokens. split_and!.
  - by apply acl_modify_gives.
  - unfold user_add, user_words. by flag_words_read spec.
  - unfold user_modify, user_words. by flag_words_read spec.
  - unfold group_add, flag, flag_words. destruct comment; rewrite ?str_app_assoc; repeat sh_read; reflexivity.
  - unfold NodeQemuCommand. repeat sh_read.
    rewrite (sh_scan_app _ "/qemu" " --output-format json" _ _ (sh_scan_plain "/qemu" _ eq_refl)), str_app_assoc.
    generalize ("/nodes/" +:+ node +:+ "/qemu"). reflexivity.
Qed.
Lemma RootAccess_commands_read_witness :
  CheckPrincipal {| p_Kind := "token"; p_ID := "ci@pve!t1" |} = Ok tt ∧
  sh_tokens (acl_modify {| p_Kind := "token"; p_ID := "ci@pve!t1" |}
    {| Path := "/vms/100"; Role := "PVEAuditor"; Propagate := true; Privs := None |}) =
    Some [Word "pveum"; Word "acl"; Word "modify"; Word "/vms/100"; Word "--tokens"; Word "ci@pve!t1";
          Word "--roles"; Word "PVEAuditor"; Word "--propagate"; Word "1"].
Proof.
  split; [reflexivity|].
  exact (proj1 (RootAccess_commands_read {| p_Kind := "token"; p_ID := "ci@pve!t1" |}
    {| Path := "/vms/100"; Role := "PVEAuditor"; Propagate := true; Privs := None |}
    {| UserID := ""; Enable := true; Comment := None; Email := None; spec_Groups := [] |} "" None "" eq_refl)).
Defined.

(** A cluster with the role PVEAuditor, on which root grants it. *)
Definition said_ok (out : string) : res Result_ := Ok {| Stdout := out; Stderr := ""; ExitCode := 0 |}.
Definition role_list : string :=
  compact (JArr [JObj [("roleid", JStr "PVEAuditor"); ("privs", JStr "VM.Audit")];
                 JObj [("roleid", JStr "PVEAdmin"); ("privs", JStr "VM.Audit,User.Modify")]]).
Definition acl_list : string :=
  compact (JArr [JObj [("path", JStr "/vms/100"); ("roleid", JStr "PVEAuditor"); ("type", JStr "user");
                       ("ugid", JStr "bob@pve"); ("propagate", JNum "1")]]).
Definition cluster : env rootE (list string) := λ R e s,
  match e in rootE R return R * list string with
  | RRun true cmd => (said_ok "", s ++ [cmd])
  | RRun false cmd => (said_ok (if eqb cmd role_list_cmd then role_list else acl_list), s)
  | RListUsers => (Ok [], s)
  | RListGroups => (Ok [], s)
  end.
Definition grant_on (userid path role : string) : option (bool * list string) :=
  match run cluster (GrantACL "bot@pve!t1"
    {| req_Principal := {| p_Kind := "user"; p_ID := userid |};
       req_Grants := [{| Path := path; Role := role; Propagate := true; Privs := None |}];
       AllowEscalatingRole := false |}) [] with
  | Some (_, r, s) => Some (is_ok r, s)
  | None => None
  end.
Example grant_auditor :
  grant_on "bob@pve" "vms//100/" "PVEAuditor" =
    Some (true, ["pveum acl modify '/vms/100' --users 'bob@pve' --roles 'PVEAuditor' --propagate 1"]).
Proof. vm_compute. reflexivity. Qed.
Example grant_escalating : grant_on "bob@pve" "/vms/100" "PVEAdmin" = Some (false, []).
Proof. vm_compute. reflexivity. Qed.
Example grant_self : grant_on "BOT@pve" "/vms/100" "PVEAuditor" = Some (false, []).
Proof. vm_compute. reflexivity. Qed.
