(* ===== verification/RootSession.v ===== *)
(** internal/bootstrap/access.go: the one SSH session a [RootAccess] runs its commands
    over, opened when the first of them needs it. *)
From Stdlib Require Import Ascii.
From S2P Require Import Prelude GoLib Errors Json Rest OpRun Client Remote AccessLists RootAccess.

(** [opts.Password], the two dials of [SSHTransport], a command on the open session, and
    the lists read with the roster's token. *)
Inductive sessionE : Type → Type :=
| NPassword : sessionE (res string)
| NDialWithPassword (password : string) : sessionE (res unit)
| NReconnectWithPinnedKey : sessionE (res unit)
| NRun (write : bool) (cmd : string) : sessionE (res Result_)
| NListUsers : sessionE (res (list AccessUser))
| NListGroups : sessionE (res (list AccessGroup)).

(** [a.session] and [a.password]. *)
Record root_state := { session : bool; password : option string }.
Definition no_session : root_state := {| session := false; password := None |}.

Section session.
(** Whether [opts.Password] is given, and [opts.SSHUser]. *)
Context (has_password : bool) (SSHUser : string).
Definition ResolveCredentials (s : root_state) : io sessionE (res unit * root_state) :=
  if negb has_password || is_some (password s) then Ret (Ok tt, s)
  else
    let! r := trigger NPassword in
    Ret match r with
        | Er e => (Er e, s)
        | Ok pw => (Ok tt, {| session := session s; password := Some pw |})
        end.
Definition dial (wrap : err → err) (e : sessionE (res unit)) (s : root_state) : io sessionE (res unit * root_state) :=
  let! r := trigger e in
  Ret match r with
      | Er e => (Er (wrap e), s)
      | Ok _ => (Ok tt, {| session := true; password := password s |})
      end.
Definition root (s : root_state) : io sessionE (res unit * root_state) :=
  if session s then Ret (Ok tt, s)
  else if has_password then
    let! rs := ResolveCredentials s in
    match rs.1 with
    | Er e => Ret (Er e, rs.2)
    | Ok _ =>
        dial (wrapf "connect as root with the password") (NDialWithPassword (default "" (password rs.2))) rs.2
    end
  else dial (wrapf ("connect as " +:+ SSHUser +:+ " with the stored key")) NReconnectWithPinnedKey s.
Definition rootRun (write : bool) (cmd : string) (s : root_state) : io sessionE (res Result_ * root_state) :=
  let! rs := root s in
  match rs.1 with
  | Er e => Ret (Er e, rs.2)
  | Ok _ =>
      let! r := trigger (NRun write cmd) in
      Ret (match r with Ok r => Ok r | Er e => Er (wrapf ("run " +:+ firstWords cmd) e) end, rs.2)
  end.
Definition over_session : handler rootE sessionE root_state := λ R e,
  match e in rootE R return root_state → io sessionE (R * root_state) with
  | RRun write cmd => rootRun write cmd
  | RListUsers => λ s, let! r := trigger NListUsers in Ret (r, s)
  | RListGroups => λ s, let! r := trigger NListGroups in Ret (r, s)
  end.

(** * What a trace shows *)
Definition dialed (ev : event sessionE) : bool :=
  match ev with
  | Ev e r => match e in sessionE R return R → bool with
              | NDialWithPassword _ | NReconnectWithPinnedKey => is_ok
              | _ => λ _, false
              end r
  end.
Definition asked_password (ev : event sessionE) : option string :=
  match ev with
  | Ev e r => match e in sessionE R return R → option string with
              | NPassword => λ r, match r with Ok pw => Some pw | Er _ => None end
              | _ => λ _, None
              end r
  end.
Definition dials (tr : list (event sessionE)) : nat := length (filter (λ ev, dialed ev = true) tr).
Definition passwords (tr : list (event sessionE)) : list string := omap asked_password tr.
(** An exchange as it may come after [pre]: a command only on an open session, a dial
    only when none is open, and with the password given. *)
Definition in_order (pre : list (event sessionE)) (ev : event sessionE) : Prop :=
  match ev with
  | Ev e _ => match e with
              | NRun _ _ => dials pre = 1
              | NPassword => has_password = true ∧ passwords pre = []
              | NDialWithPassword pw => has_password = true ∧ dials pre = 0 ∧ passwords pre = [pw]
              | NReconnectWithPinnedKey => has_password = false ∧ dials pre = 0
              | NListUsers | NListGroups => True
              end
  end.
Definition ordered (tr : list (event sessionE)) : Prop :=
  ∀ pre ev post, tr = pre ++ ev :: post → in_order pre ev.
Definition session_inv (s : root_state) (tr : list (event sessionE)) : Prop :=
  dials tr = (if session s then 1 else 0) ∧ passwords tr = option_list (password s) ∧ ordered tr.

Lemma ordered_snoc tr ev : ordered tr → in_order tr ev → ordered (tr ++ [ev]).
Proof.
  intros Ho Hev pre x post H. symmetry in H. apply app_eq_app in H as (l & [[-> Hl]|[-> Hl]]).
  - destruct l as [|y l]; cbn in Hl; injection Hl as <- Hl; [by rewrite app_nil_r|by destruct l].
  - destruct l as [|y l]; cbn in Hl; [injection Hl as -> ->; by rewrite app_nil_r in Hev|].
    injection Hl as <- Hl. by eapply Ho.
Qed.
Lemma dials_snoc tr ev : dials (tr ++ [ev]) = dials tr + if dialed ev then 1 else 0.
Proof.
  unfold dials. rewrite filter_app, length_app. f_equal. rewrite filter_cons, filter_nil.
  by destruct (dialed ev).
Qed.
Lemma passwords_snoc tr ev : passwords (tr ++ [ev]) = passwords tr ++ option_list (asked_password ev).
Proof. unfold passwords. rewrite omap_app. by destruct (asked_password ev) eqn:H; cbn; rewrite H. Qed.
Lemma inv_snoc s s' tr ev :
  session_inv s tr → in_order tr ev →
  (if session s' then 1 else 0) = (if session s then 1 else 0) + (if dialed ev then 1 else 0) →
  option_list (password s') = option_list (password s) ++ option_list (asked_password ev) →
  session_inv s' (tr ++ [ev]).
Proof.
  intros (Hd & Hp & Ho) Hev Hs Hw. split_and!.
  - by rewrite dials_snoc, Hd, Hs.
  - by rewrite passwords_snoc, Hp, Hw.
  - by apply ordered_snoc.
Qed.
(** What a method keeps, from any point of a run on. *)
Definition keeps {A} (m : root_state → io sessionE (A * root_state)) (Q : root_state → A → root_state → Prop) : Prop :=
  ∀ s tr0, session_inv s tr0 → always (m s) (λ tr rs, session_inv rs.2 (tr0 ++ tr) ∧ Q s rs.1 rs.2).
Lemma ResolveCredentials_keeps :
  keeps ResolveCredentials (λ s r s',
    session s' = session s ∧ (r = Ok tt → has_password = true → is_Some (password s'))).
Proof.
  intros s tr0 Hs. unfold ResolveCredentials.
  destruct (negb has_password || is_some (password s)) eqn:Hb.
  - cbn. rewrite app_nil_r. split_and!; [done..|]. intros _ Hp. rewrite Hp in Hb. cbn in Hb.
    destruct (password s) as [pw|]; [by exists pw|done].
  - apply orb_false_iff in Hb as [Hp%negb_false_iff Hn].
    destruct s as [on [pw|]]; [done|]. cbn [bind trigger always].
    intros [pw|e]; cbn [always fst snd].
    + split; [|split; [done|intros _ _; by exists pw]].
      eapply inv_snoc; [exact Hs|split; [done|apply Hs]|by destruct on|done].
    + split; [|done]. eapply inv_snoc; [exact Hs|split; [done|apply Hs]|by destruct on|done].
Qed.
Lemma dial_keeps wrap e s tr0 :
  session_inv s tr0 → session s = false →
  (∀ r, in_order tr0 (Ev e r) ∧ dialed (Ev e r) = is_ok r ∧ asked_password (Ev e r) = None) →
  always (dial wrap e s) (λ tr rs, session_inv rs.2 (tr0 ++ tr) ∧ (rs.1 = Ok tt → session rs.2 = true)).
Proof.
  intros Hs Hoff He. unfold dial. cbn [bind trigger always].
  intros [[]|x]; cbn [always fst snd]; (split; [|done]).
  - destruct (He (Ok tt)) as (Ho & Hd & Hp).
    eapply inv_snoc; [exact Hs|done|by rewrite Hd, Hoff|by rewrite Hp, app_nil_r].
  - destruct (He (Er x)) as (Ho & Hd & Hp).
    eapply inv_snoc; [exact Hs|done|by rewrite Hd, Hoff|by rewrite Hp, app_nil_r].
Qed.
Lemma root_keeps : keeps root (λ _ r s', r = Ok tt → session s' = true).
Proof.
  intros s tr0 Hs. unfold root. destruct (session s) eqn:Hon; [cbn; by rewrite app_nil_r|].
  destruct (has_password) eqn:Hpw.
  - eapply always_call; [by apply ResolveCredentials_keeps|].
    intros tr [[[]|e] s1] (Hs1 & Hon1 & Hp); cbn [fst snd always] in *; [|by rewrite app_nil_r].
    destruct (Hp eq_refl Hpw) as [pw Hpw1]. pose proof Hs1 as (Hd1 & Hps1 & _).
    eapply always_mono; [|apply (dial_keeps _ _ s1 (tr0 ++ tr) Hs1)]; cbn; [by intros tr' rs; rewrite app_assoc|congruence|].
    intros r. rewrite Hpw1 in *. split_and!; [done|by rewrite Hd1, Hon1, Hon|done|done|done].
  - apply dial_keeps; [done..|]. intros r. destruct Hs as (Hd & _ & _). rewrite Hon in Hd. done.
Qed.
Lemma over_session_keeps R (e : rootE R) : keeps (over_session R e) (λ _ _ _, True).
Proof.
  intros s tr0 Hs. destruct e; cbn [over_session].
  - unfold rootRun. eapply always_call; [by apply root_keeps|].
    intros tr [[[]|e] s1] [Hs1 Hon]; cbn [fst snd always] in *; [|by rewrite app_nil_r].
    cbn [bind trigger always]. intros r. split; [|done]. rewrite app_assoc. cbn [snd].
    eapply inv_snoc; [exact Hs1| |done|by rewrite app_nil_r].
    destruct Hs1 as (Hd & _ & _). cbn. by rewrite Hd, Hon.
  - cbn. intros r. split; [|done]. eapply inv_snoc; [exact Hs|done|by cbn; rewrite Nat.add_0_r|by cbn; rewrite app_nil_r].
  - cbn. intros r. split; [|done]. eapply inv_snoc; [exact Hs|done|by cbn; rewrite Nat.add_0_r|by cbn; rewrite app_nil_r].
Qed.

(** * Properties *)

(** C22: whatever a [RootAccess] is asked, its commands run over at most one SSH session:
    each of them after exactly one dial that succeeded, none dialed while one is open.
    With the password as the way in, it is asked for until it is given and never again,
    and exactly it is dialed with; otherwise only the stored key is. *)
Theorem RootAccess_one_session {A} (m : io rootE A) :
  always (interp over_session m no_session) (λ tr rs,
    dials tr ≤ 1 ∧ length (passwords tr) ≤ 1 ∧ ordered tr).
Proof.
  eapply always_mono; [|apply (interp_invariant over_session session_inv m no_session [])].
  - cbn. intros tr [a s] (Hd & Hp & Ho). cbn [snd] in *. rewrite Hd, Hp. split_and!; [destruct (session s); lia| |done].
    destruct (password s); cbn; lia.
  - intros R e s pre Hs. eapply always_mono; [|by apply over_session_keeps]. by intros tr rs [H _].
  - split_and!; [done..|]. by intros [|] ? ? ?.
Qed.
End session.
