(* ===== verification/PveUm.v ===== *)
(** internal/idempotent/pveumaccess.go: the Ops that ensure PVE users and groups, and the
    commands of cmd/pveforge/access.go that run them as root. *)
From Stdlib Require Import Ascii.
From S2P Require Import Prelude GoLib Errors Json Rest OpRun Client KvJson AccessLists RootAccess.

(** The methods of [UserEnsureClient] and [GroupEnsureClient], [UserEnsure.BeforeJoin],
    and the lock of [Run]. *)
Inductive umE : Type → Type :=
| UListUsers : umE (res (list AccessUser))
| UAddUser (spec : UserSpec) : umE (res unit)
| UModifyUser (spec : UserSpec) : umE (res unit)
| UBeforeJoin (groups : list string) : umE (res unit)
| UListGroups : umE (res (list AccessGroup))
| UAddGroup (groupID : string) (comment : option string) : umE (res unit)
| UModifyGroup (groupID comment : string) : umE (res unit)
| ULock (key : ObjectKey) : umE (res unit)
| UUnlock : umE unit.

(** What an Op keeps between its calls: what its last read found, and whether it read. *)
Record ensure_state (A : Type) := { found : option A; read_ok : bool }.
Arguments found {A}. Arguments read_ok {A}.
Definition fresh {A} : ensure_state A := {| found := None; read_ok := false |}.
Definition ReadBackMismatchError (object id got : string) : err :=
  Err (KReadBackMismatch object id got)
    (object +:+ " " +:+ id +:+ " reads back as " +:+ got +:+ ", not as requested") [].
Definition want_is {A} `{EqDecision A} (o : option A) (have : A) : bool :=
  match o with Some a => bool_decide (a = have) | None => true end.
Definition show_bool (b : bool) : string := if b then "true" else "false".

(** ** UserEnsure *)
Record UserEnsure :=
  { ue_UserID : string; ue_Enable : option bool; ue_Comment : option string; ue_Email : option string;
    ue_Groups : list string; BeforeJoin : bool }.

Definition renderUser (u : option AccessUser) : string :=
  match u with
  | None => "absent"
  | Some u => "enable=" +:+ show_bool (au_Enabled u) +:+ " comment=" +:+ quote (au_Comment u) +:+ " email="
      +:+ quote (au_Email u) +:+ " groups=" +:+ quote (Join "," (sort_strings (au_Groups u)))
  end.
Fixpoint missing_go (have missing groups : list string) : list string :=
  match groups with
  | [] => missing
  | g :: groups' =>
      missing_go have (if bool_decide (g ∈ have ∨ g ∈ missing) then missing else missing ++ [g]) groups'
  end.
(** [slices.Compact]: a run of equal elements once. *)
Fixpoint Compact (l : list string) : list string :=
  match l with
  | x :: (y :: _) as l' => if eqb x y then Compact l' else x :: Compact l'
  | _ => l
  end.

Section user.
Context (op : UserEnsure).
Definition missingGroups (f : option AccessUser) : list string :=
  sort_strings (missing_go (match f with Some u => au_Groups u | None => [] end) [] (ue_Groups op)).
Definition user_Satisfied (f : option AccessUser) : bool :=
  match f with
  | None => false
  | Some u =>
      want_is (ue_Enable op) (au_Enabled u) && want_is (ue_Comment op) (au_Comment u)
      && want_is (ue_Email op) (au_Email u) && bool_decide (missingGroups f = [])
  end.
Definition user_Read (_ : ensure_state AccessUser) : io umE (res snap * ensure_state AccessUser) :=
  let! r := trigger UListUsers in
  match r with
  | Er e => Ret (Er e, fresh)
  | Ok users =>
      let f := snd <$> list_find (λ u, au_UserID u = ue_UserID op) users in
      Ret (Ok (SText (renderUser f)), {| found := f; read_ok := true |})
  end.
Definition user_PostApply (s : ensure_state AccessUser) : option err :=
  if negb (read_ok s) || user_Satisfied (found s) then None
  else Some (ReadBackMismatchError "user" (ue_UserID op) (renderUser (found s))).
Definition beforeJoin (groups : list string) : io umE (res unit) :=
  match groups with
  | [] => Ret (Ok tt)
  | _ => if BeforeJoin op then trigger (UBeforeJoin groups) else Ret (Ok tt)
  end.
Definition user_spec (enable : bool) (groups : list string) : UserSpec :=
  {| UserID := ue_UserID op; Enable := enable; Comment := ue_Comment op; Email := ue_Email op;
     spec_Groups := groups |}.
Definition user_Apply (f : option AccessUser) : io umE (res unit) :=
  match f with
  | None =>
      let groups := Compact (sort_strings (ue_Groups op)) in
      let? _ := beforeJoin groups orelse id in
      trigger (UAddUser (user_spec (default true (ue_Enable op)) groups))
  | Some u =>
      let missing := missingGroups f in
      let? _ := beforeJoin missing orelse id in
      trigger (UModifyUser (user_spec (default (au_Enabled u) (ue_Enable op)) missing))
  end.
End user.

(** ** GroupEnsure *)
Record GroupEnsure := { ge_GroupID : string; ge_Comment : option string }.
Definition renderGroup (g : option AccessGroup) : string :=
  match g with None => "absent" | Some g => "comment=" +:+ quote (ag_Comment g) end.
Section group.
Context (op : GroupEnsure).
Definition group_Satisfied (f : option AccessGroup) : bool :=
  match f with None => false | Some g => want_is (ge_Comment op) (ag_Comment g) end.
Definition group_Read (_ : ensure_state AccessGroup) : io umE (res snap * ensure_state AccessGroup) :=
  let! r := trigger UListGroups in
  match r with
  | Er e => Ret (Er e, fresh)
  | Ok groups =>
      let f := snd <$> list_find (λ g, ag_GroupID g = ge_GroupID op) groups in
      Ret (Ok (SText (renderGroup f)), {| found := f; read_ok := true |})
  end.
Definition group_PostApply (s : ensure_state AccessGroup) : option err :=
  if negb (read_ok s) || group_Satisfied (found s) then None
  else Some (ReadBackMismatchError "group" (ge_GroupID op) (renderGroup (found s))).
Definition group_Apply (f : option AccessGroup) : io umE (res unit) :=
  match f with
  | None => trigger (UAddGroup (ge_GroupID op) (ge_Comment op))
  | Some _ =>
      match ge_Comment op with
      | None => Ret (Ok tt)
      | Some c => trigger (UModifyGroup (ge_GroupID op) c)
      end
  end.
End group.

(** ** [Run] on either *)
Definition ensure_handler {A} (read : ensure_state A → io umE (res snap * ensure_state A))
    (satisfied : option A → bool) (apply : option A → io umE (res unit)) (post : ensure_state A → option err)
    : handler opE umE (ensure_state A) := λ R e,
  match e in opE R return ensure_state A → io umE (R * ensure_state A) with
  | OLock key => λ s, let! r := trigger (ULock key) in Ret (r, s)
  | OUnlock => λ s, let! r := trigger UUnlock in Ret (r, s)
  | ORead => read
  | OSatisfied _ => λ s, Ret (satisfied (found s), s)
  | OApply => λ s, let! r := apply (found s) in Ret (r, s)
  | OReRead => read
  | OPostApply => λ s, Ret (post s, s)
  | OPostNoop => λ s, Ret (None, s)
  end.
Definition ensure_impl : Impl := {| ReReader := false; PostApplier := true; NoopChecker := false |}.
Definition run_user (op : UserEnsure) (key : ObjectKey) (force : bool) : io umE (res Result * ensure_state AccessUser) :=
  interp (ensure_handler (user_Read op) (user_Satisfied op) (user_Apply op) (user_PostApply op))
    (Run ensure_impl key force) fresh.
Definition run_group (op : GroupEnsure) (key : ObjectKey) (force : bool) : io umE (res Result * ensure_state AccessGroup) :=
  interp (ensure_handler (group_Read op) (group_Satisfied op) (group_Apply op) (group_PostApply op))
    (Run ensure_impl key force) fresh.

(** ** cmd/pveforge/access.go *)
(** [COpen] is [openRootAccess] on the target: the id of its token, if it holds one.
    [CResolve] is [ResolveCredentials]. *)
Inductive cmdE : Type → Type :=
| COpen (targetID : string) : cmdE (res (option string))
| CResolve : cmdE (res unit)
| CRoot {R} (e : rootE R) : cmdE R
| CLockObject (key : ObjectKey) : cmdE (res unit)
| CUnlockObject : cmdE unit.

Definition optionalText (name : string) (o : option string) : res unit :=
  match o with
  | Some v =>
      if KvJson.LineUnsafe v then
        Er (errorf ("--" +:+ name +:+ " must not hold a control character or line break, or begin or end with whitespace"))
      else Ok tt
  | None => Ok tt
  end.
Fixpoint check_group_ids (groups : list string) : res unit :=
  match groups with
  | [] => Ok tt
  | g :: groups' => let^ _ := CheckGroupID g orelse wrapf "--group" in check_group_ids groups'
  end.
Definition ensureVerb (r : Result) : string :=
  if negb (Changed r) then "unchanged"
  else match Before r with SText s => if eqb s "absent" then "created" else "updated" | _ => "updated" end.

Section commands.
Context (userID : string) (allowEscalating : bool).
(** The client of both Ops is the root access; its state is the joins last checked. *)
Definition um_over_root (token : option string) : handler umE cmdE (list EscalatingJoin) := λ R e,
  let has_rest := bool_decide (is_Some token) in
  let own := default "" token in
  let root {A} (m : io rootE A) (s : list EscalatingJoin) := let! r := lift (@CRoot) m in Ret (r, s) in
  match e in umE R return list EscalatingJoin → io cmdE (R * list EscalatingJoin) with
  | UListUsers => root (RootAccess.ListUsers has_rest)
  | UAddUser spec => root (AddUser spec)
  | UModifyUser spec => root (ModifyUser spec)
  | UBeforeJoin groups => λ _,
      let! r := lift (@CRoot) (CheckGroupJoin own userID groups allowEscalating) in
      Ret match r with Ok joins => (Ok tt, joins) | Er e => (Er e, []) end
  | UListGroups => root (RootAccess.ListGroups has_rest)
  | UAddGroup g c => root (AddGroup g c)
  | UModifyGroup g c => root (ModifyGroup g c)
  | ULock key => λ s, let! r := trigger (CLockObject key) in Ret (r, s)
  | UUnlock => λ s, let! r := trigger CUnlockObject in Ret (r, s)
  end.

(** [user ensure]: what it prints is made of the result and the joins. *)
Definition own_refused (token : option string) (disable : bool) (groups : list string) (targetID : string) : res unit :=
  match token with
  | Some tok =>
      if equal_fold (ownUser tok) userID then
        guard^ negb disable orelse errorf ("refusing to disable " +:+ userID +:+ ": it owns the roster's own token "
          +:+ tok +:+ ", so pveforge would lock itself out of " +:+ targetID) in
        guard^ bool_decide (groups = []) orelse errorf ("refusing --group for " +:+ userID
          +:+ ": it owns the roster's own token " +:+ tok +:+ ", and joining a group grants it that group's ACLs") in
        Ok tt
      else Ok tt
  | None => Ok tt
  end.
Definition user_ensure (targetID : string) (enable disable : bool) (comment email : option string)
    (groups : list string) : io cmdE (res (Result * list EscalatingJoin)) :=
  match CheckUserID userID with
  | Er e => Ret (Er e)
  | Ok _ =>
      guard negb (enable && disable) orelse errorf "--enable and --disable are mutually exclusive" in
      match optionalText "comment" comment, optionalText "email" email, check_group_ids groups with
      | Er e, _, _ | Ok _, Er e, _ | Ok _, Ok _, Er e => Ret (Er e)
      | Ok _, Ok _, Ok _ =>
          let? token := trigger (COpen targetID) orelse id in
          match own_refused token disable groups targetID with
          | Er e => Ret (Er e)
          | Ok _ =>
              let? _ := trigger CResolve orelse id in
              let op := {| ue_UserID := userID; ue_Enable := if enable || disable then Some enable else None;
                           ue_Comment := comment; ue_Email := email; ue_Groups := groups; BeforeJoin := true |} in
              let! rs := interp (um_over_root token)
                (run_user op {| TargetID := targetID; Kind := "user"; ID := userID |} false) [] in
              Ret match rs.1.1 with Ok r => Ok (r, rs.2) | Er e => Er e end
          end
      end
  end.
End commands.
(** [group ensure] *)
Definition group_ensure (targetID groupID : string) (comment : option string) : io cmdE (res Result) :=
  match CheckGroupID groupID, optionalText "comment" comment with
  | Er e, _ | Ok _, Er e => Ret (Er e)
  | Ok _, Ok _ =>
      let? token := trigger (COpen targetID) orelse id in
      let? _ := trigger CResolve orelse id in
      let! rs := interp (um_over_root "" false token)
        (run_group {| ge_GroupID := groupID; ge_Comment := comment |}
           {| TargetID := targetID; Kind := "group"; ID := groupID |} false) [] in
      Ret rs.1.1
  end.

(** * What a run writes *)
Definition root_event (ev : event cmdE) : option (event rootE) :=
  match ev with
  | Ev e r => match e in cmdE R return R → option (event rootE) with
              | CRoot e => λ r, Some (Ev e r)
              | _ => λ _, None
              end r
  end.
(** What was said to root and answered. *)
Definition root_trace (tr : list (event cmdE)) : list (event rootE) := omap root_event tr.
Lemma root_trace_app tr tr' : root_trace (tr ++ tr') = root_trace tr ++ root_trace tr'.
Proof. apply omap_app. Qed.
Lemma root_trace_lift tr : root_trace (lift_event (@CRoot) <$> tr) = tr.
Proof. induction tr as [|[R e r] tr IH]; [done|]. unfold root_trace in *. cbn. by rewrite IH. Qed.
Lemma root_trace_elem tr R (e : rootE R) r : Ev (CRoot e) r ∈ tr → Ev e r ∈ root_trace tr.
Proof. intros H. apply list_elem_of_omap. by exists (Ev (CRoot e) r). Qed.
Lemma said_mono tr tr' cmd out : (∀ x, x ∈ tr → x ∈ tr') → said (root_trace tr) cmd out → said (root_trace tr') cmd out.
Proof.
  intros Hsub (a & Ha & Hr). exists a. split; [|done].
  apply list_elem_of_omap in Ha as (x & Hx & Hev). apply list_elem_of_omap. eauto.
Qed.
Lemma joinable_mono allow tr tr' groups :
  (∀ x, x ∈ tr → x ∈ tr') → joinable allow (root_trace tr) groups → joinable allow (root_trace tr') groups.
Proof.
  intros Hsub (out & roles & raw & acls & H1 & H2 & H3 & H4 & H). exists out, roles, raw, acls.
  split_and!; [by eapply said_mono|done|by eapply said_mono|done|done].
Qed.

(** What a call writes: a user, or a group ([None]). *)
Definition user_write (ev : event umE) : option (option UserSpec) :=
  match ev with
  | Ev e _ => match e with
              | UAddUser s | UModifyUser s => Some (Some s)
              | UAddGroup _ _ | UModifyGroup _ _ => Some None
              | _ => None
              end
  end.
(** Every write of a user is of the user asked for, in groups asked for, and the
    membership was asked about before. *)
Definition asked (op : UserEnsure) (tr : list (event umE)) : Prop :=
  ∀ pre x post w, tr = pre ++ x :: post → user_write x = Some w →
    ∃ spec, w = Some spec ∧ UserID spec = ue_UserID op ∧ (∀ g, g ∈ spec_Groups spec → g ∈ ue_Groups op) ∧ Enable spec = default (Enable spec) (ue_Enable op) ∧
    (spec_Groups spec ≠ [] → BeforeJoin op = true → Ev (UBeforeJoin (spec_Groups spec)) (Ok tt) ∈ pre).
Lemma asked_nil op : asked op [].
Proof. intros [|] ? ? ? [=]. Qed.
Lemma asked_app op tr tr' : asked op tr → asked op tr' → asked op (tr ++ tr').
Proof.
  intros H H' pre x post w Heq Hw. symmetry in Heq. apply app_eq_app in Heq as (l & [[-> Hl]|[-> Hl]]).
  - destruct (H' _ _ _ _ Hl Hw) as (spec & ? & ? & ? & ? & Hb). exists spec. split_and!; [done..|]. intros ? ?.
    apply elem_of_app. right. auto.
  - destruct l as [|y l]; cbn in Hl.
    + destruct (H' [] x post w (eq_sym Hl) Hw) as (spec & ? & ? & ? & ? & Hb). exists spec. split_and!; [done..|]. intros Hg Hj.
      by destruct (not_elem_of_nil _ (Hb Hg Hj)).
    + injection Hl as <- ->. by eapply H.
Qed.
Lemma asked_other op ev : user_write ev = None → asked op [ev].
Proof.
  intros Hn pre x post spec Heq Hw. destruct pre as [|y pre]; [injection Heq as <- <-; congruence|].
  by destruct pre.
Qed.
Lemma asked_write op ev spec :
  user_write ev = Some (Some spec) → UserID spec = ue_UserID op → (∀ g, g ∈ spec_Groups spec → g ∈ ue_Groups op) →
  Enable spec = default (Enable spec) (ue_Enable op) →
  (spec_Groups spec ≠ [] → BeforeJoin op = true → False) → asked op [ev].
Proof.
  intros Hev H1 H2 H3 H4 pre x post spec' Heq Hw. destruct pre as [|y pre]; [|by destruct pre].
  injection Heq as <- <-. rewrite Hev in Hw. injection Hw as <-. exists spec. split_and!; [done..|].
  intros Hg Hb. by destruct (H4 Hg Hb).
Qed.
Lemma join_then_write op (e : umE (res unit)) enable groups :
  (∀ r, user_write (Ev e r) = Some (Some (user_spec op enable groups))) →
  (∀ g, g ∈ groups → g ∈ ue_Groups op) → enable = default enable (ue_Enable op) →
  always (let? _ := beforeJoin op groups orelse id in trigger e) (λ tr _, asked op tr).
Proof.
  intros He Hg Hen. unfold beforeJoin.
  assert ((groups ≠ [] → BeforeJoin op = true → False) → ∀ r, asked op [Ev e r]) as Hw.
  { intros Hn r. eapply asked_write; [apply He|done..]. }
  destruct (decide (groups = [])) as [->|Hne]; [cbn; by auto|].
  replace (match groups with [] => _ | _ => _ end)
    with (if BeforeJoin op then trigger (UBeforeJoin groups) else Ret (Ok tt) : io umE (res unit)) by by destruct groups.
  destruct (BeforeJoin op) eqn:Hb; [|cbn; intros r; by apply Hw].
  cbn. intros [[]|x]; cbn; [|by apply asked_other].
  intros r pre x post spec Heq Hx. destruct pre as [|y pre]; [by injection Heq as <- <-|].
  injection Heq as <- Heq. destruct pre as [|z pre]; [|by destruct pre].
  injection Heq as <- <-. rewrite He in Hx. injection Hx as <-. eexists. split_and!; [done..|].
  intros _ _. by left.
Qed.
Lemma Compact_elem x l : x ∈ Compact l → x ∈ l.
Proof.
  induction l as [|y l IH]; [done|]. cbn [Compact]. destruct l as [|z l]; [done|].
  destruct (eqb y z); [intros H; right; by apply IH|]. intros [->|H]%elem_of_cons; [by left|right; by apply IH].
Qed.
Lemma missing_go_elem x have missing groups :
  x ∈ missing_go have missing groups → x ∈ missing ∨ x ∈ groups ∧ x ∉ have.
Proof.
  revert missing. induction groups as [|g groups IH]; intros missing; cbn [missing_go]; [by left|].
  intros [H|[H Hn]]%IH; [|right; split; [by right|done]]. case_bool_decide as Hg; [by left|].
  apply elem_of_app in H as [H| ->%list_elem_of_singleton]; [by left|]. right. split; [by left|tauto].
Qed.
Lemma user_Apply_asked op f : always (user_Apply op f) (λ tr _, asked op tr).
Proof.
  unfold user_Apply. destruct f as [u|].
  - apply join_then_write with (enable := default (au_Enabled u) (ue_Enable op)) (groups := missingGroups op (Some u)); [done| |].
    + intros g. unfold missingGroups. rewrite sort_strings_elem.
      intros [H|[H _]]%missing_go_elem; [by destruct (not_elem_of_nil _ H)|done].
    + by destruct (ue_Enable op).
  - apply join_then_write with (enable := default true (ue_Enable op)) (groups := Compact (sort_strings (ue_Groups op))); [done| |].
    + intros g H%Compact_elem. by rewrite sort_strings_elem in H.
    + by destruct (ue_Enable op).
Qed.
Lemma run_user_asked op key force : always (run_user op key force) (λ tr _, asked op tr).
Proof.
  unfold run_user. eapply always_mono; [|apply (interp_invariant _ (λ _ tr, asked op tr) _ _ [])]; [done| |apply asked_nil].
  intros R e s pre Hs.
  assert (∀ A (m : io umE A), always m (λ tr _, asked op tr) → always m (λ tr _, asked op (pre ++ tr))) as Hpre.
  { intros A m Hm. eapply always_mono; [|exact Hm]. intros tr rs Ha. by apply asked_app. }
  destruct e; cbn [ensure_handler]; apply Hpre; cbn; try (intros; by apply asked_other || by apply asked_nil).
  - intros [users|e]; by apply asked_other.
  - eapply always_call; [apply user_Apply_asked|]. intros tr r H. cbn. by rewrite app_nil_r.
  - intros [users|e]; by apply asked_other.
Qed.

(** How root answers one call of the Op. *)
Definition um_step (own userID : string) (allow : bool) (_ : list EscalatingJoin) (ev : event umE)
    (tr : list (event cmdE)) (_ : list EscalatingJoin) : Prop :=
  match user_write ev with
  | Some (Some spec) => writes (root_trace tr) = [user_add spec] ∨ writes (root_trace tr) = [user_modify spec]
  | Some None => True
  | None =>
      match ev with
      | @Ev _ _ (UBeforeJoin groups) r =>
          writes (root_trace tr) = [] ∧
          (is_ok r = true →
            (ownUser own ≠ "" → equal_fold userID (ownUser own) = false) ∧
            (groups ≠ [] → joinable allow (root_trace tr) groups))
      | _ => writes (root_trace tr) = []
      end
  end.
Lemma token_first_quiet {A} has_rest (over_rest : rootE (res A)) (m : io rootE (res A)) :
  (∀ r, write_of (Ev over_rest r) = None) → always m (λ tr _, writes tr = []) →
  always (token_first has_rest over_rest m) (λ tr _, writes tr = []).
Proof.
  intros Ho Hm. unfold token_first. destruct has_rest; [|done]. cbn [bind trigger always]. intros [l|e].
  - cbn [always]. by rewrite writes_cons, Ho.
  - destruct (refusedByToken e); cbn [always]; [|by rewrite writes_cons, Ho].
    eapply always_mono; [|exact Hm]. intros tr r H. by rewrite writes_cons, Ho.
Qed.
Lemma reads_quiet {A} (m : io rootE (res A)) cmd f : reads m cmd f → always m (λ tr _, writes tr = []).
Proof. intros H. eapply always_mono; [|exact H]. by intros tr r [? _]. Qed.
Lemma um_over_root_step userID allow token R (e : umE R) s :
  always (um_over_root userID allow token R e s)
    (λ tr rs, um_step (default "" token) userID allow s (Ev e rs.1) tr rs.2).
Proof.
  assert (∀ A (m : io rootE A) Q, always m Q → ∀ s' : list EscalatingJoin,
    always (let! r := lift (@CRoot) m in Ret (r, s')) (λ tr rs, Q (root_trace tr) rs.1)) as Hroot.
  { intros A m Q Hm s'. eapply always_call; [apply always_lift with (Q := λ tr r, Q (root_trace tr) r)|].
    - eapply always_mono; [|exact Hm]. intros tr a H. by rewrite root_trace_lift.
    - intros tr a H. cbn. by rewrite app_nil_r. }
  destruct e; cbn [um_over_root].
  - eapply always_mono; [|apply Hroot, token_first_quiet; [done|eapply reads_quiet, rootUsers_reads]]. done.
  - eapply always_mono; [|apply Hroot, pveumWrite_spec]. intros tr rs [H _]. by left.
  - eapply always_mono; [|apply Hroot, pveumWrite_spec]. intros tr rs [H _]. by right.
  - eapply always_call; [apply always_lift with (Q := λ tr r, writes (root_trace tr) = [] ∧ (is_ok r = true →
      (ownUser (default "" token) ≠ "" → equal_fold userID (ownUser (default "" token)) = false) ∧
      (groups ≠ [] → joinable allow (root_trace tr) groups)))|].
    + eapply always_mono; [|apply CheckGroupJoin_spec]. intros tr a H. by rewrite root_trace_lift.
    + intros tr [js|e] [Hw Hok]; cbn; rewrite app_nil_r; (split; [done|]); [|done]. by auto.
  - eapply always_mono; [|apply Hroot, token_first_quiet; [done|eapply reads_quiet, rootGroups_reads]]. done.
  - by apply always_true.
  - by apply always_true.
  - done.
  - done.
Qed.

(** ** Every write of a run, and what root said before it *)
Definition write_at (pre : list (event cmdE)) (cmd : string) (tr : list (event cmdE)) : Prop :=
  ∃ a post, tr = pre ++ Ev (CRoot (RRun true cmd)) a :: post.
Lemma singleton_app {A} (x y : A) l l' : [x] = l ++ y :: l' → l = [] ∧ y = x.
Proof. destruct l as [|z l]; [by intros [= -> _]|]. by destruct l. Qed.
Lemma write_at_step own userID allow s ev tr s' pre cmd :
  um_step own userID allow s ev tr s' → write_at pre cmd tr →
  user_write ev = Some None ∨
  ∃ spec, user_write ev = Some (Some spec) ∧ (cmd = user_add spec ∨ cmd = user_modify spec).
Proof.
  intros Hst (a & post & ->). unfold um_step in Hst.
  assert (∃ l l', writes (root_trace (pre ++ Ev (CRoot (RRun true cmd)) a :: post)) = l ++ cmd :: l') as (l & l' & Hw).
  { rewrite root_trace_app, writes_app. eexists _, _. f_equal. }
  rewrite Hw in Hst. destruct (user_write ev) as [[spec|]|] eqn:Hu; [|by left|].
  - right. exists spec. split; [done|]. destruct Hst as [Hst|Hst]; symmetry in Hst; apply singleton_app in Hst as [_ ->]; auto.
  - destruct ev as [R e r]. destruct e; try done; try (by destruct l); destruct Hst as [Hst _]; by destruct l.
Qed.
Lemma run_user_writes userID allow token op pre cmd tr rs :
  ue_UserID op = userID → BeforeJoin op = true →
  (∃ evs, asked op evs ∧ steps (um_step (default "" token) userID allow) [] evs tr rs) → write_at pre cmd tr →
  ∃ spec, (cmd = user_add spec ∨ cmd = user_modify spec) ∧ UserID spec = userID ∧
    (∀ g, g ∈ spec_Groups spec → g ∈ ue_Groups op) ∧ Enable spec = default (Enable spec) (ue_Enable op) ∧
    (spec_Groups spec ≠ [] → joinable allow (root_trace pre) (spec_Groups spec)).
Proof.
  intros Hid Hb (evs & Hask & Hst) (a & post & Htr).
  destruct (steps_split _ _ _ _ _ _ _ _ Hst Htr) as (e1 & ev & e2 & t1 & x & y & s1 & s2 & -> & -> & Hst1 & Hev).
  destruct (write_at_step _ _ _ _ _ _ _ x cmd Hev) as [Hn|(spec & Hu & Hcmd)]; [by eexists _, _| |].
  - destruct (Hask _ _ _ _ eq_refl Hn) as (? & [=] & _).
  - destruct (Hask _ _ _ _ eq_refl Hu) as (spec' & [= <-] & ? & Hg & He & Hj). exists spec.
    split_and!; [done|congruence|done|done|]. intros Hne.
    destruct (steps_elem _ _ _ _ _ _ Hst1 (Hj Hne Hb)) as (s & t & s' & [_ Hjoin] & Hsub).
    eapply joinable_mono; [|by apply Hjoin]. intros z Hz. apply elem_of_app. auto.
Qed.

(** The roster's own token is the user's. *)
Definition owns (token : option string) (userID : string) : bool :=
  match token with Some tok => equal_fold (ownUser tok) userID | None => false end.

Lemma check_group_ids_Ok groups u : check_group_ids groups = Ok u → ∀ g, g ∈ groups → is_ok (CheckGroupID g) = true.
Proof.
  induction groups as [|g groups IH]; intros H x; [by intros ?%elem_of_nil|]. cbn [check_group_ids] in H.
  destruct (CheckGroupID g) as [[]|] eqn:Hg; [|done]. intros [->|Hx]%elem_of_cons; [by rewrite Hg|by apply IH].
Qed.
Lemma own_refused_Ok userID token disable groups targetID u :
  own_refused userID token disable groups targetID = Ok u → owns token userID = true → disable = false ∧ groups = [].
Proof.
  unfold own_refused, owns. destruct token as [tok|]; [|done]. destruct (equal_fold _ _); [|done].
  destruct disable; [done|]. cbn. case_bool_decide; [done|]. done.
Qed.
(** The first write of a run is past what the run began with. *)
Lemma write_at_cons pre cmd ev tr :
  root_event ev = None → write_at pre cmd (ev :: tr) → ∃ pre', pre = ev :: pre' ∧ write_at pre' cmd tr.
Proof.
  intros Hn (a & post & H). destruct pre as [|x pre]; [by injection H as -> _|].
  injection H as <- ->. exists pre. split; [done|]. by exists a, post.
Qed.
Lemma write_at_nil pre cmd : ¬ write_at pre cmd [].
Proof. intros (a & post & H). by destruct pre. Qed.

(** * Properties *)

(** C21: a run of [user ensure] writes as root only the user it was given, enabled or
    disabled as it was told if it was told, and only into groups it was told. The user
    that owns the roster's own token is never disabled nor put in a group. A user is put
    in groups only after root's lists were read and show that every role the groups hold
    is known and that none escalates, unless that was allowed. *)
Theorem user_ensure_safe userID allow targetID enable disable comment email groups :
  always (user_ensure userID allow targetID enable disable comment email groups) (λ tr _,
    ∀ pre cmd, write_at pre cmd tr →
      CheckUserID userID = Ok tt ∧
      ∃ token spec,
        Ev (COpen targetID) (Ok token) ∈ pre ∧
        (cmd = user_add spec ∨ cmd = user_modify spec) ∧ UserID spec = userID ∧
        (∀ g, g ∈ spec_Groups spec → g ∈ groups ∧ is_ok (CheckGroupID g) = true) ∧
        (enable = true → Enable spec = true) ∧
        (disable = true → Enable spec = false ∧ owns token userID = false) ∧
        (spec_Groups spec ≠ [] →
          owns token userID = false ∧ joinable allow (root_trace pre) (spec_Groups spec))).
Proof.
  assert (∀ pre cmd, ¬ write_at pre cmd []) as Hnil by apply write_at_nil.
  assert (∀ e pre cmd, root_event e = None → ¬ write_at pre cmd [e]) as Hone.
  { intros e pre cmd He (p & -> & H)%write_at_cons; [by apply Hnil in H|done]. }
  unfold user_ensure. destruct (CheckUserID userID) as [[]|] eqn:Hid; [|by intros ? ? ?%Hnil].
  destruct (negb (enable && disable)) eqn:Hed; [|by intros ? ? ?%Hnil].
  destruct (optionalText "comment" comment); [|by intros ? ? ?%Hnil].
  destruct (optionalText "email" email); [|by intros ? ? ?%Hnil].
  destruct (check_group_ids groups) eqn:Hgs; [|by intros ? ? ?%Hnil].
  cbn [bind trigger always]. intros [token|e]; [|by intros ? ? ?%Hone].
  destruct (own_refused userID token disable groups targetID) eqn:Hown; [|by intros ? ? ?%Hone].
  cbn [bind trigger always]. intros [[]|e]; cycle 1.
  { cbn. intros pre cmd (p & -> & H)%write_at_cons; [by apply Hone in H|done]. }
  eapply always_call; [apply (interp_refines _ (um_step (default "" token) userID allow)
    (um_over_root_step userID allow token)), run_user_asked|].
  intros tr [[r op_s] js] Hrun. cbn [fst snd always]. rewrite app_nil_r.
  intros pre cmd (p1 & -> & (p2 & -> & Hw)%write_at_cons)%write_at_cons; [|done..].
  pose proof (λ H1 H2, run_user_writes userID allow token _ _ _ _ _ H1 H2 Hrun Hw) as Hspec.
  destruct (Hspec eq_refl eq_refl) as (spec & Hcmd & Huid & Hsub & Hen & Hjoin). cbn in Hsub, Hen. split; [done|]. exists token, spec. split_and!.
  - by left.
  - done.
  - done.
  - intros g Hg. split; [by apply Hsub|]. eapply check_group_ids_Ok; eauto.
  - intros ->. by destruct disable.
  - intros ->. split; [by destruct enable|]. destruct (owns token userID) eqn:Ho; [|done].
    by destruct (own_refused_Ok _ _ _ _ _ _ Hown Ho).
  - intros Hne. split.
    + destruct (owns token userID) eqn:Ho; [|done]. destruct (own_refused_Ok _ _ _ _ _ _ Hown Ho) as [_ ->].
      destruct (spec_Groups spec) as [|g gs]; [done|]. by destruct (not_elem_of_nil g (Hsub g (list_elem_of_here _ _))).
    + eapply joinable_mono; [|by apply Hjoin]. intros z Hz. by do 2 right.
Qed.
