(* ===== verification/FreeOrphans.v ===== *)
(** cmd/pveforge/storage.go's [storage free-orphans], whole: the gates on root's reads of
    the cluster, then the Op over the routed client, down to the exchanges with PVE. *)
From Stdlib Require Import Ascii.
From S2P Require Import Prelude GoLib Errors Json Utf8 ShellQuote Rest Vms Task Snapshot Orphans OpRun Client.
From S2P Require Import VmFields VmLife Storage StorageOps Remote Cluster Routed AccessLists RootAccess PveUm.

(** [FOpen] is [openRootAccessAndREST]: the target, and whether the roster holds a token
    to read with. [FRoot] is a command of root's, [FHost] an exchange of the client. *)
Inductive freeE : Type → Type :=
| FOpen (targetID : string) : freeE (res (Target * bool))
| FResolve : freeE (res unit)
| FRoot {R} (e : rootE R) : freeE R
| FHost {R} (e : hostE R) : freeE R.

Definition refusing (what node : string) : err → err :=
  wrapf ("storage free-orphans: refusing — could not read " +:+ what +:+ " for node " +:+ quote node).
(** The VMs whose configs decide: [CompleteVMIDs] of the node, or [ClusterPairs]. *)
Definition enumerate (node : string) (shared : bool)
    : io rootE (res (option (list Z) * option (list (string * Z)))) :=
  if shared then
    let? guests := ClusterGuests orelse refusing "the cluster guest list" node in
    let? online := ClusterStatusOnlineNodes orelse refusing "the cluster's online nodes" node in
    Ret match ClusterQemuPairs guests online with
        | Ok pairs => Ok (None, Some pairs)
        | Er e => Er (Err KText ("storage free-orphans: refusing — " +:+ Error e) [e])
        end
  else
    let? vmids := NodeVMIDs node orelse refusing "the complete root VM list" node in
    Ret (Ok (Some vmids, None)).
(** The volumes freed. *)
Definition free_orphans (targetID storage vmidArg : string) (force : bool) : io freeE (res (list string)) :=
  match atoi vmidArg with
  | None => Ret (Er (errorf ("storage free-orphans: vmid " +:+ quote vmidArg +:+ " must be a positive integer")))
  | Some vmid =>
      guard negb (vmid <? 1)%Z orelse
        errorf ("storage free-orphans: vmid " +:+ quote vmidArg +:+ " must be a positive integer") in
      let? opened := trigger (FOpen targetID) orelse id in
      let t := opened.1 in
      guard opened.2 orelse errorf ("storage free-orphans: target " +:+ quote targetID
        +:+ " holds no API token; the orphan determination needs the token's REST view for the per-VM config reads") in
      let? _ := trigger FResolve orelse id in
      let? stg := lift (@FHost) (lift (@HPve) (GetStorage (Node t) storage))
        orelse wrapf ("storage free-orphans: refusing — could not read storage " +:+ quote storage
                 +:+ " on " +:+ quote (Node t)) in
      let? sel := lift (@FRoot) (enumerate (Node t) (negb (st_shared stg =? 0)%Z)) orelse id in
      let? quorate := lift (@FRoot) ClusterStatusQuorate orelse refusing "cluster quorum" (Node t) in
      guard quorate orelse errorf ("storage free-orphans: refusing — node " +:+ quote (Node t)
        +:+ " is not quorate; its VM list may be stale and the free could delete a live VM's disk") in
      let op := VolumeFreeOrphans (Node t) storage vmid sel.1 sel.2 in
      let! rs := lift (@FHost) (interp (routed t)
        (run_op op {| TargetID := targetID; Kind := "storage"; ID := storage |} force
           {| Applied := []; orphans := [] |}) false) in
      Ret match rs.1.1 with
          | Ok r => Ok (if Changed r then Applied rs.1.2 else [])
          | Er e => Er e
          end
  end.

(** * The client's answers *)
(** The VMs a free is built with, by node. *)
Definition enumerated (node : string) (vs : option (list Z)) (ps : option (list (string * Z)))
    (vms : list (string * Z)) : Prop :=
  ps = Some vms ∧ vs = None ∨ ∃ ids, vs = Some ids ∧ ps = None ∧ vms = pair node <$> ids.
(** A volume of that VM which the storage was read to list and which no config of any
    of [vms] names, each of them read in all its forms. *)
Definition orphan_of (node storage : string) (vmid : Z) (vms : list (string * Z)) (v : string)
    (tr : list (event pveE)) : Prop :=
  has_prefix (freePrefix storage vmid) v = true ∧
  ∃ content claimed o,
    listed_content node storage content tr ∧ unclaimed content claimed o ∧ sc_volid o = v ∧
    ∀ n i, (n, i) ∈ vms → covered n i claimed tr.
Lemma orphan_of_mono node storage vmid vms v tr tr' :
  (∀ ev, ev ∈ tr → ev ∈ tr') → orphan_of node storage vmid vms v tr → orphan_of node storage vmid vms v tr'.
Proof.
  intros Hsub (Hp & content & claimed & o & Hl & Hu & Hv & Hc). split; [done|]. exists content, claimed, o.
  split_and!; [by apply Hsub|done|done|]. intros n i Hin. eapply covered_mono; [done|exact Hsub|by apply Hc].
Qed.

(** What one answer of the routed client rests on, and what it changes. *)
Definition routed_step (node : string) (_ : bool) (ev : event clientE) (tr : list (event hostE)) (_ : bool) : Prop :=
  (changing_event ev = false → host_changes tr = []) ∧
  match ev with
  | Ev e r =>
      match e in clientE R return R → Prop with
      | CRawRequest m p v => λ _, ∀ x, x ∈ tr → host_changing x = true → ∃ a, x = Ev (HPve (Http m p v)) a
      | COrphansInCluster nd st vmid gs => λ r, ∀ os o, r = Ok os → Some o ∈ os →
          orphan_of nd st vmid gs (sc_volid o) (pve_trace tr)
      | COrphansOnNode nd st vmid ids => λ r, ∀ os o, r = Ok os → Some o ∈ os →
          orphan_of nd st vmid (pair nd <$> ids) (sc_volid o) (pve_trace tr)
      | _ => λ _, True
      end r
  end.
Lemma elem_of_somes {A} (x : A) l : Some x ∈ somes l ↔ x ∈ l.
Proof. unfold somes. rewrite list_elem_of_fmap. naive_solver. Qed.
Lemma cluster_orphans nd st vmid gs s :
  always (rest (pointers (OrphanVolumesClusterForVMID nd st vmid (Some gs))) s) (λ tr rs,
    ∀ os o, rs.1 = Ok os → Some o ∈ os → orphan_of nd st vmid gs (sc_volid o) (pve_trace tr)).
Proof.
  eapply always_mono; [|eapply rest_spec, pointers_spec, OrphanVolumesClusterForVMID_spec].
  cbn. intros tr rs (tr0 & -> & (r0 & [_ Hr] & Hrs) & _) os o Hos Hin. rewrite pve_trace_lift.
  destruct r0 as [l|e]; [|congruence]. rewrite Hrs in Hos. injection Hos as <-. rewrite elem_of_somes in Hin.
  destruct (Hr l eq_refl) as (gs' & content & claimed & [= <-] & Hl & Hc & _ & Ho).
  destruct (proj1 (Ho o) Hin) as [Hp Hu]. split; [done|]. by exists content, claimed, o.
Qed.
Lemma node_orphans nd st vmid ids s :
  always (rest (pointers (OrphanVolumesForVMIDWithVMList nd st vmid (Some ids))) s) (λ tr rs,
    ∀ os o, rs.1 = Ok os → Some o ∈ os → orphan_of nd st vmid (pair nd <$> ids) (sc_volid o) (pve_trace tr)).
Proof.
  eapply always_mono; [|eapply rest_spec, pointers_spec, OrphanVolumesForVMIDWithVMList_spec].
  cbn. intros tr rs (tr0 & -> & (r0 & [_ Hr] & Hrs) & _) os o Hos Hin. rewrite pve_trace_lift.
  destruct r0 as [l|e]; [|congruence]. rewrite Hrs in Hos. injection Hos as <-. rewrite elem_of_somes in Hin.
  destruct (Hr l eq_refl) as (ids' & all & [= <-] & (content & claimed & stg & _ & _ & Hl & Hc & _ & Ho) & Hn).
  destruct (proj1 (Hn o) Hin) as [Hp Hu%Ho]. split; [done|]. exists content, claimed, o. split_and!; [done..|].
  intros n i (j & [= -> ->] & Hj)%list_elem_of_fmap. by apply Hc.
Qed.
Lemma raw_changes m p v s :
  always (rest (RawRequest m p v) s) (λ tr _,
    ∀ x, x ∈ tr → host_changing x = true → ∃ a, x = Ev (HPve (Http m p v)) a).
Proof.
  eapply always_mono; [|eapply rest_spec, RawRequest_spec].
  cbn. intros tr rs (tr0 & -> & [[-> _]|(hr & -> & _)] & _) x Hx _; [by apply elem_of_nil in Hx|].
  apply list_elem_of_singleton in Hx as ->. by exists hr.
Qed.
Lemma routed_answers target R (e : clientE R) s :
  always (routed target R e s) (λ tr rs, routed_step (Node target) s (Ev e rs.1) tr rs.2).
Proof.
  assert (always (routed target R e s) (λ tr _, changing e = false → host_changes tr = [])) as Hq.
  { destruct (changing e) eqn:Hc; [by apply always_true|].
    eapply always_mono; [|by apply routed_quiet]. intros tr rs H. done. }
  unfold routed_step. apply always_and; [exact Hq|]. clear Hq.
  destruct e; try by apply always_true.
  - apply raw_changes.
  - apply node_orphans.
  - apply cluster_orphans.
Qed.

(** Every change a run of the Op makes is the deletion of an orphan. *)
Lemma free_run_deletes target storage vmid vs ps key force s :
  always (interp (routed target) (run_op (VolumeFreeOrphans (Node target) storage vmid vs ps) key force
            {| Applied := []; orphans := [] |}) s) (λ tr _,
    ∀ pre x post, tr = pre ++ x :: post → host_changing x = true →
      ∃ v a vms, x = Ev (HPve (Http "DELETE" (volume_path (Node target) storage v) ∅)) a ∧
        enumerated (Node target) vs ps vms ∧ orphan_of (Node target) storage vmid vms v (pve_trace pre)).
Proof.
  eapply always_mono; [|apply (interp_refines _ (routed_step (Node target)) (routed_answers target)), VolumeFreeOrphans_run].
  intros tr rs (evs & [Hdel _] & Hst) pre x post Htr Hx.
  destruct (steps_split _ _ _ _ _ _ _ _ Hst Htr) as (e1 & ev & e2 & t1 & a & b & s1 & s2 & -> & -> & Hst1 & Hq & Hev).
  destruct (changing_event ev) eqn:Hc.
  - destruct (Hdel _ _ _ eq_refl Hc) as (v & r & -> & (o & os & Ho & <- & Hscan)). cbn in Hev.
    destruct (Hev x) as [hr ->]; [set_solver|done|].
    assert (∀ R (e : clientE R) r', Ev e r' ∈ e1 → ∃ s1' t s2', routed_step (Node target) s1' (Ev e r') t s2' ∧
              ∀ y, y ∈ pve_trace t → y ∈ pve_trace (t1 ++ a)) as Hpast.
    { intros R e r' Hin. destruct (steps_elem _ _ _ _ _ _ Hst1 Hin) as (x1 & t & x2 & Hstep & Hsub).
      exists x1, t, x2. split; [done|]. intros y (z & Hz & Hy)%list_elem_of_omap.
      apply list_elem_of_omap. exists z. split; [apply elem_of_app; auto|done]. }
    destruct Hscan as [(pairs & -> & -> & Hin)|(ids & stg & -> & -> & _ & _ & Hin)];
      destruct (Hpast _ _ _ Hin) as (x1 & t & x2 & [_ Hans] & Hsub); cbn in Hans.
    + exists (sc_volid o), hr, pairs. split_and!; [done|by left|]. eapply orphan_of_mono; [exact Hsub|]. by eapply Hans.
    + exists (sc_volid o), hr, (pair (Node target) <$> ids). split_and!; [done|right; by eexists|].
      eapply orphan_of_mono; [exact Hsub|]. by eapply Hans.
  - specialize (Hq eq_refl). assert (x ∈ host_changes (a ++ x :: b)) as Hin.
    { unfold host_changes. apply list_elem_of_filter. split; [done|set_solver]. }
    rewrite Hq in Hin. by apply elem_of_nil in Hin.
Qed.

(** * Root's answers *)
(** [vms] is the complete list of VMs that could hold a volume of the storage: for a
    shared one all of the cluster, on nodes that are online; otherwise those of the
    node, as its own root lists them. *)
Definition complete (node : string) (shared : Z) (tr : list (event rootE)) (vms : list (string * Z)) : Prop :=
  shared ≠ 0%Z ∧ (∃ out gs out' online,
    said tr ClusterGuestsCommand out ∧ ParseClusterGuests out = Ok gs ∧
    said tr ClusterStatusCommand out' ∧ ParseClusterStatusOnlineNodes out' = Ok online ∧
    vms = qemu_pairs gs ∧ ∀ g, g ∈ gs → Type_ g = "qemu" → Node_ g ∈ online) ∨
  shared = 0%Z ∧ (∃ link out ids,
    said tr PeerNodeReadCommand link ∧ peerNodeRE (trim_newline link) = Some node ∧
    said tr (NodeQemuCommand node) out ∧ ParseNodeVMIDs out = Ok ids ∧ vms = pair node <$> ids).
Definition quorate (tr : list (event rootE)) : Prop :=
  ∃ out, said tr ClusterStatusCommand out ∧ ParseClusterStatusQuorate out = Ok true.
Lemma said_sub tr tr' cmd out : (∀ x, x ∈ tr → x ∈ tr') → said tr cmd out → said tr' cmd out.
Proof. intros Hsub (a & Ha & Hr). exists a. auto. Qed.
Lemma quorate_mono tr tr' : (∀ x, x ∈ tr → x ∈ tr') → quorate tr → quorate tr'.
Proof. intros Hsub (out & Hs & Hp). exists out. split; [by eapply said_sub|done]. Qed.
Lemma complete_mono node shared tr tr' vms :
  (∀ x, x ∈ tr → x ∈ tr') → complete node shared tr vms → complete node shared tr' vms.
Proof.
  intros Hsub [(Hs & out & gs & out' & online & H1 & H2 & H3 & H)|(Hs & link & out & ids & H1 & H2 & H3 & H)].
  - left. split; [done|]. exists out, gs, out', online. split_and!; [by eapply said_sub|done|by eapply said_sub|apply H..].
  - right. split; [done|]. exists link, out, ids. split_and!; [by eapply said_sub|done|by eapply said_sub|apply H..].
Qed.

Lemma verifyPeerNode_spec node :
  always (verifyPeerNode node) (λ tr r, writes tr = [] ∧ (r = Ok tt →
    ∃ link, said tr PeerNodeReadCommand link ∧ peerNodeRE (trim_newline link) = Some node)).
Proof.
  unfold verifyPeerNode. eapply always_call; [apply pveum_spec|].
  intros tr [out|e] [Hw Hs]; cbn [always]; [|by rewrite app_nil_r].
  cbv zeta. destruct (peerNodeRE (trim_newline out)) as [peer|] eqn:Hp; [|cbn; by rewrite app_nil_r].
  destruct (_ || _); [cbn; by rewrite app_nil_r|].
  destruct (eqb peer node) eqn:He; cbn; rewrite app_nil_r; [|done]. split; [done|]. intros _.
  apply eqb_true in He as ->. eauto.
Qed.
Lemma NodeVMIDs_spec node :
  always (NodeVMIDs node) (λ tr r, writes tr = [] ∧ ∀ ids, r = Ok ids →
    complete node 0 tr (pair node <$> ids)).
Proof.
  unfold NodeVMIDs. destruct (negb (eqb node "")); [|done].
  eapply always_call; [apply verifyPeerNode_spec|].
  intros tr [[]|e] [Hw Hl]; cbn [bind]; [|cbn; by rewrite app_nil_r].
  eapply always_mono; [|apply (pveum_reads (NodeQemuCommand node) ParseNodeVMIDs)].
  intros tr' r [Hw' Hr]. rewrite writes_app, Hw, Hw'. split; [done|]. intros ids Hids.
  destruct (Hl eq_refl) as (link & Hlink & Hnode). destruct (Hr _ Hids) as (out & Hs & Hp).
  right. split; [done|]. exists link, out, ids. split_and!; [by apply said_app_l|done|by apply said_app_r|done|done].
Qed.
Lemma enumerate_spec node shared :
  always (enumerate node (negb (shared =? 0)%Z)) (λ tr r, writes tr = [] ∧
    ∀ sel vms, r = Ok sel → enumerated node sel.1 sel.2 vms → complete node shared tr vms).
Proof.
  unfold enumerate. destruct (Z.eqb_spec shared 0) as [->|Hne]; cbn [negb].
  - eapply always_call; [apply NodeVMIDs_spec|].
    intros tr [ids|e] [Hw Hr]; cbn; rewrite app_nil_r; [|done]. split; [done|].
    intros sel vms [= <-] [[? _]|(ids' & [= <-] & _ & ->)]; [done|]. by apply Hr.
  - eapply always_call; [apply pveum_reads|]. intros tr [gs|e] [Hw Hr]; cbn [bind]; [|cbn; by rewrite app_nil_r].
    eapply always_call; [apply pveum_reads|].
    intros tr' [online|e] [Hw' Hr']; cbn [bind always]; rewrite app_nil_r, writes_app, Hw, Hw'; [|done].
    split; [done|]. intros sel vms Hsel Henum.
    destruct (ClusterQemuPairs gs online) as [pairs|] eqn:Hp; [|done]. injection Hsel as <-.
    destruct Henum as [[[= <-] _]|(? & [=] & _)]. apply ClusterQemuPairs_spec in Hp as [-> Hon].
    destruct (Hr _ eq_refl) as (out & Hs & Hpg). destruct (Hr' _ eq_refl) as (out' & Hs' & Hpo).
    left. split; [done|]. exists out, gs, out', online.
    split_and!; [by apply said_app_l|done|by apply said_app_r|done|done|done].
Qed.
Lemma ClusterStatusQuorate_spec :
  always ClusterStatusQuorate (λ tr r, writes tr = [] ∧ (r = Ok true → quorate tr)).
Proof.
  eapply always_mono; [|apply (pveum_reads ClusterStatusCommand ParseClusterStatusQuorate)].
  intros tr r [Hw Hr]. split; [done|]. intros H. by apply Hr.
Qed.

(** * The command's trace *)
Definition root_of_event (ev : event freeE) : option (event rootE) :=
  match ev with
  | Ev e r => match e in freeE R return R → option (event rootE) with
              | FRoot e => λ r, Some (Ev e r) | _ => λ _, None end r
  end.
Definition host_of_event (ev : event freeE) : option (event hostE) :=
  match ev with
  | Ev e r => match e in freeE R return R → option (event hostE) with
              | FHost e => λ r, Some (Ev e r) | _ => λ _, None end r
  end.
(** What root said, and what was exchanged with PVE and with the host. *)
Definition root_of (tr : list (event freeE)) : list (event rootE) := omap root_of_event tr.
Definition host_of (tr : list (event freeE)) : list (event hostE) := omap host_of_event tr.
Definition free_changing (ev : event freeE) : bool :=
  match root_of_event ev, host_of_event ev with
  | Some e, _ => match write_of e with Some _ => true | None => false end
  | _, Some e => host_changing e
  | None, None => false
  end.
Definition unchanging (tr : list (event freeE)) : Prop := ∀ y, y ∈ tr → free_changing y = false.

Lemma root_of_lift tr : root_of (lift_event (@FRoot) <$> tr) = tr.
Proof. induction tr as [|[R e r] tr IH]; [done|]. unfold root_of in *. cbn. by rewrite IH. Qed.
Lemma host_of_lift tr : host_of (lift_event (@FHost) <$> tr) = tr.
Proof. induction tr as [|[R e r] tr IH]; [done|]. unfold host_of in *. cbn. by rewrite IH. Qed.
Lemma root_of_elem tr tr' x : (∀ y, y ∈ tr → y ∈ tr') → x ∈ root_of tr → x ∈ root_of tr'.
Proof. intros Hs (y & Hy & H)%list_elem_of_omap. apply list_elem_of_omap. eauto. Qed.
Lemma host_of_elem tr tr' x : (∀ y, y ∈ tr → y ∈ tr') → x ∈ pve_trace (host_of tr) → x ∈ pve_trace (host_of tr').
Proof.
  intros Hs (y & (z & Hz & Hzy)%list_elem_of_omap & H)%list_elem_of_omap.
  apply list_elem_of_omap. exists y. split; [|done]. apply list_elem_of_omap. eauto.
Qed.
Lemma unchanging_app tr tr' : unchanging tr → unchanging tr' → unchanging (tr ++ tr').
Proof. intros H H' y [Hy|Hy]%elem_of_app; auto. Qed.
Lemma unchanging_root tr : writes tr = [] → unchanging (lift_event (@FRoot) <$> tr).
Proof.
  intros Hw y (ev & -> & Hev)%list_elem_of_fmap. destruct ev as [R e r].
  change (free_changing _) with (match write_of (Ev e r) with Some _ => true | None => false end).
  destruct (write_of (Ev e r)) as [[cmd a]|] eqn:Hc; [|done].
  assert (cmd ∈ writes tr) as Hin; [|rewrite Hw in Hin; by apply elem_of_nil in Hin].
  apply list_elem_of_fmap. exists (cmd, a). split; [done|]. apply list_elem_of_omap. by exists (Ev e r).
Qed.
Lemma unchanging_host tr : mutations tr = [] → unchanging (lift_event (@FHost) <$> (lift_event (@HPve) <$> tr)).
Proof.
  intros Hm y (ev & -> & (ev0 & -> & Hev)%list_elem_of_fmap)%list_elem_of_fmap.
  destruct (host_changing (lift_event (@HPve) ev0)) eqn:Hc; [|by destruct ev0].
  apply host_changing_lift in Hc as [x Hx].
  assert (x ∈ mutations tr) as Hin; [apply list_elem_of_omap; by exists ev0|].
  rewrite Hm in Hin. by apply elem_of_nil in Hin.
Qed.
(** Every change of a trace, with what came before it. *)
Definition each_change (Q : list (event freeE) → event freeE → Prop) (tr : list (event freeE)) : Prop :=
  ∀ pre x post, tr = pre ++ x :: post → free_changing x = true → Q pre x.
Lemma unchanging_each Q tr : unchanging tr → each_change Q tr.
Proof. intros Hq pre x post -> Hx. rewrite (Hq x) in Hx; [done|set_solver]. Qed.
Lemma each_change_app Q tr tr' :
  unchanging tr → each_change (λ pre x, Q (tr ++ pre) x) tr' → each_change Q (tr ++ tr').
Proof.
  intros Hq H' pre x post H Hx. apply app_eq_app in H as (l & [[-> Hl]|[-> Hl]]); [|by eapply H'].
  destruct l as [|y l]; cbn in Hl.
  - rewrite <-(app_nil_r pre), <-(app_nil_r (pre ++ [])). by apply (H' [] x post).
  - injection Hl as <- ->. rewrite (Hq x) in Hx; [done|]. apply elem_of_app. right. by left.
Qed.
(** A program that has changed nothing so far, and may stop. *)
Lemma phase {A B} (m : io freeE A) (f : A → io freeE B) P Q tr0 :
  unchanging tr0 → always m (λ tr a, unchanging tr ∧ P tr a) →
  (∀ tr a, unchanging (tr0 ++ tr) → P tr a → always (f a) (λ tr' _, each_change Q ((tr0 ++ tr) ++ tr'))) →
  always (bind m f) (λ tr _, each_change Q (tr0 ++ tr)).
Proof.
  intros H0 Hm Hf. eapply always_call; [exact Hm|]. intros tr a [Hq HP].
  eapply always_mono; [|apply (Hf tr a); [by apply unchanging_app|done]]. intros tr' b. by rewrite app_assoc.
Qed.
Lemma stop {A} (a : A) Q tr0 : unchanging tr0 → always (Ret a) (λ tr (_ : A), each_change Q (tr0 ++ tr)).
Proof. intros H. cbn. rewrite app_nil_r. by apply unchanging_each. Qed.
Lemma trigger_spec {A} (e : freeE A) :
  (∀ a, free_changing (Ev e a) = false) → always (trigger e) (λ tr a, unchanging tr ∧ tr = [Ev e a]).
Proof. intros He. cbn. intros a. split; [|done]. by intros ? ->%list_elem_of_singleton. Qed.
Lemma storage_read_spec t storage :
  always (lift (@FHost) (lift (@HPve) (GetStorage (Node t) storage))) (λ tr r, unchanging tr ∧ ∀ st, r = Ok st →
    Ev (PcStorage (storage_path (Node t) storage "/status")) (Ok st) ∈ pve_trace (host_of tr)).
Proof.
  eapply always_mono; [|apply lift_spec, lift_spec, GetStorage_spec].
  cbn. intros tr r (tr1 & -> & tr0 & -> & Hm & Hst). split; [by apply unchanging_host|].
  intros st ->. destruct (Hst _ eq_refl) as [_ ->]. rewrite host_of_lift, pve_trace_lift. by left.
Qed.
Lemma root_spec {A} (m : io rootE A) (P : list (event rootE) → A → Prop) :
  always m (λ tr a, writes tr = [] ∧ P tr a) →
  always (lift (@FRoot) m) (λ tr a, unchanging tr ∧ P (root_of tr) a).
Proof.
  intros Hm. eapply always_mono; [|by apply lift_spec]. cbn.
  intros tr a (tr0 & -> & Hw & HP). rewrite root_of_lift. split; [by apply unchanging_root|done].
Qed.
Lemma root_phase {A B} (m : io rootE A) (f : A → io freeE B) P Q tr0 :
  unchanging tr0 → always m (λ tr a, writes tr = [] ∧ P tr a) →
  (∀ tr a, unchanging (tr0 ++ tr) → P (root_of tr) a →
     always (f a) (λ tr' _, each_change Q ((tr0 ++ tr) ++ tr'))) →
  always (bind (lift (@FRoot) m) f) (λ tr _, each_change Q (tr0 ++ tr)).
Proof. intros H0 Hm Hf. apply (phase _ _ (λ tr a, P (root_of tr) a)); [done|by apply root_spec|done]. Qed.

(** * Properties *)

(** C13: whatever PVE, the host and root answer, [storage free-orphans] changes nothing but
    by deleting volumes of the storage it was given, and before each deletion: root's
    cluster status said that there is a quorum; the list of the VMs that could hold a
    volume of the storage was read completely, as root, over the whole cluster with every
    node of a VM online if the storage is shared, on the node itself otherwise; the volume
    was listed, carries the prefix of the VM given, and is named by no config of any VM of
    that list, each of them read live, pending and in every snapshot. *)
Theorem free_orphans_safe targetID storage vmidArg force :
  always (free_orphans targetID storage vmidArg force) (λ tr _, each_change (λ pre x,
      ∃ vmid t stg vms v a,
        x = Ev (FHost (HPve (Http "DELETE" (volume_path (Node t) storage v) ∅))) a ∧
        atoi vmidArg = Some vmid ∧ (1 ≤ vmid)%Z ∧ Ev (FOpen targetID) (Ok (t, true)) ∈ pre ∧
        Ev (PcStorage (storage_path (Node t) storage "/status")) (Ok stg) ∈ pve_trace (host_of pre) ∧
        quorate (root_of pre) ∧ complete (Node t) (st_shared stg) (root_of pre) vms ∧
        orphan_of (Node t) storage vmid vms v (pve_trace (host_of pre))) tr).
Proof.
  lazymatch goal with |- always ?m (λ tr _, each_change ?Q tr) =>
    change (always m (λ tr _, each_change Q ([] ++ tr))) end.
  unfold free_orphans. assert (unchanging []) as H0 by by intros ? ?%elem_of_nil.
  destruct (atoi vmidArg) as [vmid|] eqn:Hid; [|by apply stop].
  destruct (negb (vmid <? 1)%Z) eqn:Hpos; [|by apply stop].
  apply negb_true_iff, Z.ltb_ge in Hpos.
  eapply phase; [done|by apply trigger_spec|].
  intros tr1 [[t has_rc]|e] H1 Hopen; [|by apply stop]. cbn [fst snd]. destruct has_rc; [|by apply stop].
  eapply phase; [done|by apply trigger_spec|]. intros tr2 [[]|e] H2 _; [|by apply stop].
  eapply phase; [done|apply storage_read_spec|]. intros tr3 [stg|e] H3 Hstg; [|by apply stop].
  eapply root_phase; [done|apply enumerate_spec|]. intros tr4 [sel|e] H4 Hsel; [|by apply stop].
  eapply root_phase; [done|apply ClusterStatusQuorate_spec|].
  intros tr5 [quo|e] H5 Hquo; [|by apply stop]. destruct quo; [|by apply stop].
  eapply always_call; [apply lift_spec, free_run_deletes|].
  intros tr rs (tr0 & -> & Hdel). cbn [always]. rewrite app_nil_r.
  apply each_change_app; [done|]. intros pre x post Htr Hx.
  apply fmap_app_inv in Htr as (pre0 & rest0 & -> & Hrest & ->).
  symmetry in Hrest. apply fmap_cons_inv in Hrest as (x0 & post0 & -> & -> & ->).
  assert (host_changing x0 = true) as Hx0 by by destruct x0.
  destruct (Hdel pre0 x0 post0 eq_refl Hx0) as (v & a & vms & -> & Hen & Horph).
  set (before := _ ++ tr5).
  exists vmid, t, stg, vms, v, a. split_and!; [done|done|done| | | | |].
  - subst before tr1. rewrite !elem_of_app, list_elem_of_singleton. tauto.
  - eapply host_of_elem; [|by apply Hstg]. intros y. unfold before. rewrite !elem_of_app. tauto.
  - eapply quorate_mono; [|by apply Hquo]. intros y. apply root_of_elem. intros z. unfold before.
    rewrite !elem_of_app. tauto.
  - eapply complete_mono; [|by eapply Hsel]. intros y. apply root_of_elem. intros z. unfold before.
    rewrite !elem_of_app. tauto.
  - eapply orphan_of_mono; [|exact Horph]. intros y Hy. unfold host_of, pve_trace. rewrite !omap_app.
    apply elem_of_app. right. fold (host_of (lift_event (@FHost) <$> pre0)). by rewrite host_of_lift.
Qed.
