(* ===== verification/Lock.v ===== *)
(** internal/lock/lock.go: the per-object lock, a writer-priority readers-writers lock
    built from two lock files, a turnstile ("service queue") and the resource.

    [Mutation] and [Read] are programs over the calls they make. What many of them do
    at once is a step relation: each is at a point of its program ([pc]), and a step
    answers the call one of them is waiting in. [programs_follow] says that the points and
    their successors are the programs'. *)
From Stdlib Require Import Ascii.
From S2P Require Import Prelude GoLib Errors Json ShellQuote Rest OpRun.

(** ** Keys and files *)
Definition sanitizePart (s : string) : string :=
  let out := sconcat ((λ rb : Z * string,
    match rb.2 with
    | String c "" => if is_alnum c || one_of "-_." c then rb.2 else "_"
    | _ => "_"
    end) <$> runes s) in
  if eqb out "" then "_" else out.
Definition sanitizeKey (key : ObjectKey) : string :=
  sanitizePart (TargetID key) +:+ "__" +:+ sanitizePart (Kind key) +:+ "__" +:+ sanitizePart (ID key).
Inductive lockfile := Queue | Resource.
Definition filesFor (rosterPath : string) (key : ObjectKey) (f : lockfile) : string :=
  filepath_Join (rosterPath +:+ ".locks") (sanitizeKey key)
  +:+ match f with Queue => ".queue.lock" | Resource => ".resource.lock" end.

(** ** The calls *)
(** Why a wait ended: the caller's [ctx.Err()], whether the bound's own timer fired,
    and the cause of the caller's context when it names a signal. *)
Record wait_end := { ctx_err : option err; bound_fired : bool; signal : option err }.
(** What a call answers: done (a lock: taken), neither done nor an error, or an error. *)
Inductive ans := Done_ | Neither (w : wait_end) | Failed (e : err) (w : wait_end).
Definition sys_err (a : ans) : option err := match a with Failed e _ => Some e | _ => None end.

(** [TryLock f shared] is flock's TryLockContext or TryRLockContext, its polling
    included; [Body] is the caller's work under the lock. *)
Inductive lockop := Mkdir | TryLock (f : lockfile) (shared : bool) | Unlock (f : lockfile) | Body.
Inductive lockE : Type → Type := Sys (op : lockop) : lockE ans.

Section lock.
(** [bound] is the text of the bound's duration. *)
Context (rosterPath : string) (key : ObjectKey) (bound : string).
Definition lock_what : string := "lock " +:+ key_String key.

Definition queuedText : string := "another mutation is queued for or holds this object".
Definition heldText : string := "it is held by another command".
Definition acquireErr (f : lockfile) (behind step : string) (e : err) (w : wait_end) : err :=
  match ctx_err w with
  | None =>
      if bound_fired w then
        Err KText (lock_what +:+ ": " +:+ sentinel_text ErrLockWaitTimeout +:+ " after " +:+ bound
          +:+ " (the lock-wait bound, --lock-wait): " +:+ behind
          +:+ "; pveforge records no holder: fuser -v " +:+ ShellQuote (filesFor rosterPath key f)
          +:+ " lists the processes with it open, holders and waiters alike") [sent ErrLockWaitTimeout]
      else wrapf (lock_what +:+ ": " +:+ step) e
  | Some ce =>
      match signal w with
      | Some cause =>
          Err KText (lock_what +:+ ": " +:+ sentinel_text ErrLockWaitInterrupted +:+ " (" +:+ Error cause
            +:+ "); the operation did not start under it: " +:+ Error ce)
            [sent ErrLockWaitInterrupted; cause; ce]
      | None => wrapf (lock_what +:+ ": " +:+ step) e
      end
  end.
(** [acquire]'s error, as its callers report it. *)
Definition acquired (f : lockfile) (behind step : string) (a : ans) : res unit :=
  match a with
  | Done_ => Ok tt
  | Neither w => Er (acquireErr f behind step
      (errorf ("flock reported neither a lock nor an error for " +:+ filesFor rosterPath key f)) w)
  | Failed e w => Er (acquireErr f behind step e w)
  end.
Definition step_queue : string := "acquire service queue".
Definition release_err (e : err) : err := wrapf (lock_what +:+ ": release service queue") e.
Definition ensureLockDir : io lockE (res unit) :=
  let! a := trigger (Sys Mkdir) in
  Ret match sys_err a with
      | Some e => Er (wrapf (lock_what +:+ ": create lock directory") e)
      | None => Ok tt
      end.

(** An acquired lock is released by [Unlock Resource]. *)
Definition Mutation : io lockE (res unit) :=
  let? _ := ensureLockDir orelse id in
  let! a := trigger (Sys (TryLock Queue false)) in
  let? _ := Ret (acquired Queue queuedText step_queue a) orelse id in
  let! a := trigger (Sys (TryLock Resource false)) in
  match acquired Resource heldText "acquire resource" a with
  | Er e => let! _ := trigger (Sys (Unlock Queue)) in Ret (Er e)
  | Ok _ =>
      let! a := trigger (Sys (Unlock Queue)) in
      match sys_err a with
      | Some e => let! _ := trigger (Sys (Unlock Resource)) in Ret (Er (release_err e))
      | None => Ret (Ok tt)
      end
  end.
Definition Read : io lockE (res unit) :=
  let? _ := ensureLockDir orelse id in
  let! a := trigger (Sys (TryLock Queue false)) in
  let? _ := Ret (acquired Queue queuedText step_queue a) orelse id in
  let! a := trigger (Sys (Unlock Queue)) in
  match sys_err a with
  | Some e => Ret (Er (release_err e))
  | None =>
      let! a := trigger (Sys (TryLock Resource true)) in
      Ret (acquired Resource heldText "acquire resource (shared)" a)
  end.
(** A command: take the lock, work, release it. *)
Definition under (take : io lockE (res unit)) : io lockE (res unit) :=
  let! r := take in
  match r with
  | Er e => Ret (Er e)
  | Ok _ =>
      let! _ := trigger (Sys Body) in
      let! a := trigger (Sys (Unlock Resource)) in
      Ret match sys_err a with Some e => Er e | None => Ok tt end
  end.

(** ** The points of the two programs *)
Inductive pc :=
| M_dir | M_queue | M_resource | M_abort (e : err) | M_release | M_undo (e : err) | M_body | M_unlock
| R_dir | R_queue | R_release | R_resource | R_body | R_unlock
| End (r : res unit).
(** The call a point waits in. *)
Definition ask (p : pc) : option lockop :=
  match p with
  | M_dir | R_dir => Some Mkdir
  | M_queue | R_queue => Some (TryLock Queue false)
  | M_resource => Some (TryLock Resource false)
  | R_resource => Some (TryLock Resource true)
  | M_abort _ | M_release | R_release => Some (Unlock Queue)
  | M_undo _ | M_unlock | R_unlock => Some (Unlock Resource)
  | M_body | R_body => Some Body
  | End _ => None
  end.
Definition or_end (r : res unit) (p : pc) : pc := match r with Ok _ => p | Er e => End (Er e) end.
Definition dir_result (a : ans) : res unit :=
  match sys_err a with
  | Some e => Er (wrapf (lock_what +:+ ": create lock directory") e)
  | None => Ok tt
  end.
Definition unlock_result (a : ans) : res unit :=
  match sys_err a with Some e => Er e | None => Ok tt end.
Definition next (p : pc) (a : ans) : pc :=
  match p with
  | M_dir => or_end (dir_result a) M_queue
  | M_queue => or_end (acquired Queue queuedText step_queue a) M_resource
  | M_resource => match acquired Resource heldText "acquire resource" a with
                  | Ok _ => M_release | Er e => M_abort e end
  | M_abort e => End (Er e)
  | M_release => match sys_err a with Some e => M_undo (release_err e) | None => M_body end
  | M_undo e => End (Er e)
  | M_body => M_unlock
  | M_unlock => End (unlock_result a)
  | R_dir => or_end (dir_result a) R_queue
  | R_queue => or_end (acquired Queue queuedText step_queue a) R_release
  | R_release => match sys_err a with Some e => End (Er (release_err e)) | None => R_resource end
  | R_resource => or_end (acquired Resource heldText "acquire resource (shared)" a) R_body
  | R_body => R_unlock
  | R_unlock => End (unlock_result a)
  | End r => End r
  end.

(** The program [m] is at the point [p]: it waits in the same call, and whatever the
    answer, goes on at the next point. *)
Definition op_of {R} (e : lockE R) : lockop := match e with Sys op => op end.
Definition ans_of {R} (e : lockE R) : R → ans := match e in lockE R return R → ans with Sys _ => λ a, a end.
Fixpoint follows (m : io lockE (res unit)) (p : pc) : Prop :=
  match m with
  | Ret r => p = End r
  | Vis e k => ask p = Some (op_of e) ∧ ∀ a, follows (k a) (next p (ans_of e a))
  | Stuck => False
  end.
Lemma programs_follow : follows (under Mutation) M_dir ∧ follows (under Read) R_dir.
Proof.
  split; cbn; (split; [done|]); intros a; destruct (dir_result a) as [[]|e] eqn:Hd; unfold dir_result in Hd;
    destruct (sys_err a); simplify_eq/=; try done; (split; [done|]); clear a; intros a;
    destruct (acquired Queue queuedText step_queue a) as [[]|e]; cbn; try done; (split; [done|]);
    clear a; intros a.
  - destruct (acquired Resource heldText "acquire resource" a) as [[]|e]; cbn; (split; [done|]);
      clear a; intros a; [|done].
    destruct (sys_err a) as [e|]; cbn; (split; [done|]); intros; [done|].
    cbn. split; [done|]. intros b. unfold unlock_result. by destruct (sys_err b).
  - destruct (sys_err a) as [e|]; cbn; [done|]. split; [done|]. clear a. intros a.
    destruct (acquired Resource heldText "acquire resource (shared)" a) as [[]|e]; cbn; [|done].
    split; [done|]. intros _. split; [done|]. intros b. unfold unlock_result. by destruct (sys_err b).
Qed.
End lock.

(** * Many commands at once *)
(** flock(2), as its manual states it: a lock file is held by open file descriptions,
    each exclusively or shared; an exclusive lock is granted exactly when no other one
    holds the file, a shared lock exactly when no other one holds it exclusively. Every
    call opens the files anew, so the holders are the commands. *)
Class Flock (F : Type) := {
  no_holder : F;
  holds : F → nat → option bool;                  (* [Some true]: exclusively *)
  take : F → nat → bool → option F;
  drop : F → nat → F
}.
Definition compatible {F} `{Flock F} (f : F) (i : nat) (excl : bool) : Prop :=
  ∀ j, j ≠ i → if excl then holds f j = None else holds f j ≠ Some true.
Class FlockLaws (F : Type) `{Flock F} := {
  no_holder_holds i : holds no_holder i = None;
  take_iff f i excl : holds f i = None → is_Some (take f i excl) ↔ compatible f i excl;
  take_holds f i excl f' j : take f i excl = Some f' →
    holds f' j = if decide (j = i) then Some excl else holds f j;
  drop_holds f i j : holds (drop f i) j = if decide (j = i) then None else holds f j
}.

Section kernel.
Context {F : Type} {Flk : Flock F} {Flaws : FlockLaws F} (rosterPath : string) (key : ObjectKey) (bound : string).
Abbreviation next := (next rosterPath key bound).

Record config := { threads : gmap nat pc; queue : F; resource : F }.
Definition start : config := {| threads := ∅; queue := no_holder; resource := no_holder |}.
Definition file_of (c : config) (f : lockfile) : F :=
  match f with Queue => queue c | Resource => resource c end.
Definition goto (c : config) (i : nat) (p : pc) : config :=
  {| threads := <[i := p]> (threads c); queue := queue c; resource := resource c |}.
Definition set_file (c : config) (f : lockfile) (x : F) : config :=
  match f with
  | Queue => {| threads := threads c; queue := x; resource := resource c |}
  | Resource => {| threads := threads c; queue := queue c; resource := x |}
  end.

(** One step: a command starts; a lock is granted; a wait for one ends without it; an
    unlock succeeds; it fails, and the file stays locked; any other call is answered; a
    process dies, and the kernel drops its locks. *)
Inductive step (c : config) : config → Prop :=
| step_spawn i p : threads c !! i = None → p = M_dir ∨ p = R_dir → step c (goto c i p)
| step_grant i p f shared x :
    threads c !! i = Some p → ask p = Some (TryLock f shared) →
    take (file_of c f) i (negb shared) = Some x →
    step c (set_file (goto c i (next p Done_)) f x)
| step_refuse i p f shared a :
    threads c !! i = Some p → ask p = Some (TryLock f shared) → a ≠ Done_ →
    step c (goto c i (next p a))
| step_unlock i p f :
    threads c !! i = Some p → ask p = Some (Unlock f) →
    step c (set_file (goto c i (next p Done_)) f (drop (file_of c f) i))
| step_unlock_fail i p f e w :
    threads c !! i = Some p → ask p = Some (Unlock f) → step c (goto c i (next p (Failed e w)))
| step_other i p op a :
    threads c !! i = Some p → ask p = Some op → op = Mkdir ∨ op = Body → step c (goto c i (next p a))
| step_crash i p :
    threads c !! i = Some p →
    step c {| threads := delete i (threads c); queue := drop (queue c) i; resource := drop (resource c) i |}.
Definition reachable (c : config) : Prop := rtc step start c.

(** What a command at a point certainly holds, and cannot hold. *)
Definition has_queue (p : pc) : bool :=
  match p with M_resource | M_abort _ | M_release | R_release => true | _ => false end.
Definition may_queue (p : pc) : bool :=
  has_queue p || match p with M_undo _ | End _ => true | _ => false end.
Definition has_resource (p : pc) : option bool :=
  match p with
  | M_release | M_undo _ | M_body | M_unlock => Some true
  | R_body | R_unlock => Some false
  | _ => None
  end.
Record inv (c : config) : Prop := {
  inv_queue i p : threads c !! i = Some p → has_queue p = true → holds (queue c) i = Some true;
  inv_resource i p ex : threads c !! i = Some p → has_resource p = Some ex →
    holds (resource c) i = Some ex;
  inv_queue_excl i j : i ≠ j → holds (queue c) i = Some true → holds (queue c) j = None;
  inv_queue_mode i : holds (queue c) i ≠ Some false;
  inv_resource_excl i j : i ≠ j → holds (resource c) i = Some true → holds (resource c) j = None;
  inv_no_queue i p : threads c !! i = Some p → may_queue p = false → holds (queue c) i = None;
  inv_no_resource i p : threads c !! i = Some p →
    match p with End _ => False | _ => has_resource p = None end → holds (resource c) i = None;
  inv_absent i : threads c !! i = None → holds (queue c) i = None ∧ holds (resource c) i = None
}.

(** A step of one command keeps the invariant when its own part of it does. *)
Lemma inv_update c i p q r :
  inv c → (∀ j, j ≠ i → holds q j = holds (queue c) j) →
  (∀ j, j ≠ i → holds r j = holds (resource c) j) →
  (has_queue p = true → holds q i = Some true) → (may_queue p = false → holds q i = None) →
  (holds q i = None ∨ holds q i = Some true ∧ compatible (queue c) i true) →
  (∀ ex, has_resource p = Some ex → holds r i = Some ex) →
  (match p with End _ => False | _ => has_resource p = None end → holds r i = None) →
  (holds r i = None ∨ ∃ ex, holds r i = Some ex ∧ compatible (resource c) i ex) →
  inv {| threads := <[i := p]> (threads c); queue := q; resource := r |}.
Proof using.
  intros [I1 I2 I3 I4 I5 I6 I7 I8] Hq Hr P1 P2 P3 P4 P5 P6. split; cbn [threads queue resource].
  - intros j p' [[<- <-]|[? Hj]]%lookup_insert_Some; [done|]. rewrite Hq by done. by apply I1.
  - intros j p' ex [[<- <-]|[? Hj]]%lookup_insert_Some; [apply P4|]. rewrite Hr by done. by eapply I2.
  - intros j k Hjk. destruct (decide (j = i)) as [->|Hj], (decide (k = i)) as [->|Hk]; [done|..].
    + intros Hi. rewrite Hq by done. destruct P3 as [H'|[_ H']]; [congruence|]. by apply H'.
    + rewrite Hq by done. intros Hj'. destruct P3 as [H'|[_ H']]; [done|].
      specialize (H' j Hj). cbn in H'. congruence.
    + rewrite !Hq by done. by apply I3.
  - intros j. destruct (decide (j = i)) as [->|Hj]; [|by rewrite Hq].
    destruct P3 as [H'|[H' _]]; by rewrite H'.
  - intros j k Hjk. destruct (decide (j = i)) as [->|Hj], (decide (k = i)) as [->|Hk]; [done|..].
    + intros Hi. rewrite Hr by done. destruct P6 as [H'|(ex & Hex & H')]; [congruence|].
      rewrite Hi in Hex. injection Hex as <-. by apply H'.
    + rewrite Hr by done. intros Hj'. destruct P6 as [H'|(ex & _ & H')]; [done|].
      specialize (H' j Hj). destruct ex; congruence.
    + rewrite !Hr by done. by apply I5.
  - intros j p' [[<- <-]|[? Hj]]%lookup_insert_Some; [done|]. rewrite Hq by done. by apply I6.
  - intros j p' [[<- <-]|[? Hj]]%lookup_insert_Some; [done|]. rewrite Hr by done. by apply I7.
  - intros j [Hne Hj]%lookup_insert_None. rewrite Hq, Hr by done. by apply I8.
Qed.
(** What is held stays compatible. *)
Lemma inv_held_queue c i : inv c → holds (queue c) i = None ∨
  holds (queue c) i = Some true ∧ compatible (queue c) i true.
Proof using.
  intros [_ _ I3 I4 _ _ _ _]. destruct (holds (queue c) i) as [[]|] eqn:Hi; [right|by destruct (I4 i)|by left].
  split; [done|]. intros j Hj. by apply (I3 i).
Qed.
Lemma inv_held_resource c i : inv c → holds (resource c) i = None ∨
  ∃ ex, holds (resource c) i = Some ex ∧ compatible (resource c) i ex.
Proof using.
  intros [_ _ _ _ I5 _ _ _]. destruct (holds (resource c) i) as [ex|] eqn:Hi; [right|by left].
  exists ex. split; [done|]. intros j Hj. destruct ex; [by apply (I5 i)|].
  intros Hj'. apply (I5 j i) in Hj'; [congruence|done].
Qed.
Lemma inv_goto c i p p' :
  inv c → threads c !! i = Some p →
  (has_queue p' = true → has_queue p = true) → (may_queue p' = false → may_queue p = false) →
  (∀ ex, has_resource p' = Some ex → has_resource p = Some ex) →
  (match p' with End _ => False | _ => has_resource p' = None end →
   match p with End _ => False | _ => has_resource p = None end) →
  inv (goto c i p').
Proof using.
  intros Hi Hp H1 H2 H3 H4. pose proof Hi as [I1 I2 I3 I4 I5 I6 I7 I8]. apply inv_update; try done.
  - intros H. eapply I1; eauto.
  - intros H. eapply I6; eauto.
  - by apply inv_held_queue.
  - intros ex H. eapply I2; eauto.
  - intros H. apply (I7 i p Hp). by apply H4.
  - by apply inv_held_resource.
Qed.
Lemma inv_spawn c i p :
  inv c → threads c !! i = None → p = M_dir ∨ p = R_dir → inv (goto c i p).
Proof using.
  intros Hi Hn Hp. pose proof Hi as [I1 I2 I3 I4 I5 I6 I7 I8]. destruct (I8 i Hn) as [Hq Hr].
  apply inv_update; destruct Hp as [-> | ->]; done || by left.
Qed.

Lemma grant_next p f shared :
  ask p = Some (TryLock f shared) →
  (f = Queue ∧ shared = false ∧ (p = M_queue ∧ next p Done_ = M_resource ∨ p = R_queue ∧ next p Done_ = R_release)) ∨
  (f = Resource ∧ (p = M_resource ∧ shared = false ∧ next p Done_ = M_release ∨
                   p = R_resource ∧ shared = true ∧ next p Done_ = R_body)).
Proof using. destruct p; intros [= <- <-]; cbn; naive_solver. Qed.
Lemma step_inv c c' : inv c → step c c' → inv c'.
Proof using Flaws.
  intros Hi Hs. pose proof Hi as [I1 I2 I3 I4 I5 I6 I7 I8].
  destruct Hs as [i p Hn Hp|i p f shared x Hp Ha Ht|i p f shared a Hp Ha Hne|i p f Hp Ha|i p f e w Hp Ha|i p op a Hp Ha Hop|i p Hp].
  - by apply inv_spawn.
  - assert (∀ j, holds x j = if decide (j = i) then Some (negb shared) else holds (file_of c f) j) as Hx
      by (intros j; by apply take_holds).
    apply grant_next in Ha as [(-> & -> & Hpp)|(-> & Hpp)]; cbn [set_file goto file_of threads queue resource] in *.
    + assert (may_queue p = false ∧ match p with End _ => False | _ => has_resource p = None end ∧
        has_queue (next p Done_) = true ∧ has_resource (next p Done_) = None ∧ may_queue (next p Done_) = true)
        as (Hm & Hr & Hq' & Hr' & Hm') by (destruct Hpp as [[-> ->]|[-> ->]]; done).
      assert (holds (queue c) i = None) as Hq by eauto.
      apply inv_update; try done.
      * intros j Hj. rewrite Hx. by rewrite decide_False.
      * intros _. rewrite Hx. by rewrite decide_True.
      * congruence.
      * right. split; [rewrite Hx; by rewrite decide_True|]. apply take_iff; [done|]. by exists x.
      * congruence.
      * intros _. by apply (I7 i p Hp).
      * by apply inv_held_resource.
    + assert (match p with End _ => False | _ => has_resource p = None end ∧
        has_resource (next p Done_) = Some (negb shared) ∧
        (has_queue (next p Done_) = true → has_queue p = true) ∧
        (may_queue (next p Done_) = false → may_queue p = false) ∧
        match next p Done_ with End _ => False | _ => True end) as (Hr & Hr' & Hq' & Hm' & Hend)
        by (destruct Hpp as [(-> & -> & ->)|(-> & -> & ->)]; done).
      assert (holds (resource c) i = None) as Hq by by apply (I7 i p Hp).
      apply inv_update; try done.
      * intros j Hj. rewrite Hx. by rewrite decide_False.
      * intros H. eapply I1; eauto.
      * intros H. eapply I6; eauto.
      * by apply inv_held_queue.
      * intros ex. rewrite Hr'. intros [= <-]. rewrite Hx. by rewrite decide_True.
      * destruct (next p Done_); congruence || done.
      * right. exists (negb shared). split; [rewrite Hx; by rewrite decide_True|].
        apply take_iff; [done|]. by exists x.
  - eapply inv_goto; [done|done|..]; destruct p; simplify_eq/=;
      repeat (destruct a; simplify_eq/=); done.
  - assert (∀ g j, holds (drop g i) j = if decide (j = i) then None else holds g j) as Hx
      by (intros g j; apply drop_holds).
    destruct p; simplify_eq/=; cbn [set_file goto file_of threads queue resource]; apply inv_update.
    all: try done.
    all: try (intros j Hj; rewrite ?Hx, ?decide_False by done; done).
    all: try (intros _; eapply I1; by eauto).
    all: try (intros _; rewrite ?Hx, ?decide_True by done; done || (eapply I6; by eauto)).
    all: try (by left; rewrite Hx, decide_True).
    all: try by apply inv_held_queue.
    all: try by apply inv_held_resource.
    all: try (intros ex Hex; simplify_eq/=; eapply I2; by eauto).
    all: intros Hex; simplify_eq/=; try done; by eapply (I7 i _ Hp).
  - eapply inv_goto; [done|done|..]; destruct p; simplify_eq/=; done.
  - eapply inv_goto; [done|done|..]; destruct p, Hop as [-> | ->]; simplify_eq/=; try done;
      unfold dir_result; destruct (sys_err a); done.
  - assert (∀ g j, holds (drop g i) j = if decide (j = i) then None else holds g j) as Hx
      by (intros g j; apply drop_holds).
    split; cbn [threads queue resource].
    + intros j p' [? Hj]%lookup_delete_Some Hh. rewrite Hx, decide_False by done. eauto.
    + intros j p' ex [? Hj]%lookup_delete_Some Hh. rewrite Hx, decide_False by done. eauto.
    + intros j k Hjk. rewrite !Hx. repeat case_decide; try done. by apply I3.
    + intros j. rewrite Hx. case_decide; [done|]. apply I4.
    + intros j k Hjk. rewrite !Hx. repeat case_decide; try done. by apply I5.
    + intros j p' [? Hj]%lookup_delete_Some Hh. rewrite Hx, decide_False by done. eauto.
    + intros j p' [? Hj]%lookup_delete_Some Hh. rewrite Hx, decide_False by done. by eapply I7.
    + intros j Hj. rewrite !Hx. case_decide; [done|]. apply I8. rewrite lookup_delete_ne in Hj by done. done.
Qed.

Lemma start_inv : inv start.
Proof using Flaws.
  split; cbn [threads queue resource start]; intros *; rewrite ?lookup_empty; try done;
    rewrite ?no_holder_holds; done.
Qed.
Lemma reachable_inv c : reachable c → inv c.
Proof using Flaws.
  unfold reachable. intros H. assert (∀ c0, inv c0 → rtc step c0 c → inv c) as Hall.
  { intros c0 H0 Hr. induction Hr; [done|]. eauto using step_inv. }
  eapply Hall; [apply start_inv|done].
Qed.

(** ** Progress *)
(** Some command can go on: its call needs no lock, or its lock is granted. *)
Definition can_go (c : config) : Prop :=
  ∃ i p op, threads c !! i = Some p ∧ ask p = Some op ∧
    match op with TryLock f shared => is_Some (take (file_of c f) i (negb shared)) | _ => True end.
(** No finished command left a file locked: none of its unlocks failed. *)
Definition no_leak (c : config) : Prop :=
  ∀ i r, threads c !! i = Some (End r) → holds (queue c) i = None ∧ holds (resource c) i = None.
Lemma granted_or_held c f i p ex :
  inv c → threads c !! i = Some p → holds (file_of c f) i = None →
  is_Some (take (file_of c f) i ex) ∨
  ∃ j q b, j ≠ i ∧ threads c !! j = Some q ∧ holds (file_of c f) j = Some b.
Proof using Flaws.
  intros Hi Hp Hn. pose proof Hi as [_ _ _ _ _ _ _ I8].
  destruct (decide (map_Forall (λ (j : nat) (_ : pc), j ≠ i → holds (file_of c f) j = None) (threads c)))
    as [Hall|Hall].
  - left. apply take_iff; [done|]. intros j Hj.
    assert (holds (file_of c f) j = None) as ->; [|by destruct ex].
    destruct (threads c !! j) as [q|] eqn:Hq; [by apply (Hall j q Hq)|].
    destruct (I8 j Hq). by destruct f.
  - right. apply map_not_Forall in Hall; [|intros; apply _]. destruct Hall as (j & q & Hq & Hne).
    destruct (decide (j = i)) as [->|Hj]; [by destruct Hne|].
    destruct (holds (file_of c f) j) as [b|] eqn:Hh; [by exists j, q, b|].
    exfalso. by apply Hne.
Qed.
Lemma resource_progress c i p shared :
  inv c → no_leak c → threads c !! i = Some p → ask p = Some (TryLock Resource shared) → can_go c.
Proof using Flaws.
  intros Hi Hl Hp Ha. pose proof Hi as [_ _ _ _ _ _ I7 _].
  assert (match p with End _ => False | _ => has_resource p = None end) as Hr by (destruct p; simplify_eq/=; done).
  destruct (granted_or_held c Resource i p (negb shared) Hi Hp) as [Ht|(j & q & b & Hj & Hq & Hb)].
  - by apply (I7 i p Hp).
  - by exists i, p, (TryLock Resource shared).
  - cbn [file_of] in Hb. destruct q; try (specialize (I7 j _ Hq eq_refl); congruence);
      try (by eexists j, _, _; split; [exact Hq|]).
    destruct (Hl j _ Hq). congruence.
Qed.
Lemma lock_progress c : inv c → no_leak c → (∃ i p, threads c !! i = Some p ∧ ask p ≠ None) → can_go c.
Proof using Flaws.
  intros Hi Hl (i & p & Hp & Ha). pose proof Hi as [_ _ _ _ _ I6 _ _].
  destruct (ask p) as [[|[] shared| |]|] eqn:Hask; try done;
    try (by exists i, p; eexists; split; [done|]; rewrite Hask).
  - assert (may_queue p = false) as Hm by (destruct p; simplify_eq/=; done).
    destruct (granted_or_held c Queue i p (negb shared) Hi Hp) as [Ht|(j & q & b & Hj & Hq & Hb)].
    + by apply (I6 i p Hp).
    + by exists i, p, (TryLock Queue shared).
    + cbn [file_of] in Hb. destruct q; try (specialize (I6 j _ Hq eq_refl); congruence);
        try (by eexists j, _, _; split; [exact Hq|]).
      * by eapply resource_progress.
      * destruct (Hl j _ Hq). congruence.
  - by eapply resource_progress.
Qed.

(** ** Priority *)
(** Not past the turnstile: not started, waiting for it, or done. *)
Definition before_turnstile (o : option pc) : Prop :=
  match o with
  | None | Some (M_dir | M_queue | R_dir | R_queue | End _) => True
  | _ => False
  end.
(** A step during which [i] goes on waiting for the resource, the turnstile held. *)
Definition step_while (i : nat) (c c' : config) : Prop :=
  threads c !! i = Some M_resource ∧ step c c' ∧ threads c' !! i = Some M_resource.
Lemma turnstile_closed c c' i j :
  inv c → step_while i c c' → before_turnstile (threads c !! j) → before_turnstile (threads c' !! j).
Proof using Flaws.
  intros Hi (Hw & Hs & _) Hb. pose proof Hi as [I1 _ _ _ _ I6 _ _].
  assert (holds (queue c) i = Some true) as Hq by by apply (I1 i _ Hw).
  destruct Hs as [k p Hn Hp|k p f shared x Hp Ha Ht|k p f shared a Hp Ha Hne|k p f Hp Ha|k p f e w Hp Ha|k p op a Hp Ha Hop|k p Hp];
    cbn [threads goto].
  all: destruct (decide (k = j)) as [->|Hkj];
    [|destruct f || idtac; cbn [set_file threads goto]; rewrite ?lookup_insert_ne, ?lookup_delete_ne by done; done].
  - rewrite lookup_insert_eq. by destruct Hp as [-> | ->].
  - exfalso. destruct (decide (j = i)) as [->|Hj]; [by rewrite Hw in Hb|].
    rewrite Hp in Hb. destruct p; simplify_eq/=.
    all: assert (compatible (queue c) j true) as Hc
      by (apply take_iff; [by apply (I6 j _ Hp)|by exists x]).
    all: specialize (Hc i ltac:(congruence)); cbn in Hc; congruence.
  - rewrite lookup_insert_eq. rewrite Hp in Hb. destruct p; simplify_eq/=; repeat (destruct a; simplify_eq/=); done.
  - rewrite Hp in Hb. destruct p; simplify_eq/=; done.
  - rewrite Hp in Hb. destruct p; simplify_eq/=; done.
  - rewrite lookup_insert_eq. rewrite Hp in Hb. destruct p, Hop as [-> | ->]; simplify_eq/=; try done;
      unfold dir_result; destruct (sys_err a); done.
  - by rewrite lookup_delete_eq.
Qed.

(** C39. The lock of one object, any number of commands at once, each taking, working
    under and releasing it as [Mutation] and [Read] do, any wait given up, any unlock
    failing, any process dying. A mutation at work is alone: no other mutation and no
    read is at work with it. And nothing is lost: while some command has not finished
    and no finished one left a file locked, some command can go on. *)
Theorem Lock_exclusive c :
  reachable c →
  (∀ i p, threads c !! i = Some p → has_resource p = Some true →
    ∀ j q, threads c !! j = Some q → j ≠ i → has_resource q = None) ∧
  (no_leak c → (∃ i p, threads c !! i = Some p ∧ ask p ≠ None) → can_go c).
Proof using Flaws.
  intros Hc%reachable_inv. split; [|by apply lock_progress].
  destruct Hc as [_ I2 _ _ I5 _ _ _]. intros i p Hp Hr j q Hq Hne.
  destruct (has_resource q) as [b|] eqn:Hb; [|done].
  eapply I2 in Hr; [|done]. eapply I2 in Hb; [|done]. eapply I5 in Hr; [|by apply not_eq_sym]. congruence.
Qed.

(** C40. A mutation has priority from the moment it holds the turnstile: as long as it
    waits there for the resource, a command that was not past the turnstile when the
    wait began, or starts during it, does not get past it, so none of them is granted
    the object ahead of the mutation. *)
Theorem Lock_writer_priority c c' i j :
  reachable c → rtc (step_while i) c c' →
  before_turnstile (threads c !! j) → before_turnstile (threads c' !! j).
Proof using Flaws.
  intros Hc%reachable_inv Hr. induction Hr as [|c c1 c' Hs Hr IH]; [done|]. intros Hb.
  apply IH; [by destruct Hs as (_ & Hs & _); eapply step_inv|]. by eapply turnstile_closed.
Qed.
End kernel.

(** * A lock table *)
(** Who holds the file, and how. *)
#[export] Instance table : Flock (gmap nat bool) := {
  no_holder := ∅;
  holds f i := f !! i;
  take f i excl :=
    if decide (map_Forall (λ j b, j ≠ i → excl = false ∧ b = false) f) then Some (<[i := excl]> f) else None;
  drop f i := delete i f
}.
#[export] Instance table_laws : FlockLaws (gmap nat bool).
Proof.
  split; cbn.
  - intros. apply lookup_empty.
  - intros f i excl Hn. unfold compatible; cbn. case_decide as Hd.
    + split; [|by eexists]. intros _ j Hj. destruct (f !! j) as [b|] eqn:Hb; [|by destruct excl].
      destruct (Hd j b Hb Hj) as [-> ->]. done.
    + split; [by intros [? ?]|]. intros Hc. destruct Hd. intros j b Hb Hj. specialize (Hc j Hj).
      rewrite Hb in Hc. destruct excl, b; done.
  - intros f i excl f' j. case_decide; [|done]. intros [= <-]. case_decide as Hj; [subst; by rewrite lookup_insert_eq|].
    by rewrite lookup_insert_ne.
  - intros f i j. case_decide; [subst; by rewrite lookup_delete_eq|by rewrite lookup_delete_ne].
Qed.

Definition vm9 : ObjectKey := {| TargetID := "lab"; Kind := "vm"; ID := "9" |}.
Abbreviation vm9_step := (step (F := gmap nat bool) "/r" vm9 "15m0s").
Abbreviation vm9_reachable := (reachable (F := gmap nat bool) "/r" vm9 "15m0s").
Ltac spawn i p := eapply rtc_l; [apply (step_spawn _ _ _ _ i p); [reflexivity|first [by left|by right]]|].
Ltac grant i := eapply rtc_l; [eapply (step_grant _ _ _ _ i); [reflexivity|reflexivity|vm_compute; reflexivity]|].
Ltac unlock i := eapply rtc_l; [eapply (step_unlock _ _ _ _ i); reflexivity|].
Ltac other i := eapply rtc_l; [eapply (step_other _ _ _ _ i _ _ Done_); [reflexivity|reflexivity|first [by left|by right]]|].

(** A mutation at work, a read queued for the object. *)
Lemma at_work : ∃ c, vm9_reachable c ∧ threads c !! 0 = Some M_body ∧ threads c !! 1 = Some R_resource.
Proof.
  eexists. split.
  - unfold reachable. spawn 0 M_dir. other 0. spawn 1 R_dir. other 1. grant 0. grant 0. unlock 0.
    grant 1. unlock 1. apply rtc_refl.
  - by vm_compute.
Defined.
Lemma Lock_exclusive_witness :
  ∃ c : config (F := gmap nat bool), threads c !! 0 = Some M_body ∧ threads c !! 1 = Some R_resource ∧
    (∀ j q, threads c !! j = Some q → j ≠ 0 → has_resource q = None).
Proof.
  destruct at_work as (c & Hc & H0 & H1). exists c. split; [done|]. split; [done|].
  apply (proj1 (Lock_exclusive "/r" vm9 "15m0s" c Hc) 0 M_body); [done|reflexivity].
Defined.

(** A read at work, a mutation that waits for it, and a read that comes meanwhile. *)
Lemma waiting : ∃ c c' : config (F := gmap nat bool), vm9_reachable c ∧ rtc (step_while "/r" vm9 "15m0s" 1) c c' ∧
  threads c !! 2 = None ∧ threads c' !! 2 = Some R_queue ∧ threads c' !! 0 = Some R_unlock.
Proof.
  do 2 eexists. split.
  - unfold reachable. spawn 0 R_dir. other 0. grant 0. unlock 0. grant 0.
    spawn 1 M_dir. other 1. grant 1. apply rtc_refl.
  - split.
    + eapply rtc_l; [split; [reflexivity|split; [apply (step_spawn _ _ _ _ 2 R_dir); [reflexivity|by right]|reflexivity]]|].
      eapply rtc_l; [split; [reflexivity|split; [eapply (step_other _ _ _ _ 2 _ _ Done_); [reflexivity|reflexivity|by left]|reflexivity]]|].
      eapply rtc_l; [split; [reflexivity|split; [eapply (step_other _ _ _ _ 0 _ _ Done_); [reflexivity|reflexivity|by right]|reflexivity]]|].
      apply rtc_refl.
    + by vm_compute.
Qed.
Lemma Lock_writer_priority_witness :
  ∃ c c' : config (F := gmap nat bool), vm9_reachable c ∧ rtc (step_while "/r" vm9 "15m0s" 1) c c' ∧ threads c !! 2 = None ∧
    threads c' !! 2 = Some R_queue ∧ before_turnstile (threads c' !! 2).
Proof.
  destruct waiting as (c & c' & Hc & Hr & H2 & H2' & _). exists c, c'. repeat (split; [done|]).
  apply (Lock_writer_priority "/r" vm9 "15m0s" c c' 1 2); [done|done|]. by rewrite H2.
Defined.

(** A mutation that waits for the turnstile has no priority yet: the mutation 1 asks for
    the lock, the read 2 comes later, and is at work while 1 still waits. *)
Lemma overtaken : ∃ c c' : config (F := gmap nat bool), vm9_reachable c ∧ rtc vm9_step c c' ∧
  threads c !! 1 = Some M_queue ∧ threads c !! 2 = None ∧
  threads c' !! 1 = Some M_queue ∧ threads c' !! 2 = Some R_body.
Proof.
  do 2 eexists. split; [|split].
  - unfold reachable. spawn 0 M_dir. other 0. grant 0. spawn 1 M_dir. other 1. apply rtc_refl.
  - spawn 2 R_dir. other 2. grant 0. unlock 0. grant 2. unlock 2. other 0. unlock 0. grant 2. apply rtc_refl.
  - by vm_compute.
Qed.

(** Two objects with one pair of lock files. *)
Lemma one_file : ∃ k k', k ≠ k' ∧ ∀ r f, filesFor r k f = filesFor r k' f.
Proof.
  exists {| TargetID := "lab"; Kind := "vm-tag"; ID := "a+b" |},
    {| TargetID := "lab"; Kind := "vm-tag"; ID := "a_b" |}.
  split; [done|]. intros r f. unfold filesFor. do 2 f_equal.
Qed.
