(* ===== verification/GuestAgent.v ===== *)
(** internal/pve/vmguest.go and rollbackwitness.go: commands run in a guest through the
    QEMU guest agent, and the proof that a rolled-back guest runs. *)
From Stdlib Require Import Ascii.
From S2P Require Import Prelude GoLib Errors Json Rest OpRun Client Remote.

(** The contexts of the code: the caller's, the one the witness's deadline bounds as well,
    and the one bounded [witnessWaitGrace] later. [ACtxErr] is [ctx.Err()], [ASelect] the
    select of a wait on [ctx], [ARemaining] what [time.Until(deadline)] answers (in
    nanoseconds), [APause] the select between the caller's context, whose error it answers,
    and a timer of that many nanoseconds. *)
Inductive context := Caller | Bounded | Grace.
Inductive agentE : Type → Type :=
| APve {R} (e : pveE R) : agentE R
| ACtxErr (c : context) : agentE (option err)
| ASelect (c : context) : agentE wake
| ARemaining : agentE Z
| APause (ns : Z) : agentE (option err).

(** ** Dispatch *)
Definition agent_path (node : string) (vmid : Z) (call : string) : string :=
  "/nodes/" +:+ path_escape node +:+ "/qemu/" +:+ itoa vmid +:+ "/agent/" +:+ call.
Definition exec_form (command : list string) (inputData : string) : Values :=
  vset (<["command" := command]> ∅) "input-data" inputData.
Fixpoint empty_arg (i : Z) (command : list string) : option Z :=
  match command with
  | [] => None
  | a :: command' => if eqb a "" then Some i else empty_arg (i + 1) command'
  end.
Definition unexpected (what : string) (raw : json) (why : string) : err :=
  errorf ("decode " +:+ what +:+ ": unexpected response " +:+ compact raw +:+ ": " +:+ why).
Definition unmarshal_err (what : string) (raw : json) : err :=
  wrapf ("decode " +:+ what +:+ ": unexpected response " +:+ compact raw) (errorf "json: cannot unmarshal").
Definition decodeAgentExecPID (raw : json) : res Z :=
  match raw with
  | JNull => Er (unexpected "exec pid" raw "expected an object with a pid, got null")
  | JObj l =>
      match struct_get "pid" to_int_ptr None l with
      | None => Er (unmarshal_err "exec pid" raw)
      | Some None => Er (unexpected "exec pid" raw "no pid field")
      | Some (Some pid) => Ok pid
      end
  | _ => Er (unmarshal_err "exec pid" raw)
  end.
Definition AgentExec (node : string) (vmid : Z) (command : list string) (inputData : string) : io pveE (res Z) :=
  let what := "agent exec on vm " +:+ itoa vmid in
  guard negb (eqb node "") orelse errorf (what +:+ ": node is required") in
  guard negb (bool_decide (command = [])) orelse errorf (what +:+ ": command is required") in
  match empty_arg 0 command with
  | Some i => Ret (Er (errorf (what +:+ ": command element " +:+ itoa i +:+ " is empty")))
  | None =>
      let? raw := RawRequest "POST" (agent_path node vmid "exec") (exec_form command inputData) orelse wrapf what in
      Ret match decodeAgentExecPID raw with Ok pid => Ok pid | Er e => Er (wrapf what e) end
  end.

(** ** Status *)
Record AgentExecStatus_ :=
  { Exited : Z; ExitCode_ : Z; ExitCodeSet : bool; OutData : string; OutTruncated : bool;
    ErrData : string; ErrTruncated : bool; Signal : option Z; Raw : json }.
Definition Succeeded (s : AgentExecStatus_) : bool :=
  negb (Exited s =? 0)%Z && negb (is_some (Signal s)) && (ExitCodeSet s && (ExitCode_ s =? 0)%Z).

(** ** Durations, in nanoseconds *)
(** [Duration.String]; [frac] is a fraction of [prec] digits, its trailing zeros left out. *)
Fixpoint zeros (n : nat) : string := match n with 0 => "" | S n' => String "0"%char (zeros n') end.
Definition frac (prec : nat) (z : Z) : string :=
  let s := itoa z in
  let digits := srev (drop_while (is_byte 48) (srev (zeros (prec - slen s) +:+ s))) in
  if eqb digits "" then "" else "." +:+ digits.
Definition duration_text (u : Z) : string :=
  if (u <? 1000)%Z then itoa u +:+ "ns"
  else if (u <? 1000000)%Z then itoa (u / 1000)%Z +:+ frac 3 (u mod 1000)%Z +:+ chr 194 +:+ chr 181 +:+ "s"
  else if (u <? 1000000000)%Z then itoa (u / 1000000)%Z +:+ frac 6 (u mod 1000000)%Z +:+ "ms"
  else
    let s := (u / 1000000000)%Z in
    let sec := itoa (s mod 60)%Z +:+ frac 9 (u mod 1000000000)%Z +:+ "s" in
    if (s <? 60)%Z then sec
    else
      let min := itoa (s / 60 mod 60)%Z +:+ "m" +:+ sec in
      if (s <? 3600)%Z then min else itoa (s / 3600)%Z +:+ "h" +:+ min.
Definition duration_String (ns : Z) : string :=
  if (ns =? 0)%Z then "0s" else (if (ns <? 0)%Z then "-" else "") +:+ duration_text (Z.abs ns).
Definition millisecond : Z := 1000000.
Definition defaultAgentExecPollInterval : Z := 500 * millisecond.
Definition defaultAgentExecTimeout : Z := 120 * 1000 * millisecond.

Section agent.
(** [proxmox.IntOrBool]'s decoding. *)
Context (IntOrBool : json → option bool).
Definition to_flag (b : bool) (j : json) : option bool := IntOrBool j.
Definition decodeAgentExecStatus (raw : json) : res AgentExecStatus_ :=
  match raw with
  | JNull => Er (unexpected "exec status" raw "expected an exec-status object, got null")
  | JObj l =>
      match struct_get "exited" to_int 0%Z l, struct_get "exitcode" to_int_ptr None l,
            struct_get "out-data" to_string "" l, struct_get "out-truncated" to_flag false l,
            struct_get "err-data" to_string "" l, struct_get "err-truncated" to_flag false l,
            struct_get "signal" to_int_ptr None l with
      | Some ex, Some code, Some out, Some ot, Some er, Some et, Some sg =>
          Ok {| Exited := ex; ExitCode_ := default 0%Z code; ExitCodeSet := is_some code; OutData := out;
                OutTruncated := ot; ErrData := er; ErrTruncated := et; Signal := sg; Raw := raw |}
      | _, _, _, _, _, _, _ => Er (unmarshal_err "exec status" raw)
      end
  | _ => Er (unmarshal_err "exec status" raw)
  end.
Definition AgentExecStatus (node : string) (vmid pid : Z) : io pveE (res AgentExecStatus_) :=
  let what := "agent exec status on vm " +:+ itoa vmid in
  guard negb (eqb node "") orelse errorf (what +:+ ": node is required") in
  let wrap := wrapf (what +:+ " pid " +:+ itoa pid) in
  let? raw := RawRequest "GET" (agent_path node vmid "exec-status") (vset ∅ "pid" (itoa pid)) orelse wrap in
  Ret match decodeAgentExecStatus raw with Ok s => Ok s | Er e => Er (wrap e) end.

(** ** The wait *)
Definition wait_what (vmid pid : Z) : string := "wait for agent exec on vm " +:+ itoa vmid +:+ " pid " +:+ itoa pid.
Definition AgentExecTimeoutError (vmid pid timeout : Z) (polls : nat) (lastErr : option err) : err :=
  let start := wait_what vmid pid +:+ ": " +:+ sentinel_text ErrAgentExecTimeout +:+ " after " +:+ duration_String timeout
    +:+ " (" +:+ itoa (Z.of_nat polls) +:+ " polls); " in
  match lastErr with
  | Some e => Err (KAgentExecTimeout polls) (start +:+ "last poll error: " +:+ Error e) [sent ErrAgentExecTimeout; e]
  | None => Err (KAgentExecTimeout polls) (start +:+ "every poll succeeded and the command had not exited")
              [sent ErrAgentExecTimeout]
  end.
Definition IsAgentExecTimeoutError (e : err) : bool := errors_Is ErrAgentExecTimeout e.

(** The loop under the context [c]; its fuel bounds the polls. *)
Fixpoint wait_exec (fuel : nat) (c : context) (node : string) (vmid pid timeout : Z) (polls : nat)
    : io agentE (res AgentExecStatus_) :=
  match fuel with
  | 0 => Stuck
  | S fuel' =>
      let! polled := lift (@APve) (AgentExecStatus node vmid pid) in
      let polls := S polls in
      let stopped e := Ret (Er (wrapf (wait_what vmid pid) e)) in
      let wait_on lastErr :=
        let! w := trigger (ASelect c) in
        match w with
        | WDone e => stopped e
        | WDeadline => Ret (Er (AgentExecTimeoutError vmid pid timeout polls lastErr))
        | WTick => wait_exec fuel' c node vmid pid timeout polls
        end in
      match polled with
      | Ok s => if negb (Exited s =? 0)%Z then Ret (Ok s) else wait_on None
      | Er e =>
          let! ended := trigger (ACtxErr c) in
          match ended with Some x => stopped x | None => wait_on (Some e) end
      end
  end.
(** A tick comes no sooner than [pollInterval] after the last, and none is taken after the
    deadline. (Go's select picks at random among the wakes that are ready: a tick due when the
    deadline passes may still be taken, for a poll more than this.) *)
Definition exec_polls (pollInterval timeout : Z) : nat := S (Z.to_nat (timeout / pollInterval)%Z).
Definition WaitForAgentExec (c : context) (node : string) (vmid pid pollInterval timeout : Z)
    : io agentE (res AgentExecStatus_) :=
  guard negb (eqb node "") orelse errorf ("wait for agent exec on vm " +:+ itoa vmid +:+ ": node is required") in
  let pollInterval := if (pollInterval <=? 0)%Z then defaultAgentExecPollInterval else pollInterval in
  let timeout := if (timeout <=? 0)%Z then defaultAgentExecTimeout else timeout in
  wait_exec (exec_polls pollInterval timeout) c node vmid pid timeout 0.

(** ** rollbackwitness.go *)
Definition WitnessNeverResponded : string := "the guest agent never responded".
Definition WitnessCommandFailed : string := "the witness command ran and did not succeed".
Definition WitnessMarkerMissing : string := "the witness command's output lacks the expected marker".
Definition WitnessOutputTruncated : string :=
  "the witness command's output was truncated before the marker could be checked".
Definition exit_text (s : AgentExecStatus_) : string :=
  match Signal s with
  | Some n => " (killed by signal " +:+ itoa n +:+ ")"
  | None => if ExitCodeSet s then " (exit code " +:+ itoa (ExitCode_ s) +:+ ")" else " (it exited with no exit code)"
  end.
(** [RollbackWitnessError]: [says] is what its text adds to the reason. *)
Definition RollbackWitnessError (vmid : Z) (reason says : string) (last : option err) : err :=
  let msg := "rollback witness on vm " +:+ itoa vmid +:+ ": " +:+ sentinel_text ErrRollbackNotWitnessed +:+ ": "
    +:+ reason +:+ says in
  match last with
  | Some e => Err (KRollbackWitness reason) (msg +:+ ": " +:+ Error e) [sent ErrRollbackNotWitnessed; e]
  | None => Err (KRollbackWitness reason) msg [sent ErrRollbackNotWitnessed]
  end.
Definition IsRollbackNotWitnessed (e : err) : bool := errors_Is ErrRollbackNotWitnessed e.

Section witness.
Context (node : string) (vmid : Z) (command : list string).
Definition witness_stopped (e : err) : err := wrapf ("rollback witness on vm " +:+ itoa vmid) e.
Definition neverResponded (dispatches : nat) (last : err) : err :=
  RollbackWitnessError vmid WitnessNeverResponded
    (" after " +:+ itoa (Z.of_nat dispatches) +:+ " dispatch attempt(s)") (Some last).
(** The dispatches: the pid, and how many there were. *)
Fixpoint dispatch (fuel : nat) (dispatches : nat) (lastRefusal : option err) : io agentE (res (Z * nat)) :=
  match fuel with
  | 0 => Stuck
  | S fuel' =>
      let! r := lift (@APve) (AgentExec node vmid command "") in
      let dispatches := S dispatches in
      match r with
      | Ok pid => Ret (Ok (pid, dispatches))
      | Er e =>
          let! stop := trigger (ACtxErr Caller) in
          match stop with
          | Some x => Ret (Er (witness_stopped x))
          | None =>
              let! ended := trigger (ACtxErr Bounded) in
              match ended with
              | Some _ => Ret (Er (neverResponded dispatches (default e lastRefusal)))
              | None =>
                  if match HTTPStatus e with Some code => (500 <=? code)%Z | None => false end then
                    let! remaining := trigger ARemaining in
                    if (remaining <=? 0)%Z then Ret (Er (neverResponded dispatches e))
                    else
                      let! stop := trigger (APause (Z.min defaultAgentExecPollInterval remaining)) in
                      match stop with
                      | Some x => Ret (Er (witness_stopped x))
                      | None => dispatch fuel' dispatches (Some e)
                      end
                  else Ret (Er e)
              end
          end
      end
  end.
(** What the status of a command that exited says: [None] is the proof. *)
Definition judge (wantOutput : string) (s : AgentExecStatus_) : option err :=
  if negb (Succeeded s) then Some (RollbackWitnessError vmid WitnessCommandFailed (exit_text s) None)
  else if negb (eqb wantOutput "") && negb (contains wantOutput (OutData s)) then
    Some (RollbackWitnessError vmid (if OutTruncated s then WitnessOutputTruncated else WitnessMarkerMissing) "" None)
  else None.
(** Every pause lasts [defaultAgentExecPollInterval], but the last before the deadline. *)
Definition max_dispatches (timeout : Z) : nat := S (S (Z.to_nat (timeout / defaultAgentExecPollInterval)%Z)).
(** The status, when there is one, and the error. *)
Definition RollbackWitness (wantOutput : string) (timeout : Z) : io agentE (option AgentExecStatus_ * option err) :=
  let timeout := if (timeout <=? 0)%Z then defaultAgentExecTimeout else timeout in
  let! d := dispatch (max_dispatches timeout) 0 None in
  match d with
  | Er e => Ret (None, Some e)
  | Ok (pid, dispatches) =>
      let! remaining := trigger ARemaining in
      let! r := WaitForAgentExec Grace node vmid pid 0 remaining in
      match r with
      | Ok s => Ret (Some s, judge wantOutput s)
      | Er e =>
          let! stop := trigger (ACtxErr Caller) in
          match stop with
          | Some x => Ret (None, Some (witness_stopped x))
          | None =>
              if IsAgentExecTimeoutError e then Ret (None, Some (neverResponded dispatches e))
              else
                let! ended := trigger (ACtxErr Grace) in
                Ret (None, Some (match ended with Some _ => neverResponded dispatches e | None => e end))
          end
      end
  end.
End witness.
End agent.

(** * Specification *)
(** The requests of a trace, and the caller's stops it saw. *)
Definition request (ev : event agentE) : option (event pveE) :=
  match ev with @Ev _ _ (APve e) r => Some (Ev e r) | _ => None end.
Definition requests (tr : list (event agentE)) : list (event pveE) := omap request tr.
Definition stop (ev : event agentE) : option err :=
  match ev with
  | @Ev _ _ (ACtxErr Caller) r => r
  | @Ev _ _ (APause _) r => r
  | _ => None
  end.
Definition stops (tr : list (event agentE)) : list err := omap stop tr.
(** The status an exchange answered; a transport error may carry one of its own. *)
Definition status_of (hr : http_res) : option Z :=
  match hr with
  | HBuild e | HTransport e | HReadErr e => HTTPStatus e
  | HResp code _ _ => Some code
  end.
Definition server_error (hr : http_res) : Prop := ∃ code, status_of hr = Some code ∧ (500 ≤ code)%Z.
(** Each was a server error, the last excepted. *)
Definition retried (hrs : list http_res) : Prop :=
  ∀ pre hr post, hrs = pre ++ hr :: post → post ≠ [] → server_error hr.
Definition exec_post (node : string) (vmid : Z) (command : list string) (input : string) (hr : http_res) : event pveE :=
  Ev (Http "POST" (agent_path node vmid "exec") (exec_form command input)) hr.
Definition exec_get (node : string) (vmid pid : Z) (hr : http_res) : event pveE :=
  Ev (Http "GET" (agent_path node vmid "exec-status") (vset ∅ "pid" (itoa pid))) hr.
(** The last of the answers decodes to [a]. *)
Definition last_says {A} (decode : json → res A) (hrs : list http_res) (a : A) : Prop :=
  ∃ hr raw, last hrs = Some hr ∧ answered hr raw ∧ decode raw = Ok a.

(** * Lemmas *)
Lemma requests_app tr tr' : requests (tr ++ tr') = requests tr ++ requests tr'.
Proof. apply omap_app. Qed.
Lemma stops_app tr tr' : stops (tr ++ tr') = stops tr ++ stops tr'.
Proof. apply omap_app. Qed.
Lemma requests_lift tr : requests (lift_event (@APve) <$> tr) = tr.
Proof. induction tr as [|[R e r] tr IH]; [done|]. cbn. by f_equal. Qed.
Lemma stops_lift tr : stops (lift_event (@APve) <$> tr) = [].
Proof. induction tr as [|[R e r] tr IH]; [done|]. exact IH. Qed.
#[export] Hint Rewrite requests_app stops_app requests_lift stops_lift : go.

Lemma HTTPStatus_wrapf pre e : HTTPStatus (wrapf pre e) = HTTPStatus e.
Proof. unfold HTTPStatus. by rewrite errors_As_wrapf. Qed.
Lemma unwrap_untyped body e : unwrapDataEnvelope body = Er e → HTTPStatus e = None.
Proof. unfold unwrapDataEnvelope. repeat case_match; try done; by intros [= <-]. Qed.
(** What one raw request made, and what its result says of the answer. *)
Definition raw_result {A} (req : http_res → event pveE) (decode : json → res A)
    (tr : list (event pveE)) (r : res A) : Prop :=
  match r with
  | Ok a => ∃ hr, tr = [req hr] ∧ last_says decode [hr] a
  | Er e => tr = [] ∧ HTTPStatus e = None ∨
            ∃ hr, tr = [req hr] ∧ ∀ c, HTTPStatus e = Some c → status_of hr = Some c
  end.
Lemma RawRequest_result m p v :
  always (RawRequest m p v) (raw_result (λ hr, Ev (Http m p v) hr) Ok).
Proof.
  unfold RawRequest. io_run. all: try (left; done). all: cbv zeta; cbn [always].
  1-4: right; eexists; (split; [done|]); cbn [status_of]; intros c; rewrite ?HTTPStatus_wrapf; try done.
  destruct (unwrapDataEnvelope body) as [j|e] eqn:Hu; cbn [raw_result].
  - eexists; split; [done|]. exists (HResp code status body), j. split_and!; [done| |done].
    do 3 eexists. split_and!; [done|lia..|done].
  - right. eexists; split; [done|]. rewrite HTTPStatus_wrapf, (unwrap_untyped _ _ Hu). done.
Qed.
(** A decoder's errors carry no status. *)
Definition untyped {A} (decode : json → res A) : Prop := ∀ j e, decode j = Er e → HTTPStatus e = None.
Lemma decoded_request {A} m p v (decode : json → res A) pre pre' :
  untyped decode →
  always (let? raw := RawRequest m p v orelse wrapf pre in
          Ret match decode raw with Ok a => Ok a | Er e => Er (wrapf pre' e) end)
    (raw_result (λ hr, Ev (Http m p v) hr) decode).
Proof.
  intros Hd. eapply always_call; [apply RawRequest_result|]. intros tr [j|e]; cbn [always].
  - intros (hr & -> & hr' & raw & [= <-] & Ha & [= ->]). destruct (decode j) as [a|e] eqn:Hj; cbn.
    + exists hr. split; [done|]. by exists hr, j.
    + right. exists hr. split; [done|]. by rewrite HTTPStatus_wrapf, (Hd _ _ Hj).
  - rewrite app_nil_r. unfold raw_result. by rewrite HTTPStatus_wrapf.
Qed.
Lemma decodeAgentExecPID_untyped : untyped decodeAgentExecPID.
Proof. intros [] e; cbn [decodeAgentExecPID]; repeat case_match; try done; by intros [= <-]. Qed.
Lemma decodeAgentExecStatus_untyped IntOrBool : untyped (decodeAgentExecStatus IntOrBool).
Proof. intros [] e; cbn [decodeAgentExecStatus]; repeat case_match; try done; by intros [= <-]. Qed.

Lemma AgentExec_result node vmid command input :
  always (AgentExec node vmid command input)
    (raw_result (exec_post node vmid command input) decodeAgentExecPID).
Proof.
  unfold AgentExec. cbv zeta. destruct (negb _); [|by left]. destruct (negb _); [|by left].
  destruct (empty_arg _ _); [by left|]. apply decoded_request, decodeAgentExecPID_untyped.
Qed.
Lemma AgentExecStatus_result IntOrBool node vmid pid :
  always (AgentExecStatus IntOrBool node vmid pid)
    (raw_result (exec_get node vmid pid) (decodeAgentExecStatus IntOrBool)).
Proof.
  unfold AgentExecStatus. cbv zeta. destruct (negb _); [|by left].
  apply decoded_request, decodeAgentExecStatus_untyped.
Qed.

Section wait.
Context (IntOrBool : json → option bool) (node : string) (vmid pid : Z).
(** A wait polls this process only and answers what its last poll said. *)
Definition waited (tr : list (event agentE)) (r : res AgentExecStatus_) : Prop :=
  stops tr = [] ∧ ∃ hrs, requests tr = exec_get node vmid pid <$> hrs ∧
  ∀ s, r = Ok s → Exited s ≠ 0%Z ∧ last_says (decodeAgentExecStatus IntOrBool) hrs s.
Lemma last_says_app {A} (decode : json → res A) hrs hrs' a :
  last_says decode hrs' a → last_says decode (hrs ++ hrs') a.
Proof. intros (hr & raw & Hl & ?). exists hr, raw. by rewrite last_app, Hl. Qed.
Lemma waited_app hrs tr tr' r :
  requests tr = exec_get node vmid pid <$> hrs → stops tr = [] → waited tr' r → waited (tr ++ tr') r.
Proof.
  intros Hr Hs (Hs' & hrs' & Hr' & Hok). split; [by rewrite stops_app, Hs|]. exists (hrs ++ hrs').
  split; [by rewrite requests_app, Hr, Hr', fmap_app|]. intros s Hrs.
  destruct (Hok s Hrs) as [? H]. split; [done|]. by apply last_says_app.
Qed.
Lemma wait_exec_spec fuel c timeout polls :
  c ≠ Caller → always (wait_exec IntOrBool fuel c node vmid pid timeout polls) waited.
Proof.
  intros Hc. revert polls. induction fuel as [|fuel IH]; intros polls; [done|]. cbn [wait_exec].
  assert (∀ evs, omap request evs = [] → omap stop evs = [] → ∀ e, waited evs (Er e)) as Hend.
  { intros evs Hr Hs e. split; [done|]. by exists []. }
  assert (∀ polls lastErr, always
    (let! w := trigger (ASelect c) in
     match w with
     | WDone e => Ret (Er (wrapf (wait_what vmid pid) e))
     | WDeadline => Ret (Er (AgentExecTimeoutError vmid pid timeout polls lastErr))
     | WTick => wait_exec IntOrBool fuel c node vmid pid timeout polls
     end) waited) as Hwait.
  { intros n lastErr. cbn [bind trigger always]. intros [e| |]; cbn [always].
    1,2: by apply Hend; by destruct c.
    eapply always_mono; [|apply IH]. intros tr r. by apply (waited_app [] [_]); destruct c. }
  eapply always_call; [apply lift_spec, AgentExecStatus_result|].
  intros tr [s|e] (tr0 & -> & Hres); [|].
  - destruct Hres as (hr & -> & Hsays). destruct (negb _) eqn:He; cbn [always].
    + split; [done|]. exists [hr]. split; [done|]. intros ? [= <-]. split; [lia|done].
    + eapply always_mono; [|apply Hwait]. intros tr r. by apply (waited_app [hr]).
  - assert (∃ hrs, tr0 = exec_get node vmid pid <$> hrs) as [hrs ->].
    { destruct Hres as [[-> _]|(hr & -> & _)]; [by exists []|by exists [hr]]. }
    apply always_bind. cbn [always trigger]. intros [x|].
    + cbn [always]. rewrite app_nil_r. apply (waited_app hrs); [apply requests_lift|apply stops_lift|].
      apply Hend; by destruct c.
    + eapply always_mono; [|apply Hwait]. intros tr r Hw.
      apply (waited_app hrs); [apply requests_lift|apply stops_lift|].
      apply (waited_app [] [_]); by destruct c.
Qed.
Lemma WaitForAgentExec_spec c pollInterval timeout :
  c ≠ Caller → always (WaitForAgentExec IntOrBool c node vmid pid pollInterval timeout) waited.
Proof.
  intros Hc. unfold WaitForAgentExec. destruct (negb _); [by apply wait_exec_spec|].
  split; [done|]. by exists [].
Qed.
End wait.

Section dispatches.
Context (node : string) (vmid : Z) (command : list string).
(** Dispatches ask to run this command only, again only after a server error, and the
    caller's stop ends them. *)
Definition dispatched (tr : list (event agentE)) (r : res (Z * nat)) : Prop :=
  (stops tr = [] ∨ ∃ x, stops tr = [x] ∧ r = Er (witness_stopped vmid x)) ∧
  ∃ hrs, requests tr = exec_post node vmid command "" <$> hrs ∧ retried hrs ∧
  ∀ p, r = Ok p → last_says decodeAgentExecPID hrs p.1.
Lemma retried_one hrs : length hrs ≤ 1 → retried hrs.
Proof. intros Hl pre hr [|hr' post] ->; [done|]. rewrite length_app in Hl. simpl in Hl. lia. Qed.
Lemma retried_cons hr hrs : server_error hr → retried hrs → retried (hr :: hrs).
Proof.
  intros He Hr [|hr' pre] x post Heq Hp; injection Heq as; subst; [done|]. by eapply Hr.
Qed.
(** The attempts that end the dispatches with an error. *)
Lemma dispatched_end tr tr' e :
  raw_result (exec_post node vmid command "") decodeAgentExecPID tr (Er e) →
  ∀ x, requests tr' = [] → stops tr' = [] ∨ (∃ y, stops tr' = [y] ∧ x = witness_stopped vmid y) →
  dispatched ((lift_event (@APve) <$> tr) ++ tr') (Er x).
Proof.
  intros Hres x Hr Hs. split.
  - rewrite stops_app, stops_lift. destruct Hs as [->|(y & -> & ->)]; [by left|right]. by exists y.
  - rewrite requests_app, requests_lift, Hr, app_nil_r.
    destruct Hres as [[-> _]|(hr & -> & _)]; [exists []|exists [hr]]; (split; [done|]);
      (split; [apply retried_one; simpl; lia|done]).
Qed.
Lemma dispatched_app hr tr tr' r :
  server_error hr → requests tr = [exec_post node vmid command "" hr] → stops tr = [] →
  dispatched tr' r → dispatched (tr ++ tr') r.
Proof.
  intros He Hr Hs (Hs' & hrs & Hr' & Hre & Hok). split; [by rewrite stops_app, Hs|].
  exists (hr :: hrs). split; [by rewrite requests_app, Hr, Hr'|]. split; [by apply retried_cons|].
  intros p Hp. apply (last_says_app _ [hr]). by apply Hok.
Qed.
Lemma dispatch_spec fuel n last :
  always (dispatch node vmid command fuel n last) dispatched.
Proof.
  revert n last. induction fuel as [|fuel IH]; intros n refusal; [done|]. cbn [dispatch].
  eapply always_call; [apply lift_spec, AgentExec_result|].
  intros tr r (tr0 & -> & Hres). cbv zeta. destruct r as [pid|e].
  { destruct Hres as (hr & -> & Hsays). cbn [always]. split; [by left|]. exists [hr].
    rewrite app_nil_r, requests_lift. split; [done|]. split; [by apply retried_one|]. by intros ? [= <-]. }
  apply always_bind. cbn [always trigger]. intros [x|]; cbn [always].
  { rewrite app_nil_r. apply (dispatched_end _ [_] e); [done|done|]. right. by exists x. }
  apply always_bind. cbn [always trigger]. intros [x|]; cbn [always].
  { rewrite app_nil_r. apply (dispatched_end _ [_; _] e); [done|done|]. by left. }
  destruct (match HTTPStatus e with Some _ => _ | None => _ end) eqn:Hcode.
  2: { cbn [always]. rewrite app_nil_r. apply (dispatched_end _ [_; _] e); [done|done|]. by left. }
  apply always_bind. cbn [always trigger]. intros remaining. destruct (remaining <=? 0)%Z; cbn [always].
  { rewrite app_nil_r. apply (dispatched_end _ [_; _; _] e); [done|done|]. by left. }
  apply always_bind. cbn [always trigger]. intros [x|]; cbn [always].
  { rewrite app_nil_r. apply (dispatched_end _ [_; _; _; _] e); [done|done|]. right. by exists x. }
  eapply always_mono; [|apply IH]. intros tr r Hd.
  destruct (HTTPStatus e) as [code|] eqn:Hc; [|done].
  destruct Hres as [[_ ?]|(hr & -> & Hst)]; [congruence|].
  rewrite !app_assoc. apply (dispatched_app hr); [|done|done|done].
  exists code. split; [by apply Hst|lia].
Qed.
End dispatches.

Lemma judge_spec vmid wantOutput s :
  Exited s ≠ 0%Z →
  match judge vmid wantOutput s with
  | None => Exited s ≠ 0%Z ∧ Signal s = None ∧ ExitCodeSet s = true ∧ ExitCode_ s = 0%Z ∧
            contains wantOutput (OutData s) = true
  | Some e => Exited s ≠ 0%Z ∧ judge vmid wantOutput s = Some e
  end.
Proof.
  intros He. unfold judge, Succeeded. destruct (negb _) eqn:Hs; [done|]. apply negb_false_iff in Hs.
  destruct (_ && negb (contains _ _)) eqn:Hw; [done|]. destruct (Signal s); [by rewrite andb_false_r in Hs|].
  assert (contains wantOutput (OutData s) = true).
  { destruct (eqb wantOutput "") eqn:Hq; [apply eqb_true in Hq as ->; by destruct (OutData s)|].
    by apply negb_false_iff in Hw. }
  split_and!; try done; rewrite !andb_true_iff in Hs; [tauto|lia].
Qed.

(** What a witness proves. Its requests are dispatches of the given command, each
    after the first only because PVE refused the one before with a server error, then
    polls of the process the last dispatch answered; nothing else is changed. It succeeds
    only when the last poll showed that very process exited, with the exit code zero, not
    killed by a signal, and its output holding the marker; any other observed exit is the
    failure [judge] names, beside the status. A stop of the caller's context ends it with that
    stop's error, whatever the request in flight answered. *)
Lemma RollbackWitness_spec IntOrBool node vmid command wantOutput timeout :
  always (RollbackWitness IntOrBool node vmid command wantOutput timeout) (λ tr r,
    (∃ posts pid gets,
      requests tr = (exec_post node vmid command "" <$> posts) ++ (exec_get node vmid pid <$> gets) ∧
      retried posts ∧ (gets ≠ [] → last_says decodeAgentExecPID posts pid) ∧
      ∀ s, r.1 = Some s → gets ≠ [] ∧ last_says (decodeAgentExecStatus IntOrBool) gets s) ∧
    (stops tr = [] ∨ ∃ x, stops tr = [x] ∧ r = (None, Some (witness_stopped vmid x))) ∧
    match r with
    | (Some s, None) => Exited s ≠ 0%Z ∧ Signal s = None ∧ ExitCodeSet s = true ∧ ExitCode_ s = 0%Z ∧
                        contains wantOutput (OutData s) = true
    | (Some s, Some e) => Exited s ≠ 0%Z ∧ judge vmid wantOutput s = Some e
    | (None, e) => e ≠ None
    end).
Proof.
  unfold RollbackWitness. cbv zeta. eapply always_call; [apply dispatch_spec|].
  intros tr [[pid n]|e] (Hs & posts & Hr & Hre & Hok).
  2: { cbn [always]. rewrite app_nil_r. split; [|split; [|done]].
       - exists posts, 0%Z, []. rewrite Hr, app_nil_r. done.
       - destruct Hs as [?|(x & Hx & [= ->])]; [by left|right]. by exists x. }
  destruct Hs as [Hs|(x & _ & [=])]. specialize (Hok _ eq_refl).
  apply always_bind. cbn [always trigger]. intros remaining.
  eapply always_call; [by apply WaitForAgentExec_spec|].
  intros tr' [s|e] (Hs' & gets & Hr' & Hgets).
  all: assert (∀ l, requests l = [] → requests (tr ++ [Ev ARemaining remaining] ++ tr' ++ l) =
      (exec_post node vmid command "" <$> posts) ++ (exec_get node vmid pid <$> gets)) as Hreq.
  1,3: intros l Hl; rewrite !requests_app, Hr, Hr', Hl, app_nil_r; done.
  all: assert (∀ l, stops (tr ++ [Ev ARemaining remaining] ++ tr' ++ l) = stops l) as Hst.
  1,3: intros l; by rewrite !stops_app, Hs, Hs'.
  - destruct (Hgets _ eq_refl) as [He Hsays]. cbn [always fst].
    split; [|split; [left; apply (Hst [])|by apply judge_spec]].
    exists posts, pid, gets. split_and!; [by apply (Hreq [])|done|done|].
    intros ? [= <-]. split; [|done]. intros ->. by destruct Hsays as (? & ? & [=] & _).
  - assert (∀ l, requests l = [] → ∃ posts pid gets,
      requests (tr ++ [Ev ARemaining remaining] ++ tr' ++ l) =
        (exec_post node vmid command "" <$> posts) ++ (exec_get node vmid pid <$> gets) ∧
      retried posts ∧ (gets ≠ [] → last_says decodeAgentExecPID posts pid) ∧
      ∀ s, None = Some s → gets ≠ [] ∧ last_says (decodeAgentExecStatus IntOrBool) gets s) as Hsent.
    { intros l Hl. exists posts, pid, gets. by rewrite Hreq. }
    apply always_bind. cbn [always trigger]. intros [x|].
    { cbn [always]. rewrite app_nil_r. split; [by apply Hsent|]. rewrite Hst. split; [right; by exists x|done]. }
    destruct (IsAgentExecTimeoutError e); cbn [always].
    + rewrite app_nil_r. split; [by apply Hsent|]. rewrite Hst. split; [by left|done].
    + intros x. cbn [always]. split; [by apply Hsent|]. rewrite Hst. split; [by left|done].
Qed.

(** ** Termination *)
Lemma AgentExec_total node vmid command input : total (AgentExec node vmid command input).
Proof.
  unfold AgentExec. cbv zeta. repeat (case_match; try done).
  apply total_bind; [apply RawRequest_total|]. by intros [].
Qed.
Lemma AgentExecStatus_total IntOrBool node vmid pid : total (AgentExecStatus IntOrBool node vmid pid).
Proof.
  unfold AgentExecStatus. cbv zeta. case_match; [|done].
  apply total_bind; [apply RawRequest_total|]. by intros [].
Qed.

Section clock.
Context {S : Type} (h : env agentE S) (now : S → Z) (ticks : S → nat) (deadline : Z).
(** Time passes, a pause lasts as long as it was set to, and a tick uses up one of those
    the ticker has before the deadline. *)
Record clock : Prop := {
  clock_now : ∀ R (e : agentE R) s, (now s ≤ now (h R e s).2)%Z;
  clock_remaining : ∀ s, (h _ ARemaining s).1 = (deadline - now s)%Z;
  clock_pause : ∀ ns s, (h _ (APause ns) s).1 = None → (now s + ns ≤ now (h _ (APause ns) s).2)%Z;
  clock_ticks : ∀ R (e : agentE R) s, ticks (h R e s).2 ≤ ticks s;
  clock_tick : ∀ c s, (h _ (ASelect c) s).1 = WTick → ticks (h _ (ASelect c) s).2 < ticks s;
  clock_ticker : ∀ s, ticks (h _ ARemaining s).2 ≤ Z.to_nat ((deadline - now s) / defaultAgentExecPollInterval)
}.
Hypothesis Hclock : clock.
Lemma now_run {A} (m : io agentE A) s tr a s' : run h m s = Some (tr, a, s') → (now s ≤ now s')%Z.
Proof using Hclock.
  revert s tr. induction m as [a'|R e k IH|]; intros s tr Hr; simpl in *; [by simplify_eq| |done].
  pose proof (clock_now Hclock R e s). destruct (h _ e s) as [r s1]. simpl in *.
  destruct (run h (k r) s1) as [[[tr1 a1] s2]|] eqn:Hk; simplify_eq. etrans; [done|]. by eapply IH.
Qed.
(** Running a lifted call that returns. *)
Lemma run_call {A B} (m : io pveE A) (f : A → io agentE B) s :
  total m → (∀ a s', (now s ≤ now s')%Z → ticks s' ≤ ticks s → is_Some (run h (f a) s')) →
  is_Some (run h (bind (lift (@APve) m) f) s).
Proof using Hclock.
  intros Hm Hf. rewrite run_bind.
  destruct (total_run h _ s (total_lift (@APve) m Hm)) as (tr & a & s' & Hr). rewrite Hr.
  destruct (Hf a s') as [[[? ?] ?] ->]; [by eapply now_run| |by eexists].
  by eapply (run_measure h ticks); [apply (clock_ticks Hclock)|].
Qed.
Lemma run_ask {R B} (e : agentE R) (f : R → io agentE B) s :
  is_Some (run h (f (h R e s).1) (h R e s).2) → is_Some (run h (bind (trigger e) f) s).
Proof. intros [[[? ?] ?] Hr]. cbn. destruct (h R e s) as [r s']. cbn in *. rewrite Hr. by eexists. Qed.

Lemma wait_exec_returns IntOrBool fuel c node vmid pid timeout polls s :
  ticks s < fuel → is_Some (run h (wait_exec IntOrBool fuel c node vmid pid timeout polls) s).
Proof using Hclock.
  revert polls s. induction fuel as [|fuel IH]; intros polls s Hs; [lia|]. cbn [wait_exec].
  apply run_call; [apply AgentExecStatus_total|]. intros r s' _ Ht. cbv zeta.
  assert (∀ lastErr s1, ticks s1 ≤ ticks s' → is_Some (run h
    (let! w := trigger (ASelect c) in
     match w with
     | WDone e => Ret (Er (wrapf (wait_what vmid pid) e))
     | WDeadline => Ret (Er (AgentExecTimeoutError vmid pid timeout (Datatypes.S polls) lastErr))
     | WTick => wait_exec IntOrBool fuel c node vmid pid timeout (Datatypes.S polls)
     end) s1)) as Hwait.
  { intros lastErr s1 H1. apply run_ask. pose proof (clock_tick Hclock c s1) as Htick.
    destruct (h _ (ASelect c) s1) as [[e| |] s2]; cbn [fst snd] in *; [by eexists..|].
    specialize (Htick eq_refl). apply IH. lia. }
  destruct r as [st|e]; [destruct (negb _); [by eexists|by apply Hwait]|].
  apply run_ask. pose proof (clock_ticks Hclock _ (ACtxErr c) s') as H1.
  destruct (h _ (ACtxErr c) s') as [[x|] s2]; cbn [fst snd] in *; [by eexists|by apply Hwait].
Qed.
Lemma WaitForAgentExec_returns IntOrBool c node vmid pid remaining s :
  ticks s ≤ Z.to_nat (remaining / defaultAgentExecPollInterval) →
  is_Some (run h (WaitForAgentExec IntOrBool c node vmid pid 0 remaining) s).
Proof using Hclock.
  intros Ht. unfold WaitForAgentExec. destruct (negb _); [|by eexists].
  apply wait_exec_returns. change (0 <=? 0)%Z with true. cbv iota. unfold exec_polls.
  destruct (remaining <=? 0)%Z eqn:Hr; [|lia].
  assert (remaining / defaultAgentExecPollInterval ≤ 0)%Z by (apply Z.div_le_upper_bound; unfold defaultAgentExecPollInterval, millisecond; lia).
  lia.
Qed.
(** A pause leaves a poll interval less, or nothing, of the time before the deadline. *)
Lemma pause_progress fuel before after remaining ns :
  (before ≤ 0)%Z ∧ 1 ≤ Datatypes.S fuel ∨
    Z.to_nat (before / defaultAgentExecPollInterval) + 2 ≤ Datatypes.S fuel →
  (0 < remaining ≤ before)%Z → ns = Z.min defaultAgentExecPollInterval remaining →
  (after ≤ remaining - ns)%Z →
  (after ≤ 0)%Z ∧ 1 ≤ fuel ∨ Z.to_nat (after / defaultAgentExecPollInterval) + 2 ≤ fuel.
Proof using.
  assert (0 < defaultAgentExecPollInterval)%Z as HI by done. revert HI.
  generalize defaultAgentExecPollInterval as I. intros I HI [[? _]|Hf] Hr -> Ha; [lia|].
  destruct (Z.le_gt_cases remaining I) as [Hle|Hgt]; [left; lia|right].
  assert (after / I ≤ before / I - 1)%Z.
  { replace (before / I - 1)%Z with (before / I + -1)%Z by lia. rewrite <- (Z.div_add before (-1) I) by lia. apply Z.div_le_mono; lia. }
  assert (1 ≤ before / I)%Z by (apply Z.div_le_lower_bound; lia). lia.
Qed.
Lemma dispatch_returns node vmid command fuel n refusal s :
  (deadline - now s ≤ 0)%Z ∧ 1 ≤ fuel ∨
  Z.to_nat ((deadline - now s) / defaultAgentExecPollInterval) + 2 ≤ fuel →
  is_Some (run h (dispatch node vmid command fuel n refusal) s).
Proof using Hclock.
  revert n refusal s. induction fuel as [|fuel IH]; intros n refusal s Hs; [lia|]. cbn [dispatch].
  apply run_call; [apply AgentExec_total|]. intros r s1 H1 _. cbv zeta. destruct r as [pid|e]; [by eexists|].
  apply run_ask. pose proof (clock_now Hclock _ (ACtxErr Caller) s1) as H2.
  destruct (h _ (ACtxErr Caller) s1) as [[x|] s2]; cbn [fst snd] in *; [by eexists|].
  apply run_ask. pose proof (clock_now Hclock _ (ACtxErr Bounded) s2) as H3.
  destruct (h _ (ACtxErr Bounded) s2) as [[x|] s3]; cbn [fst snd] in *; [by eexists|].
  destruct (match HTTPStatus e with Some _ => _ | None => _ end); [|by eexists].
  apply run_ask. pose proof (clock_now Hclock _ ARemaining s3) as H4. rewrite (clock_remaining Hclock).
  destruct (h _ ARemaining s3) as [r s4]; cbn [fst snd] in *.
  destruct (_ <=? 0)%Z eqn:Hrem; [by eexists|].
  apply run_ask. set (ns := Z.min _ _). pose proof (clock_pause Hclock ns s4) as H5.
  destruct (h _ (APause ns) s4) as [[x|] s5]; cbn [fst snd] in *; [by eexists|]. specialize (H5 eq_refl).
  apply IH. by apply (pause_progress fuel (deadline - now s) _ (deadline - now s3) ns Hs); [lia| |lia].
Qed.
End clock.

(** * Properties *)


(** A guest whose agent is not up until two pauses have passed, and whose command then
    prints the nonce; the deadline is two seconds after the start. *)
Definition slow_guest : env agentE Z := λ R e,
  let answer body := HResp 200 "200 OK" body in
  match e in agentE R return Z → R * Z with
  | APve e => λ s,
      ((rest_env (λ m _ _,
          if eqb m "GET" then answer (double_quoted "{'data':{'exited':1,'exitcode':0,'out-data':'nonce'}}")
          else if (s <? 1000000000)%Z then HResp 500 "500 QEMU guest agent is not running" ""
          else answer (double_quoted "{'data':{'pid':7}}")) _ e tt).1, s)
  | ACtxErr _ => λ s, (None, s)
  | ASelect _ => λ s,
      if (defaultAgentExecPollInterval <=? 2000000000 - s)%Z
      then (WTick, s + defaultAgentExecPollInterval)%Z else (WDeadline, s)
  | ARemaining => λ s, (2000000000 - s, s)%Z
  | APause ns => λ s, (None, s + Z.max 0 ns)%Z
  end.
Example slow_guest_proved :
  match run slow_guest (RollbackWitness (λ _, None) "pve1" 100 ["/bin/echo"; "nonce"] "nonce" 2000000000) 0%Z with
  | Some (tr, r, s) => (length (mutations (requests tr)), OutData <$> r.1, r.2, s)
  | None => (0, None, None, 0%Z)
  end = (3, Some "nonce", None, 1000000000%Z).
Proof. vm_compute. reflexivity. Qed.
Definition slow_ticks (s : Z) : nat := Z.to_nat ((2000000000 - s) / defaultAgentExecPollInterval).
Lemma slow_ticks_mono s s' : (s ≤ s')%Z → slow_ticks s' ≤ slow_ticks s.
Proof.
  intros Hs. unfold slow_ticks.
  assert ((2000000000 - s') / defaultAgentExecPollInterval ≤ (2000000000 - s) / defaultAgentExecPollInterval)%Z
    by (apply Z.div_le_mono; unfold defaultAgentExecPollInterval, millisecond; lia). lia.
Qed.
Lemma slow_clock : clock slow_guest id slow_ticks 2000000000.
Proof.
  assert (0 < defaultAgentExecPollInterval)%Z as HI by done.
  assert (∀ R (e : agentE R) s, (s ≤ (slow_guest R e s).2)%Z) as Hnow.
  { intros R [] s; cbn; try lia. destruct (Z.leb _ _); cbn; lia. }
  split; unfold id; cbn [slow_guest fst snd]; auto using slow_ticks_mono.
  - cbn. intros ns s _. lia.
  - intros c s. destruct (Z.leb_spec defaultAgentExecPollInterval (2000000000 - s)) as [Hle|]; cbn [fst snd]; [|done].
    intros _. unfold slow_ticks.
    replace (2000000000 - (s + defaultAgentExecPollInterval))%Z
      with (2000000000 - s + -1 * defaultAgentExecPollInterval)%Z by lia.
    rewrite Z.div_add by lia.
    assert (1 ≤ (2000000000 - s) / defaultAgentExecPollInterval)%Z by (apply Z.div_le_lower_bound; lia). lia.
Qed.
