(* ===== verification/SnapshotCmd.v ===== *)
(** cmd/pveforge/vmsnapshot.go: the vm snapshot commands, under the VM's lock, down to the
    exchanges with PVE. *)
From Stdlib Require Import Ascii.
From S2P Require Import Prelude GoLib Errors Json Utf8 ShellQuote KvJson Rest Vms Task Snapshot OpRun Client Remote Grants GuestAgent.

(** What a command prints. *)
Inductive output :=
| OList (snapshots : list Snapshot)
| OCreated (name : string)
| ODeleted (deleted absent : list string)
| ORolledBack (name witness : string).
(** [SOpen] is [resolveRoutedClient], answering the target's node, and [SRoster] the path of
    the roster; [SRandom] reads sixteen random bytes; [SInterrupted] is whether the
    command's context ended or was interrupted; [SAgent] is a call of the client. *)
Inductive snapE : Type → Type :=
| SOpen (targetID : string) : snapE (res string)
| SClose : snapE unit
| SRoster : snapE (res unit)
| SLock (key : ObjectKey) : snapE (res unit)
| SReadLock (key : ObjectKey) : snapE (res unit)
| SUnlock : snapE unit
| SRandom : snapE (res string)
| SInterrupted : snapE bool
| SNotice (text : string) : snapE unit
| SRender (f : Format) (o : output) : snapE (res unit)
| SAgent {R} (e : agentE R) : snapE R.
Definition pve_call {A} (m : io pveE A) : io snapE A := lift (@SAgent) (lift (@APve) m).

(** The client and the lock a command works under, released in the reverse order. *)
Definition with_client {A} (targetID : string) (body : string → io snapE (res A)) : io snapE (res A) :=
  let? node := trigger (SOpen targetID) orelse id in
  let! r := body node in
  let! _ := trigger SClose in
  Ret r.
Definition with_lock {A} (mutation : bool) (key : ObjectKey) (body : io snapE (res A)) : io snapE (res A) :=
  let? _ := trigger SRoster orelse id in
  let? _ := trigger (if mutation then SLock key else SReadLock key)
    orelse wrapf (if mutation then "acquire lock for " +:+ key_String key else "acquire read lock") in
  let! r := body in
  let! _ := trigger SUnlock in
  Ret r.
Definition snapshotArgs (target vmid : string) : res (Z * ObjectKey) :=
  match atoi vmid with
  | None => Er (wrapf ("invalid vmid " +:+ quote vmid) (errorf "strconv.Atoi: parsing"))
  | Some n => Ok (n, {| TargetID := target; Kind := "vm"; ID := itoa n |})
  end.
(** The arguments, what is [prepare]d of them, then the body under the lock. *)
Definition locked {B} (mutation : bool) (format target vmid : string) (prepare : Z → io snapE (res B))
    (body : Format → string → Z → B → io snapE (res unit)) : io snapE (res unit) :=
  match ParseFormat format with
  | Er e => Ret (Er e)
  | Ok f =>
      match snapshotArgs target vmid with
      | Er e => Ret (Er e)
      | Ok (n, key) =>
          let? prepared := prepare n orelse id in
          with_client target (λ node, with_lock mutation key (body f node n prepared))
      end
  end.

(** ** list and create *)
Definition snapshot_list (format target vmid : string) : io snapE (res unit) :=
  locked false format target vmid (λ _, Ret (Ok tt)) (λ f node n _,
    let? snaps := pve_call (ListSnapshots node n) orelse id in
    trigger (SRender f (OList (merge_sort older_first (realSnapshots snaps))))).
Definition snapshot_create (format target vmid name description : string) : io snapE (res unit) :=
  locked true format target vmid (λ _, Ret (Ok tt)) (λ f node n _,
    let? _ := pve_call (CreateSnapshot node n name description) orelse id in
    trigger (SRender f (OCreated name))).

(** ** delete *)
Fixpoint delete_names_err (vmid : Z) (names : list string) : option err :=
  match names with
  | [] => None
  | n :: names' =>
      let what := "delete snapshots of vm " +:+ itoa vmid in
      if eqb (trim_space n) "" then Some (errorf (what +:+ ": a snapshot name is blank"))
      else if isPseudoEntryName n then Some (wrapf what (ErrReservedSnapshotName vmid n))
      else delete_names_err vmid names'
  end.
(** The place of each name in the list, oldest first; a later entry of a name counts. *)
Definition ranks (listed : list Snapshot) : gmap string nat :=
  foldl (λ m (x : nat * Snapshot), <[sn_name x.2 := x.1]> m) ∅ (imap pair listed).
(** The names the list has and those it lacks, each once. *)
Fixpoint split_names (rank : gmap string nat) (seen : gset string) (names : list string)
    : list string * list string :=
  match names with
  | [] => ([], [])
  | n :: names' =>
      if decide (n ∈ seen) then split_names rank seen names'
      else
        let '(present, absent) := split_names rank ({[n]} ∪ seen) names' in
        if is_some (rank !! n) then (n :: present, absent) else (present, n :: absent)
  end.
Definition newest_first (rank : gmap string nat) (a b : string) : Prop :=
  default 0 (rank !! b) ≤ default 0 (rank !! a).
Global Instance newest_first_dec rank : RelDecision (newest_first rank).
Proof. intros a b. unfold newest_first. apply _. Defined.
Definition deleted_so_far (deleted : list string) (e : err) : err :=
  Err KText (Error e +:+ "; deleted so far: " +:+ QuoteValue (Join ", " deleted)
             +:+ "; running the same command again is safe") [e].
Definition snapshot_delete (format target vmid : string) (names : list string) : io snapE (res unit) :=
  locked true format target vmid
    (λ n, Ret match delete_names_err n names with Some e => Er e | None => Ok tt end) (λ f node n _,
    let? snaps := pve_call (ListSnapshots node n) orelse id in
    let rank := ranks (merge_sort older_first (realSnapshots snaps)) in
    let '(present, absent) := split_names rank ∅ names in
    let! d := (match present with
               | [] => Ret ([], None)
               | _ => pve_call (CascadeDeleteSnapshots node n (merge_sort (newest_first rank) present))
               end) in
    match d.2 with
    | Some e => Ret (Er (deleted_so_far d.1 e))
    | None => trigger (SRender f (ODeleted d.1 absent))
    end).

(** ** rollback *)
Inductive witnessPlan := witnessTargetNotFound | witnessRunning | witnessStopped.
Fixpoint targetSnapshotWitnessPlan (snaps : list (option Snapshot)) (name : string) : witnessPlan :=
  match snaps with
  | [] => witnessTargetNotFound
  | None :: snaps' => targetSnapshotWitnessPlan snaps' name
  | Some s :: snaps' =>
      if eqb (sn_name s) "current" then targetSnapshotWitnessPlan snaps' name
      else if eqb (sn_name s) name then
        if negb (sn_vmstate s =? 0)%Z then witnessRunning else witnessStopped
      else targetSnapshotWitnessPlan snaps' name
  end.
(** [DefaultRollbackWitnessCommand] of rollbackwitness.go. *)
Definition hex_EncodeToString : string → string := map_bytes (λ c, hex2 false (byte_of c)).
Definition DefaultRollbackWitnessCommand : io snapE (res (list string * string)) :=
  let? b := trigger SRandom orelse wrapf "rollback witness: make a nonce" in
  let nonce := "pveforge-witness-" +:+ hex_EncodeToString b in
  Ret (Ok (["/bin/echo"; nonce], nonce)).
Definition maxWitnessTimeout : Z := 30 * 60 * 1000 * millisecond.
Definition witnessExcerptBytes : nat := 512.
(** [for i := 0; i < UTFMax-1 && cut > 0 && !RuneStart(s[cut])], [n] turns left. *)
Fixpoint excerpt_cut (n cut : nat) (s : string) : nat :=
  match n, cut, String.get cut s with
  | S n', S cut', Some c => if rune_start c then cut else excerpt_cut n' cut' s
  | _, _, _ => cut
  end.
Definition witnessExcerpt (s : string) : string :=
  if decide (slen s ≤ witnessExcerptBytes) then s
  else
    let cut := excerpt_cut 3 witnessExcerptBytes s in
    String.substring 0 cut s +:+ " … [" +:+ itoa (Z.of_nat (slen s - cut)) +:+ " bytes elided]".
Definition shellQuoteAll (names : list string) : string := Join " " (ShellQuote <$> names).
Definition as_not_newest (k : ekind) : option (list string) :=
  match k with KNotNewestSnapshot _ _ newer => Some newer | _ => None end.
Definition as_witness (k : ekind) : option string :=
  match k with KRollbackWitness reason => Some reason | _ => None end.
Definition delete_command (target : string) (vmid : Z) (newer : list string) : string :=
  "pveforge vm snapshot delete " +:+ ShellQuote target +:+ " " +:+ itoa vmid +:+ " "
  +:+ shellQuoteAll (CascadeOrder newer).
Definition rollback_refused (target : string) (vmid : Z) (e : err) : err :=
  match errors_As as_not_newest e with
  | Some newer => Err KText (Error e +:+ "; to discard them first, run: " +:+ delete_command target vmid newer) [e]
  | None => e
  end.
Definition witnessFailure (target : string) (vmid : Z) (name : string) (status : option AgentExecStatus_) (e : err)
    : io snapE (res unit) :=
  let what := "rollback vm " +:+ itoa vmid +:+ " to snapshot " +:+ quote name in
  let! interrupted := trigger SInterrupted in
  if interrupted : bool then
    Ret (Er (wrapf2 what (sent ErrRollbackInterrupted) e))
  else
    let! _ :=
      (match errors_As as_witness e, status with
       | Some reason, Some s =>
           if eqb reason WitnessCommandFailed || eqb reason WitnessMarkerMissing then
             trigger (SNotice ("warning: " +:+ target +:+ ": vm " +:+ itoa vmid +:+ ": witness output: "
               +:+ QuoteValue (witnessExcerpt (OutData s))))
           else Ret tt
       | _, _ => Ret tt
       end) in
    Ret (Er (wrapf (what +:+ " completed, but it could not be proven") e)).

Section rollback.
Context (IntOrBool : json → option bool).
Definition witness_of (noWitness : bool) (timeout : Z) (command : list string) (marker : string)
    : io snapE (res (list string * string)) :=
  guard (0 <? timeout)%Z && (timeout <=? maxWitnessTimeout)%Z orelse
    errorf ("--witness-timeout " +:+ duration_String timeout +:+ ": must be more than 0 and at most "
            +:+ duration_String maxWitnessTimeout) in
  guard negb (noWitness && (bool_decide (command ≠ []) || negb (eqb marker ""))) orelse
    errorf "--no-witness cannot be combined with --witness-command or --witness-marker" in
  guard negb (bool_decide (command ≠ []) && eqb (trim_space marker) "") orelse
    errorf "--witness-command needs a --witness-marker that is not empty or blank: without one, the witness would prove only that some command exited 0" in
  guard negb (bool_decide (command = []) && negb (eqb marker "")) orelse
    errorf "--witness-marker is only for a --witness-command" in
  if negb noWitness && bool_decide (command = []) then DefaultRollbackWitnessCommand
  else Ret (Ok (command, marker)).
Definition rollback_plan (node : string) (n : Z) (name : string) (noWitness : bool) : io snapE (res witnessPlan) :=
  if noWitness then Ret (Ok witnessRunning)
  else
    let? snaps := pve_call (ListSnapshots node n) orelse id in
    Ret match targetSnapshotWitnessPlan snaps name with
        | witnessTargetNotFound => Er (errorf ("rollback vm " +:+ itoa n +:+ ": snapshot " +:+ quote name
            +:+ " is not in the snapshot list; refusing to roll back a target that is not present"))
        | plan => Ok plan
        end.
Definition snapshot_rollback (format target vmid name : string) (noWitness : bool) (timeout : Z)
    (command : list string) (marker : string) : io snapE (res unit) :=
  locked true format target vmid (λ _, witness_of noWitness timeout command marker) (λ f node n wm,
    let? plan := rollback_plan node n name noWitness orelse id in
    let? _ := pve_call (Rollback node n name) orelse rollback_refused target n in
    let done w := trigger (SRender f (ORolledBack name w)) in
    if noWitness then done "skipped"
    else match plan with
         | witnessStopped =>
             let! _ := trigger (SNotice ("notice: " +:+ target +:+ ": vm " +:+ itoa n
               +:+ ": rolled back to a disk-only (vmstate-absent) snapshot; the guest is not running after a disk-only rollback, so no in-guest witness is possible")) in
             done "not-applicable"
         | _ =>
             let! w := lift (@SAgent) (RollbackWitness IntOrBool node n wm.1 wm.2 timeout) in
             match w.2 with
             | Some e => witnessFailure target n name w.1 e
             | None => done "verified"
             end
         end).
End rollback.

(** * Specification *)
Definition agent_event (ev : event snapE) : option (event agentE) :=
  match ev with @Ev _ _ (SAgent e) r => Some (Ev e r) | _ => None end.
(** The exchanges with PVE of a trace, and what it printed. *)
Definition snap_requests (tr : list (event snapE)) : list (event pveE) := requests (omap agent_event tr).
Definition render_event (ev : event snapE) : option output :=
  match ev with @Ev _ _ (SRender _ o) _ => Some o | _ => None end.
Definition rendered (tr : list (event snapE)) : list output := omap render_event tr.
(** What a command does before it holds the lock. *)
Definition outer (ev : event snapE) : bool :=
  match ev with
  | @Ev _ _ (SOpen _) _ | @Ev _ _ SClose _ | @Ev _ _ SRoster _ | @Ev _ _ SRandom _ => true
  | @Ev _ _ (SLock _) r | @Ev _ _ (SReadLock _) r => negb (is_ok r)
  | _ => false
  end.
Definition lock_of (mutation : bool) (key : ObjectKey) : snapE (res unit) :=
  if mutation then SLock key else SReadLock key.
(** A command's trace: nothing done, or [body] alone, with the lock held, satisfying [P]. *)
Definition under_lock (mutation : bool) (target vmid : string)
    (P : list (event snapE) → string → Z → list (event snapE) → res unit → Prop)
    (tr : list (event snapE)) (r : res unit) : Prop :=
  is_ok r = false ∧ forallb outer tr = true ∨
  ∃ n key before after node body,
    snapshotArgs target vmid = Ok (n, key) ∧
    tr = (before ++ after) ++ [Ev (lock_of mutation key) (Ok tt)] ++ body ++ [Ev SUnlock tt; Ev SClose tt] ∧
    forallb outer (before ++ after) = true ∧ Ev (SOpen target) (Ok node) ∈ after ∧ P before node n body r.

(** * Lemmas *)
Lemma snap_requests_app tr tr' : snap_requests (tr ++ tr') = snap_requests tr ++ snap_requests tr'.
Proof. unfold snap_requests. by rewrite omap_app, requests_app. Qed.
Lemma rendered_app tr tr' : rendered (tr ++ tr') = rendered tr ++ rendered tr'.
Proof. apply omap_app. Qed.
Lemma agent_lift (tr : list (event agentE)) : omap agent_event (lift_event (@SAgent) <$> tr) = tr.
Proof. induction tr as [|[R e r] tr IH]; [done|]. cbn. by f_equal. Qed.
Lemma rendered_lift (tr : list (event agentE)) : rendered (lift_event (@SAgent) <$> tr) = [].
Proof. induction tr as [|[R e r] tr IH]; [done|]. exact IH. Qed.
Lemma pve_call_spec {A} (m : io pveE A) Q :
  always m Q → always (pve_call m) (λ tr r, rendered tr = [] ∧ Q (snap_requests tr) r).
Proof.
  intros Hm. unfold pve_call. eapply always_mono; [|by apply lift_spec, lift_spec].
  intros tr r (tr1 & -> & tr0 & -> & HQ). unfold snap_requests.
  by rewrite rendered_lift, agent_lift, requests_lift.
Qed.

Lemma locked_spec {B} mutation format target vmid (prepare : Z → io snapE (res B)) body
    (PB : list (event snapE) → B → Prop) P :
  (∀ n, always (prepare n) (λ tr r, forallb outer tr = true ∧ ∀ b, r = Ok b → PB tr b)) →
  (∀ before f node n b, PB before b → always (body f node n b) (P before node n)) →
  always (locked mutation format target vmid prepare body) (under_lock mutation target vmid P).
Proof.
  intros Hprep Hbody. unfold locked. destruct (ParseFormat format) as [f|e]; [|by left].
  destruct (snapshotArgs target vmid) as [[n key]|e] eqn:Hargs; [|by left].
  eapply always_call; [apply Hprep|]. intros before [b|e] [Hout Hb]; cbn [always].
  2: { left. by rewrite app_nil_r. }
  unfold with_client, with_lock. cbn [bind trigger always]. intros [node|e]; cbn [bind trigger always].
  2: { left. by rewrite forallb_app, Hout. }
  intros [[]|e]; cbn [bind trigger always]; [|intros []; left; by rewrite forallb_app, Hout].
  change (if mutation then SLock key else SReadLock key) with (lock_of mutation key).
  intros [[]|e]; cbn [bind trigger always].
  2: { intros []. left. rewrite forallb_app, Hout. by destruct mutation. }
  apply always_bind, always_bind. eapply always_mono; [|eapply (Hbody before f node n b), Hb; done].
  intros tr r HP. cbn [bind trigger always]. intros [] []. right.
  exists n, key, before, [Ev (SOpen target) (Ok node); Ev SRoster (Ok tt)], node, tr.
  split_and!; [done| |by rewrite forallb_app, Hout|by left|done].
  rewrite <- ?app_assoc. cbn. by rewrite <- ?app_assoc.
Qed.

(** ** rollback *)
(** The snapshot list of the VM, read and whole. *)
Definition list_read (node : string) (vmid : Z) (l : list (option Snapshot)) (reqs : list (event pveE)) : Prop :=
  Ev (PcSnapshots (snapshot_path node vmid)) (Ok (Some l)) ∈ reqs.
(** Of the snapshots read, [name] is the one taken last. *)
Definition newest (node : string) (vmid : Z) (name : string) (reqs : list (event pveE)) : Prop :=
  ∃ l f l1 l2, list_read node vmid l reqs ∧ has_current l = true ∧ realSnapshots l = l1 ++ f :: l2 ∧
    sn_name f = name ∧ Forall (λ s, (sn_snaptime s < sn_snaptime f)%Z) (l1 ++ l2).
(** The guest ran the witness: [wm] is the command and the marker. *)
Definition proven (IntOrBool : json → option bool) (node : string) (vmid : Z) (wm : list string * string)
    (reqs : list (event pveE)) : Prop :=
  ∃ before posts pid gets s,
    reqs = before ++ (exec_post node vmid wm.1 "" <$> posts) ++ (exec_get node vmid pid <$> gets) ∧
    last_says decodeAgentExecPID posts pid ∧ last_says (decodeAgentExecStatus IntOrBool) gets s ∧
    Exited s ≠ 0%Z ∧ Signal s = None ∧ ExitCodeSet s = true ∧ ExitCode_ s = 0%Z ∧
    contains wm.2 (OutData s) = true.
Definition exec_mutation (node : string) (vmid : Z) (command : list string) : string * string * Values :=
  ("POST", agent_path node vmid "exec", exec_form command "").
Definition rollback_mutation (node : string) (vmid : Z) (name : string) : string * string * Values :=
  ("POST", rollback_path node vmid name, ∅).

Lemma plan_spec snaps name p :
  targetSnapshotWitnessPlan snaps name = p → p ≠ witnessTargetNotFound →
  ∃ s, Some s ∈ snaps ∧ sn_name s = name ∧ (p = witnessStopped ↔ sn_vmstate s = 0%Z).
Proof.
  intros <-. induction snaps as [|[s|] snaps IH]; cbn [targetSnapshotWitnessPlan]; [done| |].
  - assert (∀ P, (∃ t, Some t ∈ snaps ∧ P t) → ∃ t, Some t ∈ Some s :: snaps ∧ P t) as Hmore.
    { intros P (t & ? & ?). exists t. split; [by right|done]. }
    destruct (eqb (sn_name s) "current"); [intros H; by apply Hmore, IH|].
    destruct (eqb (sn_name s) name) eqn:He; [|intros H; by apply Hmore, IH]. apply eqb_true in He.
    intros _. exists s. split; [by left|]. split; [done|]. destruct (sn_vmstate s =? 0)%Z eqn:Hz; cbn; lia || naive_solver lia.
  - intros H. destruct (IH H) as (t & ? & ?). exists t. split; [by right|done].
Qed.
Lemma ListSnapshots_spec node vmid :
  always (ListSnapshots node vmid) (λ tr r, mutations tr = [] ∧ ∀ l, r = Ok l → list_read node vmid l tr).
Proof.
  unfold ListSnapshots. cbv zeta. destruct (negb _); [|done]. cbn [bind trigger always].
  intros [[l|]|e]; cbn; split; try done. intros ? [= <-]. by left.
Qed.
Lemma rollback_plan_spec node n name noWitness :
  always (rollback_plan node n name noWitness) (λ tr r,
    rendered tr = [] ∧ mutations (snap_requests tr) = [] ∧
    ∀ p, r = Ok p → noWitness = false → ∃ l s, list_read node n l (snap_requests tr) ∧ Some s ∈ l ∧
      sn_name s = name ∧ (p = witnessStopped ↔ sn_vmstate s = 0%Z)).
Proof.
  unfold rollback_plan. destruct noWitness; [cbn; split_and!; [done|done|]; by intros ? _|].
  eapply always_call; [apply pve_call_spec, ListSnapshots_spec|]. intros tr [l|e] (Hr & Hm & Hl); cbn [always].
  2: { by rewrite app_nil_r. }
  rewrite app_nil_r. split_and!; [done|done|]. intros p Hp _.
  destruct (plan_spec l name p) as (s & ? & ? & ?); [by destruct (targetSnapshotWitnessPlan l name); simplify_eq|
    by destruct (targetSnapshotWitnessPlan l name); simplify_eq|].
  exists l, s. split_and!; [by apply Hl|done|done|tauto..].
Qed.
(** The witness of a rollback: none, the one given, or the default with a nonce made now. *)
Definition wanted (noWitness : bool) (command : list string) (marker : string)
    (before : list (event snapE)) (wm : list string * string) : Prop :=
  noWitness = true ∨
  (command ≠ [] ∧ trim_space marker ≠ "" ∧ wm = (command, marker)) ∨
  ∃ b, let nonce := "pveforge-witness-" +:+ hex_EncodeToString b in
    Ev SRandom (Ok b) ∈ before ∧ wm = (["/bin/echo"; nonce], nonce).
Lemma witness_of_spec noWitness timeout command marker :
  always (witness_of noWitness timeout command marker) (λ tr r,
    forallb outer tr = true ∧ ∀ wm, r = Ok wm → wanted noWitness command marker tr wm).
Proof.
  unfold witness_of. destruct (_ && _); [|done].
  destruct (negb (noWitness && _)); [|done].
  destruct (negb (_ && eqb (trim_space marker) "")) eqn:Hm; [|done].
  destruct (negb (_ && negb (eqb marker ""))); [|done].
  destruct noWitness; cbn [negb andb always].
  { split; [done|]. intros wm _. by left. }
  destruct (bool_decide (command = [])) eqn:Hc.
  - unfold DefaultRollbackWitnessCommand. cbn [bind trigger always]. intros [b|e]; cbn [always]; split; try done.
    intros wm [= <-]. right. right. exists b. split; [by left|done].
  - apply bool_decide_eq_false in Hc. cbn [always]. split; [done|]. intros wm [= <-]. right. left.
    split; [done|]. split; [|done]. intros Ht. rewrite bool_decide_eq_true_2, Ht in Hm; [|done]. by vm_compute in Hm.
Qed.

Section rollback_spec.
Context (IntOrBool : json → option bool) (node : string) (n : Z) (name : string) (noWitness : bool) (wm : list string * string).
(** What [snapshot_rollback] does under the lock. *)
Definition rolled_back (body : list (event snapE)) (r : res unit) : Prop :=
  let reqs := snap_requests body in
  (mutations reqs ≠ [] →
     newest node n name reqs ∧
     (noWitness = false → ∃ l s, list_read node n l reqs ∧ Some s ∈ l ∧ sn_name s = name) ∧
     ∃ execs, mutations reqs = rollback_mutation node n name :: execs ∧
       Forall (λ m, m = exec_mutation node n wm.1) execs) ∧
  (∀ o, o ∈ rendered body →
     (∃ before done_ after, reqs = before ++ done_ ++ after ∧
        task_done "POST" (rollback_path node n name) ∅ node done_) ∧
     (o = ORolledBack name "skipped" ∧ noWitness = true ∨
      o = ORolledBack name "not-applicable" ∧
        (∃ l s, list_read node n l reqs ∧ Some s ∈ l ∧ sn_name s = name ∧ sn_vmstate s = 0%Z) ∨
      o = ORolledBack name "verified" ∧ proven IntOrBool node n wm reqs)) ∧
  (is_ok r = true → rendered body ≠ []).

Lemma list_read_mono l reqs reqs' : (∀ ev, ev ∈ reqs → ev ∈ reqs') → list_read node n l reqs → list_read node n l reqs'.
Proof. unfold list_read. auto. Qed.
(** A rollback that went through, within the trace of the command. *)
Lemma rolled_back_done tr1 tr2 tr3 r plan :
  rendered tr1 = [] → mutations (snap_requests tr1) = [] →
  (noWitness = false → ∃ l s, list_read node n l (snap_requests tr1) ∧ Some s ∈ l ∧
     sn_name s = name ∧ (plan = witnessStopped ↔ sn_vmstate s = 0%Z)) →
  rendered tr2 = [] →
  newest node n name (snap_requests tr2) →
  mutations (snap_requests tr2) = [rollback_mutation node n name] →
  (∃ ev tr', snap_requests tr2 = ev :: tr' ∧ task_done "POST" (rollback_path node n name) ∅ node tr') →
  Forall (λ m, m = exec_mutation node n wm.1) (mutations (snap_requests tr3)) →
  (∀ o, o ∈ rendered tr3 →
     o = ORolledBack name "skipped" ∧ noWitness = true ∨
     o = ORolledBack name "not-applicable" ∧ noWitness = false ∧ plan = witnessStopped ∨
     o = ORolledBack name "verified" ∧ proven IntOrBool node n wm (snap_requests tr3)) →
  (is_ok r = true → rendered tr3 ≠ []) →
  rolled_back (tr1 ++ tr2 ++ tr3) r.
Proof using.
  intros Hr1 Hm1 Hplan Hr2 Hnew Hm2 (ev & tr' & Htr2 & Hdone) Hexec Hout Hok.
  unfold rolled_back. rewrite !snap_requests_app, !rendered_app, !mutations_app, Hr1, Hr2, Hm1, Hm2. cbn [app].
  split_and!; [|intros o Ho; split|done].
  - intros _. split_and!.
    + destruct Hnew as (l & f & l1 & l2 & Hl & ?). exists l, f, l1, l2. split; [|done].
      unfold list_read in *. rewrite !elem_of_app. auto.
    + intros Hw. destruct (Hplan Hw) as (l & s & Hl & ? & ? & _). exists l, s. split_and!; [|done..].
      unfold list_read in *. rewrite !elem_of_app. auto.
    + eauto.
  - exists (snap_requests tr1 ++ [ev]), tr', (snap_requests tr3). split; [|done].
    rewrite Htr2. by rewrite <- app_assoc.
  - destruct (Hout o Ho) as [?|[(-> & Hw & ->)|(-> & before & posts & pid & gets & s & -> & ?)]]; [by left| |].
    + right. left. split; [done|]. destruct (Hplan Hw) as (l & s & Hl & ? & ? & Hst). exists l, s.
      split_and!; [|done|done|by apply Hst]. unfold list_read in *. rewrite !elem_of_app. auto.
    + right. right. split; [done|]. exists (snap_requests tr1 ++ snap_requests tr2 ++ before), posts, pid, gets, s.
      split; [by rewrite <- !app_assoc|done].
Qed.
(** A rollback that was refused or not seen to complete. *)
Lemma rolled_back_not tr1 tr2 e :
  rendered tr1 = [] → mutations (snap_requests tr1) = [] →
  (noWitness = false → ∃ l s, list_read node n l (snap_requests tr1) ∧ Some s ∈ l ∧ sn_name s = name) →
  rendered tr2 = [] →
  (mutations (snap_requests tr2) ≠ [] → newest node n name (snap_requests tr2)) →
  (mutations (snap_requests tr2) = [] ∨ mutations (snap_requests tr2) = [rollback_mutation node n name]) →
  rolled_back (tr1 ++ tr2) (Er e).
Proof using.
  intros Hr1 Hm1 Hplan Hr2 Hnew Hm2. unfold rolled_back.
  rewrite !snap_requests_app, !rendered_app, !mutations_app, Hr1, Hr2, Hm1. cbn [app].
  split_and!; [|by intros o ?%elem_of_nil|done]. intros Hne. split_and!.
  - destruct (Hnew Hne) as (l & f & l1 & l2 & Hl & ?). exists l, f, l1, l2. split; [|done].
    unfold list_read in *. rewrite !elem_of_app. auto.
  - intros Hw. destruct (Hplan Hw) as (l & s & Hl & ?). exists l, s. split; [|done].
    unfold list_read in *. rewrite !elem_of_app. auto.
  - exists []. split; [by destruct Hm2|constructor].
Qed.
End rollback_spec.

(** What follows a rollback that went through. *)
Lemma witnessFailure_spec target n name status e :
  always (witnessFailure target n name status e) (λ tr r,
    snap_requests tr = [] ∧ rendered tr = [] ∧ is_ok r = false).
Proof.
  unfold witnessFailure. cbv zeta. cbn [bind trigger always]. intros []; [done|].
  repeat case_match; cbn; try done; intros []; done.
Qed.
Lemma task_done_mutations m p v node tr : eqb m "GET" = false → task_done m p v node tr → mutations tr ≠ [].
Proof. intros Hm (hr & upid & exit & tr' & -> & _) H. unfold mutations in H. cbn in H. by rewrite Hm in H. Qed.
Lemma exec_mutations node vmid command hrs :
  mutations (exec_post node vmid command "" <$> hrs) = (λ _, exec_mutation node vmid command) <$> hrs.
Proof. induction hrs as [|hr hrs IH]; [done|]. cbn. by f_equal. Qed.
Lemma exec_gets node vmid pid hrs : mutations (exec_get node vmid pid <$> hrs) = [].
Proof. induction hrs as [|hr hrs IH]; [done|]. exact IH. Qed.
(** The witness, as the command's trace shows it. *)
Lemma witness_call IntOrBool node vmid wm timeout :
  always (lift (@SAgent) (RollbackWitness IntOrBool node vmid wm.1 wm.2 timeout)) (λ tr w,
    rendered tr = [] ∧ Forall (λ m, m = exec_mutation node vmid wm.1) (mutations (snap_requests tr)) ∧
    (w.2 = None → proven IntOrBool node vmid wm (snap_requests tr))).
Proof.
  eapply always_mono; [|apply lift_spec, RollbackWitness_spec].
  intros tr w (tr0 & -> & (posts & pid & gets & Hreq & _ & Hpid & Hsays) & _ & Hres).
  unfold snap_requests. rewrite rendered_lift, agent_lift, Hreq. split; [done|]. split.
  - rewrite mutations_app, exec_mutations, exec_gets, app_nil_r. apply Forall_fmap, Forall_forall. done.
  - destruct w as [[s|] [e|]]; cbn [snd fst] in *; try done. intros _.
    destruct (Hsays s eq_refl) as [Hg Hs]. exists [], posts, pid, gets, s. split; [done|]. split; [by apply Hpid|done].
Qed.

(** ** delete *)
Definition delete_mutation (node : string) (vmid : Z) (name : string) : string * string * Values :=
  ("DELETE", delete_path node vmid name, ∅).
(** A cascade keeps the order it is given. *)
Lemma cascade_loop_order node vmid present deleted names :
  always (cascade_loop node vmid present deleted names) (λ tr r,
    ∃ l, l `sublist_of` names ∧ mutations tr = delete_mutation node vmid <$> l ∧
         (r.2 = None → r.1 = deleted ++ l)).
Proof.
  revert present deleted. induction names as [|n names IH]; intros present deleted; cbn [cascade_loop].
  { exists []. split_and!; [done|done|by rewrite app_nil_r]. }
  destruct (decide (n ∈ present)).
  - eapply always_call; [by apply task_request_spec|]. intros tr [u|x] [Hm Hok]; cbn [always].
    + eapply always_mono; [|apply IH]. intros tr' r (l & Hl & Hmu & Hr). exists (n :: l).
      destruct Hok as [_ Hok]. rewrite mutations_app, Hmu, Hok. split_and!; [by constructor|done|].
      intros Hn. by rewrite Hr, <- app_assoc.
    + rewrite app_nil_r. destruct Hm as [-> | ->]; [exists []|exists [n]]; (split; [|done]);
        [apply sublist_nil_l|constructor; apply sublist_nil_l].
  - eapply always_mono; [|apply IH]. intros tr' r (l & Hl & Hmu). exists l. split; [by constructor|done].
Qed.
Lemma cascade_order node vmid names :
  always (CascadeDeleteSnapshots node vmid names) (λ tr r,
    ∃ l, l `sublist_of` names ∧ mutations tr = delete_mutation node vmid <$> l ∧ (r.2 = None → r.1 = l)).
Proof.
  assert (∀ tr e, mutations tr = [] → ∃ l, l `sublist_of` names ∧
    mutations tr = delete_mutation node vmid <$> l ∧ (Some (e : err) = None → [] = l)) as Hno.
  { intros tr e ->. exists []. split; [apply sublist_nil_l|done]. }
  unfold CascadeDeleteSnapshots. cbv zeta. destruct (eqb node ""); [by apply Hno|].
  destruct (bool_decide _); [by apply Hno|]. destruct (cascade_names_err _ _ _ _); [by apply Hno|].
  eapply always_call; [apply listSnapshotsVerifiable_spec|]. intros tr [l|e] [Hm _]; cbn [always].
  2: { rewrite app_nil_r. by apply Hno. }
  eapply always_call; [apply cascade_loop_order|]. intros tr' [d o] (ds & Hsub & Hmu & Hd). cbn [fst snd app] in *.
  destruct o as [e|]; cbn [always].
  { exists ds. rewrite app_nil_r, mutations_app, Hm. done. }
  eapply always_call; [apply listSnapshotsVerifiable_spec|]. intros tr2 r2 [Hm2 _].
  assert (mutations (tr ++ tr' ++ tr2 ++ []) = delete_mutation node vmid <$> ds) as Hall.
  { rewrite !mutations_app, Hm, Hm2, app_nil_r. done. }
  destruct r2; [destruct (bool_decide _)|]; cbn [always]; exists ds; auto.
Qed.

(** The rank of a name is the place of its last entry. *)
Lemma ranks_spec listed n i : ranks listed !! n = Some i → ∃ s, listed !! i = Some s ∧ sn_name s = n.
Proof.
  unfold ranks. revert i. induction listed as [|s listed IH] using rev_ind; intros i; [done|].
  rewrite imap_app, foldl_app. cbn. rewrite Nat.add_0_r, lookup_insert.
  destruct (decide (sn_name s = n)) as [Hs|Hs].
  - intros [= <-]. exists s. split; [|done]. rewrite lookup_app_r, Nat.sub_diag; done.
  - intros H. destruct (IH i H) as (t & Ht & ?). exists t. split; [|done]. by apply lookup_app_l_Some.
Qed.
Lemma ranks_listed listed n : is_some (ranks listed !! n) = true ↔ ∃ s, s ∈ listed ∧ sn_name s = n.
Proof.
  split.
  - destruct (ranks listed !! n) as [i|] eqn:Hi; [|done]. intros _.
    destruct (ranks_spec _ _ _ Hi) as (s & Hs & ?). exists s. split; [by eapply list_elem_of_lookup_2|done].
  - intros (s & Hs & <-). unfold ranks. induction listed as [|t listed IH] using rev_ind; [by apply elem_of_nil in Hs|].
    rewrite imap_app, foldl_app. cbn. rewrite lookup_insert. case_decide; [done|].
    apply elem_of_app in Hs as [Hs|Hs%list_elem_of_singleton]; [by apply IH|by subst].
Qed.
Lemma split_names_spec rank seen names present absent :
  split_names rank seen names = (present, absent) →
  NoDup present ∧
  (∀ n, n ∈ present ↔ n ∈ names ∧ n ∉ seen ∧ is_some (rank !! n) = true) ∧
  (∀ n, n ∈ absent ↔ n ∈ names ∧ n ∉ seen ∧ is_some (rank !! n) = false).
Proof.
  revert seen present absent. induction names as [|n names IH]; intros seen present absent; cbn [split_names].
  { intros [= <- <-]. split; [constructor|]. split; intros n; rewrite elem_of_nil; tauto. }
  destruct (decide (n ∈ seen)) as [Hn|Hn].
  { intros H. destruct (IH _ _ _ H) as (? & Hp & Ha). split; [done|].
    split; intros m; rewrite ?Hp, ?Ha, elem_of_cons; naive_solver. }
  destruct (split_names rank _ names) as [p a] eqn:Hs. destruct (IH _ _ _ Hs) as (Hnd & Hp & Ha).
  assert (∀ m, m ∉ ({[n]} ∪ seen : gset string) ↔ m ≠ n ∧ m ∉ seen) as Hseen by set_solver.
  destruct (is_some (rank !! n)) eqn:Hr; intros [= <- <-]; (split; [try constructor; rewrite ?Hp, ?Hseen; tauto || done|]);
    split; intros m; rewrite ?elem_of_cons, ?Hp, ?Ha, ?Hseen; destruct (decide (m = n)) as [->|]; intuition congruence.
Qed.

#[local] Existing Instances older_first_trans older_first_total.
#[local] Instance newest_first_trans rank : Transitive (newest_first rank).
Proof. intros a b c. unfold newest_first. lia. Qed.
#[local] Instance newest_first_total rank : Total (newest_first rank).
Proof. intros a b. unfold newest_first. lia. Qed.
(** [a] has a snapshot at least as new as one of [b]. *)
Definition not_older (l : list Snapshot) (a b : string) : Prop :=
  ∃ s t, s ∈ l ∧ t ∈ l ∧ sn_name s = a ∧ sn_name t = b ∧ (sn_snaptime t ≤ sn_snaptime s)%Z.
Lemma StronglySorted_sublist {A} (R : A → A → Prop) l k :
  l `sublist_of` k → StronglySorted R k → StronglySorted R l.
Proof.
  induction 1 as [|x l k Hs IH|x l k Hs IH]; intros Hk; [done| |]; apply StronglySorted_inv in Hk as [Hk Hall]; [|by apply IH].
  constructor; [by apply IH|]. rewrite Forall_forall in *. intros y Hy. apply Hall. by eapply elem_of_sublist.
Qed.
Lemma StronglySorted_at {A} (R : A → A → Prop) l i j x y :
  StronglySorted R l → l !! i = Some x → l !! j = Some y → i < j → R x y.
Proof.
  intros Hs Hi Hj Hij. rewrite <- (take_drop_middle l i x Hi) in Hs.
  apply StronglySorted_app in Hs as (_ & _ & Hs). apply StronglySorted_cons in Hs as [Hall _].
  rewrite Forall_forall in Hall. apply Hall, list_elem_of_lookup. exists (j - S i). rewrite lookup_drop.
  by replace (S i + (j - S i)) with j by lia.
Qed.
(** The order the names are deleted in. *)
Lemma newest_first_sorted listed snaps l names :
  listed ≡ₚ snaps → StronglySorted older_first listed → (∀ n, n ∈ names → is_some (ranks listed !! n) = true) →
  l `sublist_of` merge_sort (newest_first (ranks listed)) names → StronglySorted (not_older snaps) l.
Proof.
  intros Hperm Hsorted Hranked Hsub.
  assert (∀ n, n ∈ l → is_some (ranks listed !! n) = true) as Hl.
  { intros n Hn. apply Hranked. eapply elem_of_sublist in Hsub; [|done]. by rewrite merge_sort_Permutation in Hsub. }
  apply (StronglySorted_sublist (newest_first (ranks listed))) in Hsub; [|apply StronglySorted_merge_sort; apply _].
  clear Hranked. induction Hsub as [|a l Hsub IH Hall]; constructor.
  - apply IH. intros n Hn. apply Hl. by right.
  - rewrite Forall_forall in *. intros b Hb. specialize (Hall b Hb). unfold newest_first in Hall.
    assert (is_some (ranks listed !! a) = true) as Ha by (apply Hl; by left).
    assert (is_some (ranks listed !! b) = true) as Hb' by (apply Hl; by right).
    destruct (ranks listed !! a) as [i|] eqn:Hi; [|done]. destruct (ranks listed !! b) as [j|] eqn:Hj; [|done].
    apply ranks_spec in Hi as (s & Hs & <-). apply ranks_spec in Hj as (t & Ht & <-). cbn in Hall.
    exists s, t. rewrite <- Hperm. split_and!; [by eapply list_elem_of_lookup_2..|done|done|].
    destruct (decide (i = j)) as [->|]; [replace t with s by congruence; lia|].
    by apply (StronglySorted_at older_first listed j i t s); [..|lia].
Qed.
(** * Properties *)

(** C19: vm snapshot rollback, whole. Nothing reaches PVE before the VM's lock is held, and
    the lock and the client are released after all else. A rollback is requested at most
    once, only of the snapshot named, only when a complete list has it as strictly the
    newest, and, when it is to be witnessed, only when it was listed before; the only other
    changes are the witness's commands. A result is printed only when the task of the
    rollback was seen to succeed: [verified] only when the guest ran the wanted command,
    which exited zero, and printed the wanted marker, by default a nonce made now;
    [not-applicable] only for a snapshot listed with no RAM; [skipped] only when asked for. *)
Theorem snapshot_rollback_safe IntOrBool format target vmid name noWitness timeout command marker :
  always (snapshot_rollback IntOrBool format target vmid name noWitness timeout command marker)
    (under_lock true target vmid (λ before node n body r,
       ∃ wm, wanted noWitness command marker before wm ∧
         rolled_back IntOrBool node n name noWitness wm body r)).
Proof.
  apply locked_spec with (PB := wanted noWitness command marker).
  { intros _. apply witness_of_spec. }
  intros before f node n wm Hwm. cbn beta. eapply always_mono.
  { intros tr r H. exists wm. split; [done|exact H]. }
  eapply always_call; [apply rollback_plan_spec|]. intros tr1 [plan|e] (Hr1 & Hm1 & Hplan); cbn [always].
  2: { rewrite app_nil_r. unfold rolled_back. rewrite Hr1, Hm1. split_and!; [done|by intros o ?%elem_of_nil|done]. }
  assert (noWitness = false → ∃ l s, list_read node n l (snap_requests tr1) ∧ Some s ∈ l ∧ sn_name s = name ∧
    (plan = witnessStopped ↔ sn_vmstate s = 0%Z)) as Hlisted by by apply Hplan.
  eapply always_call; [apply pve_call_spec, Rollback_discards_nothing|].
  intros tr2 [[]|e] (Hr2 & Hmost & Hnew & Hres); cbn [always].
  2: { rewrite app_nil_r. apply rolled_back_not; try done.
       - intros Hw. destruct (Hlisted Hw) as (l & s & ? & ? & ? & _). eauto.
       - intros Hne. destruct (Hnew Hne) as (l & f' & l1 & l2 & tr' & -> & ?). exists l, f', l1, l2.
         split; [by left|done]. }
  assert (mutations (snap_requests tr2) ≠ []) as Hne.
  { destruct Hres as (ev & tr' & -> & Hd). apply task_done_mutations in Hd; [|done].
    change (ev :: tr') with ([ev] ++ tr'). rewrite mutations_app. intros [_ ?]%app_nil. done. }
  assert (newest node n name (snap_requests tr2)) as Hnewest.
  { destruct (Hnew Hne) as (l & f' & l1 & l2 & tr' & -> & ?). exists l, f', l1, l2. split; [by left|done]. }
  destruct Hmost as [?|Hm2]; [done|].
  assert (∀ tr3 r,
    Forall (λ m, m = exec_mutation node n wm.1) (mutations (snap_requests tr3)) →
    (∀ o, o ∈ rendered tr3 →
     o = ORolledBack name "skipped" ∧ noWitness = true ∨
     o = ORolledBack name "not-applicable" ∧ noWitness = false ∧ plan = witnessStopped ∨
     o = ORolledBack name "verified" ∧ proven IntOrBool node n wm (snap_requests tr3)) →
    (is_ok r = true → rendered tr3 ≠ []) →
    rolled_back IntOrBool node n name noWitness wm (tr1 ++ tr2 ++ tr3) r) as Hdone.
  { intros tr3 r. by apply rolled_back_done with (plan := plan). }
  destruct noWitness eqn:Hw.
  { cbn [always trigger]. intros r. apply Hdone; [constructor| |done].
    intros o ->%list_elem_of_singleton. by left. }
  destruct plan eqn:Hp.
  3: { cbn [bind always trigger]. intros [] r. apply Hdone; [constructor| |done].
       intros o ->%list_elem_of_singleton. right. by left. }
  all: eapply always_call; [apply witness_call|]; intros tr3 w (Hr3 & Hex & Hprov).
  all: destruct (w.2) as [e|]; [eapply always_mono; [|apply witnessFailure_spec]; intros tr4 r (Hq & Hr4 & Hno);
         apply Hdone; rewrite ?snap_requests_app, ?rendered_app, ?Hq, ?Hr3, ?Hr4, ?app_nil_r;
         [done|by intros o ?%elem_of_nil|by rewrite Hno]|].
  all: cbn [always trigger]; intros r; apply Hdone; rewrite ?snap_requests_app, ?rendered_app, ?Hr3; cbn [app];
         [by rewrite app_nil_r| |done].
  all: intros o ->%list_elem_of_singleton; right; right; split; [done|].
  all: change (snap_requests [_]) with (@nil (event pveE)); rewrite app_nil_r; by apply Hprov.
Qed.

(** Vm snapshot delete, whole. Nothing reaches PVE before the VM's lock is held. Only
    names it was given are deleted, each at most once, each one the list read under the lock
    has, the newest first, whatever order they were given in. A result is printed only when
    the names it says are deleted are those deleted, those it says are absent are the ones
    given that the list lacked, and a last complete list has none of the others left. *)
Theorem snapshot_delete_newest_first format target vmid names :
  always (snapshot_delete format target vmid names)
    (under_lock true target vmid (λ _ node n body r,
       let reqs := snap_requests body in
       ∃ deleted,
         mutations reqs = delete_mutation node n <$> deleted ∧ NoDup deleted ∧
         (∀ nm, nm ∈ deleted → nm ∈ names) ∧
         (deleted ≠ [] → ∃ snaps, list_read node n snaps reqs ∧
            StronglySorted (not_older (realSnapshots snaps)) deleted ∧
            ∀ nm, nm ∈ deleted → nm ∈ snapshot_names (realSnapshots snaps)) ∧
         (∀ o, o ∈ rendered body → ∃ absent snaps, o = ODeleted deleted absent ∧
            list_read node n snaps reqs ∧
            (∀ nm, nm ∈ absent ↔ nm ∈ names ∧ nm ∉ snapshot_names (realSnapshots snaps)) ∧
            ∀ nm, nm ∈ names → nm ∈ absent ∨
              ∃ left, list_read node n left reqs ∧ has_current left = true ∧
                nm ∉ snapshot_names (realSnapshots left)) ∧
         (is_ok r = true → rendered body ≠ []))).
Proof.
  apply locked_spec with (PB := λ _ _, True).
  { intros n. by destruct (delete_names_err n names). }
  intros before f node n [] _. cbn beta.
  eapply always_call; [apply pve_call_spec, ListSnapshots_spec|]. intros tr1 [snaps|e] (Hr1 & Hm1 & Hl1); cbn [always].
  2: { rewrite app_nil_r. exists []. rewrite Hr1, Hm1. split_and!; try done; [constructor|by intros ? ?%elem_of_nil|by intros o ?%elem_of_nil]. }
  cbv zeta. set (listed := merge_sort older_first (realSnapshots snaps)).
  destruct (split_names (ranks listed) ∅ names) as [present absent] eqn:Hsplit.
  apply split_names_spec in Hsplit as (Hnd & Hp & Ha).
  assert (∀ nm, is_some (ranks listed !! nm) = true ↔ nm ∈ snapshot_names (realSnapshots snaps)) as Hin.
  { intros nm. rewrite ranks_listed. unfold snapshot_names. rewrite elem_of_list_to_set, list_elem_of_fmap.
    subst listed. setoid_rewrite merge_sort_Permutation. naive_solver. }
  assert (∀ nm, nm ∈ absent ↔ nm ∈ names ∧ nm ∉ snapshot_names (realSnapshots snaps)) as Habsent.
  { intros nm. rewrite Ha, <- Hin. destruct (is_some _); split; set_solver. }
  assert (∀ nm, nm ∈ names → nm ∈ absent ∨ nm ∈ present) as Hsplit.
  { intros nm Hnm. rewrite Ha, Hp. destruct (is_some _); set_solver. }
  destruct present as [|p ps] eqn:Hpresent; rewrite <- Hpresent in *.
  { subst present. cbn [bind always trigger snd fst]. intros r. exists [].
    rewrite snap_requests_app, rendered_app, Hr1, mutations_app, Hm1.
    split_and!; [done|constructor|by intros ? ?%elem_of_nil|done| |done].
    intros o ->%list_elem_of_singleton. exists absent, snaps. split_and!; [done| |done|].
    - unfold list_read. rewrite elem_of_app. left. by apply Hl1.
    - intros nm Hnm. destruct (Hsplit nm Hnm) as [?|?%elem_of_nil]; [by left|done]. }
  eapply always_call; [apply pve_call_spec, always_and; [apply cascade_order|apply CascadeDeleteSnapshots_exact]|].
  intros tr2 [d o] (Hr2 & (l & Hsub & Hmu & Hd) & _ & _ & _ & _ & Hfinal). cbn [fst snd] in *.
  assert (∀ nm, nm ∈ l → nm ∈ present) as Hlp.
  { intros nm Hnm. eapply elem_of_sublist in Hsub; [|done]. by rewrite merge_sort_Permutation in Hsub. }
  assert (∀ tr3, snap_requests tr3 = [] → let reqs := snap_requests (tr1 ++ tr2 ++ tr3) in
    mutations reqs = delete_mutation node n <$> l ∧ NoDup l ∧ (∀ nm, nm ∈ l → nm ∈ names) ∧
    list_read node n snaps reqs ∧
    StronglySorted (not_older (realSnapshots snaps)) l ∧ ∀ nm, nm ∈ l → nm ∈ snapshot_names (realSnapshots snaps)) as Hall.
  { intros tr3 H3. cbv zeta. rewrite !snap_requests_app, H3, !mutations_app, Hm1, Hmu. split_and!.
    - by rewrite app_nil_r.
    - eapply sublist_NoDup, Hsub. by rewrite merge_sort_Permutation.
    - intros nm Hnm. by apply Hlp, Hp in Hnm as [? _].
    - unfold list_read. rewrite elem_of_app. left. by apply Hl1.
    - apply (newest_first_sorted listed _ _ present); [apply merge_sort_Permutation|
        apply (StronglySorted_merge_sort older_first)| |done].
      intros nm Hnm. by apply Hp in Hnm as (_ & _ & ?).
    - intros nm Hnm. by apply Hin, Hp, Hlp. }
  destruct o as [e|]; cbn [always trigger].
  - exists l. destruct (Hall [] eq_refl) as (? & ? & ? & ? & ? & ?). split_and!; [done..|eauto| |done].
    rewrite !rendered_app, Hr1, Hr2. by intros o ?%elem_of_nil.
  - intros r. exists l. destruct (Hall [Ev (SRender f (ODeleted d absent)) r] eq_refl) as (? & ? & ? & ? & ? & ?).
    split_and!; [done..|eauto| |by rewrite !rendered_app, Hr1, Hr2].
    rewrite !rendered_app, Hr1, Hr2. intros o ->%list_elem_of_singleton. exists absent, snaps.
    split_and!; [by rewrite Hd|done|done|]. intros nm Hnm. destruct (Hsplit nm Hnm) as [?|Hpres]; [by left|right].
    destruct (Hfinal eq_refl) as (left & tr' & Htr & Hcur & Hgone). exists left. split_and!; [|done|].
    + unfold list_read. rewrite !snap_requests_app, Htr, !elem_of_app. right. left. right. by left.
    + apply Hgone. by rewrite merge_sort_Permutation.
Qed.

(** A host with two snapshots of VM 100, the newer without RAM, whose tasks succeed. *)
Definition quiet_host : env snapE unit := λ R e,
  let snapshots := [Some {| sn_name := "old"; sn_snaptime := 10; sn_vmstate := 1 |};
                    Some {| sn_name := "base"; sn_snaptime := 20; sn_vmstate := 0 |};
                    Some {| sn_name := "current"; sn_snaptime := 0; sn_vmstate := 0 |}] in
  let upid := "UPID:pve1:0000A1B2:00C3D4E5:65F00000:qmrollback:100:root@pam:" in
  let pve R (e : pveE R) := match e in pveE R return R → R with
    | PcSnapshots _ => λ _, Ok (Some snapshots)
    | PcNewTask _ => λ _, Some "pve1"
    | PcTask _ => λ _, Ok ("stopped", "OK")
    | Http _ _ _ => λ _, HResp 200 "200 OK" (double_quoted ("{'data':'" +:+ upid +:+ "'}"))
    | _ => λ d, d
    end (rest_env (λ _ _ _, HTransport (errorf "down")) _ e tt).1 in
  match e in snapE R return unit → R * unit with
  | SOpen _ => λ s, (Ok "pve1", s)
  | SClose => λ s, (tt, s)
  | SRoster => λ s, (Ok tt, s)
  | SLock _ => λ s, (Ok tt, s)
  | SReadLock _ => λ s, (Ok tt, s)
  | SUnlock => λ s, (tt, s)
  | SRandom => λ s, (Ok "0123456789abcdef", s)
  | SInterrupted => λ s, (false, s)
  | SNotice _ => λ s, (tt, s)
  | SRender _ _ => λ s, (Ok tt, s)
  | SAgent e => λ s,
      (match e in agentE R return R with
       | APve e => pve _ e
       | ACtxErr _ => None
       | ASelect _ => WDeadline
       | ARemaining => 0%Z
       | APause _ => None
       end, s)
  end.
Definition printed_by (m : io snapE (res unit)) : option (list output * list (string * string * Values) * bool) :=
  match run quiet_host m tt with
  | Some (tr, r, _) => Some (rendered tr, mutations (snap_requests tr), is_ok r)
  | None => None
  end.
Example rollback_to_stopped :
  printed_by (snapshot_rollback (λ _, None) "kv" "lab" "100" "base" false 1000 [] "") =
    Some ([ORolledBack "base" "not-applicable"], [rollback_mutation "pve1" 100 "base"], true).
Proof. vm_compute. reflexivity. Qed.
Example rollback_refused_older :
  printed_by (snapshot_rollback (λ _, None) "kv" "lab" "100" "old" true 1000 [] "") = Some ([], [], false).
Proof. vm_compute. reflexivity. Qed.
(** A host whose list never changes: the delete is requested, and then found not done. *)
Example delete_unconfirmed :
  printed_by (snapshot_delete "kv" "lab" "100" ["gone"; "old"; "base"; "old"]) =
    Some ([], [delete_mutation "pve1" 100 "base"; delete_mutation "pve1" 100 "old"], false).
Proof. vm_compute. reflexivity. Qed.
