(* ===== verification/Rotation.v ===== *)
(** internal/bootstrap/rotation.go: the life of a target's API token. The reads that come
    before any change ([preflight]), and the token phase: reuse of the held token, or its
    removal, and the mint, validation and persistence of a new one. *)
From Stdlib Require Import Ascii.
From S2P Require Import Prelude GoLib Errors Json Utf8 ShellQuote Rest OpRun Client Remote Grants AccessLists Cluster RootAccess KvJson Roster.

(** ** Options, and what the phase calls *)
Record Options :=
  { TargetID_ : string; Host : string; Node_ : string; APIPort : Z; InsecureTLS : bool; TLSPin : string;
    TokenOwner : string; TokenID : string }.
Record APIConfig := { cfg_Host : string; cfg_APIPort : Z; cfg_InsecureTLS : bool; cfg_TLSPin : string;
                      cfg_TokenID : string; TokenSecret : string }.
(** [TRun] is a command of the session, under the bound of a configuration write or not;
    [TReconnect] dials another, [TClose] closes the one it replaces; [TValidate] is
    [api.ValidateTokenGrants]; [TPause] the select between a timer and the caller's context,
    whose error it answers; the others are the roster's operations and its passphrase's. *)
Inductive tokenE : Type → Type :=
| TRun (write : bool) (cmd : string) : tokenE (res Result_)
| TReconnect : tokenE (res unit)
| TClose : tokenE unit
| TValidate (cfg : APIConfig) (want : list Grant) : tokenE (res unit)
| TPause : tokenE (option err)
| TNow : tokenE Z
| TLoad : tokenE (res Roster)
| TDecrypt (enc : string) : tokenE (res string)
| TDryRun : tokenE (res unit)
| TWriteToken (id secret : string) : tokenE (res unit)
| TClearToken : tokenE (res unit)
| TUpdateFields (host node : string) (port : Z) (insecure : bool) : tokenE (res unit).

(** ** Outcomes *)
Definition OutcomeMinted : string := "minted".
Definition OutcomeReplaced : string := "replaced".
Definition OutcomeReused : string := "reused".
Definition OutcomeRevokedNotReplaced : string := "revoked_not_replaced".
Definition OutcomeDiscarded : string := "discarded".
Definition ValidationVerified : string := "verified".
Definition ValidationUnverified : string := "unverified".
Definition ValidationFailed : string := "failed".
Definition ValidationNotRun : string := "not_run".
Definition RosterTokenCleared : string := "cleared".
Definition RosterTokenStaleRevoked : string := "stale_revoked".
Definition RosterTokenStaleAbsent : string := "stale_absent".
Definition PriorTokenUnknown : string := "unknown".
Definition LeftoverExists : string := "exists".
Definition LeftoverMayExist : string := "may_exist".
(** [Result], the fields the token phase sets. *)
Record Result :=
  { TokenOutcome : string; Validation : string; res_Grants : list Grant; Replaced : option (string * option err);
    PriorRevoked : bool; OrphanedToken : string; Leftover : option (string * string); RosterToken : string;
    PriorToken : string }.
Definition no_result : Result :=
  {| TokenOutcome := ""; Validation := ""; res_Grants := []; Replaced := None; PriorRevoked := false;
     OrphanedToken := ""; Leftover := None; RosterToken := ""; PriorToken := "" |}.

Definition verdictSentinels : list sentinel := [ErrWrongScope; ErrNoGrants; ErrNotAuthorized; ErrScopeTooWide].
Definition postMintRetrySentinels : list sentinel := [ErrNotAuthorized; ErrNoGrants; ErrWrongScope].
Definition heldSecretRejectedSentinels : list sentinel := [ErrNotAuthorized].
Definition matchesAny (e : err) (set : list sentinel) : bool := existsb (λ s, errors_Is s e) set.
Definition isVerdict (e : err) : bool := matchesAny e verdictSentinels.
Definition postMintRetryable (e : err) : bool := matchesAny e postMintRetrySentinels.
Definition heldSecretRejected (e : err) : bool := matchesAny e heldSecretRejectedSentinels.
Definition postMintAttempts : nat := 3.

(** ** Reads over the session *)
Definition runJSONArray {A} (dec : list (string * json) → option A) (cmd : string) : io tokenE (res (list A)) :=
  let? r := trigger (TRun false cmd) orelse wrapf ("run " +:+ firstWords cmd) in
  Ret (if bool_decide (ExitCode r = 0%Z) then decodeJSONArray dec cmd (Stdout r) else Er (exit_err cmd r)).
Definition tokenListCmd (userID : string) : string :=
  "pveum user token list " +:+ ShellQuote userID +:+ " --output-format json".
Definition tokenPresent (userID tokenID : string) : io tokenE (res bool) :=
  let? l := runJSONArray (struct_get "tokenid" to_string "") (tokenListCmd userID) orelse id in
  Ret (Ok (bool_decide (tokenID ∈ l))).

(** ** preflight *)
(** The privileges of each role wanted. *)
Fixpoint wanted_privs (roles : list (string * option string)) (want : list Grant) (out : gmap string (list string))
    : res (gmap string (list string)) :=
  match want with
  | [] => Ok out
  | g :: want' =>
      if is_some (out !! Role g) then wanted_privs roles want' out
      else
        match list_find (λ r, r.1 = Role g) roles with
        | None => Er (wrapf_post "preflight" (sent ErrUnknownRole) (quote (Role g)))
        | Some (_, (_, privs)) =>
            let^ ps := parseRolePrivs privs orelse wrapf ("preflight: role " +:+ Role g) in
            if bool_decide (ps = []) then Er (wrapf_post "preflight" (sent ErrRoleHasNoPrivileges) (Role g))
            else wanted_privs roles want' (<[Role g := ps]> out)
        end
  end.
Fixpoint check_pinned (rolePrivs : gmap string (list string)) (want : list Grant) : res unit :=
  match want with
  | [] => Ok tt
  | g :: want' =>
      match Privs g with
      | None => check_pinned rolePrivs want'
      | Some ps =>
          let d := setDiff ps (default [] (rolePrivs !! Role g)) in
          if bool_decide (d = ([], [])) then check_pinned rolePrivs want'
          else Er (wrapf_post "preflight" (sent ErrPinnedPrivsMismatch)
            (Role g +:+ " at " +:+ Path g +:+ ": pinned but not in the role [" +:+ Join "," d.1
             +:+ "], in the role but not pinned [" +:+ Join "," d.2 +:+ "]; no token was touched"))
      end
  end.

(** The owner: active, and holding what is wanted. *)
Definition user_list_cmd : string := "pveum user list --output-format json".
Record owner_entry := { UserID_ : string; Enable_ : option Z; Expire_ : option Z }.
Definition owner_entry_of (o : list (string * json)) : option owner_entry :=
  match struct_get "userid" to_string "" o, struct_get "enable" to_int_ptr None o, struct_get "expire" to_int_ptr None o with
  | Some u, Some en, Some ex => Some {| UserID_ := u; Enable_ := en; Expire_ := ex |}
  | _, _, _ => None
  end.
Definition ownerActive (owner : string) : io tokenE (res bool) :=
  let? users := runJSONArray owner_entry_of user_list_cmd orelse id in
  match list_find (λ u, UserID_ u = owner) users with
  | None => Ret (Er (errorf "the owner is not in pveum's user list"))
  | Some (_, u) =>
      match Enable_ u, Expire_ u with
      | Some enable, Some expire =>
          let! expired := (if (0 <? expire)%Z then let! now := trigger TNow in Ret (expire <=? now)%Z else Ret false) in
          Ret (Ok ((enable =? 1)%Z && negb expired))
      | _, _ => Ret (Er (errorf ("the owner's user list entry lacks " +:+ quote "enable" +:+ " or " +:+ quote "expire")))
      end
  end.
Definition perm_flag (j : json) : option bool :=
  match j with
  | JBool b => Some b
  | JNum lit => if eqb lit "1" then Some true else if eqb lit "0" then Some false else None
  | _ => None
  end.
Fixpoint perm_flags (cmd : string) (l : list (string * json)) : res (list (string * bool)) :=
  match l with
  | [] => Ok []
  | (name, v) :: l' =>
      guard^ privNameRE name orelse
        errorf (firstWords cmd +:+ ": the answer holds a name that is not a privilege name") in
      match perm_flag v with
      | None => Er (errorf (firstWords cmd +:+ ": privilege " +:+ name +:+ " has a flag that is not 0/1/true/false"))
      | Some b => let^ rest := perm_flags cmd l' orelse id in Ok ((name, b) :: rest)
      end
  end.
(** The answer: one path, the one asked for, and its privileges. *)
Definition decode_owner_perms (cmd path stdout : string) : res (gmap string bool) :=
  let t := trim_space stdout in
  let bad := errorf (firstWords cmd +:+ " printed " +:+ itoa (Z.of_nat (slen t)) +:+ " bytes that are not a permission object") in
  match parse_json t with
  | Some (JObj l) =>
      guard^ forallb (λ kv : string * json, match kv.2 with JNull | JObj _ => true | _ => false end) l orelse bad in
      let tree := fields_of l in
      match tree !! path with
      | Some (JObj set) =>
          if bool_decide (size tree = 1) then
            let^ flags := perm_flags cmd (map_to_list (fields_of set)) orelse id in Ok (list_to_map flags)
          else Er (errorf (firstWords cmd +:+ ": the answer is not keyed by exactly the requested path"))
      | _ => Er (errorf (firstWords cmd +:+ ": the answer is not keyed by exactly the requested path"))
      end
  | _ => Er bad
  end.
Definition owner_perms_cmd (owner path : string) : string :=
  "pveum user permissions " +:+ ShellQuote owner +:+ " --path " +:+ ShellQuote path +:+ " --output-format json".
Definition ownerPerms (owner path : string) : io tokenE (res (gmap string bool)) :=
  let cmd := owner_perms_cmd owner path in
  let? r := trigger (TRun false cmd) orelse wrapf ("run " +:+ firstWords cmd) in
  Ret (if bool_decide (ExitCode r = 0%Z) then decode_owner_perms cmd path (Stdout r) else Er (exit_err cmd r)).
Definition ownerCovers (perms : gmap string bool) (g : Grant) (privs : list string) : list string * list string :=
  (sort_strings (filter (λ p, perms !! p = None) privs),
   sort_strings (filter (λ p, Propagate g = true ∧ perms !! p = Some false) privs)).
Fixpoint check_covers (owner : string) (rolePrivs : gmap string (list string)) (read : gmap string (gmap string bool))
    (want : list Grant) : io tokenE (res unit) :=
  match want with
  | [] => Ret (Ok tt)
  | g :: want' =>
      let? perms := (match read !! Path g with Some p => Ret (Ok p) | None => ownerPerms owner (Path g) end)
        orelse wrapf ("check token owner " +:+ owner +:+ " at " +:+ Path g) in
      let d := ownerCovers perms g (match Privs g with Some ps => ps | None => default [] (rolePrivs !! Role g) end) in
      guard bool_decide (d = ([], [])) orelse
        refusal ErrOwnerLacksPrivileges (": " +:+ owner +:+ " at " +:+ Path g +:+ " lacks [" +:+ Join "," d.1
          +:+ "] and holds without propagate [" +:+ Join "," d.2 +:+ "]; no token was touched") in
      check_covers owner rolePrivs (<[Path g := perms]> read) want'
  end.
Definition checkOwner (owner : string) (want : list Grant) (rolePrivs : gmap string (list string)) : io tokenE (res unit) :=
  if eqb owner "root@pam" then Ret (Ok tt)
  else
    let? active := ownerActive owner orelse wrapf ("check token owner " +:+ owner) in
    guard active orelse refusal ErrOwnerDisabled (": " +:+ owner +:+ "; no token was touched") in
    check_covers owner rolePrivs ∅ want.
Definition node_list_cmd : string := "pvesh get /nodes --output-format json".
Definition preflight (o : Options) (want : list Grant) : io tokenE (res bool) :=
  let? roles := runJSONArray role_entry role_list_cmd orelse wrapf "preflight" in
  match wanted_privs roles want ∅ with
  | Er e => Ret (Er e)
  | Ok rolePrivs =>
      match check_pinned rolePrivs want with
      | Er e => Ret (Er e)
      | Ok _ =>
          let? nodes := runJSONArray (struct_get "node" to_string "") node_list_cmd orelse wrapf "preflight" in
          guard bool_decide (Node_ o ∈ nodes) orelse wrapf_post "preflight" (sent ErrUnknownNode) (quote (Node_ o)) in
          let? _ := checkOwner (TokenOwner o) want rolePrivs orelse wrapf "preflight" in
          let? present := tokenPresent (TokenOwner o) (TokenID o) orelse wrapf "preflight" in
          let? _ := trigger TDryRun orelse wrapf "preflight" in
          Ret (Ok present)
      end
  end.

(** ** The held token *)
Record heldToken := { held_ID : string; held_Secret : string; DecryptErr : option err }.
Definition load_err (path : string) : err → err := wrapf ("load roster " +:+ path).
Definition loadHeldToken (path : string) (o : Options) : io tokenE (res heldToken) :=
  let? r := trigger TLoad orelse load_err path in
  match Find r (TargetID_ o) with
  | None => Ret (Er (errorf ("target " +:+ quote (TargetID_ o) +:+ " not found in roster")))
  | Some tg =>
      match Token tg with
      | None => Ret (Ok {| held_ID := ""; held_Secret := ""; DecryptErr := None |})
      | Some t =>
          let! secret := trigger (TDecrypt (SecretEnc t)) in
          Ret (Ok match secret with
                  | Ok s => {| held_ID := ta_ID t; held_Secret := s; DecryptErr := None |}
                  | Er e => {| held_ID := ta_ID t; held_Secret := ""; DecryptErr := Some e |}
                  end)
      end
  end.
(** [parseTokenSecret] of bootstrap.go. *)
Definition token_value (l : list (string * json)) : option string := struct_get "value" to_string "" l.
Definition enveloped_value (l : list (string * json)) : option string :=
  struct_get "data" (λ s j, match j with JNull => Some s | JObj d => struct_get "value" to_string s d | _ => None end) "" l.
Definition nonempty (o : option string) : option string :=
  match o with Some s => if eqb s "" then None else Some s | None => None end.
Definition parseTokenSecret (stdout : string) : res string :=
  let what := "parse pveum token add output: " in
  match parse_json stdout with
  | Some (JObj l) =>
      match or_else (nonempty (token_value l)) (nonempty (enveloped_value l)) with
      | Some s => Ok s
      | None => Er (errorf (what +:+ "no " +:+ quote "value" +:+ " field found (top-level keys: ["
                  +:+ Join " " (sort_strings (map_to_list (fields_of l)).*1) +:+ "])"))
      end
  | Some JNull => Er (errorf (what +:+ "no " +:+ quote "value" +:+ " field found (top-level keys: [])"))
  | _ => Er (errorf (what +:+ "unexpected output shape (" +:+ itoa (Z.of_nat (slen stdout)) +:+ " bytes, not a JSON object)"))
  end.

(** ** The runner *)
(** [res], [removed] and [cleanupErr] of the runner. *)
Record runner := { res_ : Result; removed : bool; cleanupErr : option err }.
Definition outcome := (option Result * option err)%type.
Section run.
Context (path : string) (o : Options) (want : list Grant).
Definition fullID : string := TokenOwner o +:+ "!" +:+ TokenID o.
Definition what : string := "bootstrap " +:+ TargetID_ o.
Definition cfg_of (id secret : string) : APIConfig :=
  {| cfg_Host := Host o; cfg_APIPort := APIPort o; cfg_InsecureTLS := InsecureTLS o; cfg_TLSPin := TLSPin o;
     cfg_TokenID := id; TokenSecret := secret |}.
Inductive tokenState := tokenAbsent | tokenPresentState | tokenUnreadable.
Definition readToken (reconnect : bool) : io tokenE tokenState :=
  let! dialed := (if reconnect then trigger TReconnect else Ret (Ok tt)) in
  match dialed with
  | Er _ => Ret tokenUnreadable
  | Ok _ =>
      let! _ := (if reconnect then trigger TClose else Ret tt) in
      let! present := tokenPresent (TokenOwner o) (TokenID o) in
      Ret match present with
          | Er _ => tokenUnreadable
          | Ok true => tokenPresentState
          | Ok false => tokenAbsent
          end
  end.
Definition reread : io tokenE tokenState := readToken true.
Definition removeCmd : string :=
  "pveum user token remove " +:+ ShellQuote (TokenOwner o) +:+ " " +:+ ShellQuote (TokenID o).
Definition set_outcome (s : string) (r : Result) : Result :=
  {| TokenOutcome := s; Validation := Validation r; res_Grants := res_Grants r; Replaced := Replaced r;
     PriorRevoked := PriorRevoked r; OrphanedToken := OrphanedToken r; Leftover := Leftover r;
     RosterToken := RosterToken r; PriorToken := PriorToken r |}.
Definition set_validation (s : string) (r : Result) : Result :=
  {| TokenOutcome := TokenOutcome r; Validation := s; res_Grants := res_Grants r; Replaced := Replaced r;
     PriorRevoked := PriorRevoked r; OrphanedToken := OrphanedToken r; Leftover := Leftover r;
     RosterToken := RosterToken r; PriorToken := PriorToken r |}.
Definition set_granted (gs : list Grant) (orphan : string) (r : Result) : Result :=
  {| TokenOutcome := TokenOutcome r; Validation := Validation r; res_Grants := gs; Replaced := Replaced r;
     PriorRevoked := PriorRevoked r; OrphanedToken := orphan; Leftover := Leftover r;
     RosterToken := RosterToken r; PriorToken := PriorToken r |}.
Definition set_replaced (reason : string) (e : option err) (r : Result) : Result :=
  {| TokenOutcome := TokenOutcome r; Validation := Validation r; res_Grants := res_Grants r;
     Replaced := Some (reason, e); PriorRevoked := PriorRevoked r; OrphanedToken := OrphanedToken r;
     Leftover := Leftover r; RosterToken := RosterToken r; PriorToken := PriorToken r |}.
Definition set_revoked (prior : string) (r : Result) : Result :=
  {| TokenOutcome := TokenOutcome r; Validation := Validation r; res_Grants := res_Grants r; Replaced := Replaced r;
     PriorRevoked := true; OrphanedToken := OrphanedToken r; Leftover := Leftover r;
     RosterToken := RosterToken r; PriorToken := prior |}.
Definition set_leftover (state : string) (r : Result) : Result :=
  {| TokenOutcome := TokenOutcome r; Validation := Validation r; res_Grants := res_Grants r; Replaced := Replaced r;
     PriorRevoked := PriorRevoked r; OrphanedToken := OrphanedToken r; Leftover := Some (fullID, state);
     RosterToken := RosterToken r; PriorToken := PriorToken r |}.
Definition set_roster (s : string) (r : Result) : Result :=
  {| TokenOutcome := TokenOutcome r; Validation := Validation r; res_Grants := res_Grants r; Replaced := Replaced r;
     PriorRevoked := PriorRevoked r; OrphanedToken := OrphanedToken r; Leftover := Leftover r;
     RosterToken := s; PriorToken := PriorToken r |}.
Definition upd (f : Result → Result) (r : runner) : runner :=
  {| res_ := f (res_ r); removed := removed r; cleanupErr := cleanupErr r |}.
Definition revoked (prior : string) (r : runner) : runner :=
  {| res_ := set_revoked prior (res_ r); removed := true; cleanupErr := cleanupErr r |}.
Definition leftover (state : string) : runner → runner := upd (set_leftover state).

Definition fail (r : runner) (cause : err) : outcome :=
  let res := set_outcome (if removed r then OutcomeRevokedNotReplaced else OutcomeDiscarded) (res_ r) in
  let res := if eqb (Validation res) "" then set_validation ValidationNotRun res else res in
  let e := match cleanupErr r with
           | Some c => Err KText (Error cause +:+ "; and the cleanup left the token behind: " +:+ Error c) [cause; c]
           | None => cause
           end in
  let e := if removed r then Err KText (sentinel_text ErrPriorTokenRevoked +:+ ": " +:+ Error e) [sent ErrPriorTokenRevoked; e]
           else e in
  (Some res, Some (wrapf what e)).

Definition removeFresh (r : runner) : io tokenE runner :=
  let! out := trigger (TRun true removeCmd) in
  let gone := match out with Ok x => bool_decide (ExitCode x = 0%Z) | Er _ => false end in
  if gone then Ret r
  else
    let! st := readToken (negb (is_ok out)) in
    match st with
    | tokenAbsent => Ret r
    | _ =>
        let unsure := match out with Er e => writeOutcomeUnknown e | Ok _ => false end in
        let state := match st with tokenUnreadable => LeftoverMayExist | _ => if unsure then LeftoverMayExist else LeftoverExists end in
        let cause := match out with
          | Er e => wrapf ("remove the fresh token " +:+ fullID) e
          | Ok x => errorf ("remove the fresh token " +:+ fullID +:+ ": pveum user token remove exited "
                      +:+ itoa (ExitCode x) +:+ ": " +:+ trim_space (Stderr x))
          end in
        Ret (leftover state {| res_ := res_ r; removed := removed r; cleanupErr := Some cause |})
    end.

(** At most [n] attempts: a verdict about the token, or another error. *)
Fixpoint post_mint (n : nat) (first : bool) (secret : string) (sawVerdict : option err)
    : io tokenE (option err * option err) :=
  match n with
  | 0 => Ret (sawVerdict, None)
  | S n' =>
      let! stop := (if first then Ret None else trigger TPause) in
      match stop with
      | Some x => Ret match sawVerdict with Some v => (Some v, None) | None => (None, Some x) end
      | None =>
          let! r := trigger (TValidate (cfg_of fullID secret) want) in
          match r with
          | Ok _ => Ret (None, None)
          | Er e =>
              if isVerdict e && negb (postMintRetryable e) then Ret (Some e, None)
              else if postMintRetryable e then post_mint n' false secret (Some e)
              else match sawVerdict with
                   | None => Ret (None, Some e)
                   | Some _ => post_mint n' false secret sawVerdict
                   end
          end
      end
  end.
Definition validatePostMint (secret : string) : io tokenE (option err * option err) :=
  post_mint postMintAttempts true secret None.

Definition own_token : Principal := {| p_Kind := "token"; p_ID := fullID |}.
Fixpoint grantAll (gs : list Grant) : io tokenE (res unit) :=
  match gs with
  | [] => Ret (Ok tt)
  | g :: gs' =>
      let? r := trigger (TRun true (acl_modify own_token g)) orelse wrapf "run pveum acl modify" in
      guard bool_decide (ExitCode r = 0%Z) orelse
        errorf ("pveum acl modify exited " +:+ itoa (ExitCode r) +:+ ": " +:+ Stderr r) in
      grantAll gs'
  end.
Definition persistTargetMeta : io tokenE (res unit) :=
  trigger (TUpdateFields (Host o) (Node_ o) (APIPort o) (InsecureTLS o)).
Definition addCmd : string :=
  "pveum user token add " +:+ ShellQuote (TokenOwner o) +:+ " " +:+ ShellQuote (TokenID o)
  +:+ " --privsep 1 --output-format json".
(** The minted token is dropped again, and the run fails. *)
Definition drop (r : runner) (cause : err) : io tokenE outcome :=
  let! r := removeFresh r in Ret (fail r cause).
Definition mintAndPersist (r : runner) (successOutcome orphan : string) : io tokenE outcome :=
  let! out := trigger (TRun true addCmd) in
  match out with
  | Er e =>
      let! st := reread in
      let! r := (match st with
                 | tokenPresentState => removeFresh r
                 | tokenUnreadable => Ret (leftover LeftoverMayExist r)
                 | tokenAbsent => Ret (if writeOutcomeUnknown e then leftover LeftoverMayExist r else r)
                 end) in
      Ret (fail r (wrapf "run pveum user token add" e))
  | Ok x =>
      if negb (bool_decide (ExitCode x = 0%Z)) then
        Ret (fail r (errorf ("pveum user token add exited " +:+ itoa (ExitCode x) +:+ ": " +:+ trim_space (Stderr x))))
      else
        match parseTokenSecret (Stdout x) with
        | Er e => drop r (wrapf "create token" e)
        | Ok secret =>
            let! granted := grantAll want in
            match granted with
            | Er e => drop r (wrapf "grant acl" e)
            | Ok _ =>
                let! v := validatePostMint secret in
                match v.1 with
                | Some verdict =>
                    drop (upd (set_validation ValidationFailed) r) (wrapf "the fresh token failed validation" verdict)
                | None =>
                    let r := upd (set_validation match v.2 with Some _ => ValidationUnverified | None => ValidationVerified end) r in
                    let! wrote := trigger (TWriteToken fullID secret) in
                    match wrote with
                    | Er e => drop r (wrapf "persist token auth" e)
                    | Ok _ =>
                        let res := set_granted want orphan (set_outcome successOutcome (res_ r)) in
                        let! meta := persistTargetMeta in
                        Ret (Some res,
                             match meta, v.2 with
                             | Er e, _ => Some (wrapf what e)
                             | Ok _, Some nonVerdict =>
                                 Some (wrapf (what +:+ ": the token was persisted but its grants could not be verified") nonVerdict)
                             | Ok _, None => None
                             end)
                    end
                end
            end
        end
  end.

Definition secretRejected (cause : err) : err :=
  Err KText (what +:+ ": " +:+ sentinel_text ErrTokenSecretRejected +:+ ": " +:+ fullID +:+ " (" +:+ Error cause
    +:+ "); the token was left untouched on PVE and in the roster. Check which cause applies: this roster is an older copy than the one in use, or another holder rotated the token; the owner is disabled or expired, or the token itself expired; a 403 refused a role read; a proxy answered 403. For a stale copy, put the current secret in this roster: pipe it into pveforge roster import-token "
    +:+ ShellQuote (TargetID_ o) +:+ " --token-id " +:+ ShellQuote fullID
    +:+ " --replace, with this run's --grant flags. Only as a last resort, once the cause is known: " +:+ removeCmd
    +:+ " (this revokes it for every holder), then run bootstrap again") [sent ErrTokenSecretRejected; cause].
Definition notHeld : err :=
  wrapf_post what (sent ErrTokenNotHeld)
    (fullID +:+ "; to replace it deliberately, remove it first: " +:+ removeCmd +:+ " (this revokes it for every holder)").
Definition priorUnknown (r : runner) (cause : err) : io tokenE outcome :=
  let r := revoked PriorTokenUnknown r in
  let! c := trigger TClearToken in
  Ret (fail (upd (set_roster match c with Ok _ => RosterTokenCleared | Er _ => RosterTokenStaleRevoked end) r) cause).
(** Removes the held token on PVE: the runner to go on with, or the phase's outcome. *)
Definition removeHeld (r : runner) : io tokenE (runner + outcome) :=
  let! out := trigger (TRun true removeCmd) in
  match out with
  | Ok x =>
      Ret (if bool_decide (ExitCode x = 0%Z) then inl (revoked "" r)
           else inr (None, Some (errorf (what +:+ ": pveum user token remove exited " +:+ itoa (ExitCode x)
                  +:+ "; pveforge did not revoke the token: " +:+ trim_space (Stderr x)))))
  | Er e =>
      let! st := reread in
      match st with
      | tokenAbsent => Ret (inl (revoked "" r))
      | tokenPresentState =>
          if negb (writeOutcomeUnknown e) then
            Ret (inr (None, Some (errorf (what +:+ ": pveum user token remove failed (" +:+ Error e
                  +:+ ") and the token still exists; pveforge did not revoke it"))))
          else
            let! f := priorUnknown r (errorf ("pveum user token remove timed out (" +:+ Error e
              +:+ "); the token was still listed after it, but the remove may yet take effect, so whether it was revoked is unknown")) in
            Ret (inr f)
      | tokenUnreadable =>
          let! f := priorUnknown r (errorf ("pveum user token remove failed (" +:+ Error e
            +:+ ") and the follow-up read could not establish whether the token still exists")) in
          Ret (inr f)
      end
  end.
Definition start : runner := {| res_ := no_result; removed := false; cleanupErr := None |}.
(** The held token cannot be used: it is removed if PVE has it, then replaced. *)
Definition replace (present : bool) (reason : string) (cause : option err) : io tokenE outcome :=
  let r := upd (set_replaced reason cause) start in
  let! next := (if present then removeHeld r else Ret (inl r)) in
  match next with
  | inr f => Ret f
  | inl r =>
      let! c := trigger TClearToken in
      match c with
      | Er e =>
          Ret (fail (upd (set_roster (if removed r then RosterTokenStaleRevoked else RosterTokenStaleAbsent)) r)
                 (wrapf "clear the roster's copy of the dead token" e))
      | Ok _ => mintAndPersist (upd (set_roster RosterTokenCleared) r) OutcomeReplaced ""
      end
  end.
Definition tokenPhase (present : bool) : io tokenE outcome :=
  let! held := loadHeldToken path o in
  match held with
  | Er e => Ret (None, Some (wrapf what e))
  | Ok held =>
      if eqb (held_ID held) "" then
        if present then Ret (None, Some notHeld) else mintAndPersist start OutcomeMinted ""
      else if negb (eqb (held_ID held) fullID) then
        if present then Ret (None, Some notHeld) else mintAndPersist start OutcomeMinted (held_ID held)
      else
        match DecryptErr held with
        | Some e =>
            if present then
              Ret (None, Some (wrapf_post what (sent ErrTokenUndecryptable)
                (fullID +:+ "; the token was left untouched on PVE and in the roster. If it really is lost, remove it deliberately: "
                 +:+ removeCmd +:+ " (this revokes it for every holder)")))
            else replace present "persisted token undecryptable" (Some e)
        | None =>
            let! checked := trigger (TValidate (cfg_of (held_ID held) (held_Secret held)) want) in
            match checked with
            | Ok _ =>
                let res := set_granted want "" (set_validation ValidationVerified (set_outcome OutcomeReused no_result)) in
                let! meta := persistTargetMeta in
                Ret (Some res, match meta with Er e => Some (wrapf what e) | Ok _ => None end)
            | Er e =>
                if negb (isVerdict e) then
                  Ret (None, Some (wrapf (what +:+ ": the existing token could not be checked (not a verdict about it, so nothing was changed)") e))
                else if present && heldSecretRejected e then Ret (None, Some (secretRejected e))
                else replace present (Error e) (Some e)
            end
        end
  end.
(** What a reprovision replaced: the previous host key fingerprint and TLS pin. *)
Definition replacedPins (key pin : string) : string :=
  let parts := (if eqb key "" then [] else ["the SSH host key pin (previous " +:+ key +:+ ")"])
    ++ (if eqb pin "" then [] else ["the TLS pin (previous " +:+ pin +:+ ")"]) in
  match parts with
  | [] => "the stored pins already match"
  | [_] => "this run replaced " +:+ Join " and " parts +:+ "; it now matches"
  | _ => "this run replaced " +:+ Join " and " parts +:+ "; they now match"
  end.
(** What [Run] does once it has a session; [pins] are those a reprovision replaced, if the
    run is one. *)
Definition token_run (pins : option (string * string)) : io tokenE outcome :=
  let! present := preflight o want in
  match present with
  | Er e =>
      Ret (None, Some match pins with
        | Some (key, pin) =>
            Err KText (what +:+ ": " +:+ Error e +:+ "; " +:+ replacedPins key pin +:+ " the rebuilt node: recreate the token owner and its ACLs on it (for the nested harness's outer target: D5 G1-G3), then run the same command again") [e]
        | None => wrapf what e
        end)
  | Ok present =>
      let! out := tokenPhase present in
      Ret match out, pins with
          | (None, Some e), Some (key, pin) => (None, Some (Err KText (Error e +:+ "; " +:+ replacedPins key pin) [e]))
          | _, _ => out
          end
  end.
End run.

(** * Specification *)
(** What a run changed, in order: PVE's configuration, the roster's copy of the token and
    the target's fields. *)
Inductive change :=
| CWrite (cmd : string) (r : res Result_)
| CPersist (id secret : string) (r : res unit)
| CClear (r : res unit)
| CFields (r : res unit).
Definition change_of (ev : event tokenE) : option change :=
  match ev with
  | @Ev _ _ (TRun true cmd) r => Some (CWrite cmd r)
  | @Ev _ _ (TWriteToken id secret) r => Some (CPersist id secret r)
  | @Ev _ _ TClearToken r => Some (CClear r)
  | @Ev _ _ (TUpdateFields _ _ _ _) r => Some (CFields r)
  | _ => None
  end.
Definition changes (tr : list (event tokenE)) : list change := omap change_of tr.
Lemma log_app tr tr' : changes (tr ++ tr') = changes tr ++ changes tr'.
Proof. apply omap_app. Qed.
Lemma log_cons ev tr :
  changes (ev :: tr) = match change_of ev with Some c => c :: changes tr | None => changes tr end.
Proof. done. Qed.
Definition exited_zero (r : res Result_) : Prop := match r with Ok x => ExitCode x = 0%Z | Er _ => False end.

Section spec.
Context (path : string) (o : Options) (want : list Grant).
Local Notation fullID := (fullID o).
Local Notation removeCmd := (removeCmd o).
Local Notation addCmd := (addCmd o).
(** The last read of the owner's tokens, nothing changed after it. *)
Definition listed (present : bool) (tr : list (event tokenE)) : Prop :=
  ∃ tr1 tr2 x l, tr = tr1 ++ Ev (TRun false (tokenListCmd (TokenOwner o))) (Ok x) :: tr2 ∧ changes tr2 = [] ∧
    ExitCode x = 0%Z ∧ decodeJSONArray (struct_get "tokenid" to_string "") (tokenListCmd (TokenOwner o)) (Stdout x) = Ok l ∧
    present = bool_decide (TokenID o ∈ l).
(** The roster holds this very token, and [secret] is what its stored secret decrypts to. *)
Definition held_secret (tr : list (event tokenE)) (secret : string) : Prop :=
  ∃ roster tg t, Ev TLoad (Ok roster) ∈ tr ∧ Find roster (TargetID_ o) = Some tg ∧ Token tg = Some t ∧
    ta_ID t = fullID ∧ Ev (TDecrypt (SecretEnc t)) (Ok secret) ∈ tr.
(** The roster holds this very token, its secret was read, and what PVE says of it is a
    verdict, not a refusal of the secret. *)
Definition verdict_on_held (tr : list (event tokenE)) : Prop :=
  ∃ roster tg t secret e, Ev TLoad (Ok roster) ∈ tr ∧ Find roster (TargetID_ o) = Some tg ∧ Token tg = Some t ∧
    ta_ID t = fullID ∧ Ev (TDecrypt (SecretEnc t)) (Ok secret) ∈ tr ∧
    Ev (TValidate (cfg_of o fullID secret) want) (Er e) ∈ tr ∧ isVerdict e = true ∧ heldSecretRejected e = false.
Definition grant_write (g : Grant) (x : Result_) : change := CWrite (acl_modify (own_token o) g) (Ok x).
(** Every grant wanted was given to the token. *)
Definition granted (log : list change) : Prop :=
  ∃ xs, log = zip_with grant_write want xs ∧ length xs = length want ∧ Forall (λ x, ExitCode x = 0%Z) xs.

(** * Lemmas *)
Lemma listed_app_l present tr tr' : listed present tr' → listed present (tr ++ tr').
Proof. intros (tr1 & tr2 & x & l & -> & ?). exists (tr ++ tr1), tr2, x, l. by rewrite <- app_assoc. Qed.
Lemma listed_app_r present tr tr' : changes tr' = [] → listed present tr → listed present (tr ++ tr').
Proof.
  intros H (tr1 & tr2 & x & l & -> & H2 & ?). exists tr1, (tr2 ++ tr'), x, l.
  rewrite log_app, H2, H, <- app_assoc. done.
Qed.
Lemma runJSONArray_spec {A} (dec : list (string * json) → option A) cmd :
  always (runJSONArray dec cmd) (λ tr r, changes tr = [] ∧ ∀ l, r = Ok l →
    ∃ x, tr = [Ev (TRun false cmd) (Ok x)] ∧ ExitCode x = 0%Z ∧ decodeJSONArray dec cmd (Stdout x) = Ok l).
Proof.
  unfold runJSONArray. cbn [bind trigger always]. intros [x|e]; cbn [always]; split; try done.
  case_bool_decide; [|done]. intros l Hl. by exists x.
Qed.
Lemma tokenPresent_spec :
  always (tokenPresent (TokenOwner o) (TokenID o)) (λ tr r, changes tr = [] ∧ ∀ b, r = Ok b → listed b tr).
Proof.
  unfold tokenPresent. eapply always_call; [apply runJSONArray_spec|]. intros tr [l|e] [Hc Hr]; cbn [always]; rewrite app_nil_r.
  - split; [done|]. intros b [= <-]. destruct (Hr l eq_refl) as (x & -> & ? & ?). by exists [], [], x, l.
  - by split.
Qed.
Lemma readToken_spec reconnect :
  always (readToken o reconnect) (λ tr st, changes tr = [] ∧
    match st with tokenAbsent => listed false tr | tokenPresentState => listed true tr | tokenUnreadable => True end).
Proof.
  unfold readToken.
  assert (always (tokenPresent (TokenOwner o) (TokenID o)) (λ tr r, changes tr = [] ∧
    match (match r with Er _ => tokenUnreadable | Ok true => tokenPresentState | Ok false => tokenAbsent end) with
    | tokenAbsent => listed false tr | tokenPresentState => listed true tr | tokenUnreadable => True end)) as H.
  { eapply always_mono; [|apply tokenPresent_spec]. intros tr [[]|e] [Hc Hl]; split; auto. }
  destruct reconnect; cbn [bind trigger always].
  - intros [[]|e]; cbn [bind trigger always]; [|done]. intros [].
    apply always_bind. eapply always_mono; [|exact H]. intros tr r [Hc Hl]. cbn [always]. rewrite app_nil_r.
    split; [done|]. destruct r as [[]|]; [| |done]; by apply (listed_app_l _ [_; _]).
  - apply always_bind. eapply always_mono; [|exact H]. intros tr r Hl. cbn [always]. by rewrite app_nil_r.
Qed.

Lemma removeFresh_spec r :
  always (removeFresh o r) (λ tr r', ∃ out, changes tr = [CWrite removeCmd out] ∧
    (r' = r ∧ (exited_zero out ∨ listed false tr) ∨
     ∃ state, res_ r' = set_leftover o state (res_ r) ∧ removed r' = removed r)).
Proof.
  unfold removeFresh. cbn [bind trigger always]. intros out. cbv zeta.
  destruct (match out with Ok x => bool_decide _ | Er _ => false end) eqn:Hg.
  { cbn [always]. exists out. split; [done|]. left. split; [done|]. left. destruct out; [|done].
    by apply bool_decide_eq_true in Hg. }
  eapply always_call; [apply readToken_spec|]. intros tr st [Hc Hl].
  destruct st; cbn [always]; exists out; rewrite app_nil_r;
    (split; [change (CWrite removeCmd out :: changes tr = [CWrite removeCmd out]); by rewrite Hc|]).
  - left. split; [done|]. right. by apply (listed_app_l _ [_]).
  - right. by eexists.
  - right. by eexists.
Qed.
Lemma grantAll_spec gs :
  always (grantAll o gs) (λ tr r,
    match r with
    | Ok _ => ∃ xs, changes tr = zip_with grant_write gs xs ∧ length xs = length gs ∧ Forall (λ x, ExitCode x = 0%Z) xs
    | Er _ => Forall (λ c, ∃ g y, g ∈ gs ∧ c = CWrite (acl_modify (own_token o) g) y) (changes tr)
    end).
Proof.
  induction gs as [|g gs IH]; cbn [grantAll]; [by exists []|]. cbn [bind trigger always]. intros [x|e]; cbn [always].
  2: { constructor; [|constructor]. exists g, (Er e). split; [by left|done]. }
  case_bool_decide as Hx; cbn [always].
  2: { constructor; [|constructor]. exists g, (Ok x). split; [by left|done]. }
  eapply always_mono; [|exact IH]. intros tr [[]|e].
  - intros (xs & Htr & Hl & ?). exists (x :: xs). rewrite log_cons, Htr. split_and!; [done|cbn; lia|by constructor].
  - intros Hall. rewrite log_cons. constructor; [exists g, (Ok x); split; [by left|done]|].
    eapply Forall_impl; [exact Hall|]. intros c (g' & y & ? & ->). exists g', y. split; [by right|done].
Qed.
Lemma post_mint_spec n first secret saw :
  0 < n ∨ saw ≠ None →
  always (post_mint o want n first secret saw) (λ tr v, changes tr = [] ∧
    (v = (None, None) → Ev (TValidate (cfg_of o fullID secret) want) (Ok tt) ∈ tr)).
Proof.
  revert first saw. induction n as [|n IH]; intros first saw Hn; cbn [post_mint].
  { split; [done|]. intros [= ->]. destruct Hn; [lia|done]. }
  assert (∀ first' saw', always
    (let! r := trigger (TValidate (cfg_of o fullID secret) want) in
     match r with
     | Ok _ => Ret (None, None)
     | Er e =>
         if isVerdict e && negb (postMintRetryable e) then Ret (Some e, None)
         else if postMintRetryable e then post_mint o want n first' secret (Some e)
         else match saw' with
              | None => Ret (None, Some e)
              | Some _ => post_mint o want n first' secret saw'
              end
     end) (λ tr v, changes tr = [] ∧
    (v = (None, None) → Ev (TValidate (cfg_of o fullID secret) want) (Ok tt) ∈ tr))) as H.
  { intros first' saw'. cbn [bind trigger always]. intros [[]|e]; cbn [always].
    { split; [done|]. intros _. by left. }
    destruct (_ && _); [done|]. destruct (postMintRetryable e).
    { eapply always_mono; [|apply IH; by right]. intros tr v [? Hv]. split; [done|]. intros Heq. right. by apply Hv. }
    destruct saw' as [v'|]; [|done].
    eapply always_mono; [|apply IH; by right]. intros tr v [? Hv]. split; [done|]. intros Heq. right. by apply Hv. }
  destruct first; [exact (H false saw)|]. apply always_bind. cbn [always trigger]. intros [x|].
  { by destruct saw. }
  eapply always_mono; [|exact (H false saw)]. intros tr v [? Hv]. split; [done|]. intros Heq. right. by apply Hv.
Qed.

(** ** Minting *)
(** The outcome of [fail]. *)
Definition failed (r : runner) (out : outcome) : Prop :=
  ∃ res e, out = (Some res, Some e) ∧ Leftover res = Leftover (res_ r) ∧ PriorRevoked res = PriorRevoked (res_ r) ∧
    TokenOutcome res = (if removed r then OutcomeRevokedNotReplaced else OutcomeDiscarded) ∧
    (removed r = true → errors_Is ErrPriorTokenRevoked e = true).
Lemma fail_spec r cause : failed r (fail o r cause).
Proof.
  unfold failed, fail. do 2 eexists. split; [done|].
  destruct (eqb _ ""); (split_and!; [done..|]); intros ->; by rewrite errors_Is_wrapf.
Qed.
Lemma failed_leftover state r out : failed (leftover o state r) out → ∃ res e, out = (Some res, Some e) ∧ Leftover res = Some (fullID, state).
Proof. intros (res & e & -> & Hl & _). by exists res, e. Qed.

(** A new token is minted, given every grant wanted, validated and persisted. *)
Definition minted (r : runner) (success orphan : string) (tr : list (event tokenE)) (out : outcome) : Prop :=
  ∃ x secret log m res e,
    changes tr = CWrite addCmd (Ok x) :: log ++ [CPersist fullID secret (Ok tt); CFields m] ∧
    ExitCode x = 0%Z ∧ parseTokenSecret (Stdout x) = Ok secret ∧ granted log ∧
    out = (Some res, e) ∧ TokenOutcome res = success ∧ res_Grants res = want ∧ OrphanedToken res = orphan ∧
    PriorRevoked res = PriorRevoked (res_ r) ∧ Leftover res = Leftover (res_ r) ∧
    (Validation res = ValidationVerified ∧ Ev (TValidate (cfg_of o fullID secret) want) (Ok tt) ∈ tr ∨
     Validation res = ValidationUnverified ∧ e ≠ None).
(** The run failed, with the token that may have been made accounted for: refused, seen
    gone, or reported as left over. *)
Definition not_minted (r : runner) (tr : list (event tokenE)) (out : outcome) : Prop :=
  ∃ a log res e, changes tr = CWrite addCmd a :: log ∧ out = (Some res, Some e) ∧
    TokenOutcome res = (if removed r then OutcomeRevokedNotReplaced else OutcomeDiscarded) ∧
    PriorRevoked res = PriorRevoked (res_ r) ∧ (removed r = true → errors_Is ErrPriorTokenRevoked e = true) ∧
    (∀ id secret y, CPersist id secret y ∈ log → id = fullID ∧ is_ok y = false ∧
       ∃ x gs rest, a = Ok x ∧ ExitCode x = 0%Z ∧ parseTokenSecret (Stdout x) = Ok secret ∧ granted gs ∧ log = gs ++ rest) ∧
    (∀ cmd y, CWrite cmd y ∈ log → cmd = removeCmd ∨ ∃ g, g ∈ want ∧ cmd = acl_modify (own_token o) g) ∧
    (∀ y, CClear y ∉ log) ∧
    ((∃ x, a = Ok x ∧ ExitCode x ≠ 0%Z ∧ log = []) ∨
     (∃ log' y, log = log' ++ [CWrite removeCmd y] ∧ exited_zero y) ∨
     listed false tr ∨ ∃ state, Leftover res = Some (fullID, state)).
Lemma drop_spec r cause :
  always (drop o r cause) (λ tr out, ∃ y res e, changes tr = [CWrite removeCmd y] ∧ out = (Some res, Some e) ∧
    TokenOutcome res = (if removed r then OutcomeRevokedNotReplaced else OutcomeDiscarded) ∧
    PriorRevoked res = PriorRevoked (res_ r) ∧ (removed r = true → errors_Is ErrPriorTokenRevoked e = true) ∧
    (exited_zero y ∨ listed false tr ∨ ∃ state, Leftover res = Some (fullID, state))).
Proof.
  unfold drop. eapply always_call; [apply removeFresh_spec|]. intros tr r' (y & Hc & Hr). cbn [always].
  rewrite app_nil_r. destruct (fail_spec r' cause) as (res & e & -> & Hl & Hp & Ho & He). exists y, res, e.
  destruct Hr as [[-> Hg]|(state & Hres & Hrem)].
  - split_and!; [done..|]. destruct Hg; auto.
  - rewrite Hrem, Hres in *. split_and!; [done..|]. right. right. by exists state.
Qed.
(** What a mint had done when it drops the token again. *)
Definition undone (a : res Result_) (log : list change) : Prop :=
  (∀ id secret y, CPersist id secret y ∈ log → id = fullID ∧ is_ok y = false ∧
     ∃ x gs rest, a = Ok x ∧ ExitCode x = 0%Z ∧ parseTokenSecret (Stdout x) = Ok secret ∧ granted gs ∧ log = gs ++ rest) ∧
  (∀ cmd y, CWrite cmd y ∈ log → ∃ g, g ∈ want ∧ cmd = acl_modify (own_token o) g) ∧ (∀ y, CClear y ∉ log).
Lemma not_minted_drop r r' tr a log cause :
  changes tr = CWrite addCmd a :: log → undone a log →
  removed r' = removed r → PriorRevoked (res_ r') = PriorRevoked (res_ r) →
  always (drop o r' cause) (λ tr' out, not_minted r (tr ++ tr') out).
Proof.
  intros Hc (Hpers & Hwr & Hcl) Hrem Hprior. eapply always_mono; [|apply drop_spec].
  intros tr' out (y & res & e & Hc' & -> & Ho & Hp & He & Hgone). rewrite Hrem in *.
  exists a, (log ++ [CWrite removeCmd y]), res, e. rewrite log_app, Hc, Hc'. split_and!; try done.
  - by rewrite Hp.
  - intros id secret z [Hz|[=]%list_elem_of_singleton]%elem_of_app.
    destruct (Hpers id secret z Hz) as (? & ? & x & gs & rest & ? & ? & ? & ? & ->).
    split_and!; [done..|]. exists x, gs, (rest ++ [CWrite removeCmd y]). by rewrite app_assoc.
  - intros cmd z [Hz|[= -> _]%list_elem_of_singleton]%elem_of_app; [right; by eapply Hwr|by left].
  - intros z [Hz|[=]%list_elem_of_singleton]%elem_of_app. by eapply Hcl.
  - destruct Hgone as [Hg|[Hg|Hg]].
    + right. left. by exists log, y.
    + right. right. left. by apply listed_app_l.
    + right. right. by right.
Qed.
Lemma undone_writes a log :
  Forall (λ c, ∃ g y, g ∈ want ∧ c = CWrite (acl_modify (own_token o) g) y) log → undone a log.
Proof.
  rewrite Forall_forall. intros Hall. split_and!.
  - intros id secret y Hin. by destruct (Hall _ Hin) as (? & ? & _ & [=]).
  - intros cmd y Hin. destruct (Hall _ Hin) as (g & z & ? & [= -> _]). by exists g.
  - intros y Hin. by destruct (Hall _ Hin) as (? & ? & _ & [=]).
Qed.
Lemma granted_writes log :
  granted log → Forall (λ c, ∃ g y, g ∈ want ∧ c = CWrite (acl_modify (own_token o) g) y) log.
Proof.
  intros (xs & -> & _ & _). apply Forall_forall. intros c Hc.
  apply elem_of_zip_with in Hc as (g & x & -> & Hg & _). exists g, (Ok x). done.
Qed.
Lemma undone_persist x secret log e :
  ExitCode x = 0%Z → parseTokenSecret (Stdout x) = Ok secret → granted log →
  undone (Ok x) (log ++ [CPersist fullID secret (Er e)]).
Proof.
  intros Hx Hp Hg. pose proof (granted_writes _ Hg) as Hall. pose proof (undone_writes (Ok x) log Hall) as (_ & Hw & Hcl).
  rewrite Forall_forall in Hall. split_and!.
  - intros id s y [Hin|[= -> -> ->]%list_elem_of_singleton]%elem_of_app; [by destruct (Hall _ Hin) as (? & ? & _ & [=])|].
    split_and!; [done..|]. by exists x, log, [CPersist fullID secret (Er e)].
  - intros cmd y [Hin|[=]%list_elem_of_singleton]%elem_of_app. by eapply Hw.
  - intros y [Hin|[=]%list_elem_of_singleton]%elem_of_app. by eapply Hcl.
Qed.
(** The mint's last steps. *)
Lemma persist_spec r success orphan x secret log tr v :
  changes tr = CWrite addCmd (Ok x) :: log → ExitCode x = 0%Z → parseTokenSecret (Stdout x) = Ok secret → granted log →
  (v = None → Ev (TValidate (cfg_of o fullID secret) want) (Ok tt) ∈ tr) →
  let r' := upd (set_validation match v with Some _ => ValidationUnverified | None => ValidationVerified end) r in
  always (let! wrote := trigger (TWriteToken fullID secret) in
          match wrote with
          | Er e => drop o r' (wrapf "persist token auth" e)
          | Ok _ =>
              let res := set_granted want orphan (set_outcome success (res_ r')) in
              let! meta := persistTargetMeta o in
              Ret (Some res,
                   match meta, v with
                   | Er e, _ => Some (wrapf (what o) e)
                   | Ok _, Some nonVerdict =>
                       Some (wrapf (what o +:+ ": the token was persisted but its grants could not be verified") nonVerdict)
                   | Ok _, None => None
                   end)
          end)
    (λ tr' out, minted r success orphan (tr ++ tr') out ∨ not_minted r (tr ++ tr') out).
Proof.
  intros Hc Hx Hp Hg Hv. cbv zeta. apply always_bind. cbn [always trigger]. intros [[]|e].
  - unfold persistTargetMeta. cbn [bind trigger always]. intros m. cbn [always]. left.
    eexists x, secret, log, m, _, _. rewrite log_app, Hc. split_and!; try done.
    destruct v as [nv|]; [right|left]; (split; [done|]); [by destruct m|]. rewrite elem_of_app. left. by apply Hv.
  - eapply always_mono; [|eapply (not_minted_drop r _ (tr ++ [Ev (TWriteToken fullID secret) (Er e)]) (Ok x))].
    { intros tr' out H. right. by rewrite app_assoc. }
    + rewrite log_app, Hc. done.
    + by apply undone_persist.
    + done.
    + done.
Qed.
Lemma not_minted_fail r r' tr a cause :
  changes tr = [CWrite addCmd a] → removed r' = removed r → PriorRevoked (res_ r') = PriorRevoked (res_ r) →
  (∃ x, a = Ok x ∧ ExitCode x ≠ 0%Z) ∨ listed false tr ∨ (∃ state, Leftover (res_ r') = Some (fullID, state)) →
  not_minted r tr (fail o r' cause).
Proof.
  intros Hc Hrem Hpri Hgone. destruct (fail_spec r' cause) as (res & e & -> & Hl & Hp & Ho & He). rewrite Hrem in *.
  destruct (undone_writes a [] (Forall_nil_2 _)) as (H1 & H2 & H3).
  exists a, [], res, e. split_and!; try done; [by rewrite Hp|by intros ? ? ?%elem_of_nil|].
  destruct Hgone as [(x & -> & Hx)|[Hg|(state & Hg)]]; [left; by exists x|auto|].
  right. right. right. exists state. by rewrite Hl.
Qed.
(** An add that may or may not have made the token. *)
Lemma unsure_add_spec r e :
  always (let! st := reread o in
          let! r := (match st with
                     | tokenPresentState => removeFresh o r
                     | tokenUnreadable => Ret (leftover o LeftoverMayExist r)
                     | tokenAbsent => Ret (if writeOutcomeUnknown e then leftover o LeftoverMayExist r else r)
                     end) in
          Ret (fail o r (wrapf "run pveum user token add" e)))
    (λ tr out, not_minted r (Ev (TRun true addCmd) (Er e) :: tr) out).
Proof.
  eapply always_call; [apply readToken_spec|]. intros tr st [Hc Hl].
  assert (changes ([Ev (TRun true addCmd) (Er e)] ++ tr) = [CWrite addCmd (Er e)]) as Hadd.
  { by rewrite log_app, Hc. }
  destruct st.
  - cbn [bind always]. rewrite app_nil_r. destruct (writeOutcomeUnknown e);
      (apply not_minted_fail with (a := Er e); [done..|right]); [right; by eexists|left; by apply (listed_app_l _ [_])].
  - eapply always_mono; [|apply (not_minted_drop r r _ (Er e) [] _ Hadd); [by apply undone_writes|done|done]].
    intros tr' out. by rewrite <- ?app_assoc.
  - cbn [bind always]. rewrite app_nil_r. apply not_minted_fail with (a := Er e); [done..|]. right. right. by eexists.
Qed.
Lemma mint_spec r success orphan :
  always (mintAndPersist o want r success orphan) (λ tr out, minted r success orphan tr out ∨ not_minted r tr out).
Proof.
  unfold mintAndPersist. apply always_bind. cbn [always trigger]. intros [x|e].
  2: { eapply always_mono; [|apply unsure_add_spec]. intros tr out H. by right. }
  destruct (negb (bool_decide (ExitCode x = 0%Z))) eqn:Hx.
  { cbn [always]. right. apply not_minted_fail with (a := Ok x); [done..|]. left. exists x. split; [done|].
    by apply negb_true_iff, bool_decide_eq_false in Hx. }
  apply negb_false_iff, bool_decide_eq_true in Hx.
  assert (∀ log c r' tr, changes tr = CWrite addCmd (Ok x) :: log →
    Forall (λ c, ∃ g y, g ∈ want ∧ c = CWrite (acl_modify (own_token o) g) y) log →
    removed r' = removed r → PriorRevoked (res_ r') = PriorRevoked (res_ r) →
    always (drop o r' c) (λ tr' out, minted r success orphan (tr ++ tr') out ∨ not_minted r (tr ++ tr') out)) as Hdrop.
  { intros log c r' tr Hc Hall Hrem Hpri. eapply always_mono; [|eapply not_minted_drop; [exact Hc|by apply undone_writes|exact Hrem|exact Hpri]]. auto. }
  destruct (parseTokenSecret (Stdout x)) as [secret|e] eqn:Hp.
  2: { by apply (Hdrop [] _ r [_]). }
  eapply always_call; [apply grantAll_spec|]. intros tr [[]|e] Hg.
  2: { eapply always_mono; [|by apply (Hdrop (changes tr) _ r ([Ev (TRun true addCmd) (Ok x)] ++ tr))].
       intros tr' out H. cbv beta in H. rewrite <- ?app_assoc in H. exact H. }
  eapply always_call; [apply post_mint_spec; left; unfold postMintAttempts; lia|].
  intros tr2 [v1 v2] [Hc2 Hv]. cbn [fst snd].
  assert (changes ([Ev (TRun true addCmd) (Ok x)] ++ tr ++ tr2) = CWrite addCmd (Ok x) :: changes tr) as Hall.
  { by rewrite !log_app, Hc2, app_nil_r. }
  destruct v1 as [verdict|].
  - eapply always_mono; [|apply (Hdrop (changes tr) _ (upd (set_validation ValidationFailed) r) ([Ev (TRun true addCmd) (Ok x)] ++ tr ++ tr2)); [exact Hall|by apply granted_writes|done|done]].
    intros tr' out H. cbv beta in H. rewrite <- ?app_assoc in H. exact H.
  - eapply always_mono; [|eapply (persist_spec r success orphan x secret (changes tr) _ v2 Hall Hx Hp Hg)].
    + intros tr' out H. cbv beta in H. rewrite <- ?app_assoc in H. exact H.
    + intros ->. rewrite !elem_of_app. right. right. by apply Hv.
Qed.

(** ** The phase *)
(** How a run that changed something went, after the checks. *)
Inductive phase (present : bool) (tr : list (event tokenE)) (out : outcome) : Prop :=
| phase_nothing e : changes tr = [] → out = (None, Some e) → phase present tr out
| phase_reused m secret res e :
    changes tr = [CFields m] → held_secret tr secret →
    Ev (TValidate (cfg_of o fullID secret) want) (Ok tt) ∈ tr → out = (Some res, e) → TokenOutcome res = OutcomeReused → Validation res = ValidationVerified →
    Leftover res = None → PriorRevoked res = false → phase present tr out
| phase_minted orphan :
    present = false →
    minted start OutcomeMinted orphan tr out ∨ not_minted start tr out → phase present tr out
| phase_kept y e :
    present = true → verdict_on_held tr → changes tr = [CWrite removeCmd y] → ¬ exited_zero y →
    out = (None, Some e) → phase present tr out
| phase_unknown y c res e :
    present = true → verdict_on_held tr → changes tr = [CWrite removeCmd y; CClear c] → ¬ exited_zero y →
    out = (Some res, Some e) → PriorRevoked res = true → errors_Is ErrPriorTokenRevoked e = true →
    TokenOutcome res = OutcomeRevokedNotReplaced → Leftover res = None → phase present tr out
| phase_stale tr1 y c r :
    tr = tr1 ++ [Ev TClearToken (Er c)] → failed r out → removed r = present → PriorRevoked (res_ r) = present →
    Leftover (res_ r) = None →
    (present = true → verdict_on_held tr1 ∧ (exited_zero y ∨ listed false tr1)) →
    changes tr1 = (if present then [CWrite removeCmd y] else []) → phase present tr out
| phase_replaced tr1 tr2 y r :
    tr = tr1 ++ [Ev TClearToken (Ok tt)] ++ tr2 → removed r = present → PriorRevoked (res_ r) = present →
    Leftover (res_ r) = None →
    (present = true → verdict_on_held tr1 ∧ (exited_zero y ∨ listed false tr1)) →
    changes tr1 = (if present then [CWrite removeCmd y] else []) →
    minted r OutcomeReplaced "" tr2 out ∨ not_minted r tr2 out → phase present tr out.

Lemma removeHeld_spec r :
  always (removeHeld o r) (λ tr x, ∃ y,
    match x with
    | inl r' => changes tr = [CWrite removeCmd y] ∧ (exited_zero y ∨ listed false tr) ∧ r' = revoked "" r
    | inr out => ¬ exited_zero y ∧
        ((∃ e, changes tr = [CWrite removeCmd y] ∧ out = (None, Some e)) ∨
         ∃ c res e, changes tr = [CWrite removeCmd y; CClear c] ∧ out = (Some res, Some e) ∧ PriorRevoked res = true ∧
           errors_Is ErrPriorTokenRevoked e = true ∧ TokenOutcome res = OutcomeRevokedNotReplaced ∧
           Leftover res = Leftover (res_ r))
    end).
Proof.
  unfold removeHeld. apply always_bind. cbn [always trigger]. intros [x|e].
  { cbn [always]. exists (Ok x). case_bool_decide as Hx; [split_and!; [done|by left|done]|].
    split; [done|]. left. by eexists. }
  eapply always_call; [apply readToken_spec|]. intros tr st [Hc Hl].
  assert (∀ cause, always (let! f := priorUnknown o r cause in Ret (inr f : runner + outcome)) (λ tr' x, ∃ y, ¬ exited_zero y ∧
    match x with
    | inl _ => False
    | inr out => ∃ c res e', changes ([Ev (TRun true removeCmd) (Er e)] ++ tr ++ tr') = [CWrite removeCmd y; CClear c] ∧
        out = (Some res, Some e') ∧ PriorRevoked res = true ∧
        errors_Is ErrPriorTokenRevoked e' = true ∧ TokenOutcome res = OutcomeRevokedNotReplaced ∧ Leftover res = Leftover (res_ r)
    end)) as Hunknown.
  { intros cause. unfold priorUnknown. cbv zeta. cbn [bind trigger always]. intros c. cbn [always]. exists (Er e).
    split; [by intros []|].
    match goal with |- context [fail _ ?q _] => destruct (fail_spec q cause) as (res & e' & -> & Hle & Hp & Ho & He) end.
    exists c, res, e'. rewrite !log_app, Hc. split_and!; try done; by apply He. }
  destruct st; cbn [always].
  - exists (Er e). rewrite app_nil_r. split_and!; [|right; by apply (listed_app_l _ [_])|done]. by rewrite log_app, Hc.
  - destruct (negb _).
    + cbn [always]. exists (Er e). split; [by intros []|]. left. eexists. split; [|done]. by rewrite app_nil_r, log_app, Hc.
    + eapply always_mono; [|apply Hunknown]. intros tr' [?|out] (y & Hy & H); [done|]. exists y. split; [done|]. by right.
  - eapply always_mono; [|apply Hunknown]. intros tr' [?|out] (y & Hy & H); [done|]. exists y. split; [done|]. by right.
Qed.
Lemma verdict_mono tr tr' : verdict_on_held tr → verdict_on_held (tr ++ tr').
Proof.
  intros (ro & tg & t & s & e & ? & ? & ? & ? & ? & ? & ?). exists ro, tg, t, s, e. rewrite !elem_of_app. tauto.
Qed.
(** The end of a replacement, once the held token is off PVE. *)
Lemma cleared_spec present tr1 y r :
  removed r = present → PriorRevoked (res_ r) = present → Leftover (res_ r) = None →
  (present = true → verdict_on_held tr1 ∧ (exited_zero y ∨ listed false tr1)) →
  changes tr1 = (if present then [CWrite removeCmd y] else []) →
  always (let! c := trigger TClearToken in
          match c with
          | Er e =>
              Ret (fail o (upd (set_roster (if removed r then RosterTokenStaleRevoked else RosterTokenStaleAbsent)) r)
                     (wrapf "clear the roster's copy of the dead token" e))
          | Ok _ => mintAndPersist o want (upd (set_roster RosterTokenCleared) r) OutcomeReplaced ""
          end) (λ tr out, phase present (tr1 ++ tr) out).
Proof.
  intros Hrem Hpri Hlef Hver Hc. apply always_bind. cbn [always trigger]. intros [[]|e].
  - eapply always_mono; [|apply mint_spec]. intros tr out Hm.
    eapply (phase_replaced _ _ _ tr1 tr y (upd (set_roster RosterTokenCleared) r)); done.
  - cbn [always]. rewrite app_nil_r.
    eapply (phase_stale _ _ _ tr1 y e (upd (set_roster _) r)); try done. apply fail_spec.
Qed.
Lemma replace_spec present reason cause tr0 :
  changes tr0 = [] → (present = true → verdict_on_held tr0) →
  always (replace o want present reason cause) (λ tr out, phase present (tr0 ++ tr) out).
Proof.
  intros Hc0 Hver. unfold replace. cbv zeta. set (r := upd (set_replaced reason cause) start).
  destruct present; [|by apply (cleared_spec false tr0 (Ok {| Stdout := ""; Stderr := ""; ExitCode := 0 |}) r)].
  eapply always_call; [apply removeHeld_spec|]. intros tr [r'|out] (y & Hx).
  - destruct Hx as (Hc & Hgone & ->).
    eapply always_mono; [|eapply (cleared_spec true (tr0 ++ tr) y (revoked "" r)); try done].
    { intros tr' out. by rewrite app_assoc. }
    + intros _. split; [by apply verdict_mono, Hver|]. destruct Hgone; [by left|right; by apply listed_app_l].
    + by rewrite log_app, Hc0, Hc.
  - cbn [always]. rewrite app_nil_r. destruct Hx as [Hy [(e & Hc & ->)|(c & res & e & Hc & -> & Hp & He & Ho & Hl)]].
    + eapply phase_kept; [done|by apply verdict_mono, Hver|by rewrite log_app, Hc0, Hc|done|done].
    + eapply phase_unknown; [done|by apply verdict_mono, Hver|by rewrite log_app, Hc0, Hc|done..].
Qed.
Lemma loadHeldToken_spec :
  always (loadHeldToken path o) (λ tr r, changes tr = [] ∧ ∀ h, r = Ok h → held_ID h ≠ "" →
    ∃ roster tg t, Ev TLoad (Ok roster) ∈ tr ∧ Find roster (TargetID_ o) = Some tg ∧ Token tg = Some t ∧
      ta_ID t = held_ID h ∧ (DecryptErr h = None → Ev (TDecrypt (SecretEnc t)) (Ok (held_Secret h)) ∈ tr)).
Proof.
  unfold loadHeldToken. cbn [bind trigger always]. intros [roster|e]; cbn [always]; [|done].
  destruct (Find roster _) as [tg|] eqn:Hf; [|done]. destruct (Token tg) as [t|] eqn:Ht; cbn [bind trigger always].
  2: { split; [done|]. by intros h [= <-]. }
  intros s. cbn [always]. split; [done|]. intros h [= <-] Hid. exists roster, tg, t.
  destruct s as [s|e]; cbn in *; (split_and!; [by left|done|done|done|]); [intros _; right; by left|done].
Qed.
Lemma minted_quiet r success orphan pre tr out :
  changes pre = [] → minted r success orphan tr out → minted r success orphan (pre ++ tr) out.
Proof.
  intros Hpre (x & secret & log & m & res & e & Hc & ? & ? & ? & ? & ? & ? & ? & ? & ? & Hv).
  exists x, secret, log, m, res, e. rewrite log_app, Hpre. split_and!; try done.
  rewrite elem_of_app. tauto.
Qed.
Lemma not_minted_quiet r pre tr out : changes pre = [] → not_minted r tr out → not_minted r (pre ++ tr) out.
Proof.
  intros Hpre (a & log & res & e & Hc & ? & ? & ? & ? & ? & ? & ? & Hg). exists a, log, res, e.
  rewrite log_app, Hpre. split_and!; try done. destruct Hg as [?|[?|[?|?]]]; auto.
  right. right. left. by apply listed_app_l.
Qed.
Ltac regroup := let H := fresh in intros ? ? H; cbv beta in H; rewrite <- ?app_assoc in H; exact H.
Lemma tokenPhase_spec present tr0 :
  changes tr0 = [] → always (tokenPhase path o want present) (λ tr out, phase present (tr0 ++ tr) out).
Proof.
  intros Hc0. unfold tokenPhase. eapply always_call; [apply loadHeldToken_spec|]. intros tr [held|e] [Hc Hheld].
  2: { cbn [always]. eapply phase_nothing; [|done]. by rewrite !log_app, Hc0, Hc. }
  assert (∀ e, phase present (tr0 ++ tr ++ []) (None, Some e)) as Hno.
  { intros e. eapply phase_nothing; [|done]. by rewrite !log_app, Hc0, Hc. }
  assert (∀ orphan, present = false → always (mintAndPersist o want start OutcomeMinted orphan)
    (λ tr' out, phase present (tr0 ++ tr ++ tr') out)) as Hmint.
  { intros orphan ->. eapply always_mono; [|apply mint_spec]. intros tr' out H.
    apply (phase_minted _ _ _ orphan); [done|]. rewrite app_assoc.
    assert (changes (tr0 ++ tr) = []) by by rewrite log_app, Hc0, Hc.
    destruct H; [left; by apply minted_quiet|right; by apply not_minted_quiet]. }
  destruct (eqb (held_ID held) "") eqn:Hid.
  { destruct present; [apply Hno|by apply Hmint]. }
  destruct (negb (eqb (held_ID held) fullID)) eqn:Hfull.
  { destruct present; [apply Hno|by apply Hmint]. }
  apply negb_false_iff, eqb_true in Hfull.
  destruct (Hheld held eq_refl) as (roster & tg & t & Hload & Hfind & Htok & Hta & Hdec).
  { intros H. by rewrite H in Hid. }
  destruct (DecryptErr held) as [e|].
  { destruct present; [apply Hno|]. eapply always_mono; [|apply (replace_spec false _ _ (tr0 ++ tr)); [by rewrite log_app, Hc0, Hc|done]].
    regroup. }
  apply always_bind. cbn [always trigger]. intros [[]|e].
  { unfold persistTargetMeta. cbn [bind trigger always]. intros m. cbn [always]; eapply phase_reused; [| | |reflexivity|reflexivity..].
    - rewrite !log_app, Hc0, Hc. done.
    - exists roster, tg, t. rewrite !elem_of_app, <- Hfull.
      split_and!; [by right; left|done|done|done|right; left; by apply Hdec].
    - rewrite Hfull. rewrite !elem_of_app. right. right. left. by left. }
  destruct (negb (isVerdict e)) eqn:Hv.
  { eapply phase_nothing; [|done]. by rewrite !log_app, Hc0, Hc. }
  destruct (present && heldSecretRejected e) eqn:Hrej.
  { eapply phase_nothing; [|done]. by rewrite !log_app, Hc0, Hc. }
  eapply always_mono; [|apply (replace_spec present _ _ (tr0 ++ tr ++ [Ev (TValidate (cfg_of o (held_ID held) (held_Secret held)) want) (Er e)]))].
  - regroup.
  - by rewrite !log_app, Hc0, Hc.
  - intros ->. exists roster, tg, t, (held_Secret held), e. rewrite !elem_of_app, <- Hfull.
    split_and!; [by right; left|done|done|done|right; left; by apply Hdec|right; right; by left|by apply negb_false_iff|done].
Qed.

(** ** Preflight *)
(** What the role list [roles] says of a grant. *)
Definition role_known (roles : list (string * option string)) (g : Grant) (ps : list string) : Prop :=
  ∃ privs, (Role g, privs) ∈ roles ∧ parseRolePrivs privs = Ok ps ∧ ps ≠ [] ∧
    ∀ l, Privs g = Some l → ∀ x, x ∈ l ↔ x ∈ ps.
(** The owner's privileges at the grant's path, as PVE listed them, cover it. *)
Definition owner_covers (tr : list (event tokenE)) (g : Grant) (ps : list string) : Prop :=
  ∃ x perms, Ev (TRun false (owner_perms_cmd (TokenOwner o) (Path g))) (Ok x) ∈ tr ∧ ExitCode x = 0%Z ∧
    decode_owner_perms (owner_perms_cmd (TokenOwner o) (Path g)) (Path g) (Stdout x) = Ok perms ∧
    ∀ p, p ∈ (match Privs g with Some l => l | None => ps end) →
      ∃ b, perms !! p = Some b ∧ (Propagate g = true → b = true).
Lemma wanted_privs_spec roles gs out all :
  wanted_privs roles gs out = Ok all →
  (∀ n ps, out !! n = Some ps → all !! n = Some ps) ∧
  ((∀ n ps, out !! n = Some ps → ∃ privs, (n, privs) ∈ roles ∧ parseRolePrivs privs = Ok ps ∧ ps ≠ []) →
   ∀ n ps, all !! n = Some ps → ∃ privs, (n, privs) ∈ roles ∧ parseRolePrivs privs = Ok ps ∧ ps ≠ []) ∧
  ∀ g, g ∈ gs → is_Some (all !! Role g).
Proof.
  revert out. induction gs as [|g gs IH]; intros out; cbn [wanted_privs].
  { intros [= <-]. split_and!; [done|auto|by intros g ?%elem_of_nil]. }
  destruct (out !! Role g) as [ps0|] eqn:Hout; cbn [is_some].
  { intros H. destruct (IH _ H) as (H1 & H2 & H3). split_and!; [done|done|].
    intros g' [->|Hg]%elem_of_cons; [|by apply H3]. by rewrite (H1 _ _ Hout). }
  destruct (list_find _ roles) as [[i [id privs]]|] eqn:Hf; [|done].
  apply list_find_Some in Hf as (Hi & Hid & _). cbn in Hid. subst id.
  destruct (parseRolePrivs privs) as [ps|e] eqn:Hp; [|done]. case_bool_decide as Hne; [done|].
  intros H. destruct (IH _ H) as (H1 & H2 & H3). split_and!.
  - intros n qs Hn. apply H1. rewrite lookup_insert_ne; [done|]. congruence.
  - intros Hinv. apply H2. intros n qs. rewrite lookup_insert. case_decide as Hd; [|apply Hinv].
    intros [= <-]. subst n. exists privs. split; [by eapply list_elem_of_lookup_2|done].
  - intros g' [->|Hg]%elem_of_cons; [|by apply H3]. exists ps. apply H1. by rewrite lookup_insert_eq.
Qed.
Lemma check_pinned_spec all gs :
  check_pinned all gs = Ok tt →
  ∀ g l, g ∈ gs → Privs g = Some l → ∀ x, x ∈ l ↔ x ∈ default [] (all !! Role g).
Proof.
  induction gs as [|g gs IH]; cbn [check_pinned]; [by intros _ g l ?%elem_of_nil|].
  destruct (Privs g) as [ps|] eqn:Hp.
  - case_bool_decide as Hd; [|done]. intros H g' l [->|Hg]%elem_of_cons Hl; [|by apply IH].
    rewrite Hp in Hl. injection Hl as <-. by apply setDiff_nil.
  - intros H g' l [->|Hg]%elem_of_cons Hl; [congruence|by apply IH].
Qed.

Lemma ownerCovers_nil perms g privs p :
  ownerCovers perms g privs = ([], []) → p ∈ privs → ∃ b, perms !! p = Some b ∧ (Propagate g = true → b = true).
Proof.
  unfold ownerCovers. intros [= Hm Hf] Hp.
  assert (∀ P `{!∀ x, Decision (P x)}, sort_strings (filter P privs) = [] → ¬ P p) as Hnone.
  { intros P HP Hs HPp. assert (p ∈ sort_strings (filter P privs)) as Hin
      by (apply sort_strings_elem, list_elem_of_filter; done). rewrite Hs in Hin. by apply elem_of_nil in Hin. }
  apply Hnone in Hm. apply Hnone in Hf. destruct (perms !! p) as [b|]; [|done]. exists b. split; [done|].
  intros Hg. destruct b; [done|]. by destruct Hf.
Qed.
Lemma owner_covers_mono tr tr' g ps : (∀ ev, ev ∈ tr → ev ∈ tr') → owner_covers tr g ps → owner_covers tr' g ps.
Proof. intros Hs (x & perms & Hin & H). exists x, perms. split; [by apply Hs|exact H]. Qed.
Definition perms_read (tr : list (event tokenE)) (p : string) (perms : gmap string bool) : Prop :=
  ∃ x, Ev (TRun false (owner_perms_cmd (TokenOwner o) p)) (Ok x) ∈ tr ∧ ExitCode x = 0%Z ∧
    decode_owner_perms (owner_perms_cmd (TokenOwner o) p) p (Stdout x) = Ok perms.
Lemma ownerPerms_spec p :
  always (ownerPerms (TokenOwner o) p) (λ tr r, changes tr = [] ∧ ∀ perms, r = Ok perms → perms_read tr p perms).
Proof.
  unfold ownerPerms. cbv zeta. cbn [bind trigger always]. intros [x|e]; cbn [always]; split; try done.
  case_bool_decide; [|done]. intros perms Hd. exists x. split; [by left|done].
Qed.
Lemma check_covers_spec all read gs tr0 :
  (∀ p perms, read !! p = Some perms → perms_read tr0 p perms) →
  always (check_covers (TokenOwner o) all read gs) (λ tr r, changes tr = [] ∧
    (r = Ok tt → ∀ g, g ∈ gs → owner_covers (tr0 ++ tr) g (default [] (all !! Role g)))).
Proof.
  revert read tr0. induction gs as [|g gs IH]; intros read tr0 Hread; cbn [check_covers].
  { split; [done|]. by intros _ g ?%elem_of_nil. }
  assert (always (match read !! Path g with Some p => Ret (Ok p) | None => ownerPerms (TokenOwner o) (Path g) end)
    (λ tr r, changes tr = [] ∧ ∀ perms, r = Ok perms → perms_read (tr0 ++ tr) (Path g) perms)) as Hperms.
  { destruct (read !! Path g) as [p|] eqn:Hp.
    - cbn [always]. split; [done|]. intros perms [= <-]. rewrite app_nil_r. by apply Hread.
    - eapply always_mono; [|apply ownerPerms_spec]. intros tr r [Hc Hr]. split; [done|]. intros perms Heq.
      destruct (Hr perms Heq) as (x & Hin & ?). exists x. rewrite elem_of_app. auto. }
  eapply always_call; [exact Hperms|]. intros tr [perms|e] [Hc Hp]; cbn [always]; [|by rewrite app_nil_r].
  specialize (Hp perms eq_refl). case_bool_decide as Hd; cbn [always]; [|by rewrite app_nil_r].
  eapply always_mono; [|apply (IH _ (tr0 ++ tr))].
  - intros tr' r [Hc' Hr]. rewrite log_app, Hc, Hc', app_assoc. split; [done|].
    intros Hok g' [->|Hg]%elem_of_cons; [|by apply Hr].
    destruct Hp as (x & Hin & Hx & Hdec). exists x, perms. split; [rewrite elem_of_app; by left|].
    split_and!; [done|done|]. intros p Hpp. by eapply ownerCovers_nil.
  - intros p q. rewrite lookup_insert. case_decide as Hpath.
    + intros [= <-]. by subst p.
    + intros Hq. destruct (Hread _ _ Hq) as (x & Hin & ?). exists x. rewrite elem_of_app. auto.
Qed.
Definition owner_enabled (tr : list (event tokenE)) : Prop :=
  ∃ x users u, Ev (TRun false user_list_cmd) (Ok x) ∈ tr ∧ decodeJSONArray owner_entry_of user_list_cmd (Stdout x) = Ok users ∧
    u ∈ users ∧ UserID_ u = TokenOwner o ∧ Enable_ u = Some 1%Z ∧
    ∃ t, Expire_ u = Some t ∧ ((0 < t)%Z → ∃ now, Ev TNow now ∈ tr ∧ (now < t)%Z).
Lemma ownerActive_spec :
  always (ownerActive (TokenOwner o)) (λ tr r, changes tr = [] ∧ (r = Ok true → owner_enabled tr)).
Proof.
  unfold ownerActive. eapply always_call; [apply runJSONArray_spec|]. intros tr [users|e] [Hc Hu].
  2: { cbn [always]. by rewrite app_nil_r. }
  destruct (Hu users eq_refl) as (x & -> & Hx & Hdec).
  destruct (list_find _ users) as [[i u]|] eqn:Hf; [|done]. apply list_find_Some in Hf as (Hi & Hid & _).
  apply list_elem_of_lookup_2 in Hi.
  destruct (Enable_ u) as [en|] eqn:Hen; [|done]. destruct (Expire_ u) as [ex|] eqn:Hex; [|done].
  assert (∀ tr', (en = 1%Z → (0 < ex)%Z → ∃ now, Ev TNow now ∈ tr' ∧ (now < ex)%Z) → (en =? 1)%Z = true →
    owner_enabled ([Ev (TRun false user_list_cmd) (Ok x)] ++ tr')) as Hok.
  { intros tr' Hnow Hone. apply Z.eqb_eq in Hone. subst en. exists x, users, u. split_and!; try done; [by left|].
    exists ex. split; [done|]. intros H0. destruct (Hnow eq_refl H0) as (now & Hin & ?). exists now. split; [by right|done]. }
  destruct (0 <? ex)%Z eqn:Hpos; cbn [bind trigger always].
  - intros now. cbn [always]. split; [done|]. intros [= [Hone Hexp]%andb_true_iff]. apply (Hok [_]); [|done].
    intros _ _. exists now. split; [by left|lia].
  - split; [done|]. intros [= [Hone _]%andb_true_iff]. apply (Hok []); [|done]. lia.
Qed.
Lemma checkOwner_spec gs all :
  always (checkOwner (TokenOwner o) gs all) (λ tr r, changes tr = [] ∧
    (r = Ok tt → TokenOwner o = "root@pam" ∨
      owner_enabled tr ∧ ∀ g, g ∈ gs → owner_covers tr g (default [] (all !! Role g)))).
Proof.
  unfold checkOwner. destruct (eqb (TokenOwner o) "root@pam") eqn:Hroot.
  { split; [done|]. left. by apply eqb_true. }
  eapply always_call; [apply ownerActive_spec|]. intros tr [[]|e] [Hc Ha]; cbn [always]; [|by rewrite app_nil_r..].
  eapply always_mono; [|apply (check_covers_spec all ∅ gs tr)].
  - intros tr' r [Hc' Hr]. rewrite log_app, Hc, Hc'. split; [done|]. intros Hok. right. split; [|by apply Hr].
    destruct (Ha eq_refl) as (x & us & u & ? & ? & ? & ? & ? & t & ? & Hnow). exists x, us, u.
    rewrite elem_of_app. split_and!; try done; [by left|]. exists t. split; [done|]. intros Ht.
    destruct (Hnow Ht) as (now & ? & ?). exists now. rewrite elem_of_app. auto.
  - intros p perms. by rewrite lookup_empty.
Qed.
(** What the reads before any change said. *)
Definition passed (tr : list (event tokenE)) : Prop :=
  (∃ x roles, Ev (TRun false role_list_cmd) (Ok x) ∈ tr ∧ decodeJSONArray role_entry role_list_cmd (Stdout x) = Ok roles ∧
     ∀ g, g ∈ want → ∃ ps, role_known roles g ps ∧ (TokenOwner o = "root@pam" ∨ owner_covers tr g ps)) ∧
  (∃ x nodes, Ev (TRun false node_list_cmd) (Ok x) ∈ tr ∧
     decodeJSONArray (struct_get "node" to_string "") node_list_cmd (Stdout x) = Ok nodes ∧ Node_ o ∈ nodes) ∧
  (TokenOwner o = "root@pam" ∨ owner_enabled tr).
Lemma preflight_spec :
  always (preflight o want) (λ tr r, changes tr = [] ∧ ∀ present, r = Ok present → listed present tr ∧ passed tr).
Proof.
  unfold preflight. eapply always_call; [apply runJSONArray_spec|]. intros tr [roles|e] [Hc Hr].
  2: { cbn [always]. by rewrite app_nil_r. }
  destruct (Hr roles eq_refl) as (x & -> & Hx & Hdec).
  destruct (wanted_privs roles want ∅) as [all|e] eqn:Hw; [|done].
  apply wanted_privs_spec in Hw as (_ & Hroles & Hall).
  destruct (check_pinned all want) as [[]|e] eqn:Hpin; [|done]. pose proof (check_pinned_spec _ _ Hpin) as Hpinned.
  eapply always_call; [apply runJSONArray_spec|]. intros tr2 [nodes|e] [Hc2 Hn].
  2: { cbn [always]. by rewrite app_nil_r, log_app, Hc2. }
  destruct (Hn nodes eq_refl) as (y & -> & Hy & Hdecn). case_bool_decide as Hnode; [|done].
  eapply always_call; [apply checkOwner_spec|]. intros tr3 [[]|e] [Hc3 Howner]; cbn [always].
  2: { by rewrite app_nil_r, !log_app, Hc3. }
  eapply always_call; [apply tokenPresent_spec|]. intros tr4 [present|e] [Hc4 Hp]; cbn [always].
  2: { by rewrite app_nil_r, !log_app, Hc3, Hc4. }
  cbn [bind trigger always]. intros [[]|e]; cbn [always].
  2: { by rewrite !log_app, Hc3, Hc4. }
  split; [by rewrite !log_app, Hc3, Hc4|]. intros present' [= <-]. split.
  { rewrite !app_assoc. apply listed_app_r; [done|]. rewrite <- !app_assoc. do 3 apply listed_app_l. by apply Hp. }
  assert (∀ n ps, all !! n = Some ps → ∃ privs, (n, privs) ∈ roles ∧ parseRolePrivs privs = Ok ps ∧ ps ≠ []) as Hknown.
  { apply Hroles. intros n ps. by rewrite lookup_empty. }
  specialize (Howner eq_refl). split_and!.
  - exists x, roles. split; [by left|]. split; [done|]. intros g Hg. destruct (Hall g Hg) as [ps Hps].
    destruct (Hknown _ _ Hps) as (privs & ? & ? & ?). exists ps. split.
    + exists privs. split_and!; [done..|]. intros l Hl. specialize (Hpinned g l Hg Hl). by rewrite Hps in Hpinned.
    + destruct Howner as [?|[_ Hcov]]; [by left|right]. specialize (Hcov g Hg). rewrite Hps in Hcov.
      eapply owner_covers_mono; [|exact Hcov]. intros ev Hev. rewrite !elem_of_app. tauto.
  - exists y, nodes. rewrite !elem_of_app. split_and!; [right; left; by left|done|done].
  - destruct Howner as [?|[(z & us & u & ? & ? & ? & ? & ? & t & ? & Hnow) _]]; [by left|right].
    exists z, us, u. rewrite !elem_of_app. split_and!; try done; [tauto|]. exists t. split; [done|]. intros Ht.
    destruct (Hnow Ht) as (now & ? & ?). exists now. rewrite !elem_of_app. tauto.
Qed.
Lemma phase_refused present tr e e' : phase present tr (None, Some e) → phase present tr (None, Some e').
Proof.
  assert (∀ r s orphan tr', minted r s orphan tr' (None, Some e) ∨ not_minted r tr' (None, Some e) → False) as Hno.
  { intros r s orphan tr' [(? & ? & ? & ? & ? & ? & _ & _ & _ & _ & [=] & _)|(? & ? & ? & ? & _ & [=] & _)]. }
  inversion 1 as [? ?|? ? ? ? ? ? ? [=]|? ? Hm|y ? ? ? ? ?|? ? ? ? ? ? ? ? [=]|? ? ? ? ? (? & ? & [=] & _)|? ? ? ? ? ? ? ? ? ? Hm];
    [by eapply phase_nothing|by apply Hno in Hm|by eapply phase_kept|by apply Hno in Hm].
Qed.
(** The run, as a whole. *)
Lemma token_run_spec pins :
  always (token_run path o want pins) (λ tr out,
    changes tr = [] ∧ (∃ e, out = (None, Some e)) ∨
    ∃ present, (∃ tr0 tr1, tr = tr0 ++ tr1 ∧ changes tr0 = [] ∧ listed present tr0 ∧ passed tr0) ∧ phase present tr out).
Proof.
  unfold token_run. eapply always_call; [apply preflight_spec|]. intros tr [present|e] [Hc Hp]; cbn [always].
  2: { rewrite app_nil_r. left. eauto. }
  eapply always_call; [by apply (tokenPhase_spec present tr)|]. intros tr' out H. cbn [always]. rewrite app_nil_r. right.
  exists present. split; [exists tr, tr'; by destruct (Hp present eq_refl)|].
  destruct out as [[res|] [e|]], pins as [[k p]|]; try done. by eapply phase_refused.
Qed.

(** ** What the phase wrote *)
Lemma remove_not_add : removeCmd ≠ addCmd.
Proof. unfold Rotation.removeCmd, Rotation.addCmd. intros [=]. Qed.
Lemma acl_not_add g : acl_modify (own_token o) g ≠ addCmd.
Proof. unfold acl_modify, Rotation.addCmd. intros [=]. Qed.
Lemma acl_not_remove g : acl_modify (own_token o) g ≠ removeCmd.
Proof. unfold acl_modify, Rotation.removeCmd. intros [=]. Qed.
(** The changes that follow an add: grants wanted, perhaps the persisting of what the add
    printed, and removals of the token just made. *)
Definition after_add (a : res Result_) (log : list change) : Prop :=
  (∀ id secret y, CPersist id secret y ∈ log → id = fullID ∧
     ∃ x gs rest, a = Ok x ∧ ExitCode x = 0%Z ∧ parseTokenSecret (Stdout x) = Ok secret ∧ granted gs ∧ log = gs ++ rest) ∧
  (∀ cmd y, CWrite cmd y ∈ log → cmd = removeCmd ∨ ∃ g, g ∈ want ∧ cmd = acl_modify (own_token o) g).
Lemma after_add_no_add a log y : after_add a log → CWrite addCmd y ∉ log.
Proof. intros [_ H] Hin. destruct (H _ _ Hin) as [He|(g & _ & He)]; [by destruct remove_not_add|by destruct (acl_not_add g)]. Qed.
Lemma minted_log r success orphan tr out :
  minted r success orphan tr out ∨ not_minted r tr out → ∃ a log, changes tr = CWrite addCmd a :: log ∧ after_add a log.
Proof.
  intros [(x & secret & log & m & res & e & Hc & Hx & Hp & Hg & _)|(a & log & res & e & Hc & _ & _ & _ & _ & Hpers & Hwr & _)].
  - exists (Ok x). eexists. split; [exact Hc|]. pose proof (granted_writes _ Hg) as Hall. rewrite Forall_forall in Hall. split.
    + intros id s y [Hin|Hin]%elem_of_app; [by destruct (Hall _ Hin) as (? & ? & _ & [=])|].
      apply elem_of_cons in Hin as [[= -> -> ->]|[=]%list_elem_of_singleton]. split; [done|]. by exists x, log, [CPersist fullID secret (Ok tt); CFields m].
    + intros cmd y [Hin|Hin]%elem_of_app.
      * right. destruct (Hall _ Hin) as (g & ? & ? & [= -> _]). by exists g.
      * by apply elem_of_cons in Hin as [[=]|[=]%list_elem_of_singleton].
  - exists a, log. split; [done|]. split; [|done]. intros id secret y Hin. destruct (Hpers _ _ _ Hin) as (? & _ & ?). done.
Qed.
(** Neither a write nor a persisted secret. *)
Definition harmless (log : list change) : Prop := (∀ cmd y, CWrite cmd y ∉ log) ∧ (∀ id secret y, CPersist id secret y ∉ log).
Lemma harmless_clear c : harmless [CClear c].
Proof. split; [intros cmd y|intros id s y]; by intros [=]%list_elem_of_singleton. Qed.
Lemma harmless_nil : harmless [].
Proof. split; [intros cmd y|intros id s y]; apply not_elem_of_nil. Qed.
(** The removal of the held token, if any, then what is changed besides it. *)
Definition held_removal (present : bool) (tr : list (event tokenE)) (held : list change) : Prop :=
  held = [] ∨ ∃ y, held = [CWrite removeCmd y] ∧ present = true ∧ verdict_on_held tr.
Lemma phase_trail present tr out :
  phase present tr out → ∃ held pre rest, changes tr = held ++ pre ++ rest ∧ held_removal present tr held ∧ harmless pre ∧
    (rest = [] ∨ ∃ a log, rest = CWrite addCmd a :: log ∧ after_add a log).
Proof.
  assert (∀ tr1 tr2 y, (present = true → verdict_on_held tr1 ∧ (exited_zero y ∨ listed false tr1)) →
    held_removal present (tr1 ++ tr2) (if present then [CWrite removeCmd y] else [])) as Hheld.
  { intros tr1 tr2 y Hv. destruct present; [|by left]. right. exists y. split_and!; [done..|]. by apply verdict_mono, Hv. }
  destruct 1 as [e Hc|m s res e Hc|orphan Hp Hm|y e Hp Hv Hc|y c res e Hp Hv Hc|tr1 y c r -> _ _ _ _ Hv Hc|tr1 tr2 y r -> _ _ _ Hv Hc Hm].
  - exists [], [], []. split_and!; [done|by left|apply harmless_nil|by left].
  - exists [], [CFields m], []. split_and!; [done|by left| |by left].
    split; [intros cmd y|intros id s' y]; by intros [=]%list_elem_of_singleton.
  - apply minted_log in Hm as (a & log & Hc & Hm). exists [], [], (changes tr).
    split_and!; [done|by left|apply harmless_nil|right; by exists a, log].
  - exists [CWrite removeCmd y], [], []. split_and!; [done|right; by exists y|apply harmless_nil|by left].
  - exists [CWrite removeCmd y], [CClear c], []. split_and!; [done|right; by exists y|apply harmless_clear|by left].
  - exists (changes tr1), [CClear (Er c)], []. rewrite log_app, Hc. split_and!; [done|by apply Hheld|apply harmless_clear|by left].
  - apply minted_log in Hm as (a & log & Hc2 & Hm). exists (changes tr1), [CClear (Ok tt)], (changes tr2).
    rewrite !log_app, Hc. split_and!; [done|by apply Hheld|apply harmless_clear|right; by exists a, log].
Qed.

(** ** What the properties say *)
(** A removal comes first, before any other change, or after an add. *)
Definition removals_ok (log : list change) : Prop :=
  ∀ pre y post, log = pre ++ CWrite removeCmd y :: post → pre = [] ∨ ∃ a, CWrite addCmd a ∈ pre.
(** A secret persisted is the one an add of this run printed, after every grant was given. *)
Definition persists_ok (log : list change) : Prop :=
  ∀ id secret y, CPersist id secret y ∈ log → id = fullID ∧
    ∃ x pre gs post, log = pre ++ CWrite addCmd (Ok x) :: gs ++ post ∧ ExitCode x = 0%Z ∧
      parseTokenSecret (Stdout x) = Ok secret ∧ granted gs ∧ CPersist id secret y ∈ post.
Lemma after_add_persist a log id secret y :
  after_add a log → CPersist id secret y ∈ log → id = fullID ∧ ∃ x gs post, a = Ok x ∧ ExitCode x = 0%Z ∧
    parseTokenSecret (Stdout x) = Ok secret ∧ granted gs ∧ log = gs ++ post ∧ CPersist id secret y ∈ post.
Proof.
  intros [Hpers _] Hin. destruct (Hpers _ _ _ Hin) as (-> & x & gs & rest & -> & ? & ? & Hg & ->).
  split; [done|]. exists x, gs, rest. split_and!; [done..|]. apply elem_of_app in Hin as [Hin|]; [|done].
  pose proof (granted_writes _ Hg) as Hall. rewrite Forall_forall in Hall. by destruct (Hall _ Hin) as (? & ? & _ & [=]).
Qed.
Lemma trail_persists present tr held pre a log :
  held_removal present tr held → harmless pre → after_add a log → persists_ok (held ++ pre ++ CWrite addCmd a :: log).
Proof.
  intros Hh [_ Hpre] Ha id secret y Hin. rewrite !elem_of_app, elem_of_cons in Hin.
  destruct Hin as [Hin|[Hin|[[=]|Hin]]].
  - destruct Hh as [->|(z & -> & _)]; [by apply elem_of_nil in Hin|by apply list_elem_of_singleton in Hin].
  - by destruct (Hpre id secret y).
  - destruct (after_add_persist _ _ _ _ _ Ha Hin) as (-> & x & gs & post & -> & ? & ? & ? & -> & ?).
    split; [done|]. exists x, (held ++ pre), gs, post. by rewrite <- app_assoc.
Qed.
Lemma trail_removals present tr held pre a log :
  held_removal present tr held → harmless pre → removals_ok (held ++ pre ++ CWrite addCmd a :: log).
Proof.
  intros Hh Hpre p y post Heq.
  assert (∀ pre' l, harmless pre' → pre' ++ CWrite addCmd a :: log = l ++ CWrite removeCmd y :: post → CWrite addCmd a ∈ l) as Hcut.
  { induction pre' as [|c pre' IH]; intros l [Hh1 Hh2] Hl; (destruct l as [|d l]; injection Hl as Hd Hl).
    - by destruct remove_not_add.
    - rewrite Hd. by left.
    - subst c. destruct (Hh1 removeCmd y). by left.
    - right. apply IH; [|done]. split; [intros cmd z Hz; destruct (Hh1 cmd z)|intros id s z Hz; destruct (Hh2 id s z)]; by right. }
  destruct Hh as [->|(z & -> & _)].
  - right. exists a. by apply (Hcut pre).
  - destruct p as [|d p]; [by left|]. right. exists a. injection Heq as _ Heq. right. by apply (Hcut pre).
Qed.
Lemma trail_quiet present tr held pre :
  held_removal present tr held → harmless pre → removals_ok (held ++ pre) ∧ persists_ok (held ++ pre).
Proof.
  intros Hh [Hw Hp]. split.
  - intros p y post Heq. left. destruct p as [|d p]; [done|]. exfalso.
    assert (CWrite removeCmd y ∈ pre) as Hin; [|by apply Hw in Hin].
    destruct Hh as [->|(z & -> & _)]; cbn [app] in Heq; [rewrite Heq|injection Heq as _ ->];
      rewrite ?elem_of_cons, !elem_of_app, !elem_of_cons; auto.
  - intros id secret y [Hin|Hin]%elem_of_app; [|by apply Hp in Hin].
    destruct Hh as [->|(z & -> & _)]; [by apply elem_of_nil in Hin|by apply list_elem_of_singleton in Hin].
Qed.
Lemma trail_writes present tr held pre rest cmd y :
  held_removal present tr held → harmless pre → rest = [] ∨ (∃ a log, rest = CWrite addCmd a :: log ∧ after_add a log) →
  CWrite cmd y ∈ held ++ pre ++ rest → cmd = removeCmd ∨ cmd = addCmd ∨ ∃ g, g ∈ want ∧ cmd = acl_modify (own_token o) g.
Proof.
  intros Hh [Hw _] Hr [Hin|[Hin|Hin]%elem_of_app]%elem_of_app; [|by apply Hw in Hin|].
  - destruct Hh as [->|(z & -> & _)]; [by apply elem_of_nil in Hin|]. apply list_elem_of_singleton in Hin as [= -> _]. auto.
  - destruct Hr as [->|(a & log & -> & Ha)]; [by apply elem_of_nil in Hin|].
    apply elem_of_cons in Hin as [[= -> _]|Hin]; [auto|]. destruct Ha as [_ Ha]. destruct (Ha _ _ Hin); auto.
Qed.
Lemma trail_first present tr held pre rest y l :
  held_removal present tr held → harmless pre → rest = [] ∨ (∃ a log, rest = CWrite addCmd a :: log ∧ after_add a log) →
  held ++ pre ++ rest = CWrite removeCmd y :: l → present = true ∧ verdict_on_held tr.
Proof.
  intros [->|(z & -> & ? & ?)] [Hw _] Hr Heq; [exfalso|done]. destruct pre as [|c pre]; cbn [app] in Heq.
  - destruct Hr as [->|(a & log & -> & _)]; [done|]. injection Heq as He _. by destruct remove_not_add.
  - injection Heq as -> _. destruct (Hw removeCmd y). by left.
Qed.
(** The token an add of answer [a] may have made: persisted, or refused, or removed again, or
    seen gone in the last read, or reported as left over. *)
Definition accounted (tr : list (event tokenE)) (out : outcome) (a : res Result_) : Prop :=
  (∃ secret, CPersist fullID secret (Ok tt) ∈ changes tr) ∨
  ∃ res e, out = (Some res, Some e) ∧
    ((∃ x, a = Ok x ∧ ExitCode x ≠ 0%Z) ∨
     (∃ log y, changes tr = log ++ [CWrite removeCmd y] ∧ exited_zero y ∧ CWrite addCmd a ∈ log) ∨
     listed false tr ∨ ∃ state, Leftover res = Some (fullID, state)).
(** The held token is gone: another was persisted, or the run says so. *)
Definition owned_up (tr : list (event tokenE)) (out : outcome) : Prop :=
  (∃ secret, CPersist fullID secret (Ok tt) ∈ changes tr) ∨
  ∃ res e, out = (Some res, Some e) ∧ PriorRevoked res = true ∧ errors_Is ErrPriorTokenRevoked e = true.
(** A run without error: PVE accepted the token with the wanted grants, and the secret it was
    accepted with is the one in the roster: either the one that was held there all along, and
    the run changed nothing but the target's fields, or the one the run wrote. *)
Definition success_ok (tr : list (event tokenE)) (out : outcome) : Prop :=
  ∀ res, out = (Some res, None) → Leftover res = None ∧ Validation res = ValidationVerified ∧
    ∃ secret, Ev (TValidate (cfg_of o fullID secret) want) (Ok tt) ∈ tr ∧
      ((TokenOutcome res = OutcomeReused ∧ held_secret tr secret ∧ ∀ c, c ∈ changes tr → ∃ m, c = CFields m) ∨
       CPersist fullID secret (Ok tt) ∈ changes tr).
Lemma minted_accounts r success orphan tr1 tr out :
  minted r success orphan tr out ∨ not_minted r tr out → Leftover (res_ r) = None → removed r = PriorRevoked (res_ r) →
  (∀ a, CWrite addCmd a ∈ changes tr → accounted (tr1 ++ tr) out a) ∧
  (PriorRevoked (res_ r) = true → owned_up (tr1 ++ tr) out) ∧ success_ok (tr1 ++ tr) out.
Proof.
  intros Hm Hlef Hrem. pose proof (minted_log _ _ _ _ _ Hm) as (a0 & log0 & Hc0 & Hlog).
  destruct Hm as [(x & secret & log & m & res & e & Hc & Hx & Hp & Hg & -> & Ho & _ & _ & Hpr & Hl & Hv)|
                  (a & log & res & e & Hc & -> & Ho & Hpr & Hrev & _ & _ & _ & Hgone)].
  - assert (CPersist fullID secret (Ok tt) ∈ changes (tr1 ++ tr)) as Hin.
    { rewrite log_app, Hc, elem_of_app. right. right. rewrite elem_of_app. right. by left. }
    split_and!; [intros; left; by exists secret|intros; left; by exists secret|].
    intros res' [= <- ->]. rewrite Hl. split; [done|]. destruct Hv as [[? ?]|[_ ?]]; [|done].
    split; [done|]. exists secret. rewrite elem_of_app. auto.
  - split_and!; [|intros H; right; exists res, e; by rewrite Hpr, Hrev; [|rewrite Hrem]|by intros ? [=]].
    intros a' Hin. rewrite Hc in Hc0. injection Hc0 as <- <-. rewrite Hc in Hin.
    apply elem_of_cons in Hin as [[= ->]|Hin]; [|by destruct (after_add_no_add _ _ _ Hlog Hin)].
    right. exists res, e. split; [done|]. destruct Hgone as [(x & ? & ? & _)|[(log' & y & Hl & Hy)|[Hl|(state & Hl)]]].
    + left. by exists x.
    + right. left. exists (changes tr1 ++ CWrite addCmd a :: log'), y. rewrite log_app, Hc, Hl, <- app_assoc.
      split_and!; [done..|]. rewrite elem_of_app. right. by left.
    + right. right. left. by apply listed_app_l.
    + right. right. right. by exists state.
Qed.
Lemma phase_accounts present tr out :
  phase present tr out →
  (∀ a, CWrite addCmd a ∈ changes tr → accounted tr out a) ∧
  (∀ y rest, changes tr = CWrite removeCmd y :: rest → exited_zero y → owned_up tr out) ∧ success_ok tr out.
Proof.
  assert (∀ a y, CWrite addCmd a ∉ [CWrite removeCmd y]) as Hone.
  { intros a y Hin. apply list_elem_of_singleton in Hin. injection Hin as He _. by destruct remove_not_add. }
  destruct 1 as [e Hc ->|m s res e Hc Hheld Hval -> Ho Hvd Hl Hp|orphan Hp Hm|y e Hp Hv Hc Hy ->|y c res e Hp Hv Hc Hy -> Hr He Ho Hl
                |tr1 y c r -> (res & e & -> & Hl & Hpr & Ho & He) Hrem Hprior Hlef Hv Hc|tr1 tr2 y r -> Hrem Hprior Hlef Hv Hc Hm].
  - rewrite Hc. split_and!; [by intros a ?%elem_of_nil|done|by intros ? [=]].
  - rewrite Hc. split_and!; [by intros a [=]%list_elem_of_singleton|done|]. intros res' [= <- ->].
    split_and!; [done..|]. exists s. split; [done|]. left. split_and!; [done..|].
    intros c. rewrite Hc. intros ->%list_elem_of_singleton. by exists m.
  - assert (minted start OutcomeMinted orphan ([] ++ tr) out ∨ not_minted start ([] ++ tr) out) as Hm' by done.
    destruct (minted_accounts start OutcomeMinted orphan [] tr out Hm' eq_refl eq_refl) as (H1 & _ & H3).
    split_and!; [done| |done]. intros y rest Hc. apply minted_log in Hm as (a & log & Hc' & _).
    rewrite Hc in Hc'. injection Hc' as He _. by destruct remove_not_add.
  - rewrite Hc. split_and!; [intros a Hin; by apply Hone in Hin| |by intros ? [=]].
    intros z rest [= <- _] Hz. done.
  - rewrite Hc. split_and!; [| |by intros ? [=]].
    + intros a [Hin|[=]%list_elem_of_singleton]%elem_of_cons. injection Hin as He' _. by destruct remove_not_add.
    + intros z rest [= <- _] Hz. done.
  - rewrite log_app, Hc. split_and!; [| |by intros ? [=]].
    + intros a [Hin|[=]%list_elem_of_singleton]%elem_of_app. destruct present; [|by apply elem_of_nil in Hin].
      by apply Hone in Hin.
    + intros z rest Heq Hz. destruct present; [|done]. right. exists res, e. rewrite Hpr, Hprior. split_and!; [done..|]. by apply He.
  - rewrite app_assoc. edestruct (minted_accounts r OutcomeReplaced "" (tr1 ++ [Ev TClearToken (Ok tt)]) tr2 out Hm Hlef) as (H1 & H2 & H3); [congruence|].
    split_and!; [| |done].
    + intros a. rewrite !log_app, Hc, !elem_of_app. intros [[Hin|[=]%list_elem_of_singleton]|Hin]; [|by apply H1].
      destruct present; [|by apply elem_of_nil in Hin]. by apply Hone in Hin.
    + intros z rest. rewrite !log_app, Hc. destruct present; [|done]. intros _ _. by apply H2.
Qed.
(** ** Termination *)
Lemma runJSONArray_total {A} (dec : list (string * json) → option A) cmd : total (runJSONArray dec cmd).
Proof. by intros [x|e]. Qed.
Ltac total_step :=
  lazymatch goal with
  | |- total (bind (runJSONArray _ _) _) => apply total_bind; [apply runJSONArray_total|intros [?|?]]
  | |- total (bind (trigger _) _) => apply total_bind; [done|intros ?]
  | |- total (bind (Ret _) _) => cbn [bind]
  | |- total (if ?b then _ else _) => destruct b
  | |- total (match ?x with _ => _ end) => destruct x
  | |- total (let x := _ in _) => cbv zeta
  | |- total (trigger _) => done
  | |- total (Ret _) => done
  end.
Lemma tokenPresent_total : total (tokenPresent (TokenOwner o) (TokenID o)).
Proof. unfold tokenPresent. by repeat total_step. Qed.
Lemma readToken_total reconnect : total (readToken o reconnect).
Proof.
  unfold readToken. apply total_bind; [by destruct reconnect|]. intros [[]|e]; [|done].
  apply total_bind; [by destruct reconnect|]. intros []. apply total_bind; [apply tokenPresent_total|done].
Qed.
Lemma removeFresh_total r : total (removeFresh o r).
Proof.
  unfold removeFresh. apply total_bind; [done|]. intros out. cbv zeta. destruct (match out with Ok _ => _ | Er _ => _ end); [done|].
  apply total_bind; [apply readToken_total|]. by intros [].
Qed.
Lemma grantAll_total gs : total (grantAll o gs).
Proof. induction gs as [|g gs IH]; cbn [grantAll]; [done|]. apply total_bind; [done|]. intros [x|e]; [|done]. by case_bool_decide. Qed.
Lemma post_mint_total n first secret saw : total (post_mint o want n first secret saw).
Proof.
  revert first saw. induction n as [|n IH]; intros first saw; cbn [post_mint]; [done|].
  apply total_bind; [by destruct first|]. intros [x|]; [done|]. apply total_bind; [done|].
  intros [?|e]; [done|]. repeat total_step; apply IH.
Qed.
Lemma mint_total r success orphan : total (mintAndPersist o want r success orphan).
Proof.
  assert (∀ r' c, total (drop o r' c)) as Hdrop.
  { intros r' c. apply total_bind; [apply removeFresh_total|done]. }
  unfold mintAndPersist. apply total_bind; [done|]. intros [x|e].
  - destruct (negb _); [done|]. destruct (parseTokenSecret _) as [s|e]; [|apply Hdrop].
    apply total_bind; [apply grantAll_total|]. intros [?|e]; [|apply Hdrop].
    apply total_bind; [apply post_mint_total|]. intros [[v|] w]; cbn [fst snd]; [apply Hdrop|].
    apply total_bind; [done|]. intros [?|e]; [|apply Hdrop]. by apply total_bind.
  - apply total_bind; [apply readToken_total|]. intros st. apply total_bind; [|done].
    destruct st; [done|apply removeFresh_total|done].
Qed.
Lemma removeHeld_total r : total (removeHeld o r).
Proof.
  assert (∀ r' c, total (priorUnknown o r' c)) as Hp by by intros r' c c'.
  unfold removeHeld. apply total_bind; [done|]. intros [x|e]; [done|]. apply total_bind; [apply readToken_total|].
  intros []; [done| |by apply total_bind]. destruct (negb _); [done|]. by apply total_bind.
Qed.
Lemma replace_total present reason cause : total (replace o want present reason cause).
Proof.
  unfold replace. cbv zeta. apply total_bind; [destruct present; [apply removeHeld_total|done]|].
  intros [r|out]; [|done]. apply total_bind; [done|]. intros [c|e]; [apply mint_total|done].
Qed.
Lemma tokenPhase_total present : total (tokenPhase path o want present).
Proof.
  unfold tokenPhase. apply total_bind.
  { unfold loadHeldToken. apply total_bind; [done|]. intros [r|e]; [|done]. destruct (Find _ _) as [tg|]; [|done].
    by destruct (Token tg). }
  intros [held|e]; [|done]. repeat first [apply mint_total|apply replace_total|total_step].
  all: by apply total_bind.
Qed.
Lemma check_covers_total rolePrivs read gs : total (check_covers (TokenOwner o) rolePrivs read gs).
Proof.
  revert read. induction gs as [|g gs IH]; intros read; cbn [check_covers]; [done|].
  apply total_bind. { destruct (read !! _); [done|]. by intros [x|e]. }
  intros [p|e]; [|done]. cbv zeta. by case_bool_decide.
Qed.
Lemma token_run_total pins : total (token_run path o want pins).
Proof.
  unfold token_run. apply total_bind; [|intros [p|e]; [by apply total_bind; [apply tokenPhase_total|]|done]].
  unfold preflight. apply total_bind; [apply runJSONArray_total|]. intros [roles|e]; [|done].
  destruct (wanted_privs _ _ _) as [privs|e]; [|done]. destruct (check_pinned _ _); [|done].
  apply total_bind; [apply runJSONArray_total|]. intros [nodes|e]; [|done]. case_bool_decide; [|done].
  apply total_bind.
  { unfold checkOwner. destruct (eqb _ _); [done|]. apply total_bind.
    - unfold ownerActive. apply total_bind; [apply runJSONArray_total|]. intros [us|e]; [|done].
      destruct (list_find _ us) as [[i u]|]; [|done]. destruct (Enable_ u), (Expire_ u); try done. by case_match.
    - intros [[]|e]; [|done..]. apply check_covers_total. }
  intros [?|e]; [|done]. apply total_bind; [apply tokenPresent_total|]. intros [b|e]; [|done].
  apply total_bind; [done|]. by intros [].
Qed.
End spec.

(** * Properties *)
(** C1: a bootstrap run writes nothing before the roles, the node, the owner and the owner's
    privileges were read and pass; every write is the add or the removal of the run's own
    token, or a grant wanted to it. A removal is the first change of all, of a token PVE
    listed, that the roster holds and PVE answered a verdict on that is no refusal of its
    secret, or comes after an add. A secret persisted is what the add printed, after every
    grant was written. *)
Theorem token_run_safe path o want pins :
  always (token_run path o want pins) (λ tr _,
    (changes tr ≠ [] → ∃ tr0 tr1, tr = tr0 ++ tr1 ∧ changes tr0 = [] ∧ passed o want tr0) ∧
    (∀ cmd y, CWrite cmd y ∈ changes tr →
       cmd = removeCmd o ∨ cmd = addCmd o ∨ ∃ g, g ∈ want ∧ cmd = acl_modify (own_token o) g) ∧
    removals_ok o (changes tr) ∧
    (∀ y rest, changes tr = CWrite (removeCmd o) y :: rest → verdict_on_held o want tr ∧
       ∃ tr0 tr1, tr = tr0 ++ tr1 ∧ changes tr0 = [] ∧ listed o true tr0) ∧
    persists_ok o want (changes tr)).
Proof.
  eapply always_mono; [|apply token_run_spec].
  intros tr out [[Hc _]|(present & (tr0 & tr1 & Htr & Hc0 & Hlist & Hpass) & Hphase)].
  - rewrite Hc. split_and!; [done|by intros ? ? ?%elem_of_nil|by intros [] ? ? [=]|done|by intros ? ? ? ?%elem_of_nil].
  - apply phase_trail in Hphase as (held & pre & rest & Hc & Hh & Hpre & Hrest). rewrite Hc. split_and!.
    + by exists tr0, tr1.
    + intros cmd y. by apply (trail_writes o want present tr held pre rest).
    + destruct Hrest as [->|(a & log & -> & _)]; [rewrite app_nil_r; by eapply trail_quiet|by eapply trail_removals].
    + intros y l Heq. destruct (trail_first o want _ _ _ _ _ _ _ Hh Hpre Hrest Heq) as [-> ?]. split; [done|]. by exists tr0, tr1.
    + destruct Hrest as [->|(a & log & -> & Ha)]; [rewrite app_nil_r; by eapply trail_quiet|by eapply trail_persists].
Qed.


(** * Runs

    A host whose state is the answer a validation gets and the token ids PVE lists; the
    roster holds the secret "s3" of the run's own token. *)
Definition held_target : Target :=
  {| tg_ID := "lab"; tg_Host := "h"; tg_Node := "pve1"; tg_APIPort := 8006; tg_InsecureTLS := false; Export_ := "";
     Token := Some {| ta_ID := "root@pam!forge"; SecretEnc := "enc" |}; tg_SSH := None; TLS := None |}.
Definition lab_options : Options :=
  {| TargetID_ := "lab"; Host := "h"; Node_ := "pve1"; APIPort := 8006; InsecureTLS := false; TLSPin := "";
     TokenOwner := "root@pam"; TokenID := "forge" |}.
Definition audit : Grant := {| Path := "/"; Role := "PVEAuditor"; Propagate := true; Privs := None |}.
Definition said (s : string) : res Result_ := Ok {| Stdout := s; Stderr := ""; ExitCode := 0 |}.
Definition lab_answers (cmd : string) (held : bool) : res Result_ :=
  if eqb cmd role_list_cmd then said (double_quoted "[{'roleid':'PVEAuditor','privs':'Sys.Audit,VM.Audit'}]")
  else if eqb cmd node_list_cmd then said (double_quoted "[{'node':'pve1'}]")
  else if eqb cmd (tokenListCmd "root@pam") then said (if held then double_quoted "[{'tokenid':'forge'}]" else "[]")
  else if eqb cmd (addCmd lab_options) then said (double_quoted "{'value':'s4'}")
  else said "".
Definition lab_host (verdict : option err) : env tokenE bool := λ R e held,
  match e in tokenE R return R * bool with
  | TRun write cmd =>
      (lab_answers cmd held,
       if eqb cmd (removeCmd lab_options) then false else if eqb cmd (addCmd lab_options) then true else held)
  | TValidate cfg _ =>
      (match verdict with Some e => if eqb (TokenSecret cfg) "s3" then Er e else Ok tt | None => Ok tt end, held)
  | TLoad => (Ok [held_target], held)
  | TDecrypt _ => (Ok "s3", held)
  | TPause => (None, held)
  | TNow => (0%Z, held)
  | TClose => (tt, held)
  | TReconnect | TDryRun | TClearToken => (Ok tt, held)
  | TWriteToken _ _ | TUpdateFields _ _ _ _ => (Ok tt, held)
  end.
Definition lab_run (verdict : option err) : option (list change * option string * option string) :=
  match run (lab_host verdict) (token_run "roster.toml" lab_options [audit] None) true with
  | Some (tr, (r, e), _) => Some (changes tr, option_map TokenOutcome r, option_map Error e)
  | None => None
  end.
(** A token PVE still accepts is kept. *)
Example held_token_reused : lab_run None = Some ([CFields (Ok tt)], Some OutcomeReused, None).
Proof. vm_compute. reflexivity. Qed.
(** One whose grants are too wide is removed, cleared and replaced, in this order. *)
Example wide_token_replaced :
  lab_run (Some (sent ErrScopeTooWide)) =
    Some ([CWrite (removeCmd lab_options) (said ""); CClear (Ok tt); CWrite (addCmd lab_options) (said (double_quoted "{'value':'s4'}"));
           CWrite (acl_modify (own_token lab_options) audit) (said ""); CPersist "root@pam!forge" "s4" (Ok tt); CFields (Ok tt)],
          Some OutcomeReplaced, None).
Proof. vm_compute. reflexivity. Qed.
(** One whose secret PVE refuses is left alone: another holder may have rotated it. *)
Example rejected_secret_untouched :
  option_map (λ x, x.1.1) (lab_run (Some (sent ErrNotAuthorized))) = Some [].
Proof. vm_compute. reflexivity. Qed.
