(* ===== verification/PinTls.v ===== *)
(** internal/tlspin (the pin of a certificate, its capture on the node, the check of a
    connection) and internal/bootstrap/pintls.go: how a target's TLS pin is captured over
    SSH, compared with what the address serves, and written. *)
From Stdlib Require Import Ascii.
From S2P Require Import Prelude GoLib Errors Json ShellQuote Rest OpRun Client Remote Grants Roster RosterWrite Rotation.

(** ** What a bootstrap, a pin and an import call: the transport, whose sessions are numbered,
    the API, the roster and its passphrase. [bound] is how a command is limited. *)
Inductive bound := Plain | MaxOutput (n : Z) | ConfigWrite.
Inductive bootE : Type → Type :=
| BLock : bootE (res unit)
| BUnlock : bootE unit
| BKeygen (comment : string) : bootE (res (string * string))
| BInstall (addr user password line pin : string) : bootE (res string)
| BDialKey (addr user pem fp : string) : bootE (res Z)
| BDialPassword (addr user password pin : string) : bootE (res (Z * string))
| BReconnect (addr user pem fp : string) : bootE (res Z)
| BRun (s : Z) (b : bound) (cmd : string) : bootE (res Result_)
| BClose (s : Z) : bootE unit
| BServedPin (host : string) (port : Z) (verifyChain : bool) : bootE (res string)
| BValidate (cfg : APIConfig) (want : list Grant) : bootE (res unit)
| BPause : bootE (option err)
| BNow : bootE Z
| BLoad : bootE (res Roster)
| BProve : bootE (res unit)
| BDecrypt (enc : string) : bootE (res string)
| BAppend (t : Target) : bootE (res unit)
| BWriteSSH (w : SSHWrite) : bootE (res unit)
| BReplaceSSH (old : string) (w : SSHWrite) : bootE (res unit)
| BWriteTLS (old next source : string) : bootE (res unit)
| BWriteToken (id secret : string) : bootE (res unit)
| BClearToken : bootE (res unit)
| BDryRun : bootE (res unit)
| BProbeDir : bootE (res unit)
| BUpdateFields (host node : string) (port : Z) (insecure : bool) : bootE (res unit).

(** ** tlspin: the capture *)
Definition DefaultCapturePort : Z := 8006.
Definition MaxCaptureOutput : Z := 65536.
Definition CaptureCommand (port : Z) : string :=
  "openssl s_client -connect 127.0.0.1:" +:+ itoa port +:+ " </dev/null 2>/dev/null | openssl x509 -outform PEM".
(** PEM's own notion of space. *)
Definition pem_space (c : ascii) : bool := one_of (" " +:+ chr 9 +:+ chr 10 +:+ chr 13) c.
Fixpoint trim_left (s : string) : string :=
  match s with String c s' => if pem_space c then trim_left s' else s | EmptyString => s end.
Definition trimSpace (s : string) : string := srev (trim_left (srev (trim_left s))).
Definition DefaultAPIPort : Z := 8006.
Definition EffectiveAPIPort (port : Z) : Z := if (port =? 0)%Z then DefaultAPIPort else port.
Definition ConsoleHostKeyCommand : string := "ssh-keygen -lf /etc/ssh/ssh_host_ecdsa_key.pub".

Section pins.
(** encoding/pem: the block's type and bytes, and what follows it; crypto/x509: the public key
    of a certificate; SHA-256. *)
Context (pem_Decode : string → option (string * string * string)) (x509_key : string → option string).
Context (sha256 : string → string).
Definition FromCertificate (key : string) : string := Prefix +:+ base64 (sha256 key).
Definition LeafFromPEM (data : string) : res string :=
  let bad says := Er (wrap_pre (sent ErrBadCertificatePEM) says) in
  if negb (has_prefix "-----BEGIN " (trimSpace data)) then bad "no PEM block at the start"
  else
    match pem_Decode data with
    | None => bad "no PEM block"
    | Some (type, bytes, rest) =>
        if negb (eqb type "CERTIFICATE") then bad "the PEM block is not a CERTIFICATE"
        else if negb (eqb (trimSpace rest) "") then bad "more follows the certificate"
        else match x509_key bytes with None => bad "the certificate does not parse" | Some key => Ok key end
    end.
Definition ParseCapture (stdout : string) : res string :=
  let^ key := LeafFromPEM stdout orelse (λ e, Err KText (sentinel_text ErrCapture +:+ ": " +:+ Error e) [sent ErrCapture; e]) in
  Ok (FromCertificate key).
(** The check a pinned connection makes of the peer's certificates, the leaf first. *)
Definition mismatch (want got : string) : err :=
  wrap_pre (sent ErrPinMismatch)
    (if eqb got "" then "the peer presented no certificate, want " +:+ want
     else "the peer's public key is " +:+ got +:+ ", the roster pins " +:+ want
       +:+ ". Do NOT pin the presented key: it is what an impostor would show. Something else answers at this address, a TLS-terminating proxy fronts it, HTTPS_PROXY names an https:// proxy (which a pinned target does not support; an http:// proxy is fine), or the node was rebuilt: then read its SSH host key on the node's CONSOLE (ssh-keygen -lf /etc/ssh/ssh_host_ecdsa_key.pub) and run pveforge bootstrap <target> --reprovisioned --host-key-fingerprint <the console value>, which captures the new TLS key over that verified session. pveforge will not re-pin silently").
Definition VerifyConnection (want : string) : res (list string → option err) :=
  let^ _ := Parse want orelse id in
  Ok (λ peers,
    match peers with
    | [] => Some (mismatch want "")
    | key :: _ => if eqb (FromCertificate key) want then None else Some (mismatch want (FromCertificate key))
    end).

(** ** pintls.go *)
Definition checkServed (host : string) (apiPort : Z) (want : string) (verifyChain : bool) : io bootE (res string) :=
  let port := EffectiveAPIPort apiPort in
  let at_ := host +:+ ":" +:+ itoa port in
  let? served := trigger (BServedPin host port verifyChain) orelse wrapf ("read the TLS key " +:+ at_ +:+ " serves") in
  guard eqb served want orelse
    wrap_pre (sent ErrTLSPinMismatch) (at_ +:+ " serves " +:+ served +:+ ", the node " +:+ want
      +:+ "; this run wrote no TLS pin, SSH auth or token to the roster, and sent no token (something else answers at this address, or a TLS-terminating proxy fronts the node: connect to the node directly)") in
  Ret (Ok want).
Definition capture_err (says : string) (e : err) : err :=
  Err KText (sentinel_text ErrTLSCapture +:+ ": " +:+ says +:+ Error e) [sent ErrTLSCapture; e].
Definition capture_port (p : Z) : Z := if (p =? 0)%Z then DefaultCapturePort else p.
Definition capturePin (s : Z) (host : string) (apiPort capturePort : Z) (verifyChain : bool) : io bootE (res string) :=
  let port := capture_port capturePort in
  let! r := trigger (BRun s (MaxOutput MaxCaptureOutput) (CaptureCommand port)) in
  match r with
  | Er e =>
      Ret (Er (if errors_Is ErrOutputTooLarge e then
                 capture_err ("the node's answer exceeded " +:+ itoa MaxCaptureOutput
                   +:+ " bytes, far more than one certificate; nothing was written: ") e
               else capture_err "run the capture: " e))
  | Ok x =>
      guard bool_decide (ExitCode x = 0%Z) orelse
        wrap_pre (sent ErrTLSCapture) ("the capture exited " +:+ itoa (ExitCode x)
          +:+ " (is openssl on the node, and is pveproxy listening on 127.0.0.1:" +:+ itoa port +:+ "? pass --capture-port if not)") in
      let? captured := Ret (ParseCapture (Stdout x)) orelse capture_err "" in
      checkServed host apiPort captured verifyChain
  end.
Definition differsError (targetID stored captured : string) (keyful : bool) : err :=
  let rebuilt := "if the node was rebuilt, read its SSH host key on the node's CONSOLE (" +:+ ConsoleHostKeyCommand
    +:+ ") and run pveforge bootstrap " +:+ targetID +:+ (if keyful then "" else " --no-ssh-key")
    +:+ " --reprovisioned --host-key-fingerprint <the console value>" in
  let fix_ := if keyful then "if only its TLS key changed deliberately, run pveforge roster pin-tls " +:+ targetID
    +:+ " --repin, which captures the new key over the pinned SSH session; " +:+ rebuilt else rebuilt in
  wrap_pre (sent ErrTLSPinDiffers) (targetID +:+ " pins " +:+ stored +:+ ", the node now serves " +:+ captured
    +:+ "; this run wrote no TLS pin, SSH auth or token to the roster; " +:+ fix_).

Record PinTLSOptions :=
  { pt_TargetID : string; pt_RosterPath : string; Expect : string; Repin : bool; Print_ : bool; pt_SSHPort : Z; pt_CapturePort : Z }.
Record PinTLSResult := { Pin : string; Source : string; Previous : string; Written : bool }.
Section options.
Context (o : PinTLSOptions).
Definition pt_what : string := "pin-tls " +:+ pt_TargetID o.
Definition no_such_target : err := errorf (pt_what +:+ ": no such target in roster " +:+ pt_RosterPath o).
Definition keyful (tg : Target) : bool := match tg_SSH tg with Some a => negb (eqb (HostKeyFingerprint_ a) "") | None => false end.
Definition checkPinTLSMode (tg : Target) : res unit :=
  let refuse says := Er (errorf (pt_what +:+ ": " +:+ says)) in
  let expected := negb (eqb (Expect o) "") in
  if negb (tg_InsecureTLS tg) && negb expected then
    refuse "the target verifies its certificate against the system CAs (insecure_tls is false), so it is pinned only explicitly: pass the pin you verified with --expect"
  else if negb (tg_InsecureTLS tg) && Repin o then
    refuse "--repin needs an insecure_tls target with SSH auth to vouch for the new key"
  else if negb (tg_InsecureTLS tg) then Ok tt
  else if keyful tg && expected then
    refuse "the target has SSH auth, so its pin is captured over the pinned SSH session; drop --expect"
  else if negb (keyful tg) && Repin o then
    refuse "--repin needs SSH auth to vouch for the new key, and the target has none"
  else if negb (keyful tg) && negb expected then
    refuse "the target has no SSH auth to capture its key over; verify its pin by other means and pass it with --expect"
  else Ok tt.
Definition CheckPinTLS : io bootE (res unit) :=
  let? r := trigger BLoad orelse wrapf pt_what in
  match Find r (pt_TargetID o) with None => Ret (Er no_such_target) | Some tg => Ret (checkPinTLSMode tg) end.
Definition pin_outcome := (option PinTLSResult * option err)%type.
(** What is done with the pin found and its source. *)
Definition conclude (tg : Target) (got : res (string * string)) : io bootE pin_outcome :=
  let previous := match TLS tg with Some p => SPKISHA256 p | None => "" end in
  let recorded := match TLS tg with Some p => pin_Source p | None => "" end in
  match got with
  | Er e => Ret (None, Some e)
  | Ok (pin, source) =>
      let res written source := {| Pin := pin; Source := source; Previous := previous; Written := written |} in
      if eqb previous pin then Ret (Some (res false recorded), None)
      else if negb (eqb previous "") && negb (Repin o) then
        Ret (Some (res false source), Some (differsError (pt_TargetID o) previous pin (keyful tg)))
      else if Print_ o then Ret (Some (res false source), None)
      else
        let! w := trigger (BWriteTLS previous pin source) in
        Ret match w with
            | Er e => (Some (res false source), Some (wrapf pt_what e))
            | Ok _ => (Some (res true source), None)
            end
  end.
Definition pin_expected (tg : Target) : io bootE pin_outcome :=
  let! r := checkServed (tg_Host tg) (EffectiveAPIPort (tg_APIPort tg)) (Expect o) (negb (tg_InsecureTLS tg)) in
  conclude tg (let^ pin := r orelse wrapf (pt_what +:+ ": --expect") in Ok (pin, SourceExpect)).
Definition pin_captured (tg : Target) (a : SSHAuth) : io bootE pin_outcome :=
  let! pem := trigger (BDecrypt (PrivateKeyEnc a)) in
  match pem with
  | Er e => Ret (None, Some (wrapf (pt_what +:+ ": decrypt the ssh key") e))
  | Ok pem =>
      let! s := trigger (BReconnect (tg_Host tg +:+ ":" +:+ itoa (pt_SSHPort o)) (ssh_User a) pem (HostKeyFingerprint_ a)) in
      match s with
      | Er e => Ret (None, Some (wrapf (pt_what +:+ ": connect with the pinned ssh key") e))
      | Ok s =>
          let! pin := capturePin s (tg_Host tg) (EffectiveAPIPort (tg_APIPort tg)) (pt_CapturePort o) false in
          let! out := conclude tg (let^ pin := pin orelse wrapf pt_what in Ok (pin, SourceSSHStored)) in
          let! _ := trigger (BClose s) in
          Ret out
      end
  end.
Definition pin_locked : io bootE pin_outcome :=
  let! r := trigger BLoad in
  match r with
  | Er e => Ret (None, Some (wrapf pt_what e))
  | Ok r =>
      match Find r (pt_TargetID o) with
      | None => Ret (None, Some no_such_target)
      | Some tg =>
          match checkPinTLSMode tg with
          | Er e => Ret (None, Some e)
          | Ok _ =>
              match tg_SSH tg with
              | Some a => if tg_InsecureTLS tg && keyful tg then pin_captured tg a else pin_expected tg
              | None => pin_expected tg
              end
          end
      end
  end.
End options.
Definition with_port (o : PinTLSOptions) : PinTLSOptions :=
  {| pt_TargetID := pt_TargetID o; pt_RosterPath := pt_RosterPath o; Expect := Expect o; Repin := Repin o; Print_ := Print_ o;
     pt_SSHPort := if (pt_SSHPort o =? 0)%Z then 22%Z else pt_SSHPort o; pt_CapturePort := pt_CapturePort o |}.
Definition PinTLS (o : PinTLSOptions) : io bootE pin_outcome :=
  match (if eqb (Expect o) "" then Ok "" else Parse (Expect o)) with
  | Er e => Ret (None, Some (wrapf (pt_what o +:+ ": --expect") e))
  | Ok _ =>
      let o := with_port o in
      if Print_ o then pin_locked o
      else
        let! l := trigger BLock in
        match l with
        | Er e => Ret (None, Some (wrapf (pt_what o +:+ ": acquire the per-target bootstrap lock") e))
        | Ok _ => let! r := pin_locked o in let! _ := trigger BUnlock in Ret r
        end
  end.
End pins.

(** * Specification *)
Definition held_tls (tg : Target) : string := match TLS tg with Some p => SPKISHA256 p | None => "" end.
Section spec.
Context (pem_Decode : string → option (string * string * string)) (x509_key : string → option string).
Context (sha256 : string → string).
Local Notation ParseCapture := (ParseCapture pem_Decode x509_key sha256).
Local Notation capturePin := (capturePin pem_Decode x509_key sha256).
(** [pin] was read from the certificate of the node itself, over the session [s], and is what
    the target's address serves. *)
Definition served (host : string) (apiPort : Z) (verifyChain : bool) (pin : string) (tr : list (event bootE)) : Prop :=
  Ev (BServedPin host (EffectiveAPIPort apiPort) verifyChain) (Ok pin) ∈ tr.
Definition captured (s : Z) (port : Z) (pin : string) (tr : list (event bootE)) : Prop :=
  ∃ x, Ev (BRun s (MaxOutput MaxCaptureOutput) (CaptureCommand (capture_port port))) (Ok x) ∈ tr ∧
    ExitCode x = 0%Z ∧ ParseCapture (Stdout x) = Ok pin.
(** What vouches for a pin of the target: the stored SSH session, or the operator. *)
Definition vouched (o : PinTLSOptions) (tg : Target) (pin source : string) (tr : list (event bootE)) : Prop :=
  served (tg_Host tg) (tg_APIPort tg) (negb (tg_InsecureTLS tg)) pin tr ∧
  if tg_InsecureTLS tg && keyful tg then
    source = SourceSSHStored ∧ ∃ a pem s, tg_SSH tg = Some a ∧
      Ev (BReconnect (tg_Host tg +:+ ":" +:+ itoa (pt_SSHPort (with_port o))) (ssh_User a) pem (HostKeyFingerprint_ a)) (Ok s) ∈ tr ∧
      captured s (pt_CapturePort o) pin tr
  else source = SourceExpect ∧ pin = Expect o ∧ pin ≠ "".
(** A write of the target's pin. *)
Definition tls_write (ev : event bootE) : option (string * string * string * bool) :=
  match ev with @Ev _ _ (BWriteTLS old next source) r => Some (old, next, source, is_ok r) | _ => None end.
Definition tls_writes (tr : list (event bootE)) : list (string * string * string * bool) := omap tls_write tr.
Definition changes_nothing (R : Type) (e : bootE R) : Prop :=
  match e with
  | BLoad | BDecrypt _ | BReconnect _ _ _ _ | BRun _ (MaxOutput _) _ | BClose _ | BServedPin _ _ _ => True
  | _ => False
  end.
Definition quiet (tr : list (event bootE)) : Prop := Forall (λ ev, match ev with Ev e _ => changes_nothing _ e end) tr.

(** * Lemmas *)
Lemma EffectiveAPIPort_twice p : EffectiveAPIPort (EffectiveAPIPort p) = EffectiveAPIPort p.
Proof. unfold EffectiveAPIPort. destruct (p =? 0)%Z eqn:E; [done|by rewrite E]. Qed.
Lemma checkServed_spec host port want verifyChain :
  always (checkServed host port want verifyChain) (λ tr r,
    quiet tr ∧ ∀ pin, r = Ok pin → pin = want ∧ served host port verifyChain pin tr).
Proof.
  unfold checkServed. cbv zeta. cbn [bind trigger always]. intros [p|e]; [|split; [by repeat constructor|done]].
  destruct (eqb p want) eqn:Hp; cbn [always]; (split; [by repeat constructor|]); [|done].
  intros pin [= <-]. apply eqb_true in Hp as ->. split; [done|]. by left.
Qed.
Lemma capturePin_spec s host port cport verifyChain :
  always (capturePin s host port cport verifyChain) (λ tr r,
    quiet tr ∧ ∀ pin, r = Ok pin → served host port verifyChain pin tr ∧ captured s cport pin tr).
Proof.
  unfold PinTls.capturePin. cbv zeta. cbn [bind trigger always]. intros [x|e].
  2: { cbn [always]. split; [by repeat constructor|done]. }
  destruct (bool_decide _) eqn:Hx; cbn [bind always]; [|by (split; [repeat constructor|])].
  destruct (ParseCapture (Stdout x)) as [want|e] eqn:Hp; cbn [always]; [|by (split; [repeat constructor|])].
  eapply always_mono; [|apply checkServed_spec]. intros tr r [Hq Hr]. split; [by constructor|].
  intros pin ->. destruct (Hr pin eq_refl) as [-> Hs]. split; [by right|]. exists x.
  apply bool_decide_eq_true in Hx. split; [by left|done].
Qed.
Lemma tls_writes_app tr tr' : tls_writes (tr ++ tr') = tls_writes tr ++ tls_writes tr'.
Proof. apply omap_app. Qed.
Lemma tls_writes_quiet tr : quiet tr → tls_writes tr = [].
Proof. induction 1 as [|[R e r] tr He _ IH]; [done|]. unfold tls_writes in *. cbn [omap list_omap]. by destruct e. Qed.
(** What a run concluded of the pin found. *)
Definition concluded (o : PinTLSOptions) (tg : Target) (pin source : string) (tr : list (event bootE)) (out : pin_outcome) : Prop :=
  match tls_writes tr with
  | [] => ∀ res, out.1 = Some res → Written res = false ∧ Pin res = pin ∧ Previous res = held_tls tg
  | [(old, next, src, ok)] =>
      old = held_tls tg ∧ next = pin ∧ src = source ∧ old ≠ next ∧ (old = "" ∨ Repin o = true) ∧ Print_ o = false ∧
      ∃ res, out.1 = Some res ∧ Pin res = pin ∧ Previous res = old ∧ Written res = ok ∧ (out.2 = None ↔ ok = true)
  | _ => False
  end.
Lemma conclude_spec o tg pin source :
  always (conclude o tg (Ok (pin, source))) (λ tr out, concluded o tg pin source tr out).
Proof.
  unfold conclude. cbv zeta. fold (held_tls tg). destruct (eqb (held_tls tg) pin) eqn:Hp; [by intros res [= <-]|].
  destruct (negb (eqb (held_tls tg) "") && negb (Repin o)) eqn:Hr; [by intros res [= <-]|].
  destruct (Print_ o) eqn:Hprint; [by intros res [= <-]|]. cbn [bind trigger always].
  assert (held_tls tg = "" ∨ Repin o = true) as Hauth.
  { destruct (eqb (held_tls tg) "") eqn:He; [left; by apply eqb_true|right; by destruct (Repin o)]. }
  apply eqb_false in Hp. intros [?|e]; cbn [always]; unfold concluded; cbn; split_and!; try done;
    (eexists; split_and!; [done..|]); by split.
Qed.
Lemma concluded_quiet o tg pin source pre tr post out :
  quiet pre → quiet post → concluded o tg pin source tr out → concluded o tg pin source (pre ++ tr ++ post) out.
Proof.
  intros Hpre Hpost. unfold concluded. rewrite !tls_writes_app, (tls_writes_quiet pre), (tls_writes_quiet post) by done.
  by rewrite app_nil_r.
Qed.
(** A run that stopped before it had a pin, and one that found a pin that is vouched for before
    anything is written. *)
Definition pin_run (o : PinTLSOptions) (tr : list (event bootE)) (out : pin_outcome) : Prop :=
  (out.1 = None ∧ is_Some out.2 ∧ tls_writes tr = []) ∨
  ∃ r tg pin source pre post, tr = pre ++ post ∧ Ev BLoad (Ok r) ∈ pre ∧ Find r (pt_TargetID o) = Some tg ∧
    tls_writes pre = [] ∧ vouched o tg pin source pre ∧ concluded o tg pin source post out.
Lemma no_pin o e tr : quiet tr → pin_run o tr (None, Some e).
Proof. intros Hq. left. split_and!; [done|by eexists|by apply tls_writes_quiet]. Qed.
Definition pin_branch (o : PinTLSOptions) (tg : Target) (tr : list (event bootE)) (out : pin_outcome) : Prop :=
  quiet tr ∧ (∃ e, out = (None, Some e)) ∨
  ∃ pin source pre post, tr = pre ++ post ∧ quiet pre ∧ vouched o tg pin source pre ∧ concluded o tg pin source post out.
Lemma pin_expected_spec o tg :
  tg_InsecureTLS tg && keyful tg = false → Expect o ≠ "" → always (pin_expected (with_port o) tg) (pin_branch o tg).
Proof.
  intros Hmode He. unfold pin_expected. apply always_bind. eapply always_mono; [|apply checkServed_spec].
  intros tr [p|e] [Hq Hr]; cbn [always].
  - destruct (Hr p eq_refl) as [-> Hs]. eapply always_mono; [|apply conclude_spec]. intros tr' out Hc. right.
    exists (Expect o), SourceExpect, tr, tr'. split_and!; [done..| |done]. unfold vouched. rewrite Hmode. split; [|done].
    unfold served in *. by rewrite EffectiveAPIPort_twice in Hs.
  - left. rewrite app_nil_r. split; [done|]. by eexists.
Qed.
Lemma pin_captured_spec o tg a :
  tg_SSH tg = Some a → tg_InsecureTLS tg && keyful tg = true →
  always (pin_captured pem_Decode x509_key sha256 (with_port o) tg a) (pin_branch o tg).
Proof.
  intros Ha Hmode. unfold pin_captured. cbn [bind trigger always]. intros [pem|e].
  2: { cbn [always]. left. split; [by repeat constructor|by eexists]. }
  cbn [bind trigger always]. intros [s|e].
  2: { cbn [always]. left. split; [by repeat constructor|by eexists]. }
  apply always_bind. eapply always_mono; [|apply capturePin_spec]. intros tr [pin|e] [Hq Hr].
  2: { cbn [conclude bind trigger always]. intros []. cbn [always]. left. split; [|by eexists].
       do 2 (constructor; [done|]). apply Forall_app. split; [done|by repeat constructor]. }
  destruct (Hr pin eq_refl) as [Hs Hc]. apply always_bind. eapply always_mono; [|apply conclude_spec].
  intros tr' out Hout. cbn [bind trigger always]. intros []. cbn [always]. right.
  exists pin, SourceSSHStored, (Ev (BDecrypt (PrivateKeyEnc a)) (Ok pem) ::
    Ev (BReconnect (tg_Host tg +:+ ":" +:+ itoa (pt_SSHPort (with_port o))) (ssh_User a) pem (HostKeyFingerprint_ a)) (Ok s) :: tr),
    (tr' ++ [Ev (BClose s) tt]).
  split_and!; [done|by do 2 (constructor; [done|])| |].
  - unfold vouched. rewrite Hmode. split.
    + unfold served in *. rewrite EffectiveAPIPort_twice in Hs. apply andb_true_iff in Hmode as [-> _]. by do 2 right.
    + split; [done|]. exists a, pem, s. split_and!; [done|right; by left|]. destruct Hc as (x & Hx & ?). exists x. split; [by do 2 right|done].
  - apply (concluded_quiet _ _ _ _ [] tr' [_]); [constructor|by repeat constructor|done].
Qed.
Lemma checkPinTLSMode_expects o tg :
  checkPinTLSMode o tg = Ok tt → tg_InsecureTLS tg && keyful tg = false → Expect o ≠ "".
Proof.
  unfold checkPinTLSMode. cbv zeta. intros H Hm. destruct (eqb (Expect o) "") eqn:He; [|by apply eqb_false].
  destruct (tg_InsecureTLS tg); cbn [negb andb] in *; [|done]. rewrite Hm in H. by destruct (Repin o).
Qed.
Lemma pin_locked_spec o :
  always (pin_locked pem_Decode x509_key sha256 (with_port o)) (pin_run o).
Proof.
  unfold pin_locked. cbn [bind trigger always]. intros [r|e]; [|apply no_pin; by repeat constructor].
  destruct (Find r _) as [tg|] eqn:Hf; [|apply no_pin; by repeat constructor].
  destruct (checkPinTLSMode _ tg) as [[]|e] eqn:Hm; [|apply no_pin; by repeat constructor].
  assert (∀ tr out, pin_branch o tg tr out → pin_run o (Ev BLoad (Ok r) :: tr) out) as Hbranch.
  { intros tr out [(Hq & e & ->)|(pin & source & pre & post & -> & Hq & Hv & Hc)]; [apply no_pin; by constructor|]. right.
    exists r, tg, pin, source, (Ev BLoad (Ok r) :: pre), post. split_and!; [done|by left|done| | |done].
    - apply (tls_writes_quiet (_ :: pre)). by constructor.
    - destruct Hv as [Hs Hv]. split; [by right|]. destruct (_ && _); [|done]. destruct Hv as (-> & a & pem & s & ? & ? & x & ? & ?).
      split; [done|]. exists a, pem, s. split_and!; [done|by right|]. exists x. split; [by right|done]. }
  destruct (tg_SSH tg) as [a|] eqn:Ha; [destruct (tg_InsecureTLS tg && keyful tg) eqn:Hmode|].
  - eapply always_mono; [|by apply pin_captured_spec]. exact Hbranch.
  - eapply always_mono; [|apply pin_expected_spec; [done|by eapply (checkPinTLSMode_expects (with_port o))]]. exact Hbranch.
  - assert (tg_InsecureTLS tg && keyful tg = false) as Hmode by (unfold keyful; rewrite Ha; apply andb_false_r).
    eapply always_mono; [|apply pin_expected_spec; [done|by eapply (checkPinTLSMode_expects (with_port o))]]. exact Hbranch.
Qed.
End spec.

Lemma checkServed_total host port want verifyChain : total (checkServed host port want verifyChain).
Proof. unfold checkServed. totally. Qed.
Lemma capturePin_total pem_Decode x509_key sha256 s host port cport verifyChain :
  total (capturePin pem_Decode x509_key sha256 s host port cport verifyChain).
Proof. unfold capturePin. totally. apply checkServed_total. Qed.
Lemma PinTLS_total pem_Decode x509_key sha256 o : total (PinTLS pem_Decode x509_key sha256 o).
Proof.
  unfold PinTLS, pin_locked, pin_captured, pin_expected, conclude. totally; first [apply checkServed_total|apply capturePin_total].
Qed.

(** * Properties *)
(** C10: pin-tls always ends. It writes at most one pin of the target, and only one vouched for before the
    write: it is what the target's address serves, and what was read from the node's own
    certificate over a session dialed with the stored key and host key pin, or, for a target
    without one, what the operator gave. It replaces another pin only with --repin, writes
    nothing with --print, otherwise runs under the bootstrap lock, and reports what it did. *)
Theorem PinTLS_safe pem_Decode x509_key sha256 o :
  total (PinTLS pem_Decode x509_key sha256 o) ∧
  always (PinTLS pem_Decode x509_key sha256 o) (λ tr out,
    pin_run pem_Decode x509_key sha256 o tr out ∧
    (Print_ o = false → (∃ l, Forall (λ ev, ev = Ev BLock (Er l)) tr) ∨ ∃ mid, tr = Ev BLock (Ok tt) :: mid ++ [Ev BUnlock tt])).
Proof.
  split; [apply PinTLS_total|]. unfold PinTLS. assert (∀ e, pin_run pem_Decode x509_key sha256 o [] (None, Some e)) as Hno by (intros e; apply no_pin; constructor).
  destruct (if eqb (Expect o) "" then _ else _); [|split; [apply Hno|left; exists (errorf ""); constructor]].
  cbv zeta. change (Print_ (with_port o)) with (Print_ o). destruct (Print_ o) eqn:Hp.
  { eapply always_mono; [|apply pin_locked_spec]. intros tr out Hr. by split. }
  cbn [bind trigger always]. intros [[]|l].
  2: { cbn [always]. split; [left; by split_and!; [|eexists|]|]. intros _. left. exists l. by repeat constructor. }
  apply always_bind. eapply always_mono; [|apply pin_locked_spec]. intros tr out Hr.
  cbn [bind trigger always]. intros []. cbn [always]. split; [|intros _; right; by exists tr].
  destruct Hr as [(? & ? & Hw)|(r & tg & pin & source & pre & post & -> & Hin & Hf & Hw & [Hs Hv] & Hc)].
  - left. split_and!; [done..|]. cbn. rewrite tls_writes_app. by rewrite Hw.
  - right. exists r, tg, pin, source, (Ev BLock (Ok tt) :: pre), (post ++ [Ev BUnlock tt]).
    split_and!; [cbn; by rewrite app_assoc|by right|done|done| |].
    + split; [by right|]. destruct (_ && _); [|done]. destruct Hv as (-> & key & pem & s & ? & ? & x & ? & ?).
      split; [done|]. exists key, pem, s. split_and!; [done|by right|]. exists x. split; [by right|done].
    + unfold concluded in *. rewrite tls_writes_app. cbn [tls_writes omap list_omap tls_write]. by rewrite app_nil_r.
Qed.
(** The connection check of a pinned client accepts a peer exactly when the key of its leaf
    certificate has the pin. *)
Theorem VerifyConnection_iff sha256 want check peers :
  VerifyConnection sha256 want = Ok check →
  valid_pin want ∧ (check peers = None ↔ ∃ key, head peers = Some key ∧ FromCertificate sha256 key = want).
Proof.
  unfold VerifyConnection. rewrite call_iff. intros (p & Hp & [= <-]). split; [apply Parse_ok; by rewrite Hp|].
  destruct peers as [|key peers]; cbn [head]; [by split; [|intros (? & ? & _)]|].
  destruct (eqb (FromCertificate sha256 key) want) eqn:He.
  - apply eqb_true in He. split; [|done]. intros _. by exists key.
  - apply eqb_false in He. split; [done|]. intros (k & [= <-] & ?). done.
Qed.

(** * Witnesses *)
(** A digest that keeps the first byte of the key. *)
Definition toy_sha256 (key : string) : string :=
  match key with String c _ => String c "bcdefghijklmnopqrstuvwxyz012345" | EmptyString => "abcdefghijklmnopqrstuvwxyz012345" end.
Definition toy_pin : string := FromCertificate toy_sha256 "k1".
Lemma VerifyConnection_iff_witness :
  ∃ check, VerifyConnection toy_sha256 toy_pin = Ok check ∧ check ["k1"; "other"] = None ∧ is_Some (check ["other"; "k1"]).
Proof.
  assert (is_ok (Parse toy_pin) = true) as Hp by (vm_compute; reflexivity).
  assert (∃ check, VerifyConnection toy_sha256 toy_pin = Ok check) as [check Hc].
  { unfold VerifyConnection. destruct (Parse toy_pin); [by eexists|done]. }
  exists check. split; [exact Hc|].
  destruct (VerifyConnection_iff toy_sha256 toy_pin check ["k1"; "other"] Hc) as [_ [_ Hk1]].
  destruct (VerifyConnection_iff toy_sha256 toy_pin check ["other"; "k1"] Hc) as [_ [Hother _]].
  split; [apply Hk1; exists "k1"; split; reflexivity|].
  destruct (check ["other"; "k1"]) as [e|]; [by exists e|]. exfalso.
  destruct (Hother eq_refl) as (key & Hk & Hf). injection Hk as <-.
  assert (eqb (FromCertificate toy_sha256 "other") toy_pin = false) as Hne by (vm_compute; reflexivity).
  apply eqb_false in Hne. done.
Defined.
(** A target with an SSH key, whose node answers the capture with the certificate of [k1]. *)
Definition lab_node : Target :=
  {| tg_ID := "lab"; tg_Host := "h"; tg_Node := "n"; tg_APIPort := 0; tg_InsecureTLS := true; Export_ := ""; Token := None;
     tg_SSH := Some {| ssh_User := "root"; PublicKey := ""; HostKeyFingerprint_ := "SHA256:x"; PrivateKeyEnc := "enc"; HostKeySource := "" |};
     TLS := Some {| SPKISHA256 := "sha256//old"; pin_Source := "expect" |} |}.
Definition pem_of (key : string) : string := "-----BEGIN " +:+ key.
Definition toy_pem (s : string) : option (string * string * string) :=
  option_map (λ key, ("CERTIFICATE", key, "")) (cut_prefix "-----BEGIN " s).
Definition lab_pins (served_key : string) : env bootE unit := λ R e _,
  match e in bootE R return R * unit with
  | BLock => (Ok tt, tt) | BUnlock => (tt, tt) | BKeygen _ => (Er (errorf "no"), tt)
  | BInstall _ _ _ _ _ => (Er (errorf "no"), tt) | BDialKey _ _ _ _ => (Er (errorf "no"), tt)
  | BDialPassword _ _ _ _ => (Er (errorf "no"), tt) | BReconnect _ _ _ _ => (Ok 1%Z, tt)
  | BRun _ _ _ => (Ok {| Stdout := pem_of "k1"; Stderr := ""; ExitCode := 0 |}, tt) | BClose _ => (tt, tt)
  | BServedPin _ _ _ => (Ok (FromCertificate toy_sha256 served_key), tt)
  | BValidate _ _ => (Er (errorf "no"), tt) | BPause => (None, tt) | BNow => (0%Z, tt) | BLoad => (Ok [lab_node], tt)
  | BProve => (Ok tt, tt) | BDecrypt _ => (Ok "pem", tt) | BAppend _ => (Ok tt, tt) | BWriteSSH _ => (Ok tt, tt)
  | BReplaceSSH _ _ => (Ok tt, tt) | BWriteTLS _ _ _ => (Ok tt, tt) | BWriteToken _ _ => (Ok tt, tt)
  | BClearToken => (Ok tt, tt) | BDryRun => (Ok tt, tt) | BProbeDir => (Ok tt, tt) | BUpdateFields _ _ _ _ => (Ok tt, tt)
  end.
Definition lab_pin (repin : bool) (served_key : string) : option (list (string * string * string * bool) * option bool * bool) :=
  match run (lab_pins served_key) (PinTLS toy_pem Some toy_sha256
    {| pt_TargetID := "lab"; pt_RosterPath := "r"; Expect := ""; Repin := repin; Print_ := false; pt_SSHPort := 0; pt_CapturePort := 0 |}) tt with
  | Some (tr, (r, e), _) => Some (tls_writes tr, Written <$> r, bool_decide (e = None))
  | None => None
  end.
Example repinned : lab_pin true "k1" = Some ([("sha256//old", toy_pin, "ssh-stored", true)], Some true, true).
Proof. vm_compute. reflexivity. Qed.
Example not_repinned_unasked : lab_pin false "k1" = Some ([], Some false, false).
Proof. vm_compute. reflexivity. Qed.
Example other_peer_refused : lab_pin true "x" = Some ([], None, false).
Proof. vm_compute. reflexivity. Qed.
