(* ===== verification/Bootstrap.v ===== *)
(** internal/bootstrap/bootstrap.go, what [Run] does before its token phase: the checks that
    need no secret, the lock, the SSH session with a stored, a fresh or no key, the capture of
    the TLS pin and its persistence; and sshexec/removekey.go, the removal of a key. *)
From Stdlib Require Import Ascii.
From S2P Require Import Prelude GoLib Errors Json ShellQuote Rest OpRun Client Remote Grants RootAccess Roster RosterWrite Rotation PinTls.

(** ** removekey.go *)
Definition RemoveKeyExitNotExactlyOne : Z := 3.
Definition RemoveKeyExitChanged : Z := 4.
Definition checkKeyLine (line : string) : res unit :=
  guard^ negb (eqb (trim_space line) "") orelse wrap_pre (sent ErrInvalidKeyLine) "it is empty" in
  guard^ negb (any_byte (one_of (chr 13 +:+ chr 10)) line) orelse
    wrap_pre (sent ErrInvalidKeyLine) "it holds a line break (\n or \r)" in
  Ok tt.
Definition removeKeyCommands (line : string) : list string :=
  let q := ShellQuote line in
  ["set -eu"; "snap= new="; "trap 'rm -f " +:+ dq +:+ "$snap" +:+ dq +:+ " " +:+ dq +:+ "$new" +:+ dq +:+ "' EXIT";
   "trap 'exit 129' HUP INT TERM"; "f=$(readlink -f ~/.ssh/authorized_keys)"; "snap=$(mktemp)";
   "cat " +:+ dq +:+ "$f" +:+ dq +:+ " > " +:+ dq +:+ "$snap" +:+ dq;
   "n=$(grep -cxF -- " +:+ q +:+ " " +:+ dq +:+ "$snap" +:+ dq +:+ " || true)";
   "[ " +:+ dq +:+ "$n" +:+ dq +:+ " = 1 ] || { echo " +:+ dq +:+ "found $n" +:+ dq +:+ "; exit " +:+ itoa RemoveKeyExitNotExactlyOne +:+ "; }";
   "new=$(mktemp " +:+ dq +:+ "$f.tmp.XXXXXX" +:+ dq +:+ ")";
   "grep -vxF -- " +:+ q +:+ " " +:+ dq +:+ "$snap" +:+ dq +:+ " > " +:+ dq +:+ "$new" +:+ dq +:+ " || [ $? -eq 1 ]";
   "cmp -s " +:+ dq +:+ "$f" +:+ dq +:+ " " +:+ dq +:+ "$snap" +:+ dq +:+ " || { echo changed; exit " +:+ itoa RemoveKeyExitChanged +:+ "; }";
   "mv -f -- " +:+ dq +:+ "$new" +:+ dq +:+ " " +:+ dq +:+ "$f" +:+ dq; "echo removed"].
Definition RemoveAuthorizedKeyScript (line : string) : res string :=
  let^ _ := checkKeyLine line orelse id in Ok (Join (chr 10) (removeKeyCommands line) +:+ chr 10).
Definition ManualKeyRemovalCommand (line : string) : res string :=
  let^ _ := checkKeyLine line orelse id in Ok ("sh -c " +:+ ShellQuote (Join "; " (removeKeyCommands line))).

(** ** Options *)
Record BootOptions :=
  { base : Options; SSHPort : Z; tlsSource : string; PVEUsername : string; PVEPassword : string; NoSSHKey : bool;
    HostKeyFingerprint : string; Reprovisioned : bool; SSHTOFU : bool; CapturePort : Z; opt_Grants : list Grant;
    RosterPath : string; opt_Passphrase : Passphrase }.
Definition boot_id (o : BootOptions) : string := TargetID_ (base o).
Definition boot_what (o : BootOptions) : string := "bootstrap " +:+ boot_id o.
Definition set_base (b : Options) (source : string) (o : BootOptions) : BootOptions :=
  {| base := b; SSHPort := SSHPort o; tlsSource := source; PVEUsername := PVEUsername o; PVEPassword := PVEPassword o;
     NoSSHKey := NoSSHKey o; HostKeyFingerprint := HostKeyFingerprint o; Reprovisioned := Reprovisioned o; SSHTOFU := SSHTOFU o;
     CapturePort := CapturePort o; opt_Grants := opt_Grants o; RosterPath := RosterPath o; opt_Passphrase := opt_Passphrase o |}.
Definition set_pin (pin : string) (b : Options) : Options :=
  {| TargetID_ := TargetID_ b; Host := Host b; Node_ := Node_ b; APIPort := APIPort b; InsecureTLS := InsecureTLS b;
     TLSPin := pin; TokenOwner := TokenOwner b; TokenID := TokenID b |}.
Definition or_default (s d : string) : string := if eqb s "" then d else s.
Definition applyDefaults (o : BootOptions) : BootOptions :=
  let user := or_default (PVEUsername o) "root@pam" in
  let user := if contains "@" user then user else user +:+ "@pam" in
  let b := base o in
  {| base := {| TargetID_ := TargetID_ b; Host := Host b; Node_ := Node_ b; APIPort := APIPort b; InsecureTLS := InsecureTLS b;
                TLSPin := TLSPin b; TokenOwner := or_default (TokenOwner b) user; TokenID := TokenID b |};
     SSHPort := if (SSHPort o =? 0)%Z then 22%Z else SSHPort o; tlsSource := tlsSource o; PVEUsername := user;
     PVEPassword := PVEPassword o; NoSSHKey := NoSSHKey o; HostKeyFingerprint := HostKeyFingerprint o;
     Reprovisioned := Reprovisioned o; SSHTOFU := SSHTOFU o; CapturePort := CapturePort o; opt_Grants := opt_Grants o;
     RosterPath := RosterPath o; opt_Passphrase := opt_Passphrase o |}.
Definition from_target (tg : Target) (o : BootOptions) : BootOptions :=
  let b := base o in
  let stored := match TLS tg with Some p => if eqb (TLSPin b) "" then Some p else None | None => None end in
  set_base {| TargetID_ := TargetID_ b; Host := or_default (Host b) (tg_Host tg); Node_ := or_default (Node_ b) (tg_Node tg);
              APIPort := if (APIPort b =? 0)%Z then tg_APIPort tg else APIPort b; InsecureTLS := InsecureTLS b || tg_InsecureTLS tg;
              TLSPin := match stored with Some p => SPKISHA256 p | None => TLSPin b end;
              TokenOwner := TokenOwner b; TokenID := TokenID b |}
    match stored with Some p => pin_Source p | None => tlsSource o end o.
Definition defaultHostNodeFromRoster (o : BootOptions) : io bootE BootOptions :=
  if eqb (RosterPath o) "" || eqb (boot_id o) "" then Ret o
  else
    let! r := trigger BLoad in
    Ret match r with Ok r => match Find r (boot_id o) with Some tg => from_target tg o | None => o end | Er _ => o end.
Definition checkTargetAddress (o : BootOptions) : res unit :=
  guard^ negb (eqb (boot_id o) "") orelse errorf "bootstrap: target id is required" in
  guard^ negb (eqb (Host (base o)) "") orelse errorf "bootstrap: host is required" in
  guard^ negb (eqb (Node_ (base o)) "") orelse errorf "bootstrap: node is required" in
  Ok tt.
Definition fingerprintRE (s : string) : bool :=
  match cut_prefix "SHA256:" s with
  | Some t => match counted b64_byte 43 t with Some r => eqb r "" | None => false end
  | None => false
  end.
Definition CheckFingerprint (s : string) : res unit :=
  guard^ fingerprintRE s orelse
    errorf ("host key fingerprint " +:+ quote s +:+ " is not SHA256:<43 base64 characters>, as ssh-keygen -l -E sha256 prints it") in
  Ok tt.
Definition checkOptionsNeedingNoSecret (o : BootOptions) : res unit :=
  guard^ negb (eqb (TokenID (base o)) "") orelse errorf "bootstrap: token id is required" in
  guard^ negb (eqb (RosterPath o) "") orelse errorf "bootstrap: roster path is required" in
  if eqb (HostKeyFingerprint o) "" then Ok tt
  else let^ _ := CheckFingerprint (HostKeyFingerprint o) orelse wrapf "bootstrap: --host-key-fingerprint" in Ok tt.
Definition validateOptions (o : BootOptions) : res unit :=
  let^ _ := checkTargetAddress o orelse id in
  guard^ negb (eqb (PVEPassword o) "") orelse errorf "bootstrap: PVE password is required" in
  let^ _ := checkOptionsNeedingNoSecret o orelse id in
  guard^ negb (IsZero (opt_Passphrase o)) orelse errorf "bootstrap: roster passphrase is required" in
  Ok tt.
Definition pamLocalUser (pveUsername : string) : res string :=
  let what := "pve username " +:+ quote pveUsername in
  let '(name, realm) := match cut (byte 64) pveUsername with Some (n, r) => (n, Some r) | None => (pveUsername, None) end in
  guard^ negb (eqb name "") orelse errorf (what +:+ ": the user name is empty") in
  match realm with
  | None => Ok name
  | Some r =>
      guard^ eqb r "pam" orelse
        errorf (what +:+ ": only @pam realm users have a corresponding SSH-reachable system account, got @" +:+ r) in
      Ok name
  end.
Definition re_space (c : ascii) : bool := one_of (" " +:+ chr 9 +:+ chr 10 +:+ chr 12 +:+ chr 13) c.
Definition tokenOwnerNameRE (s : string) : bool :=
  negb (eqb s "") && all_bytes (λ c, negb (re_space c || one_of ":/!@" c)) s.
Definition tokenOwnerRealmRE (s : string) : bool :=
  match s with
  | String c (String _ _ as t) => is_letter c && all_bytes (λ d, is_alnum d || one_of ".-_" d) t
  | _ => false
  end.
Definition CheckTokenOwner (owner : string) : res unit :=
  let bad says := wrap_pre (sent ErrInvalidTokenOwner) (quote owner +:+ ": " +:+ says) in
  match cut (byte 64) owner with
  | None => Er (bad "an owner needs its realm, as name@realm")
  | Some (name, realm) =>
      guard^ tokenOwnerNameRE name orelse
        bad "the user name is empty or holds a character PVE (or a token id) would not accept" in
      guard^ tokenOwnerRealmRE realm orelse bad "the realm must start with a letter and be at least two characters" in
      Ok tt
  end.
Definition grantHint : string := "PATH:ROLE[:PRIVS[:PROPAGATE]]".
Definition parseGrant (spec : string) : res Grant :=
  let bad says := wrap_pre (sent ErrInvalidGrant) ("--grant " +:+ quote spec +:+ ": " +:+ says) in
  let go p r privs (prop : string) :=
    guard^ negb (eqb p "") && negb (eqb r "") orelse bad ("PATH and ROLE are required (" +:+ grantHint +:+ ")") in
    guard^ negb (eqb privs "0" || eqb privs "1") orelse
      bad (privs +:+ " is not a privilege name; to set propagate, use PATH:ROLE::" +:+ privs) in
    guard^ eqb prop "0" || eqb prop "1" orelse bad "PROPAGATE must be 0 or 1" in
    Ok {| Path := p; Role := r; Propagate := eqb prop "1"; Privs := if eqb privs "" then None else Some (Split (byte 44) privs) |} in
  match Split (byte 58) spec with
  | [p; r] => go p r "" "0"
  | [p; r; privs] => go p r privs "0"
  | [p; r; privs; prop] => go p r privs prop
  | _ => Er (bad ("want " +:+ grantHint))
  end.
Fixpoint parse_grants (specs : list string) : res (list Grant) :=
  match specs with
  | [] => Ok []
  | s :: specs' => let^ g := parseGrant s orelse id in let^ gs := parse_grants specs' orelse id in Ok (g :: gs)
  end.
Definition ParseGrants (specs : list string) : res (list Grant) :=
  guard^ negb (bool_decide (specs = [])) orelse
    wrap_pre (sent ErrInvalidGrant) ("bootstrap requires at least one --grant " +:+ grantHint) in
  let^ gs := parse_grants specs orelse id in normalizeGrants gs.

(** ** Checks against the roster *)
Definition rosterLoadError (path : string) : err → err :=
  wrapf ("load roster " +:+ path +:+ " (create it first with `pveforge roster init`)").
Definition ssh_pin (tg : Target) : string := match tg_SSH tg with Some a => HostKeyFingerprint_ a | None => "" end.
Definition stored_pin (o : BootOptions) (p : Target → bool) : io bootE bool :=
  let! r := trigger BLoad in
  Ret match r with Ok r => match Find r (boot_id o) with Some tg => p tg | None => false end | Er _ => false end.
Definition storedSSHPin (o : BootOptions) : io bootE bool := stored_pin o (λ tg, negb (eqb (ssh_pin tg) "")).
Definition storedAnyPin (o : BootOptions) : io bootE bool :=
  stored_pin o (λ tg, negb (eqb (ssh_pin tg) "") || bool_decide (TLS tg ≠ None)).
Definition CheckReprovision (o : BootOptions) : io bootE (res unit) :=
  if negb (Reprovisioned o) then Ret (Ok tt)
  else if SSHTOFU o then
    Ret (Er (errorf "--ssh-tofu does not apply with --reprovisioned: a rebuilt node's host key is never trusted on first use; read it on the node's CONSOLE (ssh-keygen -lf /etc/ssh/ssh_host_ecdsa_key.pub) and pass it with --host-key-fingerprint"))
  else if eqb (HostKeyFingerprint o) "" then Ret (Er (sent ErrReprovisionNeedsFingerprint))
  else let! any := storedAnyPin o in Ret (if any then Ok tt else Er (sent ErrNothingToReprovision)).
Definition checkCaptureTrust (o : BootOptions) : io bootE (res unit) :=
  if Reprovisioned o then CheckReprovision o
  else if SSHTOFU o && negb (eqb (HostKeyFingerprint o) "") then
    Ret (Er (errorf "--ssh-tofu and --host-key-fingerprint contradict each other: give the fingerprint you verified, or accept trust on first use, not both"))
  else if negb (InsecureTLS (base o)) then
    Ret (if SSHTOFU o then
           Er (errorf "--ssh-tofu applies only to an insecure_tls target, whose TLS pin is captured over SSH; this target verifies its certificate against the system CAs")
         else Ok tt)
  else
    let! stored := (if NoSSHKey o then Ret false else storedSSHPin o) in
    Ret (if stored then
           if SSHTOFU o then Er (errorf "--ssh-tofu does not apply: the target holds a pinned SSH host key, which this run dials")
           else Ok tt
         else if eqb (HostKeyFingerprint o) "" && negb (SSHTOFU o) then Er (sent ErrHostKeyFingerprintRequired) else Ok tt).
Definition checkGivenFingerprint (o : BootOptions) (stored : string) : res unit :=
  let given := HostKeyFingerprint o in
  guard^ Reprovisioned o || eqb stored "" || eqb given "" || eqb given stored orelse
    errorf (boot_what o +:+ ": --host-key-fingerprint " +:+ given +:+ " is not the host key this target is pinned to (" +:+ stored
      +:+ "); nothing was dialed. If " +:+ given
      +:+ " is the key you read on the node's CONSOLE after a rebuild, add --reprovisioned; pveforge will not re-pin otherwise") in
  Ok tt.
Definition ensureTargetExists (o : BootOptions) : io bootE (res unit) :=
  let? r := trigger BLoad orelse rosterLoadError (RosterPath o) in
  match Find r (boot_id o) with
  | Some _ => Ret (Ok tt)
  | None =>
      let b := base o in
      trigger (BAppend {| tg_ID := TargetID_ b; tg_Host := Host b; tg_Node := Node_ b; tg_APIPort := APIPort b;
                          tg_InsecureTLS := InsecureTLS b; Export_ := ""; Token := None; tg_SSH := None; TLS := None |})
  end.
Definition find_target {A} (o : BootOptions) (none : A) (f : Target → A) : io bootE (res A) :=
  let? r := trigger BLoad orelse load_err (RosterPath o) in
  Ret (Ok match Find r (boot_id o) with Some tg => f tg | None => none end).
Definition heldTokenID (o : BootOptions) : io bootE (res string) :=
  find_target o "" (λ tg, match Token tg with Some t => ta_ID t | None => "" end).
Definition heldSSHBlock (o : BootOptions) : io bootE (res bool) :=
  find_target o false (λ tg, bool_decide (tg_SSH tg ≠ None)).
Definition checkKeylessState (o : BootOptions) : io bootE (res unit) :=
  let? block := heldSSHBlock o orelse id in
  if NoSSHKey o then
    Ret (if block then
           Er (wrap_pre (sent ErrKeylessWithPersistedSSH) (boot_id o
             +:+ "; remove that target's [targets.ssh] block by hand to keep it keyless (this revokes no token), or drop --no-ssh-key to keep using the stored key"))
         else Ok tt)
  else if block : bool then Ret (Ok tt)
  else
    let? held := heldTokenID o orelse id in
    Ret (if eqb held "" then Ok tt
         else Er (wrap_pre (sent ErrKeylessTargetNeedsFlag) (boot_id o +:+ " holds the token " +:+ held
           +:+ " and no SSH auth (it was bootstrapped keyless, or its token was imported); pass --no-ssh-key to keep this target keyless, or remove its [targets.token] block by hand to re-bootstrap it with an SSH key"))).
Definition judge_owner (o : BootOptions) (held : string) : res unit :=
  let owner := TokenOwner (base o) in
  let name := TokenID (base o) in
  let mine := owner +:+ "!" +:+ name in
  let '(heldOwner, heldName, found) :=
    match cut (byte 33) held with Some (a, b) => (a, b, true) | None => (held, "", false) end in
  if eqb held "" then Ok tt
  else if found && eqb heldOwner owner then Ok tt
  else if negb found || eqb heldOwner "" then
    Er (wrap_pre (sent ErrTokenOwnerMismatch) ("the roster holds " +:+ quote held
      +:+ ", which names no owner, so pveforge cannot tell whose token it is; this run would address " +:+ mine
      +:+ ": pass --token-owner explicitly, as name@realm, to say which principal holds this target's token"))
  else
    let also := if eqb heldName name then ""
      else " (the token name differs too: the roster holds " +:+ quote heldName +:+ ", this run asks for " +:+ quote name +:+ ")" in
    Er (wrap_pre (sent ErrTokenOwnerMismatch) ("the roster holds " +:+ held +:+ ", but this run would address " +:+ mine +:+ also
      +:+ "; pass --token-owner " +:+ heldOwner +:+ " to keep addressing that principal, or --token-owner " +:+ owner
      +:+ " to change it deliberately (which leaves " +:+ held +:+ " live on PVE, held by nobody)")).
Definition checkHeldTokenOwner (o : BootOptions) (ownerGiven : bool) : io bootE (res unit) :=
  if ownerGiven then Ret (Ok tt)
  else let? held := heldTokenID o orelse id in Ret (judge_owner o held).
(** The stored private key and host key pin. *)
Definition loadExistingSSHAuth (o : BootOptions) : io bootE (res (option (string * string))) :=
  let? r := trigger BLoad orelse load_err (RosterPath o) in
  match Find r (boot_id o) with
  | None => Ret (Er (errorf ("target " +:+ quote (boot_id o) +:+ " not found in roster")))
  | Some tg =>
      match tg_SSH tg with
      | Some a =>
          if eqb (HostKeyFingerprint_ a) "" then Ret (Ok None)
          else
            let? pem := trigger (BDecrypt (PrivateKeyEnc a)) orelse wrapf ("decrypt existing ssh keypair for " +:+ quote (boot_id o)) in
            Ret (Ok (Some (pem, HostKeyFingerprint_ a)))
      | None => Ret (Ok None)
      end
  end.
Definition storedTLSUnderLock (o : BootOptions) : io bootE (res BootOptions) :=
  let? p := find_target o ("", "") (λ tg, match TLS tg with Some p => (SPKISHA256 p, pin_Source p) | None => ("", "") end) orelse id in
  let given := TLSPin (base o) in
  Ret (guard^ eqb given "" || eqb given p.1 orelse
         errorf ("the TLS pin this run was given (" +:+ given +:+ ") is not the one the roster holds (" +:+ p.1 +:+ ")") in
       Ok (set_base (set_pin p.1 (base o)) p.2 o)).
Definition sshSource (o : BootOptions) : string :=
  if eqb (HostKeyFingerprint o) "" then SourceSSHTOFU else SourceSSHVerified.
Definition captureSource (o : BootOptions) (dialsStoredPin : bool) : string :=
  if dialsStoredPin then SourceSSHStored else sshSource o.
(** What the command checks before it asks for a secret. *)
Definition CheckBeforePrompt (o : BootOptions) : io bootE (res unit) :=
  let ownerGiven := negb (eqb (TokenOwner (base o)) "") in
  let o := applyDefaults o in
  let? _ := Ret (CheckTokenOwner (TokenOwner (base o))) orelse wrapf (boot_what o) in
  let! o := defaultHostNodeFromRoster o in
  let? _ := Ret (checkTargetAddress o) orelse id in
  let? _ := Ret (checkOptionsNeedingNoSecret o) orelse id in
  let? _ := Ret (pamLocalUser (PVEUsername o)) orelse id in
  let? _ := checkCaptureTrust o orelse wrapf (boot_what o) in
  let? r := trigger BLoad orelse (λ e, wrapf (boot_what o) (rosterLoadError (RosterPath o) e)) in
  let? _ := checkHeldTokenOwner o ownerGiven orelse wrapf (boot_what o) in
  let? _ := checkKeylessState o orelse wrapf (boot_what o) in
  match Find r (boot_id o) with
  | None =>
      let? _ := trigger BProbeDir
        orelse wrapf (boot_what o +:+ ": the roster cannot take the new target, so nothing was asked for, dialed or written") in
      Ret (Ok tt)
  | Some tg =>
      let? _ := Ret (if negb (NoSSHKey o) && bool_decide (tg_SSH tg ≠ None) then checkGivenFingerprint o (ssh_pin tg) else Ok tt)
        orelse id in
      let? _ := trigger BDryRun
        orelse wrapf (boot_what o +:+ ": the roster would refuse the token write, so nothing was asked for, dialed or written") in
      Ret (Ok tt)
  end.

(** ** The installed key, given up *)
Definition keyComment (line : string) : string :=
  match Fields line with _ :: _ :: ((_ :: _) as rest) => Join " " rest | _ => "its key" end.
Definition keyLeftBehind (cause : err) (host user line why : string) : err :=
  let left := Error cause +:+ "; the SSH key this run installed may still be in " +:+ user +:+ "'s authorized_keys on " +:+ host
    +:+ " (" +:+ why +:+ ")" in
  Err KText match ManualKeyRemovalCommand line with
            | Er e => left +:+ ", and no removal command can be given for it: " +:+ Error e
            | Ok manual => left +:+ ": remove exactly it as " +:+ user +:+ " on the node with: " +:+ manual
            end [cause].
Section run.
Context (pem_Decode : string → option (string * string * string)) (x509_key : string → option string).
Context (sha256 : string → string).
Section options.
Context (o : BootOptions).
Definition dropKeyOver (s : Z) (cause : err) (user line : string) : io bootE err :=
  let left why := Ret (keyLeftBehind cause (Host (base o)) user line why) in
  match RemoveAuthorizedKeyScript line with
  | Er e => left ("it was not removed: " +:+ Error e)
  | Ok script =>
      let! r := trigger (BRun s Plain script) in
      match r with
      | Er e => left ("removing it failed: " +:+ Error e)
      | Ok x =>
          if bool_decide (ExitCode x = 0%Z) && eqb (trim_space (Stdout x)) "removed" then
            Ret (Err KText (Error cause +:+ "; the SSH key this run had installed on the node (" +:+ keyComment line
              +:+ ") was removed from " +:+ user +:+ "'s authorized_keys again") [cause])
          else left ("removing it was refused (exit " +:+ itoa (ExitCode x) +:+ ", " +:+ trim_space (Stdout x) +:+ ")")
      end
  end.
Definition dropKeyOverPassword (cause : err) (addr user hostKeyFP line : string) : io bootE err :=
  let left why := Ret (keyLeftBehind cause (Host (base o)) user line why) in
  if eqb hostKeyFP "" then left "no host key fingerprint to pin a password session to"
  else
    let! d := trigger (BDialPassword addr user (PVEPassword o) hostKeyFP) in
    match d with
    | Er e => left ("no session to remove it over: the password session failed too: " +:+ Error e)
    | Ok (s, _) => let! e := dropKeyOver s cause user line in let! _ := trigger (BClose s) in Ret e
    end.

(** ** The TLS pin *)
Record captured_tls := { c_pin : string; c_source : string; c_previous : option string }.
Definition capture (dialsStoredPin : bool) (s : Z) : io bootE (res captured_tls) :=
  let b := base o in
  let? pin := capturePin pem_Decode x509_key sha256 s (Host b) (APIPort b) (CapturePort o) (negb (InsecureTLS b))
    orelse wrapf (boot_what o) in
  let source := captureSource o dialsStoredPin in
  let stored := TLSPin b in
  if eqb stored pin then Ret (Ok {| c_pin := pin; c_source := tlsSource o; c_previous := None |})
  else if negb (eqb stored "") && Reprovisioned o then
    let? _ := trigger (BWriteTLS stored pin source) orelse wrapf (boot_what o +:+ ": replace the tls pin") in
    Ret (Ok {| c_pin := pin; c_source := source; c_previous := Some stored |})
  else if negb (eqb stored "") then
    Ret (Er (wrapf (boot_what o) (differsError (boot_id o) stored pin dialsStoredPin)))
  else
    let? _ := trigger (BWriteTLS "" pin source) orelse wrapf (boot_what o +:+ ": persist the tls pin") in
    Ret (Ok {| c_pin := pin; c_source := source; c_previous := None |}).
End options.

(** ** Run *)
Record sshIdentity := { addr : string; user : string; privateKeyPEM : string; hostKeyFP : string; id_password : string; keyless : bool }.
Definition reconnect (i : sshIdentity) : io bootE (res Z) :=
  if keyless i then
    let? p := trigger (BDialPassword (addr i) (user i) (id_password i) (hostKeyFP i)) orelse id in Ret (Ok p.1)
  else trigger (BReconnect (addr i) (user i) (privateKeyPEM i) (hostKeyFP i)).
(** What the token phase asks, over the current session; a session replaced by another is
    closed next. *)
Definition over_session (i : sshIdentity) : handler tokenE bootE (Z * option Z) := λ R e st,
  let '(s, old) := st in
  match e in tokenE R return io bootE (R * (Z * option Z)) with
  | TRun write cmd => let! r := trigger (BRun s (if write then ConfigWrite else Plain) cmd) in Ret (r, st)
  | TReconnect =>
      let! r := reconnect i in
      Ret match r with Ok s' => (Ok tt, (s', Some s)) | Er e => (Er e, st) end
  | TClose =>
      let! _ := (match old with Some x => trigger (BClose x) | None => Ret tt end) in Ret (tt, (s, None))
  | TValidate cfg want => let! r := trigger (BValidate cfg want) in Ret (r, st)
  | TPause => let! r := trigger BPause in Ret (r, st)
  | TNow => let! r := trigger BNow in Ret (r, st)
  | TLoad => let! r := trigger BLoad in Ret (r, st)
  | TDecrypt enc => let! r := trigger (BDecrypt enc) in Ret (r, st)
  | TDryRun => let! r := trigger BDryRun in Ret (r, st)
  | TWriteToken id secret => let! r := trigger (BWriteToken id secret) in Ret (r, st)
  | TClearToken => let! r := trigger BClearToken in Ret (r, st)
  | TUpdateFields host node port insecure => let! r := trigger (BUpdateFields host node port insecure) in Ret (r, st)
  end.
Record RunResult :=
  { r_HostKeyFingerprint : string; r_TLSPin : string; r_TLSPinSource : string; ReprovisionAsked : bool; r_Reprovisioned : bool;
    PreviousHostKeyFingerprint : string; PreviousTLSPin : string; r_TokenID : string; r_token : Result }.
Definition run_outcome := (option RunResult * option err)%type.
Definition stop (e : err) : run_outcome := (None, Some e).
Section locked_run.
(** The options as they are under the lock, the grants wanted and the user of the session. *)
Context (o : BootOptions) (want : list Grant) (sshUser : string) (existing : option (string * string)).
Definition run_addr : string := Host (base o) +:+ ":" +:+ itoa (SSHPort o).
Definition reprovisionSSH : bool :=
  match existing with Some (_, fp) => Reprovisioned o && negb (eqb (HostKeyFingerprint o) fp) | None => false end.
Definition dialsStoredPin : bool := match existing with Some _ => negb reprovisionSSH | None => false end.
Definition captureTLS : bool := InsecureTLS (base o) || (Reprovisioned o && negb (eqb (TLSPin (base o)) "")).
Definition capture_if (on : bool) (s : Z) : io bootE (res (option captured_tls)) :=
  if on then let? c := capture o dialsStoredPin s orelse id in Ret (Ok (Some c)) else Ret (Ok None).
Definition closing {A} (s : Z) (a : A) : io bootE A := let! _ := trigger (BClose s) in Ret a.
(** The token phase over the session, and its result. *)
Definition token_over (i : sshIdentity) (s : Z) (tls : option captured_tls) : io bootE run_outcome :=
  let pin := match tls with Some c => c_pin c | None => TLSPin (base o) end in
  let previous := match tls with Some c => c_previous c | None => None end in
  let reprovisioned := reprovisionSSH || bool_decide (previous <> None) in
  let prevFP := if reprovisionSSH then match existing with Some (_, fp) => fp | None => "" end else "" in
  let prevPin := default "" previous in
  let! out := interp (over_session i)
    (token_run (RosterPath o) (set_pin pin (base o)) want (if reprovisioned then Some (prevFP, prevPin) else None)) (s, None) in
  let '((r, e), (s, _)) := out in
  closing s
    (option_map (λ r,
       {| r_HostKeyFingerprint := hostKeyFP i; r_TLSPin := match tls with Some c => c_pin c | None => "" end;
          r_TLSPinSource := match tls with Some c => c_source c | None => "" end; ReprovisionAsked := Reprovisioned o;
          r_Reprovisioned := reprovisioned; PreviousHostKeyFingerprint := prevFP; PreviousTLSPin := prevPin;
          r_TokenID := TokenOwner (base o) +:+ "!" +:+ TokenID (base o); r_token := r |}) r, e).
Definition go_on (i : sshIdentity) (s : Z) : io bootE run_outcome :=
  let! tls := capture_if captureTLS s in
  match tls with Er e => closing s (stop e) | Ok tls => token_over i s tls end.
(** Without an SSH key. *)
Definition run_keyless : io bootE run_outcome :=
  let what := boot_what o +:+ ": connect with password (no ssh key)" in
  let! d := trigger (BDialPassword run_addr sshUser (PVEPassword o) (HostKeyFingerprint o)) in
  match d with
  | Er e => Ret (stop (wrapf what e))
  | Ok (s, fp) =>
      if eqb fp "" then closing s (stop (errorf (what +:+ ": the transport captured no host key fingerprint")))
      else go_on {| addr := run_addr; user := sshUser; privateKeyPEM := ""; hostKeyFP := fp; id_password := PVEPassword o; keyless := true |} s
  end.
Definition key_ident (pem fp : string) : sshIdentity :=
  {| addr := run_addr; user := sshUser; privateKeyPEM := pem; hostKeyFP := fp; id_password := ""; keyless := false |}.
(** With the stored key and host key pin. *)
Definition run_stored (pem fp : string) : io bootE run_outcome :=
  match checkGivenFingerprint o fp with
  | Er e => Ret (stop e)
  | Ok _ =>
      let! d := trigger (BReconnect run_addr sshUser pem fp) in
      match d with
      | Er e =>
          Ret (stop (Err KText (boot_what o +:+ ": reconnect with previously-pinned ssh key: " +:+ Error e
            +:+ " — pveforge will not silently re-trust and re-pin a different host key; if the node was rebuilt, read its new key on the node's CONSOLE (ssh-keygen -lf /etc/ssh/ssh_host_ecdsa_key.pub) and run pveforge bootstrap "
            +:+ boot_id o +:+ " --reprovisioned --host-key-fingerprint <the console value>") [e]))
      | Ok s => go_on (key_ident pem fp) s
      end
  end.
(** With a fresh key, installed over a password session and then persisted. *)
Definition persist_key (w : SSHWrite) (tls : option captured_tls) : io bootE (res unit) :=
  match reprovisionSSH, existing with
  | true, Some (_, fp) =>
      let done_ := match tls with
        | Some {| c_previous := Some prev |} =>
            "; the TLS pin was already replaced (previous " +:+ prev +:+ "), the SSH host key pin was not (still " +:+ fp
              +:+ "): re-run the same command to finish"
        | _ => ""
        end in
      let? _ := trigger (BReplaceSSH fp w)
        orelse (λ e, Err KText (boot_what o +:+ ": replace ssh auth: " +:+ Error e +:+ done_) [e]) in Ret (Ok tt)
  | _, _ => let? _ := trigger (BWriteSSH w) orelse wrapf (boot_what o +:+ ": persist ssh auth") in Ret (Ok tt)
  end.
Definition fresh_write (pem line fp : string) : SSHWrite :=
  {| w_User := sshUser; w_PublicKey := line; w_HostKeyFingerprint := fp; PrivateKeyPlaintext := pem; w_HostKeySource := sshSource o |}.
Definition run_with_key (pem line fp : string) (s : Z) : io bootE run_outcome :=
  let dropped e := let! e := dropKeyOver o s e sshUser line in closing s (stop e) in
  let! tls := capture_if captureTLS s in
  match tls with
  | Er e => dropped e
  | Ok tls =>
      let! wrote := persist_key (fresh_write pem line fp) tls in
      match wrote with Er e => dropped e | Ok _ => token_over (key_ident pem fp) s tls end
  end.
Definition run_fresh : io bootE run_outcome :=
  let! k := trigger (BKeygen ("pveforge@" +:+ boot_id o)) in
  match k with
  | Er e => Ret (stop (wrapf (boot_what o +:+ ": generate keypair") e))
  | Ok (pem, line) =>
      let! fp := trigger (BInstall run_addr sshUser (PVEPassword o) line (HostKeyFingerprint o)) in
      match fp with
      | Er e =>
          let cause := wrapf (boot_what o +:+ ": install pubkey") e in
          Ret (stop (if errors_Is ErrNoCommandSent e then cause
                     else keyLeftBehind cause (Host (base o)) sshUser line "the install's outcome is unknown"))
      | Ok fp =>
          let! d := trigger (BDialKey run_addr sshUser pem fp) in
          match d with
          | Er e =>
              let! e := dropKeyOverPassword o (wrapf (boot_what o +:+ ": connect with fresh key") e) run_addr sshUser fp line in
              Ret (stop e)
          | Ok s => run_with_key pem line fp s
          end
      end
  end.
Definition run_session : io bootE run_outcome :=
  if NoSSHKey o then run_keyless
  else match existing with
       | Some (pem, fp) => if reprovisionSSH then run_fresh else run_stored pem fp
       | None => run_fresh
       end.
End locked_run.
(** What is checked under the lock: the options with the stored TLS pin, and the stored key. *)
Definition under_lock (o : BootOptions) (ownerGiven : bool) : io bootE (res (BootOptions * option (string * string))) :=
  let? _ := ensureTargetExists o orelse wrapf (boot_what o) in
  let? _ := checkHeldTokenOwner o ownerGiven orelse wrapf (boot_what o) in
  let? _ := checkKeylessState o orelse wrapf (boot_what o) in
  let? _ := trigger BProve orelse wrapf (boot_what o) in
  let? existing := loadExistingSSHAuth o orelse wrapf (boot_what o) in
  let? o := storedTLSUnderLock o orelse wrapf (boot_what o) in
  Ret (Ok (o, existing)).
(** What is checked before the lock: the options with their defaults, the grants, the user. *)
Definition before_lock (o : BootOptions) : io bootE (res (BootOptions * list Grant * string)) :=
  let o := applyDefaults o in
  let? _ := Ret (CheckTokenOwner (TokenOwner (base o))) orelse wrapf (boot_what o) in
  let? want := Ret (normalizeGrants (opt_Grants o)) orelse wrapf (boot_what o) in
  let! o := defaultHostNodeFromRoster o in
  let? _ := Ret (validateOptions o) orelse id in
  let? sshUser := Ret (pamLocalUser (PVEUsername o)) orelse id in
  let? _ := checkCaptureTrust o orelse wrapf (boot_what o) in
  Ret (Ok (o, want, sshUser)).
Definition Run (o : BootOptions) : io bootE run_outcome :=
  let ownerGiven := negb (eqb (TokenOwner (base o)) "") in
  let! ready := before_lock o in
  match ready with
  | Er e => Ret (stop e)
  | Ok (o, want, sshUser) =>
      let! l := trigger BLock in
      match l with
      | Er e => Ret (stop (wrapf (boot_what o +:+ ": acquire the per-target bootstrap lock") e))
      | Ok _ =>
          let! held := under_lock o ownerGiven in
          let! out := (match held with
                       | Er e => Ret (stop e)
                       | Ok (o, existing) => run_session o want sshUser existing
                       end) in
          let! _ := trigger BUnlock in
          Ret out
      end
  end.
End run.
