(* ===== verification/BootSafe.v ===== *)
(** internal/bootstrap/bootstrap.go: what [Run] promises of the keys and pins it trusts, and of
    the SSH key it installs. *)
From Stdlib Require Import Ascii.
From S2P Require Import Prelude GoLib Errors Json ShellQuote Rest OpRun Client Remote Grants RootAccess Roster RosterWrite Rotation PinTls Bootstrap.

(** * Specification *)
(** [cfg] is the target the options name, with their TLS pin. *)
Definition about (c : Options) (cfg : APIConfig) : Prop :=
  cfg_TLSPin cfg = TLSPin c ∧ cfg_InsecureTLS cfg = InsecureTLS c ∧ cfg_Host cfg = Host c ∧ cfg_APIPort cfg = APIPort c.
(** The installations of a key: where, for which user, its line, and whether it is known that
    nothing ran. *)
Record install := { at_addr : string; as_user : string; key_line : string; nothing_ran : bool }.
Definition installed (ev : event bootE) : option install :=
  match ev with
  | @Ev _ _ (BInstall addr user _ line _) r =>
      Some {| at_addr := addr; as_user := user; key_line := line;
              nothing_ran := match r with Er e => errors_Is ErrNoCommandSent e | Ok _ => false end |}
  | _ => None
  end.
Definition installs (p : list (event bootE)) : list install := omap installed p.
(** A program that counts the lines of the file that are exactly the key's, writes all others
    to a new file, and moves that into its place: the shell reads the key as one word. *)
Definition removes (line program : string) : Prop :=
  ∃ q, sh_tokens q = Some [Word line] ∧ contains ("$(grep -cxF -- " +:+ q +:+ " ") program = true ∧
    contains ("grep -vxF -- " +:+ q +:+ " ") program = true ∧ contains "mv -f -- " program = true.
Definition one_line (line : string) : Prop :=
  trim_space line ≠ "" ∧ any_byte (one_of (chr 13 +:+ chr 10)) line = false.
(** The roster holds the key; it was removed again; the error says for which user on which
    host it may still be installed, and, unless the key is no line at all, the command that
    removes it there. *)
Definition persisted (line : string) (p : list (event bootE)) : Prop :=
  ∃ w, w_PublicKey w = line ∧ (Ev (BWriteSSH w) (Ok tt) ∈ p ∨ ∃ old, Ev (BReplaceSSH old w) (Ok tt) ∈ p).
Definition removed_again (line : string) (p : list (event bootE)) : Prop :=
  ∃ s script x, removes line script ∧ Ev (BRun s Plain script) (Ok x) ∈ p ∧
    ExitCode x = 0%Z ∧ trim_space (Stdout x) = "removed".
Definition left_named (addr user line : string) (e : err) : Prop :=
  (∃ host port, addr = host +:+ ":" +:+ itoa port ∧ contains (user +:+ "'s authorized_keys on " +:+ host) (Error e) = true) ∧
  (one_line line → ∃ command program, contains command (Error e) = true ∧
     sh_tokens command = Some [Word "sh"; Word "-c"; Word program] ∧ removes line program).
Definition key_accounted (p : list (event bootE)) (out : run_outcome) : Prop :=
  match installs p with
  | [] => True
  | [i] =>
      nothing_ran i = true ∨ persisted (key_line i) p ∨
      ∃ e, out = (None, Some e) ∧ (removed_again (key_line i) p ∨ left_named (at_addr i) (as_user i) (key_line i) e)
  | _ => False
  end.
(** The options a run keeps as they were given. *)
Definition same_trust (o o' : BootOptions) : Prop :=
  boot_id o' = boot_id o ∧ HostKeyFingerprint o' = HostKeyFingerprint o ∧ Reprovisioned o' = Reprovisioned o ∧
  SSHTOFU o' = SSHTOFU o ∧ CapturePort o' = CapturePort o ∧ NoSSHKey o' = NoSSHKey o.
Section token_asks.
Context (path : string) (o : Options) (want : list Grant).
Definition token_asks (R : Type) (e : tokenE R) : Prop := match e with TValidate cfg _ => about o cfg | _ => True end.
Lemma about_cfg id secret : about o (cfg_of o id secret).
Proof. done. Qed.
Lemma tokenPresent_asks u t : asks token_asks (tokenPresent u t).
Proof. unfold tokenPresent, runJSONArray. asks. Qed.
Lemma check_covers_asks owner privs read gs : asks token_asks (check_covers owner privs read gs).
Proof. revert read. induction gs as [|g gs IH]; intros read; cbn [check_covers ownerPerms]; [exact I|]. unfold ownerPerms. asks. apply IH. Qed.
Lemma preflight_asks : asks token_asks (preflight o want).
Proof.
  unfold preflight, checkOwner, ownerActive, runJSONArray. asks; first [apply check_covers_asks|apply tokenPresent_asks].
Qed.
Lemma readToken_asks b : asks token_asks (readToken o b).
Proof. unfold readToken. asks; apply tokenPresent_asks. Qed.
Lemma removeFresh_asks r : asks token_asks (removeFresh o r).
Proof. unfold removeFresh. asks; apply readToken_asks. Qed.
Lemma post_mint_asks n b s v : asks token_asks (post_mint o want n b s v).
Proof.
  revert b v. induction n as [|n IH]; intros b v; cbn [post_mint]; [exact I|]. asks; first [apply IH|apply about_cfg].
Qed.
Lemma grantAll_asks gs : asks token_asks (grantAll o gs).
Proof. induction gs as [|g gs IH]; cbn [grantAll]; asks. exact IH. Qed.
Lemma mintAndPersist_asks r s orphan : asks token_asks (mintAndPersist o want r s orphan).
Proof.
  unfold mintAndPersist, reread, drop, persistTargetMeta, validatePostMint.
  asks; first [apply readToken_asks|apply removeFresh_asks|apply grantAll_asks|apply post_mint_asks].
Qed.
Lemma replace_asks present reason cause : asks token_asks (replace o want present reason cause).
Proof.
  unfold replace, removeHeld, priorUnknown, reread.
  asks; first [apply readToken_asks|apply mintAndPersist_asks].
Qed.
Lemma tokenPhase_asks present : asks token_asks (tokenPhase path o want present).
Proof.
  unfold tokenPhase, loadHeldToken, persistTargetMeta.
  asks; first [apply mintAndPersist_asks|apply replace_asks|apply about_cfg].
Qed.
Lemma token_run_asks pins : asks token_asks (token_run path o want pins).
Proof. unfold token_run. asks; first [apply preflight_asks|apply tokenPhase_asks]. Qed.
End token_asks.
Section trust.
Context (pem_Decode : string → option (string * string * string)) (x509_key : string → option string).
Context (sha256 : string → string) (o : BootOptions).
Local Notation captured := (captured pem_Decode x509_key sha256).
(** The roster pins the host key [fp]; the host showed [fp] in this run; the host key is the
    operator's, accepted on first use, or was pinned when the run began. *)
Definition stored (p : list (event bootE)) (fp : string) : Prop :=
  ∃ r tg, Ev BLoad (Ok r) ∈ p ∧ Find r (boot_id o) = Some tg ∧ ssh_pin tg = fp ∧ fp ≠ "".
Definition shown (p : list (event bootE)) (fp : string) : Prop :=
  (∃ a u pw line, Ev (BInstall a u pw line (HostKeyFingerprint o)) (Ok fp) ∈ p) ∨
  ∃ a u pw s, Ev (BDialPassword a u pw (HostKeyFingerprint o)) (Ok (s, fp)) ∈ p.
Definition host_vouched (p : list (event bootE)) : Prop :=
  HostKeyFingerprint o ≠ "" ∨ SSHTOFU o = true ∨ ∃ fp, stored p fp.
(** The session [s] was opened with a host that has the key [fp]. *)
Definition opened (s : Z) (fp : string) (p : list (event bootE)) : Prop :=
  (∃ a u pw pin, Ev (BDialPassword a u pw pin) (Ok (s, fp)) ∈ p) ∨
  (∃ a u k, Ev (BDialKey a u k fp) (Ok s) ∈ p) ∨ ∃ a u k, Ev (BReconnect a u k fp) (Ok s) ∈ p.
(** What the roster is told of how the host key [fp] is known: it holds that key as its pin
    (or, for a run without a key of its own, some pin); the operator named a key and the host
    was dialed with it; nobody did, and the key is the one it showed. *)
Definition first_source : string := if decide (HostKeyFingerprint o = "") then SourceSSHTOFU else SourceSSHVerified.
Definition known_as (p : list (event bootE)) (fp source : string) : Prop :=
  source = SourceSSHStored ∧ (stored p fp ∨ NoSSHKey o = true ∧ shown p fp ∧ ∃ fp', stored p fp') ∨
  source = first_source ∧ shown p fp.
(** What a run may ask, after the exchanges [p]. *)
Definition allowed (p : list (event bootE)) (R : Type) (e : bootE R) : Prop :=
  match e with
  | BValidate cfg _ =>
      cfg_InsecureTLS cfg = true →
      ∃ s, captured s (CapturePort o) (cfg_TLSPin cfg) p ∧ served (cfg_Host cfg) (cfg_APIPort cfg) false (cfg_TLSPin cfg) p
  | BInstall _ _ _ _ pin => pin = HostKeyFingerprint o ∧ (InsecureTLS (base o) = true → host_vouched p)
  | BDialPassword _ _ _ pin =>
      pin = HostKeyFingerprint o ∧ (InsecureTLS (base o) = true → host_vouched p) ∨ shown p pin
  | BDialKey _ _ _ fp => shown p fp
  | BReconnect _ _ _ fp => stored p fp ∨ shown p fp
  | BWriteTLS old next source =>
      host_vouched p ∧ (∃ s fp, opened s fp p ∧ captured s (CapturePort o) next p ∧ known_as p fp source) ∧
      (old = "" ∨ Reprovisioned o = true ∧ HostKeyFingerprint o ≠ "")
  | BWriteSSH w =>
      w_HostKeySource w = first_source ∧
      ∃ a pw, Ev (BInstall a (w_User w) pw (w_PublicKey w) (HostKeyFingerprint o)) (Ok (w_HostKeyFingerprint w)) ∈ p
  | BReplaceSSH old w =>
      Reprovisioned o = true ∧ HostKeyFingerprint o ≠ "" ∧ stored p old ∧ old ≠ HostKeyFingerprint o ∧
      w_HostKeySource w = SourceSSHVerified ∧
      ∃ a pw, Ev (BInstall a (w_User w) pw (w_PublicKey w) (HostKeyFingerprint o)) (Ok (w_HostKeyFingerprint w)) ∈ p
  | _ => True
  end.

(** * Lemmas *)
Lemma stored_app p q fp : stored p fp → stored (p ++ q) fp.
Proof. intros (r & tg & ? & ?). exists r, tg. by rewrite elem_of_app; auto. Qed.
Lemma shown_app p q fp : shown p fp → shown (p ++ q) fp.
Proof.
  intros [(a & u & pw & l & ?)|(a & u & pw & s & ?)];
    [left; exists a, u, pw, l|right; exists a, u, pw, s]; rewrite elem_of_app; by left.
Qed.
Lemma opened_app s fp p q : opened s fp p → opened s fp (p ++ q).
Proof. unfold opened. setoid_rewrite elem_of_app. naive_solver. Qed.
Lemma known_as_app p q fp source : known_as p fp source → known_as (p ++ q) fp source.
Proof.
  intros [[-> [H|(? & ? & fp' & ?)]]|[-> ?]]; [left; split; [done|]..|].
  - left. by apply stored_app.
  - right. split; [done|]. split; [by apply shown_app|]. exists fp'. by apply stored_app.
  - right. split; [done|]. by apply shown_app.
Qed.
Lemma host_vouched_app p q : host_vouched p → host_vouched (p ++ q).
Proof. intros [?|[?|(fp & ?)]]; [by left|right; by left|]. right. right. exists fp. by apply stored_app. Qed.
Lemma captured_app s port pin p q : captured s port pin p → captured s port pin (p ++ q).
Proof. intros (x & ? & ?). exists x. by rewrite elem_of_app; auto. Qed.
Lemma captured_app_r s port pin p q : captured s port pin q → captured s port pin (p ++ q).
Proof. intros (x & ? & ?). exists x. by rewrite elem_of_app; auto. Qed.
Lemma served_app h port v pin p q : served h port v pin p → served h port v pin (p ++ q).
Proof. unfold served. rewrite elem_of_app. by left. Qed.
Lemma served_app_r h port v pin p q : served h port v pin q → served h port v pin (p ++ q).
Proof. unfold served. rewrite elem_of_app. by right. Qed.
Lemma installs_app p q : installs (p ++ q) = installs p ++ installs q.
Proof. apply omap_app. Qed.
Lemma installs_none q : Forall (λ ev, installed ev = None) q → installs q = [].
Proof. induction 1 as [|ev q He _ IH]; [done|]. unfold installs. cbn. by rewrite He. Qed.
Lemma same_trust_refl o0 : same_trust o0 o0.
Proof. done. Qed.
Lemma same_trust_trans o1 o2 o3 : same_trust o1 o2 → same_trust o2 o3 → same_trust o1 o3.
Proof. unfold same_trust. intros (-> & -> & -> & -> & -> & ->). done. Qed.
Lemma from_target_trust tg o0 : same_trust o0 (from_target tg o0).
Proof. done. Qed.
(** Only the roster is read. *)
Definition only_loads (R : Type) (e : bootE R) : Prop := match e with BLoad => True | _ => False end.
Lemma stored_pin_asks o0 f : asks only_loads (stored_pin o0 f).
Proof. unfold stored_pin. asks. Qed.
Lemma checkCaptureTrust_asks o0 : asks only_loads (checkCaptureTrust o0).
Proof. unfold checkCaptureTrust, CheckReprovision, storedAnyPin, storedSSHPin. asks; apply stored_pin_asks. Qed.
Lemma before_lock_asks o0 : asks only_loads (before_lock o0).
Proof. unfold before_lock, defaultHostNodeFromRoster. cbv zeta. asks; apply checkCaptureTrust_asks. Qed.
Lemma stored_pin_spec o0 :
  boot_id o0 = boot_id o → always (storedSSHPin o0) (λ tr r, r = true → ∃ fp, stored tr fp).
Proof.
  intros Hid. unfold storedSSHPin, stored_pin. cbn [bind trigger always]. intros [r|e]; cbn [always]; [|done].
  destruct (Find r (boot_id o0)) as [tg|] eqn:Hf; [|done]. intros Hp%negb_eqb. exists (ssh_pin tg), r, tg.
  rewrite <- Hid. by split; [left|].
Qed.
(** What [checkCaptureTrust] establishes. *)
Definition trusted (o' : BootOptions) (p : list (event bootE)) : Prop :=
  (Reprovisioned o = true → HostKeyFingerprint o ≠ "") ∧
  (InsecureTLS (base o') = true ∨ Reprovisioned o = true → host_vouched p).
Lemma checkCaptureTrust_spec o' :
  same_trust o o' → always (checkCaptureTrust o') (λ tr r, r = Ok tt → trusted o' tr).
Proof.
  intros (Hid & Hfp & Hre & Htofu & _). unfold checkCaptureTrust, CheckReprovision, trusted, host_vouched. rewrite Hre, Hfp, Htofu.
  destruct (Reprovisioned o); cbn [negb].
  - destruct (SSHTOFU o); [done|]. destruct (eqb (HostKeyFingerprint o) "") eqn:Hf; [done|]. apply eqb_false in Hf.
    eapply always_call with (P := λ _ _, True); [by apply always_true|]. intros tr b _. cbn [always]. by auto.
  - destruct (SSHTOFU o && _); [done|]. destruct (InsecureTLS (base o')) eqn:Hi; cbn [negb].
    2: { destruct (SSHTOFU o); [done|]. intros _. split; [done|]. by intros [?|?]. }
    apply always_bind. assert (∀ tr b, (b = true → ∃ fp, stored tr fp) → (if b
        then if SSHTOFU o then Er (errorf "--ssh-tofu does not apply: the target holds a pinned SSH host key, which this run dials") else Ok tt
        else if eqb (HostKeyFingerprint o) "" && negb (SSHTOFU o) then Er (sent ErrHostKeyFingerprintRequired) else Ok tt) = Ok tt →
        HostKeyFingerprint o ≠ "" ∨ SSHTOFU o = true ∨ ∃ fp, stored tr fp) as Hcase.
    { intros tr [] Hb Hr; [by auto|]. destruct (eqb (HostKeyFingerprint o) "") eqn:Hf; [|left; by apply eqb_false].
      destruct (SSHTOFU o); [by auto|done]. }
    destruct (NoSSHKey o'); cbn [always].
    + intros Hr. split; [done|]. intros _. by apply (Hcase [] false).
    + eapply always_mono; [|by apply stored_pin_spec]. intros tr b Hb. cbn [always]. rewrite app_nil_r. intros Hr.
      split; [done|]. intros _. by apply (Hcase tr b).
Qed.
Lemma defaultHost_spec o0 :
  always (defaultHostNodeFromRoster o0) (λ _ o', same_trust o0 o' ∧ (InsecureTLS (base o0) = true → InsecureTLS (base o') = true)).
Proof.
  unfold defaultHostNodeFromRoster. destruct (_ || _); [done|]. cbn [bind trigger always].
  intros [r|e]; cbn [always]; [|done]. destruct (Find r _); [|done]. split; [done|]. cbn. by intros ->.
Qed.
Lemma before_lock_spec :
  always (before_lock o) (λ tr r, ∀ o' want u, r = Ok (o', want, u) →
    same_trust o o' ∧ trusted o' tr ∧ (InsecureTLS (base o) = true → InsecureTLS (base o') = true)).
Proof.
  unfold before_lock. cbv zeta. cbn [bind]. destruct (CheckTokenOwner _); [|done]. cbn [bind].
  destruct (normalizeGrants _) as [want|]; [|done]. apply always_bind. eapply always_mono; [|apply defaultHost_spec].
  intros tr o' [Ho' Hi']. assert (same_trust o o') as Hsame by (by eapply same_trust_trans, Ho').
  cbn [bind]. destruct (validateOptions o'); [|done]. cbn [bind]. destruct (pamLocalUser _) as [u|]; [|done].
  eapply always_call; [by apply checkCaptureTrust_spec|]. intros tr' [[]|e] Ht; cbn [always]; [|done].
  rewrite app_nil_r. intros o2 want2 u2 [= <- <- <-]. split; [done|]. destruct (Ht eq_refl) as [H1 H2]. split; [|exact Hi']. split; [done|].
  intros Hc. destruct (H2 Hc) as [?|[?|(fp & r & tg & Hin & ?)]]; [by left|right; by left|]. right. right. exists fp, r, tg.
  by rewrite elem_of_app; auto.
Qed.
Definition roster_only (R : Type) (e : bootE R) : Prop :=
  match e with BLoad | BAppend _ | BProve | BDecrypt _ => True | _ => False end.
Lemma find_target_asks {A} o0 (none : A) f : asks roster_only (find_target o0 none f).
Proof. unfold find_target. asks. Qed.
Lemma under_lock_asks o0 g : asks roster_only (under_lock o0 g).
Proof.
  unfold under_lock, ensureTargetExists, checkHeldTokenOwner, checkKeylessState, heldTokenID, heldSSHBlock, loadExistingSSHAuth,
    storedTLSUnderLock. asks; apply find_target_asks.
Qed.
Lemma loadExistingSSHAuth_spec o0 :
  boot_id o0 = boot_id o →
  always (loadExistingSSHAuth o0) (λ tr r, ∀ pem fp, r = Ok (Some (pem, fp)) → stored tr fp).
Proof.
  intros Hid. unfold loadExistingSSHAuth. cbn [bind trigger always]. intros [r|e]; cbn [always]; [|done].
  destruct (Find r (boot_id o0)) as [tg|] eqn:Hf; [|done]. destruct (tg_SSH tg) as [a|] eqn:Ha; [|done].
  destruct (eqb _ "") eqn:He; [done|]. cbn [bind trigger always]. intros [k|e]; cbn [always]; [|done].
  intros pem fp [= <- <-]. exists r, tg. rewrite <- Hid. apply eqb_false in He. split; [by left|]. unfold ssh_pin. by rewrite Ha.
Qed.
Lemma storedTLS_spec o0 :
  always (storedTLSUnderLock o0) (λ _ r, ∀ o', r = Ok o' → same_trust o0 o' ∧ InsecureTLS (base o') = InsecureTLS (base o0)).
Proof.
  unfold storedTLSUnderLock. eapply always_call with (P := λ _ _, True); [by apply always_true|].
  intros tr [p|e] _; cbn [always]; [|done]. destruct (_ || _); [|done]. by intros o' [= <-].
Qed.
Lemma under_lock_spec o0 g :
  same_trust o o0 →
  always (under_lock o0 g) (λ tr r, ∀ o' ex, r = Ok (o', ex) →
    same_trust o o' ∧ InsecureTLS (base o') = InsecureTLS (base o0) ∧ ∀ pem fp, ex = Some (pem, fp) → stored tr fp).
Proof.
  intros Hsame. unfold under_lock.
  do 4 (eapply always_call with (P := λ _ _, True); [by apply always_true|]; intros ? [?|?] _; cbn [always]; [|done]).
  eapply always_call; [apply loadExistingSSHAuth_spec; by destruct Hsame|]. intros tr8 [ex|e] Hex; cbn [always]; [|done].
  eapply always_call; [apply storedTLS_spec|]. intros tr9 [o1|e1] Ho1; cbn [always]; [|done].
  intros o2 ex2 [= <- <-]. destruct (Ho1 o1 eq_refl) as [? ?]. split; [by eapply same_trust_trans|]. split; [done|].
  intros pem fp ->. destruct (Hex pem fp eq_refl) as (r & tg & Hin & ?). exists r, tg. rewrite !elem_of_app. tauto.
Qed.

(** ** The session *)
Definition extends (p p' : list (event bootE)) : Prop := ∃ q, p' = p ++ q ∧ installs q = [].
Lemma extends_refl p : extends p p.
Proof. exists []. by rewrite app_nil_r. Qed.
Lemma extends_trans p1 p2 p3 : extends p1 p2 → extends p2 p3 → extends p1 p3.
Proof. intros (q & -> & Hq) (q' & -> & Hq'). exists (q ++ q'). rewrite app_assoc, installs_app, Hq, Hq'. done. Qed.
Lemma extends_one p p' ev : installed ev = None → extends p p' → extends p (p' ++ [ev]).
Proof. intros He H. eapply extends_trans; [exact H|]. exists [ev]. split; [done|]. unfold installs. cbn. by rewrite He. Qed.
Section session.
Context (o' : BootOptions) (want : list Grant) (u : string) (ex : option (string * string)) (Hsame : same_trust o o').
Local Notation params f := (f pem_Decode x509_key sha256).
Definition ready (p : list (event bootE)) : Prop :=
  (captureTLS o' = true → host_vouched p) ∧ (Reprovisioned o = true → HostKeyFingerprint o ≠ "") ∧
  (∀ pem fp, ex = Some (pem, fp) → stored p fp) ∧ (InsecureTLS (base o) = true → host_vouched p).
Lemma ready_app p q : ready p → ready (p ++ q).
Proof.
  intros (H1 & H2 & H3 & H4). split; [intros H; by apply host_vouched_app, H1|]. split; [done|].
  split; [intros pem fp H; by eapply stored_app, H3|]. intros H. by apply host_vouched_app, H4.
Qed.
Definition got (p : list (event bootE)) (pin : string) : Prop :=
  (∃ s, captured s (CapturePort o) pin p) ∧
  served (Host (base o')) (APIPort (base o')) (negb (InsecureTLS (base o'))) pin p.
Lemma got_app p q pin : got p pin → got (p ++ q) pin.
Proof. intros [[s Hs] Hv]. split; [exists s; by apply captured_app|by apply served_app]. Qed.
Definition capture_asks (R : Type) (e : bootE R) : Prop := match e with BRun _ _ _ | BServedPin _ _ _ => True | _ => False end.
Lemma capturePin_asks s host port cport v : asks capture_asks (params capturePin s host port cport v).
Proof. unfold capturePin, checkServed. asks. Qed.
(** The session vouches for a pin as the code says it does: over the roster's own, or not. *)
Definition dialed (s : Z) (p : list (event bootE)) : Prop :=
  ∃ fp, opened s fp p ∧ known_as p fp (captureSource o' (dialsStoredPin o' ex)).
Lemma dialed_app s p q : dialed s p → dialed s (p ++ q).
Proof. intros (fp & ? & ?). exists fp. split; [by apply opened_app|by apply known_as_app]. Qed.
Lemma sshSource_first : sshSource o' = first_source.
Proof.
  destruct Hsame as (_ & Hfp & _). unfold sshSource, first_source. rewrite Hfp. unfold eqb.
  case_bool_decide; case_decide; done.
Qed.
Lemma capture_holds s p :
  host_vouched p → (Reprovisioned o = true → HostKeyFingerprint o ≠ "") → dialed s p →
  abides allowed p (params capture o' (dialsStoredPin o' ex) s) (λ p' r, extends p p' ∧ ∀ c, r = Ok c → got p' (c_pin c)).
Proof.
  intros Hv Hre Hdial. destruct Hsame as (_ & Hfp & Hrep & _ & Hport & _). unfold capture. cbv zeta. apply abides_bind.
  eapply abides_part; [apply capturePin_asks|apply always_and; [apply capturePin_spec|apply asks_always, capturePin_asks]|by intros tr R []|].
  intros tr r [[_ Hr] Hq]. assert (extends p (p ++ tr)) as Hext.
  { exists tr. split; [done|]. apply installs_none. eapply Forall_impl; [exact Hq|]. by intros [R [] ?]. }
  destruct r as [pin|e]; cbn [abides]; [|by split]. destruct (Hr pin eq_refl) as [Hs Hc]. rewrite Hport in Hc.
  assert (got (p ++ tr) pin) as Hgot by (split; [exists s; by apply captured_app_r|by apply served_app_r]).
  assert (∃ s fp, opened s fp (p ++ tr) ∧ captured s (CapturePort o) pin (p ++ tr) ∧
    known_as (p ++ tr) fp (captureSource o' (dialsStoredPin o' ex))) as Hcap.
  { destruct (dialed_app s p tr Hdial) as (fp & ? & ?). exists s, fp. split_and!; [done|by apply captured_app_r|done]. }
  assert (host_vouched (p ++ tr)) as Hv' by by apply host_vouched_app.
  destruct (eqb _ pin); [split; [done|]; by intros c [= <-]|]. rewrite Hrep.
  destruct (negb (eqb (TLSPin (base o')) "") && Reprovisioned o) eqn:Ho.
  - apply andb_true_iff in Ho as [_ Ho]. cbn [bind trigger abides]. split; [cbn [allowed]; split_and!; [done|done|right; split; [done|by apply Hre]]|].
    intros [?|e]; cbn [abides]; (split; [by apply extends_one|]); [intros c [= <-]; by apply got_app|done].
  - destruct (negb (eqb (TLSPin (base o')) "")); [cbn [abides]; by split|]. cbn [bind trigger abides]. split; [cbn [allowed]; split_and!; [done|done|by left]|].
    intros [?|e]; cbn [abides]; (split; [by apply extends_one|]); [intros c [= <-]; by apply got_app|done].
Qed.
Definition pinned (p : list (event bootE)) (tls : option captured_tls) : Prop :=
  match tls with Some c => got p (c_pin c) | None => captureTLS o' = false end.
Lemma pinned_app p q tls : pinned p tls → pinned (p ++ q) tls.
Proof. destruct tls; [apply got_app|done]. Qed.
Lemma capture_if_holds s p :
  ready p → dialed s p →
  abides allowed p (params capture_if o' ex (captureTLS o') s) (λ p' r, extends p p' ∧ ∀ t, r = Ok t → pinned p' t).
Proof.
  intros (Hv & Hre & _) Hdial. unfold capture_if. destruct (captureTLS o') eqn:Hon; cbn [abides].
  2: { split; [apply extends_refl|]. by intros t [= <-]. }
  apply abides_bind. eapply abides_mono; [|apply capture_holds; [by apply Hv|done|done]].
  intros p' [c|e] [Hext Hc]; cbn [abides]; (split; [done|]); [intros t [= <-]; by apply Hc|done].
Qed.

(** ** The token phase *)
Definition id_known (i : sshIdentity) (p : list (event bootE)) : Prop :=
  (stored p (hostKeyFP i) ∨ shown p (hostKeyFP i)) ∧ (keyless i = true → shown p (hostKeyFP i)).
Definition token_questions (c : Options) (i : sshIdentity) (R : Type) (e : bootE R) : Prop :=
  match e with
  | BValidate cfg _ => about c cfg
  | BReconnect _ _ _ fp => fp = hostKeyFP i
  | BDialPassword _ _ _ pin => keyless i = true ∧ pin = hostKeyFP i
  | BInstall _ _ _ _ _ | BDialKey _ _ _ _ | BWriteSSH _ | BReplaceSSH _ _ | BWriteTLS _ _ _ => False
  | _ => True
  end.
Lemma over_session_asks c i R (e : tokenE R) st : token_asks c R e → asks (token_questions c i) (over_session i R e st).
Proof.
  destruct st as [s old], e; cbn [over_session]; intros; unfold reconnect; try destruct (keyless i) eqn:?; asks.
Qed.
Lemma token_over_holds i s tls p :
  pinned p tls → id_known i p →
  abides allowed p (token_over o' want ex i s tls) (λ p' _, extends p p').
Proof.
  intros Htls [Hid Hkey]. unfold token_over. cbv zeta. apply abides_bind.
  set (c := set_pin _ (base o')). assert (asks (token_questions c i) (interp (over_session i) (token_run (RosterPath o') c want
    (if reprovisionSSH o' ex || bool_decide (match tls with Some c => c_previous c | None => None end ≠ None)
     then Some (if reprovisionSSH o' ex then match ex with Some (_, fp) => fp | None => "" end else "",
                default "" match tls with Some c => c_previous c | None => None end) else None)) (s, None))) as Hasks.
  { eapply asks_interp; [intros; by apply over_session_asks|]. apply token_run_asks. }
  eapply abides_part; [exact Hasks|apply asks_always, Hasks| |].
  - intros tr R e. destruct e; cbn [token_questions allowed]; try done.
    + intros [Hk ->]. right. by apply shown_app, Hkey.
    + intros ->. destruct Hid; [left; by apply stored_app|right; by apply shown_app].
    + intros (-> & -> & -> & ->) Hi. subst c. cbn [set_pin TLSPin InsecureTLS Host APIPort] in *. unfold pinned, captureTLS in Htls.
      destruct tls as [t|]; [|by rewrite Hi in Htls]. destruct Htls as [[s' Hs] Hv]. rewrite Hi in Hv. exists s'.
      split; [by apply captured_app|by apply served_app].
  - intros tr [[r e] [s' old]] Hq. cbn [closing bind trigger abides]. split; [done|]. intros []. cbn [abides].
    apply extends_one; [done|]. exists tr. split; [done|]. apply installs_none. eapply Forall_impl; [exact Hq|]. by intros [R [] ?].
Qed.
Lemma go_on_holds i s p :
  ready p → id_known i p → dialed s p → abides allowed p (params go_on o' want ex i s) (λ p' _, extends p p').
Proof.
  intros Hready Hid Hdial. unfold go_on. apply abides_bind. eapply abides_mono; [|by apply capture_if_holds].
  intros p' [tls|e] [(q & -> & Hq) Ht].
  - eapply abides_mono; [|apply token_over_holds; [by apply Ht|]].
    + intros p2 ? H2. eapply extends_trans, H2. by exists q.
    + destruct Hid as [[?|?] Hk]; (split; [|intros Hkl; by apply shown_app, Hk]);
        [left; by apply stored_app|right; by apply shown_app].
  - cbn [closing bind trigger abides]. split; [done|]. intros []. cbn [abides]. apply extends_one; [done|]. by exists q.
Qed.
Lemma run_keyless_holds p :
  NoSSHKey o' = true → ready p → abides allowed p (params run_keyless o' want u ex) (λ p' _, extends p p').
Proof.
  intros Hnokey Hready. pose proof Hsame as (_ & Hfp & _ & _ & _ & Hno). unfold run_keyless. cbv zeta. cbn [bind trigger abides].
  split; [left; split; [done|apply Hready]|].
  intros [[s fp]|e]; cbn [abides]; [|apply extends_one; [done|apply extends_refl]]. rewrite Hfp.
  set (p1 := p ++ [_]). assert (extends p p1) as H1 by (apply extends_one; [done|apply extends_refl]).
  destruct (eqb fp ""); [cbn [closing bind trigger abides]; split; [done|]; intros []; cbn [abides]; by apply extends_one|].
  assert (shown p1 fp) as Hs by (right; do 4 eexists; subst p1; rewrite elem_of_app; right; by left).
  assert (ready p1) as Hr1 by by apply ready_app.
  eapply abides_mono; [|apply go_on_holds; [done| |]].
  - intros p2 ? H2. by eapply extends_trans.
  - split; [by right|done].
  - exists fp. split; [left; do 4 eexists; subst p1; rewrite elem_of_app; right; by left|].
    unfold captureSource. destruct (dialsStoredPin o' ex) eqn:Hd; [left|right; by rewrite sshSource_first].
    split; [done|]. right. split; [by rewrite <- Hno|]. split; [done|]. unfold dialsStoredPin in Hd.
    destruct ex as [[k old]|] eqn:Hex; [|done]. exists old. destruct Hr1 as (_ & _ & Hst & _). by eapply Hst.
Qed.
Lemma run_stored_holds pem fp p :
  ready p → ex = Some (pem, fp) → reprovisionSSH o' ex = false →
  abides allowed p (params run_stored o' want u ex pem fp) (λ p' _, extends p p').
Proof.
  intros Hready Hex Hrep. unfold run_stored. destruct (checkGivenFingerprint _ _); [|apply extends_refl].
  assert (stored p fp) as Hst by (destruct Hready as (_ & _ & H & _); by eapply H).
  cbn [bind trigger abides]. split; [by left|]. intros [s|e]; cbn [abides]; [|apply extends_one; [done|apply extends_refl]].
  set (p1 := p ++ [_]). assert (extends p p1) as H1 by (apply extends_one; [done|apply extends_refl]).
  eapply abides_mono; [|apply go_on_holds; [by apply ready_app| |]].
  - intros p2 ? H2. by eapply extends_trans.
  - split; [left; by apply stored_app|done].
  - exists fp. split; [right; right; do 3 eexists; subst p1; rewrite elem_of_app; right; by left|].
    assert (dialsStoredPin o' ex = true) as -> by (unfold dialsStoredPin; rewrite Hex in *; by rewrite Hrep).
    left. split; [done|]. left. by apply stored_app.
Qed.

(** ** The fresh key *)
Lemma contains_in a sub b : contains sub (a +:+ sub +:+ b) = true.
Proof. apply contains_spec. by exists a, b. Qed.
Lemma contains_deep x y s : contains x y = true → contains y s = true → contains x s = true.
Proof. rewrite !contains_spec. intros (a & b & ->) (c & d & ->). exists (c +:+ a), (b +:+ d). by rewrite !str_app_assoc. Qed.
Lemma contains_tail a x s : contains x s = true → contains x (a +:+ s) = true.
Proof. rewrite !contains_spec. intros (c & d & ->). exists (a +:+ c), d. by rewrite str_app_assoc. Qed.
Lemma Join_contains sep l x : x ∈ l → contains x (Join sep l) = true.
Proof.
  rewrite contains_spec. induction l as [|y l IH]; [by intros ?%elem_of_nil|]. intros [->|Hx]%elem_of_cons.
  - exists "". destruct l; [exists ""; cbn; by rewrite str_app_nil_r|]. by eexists.
  - destruct (IH Hx) as (a & b & H). exists (y +:+ sep +:+ a), b. destruct l as [|z l]; [by apply elem_of_nil in Hx|].
    change (Join sep (y :: z :: l)) with (y +:+ sep +:+ Join sep (z :: l)). by rewrite H, !str_app_assoc.
Qed.
Lemma commands_remove line program :
  (∀ c, c ∈ removeKeyCommands line → contains c program = true) → removes line program.
Proof.
  intros H. exists (ShellQuote line). split; [unfold sh_tokens; by repeat sh_read|]. unfold removeKeyCommands in H. cbv zeta in H.
  split_and!; (eapply contains_deep; [|apply H]).
  2: do 7 right; by left. 3: do 10 right; by left. 4: do 12 right; by left.
  all: rewrite <- ?str_app_assoc; apply contains_spec.
  - exists "n=". eexists. by rewrite !str_app_assoc.
  - exists "". eexists. by rewrite !str_app_assoc.
  - exists "". by eexists.
Qed.
Lemma checkKeyLine_iff line : checkKeyLine line = Ok tt ↔ one_line line.
Proof. unfold checkKeyLine, one_line. rewrite !guard_iff, negb_eqb, negb_true_iff. naive_solver. Qed.
Lemma script_removes line script : RemoveAuthorizedKeyScript line = Ok script → removes line script.
Proof.
  unfold RemoveAuthorizedKeyScript. destruct (checkKeyLine line); [|done]. cbn. intros [= <-]. apply commands_remove.
  intros c Hc. eapply contains_deep; [by apply (Join_contains (chr 10)), Hc|]. by apply (contains_in "").
Qed.
Lemma keyLeftBehind_names cause host port user line why :
  left_named (host +:+ ":" +:+ itoa port) user line (keyLeftBehind cause host user line why).
Proof.
  unfold left_named, keyLeftBehind. cbv zeta. split.
  - exists host, port. split; [done|]. eapply contains_deep.
    2: destruct (ManualKeyRemovalCommand line); cbn [Error]; apply (contains_in "").
    apply contains_spec. exists (Error cause +:+ "; the SSH key this run installed may still be in "), (" (" +:+ why +:+ ")").
    by rewrite !str_app_assoc.
  - rewrite <- checkKeyLine_iff. intros Hline. set (program := Join "; " (removeKeyCommands line)).
    assert (ManualKeyRemovalCommand line = Ok ("sh -c " +:+ ShellQuote program)) as ->
      by (unfold ManualKeyRemovalCommand; by rewrite Hline).
    exists ("sh -c " +:+ ShellQuote program), program. cbn [Error]. split_and!.
    + do 4 apply contains_tail. apply contains_spec. exists "", "". by rewrite str_app_nil_r.
    + unfold sh_tokens. by repeat sh_read.
    + apply commands_remove. intros c. apply Join_contains.
Qed.
Definition given_up (line : string) (p : list (event bootE)) (e : err) : Prop :=
  removed_again line p ∨ left_named (run_addr o') u line e.
Lemma left_given_up line cause why p : given_up line p (keyLeftBehind cause (Host (base o')) u line why).
Proof. right. apply keyLeftBehind_names. Qed.
Lemma dropKeyOver_holds s cause line p :
  abides allowed p (dropKeyOver o' s cause u line) (λ p' e, extends p p' ∧ given_up line p' e).
Proof.
  unfold dropKeyOver. cbv zeta. destruct (RemoveAuthorizedKeyScript line) as [script|e] eqn:Hs; cbn [abides].
  2: { split; [apply extends_refl|]. apply left_given_up. }
  cbn [bind trigger abides]. split; [done|]. intros [x|e]; [destruct (bool_decide _ && _) eqn:Hx|]; cbn [abides];
    (split; [apply extends_one; [done|apply extends_refl]|]); [left|apply left_given_up..].
  apply andb_true_iff in Hx as [Hc%bool_decide_eq_true Ht%eqb_true]. exists s, script, x.
  rewrite elem_of_app. split_and!; [by apply script_removes|right; by left|done..].
Qed.
Lemma dropped_holds s e line p :
  abides allowed p (let! e := dropKeyOver o' s e u line in closing s (stop e))
    (λ p' out, extends p p' ∧ ∃ e, out = stop e ∧ given_up line p' e).
Proof.
  apply abides_bind. eapply abides_mono; [|apply dropKeyOver_holds]. intros p' e' [Hext Hg].
  cbn [closing bind trigger abides]. split; [done|]. intros []. cbn [abides]. split; [by apply extends_one|].
  exists e'. split; [done|]. destruct Hg as [(s' & script & x & ? & ? & ?)|?]; [left|by right].
  exists s', script, x. by rewrite elem_of_app; auto.
Qed.
(** What became of the key [line], installed before [p]. *)
Definition settled_key (line : string) (p p' : list (event bootE)) (out : run_outcome) : Prop :=
  extends p p' ∧ (persisted line p' ∨ ∃ e, out = stop e ∧ given_up line p' e).
Definition put (line fp : string) (p : list (event bootE)) : Prop :=
  ∃ a pw, Ev (BInstall a u pw line (HostKeyFingerprint o)) (Ok fp) ∈ p.
Lemma put_app line fp p q : put line fp p → put line fp (p ++ q).
Proof. intros (a & pw & ?). exists a, pw. rewrite elem_of_app. by left. Qed.
Lemma put_shown line fp p : put line fp p → shown p fp.
Proof. intros (a & pw & ?). left. by exists a, u, pw, line. Qed.
Lemma persist_key_holds pem line fp tls p :
  ready p → put line fp p →
  abides allowed p (persist_key o' ex (fresh_write o' u pem line fp) tls) (λ p' r, extends p p' ∧ (r = Ok tt → persisted line p')).
Proof.
  intros (_ & Hre & Hst & _) Hput. unfold persist_key.
  assert (∀ w r, w_PublicKey w = line → let p' := p ++ [Ev (BWriteSSH w) r] in extends p p' ∧ (is_ok r = true → persisted line p')) as Hw.
  { intros w r Hl. split; [apply extends_one; [done|apply extends_refl]|]. intros Hr. exists w. split; [done|]. left.
    rewrite elem_of_app. right. destruct r as [[]|]; [by left|done]. }
  assert (
    abides allowed p (let? _ := trigger (BWriteSSH (fresh_write o' u pem line fp)) orelse wrapf (boot_what o' +:+ ": persist ssh auth") in Ret (Ok tt))
      (λ p' r, extends p p' ∧ (r = Ok tt → persisted line p'))) as Hfresh.
  { cbn [bind trigger abides]. split; [split; [apply sshSource_first|exact Hput]|]. intros r. destruct (Hw (fresh_write o' u pem line fp) r eq_refl) as [He Hp].
    destruct r as [[]|e]; cbn [abides]; (split; [done|]); [by intros _; apply Hp|done]. }
  destruct (reprovisionSSH o' ex) eqn:Hr; [|exact Hfresh].
  destruct ex as [[k old]|] eqn:Hex; [|exact Hfresh].
  unfold reprovisionSSH in Hr. pose proof Hsame as (_ & Hfp & Hrep & _). rewrite Hrep, Hfp in Hr.
  apply andb_true_iff in Hr as [Hrp Hne%negb_eqb]. cbn [bind trigger abides]. split.
  { split_and!; [done|by apply Hre|by eapply Hst|congruence| |exact Hput]. cbn. rewrite sshSource_first. unfold first_source.
    rewrite decide_False; [done|by apply Hre]. }
  intros r. assert (extends p (p ++ [Ev (BReplaceSSH old (fresh_write o' u pem line fp)) r])) as He
    by (apply extends_one; [done|apply extends_refl]).
  destruct r as [[]|e]; cbn [abides]; (split; [done|]); [|done]. intros _. exists (fresh_write o' u pem line fp).
  split; [done|]. right. exists old. rewrite elem_of_app. right. by left.
Qed.
Lemma persisted_app line p q : persisted line p → persisted line (p ++ q).
Proof.
  intros (w & Hw & [H|[old H]]); exists w; (split; [done|]); [left|right; exists old]; rewrite elem_of_app; by left.
Qed.
Lemma run_with_key_holds pem line fp s p :
  ready p → put line fp p → dialed s p →
  abides allowed p (params run_with_key o' want u ex pem line fp s) (settled_key line p).
Proof.
  intros Hready Hput Hdial. pose proof (put_shown _ _ _ Hput) as Hshown. unfold run_with_key. cbv zeta.
  assert (∀ p1 e, extends p p1 → abides allowed p1 (let! e := dropKeyOver o' s e u line in closing s (stop e)) (settled_key line p)) as Hdrop.
  { intros p1 e H1. eapply abides_mono; [|apply dropped_holds]. intros p' out (He & e' & -> & Hg).
    split; [by eapply extends_trans|]. right. by exists e'. }
  apply abides_bind. eapply abides_mono; [|by apply capture_if_holds]. intros p1 [tls|e] [(q & -> & Hq) Ht].
  2: { apply Hdrop. by exists q. }
  specialize (Ht tls eq_refl). apply abides_bind.
  eapply abides_mono; [|apply persist_key_holds; [by apply ready_app|by apply put_app]].
  intros p2 [[]|e] [H2 Hp].
  2: { apply Hdrop. eapply extends_trans, H2. by exists q. }
  destruct H2 as (q2 & -> & Hq2). eapply abides_mono; [|apply token_over_holds; [by apply pinned_app|]].
  - intros p3 out (q3 & -> & Hq3). split.
    + exists (q ++ q2 ++ q3). rewrite !installs_app, Hq, Hq2, Hq3. by rewrite <- !app_assoc.
    + left. by apply persisted_app, Hp.
  - split; [right; by do 2 apply shown_app|done].
Qed.
Lemma run_fresh_holds p :
  dialsStoredPin o' ex = false → ready p → installs p = [] → abides allowed p (params run_fresh o' want u ex) key_accounted.
Proof.
  intros Hfirst Hready Hnone. unfold run_fresh. cbn [bind trigger abides]. split; [done|].
  assert (∀ r, installs (p ++ [Ev (BKeygen ("pveforge@" +:+ boot_id o')) r]) = []) as Hkg
    by (intros r; by rewrite installs_app, Hnone).
  intros [[pem line]|e]; [|cbn [abides]; unfold key_accounted; by rewrite Hkg].
  specialize (Hkg (Ok (pem, line))). revert Hkg. set (p1 := p ++ [_]). intros Hp1. assert (ready p1) as Hr1 by by apply ready_app.
  clearbody p1. cbn [bind trigger abides].
  split; [split; [by apply Hsame|apply Hr1]|]. assert (HostKeyFingerprint o' = HostKeyFingerprint o) as -> by apply Hsame. intros [fp|e].
  2: { cbn [abides]. unfold key_accounted. rewrite installs_app, Hp1. cbn [app installs omap list_omap installed].
       cbn [nothing_ran key_line at_addr as_user]. destruct (errors_Is _ _); [by left|]. right. right. eexists. split; [done|].
       right. apply keyLeftBehind_names. }
  set (ev := Ev (BInstall _ _ _ _ _) _). assert (installs (p1 ++ [ev]) =
    [{| at_addr := run_addr o'; as_user := u; key_line := line; nothing_ran := false |}]) as Hp2 by by rewrite installs_app, Hp1.
  assert (put line fp (p1 ++ [ev])) as Hput by (do 2 eexists; rewrite elem_of_app; right; by left).
  assert (ready (p1 ++ [ev])) as Hr2 by by apply ready_app. revert Hp2 Hput Hr2. generalize (p1 ++ [ev]). clear ev.
  intros p2 Hp2 Hput Hr2. pose proof (put_shown _ _ _ Hput) as Hs. assert (∀ p' out, settled_key line p2 p' out → key_accounted p' out) as Hdone.
  { intros p' out [(q & -> & Hq) H]. unfold key_accounted. rewrite installs_app, Hp2, Hq. right. exact H. }
  cbn [bind trigger abides]. split; [done|]. intros d. set (p3 := p2 ++ [_]).
  assert (∀ s, d = Ok s → dialed s p3) as Hdial.
  { intros s Hd. exists fp. split; [right; left; do 3 eexists; subst p3; rewrite elem_of_app, Hd; right; by left|].
    right. split; [unfold captureSource; rewrite Hfirst; apply sshSource_first|by apply shown_app]. }
  assert (extends p2 p3) as H3 by (apply extends_one; [done|apply extends_refl]).
  assert (put line fp p3) as Hput3 by by apply put_app. assert (shown p3 fp) as Hs3 by by apply shown_app. assert (ready p3) as Hr3 by by apply ready_app. clearbody p3.
  destruct d as [s|e].
  - eapply abides_mono; [|apply run_with_key_holds; [done..|by apply Hdial]].
    intros p' out [H1 H2]. apply Hdone. split; [by eapply extends_trans|done].
  - apply abides_bind. unfold dropKeyOverPassword. cbv zeta.
    assert (∀ p' e', extends p3 p' → given_up line p' e' → key_accounted p' (stop e')) as Hend.
    { intros p' e' H1 H2. apply Hdone. split; [by eapply extends_trans|]. right. by exists e'. }
    destruct (eqb fp ""); [cbn [abides]; apply Hend; [apply extends_refl|apply left_given_up]|].
    cbn [bind trigger abides]. split; [by right|]. intros [[s fp2]|e2].
    2: { cbn [abides]. apply Hend; [apply extends_one; [done|apply extends_refl]|apply left_given_up]. }
    apply abides_bind. eapply abides_mono; [|apply dropKeyOver_holds]. intros p4 e4 [H4 Hg].
    cbn [bind trigger abides]. split; [done|]. intros []. cbn [abides]. apply Hend.
    + apply extends_one; [done|]. eapply extends_trans, H4. apply extends_one; [done|apply extends_refl].
    + destruct Hg as [(s' & script & x & ? & ? & ?)|?]; [left|by right]. exists s', script, x. by rewrite elem_of_app; auto.
Qed.
Lemma run_session_holds p :
  ready p → installs p = [] → abides allowed p (params run_session o' want u ex) key_accounted.
Proof.
  intros Hready Hnone. assert (∀ p' out, extends p p' → key_accounted p' out) as Hquiet.
  { intros p' out (q & -> & Hq). unfold key_accounted. by rewrite installs_app, Hnone, Hq. }
  unfold run_session. destruct (NoSSHKey o') eqn:Hno.
  { eapply abides_mono; [|by apply run_keyless_holds]. intros p' out. apply Hquiet. }
  destruct ex as [[pem fp]|] eqn:Hex; [|rewrite <- Hex; apply run_fresh_holds; [by rewrite Hex|done..]].
  destruct (reprovisionSSH o' (Some (pem, fp))) eqn:Hr; rewrite <- Hex.
  { apply run_fresh_holds; [|done..]. rewrite Hex. unfold dialsStoredPin. by rewrite Hr. }
  eapply abides_mono; [|apply run_stored_holds; [done..|by rewrite Hex]]. intros p' out. apply Hquiet.
Qed.
End session.

Lemma quiet_part {A} (m : io bootE A) (P : ∀ R, bootE R → Prop) (Q0 Q : list (event bootE) → A → Prop) p :
  asks P m → always m Q0 → (∀ p R e, P R e → allowed p R e) → (∀ R e r, P R e → installed (Ev e r) = None) →
  (∀ tr a, installs tr = [] → Q0 tr a → Q (p ++ tr) a) → abides allowed p m Q.
Proof.
  intros Hasks HQ0 HI Hnone HQ. eapply abides_part; [exact Hasks|apply always_and; [exact HQ0|apply asks_always, Hasks]|by auto|].
  intros tr a [Ha Hall]. apply HQ; [|done]. apply installs_none. eapply Forall_impl; [exact Hall|]. intros [R e r]. apply Hnone.
Qed.
Lemma Run_holds : abides allowed [] (Run pem_Decode x509_key sha256 o) key_accounted.
Proof.
  unfold Run. cbv zeta. apply abides_bind.
  eapply quiet_part; [apply before_lock_asks|apply before_lock_spec|by intros p R []|by intros R []|].
  intros tr [[[o1 want] u]|e] Htr Hr; [|cbn [abides]; unfold key_accounted; cbn [app]; by rewrite Htr].
  destruct (Hr _ _ _ eq_refl) as (Hsame & [Hre Hv] & Hins). clear Hr. cbn [app bind trigger abides]. split; [done|].
  intros [[]|e]; [|cbn [abides]; unfold key_accounted; by rewrite installs_app, Htr].
  apply abides_bind. eapply quiet_part; [apply under_lock_asks|by apply under_lock_spec|by intros p R []|by intros R []|].
  intros tr2 held Htr2 Hheld. set (p := _ ++ tr2). assert (installs p = []) as Hp by (subst p; by rewrite !installs_app, Htr, Htr2).
  apply abides_bind. eapply abides_mono with (Q := key_accounted).
  { intros p' out Hout. cbn [bind trigger abides]. split; [done|]. intros []. cbn [abides]. unfold key_accounted in *.
    rewrite installs_app. cbn [installs omap list_omap installed]. rewrite app_nil_r.
    destruct (installs p') as [|i [|? ?]]; try done.
    destruct Hout as [H|[H|(e & -> & H)]]; [by left|right; left; by apply persisted_app|right; right]. exists e. split; [done|].
    destruct H as [(s' & script & x & ? & ? & ?)|?]; [left|by right]. exists s', script, x. by rewrite elem_of_app; auto. }
  destruct held as [[o2 ex]|e]; [|cbn [abides]; unfold key_accounted; by rewrite Hp].
  destruct (Hheld _ _ eq_refl) as (Hsame2 & Hi & Hex). apply run_session_holds; [done| |done]. split_and!; [|done| |].
  - unfold captureTLS. intros Hc. subst p. rewrite <- app_assoc. apply host_vouched_app, Hv. rewrite Hi in Hc.
    apply orb_true_iff in Hc as [?|[Hc _]%andb_true_iff]; [by left|right]. destruct Hsame2 as (_ & _ & <- & _). done.
  - intros pem fp H. destruct (Hex pem fp H) as (r & tg & Hin & ?). exists r, tg. subst p. rewrite !elem_of_app. auto.
  - intros Hi0. subst p. rewrite <- app_assoc. apply host_vouched_app, Hv. left. by apply Hins.
Qed.
End trust.

(** * Runs end *)
Lemma before_lock_total o : total (before_lock o).
Proof. unfold before_lock, defaultHostNodeFromRoster, checkCaptureTrust, CheckReprovision, storedAnyPin, storedSSHPin, stored_pin. totally. Qed.
Lemma under_lock_total o given : total (under_lock o given).
Proof.
  unfold under_lock, ensureTargetExists, checkHeldTokenOwner, checkKeylessState, loadExistingSSHAuth, storedTLSUnderLock, heldTokenID,
    heldSSHBlock, find_target. totally.
Qed.
Lemma capture_total pem_Decode x509_key sha256 o stored s : total (capture pem_Decode x509_key sha256 o stored s).
Proof. unfold capture. totally. apply capturePin_total. Qed.
Lemma dropKeyOver_total o s cause user line : total (dropKeyOver o s cause user line).
Proof. unfold dropKeyOver. totally. Qed.
Lemma token_over_total o want existing i s tls : total (token_over o want existing i s tls).
Proof.
  unfold token_over, closing. totally. eapply total_interp; [|apply asks_any|apply token_run_total].
  intros R [] [? ?] _; unfold over_session, reconnect; totally.
Qed.
Lemma run_session_total pem_Decode x509_key sha256 o want user existing :
  total (run_session pem_Decode x509_key sha256 o want user existing).
Proof.
  unfold run_session, run_keyless, run_stored, run_fresh, run_with_key, go_on, capture_if, persist_key, dropKeyOverPassword, closing.
  totally; first [apply token_over_total|apply capture_total|apply dropKeyOver_total].
Qed.
Lemma Run_total pem_Decode x509_key sha256 o : total (Run pem_Decode x509_key sha256 o).
Proof. unfold Run. totally; first [apply before_lock_total|apply under_lock_total|apply run_session_total]. Qed.

(** C7: every run ends; it installs at most one key on the node, and unless it knows that
    nothing ran there, the key is in the roster at the end, or the run fails and either a
    program that takes exactly the key's line out of authorized_keys ran to its end, or the
    error names the user and the host the key was installed for and holds a command that the
    shell reads as such a program for this key. (Only a key that is no single line has no such
    command.) *)
Theorem Run_accounts_for_key pem_Decode x509_key sha256 o :
  total (Run pem_Decode x509_key sha256 o) ∧ always (Run pem_Decode x509_key sha256 o) key_accounted.
Proof. split; [apply Run_total|]. eapply always_mono; [|apply abides_always, Run_holds]. by intros tr out [H _]. Qed.

(** * Examples *)
Definition lab_keyless_node (ssh : bool) : Target :=
  {| tg_ID := "lab"; tg_Host := "h"; tg_Node := "n"; tg_APIPort := 0; tg_InsecureTLS := true; Export_ := ""; Token := None;
     tg_SSH := if ssh then tg_SSH lab_node else None; TLS := None |}.
(** The node answers the capture; [ssh] is whether the roster holds an SSH key, before the lock
    is taken and after it; [persists] whether the roster takes the new key. *)
Definition lab_boot (before after persists : bool) : env bootE bool := λ R e locked,
  match e in bootE R return R * bool with
  | BLock => (Ok tt, true)
  | BLoad => (Ok [lab_keyless_node (if locked : bool then after else before)], locked)
  | BKeygen _ => (Ok ("pem", "ssh-ed25519 AAAA pveforge@lab"), locked)
  | BInstall _ _ _ _ _ => (Ok "SHA256:shown", locked)
  | BDialKey _ _ _ _ => (Ok 1%Z, locked)
  | BRun _ _ cmd =>
      (Ok (if eqb cmd (CaptureCommand 8006) then {| Stdout := pem_of "k1"; Stderr := ""; ExitCode := 0 |}
           else if has_prefix "set -eu" cmd then {| Stdout := "removed"; Stderr := ""; ExitCode := 0 |}
           else {| Stdout := ""; Stderr := ""; ExitCode := 1 |}), locked)
  | BWriteSSH _ => (if persists then Ok tt else Er (errorf "disk full"), locked)
  | BUnlock => (tt, locked) | BClose _ => (tt, locked) | BPause => (None, locked) | BNow => (0%Z, locked)
  | BServedPin _ _ _ => (Ok toy_pin, locked) | BDecrypt _ => (Ok "pem", locked)
  | BDialPassword _ _ _ _ => (Er (errorf "no"), locked) | BReconnect _ _ _ _ => (Ok 1%Z, locked)
  | BValidate _ _ | BProve | BAppend _ | BReplaceSSH _ _ | BWriteTLS _ _ _ | BWriteToken _ _ | BClearToken | BDryRun
  | BProbeDir | BUpdateFields _ _ _ _ => (Ok tt, locked)
  end.
Definition lab_boot_options (fp : string) : BootOptions :=
  {| base := {| TargetID_ := "lab"; Host := ""; Node_ := ""; APIPort := 0; InsecureTLS := false; TLSPin := ""; TokenOwner := "";
                TokenID := "t1" |};
     SSHPort := 0; tlsSource := ""; PVEUsername := "root"; PVEPassword := "pw"; NoSSHKey := false; HostKeyFingerprint := fp;
     Reprovisioned := false; SSHTOFU := false; CapturePort := 0;
     opt_Grants := [{| Path := "/"; Role := "PVEAuditor"; Propagate := true; Privs := None |}]; RosterPath := "roster.toml";
     opt_Passphrase := NewPassphrase "x" |}.
Definition install_pin (ev : event bootE) : option string :=
  match ev with @Ev _ _ (BInstall _ _ _ _ pin) _ => Some pin | _ => None end.
Definition lab_boot_run (fp : string) (before after persists : bool) :=
  match run (lab_boot before after persists) (Run toy_pem Some toy_sha256 (lab_boot_options fp)) false with
  | Some (tr, out, _) => Some (omap install_pin tr, tls_writes tr, option_map Error out.2)
  | None => None
  end.
Definition lab_fp : string := "SHA256:ABCDEFGHIJKLMNOPQRSTUVWXYZabcdefghijklmnopq".
(** A first run needs the host key from the operator. *)
Example first_run_unvouched : option_map (λ x, x.1) (lab_boot_run "" false false true) = Some ([], []).
Proof. vm_compute. reflexivity. Qed.
Example first_run_vouched :
  option_map (λ x, x.1) (lab_boot_run lab_fp false false true) = Some ([lab_fp], [("", toy_pin, "ssh-verified", true)]).
Proof. vm_compute. reflexivity. Qed.
(** The rule is judged on the roster as it is before the lock: when the SSH block it relied on
    is gone under the lock, the run trusts the host on first use without being told to. *)
Example unvouched_if_roster_changes :
  option_map (λ x, x.1) (lab_boot_run "" true false true) = Some ([""], [("", toy_pin, "ssh-tofu", true)]).
Proof. vm_compute. reflexivity. Qed.
Example key_dropped_when_not_persisted :
  option_map (λ x, x.2) (lab_boot_run lab_fp false false false) =
    Some (Some "bootstrap lab: persist ssh auth: disk full; the SSH key this run had installed on the node (pveforge@lab) was removed from root's authorized_keys again").
Proof. vm_compute. reflexivity. Qed.
