(* ===== verification/Import.v ===== *)
(** internal/bootstrap/bootstrap.go, [Import]: a token minted elsewhere is validated and written
    to the roster, and its secret kept out of every error. *)
From Stdlib Require Import Ascii.
From S2P Require Import Prelude GoLib Errors Json Utf8 KvJson ShellQuote Rest OpRun Client Remote Grants RootAccess Roster RosterWrite Rotation PinTls Bootstrap.

(** ** Redaction *)
(** [strings.ReplaceAll], of a text that is not empty; [skip] bytes are still to be dropped. *)
Fixpoint replace_go (old new : string) (skip : nat) (s : string) : string :=
  match s with
  | EmptyString => ""
  | String c s' =>
      match skip with
      | S k => replace_go old new k s'
      | O => if has_prefix old s then new +:+ replace_go old new (slen old - 1) s' else String c (replace_go old new 0 s')
      end
  end.
Definition ReplaceAll (s old new : string) : string := replace_go old new 0 s.
Definition secretRedacted : string := "<redacted>".
Definition redactSecret (e : err) (secret : string) : err :=
  if eqb secret "" then e else Err KText (ReplaceAll (Error e) secret secretRedacted) [e].

(** ** Checks *)
Definition OutcomeImported : string := "imported".
Definition OutcomeAlreadyHeld : string := "already_held".
Definition OutcomeNotImported : string := "not_imported".
Definition MaxImportedSecretLen : nat := 4096.
Definition CheckImportTokenID (i : string) : res unit :=
  match cut (byte 33) i with
  | None => Er (wrap_pre (sent ErrInvalidImportTokenID) (QuoteValue i +:+ ": want <user>@<realm>!<token name>"))
  | Some (owner, name) =>
      let^ _ := CheckTokenOwner owner
        orelse (λ e, Err KText (sentinel_text ErrInvalidImportTokenID +:+ ": " +:+ Error e) [sent ErrInvalidImportTokenID; e]) in
      guard^ tokenOwnerRealmRE name orelse
        wrap_pre (sent ErrInvalidImportTokenID) (QuoteValue name
          +:+ ": the token name must start with a letter and hold only letters, digits and . - _") in
      Ok tt
  end.
Definition CheckTokenSecret (secret : string) : res unit :=
  let bad says := wrap_pre (sent ErrInvalidTokenSecret) says in
  guard^ negb (eqb secret "") orelse bad "it is empty" in
  guard^ (slen secret <=? MaxImportedSecretLen) orelse bad "it is longer than 4096 bytes" in
  guard^ negb (any_rune (λ r, is_space r || is_control r) secret) orelse bad "it holds whitespace or a control character" in
  Ok tt.
Record ImportOptions :=
  { im_TargetID : string; im_Host : string; im_Node : string; im_APIPort : Z; im_InsecureTLS : bool; im_TokenID : string;
    Secret : string; im_Grants : list Grant; Replace : bool; im_RosterPath : string; im_Passphrase : Passphrase; im_Expect : string }.
Section import.
Context (o : ImportOptions).
Definition im_what : string := "import token " +:+ im_TargetID o.
Definition stored_tls (tg : Target) : string * string := match TLS tg with Some p => (SPKISHA256 p, pin_Source p) | None => ("", "") end.
Definition CheckImportTLS : io bootE (res unit) :=
  let! r := trigger BLoad in
  let tg := match r with Ok r => Find r (im_TargetID o) | Er _ => None end in
  let insecure := im_InsecureTLS o || match tg with Some t => tg_InsecureTLS t | None => false end in
  let stored := match tg with Some t => (stored_tls t).1 | None => "" end in
  Ret (guard^ eqb (im_Expect o) "" || eqb stored "" || eqb (im_Expect o) stored orelse
         wrapf_post im_what (sent ErrTLSPinDiffers) ("it pins " +:+ stored +:+ ", --expect says " +:+ im_Expect o
           +:+ "; nothing was validated or written. If the node was rebuilt, read its SSH host key on the node's CONSOLE ("
           +:+ ConsoleHostKeyCommand +:+ ") and run pveforge bootstrap " +:+ im_TargetID o
           +:+ " --no-ssh-key --reprovisioned --host-key-fingerprint <the console value>") in
       guard^ negb (insecure && eqb stored "" && eqb (im_Expect o) "") orelse
         wrapf_post im_what (sent ErrTLSPinRequired) ("pass the pin you verified with --expect sha256//… (roster " +:+ im_RosterPath o
           +:+ "); nothing was read, validated or written") in
       Ok tt).
(** The token id is kept by its parts, which [cut] splits and [fullID] joins. *)
Definition boot_of (pin : string) : BootOptions :=
  let '(owner, name) := default (im_TokenID o, "") (cut (byte 33) (im_TokenID o)) in
  {| base := {| TargetID_ := im_TargetID o; Host := im_Host o; Node_ := im_Node o; APIPort := im_APIPort o;
                InsecureTLS := im_InsecureTLS o; TLSPin := pin; TokenOwner := owner; TokenID := name |};
     SSHPort := 0; tlsSource := ""; PVEUsername := ""; PVEPassword := ""; NoSSHKey := false; HostKeyFingerprint := "";
     Reprovisioned := false; SSHTOFU := false; CapturePort := 0; opt_Grants := []; RosterPath := im_RosterPath o;
     opt_Passphrase := im_Passphrase o |}.
Definition checkImportAddress (b : BootOptions) : res unit :=
  guard^ negb (eqb (Host (base b)) "" || eqb (Node_ (base b)) "") orelse
    errorf (im_what +:+ ": --host and --node are required for a target the roster does not have yet") in
  Ok tt.
Definition CheckImportBeforePrompt : io bootE (res unit) :=
  let? r := trigger BLoad orelse (λ e, wrapf im_what (rosterLoadError (im_RosterPath o) e)) in
  let! b := defaultHostNodeFromRoster (boot_of "") in
  let? _ := Ret (checkImportAddress b) orelse id in
  let? _ := CheckImportTLS orelse id in
  let? _ := (match Find r (im_TargetID o) with Some _ => trigger BDryRun | None => trigger BProbeDir end)
    orelse wrapf (im_what +:+ ": the roster would refuse the write, so nothing was read, validated or written") in
  Ret (Ok tt).

(** ** Import *)
(** An import has no session: a question to one is a nil pointer. *)
Definition without_session : handler tokenE bootE unit := λ R e st,
  match e in tokenE R return io bootE (R * unit) with
  | TRun _ _ => Stuck
  | TReconnect => Stuck
  | TClose => Stuck
  | TValidate cfg want => let! r := trigger (BValidate cfg want) in Ret (r, st)
  | TPause => let! r := trigger BPause in Ret (r, st)
  | TNow => let! r := trigger BNow in Ret (r, st)
  | TLoad => let! r := trigger BLoad in Ret (r, st)
  | TDecrypt enc => let! r := trigger (BDecrypt enc) in Ret (r, st)
  | TDryRun => let! r := trigger BDryRun in Ret (r, st)
  | TWriteToken id secret => let! r := trigger (BWriteToken id secret) in Ret (r, st)
  | TClearToken => let! r := trigger BClearToken in Ret (r, st)
  | TUpdateFields host node port insecure => let! r := trigger (BUpdateFields host node port insecure) in Ret (r, st)
  end.
Definition sessionless {A} (m : io tokenE A) : io bootE A := let! r := interp without_session m tt in Ret r.1.
Record ImportResult :=
  { ir_TokenOutcome : string; ir_Validation : string; ir_Grants : list Grant; ir_TLSPin : string; ir_TLSPinSource : string;
    ir_OrphanedToken : string }.
Definition import_outcome := (option ImportResult * option err)%type.
Definition refused (e : err) : import_outcome := (None, Some e).
(** The token validated is written, after the target and its pin, unless it is held already. *)
Definition write_import (b : BootOptions) (want : list Grant) (exists_ : bool) (held : heldToken) (stored : string * string)
    : io bootE import_outcome :=
  let writePin := negb (eqb (im_Expect o) "") && eqb stored.1 "" in
  let res outcome tls orphan :=
    {| ir_TokenOutcome := outcome; ir_Validation := ValidationVerified; ir_Grants := want; ir_TLSPin := tls.1;
       ir_TLSPinSource := tls.2; ir_OrphanedToken := orphan |} in
  let fail tls says e := (Some (res OutcomeNotImported tls ""), Some (wrapf (im_what +:+ ": " +:+ says) e)) in
  let sameToken := eqb (held_ID held) (im_TokenID o) && bool_decide (DecryptErr held = None) && eqb (held_Secret held) (Secret o) in
  let! added := (if exists_ then Ret (Ok tt) else ensureTargetExists b) in
  match added with
  | Er e => Ret (fail stored "add the target to the roster" e)
  | Ok _ =>
      let! pinned := (if writePin then trigger (BWriteTLS "" (im_Expect o) SourceExpect) else Ret (Ok tt)) in
      match pinned with
      | Er e => Ret (fail stored "write the tls pin" e)
      | Ok _ =>
          let tls := if writePin then (im_Expect o, SourceExpect) else stored in
          if sameToken then Ret (Some (res OutcomeAlreadyHeld tls ""), None)
          else
            let! wrote := trigger (BWriteToken (im_TokenID o) (Secret o)) in
            match wrote with
            | Er e => Ret (fail tls "write the token to the roster" e)
            | Ok _ =>
                let! back := sessionless (loadHeldToken (im_RosterPath o) (base b)) in
                Ret match back with
                    | Ok back =>
                        if eqb (held_ID back) (im_TokenID o) && bool_decide (DecryptErr back = None) && eqb (held_Secret back) (Secret o)
                        then
                          (Some (res OutcomeImported tls
                             (if negb (eqb (held_ID held) "") && negb (eqb (held_ID held) (im_TokenID o)) then held_ID held else "")), None)
                        else
                          (Some (res OutcomeNotImported tls ""),
                           Some (errorf (im_what +:+ ": the roster did not read back the token just written (check it with pveforge roster validate)")))
                    | Er _ =>
                        (Some (res OutcomeNotImported tls ""),
                         Some (errorf (im_what +:+ ": the roster did not read back the token just written (check it with pveforge roster validate)")))
                    end
            end
      end
  end.
(** The token the target holds, if it exists. *)
Definition held_before (b : BootOptions) (exists_ : bool) : io bootE (res heldToken) :=
  if exists_ then
    let? held := sessionless (loadHeldToken (im_RosterPath o) (base b)) orelse wrapf im_what in
    guard bool_decide (DecryptErr held = None) orelse
      wrapf_post im_what (sent ErrTokenUndecryptable) ("the roster holds " +:+ QuoteValue (held_ID held)
        +:+ "; check the roster passphrase (" +:+ PassphraseEnvVar +:+ ") — nothing was validated or written, and --replace cannot override this") in
    let? _ := trigger BDryRun orelse wrapf (im_what +:+ ": the roster would refuse the write, so nothing was validated or written") in
    Ret (Ok held)
  else Ret (Ok {| held_ID := ""; held_Secret := ""; DecryptErr := None |}).
Definition import_locked (b : BootOptions) (want : list Grant) : io bootE import_outcome :=
  let! r := trigger BLoad in
  match r with
  | Er e => Ret (refused (wrapf im_what (rosterLoadError (im_RosterPath o) e)))
  | Ok r =>
      let tg := Find r (im_TargetID o) in
      let! checked := CheckImportTLS in
      match checked with
      | Er e => Ret (refused e)
      | Ok _ =>
          let stored := match tg with Some t => stored_tls t | None => ("", "") end in
          let writePin := negb (eqb (im_Expect o) "") && eqb stored.1 "" in
          let b := set_base (set_pin (if writePin then im_Expect o else stored.1) (base b)) (tlsSource b) b in
          let! held := held_before b (bool_decide (tg ≠ None)) in
          match held with
          | Er e => Ret (refused e)
          | Ok held =>
              let! proved := trigger BProve in
              match proved with
              | Er e => Ret (refused (wrapf im_what e))
              | Ok _ =>
                  let sameToken := eqb (held_ID held) (im_TokenID o) && bool_decide (DecryptErr held = None)
                    && eqb (held_Secret held) (Secret o) in
                  if negb (eqb (held_ID held) "") && negb sameToken && negb (Replace o) then
                    Ret (refused (wrapf_post im_what (sent ErrTokenAlreadyHeld) (QuoteValue (held_ID held)
                      +:+ "; pass --replace to replace the roster's copy (the held token is not revoked, and stays live on PVE)")))
                  else
                    let unwritten validation := Some
                      {| ir_TokenOutcome := OutcomeNotImported; ir_Validation := validation; ir_Grants := []; ir_TLSPin := "";
                         ir_TLSPinSource := ""; ir_OrphanedToken := "" |} in
                    let! v := sessionless (validatePostMint (base b) want (Secret o)) in
                    match v with
                    | (Some verdict, _) =>
                        Ret (unwritten ValidationFailed, Some (wrapf (im_what +:+ ": the token does not hold exactly the requested grants, so it was not imported (nothing on PVE was touched; if the owner is not root, its own privileges bound the token's)") verdict))
                    | (None, Some nonVerdict) =>
                        Ret (unwritten ValidationUnverified, Some (wrapf (im_what +:+ ": the token's grants could not be verified, so it was not imported (nothing on PVE was touched)") nonVerdict))
                    | (None, None) => write_import b want (bool_decide (tg ≠ None)) held stored
                    end
              end
          end
      end
  end.
(** What is checked before the lock. *)
Definition import_checked : io bootE (res (BootOptions * list Grant)) :=
  let? _ := Ret (ValidateTargetID (im_TargetID o)) orelse wrapf "import token" in
  let? _ := Ret (CheckImportTokenID (im_TokenID o)) orelse wrapf im_what in
  let? _ := Ret (CheckTokenSecret (Secret o)) orelse wrapf im_what in
  let? want := Ret (normalizeGrants (im_Grants o)) orelse wrapf im_what in
  let! b := defaultHostNodeFromRoster (boot_of "") in
  let? _ := Ret (checkImportAddress b) orelse id in
  let? _ := CheckImportTLS orelse id in
  let c := base b in
  let port := if (APIPort c =? 0)%Z then DefaultAPIPort else APIPort c in
  Ret (Ok (set_base {| TargetID_ := TargetID_ c; Host := Host c; Node_ := Node_ c; APIPort := port; InsecureTLS := InsecureTLS c;
                       TLSPin := TLSPin c; TokenOwner := TokenOwner c; TokenID := TokenID c |} (tlsSource b) b, want)).
Definition import_run : io bootE import_outcome :=
  let! ready := import_checked in
  match ready with
  | Er e => Ret (refused e)
  | Ok (b, want) =>
      let! l := trigger BLock in
      match l with
      | Er e => Ret (refused (wrapf (im_what +:+ ": acquire the per-target bootstrap lock") e))
      | Ok _ => let! out := import_locked b want in let! _ := trigger BUnlock in Ret out
      end
  end.
Definition Import : io bootE import_outcome :=
  let! out := import_run in Ret (out.1, (λ e, redactSecret e (Secret o)) <$> out.2).
End import.

(** * Specification *)
(** A change of the roster. *)
Definition roster_write (ev : event bootE) : bool :=
  match ev with Ev e _ => match e with BAppend _ | BWriteTLS _ _ _ | BWriteToken _ _ => true | _ => false end end.
Definition unchanged (p : list (event bootE)) : Prop := Forall (λ ev, roster_write ev = false) p.
Definition no_token_written (p : list (event bootE)) : Prop :=
  Forall (λ ev, match ev with Ev e _ => match e with BWriteToken _ _ => False | _ => True end end) p.
Section spec.
Context (o : ImportOptions).
(** PVE accepted the token with exactly the grants wanted; the roster holds no token for the
    target. *)
Definition accepted (p : list (event bootE)) : Prop :=
  ∃ cfg want, normalizeGrants (im_Grants o) = Ok want ∧ Ev (BValidate cfg want) (Ok tt) ∈ p ∧
    cfg_TokenID cfg = im_TokenID o ∧ TokenSecret cfg = Secret o.
Definition holds_none (p : list (event bootE)) : Prop :=
  ∃ r, Ev BLoad (Ok r) ∈ p ∧
    match Find r (im_TargetID o) with
    | Some tg => match Token tg with Some t => ta_ID t = "" | None => True end
    | None => True
    end.
Definition under_import_lock (p : list (event bootE)) : Prop := Ev BLock (Ok tt) ∈ p ∧ Ev BUnlock tt ∉ p.
(** What an import may ask, after the exchanges [p]: nothing over SSH, and changes of the roster
    only. *)
Definition import_allowed (p : list (event bootE)) (R : Type) (e : bootE R) : Prop :=
  match e with
  | BLock | BUnlock | BLoad | BDecrypt _ | BProve | BDryRun | BPause => True
  | BValidate cfg _ => under_import_lock p ∧ cfg_TokenID cfg = im_TokenID o ∧ TokenSecret cfg = Secret o
  | BAppend t => under_import_lock p ∧ tg_ID t = im_TargetID o ∧ accepted p
  | BWriteTLS old next source =>
      under_import_lock p ∧ old = "" ∧ next = im_Expect o ∧ next ≠ "" ∧ source = SourceExpect ∧ accepted p
  | BWriteToken id secret =>
      under_import_lock p ∧ id = im_TokenID o ∧ secret = Secret o ∧ accepted p ∧ (Replace o = true ∨ holds_none p)
  | _ => False
  end.
Definition imported (p : list (event bootE)) (out : import_outcome) : Prop :=
  match out.1 with
  | None => unchanged p ∧ is_Some out.2
  | Some r =>
      ir_TokenOutcome r = OutcomeImported ∧ Ev (BWriteToken (im_TokenID o) (Secret o)) (Ok tt) ∈ p ∧ out.2 = None ∨
      ir_TokenOutcome r = OutcomeAlreadyHeld ∧ no_token_written p ∧ accepted p ∧ out.2 = None ∨
      ir_TokenOutcome r = OutcomeNotImported ∧ is_Some out.2
  end.

(** * Lemmas *)
Definition calmly (p p' : list (event bootE)) : Prop :=
  ∃ q, p' = p ++ q ∧ unchanged q ∧ Forall (λ ev, match ev with Ev e _ => match e with BUnlock => False | _ => True end end) q.
Lemma calmly_refl p : calmly p p.
Proof. exists []. split_and!; [by rewrite app_nil_r|constructor..]. Qed.
Lemma calmly_trans p1 p2 p3 : calmly p1 p2 → calmly p2 p3 → calmly p1 p3.
Proof.
  intros (q & -> & Hq & Hu) (q' & -> & Hq' & Hu'). exists (q ++ q').
  split_and!; [by rewrite app_assoc|by apply Forall_app|by apply Forall_app].
Qed.
Lemma calmly_one p {R} (e : bootE R) r :
  roster_write (Ev e r) = false → match e with BUnlock => False | _ => True end → calmly p (p ++ [Ev e r]).
Proof. intros He Hu. exists [Ev e r]. split_and!; [done|by constructor|by constructor]. Qed.
Lemma calmly_in p p' ev : calmly p p' → ev ∈ p → ev ∈ p'.
Proof. intros (q & -> & _). rewrite elem_of_app. by left. Qed.
Lemma accepted_calmly p p' : calmly p p' → accepted p → accepted p'.
Proof. intros Hc (cfg & want & ? & Hin & ?). exists cfg, want. split_and!; try tauto. exact (calmly_in _ _ _ Hc Hin). Qed.
Lemma holds_none_calmly p p' : calmly p p' → holds_none p → holds_none p'.
Proof. intros Hc (r & Hin & ?). exists r. split; [exact (calmly_in _ _ _ Hc Hin)|done]. Qed.
Lemma under_calmly p p' : calmly p p' → under_import_lock p → under_import_lock p'.
Proof.
  intros (q & -> & _ & Hu) [Hin Hout]. split; rewrite elem_of_app; [by left|]. intros [|Hq]; [done|].
  rewrite Forall_forall in Hu. exact (Hu _ Hq).
Qed.
Lemma unchanged_calmly p p' : calmly p p' → unchanged p → unchanged p'.
Proof. intros (q & -> & Hq & _) Hp. by apply Forall_app. Qed.
Lemma unchanged_no_token p : unchanged p → no_token_written p.
Proof. intros H. eapply Forall_impl; [exact H|]. by intros [R [] ?]. Qed.
(** A part that only reads. *)
Definition import_reads (R : Type) (e : bootE R) : Prop :=
  match e with BLoad | BDecrypt _ | BProve | BDryRun | BPause => True | _ => False end.
Lemma reading_part {A} (m : io bootE A) (Q0 Q : list (event bootE) → A → Prop) p :
  asks import_reads m → always m Q0 → (∀ tr a, calmly p (p ++ tr) → Q0 tr a → Q (p ++ tr) a) →
  abides import_allowed p m Q.
Proof.
  intros Hasks HQ0 HQ. eapply abides_part; [exact Hasks|apply always_and; [exact HQ0|apply asks_always, Hasks]|by intros ? ? []|].
  intros tr a [Ha Hall]. apply HQ; [|done]. exists tr.
  split_and!; [done|eapply Forall_impl; [exact Hall|]; by intros [R [] ?]..].
Qed.
Lemma always_asks_true {A} (m : io bootE A) : always m (λ _ _, True).
Proof. by apply always_true. Qed.
Lemma CheckImportTLS_asks : asks import_reads (CheckImportTLS o).
Proof. unfold CheckImportTLS. asks. Qed.
Lemma import_checked_asks : asks import_reads (import_checked o).
Proof. unfold import_checked, defaultHostNodeFromRoster. cbv zeta. asks; apply CheckImportTLS_asks. Qed.
Lemma held_before_asks b ex : asks import_reads (held_before o b ex).
Proof.
  unfold held_before, sessionless. destruct ex; [|exact I]. apply asks_bind; [|intros [?|?]; asks].
  apply asks_bind; [|intros ?; exact I]. cbn. split; [done|]. intros [r|e]; cbn; [|exact I].
  destruct (Find r _) as [[? ? ? ? ? ? [t|] ? ?]|]; cbn; [|exact I..]. split; [done|]. by intros [?|?].
Qed.
Lemma sessionless_held path c :
  always (sessionless (loadHeldToken path c)) (λ tr r, ∀ h, r = Ok h → held_ID h = "" →
    TargetID_ c = im_TargetID o → holds_none tr).
Proof.
  unfold sessionless, loadHeldToken. cbn [bind trigger interp without_session always fst]. intros [r|e]; cbn [bind trigger interp always fst]; [|done].
  destruct (Find r (TargetID_ c)) as [tg|] eqn:Hf; cbn [bind trigger interp always fst]; [|done].
  destruct (Token tg) as [t|] eqn:Ht; cbn [bind trigger interp without_session always fst].
  - intros [s|e]; cbn [bind trigger interp always fst]; intros h [= <-]; cbn [held_ID]; intros Hid Hc;
      exists r; (split; [by left|]); rewrite <- Hc, Hf, Ht; exact Hid.
  - intros h [= <-] _ Hc. exists r. split; [by left|]. by rewrite <- Hc, Hf, Ht.
Qed.
Definition names (b : BootOptions) : Prop := TargetID_ (base b) = im_TargetID o ∧ fullID (base b) = im_TokenID o.
Lemma import_checked_spec :
  always (import_checked o) (λ _ r, ∀ b want, r = Ok (b, want) → names b ∧ normalizeGrants (im_Grants o) = Ok want).
Proof.
  unfold import_checked. cbn [bind]. destruct (ValidateTargetID _); [|done]. cbn [bind].
  destruct (CheckImportTokenID _) eqn:Hid; [|done]. cbn [bind]. destruct (CheckTokenSecret _); [|done]. cbn [bind].
  destruct (normalizeGrants _) as [want|]; [|done].
  assert (names (boot_of o "")) as Hb.
  { unfold names, boot_of, CheckImportTokenID in *. destruct (cut _ _) as [[owner name]|] eqn:Hcut; [|done].
    apply cut_spec in Hcut as [-> _]. done. }
  eapply always_call with (P := λ _ b, names b).
  { unfold defaultHostNodeFromRoster. destruct (_ || _); [done|]. cbn [bind trigger always]. intros [r|e]; [|done].
    cbn [always]. by destruct (Find r _). }
  intros tr b Hn. cbn [bind]. destruct (checkImportAddress _ _); [|done]. cbn [bind].
  eapply always_call; [apply always_asks_true|]. intros tr' [?|?] _; cbn [always]; [|done]. by intros b' want' [= <- <-].
Qed.
Lemma post_mint_import b want n first v p :
  names b → normalizeGrants (im_Grants o) = Ok want → under_import_lock p → n ≠ 0 ∨ v ≠ None →
  abides import_allowed p (interp without_session (post_mint (base b) want n first (Secret o) v) tt) (λ p' r,
    calmly p p' ∧ (r.1 = (None, None) → accepted p')).
Proof.
  intros [Hid Hfull] Hw. revert first v p. induction n as [|n IH]; intros first v p Hp Hn; cbn [post_mint].
  { cbn [interp abides fst]. split; [apply calmly_refl|]. intros [= ->]. naive_solver. }
  assert (∀ p1, calmly p p1 → abides import_allowed p1 (interp without_session
    (let! r := trigger (TValidate (cfg_of (base b) (fullID (base b)) (Secret o)) want) in
     match r with
     | Ok _ => Ret (None, None)
     | Er e =>
         if isVerdict e && negb (postMintRetryable e) then Ret (Some e, None)
         else if postMintRetryable e then post_mint (base b) want n false (Secret o) (Some e)
         else match v with None => Ret (None, Some e) | Some _ => post_mint (base b) want n false (Secret o) v end
     end) tt) (λ p' r, calmly p p' ∧ (r.1 = (None, None) → accepted p'))) as Hstep.
  { intros p1 H1. cbn [bind trigger interp without_session abides]. split; [split; [by eapply under_calmly|done]|].
    intros r. set (p2 := p1 ++ [_]). assert (calmly p p2) as H2 by (eapply calmly_trans; [exact H1|by apply calmly_one]).
    assert (∀ v', v' ≠ None → abides import_allowed p2 (interp without_session (post_mint (base b) want n false (Secret o) v') tt)
      (λ p' r, calmly p p' ∧ (r.1 = (None, None) → accepted p'))) as Hrec.
    { intros v' Hv'. eapply abides_mono; [|apply IH; [by eapply under_calmly|by right]].
      intros p' r' [Hc Hr]. split; [by eapply calmly_trans|done]. }
    destruct r as [[]|e].
    { cbn [interp abides fst]. split; [done|]. intros _. exists (cfg_of (base b) (fullID (base b)) (Secret o)), want.
      split_and!; [done|subst p2; rewrite elem_of_app; right; by left|done|done]. }
    cbn [fst snd]. destruct (isVerdict e && negb (postMintRetryable e)); [cbn [interp abides fst]; by split|]. destruct (postMintRetryable e); [by apply Hrec|].
    destruct v as [v|]; [by apply Hrec|cbn [interp abides fst]; by split]. }
  destruct first; cbn [bind trigger interp without_session abides]; [apply Hstep, calmly_refl|]. split; [done|].
  intros [x|]; [|apply Hstep; by apply calmly_one].
  destruct v; cbn [interp abides fst]; (split; [by apply calmly_one|done]).
Qed.
Lemma accepted_app p q : accepted p → accepted (p ++ q).
Proof. intros (cfg & want & ? & ? & ?). exists cfg, want. rewrite elem_of_app. tauto. Qed.
Lemma holds_none_app p q : holds_none p → holds_none (p ++ q).
Proof. intros (r & ? & ?). exists r. rewrite elem_of_app. tauto. Qed.
Lemma under_one p {R} (e : bootE R) r :
  match e with BUnlock => False | _ => True end → under_import_lock p → under_import_lock (p ++ [Ev e r]).
Proof.
  intros He [Hin Hout]. split; rewrite elem_of_app; [by left|]. intros [|Hl%list_elem_of_singleton]; [done|]. by destruct e.
Qed.
Lemma no_token_one p {R} (e : bootE R) r :
  match e with BWriteToken _ _ => False | _ => True end → no_token_written p → no_token_written (p ++ [Ev e r]).
Proof. intros He Hp. apply Forall_app. split; [done|by constructor]. Qed.
(** What holds once the token was accepted, until it is written. *)
Definition writing (p : list (event bootE)) : Prop := under_import_lock p ∧ accepted p ∧ no_token_written p.
Lemma writing_one p {R} (e : bootE R) r :
  match e with BUnlock | BWriteToken _ _ => False | _ => True end → writing p → writing (p ++ [Ev e r]).
Proof.
  intros He (Hu & Ha & Hn). split_and!; [apply under_one; [by destruct e|done]|by apply accepted_app|apply no_token_one; [by destruct e|done]].
Qed.
Lemma write_import_abides b want ex held stored p :
  names b → writing p →
  eqb (held_ID held) (im_TokenID o) && bool_decide (DecryptErr held = None) && eqb (held_Secret held) (Secret o) = true
    ∨ Replace o = true ∨ holds_none p →
  abides import_allowed p (write_import o b want ex held stored) imported.
Proof.
  intros [Hid Hfull] Hp Hwhy. unfold write_import. cbv zeta.
  set (same := eqb (held_ID held) (im_TokenID o) && bool_decide (DecryptErr held = None) && eqb (held_Secret held) (Secret o)) in *.
  set (Good := λ q, writing q ∧ (same = true ∨ Replace o = true ∨ holds_none q)).
  assert (∀ q R (e : bootE R) r, match e with BUnlock | BWriteToken _ _ => False | _ => True end → Good q → Good (q ++ [Ev e r])) as Hone.
  { intros q R e r He [Hw Hy]. split; [by apply writing_one|]. destruct Hy as [?|[?|?]]; auto. right. right. by apply holds_none_app. }
  assert (∀ tls says e q, imported q (Some {| ir_TokenOutcome := OutcomeNotImported; ir_Validation := ValidationVerified;
    ir_Grants := want; ir_TLSPin := tls.1; ir_TLSPinSource := tls.2; ir_OrphanedToken := "" |}, Some (wrapf says e))) as Hfail
    by (intros tls says e q; right; right; by split; [|eexists]).
  apply abides_bind. eapply abides_mono with (Q := λ q r, Good q).
  2: { destruct ex; [by split|]. unfold ensureTargetExists. cbn [bind trigger abides]. split; [done|].
       intros [r|e]; cbn [bind abides]; [|by apply Hone]. destruct (Find r _); cbn [bind trigger abides]; [by apply Hone|].
       assert (Good (p ++ [Ev BLoad (Ok r)])) as Hg by by apply Hone. destruct Hg as [(Hu & Ha & Hn) Hy].
       split; [done|]. intros a. by apply Hone. }
  intros q [[]|e] Hq; [|apply Hfail]. apply abides_bind. eapply abides_mono with (Q := λ q r, Good q).
  2: { destruct (negb (eqb (im_Expect o) "") && eqb stored.1 "") eqn:Hpin; [|done]. cbn [trigger abides].
       apply andb_true_iff in Hpin as [Hpin%negb_eqb _]. destruct Hq as [(Hu & Ha & Hn) Hy]. split; [done|].
       intros r. apply Hone; [done|]. by split. }
  intros q2 [[]|e] Hq2; [|apply Hfail]. destruct same.
  { cbn [abides]. right. left. destruct Hq2 as [(Hu & Ha & Hn) Hy]. done. }
  cbn [bind trigger abides]. split.
  { destruct Hq2 as [(Hu & Ha & Hn) [?|Hy]]; [done|]. split_and!; try done; apply Hu. }
  intros [[]|e]; [|apply Hfail]. set (q3 := q2 ++ [_]).
  assert (Ev (BWriteToken (im_TokenID o) (Secret o)) (Ok tt) ∈ q3) as Hin by (subst q3; rewrite elem_of_app; right; by left).
  clearbody q3. apply abides_bind. eapply abides_part with (P := import_reads) (Q0 := λ _ _, True).
  - unfold sessionless. apply asks_bind; [|intros ?; exact I]. cbn. split; [done|]. intros [r|e]; cbn; [|exact I].
    destruct (Find r _) as [[? ? ? ? ? ? [t|] ? ?]|]; cbn; [|exact I..]. split; [done|]. by intros [?|?].
  - apply always_asks_true.
  - by intros tr R [].
  - intros tr back _. destruct back as [back|e]; cbn [abides]; [|right; right; by split; [|eexists]].
    destruct (_ && _ && _); [left|right; right; by split; [|eexists]]. split; [done|]. split; [|done].
    rewrite elem_of_app. by left.
Qed.
Lemma held_before_spec b ex :
  TargetID_ (base b) = im_TargetID o →
  always (held_before o b ex) (λ tr r, ∀ h, r = Ok h → ex = true → held_ID h = "" → holds_none tr).
Proof.
  intros Hid. unfold held_before. destruct ex; [|done].
  eapply always_call; [apply sessionless_held|]. intros tr [h|e] Hh; cbn [always]; [|done].
  destruct (bool_decide _); [|done]. cbn [bind trigger always]. intros [?|?]; cbn [always]; [|done].
  intros h' [= <-] _ H0. by apply holds_none_app, (Hh h).
Qed.
Lemma import_locked_abides b want p :
  names b → normalizeGrants (im_Grants o) = Ok want → under_import_lock p → unchanged p →
  abides import_allowed p (import_locked o b want) imported.
Proof.
  intros Hb Hw Hp Hquiet. unfold import_locked. cbv zeta.
  assert (∀ q e, calmly p q → imported q (refused e)) as Href.
  { intros q e Hq. split; [by eapply unchanged_calmly|by eexists]. }
  cbn [bind trigger abides]. split; [done|]. intros [r|e]; [|by apply Href, calmly_one].
  set (p1 := p ++ [_]). assert (calmly p p1) as H1 by by apply calmly_one.
  assert (Find r (im_TargetID o) = None → holds_none p1) as Hnew.
  { intros Hf. exists r. split; [subst p1; rewrite elem_of_app; right; by left|by rewrite Hf]. }
  clearbody p1. apply abides_bind. eapply reading_part; [apply CheckImportTLS_asks|apply always_asks_true|].
  intros tr [[]|e] H2 _; [|apply Href; by eapply calmly_trans]. set (b2 := set_base _ _ _).
  assert (names b2) as Hb2 by exact Hb. clearbody b2. apply abides_bind.
  eapply reading_part; [apply held_before_asks|by apply held_before_spec, Hb2|].
  intros tr2 [h|e] H3 Hh; [|apply Href; eapply calmly_trans, H3; by eapply calmly_trans].
  set (p3 := (p1 ++ tr) ++ tr2) in *. assert (calmly p p3) as Hp3 by (eapply calmly_trans, H3; by eapply calmly_trans).
  assert (held_ID h = "" → holds_none p3) as Hnone.
  { intros H0. destruct (bool_decide (Find r (im_TargetID o) ≠ None)) eqn:Hex.
    - subst p3. destruct (Hh h eq_refl eq_refl H0) as (r' & ? & ?). exists r'. rewrite elem_of_app. auto.
    - apply bool_decide_eq_false in Hex. subst p3. do 2 apply holds_none_app. apply Hnew.
      destruct (Find r (im_TargetID o)); [exfalso; by apply Hex|done]. }
  clearbody p3. cbn [bind trigger abides]. split; [done|]. intros d. set (p4 := p3 ++ [_]).
  assert (calmly p p4) as Hp4 by (eapply calmly_trans; [exact Hp3|by apply calmly_one]).
  assert (held_ID h = "" → holds_none p4) as Hnone4 by (intros H0; by apply holds_none_app, Hnone). clearbody p4.
  destruct d as [[]|e]; [|by apply Href].
  set (same := eqb (held_ID h) (im_TokenID o) && bool_decide (DecryptErr h = None) && eqb (held_Secret h) (Secret o)).
  destruct (negb (eqb (held_ID h) "") && negb same && negb (Replace o)) eqn:Hheld; [by apply Href|].
  apply abides_bind. unfold sessionless, validatePostMint. apply abides_bind.
  eapply abides_mono; [|apply (post_mint_import b2 want); [done|done|by eapply under_calmly|by left]].
  intros p5 [v []] [H5 Hacc]. cbn [abides fst] in *.
  destruct v as [[e|] [e'|]]; try (right; right; by split; [|eexists]).
  specialize (Hacc eq_refl). assert (calmly p p5) as Hp5 by by eapply calmly_trans.
  apply write_import_abides; [done| |].
  - split_and!; [by eapply under_calmly|done|]. apply unchanged_no_token. by eapply unchanged_calmly.
  - change (same = true ∨ Replace o = true ∨ holds_none p5). destruct same; [by left|]. destruct (Replace o); [by right; left|].
    right. right. eapply holds_none_calmly; [exact H5|]. apply Hnone4. apply eqb_true. by destruct (eqb (held_ID h) "").
Qed.
Lemma Import_abides : abides import_allowed [] (Import o) imported.
Proof.
  unfold Import. apply abides_bind. eapply abides_mono with (Q := imported).
  { intros p [r e] H. cbn [abides]. unfold imported in *. cbn [fst snd] in *.
    destruct r as [r|]; [|destruct H as [? [? ->]]; by split; [|eexists]].
    destruct H as [(? & ? & ->)|[(? & ? & ? & ->)|(? & ? & ->)]]; [by left|by right; left|right; right; by split; [|eexists]]. }
  unfold import_run. apply abides_bind. eapply reading_part; [apply import_checked_asks|apply import_checked_spec|].
  intros tr r Hc Hr. destruct Hc as (q & [= <-] & Hq & Hu). destruct r as [[b want]|e]; [|by split; [|eexists]].
  destruct (Hr _ _ eq_refl) as [Hb Hw]. cbn [app bind trigger abides]. split; [done|].
  intros [[]|e]; [|split; [apply Forall_app; split; [done|by constructor]|by eexists]].
  apply abides_bind. eapply abides_mono; [|apply import_locked_abides; [done|done| |]].
  - intros p out H. cbn [bind trigger abides]. split; [done|]. intros []. cbn [abides]. unfold imported in *.
    destruct out.1 as [r|].
    + destruct H as [(? & ? & ?)|[(? & ? & ? & ?)|?]].
      * left. rewrite elem_of_app. auto.
      * right. left. split_and!; [done|by apply no_token_one|by apply accepted_app|done].
      * by right; right.
    + destruct H. split; [apply Forall_app; split; [done|by constructor]|done].
  - split; rewrite elem_of_app; [right; by left|]. intros [Hin|Hin%list_elem_of_singleton]; [|done].
    rewrite Forall_forall in Hu. exact (Hu _ Hin).
  - apply Forall_app. split; [done|by constructor].
Qed.
End spec.

(** ** Redaction *)
Definition lacks (c : ascii) (s : string) : Prop := any_byte (λ d, bool_decide (d = c)) s = false.
Lemma has_prefix_cons w c d s : has_prefix (String c w) (String d s) = bool_decide (c = d) && has_prefix w s.
Proof. unfold has_prefix. cbn. by case_bool_decide. Qed.
Lemma prefix_before w c a b : lacks c w → has_prefix w (a +:+ String c b) = true → has_prefix w a = true.
Proof.
  revert a. unfold lacks. induction w as [|d w IH]; intros a Hw H; [by destruct a|]. cbn in Hw.
  apply orb_false_iff in Hw as [Hd Hw]. destruct a as [|e a].
  - change ("" +:+ ?x) with x in H. rewrite has_prefix_cons in H. by rewrite Hd in H.
  - rewrite str_cons_app, has_prefix_cons in H. rewrite has_prefix_cons. apply andb_true_iff in H as [-> H]. by apply IH.
Qed.
Lemma contains_apart w c a b :
  w ≠ "" → lacks c w → contains w a = false → contains w b = false → contains w (a +:+ String c b) = false.
Proof.
  intros Hne Hw Ha Hb. revert Ha. induction a as [|d a IH]; intros Ha.
  - change ("" +:+ ?x) with x. cbn [contains]. rewrite Hb, orb_false_r. destruct w as [|e w]; [done|]. rewrite has_prefix_cons.
    unfold lacks in Hw. cbn in Hw. apply orb_false_iff in Hw as [Hd _]. by rewrite Hd.
  - rewrite str_cons_app. cbn [contains] in *. apply orb_false_iff in Ha as [Hp Ha]. rewrite IH by done. rewrite orb_false_r.
    rewrite <- str_cons_app. destruct (has_prefix w (String d a +:+ _)) eqn:H; [|done]. apply prefix_before in H; congruence.
Qed.
(** A secret that its mark can neither hold nor touch. *)
Definition redactable (secret : string) : Prop :=
  secret ≠ "" ∧ lacks (byte 60) secret ∧ lacks (byte 62) secret ∧ contains secret "redacted" = false.
Lemma mark_apart secret s : redactable secret → contains secret s = false → contains secret (secretRedacted +:+ s) = false.
Proof.
  intros (Hne & Hl & Hr & Hm) Hs. change (secretRedacted +:+ s) with ("" +:+ String (byte 60) ("redacted" +:+ String (byte 62) s)).
  apply contains_apart; [done|done|by destruct secret|by apply contains_apart].
Qed.
Lemma prefix_replaced old w s : lacks (byte 60) w → has_prefix w (replace_go old secretRedacted 0 s) = true → has_prefix w s = true.
Proof.
  revert w. induction s as [|c s IH]; intros w Hw; [done|]. cbn [replace_go]. destruct (has_prefix old (String c s)).
  - destruct w as [|d w]; [done|]. change (secretRedacted +:+ ?x) with (String (byte 60) ("redacted>" +:+ x)).
    rewrite has_prefix_cons. unfold lacks in Hw. cbn in Hw. apply orb_false_iff in Hw as [Hd _].
    intros [H _]%andb_true_iff. exfalso. exact (eq_true_false_abs _ H Hd).
  - destruct w as [|d w]; [done|]. rewrite !has_prefix_cons. intros [-> H]%andb_true_iff. apply IH; [|done].
    unfold lacks in *. cbn in Hw. by apply orb_false_iff in Hw as [_ ?].
Qed.
Lemma replaced_clean secret k s : redactable secret → contains secret (replace_go secret secretRedacted k s) = false.
Proof.
  intros Hs. revert k. induction s as [|c s IH]; intros k; [by destruct Hs, secret|]. cbn [replace_go].
  destruct k as [|k]; [|apply IH]. destruct (has_prefix secret (String c s)) eqn:Hp; [by apply mark_apart|].
  cbn [contains]. rewrite IH, orb_false_r. destruct (has_prefix secret (String c (replace_go _ _ _ _))) eqn:H; [|done].
  destruct Hs as (Hne & Hl & _). destruct secret as [|d w]; [done|]. rewrite has_prefix_cons in *.
  apply andb_true_iff in H as [Hd H]. rewrite Hd in Hp. apply prefix_replaced in H; [|by apply orb_false_iff in Hl as [_ ?]].
  by rewrite H in Hp.
Qed.

(** ** Imports end *)
Definition no_session (R : Type) (e : tokenE R) : Prop := match e with TRun _ _ | TReconnect | TClose => False | _ => True end.
Lemma sessionless_total {A} (m : io tokenE A) : asks no_session m → total m → total (sessionless m).
Proof.
  intros Ha Ht. unfold sessionless. apply total_bind; [|intros ?; exact I]. eapply total_interp; [|exact Ha|exact Ht].
  intros R [] [] H; try done; intros ?; exact I.
Qed.
Lemma held_total path c : total (sessionless (loadHeldToken path c)).
Proof. apply sessionless_total; unfold loadHeldToken; [asks|totally]. Qed.
Lemma validate_total c want secret : total (sessionless (validatePostMint c want secret)).
Proof.
  apply sessionless_total; unfold validatePostMint; generalize postMintAttempts true (@None err); intros n.
  - induction n as [|n IH]; intros b v; cbn [post_mint]; [exact I|]. asks; apply IH.
  - induction n as [|n IH]; intros b v; cbn [post_mint]; [exact I|]. totally; apply IH.
Qed.
Lemma Import_total o : total (Import o).
Proof.
  unfold Import, import_run, import_checked, import_locked, write_import, held_before, defaultHostNodeFromRoster, CheckImportTLS,
    ensureTargetExists. cbv zeta. totally; first [apply held_total|apply validate_total].
Qed.

Lemma Import_redacts o :
  always (Import o) (λ _ out, redactable (Secret o) → ∀ e, out.2 = Some e → contains (Secret o) (Error e) = false).
Proof.
  unfold Import. eapply always_call with (P := λ _ _, True); [by apply always_true|]. intros tr [r e] _. cbn [always fst snd].
  intros Hs e' He. destruct e as [e|]; [|done]. injection He as <-. unfold redactSecret.
  assert (Secret o ≠ "") as Hne by apply Hs. apply eqb_false in Hne. rewrite Hne. by apply replaced_clean.
Qed.

(** * Properties *)
(** C9: an import always ends without using an SSH session. It asks PVE nothing but to judge
    the token, and changes the roster only under the bootstrap lock and after PVE accepted
    this token with exactly the grants wanted; it then adds the target, the operator's pin or
    this token, which takes the place of another only with --replace. It reports the token
    imported if it wrote it, already held if it wrote none, and an error otherwise; and the
    error never shows the secret, unless the secret is a part of the mark put in its place. *)
Theorem Import_safe o :
  total (Import o) ∧
  always (Import o) (λ tr out,
    imported o tr out ∧
    (∀ pre ev post, tr = pre ++ ev :: post → match ev with Ev e _ => import_allowed o pre _ e end) ∧
    (redactable (Secret o) → ∀ e, out.2 = Some e → contains (Secret o) (Error e) = false)).
Proof.
  split; [apply Import_total|]. eapply always_mono; [|apply always_and; [apply abides_always, Import_abides|apply Import_redacts]].
  intros tr out [[H1 H2] H3]. done.
Qed.

(** * Examples *)
(** The roster holds [held] for the target; PVE says [verdict] of the token imported. *)
Definition lab_import (verdict : res unit) : env bootE TokenAuth := λ R e held,
  match e in bootE R return R * TokenAuth with
  | BLoad =>
      (Ok [{| tg_ID := "lab"; tg_Host := "h"; tg_Node := "n"; tg_APIPort := 0; tg_InsecureTLS := false; Export_ := "";
              Token := Some held; tg_SSH := None; TLS := None |}], held)
  | BDecrypt enc => (Ok enc, held)
  | BValidate _ _ => (verdict, held)
  | BWriteToken id secret => (Ok tt, {| ta_ID := id; SecretEnc := secret |})
  | BLock | BProve | BAppend _ | BWriteSSH _ | BReplaceSSH _ _ | BWriteTLS _ _ _ | BClearToken | BDryRun
  | BProbeDir | BUpdateFields _ _ _ _ => (Ok tt, held)
  | BUnlock => (tt, held) | BClose _ => (tt, held) | BPause => (None, held) | BNow => (0%Z, held)
  | BKeygen _ | BServedPin _ _ _ | BInstall _ _ _ _ _ | BDialKey _ _ _ _ | BDialPassword _ _ _ _ | BReconnect _ _ _ _
  | BRun _ _ _ => (Er (errorf "no"), held)
  end.
Definition lab_import_options (secret : string) (replace : bool) : ImportOptions :=
  {| im_TargetID := "lab"; im_Host := ""; im_Node := ""; im_APIPort := 0; im_InsecureTLS := false; im_TokenID := "op@pve!new";
     Secret := secret; im_Grants := [{| Path := "/"; Role := "PVEAuditor"; Propagate := true; Privs := None |}];
     Replace := replace; im_RosterPath := "roster.toml"; im_Passphrase := NewPassphrase "x"; im_Expect := "" |}.
Definition lab_import_run (verdict : res unit) (secret : string) (replace : bool) :=
  match run (lab_import verdict) (Import (lab_import_options secret replace)) {| ta_ID := "op@pve!old"; SecretEnc := "s0" |} with
  | Some (_, out, held) => Some (ta_ID held, option_map ir_OrphanedToken out.1, option_map Error out.2)
  | None => None
  end.
Example import_replaces : lab_import_run (Ok tt) "s3cr3t" true = Some ("op@pve!new", Some "op@pve!old", None).
Proof. vm_compute. reflexivity. Qed.
Example import_keeps : option_map (λ x, x.1) (lab_import_run (Ok tt) "s3cr3t" false) = Some ("op@pve!old", None).
Proof. vm_compute. reflexivity. Qed.
(** A secret that is a part of its mark, which the checks accept, is shown by it. *)
Example mark_shows_short_secret :
  CheckTokenSecret "red" = Ok tt ∧ Error (redactSecret (errorf "PVE said s3cr3t") "s3cr3t") = "PVE said <redacted>" ∧
  Error (redactSecret (errorf "PVE said red") "red") = "PVE said <redacted>".
Proof. vm_compute. auto. Qed.
Example redactable_uuid : redactable "0f1e2d3c-4b5a-6978-8796-a5b4c3d2e1f0".
Proof. split_and!; try done; by vm_compute. Qed.
