(* ===== verification/BootRoster.v ===== *)
(** The commands of internal/bootstrap over the roster file of internal/roster: every question
    a bootstrap, an import and pin-tls ask of the roster is answered by its reader or its
    writer, and what this makes of the file, also when the process dies in between. *)
From Stdlib Require Import Ascii.
From S2P Require Import Prelude GoLib Errors Json Roster Splice RosterWrite Rotation PinTls Bootstrap BootSafe Import RosterSafe.

(** ** The roster's answers, in terms of its file; everything else is asked as it was. *)
Inductive fileE : Type → Type :=
| FRoster {R} (e : rosterE R) : fileE R
| FOther {R} (e : bootE R) : fileE R.
Definition on_roster (ev : event fileE) : option (event rosterE) :=
  match ev with @Ev _ _ (FRoster e) r => Some (Ev e r) | _ => None end.
Definition roster_of (tr : list (event fileE)) : list (event rosterE) := omap on_roster tr.
Definition on_other (ev : event fileE) : option (event bootE) :=
  match ev with @Ev _ _ (FOther e) r => Some (Ev e r) | _ => None end.
Definition other_of (tr : list (event fileE)) : list (event bootE) := omap on_other tr.

Section over.
Context (NewScryptIdentity : string → option err) (age_Decrypt : string → string → res (res string)).
Context (unmarshal : string → res Roster) (parse : string → list expr * option err) (path targetID : string).
(** The state is the passphrase, with what it is proved to open. *)
Definition over_roster : handler bootE fileE Passphrase := λ R e p,
  let write w := lift (@FRoster) (run_writer NewScryptIdentity age_Decrypt unmarshal parse path targetID w p) in
  let ask {A} (m : io rosterE A) := let! r := lift (@FRoster) m in Ret (r, p) in
  match e in bootE R return io fileE (R * Passphrase) with
  | BLoad => ask (Load unmarshal parse path)
  | BProve => lift (@FRoster) (Prove NewScryptIdentity age_Decrypt unmarshal parse path p targetID)
  | BDecrypt enc => Ret (Decrypt NewScryptIdentity age_Decrypt p enc)
  | BDryRun => ask (DryRunTokenWrite unmarshal parse path targetID)
  | BProbeDir => ask ProbeRosterDir
  | BAppend t => write (WAppend t)
  | BWriteSSH w => write (WSSH w)
  | BReplaceSSH old w => write (WReplaceSSH old w)
  | BWriteTLS old next source => write (WTLS old next source)
  | BWriteToken i secret => write (WToken i secret)
  | BClearToken => write WClear
  | BUpdateFields host node port insecure =>
      write (WUpdate {| m_Host := host; m_Node := node; m_APIPort := port; m_InsecureTLS := insecure |})
  | e => let! r := trigger (FOther e) in Ret (r, p)
  end.

(** * Specification *)
(** The file's text after a trace, from the text [old] and the temporary files [T]. *)
Definition content_at (T : gmap string (option string * bool)) (old : string) (tr : list (event rosterE)) : option string :=
  default (Some old) (last (renames T tr)).
(** Every read answers with what the file holds: nobody else writes it meanwhile. *)
Definition faithful T (old : string) (tr : list (event rosterE)) : Prop :=
  ∀ pre data post, tr = pre ++ Ev RRead (Ok data) :: post → content_at T old pre = Some data.
(** A write asked for, and whether it was reported done. *)
Definition asked_write (ev : event bootE) : option (writer * bool) :=
  match ev with
  | @Ev _ _ (BAppend t) r => Some (WAppend t, is_ok r)
  | @Ev _ _ (BWriteSSH w) r => Some (WSSH w, is_ok r)
  | @Ev _ _ (BReplaceSSH old w) r => Some (WReplaceSSH old w, is_ok r)
  | @Ev _ _ (BWriteTLS old next source) r => Some (WTLS old next source, is_ok r)
  | @Ev _ _ (BWriteToken i secret) r => Some (WToken i secret, is_ok r)
  | @Ev _ _ BClearToken r => Some (WClear, is_ok r)
  | @Ev _ _ (BUpdateFields host node port insecure) r =>
      Some (WUpdate {| m_Host := host; m_Node := node; m_APIPort := port; m_InsecureTLS := insecure |}, is_ok r)
  | _ => None
  end.
Definition done_write (ev : event bootE) : option writer :=
  match asked_write ev with Some (w, true) => Some w | _ => None end.
(** The writes of a run turned the text [old] into [new], each the roster it found. *)
Inductive evolves : string → list writer → string → Prop :=
| evolves_nil text : evolves text [] text
| evolves_cons old cur w mid next ws new :
    Decode unmarshal parse old = Ok cur → Decode unmarshal parse mid = Ok next → intended targetID w cur next →
    evolves mid ws new → evolves old (w :: ws) new.
(** A roster that was read, and a question that is not of the roster. *)
Definition loaded (ev : event bootE) : option Roster := match ev with @Ev _ _ BLoad (Ok r) => Some r | _ => None end.
Definition read_as (r : Roster) (tr : list (event fileE)) : Prop :=
  ∃ data, Ev RRead (Ok data) ∈ roster_of tr ∧ Decode unmarshal parse data = Ok r.
Definition passed_on (ev : event bootE) : option (event bootE) :=
  match ev with
  | Ev (BLoad | BProve | BDecrypt _ | BAppend _ | BWriteSSH _ | BReplaceSSH _ _ | BWriteTLS _ _ _ | BWriteToken _ _ | BClearToken
        | BDryRun | BProbeDir | BUpdateFields _ _ _ _) _ => None
  | _ => Some ev
  end.
(** How one question was answered over the file. *)
Definition file_answer (_ : Passphrase) (ev : event bootE) (tr : list (event fileE)) (_ : Passphrase) : Prop :=
  other_of tr = omap passed_on [ev] ∧
  (∀ r, loaded ev = Some r → read_as r tr) ∧
  match asked_write ev with
  | Some (w, ok) => guarded (roster_of tr) ∧ written unmarshal parse (outcome targetID w) ok (roster_of tr)
  | None => kept (roster_of tr)
  end.
(** At every moment, also if the process dies there, the file is whole, and what the writes
    done so far made of it. *)
Definition file_history (evs : list (event bootE)) (tr : list (event fileE)) : Prop :=
  ∀ old, faithful ∅ old (roster_of tr) → ∀ pre post, tr = pre ++ post →
    ∃ ws new, ws `sublist_of` omap done_write evs ∧ content old (roster_of pre) = Some new ∧ evolves old ws new.
(** The run [evs] over the file: what it read, what it asked otherwise, and the history. *)
Definition over_file (evs : list (event bootE)) (tr : list (event fileE)) : Prop :=
  other_of tr = omap passed_on evs ∧ (∀ r, Ev BLoad (Ok r) ∈ evs → read_as r tr) ∧ file_history evs tr.

(** * Lemmas *)
Lemma other_of_app tr tr' : other_of (tr ++ tr') = other_of tr ++ other_of tr'.
Proof. apply omap_app. Qed.
Lemma other_of_lift tr : other_of (lift_event (@FRoster) <$> tr) = [].
Proof. induction tr as [|[R e r] tr IH]; [done|]. exact IH. Qed.
Lemma read_as_mono r tr tr' : (∀ x, x ∈ roster_of tr → x ∈ roster_of tr') → read_as r tr → read_as r tr'.
Proof. intros H (data & ? & ?). exists data. eauto. Qed.
Lemma roster_of_app tr tr' : roster_of (tr ++ tr') = roster_of tr ++ roster_of tr'.
Proof. apply omap_app. Qed.
Lemma roster_of_lift tr : roster_of (lift_event (@FRoster) <$> tr) = tr.
Proof. induction tr as [|[R e r] tr IH]; [done|]. unfold roster_of in *. cbn. by rewrite IH. Qed.
Lemma content_app T old mid tr tr' :
  content_at T old tr = Some mid →
  content_at T old (tr ++ tr') = content_at (fold_left (λ T ev, file_step ev T) tr T) mid tr'.
Proof.
  unfold content_at. rewrite renames_app, last_app. intros H.
  destruct (last (renames (fold_left _ _ _) tr')) as [c|] eqn:Hl; [done|]. exact H.
Qed.
Lemma content_kept T old tr : kept tr → content_at T old tr = Some old.
Proof. intros H. unfold content_at. by rewrite (H T). Qed.
Lemma faithful_app T old mid tr tr' :
  content_at T old tr = Some mid → faithful T old (tr ++ tr') →
  faithful T old tr ∧ faithful (fold_left (λ T ev, file_step ev T) tr T) mid tr'.
Proof.
  intros Hc H. split.
  - intros pre data post ->. apply (H pre data (post ++ tr')). by rewrite <- app_assoc.
  - intros pre data post ->. rewrite <- (content_app T old mid tr pre) by done. apply (H _ data post). by rewrite <- app_assoc.
Qed.
Lemma kept_prefix_at T old tr pre post : kept tr → tr = pre ++ post → content_at T old pre = Some old.
Proof.
  intros H ->. specialize (H T). rewrite renames_app in H. unfold content_at. by apply app_eq_nil in H as [-> _].
Qed.
Lemma replaced_prefix_at T old new tr pre post :
  replaced_by new tr → tr = pre ++ post → content_at T old pre = Some old ∨ content_at T old pre = Some new.
Proof.
  intros H ->. unfold content_at. specialize (H T). rewrite renames_app in H.
  destruct (renames T pre) as [|c l]; [by left|]. injection H as -> [-> _]%app_eq_nil. by right.
Qed.
(** What one answer makes of the file, whole or cut short. *)
Lemma answer_evolves T old p ev tr p' :
  file_answer p ev tr p' → faithful T old (roster_of tr) →
  (∃ ws new, ws `sublist_of` omap done_write [ev] ∧ content_at T old (roster_of tr) = Some new ∧ evolves old ws new) ∧
  ∀ pre post, tr = pre ++ post →
    ∃ ws new, ws `sublist_of` omap done_write [ev] ∧ content_at T old (roster_of pre) = Some new ∧ evolves old ws new.
Proof.
  assert (∀ x, content_at T old x = Some old →
    ∃ ws new, ws `sublist_of` omap done_write [ev] ∧ content_at T old x = Some new ∧ evolves old ws new) as Hold.
  { intros x Hx. exists [], old. split_and!; [apply sublist_nil_l|done|constructor]. }
  intros Ha Hf. cut (∀ pre post, tr = pre ++ post →
    ∃ ws new, ws `sublist_of` omap done_write [ev] ∧ content_at T old (roster_of pre) = Some new ∧ evolves old ws new).
  { intros H. split; [|done]. apply (H tr []). by rewrite app_nil_r. }
  intros pre post Htr. assert (roster_of tr = roster_of pre ++ roster_of post) as Hroster by by rewrite Htr, roster_of_app.
  destruct Ha as (_ & _ & Ha). destruct (asked_write ev) as [[w []]|] eqn:Hw; cbn [written] in Ha.
  2, 3: apply Hold; eapply kept_prefix_at, Hroster; by try apply Ha.
  destruct Ha as (_ & data & cur & out & (before & after & Hin & Hk) & Hc & Hg & Hb).
  assert (data = old) as ->.
  { specialize (Hf _ _ _ Hin). rewrite content_kept in Hf by done. congruence. }
  destruct out as [nr|]; [|apply Hold; by eapply kept_prefix_at]. destruct Hb as (new & Hn & Hr).
  destruct (replaced_prefix_at T old new _ _ _ Hr Hroster) as [H|H]; [by apply Hold|].
  exists [w], new. split_and!; [|done|].
  - cbn [omap list_omap]. unfold done_write. by rewrite Hw.
  - econstructor; [done..|constructor].
Qed.
Lemma evolves_app old ws mid ws' new : evolves old ws mid → evolves mid ws' new → evolves old (ws ++ ws') new.
Proof. induction 1; [done|]. intros H'. cbn. econstructor; eauto. Qed.
Lemma steps_evolve p evs tr p' :
  steps file_answer p evs tr p' → ∀ T old, faithful T old (roster_of tr) → ∀ pre post, tr = pre ++ post →
    ∃ ws new, ws `sublist_of` omap done_write evs ∧ content_at T old (roster_of pre) = Some new ∧ evolves old ws new.
Proof.
  induction 1 as [p|p ev tr p1 evs tr' p2 Ha _ IH]; intros T old Hf pre post Htr.
  { symmetry in Htr. apply app_eq_nil in Htr as [-> _]. exists [], old. split_and!; [done..|constructor]. }
  change (ev :: evs) with ([ev] ++ evs). rewrite omap_app. rewrite roster_of_app in Hf.
  assert (faithful T old (roster_of tr)) as Hf1.
  { intros q data r Hq. apply (Hf q data (r ++ roster_of tr')). by rewrite Hq, <- app_assoc. }
  destruct (answer_evolves T old _ _ _ _ Ha Hf1) as [(ws1 & mid & Hs1 & Hc1 & He1) Hpre].
  apply app_eq_app in Htr as (l & [[-> ->]|[-> ->]]).
  - destruct (Hpre pre l eq_refl) as (ws & new & Hs & Hc & He). exists ws, new. split_and!; [|done..].
    by apply sublist_inserts_r.
  - destruct (faithful_app _ _ _ _ _ Hc1 Hf) as [_ Hf2]. destruct (IH _ _ Hf2 l post eq_refl) as (ws2 & new & Hs2 & Hc2 & He2).
    exists (ws1 ++ ws2), new. split_and!; [by apply sublist_app| |by eapply evolves_app].
    by rewrite roster_of_app, (content_app T old mid).
Qed.
(** ** The answers *)
Definition no_rename (R : Type) (e : rosterE R) : Prop := match e with RRename _ => False | _ => True end.
Lemma no_rename_kept {A} (m : io rosterE A) : asks no_rename m → always m (λ tr _, kept tr).
Proof.
  intros Ha. eapply always_mono; [|by apply asks_always]. intros tr a H.
  induction H as [|[R e r] tr He _ IH]; intros T; [done|]. cbn [renames]. destruct e; by try apply IH.
Qed.
(** The roster's exchanges of a call, and nothing else. *)
Definition only_roster (tr : list (event fileE)) : Prop := other_of tr = [].
Lemma lift_only {A} (m : io rosterE A) Q :
  always m Q → always (lift (@FRoster) m) (λ tr a, only_roster tr ∧ Q (roster_of tr) a).
Proof.
  intros Hm. eapply always_mono; [|by apply lift_spec]. cbn. intros tr a (tr0 & -> & H).
  rewrite roster_of_lift. split; [apply other_of_lift|done].
Qed.
Lemma lift_kept {A} (m : io rosterE A) :
  asks no_rename m → always (lift (@FRoster) m) (λ tr _, only_roster tr ∧ kept (roster_of tr)).
Proof. intros Hm. by apply (lift_only m (λ tr _, kept tr)), no_rename_kept. Qed.
Lemma Load_kept :
  always (Load unmarshal parse path) (λ tr r, kept tr ∧ ∀ x, r = Ok x → ∃ data, Ev RRead (Ok data) ∈ tr ∧ Decode unmarshal parse data = Ok x).
Proof.
  unfold Load, read_roster. cbn [bind trigger always]. intros [data|e]; cbn [always bind]; (split; [by intros T|]); [|done].
  intros x Hx. exists data. split; [by left|done].
Qed.
Lemma write_answers w p :
  always (lift (@FRoster) (run_writer NewScryptIdentity age_Decrypt unmarshal parse path targetID w p)) (λ tr rs,
    only_roster tr ∧ guarded (roster_of tr) ∧ written unmarshal parse (outcome targetID w) (is_ok rs.1) (roster_of tr)).
Proof. apply (lift_only _ (λ tr rs, guarded tr ∧ written unmarshal parse (outcome targetID w) (is_ok rs.1) tr)), writer_safe. Qed.
Lemma over_roster_answers R (e : bootE R) p : always (over_roster R e p) (λ tr rs, file_answer p (Ev e rs.1) tr rs.2).
Proof.
  assert (∀ A (m : io rosterE A) p', asks no_rename m →
    always (let! r := lift (@FRoster) m in Ret (r, p' : Passphrase)) (λ tr _, only_roster tr ∧ kept (roster_of tr))) as Hask.
  { intros A m p' Hm. eapply always_call; [by apply lift_kept|]. intros tr r [Ho Hk]. cbn [always]. by rewrite app_nil_r. }
  assert (∀ w, always (lift (@FRoster) (run_writer NewScryptIdentity age_Decrypt unmarshal parse path targetID w p))
    (λ tr rs, other_of tr = [] ∧ (∀ r : Roster, None = Some r → read_as r tr) ∧ guarded (roster_of tr) ∧
       written unmarshal parse (outcome targetID w) (is_ok rs.1) (roster_of tr))) as Hwrite.
  { intros w. eapply always_mono; [|apply write_answers]. intros tr rs (Ho & ? & ?). by split_and!. }
  destruct e; cbn [over_roster]; unfold file_answer; cbn [asked_write loaded passed_on omap list_omap];
    try (by apply Hwrite); try (intros r; cbn; split_and!; [done..|by intros T]).
  - eapply always_call; [apply lift_only, Load_kept|]. intros tr r (Ho & Hk & Hr). cbn [always fst]. rewrite app_nil_r.
    split_and!; [by destruct r| |by destruct r]. destruct r as [x|]; [|done]. intros x' [= <-]. by apply Hr.
  - eapply always_mono; [|apply lift_kept; unfold Prove, Load, read_roster; asks]. by intros tr rs [? ?].
  - cbn. split_and!; [done..|by intros T].
  - eapply always_mono; [|apply Hask; unfold DryRunTokenWrite, ProbeRosterDir; asks]. by intros tr rs [? ?].
  - eapply always_mono; [|apply Hask; unfold ProbeRosterDir; asks]. by intros tr rs [? ?].
Qed.
Lemma steps_asked p evs tr p' :
  steps file_answer p evs tr p' → other_of tr = omap passed_on evs ∧ ∀ r, Ev BLoad (Ok r) ∈ evs → read_as r tr.
Proof.
  intros Hs. split.
  - induction Hs as [|p ev tr p1 evs tr' p2 (Ho & _ & _) _ IH]; [done|].
    change (ev :: evs) with ([ev] ++ evs). by rewrite omap_app, other_of_app, Ho, IH.
  - intros r Hin. destruct (steps_elem _ _ _ _ _ _ Hs Hin) as (s1 & tr1 & s2 & (_ & Hl & _) & Hsub).
    eapply read_as_mono; [|by apply Hl]. intros x (y & Hy & Hx)%list_elem_of_omap. apply list_elem_of_omap. eauto.
Qed.
(** What is proved of a command holds of it over the file, whose history follows. *)
Lemma over_roster_run {A} (m : io bootE A) Q p :
  always m Q → always (interp over_roster m p) (λ tr rs, ∃ evs, Q evs rs.1 ∧ over_file evs tr).
Proof.
  intros Hm. eapply always_mono; [|apply (interp_refines over_roster file_answer over_roster_answers _ _ _ Hm)].
  intros tr rs (evs & HQ & Hs). exists evs. split; [done|]. destruct (steps_asked _ _ _ _ Hs). split_and!; [done..|].
  intros old Hf. by apply (steps_evolve _ _ _ _ Hs ∅).
Qed.
End over.

(** ** The pins of the target, and the other targets *)
Section pins.
Context (unmarshal : string → res Roster) (parse : string → list expr * option err) (targetID : string).
Local Notation evolves := (evolves unmarshal parse targetID).
Local Notation Decode := (Decode unmarshal parse).
Lemma Find_related (R : Target → Target → Prop) (cur nr : Roster) :
  (∀ a b, R a b → tg_ID b = tg_ID a) → Forall2 R cur nr → option_Forall2 R (Find cur targetID) (Find nr targetID).
Proof.
  intros HR. induction 1 as [|a b cur nr H _ IH]; cbn [Find]; [constructor|]. rewrite (HR _ _ H).
  destruct (eqb _ _); [by constructor|exact IH].
Qed.
Lemma Find_app (cur : Roster) t :
  Find (cur ++ [t]) targetID = match Find cur targetID with Some a => Some a | None => if eqb (tg_ID t) targetID then Some t else None end.
Proof. induction cur as [|a cur IH]; cbn [app Find]; [done|]. by destruct (eqb (tg_ID a) targetID). Qed.
(** [nr] is [cur] but for the target, where [P] relates the two. *)
Lemma target_change (P : Target → Target → Prop) (cur nr : Roster) :
  Forall2 (λ a b, if decide (tg_ID a = targetID) then P a b else b = a) cur nr → (∀ a b, P a b → tg_ID b = tg_ID a) →
  ((∀ a b, P a b → TLS b = TLS a) → held_pin nr targetID = held_pin cur targetID) ∧
  ((∀ a b, P a b → tg_SSH b = tg_SSH a) → held_fingerprint nr targetID = held_fingerprint cur targetID) ∧
  ∀ t, tg_ID t ≠ targetID → t ∈ cur → t ∈ nr.
Proof.
  intros Hf HP. assert (option_Forall2 (λ a b, if decide (tg_ID a = targetID) then P a b else b = a) (Find cur targetID)
    (Find nr targetID)) as H by (eapply Find_related, Hf; intros a b Hab; case_decide; [by apply HP|by subst]).
  assert (∀ B (f : Target → B), (∀ a b, P a b → f b = f a) → f <$> Find nr targetID = f <$> Find cur targetID) as Hsame.
  { intros B f Hfield. destruct H as [a b Hab|]; [|done]. cbn. f_equal. case_decide; [by apply Hfield|by subst]. }
  unfold held_pin, held_fingerprint. split_and!.
  - intros Ht%Hsame. destruct (Find cur targetID) as [[]|], (Find nr targetID) as [[]|]; cbn in Ht; by simplify_eq.
  - intros Ht%Hsame. destruct (Find cur targetID) as [[]|], (Find nr targetID) as [[]|]; cbn in Ht; by simplify_eq.
  - intros t Hid [i Hi]%list_elem_of_lookup. apply list_elem_of_lookup. exists i.
    destruct (Forall2_lookup_l _ _ _ _ _ Hf Hi) as (t' & Ht' & Heq). rewrite Ht'. case_decide; [done|by subst].
Qed.
Lemma table_change sub (cur nr : Roster) :
  only_differs_in targetID sub cur nr →
  (sub ≠ "tls" → held_pin nr targetID = held_pin cur targetID) ∧
  (sub ≠ "ssh" → held_fingerprint nr targetID = held_fingerprint cur targetID) ∧
  ∀ t, tg_ID t ≠ targetID → t ∈ cur → t ∈ nr.
Proof.
  intros H. destruct (target_change _ _ _ H) as (Hp & Hs & Ho); [by intros a b [? _]|].
  unfold differs_in in *. split_and!; [| |done]; intros Hsub; [apply Hp|apply Hs]; intros a b; naive_solver.
Qed.
(** What a write makes of the pins. *)
Definition pins_written (w : writer) (cur nr : Roster) : Prop :=
  match w with
  | WTLS old next _ => held_pin cur targetID = old ∧ held_pin nr targetID = next
  | _ => held_pin nr targetID = held_pin cur targetID
  end ∧
  match w with
  | WSSH w => held_fingerprint nr targetID = w_HostKeyFingerprint w
  | WReplaceSSH old w => held_fingerprint cur targetID = old ∧ held_fingerprint nr targetID = w_HostKeyFingerprint w
  | _ => held_fingerprint nr targetID = held_fingerprint cur targetID
  end ∧
  ∀ t, tg_ID t ≠ targetID → t ∈ cur → t ∈ nr.
Lemma intended_pins w cur nr : intended targetID w cur nr → pins_written w cur nr.
Proof.
  unfold pins_written. destruct w as [i s|w|old w|old next source| |m|t]; cbn [intended].
  - intros (? & ? & ?)%table_change. auto.
  - intros [(? & ? & ?)%table_change ?]. auto.
  - intros ((? & ? & ?)%table_change & _ & ? & ?). auto.
  - intros ((? & ? & ?)%table_change & ? & ? & _). auto.
  - intros [(? & ? & ?)%table_change _]. auto.
  - intros H. destruct (target_change _ _ _ H) as (Hp & Hs & Ho); [by intros a b [? _]|].
    unfold differs_in_fields in *. split_and!; [apply Hp; naive_solver|apply Hs; naive_solver|done].
  - intros (t' & -> & _ & _ & Hs & Ht & _). unfold held_pin, held_fingerprint. rewrite Find_app. destruct t'; cbn in *; subst.
    destruct (Find cur targetID); [|destruct (eqb _ _)]; split_and!; try done; intros x _ Hx; rewrite elem_of_app; by left.
Qed.
(** A relation of rosters that every write asked for keeps, the run keeps. *)
Lemma evolves_keeps (K : Roster → Roster → Prop) old ws new :
  (∀ r, K r r) → (∀ r1 r2 r3, K r1 r2 → K r2 r3 → K r1 r3) →
  (∀ w cur nr, w ∈ ws → pins_written w cur nr → K cur nr) →
  evolves old ws new → new = old ∨ ∃ cur nr, Decode old = Ok cur ∧ Decode new = Ok nr ∧ K cur nr.
Proof.
  intros Hrefl Htrans Hw He. induction He as [|old cur w mid next ws new Hc Hm Hi _ IH]; [by left|]. right.
  assert (K cur next) as Hk by (apply (Hw w); [by left|by apply intended_pins]).
  destruct IH as [->|(cur' & nr & Hc' & Hn & Hk')]; [intros; eapply Hw; [by right|done]|by exists cur, next|].
  exists cur, nr. split_and!; [done..|]. rewrite Hm in Hc'. injection Hc' as <-. eauto.
Qed.
End pins.

Section bootstrap.
Context (pem_Decode : string → option (string * string * string)) (x509_key : string → option string) (sha256 : string → string).
Context (unmarshal : string → res Roster) (parse : string → list expr * option err) (o : BootOptions).
Local Notation captured := (captured pem_Decode x509_key sha256).
Local Notation Decode := (Decode unmarshal parse).
Local Notation id := (boot_id o).
(** The operator named the host's key or takes it on first use, or the roster pinned one. *)
Definition host_trusted (tr : list (event fileE)) : Prop :=
  HostKeyFingerprint o ≠ "" ∨ SSHTOFU o = true ∨ ∃ r, read_as unmarshal parse r tr ∧ held_fingerprint r id ≠ "".
(** What a bootstrap whose exchanges are [tr] may have made of the roster [cur]. *)
Definition roster_after_boot (tr : list (event fileE)) (cur nr : Roster) : Prop :=
  (∀ t, tg_ID t ≠ id → t ∈ cur → t ∈ nr) ∧
  (held_pin nr id = held_pin cur id ∨
   host_trusted tr ∧ (∃ s, captured s (CapturePort o) (held_pin nr id) (other_of tr)) ∧
   (held_pin cur id = "" ∨ Reprovisioned o = true ∧ HostKeyFingerprint o ≠ "")) ∧
  (held_fingerprint nr id = held_fingerprint cur id ∨ shown o (other_of tr) (held_fingerprint nr id)).
Lemma roster_after_boot_trans tr r1 r2 r3 :
  roster_after_boot tr r1 r2 → roster_after_boot tr r2 r3 → roster_after_boot tr r1 r3.
Proof.
  intros (Ho & Hp & Hf) (Ho' & Hp' & Hf'). split_and!; [by auto| |].
  - destruct Hp as [Hp|(? & ? & Hr)]; [by rewrite <- Hp|]. right.
    destruct Hp' as [->|(? & ? & _)]; by split_and!.
  - destruct Hf' as [->|?]; [done|by right].
Qed.
Lemma passed_on_in e (evs : list (event bootE)) : e ∈ evs → passed_on e = Some e → e ∈ omap passed_on evs.
Proof. intros He Hp. apply list_elem_of_omap. eauto. Qed.
Lemma captured_other s port pin evs : captured s port pin evs → captured s port pin (omap passed_on evs).
Proof. intros (x & ? & ?). exists x. split; [by apply passed_on_in|done]. Qed.
Lemma shown_other evs fp : shown o evs fp → shown o (omap passed_on evs) fp.
Proof.
  intros [(a & u & pw & l & ?)|(a & u & pw & s & ?)];
    [left; exists a, u, pw, l|right; exists a, u, pw, s]; by apply passed_on_in.
Qed.
Lemma host_vouched_trusted evs tr :
  (∀ r, Ev BLoad (Ok r) ∈ evs → read_as unmarshal parse r tr) → host_vouched o evs → host_trusted tr.
Proof.
  intros Hr [?|[?|(fp & r & tg & Hin & Hf & <- & Hne)]]; [by left|by right; left|]. right. right.
  exists r. split; [by apply Hr|]. unfold held_fingerprint. rewrite Hf. by destruct tg as [? ? ? ? ? ? ? [a|] ?].
Qed.
(** A write of an allowed question changes the roster as allowed. *)
Lemma allowed_write evs tr pre ev post w cur nr :
  over_file unmarshal parse id evs tr → evs = pre ++ ev :: post →
  match ev with Ev e _ => allowed pem_Decode x509_key sha256 o pre _ e end →
  done_write ev = Some w → pins_written id w cur nr → roster_after_boot tr cur nr.
Proof.
  intros (Hother & Hread & _) -> Ha Hw (Hp & Hf & Ho). unfold roster_after_boot. rewrite Hother.
  assert (∀ fp, shown o pre fp → shown o (omap passed_on (pre ++ ev :: post)) fp) as Hshown
    by (intros; by apply shown_other, shown_app).
  assert (∀ a u pw line fp, Ev (BInstall a u pw line (HostKeyFingerprint o)) (Ok fp) ∈ pre → shown o pre fp) as Hput
    by (intros a u pw line fp ?; left; by exists a, u, pw, line).
  destruct ev as [R e r]. unfold done_write in Hw. destruct e; cbn [asked_write] in Hw; try done; destruct (is_ok r); try done;
    injection Hw as <-; cbn in Ha, Hp, Hf; (split; [done|]).
  all: try (split; left; done).
  - split; [by left|]. right. rewrite Hf. destruct Ha as (_ & a & pw & Ha). by eapply Hshown, Hput.
  - split; [by left|]. right. destruct Hf as [_ ->]. destruct Ha as (_ & _ & _ & _ & _ & a & pw & Ha). by eapply Hshown, Hput.
  - split; [|by left]. right. destruct Ha as (Hv & (s & fp & _ & Hs & _) & Hold), Hp as [-> ->]. split_and!; [|exists s|done].
    + eapply host_vouched_trusted; [exact Hread|by apply host_vouched_app].
    + by apply captured_other, captured_app.
Qed.
End bootstrap.

Lemma atomicWrite_total data : total (atomicWrite data).
Proof. unfold atomicWrite, write_temp. totally. Qed.
Lemma over_roster_total NewScryptIdentity age_Decrypt unmarshal parse path targetID R (e : bootE R) p :
  total (over_roster NewScryptIdentity age_Decrypt unmarshal parse path targetID R e p).
Proof.
  assert (∀ new, total (write_back path new)) as Hwrite by (intros; unfold write_back; totally; apply atomicWrite_total).
  assert (∀ w, total (run_writer NewScryptIdentity age_Decrypt unmarshal parse path targetID w p)) as Hw.
  { intros [i s|w|old w|old next source| |m|t]; cbn [run_writer];
    unfold WriteTokenAuth, WriteSSHAuth, ReplaceSSHAuth, writeSSHAuth, WriteTLSPin, spliceSubtable, spliceSubtableIf, no_proof,
      ClearTokenAuth, UpdateTargetFields, AppendTarget, compose_subtable, locked, locked_as, read_roster; totally; try apply Hwrite. }
  destruct e; cbn [over_roster]; try (by apply total_lift, Hw); totally; try apply total_lift;
    unfold Load, Prove, Load, DryRunTokenWrite, ProbeRosterDir, read_roster; totally.
Qed.

(** * Properties *)
(** C8: a bootstrap over the roster file, whose every read and write is the code's, always
    ends; and at each moment of each run in which nobody else writes the file, so also if the
    process dies there, the file is whole, and holds its old text or one that decodes to a
    roster that keeps the other targets as they were; the TLS pin of the target is the old
    one, or was captured in this run from the node's own certificate, in a run for which the
    operator named the host's key or accepted first use, or that read a roster with a host
    key pin, and replaces another only in a --reprovisioned run with a host key from the
    operator; its host key pin is the old one, or a key the host showed in this run, when it
    was dialed with the key the operator named, if he named one. *)
Theorem Run_keeps_roster pem_Decode x509_key sha256 NewScryptIdentity age_Decrypt unmarshal parse path o p :
  let m := interp (over_roster NewScryptIdentity age_Decrypt unmarshal parse path (boot_id o)) (Run pem_Decode x509_key sha256 o) p in
  total m ∧ always m
    (λ tr _, ∀ old, faithful ∅ old (roster_of tr) → ∀ pre post, tr = pre ++ post →
      ∃ new, content old (roster_of pre) = Some new ∧
        (new = old ∨ ∃ cur nr, Decode unmarshal parse old = Ok cur ∧ Decode unmarshal parse new = Ok nr ∧
           roster_after_boot pem_Decode x509_key sha256 unmarshal parse o tr cur nr)).
Proof.
  split; [eapply total_interp; [intros; apply over_roster_total|apply asks_any|apply Run_total]|].
  eapply always_mono; [|apply over_roster_run, abides_always, Run_holds].
  intros tr rs (evs & [_ Hallowed] & Hover) old Hf pre post Htr. pose proof Hover as (_ & _ & Hhist).
  destruct (Hhist old Hf pre post Htr) as (ws & new & Hsub & Hc & He). exists new. split; [done|].
  eapply evolves_keeps; [intros r; by split_and!; [|left|left]|apply roster_after_boot_trans| |exact He].
  intros w cur nr Hw. eapply elem_of_sublist in Hw; [|exact Hsub]. apply list_elem_of_omap in Hw as (ev & Hin & Hdone).
  apply list_elem_of_split in Hin as (e1 & e2 & ->). intros Hp. eapply allowed_write; [exact Hover|done|by eapply Hallowed|done..].
Qed.

(** * Examples *)
(** A first run for a new target, in the lab's file system, where the SSH table cannot be
    spliced: the target is appended, and the key installed is removed again. *)
Definition lab_over : env fileE ((string * string) * bool) := λ R e '(fs, locked),
  match e in fileE R return R * ((string * string) * bool) with
  | FRoster e => let '(r, fs) := lab_fs false _ e fs in (r, (fs, locked))
  | FOther e => let '(r, locked) := lab_boot false false true _ e locked in (r, (fs, locked))
  end.
Definition new_target_options : BootOptions :=
  let o := lab_boot_options lab_fp in
  {| base := {| TargetID_ := "lab"; Host := "h"; Node_ := "n"; APIPort := 0; InsecureTLS := false; TLSPin := ""; TokenOwner := "";
                TokenID := "t1" |};
     SSHPort := 0; tlsSource := ""; PVEUsername := "root"; PVEPassword := "pw"; NoSSHKey := false; HostKeyFingerprint := lab_fp;
     Reprovisioned := false; SSHTOFU := false; CapturePort := 0; opt_Grants := opt_Grants o; RosterPath := "r.toml";
     opt_Passphrase := opt_Passphrase o |}.
Definition lab_over_run :=
  match run lab_over (interp (over_roster (λ _, None) (λ _ _, Er (errorf "no age")) lab_unmarshal (λ _, ([], None)) "r.toml" "lab")
    (Run toy_pem Some toy_sha256 new_target_options) (NewPassphrase "pw")) (("", ""), false) with
  | Some (tr, (out, _), ((roster, _), _)) => Some (roster, renames ∅ (roster_of tr), bool_decide (is_Some out.2))
  | None => None
  end.
Example new_target_appended : lab_over_run = Some (lab_text, [Some lab_text], true).
Proof. vm_compute. reflexivity. Qed.
