(* ===== verification/Keys.v ===== *)
(** internal/bootstrap/keys.go: which keys pveforge installed on a node, and which of them no
    roster holds. *)
From Stdlib Require Import Ascii.
From S2P Require Import Prelude GoLib Errors ShellQuote Rest OpRun Client Remote RootAccess Roster Bootstrap.

Definition PveforgeKeyCommentPrefix : string := "pveforge@".
Definition AuthorizedKeysReadCmd : string :=
  "f=~/.ssh/authorized_keys; if [ -e " +:+ dq +:+ "$f" +:+ dq +:+ " ] || [ -L " +:+ dq +:+ "$f" +:+ dq +:+ " ]; then cat "
    +:+ dq +:+ "$f" +:+ dq +:+ "; fi".
Definition AuthorizedKeys : io rootE (res (list string)) :=
  let? r := trigger (accessE AuthorizedKeysReadCmd) orelse id in
  Ret (if bool_decide (ExitCode r = 0%Z) then Ok (Split (byte 10) (Stdout r))
       else Er (errorf ("read root's authorized_keys: exit " +:+ itoa (ExitCode r) +:+ ": " +:+ trim_space (Stderr r)))).

Record RosterKeys := { rk_Path : string; Held : gmap string (list string); Unparsed : list string }.
Record KeyLine :=
  { kl_Comment : string; kl_Fingerprint : string; HeldBy : list string; Stray : bool; RemoveCommand : string;
    RemoveCommandWithheld : string }.
Section keys.
(** x/crypto/ssh: the key of a line, in its wire format, and the line's comment; a key's
    fingerprint. *)
Context (ParseAuthorizedKey : string → option (string * string)) (FingerprintSHA256 : string → string).
Definition target_key (a : SSHAuth) : option string := fst <$> ParseAuthorizedKey (trim_space (PublicKey a)).
Definition add_target (rk : RosterKeys) (t : Target) : RosterKeys :=
  match tg_SSH t with
  | None => rk
  | Some a =>
      match target_key a with
      | None => {| rk_Path := rk_Path rk; Held := Held rk; Unparsed := Unparsed rk ++ [tg_ID t] |}
      | Some blob =>
          {| rk_Path := rk_Path rk; Held := <[blob := default [] (Held rk !! blob) ++ [tg_ID t]]> (Held rk); Unparsed := Unparsed rk |}
      end
  end.
Definition RosterKeysOf (path : string) (r : Roster) : RosterKeys :=
  foldl add_target {| rk_Path := path; Held := ∅; Unparsed := [] |} r.
Definition named (rk : RosterKeys) (ids : list string) : list string := (λ id, rk_Path rk +:+ ":" +:+ id) <$> ids.
Definition Unverifiable (rosters : list RosterKeys) : list string := rosters ≫= λ rk, named rk (Unparsed rk).
Definition held_by (rosters : list RosterKeys) (blob : string) : list string :=
  rosters ≫= λ rk, named rk (default [] (Held rk !! blob)).
(** A line that is a key pveforge installed: the key and its comment. *)
Definition pveforge_key (raw : string) : option (string * string) :=
  let line := trim_space raw in
  if eqb line "" || has_prefix "#" line then None
  else match ParseAuthorizedKey line with
       | Some (blob, comment) => if has_prefix PveforgeKeyCommentPrefix comment then Some (blob, comment) else None
       | None => None
       end.
Definition key_line (rosters : list RosterKeys) (raw : string) : option KeyLine :=
  match pveforge_key raw with
  | None => None
  | Some (blob, comment) =>
      let by_ := held_by rosters blob in
      let k cmd withheld :=
        Some {| kl_Comment := comment; kl_Fingerprint := FingerprintSHA256 blob; HeldBy := by_; Stray := bool_decide (by_ = []);
                RemoveCommand := cmd; RemoveCommandWithheld := withheld |} in
      match by_ with
      | [] =>
          match Unverifiable rosters with
          | _ :: _ =>
              k "" ("a roster target's public_key does not parse (" +:+ Join ", " (Unverifiable rosters)
                +:+ "), so whether this line is its live key cannot be told; fix that public_key, then report again")
          | [] =>
              match ManualKeyRemovalCommand raw with
              | Er _ => k "" "its line holds a carriage return (a CRLF file), so no whole-line match can name it exactly; remove it by hand"
              | Ok cmd => k cmd ""
              end
          end
      | _ => k "" ""
      end
  end.
Definition KeyReport (lines : list string) (rosters : list RosterKeys) : list KeyLine := omap (key_line rosters) lines.

(** * Specification *)
(** [name] is "<roster>:<target>" of a target whose public key satisfies [P]. *)
Definition target_where (rosters : list (string * Roster)) (P : option string → Prop) (name : string) : Prop :=
  ∃ path r t a, (path, r) ∈ rosters ∧ t ∈ r ∧ tg_SSH t = Some a ∧ P (target_key a) ∧ name = path +:+ ":" +:+ tg_ID t.
Definition holds (rosters : list (string * Roster)) (blob : string) : string → Prop := target_where rosters (λ k, k = Some blob).
Definition unreadable (rosters : list (string * Roster)) : string → Prop := target_where rosters (λ k, k = None).
(** What the report says of the line [raw], which is the key [blob]. *)
Definition judged (rosters : list (string * Roster)) (raw blob : string) (k : KeyLine) : Prop :=
  pveforge_key raw = Some (blob, kl_Comment k) ∧ kl_Fingerprint k = FingerprintSHA256 blob ∧
  (∀ name, name ∈ HeldBy k ↔ holds rosters blob name) ∧
  (Stray k = true ↔ ∀ name, ¬ holds rosters blob name) ∧
  (RemoveCommand k ≠ "" ↔ Stray k = true ∧ (∀ name, ¬ unreadable rosters name) ∧ is_ok (checkKeyLine raw) = true) ∧
  (RemoveCommand k ≠ "" →
     sh_tokens (RemoveCommand k) = Some [Word "sh"; Word "-c"; Word (Join "; " (removeKeyCommands raw))]) ∧
  (Stray k = true → RemoveCommand k = "" → RemoveCommandWithheld k ≠ "").

(** * Lemmas *)
(** The targets of a roster whose public key satisfies [p]. *)
Definition ids_where (p : option string → bool) (r : Roster) : list string :=
  omap (λ t, match tg_SSH t with Some a => if p (target_key a) then Some (tg_ID t) else None | None => None end) r.
Lemma elem_of_ids p r id :
  id ∈ ids_where p r ↔ ∃ t a, t ∈ r ∧ tg_SSH t = Some a ∧ p (target_key a) = true ∧ id = tg_ID t.
Proof.
  unfold ids_where. rewrite list_elem_of_omap. split.
  - intros (t & Hin & H). destruct (tg_SSH t) as [a|] eqn:Ha; [|done]. destruct (p (target_key a)) eqn:Hp; [|done].
    injection H as <-. by exists t, a.
  - intros (t & a & Hin & Ha & Hp & ->). exists t. by rewrite Ha, Hp.
Qed.
Lemma roster_keys_go r rk :
  let out := foldl add_target rk r in
  rk_Path out = rk_Path rk ∧
  (∀ blob, default [] (Held out !! blob) = default [] (Held rk !! blob) ++ ids_where (λ k, bool_decide (k = Some blob)) r) ∧
  Unparsed out = Unparsed rk ++ ids_where (λ k, bool_decide (k = None)) r.
Proof.
  cbv zeta. revert rk. induction r as [|t r IH]; intros rk; cbn [foldl]; [by split_and!; [|intros ?|]; rewrite ?app_nil_r|].
  destruct (IH (add_target rk t)) as (-> & Hheld & ->). unfold add_target, ids_where in *. cbn [omap list_omap].
  destruct (tg_SSH t) as [a|]; [|by split_and!]. destruct (target_key a) as [blob|]; cbn [rk_Path Unparsed Held] in *.
  - split_and!; [done| |done]. intros blob'. rewrite Hheld. destruct (decide (blob = blob')) as [->|Hne].
    + rewrite lookup_insert_eq. cbn. by rewrite <- app_assoc, bool_decide_true.
    + rewrite lookup_insert_ne by done. rewrite bool_decide_false; [done|]. by intros [= ->].
  - split_and!; [done|done|]. by rewrite <- app_assoc.
Qed.
Lemma RosterKeysOf_held path r blob :
  default [] (Held (RosterKeysOf path r) !! blob) = ids_where (λ k, bool_decide (k = Some blob)) r.
Proof. unfold RosterKeysOf. destruct (roster_keys_go r {| rk_Path := path; Held := ∅; Unparsed := [] |}) as (_ & H & _). rewrite H. cbn [Held]. by rewrite lookup_empty. Qed.
Lemma RosterKeysOf_unparsed path r : Unparsed (RosterKeysOf path r) = ids_where (λ k, bool_decide (k = None)) r.
Proof. apply (roster_keys_go r {| rk_Path := path; Held := ∅; Unparsed := [] |}). Qed.
Lemma RosterKeysOf_path path r : rk_Path (RosterKeysOf path r) = path.
Proof. apply (roster_keys_go r {| rk_Path := path; Held := ∅; Unparsed := [] |}). Qed.
Definition keys_of (rosters : list (string * Roster)) : list RosterKeys := (λ pr, RosterKeysOf pr.1 pr.2) <$> rosters.
Lemma named_where rosters (P : option string → Prop) `{!∀ k, Decision (P k)} (f : RosterKeys → list string) name :
  (∀ path r, f (RosterKeysOf path r) = ids_where (λ k, bool_decide (P k)) r) →
  name ∈ (keys_of rosters ≫= λ rk, named rk (f rk)) ↔ target_where rosters P name.
Proof.
  intros Hf. unfold keys_of, target_where, named. rewrite list_elem_of_bind. split.
  - intros (rk & (id & -> & Hid)%list_elem_of_fmap & ([path r] & -> & Hin)%list_elem_of_fmap). cbn [fst snd] in *.
    rewrite Hf in Hid. apply elem_of_ids in Hid as (t & a & ? & ? & Hp & ->). apply bool_decide_eq_true in Hp.
    exists path, r, t, a. by rewrite RosterKeysOf_path.
  - intros (path & r & t & a & Hin & Ht & Ha & Hp & ->). exists (RosterKeysOf path r). split.
    + apply list_elem_of_fmap. exists (tg_ID t). rewrite RosterKeysOf_path, Hf. split; [done|].
      apply elem_of_ids. exists t, a. by rewrite bool_decide_true.
    + apply list_elem_of_fmap. by exists (path, r).
Qed.
Lemma held_by_holds rosters blob name : name ∈ held_by (keys_of rosters) blob ↔ holds rosters blob name.
Proof. apply (named_where rosters (λ k, k = Some blob) (λ rk, default [] (Held rk !! blob))). intros. apply RosterKeysOf_held. Qed.
Lemma Unverifiable_unreadable rosters name : name ∈ Unverifiable (keys_of rosters) ↔ unreadable rosters name.
Proof. apply (named_where rosters (λ k, k = None) Unparsed). apply RosterKeysOf_unparsed. Qed.
Lemma none_in {A} (l : list A) : (∀ x, x ∉ l) ↔ l = [].
Proof. split; [destruct l as [|x l]; [done|]; intros H; destruct (H x); by left|intros ->; apply not_elem_of_nil]. Qed.
Lemma sh_c_reads script : sh_tokens ("sh -c " +:+ ShellQuote script) = Some [Word "sh"; Word "-c"; Word script].
Proof.
  unfold sh_tokens. rewrite (sh_scan_app Between "sh -c " (ShellQuote script) Between [Word "sh"; Word "-c"]) by reflexivity.
  by rewrite sh_scan_quote.
Qed.
Lemma ManualKeyRemovalCommand_reads raw cmd :
  ManualKeyRemovalCommand raw = Ok cmd →
  cmd ≠ "" ∧ sh_tokens cmd = Some [Word "sh"; Word "-c"; Word (Join "; " (removeKeyCommands raw))].
Proof.
  unfold ManualKeyRemovalCommand. generalize (Join "; " (removeKeyCommands raw)). intros script. rewrite call_iff.
  intros (u & _ & [= <-]). split; [done|]. apply sh_c_reads.
Qed.
(** A key that comes with the command [cmd] or the reason why there is none. *)
Lemma judged_by rosters raw blob comment cmd withheld :
  let by_ := held_by (keys_of rosters) blob in
  pveforge_key raw = Some (blob, comment) →
  (cmd ≠ "" ↔ by_ = [] ∧ Unverifiable (keys_of rosters) = [] ∧ is_ok (checkKeyLine raw) = true) →
  (cmd ≠ "" → ManualKeyRemovalCommand raw = Ok cmd) → (by_ = [] → cmd = "" → withheld ≠ "") →
  judged rosters raw blob
    {| kl_Comment := comment; kl_Fingerprint := FingerprintSHA256 blob; HeldBy := by_; Stray := bool_decide (by_ = []);
       RemoveCommand := cmd; RemoveCommandWithheld := withheld |}.
Proof.
  cbv zeta. intros Hk Hcmd Hread Hwith. unfold judged. cbn [kl_Comment kl_Fingerprint HeldBy Stray RemoveCommand RemoveCommandWithheld].
  rewrite bool_decide_eq_true. setoid_rewrite <- held_by_holds. setoid_rewrite <- Unverifiable_unreadable. rewrite !none_in.
  split_and!; try done. intros Hne. by apply ManualKeyRemovalCommand_reads, Hread.
Qed.
Lemma key_line_judged rosters raw k : key_line (keys_of rosters) raw = Some k → ∃ blob, judged rosters raw blob k.
Proof.
  unfold key_line. destruct (pveforge_key raw) as [[blob comment]|] eqn:Hk; [|done]. intros H. exists blob. cbv zeta in H.
  assert (∀ cmd withheld, _) as Hj by exact (λ cmd withheld, judged_by rosters raw blob comment cmd withheld Hk). cbv zeta in Hj.
  destruct (held_by (keys_of rosters) blob) as [|n l].
  2: { injection H as <-. apply (Hj "" ""); [|done..]. by split; [|intros (? & _)]. }
  destruct (Unverifiable (keys_of rosters)) as [|n l].
  2: { injection H as <-. apply (Hj ""); [|done..]. by split; [|intros (_ & ? & _)]. }
  destruct (ManualKeyRemovalCommand raw) as [cmd|e] eqn:Hm; injection H as <-; apply Hj; try done.
  - destruct (ManualKeyRemovalCommand_reads _ _ Hm) as [Hne _]. split; [|done]. intros _. split_and!; [done..|].
    revert Hm. unfold ManualKeyRemovalCommand. by destruct (checkKeyLine raw).
  - intros _ Hc. destruct (ManualKeyRemovalCommand_reads _ _ Hm) as [Hne _]. done.
  - split; [done|]. intros (_ & _ & Hok). revert Hm. unfold ManualKeyRemovalCommand. by destruct (checkKeyLine raw).
Qed.
End keys.

(** * Properties *)
(** The key report lists exactly the lines that are keys pveforge installed, and judges
    each: it is held by the targets of the rosters checked whose public key is the same key; a
    stray is one that none of them holds; and it comes with a removal command only if no roster
    checked has a public key that cannot be read, one that the shell reads as a script made for
    that very line. *)
Theorem KeyReport_judges parse fingerprint lines rosters :
  let report := KeyReport parse fingerprint lines (keys_of parse rosters) in
  (∀ k, k ∈ report → ∃ raw blob, raw ∈ lines ∧ judged parse fingerprint rosters raw blob k) ∧
  (∀ raw blob comment, raw ∈ lines → pveforge_key parse raw = Some (blob, comment) →
     ∃ k, k ∈ report ∧ judged parse fingerprint rosters raw blob k).
Proof.
  cbv zeta. unfold KeyReport. split.
  - intros k (raw & Hin & Hk)%list_elem_of_omap. destruct (key_line_judged _ _ _ _ _ Hk) as [blob Hj]. by exists raw, blob.
  - intros raw blob comment Hin Hkey.
    destruct (key_line parse fingerprint (keys_of parse rosters) raw) as [k|] eqn:Hk.
    + exists k. split; [apply list_elem_of_omap; by exists raw|]. destruct (key_line_judged _ _ _ _ _ Hk) as [blob' Hj].
      assert (blob' = blob) as ->; [|done]. destruct Hj as [Hj _]. rewrite Hkey in Hj. by injection Hj as <-.
    + exfalso. unfold key_line in Hk. rewrite Hkey in Hk. by repeat case_match.
Qed.

(** * Examples *)
Definition toy_key (line : string) : option (string * string) := cut (byte 32) line.
Definition toy_roster (key : string) : list (string * Roster) :=
  [("r.toml", [{| tg_ID := "lab"; tg_Host := "h"; tg_Node := "n"; tg_APIPort := 0; tg_InsecureTLS := false; Export_ := ""; Token := None;
     tg_SSH := Some {| ssh_User := "root"; PublicKey := key; HostKeyFingerprint_ := ""; PrivateKeyEnc := ""; HostKeySource := "" |};
     TLS := None |}])].
Definition toy_report (key : string) : list (string * list string * bool * bool) :=
  (λ k, (kl_Fingerprint k, HeldBy k, Stray k, negb (eqb (RemoveCommand k) ""))) <$>
  KeyReport toy_key id ["k1 pveforge@lab"; "k2 pveforge@old"; "k3 admin@desk"; "# k4 pveforge@x"; "k5 pveforge@crlf" +:+ chr 13]
    (keys_of toy_key (toy_roster key)).
Example keys_reported :
  toy_report "k1 pveforge@lab" = [("k1", ["r.toml:lab"], false, false); ("k2", [], true, true); ("k5", [], true, false)].
Proof. vm_compute. reflexivity. Qed.
Example keys_unverifiable : toy_report "k1" = [("k1", [], true, false); ("k2", [], true, false); ("k5", [], true, false)].
Proof. vm_compute. reflexivity. Qed.
