(* ===== verification/Inventory.v ===== *)
(** internal/bootstrap/inventory.go: the users, groups and ACL entries of a cluster, joined, with
    the node's accounts of its @pam users. *)
From Stdlib Require Import Ascii.
From S2P Require Import Prelude GoLib Errors Json ShellQuote Rest OpRun Client Remote AccessLists RootAccess.

Definition OSAccountFound : string := "found".
Definition OSAccountAbsent : string := "absent".
Definition OSAccountNotPAM : string := "not-pam".
Definition OSAccountUnchecked : string := "unchecked".
Record InventoryACL :=
  { ia_Path : string; ia_Role : string; ia_Type : string; ia_UGID : string; ia_Propagate : bool; Via : string;
    ia_Escalating : list string }.
Record OSAccount := { os_Name : string; UID : Z; GID : Z; Home : string; Shell : string }.
Record InventoryUser :=
  { iu_UserID : string; Realm : string; Enabled : bool; iu_Comment : string; iu_Email : string; iu_Groups : list string;
    iu_ACLs : list InventoryACL; OSAccount_ : option OSAccount; OSAccountStatus : string }.
Record InventoryGroup :=
  { ig_GroupID : string; ig_Comment : string; Members : option (list string); ig_ACLs : list InventoryACL }.
Record AccessInventory := { Users : list InventoryUser; Groups : list InventoryGroup; ACLs : list InventoryACL }.

(** ** Membership *)
Definition by_group (groups : list AccessGroup) : gmap string AccessGroup := foldl (λ m g, <[ag_GroupID g := g]> m) ∅ groups.
Definition by_user (users : list AccessUser) : gmap string AccessUser := foldl (λ m u, <[au_UserID u := u]> m) ∅ users.
(** The first error of a list of checks. *)
Fixpoint check_all {A} (f : A → res unit) (l : list A) : res unit :=
  match l with [] => Ok tt | x :: l' => let^ _ := f x orelse id in check_all f l' end.
Definition groups_listed (u : AccessUser) : res unit :=
  guard^ GroupsListed u orelse
    unver ("the user list carries no groups field for " +:+ au_UserID u +:+ ", so the groups it holds ACLs through are unknown") in
  Ok tt.
Definition check_user_group (groups : gmap string AccessGroup) (u : AccessUser) (g : string) : res unit :=
  let puts := "the user list puts " +:+ au_UserID u +:+ " in group " +:+ g in
  match groups !! g with
  | None => Er (unver (puts +:+ ", which the group list does not have"))
  | Some grp =>
      guard^ negb (UsersListed grp && negb (bool_decide (au_UserID u ∈ ag_Users grp))) orelse
        unver (puts +:+ ", whose members do not include it") in
      Ok tt
  end.
Definition check_group_member (users : gmap string AccessUser) (g : AccessGroup) (m : string) : res unit :=
  let lists := "group " +:+ ag_GroupID g +:+ " lists member " +:+ m in
  match users !! m with
  | None => Er (unver (lists +:+ ", which the user list does not have"))
  | Some u =>
      guard^ bool_decide (ag_GroupID g ∈ au_Groups u) orelse unver (lists +:+ ", whose groups do not include it") in Ok tt
  end.
Definition checkMembership (users : list AccessUser) (groups : list AccessGroup) : res unit :=
  let^ _ := check_all groups_listed users orelse id in
  let^ _ := check_all (λ u, check_all (check_user_group (by_group groups) u) (au_Groups u)) users orelse id in
  check_all (λ g, check_all (check_group_member (by_user users) g) (ag_Users g)) groups.

(** ** The node's accounts *)
Definition numericKey (name : string) : bool :=
  let d := match cut_prefix "+" name with Some r => r | None => name end in negb (eqb d "") && all_bytes is_digit d.
Definition user_name (id : string) : string := match cut (byte 64) id with Some (name, _) => name | None => id end.
Definition user_realm (id : string) : string := match cut (byte 64) id with Some (_, realm) => realm | None => "" end.
Fixpoint account_names (ids : list string) (names : list string) : res (list string) :=
  match ids with
  | [] => Ok names
  | i :: ids' =>
      let^ _ := CheckUserID i orelse id in
      let name := user_name i in
      account_names ids' (if bool_decide (name ∈ names) then names else names ++ [name])
  end.
Definition passwd_line (asked : list string) (out : gmap string OSAccount) (line : string) : res OSAccount :=
  match Split (byte 58) line with
  | [name; _; uid; gid; _; home; shell] =>
      guard^ bool_decide (name ∈ asked) orelse
        unver ("getent passwd printed account " +:+ quote name +:+ ", which was not asked for") in
      guard^ bool_decide (out !! name = None) orelse unver ("getent passwd printed account " +:+ quote name +:+ " twice") in
      let bad := Er (unver ("getent passwd: account " +:+ quote name +:+ " has uid " +:+ quote uid +:+ ", gid " +:+ quote gid)) in
      match atoi uid, atoi gid with
      | Some u, Some g =>
          if (u <? 0)%Z || (g <? 0)%Z then bad
          else Ok {| os_Name := name; UID := u; GID := g; Home := home; Shell := shell |}
      | _, _ => bad
      end
  | f => Er (unver ("getent passwd printed a line of " +:+ itoa (Z.of_nat (length f)) +:+ " fields, not 7"))
  end.
Fixpoint passwd_lines (asked : list string) (lines : list string) (out : gmap string OSAccount) : res (gmap string OSAccount) :=
  match lines with
  | [] => Ok out
  | l :: lines' =>
      let^ a := passwd_line asked out l orelse id in passwd_lines asked lines' (<[os_Name a := a]> out)
  end.
Definition parsePasswd (stdout : string) (asked : list string) : res (gmap string OSAccount) :=
  if eqb stdout "" then Ok ∅ else passwd_lines asked (Split (byte 10) (trim_newline stdout)) ∅.
Definition getent_cmd (names : list string) : string := "getent passwd -- " +:+ Join " " (ShellQuote <$> names).
Definition rootOSAccounts (pamUserIDs : list string) : io rootE (res (gmap string OSAccount)) :=
  let? names := Ret (account_names pamUserIDs []) orelse id in
  let? r := trigger (accessE (getent_cmd names)) orelse id in
  guard bool_decide (ExitCode r = 0%Z ∨ ExitCode r = 2%Z) orelse
    errorf ("getent passwd exited " +:+ itoa (ExitCode r) +:+ ": " +:+ trim_space (Stderr r)) in
  let? out := Ret (parsePasswd (Stdout r) names) orelse id in
  Ret (guard^ Bool.eqb (bool_decide (ExitCode r = 0%Z)) (bool_decide (size out = length names)) orelse
         unver ("getent passwd exited " +:+ itoa (ExitCode r) +:+ " but printed " +:+ itoa (Z.of_nat (size out)) +:+ " of the "
           +:+ itoa (Z.of_nat (length names)) +:+ " accounts asked for") in
       Ok out).

(** ** The inventory *)
Fixpoint inventory_acls (roles : gmap string (list string)) (acls : list ACLEntry) : res (list InventoryACL) :=
  match acls with
  | [] => Ok []
  | e :: acls' =>
      match roles !! acl_Role e with
      | None =>
          Er (unver (acl_Type e +:+ " " +:+ UGID e +:+ " holds role " +:+ acl_Role e +:+ " on " +:+ acl_Path e
            +:+ ", which the role list does not have"))
      | Some privs =>
          let^ rest := inventory_acls roles acls' orelse id in
          Ok ({| ia_Path := acl_Path e; ia_Role := acl_Role e; ia_Type := acl_Type e; ia_UGID := UGID e;
                 ia_Propagate := acl_Propagate e; Via := ""; ia_Escalating := escalating privs |} :: rest)
      end
  end.
Definition set_via (via : string) (e : InventoryACL) : InventoryACL :=
  {| ia_Path := ia_Path e; ia_Role := ia_Role e; ia_Type := ia_Type e; ia_UGID := ia_UGID e; ia_Propagate := ia_Propagate e;
     Via := via; ia_Escalating := ia_Escalating e |}.
Definition held (acls : list InventoryACL) (kind id via : string) : list InventoryACL :=
  set_via via <$> filter (λ e, ia_Type e = kind ∧ ia_UGID e = id) acls.
Definition inventory_user (acls : list InventoryACL) (u : AccessUser) : InventoryUser :=
  let realm := user_realm (au_UserID u) in
  {| iu_UserID := au_UserID u; Realm := realm; Enabled := au_Enabled u; iu_Comment := au_Comment u; iu_Email := au_Email u;
     iu_Groups := au_Groups u;
     iu_ACLs := held acls "user" (au_UserID u) "" ++ (au_Groups u ≫= λ g, held acls "group" g g);
     OSAccount_ := None;
     OSAccountStatus := if eqb realm "pam" then if numericKey (user_name (au_UserID u)) then OSAccountUnchecked else OSAccountAbsent
                        else OSAccountNotPAM |}.
Definition inventory_group (acls : list InventoryACL) (g : AccessGroup) : InventoryGroup :=
  {| ig_GroupID := ag_GroupID g; ig_Comment := ag_Comment g; Members := if UsersListed g then Some (ag_Users g) else None;
     ig_ACLs := held acls "group" (ag_GroupID g) "" |}.
(** The users to look up on the node. *)
Definition looked_up (u : InventoryUser) : bool := eqb (OSAccountStatus u) OSAccountAbsent.
Definition with_account (accounts : gmap string OSAccount) (u : InventoryUser) : InventoryUser :=
  match (if looked_up u then accounts !! user_name (iu_UserID u) else None) with
  | Some a =>
      {| iu_UserID := iu_UserID u; Realm := Realm u; Enabled := Enabled u; iu_Comment := iu_Comment u; iu_Email := iu_Email u;
         iu_Groups := iu_Groups u; iu_ACLs := iu_ACLs u; OSAccount_ := Some a; OSAccountStatus := OSAccountFound |}
  | None => u
  end.
Definition Inventory : io rootE (res AccessInventory) :=
  let? users := rootUsers orelse id in
  let? groups := rootGroups orelse id in
  let? acls := rootACLs orelse id in
  let? roles := allRolePrivs orelse id in
  let? _ := Ret (checkMembership users groups) orelse id in
  let? acls := Ret (inventory_acls roles acls) orelse id in
  let us := inventory_user acls <$> users in
  let gs := inventory_group acls <$> groups in
  match iu_UserID <$> filter (λ u, looked_up u = true) us with
  | [] => Ret (Ok {| Users := us; Groups := gs; ACLs := acls |})
  | pam =>
      let? accounts := rootOSAccounts pam orelse id in
      Ret (Ok {| Users := with_account accounts <$> us; Groups := gs; ACLs := acls |})
  end.

(** * Specification *)
Definition lines (stdout : string) : list string := if eqb stdout "" then [] else Split (byte 10) (trim_newline stdout).
(** A line of getent's answer, and the account it describes. *)
Definition passwd_entry (line : string) (a : OSAccount) : Prop :=
  ∃ pw uid gid gecos, Split (byte 58) line = [os_Name a; pw; uid; gid; gecos; Home a; Shell a] ∧
    atoi uid = Some (UID a) ∧ atoi gid = Some (GID a) ∧ (0 ≤ UID a)%Z ∧ (0 ≤ GID a)%Z.
(** What the node's getent answered when it was asked for [name]. *)
Definition node_said (tr : list (event rootE)) (name : string) (r : Result_) : Prop :=
  ∃ names, name ∈ names ∧ Ev (accessE (getent_cmd names)) (Ok r) ∈ tr.
Definition has_account (tr : list (event rootE)) (name : string) (a : OSAccount) : Prop :=
  os_Name a = name ∧ ∃ r line, node_said tr name r ∧ line ∈ lines (Stdout r) ∧ passwd_entry line a.
Definition no_account (tr : list (event rootE)) (name : string) : Prop :=
  ∃ r, node_said tr name r ∧ ExitCode r = 2%Z ∧ ∀ line, line ∈ lines (Stdout r) → head (Split (byte 58) line) ≠ Some name.
(** The user list and the group list agree on who is in which group. *)
Definition consistent (users : list AccessUser) (groups : list AccessGroup) : Prop :=
  (∀ u g, u ∈ users → g ∈ au_Groups u → ∃ grp, grp ∈ groups ∧ ag_GroupID grp = g) ∧
  (∀ grp m, grp ∈ groups → m ∈ ag_Users grp → ∃ u, u ∈ users ∧ au_UserID u = m) ∧
  (∀ u grp, u ∈ users → grp ∈ groups → UsersListed grp = true → au_UserID u ∈ ag_Users grp ↔ ag_GroupID grp ∈ au_Groups u).
Definition flagged (roles : gmap string (list string)) (e : ACLEntry) (x : InventoryACL) : Prop :=
  ia_Path x = acl_Path e ∧ ia_Role x = acl_Role e ∧ ia_Type x = acl_Type e ∧ ia_UGID x = UGID e ∧
  ia_Propagate x = acl_Propagate e ∧ Via x = "" ∧
  ∃ privs, roles !! acl_Role e = Some privs ∧ ∀ p, p ∈ ia_Escalating x ↔ p ∈ EscalatingPrivileges ∧ p ∈ privs.
Definition names_acl (acls : list InventoryACL) (kind id via : string) (x : InventoryACL) : Prop :=
  ∃ e, e ∈ acls ∧ ia_Type e = kind ∧ ia_UGID e = id ∧ x = set_via via e.
Definition user_joined (acls : list InventoryACL) (u : AccessUser) (x : InventoryUser) : Prop :=
  iu_UserID x = au_UserID u ∧ iu_Groups x = au_Groups u ∧ Enabled x = au_Enabled u ∧
  ∀ e, e ∈ iu_ACLs x ↔ names_acl acls "user" (au_UserID u) "" e ∨ ∃ g, g ∈ au_Groups u ∧ names_acl acls "group" g g e.
Definition user_shown (tr : list (event rootE)) (acls : list InventoryACL) (u : AccessUser) (x : InventoryUser) : Prop :=
  let name := user_name (au_UserID u) in
  user_joined acls u x ∧
  match OSAccount_ x with
  | Some a => OSAccountStatus x = OSAccountFound ∧ user_realm (au_UserID u) = "pam" ∧ has_account tr name a
  | None =>
      OSAccountStatus x = OSAccountNotPAM ∧ user_realm (au_UserID u) ≠ "pam" ∨
      OSAccountStatus x = OSAccountUnchecked ∧ user_realm (au_UserID u) = "pam" ∧ numericKey name = true ∨
      OSAccountStatus x = OSAccountAbsent ∧ user_realm (au_UserID u) = "pam" ∧ no_account tr name
  end.
Definition group_shown (acls : list InventoryACL) (g : AccessGroup) (x : InventoryGroup) : Prop :=
  ig_GroupID x = ag_GroupID g ∧ Members x = (if UsersListed g then Some (ag_Users g) else None) ∧
  ∀ e, e ∈ ig_ACLs x ↔ names_acl acls "group" (ag_GroupID g) "" e.

(** * Lemmas *)
Lemma check_all_ok {A} (f : A → res unit) l : check_all f l = Ok tt ↔ ∀ x, x ∈ l → f x = Ok tt.
Proof.
  induction l as [|x l IH]; cbn [check_all]; [by split; [intros _ x ?%elem_of_nil|]|].
  setoid_rewrite elem_of_cons. destruct (f x) as [[]|e] eqn:Hf; cbn; [rewrite IH|split; [done|]].
  - split; [intros H y [->|?]; auto|auto].
  - intros H. rewrite <- Hf. symmetry. rewrite (H x (or_introl eq_refl)). by rewrite (H x) in Hf by auto.
Qed.
Lemma foldl_insert_lookup {A} (key : A → string) (l : list A) (m : gmap string A) k x :
  foldl (λ (m : gmap string A) x, <[key x := x]> m) m l !! k = Some x → m !! k = Some x ∨ x ∈ l ∧ key x = k.
Proof.
  revert m. induction l as [|y l IH]; intros m; cbn [foldl]; [by left|]. intros [H|[H ?]]%IH; [|by right; split; [right|]].
  apply lookup_insert_Some in H as [[<- <-]|[_ ?]]; [right; split; [left|]; done|by left].
Qed.
Lemma by_group_in groups k g : by_group groups !! k = Some g → g ∈ groups ∧ ag_GroupID g = k.
Proof. intros [?|?]%foldl_insert_lookup; [by rewrite lookup_empty in *|done]. Qed.
Lemma by_user_in users k u : by_user users !! k = Some u → u ∈ users ∧ au_UserID u = k.
Proof. intros [?|?]%foldl_insert_lookup; [by rewrite lookup_empty in *|done]. Qed.
(** Equal keys are those of one element. *)
Lemma NoDup_key {A} (key : A → string) l x y : NoDup (key <$> l) → x ∈ l → y ∈ l → key x = key y → x = y.
Proof.
  intros Hn [i Hi]%list_elem_of_lookup [j Hj]%list_elem_of_lookup He.
  assert (i = j) as ->; [|congruence]. eapply NoDup_lookup; [exact Hn|rewrite list_lookup_fmap, Hi; done|]. rewrite list_lookup_fmap, Hj. cbn. by rewrite He.
Qed.
Lemma checkMembership_consistent users groups :
  NoDup (au_UserID <$> users) → NoDup (ag_GroupID <$> groups) → checkMembership users groups = Ok tt → consistent users groups.
Proof.
  intros Hnu Hng. unfold checkMembership. rewrite call_iff. intros ([] & _ & H). rewrite call_iff in H.
  destruct H as ([] & Hu & Hg). rewrite check_all_ok in Hu. rewrite check_all_ok in Hg. setoid_rewrite check_all_ok in Hu. setoid_rewrite check_all_ok in Hg.
  assert (∀ u g, u ∈ users → g ∈ au_Groups u → ∃ grp, grp ∈ groups ∧ ag_GroupID grp = g ∧
    (UsersListed grp = true → au_UserID u ∈ ag_Users grp)) as Hu'.
  { intros u g Hin Hgr. specialize (Hu u Hin g Hgr). unfold check_user_group in Hu.
    destruct (by_group groups !! g) as [grp|] eqn:Hlook; [|done]. apply by_group_in in Hlook as [? ?]. exists grp.
    split_and!; [done..|]. intros Hl. rewrite Hl in Hu. cbn in Hu. by case_bool_decide. }
  assert (∀ grp m, grp ∈ groups → m ∈ ag_Users grp → ∃ u, u ∈ users ∧ au_UserID u = m ∧ ag_GroupID grp ∈ au_Groups u) as Hg'.
  { intros grp m Hin Hm. specialize (Hg grp Hin m Hm). unfold check_group_member in Hg.
    destruct (by_user users !! m) as [u|] eqn:Hlook; [|done]. apply by_user_in in Hlook as [? ?]. exists u.
    split_and!; [done..|]. by case_bool_decide. }
  split_and!.
  - intros u g H1 H2. destruct (Hu' u g H1 H2) as (grp & ? & ? & _). by exists grp.
  - intros grp m H1 H2. destruct (Hg' grp m H1 H2) as (u & ? & ? & _). by exists u.
  - intros u grp H1 H2 Hl. split; intros H.
    + destruct (Hg' grp _ H2 H) as (u' & ? & ? & ?).
      by assert (u' = u) as -> by by apply (NoDup_key _ _ _ _ Hnu).
    + destruct (Hu' u _ H1 H) as (grp' & ? & ? & Hin).
      assert (grp' = grp) as -> by by apply (NoDup_key _ _ _ _ Hng). by apply Hin.
Qed.
Lemma NoDup_seen {A} (key : A → string) x l (seen : gset string) :
  NoDup (key <$> l) → (∀ y, y ∈ l → key y ∉ {[key x]} ∪ seen) → key x ∉ seen →
  NoDup (key <$> x :: l) ∧ ∀ y, y ∈ x :: l → key y ∉ seen.
Proof.
  intros Hn Hs Hx. split.
  - cbn. constructor; [|done]. intros (v & He & Hv)%list_elem_of_fmap. apply (Hs v Hv). rewrite He. set_solver.
  - intros v [->|Hv]%elem_of_cons; [done|]. specialize (Hs v Hv). set_solver.
Qed.
(** The lists as they are parsed name each principal once. *)
Lemma ParseAccessUsers_NoDup raw us : ParseAccessUsers raw = Ok us → NoDup (au_UserID <$> us).
Proof.
  unfold ParseAccessUsers. rewrite call_iff. intros (es & _ & H). enough (NoDup (au_UserID <$> us) ∧ ∀ u, u ∈ us → au_UserID u ∉ (∅ : gset string)) by tauto.
  revert H. generalize 0%Z (∅ : gset string). revert us. induction es as [|e es IH]; intros us i seen; cbn [user_entries].
  { intros [= <-]. split; [constructor|by intros ? ?%elem_of_nil]. }
  rewrite call_iff. intros (u & Hu & H). rewrite call_iff in H. destruct H as (us' & H & [= <-]). destruct (IH _ _ _ H) as [Hn Hs].
  assert (au_UserID u ∉ seen) as Hseen.
  { unfold user_entry in Hu. rewrite call_iff in Hu. destruct Hu as (id & _ & Hu). destruct (negb _) eqn:Hd; [|done].
    apply negb_true_iff, bool_decide_eq_false in Hd. cbv zeta in Hu.
    repeat (rewrite call_iff in Hu; destruct Hu as (? & _ & Hu)). destruct (eqb _ ""); [|done]. by injection Hu as <-. }
  by apply NoDup_seen.
Qed.
Lemma ParseAccessGroups_NoDup raw gs : ParseAccessGroups raw = Ok gs → NoDup (ag_GroupID <$> gs).
Proof.
  unfold ParseAccessGroups. rewrite call_iff. intros (es & _ & H). enough (NoDup (ag_GroupID <$> gs) ∧ ∀ g, g ∈ gs → ag_GroupID g ∉ (∅ : gset string)) by tauto.
  revert H. generalize 0%Z (∅ : gset string). revert gs. induction es as [|e es IH]; intros gs i seen; cbn [group_entries].
  { intros [= <-]. split; [constructor|by intros ? ?%elem_of_nil]. }
  rewrite call_iff. intros (g & Hg & H). rewrite call_iff in H. destruct H as (gs' & H & [= <-]). destruct (IH _ _ _ H) as [Hn Hs].
  assert (ag_GroupID g ∉ seen) as Hseen.
  { unfold group_entry in Hg. rewrite call_iff in Hg. destruct Hg as (id & _ & Hg). destruct (negb _) eqn:Hd; [|done].
    apply negb_true_iff, bool_decide_eq_false in Hd. cbv zeta in Hg.
    repeat (rewrite call_iff in Hg; destruct Hg as (? & _ & Hg)). by injection Hg as <-. }
  by apply NoDup_seen.
Qed.
(** What getent printed. *)
Lemma passwd_line_ok asked out line a :
  passwd_line asked out line = Ok a → passwd_entry line a ∧ os_Name a ∈ asked ∧ out !! os_Name a = None.
Proof.
  unfold passwd_line. destruct (Split (byte 58) line) as [|name [|pw [|uid [|gid [|gecos [|home [|shell [|]]]]]]]] eqn:Hs; try done.
  case_bool_decide; [|done]. case_bool_decide; [|done]. cbv zeta.
  destruct (atoi uid) as [u|] eqn:Hu; [|done]. destruct (atoi gid) as [g|] eqn:Hg; [|done].
  destruct (_ || _)%bool eqn:Hneg; [done|]. apply orb_false_iff in Hneg as [?%Z.ltb_ge ?%Z.ltb_ge]. intros [= <-]. split; [|done].
  by exists pw, uid, gid, gecos.
Qed.
Lemma passwd_entry_unique line a a' : passwd_entry line a → passwd_entry line a' → a = a'.
Proof.
  intros (pw & uid & gid & gecos & Hs & Hu & Hg & _) (pw' & uid' & gid' & gecos' & Hs' & Hu' & Hg' & _). destruct a, a'; cbn in *.
  rewrite Hs in Hs'. injection Hs' as <- <- <- <- <- <- <-. rewrite Hu in Hu'. rewrite Hg in Hg'. congruence.
Qed.
Lemma passwd_lines_ok asked ls out out' :
  passwd_lines asked ls out = Ok out' →
  (∀ n a, out' !! n = Some a ↔ out !! n = Some a ∨ os_Name a = n ∧ ∃ l, l ∈ ls ∧ passwd_entry l a) ∧
  (∀ n, is_Some (out' !! n) → is_Some (out !! n) ∨ n ∈ asked) ∧
  (∀ l, l ∈ ls → ∃ a, passwd_entry l a).
Proof.
  revert out. induction ls as [|l ls IH]; intros out; cbn [passwd_lines].
  { intros [= <-]. split_and!; [|by left|by intros ? ?%elem_of_nil]. intros n a. split; [by left|]. by intros [?|(_ & ? & ?%elem_of_nil & _)]. }
  rewrite call_iff. intros (a0 & (Hent & Hask & Hnone)%passwd_line_ok & H). destruct (IH _ H) as (Hiff & Hdom & Hall). split_and!.
  - intros n a. rewrite Hiff, lookup_insert_Some. setoid_rewrite elem_of_cons. split.
    + intros [[[<- <-]|[? ?]]|(? & l' & ? & ?)]; [right; split; [done|]; exists l; auto|by left|right; split; [done|]; exists l'; auto].
    + intros [Hn|(<- & l' & [->|?] & He)].
      * left. right. split; [congruence|done].
      * left. left. by rewrite (passwd_entry_unique _ _ _ Hent He).
      * right. split; [done|]. by exists l'.
  - intros n Hn. destruct (Hdom n Hn) as [Hs|]; [|by right]. destruct (decide (os_Name a0 = n)) as [<-|Hne]; [by right|].
    rewrite lookup_insert_ne in Hs by done. by left.
  - intros l' [->|?]%elem_of_cons; [by exists a0|auto].
Qed.
Lemma parsePasswd_ok stdout asked out :
  parsePasswd stdout asked = Ok out →
  (∀ n a, out !! n = Some a ↔ os_Name a = n ∧ ∃ l, l ∈ lines stdout ∧ passwd_entry l a) ∧
  (∀ n, out !! n = None → ∀ l, l ∈ lines stdout → head (Split (byte 58) l) ≠ Some n) ∧ dom out ⊆ list_to_set asked.
Proof.
  intros H. assert (passwd_lines asked (lines stdout) ∅ = Ok out) as Hl by (revert H; unfold parsePasswd, lines; by destruct (eqb _ _)).
  apply passwd_lines_ok in Hl as (Hiff & Hdom & Hall).
  assert (∀ n a, out !! n = Some a ↔ os_Name a = n ∧ ∃ l, l ∈ lines stdout ∧ passwd_entry l a) as Hiff'.
  { intros n a. rewrite Hiff, lookup_empty. naive_solver. }
  split_and!; [done| |].
  - intros n Hn l Hin Hh. destruct (Hall l Hin) as (a & He). pose proof He as (pw & uid & gid & gecos & Hs & _). rewrite Hs in Hh.
    injection Hh as <-. assert (out !! os_Name a = Some a) as Ha; [|congruence]. apply Hiff'. split; [done|]. by exists l.
  - intros n Hn%elem_of_dom. destruct (Hdom n Hn) as [Hs|]; [|by apply elem_of_list_to_set]. rewrite lookup_empty in Hs. by destruct Hs.
Qed.
Lemma account_names_ok ids acc names :
  account_names ids acc = Ok names → NoDup acc → NoDup names ∧ ∀ n, n ∈ names ↔ n ∈ acc ∨ ∃ i, i ∈ ids ∧ user_name i = n.
Proof.
  revert acc. induction ids as [|i ids IH]; intros acc; cbn [account_names].
  { intros [= <-] Hn. split; [done|]. intros n. split; [by left|]. by intros [?|(? & ?%elem_of_nil & _)]. }
  rewrite call_iff. intros (u & _ & H) Hn. cbv zeta in H. case_bool_decide as Hin; apply IH in H as [Hn' Hiff]; try done.
  - split; [done|]. intros n. rewrite Hiff. setoid_rewrite elem_of_cons. split.
    + intros [?|(j & ? & ?)]; [by left|right; exists j; auto].
    + intros [?|(j & [->|?] & <-)]; [by left|by left|right; by exists j].
  - split; [done|]. intros n. rewrite Hiff, elem_of_app, list_elem_of_singleton. setoid_rewrite elem_of_cons. split.
    + intros [[?| ->]|(j & ? & ?)]; [by left|right; exists i; auto|right; exists j; auto].
    + intros [?|(j & [->|?] & <-)]; [by left; left|by left; right|right; by exists j].
  - apply NoDup_app. split_and!; [done| |by repeat constructor; intros ?%elem_of_nil]. intros x Hx ->%list_elem_of_singleton. done.
Qed.
Lemma missing_account (names : list string) (out : gmap string OSAccount) n :
  NoDup names → dom out ⊆ list_to_set names → n ∈ names → out !! n = None → size out ≠ length names.
Proof.
  intros Hn Hd Hin Hout He. assert (size (dom out) ≤ size ((list_to_set names : gset string) ∖ {[n]})) as Hle.
  { apply subseteq_size. apply not_elem_of_dom in Hout. set_solver. }
  rewrite size_difference in Hle by set_solver. rewrite size_list_to_set, size_singleton, size_dom in Hle by done.
  destruct names; [by apply elem_of_nil in Hin|]. cbn in *. lia.
Qed.
Definition looks (R : Type) (e : rootE R) : Prop := match e with RRun write _ => write = false | _ => False end.
Definition accounts_of (tr : list (event rootE)) (pam : list string) (accounts : gmap string OSAccount) : Prop :=
  ∀ i, i ∈ pam → match accounts !! user_name i with
                 | Some a => has_account tr (user_name i) a
                 | None => no_account tr (user_name i)
                 end.
Lemma rootOSAccounts_spec pam : always (rootOSAccounts pam) (λ tr r, ∀ out, r = Ok out → accounts_of tr pam out).
Proof.
  unfold rootOSAccounts. destruct (account_names pam []) as [names|e] eqn:Hn; cbn [bind trigger always]; [|done].
  destruct (account_names_ok _ _ _ Hn (NoDup_nil_2 (A := string))) as [Hnd Hnames]. intros [r|e]; cbn [bind always]; [|done].
  case_bool_decide as Hx; cbn [bind always]; [|done]. destruct (parsePasswd (Stdout r) names) as [out|e] eqn:Hp; cbn [bind always]; [|done].
  destruct (Bool.eqb _ _) eqn:Hsize; cbn [always]; [|done]. intros out' [= <-] i Hi.
  destruct (parsePasswd_ok _ _ _ Hp) as (Hiff & Hnone & Hdom).
  assert (user_name i ∈ names) as Hin by (apply Hnames; right; by exists i).
  assert (node_said [Ev (accessE (getent_cmd names)) (Ok r)] (user_name i) r) as Hsaid by (exists names; split; [done|by left]).
  destruct (out !! user_name i) as [a|] eqn:Ha.
  - apply Hiff in Ha as (? & l & ? & ?). split; [done|]. by exists r, l.
  - exists r. split_and!; [done| |by apply Hnone]. destruct Hx as [Hx|]; [|done]. exfalso. rewrite Hx in Hsize.
    rewrite (bool_decide_false (size out = length names)) in Hsize; [done|]. by eapply missing_account.
Qed.
Lemma inventory_acls_flagged roles acls xs : inventory_acls roles acls = Ok xs → Forall2 (flagged roles) acls xs.
Proof.
  revert xs. induction acls as [|e acls IH]; intros xs; cbn [inventory_acls]; [intros [= <-]; constructor|].
  destruct (roles !! acl_Role e) as [privs|] eqn:Hr; [|done]. rewrite call_iff. intros (rest & H & [= <-]).
  constructor; [|by apply IH]. unfold flagged. split_and!; try done. exists privs. split; [done|]. intros p. cbn [ia_Escalating].
  unfold escalating. rewrite list_elem_of_filter. tauto.
Qed.
Lemma held_names acls kind id via x : x ∈ held acls kind id via ↔ names_acl acls kind id via x.
Proof.
  unfold held, names_acl. rewrite list_elem_of_fmap. setoid_rewrite list_elem_of_filter. split.
  - intros (e & -> & [? ?] & ?). by exists e.
  - intros (e & ? & ? & ? & ->). by exists e.
Qed.
Lemma inventory_user_joined acls u : user_joined acls u (inventory_user acls u).
Proof.
  unfold user_joined. split_and!; [done..|]. intros e. cbn [inventory_user iu_ACLs].
  rewrite elem_of_app, held_names, list_elem_of_bind. setoid_rewrite held_names. naive_solver.
Qed.
(** A user is looked up on the node, or its status says why not. *)
Lemma inventory_user_status acls u :
  let x := inventory_user acls u in
  OSAccount_ x = None ∧
  if looked_up x then OSAccountStatus x = OSAccountAbsent ∧ user_realm (au_UserID u) = "pam"
  else OSAccountStatus x = OSAccountNotPAM ∧ user_realm (au_UserID u) ≠ "pam" ∨
       OSAccountStatus x = OSAccountUnchecked ∧ user_realm (au_UserID u) = "pam" ∧ numericKey (user_name (au_UserID u)) = true.
Proof.
  cbv zeta. split; [done|]. unfold looked_up. cbn [inventory_user OSAccountStatus].
  destruct (eqb (user_realm (au_UserID u)) "pam") eqn:Hr; [apply eqb_true in Hr|apply eqb_false in Hr; by left].
  destruct (numericKey _); [by right|done].
Qed.
Lemma with_account_shown tr acls u accounts :
  (looked_up (inventory_user acls u) = true →
   match accounts !! user_name (au_UserID u) with
   | Some a => has_account tr (user_name (au_UserID u)) a
   | None => no_account tr (user_name (au_UserID u))
   end) → user_shown tr acls u (with_account accounts (inventory_user acls u)).
Proof.
  intros Hacc. pose proof (inventory_user_joined acls u) as Hj. destruct (inventory_user_status acls u) as [Hn Hs].
  unfold with_account, user_shown. change (iu_UserID (inventory_user acls u)) with (au_UserID u).
  destruct (looked_up _); [|rewrite Hn; tauto]. specialize (Hacc eq_refl).
  destruct (accounts !! _) as [a|]; [|rewrite Hn; tauto]. cbn [OSAccount_ OSAccountStatus]. tauto.
Qed.
Definition read_as {A} (tr : list (event rootE)) (cmd : string) (f : string → res A) (a : A) : Prop :=
  ∃ out, said tr cmd out ∧ f out = Ok a.
Definition users_cmd : string := "pveum user list --full 1 --output-format json".
Definition groups_cmd : string := "pveum group list --output-format json".
(** What an inventory shows, of the lists read. *)
Definition inventoried (tr : list (event rootE)) (inv : AccessInventory) : Prop :=
  ∃ users groups entries roles,
    read_as tr users_cmd ParseAccessUsers users ∧ read_as tr groups_cmd ParseAccessGroups groups ∧
    read_as tr acl_list_cmd ParseACLEntries entries ∧ read_as tr role_list_cmd roles_of roles ∧
    consistent users groups ∧ Forall2 (flagged roles) entries (ACLs inv) ∧
    Forall2 (user_shown tr (ACLs inv)) users (Users inv) ∧ Forall2 (group_shown (ACLs inv)) groups (Groups inv).
Lemma read_as_app {A} tr tr' cmd (f : string → res A) a : read_as tr cmd f a → read_as (tr ++ tr') cmd f a.
Proof. intros (out & ? & ?). exists out. split; [by apply said_app_l|done]. Qed.
Lemma Inventory_asks : asks looks Inventory.
Proof. unfold Inventory, rootUsers, rootGroups, rootACLs, allRolePrivs, pveum, pveum_, rootOSAccounts. asks. Qed.
Lemma Inventory_total : total Inventory.
Proof. unfold Inventory, rootUsers, rootGroups, rootACLs, allRolePrivs, pveum, pveum_, rootOSAccounts. totally. Qed.
(** One list read after the exchanges [p]. *)
Lemma reading_list {A} (m : io rootE (res A)) cmd f p (Q : list (event rootE) → res A → Prop) :
  asks looks m → reads m cmd f → (∀ tr r, (∀ a, r = Ok a → read_as (p ++ tr) cmd f a) → Q (p ++ tr) r) →
  abides (λ _ _ _, True) p m Q.
Proof.
  intros Ha Hr HQ. eapply abides_part; [exact Ha|exact Hr|done|]. intros tr r [_ H]. apply HQ. intros a ->.
  destruct (H a eq_refl) as (out & ? & ?). exists out. split; [by apply said_app_r|done].
Qed.
Lemma accounts_of_app p tr pam accounts : accounts_of tr pam accounts → accounts_of (p ++ tr) pam accounts.
Proof.
  intros H i Hi. specialize (H i Hi). assert (∀ r, node_said tr (user_name i) r → node_said (p ++ tr) (user_name i) r) as Happ.
  { intros r (names & ? & ?). exists names. rewrite elem_of_app. auto. }
  destruct (accounts !! _) as [a|].
  - destruct H as (? & r & l & ? & ?). split; [done|]. exists r, l. auto.
  - destruct H as (r & ? & ?). exists r. auto.
Qed.
Lemma inventoried_by p tr users groups entries roles acls us :
  read_as p users_cmd ParseAccessUsers users → read_as p groups_cmd ParseAccessGroups groups →
  read_as p acl_list_cmd ParseACLEntries entries → read_as p role_list_cmd roles_of roles →
  checkMembership users groups = Ok tt → inventory_acls roles entries = Ok acls → Forall2 (user_shown (p ++ tr) acls) users us →
  inventoried (p ++ tr) {| Users := us; Groups := inventory_group acls <$> groups; ACLs := acls |}.
Proof.
  intros Hu Hg He Hr Hm Ha Hus. exists users, groups, entries, roles. split_and!; try by apply read_as_app.
  - destruct Hu as (? & _ & ?%ParseAccessUsers_NoDup), Hg as (? & _ & ?%ParseAccessGroups_NoDup). by apply checkMembership_consistent.
  - by apply inventory_acls_flagged.
  - done.
  - apply Forall2_fmap_r, Forall_Forall2_diag, Forall_true. intros g. unfold group_shown. split_and!; [done..|]. intros e. apply held_names.
Qed.
Lemma Inventory_abides : abides (λ _ _ _, True) [] Inventory (λ tr r, ∀ inv, r = Ok inv → inventoried tr inv).
Proof.
  unfold Inventory. apply abides_bind. eapply reading_list; [|apply rootUsers_reads|].
  { unfold rootUsers, pveum, pveum_. asks. }
  intros tr1 [users|e] Hu; [|done]. specialize (Hu _ eq_refl). apply abides_bind. eapply reading_list; [|apply rootGroups_reads|].
  { unfold rootGroups, pveum, pveum_. asks. }
  intros tr2 [groups|e] Hg; [|done]. specialize (Hg _ eq_refl). apply (read_as_app _ tr2) in Hu.
  apply abides_bind. eapply reading_list; [|apply rootACLs_reads|].
  { unfold rootACLs, pveum, pveum_. asks. }
  intros tr3 [entries|e] He; [|done]. specialize (He _ eq_refl). apply (read_as_app _ tr3) in Hu, Hg.
  apply abides_bind. eapply reading_list; [|apply allRolePrivs_reads|].
  { unfold allRolePrivs, pveum, pveum_. asks. }
  intros tr4 [roles|e] Hr; [|done]. specialize (Hr _ eq_refl). apply (read_as_app _ tr4) in Hu, Hg, He.
  set (p := (_ ++ tr4)) in *. clearbody p. cbn [bind].
  destruct (checkMembership users groups) as [[]|e] eqn:Hm; cbn [bind]; [|done].
  destruct (inventory_acls roles entries) as [acls|e] eqn:Ha; cbn [bind]; [|done].
  assert (∀ tr accounts, accounts_of (p ++ tr) (iu_UserID <$> filter (λ u, looked_up u = true) (inventory_user acls <$> users)) accounts →
    inventoried (p ++ tr) {| Users := with_account accounts <$> (inventory_user acls <$> users); Groups := inventory_group acls <$> groups;
      ACLs := acls |}) as Hdone.
  { intros tr accounts Hacc. apply (inventoried_by p tr users groups entries roles acls); try done. rewrite <- list_fmap_compose. apply Forall2_fmap_r, Forall_Forall2_diag.
    apply Forall_forall. intros u Hin. apply with_account_shown. intros Hl. apply Hacc. apply list_elem_of_fmap.
    exists (inventory_user acls u). split; [done|]. apply list_elem_of_filter. split; [done|]. by apply list_elem_of_fmap; exists u. }
  destruct (iu_UserID <$> filter _ _) as [|i pam] eqn:Hpam.
  - cbn [abides]. intros inv [= <-]. specialize (Hdone [] ∅). rewrite app_nil_r in Hdone.
    replace (with_account ∅ <$> (inventory_user acls <$> users)) with (inventory_user acls <$> users) in Hdone;
      [by apply Hdone; intros j ?%elem_of_nil|]. rewrite <- (list_fmap_id (inventory_user acls <$> users)) at 1. apply list_fmap_ext.

    intros _ u _. unfold with_account. rewrite lookup_empty. by destruct (looked_up u).
  - apply abides_bind. eapply (abides_part _ _ _ looks); [|apply rootOSAccounts_spec|done|].
    { unfold rootOSAccounts. asks. }
    intros tr [accounts|e] Hacc; [|done]. cbn [abides]. intros inv [= <-]. apply Hdone, accounts_of_app, Hacc, eq_refl.
Qed.

(** * Properties *)
(** An inventory always ends and runs only commands that read. When it succeeds, the user
    list and the group list it read agree both ways on who is in which group; every ACL entry is
    shown once, with exactly the escalating privileges of its role; a user is shown with the
    entries that name it or a group it is in, and no other; and a @pam user with the account the
    node's getent printed for it, or as absent when getent printed none and said so. *)
Theorem Inventory_shows :
  total Inventory ∧
  always Inventory (λ tr r,
    Forall (λ ev, match ev with Ev e _ => looks _ e end) tr ∧ ∀ inv, r = Ok inv → inventoried tr inv).
Proof.
  split; [apply Inventory_total|]. eapply always_mono; [|apply always_and; [apply asks_always, Inventory_asks|apply abides_always, Inventory_abides]].
  intros tr r [Ha [Hi _]]. done.
Qed.

(** * Examples *)
Definition toy_users : string :=
  "[" +:+ double_quoted "{'userid':'root@pam','enable':1,'groups':''},{'userid':'op@pve','enable':1,'groups':'admins'},{'userid':'12@pam','enable':0,'groups':''}" +:+ "]".
Definition toy_groups (members : string) : string := "[" +:+ double_quoted ("{'groupid':'admins','users':'" +:+ members +:+ "'}") +:+ "]".
Definition toy_acls : string :=
  "[" +:+ double_quoted "{'path':'/','roleid':'PVEAdmin','type':'group','ugid':'admins','propagate':1}" +:+ "]".
Definition toy_roles : string :=
  "[" +:+ double_quoted "{'roleid':'PVEAdmin','privs':'Sys.Modify,VM.Audit'}" +:+ "]".
Definition toy_root (members passwd : string) (code : Z) : env rootE unit := λ R e s,
  match e in rootE R return R * unit with
  | RRun _ cmd =>
      (Ok (if eqb cmd users_cmd then {| Stdout := toy_users; Stderr := ""; ExitCode := 0 |}
           else if eqb cmd groups_cmd then {| Stdout := toy_groups members; Stderr := ""; ExitCode := 0 |}
           else if eqb cmd acl_list_cmd then {| Stdout := toy_acls; Stderr := ""; ExitCode := 0 |}
           else if eqb cmd role_list_cmd then {| Stdout := toy_roles; Stderr := ""; ExitCode := 0 |}
           else {| Stdout := passwd; Stderr := ""; ExitCode := code |}), s)
  | RListUsers => (Ok [], s)
  | RListGroups => (Ok [], s)
  end.
Definition toy_inventory (members passwd : string) (code : Z) : option (list (string * string * list string)) :=
  match run (toy_root members passwd code) Inventory tt with
  | Some (_, Ok inv, _) => Some ((λ u, (iu_UserID u, OSAccountStatus u, concat (ia_Escalating <$> iu_ACLs u))) <$> Users inv)
  | _ => None
  end.
Example inventory_joined :
  toy_inventory "op@pve" ("root:x:0:0:root:/root:/bin/bash" +:+ chr 10) 0 =
    Some [("root@pam", "found", []); ("op@pve", "not-pam", ["Sys.Modify"]); ("12@pam", "unchecked", [])].
Proof. vm_compute. reflexivity. Qed.
Example inventory_absent :
  option_map head (toy_inventory "op@pve" "" 2) = Some (Some ("root@pam", "absent", [])).
Proof. vm_compute. reflexivity. Qed.
(** Two lists that disagree, or an answer of getent that does not fit its exit status. *)
Example inventory_refused : toy_inventory "" "" 2 = None ∧ toy_inventory "op@pve" "" 0 = None.
Proof. vm_compute. auto. Qed.
