(* ===== verification/AccessGuard.v ===== *)
(** internal/pve/client.go, the transport every request of a client goes through: it refuses to
    write PVE's /access API; with the parts of net/url, path, strings and regexp it uses. *)
From Stdlib Require Import Ascii.
From S2P Require Import Prelude GoLib Errors Json.

(** ** package net/url, in the modes for a path *)
Definition path_byte_kept (c : ascii) : bool := is_alnum c || one_of "-_.~$&+,/:;=@" c.
Definition url_escape : string → string :=
  map_bytes (λ c, if path_byte_kept c then String c "" else "%" +:+ hex2 true (byte_of c)).
Definition hex_pair (a b : ascii) : option ascii :=
  match hex_val a, hex_val b with
  | Some x, Some y => Some (Ascii.ascii_of_N (Z.to_N (x * 16 + y)))
  | _, _ => None
  end.
Fixpoint PathUnescape (s : string) : option string :=
  match s with
  | EmptyString => Some ""
  | String c s' =>
      if is_byte 37 c then
        match s' with
        | String a (String b s'') =>
            match hex_pair a b, PathUnescape s'' with Some d, Some t => Some (String d t) | _, _ => None end
        | _ => None
        end
      else match PathUnescape s' with Some t => Some (String c t) | None => None end
  end.
Record URL := { u_Path : string; RawPath : string }.
Definition validEncoded : string → bool := all_bytes (λ c, path_byte_kept c || one_of "!'()*[]%" c).
Definition EscapedPath (u : URL) : string :=
  if negb (eqb (RawPath u) "") && validEncoded (RawPath u) && bool_decide (PathUnescape (RawPath u) = Some (u_Path u)) then RawPath u
  else if eqb (u_Path u) "*" then "*" else url_escape (u_Path u).

(** ** package strings: [ToLower], exact up to runes beyond ASCII that stay beyond it *)
Definition lower_rune (rb : Z * string) : string :=
  if (rb.1 =? 0x130)%Z then "i" else if (rb.1 =? 0x212A)%Z then "k"
  else if (rb.1 =? rune_error)%Z then chr 0xEF +:+ chr 0xBF +:+ chr 0xBD
  else to_lower rb.2.
Definition ToLower (s : string) : string := sconcat (lower_rune <$> runes s).

(** ** client.go *)
(** What follows the match of [access(/|$)], [api2/[^/]+/access(/|$)] at the start of a text. *)
Definition ends_segment (s : string) : bool := eqb s "" || has_prefix "/" s.
Definition access_here (s : string) : bool := match cut_prefix "access" s with Some t => ends_segment t | None => false end.
Definition api2_here (s : string) : bool :=
  match cut_prefix "api2/" s with
  | Some r => match cut (byte 47) r with Some (format, t) => negb (eqb format "") && access_here t | None => false end
  | None => false
  end.
Fixpoint after_slash (p : string → bool) (s : string) : bool :=
  match s with EmptyString => false | String c s' => (is_byte 47 c && p s') || after_slash p s' end.
Definition accessPathRE (s : string) : bool :=
  api2_here s || after_slash api2_here s || match cut_prefix "/" s with Some t => access_here t | None => false end.
Definition addresses_access (p : string) : bool := accessPathRE (ToLower (filepath_Clean ("/" +:+ p))).
(** The path unescaped again and again, until that changes nothing or fails; an escape is three
    bytes, so it changes the text less often than it has bytes. *)
Fixpoint unescapes (fuel : nat) (p : string) : list string :=
  match fuel with
  | O => []
  | S n => match PathUnescape p with Some u => if eqb u p then [] else u :: unescapes n u | None => [] end
  end.
Definition candidates (u : URL) : list string :=
  u_Path u :: EscapedPath u :: unescapes (slen (EscapedPath u)) (EscapedPath u).
Definition isAccessWrite (method : string) (u : URL) : bool :=
  if eqb method "GET" || eqb method "HEAD" then false else existsb addresses_access (candidates u).
Inductive httpE : Type → Type :=
| HSend (method : string) (u : URL) : httpE (res string).
Definition RoundTrip (method : string) (u : URL) : io httpE (res string) :=
  if isAccessWrite method u then
    Ret (Er (Err (KAccessWrite method (u_Path u))
      (method +:+ " " +:+ u_Path u +:+ ": " +:+ sentinel_text ErrAccessWriteRefused +:+ "; principals and ACLs are written as root over SSH") []))
  else trigger (HSend method u).

(** * Specification *)
(** The path of a request as anything on its way may read it: as sent, or unescaped any number
    of times. *)
Inductive reading (u : URL) : string → Prop :=
| reading_path : reading u (u_Path u)
| reading_escaped : reading u (EscapedPath u)
| reading_unescaped p q : reading u p → PathUnescape p = Some q → reading u q.
Definition no_slash (s : string) : Prop := any_byte (λ d, bool_decide (d = byte 47)) s = false.
Definition segment_end (s : string) : Prop := s = "" ∨ ∃ t, s = "/" +:+ t.
Definition matches_access (s : string) : Prop :=
  (∃ a n b, s = a +:+ "api2/" +:+ n +:+ "/access" +:+ b ∧ (a = "" ∨ ∃ a', a = a' +:+ "/") ∧
     n ≠ "" ∧ no_slash n ∧ segment_end b) ∨
  (∃ b, s = "/access" +:+ b ∧ segment_end b).
Definition writes_access (method : string) (u : URL) : Prop :=
  method ≠ "GET" ∧ method ≠ "HEAD" ∧ ∃ p, reading u p ∧ matches_access (ToLower (filepath_Clean ("/" +:+ p))).

(** * Lemmas *)
Lemma segment_end_iff s : ends_segment s = true ↔ segment_end s.
Proof.
  unfold ends_segment, segment_end. rewrite orb_true_iff, eqb_true, has_prefix_spec. done.
Qed.
Lemma cut_prefix_app p t : cut_prefix p (p +:+ t) = Some t.
Proof. by apply cut_prefix_spec. Qed.
Lemma access_here_iff s : access_here s = true ↔ ∃ b, s = "access" +:+ b ∧ segment_end b.
Proof.
  unfold access_here. split; [|intros (b & -> & ?); rewrite cut_prefix_app; by apply segment_end_iff].
  destruct (cut_prefix "access" s) as [t|] eqn:H; [|done]. apply cut_prefix_spec in H as ->. rewrite segment_end_iff. by eexists.
Qed.
Lemma api2_here_iff s :
  api2_here s = true ↔ ∃ n b, s = "api2/" +:+ n +:+ "/access" +:+ b ∧ n ≠ "" ∧ no_slash n ∧ segment_end b.
Proof.
  unfold api2_here. split.
  - destruct (cut_prefix "api2/" s) as [r|] eqn:H; [|done]. apply cut_prefix_spec in H as ->.
    destruct (cut (byte 47) r) as [[n t]|] eqn:Hc; [|done]. apply cut_spec in Hc as [-> Hn].
    rewrite andb_true_iff, negb_true_iff, eqb_false, access_here_iff. intros [Hne (b & -> & Hb)]. by exists n, b.
  - intros (n & b & -> & Hne & Hn & Hb). rewrite cut_prefix_app. change ("/access" +:+ b) with (String (byte 47) ("access" +:+ b)).
    rewrite cut_first by done. rewrite andb_true_iff, negb_true_iff, eqb_false, access_here_iff. split; [done|]. by exists b.
Qed.
Lemma after_slash_iff p s : after_slash p s = true ↔ ∃ a t, s = a +:+ "/" +:+ t ∧ p t = true.
Proof.
  induction s as [|c s IH]; cbn [after_slash]; [split; [done|]; by intros ([|] & t & ? & _)|].
  rewrite orb_true_iff, andb_true_iff, IH. split.
  - intros [[Hc Hp]|(a & t & -> & ?)]; [|by exists (String c a), t]. exists "", s. apply bool_decide_eq_true in Hc as ->. done.
  - intros ([|d a] & t & He & ?).
    + left. change ("" +:+ "/" +:+ t) with (String (byte 47) t) in He. injection He as -> ->. done.
    + right. rewrite str_cons_app in He. injection He as -> ->. by exists a, t.
Qed.
Lemma accessPathRE_iff s : accessPathRE s = true ↔ matches_access s.
Proof.
  unfold accessPathRE, matches_access. rewrite !orb_true_iff, after_slash_iff, api2_here_iff. split.
  - intros [[(n & b & -> & ?)|(a & t & -> & (n & b & -> & ?)%api2_here_iff)]|H].
    + left. exists "", n, b. split; [done|]. split; [by left|done].
    + left. exists (a +:+ "/"), n, b. split; [by rewrite str_app_assoc|]. split; [right; by exists a|done].
    + right. destruct (cut_prefix "/" s) as [t|] eqn:Hs; [|done]. apply cut_prefix_spec in Hs as ->.
      apply access_here_iff in H as (b & -> & ?). by exists b.
  - intros [(a & n & b & -> & [->|[a' ->]] & ?)|(b & -> & ?)].
    + left. left. by exists n, b.
    + left. right. exists a', ("api2/" +:+ n +:+ "/access" +:+ b). rewrite str_app_assoc. split; [done|]. apply api2_here_iff. by exists n, b.
    + right. change ("/access" +:+ b) with ("/" +:+ "access" +:+ b). rewrite cut_prefix_app. apply access_here_iff. by exists b.
Qed.
Lemma hex_pair_round d : (0 ≤ d < 256)%Z →
  ∃ a b, hex2 true d = String a (String b "") ∧ hex_pair a b = Some (Ascii.ascii_of_N (Z.to_N d)).
Proof. intros H. destruct (hex2_val true d H) as (a & b & x & y & ? & Ha & Hb & <-). exists a, b. unfold hex_pair. by rewrite Ha, Hb. Qed.
Lemma unescape_escape s : PathUnescape (url_escape s) = Some s.
Proof.
  induction s as [|c s IH]; [done|]. unfold url_escape in *. cbn [map_bytes]. destruct (path_byte_kept c) eqn:Hc.
  - rewrite str_cons_app. change ("" +:+ ?x) with x. cbn [PathUnescape]. assert (is_byte 37 c = false) as ->; [|by rewrite IH].
    destruct (is_byte 37 c) eqn:H; [|done]. apply bool_decide_eq_true in H as ->. done.
  - destruct (hex_pair_round (byte_of c)) as (a & b & Hx & Hp).
    { pose proof (Ascii.N_ascii_bounded c). lia. }
    rewrite Hx. change (("%" +:+ String a (String b "")) +:+ ?t) with (String (byte 37) (String a (String b t))).
    cbn [PathUnescape]. rewrite IH, Hp. change (is_byte 37 (byte 37)) with true. cbn iota.
    by rewrite N2Z.id, Ascii.ascii_N_embedding.
Qed.
Lemma unescape_EscapedPath u : PathUnescape (EscapedPath u) = Some (u_Path u).
Proof.
  unfold EscapedPath. destruct (_ && bool_decide _) eqn:H; [by apply andb_true_iff in H as [_ H%bool_decide_eq_true]|].
  destruct (eqb (u_Path u) "*") eqn:Hs; [by apply eqb_true in Hs as ->|apply unescape_escape].
Qed.
(** An escape undone makes the text shorter. *)
Lemma unescape_shorter n s t : slen s ≤ n → PathUnescape s = Some t → t = s ∨ slen t < slen s.
Proof.
  revert s t. induction n as [|n IH]; intros [|c s] t Hn; cbn [PathUnescape slen] in *; try (intros [= <-]; by left); [lia|].
  destruct (is_byte 37 c).
  - destruct s as [|a [|b s]]; [done..|]. destruct (hex_pair a b) as [d|]; [|done].
    destruct (PathUnescape s) as [t'|] eqn:Ht; [|done]. intros [= <-]. right. cbn [slen] in *.
    destruct (IH s t') as [->|]; [lia|done|lia..].
  - destruct (PathUnescape s) as [t'|] eqn:Ht; [|done]. intros [= <-]. destruct (IH s t') as [->|]; [lia|done|by left|right; cbn; lia].
Qed.
Lemma unescapes_closed n p q r :
  slen p ≤ n → q ∈ p :: unescapes n p → PathUnescape q = Some r → r ∈ p :: unescapes n p.
Proof.
  revert p. induction n as [|n IH]; intros p Hn Hin Hr.
  - destruct p as [|c p]; [|cbn in Hn; lia]. apply list_elem_of_singleton in Hin as ->. injection Hr as <-. by left.
  - cbn [unescapes] in *. destruct (PathUnescape p) as [u|] eqn:Hu.
    2: { apply list_elem_of_singleton in Hin as ->. congruence. }
    destruct (eqb u p) eqn:He.
    + apply eqb_true in He as ->. apply list_elem_of_singleton in Hin as ->. assert (r = p) as -> by congruence. by left.
    + apply eqb_false in He. destruct (unescape_shorter _ p u (le_n _) Hu) as [?|Hlt]; [done|].
      apply elem_of_cons in Hin as [->|Hin]; [assert (r = u) as -> by congruence; right; by left|]. right. apply IH; [lia|done|done].
Qed.
Lemma reading_candidates u p : reading u p ↔ p ∈ candidates u.
Proof.
  set (l := EscapedPath u :: unescapes (slen (EscapedPath u)) (EscapedPath u)).
  assert (u_Path u ∈ l) as Hpath.
  { eapply unescapes_closed; [done|by left|apply unescape_EscapedPath]. }
  assert (∀ q, q ∈ candidates u ↔ q ∈ l) as ->.
  { intros q. unfold candidates. rewrite elem_of_cons. split; [by intros [->|?]|by right]. }
  split.
  - induction 1 as [| |p q _ IH Hq]; [done|by left|]. by eapply unescapes_closed.
  - assert (∀ n q, reading u q → ∀ r, r ∈ unescapes n q → reading u r) as Hgo.
    { induction n as [|n IH]; intros q Hq r Hr; cbn [unescapes] in Hr; [by apply elem_of_nil in Hr|].
      destruct (PathUnescape q) as [v|] eqn:Hv; [|by apply elem_of_nil in Hr]. destruct (eqb v q); [by apply elem_of_nil in Hr|].
      assert (reading u v) as Hrv by by eapply reading_unescaped. apply elem_of_cons in Hr as [->|Hr]; [done|by eapply IH]. }
    intros [->|H]%elem_of_cons; [constructor|]. by eapply Hgo; [constructor|].
Qed.
Lemma isAccessWrite_iff method u : isAccessWrite method u = true ↔ writes_access method u.
Proof.
  unfold isAccessWrite, writes_access. destruct (eqb method "GET") eqn:Hg; [apply eqb_true in Hg as ->; cbn; naive_solver|].
  destruct (eqb method "HEAD") eqn:Hh; [apply eqb_true in Hh as ->; cbn; naive_solver|]. cbn [orb]. apply eqb_false in Hg, Hh.
  rewrite existsb_exists. setoid_rewrite reading_candidates. setoid_rewrite <- accessPathRE_iff. setoid_rewrite <- list_elem_of_In.
  split; [intros (p & ? & ?); split_and!; [done..|]; by exists p|intros (_ & _ & p & ? & ?); by exists p].
Qed.

(** * Properties *)
(** C11: a request leaves the process unless it writes PVE's /access API, and then it never does:
    any method but GET or HEAD, and a path that addresses /access however often it is unescaped,
    with its dot segments and doubled slashes removed, whatever its case. What is sent is the
    request itself, and its answer is the answer. *)
Theorem RoundTrip_guards method u :
  always (RoundTrip method u) (λ tr r,
    (writes_access method u → tr = [] ∧ ∃ e, r = Er e ∧ errors_Is ErrAccessWriteRefused e = true) ∧
    (¬ writes_access method u → tr = [Ev (HSend method u) r])).
Proof.
  unfold RoundTrip. pose proof (isAccessWrite_iff method u) as Hiff. destruct (isAccessWrite method u).
  - cbn [always]. split; [|intros H; exfalso; by apply H, Hiff]. intros _. split; [done|]. by eexists.
  - cbn [always trigger]. intros r. split; [intros H%Hiff; done|done].
Qed.

(** * Examples *)
Definition guarded (method path : string) : bool := isAccessWrite method {| u_Path := path; RawPath := "" |}.
Example guard_spellings :
  forallb (guarded "POST") ["/api2/json/access/users"; "/api2/extjs//nodes/../ACCESS"; "/base/api2/json/%2561ccess";
    "/access"; "/api2/json/access%2Fusers"; "/x/%2E%2E/access"] = true.
Proof. vm_compute. reflexivity. Qed.
Example guard_passes :
  existsb (guarded "PUT") ["/api2/json/nodes/n/qemu/100/config"; "/api2/json/accessories"; "/api2//access"] = false
    ∧ guarded "GET" "/api2/json/access" = false.
Proof. vm_compute. auto. Qed.
