(* ===== verification/GuestAddr.v ===== *)
(** internal/pve/vmguest.go, its second half: the address a guest has on the network interface
    with a given MAC; with net.ParseMAC and net.ParseIP. *)
From Stdlib Require Import Ascii.
From S2P Require Import Prelude GoLib Errors Json Rest OpRun Client Remote GuestAgent.

(** ** package net: hardware addresses *)
Fixpoint hex_bytes (s : string) : option (list Z) :=
  match s with
  | EmptyString => Some []
  | String a (String b s') =>
      match hex_val a, hex_val b, hex_bytes s' with Some x, Some y, Some l => Some ((x * 16 + y)%Z :: l) | _, _, _ => None end
  | _ => None
  end.
(** Groups of [width] hex digits between separators, of 6, 8 or 20 bytes. *)
Definition mac_groups (sep : ascii) (width : nat) (s : string) : option (list Z) :=
  let groups := Split sep s in
  if forallb (λ g, slen g =? width) groups then
    match mjoin <$> mapM hex_bytes groups with
    | Some hw => if bool_decide (length hw ∈ [6; 8; 20]) then Some hw else None
    | None => None
    end
  else None.
Definition ParseMAC (s : string) : option (list Z) :=
  if slen s <? 14 then None
  else match String.get 2 s, String.get 4 s with
       | Some c, Some d =>
           if is_byte 58 c || is_byte 45 c then mac_groups c 2 s
           else if is_byte 46 d then mac_groups d 4 s else None
       | _, _ => None
       end.
Definition HardwareAddr_String (hw : list Z) : string := Join ":" (hex2 false <$> hw).

(** ** package net: IP addresses, 16 bytes, an IPv4 one mapped *)
Definition octet (s : string) : option Z :=
  if eqb s "0" then Some 0%Z
  else if has_prefix "0" s || negb (all_bytes is_digit s) then None
  else match digits s with Some n => if (n <=? 255)%Z then Some n else None | None => None end.
Definition parseIPv4 (s : string) : option (list Z) :=
  match mapM octet (Split (byte 46) s) with Some [a; b; c; d] => Some [a; b; c; d] | _ => None end.
(** The hex digits a text starts with, their value, and the rest. *)
Fixpoint hex_run (s : string) (off : nat) (acc : Z) : nat * Z * string :=
  match s with
  | String c s' => match hex_val c with Some d => hex_run s' (S off) (acc * 16 + d) | None => (off, acc, s) end
  | EmptyString => (off, acc, s)
  end.
(** The fields read so far, where the [::] stands among them, and what follows them. *)
Fixpoint ipv6_fields (fuel : nat) (ip : list Z) (ellipsis : option nat) (s : string) : option (list Z * option nat * string) :=
  match fuel with
  | O => Some (ip, ellipsis, s)
  | S n =>
      let '(off, acc, rest) := hex_run s 0 0 in
      if (off =? 0) || (4 <? off) then None
      else if has_prefix "." rest then
        if (negb (is_some ellipsis) && negb (length ip =? 12)) || (12 <? length ip) then None
        else match parseIPv4 s with Some v4 => Some (ip ++ v4, ellipsis, "") | None => None end
      else
        let ip := ip ++ [acc / 256; acc mod 256]%Z in
        match rest with
        | EmptyString => Some (ip, ellipsis, "")
        | String c s1 =>
            if negb (is_byte 58 c) then None
            else match s1 with
                 | EmptyString => None
                 | String c1 s2 =>
                     if is_byte 58 c1 then
                       if is_some ellipsis then None
                       else if eqb s2 "" then Some (ip, Some (length ip), "")
                       else ipv6_fields n ip (Some (length ip)) s2
                     else ipv6_fields n ip ellipsis s1
                 end
        end
  end.
Definition parseIPv6 (s : string) : option (list Z) :=
  let start := match cut_prefix "::" s with Some r => (Some 0, r) | None => (None, s) end in
  if bool_decide (start = (Some 0, "")) then Some (replicate 16 0%Z)
  else match ipv6_fields 8 [] start.1 start.2 with
       | Some (ip, ellipsis, rest) =>
           if negb (eqb rest "") then None
           else if length ip <? 16 then
             match ellipsis with
             | Some e => Some (take e ip ++ replicate (16 - length ip) 0%Z ++ drop e ip)
             | None => None
             end
           else if is_some ellipsis then None else Some ip
       | None => None
       end.
Definition v4_prefix : list Z := replicate 10 0%Z ++ [255; 255]%Z.
Fixpoint first_of (s : string) : option ascii :=
  match s with EmptyString => None | String c s' => if one_of ".:%" c then Some c else first_of s' end.
(** An address with a zone is none. *)
Definition ParseIP (s : string) : option (list Z) :=
  match first_of s with
  | Some c =>
      if is_byte 46 c then (λ v4, v4_prefix ++ v4) <$> parseIPv4 s
      else if is_byte 58 c then if contains "%" s then None else parseIPv6 s else None
  | None => None
  end.
Definition To4 (ip : list Z) : option (list Z) := if bool_decide (take 12 ip = v4_prefix) then Some (drop 12 ip) else None.
Definition IsUnspecified (ip : list Z) : bool := bool_decide (ip = v4_prefix ++ replicate 4 0%Z ∨ ip = replicate 16 0%Z).
Definition IsLoopback (ip : list Z) : bool :=
  match To4 ip with Some (a :: _) => (a =? 127)%Z | _ => bool_decide (ip = replicate 15 0%Z ++ [1%Z]) end.
Definition IsLinkLocalUnicast (ip : list Z) : bool :=
  match To4 ip, ip with
  | Some (a :: b :: _), _ => (a =? 169)%Z && (b =? 254)%Z
  | _, a :: b :: _ => (a =? 0xFE)%Z && (Z.land b 0xC0 =? 0x80)%Z
  | _, _ => false
  end.
Definition IsLinkLocalMulticast (ip : list Z) : bool :=
  match To4 ip, ip with
  | Some (a :: b :: c :: _), _ => (a =? 224)%Z && (b =? 0)%Z && (c =? 0)%Z
  | _, a :: b :: _ => (a =? 0xFF)%Z && (Z.land b 0x0F =? 0x02)%Z
  | _, _ => false
  end.

(** ** vmguest.go *)
Record AgentIPAddress := { Address : string; ip_Type : string; ip_Prefix : Z }.
Record AgentInterface := { if_Name : string; HardwareAddress : string; IPAddresses : list AgentIPAddress }.
(** A slice of structs, a [null] element being the zero struct. *)
Definition to_structs {A} (dec : list (string * json) → option A) (l : list A) (j : json) : option (list A) :=
  match j with
  | JNull => Some []
  | JArr js => mapM (λ j, match j with JNull => dec [] | JObj o => dec o | _ => None end) js
  | _ => None
  end.
Definition address_fields (o : list (string * json)) : option AgentIPAddress :=
  match struct_get "ip-address" to_string "" o, struct_get "ip-address-type" to_string "" o, struct_get "prefix" to_int 0%Z o with
  | Some a, Some t, Some p => Some {| Address := a; ip_Type := t; ip_Prefix := p |}
  | _, _, _ => None
  end.
Definition interface_fields (o : list (string * json)) : option AgentInterface :=
  match struct_get "name" to_string "" o, struct_get "hardware-address" to_string "" o,
        struct_get "ip-addresses" (to_structs address_fields) [] o with
  | Some n, Some h, Some ips => Some {| if_Name := n; HardwareAddress := h; IPAddresses := ips |}
  | _, _, _ => None
  end.
Definition not_loopback (i : AgentInterface) : bool := negb (eqb (if_Name i) "lo").
Definition AgentInterfaces (node : string) (vmid : Z) : io pveE (res (list AgentInterface)) :=
  let what := "agent interfaces on vm " +:+ itoa vmid in
  guard negb (eqb node "") orelse errorf (what +:+ ": node is required") in
  let? raw := RawRequest "GET" (agent_path node vmid "network-get-interfaces") ∅ orelse wrapf what in
  let bad := wrapf (what +:+ ": unexpected response " +:+ compact raw) (errorf "json: cannot unmarshal") in
  Ret match raw with
      | JNull => Er (errorf (what +:+ ": unexpected response " +:+ compact raw +:+ ": expected an object with a result list, got null"))
      | JObj o =>
          match struct_get "result" (to_structs interface_fields) [] o with
          | Some l => Ok (filter (λ i, not_loopback i = true) l)
          | None => Er bad
          end
      | _ => Er bad
      end.
Definition canonicalMAC (mac : string) : res string :=
  let s := trim_space mac in
  match ParseMAC s with
  | Some hw => Ok (HardwareAddr_String hw)
  | None =>
      Er (wrapf ("unparseable mac address " +:+ quote mac)
        (errorf ((if eqb s "" then "" else "address " +:+ s +:+ ": ") +:+ "invalid MAC address")))
  end.
Definition reports_mac (mac : string) (i : AgentInterface) : bool :=
  not_loopback i && match canonicalMAC (HardwareAddress i) with Ok got => eqb got mac | Er _ => false end.
Definition for_mac (mac : string) : string := "address for mac " +:+ quote mac.
Definition interfaceForMAC (ifaces : list AgentInterface) (mac : string) : res AgentInterface :=
  let^ want := canonicalMAC mac orelse wrapf (for_mac mac) in
  guard^ negb (bool_decide (length ifaces = 0)) orelse wrapf (for_mac mac) (sent ErrNoGuestInterfaces) in
  match filter (λ i, reports_mac want i = true) ifaces with
  | [] => Er (wrapf (for_mac mac) (sent ErrNoInterfaceForMAC))
  | [i] => Ok i
  | l => Er (wrapf (for_mac mac +:+ ": " +:+ itoa (Z.of_nat (length l)) +:+ " matches") (sent ErrAmbiguousInterfaceForMAC))
  end.
Definition AddressesForMAC (ifaces : list AgentInterface) (mac : string) : res (list AgentIPAddress) :=
  let^ i := interfaceForMAC ifaces mac orelse id in Ok (IPAddresses i).
Definition isUsableGuestAddress (addr : string) : bool :=
  match ParseIP (trim_space addr) with
  | Some ip => negb (IsUnspecified ip || IsLoopback ip) && negb (IsLinkLocalUnicast ip) && negb (IsLinkLocalMulticast ip)
  | None => false
  end.
Definition AddressForMAC (ifaces : list AgentInterface) (mac : string) : res AgentIPAddress :=
  let^ i := interfaceForMAC ifaces mac orelse id in
  let what := for_mac mac +:+ ": interface " +:+ quote (if_Name i) in
  match filter (λ a, isUsableGuestAddress (Address a) = true) (IPAddresses i) with
  | [] => Er (wrapf what (sent ErrNoAddressForMAC))
  | [a] => Ok a
  | l => Er (wrapf (what +:+ ": " +:+ itoa (Z.of_nat (length l)) +:+ " usable addresses") (sent ErrAmbiguousAddressForMAC))
  end.
(** The MAC of the parts of a net config that are left, [fallback] being that of the first part
    with one. *)
Fixpoint mac_of_parts (fallback : string) (parts : list string) : string :=
  match parts with
  | [] => fallback
  | p :: parts' =>
      match cut (byte 61) (trim_space p) with
      | None => mac_of_parts fallback parts'
      | Some (key, value) =>
          match canonicalMAC value with
          | Er _ => mac_of_parts fallback parts'
          | Ok mac =>
              if equal_fold (trim_space key) "macaddr" then mac
              else mac_of_parts (if eqb fallback "" then mac else fallback) parts'
          end
      end
  end.
Definition MACFromNetConfig (netValue : string) : res string :=
  let mac := mac_of_parts "" (Split (byte 44) netValue) in
  if eqb mac "" then Er (wrapf ("mac from net config " +:+ quote netValue) (sent ErrNoMACInNetConfig)) else Ok mac.
Definition netConfigIndex (key : string) : option Z :=
  match cut_prefix "net" key with
  | Some suffix => if negb (eqb suffix "") && all_bytes is_digit suffix then atoi suffix else None
  | None => None
  end.
Definition net_mac (kv : string * json) : option (Z * string) :=
  match netConfigIndex kv.1, as_string kv.2 with
  | Some n, Some v => match MACFromNetConfig v with Ok mac => Some (n, mac) | Er _ => None end
  | _, _ => None
  end.
Definition add_net (macs : gmap Z string) (kv : string * json) : gmap Z string :=
  match net_mac kv with Some (n, mac) => <[n := mac]> macs | None => macs end.
(** The config's entries in the order they are ranged over. *)
Definition net_macs (entries : list (string * json)) : gmap Z string := foldl add_net ∅ entries.
Definition VMNetMACs (node : string) (vmid : Z) : io pveE (res (gmap Z string)) :=
  let what := "vm net macs on vm " +:+ itoa vmid in
  guard negb (eqb node "") orelse errorf (what +:+ ": node is required") in
  let? raw := RawRequest "GET" ("/nodes/" +:+ path_escape node +:+ "/qemu/" +:+ itoa vmid +:+ "/config") ∅ orelse wrapf what in
  Ret match raw with
      | JNull => Er (errorf (what +:+ ": unexpected response " +:+ compact raw +:+ ": expected a config object, got null"))
      | JObj o => Ok (net_macs (map_to_list (fields_of o)))
      | _ => Er (wrapf (what +:+ ": unexpected response " +:+ compact raw) (errorf "json: cannot unmarshal"))
      end.

(** * Specification *)
Definition byte_range (z : Z) : Prop := (0 ≤ z < 256)%Z.
Definition valid_mac (hw : list Z) : Prop := Forall byte_range hw ∧ length hw ∈ [6; 8; 20].

(** * Hardware addresses *)
Lemma hex_bytes_range s l : hex_bytes s = Some l → Forall byte_range l.
Proof.
  revert l. enough (∀ n s l, slen s ≤ n → hex_bytes s = Some l → Forall byte_range l) as H by (intros l; by apply (H (slen s))).
  clear s. induction n as [|n IH]; intros [|a [|b s]] l Hn; cbn [hex_bytes slen] in *; try (intros [= <-]; constructor); try done; [lia|].
  destruct (hex_val a) as [x|] eqn:Ha; [|done]. destruct (hex_val b) as [y|] eqn:Hb; [|done].
  destruct (hex_bytes s) as [l'|] eqn:Hs; [|done]. intros [= <-]. apply hex_val_range in Ha, Hb. constructor; [unfold byte_range; lia|].
  eapply IH; [|exact Hs]. lia.
Qed.
Lemma mac_groups_valid sep width s hw : mac_groups sep width s = Some hw → valid_mac hw.
Proof.
  unfold mac_groups. destruct (forallb _ _); [|done]. destruct (mapM hex_bytes _) as [ls|] eqn:Hm; [|done]. cbn.
  case_bool_decide as Hlen; [|done]. intros [= <-]. split; [|done]. apply mapM_Some in Hm. apply Forall_join.
  eapply Forall2_Forall_r; [exact Hm|]. apply Forall_true. intros g l. apply hex_bytes_range.
Qed.
Lemma ParseMAC_valid s hw : ParseMAC s = Some hw → valid_mac hw.
Proof.
  unfold ParseMAC. destruct (slen s <? 14); [done|]. destruct (String.get 2 s) as [c|]; [|done].
  destruct (String.get 4 s) as [d|]; [|done]. destruct (_ || _); [apply mac_groups_valid|]. destruct (is_byte 46 d); [apply mac_groups_valid|done].
Qed.
Lemma hex2_piece z : byte_range z →
  slen (hex2 false z) = 2 ∧ hex_bytes (hex2 false z) = Some [z] ∧
  any_byte (is_byte (Ascii.N_of_ascii (byte 58))) (hex2 false z) = false.
Proof.
  intros Hz. destruct (hex2_val false z Hz) as (a & b & x & y & -> & Ha & Hb & <-). cbn [slen hex_bytes any_byte].
  rewrite Ha, Hb. split_and!; [done..|]. change (Ascii.N_of_ascii (byte 58)) with 58%N.
  assert (∀ c v, hex_val c = Some v → is_byte 58 c = false) as Hno.
  { intros c v Hc. unfold is_byte. apply bool_decide_eq_false. by intros ->. }
  by rewrite (Hno a x), (Hno b y).
Qed.
Lemma mac_length hw : valid_mac hw → 5 < length hw.
Proof. intros [_ Hl]. repeat (apply elem_of_cons in Hl as [->|Hl]; [lia|]). by apply elem_of_nil in Hl. Qed.
Lemma mac_groups_String hw : valid_mac hw → mac_groups (byte 58) 2 (HardwareAddr_String hw) = Some hw.
Proof.
  intros Hv. pose proof (mac_length _ Hv) as Hlen. destruct Hv as [Hr Hl]. unfold mac_groups, HardwareAddr_String. rewrite (Split_Join (hex2 false <$> hw) (byte 58)).
  2: { destruct hw; [cbn in Hlen; lia|done]. }
  2: { apply Forall_fmap. eapply Forall_impl; [exact Hr|]. intros z Hz. apply hex2_piece, Hz. }
  assert (forallb (λ g, slen g =? 2) (hex2 false <$> hw) = true) as ->.
  { clear Hl Hlen. induction Hr as [|z hw Hz _ IH]; [done|]. cbn. rewrite IH, andb_true_r. by destruct (hex2_piece z Hz) as (-> & _). }
  assert (mapM hex_bytes (hex2 false <$> hw) = Some ((λ z, [z]) <$> hw)) as ->.
  { apply mapM_Some. apply Forall2_fmap. clear Hl Hlen. induction Hr as [|z hw Hz _ IH]; constructor; [apply hex2_piece, Hz|done]. }
  change (mjoin <$> Some ?l) with (Some (mjoin l)). set (l := mjoin _). assert (l = hw) as ->.
  { subst l. clear. induction hw as [|z hw IH]; [done|]. exact (f_equal (cons z) IH). }
  by rewrite bool_decide_true.
Qed.
Lemma ParseMAC_String hw : valid_mac hw → ParseMAC (HardwareAddr_String hw) = Some hw.
Proof.
  intros Hv. pose proof (mac_groups_String hw Hv) as Hg. pose proof (mac_length _ Hv) as Hlen. destruct Hv as [Hr Hl]. unfold ParseMAC.
  destruct hw as [|z1 [|z2 [|z3 [|z4 [|z5 [|z6 hw]]]]]]; try (cbn in Hlen; lia).
  assert (slen (HardwareAddr_String (z1 :: z2 :: z3 :: z4 :: z5 :: z6 :: hw)) <? 14 = false) as ->.
  { apply Nat.ltb_ge. unfold HardwareAddr_String. cbn [fmap list_fmap Join]. rewrite !str_length_app.
    repeat match goal with H : Forall _ (?z :: _) |- _ => inversion_clear H end.
    repeat match goal with H : byte_range ?z |- _ => destruct (hex2_piece z H) as (-> & _); clear H end. cbn. lia. }
  inversion_clear Hr as [|? ? H1 Hr1]. inversion_clear Hr1 as [|? ? H2 _].
  destruct (hex2_val false z1 H1) as (a & b & x & y & He & _). destruct (hex2_val false z2 H2) as (c & d & x' & y' & He' & _).
  revert Hg. unfold HardwareAddr_String. cbn [fmap list_fmap Join]. rewrite He, He', !str_cons_app. cbn [String.get]. intros Hg. exact Hg.
Qed.
Lemma String_inj hw hw' : valid_mac hw → valid_mac hw' → HardwareAddr_String hw = HardwareAddr_String hw' → hw = hw'.
Proof. intros H%ParseMAC_String H'%ParseMAC_String He. rewrite He, H' in H. by injection H. Qed.

(** * The address of a MAC *)
(** [x] is the one element of [l] that satisfies [P]. *)
Definition only {A} (P : A → Prop) (l : list A) (x : A) : Prop :=
  ∃ l1 l2, l = l1 ++ x :: l2 ∧ P x ∧ Forall (λ y, ¬ P y) (l1 ++ l2).
(** The interface is not the loopback one and has this hardware address, however written. *)
Definition has_mac (hw : list Z) (i : AgentInterface) : Prop :=
  if_Name i ≠ "lo" ∧ ParseMAC (trim_space (HardwareAddress i)) = Some hw.
Definition usable (a : AgentIPAddress) : Prop :=
  ∃ ip, ParseIP (trim_space (Address a)) = Some ip ∧ IsUnspecified ip = false ∧ IsLoopback ip = false ∧
    IsLinkLocalUnicast ip = false ∧ IsLinkLocalMulticast ip = false.
Lemma filter_none {A} (P : A → Prop) `{!∀ x, Decision (P x)} l : filter P l = [] ↔ Forall (λ y, ¬ P y) l.
Proof.
  induction l as [|y l IH]; [done|]. rewrite filter_cons, Forall_cons. case_decide; [naive_solver|]. rewrite IH. naive_solver.
Qed.
Lemma filter_only {A} (P : A → Prop) `{!∀ x, Decision (P x)} l x : filter P l = [x] ↔ only P l x.
Proof.
  split.
  - induction l as [|y l IH]; [done|]. rewrite filter_cons. case_decide as Hy.
    + intros [= -> Hn%filter_none]. by exists [], l.
    + intros (l1 & l2 & -> & Hx & Hn)%IH. exists (y :: l1), l2. split_and!; [done..|]. by constructor.
  - intros (l1 & l2 & -> & Hx & [H1 H2]%Forall_app).
    by rewrite filter_app, (proj2 (filter_none P l1) H1), filter_cons, decide_True, (proj2 (filter_none P l2) H2).
Qed.
Lemma only_iff {A} (P Q : A → Prop) l x : (∀ y, P y ↔ Q y) → only P l x ↔ only Q l x.
Proof. intros H. unfold only. by setoid_rewrite H. Qed.
Lemma reports_mac_iff hw i : valid_mac hw → reports_mac (HardwareAddr_String hw) i = true ↔ has_mac hw i.
Proof.
  intros Hv. unfold reports_mac, not_loopback, has_mac, canonicalMAC. rewrite andb_true_iff, negb_true_iff, eqb_false.
  destruct (ParseMAC (trim_space (HardwareAddress i))) as [hw'|] eqn:Hp; [|by split; intros []].
  rewrite eqb_true. split; [|by intros [? [= ->]]]. intros [? He]. split; [done|].
  by rewrite (String_inj _ _ (ParseMAC_valid _ _ Hp) Hv He).
Qed.
Lemma usable_iff a : isUsableGuestAddress (Address a) = true ↔ usable a.
Proof.
  unfold isUsableGuestAddress, usable. destruct (ParseIP _) as [ip|]; [|split; [done|]; by intros (? & ? & _)].
  rewrite !andb_true_iff, !negb_true_iff, orb_false_iff. split; [intros [[[? ?] ?] ?]; by exists ip|]. by intros (? & [= <-] & ? & ? & ? & ?).
Qed.
Lemma interfaceForMAC_iff ifaces mac i :
  interfaceForMAC ifaces mac = Ok i ↔ ∃ hw, ParseMAC (trim_space mac) = Some hw ∧ only (has_mac hw) ifaces i.
Proof.
  unfold interfaceForMAC, canonicalMAC. destruct (ParseMAC (trim_space mac)) as [hw|] eqn:Hp; [|split; [done|]; by intros (? & ? & _)].
  transitivity (filter (λ i, reports_mac (HardwareAddr_String hw) i = true) ifaces = [i]).
  - case_bool_decide as Hl; cbn [negb].
    + apply nil_length_inv in Hl as ->. by split.
    + destruct (filter _ ifaces) as [|j [|j' l]]; [by split..| |by split]. split; [by intros [= ->]|by intros [= ->]].
  - rewrite filter_only, (only_iff _ (has_mac hw)) by (intros; by apply reports_mac_iff, ParseMAC_valid with (s := trim_space mac)).
    split; [by exists hw|]. by intros (? & [= <-] & ?).
Qed.
Definition several {A} (P : A → Prop) (l : list A) : Prop := ∃ l1 x l2 y l3, l = l1 ++ x :: l2 ++ y :: l3 ∧ P x ∧ P y.
Lemma filter_split {A} (P : A → Prop) `{!∀ x, Decision (P x)} l x l' :
  filter P l = x :: l' → ∃ l1 l2, l = l1 ++ x :: l2 ∧ P x ∧ filter P l2 = l'.
Proof.
  induction l as [|y l IH]; [done|]. rewrite filter_cons. case_decide as Hy.
  - intros [= <- <-]. by exists [], l.
  - intros (l1 & l2 & -> & ? & ?)%IH. by exists (y :: l1), l2.
Qed.
Lemma filter_several {A} (P : A → Prop) `{!∀ x, Decision (P x)} l x y l' : filter P l = x :: y :: l' → several P l.
Proof.
  intros (l1 & l2 & -> & Hx & (l3 & l4 & -> & Hy & _)%filter_split)%filter_split. by exists l1, x, l3, y, l4.
Qed.
(** Why no address is given. *)
Definition addressless (ifaces : list AgentInterface) (mac : string) (e : err) : Prop :=
  match ParseMAC (trim_space mac) with
  | None => True
  | Some hw =>
      errors_Is ErrNoGuestInterfaces e = true ∧ ifaces = [] ∨
      errors_Is ErrNoInterfaceForMAC e = true ∧ Forall (λ i, ¬ has_mac hw i) ifaces ∨
      errors_Is ErrAmbiguousInterfaceForMAC e = true ∧ several (has_mac hw) ifaces ∨
      ∃ i, only (has_mac hw) ifaces i ∧
        (errors_Is ErrNoAddressForMAC e = true ∧ Forall (λ a, ¬ usable a) (IPAddresses i) ∨
         errors_Is ErrAmbiguousAddressForMAC e = true ∧ several usable (IPAddresses i))
  end.
Lemma Forall_iff {A} (P Q : A → Prop) l : (∀ x, P x ↔ Q x) → Forall (λ x, ¬ P x) l ↔ Forall (λ x, ¬ Q x) l.
Proof. intros H. by setoid_rewrite H. Qed.
Lemma several_iff {A} (P Q : A → Prop) l : (∀ x, P x ↔ Q x) → several P l ↔ several Q l.
Proof. intros H. unfold several. by setoid_rewrite H. Qed.
Lemma interfaceForMAC_fails ifaces mac e :
  interfaceForMAC ifaces mac = Er e → addressless ifaces mac e.
Proof.
  unfold interfaceForMAC, canonicalMAC, addressless. destruct (ParseMAC (trim_space mac)) as [hw|] eqn:Hp; [|done].
  assert (∀ i, reports_mac (HardwareAddr_String hw) i = true ↔ has_mac hw i) as Hiff by (intros; by eapply reports_mac_iff, ParseMAC_valid).
  case_bool_decide as Hl; cbn [negb].
  { intros [= <-]. left. split; [done|by apply nil_length_inv]. }
  destruct (filter _ ifaces) as [|j [|j' l]] eqn:Hf; [| done|]; intros [= <-]; right.
  - left. split; [done|]. apply (Forall_iff _ _ _ Hiff). by apply filter_none in Hf.
  - right. left. split; [done|]. apply (several_iff _ _ _ Hiff). by apply filter_several in Hf.
Qed.

Lemma net_mac_index kv n m : net_mac kv = Some (n, m) → netConfigIndex kv.1 = Some n.
Proof. unfold net_mac. destruct (netConfigIndex kv.1) as [k|]; [|done]. repeat case_match; try done. by intros [= -> _]. Qed.
Lemma net_macs_go (l : list (string * json)) macs n m :
  NoDup (omap (λ kv : string * json, netConfigIndex kv.1) l) →
  foldl add_net macs l !! n = Some m ↔
    (∃ kv, kv ∈ l ∧ net_mac kv = Some (n, m)) ∨ macs !! n = Some m ∧ ∀ kv m', kv ∈ l → net_mac kv ≠ Some (n, m').
Proof.
  revert macs. induction l as [|kv l IH]; intros macs Hn; cbn [foldl].
  { split; [intros ?; right; split; [done|]; by intros ? ? ?%elem_of_nil|]. by intros [(? & ?%elem_of_nil & _)|[? _]]. }
  assert (NoDup (omap (λ kv : string * json, netConfigIndex kv.1) l)) as Hn'.
  { revert Hn. cbn. destruct (netConfigIndex kv.1); [|done]. by intros [_ ?]%NoDup_cons. }
  rewrite IH by done. unfold add_net. setoid_rewrite elem_of_cons. destruct (net_mac kv) as [[k mac]|] eqn:Hk.
  2: { split; [intros [(x & ? & ?)|[? H]]; [left; exists x; auto|right; split; [done|]; intros x m' [->|?]; [congruence|by apply H]]|].
       intros [(x & [->|?] & ?)|[? H]]; [congruence|left; by exists x|right; split; [done|]; intros x m' ?; apply H; auto]. }
  pose proof (net_mac_index _ _ _ Hk) as Hi. cbn in Hn. rewrite Hi in Hn. apply NoDup_cons in Hn as [Hnot _].
  assert (∀ x m', x ∈ l → net_mac x ≠ Some (k, m')) as Hk'.
  { intros x m' Hx Hm. apply Hnot, list_elem_of_omap. exists x. split; [done|]. by eapply net_mac_index. }
  destruct (decide (n = k)) as [->|Hne].
  - rewrite lookup_insert_eq. split.
    + intros [(x & ? & Hx)|[[= ->] _]]; [exfalso; by apply (Hk' x m)|]. left. exists kv. auto.
    + intros [(x & [->|?] & Hx)|[_ H]]; [right; split; [congruence|done]|exfalso; by apply (Hk' x m)|exfalso; apply (H kv mac); [by left|done]].
  - rewrite lookup_insert_ne by done. split.
    + intros [(x & ? & ?)|[? H]]; [left; exists x; auto|right; split; [done|]]. intros x m' [->|?]; [congruence|by apply H].
    + intros [(x & [->|?] & ?)|[? H]]; [congruence|left; by exists x|right; split; [done|]; intros x m' ?; apply H; auto].
Qed.
Lemma net_macs_lookup (l : list (string * json)) n m :
  NoDup (omap (λ kv : string * json, netConfigIndex kv.1) l) → net_macs l !! n = Some m ↔ ∃ kv, kv ∈ l ∧ net_mac kv = Some (n, m).
Proof. intros Hn. unfold net_macs. rewrite net_macs_go by done. rewrite lookup_empty. naive_solver. Qed.
(** The order the config's entries are ranged over does not matter, unless two keys have one
    index, as net0 and net00 do. *)
Theorem net_macs_order (l l' : list (string * json)) :
  NoDup (omap (λ kv : string * json, netConfigIndex kv.1) l) → l ≡ₚ l' → net_macs l = net_macs l'.
Proof.
  intros Hn Hp. apply map_eq. intros n. apply option_eq. intros m. rewrite !net_macs_lookup; [|by rewrite <- Hp|done].
  by setoid_rewrite Hp.
Qed.

(** ** Addresses as they are printed *)
Definition dotted (l : list Z) : string := Join "." (itoa <$> l).
Lemma octet_itoa z : byte_range z →
  octet (itoa z) = Some z ∧ any_byte (is_byte (Ascii.N_of_ascii (byte 46))) (itoa z) = false ∧ any_byte (one_of ".:%") (itoa z) = false.
Proof.
  intros Hz. assert (forallb (λ z, bool_decide (octet (itoa z) = Some z) && negb (any_byte (is_byte 46) (itoa z)) &&
    negb (any_byte (one_of ".:%") (itoa z))) (seqZ 0 256) = true) as H by (vm_compute; reflexivity).
  rewrite forallb_forall in H. specialize (H z). rewrite <- list_elem_of_In, elem_of_seqZ in H. unfold byte_range in Hz.
  destruct (andb_prop _ _ (H ltac:(lia))) as [[H1%bool_decide_eq_true H2%negb_true_iff]%andb_prop H3%negb_true_iff]. done.
Qed.
Lemma first_of_app s c t : any_byte (one_of ".:%") s = false → one_of ".:%" c = true → first_of (s +:+ String c t) = Some c.
Proof.
  intros Hs Hc. induction s as [|d s IH]; [change ("" +:+ ?x) with x; cbn [first_of]; by rewrite Hc|].
  cbn [any_byte] in Hs. apply orb_false_iff in Hs as [Hd Hs]. rewrite str_cons_app. cbn [first_of]. rewrite Hd. by apply IH.
Qed.
(** An IPv4 address as it is printed is read back, as the 16 bytes that map it. *)
Theorem ParseIP_dotted a b c d :
  Forall byte_range [a; b; c; d] → ParseIP (dotted [a; b; c; d]) = Some (v4_prefix ++ [a; b; c; d]).
Proof.
  intros H. rewrite !Forall_cons in H. destruct H as (Ha & Hb & Hc & Hd & _).
  destruct (octet_itoa a Ha) as (Oa & Sa & Fa), (octet_itoa b Hb) as (Ob & Sb & _), (octet_itoa c Hc) as (Oc & Sc & _), (octet_itoa d Hd) as (Od & Sd & _).
  unfold ParseIP. assert (first_of (dotted [a; b; c; d]) = Some (byte 46)) as ->.
  { unfold dotted. cbn [fmap list_fmap Join]. by apply (first_of_app (itoa a) (byte 46)). }
  change (is_byte 46 (byte 46)) with true. cbv iota. unfold parseIPv4, dotted. change "." with (String (byte 46) "").
  rewrite (Split_Join (itoa <$> [a; b; c; d]) (byte 46)) by (done || (cbn [fmap list_fmap]; by repeat constructor)).
  cbn [fmap list_fmap mapM]. unfold mbind, option_bind. by rewrite Oa, Ob, Oc, Od.
Qed.

(** * Properties *)
(** C12: the address of a MAC is given exactly when one interface other than the loopback one has
    that MAC, in whatever notation, and one of its addresses, and one only, can be used: it is
    written as an IP address and is not unspecified, loopback or link-local. Otherwise the error
    says which of this fails, and whether nothing or more than one was found. *)
Theorem AddressForMAC_iff ifaces mac :
  (∀ a, AddressForMAC ifaces mac = Ok a ↔
     ∃ hw i, ParseMAC (trim_space mac) = Some hw ∧ only (has_mac hw) ifaces i ∧ only usable (IPAddresses i) a) ∧
  (∀ e, AddressForMAC ifaces mac = Er e → addressless ifaces mac e).
Proof.
  unfold AddressForMAC. cbv zeta. split.
  - intros a. rewrite call_iff. transitivity (∃ i, interfaceForMAC ifaces mac = Ok i ∧ only usable (IPAddresses i) a).
    + apply exist_proper. intros i. apply and_iff_compat_l. rewrite <- (only_iff _ _ _ _ usable_iff).
      transitivity (filter (λ a, isUsableGuestAddress (Address a) = true) (IPAddresses i) = [a]); [|apply filter_only].
      destruct (filter _ _) as [|x [|y l]]; [split; by intros [=]| |split; by intros [=]]. split; by intros [= ->].
    + setoid_rewrite interfaceForMAC_iff. naive_solver.
  - intros e. destruct (interfaceForMAC ifaces mac) as [i|e'] eqn:Hi; [|intros [= <-]; by apply interfaceForMAC_fails].
    apply interfaceForMAC_iff in Hi as (hw & Hp & Ho). unfold addressless. rewrite Hp.
    destruct (filter _ _) as [|x [|y l]] eqn:Hf; [| done|]; intros [= <-]; do 3 right; exists i; (split; [done|]).
    + left. split; [done|]. apply (Forall_iff _ _ _ usable_iff). by apply filter_none in Hf.
    + right. split; [done|]. apply (several_iff _ _ _ usable_iff). by apply filter_several in Hf.
Qed.
(** The MAC of a net config is a MAC in the one notation that all notations are compared in. *)
Theorem canonicalMAC_canonical mac m :
  canonicalMAC mac = Ok m → ∃ hw, ParseMAC (trim_space mac) = Some hw ∧ ParseMAC m = Some hw ∧ m = HardwareAddr_String hw.
Proof.
  unfold canonicalMAC. destruct (ParseMAC (trim_space mac)) as [hw|] eqn:Hp; [|done]. intros [= <-].
  exists hw. split_and!; [done| |done]. by eapply ParseMAC_String, ParseMAC_valid.
Qed.

(** * Examples *)
Example parse_macs :
  (ParseMAC <$> ["BC:24:11:aa:0b:0C"; "bc-24-11-aa-0b-0c"; "bc24.11aa.0b0c"; "bc:24:11:aa:0b"; "bc:24:11-aa:0b:0c"; "bc2:41:1a:a0:b0:c0"])
    = [Some [188; 36; 17; 170; 11; 12]; Some [188; 36; 17; 170; 11; 12]; Some [188; 36; 17; 170; 11; 12]; None; None; None]%Z.
Proof. vm_compute. reflexivity. Qed.
Example parse_ips :
  (ParseIP <$> ["10.0.0.7"; "::1"; "fe80::1"; "::ffff:10.0.0.7"; "2001:db8::"]) =
    [Some (v4_prefix ++ [10; 0; 0; 7]); Some (replicate 15 0 ++ [1]); Some ([254; 128] ++ replicate 13 0 ++ [1]);
     Some (v4_prefix ++ [10; 0; 0; 7]); Some ([32; 1; 13; 184] ++ replicate 12 0)]%Z ∧
  (ParseIP <$> ["10.0.0"; "10.0.0.07"; "256.0.0.1"; "fe80::1%eth0"; "1::2::3"; "12345::"; "1:2:3:4:5:6:7:8:9"; "1:2:3:4:5:6:7::8"; ""; ":1"])
    = [None; None; None; None; None; None; None; None; None; None].
Proof. vm_compute. auto. Qed.
Example mac_of_net :
  MACFromNetConfig "virtio=BC:24:11:AA:0B:0C,bridge=vmbr0" = Ok "bc:24:11:aa:0b:0c" ∧
  MACFromNetConfig "virtio=BC:24:11:AA:0B:0C,MacAddr=02:00:00:00:00:01" = Ok "02:00:00:00:00:01" ∧
  is_ok (MACFromNetConfig "bridge=vmbr0") = false.
Proof. vm_compute. auto. Qed.
Definition lab_ifaces : list AgentInterface :=
  [{| if_Name := "lo"; HardwareAddress := "00:00:00:00:00:00"; IPAddresses := [] |};
   {| if_Name := "eth0"; HardwareAddress := "bc:24:11:aa:0b:0c"; IPAddresses :=
        [{| Address := "fe80::be24:11ff:feaa:b0c"; ip_Type := "ipv6"; ip_Prefix := 64 |};
         {| Address := "10.0.0.7"; ip_Type := "ipv4"; ip_Prefix := 24 |}] |}].
Example guest_address : Address <$> (match AddressForMAC lab_ifaces "BC-24-11-AA-0B-0C" with Ok a => [a] | Er _ => [] end) = ["10.0.0.7"].
Proof. vm_compute. reflexivity. Qed.
Example guest_addressless : is_ok (AddressForMAC lab_ifaces "00:00:00:00:00:00") = false.
Proof. vm_compute. reflexivity. Qed.
