(* ===== verification/Outer.v ===== *)
(** internal/harness/outer: what the harness proves of a VM of the outer cluster before it
    changes or destroys it ([Guard]), what shows that one is gone ([VMGone]), the record of
    the VMs this run created ([Ledger]) and what a storage must be. *)
From Stdlib Require Import Ascii.
From S2P Require Import Prelude GoLib Errors Json Rest Vms Task Grants.

(** ** outer.go *)
Definition DefaultPool : string := "pveforge-harness".
Definition DefaultTag : string := "pveforge-harness".
Definition minVMID : Z := 690.
Definition maxVMID : Z := 699.
Record Config := { Pool : string; cfg_Node : string; Tag : string }.
Definition ValidVMID (vmid : Z) : bool := ((minVMID <=? vmid) && (vmid <=? maxVMID))%Z.

(** What the harness calls: PVE, the file of a ledger ([None] if there is none), and, in a
    golden or reset run, the environment, the clock, the directories of the evidence, which
    only their owner may read, the evidence and the acceptance. *)
Inductive outerE : Type → Type :=
| OPve {R} (e : pveE R) : outerE R
| OReadFile (path : string) : outerE (res (option string))
| OAppendFile (path data : string) : outerE (res unit)
| OEnv (name : string) : outerE string
| OClock : outerE string
| OMkdirAll (path : string) : outerE (res unit)
| OMkdir (path : string) : outerE (res unit)
| OEvidence (name : string) (content : json) : outerE unit
| OStep (line : string) : outerE unit
| OAccept (minutes : Z) (why : string) : outerE (res unit).
Definition pve_call {A} (m : io pveE A) : io outerE A := lift (@OPve) m.

(** ** tags.go *)
Definition tag_sep (c : ascii) : bool := one_of (",; " +:+ chr 9 +:+ chr 10 +:+ chr 11 +:+ chr 12 +:+ chr 13) c.
(** [strings.FieldsFunc] over bytes; [acc] is the field being read. *)
Fixpoint fields_func (sep : ascii → bool) (acc s : string) : list string :=
  match s with
  | EmptyString => if eqb acc "" then [] else [acc]
  | String c s' =>
      if sep c then (if eqb acc "" then [] else [acc]) ++ fields_func sep "" s'
      else fields_func sep (acc +:+ String c "") s'
  end.
Definition tagsHave (tags tag : string) : bool :=
  let parts := if any_byte (is_byte 0) tags then Split (byte 0) tags else fields_func tag_sep "" tags in
  bool_decide (tag ∈ parts).

(** ** guard.go *)
Inductive Mode := ModeChange | ModeDestroy | ModeTag.
(** [pm_VMID] is [None] where the key is missing. *)
Record poolMember := { pm_Type : string; pm_VMID : option json; pm_Node : string }.
(** A struct's field of type string. *)
Definition struct_str (name : string) (l : list (string * json)) : option string :=
  match struct_field name l with None => Some "" | Some j => as_string j end.
Definition decode_member (j : json) : option poolMember :=
  match j with
  | JNull => Some {| pm_Type := ""; pm_VMID := None; pm_Node := "" |}
  | JObj l =>
      t ← struct_str "type" l; n ← struct_str "node" l;
      Some {| pm_Type := t; pm_VMID := struct_field "vmid" l; pm_Node := n |}
  | _ => None
  end.
(** A pool's id and members; no members where Go's slice is nil. *)
Definition decode_pool (j : json) : option (string * option (list poolMember)) :=
  match j with
  | JNull => Some ("", None)
  | JObj l =>
      i ← struct_str "poolid" l;
      match struct_field "members" l with
      | None | Some JNull => Some (i, None)
      | Some (JArr ms) => ms ← mapM decode_member ms; Some (i, Some ms)
      | _ => None
      end
  | _ => None
  end.
Definition decode_pools (j : json) : option (list (string * option (list poolMember))) :=
  match j with JNull => Some [] | JArr l => mapM decode_pool l | _ => None end.
Definition numericVMID (raw : option json) : option Z :=
  match raw with Some (JNum lit) => atoi lit | _ => None end.
Definition VMPath (node : string) (vmid : Z) (sub : string) : string :=
  "/nodes/" +:+ node +:+ "/qemu/" +:+ itoa vmid +:+ (if eqb sub "" then "" else "/" +:+ sub).
Definition readPool (pool : string) : io pveE (res (list poolMember)) :=
  let shape := "pool " +:+ pool +:+ ": the answer has an unexpected shape" in
  let? raw := RawRequest "GET" "/pools" (values [("poolid", pool)]) orelse wrapf ("reading pool " +:+ pool +:+ " failed") in
  Ret match decode_pools raw with
      | None => Er (wrapf shape (errorf "json: cannot unmarshal"))
      | Some [(i, Some ms)] => if eqb i pool then Ok ms else Er (errorf shape)
      | Some _ => Er (errorf shape)
      end.
Definition is_member (vmid : Z) (m : poolMember) : bool :=
  eqb (pm_Type m) "qemu" && bool_decide (numericVMID (pm_VMID m) = Some vmid).
(** The node of the pool's one member with this vmid. *)
Definition member_node (vmid : Z) (ms : list poolMember) : option string :=
  match List.filter (is_member vmid) ms with
  | [m] => if eqb (pm_Node m) "" then None else Some (pm_Node m)
  | _ => None
  end.
Definition config_tags (j : json) : option string :=
  match j with JNull => Some "" | JObj l => struct_str "tags" l | _ => None end.

(** ** ledger.go *)
Definition newline_byte : ascii := byte 10.
(** The lines of bufio's scanner: what follows the last newline is one only if not empty. *)
Definition scan_lines (text : string) : list string :=
  let l := Split newline_byte text in
  match last l with Some "" => List.removelast l | _ => l end.
(** Each is given without one carriage return at its end. *)
Definition drop_cr (line : string) : string :=
  match srev line with String c r => if is_byte 13 c then srev r else line | EmptyString => "" end.
Definition maxScanTokenSize : Z := 65536.
Fixpoint ledger_has (path want : string) (lines : list string) : res bool :=
  match lines with
  | [] => Ok false
  | line :: lines' =>
      if (maxScanTokenSize <=? Z.of_nat (slen line))%Z then
        Er (wrapf ("read created-VM ledger " +:+ path) (errorf "bufio.Scanner: token too long"))
      else if eqb (drop_cr line) want then Ok true else ledger_has path want lines'
  end.
Definition Has (path : string) (vmid : Z) : io outerE (res bool) :=
  let? text := trigger (OReadFile path) orelse wrapf ("read created-VM ledger " +:+ path) in
  Ret match text with None => Ok false | Some text => ledger_has path (itoa vmid) (scan_lines text) end.
Definition Add (path : string) (vmid : Z) : io outerE (res unit) :=
  let? _ := trigger (OAppendFile path (itoa vmid +:+ chr 10)) orelse wrapf ("record VM " +:+ itoa vmid +:+ " as created") in
  Ret (Ok tt).

(** ** The guard *)
Definition Guard (cfg : Config) (led : option string) (vmid : Z) (mode : Mode) : io outerE (res unit) :=
  let vm := "VM " +:+ itoa vmid in
  guard ValidVMID vmid orelse errorf ("VMID " +:+ itoa vmid +:+ " is not one of 690-699") in
  let? members := pve_call (readPool (Pool cfg)) orelse id in
  match member_node vmid members with
  | None => Ret (Er (errorf (vm +:+ " is not a qemu member of pool " +:+ Pool cfg)))
  | Some node =>
      guard eqb node (cfg_Node cfg) orelse errorf (vm +:+ " is on node " +:+ node +:+ ", not " +:+ cfg_Node cfg) in
      let tagged :=
        let? raw := pve_call (RawRequest "GET" (VMPath (cfg_Node cfg) vmid "config") ∅)
          orelse wrapf ("reading " +:+ vm +:+ "'s config failed") in
        match config_tags raw with
        | None => Ret (Er (wrapf (vm +:+ ": config has an unexpected shape") (errorf "json: cannot unmarshal")))
        | Some tags => guard tagsHave tags (Tag cfg) orelse errorf (vm +:+ " does not carry tag " +:+ Tag cfg) in Ret (Ok tt)
        end in
      match mode with
      | ModeTag => Ret (Ok tt)
      | ModeChange => tagged
      | ModeDestroy =>
          match led with
          | None => Ret (Er (errorf (vm +:+ ": destroying needs a created-VM ledger (--created-file) listing the VM")))
          | Some path =>
              let? created := Has path vmid orelse id in
              guard created orelse errorf (vm +:+ " was not created by this run; destroying it needs a fresh operator ask") in
              tagged
          end
      end
  end.

(** ** rawupid.go *)
Definition RawUPID (method path : string) (params : Values) : io pveE (res string) :=
  let? raw := RawRequest method path params orelse id in
  Ret match as_string raw with
      | Some upid => Ok upid
      | None => Er (errorf (method +:+ " " +:+ path +:+ ": expected a task UPID, got " +:+ compact raw))
      end.

(** ** goneproof.go *)
Definition upper_hex (c : ascii) : bool := is_digit c || in_range 65 70 c.
(** Neither a colon nor white space nor a control character. *)
Definition user_byte (c : ascii) : bool :=
  negb (is_byte 58 c || in_range 0 32 c || is_byte 127 c).
Definition nonempty_of (p : ascii → bool) (s : string) : bool := negb (eqb s "") && all_bytes p s.
(** The node, the type and the id. *)
Definition upidRE (upid : string) : option (string * string * string) :=
  match Split (byte 58) upid with
  | [u; node; pid; pstart; start; typ; id; user; last] =>
      if eqb u "UPID" && nonempty_of (λ c, is_alnum c || one_of ".-" c) node
         && all_bytes upper_hex pid && bool_decide (slen pid = 8) && all_bytes upper_hex pstart && bool_decide (8 ≤ slen pstart)
         && all_bytes upper_hex start && bool_decide (slen start = 8) && nonempty_of is_lower typ && nonempty_of is_digit id
         && nonempty_of user_byte user && eqb last ""
      then Some (node, typ, id) else None
  | _ => None
  end.
Record taskStatus :=
  { ts_UPID : string; ts_Type : string; ts_ID : string; ts_Node : string; ts_Status : string; ts_ExitStatus : string }.
Definition decode_status (j : json) : option taskStatus :=
  let dec l :=
    u ← struct_str "upid" l; t ← struct_str "type" l; i ← struct_str "id" l; n ← struct_str "node" l;
    s ← struct_str "status" l; e ← struct_str "exitstatus" l;
    Some {| ts_UPID := u; ts_Type := t; ts_ID := i; ts_Node := n; ts_Status := s; ts_ExitStatus := e |} in
  match j with JNull => dec [] | JObj l => dec l | _ => None end.
Definition task_status_path (node upid : string) : string := "/nodes/" +:+ node +:+ "/tasks/" +:+ path_escape upid +:+ "/status".
Definition DestroyTaskOK (cfg : Config) (vmid : Z) (upid : string) : io pveE (res unit) :=
  let vm := "VM " +:+ itoa vmid in
  match upidRE upid with
  | None => Ret (Er (errorf ("the destroy of " +:+ vm +:+ " printed no task UPID")))
  | Some (node, typ, id_) =>
      guard eqb node (cfg_Node cfg) && eqb typ "qmdestroy" && eqb id_ (itoa vmid) orelse
        errorf ("the destroy of " +:+ vm +:+ " printed " +:+ upid +:+ ", which is not a qmdestroy task for " +:+ vm +:+ " on " +:+ cfg_Node cfg) in
      let? raw := RawRequest "GET" (task_status_path (cfg_Node cfg) upid) ∅
        orelse wrapf ("the status of the destroy task " +:+ upid +:+ " could not be read") in
      match decode_status raw with
      | None => Ret (Er (wrapf ("the status of the destroy task " +:+ upid +:+ " has an unexpected shape") (errorf "json: cannot unmarshal")))
      | Some st =>
          guard eqb (ts_UPID st) upid && eqb (ts_Type st) "qmdestroy" && eqb (ts_ID st) (itoa vmid) && eqb (ts_Node st) (cfg_Node cfg)
                && eqb (ts_Status st) "stopped" && eqb (ts_ExitStatus st) "OK" orelse
            errorf ("the destroy task " +:+ upid +:+ " is not a stopped qmdestroy of " +:+ vm +:+ " on " +:+ cfg_Node cfg
              +:+ " with exitstatus OK (WARNINGS means a disk was not freed)") in
          Ret (Ok tt)
      end
  end.
Definition scalarEqualsInt (raw : json) (n : Z) : bool :=
  match raw with JNum s | JStr s => eqb s (itoa n) | _ => false end.
Definition VMIDFree (vmid : Z) : io pveE (res unit) :=
  let n := itoa vmid in
  let? raw := RawRequest "GET" "/cluster/nextid" (values [("vmid", n)])
    orelse wrapf ("/cluster/nextid did not answer 200 for VMID " +:+ n +:+ ": it is in use, or the read failed") in
  guard scalarEqualsInt raw vmid orelse errorf ("/cluster/nextid answered 200 for VMID " +:+ n +:+ ", but not with " +:+ n) in
  Ret (Ok tt).
(** No member is the VM, and each has a number. *)
Fixpoint not_listed (pool : string) (vmid : Z) (ms : list poolMember) : res unit :=
  match ms with
  | [] => Ok tt
  | m :: ms' =>
      match numericVMID (pm_VMID m) with
      | None => Er (errorf ("pool " +:+ pool +:+ ": a member's vmid is not a number (unexpected shape)"))
      | Some i =>
          guard^ negb (i =? vmid)%Z orelse errorf ("pool " +:+ pool +:+ " still lists VM " +:+ itoa vmid) in not_listed pool vmid ms'
      end
  end.
Definition VMGone (cfg : Config) (vmid : Z) (upid : string) : io pveE (res unit) :=
  let? _ := DestroyTaskOK cfg vmid upid orelse id in
  let? _ := VMIDFree vmid orelse id in
  let? members := readPool (Pool cfg) orelse id in
  Ret (not_listed (Pool cfg) vmid members).

(** ** storage.go *)
Definition storage_byte (c : ascii) : bool := is_lower c || is_digit c.
Definition storageIDRE (s : string) : bool :=
  match s, srev s with
  | String c _, String d _ =>
      is_lower c && storage_byte d && bool_decide (2 ≤ slen s) && all_bytes (λ x, storage_byte x || one_of "._-" x) s
  | _, _ => false
  end.
Definition StorageSlack : Z := 2 ^ 20.
Definition gib : Z := 2 ^ 30.
Record StorageStatus :=
  { s_Type : string; s_Enabled : bool; s_Active : bool; s_Content : string; s_Avail : Z; s_Used : Z; s_HasUsed : bool }.
Definition RequireStorage (s : string) : res string :=
  guard^ negb (eqb s "") orelse errorf "the outer storage is required (--storage or HARNESS_STORAGE); there is no default" in
  guard^ storageIDRE s orelse errorf (quote s +:+ " is not a PVE storage id") in
  Ok s.
Definition boolish (raw : option json) : option bool :=
  match raw with
  | Some (JBool b) => Some b
  | Some (JNum lit) => if eqb lit "1" then Some true else if eqb lit "0" then Some false else None
  | _ => None
  end.
Definition intJSON (raw : option json) : option Z :=
  match raw with
  | Some (JNum lit) => match atoi lit with Some i => if (i <? 0)%Z then None else Some i | None => None end
  | _ => None
  end.
Definition ParseStorageStatus (raw : json) : res StorageStatus :=
  let bad says := Er (errorf ("the status answer has an unexpected shape: " +:+ says)) in
  match as_object raw with
  | None => bad "json: cannot unmarshal"
  | Some m =>
      let m := default ∅ m in
      match field as_string m "type" with
      | None | Some "" => bad "no string type"
      | Some type =>
          match field as_string m "content", intJSON (m !! "avail") with
          | None, _ => bad "no string content"
          | _, None => bad "avail is not an integer number"
          | Some content, Some avail =>
              let used := intJSON (m !! "used") in
              Ok {| s_Type := type; s_Enabled := default false (boolish (m !! "enabled"));
                    s_Active := default false (boolish (m !! "active")); s_Content := content; s_Avail := avail;
                    s_Used := default 0%Z used; s_HasUsed := bool_decide (is_Some used) |}
          end
      end
  end.
Definition contentHasImages (content : string) : bool := bool_decide ("images" ∈ Split (byte 44) content).
(** [""] is suitable; the floor is a product of 64-bit integers. *)
Definition Unsuitable (s : StorageStatus) (minFreeGiB : Z) : string :=
  if negb (s_Enabled s) then "it is not enabled"
  else if negb (s_Active s) then "it is not active"
  else if negb (contentHasImages (s_Content s)) then "its content does not include images"
  else if eqb (s_Type s) "zfspool" then
    if (s_Avail s <? wrap64 (minFreeGiB * gib))%Z then
      itoa (s_Avail s / gib)%Z +:+ " GiB free, below HARNESS_PROBE_MIN_FREE_GIB=" +:+ itoa minFreeGiB
    else ""
  else if eqb (s_Type s) "lvmthin" then
    "type lvmthin is not supported: the harness is proven on zfspool only (lvmthin support is a follow-up task)"
  else "type " +:+ s_Type s +:+ " cannot hold the harness: it needs zfspool (snapshots of raw disks)".
Definition BaselineUsed (st : StorageStatus) (storage : string) : res Z :=
  guard^ s_HasUsed st orelse errorf ("storage " +:+ storage +:+ "'s status has no usable 'used'") in
  guard^ (s_Used st <=? StorageSlack)%Z orelse
    errorf ("storage " +:+ storage +:+ " is not empty: its used is " +:+ itoa (s_Used st) +:+ " bytes, above the empty dataset's 1 MiB") in
  Ok (s_Used st).
Definition StatusPath (node storage : string) : string := "/nodes/" +:+ node +:+ "/storage/" +:+ storage +:+ "/status".
Definition ReadStorageStatus (node storage : string) : io pveE (res StorageStatus) :=
  let? raw := RawRequest "GET" (StatusPath node storage) ∅ orelse wrapf ("storage " +:+ storage +:+ "'s status could not be read") in
  Ret (let^ st := ParseStorageStatus raw orelse wrapf ("storage " +:+ storage) in Ok st).
Definition ContentPath (node storage : string) : string := "/nodes/" +:+ node +:+ "/storage/" +:+ storage +:+ "/content".
Definition readUsed (node storage : string) : io pveE (option Z) :=
  let! r := RawRequest "GET" (StatusPath node storage) ∅ in
  Ret match r with
      | Er _ => None
      | Ok raw => match ParseStorageStatus raw with Ok st => if s_HasUsed st then Some (s_Used st) else None | Er _ => None end
      end.
Definition some_volume (raw : json) : bool := match raw with JArr (_ :: _) => true | _ => false end.
Fixpoint listedVMIDs (node storage : string) (vmids : list Z) : io pveE (list Z) :=
  match vmids with
  | [] => Ret []
  | v :: vmids' =>
      let! r := RawRequest "GET" (ContentPath node storage) (values [("vmid", itoa v)]) in
      let! l := listedVMIDs node storage vmids' in
      Ret match r with Ok raw => if some_volume raw then v :: l else l | Er _ => l end
  end.
(** What the end of the wait tells, of the last reads. *)
Definition leftover_reason (storage : string) (baseline : Z) (used : option Z) (listed : list Z) : option string :=
  match listed, used with
  | _ :: _, _ => Some ("storage " +:+ storage +:+ " still lists volumes of VM(s) [" +:+ Join " " (itoa <$> listed) +:+ "]")
  | [], Some u => Some ("storage " +:+ storage +:+ "'s used is " +:+ itoa u +:+ ", not back within 1 MiB of its baseline " +:+ itoa baseline)
  | [], None => None
  end.
Definition back_to (baseline : Z) (used : option Z) (listed : list Z) : bool :=
  match used with Some u => (u <=? wrap64 (baseline + StorageSlack))%Z && bool_decide (listed = []) | None => false end.
Definition leftover_now (node storage : string) (vmids : list Z) : io pveE (option Z * list Z) :=
  let! used := readUsed node storage in
  let! listed := listedVMIDs node storage vmids in
  Ret (used, listed).
(** [ticks] is how often the wait of [poll] can end before [bound] has passed: after that the
    deadline is over. [Select] tells a deadline that passed sooner, by the time the reads take,
    from the end of the context and of the wait. *)
Fixpoint leftover_loop (ticks : nat) (node storage : string) (baseline : Z) (vmids : list Z) : io pveE (option string) :=
  let! now := leftover_now node storage vmids in
  let '(used, listed) := now in
  if back_to baseline used listed then Ret None
  else match ticks with
  | 0 => Ret (leftover_reason storage baseline used listed)
  | S ticks' =>
      let! w := trigger Select in
      match w with
      | WDeadline => Ret (leftover_reason storage baseline used listed)
      | WDone _ => Ret None
      | WTick => leftover_loop ticks' node storage baseline vmids
      end
  end.
(** [bound] and [poll] are in seconds; [Some reason] is a leftover detected. *)
Definition StorageLeftover (node storage : string) (baseline : Z) (vmids : list Z) (bound poll : Z) : io pveE (option string) :=
  leftover_loop (Z.to_nat ((bound + poll - 1) / poll)) node storage baseline vmids.

(** * Specification *)
(** PVE listed a volume of one of the VMs, or told more space in use than the baseline has. *)
Definition leftover_seen (node storage : string) (baseline : Z) (vmids : list Z) (tr : list (event pveE)) : Prop :=
  (∃ v x l, v ∈ vmids ∧ got tr (ContentPath node storage) (values [("vmid", itoa v)]) (JArr (x :: l))) ∨
  ∃ j s, got tr (StatusPath node storage) ∅ j ∧ ParseStorageStatus j = Ok s ∧ s_HasUsed s = true ∧
    (wrap64 (baseline + StorageSlack) < s_Used s)%Z.
(** What a trace asked of PVE. *)
Definition pve_event (ev : event outerE) : option (event pveE) :=
  match ev with @Ev _ _ (OPve e) r => Some (Ev e r) | _ => None end.
Definition pve_of (tr : list (event outerE)) : list (event pveE) := omap pve_event tr.
(** PVE answered that the VM is the one qemu member with its number of the harness's pool,
    on the harness's node; that its config carries the harness's tag. *)
Definition in_pool (cfg : Config) (vmid : Z) (tr : list (event pveE)) : Prop :=
  ∃ j ms m, got tr "/pools" (values [("poolid", Pool cfg)]) j ∧ decode_pools j = Some [(Pool cfg, Some ms)] ∧
    List.filter (is_member vmid) ms = [m] ∧ pm_Node m = cfg_Node cfg.
Definition carries_tag (cfg : Config) (vmid : Z) (tr : list (event pveE)) : Prop :=
  ∃ j tags, got tr (VMPath (cfg_Node cfg) vmid "config") ∅ j ∧ config_tags j = Some tags ∧ tagsHave tags (Tag cfg) = true.
(** The ledger, as it was read, names the VM on a line of its own. *)
Definition recorded (path : string) (vmid : Z) (tr : list (event outerE)) : Prop :=
  ∃ text, Ev (OReadFile path) (Ok (Some text)) ∈ tr ∧ itoa vmid ∈ drop_cr <$> scan_lines text.
(** The guard let the VM pass. *)
Definition vetted (cfg : Config) (led : option string) (vmid : Z) (mode : Mode) (tr : list (event outerE)) : Prop :=
  (690 ≤ vmid ≤ 699)%Z ∧ in_pool cfg vmid (pve_of tr) ∧ (mode ≠ ModeTag → carries_tag cfg vmid (pve_of tr)) ∧
  (mode = ModeDestroy → ∃ path, led = Some path ∧ recorded path vmid tr).
(** Nothing was changed: PVE was only read, and no file written. *)
Definition reads_only (ev : event outerE) : Prop :=
  match ev with @Ev _ _ (OPve e) r => mutation (Ev e r) = None | @Ev _ _ (OReadFile _) _ => True | _ => False end.
(** The proof that a VM is gone. *)
Definition gone (cfg : Config) (vmid : Z) (upid : string) (tr : list (event pveE)) : Prop :=
  upidRE upid = Some (cfg_Node cfg, "qmdestroy", itoa vmid) ∧
  (∃ j, got tr (task_status_path (cfg_Node cfg) upid) ∅ j ∧
     decode_status j = Some {| ts_UPID := upid; ts_Type := "qmdestroy"; ts_ID := itoa vmid; ts_Node := cfg_Node cfg;
                               ts_Status := "stopped"; ts_ExitStatus := "OK" |}) ∧
  (∃ j, got tr "/cluster/nextid" (values [("vmid", itoa vmid)]) j ∧ (j = JNum (itoa vmid) ∨ j = JStr (itoa vmid))) ∧
  ∃ j ms, got tr "/pools" (values [("poolid", Pool cfg)]) j ∧ decode_pools j = Some [(Pool cfg, Some ms)] ∧
    ∀ m, m ∈ ms → ∃ i, numericVMID (pm_VMID m) = Some i ∧ i ≠ vmid.

(** * Lemmas *)
Lemma pve_of_app tr tr' : pve_of (tr ++ tr') = pve_of tr ++ pve_of tr'.
Proof. apply omap_app. Qed.
Lemma pve_of_lift tr : pve_of (lift_event (@OPve) <$> tr) = tr.
Proof. induction tr as [|[R e r] tr IH]; [done|]. unfold pve_of in *. cbn. by rewrite IH. Qed.
Lemma reads_lift tr : mutations tr = [] → Forall reads_only (lift_event (@OPve) <$> tr).
Proof.
  induction tr as [|[R e r] tr IH]; [constructor|]. unfold mutations in *. cbn [omap list_omap].
  destruct (mutation (Ev e r)) eqn:Hm; [done|]. intros H. constructor; [exact Hm|by apply IH].
Qed.
Lemma outer_call_spec {A} (m : io pveE A) Q :
  always m Q → always (pve_call m) (λ tr a, ∃ tr0, tr = lift_event (@OPve) <$> tr0 ∧ Q tr0 a).
Proof. apply lift_spec. Qed.
(** The rule for a call that reads of PVE. *)
Lemma pve_read_spec {A} (m : io pveE A) (P : list (event pveE) → A → Prop) :
  always m (λ tr r, mutations tr = [] ∧ P tr r) →
  always (pve_call m) (λ tr r, Forall reads_only tr ∧ P (pve_of tr) r).
Proof.
  intros Hm. eapply always_mono; [|by apply outer_call_spec]. cbn. intros tr r (tr0 & -> & Hmu & HP).
  rewrite pve_of_lift. split; [by apply reads_lift|done].
Qed.
Lemma got_app_l tr tr' path v j : got tr path v j → got (tr ++ tr') path v j.
Proof. intros (hr & ? & ?). exists hr. rewrite elem_of_app. auto. Qed.
Lemma got_app_r tr tr' path v j : got tr' path v j → got (tr ++ tr') path v j.
Proof. intros (hr & ? & ?). exists hr. rewrite elem_of_app. auto. Qed.
Lemma readPool_spec pool :
  always (readPool pool) (λ tr r, mutations tr = [] ∧ ∀ ms, r = Ok ms →
    ∃ j, got tr "/pools" (values [("poolid", pool)]) j ∧ decode_pools j = Some [(pool, Some ms)]).
Proof.
  unfold readPool. cbv zeta. eapply always_call; [apply RawRequest_got|]. intros tr [j|e] [Hm Hj]; cbn [always].
  2: { by rewrite app_nil_r. }
  rewrite app_nil_r. split; [done|]. intros ms H.
  destruct (decode_pools j) as [[|[i [l|]] []]|] eqn:Hd; try done. destruct (eqb i pool) eqn:Hi; [|done].
  injection H as ->. apply eqb_true in Hi as ->. exists j. auto.
Qed.
Lemma member_node_iff vmid ms node :
  member_node vmid ms = Some node ↔ ∃ m, List.filter (is_member vmid) ms = [m] ∧ pm_Node m = node ∧ node ≠ "".
Proof.
  unfold member_node. destruct (List.filter _ ms) as [|m []]; [|destruct (eqb (pm_Node m) "") eqn:He|].
  - split; [done|by intros (? & ? & _)].
  - apply eqb_true in He. split; [done|]. intros (? & [= <-] & <- & ?). done.
  - apply eqb_false in He. split; [intros [= <-]; eauto|]. by intros (? & [= <-] & <- & _).
  - split; [done|by intros (? & ? & _)].
Qed.
Lemma ledger_has_true path want lines : ledger_has path want lines = Ok true → want ∈ drop_cr <$> lines.
Proof.
  induction lines as [|line lines IH]; [done|]. cbn [ledger_has]. destruct (_ <=? _)%Z; [done|].
  destruct (eqb (drop_cr line) want) eqn:He; [apply eqb_true in He as <-; intros _; by left|]. right. by apply IH.
Qed.
Lemma Has_spec path vmid :
  always (Has path vmid) (λ tr r, Forall reads_only tr ∧ (r = Ok true → recorded path vmid tr)).
Proof.
  unfold Has. cbn [bind trigger always]. intros [[text|]|e]; cbn [always]; (split; [by repeat constructor|]); try done.
  intros H%ledger_has_true. exists text. split; [by left|done].
Qed.
Lemma tag_read_spec cfg vmid e1 e2 :
  always (let? raw := pve_call (RawRequest "GET" (VMPath (cfg_Node cfg) vmid "config") ∅) orelse e1 in
          match config_tags raw with
          | None => Ret (Er e2)
          | Some tags => guard tagsHave tags (Tag cfg) orelse errorf ("VM " +:+ itoa vmid +:+ " does not carry tag " +:+ Tag cfg) in Ret (Ok tt)
          end) (λ tr r, Forall reads_only tr ∧ (r = Ok tt → carries_tag cfg vmid (pve_of tr))).
Proof.
  eapply always_call; [apply (pve_read_spec _ (λ tr r, ∀ j, r = Ok j → got tr (VMPath (cfg_Node cfg) vmid "config") ∅ j)), RawRequest_got|].
  intros tr [j|e] [Hr Hj]; cbn [always]; [|rewrite app_nil_r; by split].
  destruct (config_tags j) as [tags|] eqn:Ht; cbn [always]; [|rewrite app_nil_r; by split].
  destruct (tagsHave tags (Tag cfg)) eqn:Hh; cbn [always]; rewrite app_nil_r; (split; [done|]); [|done].
  intros _. exists j, tags. auto.
Qed.
Lemma vetted_mono cfg led vmid mode tr tr' : sub_trace tr tr' → vetted cfg led vmid mode tr → vetted cfg led vmid mode tr'.
Proof.
  intros Hs (? & (j & ms & m & Hg & ?) & Ht & Hd).
  assert (∀ path v x, got (pve_of tr) path v x → got (pve_of tr') path v x) as Hgot.
  { intros path v x (hr & Hin & ?). exists hr. split; [|done]. apply list_elem_of_omap in Hin as (y & Hy & Hev).
    apply list_elem_of_omap. exists y. split; [by apply Hs|done]. }
  split; [done|]. split; [exists j, ms, m; auto|]. split.
  - intros Hm. destruct (Ht Hm) as (x & tags & ? & ?). exists x, tags. auto.
  - intros Hm. destruct (Hd Hm) as (path & ? & text & ? & ?). exists path. split; [done|]. exists text. auto.
Qed.
Lemma Guard_spec cfg led vmid mode :
  always (Guard cfg led vmid mode) (λ tr r, Forall reads_only tr ∧ (r = Ok tt → vetted cfg led vmid mode tr)).
Proof.
  unfold Guard. cbv zeta. destruct (ValidVMID vmid) eqn:Hv; [|by split].
  apply andb_true_iff in Hv as [Hlo%Z.leb_le Hhi%Z.leb_le].
  eapply always_call; [apply pve_read_spec, readPool_spec|]. intros tr [ms|e] [Hr Hms]; cbn [always].
  2: { by rewrite app_nil_r. }
  assert (Forall reads_only (tr ++ [])) as Hr0 by by rewrite app_nil_r.
  destruct (member_node vmid ms) as [node|] eqn:Hn; [|by split].
  destruct (eqb node (cfg_Node cfg)) eqn:Hnode; [|by split]. apply eqb_true in Hnode as ->.
  apply member_node_iff in Hn as (m & Hf & Hn & _). destruct (Hms ms eq_refl) as (j & Hg & Hd).
  assert (∀ tr', in_pool cfg vmid (pve_of (tr ++ tr'))) as Hin.
  { intros tr'. exists j, ms, m. rewrite pve_of_app. split; [by apply got_app_l|done]. }
  assert (∀ tr', carries_tag cfg vmid (pve_of tr') → carries_tag cfg vmid (pve_of (tr ++ tr'))) as Htag.
  { intros tr' (x & tags & Hx & ?). exists x, tags. rewrite pve_of_app. split; [by apply got_app_r|done]. }
  destruct mode.
  - eapply always_mono; [|apply tag_read_spec]. intros tr' r [Hr' Ht]. split; [by apply Forall_app|]. intros Hok. split_and!; try done; auto.
  - destruct led as [path|]; [|by split]. eapply always_call; [apply Has_spec|].
    intros tr' [[]|e] [Hr' Hc]; cbn [always]; try (split; [rewrite app_nil_r; by apply Forall_app|done]).
    eapply always_mono; [|apply tag_read_spec]. intros tr2 r [Hr2 Ht]. split; [by repeat (apply Forall_app; split)|]. intros Hok.
    split_and!; [done|done|auto| |].
    + intros _. apply Htag. destruct (Ht Hok) as (x & tags & Hx & ?). exists x, tags. rewrite pve_of_app. split; [by apply got_app_r|done].
    + intros _. exists path. split; [done|]. destruct (Hc eq_refl) as (text & ? & ?). exists text. rewrite !elem_of_app. auto.
  - cbn [always]. split; [done|]. intros _. by split_and!.
Qed.
Lemma Guard_total cfg led vmid mode : total (Guard cfg led vmid mode).
Proof.
  unfold Guard, Has, pve_call, readPool. totally; try apply total_lift; totally; apply RawRequest_total.
Qed.
Lemma VMGone_spec cfg vmid upid :
  always (VMGone cfg vmid upid) (λ tr r, mutations tr = [] ∧ (r = Ok tt → gone cfg vmid upid tr)).
Proof.
  assert (always (DestroyTaskOK cfg vmid upid) (λ tr r, mutations tr = [] ∧ (r = Ok tt →
    upidRE upid = Some (cfg_Node cfg, "qmdestroy", itoa vmid) ∧ ∃ j, got tr (task_status_path (cfg_Node cfg) upid) ∅ j ∧
    decode_status j = Some {| ts_UPID := upid; ts_Type := "qmdestroy"; ts_ID := itoa vmid; ts_Node := cfg_Node cfg;
                              ts_Status := "stopped"; ts_ExitStatus := "OK" |}))) as Htask.
  { unfold DestroyTaskOK. cbv zeta. destruct (upidRE upid) as [[[node typ] i]|] eqn:Hu; [|by split].
    destruct (_ && _) eqn:Hb; [|by split]. rewrite !andb_true_iff in Hb. destruct Hb as [[->%eqb_true ->%eqb_true] ->%eqb_true].
    eapply always_call; [apply RawRequest_got|]. intros tr [j|e] [Hm Hj]; cbn [always]; [|rewrite app_nil_r; by split].
    destruct (decode_status j) as [[u t i n s x]|] eqn:Hd; cbn [always ts_UPID ts_Type ts_ID ts_Node ts_Status ts_ExitStatus];
      [|rewrite app_nil_r; by split].
    destruct (eqb u upid && _ && _ && _ && _ && _) eqn:Hb; cbn [always]; rewrite app_nil_r; (split; [done|]); [|done].
    rewrite !andb_true_iff in Hb. destruct_and!. repeat match goal with H : eqb _ _ = true |- _ => apply eqb_true in H as -> end.
    intros _. split; [done|]. exists j. auto. }
  assert (always (VMIDFree vmid) (λ tr r, mutations tr = [] ∧ (r = Ok tt →
    ∃ j, got tr "/cluster/nextid" (values [("vmid", itoa vmid)]) j ∧ (j = JNum (itoa vmid) ∨ j = JStr (itoa vmid))))) as Hfree.
  { unfold VMIDFree. cbv zeta. eapply always_call; [apply RawRequest_got|]. intros tr [j|e] [Hm Hj]; cbn [always]; [|rewrite app_nil_r; by split].
    destruct (scalarEqualsInt j vmid) eqn:Hs; cbn [always]; rewrite app_nil_r; (split; [done|]); [|done].
    intros _. exists j. split; [by apply Hj|]. destruct j; try done; cbn in Hs; apply eqb_true in Hs as ->; auto. }
  unfold VMGone. eapply always_call; [exact Htask|]. intros tr [[]|e] [Hm Ht]; cbn [always]; [|rewrite app_nil_r; by split].
  eapply always_call; [exact Hfree|]. intros tr1 [[]|e] [Hm1 Hf]; cbn [always].
  2: { rewrite app_nil_r, mutations_app, Hm, Hm1. by split. }
  eapply always_call; [apply readPool_spec|]. intros tr2 [ms|e] [Hm2 Hp]; cbn [always];
    rewrite app_nil_r, !mutations_app, Hm, Hm1, Hm2; (split; [done|]); [|done].
  intros Hn. destruct (Ht eq_refl) as (Hu & j & Hj & ?), (Hf eq_refl) as (j1 & Hj1 & ?), (Hp ms eq_refl) as (j2 & Hj2 & ?).
  split; [done|]. split; [exists j; split; [by apply got_app_l|done]|]. split; [exists j1; split; [by apply got_app_r, got_app_l|done]|].
  exists j2, ms. split; [by apply got_app_r, got_app_r|]. split; [done|].
  clear -Hn. induction ms as [|m ms IH]; intros x Hx; [by apply elem_of_nil in Hx|]. cbn [not_listed] in Hn.
  destruct (numericVMID (pm_VMID m)) as [i|] eqn:Hi; [|done]. apply guard_iff in Hn as [Hne Hn].
  apply negb_true_iff, Z.eqb_neq in Hne. apply elem_of_cons in Hx as [->|Hx]; [by exists i|by apply IH].
Qed.
Lemma readUsed_spec node storage :
  always (readUsed node storage) (λ tr r, mutations tr = [] ∧ ∀ u, r = Some u →
    ∃ j s, got tr (StatusPath node storage) ∅ j ∧ ParseStorageStatus j = Ok s ∧ s_HasUsed s = true ∧ s_Used s = u).
Proof.
  unfold readUsed. eapply always_call; [apply RawRequest_got|]. intros tr [j|e] [Hm Hg]; cbn [always]; rewrite app_nil_r; (split; [done|]); [|done].
  intros u Hu. destruct (ParseStorageStatus j) as [s|e] eqn:Hp; [|done]. destruct (s_HasUsed s) eqn:Hh; [|done]. injection Hu as <-.
  exists j, s. split_and!; auto.
Qed.
Lemma listedVMIDs_spec node storage vmids :
  always (listedVMIDs node storage vmids) (λ tr r, mutations tr = [] ∧ ∀ v, v ∈ r →
    ∃ x l, v ∈ vmids ∧ got tr (ContentPath node storage) (values [("vmid", itoa v)]) (JArr (x :: l))).
Proof.
  induction vmids as [|v vmids IH]; cbn [listedVMIDs]; [split; [done|by intros v ?%elem_of_nil]|].
  eapply always_call; [apply RawRequest_got|]. intros tr r [Hm Hg]. eapply always_call; [exact IH|]. intros tr' l [Hm' Hl]. cbn [always].
  rewrite app_nil_r. split; [by rewrite mutations_app, Hm, Hm'|].
  assert (∀ w, w ∈ l → ∃ x k, w ∈ v :: vmids ∧ got (tr ++ tr') (ContentPath node storage) (values [("vmid", itoa w)]) (JArr (x :: k))) as Hrest.
  { intros w (x & k & ? & ?)%Hl. exists x, k. split; [by right|by apply got_app_r]. }
  destruct r as [raw|e]; [|exact Hrest]. destruct (some_volume raw) eqn:Hs; [|exact Hrest].
  intros w [->|Hw]%elem_of_cons; [|by apply Hrest]. destruct raw as [| | | |[|x k]|]; try done. exists x, k. split; [by left|]. by apply got_app_l, Hg.
Qed.
Lemma leftover_seen_l node storage baseline vmids tr tr' :
  leftover_seen node storage baseline vmids tr → leftover_seen node storage baseline vmids (tr ++ tr').
Proof.
  intros [(v & x & l & ? & ?)|(j & s & ? & ?)]; [left; exists v, x, l|right; exists j, s].
  - split; [done|by apply got_app_l].
  - split; [by apply got_app_l|done].
Qed.
Lemma leftover_seen_r node storage baseline vmids tr tr' :
  leftover_seen node storage baseline vmids tr' → leftover_seen node storage baseline vmids (tr ++ tr').
Proof.
  intros [(v & x & l & ? & ?)|(j & s & ? & ?)]; [left; exists v, x, l|right; exists j, s].
  - split; [done|by apply got_app_r].
  - split; [by apply got_app_r|done].
Qed.
Lemma leftover_round node storage baseline vmids :
  always (leftover_now node storage vmids)
    (λ tr r, mutations tr = [] ∧ (back_to baseline r.1 r.2 = false → is_Some (leftover_reason storage baseline r.1 r.2) →
      leftover_seen node storage baseline vmids tr)).
Proof.
  unfold leftover_now. eapply always_call; [apply readUsed_spec|]. intros tr used [Hm Hu].
  eapply always_call; [apply listedVMIDs_spec|]. intros tr' listed [Hm' Hl]. cbn [always fst snd]. rewrite app_nil_r.
  split; [by rewrite mutations_app, Hm|]. intros Hb Hr. destruct listed as [|v listed]; cbn in Hr.
  - destruct used as [u|]; [|by destruct Hr]. destruct (Hu u eq_refl) as (j & s & ? & ? & ? & <-). right. exists j, s.
    cbn in Hb. rewrite andb_true_r in Hb. apply Z.leb_gt in Hb. split_and!; [by apply got_app_l|done..].
  - left. destruct (Hl v) as (x & l & ? & ?); [by left|]. exists v, x, l. split; [done|by apply got_app_r].
Qed.
Lemma leftover_spec ticks node storage baseline vmids :
  always (leftover_loop ticks node storage baseline vmids) (λ tr r,
    mutations tr = [] ∧ (is_Some r → leftover_seen node storage baseline vmids tr)).
Proof.
  induction ticks as [|ticks IH]; cbn [leftover_loop];
    (eapply always_call; [apply (leftover_round node storage baseline)|]); intros tr [used listed] [Hm Hseen]; cbn [fst snd] in Hseen;
    (destruct (back_to baseline used listed); [cbn [always]; rewrite app_nil_r; split; [done|by intros []]|]).
  - cbn [always]. rewrite app_nil_r. split; [done|]. by apply Hseen.
  - cbn [bind trigger always]. intros [e| |]; cbn [always].
    + rewrite mutations_app, Hm. split; [done|by intros []].
    + rewrite mutations_app, Hm. split; [done|]. intros Hr. by apply leftover_seen_l, Hseen.
    + eapply always_mono; [|exact IH]. intros tr' r [Hm' Hr]. rewrite mutations_app, Hm. split; [done|].
      intros H. apply leftover_seen_r. by apply (leftover_seen_r _ _ _ _ [Ev Select WTick]), Hr.
Qed.
Lemma leftover_total ticks node storage baseline vmids : total (leftover_loop ticks node storage baseline vmids).
Proof.
  assert (∀ vs, total (listedVMIDs node storage vs)) as Hl.
  { induction vs as [|v vs IH]; cbn [listedVMIDs]; totally; [apply RawRequest_total|exact IH]. }
  induction ticks as [|ticks IH]; cbn [leftover_loop]; unfold leftover_now, readUsed; totally; auto using RawRequest_total.
Qed.
Definition ledger_text (vmids : list Z) : string := sconcat ((λ v, itoa v +:+ chr 10) <$> vmids).
Lemma valid_itoa v : ValidVMID v = true →
  any_byte (is_byte 10) (itoa v) = false ∧ drop_cr (itoa v) = itoa v ∧ slen (itoa v) = 3.
Proof.
  intros [Hlo%Z.leb_le Hhi%Z.leb_le]%andb_true_iff. unfold minVMID, maxVMID in *.
  assert (v ∈ seqZ 690 10) as Hv by (apply elem_of_seqZ; lia). vm_compute in Hv.
  repeat (apply elem_of_cons in Hv as [->|Hv]; [by vm_compute|]). by apply elem_of_nil in Hv.
Qed.
Lemma scan_ledger vmids : Forall (λ v, ValidVMID v = true) vmids → scan_lines (ledger_text vmids) = itoa <$> vmids.
Proof.
  intros H. assert (Split newline_byte (ledger_text vmids) = (itoa <$> vmids) ++ [""]) as Hs.
  { unfold ledger_text. induction H as [|v vs Hv _ IH]; [done|]. cbn [fmap list_fmap sconcat].
    rewrite str_app_assoc. change (chr 10 +:+ ?t) with (String newline_byte t). rewrite Split_nosep by apply (valid_itoa v Hv).
    by rewrite IH. }
  unfold scan_lines. rewrite Hs, last_snoc. by rewrite List.removelast_last.
Qed.
Lemma itoa_inj v w : itoa v = itoa w → v = w.
Proof. unfold itoa. apply (inj _). Qed.
Lemma ledger_has_lines path v vmids :
  Forall (λ v, ValidVMID v = true) vmids → ledger_has path (itoa v) (itoa <$> vmids) = Ok (bool_decide (v ∈ vmids)).
Proof.
  induction 1 as [|w ws Hw _ IH]; [done|]. cbn [fmap list_fmap ledger_has]. destruct (valid_itoa w Hw) as (_ & -> & ->).
  cbn [Z.leb]. change (maxScanTokenSize <=? Z.of_nat 3)%Z with false. cbv iota. destruct (eqb (itoa w) (itoa v)) eqn:He.
  - apply eqb_true, itoa_inj in He as ->. by rewrite bool_decide_eq_true_2 by by left.
  - apply eqb_false in He. rewrite IH. f_equal. apply bool_decide_ext. rewrite elem_of_cons. naive_solver.
Qed.

(** * Properties *)
(** The guard always returns, changes nothing, and lets a VM pass only if its number is
    from 690 to 699, PVE answered that it is the one qemu member with this number of the
    harness's pool, on the harness's node, and that it carries the harness's tag (which the tag
    mode does not ask), and, to destroy it, the ledger names it as created by this run. *)
Theorem Guard_vets cfg led vmid mode :
  total (Guard cfg led vmid mode) ∧
  always (Guard cfg led vmid mode) (λ tr r, Forall reads_only tr ∧ (r = Ok tt → vetted cfg led vmid mode tr)).
Proof. split; [apply Guard_total|apply Guard_spec]. Qed.
(** A destroyed VM counts as gone only once PVE answered, in reads alone, that the task printed
    is the destroy of this VM on this node and ended OK, that its number is free in the
    cluster, and that the pool, whose members all have a number, does not list it. *)
Theorem VMGone_proves cfg vmid upid :
  always (VMGone cfg vmid upid) (λ tr r, mutations tr = [] ∧ (r = Ok tt → gone cfg vmid upid tr)).
Proof. apply VMGone_spec. Qed.
(** A detector of leftovers ends, only reads, and claims one only where PVE listed a volume of
    one of the VMs or told more in use than the baseline and 1 MiB. *)
Theorem StorageLeftover_detects node storage baseline vmids bound poll :
  total (StorageLeftover node storage baseline vmids bound poll) ∧
  always (StorageLeftover node storage baseline vmids bound poll) (λ tr r,
    mutations tr = [] ∧ (is_Some r → leftover_seen node storage baseline vmids tr)).
Proof. unfold StorageLeftover. split; [apply leftover_total|apply leftover_spec]. Qed.
(** Of a ledger written by [Add] alone, [Has] reads exactly the VMs that were added. *)
Theorem Ledger_remembers path vmids v :
  Forall (λ v, ValidVMID v = true) vmids →
  ledger_has path (itoa v) (scan_lines (ledger_text vmids)) = Ok (bool_decide (v ∈ vmids)).
Proof. intros H. by rewrite scan_ledger, ledger_has_lines. Qed.
(** The floor is compared as a 64-bit product: one of 2^33 GiB or more may wrap to nothing. *)
Example floor_wraps :
  Unsuitable {| s_Type := "zfspool"; s_Enabled := true; s_Active := true; s_Content := "images,rootdir"; s_Avail := 0; s_Used := 0;
                s_HasUsed := true |} (2 ^ 34) = "".
Proof. vm_compute. reflexivity. Qed.

(** * Examples *)
Definition lab_outer : Config := {| Pool := DefaultPool; cfg_Node := "n"; Tag := DefaultTag |}.
(** A pool that lists VM 690 with the token [lit] as its number, a config with [tags], and a
    ledger of VM 690. *)
Definition lab_outer_pve (lit tags : string) : env outerE unit := λ R e,
  match e in outerE R return unit → R * unit with
  | OPve e => rest_env (λ _ p _, HResp 200 "200 OK" (double_quoted
      (if eqb p "/pools" then
         "{'data':[{'poolid':'pveforge-harness','members':[{'type':'qemu','node':'n','vmid':" +:+ lit +:+ "}]}]}"
       else "{'data':{'tags':'" +:+ tags +:+ "'}}"))) _ e
  | OReadFile _ => λ s, (Ok (Some (ledger_text [690%Z])), s)
  | OAppendFile _ _ => λ s, (Ok tt, s) | OMkdirAll _ => λ s, (Ok tt, s) | OMkdir _ => λ s, (Ok tt, s) | OAccept _ _ => λ s, (Ok tt, s)
  | OEnv _ => λ s, ("", s) | OClock => λ s, ("", s)
  | OEvidence _ _ => λ s, (tt, s) | OStep _ => λ s, (tt, s)
  end.
Definition lab_guard (lit tags : string) (led : option string) (mode : Mode) : option (option string) :=
  match run (lab_outer_pve lit tags) (Guard lab_outer led 690 mode) tt with
  | Some (_, Ok _, _) => Some None
  | Some (_, Er e, _) => Some (Some (Error e))
  | None => None
  end.
Example outer_guard_passes :
  (lab_guard "690" "a;pveforge-harness" (Some "led") ModeDestroy, lab_guard "690" "a" None ModeTag) = (Some None, Some None).
Proof. vm_compute. reflexivity. Qed.
(** A number in quotes is no number, a tag no part of another, and no ledger means no destroy. *)
Example outer_guard_refuses :
  (lab_guard "'690'" "pveforge-harness" None ModeChange, lab_guard "690" "pveforge-harness2" None ModeChange,
   lab_guard "690" "pveforge-harness" None ModeDestroy) =
  (Some (Some "VM 690 is not a qemu member of pool pveforge-harness"), Some (Some "VM 690 does not carry tag pveforge-harness"),
   Some (Some "VM 690: destroying needs a created-VM ledger (--created-file) listing the VM")).
Proof. vm_compute. reflexivity. Qed.
