(* ===== verification/Screen.v ===== *)
(** internal/harness/outer/screen.go: which fields a harness command may send, and which disks
    and NICs a VM may be given. *)
From Stdlib Require Import Ascii.
From S2P Require Import Prelude GoLib Errors Json Rest Outer.

(** ** The fields of a command *)
Definition snapnameRE (s : string) : bool :=
  match s with String c s' => is_letter c && all_bytes (λ d, is_alnum d || one_of "_-" d) s' | EmptyString => false end.
Definition ValidSnapshotName (name : string) : bool := snapnameRE name.
Definition allowed_fields : list string :=
  ["snapshot snapname"; "snapshot vmstate"; "snapshot description"; "rollback start"; "start timeout"; "stop timeout";
   "shutdown timeout"; "shutdown forceStop"; "destroy purge"; "destroy destroy-unreferenced-disks"].
Definition fieldAllowed (set key : string) : bool := bool_decide (set +:+ " " +:+ key ∈ allowed_fields).
Definition AllowedField (set key : string) : bool := fieldAllowed set key.

(** ** The fields of a create or a config *)
Inductive class := classPlain | classDisk | classRefused | classNet.
#[export] Instance class_eq_dec : EqDecision class.
Proof. solve_decision. Defined.
Definition configKeyRE (s : string) : bool :=
  match s with String c s' => is_lower c && all_bytes (λ d, is_alnum d || one_of "_-" d) s' | EmptyString => false end.
Definition numbered (prefix s : string) : bool :=
  match cut_prefix prefix s with Some d => nonempty_of is_digit d | None => false end.
Definition ipconfigRE : string → bool := numbered "ipconfig".
Definition netIfaceRE : string → bool := numbered "net".
Definition diskIfaceRE (s : string) : bool := numbered "scsi" s || numbered "ide" s.
(** A file name, its extension among [exts]. *)
Definition name_byte (c : ascii) : bool := is_alnum c || one_of "._-" c.
Definition has_ext (ext s : string) : bool :=
  has_suffix ext s &&
  match s with
  | String c s' => (is_alnum c || one_of "_-" c) && all_bytes name_byte s' && bool_decide (slen ext < slen s)
  | EmptyString => false
  end.
Definition diskISORE (s : string) : bool :=
  match cut_prefix "local:iso/" s with Some f => has_ext ".iso" f | None => false end.
Definition diskImportRE (s : string) : bool :=
  match cut_prefix "local:import/" s with Some f => has_ext ".qcow2" f || has_ext ".raw" f | None => false end.
Definition diskSizeRE (s : string) : bool := nonempty_of is_digit s || eqb s "cloudinit".
Definition plainConfigField : list string :=
  ["name"; "cores"; "sockets"; "cpu"; "memory"; "balloon"; "ostype"; "machine"; "bios"; "boot"; "agent"; "serial0"; "vga";
   "scsihw"; "nameserver"; "searchdomain"; "ciuser"; "sshkeys"; "delete"].
Definition CreateFieldClass (key : string) : class :=
  if bool_decide (key ∈ plainConfigField) then classPlain
  else if ipconfigRE key then classPlain
  else if netIfaceRE key then classNet
  else if diskIfaceRE key then classDisk
  else classRefused.

(** ** Disks *)
Definition comma : ascii := byte 44.
(** Up to the first comma, and what follows it. *)
Definition split_first (value : string) : string * string := match cut comma value with Some p => p | None => (value, "") end.
(** The shell's walk over the options: a trailing comma leaves none, an inner empty one stays. *)
Fixpoint splitDiskOptions (fuel : nat) (rest : string) : list string :=
  match fuel with
  | 0 => []
  | S fuel =>
      if eqb rest "" then []
      else let '(opt, rest') := split_first rest in opt :: splitDiskOptions fuel rest'
  end.
Definition diskStorage (first : string) : string := match cut (byte 58) first with Some (a, _) => a | None => "" end.
Definition isKVColon (opt : string) : bool :=
  match cut (byte 61) opt with Some (k, v) => negb (eqb k "") && contains ":" v | None => false end.
Definition isIgnorableOpt (opt : string) : bool :=
  match cut (byte 61) opt with Some (k, _) => negb (eqb k "") | None => false end.
Definition disk_option (first storage opt : string) : bool :=
  match cut_prefix "import-from=" opt with
  | Some v => diskImportRE v && negb (eqb storage "") && eqb (diskStorage first) storage
  | None => negb (has_prefix "file=" opt || has_prefix "volume=" opt || isKVColon opt) && isIgnorableOpt opt
  end.
Definition TrimPrefix (prefix s : string) : string := match cut_prefix prefix s with Some t => t | None => s end.
Definition disk_volume (first value storage : string) : bool :=
  if eqb first "none" then true
  else if has_prefix "local:iso/" first then diskISORE first && contains ",media=cdrom," ("," +:+ value +:+ ",")
  else match cut (byte 58) first with
       | Some (store, spec) => negb (eqb storage "") && eqb store storage && diskSizeRE spec
       | None => false
       end.
Definition DiskOK (value storage : string) : bool :=
  let '(first, rest) := split_first value in
  let first := TrimPrefix "file=" first in
  disk_volume first value storage && forallb (disk_option first storage) (splitDiskOptions (S (slen rest)) rest).

(** ** NICs *)
Definition splitNonEmpty (s : string) (sep : ascii) : list string := List.filter (λ p, negb (eqb p "")) (Split sep s).
Definition bridge_named (bridges br : string) : bool := contains (" " +:+ br +:+ " ") (" " +:+ bridges +:+ " ").
Definition NetOK (value bridges : string) : bool :=
  let named := omap (cut_prefix "bridge=") (splitNonEmpty value comma) in
  forallb (bridge_named bridges) named && bool_decide (length named = 1).

(** ** The screen *)
Definition control_byte (c : ascii) : bool := in_range 0 31 c || is_byte 127 c.
Definition splitDeleteItems (value : string) : list string := fields_func (one_of " ,;") "" value.
Fixpoint screen_delete (value : string) (createdByRun : bool) (items : list string) : res unit :=
  match items with
  | [] => Ok tt
  | item :: items' =>
      match CreateFieldClass item with
      | classPlain | classNet =>
          guard^ negb (eqb item "delete") orelse errorf ("delete=" +:+ value +:+ " is not allowed") in
          screen_delete value createdByRun items'
      | classDisk =>
          guard^ createdByRun orelse errorf ("disk " +:+ item +:+ " may be deleted only on a VM this run created") in
          screen_delete value createdByRun items'
      | classRefused => Er (errorf ("delete of field " +:+ item +:+ " is not allowed"))
      end
  end.
Definition screenField (key value storage bridges : string) (isCreate createdByRun : bool) : res unit :=
  guard^ negb (any_byte control_byte (key +:+ "=" +:+ value)) orelse errorf "a field holds a control character" in
  guard^ configKeyRE key orelse errorf (quote (key +:+ "=" +:+ value) +:+ " is not a field=value pair") in
  let^ _ := match CreateFieldClass key with
    | classPlain => Ok tt
    | classDisk =>
        guard^ isCreate || createdByRun orelse errorf ("disk " +:+ key +:+ " may be set only on a VM this run created") in
        guard^ DiskOK value storage orelse
          errorf ("disk " +:+ key +:+ "=" +:+ value +:+ " is not a new allocation on the required storage " +:+ quote storage
            +:+ ", the installer ISO, or an import from local:import") in
        Ok tt
    | classNet =>
        guard^ NetOK value bridges orelse
          errorf ("NIC " +:+ key +:+ "=" +:+ value +:+ " must name exactly one bridge, one of: " +:+ bridges) in
        Ok tt
    | classRefused => Er (errorf ("field " +:+ key +:+ " is not allowed here"))
    end orelse id in
  if eqb key "delete" then screen_delete value createdByRun (splitDeleteItems value) else Ok tt.
Fixpoint screen_all {V} (f : string → V → res unit) (l : list (string * V)) : res unit :=
  match l with [] => Ok tt | (k, v) :: l' => let^ _ := f k v orelse id in screen_all f l' end.
Definition ScreenCreate (obj : gmap string json) (storage bridges : string) : res unit :=
  screen_all (λ key raw,
    match raw with
    | JStr value => screenField key value storage bridges true false
    | _ => Er (errorf ("create params must be an object of single-line strings: field " +:+ quote key +:+ " is not a string"))
    end) (entries obj).
Definition ScreenConfig (fields : gmap string string) (storage bridges : string) (createdByRun : bool) : res unit :=
  screen_all (λ key value, screenField key value storage bridges false createdByRun) (entries fields).

(** * Specification *)
(** The volume a disk value names: none, the installer as a CD, a new volume of the required
    storage. *)
Inductive volume_ok (value storage : string) : string → Prop :=
| volume_none : volume_ok value storage "none"
| volume_iso vol : diskISORE vol = true → "media=cdrom" ∈ Split comma value → volume_ok value storage vol
| volume_new spec :
    storage ≠ "" → any_byte (is_byte 58) storage = false → diskSizeRE spec = true →
    volume_ok value storage (storage +:+ ":" +:+ spec).
(** An option of a disk: an import of a cloud image into the required storage, or a setting
    that names no volume. *)
Inductive option_ok (vol storage : string) : string → Prop :=
| option_import v spec :
    diskImportRE v = true → vol = storage +:+ ":" +:+ spec → storage ≠ "" → any_byte (is_byte 58) storage = false →
    option_ok vol storage ("import-from=" +:+ v)
| option_setting k v :
    k ≠ "" → any_byte (is_byte 61) k = false → k ≠ "file" → k ≠ "volume" → k ≠ "import-from" → contains ":" v = false →
    option_ok vol storage (k +:+ "=" +:+ v).
Definition drop_last_empty (l : list string) : list string := match last l with Some "" => List.removelast l | _ => l end.
Definition disk_ok (value storage : string) : Prop :=
  ∃ first opts, Split comma value = first :: opts ∧ let vol := TrimPrefix "file=" first in
    volume_ok value storage vol ∧ ∀ opt, opt ∈ drop_last_empty opts → option_ok vol storage opt.
(** A NIC's one bridge option. Its value is a bridge of the given list: one of its words, or
    several neighbouring words of it, which have spaces between them there too. *)
Definition net_ok (value bridges : string) : Prop :=
  ∃ br, omap (cut_prefix "bridge=") (Split comma value) = [br] ∧
    ∃ before after, Split (byte 32) bridges = before ++ Split (byte 32) br ++ after.
(** A name and a decimal number. *)
Definition has_number (name key : string) : Prop := ∃ d, d ≠ "" ∧ all_bytes is_digit d = true ∧ key = name +:+ d.
Definition plain_key (key : string) : Prop :=
  key ∈ ["name"; "cores"; "sockets"; "cpu"; "memory"; "balloon"; "ostype"; "machine"; "bios"; "boot"; "agent"; "serial0";
         "vga"; "scsihw"; "nameserver"; "searchdomain"; "ciuser"; "sshkeys"; "delete"] ∨ has_number "ipconfig" key.
Definition net_key (key : string) : Prop := has_number "net" key.
Definition disk_key (key : string) : Prop := has_number "scsi" key ∨ has_number "ide" key.
Definition field_ok (storage bridges : string) (isCreate created : bool) (key value : string) : Prop :=
  any_byte control_byte (key +:+ "=" +:+ value) = false ∧ configKeyRE key = true ∧
  ((plain_key key ∧ (key = "delete" → ∀ item, item ∈ splitDeleteItems value →
      item ≠ "delete" ∧ (plain_key item ∨ net_key item ∨ (disk_key item ∧ created = true)))) ∨
   (disk_key key ∧ (isCreate = true ∨ created = true) ∧ disk_ok value storage) ∨
   (net_key key ∧ net_ok value bridges)).

(** * Lemmas *)
#[local] Arguments comma : simpl never.
Lemma Split_first value :
  Split comma value = match cut comma value with Some (a, b) => a :: Split comma b | None => [value] end.
Proof.
  destruct (cut comma value) as [[a b]|] eqn:Hc.
  - apply cut_spec in Hc as [-> Ha]. apply (Split_nosep comma). exact Ha.
  - revert Hc. induction value as [|d s IH]; [done|]. cbn [cut Split]. case_bool_decide; [done|].
    destruct (cut comma s) as [[]|]; [done|]. intros _. by rewrite IH.
Qed.
Lemma split_first_len value : slen (split_first value).2 ≤ slen value ∧ (value ≠ "" → slen (split_first value).2 < slen value).
Proof.
  unfold split_first. destruct (cut comma value) as [[a b]|] eqn:Hc; cbn.
  - apply cut_spec in Hc as [-> _]. rewrite str_length_app. cbn. lia.
  - destruct value; cbn; [done|lia].
Qed.
Lemma splitDiskOptions_spec n rest : slen rest < n → splitDiskOptions n rest = drop_last_empty (Split comma rest).
Proof.
  revert rest. induction n as [|n IH]; intros rest Hn; [lia|]. cbn [splitDiskOptions]. rewrite Split_first.
  destruct (eqb rest "") eqn:He; [by apply eqb_true in He as ->|]. apply eqb_false in He.
  pose proof (split_first_len rest) as [_ Hl]. specialize (Hl He). unfold split_first in *.
  destruct (cut comma rest) as [[a b]|]; cbn in Hl |- *.
  - rewrite IH by lia. unfold drop_last_empty. rewrite last_cons.
    destruct (Split comma b) as [|x l] eqn:Hs; [by destruct b; cbn in Hs; repeat case_match|].
    destruct (last (x :: l)) as [[]|] eqn:Hlast; [done|done|]. by apply last_None in Hlast.
  - rewrite IH by (cbn; lia). unfold drop_last_empty. cbn. by destruct rest.
Qed.
Lemma Split_elem_inv x s : x ∈ Split comma s → ∃ a b, "," +:+ s +:+ "," = a +:+ ("," +:+ x +:+ ",") +:+ b.
Proof.
  remember (slen s) as n eqn:Hn. revert s Hn. induction (lt_wf n) as [n _ IH]. intros s ->. rewrite Split_first.
  destruct (cut comma s) as [[h t]|] eqn:Hc.
  - apply cut_spec in Hc as [-> _]. intros [->|Hx]%elem_of_cons.
    + exists "", (t +:+ ","). by rewrite !str_app_assoc.
    + destruct (IH (slen t)) with (s := t) as (a & b & Hab); [rewrite str_length_app; cbn; lia|done|done|].
      exists ("," +:+ h +:+ a), b. rewrite !str_app_assoc. change (String comma t +:+ ",") with ("," +:+ t +:+ ",").
      rewrite Hab. by rewrite !str_app_assoc.
  - intros ->%list_elem_of_singleton. exists "", "". by rewrite str_app_nil_r.
Qed.
(** The comma-separated elements of a text are what it holds between commas. *)
Lemma framed c s : Split c (String c (s +:+ String c "")) = "" :: Split c s ++ [""].
Proof. change (String c (s +:+ ?t)) with ("" +:+ String c (s +:+ t)). rewrite Split_app. cbn [Split app]. f_equal. by rewrite Split_app. Qed.
Lemma element_contains x value :
  any_byte (is_byte 44) x = false → contains ("," +:+ x +:+ ",") ("," +:+ value +:+ ",") = true ↔ x ∈ Split comma value.
Proof.
  intros Hx. rewrite contains_spec. split; [|apply Split_elem_inv]. intros (p & q & H).
  pose proof (framed comma value) as Hl. change (String comma (value +:+ String comma "")) with ("," +:+ value +:+ ",") in Hl.
  assert (Split comma (p +:+ ("," +:+ x +:+ ",") +:+ q) = Split comma p ++ x :: Split comma q) as Hr.
  { rewrite !str_app_assoc. change ("," +:+ ?t) with (String comma t). rewrite Split_app. f_equal. by apply (Split_nosep comma). }
  rewrite H, Hr in Hl. pose proof (Split_nonempty comma p) as Hp. pose proof (Split_nonempty comma q) as Hq.
  destruct (Split comma p) as [|y a]; [done|]. injection Hl as _ Hl.
  destruct (exists_last Hq) as (b & z & Hb). rewrite Hb in Hl. rewrite (app_comm_cons b [z]), app_assoc in Hl.
  apply app_inj_tail in Hl as [<- _]. rewrite elem_of_app. right. by left.
Qed.
(** Elements, each after its separator. *)
Definition unsplit (c : ascii) (l : list string) : string := sconcat (String c <$> l).
Lemma unsplit_app c l l' : unsplit c (l ++ l') = unsplit c l +:+ unsplit c l'.
Proof. unfold unsplit. induction l as [|x l IH]; cbn in *; [done|]. by rewrite IH, str_app_assoc. Qed.
Lemma unsplit_Split c s : unsplit c (Split c s) = String c s.
Proof.
  induction s as [|d s IH]; [cbn; by rewrite ?str_app_nil_r|]. cbn [Split]. case_bool_decide as Hd.
  - subst d. change (unsplit c ("" :: Split c s)) with (String c "" +:+ unsplit c (Split c s)). by rewrite IH.
  - destruct (Split c s) as [|h l] eqn:Hs; [by apply Split_nonempty in Hs|].
    change (unsplit c (h :: l)) with (String c h +:+ unsplit c l) in IH. injection IH as <-. done.
Qed.
(** What stands between separators in a text is a run of neighbouring elements of it. *)
Lemma run_contains c x y :
  contains (String c (x +:+ String c "")) (String c (y +:+ String c "")) = true ↔
  ∃ before after, Split c y = before ++ Split c x ++ after.
Proof.
  rewrite contains_spec. split.
  - intros (p & q & H). pose proof (framed c y) as Hl. rewrite H in Hl.
    assert (Split c (p +:+ String c (x +:+ String c "") +:+ q) = Split c p ++ Split c x ++ Split c q) as Hr.
    { change (String c (x +:+ String c "") +:+ q) with (String c ((x +:+ String c "") +:+ q)).
      rewrite Split_app, str_app_assoc. f_equal. change (String c "" +:+ q) with (String c q). apply Split_app. }
    rewrite Hr in Hl. pose proof (Split_nonempty c p) as Hp. pose proof (Split_nonempty c q) as Hq.
    destruct (Split c p) as [|h a]; [done|]. injection Hl as _ Hl. destruct (exists_last Hq) as (b & z & Hb).
    rewrite Hb, !app_assoc in Hl. apply app_inj_tail in Hl as [<- _]. exists a, b. by rewrite app_assoc.
  - intros (a & b & H). pose proof (unsplit_Split c y) as Hy. rewrite H, !unsplit_app, (unsplit_Split c x) in Hy.
    change (String c (y +:+ String c "")) with (String c y +:+ String c "").
    change (String c (x +:+ String c "")) with (String c x +:+ String c ""). rewrite <- Hy.
    generalize (String c x) (unsplit c a). intros xs u. destruct b as [|h b].
    + exists u, "". change (unsplit c []) with "". by rewrite !str_app_nil_r, str_app_assoc.
    + exists u, (h +:+ unsplit c b +:+ String c "").
      change (unsplit c (h :: b)) with ((String c "" +:+ h) +:+ unsplit c b). by rewrite !str_app_assoc.
Qed.
Lemma key_prefix k v p : any_byte (is_byte 61) k = false → any_byte (is_byte 61) p = false →
  has_prefix (p +:+ "=") (k +:+ "=" +:+ v) = true ↔ k = p.
Proof.
  intros Hk Hp. rewrite has_prefix_spec. split; [|intros ->; exists v; by rewrite str_app_assoc].
  intros [t Ht]. rewrite str_app_assoc in Ht.
  assert (cut (byte 61) (k +:+ String (byte 61) v) = cut (byte 61) (p +:+ String (byte 61) t)) as H by exact (f_equal _ Ht).
  rewrite (cut_first (byte 61) k v Hk), (cut_first (byte 61) p t Hp) in H. by injection H.
Qed.
Lemma new_volume first storage :
  negb (eqb storage "") && eqb (diskStorage first) storage = true ↔
  storage ≠ "" ∧ any_byte (is_byte 58) storage = false ∧ ∃ spec, first = storage +:+ ":" +:+ spec.
Proof.
  rewrite andb_true_iff, negb_eqb, eqb_true. unfold diskStorage. split.
  - intros [Hs H]. destruct (cut (byte 58) first) as [[a b]|] eqn:Hc; [|by subst]. subst a. apply cut_spec in Hc as [-> ?].
    split_and!; [done..|by exists b].
  - intros (Hs & Hc & spec & ->). split; [done|]. change (":" +:+ spec) with (String (byte 58) spec). by rewrite (cut_first (byte 58) storage spec Hc).
Qed.
Lemma disk_option_iff vol storage opt : disk_option vol storage opt = true ↔ option_ok vol storage opt.
Proof.
  unfold disk_option. destruct (cut_prefix "import-from=" opt) as [v|] eqn:Hi.
  - apply cut_prefix_spec in Hi as ->. rewrite <- andb_assoc, andb_true_iff, new_volume. split.
    + intros (Hv & Hs & Hc & spec & ->). by econstructor.
    + inversion 1 as [v' spec Hv Hvol Hs Hc Heq|k v' Hk He Hf Hvo Him Hc Heq].
      * assert (v' = v) as -> by exact Heq. eauto.
      * destruct Him. apply (key_prefix k v' "import-from"); [done|reflexivity|]. rewrite Heq. apply has_prefix_spec. by exists v.
  - rewrite andb_true_iff, negb_true_iff, !orb_false_iff. unfold isKVColon, isIgnorableOpt. split.
    + intros [[[Hf Hv] Hc] He]. destruct (cut (byte 61) opt) as [[k v]|] eqn:Hcut; [|done]. apply cut_spec in Hcut as [-> Hk].
      apply negb_eqb in He. assert (contains ":" v = false) as Hcol by (by apply eqb_false in He; rewrite He in Hc).
      change (String (byte 61) v) with ("=" +:+ v) in *. constructor; try done; intros ->.
      * by rewrite (proj2 (has_prefix_spec "file=" ("file" +:+ "=" +:+ v)) (ex_intro _ v eq_refl)) in Hf.
      * by rewrite (proj2 (has_prefix_spec "volume=" ("volume" +:+ "=" +:+ v)) (ex_intro _ v eq_refl)) in Hv.
      * by rewrite (proj2 (cut_prefix_spec "import-from=" ("import-from" +:+ "=" +:+ v) v) eq_refl) in Hi.
    + inversion 1 as [v' spec Hv Hvol Hs Hc Heq|k v' Hk He Hf Hvo Him Hc Heq]; subst.
      * by rewrite (proj2 (cut_prefix_spec "import-from=" ("import-from=" +:+ v') v') eq_refl) in Hi.
      * change ("=" +:+ v') with (String (byte 61) v'). rewrite (cut_first (byte 61) k v' He). rewrite Hc, andb_false_r. apply eqb_false in Hk. rewrite Hk. split; [|done].
        split; [split|done]; apply not_true_is_false.
        -- intros H2. by apply (key_prefix k v' "file" He eq_refl) in H2.
        -- intros H2. by apply (key_prefix k v' "volume" He eq_refl) in H2.
Qed.
Lemma disk_volume_iff vol value storage : disk_volume vol value storage = true ↔ volume_ok value storage vol.
Proof.
  assert (∀ s, diskISORE s = true → has_prefix "local:iso/" s = true) as Hiso.
  { intros s. unfold diskISORE, has_prefix. by destruct (cut_prefix _ s). }
  unfold disk_volume. destruct (eqb vol "none") eqn:Hn; [apply eqb_true in Hn as ->; split; [constructor|done]|].
  apply eqb_false in Hn. destruct (has_prefix "local:iso/" vol) eqn:Hp.
  - rewrite andb_true_iff, (element_contains "media=cdrom") by done. split; [intros []; by constructor|].
    inversion 1 as [| |spec Hs Hc Hsz Heq]; [done|done|]. exfalso. subst vol. apply has_prefix_spec in Hp as [t Ht].
    assert (cut (byte 58) (storage +:+ String (byte 58) spec) = cut (byte 58) ("local:iso/" +:+ t)) as Hcut by exact (f_equal _ Ht).
    rewrite (cut_first (byte 58) storage spec Hc) in Hcut. injection Hcut as _ ->. done.
  - transitivity (negb (eqb storage "") && eqb (diskStorage vol) storage && match cut (byte 58) vol with Some (_, spec) => diskSizeRE spec | None => false end = true).
    { unfold diskStorage. destruct (cut (byte 58) vol) as [[a b]|]; [done|by rewrite andb_false_r]. }
    rewrite andb_true_iff, new_volume. split.
    + intros [(Hs & Hc & spec & ->) Hsz]. change (":" +:+ spec) with (String (byte 58) spec) in Hsz.
      rewrite (cut_first (byte 58) storage spec Hc) in Hsz. by constructor.
    + inversion 1 as [|v Hv|spec Hs Hc Hsz]; subst; [done|by apply Hiso in Hv; congruence|].
      change (":" +:+ spec) with (String (byte 58) spec). rewrite (cut_first (byte 58) storage spec Hc). split; [|done].
      split_and!; [done..|by exists spec].
Qed.
Lemma DiskOK_iff value storage : DiskOK value storage = true ↔ disk_ok value storage.
Proof.
  unfold DiskOK, disk_ok, split_first. rewrite Split_first.
  assert (∀ vol rest, forallb (disk_option vol storage) (splitDiskOptions (S (slen rest)) rest) = true ↔
    ∀ opt, opt ∈ drop_last_empty (Split comma rest) → option_ok vol storage opt) as Hopts.
  { intros vol rest. rewrite splitDiskOptions_spec by lia. rewrite forallb_forall. setoid_rewrite <- list_elem_of_In.
    split; intros H opt Hin; [apply disk_option_iff|apply disk_option_iff]; by apply H. }
  destruct (cut comma value) as [[a b]|]; rewrite andb_true_iff, disk_volume_iff, Hopts.
  - split; [intros []; by exists a, (Split comma b)|]. by intros (? & ? & [= <- <-] & ?).
  - split; [intros []; by exists value, []|]. intros (? & ? & [= <- <-] & ? & ?). done.
Qed.
Lemma bridge_options value :
  omap (cut_prefix "bridge=") (splitNonEmpty value comma) = omap (cut_prefix "bridge=") (Split comma value).
Proof.
  unfold splitNonEmpty. induction (Split comma value) as [|x l IH]; [done|]. cbn [List.filter].
  destruct (eqb x "") eqn:Hx; cbn [negb]; [apply eqb_true in Hx as ->; exact IH|].
  cbn [omap list_omap]. by destruct (cut_prefix "bridge=" x); rewrite <- IH.
Qed.
Lemma NetOK_iff value bridges : NetOK value bridges = true ↔ net_ok value bridges.
Proof.
  unfold NetOK, net_ok, bridge_named. cbv zeta. rewrite bridge_options, andb_true_iff, bool_decide_eq_true.
  destruct (omap _ _) as [|br [|br2 l]].
  - split; [intros [_ [=]]|by intros (? & ? & _)].
  - cbn [forallb]. rewrite andb_true_r.
    pose proof (run_contains (byte 32) br bridges) as Hc. change (byte 32) with " "%char in *.
    split; [intros [H _]; exists br; split; [done|]; by apply Hc|]. intros (? & [= <-] & H). split; [by apply Hc|done].
  - split; [intros [_ [=]]|by intros (? & ? & _)].
Qed.
(** ** The class of a field *)
Lemma numbered_iff name key : numbered name key = true ↔ has_number name key.
Proof.
  unfold numbered, has_number, nonempty_of. destruct (cut_prefix name key) as [d|] eqn:Hc.
  - pose proof Hc as Hk%cut_prefix_spec. rewrite andb_true_iff, negb_eqb. split; [intros []; eauto|].
    intros (d' & ? & ? & Hd%cut_prefix_spec). by simplify_eq.
  - split; [done|]. intros (d & _ & _ & Hd%cut_prefix_spec). congruence.
Qed.
(** A field is in at most one class, and refused when in none. *)
Lemma class_iff key :
  (CreateFieldClass key = classPlain ↔ plain_key key) ∧
  (CreateFieldClass key = classNet ↔ net_key key ∧ ¬ plain_key key) ∧
  (CreateFieldClass key = classDisk ↔ disk_key key ∧ ¬ plain_key key ∧ ¬ net_key key).
Proof.
  unfold CreateFieldClass, plain_key, net_key, disk_key, ipconfigRE, netIfaceRE, diskIfaceRE.
  rewrite <- !numbered_iff.
  case_bool_decide as Hp; unfold plainConfigField in Hp; [naive_solver|].
  destruct (numbered "ipconfig" key); [naive_solver|]. destruct (numbered "net" key); [naive_solver|].
  rewrite <- orb_true_iff. destruct (_ || _); naive_solver.
Qed.
Lemma keys_disjoint key :
  (net_key key → ¬ plain_key key) ∧ (disk_key key → ¬ plain_key key ∧ ¬ net_key key).
Proof.
  assert (∀ name d, all_bytes is_digit d = true → d ≠ "" → name ∈ ["net"; "scsi"; "ide"] → ¬ plain_key (name +:+ d)) as Hnp.
  { intros name [|c d] Hd Hne Hn; [done|]. cbn in Hd. apply andb_true_iff in Hd as [Hc _]. intros [Hp|(x & _ & _ & Hx)].
    - repeat (apply elem_of_cons in Hn as [->|Hn]; [cbn in Hp; repeat (apply elem_of_cons in Hp as [[=]|Hp]; subst; try done); by apply elem_of_nil in Hp|]).
      by apply elem_of_nil in Hn.
    - repeat (apply elem_of_cons in Hn as [->|Hn]; [simplify_eq Hx; intros; subst; try done; try discriminate Hx|]). by apply elem_of_nil in Hn. }
  split.
  - intros (d & ? & ? & ->). apply Hnp; [done..|set_solver].
  - intros [(d & ? & ? & ->)|(d & ? & ? & ->)]; (split; [apply Hnp; [done..|set_solver]|]); by intros (x & _ & _ & [=]).
Qed.
Lemma class_cases key :
  match CreateFieldClass key with
  | classPlain => plain_key key ∧ ¬ net_key key ∧ ¬ disk_key key
  | classNet => net_key key ∧ ¬ plain_key key ∧ ¬ disk_key key
  | classDisk => disk_key key ∧ ¬ plain_key key ∧ ¬ net_key key
  | classRefused => ¬ plain_key key ∧ ¬ net_key key ∧ ¬ disk_key key
  end.
Proof.
  destruct (class_iff key) as (H1 & H2 & H3), (keys_disjoint key) as [D1 D2].
  destruct (CreateFieldClass key); naive_solver.
Qed.
Lemma screen_delete_iff value created items :
  screen_delete value created items = Ok tt ↔
  ∀ item, item ∈ items → item ≠ "delete" ∧ (plain_key item ∨ net_key item ∨ (disk_key item ∧ created = true)).
Proof.
  induction items as [|item items IH]; cbn [screen_delete]; [split; [intros _ i Hi; by apply elem_of_nil in Hi|done]|].
  setoid_rewrite elem_of_cons. transitivity ((item ≠ "delete" ∧ (plain_key item ∨ net_key item ∨ (disk_key item ∧ created = true)))
    ∧ screen_delete value created items = Ok tt); [|rewrite IH; naive_solver].
  pose proof (class_cases item) as Hc. assert (disk_key item → item ≠ "delete") as Hd.
  { intros Hk ->. apply (proj2 (keys_disjoint "delete")) in Hk as [Hk _]. apply Hk. left. set_solver. }
  destruct (CreateFieldClass item); rewrite ?guard_iff, ?negb_eqb; naive_solver.
Qed.
Lemma screenField_iff key value storage bridges isCreate created :
  screenField key value storage bridges isCreate created = Ok tt ↔ field_ok storage bridges isCreate created key value.
Proof.
  unfold screenField, field_ok. rewrite guard_iff, guard_iff, negb_true_iff. apply and_iff_compat_l, and_iff_compat_l.
  assert (CreateFieldClass key ≠ classPlain → eqb key "delete" = false) as Hdel by (intros Hp; apply eqb_false; by intros ->).
  pose proof (class_cases key) as Hk. destruct (CreateFieldClass key) eqn:Hc.
  - cbn [id]. destruct (eqb key "delete") eqn:Hd; [apply eqb_true in Hd|apply eqb_false in Hd; naive_solver].
    rewrite screen_delete_iff. naive_solver.
  - rewrite call_iff, (Hdel ltac:(done)). setoid_rewrite guard_iff. setoid_rewrite guard_iff. setoid_rewrite DiskOK_iff.
    setoid_rewrite orb_true_iff. naive_solver.
  - naive_solver.
  - rewrite call_iff, (Hdel ltac:(done)). setoid_rewrite guard_iff. setoid_rewrite NetOK_iff. naive_solver.
Qed.
Lemma screen_all_iff {V} (f : string → V → res unit) l :
  screen_all f l = Ok tt ↔ ∀ k v, (k, v) ∈ l → f k v = Ok tt.
Proof.
  induction l as [|[k v] l IH]; cbn [screen_all]; [split; [intros _ k v H; by apply elem_of_nil in H|done]|].
  rewrite call_iff. setoid_rewrite elem_of_cons. split.
  - intros ([] & Hf & Hl) k' v' [[= -> ->]|Hin]; [done|]. by apply IH.
  - intros H. exists tt. split; [apply H; by left|]. apply IH. auto.
Qed.

(** * Properties *)
(** C31: a VM is created from a set of fields exactly when each of them is a string without a
    control character and of a form the harness lists: a plain setting; a disk that is none,
    the installer's CD, a new volume of the required storage, or an import of a cloud image
    into it, whose other options name no volume; a NIC with exactly one bridge option, whose
    value is one of the words of the list of bridges or several neighbouring words of it (the
    latter is a divergence from what the comment says, see [bridges_in_one]); and no [delete]
    of a disk or of an unlisted field. The keys of each class are spelled out: any other key
    is refused. *)
Theorem ScreenCreate_iff obj storage bridges :
  ScreenCreate obj storage bridges = Ok tt ↔
  ∀ key raw, obj !! key = Some raw → ∃ value, raw = JStr value ∧ field_ok storage bridges true false key value.
Proof.
  unfold ScreenCreate. rewrite screen_all_iff. setoid_rewrite elem_of_map_to_list. split; intros H key raw Hr; specialize (H key raw Hr).
  - destruct raw; try done. apply screenField_iff in H. eauto.
  - destruct H as (value & -> & H). by apply screenField_iff.
Qed.
(** The same of a change of a VM's config, where a disk is set or deleted only on a VM that
    this run created. *)
Theorem ScreenConfig_iff fields storage bridges created :
  ScreenConfig fields storage bridges created = Ok tt ↔
  ∀ key value, fields !! key = Some value → field_ok storage bridges false created key value.
Proof.
  unfold ScreenConfig. rewrite screen_all_iff. setoid_rewrite elem_of_map_to_list. by setoid_rewrite screenField_iff.
Qed.

(** * Examples *)
Definition lab_disks (values : list string) : list bool := (λ v, DiskOK v "tank") <$> values.
Example disks_allowed :
  lab_disks ["tank:32"; "tank:cloudinit,media=cdrom"; "local:iso/pve-9.iso,media=cdrom"; "tank:0,import-from=local:import/d12.qcow2";
             "tank:8,"; "none,media=cdrom"] = repeat true 6.
Proof. vm_compute. reflexivity. Qed.
Example disks_refused :
  lab_disks ["other:32"; "tank:vm-690-disk-0"; "local:iso/../x.iso,media=cdrom"; "local:iso/pve-9.iso"; "tank:8,,media=cdrom";
             "tank:8,volume=other:1"; "tank:8,x=other:1"; "local:iso/a.iso,media=cdrom,import-from=local:import/d.raw"; "tank:8,ro"]
  = repeat false 9.
Proof. vm_compute. reflexivity. Qed.
(** A value that is several bridges in one passes for a bridge. *)
Example bridges_in_one : NetOK "virtio,bridge=vmbr0 vmbr1" "vmbr0 vmbr1" = true.
Proof. vm_compute. reflexivity. Qed.
