(* ===== verification/Reset.v ===== *)
(** internal/harness/reset: the golden point of the nested cluster's three VMs, taken by
    [Golden] and rolled back to by [Reset]. *)
From Stdlib Require Import Ascii.
From S2P Require Import Prelude GoLib Errors Json Rest Vms Task Grants Snapshot Outer Screen.

Definition goldenName : string := "pvh-golden".
Definition descPrefix : string := "pveforge harness golden point ".
Definition VMIDs : list Z := [690; 691; 692]%Z.
Definition stopOrder : list Z := [691; 690; 692]%Z.
Definition startOrder : list Z := [692; 690; 691]%Z.
Definition stampRE (s : string) : bool :=
  match cut (byte 84) s with
  | Some (day, time) =>
      match srev time with
      | String z t => is_byte 90 z && all_bytes is_digit t && bool_decide (slen t = 6) && all_bytes is_digit day && bool_decide (slen day = 8)
      | EmptyString => false
      end
  | None => false
  end.
(** The storage, whether an old golden point may be replaced, the free space needed, and the
    directory of the evidence. *)
Record Params := { Storage_ : string; Replace : bool; MinFreeGiB : Z; Home : string }.

(** ** The driver *)
(** What a run changes of the driver: its stamp, whether a failure is recorded already, and
    what is known of each VM's golden point. *)
Record driver := { stamp : string; failed : bool; goldenState : gmap Z string }.
Definition flow (A : Type) := driver → io outerE (res A * driver).
Definition fret {A} (a : A) : flow A := λ s, Ret (Ok a, s).
Definition fbind {A B} (m : flow A) (f : A → flow B) : flow B := λ s,
  let! rs := m s in match rs.1 with Ok a => f a rs.2 | Er e => Ret (Er e, rs.2) end.
Notation "'let*' x := m 'in' k" := (fbind m (λ x, k))
  (at level 200, x name, m at level 100, k at level 200, right associativity).
Definition act {A} (m : io outerE A) : flow A := λ s, let! a := m in Ret (Ok a, s).
Definition die {A} (reason : string) : flow A := λ s, Ret (Er (errorf reason), s).
Definition set_golden (vmid : Z) (what : string) : flow unit := λ s,
  Ret (Ok tt, {| stamp := stamp s; failed := failed s; goldenState := <[vmid := what]> (goldenState s) |}).
(** A failure that is recorded at once. *)
Definition fail {A} (reason : string) : flow A := λ s,
  let! _ := trigger (OStep ("FAILED " +:+ reason)) in
  Ret (Er (errorf reason), {| stamp := stamp s; failed := true; goldenState := goldenState s |}).
Definition step (line : string) : flow unit := act (trigger (OStep line)).
Definition evidence (name : string) (content : json) : flow unit := act (trigger (OEvidence name content)).
(** A call whose failure ends the run with the text [f] makes of it. *)
Definition or_die {A} (m : io outerE (res A)) (f : string → string) : flow A := λ s,
  let! r := m in match r with Ok a => Ret (Ok a, s) | Er e => die (f (Error e)) s end.
Fixpoint each (l : list Z) (f : Z → flow unit) : flow unit :=
  match l with [] => fret tt | v :: l' => let* _ := f v in each l' f end.
Definition vm (vmid : Z) : string := "VM " +:+ itoa vmid.

Section driver.
Context (cfg : Config) (p : Params).

(** ** Leaves *)
Definition guardChange (vmid : Z) : io outerE (res unit) := Guard cfg None vmid ModeChange.
Definition postLeaf (vmid : Z) (sub set : string) (params : Values) : io outerE (res unit) :=
  match List.find (λ k, negb (AllowedField set k)) (sorted_keys params) with
  | Some k => Ret (Er (errorf (set +:+ " " +:+ k +:+ " is not an allowed harness field")))
  | None =>
      let? _ := guardChange vmid orelse id in
      let? upid := pve_call (RawUPID "POST" (VMPath (cfg_Node cfg) vmid sub) params) orelse id in
      pve_call (WaitForTask (cfg_Node cfg) upid)
  end.
Definition start : flow unit :=
  each startOrder (λ vmid,
    let* _ := or_die (postLeaf vmid "status/start" "start" ∅) (λ e, vm vmid +:+ ": the start failed: " +:+ e) in
    step (vm vmid +:+ ": started")).
Definition accept (minutes : Z) (why : string) : flow unit := λ s,
  let! r := trigger (OAccept minutes why) in
  match r with
  | Er e => fail ("accept (" +:+ why +:+ "): the nested cluster was not accepted: " +:+ Error e) s
  | Ok _ => step ("accepted (" +:+ why +:+ ")") s
  end.

(** ** Checks of a VM *)
(** The values of the keys that are a struct's field, in order. *)
Definition field_values (name : string) (j : json) : list json :=
  match j with JObj l => (List.filter (λ kv : string * json, equal_fold kv.1 name) l).*2 | _ => [] end.
(** A field of type string, where a failure to decode is ignored. *)
Definition string_or_empty (name : string) (j : json) : string :=
  default "" (last (omap (λ v, match v with JStr s => Some s | _ => None end) (field_values name j))).
(** A field of type *string, empty where it is nil or anything was not decoded. *)
Definition string_pointer (name : string) (j : json) : string :=
  let vs := field_values name j in
  if forallb (λ v, match v with JStr _ | JNull => true | _ => false end) vs
  then match last vs with Some (JStr s) => s | _ => "" end else "".
Definition up_to_colon (s : string) : string := match cut (byte 58) s with Some (a, _) => a | None => s end.
Definition checkVM (vmid : Z) : flow unit :=
  let* raw := or_die (pve_call (RawRequest "GET" (VMPath (cfg_Node cfg) vmid "config") ∅))
    (λ e, "reading VM " +:+ itoa vmid +:+ "'s config failed: " +:+ e) in
  let* _ := evidence ("config-" +:+ itoa vmid +:+ ".json") raw in
  let store := up_to_colon (string_or_empty "scsi0" raw) in
  let lock := string_or_empty "lock" raw in
  if negb (eqb store (Storage_ p)) then
    die (vm vmid +:+ ": its system disk is on '" +:+ store +:+ "', not the required storage " +:+ Storage_ p)
  else if negb (eqb lock "") then
    die (vm vmid +:+ " holds lock '" +:+ lock +:+ "'; lib cannot clear it. Operator ask: qm unlock " +:+ itoa vmid +:+ " on "
         +:+ cfg_Node cfg +:+ ", as root")
  else fret tt.
Definition status (vmid : Z) : flow string :=
  let* raw := or_die (pve_call (RawRequest "GET" (VMPath (cfg_Node cfg) vmid "status/current") ∅))
    (λ e, "reading VM " +:+ itoa vmid +:+ "'s status failed: " +:+ e) in
  match string_pointer "status" raw with
  | "" => die (vm vmid +:+ ": the status answer has an unexpected shape")
  | st => fret st
  end.
Definition confirmStopped (vmid : Z) : flow unit :=
  let* st := status vmid in
  if negb (eqb st "stopped") then fail (vm vmid +:+ " is '" +:+ st +:+ "' after its stop reported success")
  else step (vm vmid +:+ ": stopped").

(** ** Snapshots *)
Record snapEntry := { se_name : string; snaptime : option Z; diskOnly : bool; desc : string }.
(** An integer literal. *)
Definition int_token (j : json) : option Z := match j with JNum lit => atoi lit | _ => None end.
Definition decode_snap (name : string) (m : gmap string json) : snapEntry :=
  {| se_name := name; snaptime := m !! "snaptime" ≫= int_token;
     diskOnly := match m !! "vmstate" with None => true | Some v => bool_decide (int_token v = Some 0%Z) end;
     desc := default "" (field as_string m "description") |}.
(** The snapshots, and whether PVE's entry of the current state is among them. *)
Fixpoint parse_entries (l : list (option (gmap string json))) : option (list snapEntry * bool) :=
  match l with
  | [] => Some ([], false)
  | e :: l' =>
      m ← e;
      match field as_string m "name" with
      | None | Some "" => None
      | Some name =>
          '(snaps, current) ← parse_entries l';
          Some (if eqb name "current" then (snaps, true) else (decode_snap name m :: snaps, current))
      end
  end.
Definition parseSnaps (raw : json) : option (list snapEntry * bool) :=
  match as_objects raw with None => None | Some l => parse_entries (default [] l) end.
Definition readSnapshots (vmid : Z) (evFile : string) : flow (list snapEntry) :=
  let* raw := or_die (pve_call (RawRequest "GET" (VMPath (cfg_Node cfg) vmid "snapshot") ∅))
    (λ e, "reading VM " +:+ itoa vmid +:+ "'s snapshots failed: " +:+ e) in
  let* _ := if eqb evFile "" then fret tt else evidence (evFile +:+ "-" +:+ itoa vmid +:+ ".json") raw in
  match parseSnaps raw with
  | None => die (vm vmid +:+ ": the snapshot list has an unexpected shape")
  | Some (_, false) => die (vm vmid +:+ ": the snapshot list is unverifiable: PVE's " +:+ dq +:+ "current" +:+ dq +:+ " entry is absent")
  | Some (snaps, true) => fret snaps
  end.
Definition is_golden (s : snapEntry) : bool := eqb (se_name s) goldenName.
Definition hasGolden (snaps : list snapEntry) : bool := existsb is_golden snaps.
(** The number of goldens and the time of the last one, if each snapshot has a time of its own. *)
Fixpoint golden_time (snaps : list snapEntry) (seen : gset Z) (goldens : nat) (gt : Z) : option (nat * Z) :=
  match snaps with
  | [] => Some (goldens, gt)
  | s :: snaps' =>
      t ← snaptime s;
      if decide (t ∈ seen) then None
      else if is_golden s then golden_time snaps' ({[t]} ∪ seen) (S goldens) t
      else golden_time snaps' ({[t]} ∪ seen) goldens gt
  end.
Definition time_of (s : snapEntry) : Z := default 0%Z (snaptime s).
Definition later (a b : snapEntry) : Prop := (time_of b ≤ time_of a)%Z.
#[local] Instance later_dec a b : Decision (later a b).
Proof. unfold later. apply _. Defined.
Definition newerThanGolden (snaps : list snapEntry) : option (list string) :=
  match golden_time snaps ∅ 0 0 with
  | Some (1, gt) => Some (se_name <$> merge_sort later (List.filter (λ s, (gt <? time_of s)%Z) snaps))
  | _ => None
  end.
Definition TrimSuffix (suffix s : string) : string :=
  match cut_prefix (srev suffix) (srev s) with Some t => srev t | None => s end.
Definition the_golden (snaps : list snapEntry) : option snapEntry := last (List.filter is_golden snaps).
Definition goldenStamp (snaps : list snapEntry) : option string :=
  g ← the_golden snaps;
  if negb (diskOnly g) then None
  else
    st ← cut_prefix descPrefix (TrimSuffix (chr 10) (desc g));
    if stampRE st then Some st else None.
Definition goldenReadsBack (st : string) (snaps : list snapEntry) : bool :=
  match List.filter is_golden snaps with
  | [g] => diskOnly g && eqb (TrimSuffix (chr 10) (desc g)) (descPrefix +:+ st)
  | _ => false
  end.
Definition cascade (vmid : Z) (names : list string) : io outerE (res unit) :=
  let! r := pve_call (CascadeDeleteSnapshots (cfg_Node cfg) vmid names) in
  Ret match r.2 with Some e => Er e | None => Ok tt end.
Definition guardedCascade (vmid : Z) (names : list string) (f : string → string) : flow unit :=
  let* _ := or_die (guardChange vmid) id in or_die (cascade vmid names) f.

(** ** golden.sh *)
Definition vmidList : string := Join " " (itoa <$> VMIDs).
Definition golden_check (vmid : Z) : flow unit :=
  let* _ := checkVM vmid in
  let* snaps := readSnapshots vmid "snapshots-before" in
  if hasGolden snaps && negb (Replace p) then
    die (vm vmid +:+ " already has " +:+ goldenName +:+ "; replacing the golden point needs --replace-golden")
  else set_golden vmid (if hasGolden snaps then "old" else "none").
Definition golden_shutdown (vmid : Z) : flow unit :=
  let* _ := or_die (postLeaf vmid "status/shutdown" "shutdown" (values [("timeout", "300")]))
    (λ e, vm vmid +:+ ": the shutdown failed: " +:+ e) in
  confirmStopped vmid.
Definition golden_delete (vmid : Z) : flow unit :=
  let* snaps := readSnapshots vmid "" in
  if hasGolden snaps then
    let* _ := guardedCascade vmid [goldenName] (λ e, vm vmid +:+ ": deleting the old " +:+ goldenName +:+ " failed: " +:+ e) in
    let* _ := set_golden vmid "none" in
    step (vm vmid +:+ ": the old " +:+ goldenName +:+ " deleted (--replace-golden)")
  else fret tt.
Definition golden_params (st : string) : Values :=
  values [("snapname", goldenName); ("vmstate", "0"); ("description", descPrefix +:+ st)].
Definition golden_take (vmid : Z) : flow unit := λ s,
  (let* _ := or_die (postLeaf vmid "snapshot" "snapshot" (golden_params (stamp s)))
     (λ e, vm vmid +:+ ": taking " +:+ goldenName +:+ " failed: " +:+ e) in
   let* _ := set_golden vmid "new" in
   let* snaps := readSnapshots vmid "snapshots-after" in
   if negb (goldenReadsBack (stamp s) snaps) then
     fail (vm vmid +:+ ": " +:+ goldenName +:+ " does not read back as one disk-only snapshot stamped " +:+ stamp s)
   else step (vm vmid +:+ ": " +:+ goldenName +:+ " taken")) s.
Definition golden : flow unit :=
  let* _ := each VMIDs golden_check in
  let* _ := accept 5 "before the golden point" in
  let* _ := each stopOrder golden_shutdown in
  let* _ := (if Replace p then
               let* _ := each VMIDs golden_delete in step ("no golden exists on " +:+ vmidList)
             else fret tt) in
  let* _ := each VMIDs golden_take in
  let* _ := start in
  let* _ := accept 15 "after the golden point" in
  step "RESULT golden point taken".

(** ** reset.sh *)
(** The snapshots newer than the golden one, the newest first, and its stamp. *)
Record vmReset := { newer : list string; golden_stamp : string }.
Definition reset_read (vmid : Z) : flow vmReset :=
  let* _ := checkVM vmid in
  let* snaps := readSnapshots vmid "snapshots-before" in
  match newerThanGolden snaps with
  | None => die (vm vmid +:+ ": the snapshots need exactly one " +:+ goldenName +:+ ", a time on each, and no two at the same time")
  | Some names =>
      match goldenStamp snaps with
      | None => die (vm vmid +:+ ": " +:+ goldenName
          +:+ " must be disk-only (vmstate 0) and carry golden.sh's run stamp; retake it with golden.sh --replace-golden")
      | Some st => fret {| newer := names; golden_stamp := st |}
      end
  end.
Fixpoint reset_read_all (l : list Z) : flow (list (Z * vmReset)) :=
  match l with
  | [] => fret []
  | v :: l' => let* r := reset_read v in let* rs := reset_read_all l' in fret ((v, r) :: rs)
  end.
Definition stampList (state : list (Z * vmReset)) : string :=
  Join " " ((λ vr, itoa vr.1 +:+ "=" +:+ golden_stamp vr.2) <$> state).
Definition one_point (state : list (Z * vmReset)) : option string :=
  match state with
  | [] => None
  | (_, r) :: _ => if forallb (λ vr, eqb (golden_stamp vr.2) (golden_stamp r)) state then Some (golden_stamp r) else None
  end.
Definition reset_stop (vmid : Z) : flow unit :=
  let* st := status vmid in
  let* _ := (if negb (eqb st "stopped") then
               or_die (postLeaf vmid "status/stop" "stop" ∅) (λ e, vm vmid +:+ ": the stop failed: " +:+ e)
             else fret tt) in
  confirmStopped vmid.
Fixpoint steps_deleted (vmid : Z) (names : list string) : flow unit :=
  match names with
  | [] => fret tt
  | n :: names' => let* _ := step (vm vmid +:+ ": snapshot " +:+ n +:+ " deleted") in steps_deleted vmid names'
  end.
Definition reset_newer (vmid : Z) (names : list string) : flow unit :=
  match names with
  | [] => fret tt
  | _ =>
      let* _ := guardedCascade vmid names (λ e, vm vmid +:+ ": deleting its newer snapshots failed: " +:+ e) in
      steps_deleted vmid names
  end.
Definition reset_rollback (vmid : Z) (names : list string) : flow unit :=
  let* _ := reset_newer vmid names in
  let* _ := or_die (postLeaf vmid ("snapshot/" +:+ goldenName +:+ "/rollback") "rollback" ∅)
    (λ e, vm vmid +:+ ": the rollback to " +:+ goldenName +:+ " failed: " +:+ e) in
  step (vm vmid +:+ ": rolled back to " +:+ goldenName).
Fixpoint reset_rollbacks (state : list (Z * vmReset)) : flow unit :=
  match state with
  | [] => fret tt
  | (vmid, r) :: state' => let* _ := reset_rollback vmid (newer r) in reset_rollbacks state'
  end.
Definition reset : flow unit :=
  let* state := reset_read_all VMIDs in
  match one_point state with
  | None => die ("the goldens are not one point: " +:+ stampList state)
  | Some st =>
      let* _ := step ("the goldens are one point: stamp " +:+ st) in
      let* _ := each stopOrder reset_stop in
      let* _ := reset_rollbacks state in
      let* _ := start in
      let* _ := accept 15 "after the reset" in
      step ("RESULT reset to " +:+ goldenName)
  end.

(** ** The frame of a run *)
Definition staticLayer : io outerE (res unit) :=
  let refused e := errorf ("the capability probe's static layer refused storage " +:+ Storage_ p +:+ ": " +:+ e) in
  let? st := pve_call (ReadStorageStatus (cfg_Node cfg) (Storage_ p)) orelse (λ e, refused (Error e)) in
  let reason := Unsuitable st (MinFreeGiB p) in
  guard eqb reason "" orelse refused reason in Ret (Ok tt).
Definition rosterGate : io outerE (res unit) :=
  let! nested := trigger (OEnv "PVEFORGE_HARNESS_ROSTER") in
  guard negb (eqb nested "") orelse
    errorf "PVEFORGE_HARNESS_ROSTER must name the nested harness roster: acceptance reads the nested cluster through it" in
  let! outer := trigger (OEnv "PVEFORGE_HARNESS_OUTER_ROSTERS") in
  guard negb (eqb outer "") orelse
    errorf "PVEFORGE_HARNESS_OUTER_ROSTERS must list the outer rosters: acceptance refuses any overlap with them" in
  Ret (Ok tt).
Definition openEvidence (what : string) : io outerE (res string) :=
  let! st := trigger OClock in
  let root := path_Join [Home p; ".config/pveforge/harness-evidence"; what] in
  let? _ := trigger (OMkdirAll root) orelse wrapf ("cannot create " +:+ root) in
  let evid := path_Join [root; st] in
  let? _ := trigger (OMkdir evid) orelse wrapf ("cannot create the evidence directory " +:+ evid +:+ " (one run per second)") in
  Ret (Ok st).
Definition goldenStateSuffix (g : gmap Z string) : string :=
  if bool_decide (g = ∅) then ""
  else "; golden state:" +:+ sconcat ((λ v, " " +:+ itoa v +:+ "=" +:+ match g !! v with None | Some "" => "unknown" | Some s => s end) <$> VMIDs).
Definition onExit (rs : res unit * driver) : io outerE (res unit) :=
  match rs.1 with
  | Ok _ => Ret (Ok tt)
  | Er e =>
      let states := goldenStateSuffix (goldenState rs.2) in
      let! _ := (if negb (failed rs.2) then trigger (OStep ("FAILED exit 1" +:+ states))
                 else if negb (eqb states "") then trigger (OStep ("FAILED" +:+ states))
                 else Ret tt) in
      Ret (Er e)
  end.
Definition run_flow (what : string) (f : flow unit) : io outerE (res unit) :=
  let? _ := Ret (RequireStorage (Storage_ p)) orelse id in
  let? _ := staticLayer orelse id in
  let? _ := rosterGate orelse id in
  let? st := openEvidence what orelse id in
  let! rs := f {| stamp := st; failed := false; goldenState := ∅ |} in
  onExit rs.
Definition Golden : io outerE (res unit) := run_flow "golden" golden.
Definition Reset_ : io outerE (res unit) := run_flow "reset" reset.
End driver.

#[local] Existing Instance later_dec.
(** * Specification *)
(** ** The requests of a run, as a language *)
Definition request := (string * string * Values)%type.
Definition lang := list request → Prop.
Definition eps : lang := λ l, l = [].
Definition one (r : request) : lang := λ l, l = [r].
Definition opt (P : lang) : lang := λ l, l = [] ∨ P l.
Definition seq (P Q : lang) : lang := λ l, ∃ a b, l = a ++ b ∧ P a ∧ Q b.
Definition all {A} (P : A → lang) (l : list A) : lang := foldr (λ x Q, seq (P x) Q) eps l.
(** A run that fails makes the first requests of a word, one that does not makes one. *)
Definition follows (P : lang) (ok : bool) (l : list request) : Prop := if ok then P l else ∃ rest, P (l ++ rest).
Definition sends (tr : list (event outerE)) : list request := mutations (pve_of tr).

Section spec.
Context (cfg : Config) (p : Params).
Local Notation node := (cfg_Node cfg).
Definition post (sub : string) (params : Values) (vmid : Z) : request := ("POST", VMPath node vmid sub, params).
(** Some of the snapshots [names] of a VM are deleted, in their order. *)
Definition deletes (vmid : Z) (names : list string) : lang := λ l,
  ∃ ns, ns `sublist_of` names ∧ l = (λ n, ("DELETE", delete_path node vmid n, ∅)) <$> ns.
Definition rollback_params : string := "snapshot/" +:+ goldenName +:+ "/rollback".
Definition starts : lang := all (λ v, one (post "status/start" ∅ v)) startOrder.
Definition stops : lang := all (λ v, opt (one (post "status/stop" ∅ v))) stopOrder.
Definition shutdowns : lang := all (λ v, one (post "status/shutdown" (values [("timeout", "300")]) v)) stopOrder.
Definition old_goldens : lang := all (λ v, deletes v [goldenName]) VMIDs.
Definition goldens (st : string) : lang := all (λ v, one (post "snapshot" (golden_params st) v)) VMIDs.
(** ** What must have been seen *)
Definition on_vm (vmid : Z) (r : request) : Prop := ∃ n sub, r.1.2 = VMPath n vmid sub ∧ (n = node ∨ n = path_escape node).
(** Every write is of a VM that the guard let pass before it, since when only that VM was
    written to. *)
Definition vetted_writes (tr : list (event outerE)) : Prop :=
  ∀ pre ev post r, tr = pre ++ ev :: post → pve_event ev ≫= mutation = Some r →
    ∃ vmid a b, on_vm vmid r ∧ pre = a ++ b ∧ vetted cfg None vmid ModeChange b ∧ Forall (on_vm vmid) (sends b).
Definition read_of (vmid : Z) (sub : string) (j : json) (tr : list (event outerE)) : Prop :=
  got (pve_of tr) (VMPath node vmid sub) ∅ j.
Definition stopped_seen (vmid : Z) (tr : list (event outerE)) : Prop :=
  ∃ j, read_of vmid "status/current" j tr ∧ string_pointer "status" j = "stopped".
Definition snapshots_seen (vmid : Z) (snaps : list snapEntry) (tr : list (event outerE)) : Prop :=
  ∃ j, read_of vmid "snapshot" j tr ∧ parseSnaps j = Some (snaps, true).
Definition disk_seen (vmid : Z) (tr : list (event outerE)) : Prop :=
  ∃ j, read_of vmid "config" j tr ∧ up_to_colon (string_or_empty "scsi0" j) = Storage_ p ∧ string_or_empty "lock" j = "".
(** After the last change, the complete list of a VM's snapshots held none of [names]. *)
Definition newer_gone (vmid : Z) (names : list string) (tr : list (event outerE)) : Prop :=
  names = [] ∨ ∃ a b l, tr = a ++ b ∧ sends b = [] ∧
    Ev (OPve (PcSnapshots (snapshot_path node vmid))) (Ok (Some l)) ∈ b ∧ has_current l = true ∧
    ∀ n, n ∈ names → n ∉ snapshot_names (realSnapshots l).
(** The task that the request answered was seen to do its work. *)
Definition task_seen (vmid : Z) (sub : string) (params : Values) (tr : list (event outerE)) : Prop :=
  ∃ hr j upid exit, Ev (OPve (Http "POST" (VMPath node vmid sub) params)) hr ∈ tr ∧ answered hr j ∧
    as_string j = Some upid ∧ exit_good exit ∧ Ev (OPve (PcTask upid)) (Ok ("stopped", exit)) ∈ tr.
Definition accepted (minutes : Z) (why : string) (tr : list (event outerE)) : Prop := Ev (OAccept minutes why) (Ok tt) ∈ tr.
(** Of a list with one golden snapshot [g], which is disk-only, stamped [st] and of no other
    snapshot's time, those that are newer, the newest first. *)
Definition golden_of (snaps : list snapEntry) (names : list string) (st : string) : Prop :=
  ∃ g l, List.filter is_golden snaps = [g] ∧ diskOnly g = true ∧ TrimSuffix (chr 10) (desc g) = descPrefix +:+ st ∧ stampRE st = true ∧
    Forall (λ s, is_Some (snaptime s)) snaps ∧ NoDup (snaptime <$> snaps) ∧
    names = se_name <$> l ∧ Sorted later l ∧ l ≡ₚ List.filter (λ s, (time_of g <? time_of s)%Z) snaps.
Definition golden_point (vmid : Z) (r : vmReset) (tr : list (event outerE)) : Prop :=
  ∃ snaps, snapshots_seen vmid snaps tr ∧ golden_of snaps (newer r) (golden_stamp r).
(** A part of a run: what it sends, and what it has seen when it succeeds. *)
Definition runs (st : string) (P : lang) {A} (R : A → list (event outerE) → Prop) (f : flow A) : Prop :=
  (∃ l, P l) ∧ ∀ s, stamp s = st → always (f s) (λ tr rs,
    stamp rs.2 = st ∧ vetted_writes tr ∧ follows P (is_ok rs.1) (sends tr) ∧ ∀ a, rs.1 = Ok a → R a tr).
Local Notation anything := (λ _ _, True).

(** ** Stages *)
(** What a trace may look like, of a run that ends well or not. *)
Definition shape := bool → list (event outerE) → Prop.
(** All requests of [P] are made, and [R] is seen, before anything of what follows. *)
Definition stage {A} (P : lang) (R : A → list (event outerE) → Prop) (Q : A → shape) : shape := λ ok tr,
  ok = false ∧ follows P false (sends tr) ∨ ∃ a t1 t2, tr = t1 ++ t2 ∧ P (sends t1) ∧ R a t1 ∧ Q a ok t2.
Definition final (P : lang) (R : list (event outerE) → Prop) : shape := λ ok tr,
  follows P ok (sends tr) ∧ (ok = true → R tr).
Definition has_shape (st : string) (Q : shape) (f : flow unit) : Prop :=
  ∀ s, stamp s = st → always (f s) (λ tr rs, vetted_writes tr ∧ Q (is_ok rs.1) tr).
(** The storage is one that a run may use, and PVE's answer of its status suits. *)
Definition opened (st : string) (tr : list (event outerE)) : Prop :=
  RequireStorage (Storage_ p) = Ok (Storage_ p) ∧ Ev OClock st ∈ tr ∧
  ∃ j s, got (pve_of tr) (StatusPath node (Storage_ p)) ∅ j ∧ ParseStorageStatus j = Ok s ∧ Unsuitable s (MinFreeGiB p) = "".
(** Of each VM in turn, what is newer than its golden point is deleted, and gone, and then it
    is rolled back. *)
Fixpoint rollbacks (state : list (Z * vmReset)) (Q : shape) : shape :=
  match state with
  | [] => Q
  | (v, r) :: state' =>
      stage (deletes v (newer r)) (λ (_ : unit) tr, newer_gone v (newer r) tr) (λ _,
      stage (one (post rollback_params ∅ v)) (λ (_ : unit) tr, task_seen v rollback_params ∅ tr) (λ _,
      rollbacks state' Q))
  end.
Definition restarted (minutes : Z) (why : string) (tr : list (event outerE)) : Prop :=
  (∀ v, v ∈ startOrder → task_seen v "status/start" ∅ tr) ∧ accepted minutes why tr.
Definition reset_shape : shape :=
  stage eps (λ state tr, state.*1 = VMIDs ∧ ∀ v r, (v, r) ∈ state → disk_seen v tr ∧ golden_point v r tr) (λ state,
  stage eps (λ (st : string) _, ∀ v r, (v, r) ∈ state → golden_stamp r = st) (λ _,
  stage stops (λ (_ : unit) tr, ∀ v, v ∈ stopOrder → stopped_seen v tr) (λ _,
  rollbacks state (final starts (restarted 15 "after the reset"))))).
(** A VM may have a golden point before a run only if that is to be replaced. *)
Definition before_seen (vmid : Z) (tr : list (event outerE)) : Prop :=
  disk_seen vmid tr ∧ ∃ snaps, snapshots_seen vmid snaps tr ∧ (Replace p = false → List.filter is_golden snaps = []).
Definition after_seen (st : string) (vmid : Z) (tr : list (event outerE)) : Prop :=
  ∃ snaps g, snapshots_seen vmid snaps tr ∧ List.filter is_golden snaps = [g] ∧ diskOnly g = true ∧
    TrimSuffix (chr 10) (desc g) = descPrefix +:+ st.
Definition golden_shape (st : string) : shape :=
  stage eps (λ (_ : unit) tr, ∀ v, v ∈ VMIDs → before_seen v tr) (λ _,
  stage eps (λ (_ : unit) tr, accepted 5 "before the golden point" tr) (λ _,
  stage shutdowns (λ (_ : unit) tr, ∀ v, v ∈ stopOrder → stopped_seen v tr) (λ _,
  stage (if Replace p then old_goldens else eps) (λ (_ : unit) _, True) (λ _,
  stage (goldens st) (λ (_ : unit) tr, ∀ v, v ∈ VMIDs → after_seen st v tr) (λ _,
  final starts (restarted 15 "after the golden point")))))).

(** * Lemmas *)
Lemma sends_app tr tr' : sends (tr ++ tr') = sends tr ++ sends tr'.
Proof. unfold sends. by rewrite pve_of_app, mutations_app. Qed.
Lemma vetted_app tr tr' : vetted_writes tr → vetted_writes tr' → vetted_writes (tr ++ tr').
Proof.
  intros H H' pre ev q r Heq Hr. apply app_eq_app in Heq as (l & [[-> Hl]|[-> Hl]]).
  - destruct l as [|x l].
    + cbn in Hl. destruct (H' [] ev q r) as (v & a & b & Hon & Hab & ?); [done|done|]. symmetry in Hab.
      apply app_nil in Hab as [-> ->]. exists v, pre, []. rewrite !app_nil_r. auto.
    + injection Hl as <- ->. by apply (H pre ev l r).
  - destruct (H' l ev q r Hl Hr) as (v & a & b & Hon & -> & ?). exists v, (tr ++ a), b. rewrite app_assoc. auto.
Qed.
Lemma no_sends_vetted tr : sends tr = [] → vetted_writes tr.
Proof.
  intros H pre ev q r -> Hr. exfalso. rewrite sends_app in H. apply app_eq_nil in H as [_ H].
  unfold sends, mutations, pve_of in H. cbn [omap list_omap] in H. destruct (pve_event ev) as [x|]; [|done].
  cbn in Hr, H. by rewrite Hr in H.
Qed.
Lemma reads_send_nothing tr : Forall reads_only tr → sends tr = [].
Proof.
  induction 1 as [|[R e r] tr He _ IH]; [done|]. unfold sends, mutations, pve_of in *. cbn [omap list_omap pve_event].
  destruct e; cbn in He |- *; try done. by rewrite He.
Qed.
(** ** Rules *)
Lemma runs_mono st P P' {A} (R R' : A → list (event outerE) → Prop) f :
  (∀ l, P l → P' l) → (∀ a tr, R a tr → R' a tr) → runs st P R f → runs st P' R' f.
Proof.
  intros HP HR [[l Hl] H]. split; [eauto|]. intros s Hs. eapply always_mono; [|by apply H].
  intros tr rs (? & ? & Hf & Hr). split_and!; [done..| |eauto]. unfold follows in *. destruct (is_ok _); [auto|].
  destruct Hf as [rest ?]. eauto.
Qed.
Lemma runs_bind st P Q {A B} (R : A → list (event outerE) → Prop) (R' : B → list (event outerE) → Prop) (f : flow A) (g : A → flow B) :
  runs st P R f → (∃ l, Q l) →
  (∀ a tr0, R a tr0 → runs st Q (λ b tr, R' b (tr0 ++ tr)) (g a)) → runs st (seq P Q) R' (fbind f g).
Proof.
  intros [[l1 H1] Hf] [l2 H2] Hg. split; [by exists (l1 ++ l2), l1, l2|]. intros s Hs. unfold fbind.
  eapply always_call; [by apply Hf|]. intros tr [[a|e] s1] (Hst & Hv & Hfol & Hr); cbn [fst snd is_ok] in *.
  - destruct (Hg a tr (Hr a eq_refl)) as [_ Hga]. eapply always_mono; [|by apply Hga].
    intros tr' rs (? & ? & Hfol' & Hr'). rewrite sends_app. split_and!; [done|by apply vetted_app| |done].
    unfold follows in *. destruct (is_ok rs.1); [by exists (sends tr), (sends tr')|].
    destruct Hfol' as [rest Hrest]. exists rest. rewrite <- app_assoc. by exists (sends tr), (sends tr' ++ rest).
  - cbn [always]. rewrite app_nil_r. split_and!; [done|done| |done]. destruct Hfol as [rest Hrest].
    exists (rest ++ l2). rewrite app_assoc. by exists (sends tr ++ rest), l2.
Qed.
(** A part that sends nothing, and one whose rest sends nothing. *)
Lemma runs_read st Q {A B} (R : A → list (event outerE) → Prop) (R' : B → list (event outerE) → Prop) (f : flow A) (g : A → flow B) :
  runs st eps R f → (∃ l, Q l) →
  (∀ a tr0, R a tr0 → runs st Q (λ b tr, R' b (tr0 ++ tr)) (g a)) → runs st Q R' (fbind f g).
Proof.
  intros Hf HQ Hg. eapply runs_mono; [| |by eapply (runs_bind st eps Q)]; [|done]. by intros l (a & b & -> & -> & ?).
Qed.
Lemma runs_last st P {A B} (R : A → list (event outerE) → Prop) (R' : B → list (event outerE) → Prop) (f : flow A) (g : A → flow B) :
  runs st P R f → (∀ a tr0, R a tr0 → runs st eps (λ b tr, R' b (tr0 ++ tr)) (g a)) → runs st P R' (fbind f g).
Proof.
  intros Hf Hg. eapply runs_mono; [| |eapply (runs_bind st P eps); [exact Hf|by exists []|exact Hg]]; [|done].
  intros l (a & b & -> & ? & ->). by rewrite app_nil_r.
Qed.
Lemma runs_ret st {A} (a : A) (R : A → list (event outerE) → Prop) : R a [] → runs st eps R (fret a).
Proof.
  intros HR. split; [by exists []|]. intros s Hs. cbn. split_and!; [done|by apply no_sends_vetted|done|]. by intros ? [= <-].
Qed.
Lemma runs_die st P {A} (R : A → list (event outerE) → Prop) e : (∃ l, P l) → runs st P R (die e).
Proof. intros [l Hl]. split; [by exists l|]. intros s Hs. cbn. split_and!; [done|by apply no_sends_vetted|by exists l|done]. Qed.
Lemma runs_fail st P {A} (R : A → list (event outerE) → Prop) e : (∃ l, P l) → runs st P R (fail e).
Proof.
  intros [l Hl]. split; [by exists l|]. intros s Hs. cbn. intros []. split_and!; [done|by apply no_sends_vetted|by exists l|done].
Qed.
Lemma runs_step st line : runs st eps anything (step line).
Proof. split; [by exists []|]. intros s Hs. cbn. intros []. split_and!; [done|by apply no_sends_vetted|done|done]. Qed.
Lemma runs_set_golden st v what : runs st eps anything (set_golden v what).
Proof. split; [by exists []|]. intros s Hs. cbn. split_and!; [done|by apply no_sends_vetted|done|done]. Qed.
Lemma runs_evidence st name j : runs st eps anything (evidence name j).
Proof. split; [by exists []|]. intros s Hs. cbn. intros []. split_and!; [done|by apply no_sends_vetted|done|done]. Qed.
Lemma runs_or_die st P {A} (R : A → list (event outerE) → Prop) m f :
  (∃ l, P l) → always m (λ tr r, vetted_writes tr ∧ follows P (is_ok r) (sends tr) ∧ ∀ a, r = Ok a → R a tr) → runs st P R (or_die m f).
Proof.
  intros HP Hm. split; [done|]. intros s Hs. unfold or_die. eapply always_call; [exact Hm|].
  intros tr [a|e] (Hv & Hf & Hr); cbn; rewrite app_nil_r; by split_and!.
Qed.
(** A part that sends nothing after what it needs. *)
Lemma runs_quiet st {A} (R : A → list (event outerE) → Prop) f : runs st eps R f → runs st eps (λ a tr, R a tr ∧ sends tr = []) f.
Proof.
  intros [Hi H]. split; [done|]. intros s Hs. eapply always_mono; [|by apply H]. intros tr rs (? & ? & Hf & Hr).
  split_and!; [done..|]. intros a Ha. rewrite Ha in Hf. split; [by apply Hr|exact Hf].
Qed.
(** ** Leaves *)
Lemma post_on_vm sub params vmid : on_vm vmid (post sub params vmid).
Proof. exists node, sub. auto. Qed.
Lemma delete_on_vm vmid n : on_vm vmid ("DELETE", delete_path node vmid n, ∅).
Proof.
  exists (path_escape node), ("snapshot/" +:+ path_escape n). split; [|by right]. unfold delete_path, snapshot_path, vm_path, VMPath, qemu_path. cbn [fst snd].
  change (eqb ("snapshot/" +:+ path_escape n) "") with false. cbv iota. by rewrite !str_app_assoc.
Qed.
Lemma sends_lift tr : sends (lift_event (@OPve) <$> tr) = mutations tr.
Proof. unfold sends. by rewrite pve_of_lift. Qed.
(** Writes of one VM alone, after a guard of it. *)
Lemma guarded_writes vmid tr tr' :
  Forall reads_only tr → vetted cfg None vmid ModeChange tr → Forall (on_vm vmid) (sends tr') → vetted_writes (tr ++ tr').
Proof.
  intros Hr Hv Hs pre ev q r Heq Hev. apply app_eq_app in Heq as (l & [[-> Hl]|[-> Hl]]).
  - destruct l as [|x l].
    + cbn in Hl. subst tr'. exists vmid, [], pre. change (ev :: q) with ([ev] ++ q) in Hs. rewrite sends_app in Hs.
      rewrite app_nil_r in Hv, Hr. split; [|split_and!; [done|done|rewrite (reads_send_nothing pre) by done; constructor]].
      apply Forall_app in Hs as [Hs _]. unfold sends, mutations, pve_of in Hs. cbn [omap list_omap] in Hs.
      destruct (pve_event ev) as [x|]; [|done]. cbn in Hev, Hs. rewrite Hev in Hs. by inversion Hs.
    + injection Hl as <- ->. exfalso. apply Forall_app in Hr as [_ Hr]. inversion Hr as [|? ? Hx _]; subst.
      destruct ev as [R e a]; destruct e; cbn in Hx, Hev; congruence.
  - exists vmid, [], (tr ++ l). subst tr'. change (ev :: q) with ([ev] ++ q) in Hs. rewrite !sends_app in Hs.
    apply Forall_app in Hs as [Hs1 Hs]. apply Forall_app in Hs as [Hs _]. split_and!.
    + unfold sends, mutations, pve_of in Hs. cbn [omap list_omap] in Hs.
      destruct (pve_event ev) as [x|]; [|done]. cbn in Hev, Hs. rewrite Hev in Hs. by inversion Hs.
    + done.
    + eapply vetted_mono, Hv. apply sub_trace_l.
    + rewrite sends_app, (reads_send_nothing tr) by done. done.
Qed.
Lemma RawUPID_spec path params :
  always (RawUPID "POST" path params) (λ tr r,
    (mutations tr = [("POST", path, params)] ∨ mutations tr = [] ∧ is_ok r = false) ∧
    ∀ upid, r = Ok upid → ∃ hr j, Ev (Http "POST" path params) hr ∈ tr ∧ answered hr j ∧ as_string j = Some upid).
Proof.
  unfold RawUPID. eapply always_call; [apply RawRequest_spec|]. intros tr r [[-> Hr]|(hr & -> & Hj)].
  - destruct r; [done|]. cbn [always]. split; [by right|done].
  - destruct r as [j|e]; cbn [always]; (split; [by left|]); [|done].
    intros upid Hu. destruct (as_string j) as [u|] eqn:Hs; simplify_eq. exists hr, j. split; [by left|]. split; [by apply Hj|done].
Qed.
Lemma WaitForTask_good upid :
  always (WaitForTask node upid) (λ tr r, mutations tr = [] ∧
    (is_ok r = true → ∃ exit, exit_good exit ∧ Ev (PcTask upid) (Ok ("stopped", exit)) ∈ tr)).
Proof.
  eapply always_mono; [|apply WaitForTask_spec]. intros tr [[]|e] [Hm Ho]; (split; [done|]); [|done].
  destruct Ho as (exit & Hx & t & ->). intros _. exists exit. split; [by apply exit_good_iff|].
  apply elem_of_app. right. by left.
Qed.
Lemma lifted_elem (R : Type) (e : pveE R) r (tr : list (event pveE)) : Ev e r ∈ tr → Ev (OPve e) r ∈ (lift_event (@OPve) <$> tr).
Proof. intros H. apply list_elem_of_fmap. by exists (Ev e r). Qed.
Lemma postLeaf_spec vmid sub set params :
  always (postLeaf cfg vmid sub set params) (λ tr r,
    vetted_writes tr ∧ follows (one (post sub params vmid)) (is_ok r) (sends tr) ∧ (is_ok r = true → task_seen vmid sub params tr)).
Proof.
  assert (∀ tr e, sends tr = [] → vetted_writes tr ∧ follows (one (post sub params vmid)) (is_ok (Er e : res unit)) (sends tr) ∧
    (is_ok (Er e : res unit) = true → task_seen vmid sub params tr)) as Hno.
  { intros tr e Hs. split; [by apply no_sends_vetted|]. rewrite Hs. split; [by exists [post sub params vmid]|done]. }
  unfold postLeaf. destruct (List.find _ _) as [k|]; [by apply Hno|].
  eapply always_call; [apply Guard_spec|]. intros tr [[]|e] [Hr Hv]; cbn [always].
  2: { rewrite app_nil_r. apply Hno. by apply reads_send_nothing. }
  specialize (Hv eq_refl). eapply always_call; [apply outer_call_spec, RawUPID_spec|]. intros tr1 r1 (t1 & -> & Hm & Hu).
  assert (∀ tr2 (r : res unit), sends tr2 = [] → mutations t1 = [("POST", VMPath node vmid sub, params)] →
    (is_ok r = true → task_seen vmid sub params ((lift_event (@OPve) <$> t1) ++ tr2)) →
    vetted_writes (tr ++ (lift_event (@OPve) <$> t1) ++ tr2) ∧
    follows (one (post sub params vmid)) (is_ok r) (sends (tr ++ (lift_event (@OPve) <$> t1) ++ tr2)) ∧
    (is_ok r = true → task_seen vmid sub params (tr ++ (lift_event (@OPve) <$> t1) ++ tr2))) as Hsent.
  { intros tr2 r H2 Hm1 Htask. split_and!.
    - apply (guarded_writes vmid); [done..|]. rewrite sends_app, H2, sends_lift, Hm1. repeat constructor. apply post_on_vm.
    - rewrite !sends_app, H2, sends_lift, Hm1, (reads_send_nothing tr) by done. unfold follows. destruct (is_ok r); [done|by exists []].
    - intros Hok. destruct (Htask Hok) as (hr & j & upid & exit & ? & ? & ? & ? & ?). exists hr, j, upid, exit.
      split_and!; try done; apply elem_of_app; by right. }
  destruct r1 as [upid|e]; cbn [always].
  - destruct Hm as [Hm|[_ [=]]]. eapply always_mono; [|apply outer_call_spec, WaitForTask_good].
    cbn. intros tr2 r (t2 & -> & Hm2 & Hgood). apply Hsent; [by rewrite sends_lift|done|]. intros Hok.
    destruct (Hgood Hok) as (exit & ? & ?). destruct (Hu upid eq_refl) as (hr & j & ? & ? & ?). exists hr, j, upid, exit.
    split_and!; try done; apply elem_of_app; [left|right]; by apply lifted_elem.
  - destruct Hm as [Hm|[Hm _]]; [by apply (Hsent [] (Er (id e)))|]. rewrite app_nil_r. apply Hno.
    by rewrite sends_app, (reads_send_nothing tr), sends_lift, Hm.
Qed.
Lemma cascade_loop_deletes vmid present deleted names :
  always (cascade_loop node vmid present deleted names) (λ tr _, deletes vmid names (mutations tr)).
Proof.
  revert present deleted. induction names as [|n names IH]; intros present deleted; cbn [cascade_loop]; [by exists []|].
  destruct (decide (n ∈ present)) as [Hn|Hn].
  - eapply always_call; [by apply task_request_spec|]. intros tr [u|e] [Hm Hok].
    + eapply always_mono; [|apply IH]. intros tr' r (ns & Hns & Hs). exists (n :: ns). rewrite mutations_app, Hs.
      destruct Hok as [_ ->]. split; [by apply sublist_skip|done].
    + cbn [always]. rewrite app_nil_r. destruct Hm as [->| ->]; [exists []|exists [n]]; (split; [|done]); [apply sublist_nil_l|].
      apply sublist_skip, sublist_nil_l.
  - eapply always_mono; [|apply IH]. intros tr r (ns & Hns & Hs). exists ns. split; [by apply sublist_cons|done].
Qed.
Lemma cascade_deletes vmid names :
  always (CascadeDeleteSnapshots node vmid names) (λ tr _, deletes vmid names (mutations tr)).
Proof.
  assert (∀ tr, mutations tr = [] → deletes vmid names (mutations tr)) as Hno by (intros tr ->; exists []; split; [apply sublist_nil_l|done]).
  unfold CascadeDeleteSnapshots. destruct (eqb node ""); [by apply Hno|]. case_bool_decide; [by apply Hno|].
  destruct (cascade_names_err _ _ _ _); [by apply Hno|].
  eapply always_call; [apply listSnapshotsVerifiable_spec|]. intros tr [l|e] [Hm _]; cbn [always]; [|rewrite app_nil_r; by apply Hno].
  eapply always_call; [apply cascade_loop_deletes|]. intros tr' [d o] Hd.
  assert (∀ tr2, mutations tr2 = [] → deletes vmid names (mutations (tr ++ tr' ++ tr2))) as Hgo.
  { intros tr2 H2. by rewrite !mutations_app, Hm, H2, app_nil_r. }
  destruct o as [e|]; cbn [always]; [by apply (Hgo [])|].
  eapply always_call; [apply listSnapshotsVerifiable_spec|]. intros tr2 [after|e] [Hm2 _]; cbn [always].
  - case_bool_decide; cbn [always]; rewrite app_nil_r; by apply Hgo.
  - rewrite app_nil_r. by apply Hgo.
Qed.
Lemma cascade_spec vmid names :
  always (cascade cfg vmid names) (λ tr r, follows (deletes vmid names) (is_ok r) (sends tr) ∧ Forall (on_vm vmid) (sends tr) ∧
    (is_ok r = true → newer_gone vmid names tr)).
Proof.
  unfold cascade. eapply always_call; [apply outer_call_spec, (always_and _ _ _ (cascade_deletes vmid names) (CascadeDeleteSnapshots_exact node vmid names))|].
  intros tr r (t & -> & Hd & Hex). cbn [always]. rewrite app_nil_r, sends_lift. split_and!.
  - unfold follows; destruct r.2; cbn; [exists []; by rewrite app_nil_r|done].
  - destruct Hd as (ns & _ & ->). apply Forall_fmap, Forall_true. intros n. apply delete_on_vm.
  - destruct Hex as (_ & _ & _ & _ & Hgone). intros Hok. right.
    destruct Hgone as (l & t' & -> & Hcur & Hn); [destruct r as [? [e|]]; [discriminate Hok|reflexivity]|]. rewrite fmap_app.
    do 2 eexists. exists l. split_and!; [done|done|by left|done|done].
Qed.
(** ** The reads of a run *)
Lemma read_of_app_l vmid sub j tr tr' : read_of vmid sub j tr → read_of vmid sub j (tr ++ tr').
Proof. unfold read_of. rewrite pve_of_app. apply got_app_l. Qed.
Lemma read_of_app_r vmid sub j tr tr' : read_of vmid sub j tr' → read_of vmid sub j (tr ++ tr').
Proof. unfold read_of. rewrite pve_of_app. apply got_app_r. Qed.
(** The last part of a run, whose result needs nothing of what came before. *)
Lemma runs_weak st P {A} (R R' : A → list (event outerE) → Prop) f : runs st P R f → (∀ a tr, R a tr → R' a tr) → runs st P R' f.
Proof. intros H HR. by eapply runs_mono. Qed.
Lemma runs_get st vmid sub f :
  runs st eps (λ j tr, read_of vmid sub j tr) (or_die (pve_call (RawRequest "GET" (VMPath node vmid sub) ∅)) f).
Proof.
  apply runs_or_die; [by exists []|].
  eapply always_mono; [|apply (pve_read_spec _ (λ tr r, ∀ j, r = Ok j → got tr (VMPath node vmid sub) ∅ j)), RawRequest_got].
  intros tr r [Hr Hj]. apply reads_send_nothing in Hr. split_and!; [by apply no_sends_vetted| |done].
  rewrite Hr. unfold follows. destruct (is_ok r); [done|by exists []].
Qed.
Lemma runs_checkVM st vmid : runs st eps (λ _ tr, disk_seen vmid tr) (checkVM cfg p vmid).
Proof.
  unfold checkVM. eapply runs_read; [apply runs_get|by exists []|]. intros j tr0 Hj.
  eapply runs_read; [apply runs_evidence|by exists []|]. intros [] tr1 _. cbv zeta.
  destruct (eqb (up_to_colon _) _) eqn:Hs; cbn [negb]; [|apply runs_die; by exists []].
  destruct (eqb (string_or_empty "lock" j) "") eqn:Hl; cbn [negb]; [|apply runs_die; by exists []].
  apply runs_ret. exists j. apply eqb_true in Hs, Hl. split; [by apply read_of_app_l|done].
Qed.
Lemma runs_status st vmid :
  runs st eps (λ s tr, ∃ j, read_of vmid "status/current" j tr ∧ string_pointer "status" j = s) (status cfg vmid).
Proof.
  unfold status. eapply runs_read; [apply runs_get|by exists []|]. intros j tr0 Hj.
  destruct (string_pointer "status" j) as [|c s] eqn:Hs; [apply runs_die; by exists []|].
  apply runs_ret. exists j. rewrite app_nil_r. done.
Qed.
Lemma runs_confirmStopped st vmid : runs st eps (λ _ tr, stopped_seen vmid tr) (confirmStopped cfg vmid).
Proof.
  unfold confirmStopped. eapply runs_read; [apply runs_status|by exists []|]. intros s tr0 (j & Hj & Hs).
  destruct (eqb s "stopped") eqn:He; cbn [negb]; [|apply runs_fail; by exists []]. apply eqb_true in He as ->.
  eapply runs_weak; [apply runs_step|]. intros [] tr _. exists j. split; [by apply read_of_app_l|done].
Qed.
Lemma runs_readSnapshots st vmid ev : runs st eps (λ snaps tr, snapshots_seen vmid snaps tr) (readSnapshots cfg vmid ev).
Proof.
  unfold readSnapshots. eapply runs_read; [apply runs_get|by exists []|]. intros j tr0 Hj.
  eapply (runs_read _ _ anything); [destruct (eqb ev ""); [by apply runs_ret|apply runs_evidence]|by exists []|]. intros [] tr1 _.
  destruct (parseSnaps j) as [[snaps []]|] eqn:Hp; [|apply runs_die; by exists []..].
  apply runs_ret. exists j. split; [by apply read_of_app_l|done].
Qed.
Lemma runs_accept st minutes why : runs st eps (λ _ tr, accepted minutes why tr) (accept minutes why).
Proof.
  split; [by exists []|]. intros s Hs. unfold accept. cbn [bind trigger always]. intros [[]|e].
  - cbn. intros []. split_and!; [done|by apply no_sends_vetted|done|]. intros _ _. by left.
  - cbn. intros []. split_and!; [done|by apply no_sends_vetted|by exists []|done].
Qed.
(** ** Loops *)
Lemma all_inhabited {A} (P : A → lang) l : (∀ x, ∃ w, P x w) → ∃ w, all P l w.
Proof.
  intros H. induction l as [|x l [w IH]]; [by exists []|]. destruct (H x) as [v Hv]. by exists (v ++ w), v, w.
Qed.
Lemma runs_each st (P : Z → lang) (R : Z → list (event outerE) → Prop) l f :
  (∀ v tr tr', R v tr → R v (tr ++ tr')) → (∀ v tr tr', R v tr' → R v (tr ++ tr')) →
  (∀ v, runs st (P v) (λ _ tr, R v tr) (f v)) → runs st (all P l) (λ _ tr, ∀ v, v ∈ l → R v tr) (each l f).
Proof.
  intros Hl Hr Hf. induction l as [|v l IH]; cbn [each all foldr].
  - apply runs_ret. intros v Hv. by apply elem_of_nil in Hv.
  - eapply runs_bind; [apply Hf|apply all_inhabited; intros x; by destruct (Hf x)|]. intros [] tr0 Hv.
    eapply runs_weak; [apply IH|]. intros [] tr H w [->|Hw]%elem_of_cons; auto.
Qed.
Lemma runs_each_any st (P : Z → lang) l f : (∀ v, runs st (P v) anything (f v)) → runs st (all P l) anything (each l f).
Proof. intros Hf. eapply runs_weak; [by apply (runs_each st P (λ _ _, True))|done]. Qed.
Lemma runs_post st vmid sub set params f :
  runs st (one (post sub params vmid)) (λ _ tr, task_seen vmid sub params tr) (or_die (postLeaf cfg vmid sub set params) f).
Proof.
  apply runs_or_die; [by eexists|]. eapply always_mono; [|apply postLeaf_spec]. intros tr r (? & ? & Ht).
  split_and!; [done..|]. intros a ->. by apply Ht.
Qed.
Lemma task_seen_app_l vmid sub params tr tr' : task_seen vmid sub params tr → task_seen vmid sub params (tr ++ tr').
Proof. intros (hr & j & upid & exit & ? & ? & ? & ? & ?). exists hr, j, upid, exit. rewrite !elem_of_app. auto 10. Qed.
Lemma task_seen_app_r vmid sub params tr tr' : task_seen vmid sub params tr' → task_seen vmid sub params (tr ++ tr').
Proof. intros (hr & j & upid & exit & ? & ? & ? & ? & ?). exists hr, j, upid, exit. rewrite !elem_of_app. auto 10. Qed.
Lemma runs_start st : runs st starts (λ _ tr, ∀ v, v ∈ startOrder → task_seen v "status/start" ∅ tr) (start cfg).
Proof.
  unfold start, starts. apply (runs_each st (λ v, one (post "status/start" ∅ v)) (λ v tr, task_seen v "status/start" ∅ tr)).
  - intros; by apply task_seen_app_l.
  - intros; by apply task_seen_app_r.
  - intros v. eapply runs_last; [apply runs_post|]. intros [] tr0 Ht. eapply runs_weak; [apply runs_step|].
    intros u tr _. by apply task_seen_app_l.
Qed.
Lemma newer_gone_app_r vmid names tr tr' : newer_gone vmid names tr' → newer_gone vmid names (tr ++ tr').
Proof. intros [?|(a & b & l & -> & ?)]; [by left|right]. exists (tr ++ a), b, l. by rewrite app_assoc. Qed.
Lemma newer_gone_app_l vmid names tr tr' : sends tr' = [] → newer_gone vmid names tr → newer_gone vmid names (tr ++ tr').
Proof.
  intros Hs [?|(a & b & l & -> & Hb & Hin & ?)]; [by left|right]. exists a, (b ++ tr'), l.
  rewrite app_assoc, sends_app, Hb, Hs, elem_of_app. auto.
Qed.
Lemma runs_cascade st vmid names f : runs st (deletes vmid names) (λ _ tr, newer_gone vmid names tr) (guardedCascade cfg vmid names f).
Proof.
  assert (∃ l, deletes vmid names l) as [l0 Hl0] by (exists [], []; split; [apply sublist_nil_l|done]).
  split; [by exists l0|]. intros s Hs. unfold guardedCascade, fbind, or_die. apply always_bind. 
  eapply always_call; [apply Guard_spec|]. intros tr [[]|e] [Hr Hv]; cbn [always fst snd].
  - eapply always_call; [apply cascade_spec|]. intros tr1 r (Hf & Hon & Hgone).
    assert (vetted_writes (tr ++ tr1) ∧ sends (tr ++ tr1) = sends tr1) as [Hvw Hsend].
    { split; [by apply (guarded_writes vmid); auto|]. by rewrite sends_app, (reads_send_nothing tr). }
    destruct r as [[]|e]; cbn; rewrite !app_nil_r, Hsend; split_and!; try done.
    intros a _. by apply newer_gone_app_r, Hgone.
  - cbn. rewrite !app_nil_r, (reads_send_nothing tr) by done. split_and!; [done|apply no_sends_vetted, reads_send_nothing, Hr| |done].
    by exists l0.
Qed.
(** ** The golden snapshot *)
Lemma golden_time_spec snaps seen k t0 n t :
  golden_time snaps seen k t0 = Some (n, t) →
  n = k + length (List.filter is_golden snaps) ∧ t = from_option time_of t0 (last (List.filter is_golden snaps)) ∧
  Forall (λ s, ∃ x, snaptime s = Some x ∧ x ∉ seen) snaps ∧ NoDup (snaptime <$> snaps).
Proof.
  revert seen k t0. induction snaps as [|s snaps IH]; intros seen k t0; cbn [golden_time List.filter fmap list_fmap].
  { intros [= <- <-]. cbn. split_and!; [lia|done|constructor|constructor]. }
  destruct (snaptime s) as [x|] eqn:Hx; [|done]. cbn [mbind option_bind]. destruct (decide (x ∈ seen)) as [|Hin]; [done|].
  assert (∀ k' t', golden_time snaps ({[x]} ∪ seen) k' t' = Some (n, t) →
    n = k' + length (List.filter is_golden snaps) ∧ t = from_option time_of t' (last (List.filter is_golden snaps)) ∧
    Forall (λ s, ∃ x, snaptime s = Some x ∧ x ∉ seen) (s :: snaps) ∧ NoDup (Some x :: (snaptime <$> snaps))) as Hgo.
  { intros k' t' (? & ? & Hf & ?)%IH. split_and!; [done..| |].
    - constructor; [eauto|]. eapply Forall_impl; [exact Hf|]. cbn. intros y (z & ? & Hz). exists z. split; [done|]. by apply not_elem_of_union in Hz as [_ ?].
    - constructor; [|done]. intros (y & Hy & Hyin)%list_elem_of_fmap. rewrite Forall_forall in Hf.
      destruct (Hf y Hyin) as (z & Hz & [Hne%not_elem_of_singleton _]%not_elem_of_union). congruence. }
  destruct (is_golden s); intros (-> & -> & ? & ?)%Hgo; (split_and!; [cbn [length]; lia| |done..]); [|done].
  destruct (List.filter is_golden snaps) as [|g l]; cbn [last from_option]; [unfold time_of; by rewrite Hx|].
  destruct (last (g :: l)) eqn:Hl; [done|]. by apply last_None in Hl.
Qed.
Lemma golden_of_spec snaps names st : newerThanGolden snaps = Some names → goldenStamp snaps = Some st → golden_of snaps names st.
Proof.
  unfold newerThanGolden, goldenStamp, the_golden. destruct (golden_time _ _ _ _) as [[n t]|] eqn:Ht; [|done].
  apply golden_time_spec in Ht as (-> & -> & Hsome & Hdup). destruct (List.filter is_golden snaps) as [|g []] eqn:Hg; [done| |done].
  cbn [length plus last from_option mbind option_bind]. intros [= <-]. destruct (diskOnly g) eqn:Hd; cbn [negb]; [|done].
  destruct (cut_prefix _ _) as [s|] eqn:Hc; [|done]. cbn [mbind option_bind]. destruct (stampRE s) eqn:Hre; [|done]. intros [= <-].
  exists g, (merge_sort later (List.filter (λ s, (time_of g <? time_of s)%Z) snaps)).
  assert (Total later) by (intros a b; unfold later; lia). split_and!; try done.
  - by apply cut_prefix_spec.
  - eapply Forall_impl; [exact Hsome|]. cbn. intros y (z & -> & _). done.
  - apply Sorted_merge_sort. apply _.
  - apply merge_sort_Permutation.
Qed.
(** ** The phases *)
Lemma runs_reset_stop st vmid :
  runs st (opt (one (post "status/stop" ∅ vmid))) (λ _ tr, stopped_seen vmid tr) (reset_stop cfg vmid).
Proof.
  unfold reset_stop. assert (∃ l, opt (one (post "status/stop" ∅ vmid)) l) as Hin by (exists []; by left).
  eapply runs_read; [apply runs_status|done|]. intros s tr0 _.
  eapply (runs_last _ _ anything).
  - destruct (eqb s "stopped"); cbn [negb].
    + eapply runs_mono; [| |by apply (runs_ret st tt (λ _ _, True))]; [|done]. intros l ->. by left.
    + eapply runs_mono; [| |apply runs_post]; [|done]. intros l Hl. by right.
  - intros [] tr1 _. eapply runs_weak; [apply runs_confirmStopped|]. intros [] tr (j & Hj & Hs). exists j.
    split; [by do 2 apply read_of_app_r|done].
Qed.
Lemma runs_steps_deleted st vmid names : runs st eps anything (steps_deleted vmid names).
Proof.
  induction names as [|m l IH]; cbn [steps_deleted]; [by apply runs_ret|].
  eapply runs_read; [apply runs_step|by exists []|]. intros [] tr1 _. exact IH.
Qed.
Lemma runs_newer st vmid names :
  runs st (deletes vmid names) (λ _ tr, newer_gone vmid names tr) (reset_newer cfg vmid names).
Proof.
  unfold reset_newer. destruct names as [|n names].
  - eapply runs_mono; [| |apply (runs_ret st tt (λ _ tr, newer_gone vmid [] tr))]; [|done|by left]. intros l ->. by exists [].
  - eapply runs_last; [apply runs_cascade|]. intros [] tr0 Hg.
    eapply runs_weak; [apply runs_quiet, runs_steps_deleted|]. intros u tr [_ Hs]. by apply newer_gone_app_l.
Qed.
Lemma golden_point_mono vmid r tr tr' : golden_point vmid r tr → golden_point vmid r (tr ++ tr').
Proof. intros (snaps & (j & Hj & ?) & ?). exists snaps. split; [|done]. exists j. split; [by apply read_of_app_l|done]. Qed.
Lemma runs_reset_read st vmid :
  runs st eps (λ r tr, disk_seen vmid tr ∧ golden_point vmid r tr) (reset_read cfg p vmid).
Proof.
  unfold reset_read. eapply runs_read; [apply runs_checkVM|by exists []|]. intros [] tr0 (j0 & Hj0 & Hd).
  eapply runs_read; [apply runs_readSnapshots|by exists []|]. intros snaps tr1 (j & Hj & Hp).
  destruct (newerThanGolden snaps) as [names|] eqn:Hn; [|apply runs_die; by exists []].
  destruct (goldenStamp snaps) as [s|] eqn:Hg; [|apply runs_die; by exists []].
  apply runs_ret. split.
  - exists j0. split; [by apply read_of_app_l|done].
  - exists snaps. split; [exists j; split; [by apply read_of_app_r, read_of_app_l|done]|by apply golden_of_spec].
Qed.
Lemma runs_reset_reads st l :
  runs st eps (λ state tr, state.*1 = l ∧ ∀ v r, (v, r) ∈ state → disk_seen v tr ∧ golden_point v r tr) (reset_read_all cfg p l).
Proof.
  induction l as [|v l IH]; cbn [reset_read_all]; [apply runs_ret; split; [done|by intros v r ?%elem_of_nil]|].
  eapply runs_read; [apply runs_reset_read|by exists []|]. intros r tr0 [Hd Hg].
  eapply runs_read; [exact IH|by exists []|]. intros state tr1 [<- Hall]. apply runs_ret. split; [done|].
  intros w x [[= -> ->]|Hin]%elem_of_cons.
  - destruct Hd as (j & ? & ?). split; [exists j; split; [by apply read_of_app_l|done]|by apply golden_point_mono].
  - destruct (Hall w x Hin) as [(j & ? & ?) (snaps & (j' & ? & ?) & ?)]. split.
    + exists j. split; [by apply read_of_app_r, read_of_app_l|done].
    + exists snaps. split; [|done]. exists j'. split; [by apply read_of_app_r, read_of_app_l|done].
Qed.
Lemma one_point_spec state st : one_point state = Some st → ∀ v r, (v, r) ∈ state → golden_stamp r = st.
Proof.
  unfold one_point. destruct state as [|[v0 r0] state]; [done|]. destruct (forallb _ _) eqn:Hf; [|done]. intros [= <-] v r Hin.
  rewrite forallb_forall in Hf. apply eqb_true. apply (Hf (v, r)). by apply list_elem_of_In.
Qed.
(** ** Stages *)
Lemma shape_stage st P {A} (R : A → list (event outerE) → Prop) (Q : A → shape) (f : flow A) g :
  runs st P R f → (∀ a, has_shape st (Q a) (g a)) → has_shape st (stage P R Q) (fbind f g).
Proof.
  intros [_ Hf] Hg s Hs. unfold fbind. eapply always_call; [by apply Hf|].
  intros tr [[a|e] s1] (Hst & Hv & Hfol & Hr); cbn [fst snd is_ok] in *.
  - eapply always_mono; [|by apply (Hg a)]. intros tr' rs [Hv' HQ]. split; [by apply vetted_app|].
    right. exists a, tr, tr'. split_and!; [done..|by apply Hr|done].
  - cbn [always fst snd is_ok]. rewrite app_nil_r. split; [done|]. by left.
Qed.
Lemma shape_final st P (R : unit → list (event outerE) → Prop) f : runs st P R f → has_shape st (final P (R tt)) f.
Proof.
  intros [_ Hf] s Hs. eapply always_mono; [|by apply Hf]. intros tr rs (_ & Hv & Hfol & Hr). split; [done|]. split; [done|].
  intros Hok. destruct rs.1 as [[]|]; [by apply Hr|done].
Qed.
Lemma shape_die st P {A} (R : A → list (event outerE) → Prop) (Q : A → shape) e : (∃ l, P l) → has_shape st (stage P R Q) (die e).
Proof. intros [l Hl] s Hs. cbn. split; [by apply no_sends_vetted|]. left. split; [done|]. by exists l. Qed.
Lemma has_shape_assoc st Q {A B} (m : flow A) (f : A → flow B) (g : B → flow unit) :
  has_shape st Q (fbind m (λ a, fbind (f a) g)) → has_shape st Q (fbind (fbind m f) g).
Proof.
  intros H s Hs. specialize (H s Hs). unfold fbind in *. rewrite always_bind in H. apply always_bind, always_bind.
  eapply always_mono; [|exact H]. intros tr [[a|e] s1] Ha; cbn [fst snd] in *.
  - rewrite always_bind in Ha. eapply always_mono; [|exact Ha]. intros tr' rs Hr.
    eapply always_mono; [|exact Hr]. intros tr2 b. by rewrite <- app_assoc.
  - cbn [always fst snd] in *. by rewrite !app_nil_r in *.
Qed.
Lemma shape_rollbacks st state Q g :
  has_shape st Q g → has_shape st (rollbacks state Q) (fbind (reset_rollbacks cfg state) (λ _, g)).
Proof.
  intros Hg. induction state as [|[v r] state IH]; cbn [reset_rollbacks rollbacks].
  - intros s Hs. unfold fbind, fret. cbn [bind fst snd]. by apply Hg.
  - apply has_shape_assoc. unfold reset_rollback. apply has_shape_assoc.
    apply shape_stage; [apply runs_newer|]. intros u.
    apply shape_stage; [|intros u'; exact IH].
    eapply runs_last; [apply runs_post|]. intros u' tr0 Ht. eapply runs_weak; [apply runs_step|].
    intros u2 tr _. by apply task_seen_app_l.
Qed.
(** The VMs are started and the cluster is accepted. *)
Lemma runs_restart st minutes why result :
  runs st starts (λ _ tr, restarted minutes why tr) (let* _ := start cfg in let* _ := accept minutes why in step result).
Proof.
  eapply runs_last; [apply runs_start|]. intros u tr0 Ht.
  eapply runs_read; [apply runs_accept|by exists []|]. intros u' tr1 Ha.
  eapply runs_weak; [apply runs_step|]. intros u2 tr _. split.
  - intros v Hv. rewrite <- ?app_assoc. by apply task_seen_app_l, Ht.
  - unfold accepted in *. rewrite !elem_of_app. auto.
Qed.
Lemma runs_stops st : runs st stops (λ _ tr, ∀ v, v ∈ stopOrder → stopped_seen v tr) (each stopOrder (reset_stop cfg)).
Proof.
  apply runs_each; [| |intros v; apply runs_reset_stop]; intros v tr tr' (j & ? & ?); exists j; (split; [|done]);
    [by apply read_of_app_l|by apply read_of_app_r].
Qed.
(** ** The shapes *)
Lemma reset_has_shape st : has_shape st reset_shape (reset cfg p).
Proof.
  unfold reset, reset_shape. apply shape_stage; [apply runs_reset_reads|]. intros state.
  destruct (one_point state) as [pt|] eqn:Hone; [|apply shape_die; by exists []].
  intros s Hs. eapply always_mono; [|eapply (shape_stage st eps (λ _ _, True)); [apply runs_step| |exact Hs]].
  2: { intros u. apply shape_stage; [apply runs_stops|]. intros u'. apply shape_rollbacks.
       apply (shape_final _ starts (λ _, restarted 15 "after the reset")), runs_restart. }
  cbv beta. intros tr rs [Hv [Hl|([] & t1 & t2 & -> & ? & _ & HQ)]]; (split; [done|]); [by left|].
  right. exists pt, t1, t2. split_and!; try done. by apply one_point_spec.
Qed.
(** ** Taking the golden point *)
Lemma no_golden snaps : hasGolden snaps = false → List.filter is_golden snaps = [].
Proof.
  unfold hasGolden. induction snaps as [|s snaps IH]; [done|]. cbn [existsb List.filter].
  destruct (is_golden s); [done|exact IH].
Qed.
Lemma before_seen_mono v tr tr' : before_seen v tr' → before_seen v (tr ++ tr').
Proof.
  intros [(j & ? & ?) (snaps & (j' & ? & ?) & ?)]. split; [exists j; split; [by apply read_of_app_r|done]|].
  exists snaps. split; [exists j'; split; [by apply read_of_app_r|done]|done].
Qed.
Lemma before_seen_app v tr tr' : before_seen v tr → before_seen v (tr ++ tr').
Proof.
  intros [(j & ? & ?) (snaps & (j' & ? & ?) & ?)]. split; [exists j; split; [by apply read_of_app_l|done]|].
  exists snaps. split; [exists j'; split; [by apply read_of_app_l|done]|done].
Qed.
Lemma runs_golden_check st v : runs st eps (λ _ tr, before_seen v tr) (golden_check cfg p v).
Proof.
  unfold golden_check. eapply runs_read; [apply runs_checkVM|by exists []|]. intros u tr0 (j0 & Hj0 & Hd).
  eapply runs_read; [apply runs_readSnapshots|by exists []|]. intros snaps tr1 (j & Hj & Hp).
  destruct (hasGolden snaps && negb (Replace p)) eqn:Hg; [apply runs_die; by exists []|].
  eapply runs_weak; [apply runs_set_golden|]. intros u' tr _. split; [exists j0; split; [by apply read_of_app_l|done]|].
  exists snaps. split; [exists j; split; [by apply read_of_app_r, read_of_app_l|done]|].
  intros HR. rewrite HR in Hg. apply no_golden. by destruct (hasGolden snaps).
Qed.
Lemma runs_shutdown st v :
  runs st (one (post "status/shutdown" (values [("timeout", "300")]) v)) (λ _ tr, stopped_seen v tr) (golden_shutdown cfg v).
Proof.
  unfold golden_shutdown. eapply runs_last; [apply runs_post|]. intros u tr0 _.
  eapply runs_weak; [apply runs_confirmStopped|]. intros u' tr (j & ? & ?). exists j. split; [by apply read_of_app_r|done].
Qed.
Lemma deletes_some v names : ∃ l, deletes v names l.
Proof. exists [], []. split; [apply sublist_nil_l|done]. Qed.
Lemma runs_golden_delete st v : runs st (deletes v [goldenName]) anything (golden_delete cfg v).
Proof.
  unfold golden_delete. eapply runs_read; [apply runs_readSnapshots|apply deletes_some|]. intros snaps tr0 _.
  destruct (hasGolden snaps).
  - eapply (runs_last _ _ anything); [eapply runs_weak; [apply runs_cascade|done]|]. intros u tr1 _.
    eapply (runs_read _ _ anything); [apply runs_set_golden|by exists []|]. intros u' tr2 _. apply runs_step.
  - eapply runs_mono; [| |by apply (runs_ret st tt anything)]; [|done]. intros l ->. exists []. split; [apply sublist_nil_l|done].
Qed.
Lemma readsBack_spec st snaps : goldenReadsBack st snaps = true →
  ∃ g, List.filter is_golden snaps = [g] ∧ diskOnly g = true ∧ TrimSuffix (chr 10) (desc g) = descPrefix +:+ st.
Proof.
  unfold goldenReadsBack. destruct (List.filter is_golden snaps) as [|g []]; [done| |done]. intros [? ?%eqb_true]%andb_true_iff.
  by exists g.
Qed.
Lemma runs_golden_take st v : runs st (one (post "snapshot" (golden_params st) v)) (λ _ tr, after_seen st v tr) (golden_take cfg v).
Proof.
  cut (runs st (one (post "snapshot" (golden_params st) v)) (λ _ tr, after_seen st v tr)
    (λ s, golden_take cfg v {| stamp := st; failed := failed s; goldenState := goldenState s |})).
  { intros [? H]. split; [done|]. intros s Hs. specialize (H s Hs). destruct s; cbn in Hs. by subst. }
  cut (runs st (one (post "snapshot" (golden_params st) v)) (λ _ tr, after_seen st v tr)
   (let* _ := or_die (postLeaf cfg v "snapshot" "snapshot" (golden_params st))
     (λ e, vm v +:+ ": taking " +:+ goldenName +:+ " failed: " +:+ e) in
   let* _ := set_golden v "new" in
   let* snaps := readSnapshots cfg v "snapshots-after" in
   if negb (goldenReadsBack st snaps) then
     fail (vm v +:+ ": " +:+ goldenName +:+ " does not read back as one disk-only snapshot stamped " +:+ st)
   else step (vm v +:+ ": " +:+ goldenName +:+ " taken"))).
  { intros [? H]. split; [done|]. intros s Hs. by apply H. }
  eapply runs_last; [apply runs_post|]. intros u tr0 _.
  eapply (runs_read _ _ anything); [apply runs_set_golden|by exists []|]. intros u1 tr1 _.
  eapply runs_read; [apply runs_readSnapshots|by exists []|]. intros snaps tr2 (j & Hj & Hp).
  destruct (goldenReadsBack st snaps) eqn:Hb; cbn [negb]; [|apply runs_fail; by exists []].
  eapply runs_weak; [apply runs_step|]. intros u2 tr _. apply readsBack_spec in Hb as (g & ? & ? & ?).
  exists snaps, g. split_and!; [|done..]. exists j. split; [by do 2 apply read_of_app_r; apply read_of_app_l|done].
Qed.
Lemma runs_golden_checks st : runs st eps (λ _ tr, ∀ v, v ∈ VMIDs → before_seen v tr) (each VMIDs (golden_check cfg p)).
Proof.
  eapply runs_mono; [| |apply (runs_each st (λ _, eps) before_seen)].
  - cbn. intros l (a & b & -> & -> & c & d & -> & -> & e & f & -> & -> & ->). done.
  - done.
  - intros; by apply before_seen_app.
  - intros; by apply before_seen_mono.
  - apply runs_golden_check.
Qed.
Lemma golden_has_shape st : has_shape st (golden_shape st) (golden cfg p).
Proof.
  unfold golden, golden_shape.
  apply shape_stage; [apply runs_golden_checks|]. intros u1.
  apply shape_stage; [apply runs_accept|]. intros u2.
  apply shape_stage; [apply (runs_each st _ stopped_seen); [| |apply runs_shutdown]; intros v tr tr' (j & ? & ?); exists j; (split; [|done]);
    [by apply read_of_app_l|by apply read_of_app_r]|]. intros u3.
  apply shape_stage.
  { destruct (Replace p); [|by apply runs_ret]. eapply runs_last; [apply runs_each_any, runs_golden_delete|].
    intros u tr _. apply runs_step. }
  intros u4. apply shape_stage.
  { apply (runs_each st _ (after_seen st)); [| |apply runs_golden_take]; intros v tr tr' (snaps & g & (j & ? & ?) & ?); exists snaps, g;
      (split; [exists j; split; [|done]|done]); [by apply read_of_app_l|by apply read_of_app_r]. }
  intros u5. apply (shape_final _ starts (λ _, restarted 15 "after the golden point")), runs_restart.
Qed.
(** ** The frame *)
(** Events that send nothing, after a run, keep its shape. *)
Definition closes (Q : shape) : Prop := ∀ ok tr tr', sends tr' = [] → Q ok tr → Q ok (tr ++ tr').
Lemma closes_stage P {A} (R : A → list (event outerE) → Prop) (Q : A → shape) : (∀ a, closes (Q a)) → closes (stage P R Q).
Proof.
  intros HQ ok tr tr' Hs [[-> Hl]|(a & t1 & t2 & -> & HP & HR & H)].
  - left. split; [done|]. by rewrite sends_app, Hs, app_nil_r.
  - right. exists a, t1, (t2 ++ tr'). split; [by rewrite app_assoc|]. split_and!; [done..|]. by apply HQ.
Qed.
Lemma closes_final P minutes why : closes (final P (restarted minutes why)).
Proof.
  intros ok tr tr' Hs [Hf Ha]. split; [by rewrite sends_app, Hs, app_nil_r|]. intros Hok. destruct (Ha Hok) as [Ht Hacc].
  split; [intros v Hv; by apply task_seen_app_l, Ht|]. apply elem_of_app. by left.
Qed.
Lemma closes_rollbacks state Q : closes Q → closes (rollbacks state Q).
Proof. intros HQ. induction state as [|[v r] state IH]; [done|]. cbn [rollbacks]. repeat (apply closes_stage; intros ?). exact IH. Qed.
Lemma reset_closes : closes reset_shape.
Proof. unfold reset_shape. repeat (apply closes_stage; intros ?). apply closes_rollbacks, closes_final. Qed.
Lemma golden_closes st : closes (golden_shape st).
Proof. unfold golden_shape. repeat (apply closes_stage; intros ?). apply closes_final. Qed.
Lemma onExit_spec rs : always (onExit rs) (λ tr r, sends tr = [] ∧ is_ok r = is_ok rs.1).
Proof.
  destruct rs as [[[]|e] s]; [by split|]. unfold onExit. cbn [fst snd is_ok]. cbv zeta.
  destruct (failed s); cbn [negb]; [destruct (eqb (goldenStateSuffix _) "")|]; cbn [negb bind trigger always]; try (intros []); done.
Qed.
Lemma stage_never {A} (R : A → list (event outerE) → Prop) (Q : A → shape) tr :
  sends tr = [] → vetted_writes tr ∧ stage eps R Q false tr.
Proof. intros H. split; [by apply no_sends_vetted|]. left. split; [done|]. exists []. by rewrite H. Qed.
Lemma RequireStorage_id s t : RequireStorage s = Ok t → t = s.
Proof. unfold RequireStorage. repeat (destruct (_ : bool); [|done] || case_match); congruence. Qed.
Lemma staticLayer_spec :
  always (staticLayer cfg p) (λ tr r, sends tr = [] ∧ (r = Ok tt → ∃ j s,
    got (pve_of tr) (StatusPath node (Storage_ p)) ∅ j ∧ ParseStorageStatus j = Ok s ∧ Unsuitable s (MinFreeGiB p) = "")).
Proof.
  assert (always (ReadStorageStatus node (Storage_ p)) (λ tr r, mutations tr = [] ∧ ∀ s, r = Ok s →
    ∃ j, got tr (StatusPath node (Storage_ p)) ∅ j ∧ ParseStorageStatus j = Ok s)) as Hread.
  { unfold ReadStorageStatus. eapply always_call; [apply RawRequest_got|]. intros tr [raw|e] [Hm Hg]; cbn [always]; rewrite app_nil_r; [|done].
    split; [done|]. intros s Hs. exists raw. split; [by apply Hg|]. by destruct (ParseStorageStatus raw); cbn in Hs; congruence. }
  unfold staticLayer. cbv zeta.
  eapply always_call; [apply (pve_read_spec _ (λ tr r, ∀ s, r = Ok s → ∃ j, got tr (StatusPath node (Storage_ p)) ∅ j ∧ ParseStorageStatus j = Ok s)), Hread|].
  intros tr [s|e] [Hr Hs]; cbn [always].
  - destruct (eqb (Unsuitable s (MinFreeGiB p)) "") eqn:He; cbn [always]; rewrite app_nil_r; (split; [by apply reads_send_nothing|]); [|done].
    intros _. destruct (Hs s eq_refl) as (j & ? & ?). exists j, s. split_and!; [done..|]. by apply eqb_true.
  - rewrite app_nil_r. split; [by apply reads_send_nothing|done].
Qed.
Lemma rosterGate_spec : always rosterGate (λ tr _, sends tr = []).
Proof. unfold rosterGate. cbn. intros a. destruct (negb (eqb a "")); cbn; [|done]. intros b. by destruct (negb (eqb b "")). Qed.
Lemma openEvidence_spec what :
  always (openEvidence p what) (λ tr r, sends tr = [] ∧ ∀ st, r = Ok st → Ev OClock st ∈ tr).
Proof.
  unfold openEvidence. cbn [bind trigger always]. intros st. cbv zeta. cbn [bind trigger always]. intros [[]|e]; cbn; [|done].
  intros [[]|e]; cbn; [|done]. split; [done|]. intros ? [= <-]. by left.
Qed.
Lemma run_flow_spec what f (Q : string → shape) :
  (∀ st, has_shape st (Q st) f) → (∀ st, closes (Q st)) →
  always (run_flow cfg p what f) (λ tr r, vetted_writes tr ∧ stage eps opened Q (is_ok r) tr).
Proof.
  intros Hf Hc. unfold run_flow. cbn [bind]. destruct (RequireStorage (Storage_ p)) as [t|e] eqn:Hreq; [|by apply stage_never].
  pose proof (RequireStorage_id _ _ Hreq) as ->.
  eapply always_call; [apply staticLayer_spec|]. intros tr0 [[]|e] [H0 Hst]; cbn [always].
  2: { rewrite app_nil_r. by apply stage_never. }
  eapply always_call; [apply rosterGate_spec|]. intros tr1 [[]|e] H1; cbn [always].
  2: { apply stage_never. by rewrite app_nil_r, sends_app, H0. }
  eapply always_call; [apply openEvidence_spec|]. intros tr2 [st|e] [H2 Hclock]; cbn [always].
  2: { apply stage_never. by rewrite app_nil_r, !sends_app, H0, H1. }
  eapply always_call; [by apply (Hf st)|]. intros tr3 rs [Hv HQ].
  eapply always_mono; [|apply onExit_spec]. intros tr4 r [H4 ->].
  replace (tr0 ++ tr1 ++ tr2 ++ tr3 ++ tr4) with ((tr0 ++ tr1 ++ tr2) ++ tr3 ++ tr4) by by rewrite <- !app_assoc.
  assert (sends (tr0 ++ tr1 ++ tr2) = []) as Hpre by by rewrite !sends_app, H0, H1.
  split; [apply vetted_app; [by apply no_sends_vetted|apply vetted_app; [done|by apply no_sends_vetted]]|].
  right. exists st, (tr0 ++ tr1 ++ tr2), (tr3 ++ tr4). split_and!; [done|done| |by apply Hc].
  destruct (Hst eq_refl) as (j & s & ? & ? & ?). split; [done|]. split.
  - rewrite !elem_of_app. auto.
  - exists j, s. split; [|done]. rewrite !pve_of_app. by apply got_app_l.
Qed.
(** Taking the golden point sends nothing but this, each write after a guard of its VM that
    passed: once every VM was read with its system disk on the storage, no lock, and no golden
    snapshot unless that is to be replaced, and the cluster was accepted, the VMs are shut
    down; once each was read as stopped, the old golden snapshots are deleted, on a
    replacement alone; then each VM gets a disk-only snapshot with this run's stamp, and once
    all three read back as that one snapshot, the VMs are started. A run that fails made a
    first part of these requests, and one that succeeds all of them, and was accepted after. *)
Theorem Golden_keeps_plan :
  always (Golden cfg p) (λ tr r, vetted_writes tr ∧ stage eps opened golden_shape (is_ok r) tr).
Proof. apply run_flow_spec; [apply golden_has_shape|apply golden_closes]. Qed.
End spec.

(** * Examples *)
Definition lab_params : Params := {| Storage_ := "tank"; Replace := false; MinFreeGiB := 20; Home := "/home/op" |}.
(** The nested cluster, by the paths written to: each VM runs until it is stopped, and has a
    snapshot newer than its golden one, which is stamped [stamps vmid], until it is deleted. *)
Definition lab_stamp (vmid : Z) : string := "20260101T000000Z".
Definition lab_vm (stamps : Z → string) (done : list string) (vmid : Z) (sub : string) : string :=
  let was s := bool_decide (VMPath "n" vmid s ∈ done) in
  if eqb sub "config" then "{'tags':'pveforge-harness','scsi0':'tank:vm-690-disk-0,size=8G'}"
  else if eqb sub "status/current" then "{'status':'" +:+ (if was "status/stop" then "stopped" else "running") +:+ "'}"
  else "[{'name':'pvh-golden','snaptime':100,'description':'pveforge harness golden point " +:+ stamps vmid +:+ "'},"
       +:+ (if was "snapshot/later" then "" else "{'name':'later','snaptime':200},") +:+ "{'name':'current'}]".
Definition lab_get (stamps : Z → string) (done : list string) (path : string) : string :=
  if eqb path "/pools" then
    "[{'poolid':'pveforge-harness','members':[" +:+ Join "," ((λ v, "{'type':'qemu','node':'n','vmid':" +:+ itoa v +:+ "}") <$> VMIDs) +:+ "]}]"
  else if eqb path (StatusPath "n" "tank") then "{'type':'zfspool','enabled':1,'active':1,'content':'images','avail':99999999999}"
  else default "null" (list_find (λ vs, VMPath "n" vs.1 vs.2 = path)
         (vmid ← VMIDs; sub ← ["config"; "status/current"; "snapshot"]; [(vmid, sub)]) ≫= λ f, Some (lab_vm stamps done f.2.1 f.2.2)).
Definition lab_pve (stamps : Z → string) : env pveE (list string) := λ R e,
  let down := errorf "down" in
  match e in pveE R return list string → R * list string with
  | Http m path _ => λ done,
      if eqb m "GET" then (HResp 200 "200 OK" (double_quoted ("{'data':" +:+ lab_get stamps done path +:+ "}")), done)
      else (HResp 200 "200 OK" (double_quoted "{'data':'UPID:n:0000A1B2:00C3D4E5:65F00000:qmstart:690:root@pam:'}"), path :: done)
  | PcSnapshots path => λ done, (Ok (Some (Some {| sn_name := "current"; sn_snaptime := 0; sn_vmstate := 0 |} ::
        (if existsb (λ d, eqb (path +:+ "/later") d) done then [] else [Some {| sn_name := "later"; sn_snaptime := 200; sn_vmstate := 0 |}]))), done)
  | PcNewTask _ => λ s, (Some "n", s)
  | PcTask _ => λ s, (Ok ("stopped", "OK"), s)
  | Select => λ s, (WTick, s)
  | PcString _ => λ s, (Er down, s) | PcContent _ => λ s, (Er down, s) | PcStorage _ => λ s, (Er down, s)
  | PcVMs _ => λ s, (Er down, s) | PcResources => λ s, (Er down, s) | PcVMStatus _ => λ s, (Er down, s)
  | PcVMConfig _ => λ s, (Er down, s) | PcRawMap _ => λ s, (Er down, s) | PcStoragePath _ => λ s, (Er down, s)
  | CtxErr => λ s, (None, s)
  | Warn _ _ _ => λ s, (tt, s)
  end.
Definition lab_host (stamps : Z → string) : env outerE (list string) := λ R e,
  match e in outerE R return list string → R * list string with
  | OPve e => lab_pve stamps _ e
  | OReadFile _ => λ s, (Ok None, s) | OAppendFile _ _ => λ s, (Ok tt, s)
  | OMkdirAll _ => λ s, (Ok tt, s) | OMkdir _ => λ s, (Ok tt, s) | OAccept _ _ => λ s, (Ok tt, s)
  | OEnv _ => λ s, ("set", s) | OClock => λ s, ("20260102T030405Z", s)
  | OEvidence _ _ => λ s, (tt, s) | OStep _ => λ s, (tt, s)
  end.
(** How the run ends, and the paths it wrote to, in order. *)
Definition lab_reset (stamps : Z → string) : option (res unit * list string) :=
  match run (lab_host stamps) (Reset_ lab_outer lab_params) [] with Some (_, r, done) => Some (r, reverse done) | None => None end.
Example reset_goes_back :
  lab_reset lab_stamp = Some (Ok tt, (λ vs, VMPath "n" vs.1 vs.2) <$>
    [(691, "status/stop"); (690, "status/stop"); (692, "status/stop");
     (690, "snapshot/later"); (690, "snapshot/pvh-golden/rollback"); (691, "snapshot/later"); (691, "snapshot/pvh-golden/rollback");
     (692, "snapshot/later"); (692, "snapshot/pvh-golden/rollback");
     (692, "status/start"); (690, "status/start"); (691, "status/start")]%Z).
Proof. vm_compute. reflexivity. Qed.
(** Golden points of two runs are no point to go back to: nothing is sent. *)
Example reset_refuses :
  lab_reset (λ v, if Z.eqb v 692 then "20250101T000000Z" else lab_stamp v) = Some (Er (errorf
    "the goldens are not one point: 690=20260101T000000Z 691=20260101T000000Z 692=20250101T000000Z"), []).
Proof. vm_compute. reflexivity. Qed.
