(* ===== verification/VmCmd.v ===== *)
(** cmd/pveforge/vm.go, reread.go: [vm create], [vm get] and [vm set], down to the exchanges
    with PVE, and what is proved of a create with --unique-tag. *)
From Stdlib Require Import Ascii.
From S2P Require Import Prelude GoLib Errors Json Utf8 KvJson Rest Vms Task Snapshot OpRun Client.
From S2P Require Import VmFields VmLife Remote Cluster Routed AccessLists RootAccess FreeOrphans.

(** [VOpenRoot] is [openRootAccessAndREST], answering the target and whether the roster holds
    a token; [VConnect] dials root's session; [VOpen] is [resolveRoutedClient]; [VClose] closes
    what was opened; [VResolve] finds the roster's path. [VCtx] reads the command's context,
    [VSelect] is the select of the wait. The lines for stdout and stderr are kept as lines. *)
Inductive vmE : Type → Type :=
| VOpenRoot (targetID : string) : vmE (res (Target * bool))
| VConnect : vmE (res unit)
| VOpen (targetID : string) : vmE (res Target)
| VClose : vmE unit
| VResolve : vmE (res unit)
| VLock (key : ObjectKey) : vmE (res unit)
| VReadLock (key : ObjectKey) : vmE (res unit)
| VUnlock : vmE unit
| VReadFile (path : string) : vmE (res string)
| VCtx : vmE (option err)
| VSelect : vmE wake
| VRoot {R} (e : rootE R) : vmE R
| VHost {R} (e : hostE R) : vmE R
| VOut (line : string) : vmE (res unit)
| VNote (line : string) : vmE unit
| VRender (f : Format) (vm : VirtualMachine) : vmE (res unit).
Definition vm_pve {A} (m : io pveE A) : io vmE A := lift (@VHost) (lift (@HPve) m).
(** What a deferred call does after [body], however it ends. *)
Definition deferring {A} (e : vmE unit) (body : io vmE (res A)) : io vmE (res A) :=
  let! r := body in let! _ := trigger e in Ret r.
Definition atoi_vmid (arg : string) : res Z :=
  match atoi arg with
  | Some v => Ok v
  | None => Er (wrapf ("invalid vmid " +:+ quote arg) (errorf ("strconv.Atoi: parsing " +:+ quote arg +:+ ": invalid syntax")))
  end.
Definition vm_key (targetID : string) (vmid : Z) : ObjectKey := {| TargetID := targetID; Kind := "vm"; ID := itoa vmid |}.

(** ** reread.go, and boundErrText of main.go *)
Definition maxErrTextBytes : nat := 4096.
Definition RuneStart (c : ascii) : bool := negb (in_range 128 191 c).
Fixpoint back_off (fuel : nat) (s : string) (at_ : nat) : nat :=
  match fuel, at_ with
  | S fuel', S at' => match String.get at_ s with
                      | Some c => if RuneStart c then at_ else back_off fuel' s at'
                      | None => at_
                      end
  | _, _ => at_
  end.
Definition boundErrText (s : string) : string :=
  if slen s <=? maxErrTextBytes then s
  else let at_ := back_off 3 s maxErrTextBytes in
       String.substring 0 at_ s +:+ " … [" +:+ itoa (Z.of_nat (slen s - at_)) +:+ " bytes elided]".
Definition warnNotReread (target kind id : string) (afterErr : option err) : io vmE unit :=
  match afterErr with
  | None => Ret tt
  | Some e => trigger (VNote ("warning: " +:+ target +:+ ": " +:+ kind +:+ " " +:+ QuoteValue id
      +:+ ": the write was applied but its result could not be re-read: " +:+ QuoteValue (boundErrText (Error e))))
  end.
Definition warnPostCheck (target kind id : string) (changed : bool) (question : string) (postErr : option err) : io vmE unit :=
  match postErr with
  | None => Ret tt
  | Some e =>
      let lead := if changed then "the change was applied but" else "nothing needed changing but" in
      trigger (VNote ("warning: " +:+ target +:+ ": " +:+ kind +:+ " " +:+ QuoteValue id +:+ ": " +:+ lead +:+ " " +:+ question
        +:+ ": " +:+ QuoteValue (boundErrText (Error e))))
  end.

(** ** vm create: its parameters *)
(** How many of the ways to give fields were used. *)
Definition modes (kvArgs : list string) (jsonBody jsonFile : string) : nat :=
  length kvArgs `min` 1 + (if eqb jsonBody "" then 0 else 1) + (if eqb jsonFile "" then 0 else 1).
Definition vadd (v : Values) (k x : string) : Values := <[k := default [] (v !! k) ++ [x]]> v.
Fixpoint add_params (v : Values) (pairs : list Pair) : res Values :=
  match pairs with
  | [] => Ok v
  | p :: pairs' =>
      guard^ negb (eqb (Field p) "vmid") orelse
        errorf ("vmid is the positional argument, not a create parameter: drop " +:+ quote (Field p +:+ "=" +:+ Value p)
                +:+ " and pass the vmid as the second argument") in
      add_params (vadd v (Field p) (Value p)) pairs'
  end.
Definition vmCreateParams (kvArgs : list string) (jsonBody jsonFile : string) : io vmE (res Values) :=
  guard bool_decide (modes kvArgs jsonBody jsonFile = 1) orelse
    errorf "specify exactly one of: field=value arguments, --json, or --json-file" in
  let? pairs := (if negb (bool_decide (kvArgs = [])) then Ret (ParseKVArgs kvArgs)
                 else if negb (eqb jsonBody "") then Ret (ParseJSONFields jsonBody)
                 else let? data := trigger (VReadFile jsonFile) orelse wrapf ("read " +:+ jsonFile) in
                      Ret (ParseJSONFields data)) orelse id in
  Ret (add_params ∅ pairs).

(** ** --unique-tag *)
Definition pveTagRE (s : string) : bool :=
  match s with
  | String c s' => (is_alnum c || is_byte 95 c) && all_bytes (λ d, is_alnum d || one_of "_+.-" d) s'
  | EmptyString => false
  end.
Definition uniqueTagIsOwn (tag : string) (params : Values) : res unit :=
  let is_ what := errorf ("vm create: --unique-tag " +:+ QuoteValue tag +:+ what) in
  guard^ negb (eqb (trim_space tag) "") orelse
    errorf "vm create: --unique-tag was given an empty tag; name one of this create's tags, or leave the flag out" in
  guard^ negb (contains ";" tag) orelse is_ (" contains PVE's tag separator " +:+ quote ";") in
  guard^ pveTagRE tag orelse
    is_ " is not a PVE tag (letters, digits, '_', '-', '+' and '.', not starting with '-', '+' or '.')" in
  guard^ existsb (λ t, equal_fold t tag) (split_by guestTagSplit (vget params "tags")) orelse
    is_ (" is not one of this create's tags (tags=" +:+ QuoteValue (vget params "tags") +:+ ")") in
  Ok tt.
Definition guest_Kind (g : Guest) : string := if eqb (Type_ g) "lxc" then "ct" else "vm".
Definition checkTagUnique (tag : string) : io rootE (res unit) :=
  let q := QuoteValue tag in
  let? guests := ClusterGuests orelse wrapf ("vm create: cannot verify tag uniqueness for " +:+ q) in
  Ret match FindGuestByTagFold guests tag with
      | Ok g => Er (errorf ("vm create: tag " +:+ q +:+ " is already carried by " +:+ guest_Kind g +:+ " " +:+ itoa (VMID_ g)
                            +:+ "; refusing to create another (--unique-tag)"))
      | Er e =>
          if errors_Is ErrAmbiguousTag e then
            Er (wrapf ("vm create: tag " +:+ q +:+ " is already carried by more than one guest; refusing to create another (--unique-tag)") e)
          else if errors_Is ErrNotFound e then Ok tt
          else Er (wrapf ("vm create: cannot verify tag uniqueness for " +:+ q) e)
      end.
(** Root's list shows the new VM as the one that carries the tag. *)
Definition shows (tag : string) (vmid : Z) (r : res (list Guest)) : bool :=
  match r with
  | Ok guests => match FindGuestByTagFold guests tag with Ok g => eqb (Type_ g) "qemu" && (VMID_ g =? vmid)%Z | Er _ => false end
  | Er _ => false
  end.
(** tagVisibilityBound over tagVisibilityPoll: after that many ticks the deadline has passed. *)
Definition tagVisibilityTicks : nat := 30.
Fixpoint wait_visible (ticks : nat) (tag : string) (vmid : Z) : io vmE (res bool) :=
  let! guests := lift (@VRoot) ClusterGuests in
  if shows tag vmid guests then Ret (Ok true)
  else
    let! cause := trigger VCtx in
    match cause, ticks with
    | Some e, _ => Ret (Er e)
    | None, 0 => Ret (Ok false)
    | None, S ticks' =>
        let! w := trigger VSelect in
        match w with
        | WDeadline => Ret (Ok false)
        | WDone e => Ret (Er e)
        | WTick => wait_visible ticks' tag vmid
        end
    end.
Definition waitTagVisible : string → Z → io vmE (res bool) := wait_visible tagVisibilityTicks.

(** ** vm create *)
(** From the check of the VMID to the printed result, with the client open. *)
Definition create_vm (t : Target) (targetID : string) (vmid : Z) (params : Values) : io vmE (res Z) :=
  let? resolved := vm_pve (NextVMID vmid []) orelse wrapf "vm create" in
  let? _ := Ret (create_Validate resolved params) orelse id in
  let! rs := lift (@VHost) (interp (routed t) (run_op (VMCreate (Node t) resolved params) (vm_key targetID resolved) false false) false) in
  let? r := Ret rs.1.1 orelse id in
  guard Changed r orelse
    errorf ("vm create: vm " +:+ itoa resolved +:+ " already exists on " +:+ targetID
      +:+ " (it was taken between the vmid check and the create); refusing to create it at a different vmid") in
  let! _ := trigger (VOut (targetID +:+ ": vm " +:+ itoa resolved +:+ " created")) in
  let! _ := warnNotReread targetID "vm" (itoa resolved) (AfterErr r) in
  let! _ := warnPostCheck targetID "vm" (itoa resolved) (Changed r) "PVE then reported it does not exist" (PostApplyErr r) in
  Ret (Ok resolved).
Definition wait_interrupted (targetID tag : string) (vmid : Z) (cause : err) : err :=
  let s := sent errVMCreatedTagWaitInterrupted in
  Err KText ("vm create: vm " +:+ itoa vmid +:+ " on " +:+ targetID +:+ ": " +:+ Error s +:+ ": tag " +:+ QuoteValue tag
             +:+ " (" +:+ Error cause +:+ ")") [s; cause].
Definition not_yet_listed (targetID tag : string) (vmid : Z) : string :=
  "warning: " +:+ targetID +:+ ": vm " +:+ itoa vmid +:+ ": tag " +:+ QuoteValue tag
  +:+ " is not yet in PVE's cluster resource list after 30s; a --unique-tag check made now may not see this VM".
Definition tag_key (targetID tag : string) : ObjectKey := {| TargetID := targetID; Kind := "vm-tag"; ID := to_lower tag |}.
(** Under the tag's lock. *)
Definition create_unique (t : Target) (targetID tag : string) (vmid : Z) (params : Values) : io vmE (res unit) :=
  let? _ := lift (@VRoot) (checkTagUnique tag) orelse id in
  let? resolved := create_vm t targetID vmid params orelse id in
  let? visible := waitTagVisible tag resolved orelse wait_interrupted targetID tag resolved in
  let! _ := (if visible then Ret tt else trigger (VNote (not_yet_listed targetID tag resolved))) in
  Ret (Ok tt).
Definition with_tag_lock (t : Target) (targetID tag : string) (vmid : Z) (params : Values) : io vmE (res unit) :=
  let? _ := trigger VConnect orelse wrapf "vm create: --unique-tag: connect as root" in
  let? _ := trigger VResolve orelse id in
  let? _ := trigger (VLock (tag_key targetID tag)) orelse wrapf ("vm create: acquire the lock for tag " +:+ QuoteValue tag) in
  deferring VUnlock (create_unique t targetID tag vmid params).
Definition create_flags (uniqueTag : option string) (noSSHKey fingerprint : bool) (params : Values) : res unit :=
  match uniqueTag with
  | Some tag => uniqueTagIsOwn tag params
  | None =>
      guard^ negb noSSHKey orelse
        errorf "vm create: --no-ssh-key only applies with --unique-tag, whose check runs as root" in
      guard^ negb fingerprint orelse
        errorf "vm create: --host-key-fingerprint only applies with --unique-tag, whose check runs as root over SSH" in
      Ok tt
  end.
(** [fingerprint]: --host-key-fingerprint was given. *)
Definition vm_create (targetID vmidArg : string) (kvArgs : list string) (jsonBody jsonFile : string)
    (uniqueTag : option string) (noSSHKey fingerprint : bool) : io vmE (res unit) :=
  let? params := vmCreateParams kvArgs jsonBody jsonFile orelse id in
  let? vmid := Ret (atoi_vmid vmidArg) orelse id in
  let? _ := Ret (create_flags uniqueTag noSSHKey fingerprint params) orelse id in
  guard negb (vmid <? 1)%Z orelse
    errorf ("invalid vmid " +:+ itoa vmid +:+ ": vm create requires an explicit positive vmid (it never auto-allocates)") in
  match uniqueTag with
  | Some tag =>
      let? opened := trigger (VOpenRoot targetID) orelse id in
      deferring VClose (
        guard opened.2 orelse errorf ("target " +:+ quote targetID +:+ " holds no API token") in
        with_tag_lock opened.1 targetID tag vmid params)
  | None =>
      let? t := trigger (VOpen targetID) orelse id in
      deferring VClose (
        let? _ := trigger VResolve orelse id in
        let? _ := create_vm t targetID vmid params orelse id in
        Ret (Ok tt))
  end.

(** ** vm get *)
Definition vm_get (format targetID vmidArg : string) : io vmE (res unit) :=
  let? f := Ret (ParseFormat format) orelse id in
  let? vmid := Ret (atoi_vmid vmidArg) orelse id in
  let? t := trigger (VOpen targetID) orelse id in
  deferring VClose (
    let? _ := trigger VResolve orelse id in
    let? _ := trigger (VReadLock (vm_key targetID vmid)) orelse wrapf "acquire read lock" in
    deferring VUnlock (
      let? vm := vm_pve (GetVM (Node t) vmid) orelse id in
      trigger (VRender f vm))).

(** ** vm set *)
Definition cold_boot : string := "it takes effect at the VM's next cold boot".
Definition next_start : string := "the guest sees it after the drive is regenerated at the VM's next start".
Fixpoint notes (lines : list string) : io vmE unit :=
  match lines with [] => Ret tt | l :: lines' => let! _ := trigger (VNote l) in notes lines' end.
(** The notices of what is not in effect yet. *)
Definition pending_lines (targetID : string) (vmid : Z) (s : fields_state) : list string :=
  let line what := "notice: " +:+ targetID +:+ ": vm " +:+ itoa vmid +:+ ": " +:+ what in
  let key what := (λ f, line (QuoteKey f +:+ what)) in
  let del what := (λ f, line ("delete=" +:+ QuoteValue f +:+ what)) in
  let sets := " is pending: " +:+ cold_boot in
  let drive := " is saved but not yet on the cloud-init drive: " +:+ next_start in
  (key sets <$> Pending s) ++ (del sets <$> PendingDeletes s)
  ++ (key drive <$> CloudInitStale s) ++ (del drive <$> CloudInitStaleDeletes s)
  ++ (key (" is already set but still pending: " +:+ cold_boot) <$> AlreadyPending s)
  ++ (del (" is already done but still pending: " +:+ cold_boot) <$> AlreadyPendingDeletes s)
  ++ (key (" is already set but not yet on the cloud-init drive: " +:+ next_start) <$> AlreadyCloudInitStale s)
  ++ (del (" is already done but not yet on the cloud-init drive: " +:+ next_start) <$> AlreadyCloudInitStaleDeletes s).
Definition is_cloudinit_check (k : ekind) : option unit := match k with KCloudInitCheck => Some tt | _ => None end.
Definition reportPending (targetID : string) (vmid : Z) (s : fields_state) (changed : bool) (postErr : option err) : io vmE unit :=
  let! _ := notes (pending_lines targetID vmid s) in
  let question :=
    match postErr ≫= errors_As is_cloudinit_check with
    | Some _ => "whether it has reached the cloud-init drive could not be checked"
    | None => "whether it is pending could not be checked"
    end in
  warnPostCheck targetID "vm" (itoa vmid) changed question postErr.
(** The lines for stdout; the first that cannot be written ends the command. *)
Fixpoint outs (lines : list string) : io vmE (res unit) :=
  match lines with [] => Ret (Ok tt) | l :: lines' => let? _ := trigger (VOut l) orelse id in outs lines' end.
(** The value a field is set to: the last one given. *)
Definition wanted (pairs : list Pair) (fld : string) : string :=
  default "" (Value <$> last (List.filter (λ p, eqb (Field p) fld) pairs)).
Definition applied_lines (targetID : string) (pairs : list Pair) (applied : list string) : list string :=
  (λ f, targetID +:+ ": " +:+ QuoteKey f +:+ "=" +:+ QuoteValue (wanted pairs f)) <$> applied.
Definition deleted_lines (targetID : string) (deleted : list string) : list string :=
  (λ f, targetID +:+ ": delete=" +:+ QuoteValue f) <$> deleted.
Definition set_args (kvArgs : list string) (jsonBody jsonFile : string) (deleteFlags : list string)
    : io vmE (res (list Pair * list string)) :=
  let n := modes kvArgs jsonBody jsonFile in
  guard negb (bool_decide (1 < n) || bool_decide (n = 0) && bool_decide (deleteFlags = [])) orelse
    errorf "specify exactly one of: field=value arguments, --json, or --json-file (or only --delete)" in
  let? pd := (if negb (bool_decide (kvArgs = [])) then Ret (let^ pairs := ParseKVArgs kvArgs orelse id in Ok (pairs, []))
              else if negb (eqb jsonBody "") then Ret (ParseJSONFieldsWithDeletes jsonBody)
              else if negb (eqb jsonFile "") then
                let? data := trigger (VReadFile jsonFile) orelse wrapf ("read " +:+ jsonFile) in Ret (ParseJSONFieldsWithDeletes data)
              else Ret (Ok ([], []))) orelse id in
  Ret (Ok (pd.1, pd.2 ++ deleteFlags)).
Definition set_vm (t : Target) (targetID : string) (vmid : Z) (pairs : list Pair) (deletes : list string) : io vmE (res unit) :=
  let! rs := lift (@VHost) (interp (routed t)
    (run_op (VMFieldsEnsure (Node t) vmid pairs deletes) (vm_key targetID vmid) false fields_init) false) in
  let s := rs.1.2 in
  let? r := Ret rs.1.1 orelse id in
  let? _ := outs (applied_lines targetID pairs (Applied s)) orelse id in
  let? _ := outs (deleted_lines targetID (Deleted s)) orelse id in
  let! _ := warnNotReread targetID "vm" (itoa vmid) (AfterErr r) in
  let! _ := reportPending targetID vmid s (Changed r || Wrote s) (PostApplyErr r) in
  Ret (Ok tt).
Definition vm_set (targetID vmidArg : string) (kvArgs : list string) (jsonBody jsonFile : string)
    (deleteFlags : list string) : io vmE (res unit) :=
  let? pd := set_args kvArgs jsonBody jsonFile deleteFlags orelse id in
  let? vmid := Ret (atoi_vmid vmidArg) orelse id in
  let? _ := Ret (fields_Validate vmid pd.1 pd.2) orelse id in
  let? t := trigger (VOpen targetID) orelse id in
  deferring VClose (
    let? _ := trigger VResolve orelse id in
    set_vm t targetID vmid pd.1 pd.2).

(** * Specification *)
(** The parameters are the pairs, each field with its values in the order they were given. *)
Definition values_of (pairs : list Pair) (k : string) : list string :=
  Value <$> List.filter (λ p, eqb (Field p) k) pairs.
Definition collected (pairs : list Pair) (params : Values) : Prop :=
  ∀ k, params !! k = match values_of pairs k with [] => None | l => Some l end.
(** Every event of a trace that [sel] singles out, with what came before it. *)
Definition guarded {E} (sel : event E → bool) (Q : list (event E) → event E → Prop) (tr : list (event E)) : Prop :=
  ∀ pre x post, tr = pre ++ x :: post → sel x = true → Q pre x.
Definition none {E} (sel : event E → bool) (tr : list (event E)) : Prop := ∀ x, x ∈ tr → sel x = false.

(** * Lemmas *)
(** Pairs added to what was there. *)
Definition added (v : Values) (pairs : list Pair) (params : Values) : Prop :=
  ∀ k, params !! k = match values_of pairs k with [] => v !! k | l => Some (default [] (v !! k) ++ l) end.
Lemma added_nil v : added v [] v.
Proof. done. Qed.
Lemma added_cons v p pairs params : added (vadd v (Field p) (Value p)) pairs params → added v (p :: pairs) params.
Proof.
  intros H k. rewrite (H k). unfold values_of, vadd. cbn [List.filter]. destruct (eqb (Field p) k) eqn:He.
  - apply eqb_true in He as <-. rewrite lookup_insert_eq. cbn [fmap list_fmap default].
    destruct (Value <$> _) as [|x l]; [done|]. cbn. by rewrite <- app_assoc.
  - apply eqb_false in He. by rewrite lookup_insert_ne.
Qed.
Lemma added_collected pairs params : added ∅ pairs params → collected pairs params.
Proof. intros H k. rewrite (H k), lookup_empty. by destruct (values_of pairs k). Qed.
Lemma add_params_added v pairs params :
  add_params v pairs = Ok params → added v pairs params ∧ ∀ p, p ∈ pairs → Field p ≠ "vmid".
Proof.
  revert v. induction pairs as [|p pairs IH]; intros v; cbn [add_params].
  - intros [= <-]. split; [apply added_nil|]. by intros p ?%elem_of_nil.
  - rewrite guard_iff, negb_eqb. intros [Hp [Ha Hn]%IH]. split; [by apply added_cons|].
    intros q [->|Hq]%elem_of_cons; auto.
Qed.
Lemma none_nil {E} (sel : event E → bool) : none sel [].
Proof. by intros x ?%elem_of_nil. Qed.
Lemma none_app {E} (sel : event E → bool) tr tr' : none sel tr → none sel tr' → none sel (tr ++ tr').
Proof. intros H H' x [?|?]%elem_of_app; auto. Qed.
Lemma none_cons {E} (sel : event E → bool) x tr : sel x = false → none sel tr → none sel (x :: tr).
Proof. intros H H' y [->|?]%elem_of_cons; auto. Qed.
Lemma none_guarded {E} (sel : event E → bool) Q tr : none sel tr → guarded sel Q tr.
Proof. intros H pre x post -> Hx. rewrite (H x) in Hx; [done|set_solver]. Qed.
Lemma guarded_app {E} (sel : event E → bool) Q tr tr' :
  guarded sel Q tr → guarded sel (λ pre x, Q (tr ++ pre) x) tr' → guarded sel Q (tr ++ tr').
Proof.
  intros H H' pre x post Heq Hx. apply app_eq_app in Heq as (l & [[-> Hl]|[-> Hl]]); [|by eapply H'].
  destruct l as [|y l]; cbn in Hl.
  - rewrite <- (app_nil_r pre), <- (app_nil_r (pre ++ [])). by apply (H' [] x post).
  - injection Hl as <- ->. by apply (H pre x l).
Qed.
Lemma guarded_mono {E} (sel : event E → bool) (Q Q' : list (event E) → event E → Prop) tr :
  (∀ pre x, Q pre x → Q' pre x) → guarded sel Q tr → guarded sel Q' tr.
Proof. intros HQ H pre x post -> Hx. eapply HQ, H; [done|exact Hx]. Qed.
Lemma guarded_one {E} (sel : event E → bool) (Q : list (event E) → event E → Prop) x : (sel x = true → Q [] x) → guarded sel Q [x].
Proof. intros H [|y pre] z post Heq Hz; [injection Heq as <- _; auto|by destruct pre]. Qed.
(** ** The Op *)
Section op.
Context (node : string) (VMID : Z) (Params : Values) (key : ObjectKey).
Local Notation op := (VMCreate node VMID Params).
Definition create_before (pre : list (event clientE)) (x : event clientE) : Prop :=
  (∃ a, x = Ev (CCreateVM VMID Params) a) ∧ ∃ e, Ev (CGetVM node VMID) (Er e) ∈ pre.
(** The calls that a create makes under its lock are those of these four. *)
Definition foreign (ev : event clientE) : bool :=
  match ev with Ev e _ => match e with CLock _ | CGetVM _ _ | CCreateVM _ _ | CWaitForTask _ _ => false | _ => true end end.
Definition created (tr : list (event clientE)) : Prop :=
  ∃ upid, Ev (CCreateVM VMID Params) (Ok upid) ∈ tr ∧ Ev (CWaitForTask node upid) (Ok tt) ∈ tr.
Lemma create_before_app tr pre x : create_before pre x → create_before (tr ++ pre) x.
Proof. intros [? (e & ?)]. split; [done|]. exists e. set_solver. Qed.
(** At most one create, first of all. *)
Definition at_most_create (tr : list (event clientE)) : Prop :=
  none foreign tr ∧ (none changing_event tr ∨ ∃ a tail, tr = Ev (CCreateVM VMID Params) a :: tail ∧ none changing_event tail).
Lemma apply_creates s :
  always (create_Apply node VMID Params s) (λ tr rs, at_most_create tr ∧ (rs.1 = Ok tt → created tr)).
Proof.
  unfold create_Apply. destruct (create_Validate VMID Params) as [[]|e]; [|split; [split; [apply none_nil|left; apply none_nil]|done]].
  cbn [bind trigger always]. intros [upid|e]; cbn [bind trigger always fst].
  - intros [[]|e]; (split; [split; [by do 2 (apply none_cons; [done|]); apply none_nil|
      right; do 2 eexists; split; [done|]; by apply none_cons, none_nil]|]); [|done].
    intros _. exists upid. split; [by left|by right; left].
  - split; [|done]. split; [by apply none_cons, none_nil|]. right. do 2 eexists. split; [done|]. apply none_nil.
Qed.
Lemma after_read e tr tail :
  at_most_create tr → none changing_event tail → none foreign tail →
  guarded changing_event create_before (Ev (CGetVM node VMID) (Er e) :: tr ++ tail) ∧
  none foreign (Ev (CGetVM node VMID) (Er e) :: tr ++ tail).
Proof.
  intros [Hu Hc] Ht Hu'. split; [|apply none_cons; [done|by apply none_app]].
  apply (guarded_app _ _ [_]); [by apply none_guarded, none_cons, none_nil|].
  apply guarded_app; [|by apply none_guarded].
  destruct Hc as [Hc|(a & tl & -> & Hc)]; [by apply none_guarded|].
  apply (guarded_app _ _ [_]); [|by apply none_guarded]. apply guarded_one. intros _. split; [by eexists|]. exists e. by left.
Qed.
Lemma create_attempts n s :
  always (interp (op_handler op) (attempts (impl_of op) key false n) s) (λ tr rs,
    guarded changing_event create_before tr ∧ none foreign tr ∧
    ∀ r, rs.1 = Ok r → Changed r = true → created tr).
Proof.
  revert s. induction n as [|n IH]; intros s; cbn [attempts bind trigger interp op_handler Read VMCreate]; unfold create_Read;
    cbn [bind trigger always fst snd interp op_handler Satisfied VMCreate create_Satisfied snap_empty negb eqb];
    (intros [vm|e]; cbn [fst snd bind trigger always interp op_handler]).
  1,3: assert (Satisfied op s (encode_vm vm) = true) as -> by (by destruct vm);
    cbn [negb check impl_of NoopChecker is_some VMCreate PostNoop bind trigger interp always fst snd];
    split_and!; [by apply none_guarded, none_cons, none_nil|by apply none_cons, none_nil|by intros r [= <-]].
  all: change (Satisfied op s (SText "")) with false; cbv iota; cbn [interp op_handler Apply VMCreate];
    eapply always_call; [apply apply_creates|]; intros tr [[[]|e1] s1] [Ha Hc]; cbn [fst snd] in *.
  1,3: cbn [impl_of ReReader PostApplier is_some VMCreate ReRead PostApply check bind trigger interp op_handler fst snd];
    unfold create_ReRead, create_PostApply; cbn [bind trigger always fst snd]; intros vm2;
    (destruct vm2 as [vm2|e2]; [|destruct (isMissingVMError e2 VMID)]); cbn [fst snd bind interp always trigger op_handler VMCreate PostApply]; 
    (split; [|split]); try (apply after_read; [done|by apply none_cons, none_nil..]).
  1-6: intros r _ _; destruct (Hc eq_refl) as (upid & ? & ?); exists upid; rewrite !elem_of_cons, !elem_of_app; auto.
  - cbn [interp always fst snd]. split; [|split]; [apply after_read; [done|apply none_nil..]..|done].
  - destruct (errors_Is ErrConflict e1); cbn [interp always fst snd].
    2: { split; [|split]; [apply after_read; [done|apply none_nil..]..|done]. }
    eapply always_mono; [|apply IH]. intros tr' rs (Hg & Hu & Hr).
    destruct (after_read e tr [] Ha (none_nil _) (none_nil _)) as [Hg0 Hu0]. rewrite app_nil_r in Hg0, Hu0.
    split; [|split].
    + apply (guarded_app _ _ (_ :: tr)); [done|]. eapply guarded_mono; [|exact Hg]. intros pre x. apply create_before_app.
    + by apply (none_app _ (_ :: tr)).
    + intros r H1 H2. destruct (Hr r H1 H2) as (upid & ? & ?). exists upid. rewrite !elem_of_cons, !elem_of_app. auto.
Qed.
(** A change is made under the lock, after a read that found no VM. *)
Definition locked_create (pre : list (event clientE)) (x : event clientE) : Prop :=
  create_before pre x ∧ Ev (CLock key) (Ok tt) ∈ pre ∧ none foreign pre.
Lemma create_run s :
  always (run_op op key false s) (λ tr rs,
    guarded changing_event locked_create tr ∧ ∀ r, rs.1 = Ok r → Changed r = true → created tr).
Proof.
  unfold run_op, Run. cbn [bind trigger interp op_handler always fst snd]. intros [[]|e]; cbn [interp bind trigger always fst snd].
  2: { split; [by apply none_guarded, none_cons, none_nil|done]. }
  apply interp_bind. eapply always_mono; [|apply create_attempts]. intros tr [r s1] (Hg & Hu & Hr).
  cbn [bind trigger interp op_handler always fst snd]. intros []. split.
  - apply (guarded_app _ _ [_]); [by apply none_guarded, none_cons, none_nil|].
    apply guarded_app; [|by apply none_guarded, none_cons, none_nil].
    intros pre x post Heq Hx. split; [|split].
    + apply (create_before_app [_]). by eapply Hg.
    + by left.
    + apply none_cons; [done|]. intros y Hy. apply Hu. rewrite Heq. set_solver.
  - intros x H1 H2. destruct (Hr x H1 H2) as (upid & ? & ?). exists upid. rewrite !elem_of_cons, !elem_of_app. auto.
Qed.
End op.
(** ** The Op over the routed client *)
Definition h_unlocking (ev : event hostE) : bool := match ev with Ev e _ => match e with HUnlock => true | _ => false end end.
(** A read of the VM that failed. *)
Definition unread (node : string) (vmid : Z) (tr : list (event pveE)) : Prop :=
  ∃ t e, (∀ x, x ∈ t → x ∈ tr) ∧ exec (GetVM node vmid) t (Er e).
(** PVE answered the request for the VM with a task, which was seen to end well. *)
Definition started (node : string) (vmid : Z) (params : Values) (upid : string) (tr : list (event pveE)) : Prop :=
  ∃ hr, Ev (Http "POST" (qemu_path node) (vset params "vmid" (itoa vmid))) hr ∈ tr ∧ answered_upid hr upid.
Definition ended_well (upid : string) (tr : list (event pveE)) : Prop :=
  ∃ exit, taskExitSucceeded exit = true ∧ Ev (PcTask upid) (Ok ("stopped", exit)) ∈ tr.
Definition host_created (node : string) (vmid : Z) (params : Values) (tr : list (event pveE)) : Prop :=
  ∃ upid, started node vmid params upid tr ∧ ended_well upid tr.
Section routed_create.
Context (t : Target).
Local Notation node := (Node t).
Definition create_step (_ : bool) (ev : event clientE) (tr : list (event hostE)) (_ : bool) : Prop :=
  (changing_event ev = false → host_changes tr = []) ∧ (foreign ev = false → none h_unlocking tr) ∧
  match ev with
  | Ev e r =>
      match e in clientE R return R → Prop with
      | CLock k => λ r, Ev (HLock k) r ∈ tr
      | CGetVM nd v => λ r, ∀ e, r = Er e → unread nd v (pve_trace tr)
      | CCreateVM v ps => λ r,
          (∀ x, x ∈ tr → host_changing x = true →
             ∃ a, x = Ev (HPve (Http "POST" (qemu_path node) (vset ps "vmid" (itoa v)))) a) ∧
          ∀ upid, r = Ok upid → started node v ps upid (pve_trace tr)
      | CWaitForTask nd upid => λ r, r = Ok tt → ended_well upid (pve_trace tr)
      | _ => λ _, True
      end r
  end.
Lemma lifted_keeps tr : none h_unlocking (lift_event (@HPve) <$> tr).
Proof. intros x ([R e r] & -> & _)%list_elem_of_fmap. done. Qed.
Lemma CreateVM_sends vmid params :
  always (CreateVM node vmid params) (λ tr r,
    (∀ x, x ∈ tr → ∃ a, x = Ev (Http "POST" (qemu_path node) (vset params "vmid" (itoa vmid))) a) ∧
    ∀ upid, r = Ok upid → started node vmid params upid tr).
Proof.
  unfold CreateVM. cbv zeta. destruct (negb (eqb node "")); [|split; [by intros x ?%elem_of_nil|done]].
  eapply always_mono; [|apply upid_request_spec]. intros tr r [[[-> Hr]|(hr & -> & Hr)] _].
  - split; [by intros x ?%elem_of_nil|]. by intros upid ->.
  - split; [intros x ->%list_elem_of_singleton; eauto|]. intros upid Hu. exists hr. split; [by left|auto].
Qed.
Lemma create_answers R (e : clientE R) s : always (routed t R e s) (λ tr rs, create_step s (Ev e rs.1) tr rs.2).
Proof.
  unfold create_step. apply always_and; [|apply always_and].
  - cbn [changing_event]. destruct (changing e) eqn:Hc; [by apply always_true|]. eapply always_mono; [|by apply routed_quiet]. done.
  - destruct e; try (by apply always_true); cbn [routed].
    + cbn. intros r _ x [->|[]%elem_of_nil]%elem_of_cons. done.
    + eapply always_mono; [|apply (rest_spec _ (λ _ _, True)), always_true; done]. cbn. intros tr rs (t0 & -> & _) _. apply lifted_keeps.
    + eapply always_mono; [|apply (rest_spec _ (λ _ _, True)), always_true; done]. cbn. intros tr rs (t0 & -> & _) _. apply lifted_keeps.
    + eapply always_mono; [|apply (rest_spec _ (λ _ _, True)), always_true; done]. cbn. intros tr rs (t0 & -> & _) _. apply lifted_keeps.
  - destruct e; try (by apply always_true); cbn [routed].
    + cbn. intros r. by left.
    + eapply always_mono; [|eapply rest_spec, (proj2 (always_exec _ _))]. 2: { intros tr r H. exact H. }
      cbn. intros tr rs (t0 & -> & H & _) e He. rewrite pve_trace_lift. unfold vm_pointer in H.
      apply exec_bind in H as (t1 & r0 & t2 & -> & H1 & [-> Hr]). rewrite He in Hr. destruct r0 as [vm|e0]; [done|].
      exists t1, e0. split; [set_solver|done].
    + eapply always_mono; [|apply rest_spec, CreateVM_sends]. cbn. intros tr rs (t0 & -> & [Hx Hr] & _). rewrite pve_trace_lift. split; [|done].
      intros x (y & -> & Hy)%list_elem_of_fmap Hch. destruct (Hx y Hy) as [a ->]. by exists a.
    + eapply always_mono; [|apply rest_spec, WaitForTask_spec]. cbn. intros tr rs (t0 & -> & [_ Ho] & _) Hr. rewrite pve_trace_lift.
      rewrite Hr in Ho. destruct Ho as (exit & ? & Hend). exists exit. split; [done|].
      destruct Hend as [tr0 ->]. set_solver.
Qed.

Lemma steps_keep s evs tr s' : steps create_step s evs tr s' → none foreign evs → none h_unlocking tr.
Proof.
  induction 1 as [s|s ev tr s1 evs tr' s2 (_ & Hk & _) _ IH]; intros Hf; [apply none_nil|].
  apply none_app; [apply Hk, Hf; by left|]. apply IH. intros x Hx. apply Hf. by right.
Qed.
(** A change is the one request for the VM, under its lock, after a read that did not find it. *)
Definition host_before (vmid : Z) (params : Values) (key : ObjectKey) (pre : list (event hostE)) (x : event hostE) : Prop :=
  (∃ a, x = Ev (HPve (Http "POST" (qemu_path node) (vset params "vmid" (itoa vmid)))) a) ∧
  unread node vmid (pve_trace pre) ∧ Ev (HLock key) (Ok tt) ∈ pre ∧ none h_unlocking pre.
Lemma pve_trace_elem tr tr' x : (∀ y, y ∈ tr → y ∈ tr') → x ∈ pve_trace tr → x ∈ pve_trace tr'.
Proof. intros Hs (y & Hy & H)%list_elem_of_omap. apply list_elem_of_omap. eauto. Qed.
Lemma host_create_run vmid params key s b :
  always (interp (routed t) (run_op (VMCreate node vmid params) key false s) b) (λ tr rs,
    guarded host_changing (host_before vmid params key) tr ∧
    ∀ r, rs.1.1 = Ok r → Changed r = true → host_created node vmid params (pve_trace tr)).
Proof.
  eapply always_mono; [|apply (interp_refines _ create_step create_answers), create_run].
  intros tr rs (evs & [Hg Hr] & Hst). split.
  - intros pre x post Htr Hx.
    destruct (steps_split _ _ _ _ _ _ _ _ Hst Htr) as (e1 & ev & e2 & t1 & a & c & s1 & s2 & -> & -> & Hst1 & Hq & Hk & Hev).
    destruct (changing_event ev) eqn:Hc.
    + destruct (Hg _ _ _ eq_refl Hc) as (((y & ->) & e & Hread) & Hlock & Hf). cbn in Hev.
      assert (none foreign [Ev (CCreateVM vmid params) y]) as Hone by (by apply none_cons, none_nil).
      destruct Hev as [Hpost _]. split; [apply Hpost; [set_solver|done]|].
      destruct (steps_elem _ _ _ _ _ _ Hst1 Hread) as (x1 & tr1 & x2 & (_ & _ & Hun) & Hsub). cbn in Hun.
      destruct (steps_elem _ _ _ _ _ _ Hst1 Hlock) as (y1 & tr2 & y2 & (_ & _ & Hlk) & Hsub2). cbn in Hlk.
      split; [|split].
      * destruct (Hun e eq_refl) as (tt1 & e0 & Htt & Hex). exists tt1, e0. split; [|done]. intros z Hz.
        eapply pve_trace_elem; [|by apply Htt]. intros w Hw. apply elem_of_app. auto.
      * apply elem_of_app. auto.
      * apply none_app; [by eapply steps_keep|]. intros z Hz. apply Hk; [done|]. set_solver.
    + specialize (Hq eq_refl). exfalso. assert (x ∈ host_changes (a ++ x :: c)) as Hin.
      { apply list_elem_of_filter. split; [done|set_solver]. }
      rewrite Hq in Hin. by apply elem_of_nil in Hin.
  - intros r H1 H2. destruct (Hr r H1 H2) as (upid & Hc & Hw).
    destruct (steps_elem _ _ _ _ _ _ Hst Hc) as (x1 & tr1 & x2 & (_ & _ & _ & Hst1) & Hsub1).
    destruct (steps_elem _ _ _ _ _ _ Hst Hw) as (y1 & tr2 & y2 & (_ & _ & Hend) & Hsub2).
    exists upid. split.
    + destruct (Hst1 upid eq_refl) as (hr & Hin & ?). exists hr. split; [|done]. eapply pve_trace_elem; [exact Hsub1|done].
    + destruct (Hend eq_refl) as (exit & ? & Hin). exists exit. split; [done|]. eapply pve_trace_elem; [exact Hsub2|done].
Qed.
End routed_create.
(** ** The command's trace *)
Definition v_root_event (ev : event vmE) : option (event rootE) :=
  match ev with Ev e r => match e in vmE R return R → option (event rootE) with VRoot e => λ r, Some (Ev e r) | _ => λ _, None end r end.
Definition v_host_event (ev : event vmE) : option (event hostE) :=
  match ev with Ev e r => match e in vmE R return R → option (event hostE) with VHost e => λ r, Some (Ev e r) | _ => λ _, None end r end.
Definition v_root (tr : list (event vmE)) : list (event rootE) := omap v_root_event tr.
Definition v_host (tr : list (event vmE)) : list (event hostE) := omap v_host_event tr.
Definition v_pve (tr : list (event vmE)) : list (event pveE) := pve_trace (v_host tr).
Definition v_changing (ev : event vmE) : bool :=
  match v_root_event ev, v_host_event ev with
  | Some e, _ => match write_of e with Some _ => true | None => false end
  | _, Some e => host_changing e
  | None, None => false
  end.
(** The VM's lock is released; the tag's is. *)
Definition v_unlocking (ev : event vmE) : bool := match v_host_event ev with Some e => h_unlocking e | None => false end.
Definition v_releasing (ev : event vmE) : bool := match ev with Ev e _ => match e with VUnlock => true | _ => false end end.
Definition v_busy (ev : event vmE) : bool := v_changing ev || v_unlocking ev || v_releasing ev.
Lemma v_root_app tr tr' : v_root (tr ++ tr') = v_root tr ++ v_root tr'. Proof. apply omap_app. Qed.
Lemma v_pve_app tr tr' : v_pve (tr ++ tr') = v_pve tr ++ v_pve tr'.
Proof. unfold v_pve, v_host. by rewrite omap_app, pve_trace_app. Qed.
Lemma v_root_lift tr : v_root (lift_event (@VRoot) <$> tr) = tr.
Proof. induction tr as [|[R e r] tr IH]; [done|]. unfold v_root in *. cbn. by rewrite IH. Qed.
Lemma v_host_lift tr : v_host (lift_event (@VHost) <$> tr) = tr.
Proof. induction tr as [|[R e r] tr IH]; [done|]. unfold v_host in *. cbn. by rewrite IH. Qed.
Lemma v_pve_lift tr : v_pve (lift_event (@VHost) <$> tr) = pve_trace tr.
Proof. unfold v_pve. by rewrite v_host_lift. Qed.
Lemma busy_changing tr : none v_busy tr → none v_changing tr.
Proof. intros H x Hx. specialize (H x Hx). unfold v_busy in H. by destruct (v_changing x). Qed.
Lemma busy_unlocking tr : none v_busy tr → none v_unlocking tr.
Proof. intros H x Hx. specialize (H x Hx). unfold v_busy in H. by destruct (v_changing x), (v_unlocking x). Qed.
Lemma busy_releasing tr : none v_busy tr → none v_releasing tr.
Proof. intros H x Hx. specialize (H x Hx). unfold v_busy in H. by destruct (v_changing x), (v_unlocking x). Qed.
Lemma root_idle tr : writes tr = [] → none v_busy (lift_event (@VRoot) <$> tr).
Proof.
  intros Hw y (ev & -> & Hev)%list_elem_of_fmap. destruct ev as [R e r].
  change (v_busy _) with ((match write_of (Ev e r) with Some _ => true | None => false end) || false || false).
  destruct (write_of (Ev e r)) as [[cmd a]|] eqn:Hc; [|done]. exfalso.
  assert (cmd ∈ writes tr) as Hin; [|rewrite Hw in Hin; by apply elem_of_nil in Hin].
  apply list_elem_of_fmap. exists (cmd, a). split; [done|]. apply list_elem_of_omap. by exists (Ev e r).
Qed.
Lemma pve_idle tr : mutations tr = [] → none v_busy (lift_event (@VHost) <$> (lift_event (@HPve) <$> tr)).
Proof.
  intros Hm y (ev & -> & (ev0 & -> & Hev)%list_elem_of_fmap)%list_elem_of_fmap. destruct ev0 as [R e r].
  change (v_busy _) with (host_changing (lift_event (@HPve) (Ev e r)) || false || false).
  destruct (host_changing _) eqn:Hc; [|done]. exfalso. apply host_changing_lift in Hc as [x Hx].
  assert (x ∈ mutations tr) as Hin; [apply list_elem_of_omap; by exists (Ev e r)|]. rewrite Hm in Hin. by apply elem_of_nil in Hin.
Qed.
Lemma v_root_spec {A} (m : io rootE A) (P : list (event rootE) → A → Prop) :
  always m (λ tr a, writes tr = [] ∧ P tr a) → always (lift (@VRoot) m) (λ tr a, none v_busy tr ∧ P (v_root tr) a).
Proof.
  intros Hm. eapply always_mono; [|by apply lift_spec]. cbn. intros tr a (tr0 & -> & Hw & HP). rewrite v_root_lift.
  split; [by apply root_idle|done].
Qed.
(** ** The tag *)
Definition unclaimed_tag (tag : string) (tr : list (event rootE)) : Prop :=
  ∃ out gs, said tr ClusterGuestsCommand out ∧ ParseClusterGuests out = Ok gs ∧ ∀ g, g ∈ gs → Cluster.carries tag g = false.
Lemma FindGuest_none gs tag e : FindGuestByTagFold gs tag = Er e → errors_Is ErrAmbiguousTag e = false → errors_Is ErrNotFound e = true →
  ∀ g, g ∈ gs → Cluster.carries tag g = false.
Proof.
  unfold FindGuestByTagFold. destruct (eqb tag ""); [by intros [= <-]|].
  destruct (filter _ gs) as [|g [|g' l]] eqn:Hf; [|done|by intros [= <-]]. intros _ _ _ g Hg.
  destruct (Cluster.carries tag g) eqn:Hc; [|done]. exfalso.
  assert (g ∈ filter (λ g, Cluster.carries tag g = true) gs) as Hin by (by apply list_elem_of_filter).
  rewrite Hf in Hin. by apply elem_of_nil in Hin.
Qed.
Lemma checkTagUnique_spec tag :
  always (checkTagUnique tag) (λ tr r, writes tr = [] ∧ (r = Ok tt → unclaimed_tag tag tr)).
Proof.
  unfold checkTagUnique. cbv zeta. eapply always_call; [apply pveum_reads|].
  intros tr [gs|e] [Hw Hr]; cbn [always]; rewrite app_nil_r; (split; [done|]); [|done].
  destruct (FindGuestByTagFold gs tag) as [g|e] eqn:Hf; [done|]. destruct (errors_Is ErrAmbiguousTag e) eqn:Ha; [done|].
  destruct (errors_Is ErrNotFound e) eqn:Hn; [|done]. intros _. destruct (Hr gs eq_refl) as (out & Hs & Hp).
  exists out, gs. split_and!; [done|done|by eapply FindGuest_none].
Qed.
(** Root's list shows the VM as the one guest with the tag. *)
Definition tag_listed (tag : string) (vmid : Z) (tr : list (event rootE)) : Prop :=
  ∃ out gs g, said tr ClusterGuestsCommand out ∧ ParseClusterGuests out = Ok gs ∧
    List.filter (Cluster.carries tag) gs = [g] ∧ Type_ g = "qemu" ∧ VMID_ g = vmid.
Lemma FindGuest_one gs tag g : FindGuestByTagFold gs tag = Ok g → List.filter (Cluster.carries tag) gs = [g].
Proof.
  unfold FindGuestByTagFold. destruct (eqb tag ""); [done|].
  assert (filter (λ g, Cluster.carries tag g = true) gs = List.filter (Cluster.carries tag) gs) as ->.
  { induction gs as [|x gs IH]; [done|]. rewrite filter_cons. cbn [List.filter]. rewrite IH.
    case_decide as Hd; [by rewrite Hd|]. by destruct (Cluster.carries tag x). }
  destruct (List.filter _ gs) as [|x [|]]; [done| |done]. by intros [= ->].
Qed.
(** The wait for that went on for its thirty seconds: its deadline ended it, or thirty ticks of
    a second each went by. *)
Definition v_tick (ev : event vmE) : bool := match ev with @Ev _ _ VSelect WTick => true | _ => false end.
Definition waited (tr : list (event vmE)) : Prop :=
  Ev VSelect WDeadline ∈ tr ∨ 30 ≤ length (List.filter v_tick tr).
Lemma waited_l tr tr' : waited tr → waited (tr ++ tr').
Proof. unfold waited. rewrite List.filter_app, length_app, elem_of_app. intros [?|?]; [by left; left|right; lia]. Qed.
Lemma waited_r tr tr' : waited tr' → waited (tr ++ tr').
Proof. unfold waited. rewrite List.filter_app, length_app, elem_of_app. intros [?|?]; [by left; right|right; lia]. Qed.
Lemma tag_listed_l tag vmid tr tr' : tag_listed tag vmid tr → tag_listed tag vmid (tr ++ tr').
Proof. intros (out & gs & g & ? & ?). exists out, gs, g. split; [by apply said_app_l|done]. Qed.
Lemma tag_listed_r tag vmid tr tr' : tag_listed tag vmid tr' → tag_listed tag vmid (tr ++ tr').
Proof. intros (out & gs & g & ? & ?). exists out, gs, g. split; [by apply said_app_r|done]. Qed.
Lemma waitTagVisible_spec ticks tag vmid :
  always (wait_visible ticks tag vmid) (λ tr r, none v_busy tr ∧ (r = Ok true → tag_listed tag vmid (v_root tr)) ∧
    (r = Ok false → Ev VSelect WDeadline ∈ tr ∨ ticks ≤ length (List.filter v_tick tr))).
Proof.
  induction ticks as [|ticks IH]; cbn [wait_visible];
    (eapply always_call; [apply v_root_spec, (pveum_reads ClusterGuestsCommand ParseClusterGuests)|]); intros tr r [Hb Hr];
    (destruct (shows tag vmid r) eqn:Hs;
     [cbn [always]; rewrite app_nil_r; split; [done|]; split; [|done]; intros _; destruct r as [gs|]; [|done]; cbn in Hs;
      destruct (FindGuestByTagFold gs tag) as [g|] eqn:Hf; [|done]; apply andb_true_iff in Hs as [?%eqb_true ?%Z.eqb_eq];
      destruct (Hr gs eq_refl) as (out & ? & ?); exists out, gs, g; split_and!; try done; by apply FindGuest_one|]).
  all: cbn [bind trigger always]; intros [e|]; cbn [always].
  1-3: (split; [apply none_app; [done|by apply none_cons, none_nil]|split; [done|intros [=]; right; lia]]).
  intros [e| |]; cbn [always].
  1-2: (split; [apply none_app; [done|by do 2 (apply none_cons; [done|]); apply none_nil]|split; [done|intros [=]; left; set_solver]]).
  eapply always_mono; [|exact IH]. intros tr' r' (Hb' & Hr' & Hw).
  split; [apply none_app; [done|by do 2 (apply none_cons; [done|])]|]. split.
  - intros H. rewrite v_root_app. apply tag_listed_r, Hr', H.
  - intros H. destruct (Hw H) as [?|?]; [left; set_solver|right]. rewrite List.filter_app, length_app. cbn. lia.
Qed.
(** ** vm create *)
Definition answered_free (vmid : Z) (tr : list (event pveE)) : Prop :=
  ∃ ans, ans ≠ "" ∧ Ev (PcString ("/cluster/nextid?vmid=" +:+ itoa vmid)) (Ok ans) ∈ tr.
(** The one change is the request for the VM, made under the VM's lock, once PVE said that its
    number is free and a read under the lock did not find it. *)
Definition vm_before (t : Target) (targetID : string) (vmid : Z) (params : Values) (pre : list (event vmE)) (x : event vmE) : Prop :=
  (∃ a, x = Ev (VHost (HPve (Http "POST" (qemu_path (Node t)) (vset params "vmid" (itoa vmid))))) a) ∧
  create_Validate vmid params = Ok tt ∧ answered_free vmid (v_pve pre) ∧ unread (Node t) vmid (v_pve pre) ∧
  Ev (VHost (HLock (vm_key targetID vmid))) (Ok tt) ∈ pre ∧ none v_unlocking pre.
Lemma unread_mono node vmid tr tr' : (∀ x, x ∈ tr → x ∈ tr') → unread node vmid tr → unread node vmid tr'.
Proof. intros Hs (t & e & Ht & He). exists t, e. auto. Qed.
Lemma vm_before_app t targetID vmid params tr pre x :
  none v_unlocking tr → vm_before t targetID vmid params pre x → vm_before t targetID vmid params (tr ++ pre) x.
Proof.
  intros Hn (? & ? & (ans & ? & ?) & Hu & ? & ?). split; [done|]. split; [done|]. rewrite v_pve_app. split_and!.
  - exists ans. set_solver.
  - eapply unread_mono, Hu. set_solver.
  - set_solver.
  - by apply none_app.
Qed.
Lemma NextVMID_pin vmid :
  (1 ≤ vmid)%Z → always (NextVMID vmid []) (λ tr r, mutations tr = [] ∧ ∀ v, r = Ok v → v = vmid ∧ answered_free vmid tr).
Proof.
  intros Hp. unfold NextVMID. destruct (Z.eqb_spec vmid 0) as [->|_]; [lia|]. cbn [negb].
  rewrite bool_decide_eq_false_2 by apply not_elem_of_nil. cbn [negb].
  assert (always (vmidFree vmid) (λ tr r, mutations tr = [] ∧ (r = Ok true → ends_free vmid tr))) as Hfree.
  { apply always_and; [unfold vmidFree; cbn; by intros a|]. eapply always_mono; [|apply vmidFree_spec]. intros tr r [_ H]. exact H. }
  eapply always_call; [exact Hfree|].
  intros tr [[]|e] [Hm Hf]; cbn [always]; rewrite app_nil_r; (split; [done|]); [|done..].
  intros v [= <-]. split; [done|]. destruct (Hf eq_refl) as (tr0 & ans & ? & ->). exists ans. set_solver.
Qed.
Lemma note_idle line : none v_busy [Ev (VNote line) tt].
Proof. by apply none_cons, none_nil. Qed.
Lemma warns_idle target kind id e : always (warnNotReread target kind id e) (λ tr _, none v_busy tr ∧ v_root tr = []).
Proof. destruct e; cbn; [intros []; split; [by apply none_cons, none_nil|done]|split; [apply none_nil|done]]. Qed.
Lemma postcheck_idle target kind id ch q e : always (warnPostCheck target kind id ch q e) (λ tr _, none v_busy tr ∧ v_root tr = []).
Proof. destruct e; cbn; [intros []; split; [by apply none_cons, none_nil|done]|split; [apply none_nil|done]]. Qed.
Lemma host_events_keep tr : none v_releasing (lift_event (@VHost) <$> tr).
Proof. intros x ([R e r] & -> & _)%list_elem_of_fmap. done. Qed.
Section create_cmd.
Context (t : Target) (targetID : string) (vmid : Z) (params : Values) (Hpos : (1 ≤ vmid)%Z).
Local Notation before := (vm_before t targetID vmid params).
Local Notation done_ tr := (host_created (Node t) vmid params (v_pve tr)).
Lemma host_created_mono tr tr' : (∀ x, x ∈ tr → x ∈ tr') → host_created (Node t) vmid params tr → host_created (Node t) vmid params tr'.
Proof.
  intros Hs (upid & (hr & ? & ?) & exit & ? & ?). exists upid. split; [exists hr; auto|exists exit; auto].
Qed.
Lemma create_vm_spec :
  always (create_vm t targetID vmid params) (λ tr r,
    guarded v_changing before tr ∧ none v_releasing tr ∧ ∀ v, r = Ok v → v = vmid ∧ done_ tr).
Proof.
  assert (∀ tr (r : res Z), none v_busy tr → is_ok r = false →
    guarded v_changing before tr ∧ none v_releasing tr ∧ ∀ v, r = Ok v → v = vmid ∧ done_ tr) as Hstop.
  { intros tr r Hb Hr. split; [by apply none_guarded, busy_changing|]. split; [by apply busy_releasing|]. by destruct r. }
  unfold create_vm, vm_pve. eapply always_call; [apply lift_spec, lift_spec, NextVMID_pin, Hpos|].
  intros tr0 r0 (t0 & -> & t1 & -> & Hm & Hr). pose proof (pve_idle _ Hm) as Hidle.
  destruct r0 as [v|e]; cbn [always]; [|rewrite app_nil_r; by apply Hstop]. destruct (Hr v eq_refl) as [-> Hfree].
  destruct (create_Validate vmid params) as [[]|e] eqn:Hval; cbn [bind always]; [|rewrite app_nil_r; by apply Hstop].
  set (tr0 := lift_event _ <$> _) in *.
  eapply always_call; [apply lift_spec, host_create_run|]. intros tr1 rs (h1 & -> & Hg & Hc).
  assert (guarded v_changing before (tr0 ++ (lift_event (@VHost) <$> h1))) as Hguard.
  { apply guarded_app; [by apply none_guarded, busy_changing|]. intros pre x post Heq Hx.
    apply fmap_app_inv in Heq as (h0 & h2 & -> & Hh2 & ->).
    symmetry in Hh2. apply fmap_cons_inv in Hh2 as (y & h3 & -> & -> & ->).
    assert (host_changing y = true) as Hy by by destruct y.
    destruct (Hg h0 y h3 eq_refl Hy) as ((a & ->) & Hun & Hl & Hnu). split; [by exists a|]. split; [done|].
    rewrite v_pve_app, v_pve_lift. split; [|split; [|split]].
    - destruct Hfree as (ans & ? & ?). exists ans. split; [done|]. apply elem_of_app. left. unfold tr0.
      by rewrite v_pve_lift, pve_trace_lift.
    - eapply unread_mono, Hun. set_solver.
    - apply elem_of_app. right. apply list_elem_of_fmap. by exists (Ev (HLock (vm_key targetID vmid)) (Ok tt)).
    - apply none_app; [by apply busy_unlocking|]. intros z (w & -> & Hw)%list_elem_of_fmap. specialize (Hnu w Hw). by destruct w. }
  assert (none v_releasing (tr0 ++ (lift_event (@VHost) <$> h1))) as Hrel.
  { apply none_app; [by apply busy_releasing|apply host_events_keep]. }
  assert (∀ tail (r : res Z), none v_busy tail → is_ok r = false →
    guarded v_changing before (tr0 ++ (lift_event (@VHost) <$> h1) ++ tail) ∧
    none v_releasing (tr0 ++ (lift_event (@VHost) <$> h1) ++ tail) ∧
    ∀ v, r = Ok v → v = vmid ∧ done_ (tr0 ++ (lift_event (@VHost) <$> h1) ++ tail)) as Hfail.
  { intros tail r Ht Hf. rewrite app_assoc. split; [|split; [|by destruct r]].
    - apply guarded_app; [done|by apply none_guarded, busy_changing].
    - apply none_app; [done|by apply busy_releasing]. }
  destruct (rs.1.1) as [r|e] eqn:Hrs; cbn [bind always]; [|apply (Hfail []); [apply none_nil|done]].
  destruct (Changed r) eqn:Hch; cbn [bind trigger always]; [|apply (Hfail []); [apply none_nil|done]]. intros o.
  eapply always_call; [apply warns_idle|]. intros w1 [] [Hw1 _].
  eapply always_call; [apply postcheck_idle|]. intros w2 [] [Hw2 _]. cbn [always]. rewrite app_nil_r.
  set (tail := Ev (VOut _) o :: w1 ++ w2).
  assert (none v_busy tail) as Htail by (apply none_cons; [done|by apply none_app]).
  rewrite app_assoc. split; [|split].
  - apply guarded_app; [done|by apply none_guarded, busy_changing].
  - apply none_app; [done|by apply busy_releasing].
  - intros v [= <-]. split; [done|]. eapply host_created_mono, Hc; [|done..]. intros x Hx.
    rewrite v_pve_app. apply elem_of_app. left. rewrite v_pve_app, v_pve_lift. set_solver.
Qed.
End create_cmd.
Definition shown (targetID tag : string) (vmid : Z) (tr : list (event vmE)) : Prop :=
  tag_listed tag vmid (v_root tr) ∨ Ev (VNote (not_yet_listed targetID tag vmid)) tt ∈ tr ∧ waited tr.
Lemma shown_r targetID tag vmid tr tr' : shown targetID tag vmid tr' → shown targetID tag vmid (tr ++ tr').
Proof. intros [H|[H Hw]]; [left; rewrite v_root_app; by apply tag_listed_r|right; split; [set_solver|by apply waited_r]]. Qed.
Lemma shown_l targetID tag vmid tr tr' : shown targetID tag vmid tr → shown targetID tag vmid (tr ++ tr').
Proof. intros [H|[H Hw]]; [left; rewrite v_root_app; by apply tag_listed_l|right; split; [set_solver|by apply waited_l]]. Qed.
Section unique.
Context (t : Target) (targetID tag : string) (vmid : Z) (params : Values) (Hpos : (1 ≤ vmid)%Z).
Local Notation done_ tr := (host_created (Node t) vmid params (v_pve tr)).
Local Notation shown tr := (shown targetID tag vmid tr).
Lemma create_unique_spec :
  always (create_unique t targetID tag vmid params) (λ tr r,
    guarded v_changing (λ pre x, vm_before t targetID vmid params pre x ∧ unclaimed_tag tag (v_root pre) ∧ none v_releasing pre) tr ∧
    none v_releasing tr ∧ (r = Ok tt → done_ tr ∧ shown tr)).
Proof.
  unfold create_unique. eapply always_call; [apply v_root_spec, checkTagUnique_spec|]. intros tr0 [[]|e] [Hb Hu]; cbn [always].
  2: { rewrite app_nil_r. split; [by apply none_guarded, busy_changing|]. split; [by apply busy_releasing|done]. }
  specialize (Hu eq_refl). eapply always_call; [by apply create_vm_spec|]. intros tr1 r1 (Hg & Hrel & Hdone).
  assert (guarded v_changing (λ pre x, vm_before t targetID vmid params pre x ∧ unclaimed_tag tag (v_root pre) ∧ none v_releasing pre)
            (tr0 ++ tr1)) as Hguard.
  { apply guarded_app; [by apply none_guarded, busy_changing|]. intros pre x post -> Hx. split; [|split].
    - apply vm_before_app; [by apply busy_unlocking|]. by eapply Hg.
    - rewrite v_root_app. destruct Hu as (out & gs & ? & ?). exists out, gs. split; [by apply said_app_l|done].
    - apply none_app; [by apply busy_releasing|]. intros z Hz. apply Hrel. set_solver. }
  assert (none v_releasing (tr0 ++ tr1)) as Hrels by (by apply none_app; [apply busy_releasing|]).
  destruct r1 as [v|e]; cbn [always]; [|by rewrite app_nil_r]. destruct (Hdone v eq_refl) as [-> Hc].
  eapply always_call; [apply waitTagVisible_spec|]. intros tr2 [b|e] (Hb2 & Hl & Hw); cbn [always].
  2: { rewrite app_nil_r, app_assoc. split; [apply guarded_app; [done|by apply none_guarded, busy_changing]|].
       split; [apply none_app; [done|by apply busy_releasing]|done]. }
  assert (∀ tail, none v_busy tail → shown (tr2 ++ tail) →
    guarded v_changing (λ pre x, vm_before t targetID vmid params pre x ∧ unclaimed_tag tag (v_root pre) ∧ none v_releasing pre)
      (tr0 ++ tr1 ++ tr2 ++ tail) ∧ none v_releasing (tr0 ++ tr1 ++ tr2 ++ tail) ∧
    (Ok tt = Ok tt → done_ (tr0 ++ tr1 ++ tr2 ++ tail) ∧ shown (tr0 ++ tr1 ++ tr2 ++ tail))) as Hend.
  { intros tail Ht Hs. rewrite (app_assoc tr0). split; [|split].
    - apply guarded_app; [done|by apply none_guarded, busy_changing, none_app].
    - apply none_app; [done|by apply busy_releasing, none_app].
    - intros _. split; [|by apply shown_r]. eapply host_created_mono, Hc. intros x Hx. rewrite !v_pve_app. set_solver. }
  destruct b; cbn [bind always].
  - apply (Hend []); [apply none_nil|]. rewrite app_nil_r. left. by apply Hl.
  - cbn [bind trigger always]. intros []. apply Hend; [apply note_idle|]. right. split; [set_solver|]. apply waited_l. by apply Hw.
Qed.
End unique.
(** The parameters are those of the one source given: the arguments, the JSON text, or the
    file's, as it was read; none of them is the VM's number. *)
Definition given (kvArgs : list string) (jsonBody jsonFile : string) (params : Values) (pre : list (event vmE)) : Prop :=
  ∃ pairs, collected pairs params ∧ (∀ p, p ∈ pairs → Field p ≠ "vmid") ∧
    ((kvArgs ≠ [] ∧ jsonBody = "" ∧ jsonFile = "" ∧ kv_args kvArgs pairs) ∨
     (kvArgs = [] ∧ jsonBody ≠ "" ∧ jsonFile = "" ∧ ParseJSONFields jsonBody = Ok pairs) ∨
     (kvArgs = [] ∧ jsonBody = "" ∧ jsonFile ≠ "" ∧
        ∃ data, Ev (VReadFile jsonFile) (Ok data) ∈ pre ∧ ParseJSONFields data = Ok pairs)).
Lemma modes_one kvArgs jsonBody jsonFile : modes kvArgs jsonBody jsonFile = 1 →
  (kvArgs ≠ [] ∧ jsonBody = "" ∧ jsonFile = "") ∨ (kvArgs = [] ∧ jsonBody ≠ "" ∧ jsonFile = "") ∨
  (kvArgs = [] ∧ jsonBody = "" ∧ jsonFile ≠ "").
Proof.
  unfold modes. destruct (eqb jsonBody "") eqn:Hb; [apply eqb_true in Hb|apply eqb_false in Hb];
    (destruct (eqb jsonFile "") eqn:Hf; [apply eqb_true in Hf|apply eqb_false in Hf]);
    destruct kvArgs as [|x l]; cbn; intros H; try lia; [left|right; right|right; left]; done.
Qed.
Lemma vmCreateParams_spec kvArgs jsonBody jsonFile :
  always (vmCreateParams kvArgs jsonBody jsonFile) (λ tr r,
    none v_busy tr ∧ ∀ params, r = Ok params → given kvArgs jsonBody jsonFile params tr).
Proof.
  unfold vmCreateParams. case_bool_decide as Hone; [|split; [apply none_nil|done]].
  destruct (modes_one _ _ _ Hone) as [(Hk & -> & ->)|[(-> & Hj & ->)|(-> & -> & Hf)]].
  - rewrite bool_decide_eq_false_2 by done. cbn [negb bind]. destruct (ParseKVArgs kvArgs) as [pairs|e] eqn:Hp; [|split; [apply none_nil|done]].
    split; [apply none_nil|]. intros params [Ha%added_collected Hn]%add_params_added. exists pairs. apply ParseKVArgs_iff in Hp. auto 10.
  - rewrite (proj2 (eqb_false jsonBody "") Hj). cbn. destruct (ParseJSONFields jsonBody) as [pairs|e] eqn:Hp; [|split; [apply none_nil|done]].
    split; [apply none_nil|]. intros params [Ha%added_collected Hn]%add_params_added. exists pairs. auto 10.
  - cbn. intros [data|e]; [|split; [by apply none_cons, none_nil|done]]. cbn.
    destruct (ParseJSONFields data) as [pairs|e] eqn:Hp; (split; [by apply none_cons, none_nil|]); [|done].
    intros params [Ha%added_collected Hn]%add_params_added. exists pairs. split; [done|]. split; [done|]. right. right.
    split_and!; [done..|]. exists data. split; [by left|done].
Qed.
Section command.
Context (targetID vmidArg : string) (kvArgs : list string) (jsonBody jsonFile : string).
Context (uniqueTag : option string) (noSSHKey fingerprint : bool).
Definition params_given (params : Values) (pre : list (event vmE)) : Prop := given kvArgs jsonBody jsonFile params pre.
Lemma params_given_app params pre post : params_given params pre → params_given params (pre ++ post).
Proof.
  intros (pairs & ? & ? & Hs). exists pairs. split; [done|]. split; [done|].
  destruct Hs as [?|[?|(? & ? & ? & data & ? & ?)]]; [auto..|]. right. right. split_and!; [done..|]. exists data. set_solver.
Qed.
Definition opened (t : Target) (pre : list (event vmE)) : Prop :=
  match uniqueTag with
  | Some _ => Ev (VOpenRoot targetID) (Ok (t, true)) ∈ pre
  | None => Ev (VOpen targetID) (Ok t) ∈ pre
  end.
(** The tag is one of the VM's own, and under its lock root's list showed no guest with it. *)
Definition tag_unique (params : Values) (pre : list (event vmE)) : Prop :=
  ∀ tag, uniqueTag = Some tag →
    (∃ w, w ∈ split_by guestTagSplit (vget params "tags") ∧ equal_fold w tag = true) ∧
    ∃ p1 p2, pre = p1 ++ Ev (VLock (tag_key targetID tag)) (Ok tt) :: p2 ∧ none v_releasing p2 ∧ unclaimed_tag tag (v_root p2).
Definition create_allowed (pre : list (event vmE)) (x : event vmE) : Prop :=
  ∃ t vmid params, atoi vmidArg = Some vmid ∧ (1 ≤ vmid)%Z ∧ opened t pre ∧ params_given params pre ∧
    vm_before t targetID vmid params pre x ∧ tag_unique params pre.
Definition create_reported (tr : list (event vmE)) (r : res unit) : Prop :=
  r = Ok tt → ∃ t vmid params, atoi vmidArg = Some vmid ∧ opened t tr ∧ params_given params tr ∧
    host_created (Node t) vmid params (v_pve tr).
(** The tag's lock is kept, when all goes well, until root's list shows the VM, or the
    operator was told that it does not yet. *)
Definition kept_until_shown (r : res unit) (pre : list (event vmE)) (_ : event vmE) : Prop :=
  ∀ tag vmid, uniqueTag = Some tag → atoi vmidArg = Some vmid → r = Ok tt → shown targetID tag vmid pre.
Definition create_good (tr : list (event vmE)) (r : res unit) : Prop :=
  guarded v_changing create_allowed tr ∧ guarded v_releasing (kept_until_shown r) tr ∧ create_reported tr r.
Lemma create_stop tr r : none v_busy tr → is_ok r = false → create_good tr r.
Proof.
  intros Hb Hr. split; [by apply none_guarded, busy_changing|]. split; [by apply none_guarded, busy_releasing|]. by destruct r.
Qed.
(** What is done at the end adds nothing. *)
Lemma create_end tr tail r : none v_busy tail → create_good tr r → create_good (tr ++ tail) r.
Proof.
  intros Ht (Hg & Hk & Hr). split; [|split].
  - apply guarded_app; [done|by apply none_guarded, busy_changing].
  - apply guarded_app; [done|by apply none_guarded, busy_releasing].
  - intros Hok. destruct (Hr Hok) as (t & vmid & params & ? & Ho & Hp & Hc). exists t, vmid, params. split; [done|].
    split; [unfold opened in *; destruct uniqueTag; set_solver|]. split; [by apply params_given_app|].
    eapply host_created_mono, Hc. intros x Hx. rewrite v_pve_app. set_solver.
Qed.
Lemma own_tag tag params : uniqueTagIsOwn tag params = Ok tt →
  ∃ w, w ∈ split_by guestTagSplit (vget params "tags") ∧ equal_fold w tag = true.
Proof.
  unfold uniqueTagIsOwn. destruct (negb _); [|done]. destruct (negb _); [|done]. destruct (pveTagRE tag); [|done].
  destruct (existsb _ _) eqn:He; [|done]. intros _. apply existsb_exists in He as (w & Hw & ?). exists w.
  split; [by apply list_elem_of_In|done].
Qed.
Lemma close_good tr0 body :
  always body (λ tr r, create_good (tr0 ++ tr) r) → always (deferring VClose body) (λ tr r, create_good (tr0 ++ tr) r).
Proof.
  intros Hb. unfold deferring. eapply always_call; [exact Hb|]. intros tr r Hr. cbn. intros [].
  rewrite app_assoc. apply create_end; [by apply none_cons, none_nil|done].
Qed.
Section given.
Context (t : Target) (vmid : Z) (params : Values).
Context (Hid : atoi vmidArg = Some vmid) (Hpos : (1 ≤ vmid)%Z).
Lemma allowed_create tr0 tr : none v_busy tr0 → opened t tr0 → params_given params tr0 →
  guarded v_changing (λ pre x, vm_before t targetID vmid params pre x ∧ tag_unique params (tr0 ++ pre)) tr →
  guarded v_changing create_allowed (tr0 ++ tr).
Proof.
  intros Hb Ho Hp Hg. apply guarded_app; [by apply none_guarded, busy_changing|].
  eapply guarded_mono; [|exact Hg]. intros pre x [Hx Ht]. exists t, vmid, params. split_and!; [done|done| | |by apply vm_before_app; [apply busy_unlocking|]|done].
  - unfold opened in *. destruct uniqueTag; set_solver.
  - by apply params_given_app.
Qed.
Lemma reported_create tr0 tr (r : res unit) : opened t tr0 → params_given params tr0 →
  (r = Ok tt → host_created (Node t) vmid params (v_pve tr)) → create_reported (tr0 ++ tr) r.
Proof.
  intros Ho Hp Hr Hok. exists t, vmid, params. split; [done|]. split; [|split].
  - unfold opened in *. destruct uniqueTag; set_solver.
  - by apply params_given_app.
  - eapply host_created_mono, Hr, Hok. intros x Hx. rewrite v_pve_app. set_solver.
Qed.
Lemma plain_good tr0 :
  uniqueTag = None → none v_busy tr0 → opened t tr0 → params_given params tr0 →
  always (let? _ := trigger VResolve orelse id in let? _ := create_vm t targetID vmid params orelse id in Ret (Ok tt))
    (λ tr r, create_good (tr0 ++ tr) r).
Proof.
  intros Hno Hb Ho Hp. cbn [bind trigger always]. intros [[]|e]; cbn [bind always].
  2: { apply create_stop; [apply none_app; [done|by apply none_cons, none_nil]|done]. }
  set (ev := Ev VResolve _). assert (∀ tr, tr0 ++ ev :: tr = (tr0 ++ [ev]) ++ tr) as Hass by (intros tr; by rewrite <- app_assoc).
  assert (none v_busy (tr0 ++ [ev])) as Hb1 by (apply none_app; [done|by apply none_cons, none_nil]).
  assert (opened t (tr0 ++ [ev])) as Ho1 by (unfold opened in *; destruct uniqueTag; set_solver).
  pose proof (params_given_app _ _ [ev] Hp) as Hp1.
  eapply always_call; [by apply create_vm_spec|]. intros tr1 r1 (Hg & Hrel & Hdone).
  assert (∀ r : res unit, (r = Ok tt → host_created (Node t) vmid params (v_pve tr1)) → create_good (tr0 ++ ev :: tr1 ++ []) r) as Hend.
  { intros r Hr. rewrite app_nil_r, Hass. split; [|split].
    - apply allowed_create; [done..|]. eapply guarded_mono; [|exact Hg]. intros pre x Hx. split; [done|]. intros tag Htag. congruence.
    - apply none_guarded, none_app; [by apply busy_releasing|done].
    - by apply reported_create. }
  destruct r1 as [v|e]; cbn [bind always]; apply Hend; [|done]. intros _. by destruct (Hdone v eq_refl).
Qed.
Lemma unique_good tag tr0 :
  uniqueTag = Some tag → uniqueTagIsOwn tag params = Ok tt → none v_busy tr0 → opened t tr0 → params_given params tr0 →
  always (with_tag_lock t targetID tag vmid params) (λ tr r, create_good (tr0 ++ tr) r).
Proof.
  intros Htag Hown Hb Ho Hp. unfold with_tag_lock, deferring. cbn [bind trigger always].
  intros [[]|e]; cbn [bind always]; [|apply create_stop; [apply none_app; [done|by apply none_cons, none_nil]|done]].
  intros [[]|e]; cbn [bind always]; [|apply create_stop; [apply none_app; [done|by do 2 (apply none_cons; [done|]); apply none_nil]|done]].
  intros [[]|e]; cbn [bind always]; [|apply create_stop; [apply none_app; [done|by do 3 (apply none_cons; [done|]); apply none_nil]|done]].
  set (lk := Ev (VLock _) _). set (c1 := Ev VConnect _). set (c2 := Ev VResolve _).
  assert (∀ tr, tr0 ++ c1 :: c2 :: lk :: tr = (tr0 ++ [c1; c2; lk]) ++ tr) as Hass by (intros tr; by rewrite <- app_assoc).
  assert (none v_busy (tr0 ++ [c1; c2; lk])) as Hb1 by (apply none_app; [done|by do 3 (apply none_cons; [done|]); apply none_nil]).
  assert (opened t (tr0 ++ [c1; c2; lk])) as Ho1 by (unfold opened in *; destruct uniqueTag; set_solver).
  pose proof (params_given_app _ _ [c1; c2; lk] Hp) as Hp1.
  eapply always_call; [by apply create_unique_spec|]. intros tr1 r (Hg & Hrel & Hdone). cbn. intros []. rewrite Hass. split; [|split].
  - rewrite app_assoc. apply guarded_app; [|by apply none_guarded, none_cons, none_nil]. apply allowed_create; [done..|].
    eapply guarded_mono; [|exact Hg]. intros pre x (Hx & Hu & Hn). split; [done|]. intros tag' [= <-]%(eq_trans (eq_sym Htag)).
    split; [by apply own_tag|]. exists (tr0 ++ [c1; c2]), pre. by rewrite <- !app_assoc.
  - rewrite app_assoc. apply guarded_app; [apply none_guarded, none_app; [by apply busy_releasing|done]|].
    apply guarded_one. intros _ tag' vmid' Ht' Hv' Hok. rewrite Htag in Ht'. rewrite Hid in Hv'. injection Ht' as <-. injection Hv' as <-.
    rewrite app_nil_r. apply shown_r. by apply Hdone.
  - rewrite app_assoc. assert (create_reported ((tr0 ++ [c1; c2; lk]) ++ tr1) r) as Hrep.
    { apply reported_create; [done..|]. intros Hok. by apply Hdone. }
    intros Hok. destruct (Hrep Hok) as (t' & v & ps & ? & Ho' & Hp' & Hc). exists t', v, ps. split; [done|]. split; [|split].
    + unfold opened in *. destruct uniqueTag; set_solver.
    + by apply params_given_app.
    + eapply host_created_mono, Hc. intros x Hx. rewrite v_pve_app. set_solver.
Qed.
End given.
Lemma vm_create_good :
  always (vm_create targetID vmidArg kvArgs jsonBody jsonFile uniqueTag noSSHKey fingerprint) create_good.
Proof.
  unfold vm_create. eapply always_call; [apply vmCreateParams_spec|]. intros tr0 [params|e] [Hb Hex]; cbn [bind always].
  2: { rewrite app_nil_r. by apply create_stop. }
  assert (∀ tr, params_given params (tr0 ++ tr)) as Hgiven by (intros tr; apply params_given_app; by apply Hex).
  unfold atoi_vmid. destruct (atoi vmidArg) as [vmid|] eqn:Hid; cbn [bind always]; [|rewrite app_nil_r; by apply create_stop].
  destruct (create_flags _ _ _ _) as [[]|e] eqn:Hflags; cbn [bind always]; [|rewrite app_nil_r; by apply create_stop].
  destruct (vmid <? 1)%Z eqn:Hpos; cbn [negb always]; [rewrite app_nil_r; by apply create_stop|]. apply Z.ltb_ge in Hpos.
  destruct uniqueTag as [tag|] eqn:Htag; cbn [bind trigger always].
  - intros [[t has]|e]; cbn [bind always]; [|apply create_stop; [apply none_app; [done|by apply none_cons, none_nil]|done]].
    set (ev := Ev _ _). assert (none v_busy (tr0 ++ [ev])) as Hb1 by (apply none_app; [done|by apply none_cons, none_nil]).
    eapply always_mono; [|apply (close_good (tr0 ++ [ev]))].
    { intros tr r H. change (create_good ((tr0 ++ [ev]) ++ tr) r) in H. by rewrite <- app_assoc in H. }
    cbn [fst snd]. destruct has; [|cbn; rewrite app_nil_r; by apply create_stop].
    apply (unique_good t vmid params); try done. unfold opened. rewrite Htag. apply elem_of_app. right. by left.
  - intros [t|e]; cbn [bind always]; [|apply create_stop; [apply none_app; [done|by apply none_cons, none_nil]|done]].
    set (ev := Ev _ _). assert (none v_busy (tr0 ++ [ev])) as Hb1 by (apply none_app; [done|by apply none_cons, none_nil]).
    eapply always_mono; [|apply (close_good (tr0 ++ [ev]))].
    { intros tr r H. change (create_good ((tr0 ++ [ev]) ++ tr) r) in H. by rewrite <- app_assoc in H. }
    apply (plain_good t vmid params); try done. unfold opened. rewrite Htag. apply elem_of_app. right. by left.
Qed.
End command.


(** * Examples *)
Definition lab_guests (made : bool) (tags : string) : string := double_quoted (
  "[{'type':'lxc','vmid':9,'node':'pve1','tags':'" +:+ tags +:+ "'}"
  +:+ (if made then ",{'type':'qemu','vmid':100,'node':'pve1','tags':'web;Blue'}" else "") +:+ "]").
Definition lab_vm_pve (made : bool) : env pveE bool := λ R e,
  let down := errorf "down" in
  match e in pveE R return bool → R * bool with
  | Http m p _ => λ s,
      if eqb m "POST" then (HResp 200 "200 OK" (double_quoted "{'data':'UPID:pve1:0000A1B2:00C3D4E5:65F00000:qmcreate:100:root@pam:'}"), true)
      else (HTransport down, s)
  | PcString _ => λ s, (Ok "100", s)
  | PcVMStatus _ => λ s, (if s then Ok {| vs_status := "stopped"; vs_qmpstatus := "stopped" |} else Er down, s)
  | PcVMConfig _ => λ s, (Ok (Some {| vc_digest := "d"; vc_tags := "web;Blue"; vc_hookscript := "" |}), s)
  | PcNewTask _ => λ s, (Some "pve1", s)
  | PcTask _ => λ s, (Ok ("stopped", "OK"), s)
  | Select => λ s, (WTick, s)
  | PcSnapshots _ => λ s, (Er down, s) | PcContent _ => λ s, (Er down, s) | PcStorage _ => λ s, (Er down, s)
  | PcVMs _ => λ s, (Er down, s) | PcResources => λ s, (Er down, s) | PcRawMap _ => λ s, (Er down, s)
  | PcStoragePath _ => λ s, (Er down, s)
  | CtxErr => λ s, (None, s)
  | Warn _ _ _ => λ s, (tt, s)
  end.
(** Another guest carries [tags]; the log is of the locks, of root's commands and of the VM made. *)
Definition lab_create_env (tags : string) : env vmE (bool * list string) := λ R e,
  let down := errorf "down" in
  match e in vmE R return bool * list string → R * (bool * list string) with
  | VOpenRoot t => λ s, (Ok ({| target_ID := t; Host := "h"; Node := "pve1"; SSH := None |}, true), s)
  | VOpen t => λ s, (Ok {| target_ID := t; Host := "h"; Node := "pve1"; SSH := None |}, s)
  | VConnect => λ s, (Ok tt, s) | VResolve => λ s, (Ok tt, s) | VClose => λ s, (tt, s)
  | VLock k => λ s, (Ok tt, (s.1, ("lock " +:+ key_String k) :: s.2)) | VReadLock _ => λ s, (Ok tt, s)
  | VUnlock => λ s, (tt, (s.1, "unlock the tag" :: s.2))
  | VReadFile _ => λ s, (Er down, s)
  | VCtx => λ s, (None, s) | VSelect => λ s, (WTick, s)
  | VRoot e => match e in rootE R return bool * list string → R * (bool * list string) with
               | RRun _ _ => λ s, (Ok {| Stdout := lab_guests s.1 tags; Stderr := ""; ExitCode := 0 |}, (s.1, "list the guests" :: s.2))
               | RListUsers => λ s, (Er down, s) | RListGroups => λ s, (Er down, s)
               end
  | VHost e => match e in hostE R return bool * list string → R * (bool * list string) with
               | HPve e => λ s, let r := lab_vm_pve s.1 _ e s.1 in
                   (r.1, (r.2, if negb s.1 && r.2 then "make the VM" :: s.2 else s.2))
               | HLock k => λ s, (Ok tt, (s.1, ("lock " +:+ key_String k) :: s.2))
               | HUnlock => λ s, (tt, (s.1, "unlock the VM" :: s.2))
               | HSsh e => match e in sshE R return bool * list string → R * (bool * list string) with
                           | SRun _ => λ s, (Er down, s)
                           end
               | HDecrypt _ => λ s, (Er down, s) | HDial _ _ _ _ => λ s, (Er down, s) | HClose => λ s, (tt, s)
               end
  | VOut _ => λ s, (Ok tt, s) | VNote _ => λ s, (tt, s) | VRender _ _ => λ s, (Ok tt, s)
  end.
Definition lab_create (tags tag : string) : option (res unit * list string) :=
  match run (lab_create_env tags) (vm_create "pve1" "100" ["cores=2"; "tags=web;Blue"] "" "" (Some tag) false false) (false, []) with
  | Some (_, r, s) => Some (r, reverse s.2)
  | None => None
  end.
Example create_unique_runs :
  lab_create "db" "blue" = Some (Ok tt,
    ["lock pve1/vm-tag/blue"; "list the guests"; "lock pve1/vm/100"; "make the VM"; "unlock the VM"; "list the guests"; "unlock the tag"]).
Proof. vm_compute. reflexivity. Qed.
Example create_unique_refuses :
  lab_create "db;BLUE" "blue" = Some (Er (errorf
    "vm create: tag blue is already carried by ct 9; refusing to create another (--unique-tag)"),
    ["lock pve1/vm-tag/blue"; "list the guests"; "unlock the tag"]) ∧
  lab_create "db" "green" = Some (Er (errorf "vm create: --unique-tag green is not one of this create's tags (tags=web;Blue)"), []).
Proof. split; vm_compute; reflexivity. Qed.
