(* ===== verification/ApiCmd.v ===== *)
(** cmd/pveforge/api.go, api_node.go, api_object_key.go: the raw [api get|post|put|delete], and
    which object a path names, whose lock it takes. *)
From Stdlib Require Import Ascii.
From S2P Require Import Prelude GoLib Errors Json KvJson Rest Vms Task Snapshot OpRun Client.
From S2P Require Import VmLife Routed FreeOrphans GuestAgent VmCmd.

(** ** api_object_key.go *)
(** An optional slash and anything, of the segments that follow: a dot matches no newline. *)
Definition one_line (s : string) : bool := negb (any_byte (is_byte 10) s).
Definition tail_ok (rest : list string) : bool := forallb one_line rest.
Definition segment (s : string) : bool := negb (eqb s "").
Definition digits (s : string) : bool := segment s && all_bytes is_digit s.
Definition network_tail (rest : list string) : bool :=
  match rest with [] => true | iface :: rest' => segment iface && tail_ok rest' || tail_ok rest end.
(** The kind and the captured id, of the path's segments. *)
Definition match_object (segs : list string) : option (string * string) :=
  match segs with
  | "" :: "nodes" :: n :: "qemu" :: d :: rest =>
      if segment n && digits d && tail_ok rest then Some ("vm", d) else None
  | "" :: "nodes" :: n :: "storage" :: s :: rest =>
      if segment n && segment s && tail_ok rest then Some ("storage", s) else None
  | "" :: "storage" :: s :: rest => if segment s && tail_ok rest then Some ("storage", s) else None
  | "" :: "nodes" :: n :: "network" :: rest => if segment n && network_tail rest then Some ("network", n) else None
  | ["" ; "nodes"; n] | ["" ; "nodes"; n; "status"] => if segment n then Some ("node", n) else None
  | _ => None
  end.
Definition slash : ascii := byte 47.
Definition apiObjectKey (targetID path : string) : option ObjectKey :=
  match match_object (Split slash path) with
  | Some (kind, id) =>
      if eqb kind "vm" then
        match atoi id with Some n => Some {| TargetID := targetID; Kind := kind; ID := itoa n |} | None => None end
      else Some {| TargetID := targetID; Kind := kind; ID := id |}
  | None => None
  end.
(** ** api_node.go *)
Definition apiPathNode (path : string) : option string :=
  match Split slash path with
  | "" :: "nodes" :: n :: _ => if segment n then Some n else None
  | _ => None
  end.

(** ** api.go *)
(** [AOpen] is [resolveRoutedClient]; the client's raw requests and its wait are exchanges with
    PVE. A deadline of [--wait-timeout] is one more way in which a wait's select can end. *)
Inductive apiE : Type → Type :=
| ARoster : apiE (res unit)
| AOpen (targetID : string) : apiE (res unit)
| AClose : apiE unit
| ALock (key : ObjectKey) : apiE (res unit)
| AReadLock (key : ObjectKey) : apiE (res unit)
| AUnlock : apiE unit
| APve {R} (e : pveE R) : apiE R
| ANote (line : string) : apiE unit
| ARender (f : Format) (j : json) : apiE (res unit).
Definition validateAPIWaitFlags (noWait : bool) (waitTimeout : Z) (timeoutSet : bool) : res unit :=
  guard^ negb (waitTimeout <? 0)%Z orelse errorf ("--wait-timeout must not be negative, got " +:+ duration_String waitTimeout) in
  guard^ negb (600 * 1000000000 <? waitTimeout)%Z orelse
    errorf ("--wait-timeout " +:+ duration_String waitTimeout +:+ " exceeds the 10m0s ceiling on waiting for a PVE task") in
  guard^ negb (noWait && timeoutSet) orelse errorf "--no-wait and --wait-timeout are mutually exclusive" in
  Ok tt.
Fixpoint add_pairs (v : Values) (pairs : list Pair) : Values :=
  match pairs with [] => v | p :: pairs' => add_pairs (vadd v (Field p) (Value p)) pairs' end.
Definition parseDataParams (dataPairs : list string) : res Values :=
  let^ pairs := ParseKVArgs dataPairs orelse wrapf "parse --data" in Ok (add_pairs ∅ pairs).
Definition responseUPID (method : string) (result : json) : option string :=
  if eqb method "GET" then None
  else match as_string result with Some s => if has_prefix "UPID:" s then Some s else None | None => None end.
Definition task_node (rawPath upid : string) : string :=
  match apiPathNode rawPath with
  | Some n => n
  | None => match UPIDNode upid with Ok n => n | Er _ => "" end
  end.
Definition waitForAPITask (rawPath upid : string) : io pveE (res unit) := WaitForTask (task_node rawPath upid) upid.
Definition isJSONObject (raw : json) : bool := match raw with JObj _ => true | _ => false end.
Definition api_output (f : Format) (result : json) : json :=
  match f with KV => if isJSONObject result then result else JObj [("data", result)] | JSON => result end.
Definition unmanaged (rawPath : string) : err :=
  errorf ("path " +:+ quote rawPath +:+ " does not match a known pveforge-managed object type (vm/node/storage/network); pass --unsafe-no-lock to proceed without internal/lock protection").
Definition unlocked_warning (rawPath : string) : string :=
  "warning: path " +:+ quote rawPath +:+ " does not match a known pveforge-managed object type — proceeding WITHOUT internal/lock protection (--unsafe-no-lock); concurrent pveforge mutations against this target/path are not serialized".
Definition no_wait_notice (key : option ObjectKey) (upid : string) : string :=
  match key with
  | Some k => "notice: --no-wait: not waiting for task " +:+ QuoteValue upid +:+ "; the lock on " +:+ key_String k
      +:+ " is released now, before the task finishes, so a concurrent pveforge mutation of the same object is no longer serialized against it"
  | None => "notice: --no-wait: not waiting for task " +:+ QuoteValue upid +:+ "; its outcome is not checked"
  end.
(** The request, the task it may begin, and the output, under whatever lock there is. *)
Definition api_request (method : string) (f : Format) (rawPath : string) (params : Values) (noWait : bool) (key : option ObjectKey)
    : io apiE (res unit) :=
  let? result := lift (@APve) (RawRequest method rawPath params) orelse id in
  let? _ := (match responseUPID method result with
             | None => Ret (Ok tt)
             | Some upid =>
                 let! _ := trigger (ANote ("dispatched PVE task " +:+ QuoteValue upid)) in
                 if noWait then let! _ := trigger (ANote (no_wait_notice key upid)) in Ret (Ok tt)
                 else lift (@APve) (waitForAPITask rawPath upid)
             end) orelse id in
  trigger (ARender f (api_output f result)).
Definition closing (e : apiE unit) (body : io apiE (res unit)) : io apiE (res unit) :=
  let! r := body in let! _ := trigger e in Ret r.
Definition api_locked (method : string) (f : Format) (targetID rawPath : string) (params : Values) (unsafeNoLock noWait : bool)
    : io apiE (res unit) :=
  let go := api_request method f rawPath params noWait in
  match apiObjectKey targetID rawPath with
  | Some key =>
      let? _ := trigger (if eqb method "GET" then AReadLock key else ALock key) orelse wrapf ("acquire lock for " +:+ key_String key) in
      closing AUnlock (go (Some key))
  | None =>
      if eqb method "GET" then go None
      else
        guard unsafeNoLock orelse unmanaged rawPath in
        let! _ := trigger (ANote (unlocked_warning rawPath)) in
        go None
  end.
(** [waitTimeout] is in nanoseconds, and zero where the flag was not given. *)
Definition api_verb (method format rawPath targetID : string) (dataPairs : list string)
    (unsafeNoLock noWait : bool) (waitTimeout : Z) (timeoutSet : bool) : io apiE (res unit) :=
  let? _ := Ret (if eqb method "GET" then Ok tt else validateAPIWaitFlags noWait waitTimeout timeoutSet) orelse id in
  let? f := Ret (ParseFormat format) orelse id in
  let? params := Ret (parseDataParams dataPairs) orelse id in
  let? _ := trigger ARoster orelse id in
  let? _ := trigger (AOpen targetID) orelse id in
  closing AClose (api_locked method f targetID rawPath params unsafeNoLock noWait).

(** * Specification *)
(** What a trace sent to PVE, which of it changes something, and what ends a lock. *)
Definition a_pve (tr : list (event apiE)) : list (event pveE) :=
  omap (λ ev : event apiE, match ev with @Ev _ R (APve e) r => Some (Ev e r) | _ => None end) tr.
Definition a_sends (ev : event apiE) : bool :=
  match ev with @Ev _ _ (APve e) r => match mutation (Ev e r) with Some _ => true | None => false end | _ => false end.
Definition a_unlocks (ev : event apiE) : bool := match ev with Ev AUnlock _ => true | _ => false end.
Definition a_shows (ev : event apiE) : bool := match ev with Ev (ARender _ _) _ => true | _ => false end.
Definition shown (tr : list (event apiE)) : Prop := ∃ f j, Ev (ARender f j) (Ok tt) ∈ tr.
(** A path that names an object, as the table's expressions read it. *)
Definition one_segment (s : string) : Prop := s ≠ "" ∧ any_byte (is_byte 47) s = false.
Definition tail (t : string) : Prop := t = "" ∨ ∃ rest, t = "/" +:+ rest ∧ any_byte (is_byte 10) rest = false.
Inductive names (targetID : string) : string → ObjectKey → Prop :=
| names_vm n d v t : one_segment n → d ≠ "" → all_bytes is_digit d = true → atoi d = Some v → tail t →
    names targetID ("/nodes/" +:+ n +:+ "/qemu/" +:+ d +:+ t) (vm_key targetID v)
| names_node_storage n s t : one_segment n → one_segment s → tail t →
    names targetID ("/nodes/" +:+ n +:+ "/storage/" +:+ s +:+ t) {| TargetID := targetID; Kind := "storage"; ID := s |}
| names_storage s t : one_segment s → tail t →
    names targetID ("/storage/" +:+ s +:+ t) {| TargetID := targetID; Kind := "storage"; ID := s |}
| names_network n i t : one_segment n → (i = "" ∨ ∃ x, i = "/" +:+ x ∧ one_segment x) → tail t →
    names targetID ("/nodes/" +:+ n +:+ "/network" +:+ i +:+ t) {| TargetID := targetID; Kind := "network"; ID := n |}
| names_node n t : one_segment n → t = "" ∨ t = "/status" →
    names targetID ("/nodes/" +:+ n +:+ t) {| TargetID := targetID; Kind := "node"; ID := n |}.

(** What protects the request: the lock of the object that the path names, taken and not yet
    released, or, for a path that names none, the caller's word and a warning. *)
Definition protected (method targetID rawPath : string) (unsafeNoLock : bool) (pre : list (event apiE)) : Prop :=
  (∃ key, names targetID rawPath key ∧
     Ev (if eqb method "GET" then AReadLock key else ALock key) (Ok tt) ∈ pre ∧ none a_unlocks pre) ∨
  ((∀ key, ¬ names targetID rawPath key) ∧
   (method = "GET" ∨ unsafeNoLock = true ∧ Ev (ANote (unlocked_warning rawPath)) tt ∈ pre)).
(** The data given, each field with all its values in order. *)
Definition data_given (dataPairs : list string) (params : Values) : Prop :=
  ∃ pairs, kv_args dataPairs pairs ∧ collected pairs params.
(** The one request of an invocation. *)
Definition the_request (method rawPath : string) (dataPairs : list string) (x : event apiE) : Prop :=
  ∃ params hr, data_given dataPairs params ∧ x = Ev (APve (Http method rawPath params)) hr.
(** A request that is not a GET began a task when PVE answered it with a UPID. *)
Definition begins (method : string) (result : json) (upid : string) : Prop :=
  method ≠ "GET" ∧ result = JStr upid ∧ ∃ rest, upid = "UPID:" +:+ rest.
(** PVE answered the request, and the task it began, if any and if it is waited for, ended well. *)
Definition served (method rawPath : string) (dataPairs : list string) (noWait : bool) (pre : list (event apiE)) : Prop :=
  ∃ params hr result, data_given dataPairs params ∧ Ev (APve (Http method rawPath params)) hr ∈ pre ∧ answered hr result ∧
    ∀ upid, begins method result upid → noWait = true ∨
      ∃ exit, exit_good exit ∧ Ev (PcTask upid) (Ok ("stopped", exit)) ∈ a_pve pre.

(** * Lemmas *)
Lemma responseUPID_iff method j upid : responseUPID method j = Some upid ↔ begins method j upid.
Proof.
  unfold responseUPID, begins. destruct (eqb method "GET") eqn:Hm; [apply eqb_true in Hm; naive_solver|apply eqb_false in Hm].
  split.
  - destruct j; cbn; try done. destruct (has_prefix "UPID:" s) eqn:Hp; [|done]. intros [= <-].
    split_and!; [done..|]. by apply has_prefix_spec.
  - intros (_ & -> & t & ->). cbn [as_string]. by rewrite has_prefix_app.
Qed.
Lemma add_pairs_added v pairs : added v pairs (add_pairs v pairs).
Proof. revert v. induction pairs as [|p pairs IH]; intros v; [apply added_nil|]. by apply added_cons, IH. Qed.
Lemma parseDataParams_given dataPairs params : parseDataParams dataPairs = Ok params → data_given dataPairs params.
Proof.
  unfold parseDataParams. rewrite call_iff. intros (pairs & Hp%ParseKVArgs_iff & [= <-]). exists pairs.
  split; [done|]. apply added_collected, add_pairs_added.
Qed.
Lemma outcome_ended node upid tr : outcome node upid tr (Ok tt) →
  ∃ exit, exit_good exit ∧ Ev (PcTask upid) (Ok ("stopped", exit)) ∈ tr.
Proof.
  intros (exit & Hx & t & ->). exists exit. split; [by apply exit_good_iff|]. apply elem_of_app. right. by left.
Qed.
Lemma slash_byte : Ascii.N_of_ascii slash = 47%N. Proof. reflexivity. Qed.
Lemma Split_seg s t : any_byte (is_byte 47) s = false → Split slash (s +:+ "/" +:+ t) = s :: Split slash t.
Proof. intros H. change ("/" +:+ t) with (String slash t). by apply Split_nosep. Qed.
Lemma Split_last s : any_byte (is_byte 47) s = false → Split slash s = [s].
Proof. intros H. apply (Split_Join [s] slash); [done|]. by constructor. Qed.
Lemma Split_inv s h l : Split slash s = h :: l →
  any_byte (is_byte 47) h = false ∧ match l with [] => s = h | _ => ∃ t, s = h +:+ "/" +:+ t ∧ Split slash t = l end.
Proof.
  revert h l. induction s as [|d s IH]; intros h l; cbn [Split]; [by intros [= <- <-]|].
  case_bool_decide as Hd.
  - subst d. intros [= <- <-]. split; [done|]. destruct (Split slash s) eqn:Hs; [by apply Split_nonempty in Hs|]. by exists s.
  - destruct (Split slash s) as [|h0 l0] eqn:Hs; intros [= <- <-].
    + by apply Split_nonempty in Hs.
    + destruct (IH h0 l0 eq_refl) as [Hh Hl]. split.
      * simpl. rewrite Hh, orb_false_r. unfold is_byte, byte. rewrite <- slash_byte, Ascii.ascii_N_embedding. by apply bool_decide_eq_false.
      * destruct l0 as [|x l0]; [by subst|]. destruct Hl as (t & -> & Ht). by exists t.
Qed.
Lemma tail_split t : tail t → t = "" ∨ ∃ rest, t = "/" +:+ rest ∧ tail_ok (Split slash rest) = true.
Proof.
  intros [->|(rest & -> & Hr)]; [by left|]. right. exists rest. split; [done|]. unfold tail_ok.
  revert Hr. induction rest as [|d rest IH]; [done|]. cbn [any_byte Split]. intros [Hd Hr]%orb_false_iff. specialize (IH Hr).
  case_bool_decide; [by cbn|]. destruct (Split slash rest) as [|h l]; cbn in IH |- *; unfold one_line in *; cbn.
  - by rewrite Hd.
  - apply andb_true_iff in IH as [H1 H2]. apply negb_true_iff in H1. by rewrite Hd, H1, H2.
Qed.
Lemma split_tail rest : tail_ok (Split slash rest) = true → any_byte (is_byte 10) rest = false.
Proof.
  unfold tail_ok. induction rest as [|d rest IH]; [done|]. cbn [any_byte Split].
  case_bool_decide as Hd; [subst d; cbn; exact IH|]. destruct (Split slash rest) as [|h l]; cbn; unfold one_line in *; cbn.
  - destruct (is_byte 10 d) eqn:H; cbn; [done|]. intros _. apply IH. done.
  - destruct (is_byte 10 d) eqn:H; cbn; [done|]. intros H2. apply IH. exact H2.
Qed.
Lemma segment_iff s : segment s = true ↔ s ≠ "".
Proof. unfold segment. rewrite negb_true_iff. split; [by intros H%eqb_false|by intros H; apply eqb_false]. Qed.
Lemma digit_no_slash d : all_bytes is_digit d = true → any_byte (is_byte 47) d = false.
Proof.
  induction d as [|c d IH]; [done|]. cbn [all_bytes any_byte]. intros [Hc Hd]%andb_true_iff. rewrite (IH Hd), orb_false_r.
  destruct c as [[] [] [] [] [] [] [] []]; first [done|discriminate Hc].
Qed.
Lemma Split_nodes n x : one_segment n → Split slash ("/nodes/" +:+ n +:+ "/" +:+ x) = "" :: "nodes" :: n :: Split slash x.
Proof.
  intros [_ Hn]. change ("/nodes/" +:+ n +:+ "/" +:+ x) with ("" +:+ "/" +:+ "nodes" +:+ "/" +:+ n +:+ "/" +:+ x).
  by rewrite !Split_seg.
Qed.
(** What is split off, and the tail after it. *)
Lemma Split_tail s t : any_byte (is_byte 47) s = false → tail t →
  ∃ rest, Split slash (s +:+ t) = s :: rest ∧ tail_ok rest = true.
Proof.
  intros Hs [->|(rest & -> & Hr)]%tail_split.
  - exists []. split; [|done]. rewrite str_app_nil_r. by apply Split_last.
  - exists (Split slash rest). split; [by apply Split_seg|done].
Qed.
Lemma tail_Split s l path : Split slash path = s :: l → tail_ok l = true →
  any_byte (is_byte 47) s = false ∧ ∃ t, path = s +:+ t ∧ tail t.
Proof.
  intros H Hl. apply Split_inv in H as [Hs H]. split; [done|]. destruct l as [|x l].
  - exists "". rewrite str_app_nil_r. split; [done|by left].
  - destruct H as (t & -> & Ht). exists ("/" +:+ t). split; [done|]. right. exists t. split; [done|]. apply split_tail. by rewrite Ht.
Qed.
Lemma names_key targetID path key : names targetID path key → apiObjectKey targetID path = Some key.
Proof.
  unfold apiObjectKey. destruct 1 as [n d v t Hn Hd Hdig Hv Ht|n s t Hn Hs Ht|s t Hs Ht|n i t Hn Hi Ht|n t Hn Ht].
  - change ("/qemu/" +:+ d +:+ t) with ("/" +:+ "qemu" +:+ "/" +:+ d +:+ t). rewrite Split_nodes, Split_seg by done.
    destruct (Split_tail d t) as (rest & -> & Hr); [by apply digit_no_slash|done|]. cbn [match_object].
    rewrite (proj2 (segment_iff n)) by apply Hn. unfold digits. rewrite (proj2 (segment_iff d)), Hdig, Hr by done. cbn. by rewrite Hv.
  - change ("/storage/" +:+ s +:+ t) with ("/" +:+ "storage" +:+ "/" +:+ s +:+ t). rewrite Split_nodes, Split_seg by done.
    destruct (Split_tail s t) as (rest & -> & Hr); [by apply Hs|done|]. cbn [match_object].
    rewrite (proj2 (segment_iff n)), (proj2 (segment_iff s)), Hr by (apply Hn || apply Hs). done.
  - change ("/storage/" +:+ s +:+ t) with ("" +:+ "/" +:+ "storage" +:+ "/" +:+ s +:+ t). rewrite !Split_seg by done.
    destruct (Split_tail s t) as (rest & -> & Hr); [by apply Hs|done|]. cbn [match_object].
    rewrite (proj2 (segment_iff s)), Hr by apply Hs. done.
  - change ("/network" +:+ i +:+ t) with ("/" +:+ "network" +:+ i +:+ t). rewrite Split_nodes by done.
    assert (∃ rest, Split slash ("network" +:+ i +:+ t) = "network" :: rest ∧ network_tail rest = true) as (rest & -> & Hr).
    { destruct Hi as [->|(x & -> & Hx)].
      - destruct (Split_tail "network" t eq_refl Ht) as (rest & Heq & Hr). exists rest. split; [exact Heq|].
        destruct rest; cbn [network_tail]; [done|]. by rewrite Hr, orb_true_r.
      - change ("network" +:+ ("/" +:+ x) +:+ t) with ("network" +:+ "/" +:+ x +:+ t). rewrite Split_seg by done.
        destruct (Split_tail x t) as (rest & -> & Hr); [by apply Hx|done|]. exists (x :: rest). split; [done|]. cbn [network_tail].
        by rewrite (proj2 (segment_iff x)), Hr by apply Hx. }
    cbn [match_object]. rewrite (proj2 (segment_iff n)), Hr by apply Hn. done.
  - destruct Hn as [Hne Hn]. change ("/nodes/" +:+ n +:+ t) with ("" +:+ "/" +:+ "nodes" +:+ "/" +:+ n +:+ t). rewrite !Split_seg by done.
    destruct Ht as [->| ->].
    + rewrite str_app_nil_r, Split_last by done. cbn [match_object]. by rewrite (proj2 (segment_iff n)).
    + change "/status" with ("/" +:+ "status"). rewrite Split_seg, Split_last by done. cbn [match_object].
      by rewrite (proj2 (segment_iff n)).
Qed.


Lemma match_object_inv segs k id : match_object segs = Some (k, id) →
  (∃ n rest, segs = "" :: "nodes" :: n :: "qemu" :: id :: rest ∧ k = "vm" ∧ segment n = true ∧ digits id = true ∧ tail_ok rest = true) ∨
  (∃ n rest, segs = "" :: "nodes" :: n :: "storage" :: id :: rest ∧ k = "storage" ∧ segment n = true ∧ segment id = true ∧ tail_ok rest = true) ∨
  (∃ rest, segs = "" :: "storage" :: id :: rest ∧ k = "storage" ∧ segment id = true ∧ tail_ok rest = true) ∨
  (∃ rest, segs = "" :: "nodes" :: id :: "network" :: rest ∧ k = "network" ∧ segment id = true ∧ network_tail rest = true) ∨
  ((segs = [""; "nodes"; id] ∨ segs = [""; "nodes"; id; "status"]) ∧ k = "node" ∧ segment id = true).
Proof.
  intros H. unfold match_object in H.
  repeat (match type of H with context [match ?x with _ => _ end] => is_var x; destruct x; try discriminate H end);
    (match type of H with (if ?b then _ else _) = _ => destruct b eqn:Hb end; [|discriminate H]);
    injection H as <- <-; rewrite ?andb_true_iff in Hb; naive_solver.
Qed.

(** A path under [/nodes], from its segments. *)
Lemma Split_nodes_inv path n l x : Split slash path = "" :: "nodes" :: n :: x :: l →
  any_byte (is_byte 47) n = false ∧ ∃ t, path = "/nodes/" +:+ n +:+ "/" +:+ t ∧ Split slash t = x :: l.
Proof.
  intros H. apply Split_inv in H as (_ & t1 & -> & H). apply Split_inv in H as (_ & t2 & -> & H).
  apply Split_inv in H as (Hn & t3 & -> & H). split; [done|]. by exists t3.
Qed.
Lemma key_names targetID path key : apiObjectKey targetID path = Some key → names targetID path key.
Proof.
  unfold apiObjectKey. destruct (match_object (Split slash path)) as [[k id]|] eqn:Hm; [|done].
  apply match_object_inv in Hm as
    [(n & rest & H & -> & Hn%segment_iff & Hd & Ht)|[(n & rest & H & -> & Hn%segment_iff & Hs%segment_iff & Ht)|
    [(rest & H & -> & Hs%segment_iff & Ht)|[(rest & H & -> & Hs%segment_iff & Ht)|([H|H] & -> & Hs%segment_iff)]]]]; cbn.
  - unfold digits in Hd. apply andb_true_iff in Hd as [Hd%segment_iff Hdig]. destruct (atoi id) as [v|] eqn:Hv; [|done]. intros [= <-].
    apply Split_nodes_inv in H as (Hnn & t & -> & H). apply Split_inv in H as (_ & t' & -> & H).
    apply tail_Split in H as (_ & tl & -> & Htl); [|done]. by apply (names_vm targetID n id v tl).
  - intros [= <-]. apply Split_nodes_inv in H as (Hnn & t & -> & H). apply Split_inv in H as (_ & t' & -> & H).
    apply tail_Split in H as (Hss & tl & -> & Htl); [|done]. by apply (names_node_storage targetID n id tl).
  - intros [= <-]. apply Split_inv in H as (_ & t & -> & H). apply Split_inv in H as (_ & t' & -> & H).
    apply tail_Split in H as (Hss & tl & -> & Htl); [|done]. by apply (names_storage targetID id tl).
  - intros [= <-]. apply Split_nodes_inv in H as (Hnn & t & -> & H). destruct rest as [|i rest].
    + apply Split_inv in H as [_ ->]. apply (names_network targetID id "" ""); [done|by left|by left].
    + cbn [network_tail] in Ht. apply orb_true_iff in Ht as [[Hi%segment_iff Ht]%andb_true_iff|Ht].
      * apply Split_inv in H as (_ & t' & -> & H). apply tail_Split in H as (Hii & tl & -> & Htl); [|done].
        apply (names_network targetID id ("/" +:+ i) tl); [done| |done]. right. by exists i.
      * apply tail_Split in H as (_ & tl & -> & Htl); [|done].
        apply (names_network targetID id "" tl); [done|by left|done].
  - intros [= <-]. apply Split_inv in H as (_ & t & -> & H). apply Split_inv in H as (_ & t' & -> & H).
    apply Split_inv in H as [Hn ->]. rewrite <- (str_app_nil_r id) at 1. apply (names_node targetID id ""); [done|by left].
  - intros [= <-]. apply Split_nodes_inv in H as (Hnn & t & -> & H). apply Split_inv in H as [_ ->].
    apply (names_node targetID id "/status"); [done|by right].
Qed.


(** ** The request *)
Lemma a_pve_app tr tr' : a_pve (tr ++ tr') = a_pve tr ++ a_pve tr'.
Proof. apply omap_app. Qed.
Lemma a_pve_lift tr : a_pve (lift_event (@APve) <$> tr) = tr.
Proof. induction tr as [|[R e r] tr IH]; [done|]. unfold a_pve in *. cbn. by rewrite IH. Qed.
(** What a program of the client does. *)
Definition a_busy (ev : event apiE) : bool := a_sends ev || a_unlocks ev || a_shows ev.
Lemma lift_quiet tr : mutations tr = [] → none a_busy (lift_event (@APve) <$> tr).
Proof.
  intros Hm y (ev & -> & Hev)%list_elem_of_fmap. destruct ev as [R e r]. change (a_busy _) with (a_sends (Ev (APve e) r) || false || false).
  rewrite !orb_false_r. cbn [a_sends]. destruct (mutation (Ev e r)) as [x|] eqn:Hx; [|done]. exfalso.
  assert (x ∈ mutations tr) as Hin; [apply list_elem_of_omap; by exists (Ev e r)|]. rewrite Hm in Hin. by apply elem_of_nil in Hin.
Qed.
Lemma lift_no_unlock tr : none a_unlocks (lift_event (@APve) <$> tr).
Proof. by intros y ([R e r] & -> & _)%list_elem_of_fmap. Qed.
Section request.
Context (method rawPath targetID : string) (dataPairs : list string) (params : Values) (noWait unsafeNoLock : bool).
Context (Hparams : data_given dataPairs params).
Notation served := (served method rawPath dataPairs noWait).
Notation the_request := (the_request method rawPath dataPairs).
(** The parts of a run: the request, the wait and its notes, the output. *)
Definition parts (tr : list (event apiE)) (r : res unit) : Prop :=
  ∃ t1 t2 t3, tr = t1 ++ t2 ++ t3 ∧ (t1 = [] ∨ ∃ hr, t1 = [Ev (APve (Http method rawPath params)) hr]) ∧ none a_busy t2 ∧
    (t3 = [] ∧ r ≠ Ok tt ∨ ∃ f j, t3 = [Ev (ARender f j) r] ∧ served (t1 ++ t2)).
Lemma request_parts f key : always (api_request method f rawPath params noWait key) parts.
Proof.
  unfold api_request. eapply always_call; [apply lift_spec, RawRequest_spec|].
  intros tr r (t0 & -> & Hr). destruct r as [j|e]; cbn [always].
  2: { rewrite app_nil_r. exists (lift_event (@APve) <$> t0), [], []. rewrite !app_nil_r. split_and!; [done| |apply none_nil|by left].
       destruct Hr as [[-> _]|(hr & -> & _)]; [by left|right; by exists hr]. }
  destruct Hr as [[_ [=]]|(hr & -> & Ha)]. specialize (Ha j eq_refl).
  assert (∀ t2 r, none a_busy t2 → (∀ upid, responseUPID method j = Some upid →
      noWait = true ∨ ∃ exit, exit_good exit ∧ Ev (PcTask upid) (Ok ("stopped", exit)) ∈ a_pve t2) →
      parts ((lift_event (@APve) <$> [Ev (Http method rawPath params) hr]) ++ t2 ++ [Ev (ARender f (api_output f j)) r]) r) as Hend.
  { intros t2 r Ht Ho. do 3 eexists. split; [reflexivity|]. split_and!; [right; by exists hr|done|right].
    do 2 eexists. split; [reflexivity|]. exists params, hr, j. split_and!; [done|set_solver|done|]. intros upid Hu.
    destruct (Ho upid (proj2 (responseUPID_iff _ _ _) Hu)) as [H|(exit & ? & ?)]; [by left|right]. exists exit.
    split; [done|]. rewrite a_pve_app. set_solver. }
  destruct (responseUPID method j) as [upid|] eqn:Hu; cbn [bind trigger always].
  - intros []. destruct noWait eqn:Hn; cbn [bind trigger always].
    + intros [] r. apply (Hend [Ev (ANote _) tt; Ev (ANote _) tt]); [by do 2 (apply none_cons; [done|]); apply none_nil|auto].
    + eapply always_call; [apply lift_spec, WaitForTask_spec|]. intros tr2 w (t2 & -> & Hm & Ho).
      pose proof (lift_quiet _ Hm) as Hq. destruct w as [[]|e]; cbn [bind trigger always].
      * intros r. apply (Hend (Ev (ANote _) tt :: (lift_event (@APve) <$> t2))); [by apply none_cons|].
        intros u [= ->]. right. change (a_pve (Ev (ANote _) tt :: ?l)) with (a_pve l). rewrite a_pve_lift. by eapply outcome_ended.
      * rewrite app_nil_r. do 2 eexists. exists []. split; [rewrite app_nil_r; reflexivity|].
        split_and!; [right; by exists hr|by apply none_cons|by left].
  - intros r. apply (Hend []); [apply none_nil|done].
Qed.
End request.
(** ** The invocation *)
Lemma busy_parts sel tr : (∀ x, sel x = true → a_busy x = true) → none a_busy tr → none sel tr.
Proof. intros Hs H x Hx. destruct (sel x) eqn:He; [|done]. by rewrite <- (H x Hx), Hs. Qed.
Lemma sends_busy x : a_sends x = true → a_busy x = true.
Proof. unfold a_busy. by intros ->. Qed.
Lemma shows_busy x : a_shows x = true → a_busy x = true.
Proof. unfold a_busy. intros ->. by rewrite orb_true_r. Qed.
Lemma unlocks_busy x : a_unlocks x = true → a_busy x = true.
Proof. unfold a_busy. intros ->. by rewrite orb_true_r. Qed.
Section invocation.
Context (method rawPath targetID : string) (dataPairs : list string) (noWait unsafeNoLock : bool).
Definition api_good (tr : list (event apiE)) (r : res unit) : Prop :=
  guarded a_sends (λ pre x, the_request method rawPath dataPairs x ∧ none a_sends pre ∧ protected method targetID rawPath unsafeNoLock pre) tr ∧
  guarded a_shows (λ pre _, served method rawPath dataPairs noWait pre ∧ protected method targetID rawPath unsafeNoLock pre) tr ∧
  (r = Ok tt → shown tr).
Lemma protected_app pre tr : none a_unlocks tr → protected method targetID rawPath unsafeNoLock pre →
  protected method targetID rawPath unsafeNoLock (pre ++ tr).
Proof.
  intros Hu [(key & Hk & ? & ?)|[Hn H]]; [left; exists key; split_and!; [done|set_solver|by apply none_app]|right].
  split; [done|]. destruct H as [?|[? ?]]; [by left|right; split; [done|set_solver]].
Qed.
Lemma api_served_app pre tr : served method rawPath dataPairs noWait tr → served method rawPath dataPairs noWait (pre ++ tr).
Proof.
  intros (p & hr & j & ? & ? & ? & H). exists p, hr, j. split_and!; [done|set_solver|done|]. intros upid Hu.
  destruct (H upid Hu) as [?|(exit & ? & ?)]; [by left|right]. exists exit. split; [done|]. rewrite a_pve_app. set_solver.
Qed.
Lemma api_stop tr e : none a_busy tr → api_good tr (Er e).
Proof.
  intros H. split_and!; [..|done]; apply none_guarded; (eapply busy_parts; [|exact H]); [apply sends_busy|apply shows_busy].
Qed.
Lemma api_end tr post r : none a_sends post → none a_shows post → api_good tr r → api_good (tr ++ post) r.
Proof.
  intros Hs Hw (H1 & H2 & H3). split_and!; [apply guarded_app; [done|by apply none_guarded]..|].
  intros Hr. destruct (H3 Hr) as (f & j & ?). exists f, j. set_solver.
Qed.
Lemma parts_good params pre0 tr r : data_given dataPairs params → none a_busy pre0 →
  protected method targetID rawPath unsafeNoLock pre0 → parts method rawPath dataPairs params noWait tr r → api_good (pre0 ++ tr) r.
Proof.
  intros Hp Hb Hpre (t1 & t2 & t3 & -> & H1 & H2 & H3).
  assert (none a_sends pre0) as Hs0 by (by eapply busy_parts; [apply sends_busy|]).
  assert (none a_sends t2) as Hs2 by (by eapply busy_parts; [apply sends_busy|]).
  assert (none a_shows (pre0 ++ t1 ++ t2)) as Hw.
  { apply none_app; [by eapply busy_parts; [apply shows_busy|]|]. apply none_app; [|by eapply busy_parts; [apply shows_busy|]].
    destruct H1 as [->|[hr ->]]; [apply none_nil|by apply none_cons, none_nil]. }
  assert (none a_sends t3) as Hs3 by (destruct H3 as [[-> _]|(f & j & -> & _)]; [apply none_nil|by apply none_cons, none_nil]).
  assert (protected method targetID rawPath unsafeNoLock (pre0 ++ t1 ++ t2)) as Hprot.
  { apply protected_app; [|done]. apply none_app; [|by eapply busy_parts; [apply unlocks_busy|]].
    destruct H1 as [->|[hr ->]]; [apply none_nil|by apply none_cons, none_nil]. }
  split_and!.
  - apply guarded_app; [by apply none_guarded|]. apply guarded_app; [|by apply none_guarded, none_app].
    destruct H1 as [->|[hr ->]]; [by apply none_guarded, none_nil|]. apply guarded_one. intros _. rewrite app_nil_r.
    split_and!; [by exists params, hr|done..].
  - rewrite !app_assoc, <- (app_assoc pre0). apply guarded_app; [by apply none_guarded|].
    destruct H3 as [[-> _]|(f & j & -> & Hserved)]; [by apply none_guarded, none_nil|]. apply guarded_one. intros _. rewrite app_nil_r.
    split; [by apply api_served_app|done].
  - intros ->. destruct H3 as [[_ []]|(f & j & -> & _)]; [done|]. exists f, j. set_solver.
Qed.
Lemma closing_good e body tr0 : none a_sends [Ev e tt] → none a_shows [Ev e tt] →
  always body (λ tr r, api_good (tr0 ++ tr) r) → always (closing e body) (λ tr r, api_good (tr0 ++ tr) r).
Proof.
  intros Hs Hw Hb. unfold closing. eapply always_call; [exact Hb|]. intros tr r Hr. cbn. intros []. rewrite app_assoc. by apply api_end.
Qed.
Lemma api_locked_good f params tr0 : data_given dataPairs params → none a_busy tr0 →
  always (api_locked method f targetID rawPath params unsafeNoLock noWait) (λ tr r, api_good (tr0 ++ tr) r).
Proof.
  intros Hp Hb. unfold api_locked. cbv zeta.
  assert (∀ key tr1, none a_busy (tr0 ++ tr1) → protected method targetID rawPath unsafeNoLock (tr0 ++ tr1) →
    always (api_request method f rawPath params noWait key) (λ tr r, api_good (tr0 ++ tr1 ++ tr) r)) as Hgo.
  { intros key tr1 Hb1 Hp1. eapply always_mono; [|by apply (request_parts method rawPath dataPairs params noWait Hp)].
    intros tr r H. rewrite app_assoc. by eapply parts_good. }
  destruct (apiObjectKey targetID rawPath) as [key|] eqn:Hk.
  - cbn [bind trigger always]. intros [[]|e]; cbn [bind always].
    2: { apply api_stop, none_app; [done|]. by destruct (eqb method "GET"); apply none_cons, none_nil. }
    eapply always_mono; [|apply (closing_good AUnlock _ (tr0 ++ [Ev (if eqb method "GET" then AReadLock key else ALock key) (Ok tt)]))].
    + intros tr r H. cbv beta in H. rewrite <- app_assoc in H. exact H.
    + by apply none_cons, none_nil.
    + by apply none_cons, none_nil.
    + eapply always_mono; [|apply (Hgo (Some key) [Ev (if eqb method "GET" then AReadLock key else ALock key) (Ok tt)])].
      * intros tr r H. cbv beta. rewrite <- app_assoc. exact H.
      * apply none_app; [done|]. by destruct (eqb method "GET"); apply none_cons, none_nil.
      * left. exists key. split_and!; [by apply key_names|set_solver|]. apply none_app; [by eapply busy_parts; [apply unlocks_busy|]|].
        by destruct (eqb method "GET"); apply none_cons, none_nil.
  - assert (∀ key, ¬ names targetID rawPath key) as Hno by (intros key Hn%names_key; congruence).
    destruct (eqb method "GET") eqn:Hm.
    + apply (Hgo None []); rewrite app_nil_r; [done|]. right. split; [done|]. left. by apply eqb_true.
    + destruct unsafeNoLock eqn:Hu; [|cbn [always]; rewrite app_nil_r; by apply api_stop].
      cbn [bind trigger always]. intros []. apply (Hgo None [Ev (ANote (unlocked_warning rawPath)) tt]).
      * apply none_app; [done|]. by apply none_cons, none_nil.
      * right. split; [done|]. right. split; [done|set_solver].
Qed.
End invocation.

(** * Properties *)
(** C16: The table reads a path as its expressions say and no other way: a path has a lock key exactly
    if it names a VM by a number of an [int]'s range (with any further path), a storage of a node or
    of the cluster, a node's network or one of its interfaces, or a node itself; the key is then
    that object's, a VM's under its number without leading zeros. *)
Theorem apiObjectKey_iff targetID path key : apiObjectKey targetID path = Some key ↔ names targetID path key.
Proof. split; [apply key_names|apply names_key]. Qed.


(** * Examples *)
(** The log is of the locks, what is sent and what is shown. *)
Definition lab_api_env : env apiE (list string) := λ R e,
  match e in apiE R return list string → R * list string with
  | ARoster => λ s, (Ok tt, s) | AOpen _ => λ s, (Ok tt, s) | AClose => λ s, (tt, "close" :: s)
  | ALock k => λ s, (Ok tt, ("lock " +:+ key_String k) :: s) | AReadLock k => λ s, (Ok tt, ("read lock " +:+ key_String k) :: s)
  | AUnlock => λ s, (tt, "unlock" :: s)
  | APve e => λ s, ((lab_vm_pve true _ e true).1,
      match e with Http m p _ => (m +:+ " " +:+ p) :: s | PcTask _ => "poll the task" :: s | _ => s end)
  | ANote l => λ s, (tt, s)
  | ARender _ _ => λ s, (Ok tt, "show" :: s)
  end.
Definition lab_api (method path : string) (unsafeNoLock : bool) : option (res unit * list string) :=
  match run lab_api_env (api_verb method "json" path "pve1" ["node=pve2"] unsafeNoLock false 0 false) [] with
  | Some (_, r, s) => Some (r, reverse s)
  | None => None
  end.
Example api_post_waits : lab_api "POST" "/nodes/pve1/qemu/0100/status/start" false = Some (Ok tt,
  ["lock pve1/vm/100"; "POST /nodes/pve1/qemu/0100/status/start"; "poll the task"; "show"; "unlock"; "close"]).
Proof. vm_compute. reflexivity. Qed.
Example api_post_refused : lab_api "POST" "/nodes/pve1/hardware" false = Some (Er (unmanaged "/nodes/pve1/hardware"), ["close"]).
Proof. vm_compute. reflexivity. Qed.
Example api_post_unlocked : lab_api "POST" "/nodes/pve1/hardware" true = Some (Ok tt,
  ["POST /nodes/pve1/hardware"; "poll the task"; "show"; "close"]).
Proof. vm_compute. reflexivity. Qed.
Example api_get_fails : lab_api "GET" "/nodes/pve1/qemu/100/config" false = Some (Er (wrapf "raw request" (errorf "down")),
  ["read lock pve1/vm/100"; "GET /nodes/pve1/qemu/100/config"; "unlock"; "close"]).
Proof. vm_compute. reflexivity. Qed.

Example key_normalised : apiObjectKey "t" "/nodes/pve1/qemu/0100/config" = Some (vm_key "t" 100). Proof. vm_compute. reflexivity. Qed.
Example key_of_network : apiObjectKey "t" "/nodes/pve1/network/vmbr0" = Some {| TargetID := "t"; Kind := "network"; ID := "pve1" |}.
Proof. vm_compute. reflexivity. Qed.
Example no_key : apiObjectKey "t" "/nodes/pve1/tasks" = None ∧ apiObjectKey "t" "/nodes/pve1/qemu/99999999999999999999" = None.
Proof. split; vm_compute; reflexivity. Qed.
(** The key of the path as it is sent: an escaped spelling of a storage is another key. *)
Example key_verbatim : apiObjectKey "t" "/storage/local%2Dlvm" ≠ apiObjectKey "t" "/storage/local-lvm".
Proof. by vm_compute. Qed.
