(* ===== verification/HarnessVm.v ===== *)
(** cmd/pveforge/harness_vm.go, with the identity flags of harness.go: the verbs of
    [harness vm] and [harness vm snapshot], on the harness's own VMs alone. *)
From Stdlib Require Import Ascii.
From S2P Require Import Prelude GoLib Errors Json KvJson Rest Vms Task Snapshot OpRun Client VmLife.
From S2P Require Import Remote Routed Grants GuestAgent SnapshotCmd VmCmd Outer Screen.

(** [XOpen] is [resolveRoutedClient]; [XOuter] is what the guard, the proof of a destroy and the
    verbs' own requests ask, [XHost] what the Ops ask through the routed client, [XSnap] what the
    witness of a rollback asks. *)
Inductive harnessE : Type → Type :=
| XRoster : harnessE (res unit)
| XOpen (targetID : string) : harnessE (res Target)
| XClose : harnessE unit
| XLock (key : ObjectKey) : harnessE (res unit)
| XReadLock (key : ObjectKey) : harnessE (res unit)
| XUnlock : harnessE unit
| XOuter {R} (e : outerE R) : harnessE R
| XHost {R} (e : hostE R) : harnessE R
| XSnap {R} (e : snapE R) : harnessE R
| XRender (f : Format) (j : json) : harnessE (res unit).
Definition x_pve {A} (m : io pveE A) : io harnessE A := lift (@XOuter) (Outer.pve_call m).

Definition harnessVMID (arg : string) : res Z :=
  let^ vmid := atoi_vmid arg orelse id in
  guard^ ValidVMID vmid orelse errorf ("VMID " +:+ itoa vmid +:+ " is not one of 690-699") in
  Ok vmid.
Definition rawUPID (method path : string) (params : Values) : io pveE (res string) :=
  let? raw := RawRequest method path params orelse id in
  Ret match as_string raw with
      | Some upid => Ok upid
      | None => Er (errorf (method +:+ " " +:+ path +:+ ": expected a task UPID, got " +:+ compact raw))
      end.
Definition vmSubPath (node : string) (vmid : Z) (sub : string) : string :=
  "/nodes/" +:+ node +:+ "/qemu/" +:+ itoa vmid +:+ (if eqb sub "" then "" else "/" +:+ sub).
Definition harnessWaitForTask (node upid : string) : io pveE (res unit) := WaitForTask node upid.
Definition harnessConfig (pool tag : string) (t : Target) : Config := {| Pool := pool; cfg_Node := Node t; Tag := tag |}.
Definition harnessLedger (createdFile : string) : io harnessE (option string) :=
  let! p := (if eqb createdFile "" then lift (@XOuter) (trigger (OEnv "HARNESS_CREATED_FILE")) else Ret createdFile) in
  Ret (if eqb p "" then None else Some p).
Definition parseDestroyTask (s : string) : string :=
  if (2 <=? slen s) && has_prefix (chr 34) s then
    match parse_json s with Some j => default s (as_string j) | None => s end
  else s.
Definition listSnapshotsVerifiable (node : string) (vmid : Z) : io pveE (res (list Snapshot)) :=
  let? snaps := ListSnapshots node vmid orelse id in
  guard has_current snaps orelse
    errorf ("snapshot list for vm " +:+ itoa vmid +:+ " is unverifiable: PVE's " +:+ quote "current"
      +:+ " entry is absent (a swallowed or empty list); refusing rather than reading it as 'no snapshots'") in
  Ret (Ok (merge_sort older_first (realSnapshots snaps))).
Definition harness_realSnapshots (node : string) (vmid : Z) : io pveE (res (list Snapshot)) :=
  let? snaps := ListSnapshots node vmid orelse id in
  Ret (Ok (merge_sort older_first (realSnapshots snaps))).

(** ** What the verbs share *)
Definition x_deferring (e : harnessE unit) (body : io harnessE (res unit)) : io harnessE (res unit) :=
  let! r := body in let! _ := trigger e in Ret r.
(** The format, the VMID, what else is read of the arguments, and the client. *)
Definition with_harness {B} (format targetID vmidArg : string) (args : res B)
    (body : Format → Z → B → Target → io harnessE (res unit)) : io harnessE (res unit) :=
  let? f := Ret (ParseFormat format) orelse id in
  let? vmid := Ret (harnessVMID vmidArg) orelse id in
  let? b := Ret args orelse id in
  let? _ := trigger XRoster orelse id in
  let? t := trigger (XOpen targetID) orelse id in
  x_deferring XClose (body f vmid b t).
Definition x_locked (key : ObjectKey) (body : io harnessE (res unit)) : io harnessE (res unit) :=
  let? _ := trigger (XLock key) orelse wrapf "acquire lock" in x_deferring XUnlock body.
Definition x_read_locked (key : ObjectKey) (body : io harnessE (res unit)) : io harnessE (res unit) :=
  let? _ := trigger (XReadLock key) orelse wrapf "acquire read lock" in x_deferring XUnlock body.
(** Every field a verb sends is one of its set. *)
Fixpoint check_fields (set : string) (keys : list string) : res unit :=
  match keys with
  | [] => Ok tt
  | k :: keys' =>
      guard^ AllowedField set k orelse errorf (set +:+ " " +:+ k +:+ " is not an allowed harness field") in check_fields set keys'
  end.
(** A request that PVE answers by a task, and the wait for it. *)
Definition leaf (node method path : string) (params : Values) (what : string) : io harnessE (res string) :=
  let? upid := x_pve (rawUPID method path params) orelse wrapf what in
  let? _ := x_pve (harnessWaitForTask node upid) orelse wrapf what in
  Ret (Ok upid).
Definition vm_json (extra : list (string * json)) (targetID : string) (vmid : Z) (more : list (string * json)) : json :=
  JObj (extra ++ [("target", JStr targetID); ("vmid", JNum (itoa vmid))] ++ more).
Definition result_json (result targetID : string) (vmid : Z) : json := vm_json [("result", JStr result)] targetID vmid [].

(** ** stop, shutdown, destroy and gone *)
Inductive verb :=
| VStop (timeout : Z)
| VShutdown (timeout : Z) (forceStop : bool)
| VDestroy (yes : bool) (createdFile : string)
| VGone (destroyTask : string)
| VSnapshotList
| VSnapshotCreate (name : string) (vmstate : Z) (description : string)
| VSnapshotDelete (names : list string)
| VSnapshotRollback (name : string) (witness : bool).
Section verbs.
Context (IntOrBool : json → option bool) (format targetID vmidArg pool tag : string).
Local Notation config := (harnessConfig pool tag).
Definition guarded_change (t : Target) (vmid : Z) : io harnessE (res unit) :=
  lift (@XOuter) (Guard (config t) None vmid ModeChange).
Definition stop_params (timeout : Z) : res Values :=
  if (0 <? timeout)%Z then
    let^ _ := check_fields "stop" ["timeout"] orelse id in Ok (values [("timeout", itoa timeout)])
  else Ok ∅.
Definition harness_stop (timeout : Z) : io harnessE (res unit) :=
  with_harness format targetID vmidArg (Ok tt) (λ f vmid _ t,
    x_locked (vm_key targetID vmid) (
      let? _ := guarded_change t vmid orelse id in
      let? params := Ret (stop_params timeout) orelse id in
      let? _ := leaf (Node t) "POST" (vmSubPath (Node t) vmid "status/stop") params ("stop vm " +:+ itoa vmid) orelse id in
      trigger (XRender f (result_json "stopped" targetID vmid)))).
Definition shutdown_params (timeout : Z) (forceStop : bool) : res Values :=
  let^ params := (if (0 <? timeout)%Z then
                    let^ _ := check_fields "shutdown" ["timeout"] orelse id in Ok (values [("timeout", itoa timeout)])
                  else Ok ∅) orelse id in
  if forceStop then
    let^ _ := check_fields "shutdown" ["forceStop"] orelse id in Ok (vset params "forceStop" "1")
  else Ok params.
(** Without either flag the lock is [Run]'s own, and the guard comes just before it. *)
Definition harness_shutdown (timeout : Z) (forceStop : bool) : io harnessE (res unit) :=
  with_harness format targetID vmidArg (Ok tt) (λ f vmid _ t,
    let key := vm_key targetID vmid in
    let done := trigger (XRender f (result_json "shutdown" targetID vmid)) in
    if (timeout =? 0)%Z && negb forceStop then
      let? _ := guarded_change t vmid orelse id in
      let! rs := lift (@XHost) (interp (routed t) (run_op (VMShutdown (Node t) vmid) key false tt) false) in
      match rs.1.1 with Er e => Ret (Er e) | Ok _ => done end
    else
      x_locked key (
        let? _ := guarded_change t vmid orelse id in
        let? params := Ret (shutdown_params timeout forceStop) orelse id in
        let? _ := leaf (Node t) "POST" (vmSubPath (Node t) vmid "status/shutdown") params ("shutdown vm " +:+ itoa vmid) orelse id in
        done)).
Definition destroy_params : Values := values [("purge", "1"); ("destroy-unreferenced-disks", "1")].
Definition harness_destroy (yes : bool) (createdFile : string) : io harnessE (res unit) :=
  with_harness format targetID vmidArg (Ok tt) (λ f vmid _ t,
    x_locked (vm_key targetID vmid) (
      let vm := "vm " +:+ itoa vmid in
      let! led := harnessLedger createdFile in
      let? _ := lift (@XOuter) (Guard (config t) led vmid ModeDestroy) orelse id in
      guard yes orelse errorf (vm +:+ ": this irreversible destroy must be confirmed with --yes") in
      let! rs := lift (@XHost) (interp (routed t) (StatusGatedStop (Node t) vmid) false) in
      let? _ := Ret rs.1 orelse id in
      let? _ := Ret (check_fields "destroy" ["purge"; "destroy-unreferenced-disks"]) orelse id in
      let? upid := leaf (Node t) "DELETE" (vmSubPath (Node t) vmid "") destroy_params ("destroy " +:+ vm) orelse id in
      let? _ := x_pve (VMGone (config t) vmid upid) orelse wrapf (vm +:+ ": destroy issued but not proven gone") in
      trigger (XRender f (vm_json [("proof", JStr "gone"); ("result", JStr "destroyed")] targetID vmid [])))).
Definition harness_gone (destroyTask : string) : io harnessE (res unit) :=
  let upid := parseDestroyTask destroyTask in
  with_harness format targetID vmidArg
    (guard^ negb (eqb upid "") orelse errorf "--destroy-task is required: the destroy task's UPID" in Ok tt) (λ f vmid _ t,
    x_read_locked (vm_key targetID vmid) (
      let? _ := x_pve (VMGone (config t) vmid upid) orelse wrapf ("vm " +:+ itoa vmid +:+ ": not proven gone") in
      trigger (XRender f (vm_json [("gone", JBool true)] targetID vmid [])))).

(** ** snapshot list, create, delete and rollback *)
Definition names_json (names : list string) : json := JArr (JStr <$> names).
Definition harness_list : io harnessE (res unit) :=
  with_harness format targetID vmidArg (Ok tt) (λ f vmid _ t,
    x_read_locked (vm_key targetID vmid) (
      let? snaps := x_pve (harness_realSnapshots (Node t) vmid) orelse id in
      trigger (XRender f (vm_json [("snapshots", names_json (sn_name <$> snaps))] targetID vmid [])))).
Definition create_args (name : string) (vmstate : Z) : res unit :=
  guard^ negb (eqb name "current" || eqb name "pending") orelse errorf ("snapshot name " +:+ quote name +:+ " is reserved by PVE") in
  guard^ ValidSnapshotName name orelse errorf ("snapshot name " +:+ quote name +:+ " is not a valid harness snapshot name") in
  guard^ (vmstate =? 0)%Z || (vmstate =? 1)%Z orelse errorf ("--vmstate must be 0 or 1, got " +:+ itoa vmstate) in
  Ok tt.
Definition snapshot_params (name : string) (vmstate : Z) (description : string) : Values :=
  values ([("snapname", name); ("vmstate", itoa vmstate)] ++ (if eqb description "" then [] else [("description", description)])).
Definition harness_create (name : string) (vmstate : Z) (description : string) : io harnessE (res unit) :=
  with_harness format targetID vmidArg (create_args name vmstate) (λ f vmid _ t,
    let what := "create snapshot " +:+ quote name +:+ " of vm " +:+ itoa vmid in
    x_locked (vm_key targetID vmid) (
      let? _ := guarded_change t vmid orelse id in
      let params := snapshot_params name vmstate description in
      let? _ := Ret (check_fields "snapshot" (map_to_list params).*1) orelse id in
      let? _ := leaf (Node t) "POST" (vmSubPath (Node t) vmid "snapshot") params what orelse id in
      let? snaps := x_pve (listSnapshotsVerifiable (Node t) vmid) orelse id in
      guard bool_decide (name ∈ sn_name <$> snaps) orelse errorf (what +:+ ": not present after the create task") in
      trigger (XRender f (vm_json [("result", JStr "created"); ("snapshot", JStr name)] targetID vmid [])))).
Definition deleted_before (vmid : Z) (deleted : list string) (e : err) : err :=
  Err KText ("delete snapshots of vm " +:+ itoa vmid +:+ ": " +:+ Error e +:+ "; deleted so far: [" +:+ Join " " deleted +:+ "]") [e].
Definition harness_delete (names : list string) : io harnessE (res unit) :=
  with_harness format targetID vmidArg (Ok tt) (λ f vmid _ t,
    x_locked (vm_key targetID vmid) (
      let? _ := guarded_change t vmid orelse id in
      let? snaps := x_pve (listSnapshotsVerifiable (Node t) vmid) orelse id in
      let rank := ranks snaps in
      let '(present, absent) := split_names rank ∅ names in
      let! d := (match present with
                 | [] => Ret ([], None)
                 | _ => x_pve (CascadeDeleteSnapshots (Node t) vmid (merge_sort (newest_first rank) present))
                 end) in
      match d.2 with
      | Some e => Ret (Er (deleted_before vmid d.1 e))
      | None => trigger (XRender f (vm_json [("absent", names_json absent); ("deleted", names_json d.1)] targetID vmid []))
      end)).
(** [harnessRollbackResult], its fields in the struct's order. *)
Definition rollback_json (vmid : Z) (name rollback : string) (more : list (string * json)) : json :=
  vm_json [] targetID vmid ([("snapshot", JStr name); ("rollback", JStr rollback)] ++ more).
Definition refused_json (vmid : Z) (name : string) (newer : list string) : json :=
  let names key l := match l with [] => [] | _ => [(key, names_json l)] end in
  rollback_json vmid name "refused" ([("reason", JStr "not-newest")] ++ names "newer" newer ++ names "cascade_order" (CascadeOrder newer)).
Definition defaultWitnessTimeout : Z := 2 * 60 * 1000 * millisecond.
Definition harness_rollback (name : string) (witness : bool) : io harnessE (res unit) :=
  with_harness format targetID vmidArg (Ok tt) (λ f vmid _ t,
    x_locked (vm_key targetID vmid) (
      let? _ := guarded_change t vmid orelse id in
      let! r := x_pve (Rollback (Node t) vmid name) in
      match r with
      | Er e =>
          let! _ := (match errors_As as_not_newest e with
                     | Some newer => let! _ := trigger (XRender f (refused_json vmid name newer)) in Ret tt
                     | None => Ret tt
                     end) in
          Ret (Er e)
      | Ok _ =>
          let done w := trigger (XRender f (rollback_json vmid name "completed" [("witness", JStr w)])) in
          if witness then
            let? wm := lift (@XSnap) DefaultRollbackWitnessCommand orelse id in
            let! w := lift (@XSnap) (lift (@SAgent) (RollbackWitness IntOrBool (Node t) vmid wm.1 wm.2 defaultWitnessTimeout)) in
            match w.2 with
            | Some e => Ret (Er (wrapf ("rollback vm " +:+ itoa vmid +:+ " completed, but it could not be proven") e))
            | None => done "verified"
            end
          else done "skipped"
      end)).
(** [newHarnessVMCmd] and [newHarnessVMSnapshotCmd]. *)
Definition harness_vm (v : verb) : io harnessE (res unit) :=
  match v with
  | VStop timeout => harness_stop timeout
  | VShutdown timeout forceStop => harness_shutdown timeout forceStop
  | VDestroy yes createdFile => harness_destroy yes createdFile
  | VGone destroyTask => harness_gone destroyTask
  | VSnapshotList => harness_list
  | VSnapshotCreate name vmstate description => harness_create name vmstate description
  | VSnapshotDelete names => harness_delete names
  | VSnapshotRollback name witness => harness_rollback name witness
  end.
End verbs.

(** * Specification *)
(** The request of a question to PVE that changes something. *)
Definition change_of {R} (e : pveE R) : option (string * string * Values) :=
  match e with Http m p v => if eqb m "GET" then None else Some (m, p, v) | _ => None end.
Definition x_request (ev : event harnessE) : option (string * string * Values) :=
  match ev with
  | Ev e _ =>
      match e with
      | XOuter e => match e with OPve e => change_of e | _ => None end
      | XHost e => match e with HPve e => change_of e | _ => None end
      | XSnap e => match e with SAgent e => match e with APve e => change_of e | _ => None end | _ => None end
      | _ => None
      end
  end.
Definition host_change (ev : event hostE) : option (string * string * Values) :=
  match ev with Ev e _ => match e with HPve e => change_of e | _ => None end end.
(** What changes PVE or a host, and what releases a lock. *)
Definition x_changing (ev : event harnessE) : bool :=
  is_some (x_request ev) || match ev with @Ev _ _ (XHost e) r => host_changing (Ev e r) | _ => false end.
Definition x_unlocks (ev : event harnessE) : bool :=
  match ev with Ev e _ => match e with XUnlock => true | XHost e => match e with HUnlock => true | _ => false end | _ => false end end.
Definition x_outer_event (ev : event harnessE) : option (event outerE) :=
  match ev with @Ev _ _ (XOuter e) r => Some (Ev e r) | _ => None end.
Definition x_outer (tr : list (event harnessE)) : list (event outerE) := omap x_outer_event tr.
Definition x_reads (tr : list (event harnessE)) : list (event pveE) := pve_of (x_outer tr).
Section about.
Context (v : verb) (targetID vmidArg pool tag : string).
(** The changes a verb may make: requests about the VM it was told. *)
Definition allowed (node : string) (vmid : Z) (c : string * string * Values) : Prop :=
  match v with
  | VStop timeout => ∃ ps, stop_params timeout = Ok ps ∧ c = ("POST", vmSubPath node vmid "status/stop", ps)
  | VShutdown timeout force =>
      timeout = 0%Z ∧ force = false ∧ c = ("POST", vm_path node vmid "/status/shutdown", ∅) ∨
      ∃ ps, shutdown_params timeout force = Ok ps ∧ c = ("POST", vmSubPath node vmid "status/shutdown", ps)
  | VDestroy yes _ =>
      yes = true ∧ (c = ("POST", vm_path node vmid "/status/stop", ∅) ∨ c = ("DELETE", vmSubPath node vmid "", destroy_params))
  | VGone _ | VSnapshotList => False
  | VSnapshotCreate name vmstate description =>
      create_args name vmstate = Ok tt ∧ c = ("POST", vmSubPath node vmid "snapshot", snapshot_params name vmstate description)
  | VSnapshotDelete names => ∃ n, n ∈ names ∧ c = delete_mutation node vmid n
  | VSnapshotRollback name witness => c = rollback_mutation node vmid name ∨ witness = true ∧ ∃ command, c = exec_mutation node vmid command
  end.
(** The guard let the VM pass; for a destroy, against the ledger that a flag or the environment names. *)
Definition cleared (t : Target) (vmid : Z) (pre : list (event harnessE)) : Prop :=
  let cfg := harnessConfig pool tag t in
  match v with
  | VDestroy _ file => ∃ path, vetted cfg (Some path) vmid ModeDestroy (x_outer pre) ∧ path ≠ "" ∧
      (path = file ∨ file = "" ∧ Ev (OEnv "HARNESS_CREATED_FILE") path ∈ x_outer pre)
  | _ => vetted cfg None vmid ModeChange (x_outer pre)
  end.
Definition held (vmid : Z) (pre : list (event harnessE)) : Prop :=
  let key := vm_key targetID vmid in
  (Ev (XLock key) (Ok tt) ∈ pre ∨ Ev (XHost (HLock key)) (Ok tt) ∈ pre) ∧ none x_unlocks pre.
Definition permitted (pre : list (event harnessE)) (x : event harnessE) : Prop :=
  ∃ t vmid c, Ev (XOpen targetID) (Ok t) ∈ pre ∧ harnessVMID vmidArg = Ok vmid ∧
    cleared t vmid pre ∧ held vmid pre ∧ x_request x = Some c ∧ allowed (Node t) vmid c.
(** What a success means: a destroyed VM was proven gone, a snapshot made was listed. *)
Definition shown_done (t : Target) (vmid : Z) (tr : list (event harnessE)) : Prop :=
  match v with
  | VDestroy _ _ => ∃ upid, gone (harnessConfig pool tag t) vmid upid (x_reads tr)
  | VGone task => gone (harnessConfig pool tag t) vmid (parseDestroyTask task) (x_reads tr)
  | VSnapshotCreate name _ _ =>
      ∃ l, list_read (Node t) vmid l (x_reads tr) ∧ has_current l = true ∧ name ∈ sn_name <$> realSnapshots l
  | _ => True
  end.
End about.

(** * Lemmas *)
Lemma mutation_change {R} (e : pveE R) r : mutation (Ev e r) = change_of e.
Proof. by destruct e. Qed.
Lemma x_outer_app tr tr' : x_outer (tr ++ tr') = x_outer tr ++ x_outer tr'. Proof. apply omap_app. Qed.
Lemma x_outer_lift tr : x_outer (lift_event (@XOuter) <$> tr) = tr.
Proof. induction tr as [|[R e r] tr IH]; [done|]. unfold x_outer in *. cbn. by rewrite IH. Qed.
Lemma x_reads_app tr tr' : x_reads (tr ++ tr') = x_reads tr ++ x_reads tr'.
Proof. unfold x_reads. by rewrite x_outer_app, pve_of_app. Qed.
(** A part of a run that releases no lock and makes only changes that [A] holds of. *)
Definition part (A : string * string * Values → Prop) (tr : list (event harnessE)) : Prop :=
  none x_unlocks tr ∧ ∀ x, x ∈ tr → x_changing x = true → ∃ c, x_request x = Some c ∧ A c.
Lemma part_nil A : part A []. Proof. split; [apply none_nil|by intros x ?%elem_of_nil]. Qed.
Lemma part_app A tr tr' : part A tr → part A tr' → part A (tr ++ tr').
Proof. intros [H1 H2] [H1' H2']. split; [by apply none_app|]. intros x [?|?]%elem_of_app; auto. Qed.
Lemma part_one A x : x_unlocks x = false → x_changing x = false → part A [x].
Proof. intros Hu Hc. split; [by apply none_cons, none_nil|]. intros y ->%list_elem_of_singleton. by rewrite Hc. Qed.
Lemma part_mono (A A' : string * string * Values → Prop) tr : (∀ c, A c → A' c) → part A tr → part A' tr.
Proof. intros HA [H1 H2]. split; [done|]. intros x Hx Hc. destruct (H2 x Hx Hc) as (c & ? & ?). eauto. Qed.
Lemma part_quiet tr A : part (λ _, False) tr → part A tr.
Proof. by apply part_mono. Qed.
(** ** The parts *)
Definition o_change (ev : event outerE) : option (string * string * Values) :=
  match ev with Ev e _ => match e with OPve e => change_of e | _ => None end end.
Lemma outer_part A tr : (∀ ev c, ev ∈ tr → o_change ev = Some c → A c) → part A (lift_event (@XOuter) <$> tr).
Proof.
  intros H. split.
  - by intros x ([R e r] & -> & _)%list_elem_of_fmap.
  - intros x ([R e r] & -> & Hin)%list_elem_of_fmap Hc. unfold x_changing in Hc. rewrite orb_false_r in Hc.
    change (x_request _) with (o_change (Ev e r)) in Hc |- *. destruct (o_change (Ev e r)) as [c|] eqn:He; [|done].
    exists c. split; [done|]. by eapply H.
Qed.
Lemma pve_part {B} (m : io pveE B) A Q :
  always m (λ tr r, (∀ c, c ∈ mutations tr → A c) ∧ Q tr r) → always (x_pve m) (λ tr r, part A tr ∧ Q (x_reads tr) r).
Proof.
  intros Hm. unfold x_pve, Outer.pve_call. eapply always_mono; [|by apply lift_spec, lift_spec]. cbn.
  intros tr r (t1 & -> & t0 & -> & HA & HQ). unfold x_reads. rewrite x_outer_lift, pve_of_lift. split; [|done].
  apply outer_part. intros ev c ([R e a] & -> & Hin)%list_elem_of_fmap Hc. cbn in Hc.
  apply HA, list_elem_of_omap. exists (Ev e a). by rewrite mutation_change.
Qed.
Lemma guard_part cfg led vmid mode :
  always (lift (@XOuter) (Guard cfg led vmid mode))
    (λ tr r, part (λ _, False) tr ∧ (r = Ok tt → vetted cfg led vmid mode (x_outer tr))).
Proof.
  eapply always_mono; [|apply lift_spec, Guard_spec]. intros tr r (t0 & -> & Hr & Hv). rewrite x_outer_lift. split; [|done].
  apply outer_part. intros [R e a] c Hin Hc. rewrite Forall_forall in Hr. specialize (Hr _ Hin).
  destruct e as [R e| | | | | | | | |]; try discriminate Hc. change (mutation (Ev e a) = None) in Hr. rewrite mutation_change in Hr.
  change (change_of e = Some c) in Hc. congruence.
Qed.
Lemma snap_part A tr : (∀ c, c ∈ mutations (snap_requests tr) → A c) → part A (lift_event (@XSnap) <$> tr).
Proof.
  intros H. split.
  - by intros x ([R e r] & -> & _)%list_elem_of_fmap.
  - intros x ([R e r] & -> & Hin)%list_elem_of_fmap Hc. unfold x_changing in Hc. rewrite orb_false_r in Hc. cbn in Hc |- *.
    destruct e as [| | | | | | | | | |R e]; try discriminate Hc. destruct e as [R e| | | |]; try discriminate Hc.
    destruct (change_of e) as [c|] eqn:He; [|done]. exists c. split; [done|]. apply H, list_elem_of_omap. exists (Ev e r).
    rewrite mutation_change. split; [|done]. apply list_elem_of_omap. exists (Ev (APve e) r). split; [|done].
    apply list_elem_of_omap. by exists (Ev (SAgent (APve e)) r).
Qed.
Lemma witness_part IntOrBool node vmid wm timeout :
  always (lift (@XSnap) (lift (@SAgent) (RollbackWitness IntOrBool node vmid wm.1 wm.2 timeout)))
    (λ tr _, part (λ c, c = exec_mutation node vmid wm.1) tr).
Proof.
  eapply always_mono; [|apply lift_spec, (witness_call IntOrBool node vmid wm)]. cbn. intros tr r (t0 & -> & _ & Hm & _).
  apply snap_part. by rewrite Forall_forall in Hm.
Qed.
Lemma nonce_part A : always (lift (@XSnap) DefaultRollbackWitnessCommand) (λ tr _, part A tr).
Proof. cbn. intros [b|e]; cbn; [apply (snap_part A [Ev SRandom (Ok b)])|apply (snap_part A [Ev SRandom (Er e)])]; by intros c ?%elem_of_nil. Qed.
(** ** What the Ops ask, down to PVE *)
Section asked.
Context (A : string * string * Values → Prop).
Definition host_ok (x : event hostE) : Prop :=
  x ≠ Ev HUnlock tt ∧ (host_changing x = true → ∃ c, host_change x = Some c ∧ A c).
(** The questions of an Op that lead to no other changes, on a client of [node]. *)
Definition client_asks (node : string) (R : Type) (e : clientE R) : Prop :=
  match e with
  | CGetVM _ _ | CWaitForTask _ _ => True
  | CStopVM vmid => A ("POST", vm_path node vmid "/status/stop", ∅)
  | CShutdownVM vmid => A ("POST", vm_path node vmid "/status/shutdown", ∅)
  | _ => False
  end.
Definition client_ok (node : string) (ev : event clientE) : Prop := match ev with Ev e _ => client_asks node _ e end.
Lemma host_part tr : Forall host_ok tr → part A (lift_event (@XHost) <$> tr).
Proof.
  intros H. rewrite Forall_forall in H. split.
  - intros x ([R e a] & -> & Hin)%list_elem_of_fmap. destruct (H _ Hin) as [Hu _]. cbn. destruct e; try done. by destruct a.
  - intros x ([R e a] & -> & Hin)%list_elem_of_fmap Hc. destruct (H _ Hin) as [_ Hh]. apply Hh.
    unfold x_changing in Hc. destruct e as [R e| | | | | |]; try exact Hc. cbn in Hc |- *. rewrite orb_comm in Hc.
    destruct e; try done. cbn in Hc |- *. by destruct (eqb method "GET").
Qed.
Lemma rest_ok {B} (m : io pveE B) s : always m (λ tr _, ∀ c, c ∈ mutations tr → A c) → always (rest m s) (λ tr _, Forall host_ok tr).
Proof.
  intros Hm. eapply always_mono; [|by apply rest_spec]. cbn. intros tr rs (t0 & -> & HA & _). apply Forall_fmap, Forall_forall.
  intros [R e r] Hin. split; [done|]. cbn. intros Hc. destruct (change_of e) as [c|] eqn:He; [|destruct e; try done; cbn in He, Hc; by destruct (eqb method "GET")].
  exists c. split; [done|]. apply HA, list_elem_of_omap. exists (Ev e r). by rewrite mutation_change.
Qed.
Lemma upid_sends m p v what : A (m, p, v) → always (upid_request m p v what) (λ tr _, ∀ c, c ∈ mutations tr → A c).
Proof.
  intros HA. eapply always_mono; [|apply upid_request_spec]. intros tr r [[[-> _]|(hr & -> & _)] _] c Hc; [by apply elem_of_nil in Hc|].
  unfold mutations in Hc. cbn in Hc. destruct (eqb m "GET"); [by apply elem_of_nil in Hc|]. by apply list_elem_of_singleton in Hc as ->.
Qed.
Definition asked_step (node : string) (_ : bool) (ev : event clientE) (tr : list (event hostE)) (_ : bool) : Prop :=
  match ev with
  | Ev e r =>
      match e in clientE R return R → Prop with
      | CLock k => λ r, tr = [Ev (HLock k) r]
      | CUnlock => λ r, tr = [Ev HUnlock tt]
      | e => λ _, client_asks node _ e → Forall host_ok tr
      end r
  end.
Lemma asked_answers t R (e : clientE R) s : always (routed t R e s) (λ tr rs, asked_step (Node t) s (Ev e rs.1) tr rs.2).
Proof.
  destruct e; try (by apply always_true; intros tr rs []); cbn [routed].
  - cbn. done.
  - cbn. by intros [].
  - eapply always_mono; [|apply (rest_ok (vm_pointer (GetVM node vmid)))]; [by intros tr rs H _|].
    eapply always_mono; [|apply vm_pointer_quiet, GetVM_quiet]. cbn. intros tr r ->. by intros c ?%elem_of_nil.
  - apply always_exec. intros tr rs Hex HA. revert tr rs Hex. apply always_exec, rest_ok. unfold StopVM. cbv zeta.
    destruct (negb (eqb (Node t) "")); [|by intros c ?%elem_of_nil]. by apply upid_sends.
  - apply always_exec. intros tr rs Hex HA. revert tr rs Hex. apply always_exec, rest_ok. unfold ShutdownVM. cbv zeta.
    destruct (negb (eqb (Node t) "")); [|by intros c ?%elem_of_nil]. by apply upid_sends.
  - eapply always_mono; [|apply (rest_ok (WaitForTask node upid))]; [by intros tr rs H _|].
    eapply always_mono; [|apply WaitForTask_spec]. intros tr r [-> _]. by intros c ?%elem_of_nil.
Qed.
Lemma steps_host_asked node s evs tr s' : steps (asked_step node) s evs tr s' → Forall (client_ok node) evs → Forall host_ok tr.
Proof.
  induction 1 as [s|s ev tr s1 evs tr' s2 Hst _ IH]; [constructor|]. intros [He Hevs]%Forall_cons. apply Forall_app. split; [|by apply IH].
  destruct ev as [R e r]. destruct e; try done; by apply Hst.
Qed.
Lemma host_run {S} (o : Op S) t key force s b :
  (∀ R (e : opE R) s, match e with OLock _ | OUnlock => True | e => asks (client_asks (Node t)) (op_handler o _ e s) end) →
  always (interp (routed t) (run_op o key force s) b) (λ tr _, lock_shape (HLock key) HUnlock host_ok tr).
Proof.
  apply (routed_run_shape t o (client_asks (Node t)) host_ok); [done|done|]. intros R e s' He.
  eapply always_mono; [|apply (asked_answers t R e s')]. intros tr rs H. by destruct e; try done; apply H.
Qed.
Lemma stop_part t vmid b : A ("POST", vm_path (Node t) vmid "/status/stop", ∅) →
  always (interp (routed t) (StatusGatedStop (Node t) vmid) b) (λ tr _, Forall host_ok tr).
Proof.
  intros HA. eapply always_mono; [|apply (interp_refines _ (asked_step (Node t)) (asked_answers t)), asks_always].
  - cbn. intros tr rs (evs & He & Hst). eapply steps_host_asked; [exact Hst|exact He].
  - unfold StatusGatedStop. asks.
Qed.
End asked.
(** ** The verbs *)
Lemma x_outer_sub tr tr' : sub_trace tr tr' → sub_trace (x_outer tr) (x_outer tr').
Proof. intros H ev (x & Hx & He)%list_elem_of_omap. apply list_elem_of_omap. exists x. split; [by apply H|done]. Qed.
Lemma pve_of_sub tr tr' : sub_trace tr tr' → sub_trace (pve_of tr) (pve_of tr').
Proof. intros H ev (x & Hx & He)%list_elem_of_omap. apply list_elem_of_omap. exists x. split; [by apply H|done]. Qed.
Lemma gone_sub cfg vmid upid tr tr' : sub_trace tr tr' → gone cfg vmid upid tr → gone cfg vmid upid tr'.
Proof.
  intros H (? & (j & ? & ?) & (j2 & ? & ?) & j3 & ms & ? & ?). split; [done|]. split_and!.
  - exists j. split; [by eapply got_mono|done].
  - exists j2. split; [by eapply got_mono|done].
  - exists j3, ms. split; [by eapply got_mono|done].
Qed.
Section verbs.
Context (v : verb) (targetID vmidArg pool tag : string).
Local Notation passed := (cleared v pool tag).
Local Notation may := (allowed v).
Local Notation success := (shown_done v pool tag).
Lemma cleared_sub t vmid tr tr' : sub_trace tr tr' → passed t vmid tr → passed t vmid tr'.
Proof.
  intros H. apply x_outer_sub in H. unfold cleared. destruct v; try apply (vetted_mono _ _ _ _ _ _ H).
  intros (path & Hv & Hne & Hp). exists path. split_and!; [by apply (vetted_mono _ _ _ _ _ _ H)|done|]. destruct Hp as [?|[? Hp]]; [by left|right].
  split; [done|by apply H].
Qed.
Lemma shown_sub t vmid tr tr' : sub_trace tr tr' → success t vmid tr → success t vmid tr'.
Proof.
  intros H. apply x_outer_sub, pve_of_sub in H. unfold shown_done. destruct v; try done.
  - intros (upid & Hg). exists upid. by eapply gone_sub.
  - apply gone_sub, H.
  - intros (l & Hl & ?). exists l. split; [by apply H|done].
Qed.
(** What a run does with the client open, and what it does under the lock. *)
Definition open_good (t : Target) (vmid : Z) (tr : list (event harnessE)) (r : res unit) : Prop :=
  guarded x_changing (λ pre x, passed t vmid pre ∧ held targetID vmid pre ∧ ∃ c, x_request x = Some c ∧ may (Node t) vmid c) tr ∧
  (r = Ok tt → success t vmid tr).
Definition lock_good (t : Target) (vmid : Z) (tr : list (event harnessE)) (r : res unit) : Prop :=
  guarded x_changing (λ pre x, passed t vmid pre ∧ none x_unlocks pre ∧ ∃ c, x_request x = Some c ∧ may (Node t) vmid c) tr ∧
  (r = Ok tt → success t vmid tr).
Lemma part_unchanging tr : part (λ _, False) tr → none x_changing tr.
Proof. intros [_ H] x Hx. destruct (x_changing x) eqn:Hc; [|done]. by destruct (H x Hx Hc) as (c & _ & []). Qed.
(** A run that was passed, and the rest of it. *)
Lemma cleared_good t vmid pre tr r : part (λ _, False) pre → passed t vmid pre → part (may (Node t) vmid) tr →
  (r = Ok tt → success t vmid (pre ++ tr)) → lock_good t vmid (pre ++ tr) r.
Proof.
  intros Hp Hc [Hu Ht] Hs. split; [|done]. apply guarded_app; [by apply none_guarded, part_unchanging|].
  intros p x post -> Hx. split_and!.
  - eapply cleared_sub; [|exact Hc]. apply sub_trace_l.
  - apply none_app; [apply Hp|]. intros y Hy. apply Hu. set_solver.
  - apply Ht; [set_solver|done].
Qed.
Lemma idle_good t vmid tr e : part (λ _, False) tr → lock_good t vmid tr (Er e).
Proof. intros Hp. split; [by apply none_guarded, part_unchanging|done]. Qed.
Lemma open_end t vmid tr tr' r : none x_changing tr' → open_good t vmid tr r → open_good t vmid (tr ++ tr') r.
Proof.
  intros Hn [Hg Hs]. split; [apply guarded_app; [done|by apply none_guarded]|]. intros Hr. eapply shown_sub, Hs, Hr. apply sub_trace_l.
Qed.
Lemma x_locked_good t vmid body :
  always body (lock_good t vmid) → always (x_locked (vm_key targetID vmid) body) (open_good t vmid).
Proof.
  intros Hb. unfold x_locked, x_deferring. cbn [bind trigger always]. intros [[]|e]; cbn [bind always].
  2: { split; [by apply none_guarded, none_cons, none_nil|done]. }
  eapply always_call; [exact Hb|]. intros tr r [Hg Hs]. cbn [bind trigger always]. intros [].
  change (Ev (XLock _) (Ok tt) :: tr ++ [Ev XUnlock tt]) with (([Ev (XLock (vm_key targetID vmid)) (Ok tt)] ++ tr) ++ [Ev XUnlock tt]).
  apply open_end; [by apply none_cons, none_nil|]. split.
  - apply guarded_app; [by apply none_guarded, none_cons, none_nil|]. eapply guarded_mono; [|exact Hg].
    intros pre x (Hc & Hu & Hx). split_and!; [eapply cleared_sub, Hc; apply sub_trace_r| |done].
    split; [left; by left|by apply none_cons].
  - intros Hr. eapply shown_sub, Hs, Hr. apply sub_trace_r.
Qed.
(** A verb that only reads. *)
Lemma x_read_locked_good t vmid body :
  always body (λ tr r, part (λ _, False) tr ∧ (r = Ok tt → success t vmid tr)) →
  always (x_read_locked (vm_key targetID vmid) body) (open_good t vmid).
Proof.
  intros Hb. unfold x_read_locked, x_deferring. cbn [bind trigger always]. intros [[]|e]; cbn [bind always].
  2: { split; [by apply none_guarded, none_cons, none_nil|done]. }
  eapply always_call; [exact Hb|]. intros tr r [Hp Hs]. cbn [bind trigger always]. intros [].
  change (Ev (XReadLock _) (Ok tt) :: tr ++ [Ev XUnlock tt]) with (([Ev (XReadLock (vm_key targetID vmid)) (Ok tt)] ++ tr) ++ [Ev XUnlock tt]).
  apply open_end; [by apply none_cons, none_nil|]. split.
  - apply none_guarded, (none_app _ [_]); [by apply none_cons, none_nil|by apply part_unchanging].
  - intros Hr. eapply shown_sub, Hs, Hr. apply sub_trace_r.
Qed.
Definition verb_good (tr : list (event harnessE)) (r : res unit) : Prop :=
  guarded x_changing (permitted v targetID vmidArg pool tag) tr ∧
  (r = Ok tt → ∃ t vmid, Ev (XOpen targetID) (Ok t) ∈ tr ∧ harnessVMID vmidArg = Ok vmid ∧ success t vmid tr).
Lemma with_harness_good {B} format (args : res B) body :
  (∀ f vmid b t, args = Ok b → always (body f vmid b t) (open_good t vmid)) →
  always (with_harness format targetID vmidArg args body) verb_good.
Proof.
  assert (∀ tr e, none x_changing tr → verb_good tr (Er e)) as Hstop by (intros tr e H; split; [by apply none_guarded|done]).
  intros Hb. unfold with_harness. destruct (ParseFormat format) as [f|e]; cbn [bind always]; [|by apply Hstop, none_nil].
  destruct (harnessVMID vmidArg) as [vmid|e] eqn:Hid; cbn [bind always]; [|by apply Hstop, none_nil].
  destruct args as [b|e]; cbn [bind trigger always]; [|by apply Hstop, none_nil].
  intros [[]|e]; cbn [bind trigger always]; [|by apply Hstop, none_cons, none_nil].
  intros [t|e]; cbn [bind always]; [|by apply Hstop; do 2 (apply none_cons; [done|]); apply none_nil].
  unfold x_deferring. eapply always_call; [by apply (Hb f vmid b t)|]. intros tr r Hg. cbn [bind trigger always]. intros [].
  apply (open_end t vmid _ [Ev XClose tt]) in Hg as [Hg Hs]; [|by apply none_cons, none_nil].
  set (pre0 := [Ev XRoster (Ok tt); Ev (XOpen targetID) (Ok t)]).
  change (verb_good (pre0 ++ (tr ++ [Ev XClose tt])) r). split.
  - apply guarded_app; [by apply none_guarded; do 2 (apply none_cons; [done|]); apply none_nil|]. eapply guarded_mono; [|exact Hg].
    intros pre x (Hc & [Hk Hu] & c & Hx & Ha). exists t, vmid, c. split_and!; [set_solver|done|eapply cleared_sub, Hc; apply sub_trace_r| |done|done].
    split; [destruct Hk; [left|right]; set_solver|]. apply none_app; [|done]. do 2 (apply none_cons; [done|]). apply none_nil.
  - intros Hr. exists t, vmid. split_and!; [set_solver|done|]. eapply shown_sub, Hs, Hr. apply sub_trace_r.
Qed.
End verbs.
(** ** Each verb *)
Lemma part_call {B C} A (m : io harnessE B) (f : B → io harnessE C) :
  always m (λ tr _, part A tr) → (∀ b, always (f b) (λ tr _, part A tr)) → always (bind m f) (λ tr _, part A tr).
Proof. intros Hm Hf. eapply always_call; [exact Hm|]. intros tr b Hp. eapply always_mono; [|apply Hf]. intros tr' c. by apply part_app. Qed.
Lemma render_part A f j : always (trigger (XRender f j)) (λ tr _, part A tr).
Proof. cbn. intros r. by apply part_one. Qed.
Lemma read_part {B} A (m : io pveE B) : always m (λ tr _, mutations tr = []) → always (x_pve m) (λ tr _, part A tr).
Proof.
  intros Hm. eapply always_mono; [|apply (pve_part m A (λ _ _, True))]; [by intros tr r [? _]|].
  eapply always_mono; [|exact Hm]. intros tr r ->. split; [by intros c ?%elem_of_nil|done].
Qed.
Lemma rawUPID_sends (A : string * string * Values → Prop) m p ps : A (m, p, ps) → always (rawUPID m p ps) (λ tr _, ∀ c, c ∈ mutations tr → A c).
Proof.
  intros HA. unfold rawUPID. eapply always_call; [apply RawRequest_spec|].
  assert (∀ hr c, c ∈ mutations [Ev (Http m p ps) hr] → A c) as Hone.
  { intros hr c Hc. unfold mutations in Hc. cbn in Hc. destruct (eqb m "GET"); [by apply elem_of_nil in Hc|]. by apply list_elem_of_singleton in Hc as ->. }
  intros tr r [[-> _]|(hr & -> & _)]; destruct r; cbn [always]; rewrite ?app_nil_r; (by intros c ?%elem_of_nil) || apply Hone.
Qed.
Lemma leaf_part (A : string * string * Values → Prop) node m p ps what : A (m, p, ps) → always (leaf node m p ps what) (λ tr _, part A tr).
Proof.
  intros HA. unfold leaf. apply part_call.
  - eapply always_mono; [|apply (pve_part _ A (λ _ _, True))]; [by intros tr r [? _]|].
    eapply always_mono; [|by apply rawUPID_sends]. by intros tr r H.
  - intros [upid|e]; [|by apply part_nil]. apply part_call; [apply read_part, WaitForTask_quiet|]. intros [[]|e]; apply part_nil.
Qed.
Lemma listed_part node vmid A :
  always (x_pve (listSnapshotsVerifiable node vmid)) (λ tr r, part A tr ∧
    ∀ snaps, r = Ok snaps → ∃ l, list_read node vmid l (x_reads tr) ∧ has_current l = true ∧ snaps = merge_sort older_first (realSnapshots l)).
Proof.
  apply (pve_part _ A (λ tr r, ∀ snaps, r = Ok snaps → ∃ l, list_read node vmid l tr ∧ has_current l = true ∧ snaps = merge_sort older_first (realSnapshots l))).
  unfold listSnapshotsVerifiable. eapply always_call; [apply ListSnapshots_spec|]. intros tr [l|e] [Hm Hl]; cbn [always].
  - destruct (has_current l) eqn:Hc; cbn [always]; rewrite app_nil_r, Hm; (split; [by intros c ?%elem_of_nil|]); [|done].
    intros snaps [= <-]. exists l. split_and!; [by apply Hl|done|done].
  - rewrite app_nil_r, Hm. split; [by intros c ?%elem_of_nil|done].
Qed.
Section each.
Context (IntOrBool : json → option bool) (format targetID vmidArg pool tag : string).
Local Notation good v := (verb_good v targetID vmidArg pool tag).
(** A change that needs no ledger: the guard, then what [rest] sends. *)
Lemma change_good v t vmid rest :
  (match v with VDestroy _ _ => False | _ => True end) →
  always rest (λ tr r, part (allowed v (Node t) vmid) tr ∧ (r = Ok tt → shown_done v pool tag t vmid tr)) →
  always (let? _ := guarded_change pool tag t vmid orelse id in rest) (lock_good v pool tag t vmid).
Proof.
  intros Hv Hr. unfold guarded_change. eapply always_call; [apply guard_part|]. intros tr [[]|e] [Hp Hc]; cbn [always].
  2: { rewrite app_nil_r. by apply idle_good. }
  eapply always_mono; [|exact Hr]. intros tr' r [Hp' Hs]. apply cleared_good; [done| |done|].
  - specialize (Hc eq_refl). by destruct v.
  - intros Hok. eapply shown_sub, Hs, Hok. apply sub_trace_r.
Qed.
(** Likewise where a success says nothing more. *)
Lemma hv_plain_good v t vmid rest :
  (match v with VDestroy _ _ | VGone _ | VSnapshotCreate _ _ _ => False | _ => True end) →
  always rest (λ tr _, part (allowed v (Node t) vmid) tr) →
  always (let? _ := guarded_change pool tag t vmid orelse id in rest) (lock_good v pool tag t vmid).
Proof.
  intros Hv Hr. apply change_good; [by destruct v|]. eapply always_mono; [|exact Hr]. intros tr r H. split; [done|]. by destruct v.
Qed.
Lemma stop_good timeout : always (harness_stop format targetID vmidArg pool tag timeout) (good (VStop timeout)).
Proof.
  apply with_harness_good. intros f vmid _ t _. apply x_locked_good, hv_plain_good; [done|].
  destruct (stop_params timeout) as [params|e] eqn:Hp; cbn [bind always]; [|apply part_nil].
  apply part_call; [apply leaf_part; by exists params|]. intros [upid|e]; [apply render_part|apply part_nil].
Qed.
Lemma create_good' name vmstate description :
  always (harness_create format targetID vmidArg pool tag name vmstate description) (good (VSnapshotCreate name vmstate description)).
Proof.
  apply with_harness_good. intros f vmid [] t Hargs. apply x_locked_good, change_good; [done|]. cbv zeta.
  destruct (check_fields _ _) as [[]|e]; cbn [bind always]; [|split; [apply part_nil|done]].
  eapply always_call; [by apply (leaf_part (allowed (VSnapshotCreate name vmstate description) (Node t) vmid))|].
  intros tr [upid|e] Hp; cbn [always]; [|rewrite app_nil_r; by split].
  eapply always_call; [apply listed_part|]. intros tr' [snaps|e] [Hp' Hl]; cbn [always]; [|rewrite app_nil_r; split; [by apply part_app|done]].
  destruct (Hl snaps eq_refl) as (l & Hread & Hcur & ->). case_bool_decide as Hin; cbn [always]; [|rewrite app_nil_r; split; [by apply part_app|done]].
  cbn. intros r. split; [apply part_app; [done|]; apply part_app; [done|by apply part_one]|]. intros _. exists l.
  split_and!; [|done|by rewrite merge_sort_Permutation in Hin]. unfold list_read in *. rewrite !x_reads_app. set_solver.
Qed.
Lemma list_good : always (harness_list format targetID vmidArg) (good VSnapshotList).
Proof.
  apply with_harness_good. intros f vmid _ t _. apply x_read_locked_good.
  eapply always_mono; [|apply part_call; [apply read_part|]]; [intros tr r H; split; [exact H|done]| |].
  - unfold harness_realSnapshots. eapply always_call; [apply ListSnapshots_spec|]. intros tr [l|e] [Hm _]; cbn [always]; by rewrite app_nil_r.
  - intros [snaps|e]; [apply render_part|apply part_nil].
Qed.
Lemma gone_good task : always (harness_gone format targetID vmidArg pool tag task) (good (VGone task)).
Proof.
  unfold harness_gone. cbv zeta. apply with_harness_good. intros f vmid [] t _. apply x_read_locked_good.
  eapply always_call; [apply (pve_part _ (λ _, False) (λ tr r, r = Ok tt → gone (harnessConfig pool tag t) vmid (parseDestroyTask task) tr))|].
  - eapply always_mono; [|apply VMGone_spec]. intros tr r [-> H]. split; [by intros c ?%elem_of_nil|done].
  - intros tr [[]|e] [Hp Hg]; cbn [always]; [|by rewrite app_nil_r].
    cbn. intros r. split; [apply part_app; [done|by apply part_one]|]. intros _. eapply (gone_sub _ _ _ (x_reads tr)); [|by apply Hg].
    rewrite x_reads_app. apply sub_trace_l.
Qed.
Lemma delete_good names : always (harness_delete format targetID vmidArg pool tag names) (good (VSnapshotDelete names)).
Proof.
  apply with_harness_good. intros f vmid _ t _. apply x_locked_good, hv_plain_good; [done|].
  eapply always_call; [apply (listed_part _ _ (allowed (VSnapshotDelete names) (Node t) vmid))|].
  intros tr [snaps|e] [Hp _]; cbn [always]; [|by rewrite app_nil_r]. cbv zeta.
  destruct (split_names (ranks snaps) ∅ names) as [present absent] eqn:Hsplit. apply split_names_spec in Hsplit as (_ & Hin & _).
  eapply always_mono; [intros tr' r H; apply part_app; [exact Hp|exact H]|]. apply part_call.
  - destruct present as [|n present]; [apply part_nil|].
    eapply always_mono; [|apply (pve_part _ (allowed (VSnapshotDelete names) (Node t) vmid) (λ _ _, True))]; [by intros tr' r [? _]|].
    eapply always_mono; [|apply cascade_order]. intros tr' r (l & Hsub & -> & _). split; [|done].
    intros c (m & -> & Hm)%list_elem_of_fmap. exists m. split; [|done]. eapply elem_of_sublist in Hsub; [|exact Hm].
    rewrite merge_sort_Permutation in Hsub. apply Hin in Hsub. tauto.
  - intros d. destruct (d.2); [apply part_nil|apply render_part].
Qed.
Lemma rollback_good name witness :
  always (harness_rollback IntOrBool format targetID vmidArg pool tag name witness) (good (VSnapshotRollback name witness)).
Proof.
  apply with_harness_good. intros f vmid _ t _. apply x_locked_good, hv_plain_good; [done|].
  apply part_call.
  - eapply always_mono; [|apply (pve_part _ (allowed (VSnapshotRollback name witness) (Node t) vmid) (λ _ _, True))]; [by intros tr r [? _]|].
    eapply always_mono; [|apply Rollback_discards_nothing]. intros tr r ([->| ->] & _); split; try done; [by intros c ?%elem_of_nil|].
    intros c ->%list_elem_of_singleton. by left.
  - intros [[]|e]; [|apply part_call; [destruct (errors_As _ e); [apply part_call; [apply render_part|intros; apply part_nil]|apply part_nil]|intros; apply part_nil]].
    cbv zeta. destruct witness; [|apply render_part]. apply part_call; [apply nonce_part|]. intros [wm|e]; [|apply part_nil].
    apply part_call; [|intros w; destruct (w.2); [apply part_nil|apply render_part]].
    eapply always_mono; [|apply witness_part]. intros tr w. apply part_mono. intros c ->. right. split; [done|]. by exists wm.1.
Qed.
(** The lock of [Run] itself, taken after the guard. *)
Lemma run_good t vmid pre tr r f :
  part (λ _, False) pre → cleared (VShutdown 0 false) pool tag t vmid pre →
  lock_shape (HLock (vm_key targetID vmid)) HUnlock (host_ok (allowed (VShutdown 0 false) (Node t) vmid)) tr →
  always (match r : res Result with Er e => Ret (Er e) | Ok _ => trigger (XRender f (result_json "shutdown" targetID vmid)) end)
    (λ tr', open_good (VShutdown 0 false) targetID pool tag t vmid (pre ++ (lift_event (@XHost) <$> tr) ++ tr')).
Proof.
  intros Hp Hc Htr.
  assert (open_good (VShutdown 0 false) targetID pool tag t vmid (pre ++ (lift_event (@XHost) <$> tr)) (Ok tt)) as [Hg _].
  { split; [|done]. apply guarded_app; [by apply none_guarded, part_unchanging|].
    destruct Htr as [[e ->]|(body & -> & Hb)]; [by apply none_guarded, none_cons, none_nil|]. apply host_part in Hb as [Hu Hx].
    rewrite !fmap_app, app_assoc. apply guarded_app; [|by apply none_guarded, none_cons, none_nil].
    apply (guarded_app _ _ [_]); [by apply none_guarded, none_cons, none_nil|]. intros p x post Heq Hch. split_and!.
    - eapply cleared_sub; [|exact Hc]. apply sub_trace_l.
    - split; [right; set_solver|]. apply none_app; [apply Hp|]. apply none_cons; [done|]. intros y Hy. apply Hu. rewrite Heq. set_solver.
    - apply Hx; [rewrite Heq; set_solver|done]. }
  assert (∀ tr' r', none x_changing tr' → open_good (VShutdown 0 false) targetID pool tag t vmid (pre ++ (lift_event (@XHost) <$> tr) ++ tr') r') as Hend.
  { intros tr' r' Hn. rewrite app_assoc. by apply open_end. }
  destruct r; cbn; [intros r|]; apply Hend; [by apply none_cons, none_nil|apply none_nil].
Qed.
Lemma shutdown_asks node vmid R (e : opE R) s :
  match e with
  | OLock _ | OUnlock => True
  | e => asks (client_asks (allowed (VShutdown 0 false) node vmid) node) (op_handler (VMShutdown node vmid) _ e s)
  end.
Proof.
  destruct e; cbn [op_handler VMShutdown Read Apply ReRead PostApply PostNoop]; try done;
    unfold shutdown_Read, shutdown_Apply, shutdown_body, shutdown_state; asks; cbn; auto.
Qed.
Lemma shutdown_good timeout force : always (harness_shutdown format targetID vmidArg pool tag timeout force) (good (VShutdown timeout force)).
Proof.
  apply with_harness_good. intros f vmid _ t _. cbv zeta. destruct ((timeout =? 0)%Z && negb force) eqn:Hplain.
  - apply andb_true_iff in Hplain as [->%Z.eqb_eq Hf]. destruct force; [done|]. unfold guarded_change.
    eapply always_call; [apply guard_part|]. intros tr [[]|e] [Hp Hc]; cbn [always].
    2: { rewrite app_nil_r. split; [by apply none_guarded, part_unchanging|done]. }
    eapply always_call; [apply lift_spec, (host_run (allowed (VShutdown 0 false) (Node t) vmid)), shutdown_asks|].
    intros tr' rs (t0 & -> & Hsh). by apply run_good; [|apply Hc|].
  - apply x_locked_good, hv_plain_good; [done|]. destruct (shutdown_params timeout force) as [params|e] eqn:Hps; cbn [bind always]; [|apply part_nil].
    apply part_call; [apply leaf_part; right; by exists params|]. intros [upid|e]; [apply render_part|apply part_nil].
Qed.
Lemma ledger_part createdFile :
  always (harnessLedger createdFile) (λ tr led, part (λ _, False) tr ∧ ∀ path, led = Some path →
    path ≠ "" ∧ (path = createdFile ∨ createdFile = "" ∧ Ev (OEnv "HARNESS_CREATED_FILE") path ∈ x_outer tr)).
Proof.
  assert (∀ p path, (if eqb p "" then None else Some p) = Some path → path = p ∧ path ≠ "") as Hsome.
  { intros p path. destruct (eqb p "") eqn:He; [done|]. intros [= <-]. by apply eqb_false in He. }
  unfold harnessLedger. destruct (eqb createdFile "") eqn:Hf; cbn.
  - apply eqb_true in Hf. intros p. split; [by apply part_one|]. intros path [-> Hne]%Hsome. split; [done|]. right. split; [done|]. by left.
  - split; [apply part_nil|]. intros path [-> Hne]%Hsome. split; [done|by left].
Qed.
Lemma destroy_good yes createdFile : always (harness_destroy format targetID vmidArg pool tag yes createdFile) (good (VDestroy yes createdFile)).
Proof.
  apply with_harness_good. intros f vmid _ t _. apply x_locked_good. cbv zeta.
  set (V := VDestroy yes createdFile). set (A := allowed V (Node t) vmid).
  eapply always_call; [apply ledger_part|]. intros tr0 led [Hp0 Hled].
  eapply always_call; [apply guard_part|]. intros tr1 [[]|e] [Hp1 Hc]; cbn [always].
  2: { rewrite app_nil_r. apply idle_good. by apply part_app. }
  assert (cleared V pool tag t vmid (tr0 ++ tr1)) as Hcl.
  { destruct (Hc eq_refl) as (Hv & Hpool & Htag & Hrec). destruct (Hrec eq_refl) as (path & -> & Hr).
    destruct (Hled path eq_refl) as [Hne Hp]. exists path. split_and!; [|done|].
    - eapply vetted_mono; [|by apply Hc]. apply x_outer_sub, sub_trace_r.
    - destruct Hp as [?|[? Hin]]; [by left|right]. split; [done|]. rewrite x_outer_app. set_solver. }
  destruct yes eqn:Hyes; [|cbn [always]; rewrite app_nil_r; by apply idle_good, part_app].
  eapply always_mono with (Q := λ tr r, part A tr ∧ (r = Ok tt → shown_done V pool tag t vmid tr)).
  { intros tr r [Hp Hs]. rewrite app_assoc. apply cleared_good; [by apply part_app|done|done|].
    intros Hok. eapply shown_sub, Hs, Hok. apply sub_trace_r. }
  eapply always_call; [apply lift_spec, (stop_part A); split; [done|by left]|]. intros tr2 rs (t2 & -> & Hp2%host_part).
  destruct rs.1 as [[]|e]; cbn [bind always]; [|by rewrite app_nil_r].
  destruct (check_fields _ _) as [[]|e]; cbn [bind always]; [|by rewrite app_nil_r].
  eapply always_call; [apply (leaf_part A); split; [done|by right]|]. intros tr3 [upid|e] Hp3; cbn [always].
  2: { rewrite app_nil_r. split; [by apply part_app|done]. }
  eapply always_call; [apply (pve_part _ A (λ tr r, r = Ok tt → gone (harnessConfig pool tag t) vmid upid tr))|].
  { eapply always_mono; [|apply VMGone_spec]. intros tr r [-> H]. split; [by intros c ?%elem_of_nil|done]. }
  intros tr4 [[]|e] [Hp4 Hg]; cbn [always].
  - cbn. intros r. split; [apply part_app; [done|]; apply part_app; [done|]; apply part_app; [done|by apply part_one]|]. intros _. exists upid.
    eapply (gone_sub _ _ _ (x_reads tr4)); [|by apply Hg]. rewrite !x_reads_app. intros ev Hev. set_solver.
  - rewrite app_nil_r. split; [apply part_app; [done|by apply part_app]|done].
Qed.
Lemma harness_vm_good v : always (harness_vm IntOrBool format targetID vmidArg pool tag v) (good v).
Proof.
  destruct v; cbn [harness_vm]; auto using stop_good, shutdown_good, destroy_good, gone_good, list_good, create_good', delete_good, rollback_good.
Qed.
End each.

(** * Properties *)
(** C29: Whatever a verb of [harness vm] changes is one of its own requests, about the VM it was told;
    it is made under that VM's lock, still held, and only once the guard has let the VM pass:
    PVE said that it is the one member of the harness's pool with its number, on the harness's
    node, with the harness's tag, and, for a destroy, which must be confirmed, the ledger that a
    flag or the environment names lists it. [destroy] and [gone] succeed only on the proof that the
    VM is gone, and [snapshot create] only once a complete list shows the snapshot. *)
Theorem harness_vm_safe IntOrBool format targetID vmidArg pool tag v :
  always (harness_vm IntOrBool format targetID vmidArg pool tag v) (λ tr r,
    guarded x_changing (permitted v targetID vmidArg pool tag) tr ∧
    (r = Ok tt → ∃ t vmid, Ev (XOpen targetID) (Ok t) ∈ tr ∧ harnessVMID vmidArg = Ok vmid ∧ shown_done v pool tag t vmid tr)).
Proof. apply harness_vm_good. Qed.

(** * Examples *)
(** A harness of VM 690, with [tags]; the log is of the locks and of what is changed. *)
Definition lab_hv_pve (tags : string) : env pveE (list string) := λ R e s,
  match e in pveE R return R * list string with
  | Http m p ps =>
      if eqb m "GET" then ((lab_outer_pve "690" tags _ (OPve (Http m p ps)) tt).1, s)
      else (HResp 200 "200 OK" (double_quoted "{'data':'UPID:n:0000A1B2:00C3D4E5:65F00000:qmstop:690:root@pam:'}"), (m +:+ " " +:+ p) :: s)
  | PcNewTask _ => (Some "n", s)
  | PcTask _ => (Ok ("stopped", "OK"), s)
  | e => ((rest_env (λ _ _ _, HTransport (errorf "down")) _ e tt).1, s)
  end.
Definition lab_hv_env (tags : string) : env harnessE (list string) := λ R e s,
  match e in harnessE R return R * list string with
  | XRoster => (Ok tt, s)
  | XOpen t => (Ok {| target_ID := t; Host := "h"; Node := "n"; SSH := None |}, s)
  | XClose => (tt, "close" :: s)
  | XLock k => (Ok tt, ("lock " +:+ key_String k) :: s)
  | XReadLock k => (Ok tt, s)
  | XUnlock => (tt, "unlock" :: s)
  | XOuter e => match e in outerE R return R * list string with
                | OPve e => lab_hv_pve tags _ e s
                | e => ((lab_outer_pve "690" tags _ e tt).1, s)
                end
  | XHost e => match e in hostE R return R * list string with
               | HPve e => lab_hv_pve tags _ e s
               | HSsh e => match e in sshE R return R * list string with SRun _ => (Er (errorf "down"), s) end
               | HDecrypt _ => (Er (errorf "down"), s) | HDial _ _ _ _ => (Er (errorf "down"), s)
               | HClose => (tt, s) | HLock _ => (Ok tt, s) | HUnlock => (tt, s)
               end
  | XSnap e => match e in snapE R return R * list string with
               | SOpen _ => (Er (errorf "down"), s) | SClose => (tt, s) | SRoster => (Ok tt, s) | SLock _ => (Ok tt, s)
               | SReadLock _ => (Ok tt, s) | SUnlock => (tt, s) | SRandom => (Ok "", s) | SInterrupted => (false, s)
               | SNotice _ => (tt, s) | SRender _ _ => (Ok tt, s)
               | SAgent e => match e in agentE R return R * list string with
                             | APve e => lab_hv_pve tags _ e s
                             | ACtxErr _ => (None, s) | ASelect _ => (WTick, s) | ARemaining => (0%Z, s) | APause _ => (None, s)
                             end
               end
  | XRender _ _ => (Ok tt, "show" :: s)
  end.
Definition lab_hv (tags vmidArg : string) (v : verb) : option (res unit * list string) :=
  match run (lab_hv_env tags) (harness_vm (λ _, None) "json" "pve1" vmidArg DefaultPool DefaultTag v) [] with
  | Some (_, r, s) => Some (r, reverse s)
  | None => None
  end.
Example harness_stop_runs : lab_hv "a;pveforge-harness" "690" (VStop 5) = Some (Ok tt,
  ["lock pve1/vm/690"; "POST /nodes/n/qemu/690/status/stop"; "show"; "unlock"; "close"]).
Proof. vm_compute. reflexivity. Qed.
Example harness_stop_refuses : lab_hv "a" "690" (VStop 5) = Some (Er (errorf "VM 690 does not carry tag pveforge-harness"),
  ["lock pve1/vm/690"; "unlock"; "close"]).
Proof. vm_compute. reflexivity. Qed.
(** A destroy with the ledger but without [--yes]; a VM that is not the harness's own. *)
Example harness_destroy_refuses :
  lab_hv "pveforge-harness" "690" (VDestroy false "led") =
    Some (Er (errorf "vm 690: this irreversible destroy must be confirmed with --yes"), ["lock pve1/vm/690"; "unlock"; "close"]) ∧
  lab_hv "pveforge-harness" "100" (VDestroy true "led") = Some (Er (errorf "VMID 100 is not one of 690-699"), []).
Proof. split; vm_compute; reflexivity. Qed.
(** Every field the verbs send is one that the harness's list allows. *)
Example verb_fields_allowed : check_fields "stop" ["timeout"] = Ok tt ∧ check_fields "shutdown" ["timeout"; "forceStop"] = Ok tt ∧
  check_fields "destroy" ["purge"; "destroy-unreferenced-disks"] = Ok tt ∧ check_fields "snapshot" ["snapname"; "vmstate"; "description"] = Ok tt.
Proof. vm_compute. done. Qed.
