(* ===== verification/OpCmd.v ===== *)
(** cmd/pveforge/network.go and storage.go: the commands that run an Op on a node's network or on
    a storage, down to the exchanges with PVE and the host. *)
From Stdlib Require Import Ascii.
From S2P Require Import Prelude GoLib Errors Json KvJson Rest Storage OpRun Client VmFields VmLife Network StorageOps.
From S2P Require Import Remote Routed RootAccess VmCmd ApiCmd.

(** ** What the commands share *)
Definition NetworkLockKey (target node : string) : ObjectKey := {| TargetID := target; Kind := "network"; ID := node |}.
Definition storage_key (target storage : string) : ObjectKey := {| TargetID := target; Kind := "storage"; ID := storage |}.
(** The arguments, the client, and the roster's path. *)
Definition with_client {B} (args : res B) (targetID : string) (body : B → Target → io vmE (res unit)) : io vmE (res unit) :=
  let? b := Ret args orelse id in
  let? t := trigger (VOpen targetID) orelse id in
  deferring VClose (let? _ := trigger VResolve orelse id in body b t).
(** [Validate], [Run], and the report of its result and of the Op's state. *)
Definition run_command {S} (t : Target) (op : Op S) (validate : res unit) (key : ObjectKey) (force : bool) (s : S)
    (report : Result → S → io vmE (res unit)) : io vmE (res unit) :=
  let? _ := Ret validate orelse id in
  let! rs := lift (@VHost) (interp (routed t) (run_op op key force s) false) in
  let? r := Ret rs.1.1 orelse id in
  report r rs.1.2.
(** A line for stdout, whose error is not looked at. *)
Definition say (line : string) : io vmE (res unit) := let! _ := trigger (VOut line) in Ret (Ok tt).
Definition changed_or (unchanged line targetID kind id : string) (r : Result) : io vmE (res unit) :=
  if Changed r then
    let! _ := trigger (VOut line) in
    let! _ := warnNotReread targetID kind id (AfterErr r) in
    Ret (Ok tt)
  else say unchanged.

(** ** network.go *)
Fixpoint add_wanted (m : gmap string string) (pairs : list Pair) : res (gmap string string) :=
  match pairs with
  | [] => Ok m
  | p :: pairs' =>
      guard^ bool_decide (m !! Field p = None) orelse errorf ("duplicate field " +:+ quote (Field p) +:+ " given more than once") in
      add_wanted (<[Field p := Value p]> m) pairs'
  end.
Definition wantedFieldsFromKVArgs (kvArgs : list string) : res (gmap string string) :=
  let^ pairs := ParseKVArgs kvArgs orelse id in add_wanted ∅ pairs.
Section commands.
Context (sum256 : string → string) (targetID : string).
Definition bridge_command (mode : networkBridgeMode) (iface mgmt done undone : string) (args : res (gmap string string)) : io vmE (res unit) :=
  with_client args targetID (λ wanted t,
    run_command t (NetworkBridgeEnsure sum256 (Node t) iface mgmt wanted mode) (bridge_Validate (Node t) iface mgmt wanted mode)
      (NetworkLockKey targetID (Node t)) false tt
      (λ r _, changed_or (targetID +:+ ": bridge " +:+ iface +:+ undone) (targetID +:+ ": bridge " +:+ iface +:+ done) targetID "bridge" iface r)).
Definition bridge_create (iface mgmt : string) (kvArgs : list string) : io vmE (res unit) :=
  bridge_command modeCreate iface mgmt " created" " already up to date" (wantedFieldsFromKVArgs kvArgs).
Definition bridge_destroy (iface mgmt : string) : io vmE (res unit) :=
  bridge_command modeDestroy iface mgmt " destroyed" " already absent" (Ok ∅).
Definition network_set (iface : string) (kvArgs : list string) : io vmE (res unit) :=
  with_client (ParseKVArgs kvArgs) targetID (λ pairs t,
    run_command t (NetworkFieldsEnsure sum256 (Node t) iface pairs) (netfields_Validate (Node t) iface pairs)
      (NetworkLockKey targetID (Node t)) false []
      (λ r applied,
        let? _ := outs (applied_lines targetID pairs applied) orelse id in
        let! _ := warnNotReread targetID "interface" iface (AfterErr r) in
        Ret (Ok tt))).

(** ** storage.go *)
Definition set_content (storage ctype : string) (force : bool) : io vmE (res unit) :=
  let at_ := targetID +:+ ": storage " +:+ storage in
  with_client (Ok tt) targetID (λ _ t,
    run_command t (StorageContentEnsure (Node t) storage ctype) (setc_Validate storage ctype)
      (storage_key targetID storage) force snapshot_zero
      (λ r _, changed_or (at_ +:+ " already lists content type " +:+ quote ctype +:+ "; nothing to do")
                (at_ +:+ " now lists content type " +:+ quote ctype) targetID "storage" storage r)).
Definition alloc_vmid (arg : string) : res Z :=
  let bad := errorf ("storage alloc: vmid " +:+ quote arg +:+ " must be a positive integer") in
  match atoi arg with Some v => guard^ (1 <=? v)%Z orelse bad in Ok v | None => Er bad end.
Definition storage_alloc (storage filename size vmidArg format : string) (force : bool) : io vmE (res unit) :=
  with_client (alloc_vmid vmidArg) targetID (λ vmid t,
    run_command t (VolumeAllocEnsure (Node t) storage filename size vmid format) (alloc_Validate storage filename size vmid)
      (storage_key targetID storage) force ""
      (λ r volid,
        let at_ := targetID +:+ ": volume " +:+ filename in
        say (if Changed r then at_ +:+ " allocated on " +:+ storage +:+ " as " +:+ volid
             else at_ +:+ " already allocated on " +:+ storage +:+ " (" +:+ volid +:+ "); nothing to do"))).
Definition create_storage_params (typ : string) (dataPairs : list string) : res Values :=
  guard^ negb (eqb typ "") orelse errorf "storage create: --type is required" in
  let^ params := parseDataParams dataPairs orelse id in
  guard^ eqb (vget params "type") "" orelse errorf "storage create: set the type with --type, not --data type=" in
  Ok (vset params "type" typ).
Definition storage_create (name typ : string) (dataPairs : list string) (force : bool) : io vmE (res unit) :=
  let at_ := targetID +:+ ": storage " +:+ name in
  with_client (create_storage_params typ dataPairs) targetID (λ params t,
    run_command t (StorageCreate (Node t) name params) (screate_Validate name params)
      (storage_key targetID name) force (SText "")
      (λ r _, changed_or (at_ +:+ " already exists with the requested definition; nothing to do") (at_ +:+ " created") targetID "storage" name r)).
Inductive op_verb :=
| BridgeCreate (iface mgmt : string) (kvArgs : list string)
| BridgeDestroy (iface mgmt : string)
| NetworkSet (iface : string) (kvArgs : list string)
| SetContent (storage ctype : string) (force : bool)
| Alloc (storage filename size vmidArg format : string) (force : bool)
| CreateStorage_ (name typ : string) (dataPairs : list string) (force : bool).
Definition op_command (v : op_verb) : io vmE (res unit) :=
  match v with
  | BridgeCreate iface mgmt kvArgs => bridge_create iface mgmt kvArgs
  | BridgeDestroy iface mgmt => bridge_destroy iface mgmt
  | NetworkSet iface kvArgs => network_set iface kvArgs
  | SetContent storage ctype force => set_content storage ctype force
  | Alloc storage filename size vmidArg format force => storage_alloc storage filename size vmidArg format force
  | CreateStorage_ name typ dataPairs force => storage_create name typ dataPairs force
  end.
End commands.

(** * Specification *)
(** The key of the object a command works on, and what its Op demands of the arguments. *)
Definition key_of (targetID : string) (v : op_verb) (t : Target) : ObjectKey :=
  match v with
  | BridgeCreate _ _ _ | BridgeDestroy _ _ | NetworkSet _ _ => NetworkLockKey targetID (Node t)
  | SetContent storage _ _ | Alloc storage _ _ _ _ _ | CreateStorage_ storage _ _ _ => storage_key targetID storage
  end.
Definition validated (v : op_verb) (t : Target) : Prop :=
  match v with
  | BridgeCreate iface mgmt kvArgs =>
      ∃ w, wantedFieldsFromKVArgs kvArgs = Ok w ∧ bridge_Validate (Node t) iface mgmt w modeCreate = Ok tt
  | BridgeDestroy iface mgmt => bridge_Validate (Node t) iface mgmt ∅ modeDestroy = Ok tt
  | NetworkSet iface kvArgs => ∃ pairs, ParseKVArgs kvArgs = Ok pairs ∧ netfields_Validate (Node t) iface pairs = Ok tt
  | SetContent storage ctype _ => setc_Validate storage ctype = Ok tt
  | Alloc storage filename size vmidArg _ _ => ∃ vmid, alloc_vmid vmidArg = Ok vmid ∧ alloc_Validate storage filename size vmid = Ok tt
  | CreateStorage_ name typ dataPairs _ => ∃ params, create_storage_params typ dataPairs = Ok params ∧ screate_Validate name params = Ok tt
  end.
Definition locked_change (targetID : string) (v : op_verb) (pre : list (event vmE)) : Prop :=
  ∃ t, Ev (VOpen targetID) (Ok t) ∈ pre ∧ validated v t ∧ Ev (VHost (HLock (key_of targetID v t))) (Ok tt) ∈ pre ∧ none v_unlocking pre.

(** * Lemmas *)
Lemma bridge_asks sum256 node iface mgmt w mode : op_asks (NetworkBridgeEnsure sum256 node iface mgmt w mode) lock_free.
Proof.
  intros R e s. destruct e; cbn [op_handler NetworkBridgeEnsure Read Apply ReRead PostApply PostNoop]; try done;
    unfold bridge_Read, bridge_Apply, bridge_body, bridge_prestage, bridge_stage, bridge_check, guardSelfCheck, commit_and_wait, bridge_verify,
      abortAndRevert, revertNetworkStage, revertStagedAfter, commitNetworkStage, fetchInterface; asks; done.
Qed.
Lemma netfields_asks sum256 node iface pairs : op_asks (NetworkFieldsEnsure sum256 node iface pairs) lock_free.
Proof.
  intros R e s. destruct e; cbn [op_handler NetworkFieldsEnsure Read Apply ReRead PostApply PostNoop]; try done;
    unfold netfields_Read, netfields_read, netfields_Apply, netfields_body, netfields_prestage, netfields_stage, netfields_check, commit_and_wait, netfields_verify,
      revertNetworkStage, revertStagedAfter, commitNetworkStage, fetchAllInterfaces, fetchInterface; asks; done.
Qed.
Lemma setc_asks node storage ctype : op_asks (StorageContentEnsure node storage ctype) lock_free.
Proof.
  intros R e s. destruct e; cbn [op_handler StorageContentEnsure Read Apply ReRead PostApply PostNoop]; try done;
    unfold setc_Read, setc_Apply, setc_body, wait_if_upid, diffGuard; asks; done.
Qed.
Lemma alloc_asks node storage filename size vmid format : op_asks (VolumeAllocEnsure node storage filename size vmid format) lock_free.
Proof.
  intros R e s. destruct e; cbn [op_handler VolumeAllocEnsure Read Apply ReRead PostApply PostNoop]; try done;
    unfold alloc_Read, alloc_Apply, alloc_body; asks; done.
Qed.
Lemma screate_asks node name params : op_asks (StorageCreate node name params) lock_free.
Proof.
  intros R e s. destruct e; cbn [op_handler StorageCreate Read Apply ReRead PostApply PostNoop]; try done;
    unfold screate_Read, screate_Apply, screate_body, wait_if_upid; asks; done.
Qed.
(** The exchanges of an Op's run, as the command's. *)
Lemma run_part targetID v t pre tr : Ev (VOpen targetID) (Ok t) ∈ pre → validated v t → none v_unlocking pre →
  lock_shape (HLock (key_of targetID v t)) HUnlock unlocked tr →
  guarded v_changing (λ p _, locked_change targetID v (pre ++ p)) (lift_event (@VHost) <$> tr).
Proof.
  intros Ho Hv Hu [[e ->]|(body & -> & Hb)]; [by apply none_guarded, none_cons, none_nil|]. rewrite !fmap_app.
  apply (guarded_app _ _ [_]); [by apply none_guarded, none_cons, none_nil|]. apply guarded_app; [|by apply none_guarded, none_cons, none_nil].
  intros p x post Heq _. exists t. split_and!; [set_solver|done|set_solver|]. apply none_app; [done|]. apply none_cons; [done|].
  intros y Hy. assert (y ∈ lift_event (@VHost) <$> body) as ([R e r] & -> & Hin)%list_elem_of_fmap by (rewrite Heq; set_solver).
  rewrite Forall_forall in Hb. specialize (Hb _ Hin). cbn in Hb |- *. by destruct e.
Qed.
Lemma say_idle line : always (say line) (λ tr _, none v_changing tr).
Proof. cbn. intros r. by apply none_cons, none_nil. Qed.
Lemma outs_idle lines : always (outs lines) (λ tr _, none v_changing tr).
Proof.
  induction lines as [|l lines IH]; [apply none_nil|]. cbn [outs bind trigger always]. intros [[]|e]; cbn [bind always]; [|by apply none_cons, none_nil].
  eapply always_mono; [|exact IH]. intros tr r H. by apply none_cons.
Qed.
Lemma warn_idle targetID kind id e : always (warnNotReread targetID kind id e) (λ tr _, none v_changing tr).
Proof. eapply always_mono; [|apply warns_idle]. intros tr r [H _]. by apply busy_changing. Qed.
Lemma changed_idle unchanged line targetID kind id r : always (changed_or unchanged line targetID kind id r) (λ tr _, none v_changing tr).
Proof.
  unfold changed_or. destruct (Changed r); [|apply say_idle]. cbn [bind trigger always]. intros r0. apply always_bind.
  eapply always_mono; [|apply warn_idle]. intros tr [] H. cbn. rewrite app_nil_r. by apply none_cons.
Qed.
(** Every change of a command is one of its Op's, made under the lock. *)
Definition op_good (targetID : string) (v : op_verb) (tr : list (event vmE)) : Prop := guarded v_changing (λ pre _, locked_change targetID v pre) tr.
Lemma run_command_good {S} targetID v t (op : Op S) validate force s report pre :
  Ev (VOpen targetID) (Ok t) ∈ pre → none v_unlocking pre → none v_changing pre →
  (validate = Ok tt → validated v t) → op_asks op lock_free → (∀ r s', always (report r s') (λ tr _, none v_changing tr)) →
  always (run_command t op validate (key_of targetID v t) force s report) (λ tr _, op_good targetID v (pre ++ tr)).
Proof.
  intros Ho Hu Hn Hv Ha Hr. unfold run_command.
  assert (∀ tr, none v_changing tr → op_good targetID v (pre ++ tr)) as Hquiet by (intros tr H; by apply none_guarded, none_app).
  destruct validate as [[]|e]; cbn [bind always]; [|apply Hquiet, none_nil].
  eapply always_call; [apply lift_spec, (routed_run_locked t op (key_of targetID v t) force s false Ha)|].
  intros tr rs (t0 & -> & Hsh). apply (run_part targetID v t pre) in Hsh; [|done|by apply Hv|done].
  assert (∀ tail, none v_changing tail → op_good targetID v (pre ++ (lift_event (@VHost) <$> t0) ++ tail)) as Hend.
  { intros tail Ht. apply guarded_app; [by apply none_guarded|]. apply guarded_app; [exact Hsh|by apply none_guarded]. }
  destruct rs.1.1 as [r|e]; cbn [bind always]; [|apply Hend, none_nil]. eapply always_mono; [|apply Hr]. intros tail a. apply Hend.
Qed.
Lemma with_client_good {B} targetID v (args : res B) body :
  (∀ b t, args = Ok b → always (body b t) (λ tr _, op_good targetID v ([Ev (VOpen targetID) (Ok t); Ev VResolve (Ok tt)] ++ tr))) →
  always (with_client args targetID body) (λ tr _, op_good targetID v tr).
Proof.
  intros Hb. unfold with_client, deferring. destruct args as [b|e]; cbn [bind trigger always]; [|by apply none_guarded, none_nil].
  intros [t|e]; cbn [bind trigger always]; [|by apply none_guarded, none_cons, none_nil].
  intros [[]|e]; cbn [bind trigger always].
  - eapply always_call; [by apply (Hb b t)|]. intros tr r Hg. cbn. intros [].
    change (op_good targetID v (([Ev (VOpen targetID) (Ok t); Ev VResolve (Ok tt)] ++ tr) ++ [Ev VClose tt])).
    apply guarded_app; [exact Hg|by apply none_guarded, none_cons, none_nil].
  - intros []. apply none_guarded. do 3 (apply none_cons; [done|]). apply none_nil.
Qed.
Ltac op_verb_good v := apply (with_client_good _ v); intros ? ? ?; apply (run_command_good _ v);
  [by left|by do 2 (apply none_cons; [done|]); apply none_nil|by do 2 (apply none_cons; [done|]); apply none_nil| |
   |intros; try apply changed_idle; try apply say_idle].
Lemma op_command_good sum256 targetID v : always (op_command sum256 targetID v) (λ tr _, op_good targetID v tr).
Proof.
  destruct v as [iface mgmt kv|iface mgmt|iface kv|storage ctype force|storage filename size arg format force|name typ data force]; cbn [op_command].
  - op_verb_good (BridgeCreate iface mgmt kv); [intros Hv; by eexists|apply bridge_asks].
  - op_verb_good (BridgeDestroy iface mgmt); [|apply bridge_asks]. by simplify_eq.
  - op_verb_good (NetworkSet iface kv); [intros Hv; by eexists|apply netfields_asks|].
    eapply always_call; [apply outs_idle|]. intros tr [[]|e] Ht; cbn [always]; [|by rewrite app_nil_r].
    apply always_bind. eapply always_mono; [|apply warn_idle]. intros tr' [] Ht'. cbn. rewrite app_nil_r. by apply none_app.
  - op_verb_good (SetContent storage ctype force); [done|apply setc_asks].
  - op_verb_good (Alloc storage filename size arg format force); [intros Hv; by eexists|apply alloc_asks].
  - op_verb_good (CreateStorage_ name typ data force); [intros Hv; by eexists|apply screate_asks].
Qed.

(** * Properties *)
(** C17: A network or storage command changes something only with arguments its Op accepts, and only
    while it holds the lock of the one object it names: the node's network, whatever the interface,
    or the storage. *)
Theorem op_command_locked sum256 targetID v :
  always (op_command sum256 targetID v) (λ tr _, guarded v_changing (λ pre _, locked_change targetID v pre) tr).
Proof. apply op_command_good. Qed.
(** The raw API's lock on such an object is the lock of the commands that change it: for every
    path below a node's network, a storage or a VM, whatever follows. *)
Lemma api_locks_agree targetID node storage vmid rest :
  one_segment node → one_segment storage → (0 ≤ vmid ≤ max_int64)%Z → tail rest →
  apiObjectKey targetID ("/nodes/" +:+ node +:+ "/network" +:+ rest) = Some (NetworkLockKey targetID node) ∧
  apiObjectKey targetID ("/nodes/" +:+ node +:+ "/storage/" +:+ storage +:+ rest) = Some (storage_key targetID storage) ∧
  apiObjectKey targetID ("/storage/" +:+ storage +:+ rest) = Some (storage_key targetID storage) ∧
  apiObjectKey targetID ("/nodes/" +:+ node +:+ "/qemu/" +:+ itoa vmid +:+ rest) = Some (vm_key targetID vmid).
Proof.
  intros Hn Hs Hv Ht. split_and!; apply names_key.
  - by apply (names_network targetID node "" rest); [|left|].
  - by apply names_node_storage.
  - by apply names_storage.
  - apply names_vm; [done| |apply itoa_digits; lia|by apply atoi_itoa|done]. intros He.
    assert (atoi (itoa vmid) = Some vmid) as Ha by by apply atoi_itoa. rewrite He in Ha. by vm_compute in Ha.
Qed.

(** * Examples *)
Example storage_type_twice : create_storage_params "dir" ["type=nfs"] =
  Er (errorf "storage create: set the type with --type, not --data type=").
Proof. vm_compute. reflexivity. Qed.
Example wanted_twice : wantedFieldsFromKVArgs ["mtu=9000"; "mtu=1500"] = Er (errorf ("duplicate field " +:+ quote "mtu" +:+ " given more than once")).
Proof. vm_compute. reflexivity. Qed.
(** A storage whose config has no snippets yet; the log is of the locks and of what is changed. *)
Definition lab_storage_pve : env pveE (bool * list string) := λ R e s,
  match e in pveE R return R * (bool * list string) with
  | Http m p _ => (HResp 200 "200 OK" (double_quoted "{'data':{'storage':'local'}}"), (true, (m +:+ " " +:+ p) :: s.2))
  | PcRawMap _ => (Ok (Some (list_to_map [("storage", JStr "local"); ("type", JStr "dir"); ("digest", JStr "d");
                                          ("content", JStr (if s.1 then "iso,snippets" else "iso"))])), s)
  | e => ((rest_env (λ _ _ _, HTransport (errorf "down")) _ e tt).1, s)
  end.
Definition lab_storage : env vmE (bool * list string) := λ R e s,
  match e in vmE R return R * (bool * list string) with
  | VOpenRoot _ => (Er (errorf "down"), s) | VConnect => (Ok tt, s)
  | VOpen t => (Ok {| target_ID := t; Host := "h"; Node := "n"; SSH := None |}, s)
  | VClose => (tt, s) | VResolve => (Ok tt, s) | VLock _ => (Ok tt, s) | VReadLock _ => (Ok tt, s) | VUnlock => (tt, s)
  | VReadFile _ => (Er (errorf "down"), s) | VCtx => (None, s) | VSelect => (WTick, s)
  | VRoot e => match e in rootE R return R * (bool * list string) with
               | RRun _ _ => (Er (errorf "down"), s) | RListUsers => (Er (errorf "down"), s) | RListGroups => (Er (errorf "down"), s)
               end
  | VHost e => match e in hostE R return R * (bool * list string) with
               | HPve e => lab_storage_pve _ e s
               | HSsh e => match e in sshE R return R * (bool * list string) with SRun _ => (Er (errorf "down"), s) end
               | HDecrypt _ => (Er (errorf "down"), s) | HDial _ _ _ _ => (Er (errorf "down"), s) | HClose => (tt, s)
               | HLock k => (Ok tt, (s.1, ("lock " +:+ key_String k) :: s.2)) | HUnlock => (tt, (s.1, "unlock" :: s.2))
               end
  | VOut l => (Ok tt, (s.1, l :: s.2)) | VNote _ => (tt, s) | VRender _ _ => (Ok tt, s)
  end.
Definition lab_set_content (had : bool) : option (res unit * list string) :=
  match run lab_storage (op_command id "pve1" (SetContent "local" "snippets" false)) (had, []) with
  | Some (_, r, s) => Some (r, reverse s.2)
  | None => None
  end.
Example set_content_runs : lab_set_content false = Some (Ok tt,
  ["lock pve1/storage/local"; "PUT /storage/local"; "unlock"; "pve1: storage local now lists content type " +:+ quote "snippets"]).
Proof. vm_compute. reflexivity. Qed.
Example set_content_done : lab_set_content true = Some (Ok tt,
  ["lock pve1/storage/local"; "unlock"; "pve1: storage local already lists content type " +:+ quote "snippets" +:+ "; nothing to do"]).
Proof. vm_compute. reflexivity. Qed.
